(* ===== verification/_CoqProject ===== *)
-Q . S2P
Prelude.v
ReplayWindow.v
Packet.v
Double.v
Gf256.v
Fec.v
FecEncoder.v
FecDecoder.v
FecReference.v
FecRecovery.v
FecEmission.v
FecDelivery.v
Nonce.v
Handshake.v
Text.v
Address.v
Routing.v
Timers.v
Qos.v
Blake2sRfc.v
Blake2s.v
Crypto.v
Noise.v
Session.v
SessionTable.v
Cookie.v
RateLimit.v
ControlPlane.v
ControlIds.v
ControlExchange.v
ControlReplay.v
DnsFramer.v
SshFramer.v
Obfuscation.v
Offload.v
Coalescer.v
PathSelector.v
Congestion.v
FecBytes.v
Worker.v
WorkerIngress.v
WorkerDelivery.v
Parallel.v
Spoof.v
Reality.v
Camouflage.v
CamouflageRecords.v
CamouflageFlow.v
Tcp.v
TcpStream.v
TcpLink.v
TcpCalls.v
TcpGreeting.v
Config.v
ConfigValid.v
Udp.v
UdpBatches.v
Icmp.v
IcmpLink.v
RawProto.v
RawProtoLink.v
SpoofPacket.v
Carrier.v
CarrierLink.v
TcpCarrier.v
TcpCarrierCalls.v
Fallback.v
FallbackRelay.v
Runtime.v
RuntimeReload.v
RuntimeDial.v
RuntimeLiveness.v
RuntimeEcho.v
Failover.v
FailoverMoves.v
WorkerPromotion.v
