(* ===== verification/Prelude.v ===== *)
(** Norr, an encrypted layer 3 tunnel: a verification of its core.

    * The program

    Norr carries IP packets between peers inside encrypted datagrams.  A
    packet read from the tunnel device is parsed ([ip_packet]), classified
    against the routing table ([routing]) and queued by traffic class ([qos]);
    a worker ([worker]) seals it in the session of its peer ([session],
    [crypto], [nonce], [packet]), protects groups of packets with parity
    symbols ([fec]) and hands the datagram to a carrier ([carrier]), which may
    disguise it ([obfuscation], [dns_framer], [ssh_framer], [camouflage]) and
    sends it over a transport (UDP, TCP, ICMP or raw IP).  On the way in the
    datagram is unwrapped, parsed, opened and checked against the replay window
    ([replay_window]), lost packets are recovered from parity, and the sender
    is checked against the routes it owns.  Sessions come from a Noise
    handshake ([noise], [handshake], [handshake_frame], [capability],
    [key_schedule], [blake2s]) run by the control plane ([control_plane]); it
    is protected against floods by limits, MACs and cookies ([rate_limit],
    [load_monitor], [cookie]), is driven by timers ([timers]) and installs its
    keys in the session table ([session]).  The runtime ([runtime]) reads the
    configuration ([config]), keeps peers alive and changes the transport when
    one fails ([path_selector]).

    * The files

    [Prelude]: results of fallible code, machine words, spans, automation.
    [Double]: binary64 arithmetic.  [Text]: [std::string_view] and [charconv].

    Data channel.  [ReplayWindow] is [src/replay_window.cpp].  [Packet] is
    [src/packet.cpp].  [Nonce] is [src/nonce.cpp] and [src/key_schedule.cpp].
    [Crypto] is [TrafficKeys] and its context cache of [src/crypto.cpp].
    [Session] and [SessionTable] are the two classes of [src/session.cpp].
    [Gf256] (tables and field), [Fec] (plan and symbol header), [FecEncoder]
    and [FecDecoder] (the classes) are [src/fec.cpp]; [FecReference] has the
    decoder as total functions, and [FecRecovery], [FecEmission],
    [FecDelivery] and [FecBytes] hold their theorems.

    Handshake.  [Handshake] is [src/handshake.cpp], [src/handshake_frame.cpp]
    and [src/capability.cpp].  [Blake2s] is [src/blake2s.cpp], against the
    hash of RFC 7693 in [Blake2sRfc]; [Noise] is [src/noise.cpp] with the key exchange of [src/crypto.cpp], [Cookie] is
    [src/cookie.cpp], [RateLimit] is [src/rate_limit.cpp] and
    [src/load_monitor.cpp], [Timers] is [src/timers.cpp].  [ControlPlane] is
    [src/control_plane.cpp]; [ControlIds], [ControlExchange] and
    [ControlReplay] hold its theorems.

    Packets.  [Address] is [src/address.cpp] and [src/endpoint.cpp].
    [Routing] is [src/ip_packet.cpp], [src/flow_hash.cpp] and
    [src/routing.cpp].  [Qos] is [src/qos.cpp], [Congestion] is
    [src/congestion.cpp] and [src/pacer.cpp].  [Offload] and [Coalescer] are
    [src/offload.cpp].  [Worker] is [src/worker.cpp], with its theorems in
    [WorkerIngress] and [WorkerDelivery]; [WorkerPromotion] joins it to the
    control plane; [Parallel] is its helper threads, [src/parallel.cpp].

    Disguises.  [DnsFramer], [SshFramer] and [Obfuscation] are the files of
    these names.  [Reality] is [src/reality.cpp]; [Camouflage] is
    [src/camouflage.cpp], with theorems in [CamouflageRecords] and
    [CamouflageFlow].  [Spoof] is [src/spoof_pool.cpp],
    [src/spoof_feedback.cpp] and [src/spoof_envelope.cpp]; [SpoofPacket] is
    [src/spooftest.cpp] and [src/spoof_sender.cpp].

    Transports and carriers.  [Tcp] is [src/tcp_transport.cpp] and the session
    calls of [src/tls.cpp], with theorems in [TcpStream], [TcpLink], [TcpCalls]
    and [TcpGreeting].  [Udp] ([UdpBatches]), [Icmp] ([IcmpLink]) and
    [RawProto] ([RawProtoLink]) are the datagram transports.  [Carrier]
    ([CarrierLink]) and [TcpCarrier] ([TcpCarrierCalls]) are [src/carrier.cpp].
    [Fallback] ([FallbackRelay]) is [src/fallback_proxy.cpp].

    Runtime.  [Config] ([ConfigValid]) is [src/config.cpp].  Of
    [src/runtime.cpp], [Runtime] ([RuntimeReload]) is [reload], [RuntimeDial]
    ([RuntimeLiveness]) the dialling of peers, [RuntimeEcho] the round trip
    times, [PathSelector] ([src/path_selector.cpp]) and [Failover]
    ([FailoverMoves]) the change of the transport.

    Each class is a [Record] with the members' names and each member function a
    definition with its name, the object going in and coming out.

    * How the code is modelled

    A [std::expected] is [Ok] or [Fail]; an access outside a span, an array or
    a vector is [Ub], and the code is shown not to reach it.  Code that threads
    state through many calls is written in the state and error monad [effect].
    Integers are [Z] with the wrap-around of their width written out ([u8] to
    [u64]).  Bytes are integers below 256 and texts are lists of character
    codes.  A clock reading is an argument in nanoseconds.  Members that hold a
    mutex are atomic steps; where several threads share an object ([Session],
    [SessionTable]) the theorems quantify over every interleaving of steps, and
    [Parallel] interleaves the single accesses of its threads, in the
    sequentially consistent order of its atomics.  Vectors that the code reuses
    between calls ([FecEncoder], [Coalescer]) are kept with their old contents.

    Code outside the repository is a parameter with the laws its documentation
    gives: the AEAD ciphers (class [Aead], laws [AeadLaws], instance
    [toy_aead]), the curve ([Dh], [DhLaws], [toy_dh]), the cipher of the
    cookies ([CookieCipher]), the stream cipher of the obfuscation
    ([Keystream]), random bytes, [std::pow], and the heap functions of the C++
    library ([HeapFunctions], instance [sorting_heap]).  What the system does
    is an argument: the clocks and statuses in [Env], the answers of a socket
    in [Socket] and the records of the datagram transports, readiness and
    counters of the carriers in [CarrierView].  A worker sees the rest of the
    node through [Surroundings] and [Handlers] with [HandlerLaws], which the
    control plane satisfies ([promoting_laws]); a stream
    transport its framing through [Framing] with [FramingLaws]; a carrier its
    transport through [DatagramTransport] with [DatagramTransportLaws], which
    the three transports satisfy.

    Loops that are not structural take fuel.  It is the number of bytes, bits,
    entries or answers of the system still to be used plus a constant, each
    turn consumes at least one of them, and lemmas show that the allotment is
    enough: [clear_loop_spec], [allocate_loop_spec], [update_loop_spec],
    [encode_loop_enough], [skip_name_enough], [expand_loop_spec],
    [fold_loop_enough], [segment_loop_spec], [next_payload_total],
    [extension_loop_in_bounds], [write_loop_spec], [read_loop_spec],
    [sendmmsg_loop_spec], [relay_drain_loop_spec], [pull_loop_spec] and the
    like.

    * What is proved

    Replay protection: the bitmap refines the set of accepted counters
    ([replay_window_refines]) and accepts none twice.
    Sessions: under every interleaving the send counters are consecutive, so no
    nonce repeats, and no counter is delivered twice; a sealed frame is opened
    exactly once with its plaintext; the cipher always runs under the session's
    own key whatever the context cache did.
    Session table: an invariant of all reachable tables, and uninterrupted
    rekeying.
    Erasure code: the field laws, the equivalence of the vector back ends, the
    exact parity emitted, delivery of all packets of a block from any [k] of
    its symbols, and, for whatever symbols arrive, that the decoder stays within
    its matrices, rows and recovered symbols and keeps a bounded state.
    Handshake: both ends of a Noise handshake agree on keys, and two control
    planes that exchange their datagrams install matching sessions, whatever
    other handshakes are pending; key ids never meet; an initiation is answered
    only when the timestamp it carries is newer than all answered before;
    cookies are honoured for two minutes across secret rotations.
    Data path: what a worker writes to the tunnel is authentic, fresh and from
    a source its peer owns; a frame that enters at one worker leaves at the
    other, with segmentation offload on or off; the frames of the coalescer
    deliver the packets that went into them; helper threads run every job once
    and every run ends.
    Formats: packet, FEC, handshake, cookie, DNS and SSH framing and the text
    of addresses, prefixes and endpoints round trip; parsers accept exactly the
    well-formed inputs and stay in bounds; accepted configurations are valid.
    Routing: longest-prefix match, and forwarding only from authorised sources.
    Hashing: streaming BLAKE2s is the hash of RFC 7693, written from the RFC
    apart from the code; HMAC is RFC 2104, HKDF RFC 5869.
    Streams and datagrams: TCP, UDP, raw IP and the carriers deliver what they
    were given, in order, under any answers of the system, and every call
    returns; the camouflage carries a session and its client trusts only a
    server that proved itself; the fallback proxy relays without loss.
    Runtime: a reload makes the node agree with the file; dead peers are
    dialled again; the transport is changed exactly when it has failed and
    another may be tried.
    Queues and timers: exact accounting and FIFO order in the scheduler, and
    bounded waiting; timers fire in order and all that are due.

    * What is not modelled

    The QUIC transport and its carrier: every operation is a sequence of calls
    of ngtcp2 and its TLS binding.  The tunnel device, the io_uring back end,
    privileges and tuning: system calls.  Of [runtime.cpp]: the start-up and
    the poll loop, which wire sockets, devices and the parts above together,
    the hand-over of accepted TCP connections, [send_control], loss reports and
    the congestion samples.  Of [tls.cpp]: the contexts and certificates of
    OpenSSL.  The text of metrics and logs, the command line tools, benchmarks
    and tests. *)

From Stdlib Require Export ZArith Lia.
From stdpp Require Export prelude gmap list.

#[export] Set Default Goal Selector "!".

Open Scope Z_scope.

(** ** Scopes and notations *)

Declare Scope norr_scope.
Delimit Scope norr_scope with norr.

(** ** Results of fallible code

    [Ok] and [Fail] are the two states of a [std::expected]; [Ub] is the
    outcome of an access outside a span, array or vector, which C++ leaves
    undefined.  Every theorem about a parser states that [Ub] is not reached. *)
Inductive res (E A : Type) : Type :=
| Ok (a : A)
| Fail (e : E)
| Ub.
Arguments Ok {E A} a.
Arguments Fail {E A} e.
Arguments Ub {E A}.

Definition rbind {E A B} (m : res E A) (f : A → res E B) : res E B :=
  match m with
  | Ok a => f a
  | Fail e => Fail e
  | Ub => Ub
  end.

(** [if (cond) return std::unexpected(err); rest] *)
Definition guard {E A} (cond : bool) (err : E) (rest : res E A) : res E A :=
  if cond then Fail err else rest.

Notation "'let*' x ':=' m 'in' f" := (rbind m (fun x => f))
  (at level 10, x name, m at level 100, f at level 200) : norr_scope.
Notation "'throw' e 'when' c 'else' k" := (guard c e k)
  (at level 10, e at level 9, c at level 100, k at level 200) : norr_scope.
Open Scope norr_scope.

Definition no_ub {E A} (r : res E A) : Prop := r ≠ Ub.

Definition ok_opt {E A} (r : res E A) : option A :=
  match r with Ok a => Some a | _ => None end.

(** ** Stateful fallible code

    A member function with effects takes the state and returns it with its
    result, so that an early return leaves the state as far as the code got. *)

Definition effect (S E A : Type) : Type := S → S * res E A.

Definition sret {S E A} (a : A) : effect S E A := λ w, (w, Ok a).
Definition sbind {S E A B} (m : effect S E A) (f : A → effect S E B) : effect S E B :=
  λ w, match m w with
       | (w, Ok a) => f a w
       | (w, Fail e) => (w, Fail e)
       | (w, Ub) => (w, Ub)
       end.
Notation "'bind' x ':=' m 'in' f" := (sbind m (fun x => f))
  (at level 10, x name, m at level 100, f at level 200) : norr_scope.

Definition lift {S E A} (r : res E A) : effect S E A := λ w, (w, r).
Definition gets {S E A} (f : S → A) : effect S E A := λ w, (w, Ok (f w)).
Definition modify {S E} (f : S → S) : effect S E unit := λ w, (f w, Ok tt).
(** [if (bad) return std::unexpected(e);] *)
Definition check {S E} (bad : bool) (e : E) : effect S E unit := λ w, (w, if bad then Fail e else Ok tt).

(** The state itself, and an alternative for when [m] fails. *)
Definition state {S E} : effect S E S := gets (λ w, w).
Definition otherwise {S E A} (m k : effect S E A) : effect S E A :=
  λ w, match m w with (w, Fail _) => k w | r => r end.

(** The error of one component reported as another's. *)
Definition recast {E E' A} (f : E → E') (r : res E A) : res E' A :=
  match r with Ok a => Ok a | Fail e => Fail (f e) | Ub => Ub end.

Lemma sbind_ok {S E A B} (m : effect S E A) (f : A → effect S E B) w w' a :
  m w = (w', Ok a) → sbind m f w = f a w'.
Proof. unfold sbind. by intros ->. Qed.

Lemma check_ok {S E} b (e : E) (w : S) : b = false → check b e w = (w, Ok tt).
Proof. by intros ->. Qed.

(** A relation between the states before and after, whatever the result. *)
Definition respects {S E A} (R : S → S → Prop) (m : effect S E A) : Prop := ∀ s, R s (m s).1.

(** [Q] after a success, [I] after a failure. *)
Definition triple {S E A} (P : S → Prop) (m : effect S E A) (Q : A → S → Prop) (I : S → Prop) : Prop :=
  ∀ s, P s → match (m s).2 with Ok a => Q a (m s).1 | _ => I (m s).1 end.

Section effects.
Context {S E : Type} (R : S → S → Prop) `{!PreOrder R}.

Lemma respects_bind {A B} (m : effect S E A) (f : A → effect S E B) :
  respects R m → (∀ a, respects R (f a)) → respects R (sbind m f).
Proof.
  intros Hm Hf s. specialize (Hm s). unfold sbind. destruct (m s) as [s1 [a|e|]]; cbn in *; [|done..].
  etransitivity; [exact Hm|apply Hf].
Qed.

Lemma respects_ret {A} (a : A) : respects (E:=E) R (sret a).
Proof. intros s. reflexivity. Qed.
Lemma respects_lift {A} (r : res E A) : respects R (lift r).
Proof. intros s. reflexivity. Qed.
Lemma respects_gets {A} (f : S → A) : respects (E:=E) R (gets f).
Proof. intros s. reflexivity. Qed.
Lemma respects_check b (e : E) : respects R (check b e).
Proof. intros s. reflexivity. Qed.
Lemma respects_modify (f : S → S) : (∀ s, R s (f s)) → respects (E:=E) R (modify f).
Proof. intros Hf s. apply Hf. Qed.
Lemma respects_otherwise {A} (m k : effect S E A) : respects R m → respects R k → respects R (otherwise m k).
Proof.
  intros Hm Hk s. specialize (Hm s). unfold otherwise. destruct (m s) as [s1 [a|e|]]; cbn in *; [done| |done].
  etransitivity; [exact Hm|apply Hk].
Qed.

Lemma triple_bind {A B} (m : effect S E A) (f : A → effect S E B) P M Q (I : S → Prop) :
  triple P m M I → (∀ a, triple (M a) (f a) Q I) → triple P (sbind m f) Q I.
Proof.
  intros Hm Hf s Hs. specialize (Hm s Hs). unfold sbind. destruct (m s) as [s1 [a|e|]]; cbn in *; [|done..].
  by apply Hf.
Qed.

Lemma triple_weaken {A} (m : effect S E A) (P P' : S → Prop) Q Q' I :
  (∀ s, P' s → P s) → (∀ a s, Q a s → Q' a s) → triple P m Q I → triple P' m Q' I.
Proof. intros HP HQ Hm s Hs. specialize (Hm s (HP s Hs)). destruct (m s) as [s1 [a|e|]]; cbn in *; auto. Qed.

Lemma triple_state {A} (f : S → effect S E A) (P : S → Prop) Q I :
  (∀ s, P s → triple (λ s', s' = s) (f s) Q I) → triple P (sbind state f) Q I.
Proof. intros Hf s Hs. by apply (Hf s Hs s). Qed.

Lemma triple_check {A} b (e : E) (f : unit → effect S E A) (P : S → Prop) Q (I : S → Prop) :
  (∀ s, P s → I s) → (b = false → triple P (f tt) Q I) → triple P (sbind (check b e) f) Q I.
Proof. intros HI Hf s Hs. unfold sbind, check. destruct b; [by apply HI|by apply Hf]. Qed.

Lemma triple_fail {A} (r : res E A) (P : S → Prop) Q (I : S → Prop) :
  (∀ s, P s → I s) → ok_opt r = None → triple P (lift r) Q I.
Proof. intros HI Hr s Hs. unfold lift. destruct r; [done|by apply HI..]. Qed.

(** What holds of all states related to a good one. *)
Lemma triple_respects {A} (m : effect S E A) (P : S → Prop) :
  respects R m → (∀ s s', R s s' → P s → P s') → triple P m (λ _, P) P.
Proof. intros Hm HP s Hs. specialize (Hm s). destruct (m s) as [s1 [a|e|]]; cbn in *; eauto. Qed.
End effects.

(** ** Machine integers: a [w]-bit unsigned integer is a [Z] kept in range *)

Definition u8 (z : Z) : Z := z mod 2 ^ 8.
Definition u16 (z : Z) : Z := z mod 2 ^ 16.
Definition u32 (z : Z) : Z := z mod 2 ^ 32.
Definition u64 (z : Z) : Z := z mod 2 ^ 64.

Definition is_u8 (z : Z) : Prop := 0 ≤ z < 2 ^ 8.
Definition is_u16 (z : Z) : Prop := 0 ≤ z < 2 ^ 16.
Definition is_u32 (z : Z) : Prop := 0 ≤ z < 2 ^ 32.
Definition is_u64 (z : Z) : Prop := 0 ≤ z < 2 ^ 64.

Definition UINT64_MAX : Z := 2 ^ 64 - 1.

(** ** Spans of bytes *)

Definition bytes_ok (bs : list Z) : Prop := Forall is_u8 bs.

Definition blen (bs : list Z) : Z := Z.of_nat (length bs).

(** [bs[o]] *)
Definition rd {E} (bs : list Z) (o : nat) : res E Z :=
  match bs !! o with Some b => Ok b | None => Ub end.

(** [bs[o] = v] *)
Definition wr {E} (bs : list Z) (o : nat) (v : Z) : res E (list Z) :=
  if decide (o < length bs)%nat then Ok (<[o := v]> bs) else Ub.

(** [bs.subspan(o)], [bs.subspan(o, n)] and [bs.first(n)] *)
Definition subspan_from {E} (bs : list Z) (o : nat) : res E (list Z) :=
  if decide (o ≤ length bs)%nat then Ok (drop o bs) else Ub.
Definition subspan {E} (bs : list Z) (o n : nat) : res E (list Z) :=
  if decide (o + n ≤ length bs)%nat then Ok (take n (drop o bs)) else Ub.
Definition span_first {E} (bs : list Z) (n : nat) : res E (list Z) :=
  if decide (n ≤ length bs)%nat then Ok (take n bs) else Ub.

(** [std::copy(src, out.begin() + o)] into a buffer with room for it *)
Definition blit {E} (out : list Z) (o : nat) (src : list Z) : res E (list Z) :=
  if decide (o + length src ≤ length out)%nat
  then Ok (take o out ++ src ++ drop (o + length src) out)
  else Ub.

(** ** Big-endian numbers: the value of a byte string and the bytes of a value *)

Definition be_value (l : list Z) : Z := fold_left (λ acc x, acc * 256 + x) l 0.

Fixpoint be_bytes (n : nat) (v : Z) : list Z :=
  match n with
  | O => []
  | S n => u8 (Z.shiftr v (Z.of_nat n * 8)) :: be_bytes n v
  end.

(** ** Time: nanoseconds of [std::chrono::steady_clock]; [Instant{}] is 0 *)

Abbreviation Instant := Z (only parsing).
Abbreviation Duration := Z (only parsing).
Definition milliseconds (n : Z) : Z := n * 1000000.
Definition seconds (n : Z) : Z := n * 1000000000.
Definition minutes (n : Z) : Z := seconds (60 * n).

(** ** Automation *)

Create HintDb norr discriminated.
#[export] Hint Constants Opaque : norr.

(** Unfold the widths before [lia]. *)
Ltac unfold_words :=
  unfold is_u8, is_u16, is_u32, is_u64, u8, u16, u32, u64, UINT64_MAX,
    seconds, milliseconds, minutes in *.
Ltac word_lia := unfold_words; simpl in *; lia.

(** Split the branches of a [guard]ed computation that did not fail. *)
Ltac unguard H :=
  repeat match type of H with
  | guard ?c _ _ = Ok _ =>
      let G := fresh "G" in unfold guard at 1 in H; destruct c eqn:G; [discriminate H|]
  end.

(** Boolean tests of the code as propositions. *)
Ltac reflect_bools :=
  repeat match goal with
  | H : (_ && _) = true |- _ => apply andb_true_iff in H as [? ?]
  | H : (_ || _) = false |- _ => apply orb_false_iff in H as [? ?]
  | H : negb _ = true |- _ => apply negb_true_iff in H
  | H : negb _ = false |- _ => apply negb_false_iff in H
  | H : (_ =? _) = true |- _ => apply Z.eqb_eq in H
  | H : (_ =? _) = false |- _ => apply Z.eqb_neq in H
  | H : (_ <? _) = true |- _ => apply Z.ltb_lt in H
  | H : (_ <? _) = false |- _ => apply Z.ltb_ge in H
  | H : (_ <=? _) = true |- _ => apply Z.leb_le in H
  | H : (_ <=? _) = false |- _ => apply Z.leb_gt in H
  | H : (_ >=? _) = true |- _ => rewrite Z.geb_leb in H
  | H : (_ >=? _) = false |- _ => rewrite Z.geb_leb in H
  | H : (_ >? _) = true |- _ => rewrite Z.gtb_ltb in H
  | H : (_ >? _) = false |- _ => rewrite Z.gtb_ltb in H
  end.

(** Name the first [n] elements of a list known to be long enough. *)
Ltac explode l n :=
  lazymatch n with
  | O => idtac
  | S ?m =>
      let x := fresh "b" in
      let r := fresh "rest" in
      destruct l as [|x r];
      [exfalso; unfold blen in *; simpl in *; lia | explode r m]
  end.

(** Well-formedness of an explicit byte string. *)
Ltac solve_bytes :=
  unfold bytes_ok in *;
  repeat first [assumption | apply Forall_nil_2 | apply Forall_cons_2];
  auto with norr.

(** ** Lemmas on machine integers *)

Lemma u8_range z : is_u8 (u8 z).
Proof. unfold_words. apply Z.mod_pos_bound. lia. Qed.
Lemma u16_range z : is_u16 (u16 z).
Proof. unfold_words. apply Z.mod_pos_bound. lia. Qed.
Lemma u32_range z : is_u32 (u32 z).
Proof. unfold_words. apply Z.mod_pos_bound. lia. Qed.
Lemma u64_range z : is_u64 (u64 z).
Proof. unfold_words. apply Z.mod_pos_bound. lia. Qed.
#[export] Hint Resolve u8_range u16_range u32_range u64_range : norr.

Lemma u8_id z : is_u8 z → u8 z = z.
Proof. unfold_words. apply Z.mod_small. Qed.
Lemma u16_id z : is_u16 z → u16 z = z.
Proof. unfold_words. apply Z.mod_small. Qed.
Lemma u32_id z : is_u32 z → u32 z = z.
Proof. unfold_words. apply Z.mod_small. Qed.
Lemma u64_id z : is_u64 z → u64 z = z.
Proof. unfold_words. apply Z.mod_small. Qed.

(** Putting a field below a shifted one is an addition. *)
Lemma lor_shiftl_add a b n : 0 ≤ n → 0 ≤ b < 2 ^ n →
  Z.lor (Z.shiftl a n) b = a * 2 ^ n + b.
Proof.
  intros Hn Hb. rewrite Z.shiftl_mul_pow2 by done.
  rewrite <- Z.add_lor_land.
  assert (Z.land (a * 2 ^ n) b = 0) as ->; [|lia].
  apply Z.bits_inj'. intros i Hi. rewrite Z.land_spec, Z.bits_0.
  destruct (decide (i < n)).
  - rewrite Z.mul_pow2_bits_low by lia. done.
  - replace (Z.testbit b i) with false; [apply andb_false_r|].
    symmetry. rewrite <- (Z.mod_small b (2 ^ n)) by lia.
    apply Z.mod_pow2_bits_high. lia.
Qed.

Lemma shiftr_div a n : 0 ≤ n → Z.shiftr a n = a / 2 ^ n.
Proof. apply Z.shiftr_div_pow2. Qed.

(** A nonnegative integer is below [2 ^ n] when its bits from [n] on are off. *)
Lemma bits_bound a n : 0 ≤ n → 0 ≤ a → (∀ i, n ≤ i → Z.testbit a i = false) → 0 ≤ a < 2 ^ n.
Proof.
  intros Hn Ha Hb. split; [done|].
  rewrite <- (Z.mod_small a (2 ^ n)); [apply Z.mod_pos_bound; lia|]. split; [done|].
  destruct (decide (a < 2 ^ n)); [done|].
  assert (n ≤ Z.log2 a) as Hl.
  { rewrite <- (Z.log2_pow2 n) by done. apply Z.log2_le_mono. lia. }
  specialize (Hb _ Hl). rewrite Z.bit_log2 in Hb; [done|].
  pose proof (Z.pow_pos_nonneg 2 n). lia.
Qed.

Lemma bits_above a n i : 0 ≤ a < 2 ^ n → n ≤ i → Z.testbit a i = false.
Proof.
  intros Ha Hi. destruct (decide (0 ≤ n)); [|rewrite Z.pow_neg_r in Ha; lia].
  rewrite <- (Z.mod_small a (2 ^ n)) by done. apply Z.mod_pow2_bits_high. lia.
Qed.

Lemma lor_bound a b n : 0 ≤ n → 0 ≤ a < 2 ^ n → 0 ≤ b < 2 ^ n → 0 ≤ Z.lor a b < 2 ^ n.
Proof.
  intros Hn Ha Hb. apply bits_bound; [done|apply Z.lor_nonneg; lia|].
  intros i Hi. by rewrite Z.lor_spec, !(bits_above _ n).
Qed.

Lemma lxor_bound a b n : 0 ≤ n → 0 ≤ a < 2 ^ n → 0 ≤ b < 2 ^ n → 0 ≤ Z.lxor a b < 2 ^ n.
Proof.
  intros Hn Ha Hb. apply bits_bound; [done|apply Z.lxor_nonneg; lia|].
  intros i Hi. by rewrite Z.lxor_spec, !(bits_above _ n).
Qed.

Lemma land_bound a b n : 0 ≤ n → 0 ≤ a < 2 ^ n → 0 ≤ Z.land a b < 2 ^ n.
Proof.
  intros Hn Ha. apply bits_bound; [done|apply Z.land_nonneg; lia|].
  intros i Hi. by rewrite Z.land_spec, (bits_above a n).
Qed.

(** ** Lemmas on spans *)

Lemma blen_nonneg bs : 0 ≤ blen bs.
Proof. unfold blen. lia. Qed.

Lemma blen_app bs cs : blen (bs ++ cs) = blen bs + blen cs.
Proof. unfold blen. rewrite length_app. lia. Qed.

Lemma rd_ok {E} bs o b : bs !! o = Some b → rd (E:=E) bs o = Ok b.
Proof. unfold rd. by intros ->. Qed.

Lemma subspan_from_ok {E} bs o : (o ≤ length bs)%nat →
  subspan_from (E:=E) bs o = Ok (drop o bs).
Proof. unfold subspan_from. intros. by rewrite decide_True. Qed.

Lemma subspan_ok {E} bs o n : (o + n ≤ length bs)%nat →
  subspan (E:=E) bs o n = Ok (take n (drop o bs)).
Proof. unfold subspan. intros. by rewrite decide_True. Qed.

Lemma span_first_ok {E} bs n : (n ≤ length bs)%nat → span_first (E:=E) bs n = Ok (take n bs).
Proof. unfold span_first. intros. by rewrite decide_True. Qed.

Lemma blit_ok {E} out o src : (o + length src ≤ length out)%nat →
  blit (E:=E) out o src = Ok (take o out ++ src ++ drop (o + length src) out).
Proof. unfold blit. intros. by rewrite decide_True. Qed.

Lemma length_blit {E} out o src out' :
  blit (E:=E) out o src = Ok out' → length out' = length out.
Proof.
  unfold blit. case_decide; [|done]. intros [= <-].
  rewrite !length_app, length_take, length_drop. lia.
Qed.

Lemma bytes_ok_app bs cs : bytes_ok (bs ++ cs) ↔ bytes_ok bs ∧ bytes_ok cs.
Proof. apply Forall_app. Qed.

Lemma bytes_ok_take n bs : bytes_ok bs → bytes_ok (take n bs).
Proof. apply Forall_take. Qed.

Lemma bytes_ok_drop n bs : bytes_ok bs → bytes_ok (drop n bs).
Proof. apply Forall_drop. Qed.
#[export] Hint Resolve bytes_ok_take bytes_ok_drop : norr.

(** ** Lemmas on big-endian numbers *)

Lemma be_value_acc l acc :
  fold_left (λ acc x, acc * 256 + x) l acc = acc * 256 ^ Z.of_nat (length l) + be_value l.
Proof.
  unfold be_value. revert acc. induction l as [|x l IH]; intros acc; [simpl; lia|].
  cbn [fold_left length]. rewrite IH, (IH (0 * 256 + x)), Nat2Z.inj_succ, Z.pow_succ_r by lia. lia.
Qed.

Lemma be_value_cons x l : be_value (x :: l) = x * 256 ^ Z.of_nat (length l) + be_value l.
Proof. unfold be_value at 1. cbn [fold_left]. rewrite be_value_acc. lia. Qed.

Lemma be_value_bound l : bytes_ok l → 0 ≤ be_value l < 256 ^ Z.of_nat (length l).
Proof.
  induction 1 as [|x l Hx Hl IH]; [by unfold be_value|].
  rewrite be_value_cons. cbn [length]. rewrite Nat2Z.inj_succ, Z.pow_succ_r by lia.
  unfold is_u8 in Hx. nia.
Qed.

Lemma length_be_bytes n v : length (be_bytes n v) = n.
Proof. induction n; simpl; congruence. Qed.

Lemma be_bytes_ok n v : bytes_ok (be_bytes n v).
Proof. induction n; constructor; auto using u8_range. Qed.
#[export] Hint Resolve be_bytes_ok : norr.

Lemma be_value_be_bytes n v : be_value (be_bytes n v) = v mod 256 ^ Z.of_nat n.
Proof.
  induction n as [|n IH]; [simpl; by rewrite Z.mod_1_r|].
  cbn [be_bytes]. rewrite be_value_cons, length_be_bytes, IH.
  rewrite Nat2Z.inj_succ, Z.pow_succ_r, Z.mul_comm by lia. rewrite (Z.mul_comm 256).
  rewrite Z.rem_mul_r by lia. rewrite shiftr_div by lia. unfold u8.
  replace (2 ^ (Z.of_nat n * 8)) with (256 ^ Z.of_nat n);
    [change (2 ^ 8) with 256; lia|].
  rewrite (Z.mul_comm (Z.of_nat n)), Z.pow_mul_r by lia. done.
Qed.

Lemma be_bytes_add n a v : be_bytes n (a * 256 ^ Z.of_nat n + v) = be_bytes n v.
Proof.
  revert a. induction n as [|n IH]; intros a; [done|]. cbn [be_bytes].
  rewrite Nat2Z.inj_succ, Z.pow_succ_r by lia. f_equal.
  - rewrite !shiftr_div by lia. rewrite (Z.mul_comm (Z.of_nat n)), Z.pow_mul_r by lia.
    change (2 ^ 8) with 256. unfold u8. change (2 ^ 8) with 256.
    rewrite Z.mul_assoc, Z.div_add_l by lia. by rewrite Z.add_comm, Z.mod_add.
  - rewrite Z.mul_assoc. apply IH.
Qed.

Lemma be_bytes_be_value l : bytes_ok l → be_bytes (length l) (be_value l) = l.
Proof.
  induction 1 as [|x l Hx Hl IH]; [done|].
  cbn [length be_bytes]. rewrite be_value_cons. f_equal; [|by rewrite be_bytes_add].
  pose proof (be_value_bound l Hl) as Hb. rewrite shiftr_div by lia.
  rewrite (Z.mul_comm (Z.of_nat _)), Z.pow_mul_r by lia. change (2 ^ 8) with 256.
  rewrite Z.div_add_l, Z.div_small, Z.add_0_r by lia. by apply u8_id.
Qed.

Lemma be_value_2 x y : be_value [x; y] = x * 256 + y.
Proof. unfold be_value. simpl. lia. Qed.

(** Recognise the explicit bytes of [v] and replace their value by [v]. *)
Lemma be_value_small n v : 0 ≤ v < 256 ^ Z.of_nat n → be_value (be_bytes n v) = v.
Proof. intros H. rewrite be_value_be_bytes. by apply Z.mod_small. Qed.

Ltac be_fold n v :=
  let E := fresh "E" in
  assert (be_value (be_bytes n v) = v) as E by (apply be_value_small; word_lia);
  cbn [be_bytes] in E; rewrite E; clear E.

Lemma be_value_range n l : bytes_ok l → length l = n → 0 ≤ be_value l < 256 ^ Z.of_nat n.
Proof. intros H <-. by apply be_value_bound. Qed.

(** The bytes of the value of an explicit byte string are that string. *)
Ltac be_unfold l :=
  let E := fresh "E" in
  assert (be_bytes (length l) (be_value l) = l) as E by (apply be_bytes_be_value; solve_bytes);
  cbn [length] in E; rewrite E; clear E.

(** ** Filters *)

Lemma filter_ext_in {A} (P Q : A → Prop) `{∀ x, Decision (P x), ∀ x, Decision (Q x)} (l : list A) :
  (∀ x, x ∈ l → P x ↔ Q x) → filter P l = filter Q l.
Proof.
  induction l as [|x l IH]; intros Heq; [done|].
  assert (P x ↔ Q x) as Hx by (apply Heq; left).
  assert (filter P l = filter Q l) as Hl by (apply IH; intros y Hy; apply Heq; by right).
  destruct (decide (P x)).
  - rewrite !filter_cons_True by tauto. by rewrite Hl.
  - rewrite !filter_cons_False by tauto. done.
Qed.

Lemma filter_none {A} (P : A → Prop) `{∀ x, Decision (P x)} (l : list A) :
  (∀ x, x ∈ l → ¬ P x) → filter P l = [].
Proof.
  induction l as [|x l IH]; intros Hn; [done|]. rewrite filter_cons_False by (apply Hn; left).
  apply IH. intros y Hy. apply Hn. by right.
Qed.

Lemma filter_all {A} (P : A → Prop) `{∀ x, Decision (P x)} (l : list A) :
  (∀ x, x ∈ l → P x) → filter P l = l.
Proof.
  induction l as [|x l IH]; intros Hp; [done|]. rewrite filter_cons_True by (apply Hp; left).
  f_equal. apply IH. intros y Hy. apply Hp. by right.
Qed.

Lemma Ok_inj {E A} (x y : A) : Ok (E:=E) x = Ok y → x = y.
Proof. by intros [=]. Qed.

Lemma seqZ_snoc n : 0 ≤ n → seqZ 0 (n + 1) = seqZ 0 n ++ [n].
Proof.
  intros Hn. rewrite seqZ_app by lia. f_equal.
Qed.

(** ** Slices and overwritten slices of byte strings *)

Definition slice (o n : nat) (l : list Z) : list Z := take n (drop o l).
Definition put (l : list Z) (o : nat) (bs : list Z) : list Z := take o l ++ bs ++ drop (o + length bs) l.

Lemma length_put l o bs : (o + length bs ≤ length l)%nat → length (put l o bs) = length l.
Proof. intros. unfold put. rewrite !length_app, length_take, length_drop. lia. Qed.

Lemma length_slice o n l : (o + n ≤ length l)%nat → length (slice o n l) = n.
Proof. intros. unfold slice. rewrite length_take, length_drop. lia. Qed.

Lemma put_bytes l o bs : bytes_ok l → bytes_ok bs → bytes_ok (put l o bs).
Proof. intros. unfold put. rewrite !bytes_ok_app. auto with norr. Qed.

Lemma slice_bytes o n l : bytes_ok l → bytes_ok (slice o n l).
Proof. unfold slice. auto with norr. Qed.
#[export] Hint Resolve put_bytes slice_bytes : norr.

Lemma lookup_put_other l o bs k : (o + length bs ≤ length l)%nat → (k < o ∨ o + length bs ≤ k)%nat →
  put l o bs !! k = l !! k.
Proof.
  intros Hl Hk. unfold put. destruct Hk as [Hk|Hk].
  - rewrite lookup_app_l by (rewrite length_take; lia). by apply lookup_take_lt.
  - rewrite lookup_app_r by (rewrite length_take; lia).
    rewrite lookup_app_r by (rewrite length_take; lia).
    rewrite lookup_drop, length_take. f_equal. lia.
Qed.

Lemma lookup_slice o n l k : (k < n)%nat → slice o n l !! k = l !! (o + k)%nat.
Proof. intros. unfold slice. rewrite lookup_take_lt by done. apply lookup_drop. Qed.

Lemma slice_put_same l o bs : (o + length bs ≤ length l)%nat → slice o (length bs) (put l o bs) = bs.
Proof.
  intros. unfold slice, put. rewrite drop_app_length' by (rewrite length_take; lia).
  apply take_app_length.
Qed.

Lemma slice_put_other l o bs p n : (o + length bs ≤ length l)%nat → (p + n ≤ o ∨ o + length bs ≤ p)%nat →
  slice p n (put l o bs) = slice p n l.
Proof.
  intros Hl Hp. apply list_eq. intros k. destruct (decide (k < n)%nat).
  - rewrite !lookup_slice by done. apply lookup_put_other; [done|lia].
  - rewrite !lookup_ge_None_2; [done|unfold slice; rewrite length_take; lia..].
Qed.

Lemma take_put l o bs n : (n ≤ o)%nat → (o + length bs ≤ length l)%nat → take n (put l o bs) = take n l.
Proof. intros. apply (slice_put_other l o bs 0 n); [done|lia]. Qed.

Lemma drop_put l o bs n : (o + length bs ≤ n)%nat → (n ≤ length l)%nat → drop n (put l o bs) = drop n l.
Proof.
  intros. apply list_eq. intros k. rewrite !lookup_drop. apply lookup_put_other; lia.
Qed.

Lemma drop_put_inside l n f bs : (n + f + length bs ≤ length l)%nat →
  drop n (put l (n + f) bs) = put (drop n l) f bs.
Proof.
  intros. unfold put. rewrite drop_app_le by (rewrite length_take; lia).
  rewrite drop_drop, <- take_drop_commute.
  by replace (n + (f + length bs))%nat with (n + f + length bs)%nat by lia.
Qed.

Lemma put_put l o bs cs : length bs = length cs → (o + length bs ≤ length l)%nat →
  put (put l o bs) o cs = put l o cs.
Proof.
  intros Hl Ho. unfold put at 1. rewrite take_put, drop_put by lia. done.
Qed.

Lemma blit_put {E} out o src : (o + length src ≤ length out)%nat → blit (E:=E) out o src = Ok (put out o src).
Proof. apply blit_ok. Qed.

Lemma wr_put {E} b o v : (o < length b)%nat → wr (E:=E) b o v = Ok (put b o [v]).
Proof.
  intros. unfold wr. rewrite decide_True by done. f_equal. rewrite insert_take_drop by done. unfold put.
  cbn [length app]. by rewrite Nat.add_1_r.
Qed.
