(* ===== verification/ReplayWindow.v ===== *)
(** The anti-replay window of a session: [src/replay_window.cpp].

    [ReplayWindow] is the class: its two scalars and the bitmap of 128 words
    of 64 bits.  [accept_spec] is the abstract contract: the set of all
    counters accepted so far and the highest of them.  The theorems show that
    the bitmap implements the set on every sequence of counters. *)

From S2P Require Import Prelude.

Inductive ReplayResult := accepted | replayed | too_old.

#[export] Instance ReplayResult_eq_dec : EqDecision ReplayResult.
Proof. solve_decision. Defined.

Definition kWindowSize : Z := 8192.
Definition kWordBits : Z := 64.
Definition kWordCount : nat := 128.

Record ReplayWindow := mkReplayWindow {
  initialized_ : bool;
  highest_ : Z;
  seen_ : list Z;
}.

Definition new_window : ReplayWindow :=
  mkReplayWindow false 0 (replicate kWordCount 0).

Definition word_of (counter : Z) : nat := Z.to_nat ((counter / 64) mod (kWindowSize / 64)).
Definition bit_of (counter : Z) : Z := u64 (Z.shiftl 1 (counter mod 64)).

(** The members work on [seen_]; an index out of the array is excluded by
    [word_of_lt]. *)
Definition test (seen : list Z) (counter : Z) : bool :=
  negb (Z.land (seen !!! word_of counter) (bit_of counter) =? 0).

Definition set (seen : list Z) (counter : Z) : list Z :=
  <[word_of counter := Z.lor (seen !!! word_of counter) (bit_of counter)]> seen.

Definition clear_bit (seen : list Z) (counter : Z) : list Z :=
  <[word_of counter :=
      Z.land (seen !!! word_of counter) (u64 (Z.lnot (bit_of counter)))]> seen.

(** The loop of [clear_range]; [fuel] bounds its turns. *)
Fixpoint clear_loop (fuel : nat) (counter last : Z) (seen : list Z) : list Z :=
  match fuel with
  | O => seen
  | S fuel =>
      if counter <=? last then
        let seen := clear_bit seen counter in
        if counter =? last then seen
        else clear_loop fuel (u64 (counter + 1)) last seen
      else seen
  end.

Definition clear_range (seen : list Z) (first last : Z) : list Z :=
  if kWindowSize <=? u64 (u64 (last - first) + 1) then replicate kWordCount 0
  else clear_loop (S (Z.to_nat (last - first))) first last seen.

Definition accept (w : ReplayWindow) (counter : Z) : ReplayWindow * ReplayResult :=
  if negb (initialized_ w) then
    (mkReplayWindow true counter (set (seen_ w) counter), accepted)
  else if highest_ w <? counter then
    let seen := clear_range (seen_ w) (u64 (highest_ w + 1)) counter in
    (mkReplayWindow true counter (set seen counter), accepted)
  else if kWindowSize <=? u64 (highest_ w - counter) then (w, too_old)
  else if test (seen_ w) counter then (w, replayed)
  else (mkReplayWindow (initialized_ w) (highest_ w) (set (seen_ w) counter), accepted).

(** A receiver's history: the counters presented to one window, in order. *)
Fixpoint accept_all (w : ReplayWindow) (cs : list Z) : ReplayWindow * list ReplayResult :=
  match cs with
  | [] => (w, [])
  | c :: cs =>
      let '(w, r) := accept w c in
      let '(w, rs) := accept_all w cs in (w, r :: rs)
  end.

(** The counters of a history whose packets were let through. *)
Fixpoint accepted_of (cs : list Z) (rs : list ReplayResult) : list Z :=
  match cs, rs with
  | c :: cs, accepted :: rs => c :: accepted_of cs rs
  | _ :: cs, _ :: rs => accepted_of cs rs
  | _, _ => []
  end.

(** ** The contract: the set of accepted counters *)

Record WindowSpec := mkWindowSpec { top : option Z; seen_set : gset Z }.

Definition new_spec : WindowSpec := mkWindowSpec None ∅.

Definition accept_spec (s : WindowSpec) (c : Z) : WindowSpec * ReplayResult :=
  match top s with
  | None => (mkWindowSpec (Some c) {[c]}, accepted)
  | Some h =>
      if h <? c then (mkWindowSpec (Some c) ({[c]} ∪ seen_set s), accepted)
      else if kWindowSize <=? h - c then (s, too_old)
      else if decide (c ∈ seen_set s) then (s, replayed)
      else (mkWindowSpec (Some h) ({[c]} ∪ seen_set s), accepted)
  end.

Fixpoint accept_all_spec (s : WindowSpec) (cs : list Z) : WindowSpec * list ReplayResult :=
  match cs with
  | [] => (s, [])
  | c :: cs =>
      let '(s, r) := accept_spec s c in
      let '(s, rs) := accept_all_spec s cs in (s, r :: rs)
  end.

(** The simulation relation. *)
Record window_sim (w : ReplayWindow) (s : WindowSpec) : Prop := {
  sim_length : length (seen_ w) = kWordCount;
  sim_words : Forall is_u64 (seen_ w);
  sim_top : top s = if initialized_ w then Some (highest_ w) else None;
  sim_fresh : initialized_ w = false → seen_ w = replicate kWordCount 0;
  sim_high : is_u64 (highest_ w);
  sim_below : ∀ c, c ∈ seen_set s → c ≤ highest_ w;
  sim_bits : initialized_ w = true → ∀ c, 0 ≤ c → highest_ w - kWindowSize < c ≤ highest_ w →
    test (seen_ w) c = bool_decide (c ∈ seen_set s);
}.

(** ** The bitmap as a function of the counter modulo the window *)

Lemma word_of_lt c : (word_of c < kWordCount)%nat.
Proof.
  unfold word_of, kWordCount. change (kWindowSize / 64) with 128.
  pose proof (Z.mod_pos_bound (c / 64) 128 ltac:(lia)). lia.
Qed.

Lemma bit_of_pow c : bit_of c = 2 ^ (c mod 64).
Proof.
  unfold bit_of. rewrite Z.shiftl_1_l. apply u64_id.
  pose proof (Z.mod_pos_bound c 64 ltac:(lia)). unfold is_u64. split; [apply Z.pow_nonneg; lia|].
  apply Z.pow_lt_mono_r; lia.
Qed.

Lemma test_testbit seen c : test seen c = Z.testbit (seen !!! word_of c) (c mod 64).
Proof.
  unfold test. rewrite bit_of_pow. pose proof (Z.mod_pos_bound c 64 ltac:(lia)).
  set (n := c mod 64) in *. set (x := seen !!! word_of c).
  assert (Z.land x (2 ^ n) = if Z.testbit x n then 2 ^ n else 0) as ->.
  { apply Z.bits_inj'. intros i Hi. rewrite Z.land_spec, Z.pow2_bits_eqb by lia.
    destruct (Z.eqb_spec n i) as [<-|].
    - destruct (Z.testbit x n); simpl; [by rewrite Z.pow2_bits_true by lia | by rewrite Z.bits_0].
    - rewrite andb_false_r. destruct (Z.testbit x n); [|by rewrite Z.bits_0].
      by rewrite Z.pow2_bits_false by lia. }
  destruct (Z.testbit x n); [|done].
  pose proof (Z.pow_pos_nonneg 2 n). destruct (Z.eqb_spec (2 ^ n) 0); [lia|done].
Qed.

(** Two counters share a bit exactly when they agree modulo the window. *)
Lemma same_slot c d :
  word_of c = word_of d ∧ c mod 64 = d mod 64 ↔ c mod kWindowSize = d mod kWindowSize.
Proof.
  unfold word_of, kWindowSize. change (8192 / 64) with 128.
  pose proof (Z.mod_pos_bound (c / 64) 128). pose proof (Z.mod_pos_bound (d / 64) 128).
  rewrite Z2Nat.inj_iff by lia. change 8192 with (64 * 128).
  rewrite !Z.rem_mul_r by lia.
  pose proof (Z.mod_pos_bound c 64). pose proof (Z.mod_pos_bound d 64). lia.
Qed.

Lemma slot_dec c d :
  word_of c = word_of d → c mod 64 ≠ d mod 64 ∨ c mod kWindowSize = d mod kWindowSize.
Proof.
  intros Hw. destruct (decide (c mod 64 = d mod 64)) as [Hb|]; [right|by left].
  by apply same_slot.
Qed.

Lemma lookup_word seen c : length seen = kWordCount →
  Forall is_u64 seen → is_u64 (seen !!! word_of c).
Proof.
  intros Hl Hf. pose proof (word_of_lt c).
  destruct (lookup_lt_is_Some_2 seen (word_of c)) as [x Hx]; [lia|].
  rewrite (list_lookup_total_correct _ _ _ Hx). by eapply Forall_lookup_1 in Hx.
Qed.

Lemma test_insert seen c v d : length seen = kWordCount →
  test (<[word_of c := v]> seen) d =
  if decide (word_of c = word_of d) then Z.testbit v (d mod 64) else test seen d.
Proof.
  intros Hl. pose proof (word_of_lt c). rewrite !test_testbit. case_decide as E.
  - rewrite <- E. by rewrite list_lookup_total_insert_eq by lia.
  - by rewrite list_lookup_total_insert_ne by done.
Qed.

Lemma test_set seen c d : length seen = kWordCount →
  test (set seen c) d =
  bool_decide (c mod kWindowSize = d mod kWindowSize) || test seen d.
Proof.
  intros Hl. unfold set. rewrite test_insert by done. case_decide as E.
  - rewrite Z.lor_spec, bit_of_pow, E, <- test_testbit.
    pose proof (Z.mod_pos_bound c 64 ltac:(lia)). rewrite Z.pow2_bits_eqb by lia.
    rewrite orb_comm. f_equal. destruct (Z.eqb_spec (c mod 64) (d mod 64)).
    + symmetry. apply bool_decide_eq_true_2. by apply same_slot.
    + symmetry. apply bool_decide_eq_false_2. intros F. apply same_slot in F. naive_solver.
  - rewrite bool_decide_eq_false_2; [done|]. intros F. apply same_slot in F. naive_solver.
Qed.

Lemma test_clear_bit seen c d : length seen = kWordCount →
  test (clear_bit seen c) d =
  negb (bool_decide (c mod kWindowSize = d mod kWindowSize)) && test seen d.
Proof.
  intros Hl. unfold clear_bit. rewrite test_insert by done. case_decide as E.
  - rewrite Z.land_spec, bit_of_pow, E, <- test_testbit.
    pose proof (Z.mod_pos_bound c 64 ltac:(lia)). pose proof (Z.mod_pos_bound d 64 ltac:(lia)).
    unfold u64. rewrite Z.mod_pow2_bits_low, Z.lnot_spec, Z.pow2_bits_eqb by lia.
    rewrite andb_comm. f_equal. f_equal. destruct (Z.eqb_spec (c mod 64) (d mod 64)).
    + symmetry. apply bool_decide_eq_true_2. by apply same_slot.
    + symmetry. apply bool_decide_eq_false_2. intros F. apply same_slot in F. naive_solver.
  - rewrite bool_decide_eq_false_2; [done|]. intros F. apply same_slot in F. naive_solver.
Qed.

Lemma test_zero d : test (replicate kWordCount 0) d = false.
Proof.
  rewrite test_testbit. rewrite lookup_total_replicate_2 by apply word_of_lt. apply Z.bits_0.
Qed.

(** The words stay 64 bits wide. *)
Lemma set_words seen c : length seen = kWordCount → Forall is_u64 seen →
  length (set seen c) = kWordCount ∧ Forall is_u64 (set seen c).
Proof.
  intros Hl Hf. unfold set. rewrite length_insert. split; [done|].
  apply Forall_insert; [done|]. pose proof (lookup_word seen c Hl Hf) as Hw.
  pose proof (u64_range (Z.shiftl 1 (c mod 64))) as Hb. fold (bit_of c) in Hb.
  by apply lor_bound.
Qed.

Lemma clear_bit_words seen c : length seen = kWordCount → Forall is_u64 seen →
  length (clear_bit seen c) = kWordCount ∧ Forall is_u64 (clear_bit seen c).
Proof.
  intros Hl Hf. unfold clear_bit. rewrite length_insert. split; [done|].
  apply Forall_insert; [done|]. pose proof (lookup_word seen c Hl Hf) as Hw.
  by apply land_bound.
Qed.

(** The loop visits every counter from [c] to [last]. *)
Lemma clear_loop_spec fuel c last seen :
  length seen = kWordCount → Forall is_u64 seen →
  0 ≤ c ≤ last → is_u64 last → (Z.to_nat (last - c) < fuel)%nat →
  let seen' := clear_loop fuel c last seen in
  length seen' = kWordCount ∧ Forall is_u64 seen' ∧
  ∀ d, test seen' d = true ↔
    test seen d = true ∧ ∀ e, c ≤ e ≤ last → e mod kWindowSize ≠ d mod kWindowSize.
Proof.
  revert c seen. induction fuel as [|fuel IH]; intros c seen Hl Hf Hc Hlast Hfuel; [lia|].
  simpl. destruct (Z.leb_spec c last); [|lia].
  pose proof (clear_bit_words seen c Hl Hf) as [Hl' Hf'].
  destruct (Z.eqb_spec c last) as [->|Hne].
  - split_and!; [done..|]. intros d. rewrite test_clear_bit, andb_true_iff, negb_true_iff by done.
    rewrite bool_decide_eq_false. split.
    + intros [Hn Ht]. split; [done|]. intros e He. by replace e with last by lia.
    + intros [Ht Hn]. split; [|done]. apply Hn. lia.
  - rewrite u64_id by word_lia.
    destruct (IH (c + 1) (clear_bit seen c)) as (Hl2 & Hf2 & Ht); [done|done|lia|done|lia|].
    split_and!; [done..|]. intros d.
    rewrite Ht, test_clear_bit, andb_true_iff, negb_true_iff, bool_decide_eq_false by done.
    split.
    + intros [[Hn Hd] He]. split; [done|]. intros e Hr.
      destruct (decide (e = c)) as [->|]; [done|]. apply He. lia.
    + intros [Hd He]. split_and!; [apply He; lia|done|]. intros e Hr. apply He. lia.
Qed.

Lemma clear_range_spec seen h c :
  length seen = kWordCount → Forall is_u64 seen → is_u64 h → is_u64 c → h < c →
  let seen' := clear_range seen (u64 (h + 1)) c in
  length seen' = kWordCount ∧ Forall is_u64 seen' ∧
  ∀ d, c - kWindowSize < d ≤ c →
    test seen' d = bool_decide (d ≤ h) && test seen d.
Proof.
  intros Hl Hf Hh Hc Hlt. unfold clear_range. rewrite (u64_id (h + 1)) by word_lia.
  rewrite !(u64_id (c - (h + 1))) by word_lia. rewrite u64_id by word_lia.
  destruct (Z.leb_spec kWindowSize (c - (h + 1) + 1)) as [Hw|Hw].
  - split_and!; [by rewrite length_replicate|apply Forall_replicate; word_lia|].
    intros d Hd. rewrite test_zero, bool_decide_eq_false_2; [done|lia].
  - destruct (clear_loop_spec (S (Z.to_nat (c - (h + 1)))) (h + 1) c seen)
      as (Hl' & Hf' & Ht); [done|done|word_lia|done|lia|].
    split_and!; [done..|]. intros d Hd. apply eq_true_iff_eq.
    rewrite Ht, andb_true_iff, bool_decide_eq_true. unfold kWindowSize in *. split.
    + intros [Hs He]. split; [|done]. destruct (decide (d ≤ h)); [done|].
      exfalso. apply (He d); [lia|done].
    + intros [Hle Hs]. split; [done|]. intros e He Heq.
      assert (e - d = 8192 * (e / 8192 - d / 8192)).
      { pose proof (Z.div_mod e 8192). pose proof (Z.div_mod d 8192). lia. }
      nia.
Qed.

(** Within one window, equal slots mean equal counters. *)
Lemma slot_inj h c d : 0 ≤ c → h - kWindowSize < c ≤ h → h - kWindowSize < d ≤ h →
  c mod kWindowSize = d mod kWindowSize → c = d.
Proof.
  unfold kWindowSize. intros ? Hc Hd Heq.
  assert (c - d = 8192 * (c / 8192 - d / 8192)).
  { pose proof (Z.div_mod c 8192). pose proof (Z.div_mod d 8192). lia. }
  nia.
Qed.

(** ** The simulation *)

Lemma new_window_sim : window_sim new_window new_spec.
Proof.
  unfold new_window, new_spec. split; cbn [seen_ initialized_ highest_ top seen_set]; try done.
  apply Forall_replicate. word_lia.
Qed.

Lemma accept_sim_fresh w s c : window_sim w s → is_u64 c → initialized_ w = false →
  let '(w', r) := accept w c in
  let '(s', r') := accept_spec s c in
  r = r' ∧ window_sim w' s'.
Proof.
  intros [Hl Hf Ht Hz Hh Hb Hbit] Hc Hi. unfold accept, accept_spec. rewrite Ht, Hi. simpl.
  split; [done|]. destruct (set_words (seen_ w) c Hl Hf). split; simpl; try done.
  - set_solver by lia.
  - intros _ d Hd Hr. rewrite test_set, (Hz Hi), test_zero, orb_false_r by done.
    apply bool_decide_ext. rewrite elem_of_singleton. split; [|by intros ->].
    intros E. symmetry. apply (slot_inj c); unfold kWindowSize in *; unfold is_u64 in *; (done || lia).
Qed.

Lemma accept_sim_newer w s c : window_sim w s → is_u64 c →
  initialized_ w = true → highest_ w < c →
  let '(w', r) := accept w c in
  let '(s', r') := accept_spec s c in
  r = r' ∧ window_sim w' s'.
Proof.
  intros [Hl Hf Ht Hz Hh Hb Hbit] Hc Hi Hlt. unfold accept, accept_spec. rewrite Ht, Hi. simpl.
  destruct (Z.ltb_spec (highest_ w) c); [|lia]. split; [done|].
  destruct (clear_range_spec (seen_ w) (highest_ w) c) as (Hl' & Hf' & Hcl); [done..|].
  destruct (set_words _ c Hl' Hf'). split; simpl; try done.
  - intros d. rewrite elem_of_union, elem_of_singleton. intros [->|Hd]; [lia|].
    specialize (Hb _ Hd). lia.
  - intros _ d Hd Hr. rewrite test_set, Hcl by done.
    destruct (decide (c = d)) as [<-|Hne].
    { rewrite (bool_decide_eq_true_2 (c mod _ = _)) by done. symmetry.
      apply bool_decide_eq_true_2. set_solver. }
    rewrite (bool_decide_eq_false_2 (c mod _ = _)); last first.
    { intros E. apply Hne. apply (slot_inj c); unfold kWindowSize in *; (done || word_lia). }
    simpl. destruct (decide (d ≤ highest_ w)).
    + rewrite bool_decide_eq_true_2, Hbit by (done || unfold kWindowSize in *; lia). simpl.
      apply bool_decide_ext. set_solver.
    + rewrite bool_decide_eq_false_2 by lia. simpl. symmetry. apply bool_decide_eq_false_2.
      rewrite elem_of_union, elem_of_singleton. intros [->|Hin]; [lia|]. specialize (Hb _ Hin). lia.
Qed.

Lemma accept_sim_older w s c : window_sim w s → is_u64 c →
  initialized_ w = true → c ≤ highest_ w →
  let '(w', r) := accept w c in
  let '(s', r') := accept_spec s c in
  r = r' ∧ window_sim w' s'.
Proof.
  intros Hsim Hc Hi Hle. pose proof Hsim as [Hl Hf Ht Hz Hh Hb Hbit].
  unfold accept, accept_spec. rewrite Ht, Hi. simpl.
  destruct (Z.ltb_spec (highest_ w) c); [lia|]. rewrite (u64_id (highest_ w - c)) by word_lia.
  destruct (Z.leb_spec kWindowSize (highest_ w - c)); [done|].
  rewrite Hbit by (done || word_lia).
  destruct (decide (c ∈ seen_set s)) as [Hin|Hin].
  { rewrite bool_decide_eq_true_2 by done. done. }
  rewrite bool_decide_eq_false_2 by done. split; [done|].
  destruct (set_words _ c Hl Hf). split; simpl; try done.
  - intros d. rewrite elem_of_union, elem_of_singleton. intros [->|Hd]; [lia|by apply Hb].
  - intros _ d Hd Hr. rewrite test_set, Hbit by done.
    apply eq_true_iff_eq. rewrite orb_true_iff, !bool_decide_eq_true, elem_of_union, elem_of_singleton.
    assert (c mod kWindowSize = d mod kWindowSize ↔ d = c) as ->; [|done].
    split; [|by intros ->]. intros E. symmetry.
    apply (slot_inj (highest_ w)); (done || word_lia).
Qed.

Lemma accept_sim w s c : window_sim w s → is_u64 c →
  let '(w', r) := accept w c in
  let '(s', r') := accept_spec s c in
  r = r' ∧ window_sim w' s'.
Proof.
  intros Hsim Hc. destruct (initialized_ w) eqn:Hi; [|by apply accept_sim_fresh].
  destruct (decide (highest_ w < c)).
  - by apply accept_sim_newer.
  - apply accept_sim_older; [done..|lia].
Qed.

Lemma accept_all_sim cs w s : window_sim w s → Forall is_u64 cs →
  (accept_all w cs).2 = (accept_all_spec s cs).2 ∧
  window_sim (accept_all w cs).1 (accept_all_spec s cs).1.
Proof.
  revert w s. induction cs as [|c cs IH]; intros w s Hsim Hcs; [done|].
  apply Forall_cons_1 in Hcs as [Hc Hcs]. simpl.
  pose proof (accept_sim w s c Hsim Hc) as H.
  destruct (accept w c) as [w' r], (accept_spec s c) as [s' r']. destruct H as [<- H].
  destruct (IH w' s' H Hcs) as [E1 E2].
  destruct (accept_all w' cs), (accept_all_spec s' cs). simpl in *. by subst.
Qed.

(** What the contract remembers: nothing before the first packet, afterwards
    only counters up to the highest. *)
Definition spec_wf (s : WindowSpec) : Prop :=
  match top s with
  | None => seen_set s = ∅
  | Some h => ∀ d, d ∈ seen_set s → d ≤ h
  end.

Lemma accept_spec_step s c s' r : spec_wf s → accept_spec s c = (s', r) →
  spec_wf s' ∧
  (r = accepted → c ∉ seen_set s ∧ seen_set s' = {[c]} ∪ seen_set s) ∧
  (r ≠ accepted → s' = s).
Proof.
  unfold spec_wf, accept_spec. intros Hwf E. destruct (top s) as [h|] eqn:Et.
  - destruct (Z.ltb_spec h c); [|destruct (kWindowSize <=? h - c); [|case_decide]];
      injection E as <- <-; simpl; rewrite ?Et; split_and!; try done.
    + intros d. rewrite elem_of_union, elem_of_singleton. intros [->|Hd]; [lia|].
      specialize (Hwf _ Hd). lia.
    + intros _. split; [|done]. intros Hc. specialize (Hwf _ Hc). lia.
    + intros d. rewrite elem_of_union, elem_of_singleton. intros [->|Hd]; [lia|by apply Hwf].
  - injection E as <- <-. simpl. rewrite Hwf. split_and!; try done; set_solver.
Qed.

Lemma accepted_spec_fresh cs s : spec_wf s →
  NoDup (accepted_of cs (accept_all_spec s cs).2) ∧
  ∀ c, c ∈ accepted_of cs (accept_all_spec s cs).2 → c ∉ seen_set s.
Proof.
  revert s. induction cs as [|c cs IH]; intros s Hwf; simpl; [split; [constructor|set_solver]|].
  destruct (accept_spec s c) as [s' r] eqn:E.
  destruct (accept_spec_step s c s' r Hwf E) as (Hwf' & Hacc & Hrej).
  specialize (IH s' Hwf'). destruct (accept_all_spec s' cs) as [s2 rs]. simpl in *.
  destruct IH as [Hnd Hnew]. destruct (decide (r = accepted)) as [->|Hr].
  - destruct (Hacc eq_refl) as [Hc Hs]. rewrite Hs in Hnew. split; [|set_solver].
    constructor; set_solver.
  - rewrite (Hrej Hr) in Hnew. by destruct r.
Qed.

(** C1. The bitmap implements the set of accepted counters: on every sequence
    of 64-bit counters presented to a new window, [accept] returns exactly the
    verdicts of [accept_spec], for each packet. *)
Theorem replay_window_refines cs : Forall is_u64 cs →
  (accept_all new_window cs).2 = (accept_all_spec new_spec cs).2.
Proof. intros H. by apply accept_all_sim; [apply new_window_sim|]. Qed.

Lemma replay_window_refines_witness :
  (accept_all new_window [5; 9000; 5; 9000; 8999; UINT64_MAX; 9000]).2 =
  [accepted; accepted; too_old; replayed; accepted; accepted; too_old].
Proof.
  rewrite replay_window_refines.
  - reflexivity.
  - repeat constructor; word_lia.
Defined.

(** C2. No counter is accepted twice, however the packets are ordered,
    repeated or delayed. *)
Theorem no_counter_accepted_twice cs : Forall is_u64 cs →
  NoDup (accepted_of cs (accept_all new_window cs).2).
Proof.
  intros H. destruct (accept_all_sim cs _ _ new_window_sim H) as [-> _].
  by apply accepted_spec_fresh.
Qed.

Lemma no_counter_accepted_twice_witness :
  NoDup (accepted_of [7; 7; 8200; 7; 8] (accept_all new_window [7; 7; 8200; 7; 8]).2).
Proof. apply no_counter_accepted_twice. repeat constructor; word_lia. Defined.
