(* ===== verification/Packet.v ===== *)
(** The packet framing of every datagram: [src/packet.cpp], [include/norr/packet.hpp]
    and the error codes of [include/norr/error.hpp].

    A header is 16 bytes: version and type nibbles, flags, key id, header
    length, counter, payload length, all big endian.  The theorems are the two
    halves of the round trip, the absence of out-of-span accesses on any input
    and the exact set of datagrams that parse. *)

From S2P Require Import Prelude.

Inductive Error :=
| malformed_packet
| packet_too_large
| unsupported_version
| unsupported_flags
| payload_length_mismatch
| counter_exhausted
| reserved_key_id.

#[export] Instance Error_eq_dec : EqDecision Error.
Proof. solve_decision. Defined.

(** [static_cast<FrameType>] of a nibble with no enumerator is [FrameType.unnamed]. *)
Module FrameType.
Inductive t := data | control | path | key | error | fec | unnamed (v : Z).

#[export] Instance eq_dec : EqDecision t.
Proof. solve_decision. Defined.
End FrameType.
Export (hints) FrameType.
Abbreviation FrameType := FrameType.t.

Definition frame_val (t : FrameType) : Z :=
  match t with
  | FrameType.data => 1
  | FrameType.control => 2
  | FrameType.path => 3
  | FrameType.key => 4
  | FrameType.error => 5
  | FrameType.fec => 6
  | FrameType.unnamed v => v
  end.

Definition frame_of (v : Z) : FrameType :=
  if v =? 1 then FrameType.data else if v =? 2 then FrameType.control
  else if v =? 3 then FrameType.path else if v =? 4 then FrameType.key
  else if v =? 5 then FrameType.error else if v =? 6 then FrameType.fec
  else FrameType.unnamed v.

Definition valid_frame_type (t : FrameType) : bool :=
  (frame_val FrameType.data <=? frame_val t) && (frame_val t <=? frame_val FrameType.fec).

Definition kProtocolVersion : Z := 1.
Definition kPaddingAlignment : Z := 16.
Definition kPacketHeaderSize : Z := 16.
Definition kMaximumPacketSize : Z := 65535.
Definition kPreSessionKeyId : Z := 0.

(** The size a plaintext is padded to before it is sealed. *)
Definition padded_length (length : Z) : Z :=
  let remainder := length mod kPaddingAlignment in
  if remainder =? 0 then length else length + (kPaddingAlignment - remainder).

Record PacketHeader := mkHeader {
  version : Z;
  type : FrameType;
  flags : Z;
  key_id : Z;
  header_length : Z;
  counter : Z;
  payload_length : Z;
}.

Record PacketView := mkView { header : PacketHeader; payload : list Z }.

(** ** Big-endian fields *)

Definition read_u16 {E} (b : list Z) (o : nat) : res E Z :=
  let* x := rd b o in
  let* y := rd b (o + 1) in
  Ok (u16 (Z.lor (u32 (Z.shiftl x 8)) y)).

Fixpoint read_u64_loop {E} (n : nat) (b : list Z) (o : nat) (value : Z) : res E Z :=
  match n with
  | O => Ok value
  | S n =>
      let* x := rd b o in
      read_u64_loop n b (S o) (Z.lor (u64 (Z.shiftl value 8)) x)
  end.
Definition read_u64 {E} (b : list Z) (o : nat) : res E Z := read_u64_loop 8 b o 0.

Definition write_u16 {E} (b : list Z) (o : nat) (v : Z) : res E (list Z) :=
  let* b := wr b o (u8 (Z.shiftr v 8)) in
  wr b (o + 1) (u8 v).

(** The loop over [i = 8 - n .. 7]. *)
Fixpoint write_u64_loop {E} (n : nat) (b : list Z) (o : nat) (v : Z) : res E (list Z) :=
  match n with
  | O => Ok b
  | S n =>
      let* b := wr b o (u8 (Z.shiftr v (Z.of_nat n * 8))) in
      write_u64_loop n b (S o) v
  end.
Definition write_u64 {E} (b : list Z) (o : nat) (v : Z) : res E (list Z) := write_u64_loop 8 b o v.

(** ** Parsing and serialising *)

Definition parse_packet (bytes : list Z) : res Error PacketView :=
  throw malformed_packet when blen bytes <? kPacketHeaderSize else
  throw packet_too_large when kMaximumPacketSize <? blen bytes else
  let* b0 := rd bytes 0 in
  let version := u8 (Z.shiftr b0 4) in
  let type := frame_of (Z.land b0 15) in
  let* flags := rd bytes 1 in
  let* header_length := read_u16 bytes 4 in
  let* payload_length := read_u16 bytes 14 in
  throw unsupported_version when negb (version =? kProtocolVersion) else
  throw malformed_packet when negb (valid_frame_type type) else
  throw unsupported_flags when negb (flags =? 0) else
  throw malformed_packet when negb (header_length =? kPacketHeaderSize) else
  throw payload_length_mismatch
    when negb (payload_length =? blen bytes - kPacketHeaderSize) else
  let* key_id := read_u16 bytes 2 in
  throw reserved_key_id when (key_id =? kPreSessionKeyId) && bool_decide (type = FrameType.data) else
  let* counter := read_u64 bytes 6 in
  let* payload := subspan_from bytes 16 in
  Ok (mkView (mkHeader version type flags key_id header_length counter payload_length) payload).

Definition serialize_header (h : PacketHeader) (payload_length : Z) (out : list Z)
    : res Error (list Z) :=
  throw unsupported_version when negb (version h =? kProtocolVersion) else
  throw malformed_packet when negb (valid_frame_type (type h)) else
  throw unsupported_flags when negb (flags h =? 0) else
  throw malformed_packet when negb (header_length h =? kPacketHeaderSize) else
  throw reserved_key_id when (key_id h =? kPreSessionKeyId) && bool_decide (type h = FrameType.data) else
  throw packet_too_large when kMaximumPacketSize - kPacketHeaderSize <? payload_length else
  throw malformed_packet when blen out <? kPacketHeaderSize else
  let* out := wr out 0 (u8 (Z.lor (Z.shiftl (version h) 4) (frame_val (type h)))) in
  let* out := wr out 1 (u8 (flags h)) in
  let* out := write_u16 out 2 (key_id h) in
  let* out := write_u16 out 4 (header_length h) in
  let* out := write_u64 out 6 (counter h) in
  write_u16 out 14 (u16 payload_length).

Definition serialize_packet (h : PacketHeader) (payload : list Z) : res Error (list Z) :=
  let* prefix := serialize_header h (blen payload) (replicate 16 0) in
  let bytes := replicate (16 + length payload) 0 in
  let* bytes := blit bytes 0 prefix in
  blit bytes 16 payload.

(** A header whose fields fit their widths and whose type is an enumerator
    where there is one. *)
Record header_ok (h : PacketHeader) : Prop := {
  hok_type : frame_of (frame_val (type h)) = type h;
  hok_version : is_u8 (version h);
  hok_flags : is_u8 (flags h);
  hok_key_id : is_u16 (key_id h);
  hok_header_length : is_u16 (header_length h);
  hok_counter : is_u64 (counter h);
  hok_payload_length : is_u16 (payload_length h);
}.

(** ** The field readers and writers, in terms of big-endian numbers *)

Lemma drop_cons_lookup {A} o (b l : list A) x :
  drop o b = x :: l → b !! o = Some x ∧ drop (S o) b = l.
Proof.
  intros H. split.
  - by rewrite <- (Nat.add_0_r o), <- lookup_drop, H.
  - by rewrite <- (Nat.add_1_r o), <- drop_drop, H.
Qed.

Lemma read_u16_spec {E} b o x y l : drop o b = x :: y :: l → is_u8 x → is_u8 y →
  read_u16 (E:=E) b o = Ok (be_value [x; y]).
Proof.
  intros H Hx Hy. destruct (drop_cons_lookup _ _ _ _ H) as [H1 H2].
  destruct (drop_cons_lookup _ _ _ _ H2) as [H3 _].
  unfold read_u16. rewrite Nat.add_1_r, (rd_ok _ _ _ H1). simpl. rewrite (rd_ok _ _ _ H3). simpl.
  rewrite (u32_id (Z.shiftl x 8)) by (rewrite Z.shiftl_mul_pow2 by lia; word_lia).
  rewrite lor_shiftl_add by word_lia. rewrite be_value_2, u16_id; [done|word_lia].
Qed.

Lemma read_u64_loop_spec {E} l b o acc r : drop o b = l ++ r → bytes_ok l →
  (length l ≤ 8)%nat → 0 ≤ acc < 256 ^ Z.of_nat (8 - length l) →
  read_u64_loop (E:=E) (length l) b o acc = Ok (fold_left (λ acc x, acc * 256 + x) l acc).
Proof.
  revert o acc. induction l as [|x l IH]; intros o acc Hd Hok Hlen Hacc; [done|].
  apply Forall_cons_1 in Hok as [Hx Hok]. destruct (drop_cons_lookup _ _ _ _ Hd) as [H1 H2].
  cbn [length read_u64_loop fold_left]. rewrite (rd_ok _ _ _ H1). cbn [rbind].
  cbn [length] in *.
  assert (256 ^ Z.of_nat (8 - S (length l)) ≤ 256 ^ 7) by (apply Z.pow_le_mono_r; lia).
  rewrite (u64_id (Z.shiftl acc 8)) by (rewrite Z.shiftl_mul_pow2 by lia; word_lia).
  rewrite lor_shiftl_add by word_lia. apply IH; [done..|lia|].
  replace (8 - length l)%nat with (S (8 - S (length l))) by lia.
  rewrite Nat2Z.inj_succ, Z.pow_succ_r by lia. word_lia.
Qed.

Lemma read_u64_spec {E} l b o r : drop o b = l ++ r → bytes_ok l → length l = 8%nat →
  read_u64 (E:=E) b o = Ok (be_value l).
Proof.
  intros Hd Hok Hl. unfold read_u64. rewrite <- Hl. apply (read_u64_loop_spec l b o 0 r); [done..|lia|].
  rewrite Hl. simpl. lia.
Qed.

Lemma wr_spec {E} b o v : (o < length b)%nat →
  wr (E:=E) b o v = Ok (take o b ++ v :: drop (S o) b).
Proof. intros H. unfold wr. rewrite decide_True by done. f_equal. by apply insert_take_drop. Qed.

Lemma write_u16_spec {E} b o v : (o + 2 ≤ length b)%nat →
  write_u16 (E:=E) b o v = Ok (take o b ++ be_bytes 2 v ++ drop (o + 2) b).
Proof.
  intros H. unfold write_u16. rewrite wr_spec by lia. cbn [rbind].
  rewrite wr_spec by (rewrite length_app, length_take; simpl; rewrite length_drop; lia).
  f_equal. rewrite take_app, drop_app, length_take, take_take.
  replace (o + 1 - o `min` length b)%nat with 1%nat by lia.
  replace (S (o + 1) - o `min` length b)%nat with 2%nat by lia.
  rewrite (drop_ge (take o b)) by (rewrite length_take; lia).
  rewrite Nat.min_r by lia. cbn [take drop app be_bytes]. rewrite take_0, <- app_assoc. cbn [app].
  rewrite Z.shiftr_0_r. do 3 f_equal. rewrite drop_drop. f_equal. lia.
Qed.

Lemma write_u64_loop_spec {E} n b o v : (o + n ≤ length b)%nat →
  write_u64_loop (E:=E) n b o v = Ok (take o b ++ be_bytes n v ++ drop (o + n) b).
Proof.
  revert b o. induction n as [|n IH]; intros b o H; simpl.
  { by rewrite Nat.add_0_r, take_drop. }
  rewrite wr_spec by lia. cbn [rbind].
  rewrite IH by (rewrite length_app, length_take; simpl; rewrite length_drop; lia).
  f_equal. rewrite take_app, drop_app, length_take, take_take.
  replace (S o - o `min` length b)%nat with 1%nat by lia.
  replace (S o + n - o `min` length b)%nat with (S n) by lia.
  rewrite (drop_ge (take o b)) by (rewrite length_take; lia).
  rewrite Nat.min_r by lia. cbn [take drop app]. rewrite take_0, <- app_assoc. cbn [app].
  do 3 f_equal. rewrite drop_drop. f_equal. lia.
Qed.

Lemma write_u64_spec {E} b o v : (o + 8 ≤ length b)%nat →
  write_u64 (E:=E) b o v = Ok (take o b ++ be_bytes 8 v ++ drop (o + 8) b).
Proof. apply write_u64_loop_spec. Qed.

(** Writing a buffer from front to back: [pre] is done, [post] is left. *)
Lemma blit_next {E} pre post pos src : pos = length pre → (length src ≤ length post)%nat →
  blit (E:=E) (pre ++ post) pos src = Ok ((pre ++ src) ++ drop (length src) post).
Proof.
  intros -> Hl. rewrite blit_ok by (rewrite length_app; lia). rewrite take_app_length, <- app_assoc.
  do 3 f_equal. rewrite drop_app_ge by lia. f_equal. lia.
Qed.

Lemma write_u16_next {E} pre post pos v : pos = length pre → (2 ≤ length post)%nat →
  write_u16 (E:=E) (pre ++ post) pos v = Ok ((pre ++ be_bytes 2 v) ++ drop 2 post).
Proof.
  intros -> Hl. rewrite write_u16_spec by (rewrite length_app; lia). rewrite take_app_length, <- app_assoc.
  do 3 f_equal. rewrite drop_app_ge by lia. f_equal. lia.
Qed.

(** ** The wire format *)

Definition tag_byte (h : PacketHeader) : Z := u8 (Z.lor (Z.shiftl (version h) 4) (frame_val (type h))).

(** The sixteen bytes a header is written as. *)
Definition header_bytes (h : PacketHeader) (plen : Z) : list Z :=
  [tag_byte h; u8 (flags h)] ++ be_bytes 2 (key_id h) ++ be_bytes 2 (header_length h) ++
  be_bytes 8 (counter h) ++ be_bytes 2 (u16 plen).

(** The conditions under which a header may be sent with [plen] payload bytes. *)
Definition sendable (h : PacketHeader) (plen : Z) : bool :=
  (version h =? kProtocolVersion) && valid_frame_type (type h) && (flags h =? 0) &&
  (header_length h =? kPacketHeaderSize) &&
  negb ((key_id h =? kPreSessionKeyId) && bool_decide (type h = FrameType.data)) &&
  (plen <=? kMaximumPacketSize - kPacketHeaderSize).

Lemma length_header_bytes h plen : length (header_bytes h plen) = 16%nat.
Proof. done. Qed.

Lemma serialize_header_spec h plen out : sendable h plen = true → kPacketHeaderSize ≤ blen out →
  serialize_header h plen out = Ok (header_bytes h plen ++ drop 16 out).
Proof.
  unfold sendable, serialize_header, guard. rewrite !andb_true_iff, negb_true_iff, Z.leb_le.
  intros (((((-> & ->) & ->) & ->) & ->) & Hp) Ho. cbn [negb].
  destruct (Z.ltb_spec (kMaximumPacketSize - kPacketHeaderSize) plen); [lia|].
  destruct (Z.ltb_spec (blen out) kPacketHeaderSize); [lia|].
  unfold kPacketHeaderSize in *. explode out 16%nat. clear.
  rewrite wr_spec by (simpl; lia). cbn [rbind take drop app].
  rewrite wr_spec by (simpl; lia). cbn [rbind take drop app].
  rewrite write_u16_spec by (simpl; lia). cbn [rbind take drop app be_bytes Nat.add].
  rewrite write_u16_spec by (simpl; lia). cbn [rbind take drop app be_bytes Nat.add].
  rewrite write_u64_spec by (simpl; lia). cbn [rbind take drop app be_bytes Nat.add].
  rewrite write_u16_spec by (simpl; lia). cbn [rbind take drop app be_bytes Nat.add].
  reflexivity.
Qed.

Lemma blit_replicate {E} n l : (length l ≤ n)%nat →
  blit (E:=E) (replicate n 0) 0 l = Ok (l ++ replicate (n - length l) 0).
Proof. intros H. rewrite blit_ok by (rewrite length_replicate; lia). simpl. by rewrite drop_replicate. Qed.

Lemma blit_tail {E} l m : blit (E:=E) (l ++ replicate (length m) 0) (length l) m = Ok (l ++ m).
Proof.
  rewrite blit_ok by (rewrite length_app, length_replicate; lia).
  rewrite take_app_length, drop_ge by (rewrite length_app, length_replicate; lia).
  by rewrite app_nil_r.
Qed.

Lemma serialize_packet_spec h p : sendable h (blen p) = true →
  serialize_packet h p = Ok (header_bytes h (blen p) ++ p).
Proof.
  intros Hs. unfold serialize_packet. rewrite serialize_header_spec by done. cbn [rbind].
  change (drop 16 (replicate 16 0)) with (@nil Z). rewrite app_nil_r.
  rewrite blit_replicate by (rewrite length_header_bytes; lia). cbn [rbind].
  rewrite length_header_bytes. replace (16 + length p - 16)%nat with (length p) by lia.
  apply blit_tail with (l := header_bytes h (blen p)).
Qed.

Lemma tag_byte_split h : version h = kProtocolVersion → valid_frame_type (type h) = true →
  Z.shiftr (tag_byte h) 4 = 1 ∧ Z.land (tag_byte h) 15 = frame_val (type h).
Proof.
  unfold tag_byte, valid_frame_type, kProtocolVersion. intros ->. simpl.
  rewrite andb_true_iff, !Z.leb_le. intros Ht. generalize dependent (frame_val (type h)).
  intros v Hv. assert (v = 1 ∨ v = 2 ∨ v = 3 ∨ v = 4 ∨ v = 5 ∨ v = 6) as Hc by lia.
  destruct Hc as [->|[->|[->|[->|[->| ->]]]]]; done.
Qed.

(** Reading the sixteen bytes back, before any check. *)
Lemma parse_packet_unfold b0 b1 b2 b3 b4 b5 b6 b7 b8 b9 b10 b11 b12 b13 b14 b15 p :
  let bytes := b0 :: b1 :: b2 :: b3 :: b4 :: b5 :: b6 :: b7 :: b8 :: b9 :: b10 :: b11 ::
               b12 :: b13 :: b14 :: b15 :: p in
  bytes_ok bytes →
  let h := mkHeader (u8 (Z.shiftr b0 4)) (frame_of (Z.land b0 15)) b1 (be_value [b2; b3])
             (be_value [b4; b5]) (be_value [b6; b7; b8; b9; b10; b11; b12; b13])
             (be_value [b14; b15]) in
  parse_packet bytes =
    throw packet_too_large when kMaximumPacketSize <? blen bytes else
    throw unsupported_version when negb (version h =? kProtocolVersion) else
    throw malformed_packet when negb (valid_frame_type (type h)) else
    throw unsupported_flags when negb (flags h =? 0) else
    throw malformed_packet when negb (header_length h =? kPacketHeaderSize) else
    throw payload_length_mismatch when negb (payload_length h =? blen p) else
    throw reserved_key_id when (key_id h =? kPreSessionKeyId) && bool_decide (type h = FrameType.data) else
    Ok (mkView h p).
Proof.
  intros bytes Hok h. unfold parse_packet. unfold guard at 1.
  replace (blen bytes <? kPacketHeaderSize) with false; last first.
  { symmetry. apply Z.ltb_ge. unfold bytes, blen, kPacketHeaderSize. simpl. lia. }
  rewrite (rd_ok bytes 0 b0) by done. cbn [rbind].
  rewrite (rd_ok bytes 1 b1) by done. cbn [rbind].
  unfold bytes_ok, bytes in Hok. repeat (apply Forall_cons_1 in Hok as [? Hok]).
  rewrite (read_u16_spec bytes 4 b4 b5 (drop 6 bytes)) by done. cbn [rbind].
  rewrite (read_u16_spec bytes 14 b14 b15 p) by done. cbn [rbind].
  rewrite (read_u16_spec bytes 2 b2 b3 (drop 4 bytes)) by done. cbn [rbind].
  rewrite (read_u64_spec [b6; b7; b8; b9; b10; b11; b12; b13] bytes 6 (drop 14 bytes));
    [|done|solve_bytes|done].
  rewrite (subspan_from_ok bytes 16) by (unfold bytes; simpl; lia). cbn [rbind].
  replace (blen bytes - kPacketHeaderSize) with (blen p);
    [reflexivity|unfold bytes, blen, kPacketHeaderSize; simpl; lia].
Qed.

(** A view as [parse_packet] returns it: a sendable header that announces the
    payload it comes with. *)
Definition view_ok (v : PacketView) : Prop :=
  header_ok (header v) ∧ bytes_ok (payload v) ∧
  sendable (header v) (blen (payload v)) = true ∧
  payload_length (header v) = blen (payload v).

Lemma sendable_size h p : sendable h (blen p) = true → blen p ≤ 65519.
Proof. unfold sendable. rewrite !andb_true_iff, Z.leb_le. unfold kMaximumPacketSize, kPacketHeaderSize. lia. Qed.

Lemma parse_header_bytes v : view_ok v →
  parse_packet (header_bytes (header v) (blen (payload v)) ++ payload v) = Ok v.
Proof.
  intros (Hh & Hp & Hs & Hl). destruct v as [h p]. simpl in *.
  pose proof (sendable_size h p Hs) as Hsz. pose proof (blen_nonneg p).
  destruct Hh as [Ht Hv Hf Hk Hhl Hc Hpl].
  unfold sendable in Hs. rewrite !andb_true_iff in Hs. destruct Hs as (((((Hv1 & Hvt) & Hf0) & Hh16) & Hk0) & _).
  apply Z.eqb_eq in Hv1, Hf0, Hh16. destruct (tag_byte_split h Hv1 Hvt) as [Hhi Hlo].
  assert (is_u8 (tag_byte h)) by apply u8_range.
  unfold header_bytes. cbn [be_bytes app]. rewrite parse_packet_unfold by solve_bytes.
  rewrite (u16_id (blen p)), (u8_id (flags h)) by word_lia.
  be_fold 2%nat (key_id h). be_fold 2%nat (header_length h). be_fold 8%nat (counter h).
  be_fold 2%nat (blen p).
  rewrite Hhi, Hlo, Ht. cbn [version type flags key_id header_length counter payload_length].
  unfold guard. apply negb_true_iff in Hk0. rewrite Hh16, Hf0, Hvt, Hk0, !Z.eqb_refl. simpl.
  match goal with |- context [kMaximumPacketSize <? ?n] =>
    destruct (Z.ltb_spec kMaximumPacketSize n) as [Hbig|_] end.
  { exfalso. unfold blen, kMaximumPacketSize in *. simpl in Hbig. lia. }
  do 2 f_equal. destruct h; simpl in *. by subst.
Qed.

Lemma be_value_u16 x y : is_u8 x → is_u8 y → is_u16 (be_value [x; y]).
Proof. intros Hx Hy. rewrite be_value_2. word_lia. Qed.

Lemma nibbles b : is_u8 b → u8 (Z.shiftr b 4) = 1 → 1 ≤ Z.land b 15 ≤ 6 →
  u8 (Z.lor (Z.shiftl 1 4) (Z.land b 15)) = b.
Proof.
  intros Hb. rewrite shiftr_div by lia. change 15 with (Z.ones 4). rewrite Z.land_ones by lia.
  rewrite lor_shiftl_add by (split; [apply Z.mod_pos_bound; lia|apply Z.mod_pos_bound; lia] || lia).
  rewrite (u8_id (b / 2 ^ 4)) by (unfold_words; split; [apply Z.div_pos; lia|apply Z.div_lt_upper_bound; lia]).
  intros Hq _. pose proof (Z.div_mod b (2 ^ 4)). rewrite Hq in *. rewrite u8_id; word_lia.
Qed.

Lemma frame_of_fixed v : frame_of (frame_val (frame_of v)) = frame_of v.
Proof.
  unfold frame_of at 2 3. repeat (case_match; [done|]). reflect_bools. unfold frame_of, frame_val.
  rewrite !(proj2 (Z.eqb_neq v _)) by done. done.
Qed.

Lemma frame_val_of v : frame_val (frame_of v) = v.
Proof. unfold frame_of. repeat (case_match; [reflect_bools; by subst|]). done. Qed.

(** What a successful parse tells: the header fits, and the bytes are those of
    the header followed by the payload. *)
Lemma parse_packet_inv bytes v : bytes_ok bytes → parse_packet bytes = Ok v →
  view_ok v ∧ bytes = header_bytes (header v) (blen (payload v)) ++ payload v.
Proof.
  intros Hok Hp. assert (kPacketHeaderSize ≤ blen bytes) as Hlen.
  { unfold parse_packet in Hp. unguard Hp. reflect_bools. done. }
  unfold kPacketHeaderSize in Hlen. explode bytes 16%nat.
  rewrite parse_packet_unfold in Hp by done. unguard Hp. injection Hp as <-.
  unfold bytes_ok in Hok. repeat (apply Forall_cons_1 in Hok as [? Hok]).
  cbn [version type flags key_id header_length counter payload_length header payload] in *.
  assert (is_u16 (be_value [b1; b2])) by by apply be_value_u16.
  assert (is_u16 (be_value [b3; b4])) by by apply be_value_u16.
  assert (is_u16 (be_value [b13; b14])) by by apply be_value_u16.
  assert (is_u64 (be_value [b5; b6; b7; b8; b9; b10; b11; b12]))
    by (apply (be_value_range 8); [solve_bytes|done]).
  apply negb_false_iff in G1. pose proof G1 as Hft.
  unfold valid_frame_type in Hft. rewrite frame_val_of in Hft. reflect_bools. subst b0. split.
  - split_and!; simpl; [|done| |done].
    + split; simpl; (done || apply frame_of_fixed || apply u8_range || word_lia).
    + unfold sendable. cbn [version type flags key_id header_length].
      rewrite !andb_true_iff, !Z.eqb_eq, G5, Z.leb_le. split_and!; try done.
      revert G. unfold blen, kMaximumPacketSize, kPacketHeaderSize. simpl. lia.
  - rewrite <- G4. unfold header_bytes, tag_byte. cbn [version type flags key_id header_length counter].
    rewrite frame_val_of, (u16_id (be_value [b13; b14])) by done.
    be_unfold [b1; b2]. be_unfold [b3; b4]. be_unfold [b5; b6; b7; b8; b9; b10; b11; b12].
    be_unfold [b13; b14]. rewrite G0. simpl. f_equal. symmetry. by apply nibbles.
Qed.

(** [parse_packet] reads inside its span whatever the datagram holds:
    every input gives a view or an error code. *)
Lemma parse_packet_no_ub bytes : no_ub (parse_packet bytes).
Proof.
  unfold no_ub, parse_packet. destruct (blen bytes <? kPacketHeaderSize) eqn:Hl; [done|].
  unfold guard at 1. reflect_bools. unfold kPacketHeaderSize in Hl. explode bytes 16%nat. clear.
  unfold guard. cbn -[blen Z.ltb]. rewrite subspan_from_ok by (simpl; lia).
  simpl. repeat case_match; done.
Qed.

(** C19. A datagram parses to [v] exactly when [v] is a well-formed view and
    serialising it gives the datagram back: no packet is lost or altered by
    the framing, and no two datagrams parse to the same packet.  Whatever the
    datagram holds, no access leaves it: it gives a view or an error code. *)
Theorem parse_packet_iff_serialize bytes v : bytes_ok bytes →
  no_ub (parse_packet bytes) ∧
  (parse_packet bytes = Ok v ↔
   view_ok v ∧ serialize_packet (header v) (payload v) = Ok bytes).
Proof.
  intros Hok. split; [apply parse_packet_no_ub|]. split.
  - intros Hp. destruct (parse_packet_inv bytes v Hok Hp) as [Hv Hb]. split; [done|].
    rewrite serialize_packet_spec by apply Hv. by f_equal.
  - intros [Hv Hs]. rewrite serialize_packet_spec in Hs by apply Hv. injection Hs as <-.
    by apply parse_header_bytes.
Qed.

Definition sample_view : PacketView :=
  mkView (mkHeader 1 FrameType.data 0 7 16 258 3) [10; 20; 30].
Definition sample_bytes : list Z := [17; 0; 0; 7; 0; 16; 0; 0; 0; 0; 0; 0; 1; 2; 0; 3; 10; 20; 30].

Lemma parse_packet_iff_serialize_witness :
  no_ub (parse_packet sample_bytes) ∧
  (parse_packet sample_bytes = Ok sample_view ↔
   view_ok sample_view ∧ serialize_packet (header sample_view) (payload sample_view) = Ok sample_bytes).
Proof. apply parse_packet_iff_serialize. repeat constructor; word_lia. Defined.
