(* ===== verification/Double.v ===== *)
(** IEEE 754 binary64, the [double] of the source: the Standard Library's
    executable specification of floating point at 53 bits of precision,
    rounding to nearest even, and the [std::] helpers the code applies to
    doubles.  No axiom on the processor's floats is used. *)

From Stdlib Require Import SpecFloat.
From S2P Require Import Prelude.

Abbreviation f64 := spec_float.

Definition prec64 : Z := 53.
Definition emax64 : Z := 1024.

Definition fadd (x y : f64) : f64 := SFadd prec64 emax64 x y.
Definition fsub (x y : f64) : f64 := SFsub prec64 emax64 x y.
Definition fmul (x y : f64) : f64 := SFmul prec64 emax64 x y.
Definition fdiv (x y : f64) : f64 := SFdiv prec64 emax64 x y.
Definition flt (x y : f64) : bool := SFltb x y.
Definition fle (x y : f64) : bool := SFleb x y.

(** [static_cast<double>(n)] *)
Definition of_int (n : Z) : f64 := binary_normalize prec64 emax64 n 0 false.

(** A decimal literal [n / d], rounded to the nearest double. *)
Definition lit (n d : Z) : f64 := fdiv (of_int n) (of_int d).

Definition fzero : f64 := S754_zero false.

(** [static_cast<std::size_t>(x)] of a finite non-negative double. *)
Definition trunc_size (x : f64) : Z :=
  match x with
  | S754_finite false m e => if 0 <=? e then Z.shiftl (Zpos m) e else Z.shiftr (Zpos m) (- e)
  | _ => 0
  end.

(** [std::chrono::duration<double>(d).count()]: nanoseconds as seconds. *)
Definition to_seconds (d : Z) : f64 := fdiv (of_int d) (of_int 1000000000).

(** [duration_cast<Duration>(duration<double>(seconds))], truncated. *)
Definition to_duration (s : f64) : Z :=
  match fmul s (of_int 1000000000) with
  | S754_finite true m e => - trunc_size (S754_finite false m e)
  | x => trunc_size x
  end.

(** [std::min], [std::max] and [std::clamp] *)
Definition fmin (a b : f64) : f64 := if flt b a then b else a.
Definition fmax (a b : f64) : f64 := if flt a b then b else a.
Definition fclamp (v lo hi : f64) : f64 :=
  if flt v lo then lo else if flt hi v then hi else v.

Definition clampZ (v lo hi : Z) : Z := if v <? lo then lo else if hi <? v then hi else v.

(** ** Order *)

Definition is_nan (x : f64) : bool := match x with S754_nan => true | _ => false end.

Lemma flt_fle x y : flt x y = true → fle x y = true.
Proof. unfold flt, fle, SFltb, SFleb. by destruct (SFcompare x y) as [[]|]. Qed.

Lemma fle_refl x : is_nan x = false → fle x x = true.
Proof.
  unfold fle, SFleb, SFcompare. destruct x as [s|s| |s m e]; simpl; try done; try (by destruct s).
  intros _. rewrite Z.compare_refl. change (Pos.compare_cont Eq m m) with (Pos.compare m m).
  rewrite Pos.compare_refl. by destruct s.
Qed.

(** Doubles in order: by class, then by exponent and significand. *)
Definition forder (x : f64) : Z * Z * Z :=
  match x with
  | S754_infinity true => (-2, 0, 0)
  | S754_finite true m e => (-1, - e, - Zpos m)
  | S754_zero _ | S754_nan => (0, 0, 0)
  | S754_finite false m e => (1, e, Zpos m)
  | S754_infinity false => (2, 0, 0)
  end.

Definition lex_lt (a b : Z * Z * Z) : Prop :=
  a.1.1 < b.1.1 ∨ a.1.1 = b.1.1 ∧ (a.1.2 < b.1.2 ∨ a.1.2 = b.1.2 ∧ a.2 < b.2).

Lemma flt_order x y : flt x y = true ↔ is_nan x = false ∧ is_nan y = false ∧ lex_lt (forder x) (forder y).
Proof.
  unfold flt, SFltb, lex_lt.
  destruct x as [sx|[]| |[] mx ex], y as [sy|[]| |[] my ey]; cbn; try (intuition (done || lia));
    change (Pos.compare_cont Eq mx my) with (Pos.compare mx my);
    destruct (Z.compare_spec ex ey); try (intuition (done || lia)); destruct (Pos.compare_spec mx my); cbn; intuition (done || lia).
Qed.

Lemma flt_trans x y z : flt x y = true → flt y z = true → flt x z = true.
Proof. rewrite !flt_order. unfold lex_lt. intuition lia. Qed.

(** [std::min] never exceeds its first argument, NaNs in the second included. *)
Lemma fmin_le_l a b : is_nan a = false → fle (fmin a b) a = true.
Proof.
  intros Ha. unfold fmin. destruct (flt b a) eqn:E; [by apply flt_fle|by apply fle_refl].
Qed.

(** ** Arithmetic that stays a number

    Rounding never turns a number into NaN, and the conversion of a 64-bit
    count is exact enough to stay finite and, from 1 on, positive. *)

Lemma shr_1_half r : 0 ≤ shr_m r → shr_m (shr_1 r) = shr_m r / 2.
Proof.
  destruct r as [m r s]; cbn. intros Hm. rewrite <- Z.div2_div. by destruct m as [|[p|p|]|p].
Qed.

Lemma iter_shr_1 p : ∀ r, 0 ≤ shr_m r → shr_m (SpecFloat.iter_pos shr_1 p r) = shr_m r / 2 ^ Zpos p.
Proof.
  assert (∀ a b m : Z, 0 ≤ a → 0 ≤ b → m / 2 ^ a / 2 ^ b = m / 2 ^ (a + b)) as Hadd.
  { intros a b m Ha Hb. rewrite Z.pow_add_r, Z.div_div by lia. done. }
  assert (∀ m a : Z, 0 ≤ m → 0 ≤ m / 2 ^ a) as Hpos.
  { intros m a Hm. destruct (decide (0 ≤ a)); [apply Z.div_pos; lia|]. rewrite Z.pow_neg_r, Zdiv_0_r by lia. done. }
  induction p as [p IH|p IH|]; intros r Hr; cbn [SpecFloat.iter_pos].
  - assert (0 ≤ shr_m (shr_1 r)) as H1 by (rewrite shr_1_half by done; apply Z.div_pos; lia).
    rewrite !IH by (rewrite ?IH by done; auto). rewrite shr_1_half by done.
    change (shr_m r / 2) with (shr_m r / 2 ^ 1). rewrite !Hadd by lia. f_equal. f_equal. lia.
  - rewrite !IH by (rewrite ?IH by done; auto). rewrite Hadd by lia. f_equal. f_equal. lia.
  - by apply shr_1_half.
Qed.

Lemma shr_fexp_spec prec emax m e l : 0 ≤ m →
  let n := Z.max 0 (fexp prec emax (Zdigits2 m + e) - e) in
  shr_m (shr_fexp prec emax m e l).1 = m / 2 ^ n ∧ (shr_fexp prec emax m e l).2 = e + n.
Proof.
  intros Hm. cbn zeta. unfold shr_fexp.
  assert (shr_m (shr_record_of_loc m l) = m) as El by (by destruct l as [|[]]).
  destruct (fexp prec emax (Zdigits2 m + e) - e) as [|p|p] eqn:E; cbn [shr fst snd].
  - rewrite El, Z.div_1_r. lia.
  - rewrite iter_shr_1 by lia. rewrite El, Z.max_r by lia. split; [done|lia].
  - rewrite El, Z.max_l by lia. rewrite Z.div_1_r. lia.
Qed.

Lemma round_nearest_even_range m l : m ≤ round_nearest_even m l ≤ m + 1.
Proof. destruct l as [|[]]; cbn; repeat case_match; lia. Qed.

Lemma binary_round_aux_number prec emax s m e l : 0 ≤ m → is_nan (binary_round_aux prec emax s m e l) = false.
Proof.
  intros Hm. unfold binary_round_aux.
  destruct (shr_fexp_spec prec emax m e l Hm) as [E1 _]. destruct (shr_fexp prec emax m e l) as [r1 e1]. cbn [fst] in E1.
  set (m1 := round_nearest_even _ _).
  assert (0 ≤ m1) as H1.
  { pose proof (round_nearest_even_range (shr_m r1) (loc_of_shr_record r1)).
    assert (0 ≤ m / 2 ^ Z.max 0 (fexp prec emax (Zdigits2 m + e) - e)) by (apply Z.div_pos; lia). subst m1. lia. }
  destruct (shr_fexp_spec prec emax m1 e1 loc_Exact H1) as [E2 _].
  destruct (shr_fexp prec emax m1 e1 loc_Exact) as [r2 e2]. cbn [fst] in E2.
  assert (0 ≤ shr_m r2) by (rewrite E2; apply Z.div_pos; lia).
  destruct (shr_m r2); [done|by destruct (Z.leb _ _)|lia].
Qed.

Lemma binary_normalize_number prec emax m e s : is_nan (binary_normalize prec emax m e s) = false.
Proof.
  destruct m; cbn; [done| |]; unfold binary_round; destruct (shl_align _ _ _); by apply binary_round_aux_number.
Qed.

(** A finite double other than zero. *)
Definition is_finite (x : f64) : bool := match x with S754_finite _ _ _ => true | _ => false end.

Lemma fmul_number x y : is_finite x = true → is_nan y = false → is_nan (fmul x y) = false.
Proof.
  destruct x as [| | |sx mx ex]; try done. destruct y as [| | |sy my ey]; try done. intros _ _.
  by apply binary_round_aux_number.
Qed.

Lemma fsub_number x y : is_finite x = true → is_nan y = false → is_nan (fsub x y) = false.
Proof.
  destruct x as [| | |sx mx ex]; try done. destruct y as [| | |sy my ey]; try done. intros _ _.
  apply binary_normalize_number.
Qed.

Lemma fdiv_number x y : is_nan x = false → is_finite y = true → is_nan (fdiv x y) = false.
Proof.
  destruct y as [| | |sy my ey]; try done. destruct x as [| | |sx mx ex]; try done. intros _ _.
  unfold fdiv, SFdiv, SFdiv_core_binary. set (m' := match _ with Z0 => _ | Zpos _ => _ | Zneg _ => _ end).
  assert (0 ≤ m') as Hm'.
  { subst m'. destruct (_ - _ - _); [lia|apply Z.shiftl_nonneg; lia|lia]. }
  pose proof (Z.div_eucl_eq m' (Zpos my) ltac:(lia)) as E. pose proof (Z.mod_pos_bound m' (Zpos my) ltac:(lia)).
  pose proof (Z.div_pos m' (Zpos my) Hm' ltac:(lia)) as Hq. unfold Z.div in Hq.
  destruct (Z.div_eucl m' (Zpos my)) as [q r]. by apply binary_round_aux_number.
Qed.

Lemma Zdigits2_spec m : 0 < m → 2 ^ (Zdigits2 m - 1) ≤ m < 2 ^ Zdigits2 m ∧ 0 < Zdigits2 m.
Proof.
  destruct m as [|p|p]; try lia. intros _. cbn [Zdigits2].
  induction p as [p IH|p IH|]; cbn [digits2_pos]; [..|cbn; lia]; rewrite Pos2Z.inj_succ; unfold Z.succ;
    replace (Zpos (digits2_pos p) + 1 - 1) with ((Zpos (digits2_pos p) - 1) + 1) by lia;
    rewrite !Z.pow_add_r by lia; lia.
Qed.

Lemma Zdigits2_unique m d : 0 < d → 2 ^ (d - 1) ≤ m < 2 ^ d → Zdigits2 m = d.
Proof.
  intros Hd Hm. assert (0 < 2 ^ (d - 1)) by (apply Z.pow_pos_nonneg; lia).
  destruct (Zdigits2_spec m) as [Hs Hp]; [lia|].
  destruct (Z.lt_trichotomy (Zdigits2 m) d) as [Hlt|[?|Hgt]]; [|done|].
  - pose proof (Z.pow_le_mono_r 2 (Zdigits2 m) (d - 1) ltac:(lia) ltac:(lia)). lia.
  - pose proof (Z.pow_le_mono_r 2 d (Zdigits2 m - 1) ltac:(lia) ltac:(lia)). lia.
Qed.

Lemma iter_xO m d : Zpos (Pos.iter xO m d) = Zpos m * 2 ^ Zpos d.
Proof.
  induction d as [|d IH] using Pos.peano_ind; [cbn; lia|].
  rewrite Pos.iter_succ, Pos2Z.inj_succ, Z.pow_succ_r by lia.
  change (Zpos (xO (Pos.iter xO m d))) with (2 * Zpos (Pos.iter xO m d)). lia.
Qed.

(** A significand of 53 to 64 bits at a moderate exponent rounds to a finite
    double. *)
Lemma binary_round_aux_finite s m e : 2 ^ 52 ≤ m < 2 ^ 64 → -1000 ≤ e ≤ 900 →
  is_finite (binary_round_aux prec64 emax64 s m e loc_Exact) = true.
Proof.
  intros Hm He. destruct (Zdigits2_spec m ltac:(lia)) as [Hd _]. set (d := Zdigits2 m) in *.
  assert (53 ≤ d ≤ 64) as Hdr.
  { split; [|]; apply Z.le_ngt; intros ?.
    - pose proof (Z.pow_le_mono_r 2 d 52 ltac:(lia) ltac:(lia)). lia.
    - pose proof (Z.pow_le_mono_r 2 64 (d - 1) ltac:(lia) ltac:(lia)). lia. }
  unfold binary_round_aux. destruct (shr_fexp_spec prec64 emax64 m e loc_Exact ltac:(lia)) as [E1 E2].
  fold d in E1, E2. replace (Z.max 0 (fexp prec64 emax64 (d + e) - e)) with (d - 53) in E1, E2
    by (unfold fexp, emin, prec64, emax64; lia).
  destruct (shr_fexp prec64 emax64 m e loc_Exact) as [r1 e1]. cbn [fst snd] in E1, E2.
  assert (2 ^ 52 ≤ shr_m r1 < 2 ^ 53) as Hr1.
  { rewrite E1. split; [apply Z.div_le_lower_bound|apply Z.div_lt_upper_bound]; try (apply Z.pow_pos_nonneg; lia);
      rewrite <- Z.pow_add_r by lia; [replace (d - 53 + 52) with (d - 1) by lia|replace (d - 53 + 53) with d by lia]; lia. }
  pose proof (round_nearest_even_range (shr_m r1) (loc_of_shr_record r1)) as Hr.
  set (m1 := round_nearest_even _ _) in *.
  destruct (shr_fexp_spec prec64 emax64 m1 e1 loc_Exact ltac:(lia)) as [E3 E4].
  assert (Zdigits2 m1 = 53 ∨ Zdigits2 m1 = 54) as Hd1.
  { destruct (decide (m1 < 2 ^ 53)); [left|right]; apply Zdigits2_unique; cbn; lia. }
  assert (∃ k, (k = 0 ∨ k = 1) ∧ Z.max 0 (fexp prec64 emax64 (Zdigits2 m1 + e1) - e1) = k) as (k & Hk & Ek).
  { unfold fexp, emin, prec64, emax64. destruct Hd1 as [->| ->]; [exists 0|exists 1]; split; auto; lia. }
  rewrite Ek in E3, E4. destruct (shr_fexp prec64 emax64 m1 e1 loc_Exact) as [r2 e2]. cbn [fst snd] in E3, E4.
  assert (0 < shr_m r2) as Hr2.
  { rewrite E3. destruct Hk as [->| ->]; [rewrite Z.div_1_r; lia|]. apply Z.div_str_pos. lia. }
  destruct (shr_m r2); [lia| |lia]. unfold prec64, emax64. by rewrite (proj2 (Z.leb_le _ _)) by lia.
Qed.

Lemma of_int_number n : is_nan (of_int n) = false.
Proof. apply binary_normalize_number. Qed.

Lemma of_int_finite n : 0 < n < 2 ^ 64 → is_finite (of_int n) = true.
Proof.
  intros Hn. destruct n as [|p|p]; try lia. unfold of_int, binary_normalize, binary_round.
  destruct (Zdigits2_spec (Zpos p) ltac:(lia)) as [Hd Hp]. cbn [Zdigits2] in Hd, Hp. set (d := Zpos (digits2_pos p)) in *.
  assert (d ≤ 64) as Hd64.
  { apply Z.le_ngt. intros ?. pose proof (Z.pow_le_mono_r 2 64 (d - 1) ltac:(lia) ltac:(lia)). lia. }
  unfold shl_align. replace (fexp prec64 emax64 (d + 0) - 0) with (d - 53) by (unfold fexp, emin, prec64, emax64; lia).
  destruct (d - 53) as [|k|k] eqn:Ek.
  - apply binary_round_aux_finite; [|lia]. replace d with 53 in Hd by lia. change (53 - 1) with 52 in Hd. lia.
  - apply binary_round_aux_finite; [|lia].
    pose proof (Z.pow_le_mono_r 2 52 (d - 1) ltac:(lia) ltac:(lia)). lia.
  - replace (fexp prec64 emax64 (d + 0)) with (d - 53) by (unfold fexp, emin, prec64, emax64; lia).
    apply binary_round_aux_finite; [|lia]. rewrite iter_xO.
    assert (2 ^ (d - 1) * 2 ^ Zpos k = 2 ^ 52) as E1 by (rewrite <- Z.pow_add_r by lia; f_equal; lia).
    assert (2 ^ d * 2 ^ Zpos k = 2 ^ 53) as E2 by (rewrite <- Z.pow_add_r by lia; f_equal; lia).
    assert (0 < 2 ^ Zpos k) by (apply Z.pow_pos_nonneg; lia). split; [nia|].
    apply Z.lt_trans with (2 ^ 53); [nia|lia].
Qed.

(** [std::clamp] of a number lies between its bounds. *)
Lemma flt_false_fle x y : is_nan x = false → is_nan y = false → flt y x = false → fle x y = true.
Proof.
  unfold flt, fle, SFltb, SFleb. intros Hx Hy.
  destruct x as [sx|[]| |[] mx ex], y as [sy|[]| |[] my ey]; cbn; try done;
    rewrite (Z.compare_antisym ex ey); change (Pos.compare_cont Eq mx my) with (Pos.compare mx my);
    change (Pos.compare_cont Eq my mx) with (Pos.compare my mx); rewrite (Pos.compare_antisym mx my);
    destruct (Z.compare ex ey), (Pos.compare mx my); done.
Qed.

Lemma fle_number x y : fle x y = true → is_nan x = false ∧ is_nan y = false.
Proof. unfold fle, SFleb. by destruct x, y. Qed.

Lemma fclamp_range v lo hi : is_nan v = false → fle lo hi = true →
  fle lo (fclamp v lo hi) = true ∧ fle (fclamp v lo hi) hi = true.
Proof.
  intros Hv Hlh. destruct (fle_number _ _ Hlh) as [Hl Hh]. unfold fclamp.
  destruct (flt v lo) eqn:E1; [by split; [apply fle_refl|]|].
  destruct (flt hi v) eqn:E2; [by split; [|apply fle_refl]|]. split; by apply flt_false_fle.
Qed.

Lemma between_finite lo v hi : flt fzero lo = true → is_finite hi = true → fle lo v = true → fle v hi = true →
  is_finite v = true.
Proof. by destruct lo as [|[]| |[]], v as [|[]| |[]], hi as [|[]| |[]]. Qed.

Lemma clampZ_range v lo hi : lo ≤ hi → lo ≤ clampZ v lo hi ≤ hi.
Proof. unfold clampZ. intros H. repeat case_match; reflect_bools; lia. Qed.

Example lit_tenth : lit 1 10 = S754_finite false 7205759403792794 (-56).
Proof. vm_compute. reflexivity. Qed.
Example trunc_sample : trunc_size (fdiv (of_int 77) (of_int 8)) = 9.
Proof. vm_compute. reflexivity. Qed.
