(* ===== verification/Gf256.v ===== *)
(** Arithmetic in GF(2^8) for the erasure code: the lookup tables and the
    namespace [gf256] of [src/fec.cpp].

    The tables are built by the constructor's loops.  The theorems show that
    [multiply] and [inverse] are the operations of a field with [^] as its
    addition, and that the vector routine [multiply_add] computes the same
    row whichever instruction set runs it. *)

From Stdlib Require Import Field Eqdep_dec.
From S2P Require Import Prelude.

(** ** The tables *)

(** One turn of the generator: [value <<= 1; if (value & 0x100) value ^= 0x11D]. *)
Definition xtime (value : Z) : Z :=
  let value := u32 (Z.shiftl value 1) in
  if negb (Z.land value 256 =? 0) then Z.lxor value 285 else value.

(** [for (index = ..; index < 255; ++index)]: [exp] and [log] side by side. *)
Fixpoint fill_powers (n index : nat) (value : Z) (exp log : list Z) : list Z * list Z :=
  match n with
  | O => (exp, log)
  | S n =>
      fill_powers n (S index) (xtime value)
        (<[index := u8 value]> exp)
        (<[Z.to_nat value := u8 (Z.of_nat index)]> log)
  end.

(** [for (index = 255; index < exp.size(); ++index) exp[index] = exp[index - 255]]. *)
Fixpoint fill_repeat (n index : nat) (exp : list Z) : list Z :=
  match n with
  | O => exp
  | S n => fill_repeat n (S index) (<[index := exp !!! (index - 255)%nat]> exp)
  end.

Definition build_tables : list Z * list Z :=
  let '(exp, log) := fill_powers 255 0 1 (replicate 512 0) (replicate 256 0) in
  (fill_repeat 257 255 exp, log).

Definition exp_table : list Z := Eval vm_compute in build_tables.1.
Definition log_table : list Z := Eval vm_compute in build_tables.2.

Lemma tables_built : build_tables = (exp_table, log_table).
Proof. vm_compute. reflexivity. Qed.

(** [product[left][right]]; row and column 0 keep their initial 0. *)
Definition product (left right : Z) : Z :=
  if (1 <=? left) && (1 <=? right)
  then exp_table !!! Z.to_nat (log_table !!! Z.to_nat left + log_table !!! Z.to_nat right)
  else 0.

(** [nibbles[coefficient]], 32 entries: products of the low nibbles, then of
    the high ones. *)
Definition nibbles (coefficient : Z) (i : Z) : Z :=
  if i <? 16 then product coefficient i else product coefficient (Z.shiftl (i - 16) 4).

Definition multiply (left right : Z) : Z := product left right.

Definition inverse (value : Z) : Z :=
  if value =? 0 then 0
  else exp_table !!! Z.to_nat (255 - log_table !!! Z.to_nat value).

Definition kMaximumFecData : Z := 64.

(** The Cauchy coefficient of a parity row and a data column. *)
Definition cauchy (parity_row data_column : nat) : Z :=
  let x := u8 (kMaximumFecData + Z.of_nat parity_row) in
  let y := u8 (Z.of_nat data_column) in
  inverse (u8 (Z.lxor x y)).

(** ** Row operations *)

(** [for (; index < length; ++index) accumulator[index] ^= f(source[index])],
    from [index = 0]; the tail of a longer accumulator is left alone. *)
Fixpoint xor_map (f : Z → Z) (acc src : list Z) : list Z :=
  match acc, src with
  | a :: acc, s :: src => Z.lxor a (f s) :: xor_map f acc src
  | acc, _ => acc
  end.

(** One vector lane of the AVX2 and NEON kernels: two 16-entry table
    shuffles, one per nibble of the input. *)
Definition shuffle_lane (coefficient x : Z) : Z :=
  Z.lxor (nibbles coefficient (Z.land x 15))
         (nibbles coefficient (16 + Z.land (Z.shiftr x 4) 15)).

(** The kernels' loop [for (; index + step <= length; index += step)]: it
    returns the row and the index it stopped at. *)
Fixpoint simd_loop (fuel step index len : nat) (coefficient : Z) (acc src : list Z)
    : list Z * nat :=
  match fuel with
  | O => (acc, index)
  | S fuel =>
      if decide (index + step ≤ len)%nat then
        let block := xor_map (shuffle_lane coefficient)
                       (take step (drop index acc)) (take step (drop index src)) in
        simd_loop fuel step (index + step) len coefficient
          (take index acc ++ block ++ drop (index + step) acc) src
      else (acc, index)
  end.

(** The instruction set the build and the CPU offer. *)
Inductive Backend := scalar | avx2 | neon.

Definition simd_step (b : Backend) : nat :=
  match b with scalar => 0 | avx2 => 32 | neon => 16 end.

Definition multiply_add (b : Backend) (accumulator source : list Z) (coefficient : Z) : list Z :=
  let length := Nat.min (length accumulator) (length source) in
  if coefficient =? 0 then accumulator
  else if coefficient =? 1 then xor_map (λ s, s) accumulator source
  else
    let '(acc, index) :=
      match b with
      | scalar => (accumulator, 0%nat)
      | _ => simd_loop (S length) (simd_step b) 0 length coefficient accumulator source
      end in
    take index acc ++
    xor_map (product coefficient) (drop index acc) (drop index source).

(** [scale]: multiply a row in place. *)
Definition scale (row : list Z) (coefficient : Z) : list Z := map (product coefficient) row.

(** ** The tables hold powers of the generator *)

Definition power (n : nat) : Z := Nat.iter n xtime 1.

Definition byte_range : list Z := Eval vm_compute in map Z.of_nat (seq 0 256).

Lemma byte_range_complete a : is_u8 a → a ∈ byte_range.
Proof.
  intros Ha. change byte_range with (map Z.of_nat (seq 0 256)).
  apply list_elem_of_fmap. exists (Z.to_nat a). rewrite elem_of_seq. word_lia.
Qed.

(** A property of one byte, checked on all of them. *)
Lemma byte_check (P : Z → bool) : forallb P byte_range = true → ∀ a, is_u8 a → P a = true.
Proof.
  intros H a Ha. rewrite forallb_forall in H. apply H, list_elem_of_In. by apply byte_range_complete.
Qed.

Lemma byte_check2 (P : Z → Z → bool) :
  forallb (λ a, forallb (P a) byte_range) byte_range = true →
  ∀ a b, is_u8 a → is_u8 b → P a b = true.
Proof. intros H a b Ha Hb. apply (byte_check (P a)); [|done]. by apply (byte_check _ H). Qed.

Lemma index_check (P : nat → bool) (m : nat) :
  forallb P (seq 0 m) = true → ∀ n, (n < m)%nat → P n = true.
Proof.
  intros H n Hn. rewrite forallb_forall in H. apply H, list_elem_of_In, elem_of_seq. lia.
Qed.

Lemma exp_power n : (n < 512)%nat → exp_table !!! n = power n.
Proof.
  intros Hn. apply Z.eqb_eq. revert n Hn.
  apply (index_check (λ n, exp_table !!! n =? power n)). vm_compute. reflexivity.
Qed.

Definition dlog (a : Z) : nat := Z.to_nat (log_table !!! Z.to_nat a).

Lemma power_dlog a : is_u8 a → a ≠ 0 → power (dlog a) = a ∧ (dlog a < 255)%nat.
Proof.
  intros Ha Hz.
  assert (((a =? 0) || ((power (dlog a) =? a) && (dlog a <? 255)%nat)) = true) as H.
  { revert a Ha Hz. intros a Ha _. revert a Ha.
    apply (byte_check (λ a, (a =? 0) || ((power (dlog a) =? a) && (dlog a <? 255)%nat))).
    vm_compute. reflexivity. }
  apply orb_true_iff in H as [H|H]; reflect_bools; [done|].
  apply Nat.ltb_lt in H0. done.
Qed.

Lemma dlog_power n : (n < 255)%nat → dlog (power n) = n.
Proof.
  intros Hn. apply Nat.eqb_eq. revert n Hn.
  apply (index_check (λ n, (dlog (power n) =? n)%nat)). vm_compute. reflexivity.
Qed.

Lemma power_period n : power (n + 255) = power n.
Proof.
  unfold power. rewrite Nat.iter_add.
  replace (Nat.iter 255 xtime 1) with 1; [done|]. vm_compute. reflexivity.
Qed.

Lemma power_mod n : power n = power (n mod 255).
Proof.
  rewrite (Nat.div_mod_eq n 255) at 1. generalize (n / 255)%nat, (n mod 255)%nat. intros q r.
  induction q as [|q IH]; [done|].
  replace (255 * S q + r)%nat with (255 * q + r + 255)%nat by lia. by rewrite power_period.
Qed.

Lemma xtime_byte a : is_u8 a → is_u8 (xtime a).
Proof.
  intros Ha. assert (((0 <=? xtime a) && (xtime a <? 256)) = true); [|reflect_bools; word_lia].
  revert a Ha. apply (byte_check (λ a, (0 <=? xtime a) && (xtime a <? 256))). vm_compute. reflexivity.
Qed.

Lemma xtime_linear a b : is_u8 a → is_u8 b → xtime (Z.lxor a b) = Z.lxor (xtime a) (xtime b).
Proof.
  intros Ha Hb. apply Z.eqb_eq. revert a b Ha Hb.
  apply (byte_check2 (λ a b, xtime (Z.lxor a b) =? Z.lxor (xtime a) (xtime b))).
  vm_compute. reflexivity.
Qed.

Lemma xtime_nonzero a : is_u8 a → a ≠ 0 → xtime a ≠ 0.
Proof.
  intros Ha Hz. assert (((a =? 0) || negb (xtime a =? 0)) = true) as H.
  { clear Hz. revert a Ha. apply (byte_check (λ a, (a =? 0) || negb (xtime a =? 0))).
    vm_compute. reflexivity. }
  apply orb_true_iff in H as [H|H]; reflect_bools; done.
Qed.

Lemma power_byte n : is_u8 (power n).
Proof. induction n as [|n IH]; [done|]. cbn. by apply xtime_byte. Qed.

Lemma power_nonzero n : power n ≠ 0.
Proof.
  induction n as [|n IH]; [done|]. unfold power in *. simpl. apply xtime_nonzero; [|done].
  apply power_byte.
Qed.

Lemma lxor_byte a b : is_u8 a → is_u8 b → is_u8 (Z.lxor a b).
Proof. intros. by apply lxor_bound. Qed.
#[export] Hint Resolve xtime_byte power_byte lxor_byte : norr.

(** ** [multiply] by a fixed factor is a power of the generator step *)

Lemma log_table_nonneg a : is_u8 a → 0 ≤ log_table !!! Z.to_nat a.
Proof.
  intros Ha. apply Z.leb_le. revert a Ha.
  apply (byte_check (λ a, 0 <=? log_table !!! Z.to_nat a)). vm_compute. reflexivity.
Qed.

Lemma multiply_powers a b : is_u8 a → is_u8 b → a ≠ 0 → b ≠ 0 →
  multiply a b = power (dlog a + dlog b).
Proof.
  intros Ha Hb Hza Hzb. unfold multiply, product.
  rewrite (proj2 (Z.leb_le 1 a)), (proj2 (Z.leb_le 1 b)) by word_lia. simpl.
  destruct (power_dlog a Ha Hza) as [_ La]. destruct (power_dlog b Hb Hzb) as [_ Lb].
  pose proof (log_table_nonneg a Ha). pose proof (log_table_nonneg b Hb).
  unfold dlog in *. rewrite exp_power by lia. f_equal. lia.
Qed.

Lemma multiply_0_l b : multiply 0 b = 0.
Proof. done. Qed.

Lemma multiply_0_r a : multiply a 0 = 0.
Proof. unfold multiply, product. by rewrite andb_false_r. Qed.

Lemma multiply_byte a b : is_u8 a → is_u8 b → is_u8 (multiply a b).
Proof.
  intros Ha Hb. destruct (decide (a = 0)) as [->|]; [done|].
  destruct (decide (b = 0)) as [->|]; [by rewrite multiply_0_r|].
  rewrite multiply_powers by done. apply power_byte.
Qed.
#[export] Hint Resolve multiply_byte : norr.

Lemma iter_xtime_0 n : Nat.iter n xtime 0 = 0.
Proof. induction n as [|n IH]; [done|]. simpl. by rewrite IH. Qed.

Lemma iter_xtime_byte n a : is_u8 a → is_u8 (Nat.iter n xtime a).
Proof. intros Ha. induction n; simpl; auto with norr. Qed.

Lemma iter_xtime_linear n a b : is_u8 a → is_u8 b →
  Nat.iter n xtime (Z.lxor a b) = Z.lxor (Nat.iter n xtime a) (Nat.iter n xtime b).
Proof.
  intros Ha Hb. induction n as [|n IH]; [done|]. simpl. rewrite IH.
  apply xtime_linear; by apply iter_xtime_byte.
Qed.

Lemma multiply_iter a b : is_u8 a → is_u8 b → a ≠ 0 → multiply a b = Nat.iter (dlog a) xtime b.
Proof.
  intros Ha Hb Hz. destruct (decide (b = 0)) as [->|Hzb].
  { by rewrite multiply_0_r, iter_xtime_0. }
  rewrite multiply_powers by done. unfold power. rewrite Nat.iter_add. f_equal.
  by apply power_dlog.
Qed.

(** ** The field laws *)

Lemma multiply_comm a b : is_u8 a → is_u8 b → multiply a b = multiply b a.
Proof.
  intros Ha Hb. destruct (decide (a = 0)) as [->|]; [by rewrite multiply_0_r|].
  destruct (decide (b = 0)) as [->|]; [by rewrite multiply_0_r|].
  by rewrite !multiply_powers, Nat.add_comm.
Qed.

Lemma multiply_1_l a : is_u8 a → multiply 1 a = a.
Proof. intros Ha. by rewrite multiply_iter. Qed.

Lemma multiply_nonzero a b : is_u8 a → is_u8 b → a ≠ 0 → b ≠ 0 → multiply a b ≠ 0.
Proof. intros. rewrite multiply_powers by done. apply power_nonzero. Qed.

Lemma dlog_multiply a b : is_u8 a → is_u8 b → a ≠ 0 → b ≠ 0 →
  dlog (multiply a b) = ((dlog a + dlog b) mod 255)%nat.
Proof.
  intros. rewrite multiply_powers by done. rewrite power_mod. apply dlog_power.
  apply Nat.mod_upper_bound. lia.
Qed.

Lemma multiply_assoc a b c : is_u8 a → is_u8 b → is_u8 c →
  multiply a (multiply b c) = multiply (multiply a b) c.
Proof.
  intros Ha Hb Hc. destruct (decide (a = 0)) as [->|]; [done|].
  destruct (decide (b = 0)) as [->|]; [by rewrite !multiply_0_r|].
  destruct (decide (c = 0)) as [->|]; [by rewrite !multiply_0_r|].
  rewrite (multiply_powers a (multiply b c)) by auto using multiply_nonzero with norr.
  rewrite (multiply_powers (multiply a b) c) by auto using multiply_nonzero with norr.
  rewrite !dlog_multiply by done.
  rewrite power_mod, (power_mod (_ + dlog c)).
  rewrite Nat.Div0.add_mod_idemp_l, Nat.Div0.add_mod_idemp_r. do 2 f_equal. lia.
Qed.

Lemma multiply_lxor_r a b c : is_u8 a → is_u8 b → is_u8 c →
  multiply a (Z.lxor b c) = Z.lxor (multiply a b) (multiply a c).
Proof.
  intros Ha Hb Hc. destruct (decide (a = 0)) as [->|]; [done|].
  rewrite !multiply_iter by auto with norr. by apply iter_xtime_linear.
Qed.

Lemma inverse_power a : is_u8 a → a ≠ 0 → inverse a = power (255 - dlog a).
Proof.
  intros Ha Hz. unfold inverse. rewrite (proj2 (Z.eqb_neq a 0)) by done.
  destruct (power_dlog a Ha Hz) as [_ La]. pose proof (log_table_nonneg a Ha).
  unfold dlog in *. rewrite exp_power by lia. f_equal. lia.
Qed.

Lemma inverse_byte a : is_u8 a → is_u8 (inverse a).
Proof.
  intros Ha. destruct (decide (a = 0)) as [->|]; [done|].
  rewrite inverse_power by done. apply power_byte.
Qed.
#[export] Hint Resolve inverse_byte : norr.

Lemma multiply_inverse a : is_u8 a → a ≠ 0 → multiply (inverse a) a = 1.
Proof.
  intros Ha Hz. rewrite multiply_comm by auto with norr.
  rewrite multiply_iter by auto with norr. rewrite inverse_power by done.
  unfold power. rewrite <- Nat.iter_add. destruct (power_dlog a Ha Hz) as [_ La].
  replace (dlog a + (255 - dlog a))%nat with 255%nat by lia. vm_compute. reflexivity.
Qed.

(** ** GF(2^8) as a type, so that [ring] and [field] apply *)

Record gf := mkGf { gv : Z; gv_byte : (0 <=? gv) && (gv <? 256) = true }.

Lemma gf_byte x : is_u8 (gv x).
Proof. destruct x as [v Hv]. simpl. reflect_bools. word_lia. Qed.
#[export] Hint Resolve gf_byte : norr.

Lemma gf_eq x y : gv x = gv y → x = y.
Proof.
  destruct x as [v Hv], y as [w Hw]. simpl. intros ->. f_equal. apply Eqdep_dec.UIP_dec.
  apply bool_dec.
Qed.

Lemma gf_proof z : is_u8 z → (0 <=? z) && (z <? 256) = true.
Proof. intros Hz. apply andb_true_iff. rewrite Z.leb_le, Z.ltb_lt. word_lia. Qed.

Definition gf_of (z : Z) : gf := mkGf (u8 z) (gf_proof _ (u8_range z)).

Lemma gv_of z : is_u8 z → gv (gf_of z) = z.
Proof. apply u8_id. Qed.

Lemma gf_of_gv x : gf_of (gv x) = x.
Proof. apply gf_eq, gv_of, gf_byte. Qed.

Definition gf_add (x y : gf) : gf := gf_of (Z.lxor (gv x) (gv y)).
Definition gf_mul (x y : gf) : gf := gf_of (multiply (gv x) (gv y)).
Definition gf_inv (x : gf) : gf := gf_of (inverse (gv x)).
Definition gf_div (x y : gf) : gf := gf_mul x (gf_inv y).
Definition gf_opp (x : gf) : gf := x.
Definition gf0 : gf := gf_of 0.
Definition gf1 : gf := gf_of 1.

Declare Scope gf_scope.
Delimit Scope gf_scope with gf.
Bind Scope gf_scope with gf.
Notation "0" := gf0 : gf_scope.
Notation "1" := gf1 : gf_scope.
Infix "+" := gf_add : gf_scope.
Infix "*" := gf_mul : gf_scope.
Infix "/" := gf_div : gf_scope.

Lemma gv_add x y : gv (x + y)%gf = Z.lxor (gv x) (gv y).
Proof. apply gv_of. auto with norr. Qed.
Lemma gv_mul x y : gv (x * y)%gf = multiply (gv x) (gv y).
Proof. apply gv_of. auto with norr. Qed.
Lemma gv_inv x : gv (gf_inv x) = inverse (gv x).
Proof. apply gv_of. auto with norr. Qed.

Lemma gf_nonzero x : x ≠ 0%gf ↔ gv x ≠ 0.
Proof.
  split; intros H E; apply H.
  - by apply gf_eq.
  - by rewrite E.
Qed.

Lemma gf_ring : ring_theory gf0 gf1 gf_add gf_mul gf_add gf_opp eq.
Proof.
  split; intros; apply gf_eq; rewrite ?gv_add, ?gv_mul, ?gv_add, ?gv_mul.
  - apply Z.lxor_0_l.
  - apply Z.lxor_comm.
  - symmetry. apply Z.lxor_assoc.
  - apply multiply_1_l; auto with norr.
  - apply multiply_comm; auto with norr.
  - apply multiply_assoc; auto with norr.
  - rewrite multiply_comm by auto with norr.
    rewrite multiply_lxor_r by auto with norr.
    f_equal; apply multiply_comm; auto with norr.
  - done.
  - apply Z.lxor_nilpotent.
Qed.

#[export] Instance gf_eq_dec : EqDecision gf.
Proof.
  intros x y. destruct (decide (gv x = gv y)) as [E|E]; [left; by apply gf_eq|right; congruence].
Defined.

(** The prime field of characteristic 2 provides the coefficients. *)
Definition gf_of_bool (b : bool) : gf := if b then gf1 else gf0.

Lemma gf_morph :
  ring_morph gf0 gf1 gf_add gf_mul gf_add gf_opp eq
             false true xorb andb xorb (λ b, b) eqb gf_of_bool.
Proof.
  split; try done.
  - intros [] []; by apply gf_eq.
  - intros [] []; by apply gf_eq.
  - intros [] []; by apply gf_eq.
  - intros x y H. apply eqb_prop in H. by subst.
Qed.

Lemma gf_field : field_theory gf0 gf1 gf_add gf_mul gf_add gf_opp gf_div gf_inv eq.
Proof.
  split; [apply gf_ring|done|done|].
  intros x Hx. apply gf_eq. rewrite gv_mul, gv_inv. apply multiply_inverse; auto with norr.
  by apply gf_nonzero.
Qed.

Ltac gf_cst t :=
  lazymatch t with
  | gf0 => constr:(false)
  | gf1 => constr:(true)
  | _ => constr:(InitialRing.NotConstant)
  end.

Add Field gf_field_tac : gf_field (morphism gf_morph, constants [gf_cst]).

(** ** Row operations *)

Lemma length_xor_map f acc src : length (xor_map f acc src) = length acc.
Proof. revert src. induction acc; intros [|]; simpl; auto. Qed.

Lemma xor_map_app f a1 a2 s1 s2 : length a1 = length s1 →
  xor_map f (a1 ++ a2) (s1 ++ s2) = xor_map f a1 s1 ++ xor_map f a2 s2.
Proof.
  revert s1. induction a1 as [|a a1 IH]; intros [|s s1] H; try done. simpl. f_equal. apply IH.
  simpl in H. lia.
Qed.

Lemma xor_map_nil_r f acc : xor_map f acc [] = acc.
Proof. by destruct acc. Qed.

Lemma xor_map_ext f g acc src : bytes_ok src → (∀ x, is_u8 x → f x = g x) →
  xor_map f acc src = xor_map g acc src.
Proof.
  intros Hs Hfg. revert acc. induction Hs as [|s src Hs Hsrc IH]; intros [|a acc]; simpl; try done.
  by rewrite Hfg, IH.
Qed.

Lemma xor_map_zero f acc src : bytes_ok src → (∀ x, is_u8 x → f x = 0) → xor_map f acc src = acc.
Proof.
  intros Hs Hf. revert acc. induction Hs as [|s src Hs Hsrc IH]; intros [|a acc]; simpl; try done.
  by rewrite Hf, Z.lxor_0_r, IH.
Qed.

Lemma xor_map_bytes f acc src : bytes_ok acc → bytes_ok src → (∀ x, is_u8 x → is_u8 (f x)) →
  bytes_ok (xor_map f acc src).
Proof.
  intros Ha Hs Hf. revert src Hs. induction Ha as [|a acc Ha Hacc IH]; intros [|s src] Hs; simpl.
  - constructor.
  - constructor.
  - by constructor.
  - apply Forall_cons_1 in Hs as [Hs Hsrc]. constructor; auto with norr. by apply IH.
Qed.

Lemma lookup_xor_map f acc src i : f 0 = 0 → (i < length acc)%nat →
  xor_map f acc src !!! i = Z.lxor (acc !!! i) (f (default 0 (src !! i))).
Proof.
  intros Hf. revert src i. induction acc as [|a acc IH]; intros src i Hi; [simpl in *; lia|].
  destruct src as [|s src]; [by rewrite xor_map_nil_r; simpl; rewrite Hf, Z.lxor_0_r|].
  destruct i as [|i]; [done|]. simpl in Hi. apply (IH src i). lia.
Qed.

(** A vector lane multiplies its byte. *)
Lemma shuffle_lane_product c x : is_u8 c → is_u8 x → shuffle_lane c x = multiply c x.
Proof.
  intros Hc Hx. unfold shuffle_lane, nibbles.
  assert (∀ x, is_u8 x → 0 ≤ Z.land x 15 < 16 ∧ 0 ≤ Z.land (Z.shiftr x 4) 15 < 16 ∧
    Z.lxor (Z.land x 15) (Z.shiftl (Z.land (Z.shiftr x 4) 15) 4) = x) as Hsplit.
  { clear. intros x Hx.
    assert (((0 <=? Z.land x 15) && (Z.land x 15 <? 16) && (0 <=? Z.land (Z.shiftr x 4) 15) &&
      (Z.land (Z.shiftr x 4) 15 <? 16) &&
      (Z.lxor (Z.land x 15) (Z.shiftl (Z.land (Z.shiftr x 4) 15) 4) =? x)) = true) as H.
    { revert x Hx. apply byte_check. vm_compute. reflexivity. }
    reflect_bools. lia. }
  destruct (Hsplit x Hx) as (H1 & H2 & H3).
  rewrite (proj2 (Z.ltb_lt _ _)) by lia. rewrite (proj2 (Z.ltb_ge _ _)) by lia.
  replace (16 + Z.land (Z.shiftr x 4) 15 - 16) with (Z.land (Z.shiftr x 4) 15) by lia.
  change (product c) with (multiply c). rewrite <- multiply_lxor_r; [by rewrite H3|done|word_lia|].
  rewrite Z.shiftl_mul_pow2 by lia. word_lia.
Qed.

Lemma take_drop_split {A} i n (l : list A) :
  drop i l = take n (drop i l) ++ drop (i + n) l.
Proof. by rewrite <- drop_drop, take_drop. Qed.

Lemma simd_loop_spec fuel step index len c acc0 acc src : is_u8 c → bytes_ok src →
  (len ≤ length acc0)%nat → (len ≤ length src)%nat → (index ≤ len)%nat →
  acc = xor_map (multiply c) (take index acc0) (take index src) ++ drop index acc0 →
  let '(acc', index') := simd_loop fuel step index len c acc src in
  (index' ≤ len)%nat ∧
  acc' = xor_map (multiply c) (take index' acc0) (take index' src) ++ drop index' acc0.
Proof.
  intros Hc Hsrc Hacc Hlen. revert index acc.
  induction fuel as [|fuel IH]; intros index acc Hi ->; simpl; [done|].
  case_decide as Hstep; [|done].
  assert (length (xor_map (multiply c) (take index acc0) (take index src)) = index) as Hl.
  { rewrite length_xor_map, length_take. lia. }
  apply IH; [done|]. rewrite drop_app_length' by done. rewrite take_app_length' by done.
  rewrite drop_app, Hl, drop_drop. rewrite (drop_ge (xor_map _ _ _)) by lia.
  replace (index + (index + step - index))%nat with (index + step)%nat by lia. simpl.
  rewrite app_assoc. f_equal.
  rewrite (xor_map_ext (shuffle_lane c) (multiply c));
    [|by auto with norr|by intros; apply shuffle_lane_product].
  rewrite <- xor_map_app by (rewrite !length_take; lia).
  by rewrite <- !take_take_drop.
Qed.

Lemma multiply_add_spec b acc src c : is_u8 c → bytes_ok src →
  multiply_add b acc src c = xor_map (multiply c) acc src.
Proof.
  intros Hc Hsrc. unfold multiply_add.
  destruct (Z.eqb_spec c 0) as [->|]; [by rewrite xor_map_zero|].
  destruct (Z.eqb_spec c 1) as [->|].
  { apply xor_map_ext; [done|]. intros x Hx. by rewrite multiply_1_l. }
  set (len := Nat.min (length acc) (length src)).
  assert (∀ r, r = (acc, 0%nat) ∨ r = simd_loop (S len) (simd_step b) 0 len c acc src →
    take r.2 r.1 ++ xor_map (product c) (drop r.2 r.1) (drop r.2 src) = xor_map (multiply c) acc src) as H.
  { intros r Hr. assert ((r.2 ≤ len)%nat ∧
      r.1 = xor_map (multiply c) (take r.2 acc) (take r.2 src) ++ drop r.2 acc) as [Hi ->].
    { destruct Hr as [->| ->]; [simpl; by rewrite drop_0; split; [lia|]|].
      pose proof (simd_loop_spec (S len) (simd_step b) 0 len c acc acc src) as H.
      destruct (simd_loop _ _ _ _ _ _ _). apply H; (done || unfold len; lia). }
    assert (length (xor_map (multiply c) (take r.2 acc) (take r.2 src)) = r.2) as Hl.
    { rewrite length_xor_map, length_take. unfold len in Hi. lia. }
    rewrite take_app_length', drop_app_length' by done.
    change (product c) with (multiply c). rewrite <- xor_map_app; [by rewrite !take_drop|].
    rewrite !length_take. unfold len in Hi. lia. }
  destruct b; [apply (H (acc, 0%nat)); by left|..];
    match goal with |- context [simd_loop ?a ?b ?c ?d ?e ?f ?g] =>
      specialize (H (simd_loop a b c d e f g) (or_intror eq_refl));
      destruct (simd_loop a b c d e f g); exact H end.
Qed.

(** [multiply] and [inverse] are the operations of a field on the bytes,
    with exclusive or as addition: the tables built by the constructor hold
    GF(2^8), in which every non-zero coefficient can be divided out. *)
Lemma gf256_field_laws a b c : is_u8 a → is_u8 b → is_u8 c →
  is_u8 (multiply a b) ∧
  multiply a b = multiply b a ∧
  multiply a (multiply b c) = multiply (multiply a b) c ∧
  multiply a (Z.lxor b c) = Z.lxor (multiply a b) (multiply a c) ∧
  multiply 1 a = a ∧
  (a ≠ 0 → multiply (inverse a) a = 1) ∧
  (multiply a b = 0 → a = 0 ∨ b = 0).
Proof.
  intros Ha Hb Hc. split_and!;
    auto using multiply_comm, multiply_assoc, multiply_lxor_r, multiply_1_l, multiply_inverse with norr.
  intros H. destruct (decide (a = 0)); [by left|]. destruct (decide (b = 0)); [by right|].
  by destruct (multiply_nonzero a b).
Qed.

(** C33. The AVX2 and NEON kernels compute the same row as the scalar loop:
    whatever the backend, [multiply_add] adds the multiple of the source to
    the accumulator byte by byte, up to the shorter of the two. *)
Theorem multiply_add_backends b acc src c : is_u8 c → bytes_ok src →
  multiply_add b acc src c = multiply_add scalar acc src c ∧
  multiply_add b acc src c = xor_map (multiply c) acc src.
Proof. intros Hc Hs. by rewrite !multiply_add_spec. Qed.

Lemma multiply_add_backends_witness :
  multiply_add avx2 (replicate 40 7) (replicate 37 201) 19 =
  multiply_add scalar (replicate 40 7) (replicate 37 201) 19.
Proof.
  apply multiply_add_backends; [word_lia|]. unfold bytes_ok. apply Forall_replicate. word_lia.
Defined.
