(* ===== verification/Fec.v ===== *)
(** Forward error correction: the adaptive plan and the symbol header of
    [src/fec.cpp] and [include/norr/fec.hpp].

    The arithmetic is in [Gf256], the encoder in [FecEncoder], the decoder in
    [FecDecoder].  Here are the data they share, the header's round trip and
    the bounds of the plan. *)

From Stdlib Require Import SpecFloat.
From S2P Require Import Prelude Packet Double Gf256.

Definition kMaximumFecParity : Z := 16.
Definition kMaximumOutstandingBlocks : Z := 128.
Definition kFecLengthPrefix : Z := 2.
Definition kFecRecoveryDeadline : Z := milliseconds 250.
Definition kFecFlushInterval : Z := milliseconds 5.
Definition kMaximumFecLanes : Z := 4.
Definition kFecTargetBlockFailure : f64 := lit 1 1000.

(** [std::vector::resize(n)] on bytes; new elements are zero. *)
Definition resize (l : list Z) (n : nat) : list Z := take n l ++ replicate (n - length l) 0.

(** ** The plan *)

Inductive FecMode := off | light | moderate | aggressive | automatic.

Definition block_size_for (mode : FecMode) : Z :=
  match mode with light => 16 | moderate => 10 | aggressive => 8 | _ => 0 end.

Definition parity_count_for (mode : FecMode) : Z :=
  match mode with light => 2 | moderate => 3 | aggressive => 4 | _ => 0 end.

Record FecPlan := mkPlan { plan_data : Z; plan_parity : Z; plan_lanes : Z; plan_loss : f64 }.

Definition empty_plan : FecPlan := mkPlan 0 0 1 fzero.

Definition active (p : FecPlan) : bool := (0 <? plan_data p) && (0 <? plan_parity p).

Definition plan_for_mode (mode : FecMode) : FecPlan :=
  mkPlan (block_size_for mode) (parity_count_for mode) 1 fzero.

Section Plan.
(** [std::pow] of the C library. *)
Context (pow : f64 → f64 → f64).

(** The inner loop: the probability of at most [rows] losses among [total]. *)
Fixpoint covered_loop (n : nat) (lost total : Z) (odds term covered : f64) : f64 :=
  match n with
  | O => covered
  | S n =>
      let term := fmul term
        (fmul (fdiv (of_int (total - lost)) (of_int (lost + 1))) odds) in
      covered_loop n (lost + 1) total odds term (fadd covered term)
  end.

Definition rows_suffice (data rows : Z) (p odds : f64) : bool :=
  let total := data + rows in
  let term := pow (fsub (of_int 1) p) (of_int total) in
  let covered := covered_loop (Z.to_nat rows) 0 total odds term term in
  fle (fsub (of_int 1) covered) kFecTargetBlockFailure.

Fixpoint parity_loop (n : nat) (rows data limit : Z) (p odds : f64) : Z :=
  match n with
  | O => limit
  | S n =>
      if rows <? limit then
        if rows_suffice data rows p odds then rows
        else parity_loop n (rows + 1) data limit p odds
      else limit
  end.

Definition parity_needed (data : Z) (loss : f64) (limit : Z) : Z :=
  if (data =? 0) || (limit =? 0) then 0
  else
    let p := fclamp loss fzero (lit 1 2) in
    if fle p fzero then limit
    else
      let odds := fdiv p (fsub (of_int 1) p) in
      parity_loop (Z.to_nat limit) 1 data limit p odds.

Definition plan_for_loss (loss packets_per_second : f64) : FecPlan :=
  let design := fmin (lit 4 10) (fadd (fmul loss (lit 15 10)) (lit 2 1000)) in
  let per_flush := fmul (fmax fzero packets_per_second) (to_seconds kFecFlushInterval) in
  let '(data, lanes) :=
    if fle (of_int 64) per_flush
    then (32, clampZ (trunc_size (fdiv per_flush (of_int 32))) 1 kMaximumFecLanes)
    else (clampZ (trunc_size per_flush) 4 32, 1) in
  let data := if fle (lit 8 100) design then Z.min data 16 else data in
  mkPlan data (parity_needed data design kMaximumFecParity) lanes design.

(** ** The adaptive controller *)

Record FecLossReport := mkReport {
  raw : f64; residual : f64; packets_per_second : f64; congested : bool }.

Definition kEnableLoss : f64 := lit 8 1000.
Definition kDisableLoss : f64 := lit 1 1000.
Definition kReportsBeforeEnable : Z := 3.
Definition kCalmBeforeDisable : Z := 5.
Definition kMinimumRecoveredShare : f64 := lit 3 10.
Definition kIneffectiveBeforeSuppress : Z := 3.
Definition kSuppression : Z := seconds 30.
Definition kMaximumSuppression : Z := seconds 300.

Record AdaptiveFec := mkAdaptive {
  smoothed_ : f64;
  lossy_reports_ : Z;
  calm_reports_ : Z;
  ineffective_reports_ : Z;
  suppressed_until_ : Instant;
  suppression_ : Duration;
}.

Definition new_adaptive : AdaptiveFec := mkAdaptive fzero 0 0 0 0 kSuppression.

Definition distance (left right : Z) : Z := if right <? left then left - right else right - left.

(** The end of [decide]: the controller is enabled, and keeps, drops or
    replaces the plan. *)
Definition decide_enabled (c : AdaptiveFec) (current : FecPlan) (report : FecLossReport)
    : AdaptiveFec * option FecPlan :=
  if flt (smoothed_ c) kDisableLoss then
    let calm := u32 (calm_reports_ c + 1) in
    let c := mkAdaptive (smoothed_ c) (lossy_reports_ c) calm (ineffective_reports_ c)
               (suppressed_until_ c) (suppression_ c) in
    if calm <? kCalmBeforeDisable then (c, None)
    else (mkAdaptive (smoothed_ c) (lossy_reports_ c) 0 (ineffective_reports_ c)
            (suppressed_until_ c) (suppression_ c), Some empty_plan)
  else
    let c := mkAdaptive (smoothed_ c) (lossy_reports_ c) 0 (ineffective_reports_ c)
               (suppressed_until_ c) (suppression_ c) in
    let wanted := plan_for_loss (smoothed_ c) (packets_per_second report) in
    let settled :=
      (plan_lanes wanted =? plan_lanes current) &&
      (distance (plan_parity wanted) (plan_parity current) <? 2) &&
      (distance (plan_data wanted) (plan_data current) * 4 <=? plan_data current) in
    (c, if settled then None else Some wanted).

(** The check that the parity sent is worth it; [None] continues. *)
Definition decide_ineffective (c : AdaptiveFec) (raw : f64) (report : FecLossReport)
    (now : Instant) : AdaptiveFec * bool :=
  if fle (lit 2 1000) raw then
    let recovered_share := fdiv (fsub raw (fclamp (residual report) fzero raw)) raw in
    if flt recovered_share kMinimumRecoveredShare then
      let n := u32 (ineffective_reports_ c + 1) in
      if kIneffectiveBeforeSuppress <=? n then
        (mkAdaptive (smoothed_ c) (lossy_reports_ c) 0 0 (now + suppression_ c)
           (Z.min (suppression_ c * 2) kMaximumSuppression), true)
      else
        (mkAdaptive (smoothed_ c) (lossy_reports_ c) (calm_reports_ c) n
           (suppressed_until_ c) (suppression_ c), false)
    else
      (mkAdaptive (smoothed_ c) (lossy_reports_ c) (calm_reports_ c) 0
         (suppressed_until_ c) kSuppression, false)
  else (c, false).

Definition decide_plan (c : AdaptiveFec) (current : FecPlan) (report : FecLossReport)
    (now : Instant) : AdaptiveFec * option FecPlan :=
  if congested report then
    (mkAdaptive (smoothed_ c) 0 (calm_reports_ c) (ineffective_reports_ c)
       (suppressed_until_ c) (suppression_ c), None)
  else
    let raw := fclamp (raw report) fzero (of_int 1) in
    let smoothed := if fle (smoothed_ c) raw then raw
                    else fadd (fmul (lit 6 10) (smoothed_ c)) (fmul (lit 4 10) raw) in
    let c := mkAdaptive smoothed (lossy_reports_ c) (calm_reports_ c) (ineffective_reports_ c)
               (suppressed_until_ c) (suppression_ c) in
    if now <? suppressed_until_ c then
      (mkAdaptive smoothed 0 (calm_reports_ c) (ineffective_reports_ c)
         (suppressed_until_ c) (suppression_ c),
       if active current then Some empty_plan else None)
    else if negb (active current) then
      if flt smoothed kEnableLoss then
        (mkAdaptive smoothed 0 0 0 (suppressed_until_ c) (suppression_ c), None)
      else
        let n := u32 (lossy_reports_ c + 1) in
        if n <? kReportsBeforeEnable then
          (mkAdaptive smoothed n 0 0 (suppressed_until_ c) (suppression_ c), None)
        else
          (mkAdaptive smoothed 0 0 0 (suppressed_until_ c) (suppression_ c),
           Some (plan_for_loss smoothed (packets_per_second report)))
    else
      let '(c, suppress) := decide_ineffective c raw report now in
      if suppress then (c, Some empty_plan) else decide_enabled c current report.
End Plan.

(** ** The symbol header *)

Record FecSymbolHeader := mkSymbol {
  block_id : Z;
  sym_index : Z;
  block_size : Z;
  parity_count : Z;
  parity : bool;
  original_length : Z;
}.

Definition kFecHeaderSize : Z := 11.

Definition kFecTag : Z := u8 (Z.lor (Z.shiftl kProtocolVersion 4) (frame_val FrameType.fec)).

Definition write_u32 {E} (out : list Z) (o : nat) (value : Z) : res E (list Z) :=
  let* out := wr out o (u8 (Z.land (Z.shiftr value 24) 255)) in
  let* out := wr out (o + 1) (u8 (Z.land (Z.shiftr value 16) 255)) in
  let* out := wr out (o + 2) (u8 (Z.land (Z.shiftr value 8) 255)) in
  wr out (o + 3) (u8 (Z.land value 255)).

Definition read_u32 {E} (bytes : list Z) (o : nat) : res E Z :=
  let* a := rd bytes o in
  let* b := rd bytes (o + 1) in
  let* c := rd bytes (o + 2) in
  let* d := rd bytes (o + 3) in
  Ok (Z.lor (Z.lor (Z.lor (u32 (Z.shiftl a 24)) (u32 (Z.shiftl b 16))) (u32 (Z.shiftl c 8))) d).

Definition looks_like_fec_symbol (bytes : list Z) : bool :=
  match bytes with [] => false | b :: _ => b =? kFecTag end.

(** Returns the buffer and the number of bytes written. *)
Definition serialize_fec_header (h : FecSymbolHeader) (out : list Z) : res unit (list Z * Z) :=
  if blen out <? kFecHeaderSize then Ok (out, 0)
  else
    let* out := wr out 0 kFecTag in
    let* out := write_u32 out 1 (block_id h) in
    let* out := wr out 5 (u8 (sym_index h)) in
    let* out := wr out 6 (u8 (block_size h)) in
    let* out := wr out 7 (u8 (parity_count h)) in
    let* out := wr out 8 (if parity h then 1 else 0) in
    let* out := wr out 9 (u8 (Z.land (Z.shiftr (original_length h) 8) 255)) in
    let* out := wr out 10 (u8 (Z.land (original_length h) 255)) in
    Ok (out, kFecHeaderSize).

(** [Fail tt] is [std::nullopt]. *)
Definition parse_fec_header (bytes : list Z) : res unit FecSymbolHeader :=
  throw tt when blen bytes <? kFecHeaderSize else
  let* b0 := rd bytes 0 in
  throw tt when negb (b0 =? kFecTag) else
  let* flags := rd bytes 8 in
  throw tt when negb (Z.land flags (u32 (Z.lnot 1)) =? 0) else
  let* block_id := read_u32 bytes 1 in
  let* index := rd bytes 5 in
  let* block_size := rd bytes 6 in
  let* parity_count := rd bytes 7 in
  let parity := negb (Z.land flags 1 =? 0) in
  let* hi := rd bytes 9 in
  let* lo := rd bytes 10 in
  let original_length := u16 (Z.lor (u32 (Z.shiftl hi 8)) lo) in
  throw tt when (block_size =? 0) || (kMaximumFecData <? block_size) else
  throw tt when (parity_count =? 0) || (kMaximumFecParity <? parity_count) else
  throw tt when (if parity then parity_count <=? index else block_size <=? index) else
  Ok (mkSymbol block_id index block_size parity_count parity original_length).

(** ** The bounds of a plan *)

Lemma parity_loop_range pow n rows data limit p odds : 1 ≤ rows → 1 ≤ limit →
  1 ≤ parity_loop pow n rows data limit p odds ≤ limit.
Proof.
  revert rows. induction n as [|n IH]; intros rows Hr Hl; simpl; [lia|].
  destruct (Z.ltb_spec rows limit); [|lia]. destruct (rows_suffice _ _ _ _ _); [lia|].
  apply IH; lia.
Qed.

Lemma parity_needed_range pow data loss limit : 1 ≤ data → 1 ≤ limit →
  1 ≤ parity_needed pow data loss limit ≤ limit.
Proof.
  intros Hd Hl. unfold parity_needed.
  destruct (Z.eqb_spec data 0), (Z.eqb_spec limit 0); simpl; try lia.
  destruct (fle _ _); [lia|]. by apply parity_loop_range.
Qed.

(** A plan the encoder can run as it is. *)
Definition plan_in_limits (p : FecPlan) : Prop :=
  1 ≤ plan_data p ≤ kMaximumFecData ∧ 1 ≤ plan_parity p ≤ kMaximumFecParity ∧
  1 ≤ plan_lanes p ≤ kMaximumFecLanes.

Lemma plan_for_loss_in_limits pow loss pps : plan_in_limits (plan_for_loss pow loss pps).
Proof.
  unfold plan_for_loss, plan_in_limits, kMaximumFecData, kMaximumFecLanes.
  set (design := fmin _ _). set (flush := fmul _ _).
  pose proof (clampZ_range (trunc_size (fdiv flush (of_int 32))) 1 4 ltac:(lia)).
  pose proof (clampZ_range (trunc_size flush) 4 32 ltac:(lia)).
  destruct (fle (of_int 64) flush), (fle (lit 8 100) design); cbn [plan_data plan_parity plan_lanes];
    (split; [lia|]; split; [|lia]); apply parity_needed_range; unfold kMaximumFecParity; lia.
Qed.

(** ** The header on the wire *)

Definition fec_header_bytes (h : FecSymbolHeader) : list Z :=
  [kFecTag] ++ be_bytes 4 (block_id h) ++
  [u8 (sym_index h); u8 (block_size h); u8 (parity_count h); if parity h then 1 else 0] ++
  be_bytes 2 (original_length h).

Lemma length_resize l n : length (resize l n) = n.
Proof. unfold resize. rewrite length_app, length_take, length_replicate. lia. Qed.

Lemma land_255 z : u8 (Z.land z 255) = u8 z.
Proof.
  change 255 with (Z.ones 8). rewrite Z.land_ones by lia. unfold u8.
  by rewrite Z.mod_mod by lia.
Qed.

Lemma write_u32_spec {E} b o v : (o + 4 ≤ length b)%nat →
  write_u32 (E:=E) b o v = Ok (take o b ++ be_bytes 4 v ++ drop (o + 4) b).
Proof.
  intros H. unfold write_u32. rewrite !land_255.
  rewrite <- (write_u64_loop_spec 4 b o v) by done. cbn [write_u64_loop].
  replace (o + 1)%nat with (S o) by lia. replace (o + 2)%nat with (S (S o)) by lia.
  replace (o + 3)%nat with (S (S (S o))) by lia. cbn [rbind].
  change (Z.of_nat 3 * 8) with 24. change (Z.of_nat 2 * 8) with 16.
  change (Z.of_nat 1 * 8) with 8. change (Z.of_nat 0 * 8) with 0. rewrite Z.shiftr_0_r.
  repeat (destruct (wr _ _ _); simpl; try done).
Qed.

Lemma read_u32_spec {E} b o x y z w l : drop o b = x :: y :: z :: w :: l →
  is_u8 x → is_u8 y → is_u8 z → is_u8 w →
  read_u32 (E:=E) b o = Ok (be_value [x; y; z; w]).
Proof.
  intros H Hx Hy Hz Hw. destruct (drop_cons_lookup _ _ _ _ H) as [H1 H2].
  destruct (drop_cons_lookup _ _ _ _ H2) as [H3 H4].
  destruct (drop_cons_lookup _ _ _ _ H4) as [H5 H6].
  destruct (drop_cons_lookup _ _ _ _ H6) as [H7 _].
  unfold read_u32. replace (o + 1)%nat with (S o) by lia. replace (o + 2)%nat with (S (S o)) by lia.
  replace (o + 3)%nat with (S (S (S o))) by lia.
  rewrite (rd_ok _ _ _ H1), (rd_ok _ _ _ H3), (rd_ok _ _ _ H5), (rd_ok _ _ _ H7). cbn [rbind]. f_equal.
  rewrite !u32_id by (rewrite Z.shiftl_mul_pow2 by lia; word_lia).
  replace (Z.shiftl x 24) with (Z.shiftl (Z.shiftl x 8) 16) by (rewrite Z.shiftl_shiftl by lia; done).
  rewrite <- (Z.shiftl_lor (Z.shiftl x 8) y 16).
  rewrite (lor_shiftl_add x y 8) by word_lia.
  replace (Z.shiftl (x * 2 ^ 8 + y) 16) with (Z.shiftl (Z.shiftl (x * 2 ^ 8 + y) 8) 8)
    by (rewrite Z.shiftl_shiftl by lia; done).
  rewrite <- Z.shiftl_lor, (lor_shiftl_add (x * 2 ^ 8 + y) z 8) by word_lia.
  rewrite lor_shiftl_add by word_lia. unfold be_value. simpl. lia.
Qed.

Lemma serialize_fec_header_spec h out : kFecHeaderSize ≤ blen out →
  serialize_fec_header h out = Ok (fec_header_bytes h ++ drop 11 out, kFecHeaderSize).
Proof.
  intros Ho. unfold serialize_fec_header. destruct (Z.ltb_spec (blen out) kFecHeaderSize); [lia|].
  unfold kFecHeaderSize in Ho. explode out 11%nat. clear. rewrite !land_255.
  rewrite wr_spec by (simpl; lia). cbn [rbind take drop app].
  rewrite write_u32_spec by (simpl; lia). cbn [rbind take drop app be_bytes Nat.add].
  do 6 (rewrite wr_spec by (simpl; lia); cbn [rbind take drop app]).
  unfold fec_header_bytes. cbn [be_bytes app]. change (Z.of_nat 0 * 8) with 0.
  by rewrite !Z.shiftr_0_r.
Qed.

(** A header whose fields fit and whose index lies inside its block. *)
Definition symbol_ok (h : FecSymbolHeader) : Prop :=
  is_u32 (block_id h) ∧ is_u16 (original_length h) ∧
  1 ≤ block_size h ≤ kMaximumFecData ∧ 1 ≤ parity_count h ≤ kMaximumFecParity ∧
  0 ≤ sym_index h < if parity h then parity_count h else block_size h.

Lemma parse_fec_header_unfold b1 b2 b3 b4 b5 b6 b7 b8 b9 b10 rest :
  let bytes := kFecTag :: b1 :: b2 :: b3 :: b4 :: b5 :: b6 :: b7 :: b8 :: b9 :: b10 :: rest in
  bytes_ok bytes →
  let h := mkSymbol (be_value [b1; b2; b3; b4]) b5 b6 b7 (b8 =? 1) (be_value [b9; b10]) in
  parse_fec_header bytes =
    throw tt when negb ((b8 =? 0) || (b8 =? 1)) else
    throw tt when (block_size h =? 0) || (kMaximumFecData <? block_size h) else
    throw tt when (parity_count h =? 0) || (kMaximumFecParity <? parity_count h) else
    throw tt when (if parity h then parity_count h <=? sym_index h
                   else block_size h <=? sym_index h) else
    Ok h.
Proof.
  intros bytes Hok h. unfold parse_fec_header. unfold guard at 1.
  replace (blen bytes <? kFecHeaderSize) with false; last first.
  { symmetry. apply Z.ltb_ge. unfold bytes, blen, kFecHeaderSize. simpl. lia. }
  rewrite (rd_ok bytes 0 kFecTag) by done. cbn [rbind]. rewrite Z.eqb_refl. cbn [negb].
  unfold guard at 1. unfold bytes_ok, bytes in Hok. repeat (apply Forall_cons_1 in Hok as [? Hok]).
  rewrite (rd_ok bytes 8 b8) by done. cbn [rbind].
  rewrite (read_u32_spec bytes 1 b1 b2 b3 b4 (drop 5 bytes)) by done. cbn [rbind].
  rewrite (rd_ok bytes 5 b5), (rd_ok bytes 6 b6), (rd_ok bytes 7 b7) by done. cbn [rbind].
  rewrite (rd_ok bytes 9 b9), (rd_ok bytes 10 b10) by done. cbn [rbind].
  assert (((Z.land b8 (u32 (Z.lnot 1)) =? 0) = ((b8 =? 0) || (b8 =? 1))) ∧
    (negb (Z.land b8 1 =? 0) = (b8 =? 1) ∨ ((b8 =? 0) || (b8 =? 1)) = false)) as [E1 E2].
  { assert ((eqb (Z.land b8 (u32 (Z.lnot 1)) =? 0) ((b8 =? 0) || (b8 =? 1)) &&
      (eqb (negb (Z.land b8 1 =? 0)) (b8 =? 1) || negb ((b8 =? 0) || (b8 =? 1)))) = true) as E.
    { clear Hok bytes h. match goal with H : is_u8 b8 |- _ => revert H end. revert b8.
      apply byte_check. vm_compute. reflexivity. }
    apply andb_true_iff in E as [E1 E2]. apply eqb_prop in E1. split; [done|].
    apply orb_true_iff in E2 as [E2|E2]; [left; by apply eqb_prop|right; by apply negb_true_iff]. }
  rewrite E1. unfold guard at 1 5. destruct ((b8 =? 0) || (b8 =? 1)); [|done]. cbn [negb].
  destruct E2 as [E2|]; [|done]. rewrite E2.
  replace (u16 _) with (be_value [b9; b10]); [done|].
  rewrite u32_id by (rewrite Z.shiftl_mul_pow2 by lia; word_lia).
  rewrite lor_shiftl_add by word_lia. rewrite be_value_2, u16_id; [done|word_lia].
Qed.

Lemma parse_fec_header_inv bytes h : bytes_ok bytes → parse_fec_header bytes = Ok h →
  symbol_ok h ∧ ∃ rest, bytes = fec_header_bytes h ++ rest.
Proof.
  intros Hok Hp. assert (kFecHeaderSize ≤ blen bytes) as Hlen.
  { unfold parse_fec_header in Hp. unguard Hp. reflect_bools. done. }
  unfold kFecHeaderSize in Hlen. explode bytes 11%nat.
  assert (b = kFecTag) as ->.
  { unfold parse_fec_header in Hp. unguard Hp. cbn [rd lookup list_lookup rbind] in Hp.
    unguard Hp. reflect_bools. done. }
  rewrite parse_fec_header_unfold in Hp by done. unguard Hp. injection Hp as <-.
  unfold bytes_ok in Hok. repeat (apply Forall_cons_1 in Hok as [? Hok]).
  cbn [block_size parity_count parity sym_index] in *. reflect_bools. split.
  - unfold symbol_ok. cbn [block_id original_length block_size parity_count parity sym_index].
    split_and!; try word_lia.
    + apply (be_value_range 4); [solve_bytes|done].
    + apply (be_value_range 2); [solve_bytes|done].
    + destruct (b7 =? 1); reflect_bools; lia.
  - exists rest. unfold fec_header_bytes.
    cbn [block_id original_length block_size parity_count parity sym_index].
    be_unfold [b0; b1; b2; b3]. be_unfold [b8; b9]. rewrite !u8_id by done. simpl. do 8 f_equal.
    apply orb_true_iff in G as [G|G]; reflect_bools; by subst.
Qed.

Lemma parse_fec_header_bytes h rest : symbol_ok h → bytes_ok rest →
  parse_fec_header (fec_header_bytes h ++ rest) = Ok h.
Proof.
  intros (Hb & Ho & Hbs & Hpc & Hi) Hr. unfold fec_header_bytes. cbn [be_bytes app].
  rewrite parse_fec_header_unfold; last first.
  { assert (is_u8 kFecTag) by done. destruct (parity h); solve_bytes; word_lia. }
  unfold kMaximumFecData, kMaximumFecParity in *.
  rewrite (u8_id (sym_index h)), (u8_id (block_size h)), (u8_id (parity_count h))
    by (destruct (parity h); word_lia).
  be_fold 4%nat (block_id h). be_fold 2%nat (original_length h).
  cbn [block_size parity_count parity sym_index]. unfold guard.
  destruct (Z.eqb_spec (block_size h) 0), (Z.ltb_spec 64 (block_size h)); try lia.
  destruct (Z.eqb_spec (parity_count h) 0), (Z.ltb_spec 16 (parity_count h)); try lia.
  destruct h as [bi ix bs pc [] ol]; simpl in *.
  - destruct (Z.leb_spec pc ix); [lia|done].
  - destruct (Z.leb_spec bs ix); [lia|done].
Qed.

(** A received datagram parses as the FEC symbol [h] exactly when it
    starts with the eleven bytes of [h] and [h] is within the code's limits:
    in particular every accepted index addresses an existing symbol slot. *)
Lemma parse_fec_header_iff bytes h : bytes_ok bytes →
  parse_fec_header bytes = Ok h ↔
  symbol_ok h ∧ ∃ rest, bytes = fec_header_bytes h ++ rest.
Proof.
  intros Hok. split; [by apply parse_fec_header_inv|]. intros [Hs [rest ->]].
  apply bytes_ok_app in Hok as [_ Hr]. by apply parse_fec_header_bytes.
Qed.

Lemma decide_enabled_in_limits pow c current report c' plan :
  decide_enabled pow c current report = (c', Some plan) →
  plan = empty_plan ∨ plan_in_limits plan.
Proof.
  unfold decide_enabled. destruct (flt _ _).
  - destruct (_ <? kCalmBeforeDisable); intros H; inversion H. by left.
  - match goal with |- context [if ?b then None else _] => destruct b end; intros H; inversion H.
    right. apply plan_for_loss_in_limits.
Qed.

(** The adaptive controller only asks for plans the encoder can run: no
    plan while the link is congested, and otherwise a plan within the limits
    on data, parity and lanes, or the empty plan. *)
Lemma decide_plan_in_limits pow c current report now c' plan :
  decide_plan pow c current report now = (c', Some plan) →
  congested report = false ∧ (plan = empty_plan ∨ plan_in_limits plan).
Proof.
  unfold decide_plan. destruct (congested report); [done|]. intros H. split; [done|]. revert H.
  generalize (fclamp (raw report) fzero (of_int 1)) as raw1. intros raw1.
  generalize (if fle (smoothed_ c) raw1 then raw1
              else fadd (fmul (lit 6 10) (smoothed_ c)) (fmul (lit 4 10) raw1)) as smoothed.
  intros smoothed. cbn [suppressed_until_ lossy_reports_ calm_reports_ ineffective_reports_ suppression_].
  destruct (now <? _).
  { destruct (active current); intros H; inversion H; auto. }
  destruct (active current); cbn [negb].
  - destruct (decide_ineffective _ _ _ _) as [c2 []]; intros H; [inversion H; auto|].
    by apply decide_enabled_in_limits in H.
  - destruct (flt smoothed kEnableLoss); [by intros H; inversion H|].
    destruct (_ <? kReportsBeforeEnable); intros H; inversion H.
    right. apply plan_for_loss_in_limits.
Qed.

