(* ===== verification/FecEncoder.v ===== *)
(** The erasure encoder: class [FecEncoder] of [src/fec.cpp].

    Packets go round-robin into lanes; a lane accumulates its parity rows as
    packets arrive and emits them when its block is full or flushed.  The
    output vectors are reused between calls, and the model keeps them: the
    theorems show that what is returned never contains bytes of an earlier
    block. *)

From S2P Require Import Prelude Packet Double Gf256 Fec.

Record FecStats := mkStats {
  blocks_encoded : Z; parity_sent : Z; symbols_received : Z;
  recovered : Z; unrecoverable : Z; expired : Z }.

Definition no_stats : FecStats := mkStats 0 0 0 0 0 0.

Record Lane := mkLane {
  lane_block : Z;
  lane_index : nat;
  lane_width : nat;
  lane_parity : list (list Z);
}.

Record FecEncoder := mkEncoder {
  plan_ : FecPlan;
  lanes_ : list Lane;
  cursor_ : nat;
  next_block_ : Z;
  output_ : list (list Z);
  output_count_ : nat;
  stats_ : FecStats;
}.

Definition fresh_lane : Lane := mkLane 0 0 0 [].

#[export] Instance Lane_inhabited : Inhabited Lane := populate fresh_lane.

Definition blank_encoder : FecEncoder :=
  mkEncoder empty_plan (replicate 4 fresh_lane) 0 0 [] 0 no_stats.

(** The bounds [configure] imposes on a plan. *)
Definition normalize_plan (plan : FecPlan) : FecPlan :=
  let plan := mkPlan (Z.min (plan_data plan) kMaximumFecData)
                     (Z.min (plan_parity plan) kMaximumFecParity)
                     (clampZ (plan_lanes plan) 1 kMaximumFecLanes)
                     (plan_loss plan) in
  if active plan then plan else empty_plan.

(** [for (auto& lane : lanes_)]: cleared rows and a fresh block each. *)
Fixpoint configure_lanes (rows : nat) (lanes : list Lane) (next : Z) : list Lane * Z :=
  match lanes with
  | [] => ([], next)
  | lane :: lanes =>
      let '(lanes, next') := configure_lanes rows lanes (u32 (next + 1)) in
      (mkLane next 0 0 (replicate rows []) :: lanes, next')
  end.

Definition configure (e : FecEncoder) (plan : FecPlan) : FecEncoder :=
  let plan := normalize_plan plan in
  let '(lanes, next) :=
    configure_lanes (Z.to_nat (plan_parity plan)) (lanes_ e) (next_block_ e) in
  mkEncoder plan lanes 0 next (output_ e) 0 (stats_ e).

Definition new_encoder (plan : FecPlan) : FecEncoder := configure blank_encoder plan.

Fixpoint resume_lanes (lanes : list Lane) (next : Z) : list Lane * Z :=
  match lanes with
  | [] => ([], next)
  | lane :: lanes =>
      if decide (lane_index lane = 0%nat) then
        let '(lanes, next') := resume_lanes lanes (u32 (next + 1)) in
        (mkLane next (lane_index lane) (lane_width lane) (lane_parity lane) :: lanes, next')
      else
        let '(lanes, next') := resume_lanes lanes next in (lane :: lanes, next')
  end.

Definition resume_at (e : FecEncoder) (block_id : Z) : FecEncoder :=
  let '(lanes, next) := resume_lanes (lanes_ e) block_id in
  mkEncoder (plan_ e) lanes (cursor_ e) next (output_ e) (output_count_ e) (stats_ e).

Definition pending (e : FecEncoder) : nat :=
  sum_list (map lane_index (take (Z.to_nat (plan_lanes (plan_ e))) (lanes_ e))).

Definition next_header (e : FecEncoder) (sealed_length : Z) : FecSymbolHeader :=
  let lane := lanes_ e !!! cursor_ e in
  mkSymbol (lane_block lane) (u8 (Z.of_nat (lane_index lane))) (u8 (plan_data (plan_ e)))
           (u8 (plan_parity (plan_ e))) false (u16 sealed_length).

(** The bytes a data packet contributes: its length, then itself. *)
Definition symbol_of (packet : list Z) : list Z :=
  [u8 (Z.land (Z.shiftr (blen packet) 8) 255); u8 (Z.land (blen packet) 255)] ++ packet.

(** [if (length > lane.width)]: widen every row with zeros. *)
Definition widen (lane : Lane) (len : nat) : Lane :=
  if decide (lane_width lane < len)%nat
  then mkLane (lane_block lane) (lane_index lane) len
         (map (λ row, resize row len) (lane_parity lane))
  else lane.

(** The rows of [lane.parity], one per row of the plan, take the packet in. *)
Definition lane_add (b : Backend) (lane : Lane) (packet : list Z) : Lane :=
  let lane := widen lane (2 + length packet) in
  let symbol := symbol_of packet in
  mkLane (lane_block lane) (S (lane_index lane)) (lane_width lane)
    (imap (λ row acc, multiply_add b acc symbol (cauchy row (lane_index lane)))
          (lane_parity lane)).

(** ** Emitting a block *)

Definition emit_header (plan : FecPlan) (lane : Lane) (row : nat) : FecSymbolHeader :=
  mkSymbol (lane_block lane) (u8 (Z.of_nat row)) (u8 (Z.of_nat (lane_index lane)))
           (u8 (plan_parity plan)) true (u16 (Z.of_nat (lane_width lane))).

Definition emit_symbol (plan : FecPlan) (lane : Lane) (row : nat) (stale : list Z)
    : res unit (list Z) :=
  let symbol := resize stale (11 + lane_width lane) in
  let* written := serialize_fec_header (emit_header plan lane row) symbol in
  match lane_parity lane !! row with
  | None => Ub
  | Some bytes => blit written.1 11 bytes
  end.

(** [for (row = ..; row < rows; ++row)], filling [output_] from [count] on. *)
Fixpoint emit_rows (n row : nat) (plan : FecPlan) (lane : Lane)
    (output : list (list Z)) (count : nat) : res unit (list (list Z) * nat) :=
  match n with
  | O => Ok (output, count)
  | S n =>
      match output !! count with
      | None => Ub
      | Some stale =>
          let* symbol := emit_symbol plan lane row stale in
          emit_rows n (S row) plan lane (<[count := symbol]> output) (S count)
      end
  end.

Definition grow_output (output : list (list Z)) (n : nat) : list (list Z) :=
  output ++ replicate (n - length output) [].

(** [emit] on the lane at [at]: the rows go out and the lane starts over. *)
Definition emit (e : FecEncoder) (at_ : nat) (rows : nat) : res unit FecEncoder :=
  let lane := lanes_ e !!! at_ in
  let output := grow_output (output_ e) (output_count_ e + rows) in
  let* out := emit_rows rows 0 (plan_ e) lane output (output_count_ e) in
  let lane := mkLane (next_block_ e) 0 0 (map (λ _, []) (lane_parity lane)) in
  let s := stats_ e in
  Ok (mkEncoder (plan_ e) (<[at_ := lane]> (lanes_ e)) (cursor_ e) (u32 (next_block_ e + 1))
        out.1 out.2
        (mkStats (u64 (blocks_encoded s + 1)) (u64 (parity_sent s + Z.of_nat rows))
           (symbols_received s) (recovered s) (unrecoverable s) (expired s))).

(** [std::span{output_}.first(output_count_)] *)
Definition emitted (e : FecEncoder) : list (list Z) := take (output_count_ e) (output_ e).

Definition with_output_count (e : FecEncoder) (n : nat) : FecEncoder :=
  mkEncoder (plan_ e) (lanes_ e) (cursor_ e) (next_block_ e) (output_ e) n (stats_ e).

Definition add (b : Backend) (e : FecEncoder) (packet : list Z) : res unit FecEncoder :=
  let e := with_output_count e 0 in
  if negb (active (plan_ e)) || (65535 <? blen packet) then Ok e
  else
    let at_ := cursor_ e in
    let lane := lane_add b (lanes_ e !!! at_) packet in
    let cursor := ((at_ + 1) mod Z.to_nat (plan_lanes (plan_ e)))%nat in
    let e := mkEncoder (plan_ e) (<[at_ := lane]> (lanes_ e)) cursor (next_block_ e)
               (output_ e) 0 (stats_ e) in
    if plan_data (plan_ e) <=? Z.of_nat (lane_index lane)
    then emit e at_ (Z.to_nat (plan_parity (plan_ e)))
    else Ok e.

Section Flush.
Context (pow : f64 → f64 → f64).

Definition flush_rows (plan : FecPlan) (lane : Lane) : Z :=
  if flt fzero (plan_loss plan)
  then parity_needed pow (Z.of_nat (lane_index lane)) (plan_loss plan) (plan_parity plan)
  else plan_parity plan.

Fixpoint flush_lanes (n index : nat) (e : FecEncoder) : res unit FecEncoder :=
  match n with
  | O => Ok e
  | S n =>
      let lane := lanes_ e !!! index in
      if decide (lane_index lane = 0%nat) then flush_lanes n (S index) e
      else
        let* e := emit e index (Z.to_nat (flush_rows (plan_ e) lane)) in
        flush_lanes n (S index) e
  end.

Definition flush (e : FecEncoder) : res unit FecEncoder :=
  let e := with_output_count e 0 in
  if negb (active (plan_ e)) then Ok e
  else
    let* e := flush_lanes (Z.to_nat (plan_lanes (plan_ e))) 0 e in
    Ok (mkEncoder (plan_ e) (lanes_ e) 0 (next_block_ e) (output_ e) (output_count_ e) (stats_ e)).
End Flush.

(** ** What a lane holds: the parity of the packets it took in *)

(** Byte [i] of parity row [row] over a list of packets, the first of them in
    data column [col]. *)
Fixpoint parity_byte (row col : nat) (packets : list (list Z)) (i : nat) : Z :=
  match packets with
  | [] => 0
  | p :: packets =>
      Z.lxor (multiply (cauchy row col) (default 0 (symbol_of p !! i)))
             (parity_byte row (S col) packets i)
  end.

Definition width_of (packets : list (list Z)) : nat :=
  foldr (λ p w, Nat.max (2 + length p) w) 0%nat packets.

Definition parity_row (packets : list (list Z)) (row : nat) : list Z :=
  map (parity_byte row 0 packets) (seq 0 (width_of packets)).

(** The lane's invariant. *)
Record lane_holds (rows : nat) (lane : Lane) (packets : list (list Z)) : Prop := {
  lh_index : lane_index lane = length packets;
  lh_width : lane_width lane = width_of packets;
  lh_parity : lane_parity lane = map (parity_row packets) (seq 0 rows);
}.

Lemma symbol_bytes p : bytes_ok p → bytes_ok (symbol_of p).
Proof. intros Hp. unfold symbol_of. simpl. solve_bytes. Qed.
#[export] Hint Resolve symbol_bytes : norr.

Lemma length_symbol p : length (symbol_of p) = (2 + length p)%nat.
Proof. done. Qed.

Lemma cauchy_byte row col : is_u8 (cauchy row col).
Proof. unfold cauchy. auto with norr. Qed.
#[export] Hint Resolve cauchy_byte : norr.

Lemma parity_byte_snoc row col ps p i :
  parity_byte row col (ps ++ [p]) i =
  Z.lxor (parity_byte row col ps i)
         (multiply (cauchy row (col + length ps)) (default 0 (symbol_of p !! i))).
Proof.
  revert col. induction ps as [|q ps IH]; intros col; simpl.
  - by rewrite Z.lxor_0_r, Z.lxor_0_l, Nat.add_0_r.
  - rewrite IH, Z.lxor_assoc. by rewrite <- plus_n_Sm.
Qed.

Lemma parity_byte_beyond row col ps i : (width_of ps ≤ i)%nat → parity_byte row col ps i = 0.
Proof.
  revert col. induction ps as [|q ps IH]; intros col Hi; simpl; [done|].
  simpl in Hi. rewrite IH by lia. rewrite (lookup_ge_None_2 (symbol_of q)).
  - simpl. by rewrite multiply_0_r.
  - rewrite length_symbol. lia.
Qed.

Lemma width_of_snoc ps p : width_of (ps ++ [p]) = Nat.max (width_of ps) (2 + length p).
Proof. induction ps as [|q ps IH]; [done|]. simpl in *. rewrite IH. lia. Qed.

Lemma resize_parity_row ps row n : (width_of ps ≤ n)%nat →
  resize (parity_row ps row) n = map (parity_byte row 0 ps) (seq 0 n).
Proof.
  intros Hn. unfold resize, parity_row. rewrite length_map, length_seq.
  rewrite take_ge by (rewrite length_map, length_seq; lia).
  replace n with (width_of ps + (n - width_of ps))%nat at 2 by lia.
  rewrite seq_app, map_app. f_equal. simpl.
  generalize (n - width_of ps)%nat. intros m.
  assert (∀ s, (width_of ps ≤ s)%nat → replicate m 0 = map (parity_byte row 0 ps) (seq s m)) as H.
  { induction m as [|m IH]; intros s Hs; [done|]. simpl. rewrite parity_byte_beyond by done.
    f_equal. apply IH. lia. }
  by apply H.
Qed.

Lemma xor_map_seq f g s a n : f 0 = 0 →
  xor_map f (map g (seq a n)) s =
  map (λ i, Z.lxor (g i) (f (default 0 (s !! (i - a)%nat)))) (seq a n).
Proof.
  intros Hf. revert a s. induction n as [|n IH]; intros a s; [done|]. simpl.
  destruct s as [|x s]; simpl.
  - rewrite Hf, Z.lxor_0_r. f_equal.
    transitivity (xor_map f (map g (seq (S a) n)) []); [by rewrite xor_map_nil_r|].
    rewrite (IH (S a) []). apply map_ext. intros i. simpl. by rewrite Hf.
  - rewrite Nat.sub_diag. simpl. f_equal. rewrite IH. apply map_ext_in. intros i Hi.
    apply list_elem_of_In, elem_of_seq in Hi. by replace (i - a)%nat with (S (i - S a)) by lia.
Qed.

Lemma widen_rows rows lane ps n : lane_holds rows lane ps →
  let W := Nat.max (width_of ps) n in
  widen lane n = mkLane (lane_block lane) (length ps) W
    (map (λ row, map (parity_byte row 0 ps) (seq 0 W)) (seq 0 rows)).
Proof.
  intros [Hi Hw Hp]. unfold widen. rewrite Hw. case_decide.
  - rewrite Hi, Hp, map_map. replace (Nat.max (width_of ps) n) with n by lia. f_equal.
    apply map_ext. intros row. apply resize_parity_row. lia.
  - replace (Nat.max (width_of ps) n) with (width_of ps) by lia.
    destruct lane; simpl in *. by subst.
Qed.

Lemma imap_seq {A} (f : nat → A → A) (g : nat → A) n :
  imap f (map g (seq 0 n)) = map (λ i, f i (g i)) (seq 0 n).
Proof.
  assert (∀ a, imap (λ i, f (a + i)%nat) (map g (seq a n)) = map (λ i, f i (g i)) (seq a n)) as H;
    [|apply (H 0%nat)].
  induction n as [|n IH]; intros a; [done|]. simpl. rewrite Nat.add_0_r. f_equal.
  rewrite <- IH. apply imap_ext. intros i x _. simpl. f_equal. lia.
Qed.

(** Taking a packet in keeps the invariant. *)
Lemma lane_add_holds b rows lane ps p : lane_holds rows lane ps → bytes_ok p →
  lane_holds rows (lane_add b lane p) (ps ++ [p]) ∧
  lane_block (lane_add b lane p) = lane_block lane.
Proof.
  intros Hl Hp. unfold lane_add. rewrite (widen_rows rows lane ps) by done. simpl.
  split; [|done]. split; simpl.
  - rewrite length_app. simpl. lia.
  - by rewrite width_of_snoc.
  - rewrite imap_seq. apply map_ext. intros row.
    rewrite multiply_add_spec by auto with norr. rewrite xor_map_seq by apply multiply_0_r.
    unfold parity_row. rewrite width_of_snoc. apply map_ext. intros i.
    by rewrite Nat.sub_0_r, parity_byte_snoc.
Qed.

Lemma parity_row_bytes ps row : Forall bytes_ok ps → bytes_ok (parity_row ps row).
Proof.
  intros Hp. unfold parity_row, bytes_ok. apply Forall_fmap, Forall_true. intros i. simpl.
  generalize 0%nat. induction Hp as [|p ps Hp Hps IH]; intros col; [done|]. simpl.
  apply lxor_byte; [|apply IH]. apply multiply_byte; [apply cauchy_byte|].
  destruct (symbol_of p !! i) as [x|] eqn:E; [|done]. simpl.
  by eapply (Forall_lookup_1 _ _ _ _ (symbol_bytes p Hp)).
Qed.

Lemma length_parity_row ps row : length (parity_row ps row) = width_of ps.
Proof. unfold parity_row. by rewrite length_map, length_seq. Qed.
