(* ===== verification/FecDecoder.v ===== *)
(** The erasure decoder: class [FecDecoder] of [src/fec.cpp].

    A block collects data and parity symbols; an empty vector is a symbol
    that has not arrived.  When enough parity has, [try_recover] solves for
    the missing data by Gauss-Jordan elimination over GF(2^8).  The recycled
    buffers of [spare_] are cleared before reuse and carry no data, so the
    model starts each slot from the empty vector. *)

From S2P Require Import Prelude Packet Gf256 Fec FecEncoder.

Record Block := mkBlock {
  b_id : Z;
  data_count : nat;
  b_parity_count : nat;
  data_received : nat;
  b_data : list (list Z);
  b_parity : list (list Z);
  created : Instant;
}.

Record FecDecoder := mkDecoder {
  blocks_ : list Block;
  finished_ : list Z;
  d_stats : FecStats;
}.

Definition new_decoder : FecDecoder := mkDecoder [] [] no_stats.

Definition is_empty (v : list Z) : bool := match v with [] => true | _ => false end.

(** [v[i]] and [v[i] = x] on a vector or an array of rows; outside it the
    behaviour is undefined. *)
Definition cell {A} (v : list A) (i : nat) : res unit A :=
  match v !! i with Some x => Ok x | None => Ub end.
Definition set_cell {A} (v : list A) (i : nat) (x : A) : res unit (list A) :=
  if decide (i < length v)%nat then Ok (<[i := x]> v) else Ub.

(** [std::swap(v[i], v[j])] *)
Definition swap_cells {A} (v : list A) (i j : nat) : res unit (list A) :=
  let* x := cell v i in
  let* y := cell v j in
  let* v := set_cell v i y in
  set_cell v j x.

(** ** Gauss-Jordan elimination *)

(** [while (pivot < count && matrix[pivot][column] == 0) ++pivot], in at most
    [fuel] turns. *)
Fixpoint find_pivot (fuel pivot count column : nat) (matrix : list (list Z)) : res unit nat :=
  match fuel with
  | O => Ok pivot
  | S fuel =>
      if decide (pivot < count)%nat then
        let* row := cell matrix pivot in
        let* value := rd row column in
        if value =? 0 then find_pivot fuel (S pivot) count column matrix else Ok pivot
      else Ok pivot
  end.

(** [for (c = 0; c < count; ++c) matrix[r][c] ^= multiply(coefficient, matrix[column][c])]
    on the two rows, with [n] turns left. *)
Fixpoint eliminate_cells (n c : nat) (coefficient : Z) (pivot_row row : list Z) : res unit (list Z) :=
  match n with
  | O => Ok row
  | S n =>
      let* value := rd row c in
      let* pivot := rd pivot_row c in
      let* row := wr row c (Z.lxor value (multiply coefficient pivot)) in
      eliminate_cells n (S c) coefficient pivot_row row
  end.

(** [for (r = 0; r < count; ++r)] of a column, with [n] turns left. *)
Fixpoint eliminate_rows (n r : nat) (b : Backend) (count column : nat) (matrix syndrome : list (list Z))
    : res unit (list (list Z) * list (list Z)) :=
  match n with
  | O => Ok (matrix, syndrome)
  | S n =>
      if decide (r = column) then eliminate_rows n (S r) b count column matrix syndrome
      else
        let* row := cell matrix r in
        let* coefficient := rd row column in
        if coefficient =? 0 then eliminate_rows n (S r) b count column matrix syndrome
        else
          let* pivot_row := cell matrix column in
          let* row := eliminate_cells count 0 coefficient pivot_row row in
          let* matrix := set_cell matrix r row in
          let* target := cell syndrome r in
          let* source := cell syndrome column in
          let* syndrome := set_cell syndrome r (multiply_add b target source coefficient) in
          eliminate_rows n (S r) b count column matrix syndrome
  end.

(** One turn of [for (column = 0; column < count; ++column)]; [None] is the
    return on a column with no pivot. *)
Definition gj_step (b : Backend) (count column : nat) (matrix syndrome : list (list Z))
    : res unit (option (list (list Z) * list (list Z))) :=
  let* pivot := find_pivot (S count) column count column matrix in
  if decide (pivot = count) then Ok None
  else
    let* matrix := swap_cells matrix pivot column in
    let* syndrome := swap_cells syndrome pivot column in
    let* row := cell matrix column in
    let* value := rd row column in
    let factor := inverse value in
    let* matrix := set_cell matrix column (map (λ v, multiply v factor) row) in
    let* known := cell syndrome column in
    let* syndrome := set_cell syndrome column (scale known factor) in
    let* both := eliminate_rows count 0 b count column matrix syndrome in
    Ok (Some both).

Fixpoint gj_columns (n : nat) (b : Backend) (count column : nat) (matrix syndrome : list (list Z))
    : res unit (option (list (list Z) * list (list Z))) :=
  match n with
  | O => Ok (Some (matrix, syndrome))
  | S n =>
      let* next := gj_step b count column matrix syndrome in
      match next with
      | None => Ok None
      | Some (matrix, syndrome) => gj_columns n b count (S column) matrix syndrome
      end
  end.

(** ** Recovering a block *)

(** The loops that fill [missing], the indices of empty slots, and [rows],
    those of slots that are not: [n] slots left from [index] on. *)
Fixpoint slots_where (empty : bool) (n index : nat) (slots : list (list Z)) (found : list nat) : res unit (list nat) :=
  match n with
  | O => Ok found
  | S n =>
      let* slot := cell slots index in
      slots_where empty n (S index) slots (if eqb (is_empty slot) empty then found ++ [index] else found)
  end.

(** [for (row : rows) if (block.parity[row].size() != width) return {}] *)
Fixpoint rows_agree (rows : list nat) (parity : list (list Z)) (width : nat) : res unit bool :=
  match rows with
  | [] => Ok true
  | row :: rows =>
      let* symbol := cell parity row in
      if negb (Nat.eqb (length symbol) width) then Ok false else rows_agree rows parity width
  end.

(** [syndrome[r]]: the parity row less the data that did arrive; [n] data
    slots left from [index] on. *)
Fixpoint syndrome_loop (n : nat) (b : Backend) (row index : nat) (data : list (list Z))
    (acc : list Z) : res unit (list Z) :=
  match n with
  | O => Ok acc
  | S n =>
      let* d := cell data index in
      let acc := if is_empty d then acc else multiply_add b acc d (cauchy row index) in
      syndrome_loop n b row (S index) data acc
  end.

(** [for (c = 0; c < count; ++c) matrix[r][c] = cauchy(rows[r], missing[c])] *)
Fixpoint matrix_loop (n c row : nat) (missing : list nat) (line : list Z) : res unit (list Z) :=
  match n with
  | O => Ok line
  | S n =>
      let* index := cell missing c in
      let* line := wr line c (cauchy row index) in
      matrix_loop n (S c) row missing line
  end.

(** [for (r = 0; r < count; ++r)] that sets up the equations, [n] turns left. *)
Fixpoint equations_loop (n r : nat) (b : Backend) (count : nat) (blk : Block) (rows missing : list nat)
    (matrix syndrome : list (list Z)) : res unit (list (list Z) * list (list Z)) :=
  match n with
  | O => Ok (matrix, syndrome)
  | S n =>
      let* row := cell rows r in
      let* symbol := cell (b_parity blk) row in
      let* symbol := syndrome_loop (data_count blk) b row 0 (b_data blk) symbol in
      let* syndrome := set_cell syndrome r symbol in
      let* line := cell matrix r in
      let* line := matrix_loop count 0 row missing line in
      let* matrix := set_cell matrix r line in
      equations_loop n (S r) b count blk rows missing matrix syndrome
  end.

(** [try_recover] up to the loop over the solved symbols: [None] when the
    block has to wait or cannot be solved.  The matrix is the array of 16
    rows of 16 zeros. *)
Definition solve_block (b : Backend) (blk : Block) : res unit (option (list (list Z))) :=
  let* missing := slots_where true (data_count blk) 0 (b_data blk) [] in
  let* rows := slots_where false (b_parity_count blk) 0 (b_parity blk) [] in
  let count := length missing in
  if decide (missing = [] ∨ (length rows < count)%nat) then Ok None
  else
    let rows := take count rows in
    let* front := cell rows 0 in
    let* first := cell (b_parity blk) front in
    let width := length first in
    let* agree := rows_agree rows (b_parity blk) width in
    if negb agree then Ok None
    else if existsb (λ symbol, Nat.ltb width (length symbol)) (b_data blk) then Ok None
    else if kMaximumFecParity <? Z.of_nat count then Ok None
    else
      let side := Z.to_nat kMaximumFecParity in
      let* equations := equations_loop count 0 b count blk rows missing
                          (replicate side (replicate side 0)) (replicate count []) in
      let '(matrix, syndrome) := equations in
      let* solved := gj_columns count b count 0 matrix syndrome in
      Ok (snd <$> solved).

(** What becomes of a recovered symbol: its packet, or a length field that is
    0 or runs past the symbol, or no length field at all. *)
Inductive extracted := packet (bytes : list Z) | bad_length | too_short.

Definition extract (symbol : list Z) : res unit extracted :=
  if blen symbol <? kFecLengthPrefix then Ok too_short
  else
    let* hi := rd symbol 0 in
    let* lo := rd symbol 1 in
    let length := Z.lor (Z.shiftl hi 8) lo in
    if (length =? 0) || (blen symbol <? kFecLengthPrefix + length) then Ok bad_length
    else
      let* bytes := subspan symbol (Z.to_nat kFecLengthPrefix) (Z.to_nat length) in
      Ok (packet bytes).

(** The loop over the solved symbols: the packets, and how many symbols had a
    bad length field. *)
Fixpoint extract_all (symbols : list (list Z)) (out : list (list Z)) (bad : nat) : res unit (list (list Z) * nat) :=
  match symbols with
  | [] => Ok (out, bad)
  | symbol :: symbols =>
      let* e := extract symbol in
      match e with
      | packet bytes => extract_all symbols (out ++ [bytes]) bad
      | bad_length => extract_all symbols out (S bad)
      | too_short => extract_all symbols out bad
      end
  end.

(** ** The decoder's operations *)

Definition recently_finished (d : FecDecoder) (id : Z) : bool := bool_decide (id ∈ finished_ d).

(** [while (finished_.size() > kMaximumOutstandingBlocks * 2) finished_.pop_front()] *)
Definition trim_finished (l : list Z) : list Z :=
  drop (length l - Z.to_nat (kMaximumOutstandingBlocks * 2)) l.

Definition finish (d : FecDecoder) (id : Z) : FecDecoder :=
  mkDecoder (filter (λ blk, b_id blk ≠ id) (blocks_ d))
            (trim_finished (finished_ d ++ [id])) (d_stats d).

Definition count_stats (s : FecStats) (sym rec unr exp : Z) : FecStats :=
  mkStats (blocks_encoded s) (parity_sent s) (u64 (symbols_received s + sym))
          (u64 (recovered s + rec)) (u64 (unrecoverable s + unr)) (u64 (expired s + exp)).

Fixpoint find_block (id : Z) (blocks : list Block) (i : nat) : option nat :=
  match blocks with
  | [] => None
  | blk :: blocks => if b_id blk =? id then Some i else find_block id blocks (S i)
  end.

Definition new_block (h : FecSymbolHeader) (now : Instant) : Block :=
  mkBlock (block_id h) (Z.to_nat (block_size h)) (Z.to_nat (parity_count h)) 0
          (replicate (Z.to_nat (block_size h)) []) (replicate (Z.to_nat (parity_count h)) []) now.

(** The returned pointer is the index of the block. *)
Definition find_or_create (d : FecDecoder) (h : FecSymbolHeader) (now : Instant)
    : FecDecoder * nat :=
  match find_block (block_id h) (blocks_ d) 0 with
  | Some i => (d, i)
  | None =>
      let full := kMaximumOutstandingBlocks <=? Z.of_nat (length (blocks_ d)) in
      let blocks := if full then tail (blocks_ d) else blocks_ d in
      let stats := if full then count_stats (d_stats d) 0 0 1 0 else d_stats d in
      (mkDecoder (blocks ++ [new_block h now]) (finished_ d) stats, length blocks)
  end.

(** The slots of [data] from [index] on, [n] of them, that are not empty. *)
Fixpoint count_lost (n index : nat) (data : list (list Z)) (lost : nat) : res unit nat :=
  match n with
  | O => Ok lost
  | S n =>
      let* slot := cell data index in
      count_lost n (S index) data (if is_empty slot then lost else S lost)
  end.

(** A parity symbol of a flushed block announces fewer data symbols. *)
Definition shrink (blk : Block) (n : nat) : res unit Block :=
  if decide (n < data_count blk)%nat then
    let* lost := count_lost (data_count blk - n) n (b_data blk) 0 in
    Ok (mkBlock (b_id blk) n (b_parity_count blk) (data_received blk - lost)
          (take n (b_data blk)) (b_parity blk) (created blk))
  else Ok blk.

(** Storing a symbol; [None] when [receive] returns without looking further. *)
Definition store (blk : Block) (h : FecSymbolHeader) (payload : list Z) : res unit (Block * bool) :=
  let i := Z.to_nat (sym_index h) in
  if parity h then
    let* blk := shrink blk (Z.to_nat (block_size h)) in
    match b_parity blk !! i with
    | None => Ub
    | Some slot =>
        if is_empty slot then
          Ok (mkBlock (b_id blk) (data_count blk) (b_parity_count blk) (data_received blk)
                (b_data blk) (<[i := payload]> (b_parity blk)) (created blk), true)
        else Ok (blk, false)
    end
  else if decide (data_count blk ≤ i)%nat then Ok (blk, false)
  else
    match b_data blk !! i with
    | None => Ub
    | Some slot =>
        if is_empty slot then
          Ok (mkBlock (b_id blk) (data_count blk) (b_parity_count blk) (S (data_received blk))
                (<[i := symbol_of payload]> (b_data blk)) (b_parity blk) (created blk), true)
        else Ok (blk, false)
    end.

Definition with_blocks (d : FecDecoder) (blocks : list Block) : FecDecoder :=
  mkDecoder blocks (finished_ d) (d_stats d).

(** [try_recover] with the state it changes. *)
Definition try_recover (b : Backend) (d : FecDecoder) (blk : Block) : res unit (FecDecoder * list (list Z)) :=
  let* solved := solve_block b blk in
  match solved with
  | None => Ok (d, [])
  | Some syndrome =>
      let* result := extract_all syndrome [] 0 in
      let '(packets, bad) := result in
      let d := mkDecoder (blocks_ d) (finished_ d)
                 (count_stats (d_stats d) 0 (Z.of_nat (length packets)) (Z.of_nat bad) 0) in
      Ok (finish d (b_id blk), packets)
  end.

Definition receive (b : Backend) (d : FecDecoder) (h : FecSymbolHeader) (payload : list Z)
    (now : Instant) : res unit (FecDecoder * list (list Z)) :=
  let d := mkDecoder (blocks_ d) (finished_ d) (count_stats (d_stats d) 1 0 0 0) in
  if recently_finished d (block_id h) then Ok (d, [])
  else
    let '(d, at_) := find_or_create d h now in
    match blocks_ d !! at_ with
    | None => Ub
    | Some blk =>
        if negb (Z.of_nat (b_parity_count blk) =? parity_count h) then Ok (d, [])
        else
          let* stored := store blk h payload in
          let '(blk, go_on) := stored in
          let d := with_blocks d (<[at_ := blk]> (blocks_ d)) in
          if negb go_on then Ok (d, [])
          else if decide (data_received blk = data_count blk) then Ok (finish d (b_id blk), [])
          else try_recover b d blk
    end.

(** The loop of [expire]. *)
Fixpoint expire_loop (blocks : list Block) (finished : list Z) (now : Instant) (removed : nat)
    : list Block * list Z * nat :=
  match blocks with
  | blk :: rest =>
      if kFecRecoveryDeadline <=? now - created blk
      then expire_loop rest (finished ++ [b_id blk]) now (S removed)
      else (blocks, finished, removed)
  | [] => ([], finished, removed)
  end.

Definition expire (d : FecDecoder) (now : Instant) : FecDecoder * nat :=
  let '(blocks, finished, removed) := expire_loop (blocks_ d) (finished_ d) now 0 in
  (mkDecoder blocks (trim_finished finished)
     (count_stats (d_stats d) 0 0 0 (Z.of_nat removed)), removed).
