(* ===== verification/FecReference.v ===== *)
(** The recovery of [FecDecoder] as functions on lists.

    [try_recover] of [src/fec.cpp] indexes vectors and a 16 by 16 array, and
    its model in FecDecoder makes every index outside them undefined.  Here
    the same computation is written with total functions on lists, which the
    algebra of FecRecovery is about, and the two are shown to agree: on a
    block whose vectors have the lengths its counts announce every index is
    in range and the result is that of the total functions, and on any other
    block the first loops would leave the vectors. *)

From S2P Require Import Prelude Packet Gf256 Fec FecEncoder FecDecoder.

(** ** The reference functions *)

(** The first row from [pivot] on with an entry in the column. *)
Fixpoint pivot_of (fuel pivot count column : nat) (matrix : list (list Z)) : nat :=
  match fuel with
  | O => pivot
  | S fuel =>
      if decide (pivot < count)%nat then
        if matrix !!! pivot !!! column =? 0 then pivot_of fuel (S pivot) count column matrix
        else pivot
      else pivot
  end.

Definition swap (i j : nat) (rows : list (list Z)) : list (list Z) :=
  <[i := rows !!! j]> (<[j := rows !!! i]> rows).

Definition eliminate_row (count : nat) (coefficient : Z) (pivot_row row : list Z) : list Z :=
  imap (λ c v, if decide (c < count)%nat
               then Z.lxor v (multiply coefficient (pivot_row !!! c)) else v) row.

(** One column of the elimination; [None] without a pivot. *)
Definition reduce_column (b : Backend) (count column : nat) (matrix syndrome : list (list Z))
    : option (list (list Z) * list (list Z)) :=
  let pivot := pivot_of (S count) column count column matrix in
  if decide (pivot = count) then None
  else
    let matrix := swap pivot column matrix in
    let syndrome := swap pivot column syndrome in
    let factor := inverse (matrix !!! column !!! column) in
    let matrix := <[column := map (λ v, multiply v factor) (matrix !!! column)]> matrix in
    let syndrome := <[column := scale (syndrome !!! column) factor]> syndrome in
    let skip r := bool_decide (r = column) || (matrix !!! r !!! column =? 0) in
    Some
      (imap (λ r row, if skip r then row
                      else eliminate_row count (matrix !!! r !!! column) (matrix !!! column) row) matrix,
       imap (λ r row, if skip r then row
                      else multiply_add b row (syndrome !!! column) (matrix !!! r !!! column)) syndrome).

Fixpoint reduce_columns (n : nat) (b : Backend) (count column : nat) (matrix syndrome : list (list Z))
    : option (list (list Z) * list (list Z)) :=
  match n with
  | O => Some (matrix, syndrome)
  | S n =>
      '(matrix, syndrome) ← reduce_column b count column matrix syndrome;
      reduce_columns n b count (S column) matrix syndrome
  end.

(** The indices of the slots that are, or are not, empty. *)
Definition indices_where (f : list Z → bool) (slots : list (list Z)) : list nat :=
  filter (λ i, f (slots !!! i) = true) (seq 0 (length slots)).

Definition missing_of (blk : Block) : list nat :=
  indices_where is_empty (take (data_count blk) (b_data blk)).
Definition rows_of (blk : Block) : list nat :=
  indices_where (λ v, negb (is_empty v)) (take (b_parity_count blk) (b_parity blk)).

(** A parity row less the data that did arrive. *)
Fixpoint subtract_known (n : nat) (b : Backend) (row index : nat) (data : list (list Z))
    (acc : list Z) : list Z :=
  match n with
  | O => acc
  | S n =>
      let d := data !!! index in
      let acc := if is_empty d then acc else multiply_add b acc d (cauchy row index) in
      subtract_known n b row (S index) data acc
  end.

Definition initial_syndrome (b : Backend) (blk : Block) (rows : list nat) : list (list Z) :=
  map (λ row, subtract_known (data_count blk) b row 0 (b_data blk) (b_parity blk !!! row)) rows.

(** A row of the 16-wide matrix: Cauchy coefficients, then zeros. *)
Definition initial_matrix (rows missing : list nat) : list (list Z) :=
  map (λ row, map (cauchy row) missing ++
              replicate (Z.to_nat kMaximumFecParity - length missing) 0) rows.

(** The packet inside a recovered symbol. *)
Definition inner_packet (symbol : list Z) : extracted :=
  match symbol with
  | hi :: lo :: rest =>
      let length := Z.lor (Z.shiftl hi 8) lo in
      if (length =? 0) || (blen symbol <? kFecLengthPrefix + length) then bad_length
      else packet (take (Z.to_nat length) rest)
  | _ => too_short
  end.

Definition packets_of (symbols : list (list Z)) : list (list Z) :=
  omap (λ s, match inner_packet s with packet p => Some p | _ => None end) symbols.

Definition bad_lengths (symbols : list (list Z)) : nat :=
  length (filter (λ s, match inner_packet s with bad_length => true | _ => false end = true) symbols).

(** The solved symbols, if the block can be solved. *)
Definition solution (b : Backend) (blk : Block) : option (list (list Z)) :=
  let missing := missing_of blk in
  let rows := rows_of blk in
  let count := length missing in
  if decide (missing = [] ∨ (length rows < count)%nat) then None
  else
    let rows := take count rows in
    let width := length (b_parity blk !!! (rows !!! 0%nat)) in
    if forallb (λ row, Nat.eqb (length (b_parity blk !!! row)) width) rows &&
       forallb (λ symbol, Nat.leb (length symbol) width) (b_data blk) &&
       (Z.of_nat count <=? kMaximumFecParity)
    then
      '(_, syndrome) ← reduce_columns count b count 0 (initial_matrix rows missing)
                         (initial_syndrome b blk rows);
      Some syndrome
    else None.

Definition shrunk (blk : Block) (n : nat) : Block :=
  if decide (n < data_count blk)%nat then
    let lost := length (filter (λ v, is_empty v = false) (drop n (take (data_count blk) (b_data blk)))) in
    mkBlock (b_id blk) n (b_parity_count blk) (data_received blk - lost)
            (take n (b_data blk)) (b_parity blk) (created blk)
  else blk.

(** The decoder and the packets after recovery. *)
Definition recovery (b : Backend) (d : FecDecoder) (blk : Block) : FecDecoder * list (list Z) :=
  match solution b blk with
  | None => (d, [])
  | Some syndrome =>
      let packets := packets_of syndrome in
      let d := mkDecoder (blocks_ d) (finished_ d)
                 (count_stats (d_stats d) 0 (Z.of_nat (length packets))
                    (Z.of_nat (bad_lengths syndrome)) 0) in
      (finish d (b_id blk), packets)
  end.

(** ** Accesses in range *)

Lemma cell_app {A} `{!Inhabited A} (v junk : list A) i : (i < length v)%nat → cell (v ++ junk) i = Ok (v !!! i).
Proof. intros Hi. unfold cell. rewrite lookup_app_l by done. by rewrite (list_lookup_lookup_total_lt v i Hi). Qed.

Lemma cell_ok {A} `{!Inhabited A} (v : list A) i : (i < length v)%nat → cell v i = Ok (v !!! i).
Proof. intros Hi. unfold cell. by rewrite (list_lookup_lookup_total_lt v i Hi). Qed.

Lemma cell_ub {A} (v : list A) i : (length v ≤ i)%nat → cell v i = Ub.
Proof. intros Hi. unfold cell. by rewrite lookup_ge_None_2. Qed.

Lemma set_cell_app {A} (v junk : list A) i x : (i < length v)%nat → set_cell (v ++ junk) i x = Ok (<[i := x]> v ++ junk).
Proof. intros Hi. unfold set_cell. rewrite decide_True by (rewrite length_app; lia). by rewrite insert_app_l. Qed.

Lemma set_cell_ok {A} (v : list A) i x : (i < length v)%nat → set_cell v i x = Ok (<[i := x]> v).
Proof. intros Hi. unfold set_cell. by rewrite decide_True. Qed.

Lemma rd_within {E} (v : list Z) i : (i < length v)%nat → rd (E:=E) v i = Ok (v !!! i).
Proof. intros Hi. apply rd_ok. by apply list_lookup_lookup_total_lt. Qed.

Lemma wr_within {E} (v : list Z) i x : (i < length v)%nat → wr (E:=E) v i x = Ok (<[i := x]> v).
Proof. intros Hi. unfold wr. by rewrite decide_True. Qed.

Lemma swap_cells_app (v junk : list (list Z)) i j : (i < length v)%nat → (j < length v)%nat →
  swap_cells (v ++ junk) i j = Ok (swap i j v ++ junk).
Proof.
  intros Hi Hj. unfold swap_cells, swap. rewrite !cell_app by done. cbn [rbind]. rewrite set_cell_app by done. cbn [rbind].
  rewrite set_cell_app by (by rewrite length_insert). do 2 f_equal.
  destruct (decide (i = j)) as [->|Hne]; [by rewrite !list_insert_insert_eq|by apply list_insert_insert_ne].
Qed.

Lemma length_swap i j (v : list (list Z)) : length (swap i j v) = length v.
Proof. unfold swap. by rewrite !length_insert. Qed.

(** ** The elimination *)

(** The rows of the 16 by 16 array. *)
Definition wide (m : list (list Z)) : Prop := Forall (λ row, length row = 16%nat) m.

Lemma wide_row m i : wide m → (i < length m)%nat → length (m !!! i) = 16%nat.
Proof. intros Hw Hi. apply (Forall_lookup_1 _ _ _ _ Hw (list_lookup_lookup_total_lt m i Hi)). Qed.

Lemma wide_swap i j m : wide m → (i < length m)%nat → (j < length m)%nat → wide (swap i j m).
Proof. intros Hw Hi Hj. unfold swap. by repeat apply Forall_insert; [|apply wide_row..]. Qed.

Lemma find_pivot_ok junk count column m fuel : length m = count → wide m → (column < 16)%nat → ∀ pivot, (pivot ≤ count)%nat →
  find_pivot fuel pivot count column (m ++ junk) = Ok (pivot_of fuel pivot count column m) ∧
  (pivot ≤ pivot_of fuel pivot count column m ≤ count)%nat.
Proof.
  intros Hm Hw Hc. induction fuel as [|fuel IH]; intros pivot Hp; cbn [find_pivot pivot_of]; [done|].
  case_decide as Hlt; [|split; [done|lia]]. rewrite cell_app by lia. cbn [rbind].
  rewrite rd_within by (rewrite wide_row; [done|done|lia]). cbn [rbind]. destruct (_ =? 0); [|split; [done|lia]].
  destruct (IH (S pivot) ltac:(lia)) as [-> Hr]. split; [done|lia].
Qed.

Lemma eliminate_cells_ok k prow n : ∀ c row, (c + n ≤ length row)%nat → (c + n ≤ length prow)%nat →
  eliminate_cells n c k prow row =
  Ok (imap (λ i v, if decide (c ≤ i < c + n)%nat then Z.lxor v (multiply k (prow !!! i)) else v) row).
Proof.
  induction n as [|n IH]; intros c row Hr Hp; cbn [eliminate_cells].
  - f_equal. symmetry. apply list_eq. intros i. rewrite list_lookup_imap. destruct (row !! i); [|done]. cbn. by rewrite decide_False by lia.
  - rewrite !rd_within by lia. cbn [rbind]. rewrite wr_within by lia. cbn [rbind]. rewrite IH by (rewrite ?length_insert; lia).
    f_equal. apply list_eq. intros i. rewrite !list_lookup_imap. destruct (decide (i = c)) as [->|Hne].
    + rewrite list_lookup_insert_eq, (list_lookup_lookup_total_lt row c) by lia. cbn.
      by rewrite decide_False, decide_True by lia.
    + rewrite list_lookup_insert_ne by done. destruct (row !! i); [|done]. cbn. f_equal. by apply decide_ext; lia.
Qed.

Lemma eliminate_cells_row count k prow row : (count ≤ length row)%nat → (count ≤ length prow)%nat →
  eliminate_cells count 0 k prow row = Ok (eliminate_row count k prow row).
Proof.
  intros Hr Hp. rewrite eliminate_cells_ok by done. f_equal. unfold eliminate_row. apply imap_ext.
  intros i v _. apply decide_ext. lia.
Qed.

(** What the loop over the rows makes of row [r], and of its right hand side. *)
Definition passed_over (m : list (list Z)) (column r : nat) : bool :=
  bool_decide (r = column) || (m !!! r !!! column =? 0).
Definition reduced_row (m : list (list Z)) (count column r : nat) (row : list Z) : list Z :=
  if passed_over m column r then row else eliminate_row count (m !!! r !!! column) (m !!! column) row.
Definition reduced_symbol (b : Backend) (m s : list (list Z)) (column r : nat) (row : list Z) : list Z :=
  if passed_over m column r then row else multiply_add b row (s !!! column) (m !!! r !!! column).

(** The rows before [r], which the loop has left behind, and the ones it still
    has to reduce. *)
Definition reduced_from {A} (f : nat → A → A) (r : nat) (l : list A) : list A :=
  imap (λ i x, if decide (r ≤ i)%nat then f i x else x) l.

Lemma reduced_from_step {A} (f f' : nat → A → A) r (l : list A) x : l !! r = Some x →
  (∀ i y, (r < i)%nat → l !! i = Some y → f i y = f' i y) →
  reduced_from f (S r) (<[r := f' r x]> l) = reduced_from f' r l.
Proof.
  intros Hl Hf. unfold reduced_from. apply list_eq. intros i. rewrite !list_lookup_imap. destruct (decide (i = r)) as [->|Hne].
  - rewrite list_lookup_insert_eq by (by eapply lookup_lt_Some). rewrite Hl. cbn. by rewrite decide_False, decide_True by lia.
  - rewrite list_lookup_insert_ne by done. destruct (l !! i) as [y|] eqn:E; [|done]. cbn. f_equal.
    destruct (decide (S r ≤ i)%nat); [rewrite decide_True by lia; apply Hf; [lia|done]|by rewrite decide_False by lia].
Qed.

Lemma reduced_from_all {A} (f : nat → A → A) (l : list A) : reduced_from f 0 l = imap f l.
Proof. apply imap_ext. intros i x _. by rewrite decide_True by lia. Qed.

Lemma reduced_from_done {A} (f : nat → A → A) r (l : list A) : (length l ≤ r)%nat → reduced_from f r l = l.
Proof.
  intros Hr. unfold reduced_from. apply list_eq. intros i. rewrite list_lookup_imap. destruct (l !! i) eqn:E; [|done].
  apply lookup_lt_Some in E. cbn. by rewrite decide_False by lia.
Qed.

Lemma length_eliminate_row count k prow row : length (eliminate_row count k prow row) = length row.
Proof. unfold eliminate_row. apply length_imap. Qed.

Lemma eliminate_rows_ok b count column junk n : (count ≤ 16)%nat → (column < count)%nat → ∀ r m s,
  (r + n = count)%nat → length m = count → length s = count → wide m →
  eliminate_rows n r b count column (m ++ junk) s =
  Ok (reduced_from (reduced_row m count column) r m ++ junk, reduced_from (reduced_symbol b m s column) r s).
Proof.
  intros H16 Hcol. induction n as [|n IH]; intros r m s Hn Hm Hs Hw; cbn [eliminate_rows].
  { by rewrite !reduced_from_done by lia. }
  pose proof (list_lookup_lookup_total_lt m r ltac:(lia)) as Hrow. pose proof (list_lookup_lookup_total_lt s r ltac:(lia)) as Hsym.
  assert (passed_over m column r = true →
    eliminate_rows n (S r) b count column (m ++ junk) s =
    Ok (reduced_from (reduced_row m count column) r m ++ junk, reduced_from (reduced_symbol b m s column) r s)) as Hskip.
  { intros Hp. rewrite IH by (done || lia).
    rewrite <- (reduced_from_step (reduced_row m count column) (reduced_row m count column) r m _ Hrow) by done.
    rewrite <- (reduced_from_step (reduced_symbol b m s column) (reduced_symbol b m s column) r s _ Hsym) by done.
    unfold reduced_row at 3, reduced_symbol at 3. rewrite Hp. by rewrite (list_insert_id m), (list_insert_id s). }
  case_decide as Hr; [apply Hskip; unfold passed_over; by rewrite bool_decide_eq_true_2|].
  rewrite cell_app by lia. cbn [rbind]. rewrite rd_within by (rewrite wide_row by (done || lia); lia). cbn [rbind].
  destruct (m !!! r !!! column =? 0) eqn:Hz; [apply Hskip; unfold passed_over; by rewrite Hz, orb_true_r|].
  assert (passed_over m column r = false) as Hp by (unfold passed_over; by rewrite bool_decide_eq_false_2, Hz).
  rewrite cell_app by lia. cbn [rbind]. rewrite eliminate_cells_row by (rewrite wide_row by (done || lia); lia). cbn [rbind].
  rewrite set_cell_app by lia. cbn [rbind]. rewrite !cell_ok by lia. cbn [rbind]. rewrite set_cell_ok by lia. cbn [rbind].
  rewrite IH; [|lia|by rewrite length_insert..|].
  2: { apply Forall_insert; [done|]. rewrite length_eliminate_row. by apply wide_row; [|lia]. }
  set (m1 := <[r := eliminate_row _ _ _ _]> m). set (s1 := <[r := multiply_add _ _ _ _]> s).
  assert (∀ i, i ≠ r → m1 !!! i = m !!! i) as Hother by (intros i Hi; by apply list_lookup_total_insert_ne).
  assert (∀ i, i ≠ r → s1 !!! i = s !!! i) as Hothers by (intros i Hi; by apply list_lookup_total_insert_ne).
  rewrite <- (reduced_from_step (reduced_row m1 count column) (reduced_row m count column) r m _ Hrow),
    <- (reduced_from_step (reduced_symbol b m1 s1 column) (reduced_symbol b m s column) r s _ Hsym).
  - unfold reduced_row at 3, reduced_symbol at 3. rewrite Hp. reflexivity.
  - intros i y Hi _. unfold reduced_symbol, passed_over. by rewrite (Hother i), Hothers by lia.
  - intros i y Hi _. unfold reduced_row, passed_over. by rewrite (Hother i), (Hother column) by lia.
Qed.

Lemma gj_step_ok b count column junk m s : (count ≤ 16)%nat → (column < count)%nat →
  length m = count → length s = count → wide m →
  gj_step b count column (m ++ junk) s =
    Ok ((λ p, (p.1 ++ junk, p.2)) <$> reduce_column b count column m s) ∧
  match reduce_column b count column m s with
  | Some (m', s') => length m' = count ∧ length s' = count ∧ wide m'
  | None => True
  end.
Proof.
  intros H16 Hcol Hm Hs Hw. unfold gj_step, reduce_column.
  destruct (find_pivot_ok junk count column m (S count) Hm Hw ltac:(lia) column ltac:(lia)) as [-> Hr]. cbn [rbind].
  set (pivot := pivot_of _ _ _ _ _) in *. case_decide as Hp; [done|].
  rewrite swap_cells_app by lia. cbn [rbind]. rewrite <- (app_nil_r s) at 1. rewrite swap_cells_app, app_nil_r by lia. cbn [rbind].
  set (m1 := swap pivot column m). set (s1 := swap pivot column s).
  assert (length m1 = count) as Hm1 by (unfold m1; by rewrite length_swap).
  assert (length s1 = count) as Hs1 by (unfold s1; by rewrite length_swap).
  assert (wide m1) as Hw1 by (apply wide_swap; [done|lia|lia]).
  rewrite cell_app by lia. cbn [rbind]. rewrite rd_within by (rewrite wide_row by (done || lia); lia). cbn [rbind].
  rewrite set_cell_app by lia. cbn [rbind]. rewrite cell_ok by lia. cbn [rbind]. rewrite set_cell_ok by lia. cbn [rbind].
  set (m2 := <[column := map _ _]> m1). set (s2 := <[column := scale _ _]> s1).
  assert (wide m2) as Hw2 by (apply Forall_insert; [done|]; rewrite length_map; by apply wide_row; [|lia]).
  rewrite (eliminate_rows_ok b count column junk count H16 Hcol 0 m2 s2); [|lia|unfold m2; by rewrite length_insert|unfold s2; by rewrite length_insert|done].
  cbn [rbind]. rewrite !reduced_from_all. split; [reflexivity|].
  rewrite !length_imap. unfold m2 at 1, s2 at 1. rewrite !length_insert. split_and!; [done|done|].
  apply Forall_lookup_2. intros i row. rewrite list_lookup_imap. destruct (m2 !! i) as [x|] eqn:E; [|done]. cbn. intros [= <-].
  pose proof (Forall_lookup_1 _ _ _ _ Hw2 E). case_match; [done|by rewrite length_eliminate_row].
Qed.

Lemma gj_columns_ok b count junk n : (count ≤ 16)%nat → ∀ column m s, (column + n = count)%nat →
  length m = count → length s = count → wide m →
  gj_columns n b count column (m ++ junk) s = Ok ((λ p, (p.1 ++ junk, p.2)) <$> reduce_columns n b count column m s).
Proof.
  intros H16. induction n as [|n IH]; intros column m s Hn Hm Hs Hw; cbn [gj_columns reduce_columns]; [done|].
  destruct (gj_step_ok b count column junk m s H16 ltac:(lia) Hm Hs Hw) as [-> Hnext]. cbn [rbind].
  destruct (reduce_column b count column m s) as [[m' s']|]; [|done]. destruct Hnext as (Hm' & Hs' & Hw').
  cbn. rewrite IH by (done || lia). done.
Qed.

(** ** The equations *)

Lemma slots_where_ok empty slots n : ∀ index found, (index + n ≤ length slots)%nat →
  slots_where empty n index slots found =
  Ok (found ++ filter (λ i, eqb (is_empty (slots !!! i)) empty = true) (seq index n)).
Proof.
  induction n as [|n IH]; intros index found Hn; cbn [slots_where seq]; [by rewrite app_nil_r|].
  rewrite cell_ok by lia. cbn [rbind]. rewrite IH by lia. rewrite filter_cons. f_equal.
  destruct (eqb _ _); [rewrite decide_True by done; by rewrite <- app_assoc|by rewrite decide_False].
Qed.

Lemma slots_where_ub empty slots n : ∀ index found, (index ≤ length slots)%nat → (length slots < index + n)%nat →
  slots_where empty n index slots found = Ub.
Proof.
  induction n as [|n IH]; intros index found Hi Hn; cbn [slots_where]; [lia|].
  destruct (decide (index = length slots)) as [->|Hne]; [by rewrite cell_ub|].
  rewrite cell_ok by lia. cbn [rbind]. apply IH; lia.
Qed.

Lemma indices_where_take (f : list Z → bool) n slots : (n ≤ length slots)%nat →
  indices_where f (take n slots) = filter (λ i, f (slots !!! i) = true) (seq 0 n).
Proof.
  intros Hn. unfold indices_where. rewrite length_take, Nat.min_l by done. apply filter_ext_in.
  intros i Hi%elem_of_seq. by rewrite !list_lookup_total_alt, lookup_take_lt by lia.
Qed.

Lemma indices_below (f : list Z → bool) slots i : i ∈ indices_where f slots → (i < length slots)%nat.
Proof. unfold indices_where. intros [_ Hi%elem_of_seq]%list_elem_of_filter. lia. Qed.

Lemma rows_agree_ok width parity rows : Forall (λ row, (row < length parity)%nat) rows →
  rows_agree rows parity width = Ok (forallb (λ row, Nat.eqb (length (parity !!! row)) width) rows).
Proof.
  induction 1 as [|row rows Hr _ IH]; cbn [rows_agree forallb]; [done|]. rewrite cell_ok by done. cbn [rbind].
  rewrite IH. by destruct (Nat.eqb _ _).
Qed.

Lemma syndrome_loop_ok b row data n : ∀ index acc, (index + n ≤ length data)%nat →
  syndrome_loop n b row index data acc = Ok (subtract_known n b row index data acc).
Proof.
  induction n as [|n IH]; intros index acc Hn; cbn [syndrome_loop subtract_known]; [done|].
  rewrite cell_ok by lia. cbn [rbind]. apply IH. lia.
Qed.

Lemma matrix_loop_ok row missing n : ∀ c line, (c + n = length missing)%nat → (c + n ≤ length line)%nat →
  matrix_loop n c row missing line = Ok (take c line ++ map (cauchy row) (drop c missing) ++ drop (c + n) line).
Proof.
  induction n as [|n IH]; intros c line Hm Hl; cbn [matrix_loop].
  { rewrite (drop_ge missing) by lia. cbn [map app]. by rewrite Nat.add_0_r, take_drop. }
  pose proof (list_lookup_lookup_total_lt missing c ltac:(lia)) as Hc.
  rewrite cell_ok by lia. cbn [rbind]. rewrite wr_within by lia. cbn [rbind]. rewrite IH by (rewrite ?length_insert; lia).
  rewrite (drop_S _ _ _ Hc). cbn [map app]. rewrite (take_S_r _ _ (cauchy row (missing !!! c))) by (rewrite list_lookup_insert_eq; [done|lia]).
  rewrite take_insert_ge by lia. rewrite drop_insert_lt by lia. rewrite <- app_assoc. cbn [app]. by replace (S c + n)%nat with (c + S n)%nat by lia.
Qed.

Lemma equations_loop_ok b blk missing (rows : list nat) k : (length missing ≤ 16)%nat → (data_count blk ≤ length (b_data blk))%nat →
  ∀ done_ rest m s, rows = done_ ++ rest → Forall (λ row, (row < length (b_parity blk))%nat) rest →
  length m = length done_ → length s = length done_ →
  equations_loop (length rest) (length done_) b (length missing) blk rows missing
    (m ++ replicate (length rest + k) (replicate 16 0)) (s ++ replicate (length rest) []) =
  Ok (m ++ initial_matrix rest missing ++ replicate k (replicate 16 0), s ++ initial_syndrome b blk rest).
Proof.
  intros H16 Hdata done_ rest. revert done_. induction rest as [|row rest IH]; intros done_ m s Hrows Hin Hm Hs; cbn [length equations_loop].
  { cbn [Nat.add replicate initial_matrix initial_syndrome map app]. by rewrite app_nil_r. }
  apply Forall_cons_1 in Hin as [Hrow Hin].
  assert (cell rows (length done_) = Ok row) as ->.
  { unfold cell. rewrite Hrows. by rewrite list_lookup_middle. }
  cbn [rbind]. rewrite cell_ok by done. cbn [rbind]. rewrite syndrome_loop_ok by lia. cbn [rbind].
  rewrite set_cell_ok by (rewrite length_app, length_replicate; lia). cbn [rbind].
  assert (cell (m ++ replicate (S (length rest) + k) (replicate 16 0)) (length done_) = Ok (replicate 16 0)) as ->.
  { unfold cell. cbn [Nat.add replicate]. by rewrite list_lookup_middle. }
  cbn [rbind]. rewrite matrix_loop_ok by (rewrite ?length_replicate; lia). cbn [rbind].
  rewrite set_cell_ok by (rewrite length_app, length_replicate; lia). cbn [rbind Nat.add].
  rewrite !insert_app_r_alt by lia. rewrite Hm, Hs, !Nat.sub_diag. cbn [replicate].
  change (<[0%nat := ?x]> (?y :: ?l)) with (x :: l). cbn [list_insert].
  rewrite (cons_middle _ m), (cons_middle _ s), !(app_assoc _ [_]).
  replace (S (length done_)) with (length (done_ ++ [row])) by (rewrite length_app; simpl; lia).
  rewrite IH; [|by rewrite Hrows, <- app_assoc|done|rewrite !length_app; simpl; lia|rewrite !length_app; simpl; lia].
  change [0; 0; 0; 0; 0; 0; 0; 0; 0; 0; 0; 0; 0; 0; 0; 0] with (replicate 16 0). rewrite drop_replicate.
  by rewrite <- !app_assoc.
Qed.

(** ** The solution *)

(** The vectors of a block are as long as its counts announce. *)
Definition shaped (blk : Block) : Prop :=
  (data_count blk ≤ length (b_data blk))%nat ∧ (b_parity_count blk ≤ length (b_parity blk))%nat.

Lemma missing_ok blk : (data_count blk ≤ length (b_data blk))%nat →
  slots_where true (data_count blk) 0 (b_data blk) [] = Ok (missing_of blk).
Proof.
  intros H. rewrite slots_where_ok by done. unfold missing_of. rewrite indices_where_take by done. cbn [app]. f_equal.
  apply filter_ext_in. intros i _. by destruct (is_empty _).
Qed.

Lemma rows_ok blk : (b_parity_count blk ≤ length (b_parity blk))%nat →
  slots_where false (b_parity_count blk) 0 (b_parity blk) [] = Ok (rows_of blk).
Proof.
  intros H. rewrite slots_where_ok by done. unfold rows_of. by rewrite indices_where_take.
Qed.

Lemma rows_below blk n : Forall (λ row, (row < length (b_parity blk))%nat) (take n (rows_of blk)).
Proof.
  apply Forall_take, Forall_forall. intros row Hr%indices_below. rewrite length_take in Hr. lia.
Qed.

Lemma wide_initial rows missing : (length missing ≤ 16)%nat → wide (initial_matrix rows missing).
Proof.
  intros H. apply Forall_fmap, Forall_forall. intros row _. cbn. rewrite length_app, length_map, length_replicate. change (Z.to_nat kMaximumFecParity) with 16%nat. lia.
Qed.

Lemma existsb_forallb width (data : list (list Z)) :
  existsb (λ symbol, Nat.ltb width (length symbol)) data = negb (forallb (λ symbol, Nat.leb (length symbol) width) data).
Proof.
  induction data as [|x data IH]; [done|]. cbn [existsb forallb]. rewrite IH.
  destruct (Nat.ltb_spec width (length x)), (Nat.leb_spec (length x) width); cbn; try done; lia.
Qed.

Lemma solve_block_ok b blk : shaped blk → solve_block b blk = Ok (solution b blk).
Proof.
  intros [Hd Hp]. unfold solve_block, solution. rewrite missing_ok, rows_ok by done. cbn [rbind].
  set (missing := missing_of blk). case_decide as Hw; [done|].
  assert (missing ≠ [] ∧ (length missing ≤ length (rows_of blk))%nat) as [Hne Hen]
    by (split; [intros E; apply Hw; by left|destruct (decide (length (rows_of blk) < length missing)%nat); [exfalso; apply Hw; by right|lia]]).
  pose proof (rows_below blk (length missing)) as Hin. set (rows := take (length missing) (rows_of blk)) in *.
  assert (length rows = length missing) as Hlen by (unfold rows; rewrite length_take; lia).
  assert (0 < length rows)%nat as Hpos by (rewrite Hlen; destruct missing; [done|simpl; lia]).
  rewrite cell_ok by done. cbn [rbind]. rewrite cell_ok by (apply (Forall_lookup_1 _ _ _ _ Hin (list_lookup_lookup_total_lt rows 0 Hpos))).
  cbn [rbind]. rewrite rows_agree_ok by done. cbn [rbind]. destruct (forallb _ rows); [cbn [negb andb]|done].
  rewrite existsb_forallb. destruct (forallb _ (b_data blk)); [cbn [negb andb]|done].
  destruct (Z.ltb_spec kMaximumFecParity (Z.of_nat (length missing))) as [Hbig|Hfit].
  { rewrite (proj2 (Z.leb_gt _ _)) by done. done. }
  rewrite (proj2 (Z.leb_le _ _)) by done. unfold kMaximumFecParity in Hfit. change (Z.to_nat kMaximumFecParity) with 16%nat.
  pose proof (equations_loop_ok b blk missing rows (16 - length missing) ltac:(lia) Hd [] rows [] [] eq_refl Hin eq_refl eq_refl) as Heq.
  cbn [length app] in Heq. rewrite Hlen in Heq. replace (length missing + (16 - length missing))%nat with 16%nat in Heq by lia.
  rewrite Heq. cbn [rbind]. rewrite gj_columns_ok; [|lia|lia| | |by apply wide_initial; lia].
  - cbn [rbind]. by destruct (reduce_columns _ _ _ _ _ _) as [[m s]|].
  - unfold initial_matrix. by rewrite length_map.
  - unfold initial_syndrome. by rewrite length_map.
Qed.

Lemma solve_block_ub b blk : ¬ shaped blk → solve_block b blk = Ub.
Proof.
  intros Hn. unfold solve_block. destruct (decide (data_count blk ≤ length (b_data blk))%nat) as [Hd|Hd].
  - rewrite missing_ok by done. cbn [rbind]. rewrite slots_where_ub; [done|lia|].
    destruct (decide (b_parity_count blk ≤ length (b_parity blk))%nat); [by destruct Hn|lia].
  - rewrite slots_where_ub by lia. done.
Qed.

(** ** The packets *)

Lemma extract_ok symbol : extract symbol = Ok (inner_packet symbol).
Proof.
  unfold extract, inner_packet. destruct symbol as [|hi [|lo rest]]; [done|done|].
  rewrite (proj2 (Z.ltb_ge _ _)) by (unfold blen, kFecLengthPrefix; simpl; lia). cbn [rd lookup list_lookup rbind].
  set (len := Z.lor _ _). destruct (Z.eqb_spec len 0) as [|Hz]; [done|]. cbn [orb].
  destruct (Z.ltb_spec (blen (hi :: lo :: rest)) (kFecLengthPrefix + len)) as [|Hfit]; [done|].
  rewrite subspan_ok; [done|]. unfold kFecLengthPrefix, blen in *. simpl in *. lia.
Qed.

Lemma extract_all_ok symbols : ∀ out bad,
  extract_all symbols out bad = Ok (out ++ packets_of symbols, (bad + bad_lengths symbols)%nat).
Proof.
  induction symbols as [|x symbols IH]; intros out bad; cbn [extract_all].
  { by rewrite app_nil_r, Nat.add_0_r. }
  rewrite extract_ok. cbn [rbind]. unfold packets_of, bad_lengths in *. cbn [omap list_omap]. rewrite filter_cons.
  destruct (inner_packet x); rewrite IH; [rewrite <- app_assoc|..]; rewrite ?decide_True, ?decide_False by done; try done.
  f_equal. f_equal. simpl. lia.
Qed.

(** The checked code agrees with the reference: [try_recover] stays inside
    the vectors of a well-shaped block and returns what [recovery] says. *)
Lemma try_recover_ok b d blk : shaped blk → try_recover b d blk = Ok (recovery b d blk).
Proof.
  intros H. unfold try_recover, recovery. rewrite solve_block_ok by done. cbn [rbind].
  destruct (solution b blk) as [syndrome|]; [|done]. rewrite extract_all_ok. done.
Qed.

Lemma try_recover_inv b d blk r : try_recover b d blk = Ok r → r = recovery b d blk ∧ shaped blk.
Proof.
  intros E. destruct (decide (data_count blk ≤ length (b_data blk) ∧ b_parity_count blk ≤ length (b_parity blk))%nat) as [H|H].
  - rewrite try_recover_ok in E by done. by injection E as <-.
  - unfold try_recover in E. by rewrite solve_block_ub in E.
Qed.

(** ** Shrinking a block *)

Lemma count_lost_ok data n : ∀ index lost, (index + n ≤ length data)%nat →
  count_lost n index data lost = Ok (lost + length (filter (λ v, is_empty v = false) (take n (drop index data))))%nat.
Proof.
  induction n as [|n IH]; intros index lost Hn; cbn [count_lost]; [by rewrite Nat.add_0_r|].
  pose proof (list_lookup_lookup_total_lt data index ltac:(lia)) as Hx.
  rewrite cell_ok by lia. cbn [rbind]. rewrite IH by lia. rewrite (drop_S _ _ _ Hx). cbn [take]. rewrite filter_cons.
  destruct (is_empty _); [by rewrite decide_False|rewrite decide_True by done]. f_equal. simpl. lia.
Qed.

Lemma count_lost_ub data n : ∀ index lost, (index ≤ length data)%nat → (length data < index + n)%nat →
  count_lost n index data lost = Ub.
Proof.
  induction n as [|n IH]; intros index lost Hi Hn; cbn [count_lost]; [lia|].
  destruct (decide (index = length data)) as [->|Hne]; [by rewrite cell_ub|].
  rewrite cell_ok by lia. cbn [rbind]. apply IH; lia.
Qed.

Lemma shrink_eq blk n : (data_count blk ≤ length (b_data blk))%nat → shrink blk n = Ok (shrunk blk n).
Proof.
  intros H. unfold shrink, shrunk. case_decide as Hn; [|done]. rewrite count_lost_ok by lia. cbn [rbind Nat.add].
  by rewrite skipn_firstn_comm.
Qed.
