(* ===== verification/FecRecovery.v ===== *)
(** The erasure code restores what was lost.

    Gauss-Jordan elimination on a Cauchy matrix never meets a zero pivot: the
    part still to be eliminated stays a Cauchy matrix up to non-zero row and
    column factors.  Every row operation keeps the linear system that the
    missing symbols satisfy, so the solved syndrome is the missing symbols. *)

From Stdlib Require Import Field.
From S2P Require Import Prelude Packet Gf256 Fec FecEncoder FecDecoder FecReference.

(** ** Finite sums in GF(2^8) *)

Fixpoint gsum (l : list nat) (f : nat → gf) : gf :=
  match l with
  | [] => 0%gf
  | i :: l => (f i + gsum l f)%gf
  end.

Lemma gsum_ext l f g : (∀ i, i ∈ l → f i = g i) → gsum l f = gsum l g.
Proof.
  intros H. induction l as [|i l IH]; [done|]. simpl. rewrite H by set_solver. f_equal. set_solver.
Qed.

Lemma gsum_add l f g : gsum l (λ i, (f i + g i)%gf) = (gsum l f + gsum l g)%gf.
Proof. induction l as [|i l IH]; simpl; [ring|]. rewrite IH. ring. Qed.

Lemma gsum_scale l f k : gsum l (λ i, (k * f i)%gf) = (k * gsum l f)%gf.
Proof. induction l as [|i l IH]; simpl; [ring|]. rewrite IH. ring. Qed.

Lemma gsum_map l f g : gsum (map g l) f = gsum l (λ i, f (g i)).
Proof. induction l as [|i l IH]; simpl; [done|]. by rewrite IH. Qed.

Lemma gsum_zero l f : (∀ i, i ∈ l → f i = 0%gf) → gsum l f = 0%gf.
Proof.
  intros H. induction l as [|i l IH]; [done|]. simpl.
  rewrite H, IH; [ring|set_solver|set_solver].
Qed.

(** A sum with one non-zero term. *)
Lemma gsum_single l f k : NoDup l → k ∈ l → (∀ i, i ∈ l → i ≠ k → f i = 0%gf) → gsum l f = f k.
Proof.
  intros Hnd Hk H. induction Hnd as [|i l Hi Hl IH]; [set_solver|]. simpl.
  destruct (decide (i = k)) as [->|Hne].
  - rewrite gsum_zero; [ring|]. intros j Hj. apply H; [set_solver|]. intros ->. done.
  - rewrite H by set_solver. rewrite IH; [ring|set_solver|]. intros j Hj. apply H. set_solver.
Qed.

Lemma gsum_split l f (P : nat → bool) :
  gsum l f = (gsum (filter (λ i, P i = true) l) f + gsum (filter (λ i, P i = false) l) f)%gf.
Proof.
  induction l as [|i l IH]; simpl; [ring|]. rewrite IH, !filter_cons.
  destruct (P i); simpl; ring.
Qed.

Lemma gsum_indexed l f : gsum l f = gsum (seq 0 (length l)) (λ c, f (l !!! c)).
Proof.
  assert (∀ (m : list nat) a, (∀ c, (c < length m)%nat → l !!! (a + c)%nat = m !!! c) →
    gsum m f = gsum (seq a (length m)) (λ c, f (l !!! c))) as H; [|by apply (H l 0%nat)].
  induction m as [|i m IH]; intros a Hm; [done|]. simpl. f_equal.
  - f_equal. specialize (Hm 0%nat). rewrite Nat.add_0_r in Hm. symmetry. apply Hm. simpl. lia.
  - apply IH. intros c Hc. specialize (Hm (S c)). rewrite <- plus_n_Sm in Hm. apply Hm. simpl. lia.
Qed.

(** ** One elimination step, entry by entry *)

Definition entry (m : list (list Z)) (r c : nat) : gf := gf_of (m !!! r !!! c).

(** A table of [h] rows of [w] bytes. *)
Definition table (h w : nat) (m : list (list Z)) : Prop :=
  length m = h ∧ Forall (λ row, length row = w ∧ bytes_ok row) m.

Lemma table_row h w m r : table h w m → (r < h)%nat →
  m !! r = Some (m !!! r) ∧ length (m !!! r) = w ∧ bytes_ok (m !!! r).
Proof.
  intros [Hl Hf] Hr. destruct (lookup_lt_is_Some_2 m r) as [row Hrow]; [lia|].
  rewrite (list_lookup_total_correct _ _ _ Hrow). split; [done|].
  by apply (Forall_lookup_1 _ _ _ _ Hf Hrow).
Qed.

Lemma table_byte h w m r c : table h w m → (r < h)%nat → (c < w)%nat → is_u8 (m !!! r !!! c).
Proof.
  intros Ht Hr Hc. destruct (table_row h w m r Ht Hr) as (_ & Hl & Hb).
  destruct (lookup_lt_is_Some_2 (m !!! r) c) as [x Hx]; [lia|].
  rewrite (list_lookup_total_correct _ _ _ Hx). by apply (Forall_lookup_1 _ _ _ _ Hb Hx).
Qed.

Lemma table_insert h w m r row : table h w m → length row = w → bytes_ok row →
  table h w (<[r := row]> m).
Proof.
  intros [Hl Hf] Hrow Hb. split; [by rewrite length_insert|]. by apply Forall_insert.
Qed.

Lemma entry_gv h w m r c : table h w m → (r < h)%nat → (c < w)%nat → gv (entry m r c) = m !!! r !!! c.
Proof. intros. apply gv_of. by eapply table_byte. Qed.

Lemma entry_zero h w m r c : table h w m → (r < h)%nat → (c < w)%nat →
  (m !!! r !!! c =? 0) = bool_decide (entry m r c = 0%gf).
Proof.
  intros Ht Hr Hc. destruct (Z.eqb_spec (m !!! r !!! c) 0) as [E|E]; symmetry.
  - apply bool_decide_eq_true_2. unfold entry. by rewrite E.
  - apply bool_decide_eq_false_2. intros F. apply E. rewrite <- (entry_gv h w) by done. by rewrite F.
Qed.

Lemma imap_table h w (f : nat → list Z → list Z) m : table h w m →
  (∀ r, (r < h)%nat → length (f r (m !!! r)) = w ∧ bytes_ok (f r (m !!! r))) →
  table h w (imap f m) ∧ ∀ r, (r < h)%nat → imap f m !!! r = f r (m !!! r).
Proof.
  intros Ht Hf. assert (∀ r, (r < h)%nat → imap f m !! r = Some (f r (m !!! r))) as Hlk.
  { intros r Hr. rewrite list_lookup_imap. destruct (table_row h w m r Ht Hr) as [-> _]. done. }
  split; [|intros r Hr; by apply list_lookup_total_correct, Hlk].
  split; [rewrite length_imap; apply Ht|]. apply Forall_lookup_2. intros r row Hrow.
  pose proof (lookup_lt_Some _ _ _ Hrow) as Hr. rewrite length_imap in Hr. destruct Ht as [Hl _].
  rewrite Hlk in Hrow by lia. injection Hrow as <-. apply Hf. lia.
Qed.


(** What the step computes on the entries below [count], for a pivot in place. *)
Lemma pivot_here fuel count column matrix : (column < count)%nat →
  matrix !!! column !!! column ≠ 0 → pivot_of (S fuel) column count column matrix = column.
Proof.
  intros Hc Hp. simpl. rewrite decide_True by done.
  by rewrite (proj2 (Z.eqb_neq _ _)).
Qed.

Lemma swap_same i rows : (i < length rows)%nat → swap i i rows = rows.
Proof.
  intros Hi. unfold swap. destruct (lookup_lt_is_Some_2 rows i Hi) as [row Hrow].
  rewrite (list_lookup_total_correct _ _ _ Hrow), list_insert_insert_eq. by apply list_insert_id.
Qed.

Lemma map_table_row (f : Z → Z) h w m r : table h w m → (r < h)%nat →
  (∀ x, is_u8 x → is_u8 (f x)) →
  length (map f (m !!! r)) = w ∧ bytes_ok (map f (m !!! r)) ∧
  ∀ c, (c < w)%nat → map f (m !!! r) !!! c = f (m !!! r !!! c).
Proof.
  intros Ht Hr Hf. destruct (table_row h w m r Ht Hr) as (_ & Hl & Hb). split_and!.
  - by rewrite length_map.
  - apply Forall_fmap. eapply Forall_impl; [exact Hb|]. exact Hf.
  - intros c Hc. apply list_lookup_total_correct. rewrite list_lookup_fmap.
    destruct (lookup_lt_is_Some_2 (m !!! r) c) as [x Hx]; [lia|].
    by rewrite (list_lookup_total_correct _ _ _ Hx), Hx.
Qed.

(** Scaling the pivot row. *)
Lemma scale_row (f : Z → Z) k h w m col : table h w m → (col < h)%nat → is_u8 k →
  (∀ x, is_u8 x → f x = multiply k x) →
  let m' := <[col := map f (m !!! col)]> m in
  table h w m' ∧ m' !!! col = map f (m !!! col) ∧
  ∀ r c, (r < h)%nat → (c < w)%nat →
    entry m' r c = if decide (r = col) then (gf_of k * entry m r c)%gf else entry m r c.
Proof.
  intros Ht Hcol Hk Hf m'.
  destruct (map_table_row f h w m col Ht Hcol) as (Hl & Hb & Hlk).
  { intros x Hx. rewrite Hf by done. auto with norr. }
  assert (m' !!! col = map f (m !!! col)) as Hm'.
  { unfold m'. apply list_lookup_total_insert_eq. destruct Ht. lia. }
  split_and!; [by apply table_insert|done|]. intros r c Hr Hc. unfold entry.
  case_decide as E.
  - subst r. rewrite Hm', Hlk by done. apply gf_eq.
    assert (is_u8 (m !!! col !!! c)) by (by eapply table_byte).
    rewrite gv_mul, !gv_of by (rewrite ?Hf; auto with norr). by apply Hf.
  - unfold m'. by rewrite list_lookup_total_insert_ne by done.
Qed.

(** Adding a multiple of the pivot row to another row. *)
Lemma eliminate_row_spec count k prow row n : length row = n → length prow = n → (count ≤ n)%nat →
  is_u8 k → bytes_ok prow → bytes_ok row →
  length (eliminate_row count k prow row) = n ∧ bytes_ok (eliminate_row count k prow row) ∧
  ∀ c, (c < count)%nat →
    eliminate_row count k prow row !!! c = Z.lxor (row !!! c) (multiply k (prow !!! c)).
Proof.
  intros Hr Hp Hc Hk Hpb Hrb. unfold eliminate_row.
  assert (∀ c x, row !! c = Some x → is_u8 (prow !!! c)) as Hpc.
  { intros c x Hx. apply lookup_lt_Some in Hx.
    destruct (lookup_lt_is_Some_2 prow c) as [y Hy]; [lia|].
    rewrite (list_lookup_total_correct _ _ _ Hy). by apply (Forall_lookup_1 _ _ _ _ Hpb Hy). }
  split_and!.
  - by rewrite length_imap.
  - apply Forall_lookup_2. intros c x. rewrite list_lookup_imap, fmap_Some.
    intros (v & Hv & ->). pose proof (Forall_lookup_1 _ _ _ _ Hrb Hv).
    case_decide; eauto with norr.
  - intros c Hlt. apply list_lookup_total_correct. rewrite list_lookup_imap.
    destruct (lookup_lt_is_Some_2 row c) as [x Hx]; [lia|].
    rewrite Hx. simpl. rewrite decide_True by done. by rewrite (list_lookup_total_correct _ _ _ Hx).
Qed.

Lemma multiply_add_row b acc src k n : length acc = n → length src = n → is_u8 k →
  bytes_ok acc → bytes_ok src →
  length (multiply_add b acc src k) = n ∧ bytes_ok (multiply_add b acc src k) ∧
  ∀ i, (i < n)%nat → multiply_add b acc src k !!! i = Z.lxor (acc !!! i) (multiply k (src !!! i)).
Proof.
  intros Ha Hs Hk Hab Hsb. rewrite multiply_add_spec by done. split_and!.
  - by rewrite length_xor_map.
  - apply xor_map_bytes; auto with norr.
  - intros i Hi. rewrite lookup_xor_map by (apply multiply_0_r || lia).
    destruct (lookup_lt_is_Some_2 src i) as [x Hx]; [lia|].
    by rewrite Hx, (list_lookup_total_correct _ _ _ Hx).
Qed.

(** The elimination of a column on one of the two tables: [f] is the row
    operation, [lim] the number of entries it reaches. *)
Lemma eliminate_table (f : nat → list Z → list Z) (skip : nat → bool) (k : nat → Z) h w lim m col :
  table h w m → (lim ≤ w)%nat → (col < h)%nat →
  (∀ r, (r < h)%nat → is_u8 (k r)) →
  (∀ r, (r < h)%nat → skip r = bool_decide (r = col) || (k r =? 0)) →
  (∀ r, (r < h)%nat → length (f r (m !!! r)) = w ∧ bytes_ok (f r (m !!! r)) ∧
     ∀ i, (i < lim)%nat → f r (m !!! r) !!! i = Z.lxor (m !!! r !!! i) (multiply (k r) (m !!! col !!! i))) →
  let m' := imap (λ r row, if skip r then row else f r row) m in
  table h w m' ∧
  ∀ r i, (r < h)%nat → (i < lim)%nat →
    entry m' r i = if decide (r = col) then entry m col i
                   else (entry m r i + gf_of (k r) * entry m col i)%gf.
Proof.
  intros Ht Hlim Hcol Hk Hskip Hf m'.
  destruct (imap_table h w (λ r row, if skip r then row else f r row) m Ht) as [Ht' Hlk].
  { intros r Hr. destruct (skip r); [by apply (table_row h w m r Ht Hr)|]. by destruct (Hf r Hr) as (? & ? & _). }
  split; [done|]. intros r i Hr Hi. unfold entry, m'. rewrite Hlk, Hskip by done.
  assert (is_u8 (m !!! r !!! i)) by (eapply table_byte; [done..|lia]).
  assert (is_u8 (m !!! col !!! i)) by (eapply table_byte; [done..|lia]).
  pose proof (Hk r Hr). case_decide as E.
  - subst r. by rewrite bool_decide_eq_true_2.
  - rewrite bool_decide_eq_false_2 by done. simpl. destruct (Z.eqb_spec (k r) 0) as [Hz|Hz].
    + rewrite Hz. apply gf_eq. rewrite gv_add, gv_mul, !gv_of by done. simpl. by rewrite Z.lxor_0_r.
    + destruct (Hf r Hr) as (_ & _ & ->); [|done]. apply gf_eq.
      rewrite gv_add, gv_mul, !gv_of by auto with norr. done.
Qed.

Lemma gj_step_entries b count col w matrix syndrome :
  table count 16 matrix → table count w syndrome → (count ≤ 16)%nat → (col < count)%nat →
  entry matrix col col ≠ 0%gf →
  ∃ matrix' syndrome',
    reduce_column b count col matrix syndrome = Some (matrix', syndrome') ∧
    table count 16 matrix' ∧ table count w syndrome' ∧
    (∀ r c, (r < count)%nat → (c < count)%nat →
       let p := (gf_inv (entry matrix col col) * entry matrix col c)%gf in
       entry matrix' r c = if decide (r = col) then p else (entry matrix r c + entry matrix r col * p)%gf) ∧
    (∀ r i, (r < count)%nat → (i < w)%nat →
       let p := (gf_inv (entry matrix col col) * entry syndrome col i)%gf in
       entry syndrome' r i = if decide (r = col) then p else (entry syndrome r i + entry matrix r col * p)%gf).
Proof.
  intros HM HS Hcount Hcol Hpiv.
  assert (matrix !!! col !!! col ≠ 0) as Hp.
  { intros E. apply Hpiv. unfold entry. by rewrite E. }
  assert (is_u8 (matrix !!! col !!! col)) as Hpb by (eapply table_byte; [done..|lia]).
  unfold reduce_column. rewrite pivot_here by done. rewrite decide_False by lia.
  rewrite !swap_same by (destruct HM, HS; lia).
  set (factor := inverse (matrix !!! col !!! col)).
  assert (is_u8 factor) as Hfb by (unfold factor; auto with norr).
  destruct (scale_row (λ v, multiply v factor) factor count 16 matrix col) as (HM1 & HMrow & HMe);
    [done..|by intros; apply multiply_comm|].
  destruct (scale_row (product factor) factor count w syndrome col) as (HS1 & HSrow & HSe); [done..|].
  fold (scale (syndrome !!! col) factor) in HS1, HSrow, HSe.
  set (M1 := <[col := map (λ v, multiply v factor) (matrix !!! col)]> matrix) in *.
  set (S1 := <[col := scale (syndrome !!! col) factor]> syndrome) in *.
  set (k := λ r, M1 !!! r !!! col).
  set (skip := λ r, bool_decide (r = col) || (M1 !!! r !!! col =? 0)).
  assert (∀ r, (r < count)%nat → is_u8 (k r)) as Hk by (intros; eapply table_byte; [done..|lia]).
  destruct (eliminate_table (λ r row, eliminate_row count (k r) (M1 !!! col) row) skip k
              count 16 count M1 col) as [HM2 HM2e]; [done..| |].
  { intros r Hr. destruct (table_row _ _ _ r HM1 Hr) as (_ & ? & ?).
    destruct (table_row _ _ _ col HM1 Hcol) as (_ & ? & ?). by apply eliminate_row_spec; auto. }
  destruct (eliminate_table (λ r row, multiply_add b row (S1 !!! col) (k r)) skip k
              count w w S1 col) as [HS2 HS2e]; [done..| |].
  { intros r Hr. destruct (table_row _ _ _ r HS1 Hr) as (_ & ? & ?).
    destruct (table_row _ _ _ col HS1 Hcol) as (_ & ? & ?). by apply multiply_add_row; auto. }
  assert (gf_of factor = gf_inv (entry matrix col col)) as Hfac.
  { apply gf_eq. rewrite gv_inv, gv_of by done. unfold entry. by rewrite gv_of. }
  assert (∀ r, (r < count)%nat → r ≠ col → gf_of (k r) = entry matrix r col) as Hkr.
  { intros r Hr Hne. change (gf_of (k r)) with (entry M1 r col). rewrite HMe by lia.
    by rewrite decide_False. }
  do 2 eexists. split; [reflexivity|]. split_and!; [exact HM2|exact HS2|..]; intros r c Hr Hc; cbn zeta.
  - rewrite HM2e, !HMe by lia. rewrite (decide_True (P := col = col)) by done. rewrite Hfac.
    case_decide as E; [done|]. by rewrite Hkr.
  - rewrite HS2e, !HSe by lia. rewrite (decide_True (P := col = col)) by done. rewrite Hfac.
    case_decide as E; [done|]. by rewrite Hkr.
Qed.

(** ** The elimination as a whole *)

Section Elimination.
Context (b : Backend) (count w : nat) (x y : nat → gf) (X : nat → nat → gf).
Hypothesis count_small : (count ≤ 16)%nat.
Hypothesis x_inj : ∀ r s, (r < count)%nat → (s < count)%nat → r ≠ s → (x r + x s)%gf ≠ 0%gf.
Hypothesis y_inj : ∀ c d, (c < count)%nat → (d < count)%nat → c ≠ d → (y c + y d)%gf ≠ 0%gf.
Hypothesis xy_apart : ∀ r c, (r < count)%nat → (c < count)%nat → (x r + y c)%gf ≠ 0%gf.

(** Before column [col]: the columns to the left are unit columns, the square
    below and to the right is a scaled Cauchy matrix, and the unknowns [X]
    satisfy the system. *)
Record gj_inv (col : nat) (m s : list (list Z)) : Prop := {
  inv_matrix : table count 16 m;
  inv_syndrome : table count w s;
  inv_solved : ∀ r c, (r < count)%nat → (c < col)%nat → (c < count)%nat →
    entry m r c = if decide (r = c) then 1%gf else 0%gf;
  inv_cauchy : ∃ u v : nat → gf,
    (∀ r, (col ≤ r < count)%nat → u r ≠ 0%gf ∧ v r ≠ 0%gf) ∧
    ∀ r c, (col ≤ r < count)%nat → (col ≤ c < count)%nat →
      entry m r c = (u r * v c * gf_inv (x r + y c))%gf;
  inv_system : ∀ r i, (r < count)%nat → (i < w)%nat →
    gsum (seq 0 count) (λ c, (entry m r c * X c i)%gf) = entry s r i;
}.

Lemma gf_mul_nonzero p q : p ≠ 0%gf → q ≠ 0%gf → (p * q)%gf ≠ 0%gf.
Proof.
  rewrite !gf_nonzero, gv_mul. intros. by apply multiply_nonzero; auto with norr.
Qed.

Lemma gf_inv_nonzero p : p ≠ 0%gf → gf_inv p ≠ 0%gf.
Proof.
  rewrite !gf_nonzero, gv_inv. intros. rewrite inverse_power by auto with norr. apply power_nonzero.
Qed.

(** Eliminating one column of a Cauchy square leaves a Cauchy square. *)
Lemma cauchy_schur ur uc vc vk xr yc xk yk :
  uc ≠ 0%gf → vk ≠ 0%gf →
  (xr + yc)%gf ≠ 0%gf → (xr + yk)%gf ≠ 0%gf → (xk + yc)%gf ≠ 0%gf → (xk + yk)%gf ≠ 0%gf →
  (ur * vc * gf_inv (xr + yc) +
   ur * vk * gf_inv (xr + yk) * (gf_inv (uc * vk * gf_inv (xk + yk)) * (uc * vc * gf_inv (xk + yc))))%gf =
  ((ur * (xr + xk) * gf_inv (xr + yk)) * (vc * (yc + yk) * gf_inv (xk + yc)) * gf_inv (xr + yc))%gf.
Proof. intros. field. split_and!; done || by apply gf_inv_nonzero. Qed.

Lemma gj_step_inv col m s : gj_inv col m s → (col < count)%nat →
  ∃ m' s', reduce_column b count col m s = Some (m', s') ∧ gj_inv (S col) m' s'.
Proof.
  intros [Hm Hs Hsol (u & v & Huv & Hcau) Hsys] Hcol.
  assert (entry m col col ≠ 0%gf) as Hpiv.
  { rewrite Hcau by lia. destruct (Huv col) as [? ?]; [lia|].
    apply gf_mul_nonzero; [by apply gf_mul_nonzero|]. apply gf_inv_nonzero. auto. }
  destruct (gj_step_entries b count col w m s Hm Hs count_small Hcol Hpiv)
    as (m' & s' & Hstep & Hm' & Hs' & Hme & Hse).
  exists m', s'. split; [done|]. split; [done|done|..].
  - intros r c Hr Hc Hc'. rewrite Hme by lia. destruct (decide (c = col)) as [->|Hne].
    + case_decide as E; [field; done|]. field. done.
    + rewrite (Hsol col c) by lia. rewrite (decide_False (P := col = c)) by lia.
      rewrite (Hsol r c) by lia. destruct (decide (r = col)) as [->|].
      * rewrite decide_False by lia. ring.
      * case_decide; ring.
  - exists (λ r, u r * (x r + x col) * gf_inv (x r + y col))%gf,
           (λ c, v c * (y c + y col) * gf_inv (x col + y c))%gf. split.
    + intros r Hr. destruct (Huv r) as [? ?]; [lia|]. split.
      * apply gf_mul_nonzero; [apply gf_mul_nonzero|apply gf_inv_nonzero]; auto with lia.
      * apply gf_mul_nonzero; [apply gf_mul_nonzero|apply gf_inv_nonzero]; auto with lia.
    + intros r c Hr Hc. rewrite Hme by lia. rewrite decide_False by lia. rewrite !Hcau by lia.
      destruct (Huv col) as [? ?]; [lia|]. apply cauchy_schur; auto with lia.
  - intros r i Hr Hi. rewrite Hse by lia.
    set (k := gf_inv (entry m col col)).
    assert (gsum (seq 0 count) (λ c, (k * entry m col c * X c i)%gf) = (k * entry s col i)%gf) as Hrow.
    { rewrite <- Hsys by lia. rewrite <- gsum_scale. apply gsum_ext. intros. ring. }
    destruct (decide (r = col)) as [->|Hne].
    + rewrite <- Hrow. apply gsum_ext. intros c Hc. apply elem_of_seq in Hc.
      rewrite Hme by lia. by rewrite decide_True.
    + rewrite <- Hrow, <- Hsys, <- gsum_scale, <- gsum_add by lia. apply gsum_ext.
      intros c Hc. apply elem_of_seq in Hc. rewrite Hme by lia. rewrite decide_False by done.
      fold k. ring.
Qed.

Lemma gj_columns_inv n col m s : gj_inv col m s → (col + n = count)%nat →
  ∃ m' s', reduce_columns n b count col m s = Some (m', s') ∧ gj_inv count m' s'.
Proof.
  revert col m s. induction n as [|n IH]; intros col m s Hinv Hn.
  { exists m, s. rewrite Nat.add_0_r in Hn. by subst. }
  destruct (gj_step_inv col m s Hinv) as (m' & s' & Hstep & Hinv'); [lia|].
  destruct (IH (S col) m' s' Hinv') as (m2 & s2 & Hcols & Hinv2); [lia|].
  exists m2, s2. split; [|done]. simpl. by rewrite Hstep.
Qed.

(** After the last column the syndrome is the solution. *)
Lemma gj_solution m s r i : gj_inv count m s → (r < count)%nat → (i < w)%nat → entry s r i = X r i.
Proof.
  intros [_ _ Hsol _ Hsys] Hr Hi. rewrite <- Hsys by done.
  rewrite (gsum_single _ _ r).
  - rewrite Hsol by lia. rewrite decide_True by done. ring.
  - apply NoDup_seq.
  - apply elem_of_seq. lia.
  - intros c Hc Hne. apply elem_of_seq in Hc. rewrite Hsol by lia. rewrite decide_False by done. ring.
Qed.
End Elimination.

(** ** A block that holds some of the symbols of a list of packets *)

Definition packet_ok (p : list Z) : Prop := bytes_ok p ∧ p ≠ [] ∧ blen p ≤ 65535.

Record block_holds (blk : Block) (ps : list (list Z)) : Prop := {
  bh_count : data_count blk = length ps;
  bh_limit : (1 ≤ length ps ≤ 64)%nat;
  bh_packets : Forall packet_ok ps;
  bh_data_length : length (b_data blk) = length ps;
  bh_data : ∀ i, (i < length ps)%nat →
    b_data blk !!! i = [] ∨ b_data blk !!! i = symbol_of (ps !!! i);
  bh_rows : (b_parity_count blk ≤ 16)%nat;
  bh_parity_length : length (b_parity blk) = b_parity_count blk;
  bh_parity : ∀ row, (row < b_parity_count blk)%nat →
    b_parity blk !!! row = [] ∨ b_parity blk !!! row = parity_row ps row;
}.

Lemma packet_at ps i : Forall packet_ok ps → (i < length ps)%nat → packet_ok (ps !!! i).
Proof.
  intros Hp Hi. destruct (lookup_lt_is_Some_2 ps i Hi) as [p E].
  rewrite (list_lookup_total_correct _ _ _ E). by apply (Forall_lookup_1 _ _ _ _ Hp E).
Qed.

Lemma indices_where_elem f (slots : list (list Z)) i :
  i ∈ indices_where f slots ↔ f (slots !!! i) = true ∧ (i < length slots)%nat.
Proof. unfold indices_where. rewrite list_elem_of_filter, elem_of_seq. naive_solver lia. Qed.

Lemma indices_where_nodup f (slots : list (list Z)) : NoDup (indices_where f slots).
Proof. apply NoDup_filter, NoDup_seq. Qed.

Lemma indices_where_length f (slots : list (list Z)) : (length (indices_where f slots) ≤ length slots)%nat.
Proof. unfold indices_where. etransitivity; [apply length_filter|]. by rewrite length_seq. Qed.

Lemma missing_elem blk ps i : block_holds blk ps →
  i ∈ missing_of blk ↔ (i < length ps)%nat ∧ b_data blk !!! i = [].
Proof.
  intros H. unfold missing_of. rewrite (bh_count _ _ H), take_ge by (rewrite (bh_data_length _ _ H); lia).
  rewrite indices_where_elem, (bh_data_length _ _ H). destruct (b_data blk !!! i); naive_solver.
Qed.

Lemma rows_elem blk ps row : block_holds blk ps →
  row ∈ rows_of blk → (row < b_parity_count blk)%nat ∧ b_parity blk !!! row = parity_row ps row.
Proof.
  intros H. unfold rows_of. rewrite take_ge by (rewrite (bh_parity_length _ _ H); lia).
  rewrite indices_where_elem, (bh_parity_length _ _ H). intros [Hne Hlt]. split; [done|].
  destruct (bh_parity _ _ H row Hlt) as [E|E]; [by rewrite E in Hne|done].
Qed.

Lemma missing_nodup blk : NoDup (missing_of blk).
Proof. apply indices_where_nodup. Qed.

Lemma rows_nodup blk : NoDup (rows_of blk).
Proof. apply indices_where_nodup. Qed.

Lemma width_at_least ps i : (i < length ps)%nat → (2 + length (ps !!! i) ≤ width_of ps)%nat.
Proof.
  revert i. induction ps as [|p ps IH]; intros i Hi; [simpl in *; lia|].
  destruct i as [|i]; simpl in *; [lia|]. specialize (IH i). unfold lookup_total in *. simpl in *. lia.
Qed.

(** Byte [i] of the symbol of packet [j], zero beyond its end. *)
Definition symbol_byte (ps : list (list Z)) (j i : nat) : gf :=
  gf_of (default 0 (symbol_of (ps !!! j) !! i)).

Definition coefficient (row j : nat) : gf := gf_of (cauchy row j).

Lemma parity_byte_gf ps row col i : Forall packet_ok ps →
  gf_of (parity_byte row col ps i) =
  gsum (seq 0 (length ps)) (λ j, (coefficient row (col + j) * symbol_byte ps j i)%gf) ∧
  is_u8 (parity_byte row col ps i).
Proof.
  intros Hps. revert col. induction Hps as [|p ps Hp Hps IH]; intros col; [done|].
  destruct (IH (S col)) as [E Hb]. destruct Hp as [Hpb _].
  assert (is_u8 (default 0 (symbol_of p !! i))) as Hsb.
  { destruct (symbol_of p !! i) as [z|] eqn:Ez; [|done]. by apply (Forall_lookup_1 _ _ _ _ (symbol_bytes p Hpb) Ez). }
  assert (is_u8 (multiply (cauchy row col) (default 0 (symbol_of p !! i)))) by auto with norr.
  split; [|simpl; auto with norr].
  cbn [length seq gsum parity_byte]. rewrite Nat.add_0_r. apply gf_eq.
  rewrite gv_add, gv_of by auto with norr. f_equal.
  - rewrite gv_mul. unfold coefficient, symbol_byte.
    change ((p :: ps) !!! 0%nat) with p. by rewrite !gv_of by auto with norr.
  - rewrite <- (gv_of (parity_byte row (S col) ps i)), E by done. f_equal.
    rewrite <- seq_shift, gsum_map. apply gsum_ext. intros j _. cbn [symbol_byte].
    by rewrite <- plus_n_Sm.
Qed.

(** The syndrome loop subtracts the symbols that arrived. *)
Lemma syndrome_loop_gf b blk ps row n index acc : block_holds blk ps →
  (index + n = length ps)%nat → length acc = width_of ps → bytes_ok acc →
  let out := subtract_known n b row index (b_data blk) acc in
  length out = width_of ps ∧ bytes_ok out ∧
  ∀ i, (i < width_of ps)%nat →
    gf_of (out !!! i) =
    (gf_of (acc !!! i) +
     gsum (filter (λ j, is_empty (b_data blk !!! j) = false) (seq index n))
          (λ j, (coefficient row j * symbol_byte ps j i)%gf))%gf.
Proof.
  intros Hbh. revert index acc. induction n as [|n IH]; intros index acc Hn Hl Hb.
  { split_and!; [done..|]. intros i Hi. simpl. ring. }
  cbn [subtract_known seq]. rewrite filter_cons.
  destruct (bh_data _ _ Hbh index) as [E|E]; [lia| |]; rewrite E.
  { cbn [is_empty]. rewrite decide_False by done. apply IH; [lia|done..]. }
  replace (is_empty (symbol_of (ps !!! index))) with false by done.
  rewrite decide_True by done.
  destruct (packet_at ps index) as [Hpb _]; [by apply Hbh|lia|].
  rewrite multiply_add_spec by auto with norr.
  set (acc' := xor_map (multiply (cauchy row index)) acc (symbol_of (ps !!! index))).
  assert (bytes_ok acc') as Hb' by (apply xor_map_bytes; auto with norr).
  assert (length acc' = width_of ps) as Hl' by (unfold acc'; by rewrite length_xor_map).
  destruct (IH (S index) acc') as (Hlo & Hbo & Hout); [lia|done..|].
  split_and!; [done..|]. intros i Hi. rewrite Hout by done. cbn [gsum].
  assert (is_u8 (default 0 (symbol_of (ps !!! index) !! i))) as Hsb.
  { destruct (symbol_of (ps !!! index) !! i) as [z|] eqn:Ez; [|done].
    by apply (Forall_lookup_1 _ _ _ _ (symbol_bytes _ Hpb) Ez). }
  assert (is_u8 (acc !!! i)) as Hai.
  { destruct (lookup_lt_is_Some_2 acc i) as [z Hz]; [lia|].
    rewrite (list_lookup_total_correct _ _ _ Hz). by apply (Forall_lookup_1 _ _ _ _ Hb Hz). }
  assert (gf_of (acc' !!! i) = (gf_of (acc !!! i) + coefficient row index * symbol_byte ps index i)%gf) as ->.
  { unfold acc'. rewrite lookup_xor_map by (apply multiply_0_r || lia). apply gf_eq.
    unfold coefficient, symbol_byte. rewrite gv_add, gv_mul, !gv_of by auto with norr. done. }
  ring.
Qed.

Lemma lookup_total_map {A B} `{Inhabited A} `{Inhabited B} (f : A → B) l i : (i < length l)%nat →
  map f l !!! i = f (l !!! i).
Proof.
  intros Hi. destruct (lookup_lt_is_Some_2 l i Hi) as [x Hx].
  rewrite (list_lookup_total_correct _ _ _ Hx). apply list_lookup_total_correct.
  by rewrite list_lookup_fmap, Hx.
Qed.

Lemma lookup_total_elem {A} `{Inhabited A} (l : list A) i : (i < length l)%nat → l !!! i ∈ l.
Proof.
  intros Hi. destruct (lookup_lt_is_Some_2 l i Hi) as [x Hx].
  rewrite (list_lookup_total_correct _ _ _ Hx). by apply list_elem_of_lookup_2 in Hx.
Qed.

Lemma nodup_lookup_ne (l : list nat) i j : NoDup l → (i < length l)%nat → (j < length l)%nat →
  i ≠ j → l !!! i ≠ l !!! j.
Proof.
  intros Hnd Hi Hj Hne E. destruct (lookup_lt_is_Some_2 l i Hi) as [x Hx].
  destruct (lookup_lt_is_Some_2 l j Hj) as [y Hy].
  rewrite (list_lookup_total_correct _ _ _ Hx), (list_lookup_total_correct _ _ _ Hy) in E. subst.
  by eapply NoDup_lookup in Hx; [|done|exact Hy].
Qed.

Lemma gf_of_apart a b : is_u8 a → is_u8 b → a ≠ b → (gf_of a + gf_of b)%gf ≠ 0%gf.
Proof.
  intros Ha Hb Hne E. apply Hne. apply Z.lxor_eq.
  apply (f_equal gv) in E. by rewrite gv_add, !gv_of in E.
Qed.

Lemma coefficient_inverse row j : (row < 16)%nat → (j < 64)%nat →
  coefficient row j = gf_inv (gf_of (64 + Z.of_nat row) + gf_of (Z.of_nat j)).
Proof.
  intros Hr Hj. unfold coefficient, cauchy, kMaximumFecData.
  rewrite !(u8_id (_ + _)), !(u8_id (Z.of_nat j)) by word_lia.
  assert (is_u8 (Z.lxor (64 + Z.of_nat row) (Z.of_nat j))) by (apply lxor_byte; word_lia).
  rewrite u8_id by done. apply gf_eq. rewrite gv_inv, gv_add, !gv_of by (auto with norr || word_lia). done.
Qed.

Section Solve.
Context (b : Backend) (blk : Block) (ps : list (list Z)).
Hypothesis holds : block_holds blk ps.
Let missing := missing_of blk.
Let count := length missing.
Let rows := take count (rows_of blk).
Hypothesis enough : (count ≤ length (rows_of blk))%nat.

Lemma rows_length : length rows = count.
Proof. unfold rows. rewrite length_take. lia. Qed.

Lemma count_limit : (count ≤ 16)%nat.
Proof.
  pose proof (bh_rows _ _ holds). pose proof (bh_parity_length _ _ holds).
  unfold rows_of in enough.
  pose proof (indices_where_length (λ v, negb (is_empty v)) (take (b_parity_count blk) (b_parity blk))) as Hl.
  rewrite length_take in Hl. lia.
Qed.

Lemma row_at r : (r < count)%nat →
  (rows !!! r < 16)%nat ∧ b_parity blk !!! (rows !!! r) = parity_row ps (rows !!! r).
Proof.
  intros Hr. assert (rows !!! r ∈ rows_of blk) as Hin.
  { apply (subseteq_take count). unfold rows. apply lookup_total_elem. rewrite length_take. lia. }
  apply (rows_elem _ ps _ holds) in Hin as [? ?]. pose proof (bh_rows _ _ holds). split; [lia|done].
Qed.

Lemma missing_at c : (c < count)%nat →
  (missing !!! c < length ps)%nat ∧ (missing !!! c < 64)%nat.
Proof.
  intros Hc. assert (missing !!! c ∈ missing_of blk) as Hin by (by apply lookup_total_elem).
  apply (missing_elem _ ps _ holds) in Hin as [? _]. pose proof (bh_limit _ _ holds). lia.
Qed.

Lemma rows_distinct r s : (r < count)%nat → (s < count)%nat → r ≠ s → rows !!! r ≠ rows !!! s.
Proof.
  intros. apply nodup_lookup_ne; [|rewrite rows_length; lia..|done].
  eapply NoDup_app with (k := drop count (rows_of blk)). unfold rows. rewrite take_drop. apply rows_nodup.
Qed.

Lemma initial_matrix_inv :
  table count 16 (initial_matrix rows missing) ∧
  ∀ r c, (r < count)%nat → (c < count)%nat →
    entry (initial_matrix rows missing) r c = coefficient (rows !!! r) (missing !!! c).
Proof.
  pose proof count_limit. split.
  - split; [unfold initial_matrix; by rewrite length_map, rows_length|].
    apply Forall_fmap, Forall_true. intros row. cbn. rewrite length_app, length_map, length_replicate.
    split; [fold count; unfold kMaximumFecParity; lia|]. apply bytes_ok_app. split.
    + apply Forall_fmap, Forall_true. intros j. apply cauchy_byte.
    + apply Forall_replicate. done.
  - intros r c Hr Hc. unfold entry, initial_matrix. rewrite lookup_total_map by (rewrite rows_length; lia).
    rewrite lookup_total_app_l by (rewrite length_map; done). by rewrite lookup_total_map.
Qed.

Lemma initial_syndrome_inv :
  table count (width_of ps) (initial_syndrome b blk rows) ∧
  ∀ r i, (r < count)%nat → (i < width_of ps)%nat →
    entry (initial_syndrome b blk rows) r i =
    gsum missing (λ j, (coefficient (rows !!! r) j * symbol_byte ps j i)%gf).
Proof.
  assert (∀ r, (r < count)%nat →
    let out := subtract_known (data_count blk) b (rows !!! r) 0 (b_data blk) (b_parity blk !!! (rows !!! r)) in
    initial_syndrome b blk rows !!! r = out ∧ length out = width_of ps ∧ bytes_ok out ∧
    ∀ i, (i < width_of ps)%nat → gf_of (out !!! i) =
      gsum missing (λ j, (coefficient (rows !!! r) j * symbol_byte ps j i)%gf)) as H.
  { intros r Hr out. destruct (row_at r Hr) as [Hr16 Hpar]. split.
    { unfold initial_syndrome. by rewrite lookup_total_map by (rewrite rows_length; lia). }
    assert (Forall bytes_ok ps) as Hpb.
    { eapply Forall_impl; [apply (bh_packets _ _ holds)|]. by intros p [? _]. }
    destruct (syndrome_loop_gf b blk ps (rows !!! r) (data_count blk) 0 (b_parity blk !!! (rows !!! r)))
      as (Hl & Hb & Hg); [done|by rewrite (bh_count _ _ holds)| | |].
    { rewrite Hpar. apply length_parity_row. }
    { rewrite Hpar. by apply parity_row_bytes. }
    split_and!; [done..|]. intros i Hi. unfold out. rewrite Hg, Hpar by done.
    unfold parity_row. rewrite lookup_total_map by (by rewrite length_seq).
    rewrite lookup_total_seq_lt by done. simpl.
    rewrite (proj1 (parity_byte_gf ps (rows !!! r) 0 i (bh_packets _ _ holds))).
    rewrite (bh_count _ _ holds). simpl.
    rewrite (gsum_split (seq 0 (length ps)) _ (λ j, is_empty (b_data blk !!! j))).
    unfold missing, missing_of, indices_where.
    rewrite (bh_count _ _ holds), take_ge by (rewrite (bh_data_length _ _ holds); lia).
    rewrite (bh_data_length _ _ holds). ring. }
  split.
  - split; [unfold initial_syndrome; by rewrite length_map, rows_length|].
    apply Forall_lookup_2. intros r row Hrow. pose proof (lookup_lt_Some _ _ _ Hrow) as Hr.
    unfold initial_syndrome in Hr. rewrite length_map, rows_length in Hr.
    destruct (H r Hr) as (E & Hl & Hb & _). apply list_lookup_total_correct in Hrow.
    rewrite Hrow in E. rewrite E. split; [exact Hl|exact Hb].
  - intros r i Hr Hi. destruct (H r Hr) as (E & _ & _ & Hg). unfold entry. rewrite E. by apply Hg.
Qed.

(** The elimination runs through and yields the symbols of the lost packets,
    padded to the width of the block. *)
Lemma solve_columns : ∃ m s,
  reduce_columns count b count 0 (initial_matrix rows missing) (initial_syndrome b blk rows) = Some (m, s) ∧
  table count (width_of ps) s ∧
  ∀ r i, (r < count)%nat → (i < width_of ps)%nat → entry s r i = symbol_byte ps (missing !!! r) i.
Proof.
  pose proof count_limit as Hcount.
  destruct initial_matrix_inv as [HM HMe]. destruct initial_syndrome_inv as [HS HSe].
  set (x := λ r, gf_of (64 + Z.of_nat (rows !!! r))).
  set (y := λ c, gf_of (Z.of_nat (missing !!! c))).
  set (X := λ c i, symbol_byte ps (missing !!! c) i).
  assert (∀ r s, (r < count)%nat → (s < count)%nat → r ≠ s → (x r + x s)%gf ≠ 0%gf) as Hx.
  { intros r s Hr Hs Hne. destruct (row_at r Hr), (row_at s Hs). pose proof (rows_distinct r s Hr Hs Hne).
    apply gf_of_apart; word_lia. }
  assert (∀ c d, (c < count)%nat → (d < count)%nat → c ≠ d → (y c + y d)%gf ≠ 0%gf) as Hy.
  { intros c d Hc Hd Hne. destruct (missing_at c Hc), (missing_at d Hd).
    pose proof (nodup_lookup_ne missing c d (missing_nodup blk) Hc Hd Hne). apply gf_of_apart; word_lia. }
  assert (∀ r c, (r < count)%nat → (c < count)%nat → (x r + y c)%gf ≠ 0%gf) as Hxy.
  { intros r c Hr Hc. destruct (row_at r Hr), (missing_at c Hc). apply gf_of_apart; word_lia. }
  destruct (gj_columns_inv b count (width_of ps) x y X Hcount Hx Hy Hxy count 0
    (initial_matrix rows missing) (initial_syndrome b blk rows)) as (m & s & Hrun & Hinv); [|lia|].
  { split; [done|done|lia| |].
    - exists (λ _, 1%gf), (λ _, 1%gf). split; [done|]. intros r c Hr Hc. rewrite HMe by lia.
      destruct (row_at r), (missing_at c); [lia..|]. rewrite coefficient_inverse by lia.
      unfold x, y. ring.
    - intros r i Hr Hi. rewrite HSe by done. rewrite (gsum_indexed missing). apply gsum_ext.
      intros c Hc. apply elem_of_seq in Hc. by rewrite HMe by lia. }
  exists m, s. split; [done|]. split; [apply Hinv|]. intros r i Hr Hi.
  by apply (gj_solution count (width_of ps) x y X Hcount m s r i Hinv).
Qed.

Lemma width_positive : missing ≠ [] → (0 < width_of ps)%nat.
Proof.
  intros _. pose proof (bh_limit _ _ holds). pose proof (width_at_least ps 0). lia.
Qed.

Lemma data_fits : forallb (λ symbol, Nat.leb (length symbol) (width_of ps)) (b_data blk) = true.
Proof.
  apply forallb_forall. intros sym Hin. apply Nat.leb_le. apply list_elem_of_In, list_elem_of_lookup in Hin.
  destruct Hin as [i Hi]. pose proof (lookup_lt_Some _ _ _ Hi) as Hlt.
  rewrite (bh_data_length _ _ holds) in Hlt. apply list_lookup_total_correct in Hi.
  destruct (bh_data _ _ holds i Hlt) as [E|E]; rewrite <- Hi, E; [simpl; lia|].
  rewrite length_symbol. by apply width_at_least.
Qed.

Lemma rows_fit : missing ≠ [] →
  length (b_parity blk !!! (rows !!! 0%nat)) = width_of ps ∧
  forallb (λ row, Nat.eqb (length (b_parity blk !!! row)) (width_of ps)) rows = true.
Proof.
  intros Hne. assert (0 < count)%nat as Hc by (unfold count; destruct missing; [done|simpl; lia]).
  split; [destruct (row_at 0 Hc) as [_ ->]; apply length_parity_row|].
  apply forallb_forall. intros row Hin. apply Nat.eqb_eq. apply list_elem_of_In, list_elem_of_lookup in Hin.
  destruct Hin as [r Hr]. pose proof (lookup_lt_Some _ _ _ Hr) as Hlt. rewrite rows_length in Hlt.
  apply list_lookup_total_correct in Hr. destruct (row_at r Hlt) as [_ E]. rewrite Hr in E. rewrite E.
  apply length_parity_row.
Qed.

(** The row of a solved table is the padded symbol. *)
Lemma solved_row s r : table count (width_of ps) s → (r < count)%nat →
  (∀ i, (i < width_of ps)%nat → entry s r i = symbol_byte ps (missing !!! r) i) →
  s !!! r = resize (symbol_of (ps !!! (missing !!! r))) (width_of ps).
Proof.
  intros Hs Hr He. destruct (table_row _ _ _ r Hs Hr) as (_ & Hl & Hb).
  destruct (missing_at r Hr) as [Hm _]. pose proof (width_at_least ps _ Hm) as Hw.
  destruct (packet_at ps _ (bh_packets _ _ holds) Hm) as [Hpb _].
  set (sym := symbol_of (ps !!! (missing !!! r))) in *.
  assert (length sym ≤ width_of ps)%nat as Hsl by (unfold sym; rewrite length_symbol; lia).
  apply (list_eq_same_length _ _ (width_of ps)); [|done|].
  { unfold resize. rewrite length_app, length_take, length_replicate. lia. }
  intros i u v Hi Hu Hv. specialize (He i Hi). unfold entry, symbol_byte in He. fold sym in He.
  rewrite (list_lookup_total_correct _ _ _ Hu) in He. apply (f_equal gv) in He.
  assert (default 0 (sym !! i) = v) as Hd.
  { unfold resize in Hv. rewrite take_ge in Hv by done. apply lookup_app_Some in Hv as [Hv|[Hge Hv]].
    - by rewrite Hv.
    - apply lookup_replicate in Hv as [-> _]. by rewrite lookup_ge_None_2. }
  rewrite Hd, !gv_of in He; [done| |].
  - rewrite <- Hd. destruct (sym !! i) as [z|] eqn:Ez; [|done].
    by apply (Forall_lookup_1 _ _ _ _ (symbol_bytes _ Hpb) Ez).
  - by apply (Forall_lookup_1 _ _ _ _ Hb Hu).
Qed.

Lemma solution_spec : missing ≠ [] →
  solution b blk =
  Some (map (λ j, resize (symbol_of (ps !!! j)) (width_of ps)) missing).
Proof.
  intros Hne. unfold solution. fold missing count. rewrite decide_False; last first.
  { intros [E|E]; [done|lia]. }
  fold rows. destruct (rows_fit Hne) as [Hw Hrf]. rewrite Hw, Hrf, data_fits.
  rewrite (proj2 (Z.leb_le _ _)) by (pose proof count_limit; unfold kMaximumFecParity; lia).
  cbn [andb]. destruct solve_columns as (m & s & Hrun & Hs & He). rewrite Hrun. simpl. f_equal.
  apply list_eq. intros r. destruct (decide (r < count)%nat) as [Hr|Hr].
  - destruct (table_row _ _ _ r Hs Hr) as (-> & _ & _). rewrite list_lookup_fmap.
    destruct (lookup_lt_is_Some_2 missing r Hr) as [j Hj]. rewrite Hj. simpl. f_equal.
    rewrite (solved_row s r Hs Hr) by auto. by rewrite (list_lookup_total_correct _ _ _ Hj).
  - destruct Hs as [Hs _]. rewrite !lookup_ge_None_2; [done|rewrite length_map; unfold count in Hr; lia|lia].
Qed.
End Solve.

Lemma inner_packet_symbol p w : packet_ok p → (2 + length p ≤ w)%nat →
  inner_packet (resize (symbol_of p) w) = packet p.
Proof.
  intros (Hb & Hne & Hl) Hw. unfold resize. rewrite take_ge by (rewrite length_symbol; lia).
  unfold symbol_of. rewrite !land_255. cbn [app]. unfold inner_packet.
  assert (is_u16 (blen p)) as Hu by (pose proof (blen_nonneg p); word_lia).
  pose proof (u8_range (Z.shiftr (blen p) 8)). pose proof (u8_range (blen p)).
  assert (Z.lor (Z.shiftl (u8 (Z.shiftr (blen p) 8)) 8) (u8 (blen p)) = blen p) as ->.
  { rewrite lor_shiftl_add by word_lia. rewrite shiftr_div by lia. unfold_words. change (2 ^ 8) with 256 in *. Z.to_euclidean_division_equations. lia. }
  assert (0 < blen p) as Hpos by (unfold blen; destruct p; [done|simpl; lia]).
  rewrite (proj2 (Z.eqb_neq _ _)) by lia. rewrite (proj2 (Z.ltb_ge _ _)).
  - simpl. unfold blen. by rewrite Nat2Z.id, take_app_length.
  - unfold blen, kFecLengthPrefix. rewrite !length_cons, length_app. lia.
Qed.

(** What [recovery] returns on such a block: the lost packets, in the
    order of their columns, as soon as the parity rows reach their number,
    and nothing before. *)
Lemma recovery_spec b d blk ps : block_holds blk ps → missing_of blk ≠ [] →
  if decide (length (missing_of blk) ≤ length (rows_of blk))%nat
  then ∃ d', recovery b d blk = (finish d' (b_id blk), map (λ j, ps !!! j) (missing_of blk))
       ∧ blocks_ d' = blocks_ d ∧ finished_ d' = finished_ d
  else recovery b d blk = (d, []).
Proof.
  intros H Hne. unfold recovery. case_decide as Hen.
  - rewrite (solution_spec b blk ps H Hen Hne).
    eexists (mkDecoder _ _ _). cbn [blocks_ finished_]. split_and!; [|reflexivity..]. f_equal. unfold packets_of.
    assert (∀ l, (∀ j, j ∈ l → (j < length ps)%nat) →
      omap (λ s, match inner_packet s with packet p => Some p | _ => None end)
        (map (λ j, resize (symbol_of (ps !!! j)) (width_of ps)) l) = map (λ j, ps !!! j) l) as Hl.
    { induction l as [|j l IH]; intros Hin; [done|]. simpl.
      assert (j < length ps)%nat as Hj by (apply Hin; left).
      rewrite inner_packet_symbol by (first [by apply packet_at, Hj; apply H | by apply width_at_least]).
      f_equal. apply IH. intros k Hk. apply Hin. by right. }
    apply Hl. intros j Hj. by apply (missing_elem _ ps _ H) in Hj as [? _].
  - unfold solution. by rewrite decide_True by (right; lia).
Qed.
