(* ===== verification/FecEmission.v ===== *)
(** What the erasure encoder emits: every vector [add] and [flush] return is
    a parity header followed by a row of Cauchy parity over exactly the
    packets of one block, whatever the reused output vectors held before. *)

From S2P Require Import Prelude Packet Double Gf256 Fec FecEncoder.

(** ** One emitted symbol *)

Definition parity_header (plan : FecPlan) (id : Z) (ps : list (list Z)) (row : nat) : FecSymbolHeader :=
  mkSymbol id (Z.of_nat row) (Z.of_nat (length ps)) (plan_parity plan) true
           (u16 (Z.of_nat (width_of ps))).

(** The bytes on the wire of parity row [row] of the block [ps]. *)
Definition parity_symbol (plan : FecPlan) (id : Z) (ps : list (list Z)) (row : nat) : list Z :=
  fec_header_bytes (parity_header plan id ps row) ++ parity_row ps row.

Definition block_parity (plan : FecPlan) (id : Z) (ps : list (list Z)) (rows : nat) : list (list Z) :=
  map (parity_symbol plan id ps) (seq 0 rows).

Lemma length_fec_header h : length (fec_header_bytes h) = 11%nat.
Proof. done. Qed.

Section Emit.
Context (plan : FecPlan) (parity_rows : nat) (lane : Lane) (ps : list (list Z)).
Context (limits : plan_in_limits plan) (rows_of_plan : parity_rows = Z.to_nat (plan_parity plan))
        (holds : lane_holds parity_rows lane ps) (fits : Z.of_nat (length ps) ≤ 64).

Lemma emit_header_spec row : (row < parity_rows)%nat →
  emit_header plan lane row = parity_header plan (lane_block lane) ps row.
Proof.
  intros Hr. unfold emit_header, parity_header. rewrite (lh_index _ _ _ holds), (lh_width _ _ _ holds).
  destruct limits as (_ & Hp & _). unfold kMaximumFecParity in *.
  f_equal; apply u8_id; word_lia.
Qed.

Lemma emit_symbol_spec row stale : (row < parity_rows)%nat →
  emit_symbol plan lane row stale = Ok (parity_symbol plan (lane_block lane) ps row).
Proof.
  intros Hr. unfold emit_symbol. rewrite emit_header_spec by done.
  rewrite (lh_width _ _ _ holds), (lh_parity _ _ _ holds).
  rewrite serialize_fec_header_spec by (unfold blen, kFecHeaderSize; rewrite length_resize; lia).
  cbn [rbind fst]. rewrite list_lookup_fmap, lookup_seq_lt by done. cbn [fmap option_fmap option_map Nat.add].
  rewrite blit_ok by (rewrite length_app, length_fec_header, length_drop, length_resize, length_parity_row; lia).
  f_equal. unfold parity_symbol. rewrite (take_app_length' _ _ 11%nat) by done. f_equal.
  rewrite length_parity_row, drop_ge; [by rewrite app_nil_r|].
  rewrite length_app, length_fec_header, length_drop, length_resize. lia.
Qed.

Lemma emit_rows_spec n row output count : (row + n ≤ parity_rows)%nat → (count + n ≤ length output)%nat →
  ∃ output', emit_rows n row plan lane output count = Ok (output', count + n)%nat ∧
    take (count + n) output' =
      take count output ++ map (parity_symbol plan (lane_block lane) ps) (seq row n) ∧
    length output' = length output.
Proof.
  revert row output count. induction n as [|n IH]; intros row output count Hr Hc.
  { exists output. simpl. by rewrite Nat.add_0_r, app_nil_r. }
  simpl. destruct (lookup_lt_is_Some_2 output count) as [stale ->]; [lia|].
  rewrite emit_symbol_spec by lia. cbn [rbind].
  set (out1 := <[count := _]> output).
  destruct (IH (S row) out1 (S count)) as (output' & Hrun & Htake & Hlen);
    [lia|unfold out1; rewrite length_insert; lia|].
  exists output'. rewrite Hrun. replace (count + S n)%nat with (S count + n)%nat by lia.
  split; [done|]. split; [|by unfold out1 in Hlen; rewrite length_insert in Hlen].
  rewrite Htake. unfold out1.
  rewrite (take_S_r _ _ (parity_symbol plan (lane_block lane) ps row))
    by (rewrite list_lookup_insert_eq; [done|lia]).
  rewrite take_insert_ge by lia. by rewrite <- app_assoc.
Qed.
End Emit.

(** ** The encoder's invariant *)

(** [fill] lists the packets each of the four lanes has taken in since its
    block began. *)
Record lanes_hold (e : FecEncoder) (fill : list (list (list Z))) : Prop := {
  eh_lanes : length (lanes_ e) = 4%nat;
  eh_fill : length fill = 4%nat;
  eh_lane : ∀ i, (i < 4)%nat →
    lane_holds (Z.to_nat (plan_parity (plan_ e))) (lanes_ e !!! i) (fill !!! i);
  eh_output : (output_count_ e ≤ length (output_ e))%nat;
}.

(** A block that reached the plan's size has been emitted, and the cursor
    stays on the lanes in use. *)
Record encoder_holds (e : FecEncoder) (fill : list (list (list Z))) : Prop := {
  eh_core : lanes_hold e fill;
  eh_plan : plan_ e = empty_plan ∨ plan_in_limits (plan_ e);
  eh_room : ∀ i, (i < 4)%nat → fill !!! i = [] ∨ Z.of_nat (length (fill !!! i)) < plan_data (plan_ e);
  eh_cursor : (cursor_ e < Nat.max 1 (Z.to_nat (plan_lanes (plan_ e))))%nat;
}.

Lemma lane_holds_nil rows lane : lane_index lane = 0%nat → lane_width lane = 0%nat →
  lane_parity lane = replicate rows [] → lane_holds rows lane [].
Proof.
  intros Hi Hw Hp. split; [done..|]. rewrite Hp. unfold parity_row. simpl.
  apply list_eq. intros i. rewrite list_lookup_fmap. destruct (decide (i < rows)%nat).
  - by rewrite lookup_seq_lt, lookup_replicate_2 by done.
  - by rewrite !lookup_ge_None_2 by (rewrite ?length_replicate, ?length_seq; lia).
Qed.

Lemma normalize_plan_limits plan : 0 ≤ plan_data plan → 0 ≤ plan_parity plan →
  normalize_plan plan = empty_plan ∨ plan_in_limits (normalize_plan plan).
Proof.
  intros Hd Hp. unfold normalize_plan. destruct (active _) eqn:Ha; [right|by left].
  unfold active in Ha. simpl in Ha. reflect_bools.
  pose proof (clampZ_range (plan_lanes plan) 1 kMaximumFecLanes) as Hl.
  unfold plan_in_limits, kMaximumFecData, kMaximumFecParity, kMaximumFecLanes in *. simpl. lia.
Qed.

Lemma configure_lanes_spec rows lanes next :
  length (configure_lanes rows lanes next).1 = length lanes ∧
  ∀ i, (i < length lanes)%nat → lane_holds rows ((configure_lanes rows lanes next).1 !!! i) [].
Proof.
  revert next. induction lanes as [|lane lanes IH]; intros next; [split; [done|simpl; lia]|].
  simpl. specialize (IH (u32 (next + 1))). destruct (configure_lanes _ _ _) as [l n]. simpl in *.
  destruct IH as [Hlen IH]. split; [lia|]. intros [|i] Hi; [by apply lane_holds_nil|].
  apply IH. lia.
Qed.

(** [configure] starts every lane on an empty block. *)
Lemma configure_holds e plan : length (lanes_ e) = 4%nat → 0 ≤ plan_data plan → 0 ≤ plan_parity plan →
  encoder_holds (configure e plan) (replicate 4 []).
Proof.
  intros Hl Hd Hp. unfold configure.
  pose proof (normalize_plan_limits plan Hd Hp) as Hlim.
  pose proof (configure_lanes_spec (Z.to_nat (plan_parity (normalize_plan plan))) (lanes_ e) (next_block_ e)) as H.
  destruct (configure_lanes _ _ _) as [lanes next]. simpl in H. destruct H as [Hlen Hlanes].
  split; [split|..]; cbn [plan_ lanes_ cursor_ output_count_ output_]; [lia|done| |lia|done| |lia].
  - intros i Hi. rewrite lookup_total_replicate_2 by done. apply Hlanes. lia.
  - intros i Hi. left. by rewrite lookup_total_replicate_2.
Qed.

Lemma map_const {A B} (b : B) (l : list A) : map (λ _, b) l = replicate (length l) b.
Proof. induction l; simpl; congruence. Qed.

(** [emit] appends the parity of the lane's block and starts a new one. *)
Lemma emit_spec e fill at_ rows : lanes_hold e fill → plan_in_limits (plan_ e) → (at_ < 4)%nat →
  Z.of_nat (length (fill !!! at_)) ≤ 64 → (rows ≤ Z.to_nat (plan_parity (plan_ e)))%nat →
  ∃ e', emit e at_ rows = Ok e' ∧
    emitted e' = emitted e ++
      block_parity (plan_ e) (lane_block (lanes_ e !!! at_)) (fill !!! at_) rows ∧
    lanes_hold e' (<[at_ := []]> fill) ∧ plan_ e' = plan_ e ∧ cursor_ e' = cursor_ e ∧
    (∀ i, i ≠ at_ → lanes_ e' !!! i = lanes_ e !!! i).
Proof.
  intros [Hl Hf Hlane Hout] Hlim Hat Hfit Hrows. unfold emit.
  destruct (emit_rows_spec (plan_ e) _ (lanes_ e !!! at_) (fill !!! at_) Hlim eq_refl (Hlane _ Hat) Hfit
    rows 0 (grow_output (output_ e) (output_count_ e + rows)) (output_count_ e)) as (out & Hrun & Htake & Hlen).
  { lia. } { unfold grow_output. rewrite length_app, length_replicate. lia. }
  rewrite Hrun. cbn [rbind fst snd]. eexists. split; [reflexivity|].
  unfold emitted. cbn [output_count_ output_ plan_ lanes_ cursor_].
  split_and!; [|split; cbn [output_count_ output_ plan_ lanes_ cursor_]|done|done|].
  - rewrite Htake. f_equal. unfold grow_output. by rewrite take_app_le.
  - by rewrite length_insert.
  - by rewrite length_insert.
  - intros i Hi. destruct (decide (i = at_)) as [->|Hne].
    + rewrite !list_lookup_total_insert_eq by lia. apply lane_holds_nil; [done..|]. cbn [lane_parity].
      rewrite map_const. f_equal. rewrite (lh_parity _ _ _ (Hlane _ Hat)).
      by rewrite length_map, length_seq.
    + rewrite !list_lookup_total_insert_ne by done. by apply Hlane.
  - rewrite Hlen. unfold grow_output. rewrite length_app, length_replicate. lia.
  - intros i Hne. by rewrite list_lookup_total_insert_ne.
Qed.

Lemma cursor_lt_4 e fill : encoder_holds e fill → plan_in_limits (plan_ e) → (cursor_ e < 4)%nat.
Proof.
  intros H (_ & _ & Hl). pose proof (eh_cursor _ _ H). unfold kMaximumFecLanes in Hl. lia.
Qed.

Lemma next_cursor plan c : plan_in_limits plan →
  ((c + 1) mod Z.to_nat (plan_lanes plan) < Nat.max 1 (Z.to_nat (plan_lanes plan)))%nat.
Proof.
  intros (_ & _ & Hl). pose proof (Nat.mod_upper_bound (c + 1) (Z.to_nat (plan_lanes plan))). lia.
Qed.

Lemma room_insert e (fill : list (list (list Z))) at_ x : length fill = 4%nat → (at_ < 4)%nat →
  (x = [] ∨ Z.of_nat (length x) < plan_data (plan_ e)) →
  (∀ i, (i < 4)%nat → fill !!! i = [] ∨ Z.of_nat (length (fill !!! i)) < plan_data (plan_ e)) →
  ∀ i, (i < 4)%nat → (<[at_ := x]> fill) !!! i = [] ∨
                     Z.of_nat (length ((<[at_ := x]> fill) !!! i)) < plan_data (plan_ e).
Proof.
  intros Hf Hat Hx H i Hi. destruct (decide (i = at_)) as [->|Hne].
  - by rewrite list_lookup_total_insert_eq by lia.
  - rewrite list_lookup_total_insert_ne by done. by apply H.
Qed.

(** The lane at the cursor takes the packet in. *)
Lemma add_lane b e fill p cursor : encoder_holds e fill → plan_in_limits (plan_ e) → bytes_ok p →
  lanes_hold (mkEncoder (plan_ e) (<[cursor_ e := lane_add b (lanes_ e !!! cursor_ e) p]> (lanes_ e))
                cursor (next_block_ e) (output_ e) 0 (stats_ e))
             (<[cursor_ e := fill !!! cursor_ e ++ [p]]> fill).
Proof.
  intros H Hlim Hp. pose proof (cursor_lt_4 _ _ H Hlim) as Hc. destruct (eh_core _ _ H) as [Hl Hf Hlane Hout].
  split; cbn [lanes_ plan_ output_count_ output_]; [by rewrite length_insert..| |lia].
  intros i Hi. destruct (decide (i = cursor_ e)) as [->|Hne].
  - rewrite !list_lookup_total_insert_eq by lia. by apply lane_add_holds; [apply Hlane|].
  - rewrite !list_lookup_total_insert_ne by done. by apply Hlane.
Qed.

Lemma in_limits_active plan : plan_in_limits plan → active plan = true.
Proof. intros (Hd & Hp & _). unfold active. apply andb_true_intro. split; apply Z.ltb_lt; lia. Qed.

(** C34. For every encoder state that [configure], [add] or [flush] leaves
    behind and every packet of at most 65535 bytes, [add] runs without
    touching memory out of bounds; it returns nothing until the packet
    completes its block, and then exactly one symbol per parity row of the
    plan, each the header of that row followed by the Cauchy parity of the
    block's packets, with no byte of the reused output vectors left over. *)
Theorem add_emits_parity b e fill p :
  encoder_holds e fill → plan_in_limits (plan_ e) → bytes_ok p → blen p ≤ 65535 →
  let at_ := cursor_ e in
  let ps := fill !!! at_ ++ [p] in
  let full := bool_decide (Z.of_nat (length ps) = plan_data (plan_ e)) in
  ∃ e', add b e p = Ok e' ∧
    emitted e' = (if full then block_parity (plan_ e) (lane_block (lanes_ e !!! at_)) ps
                                 (Z.to_nat (plan_parity (plan_ e))) else []) ∧
    encoder_holds e' (<[at_ := if full then [] else ps]> fill) ∧ plan_ e' = plan_ e.
Proof.
  intros H Hlim Hp Hlen. cbv zeta. set (ps := fill !!! cursor_ e ++ [p]). pose proof (cursor_lt_4 _ _ H Hlim) as Hc.
  pose proof (add_lane b e fill p ((cursor_ e + 1) mod Z.to_nat (plan_lanes (plan_ e))) H Hlim Hp) as Hadd.
  destruct (eh_core _ _ H) as [Hl Hf Hlane Hout]. pose proof (eh_room _ _ H _ Hc) as Hroom.
  assert (Z.of_nat (length ps) ≤ plan_data (plan_ e) ∧ 1 ≤ Z.of_nat (length ps)) as Hps.
  { unfold ps. rewrite length_app. simpl. destruct Hlim as [Hd _].
    destruct Hroom as [E|?]; [rewrite E; simpl; lia|lia]. }
  unfold add. cbn [plan_ lanes_ cursor_ next_block_ output_ stats_ with_output_count].
  rewrite (in_limits_active _ Hlim). rewrite (proj2 (Z.ltb_ge 65535 (blen p))) by lia. cbn [negb orb].
  destruct (lane_add_holds b _ _ _ p (Hlane _ Hc) Hp) as [Hh Hid]. rewrite (lh_index _ _ _ Hh).
  fold ps in Hadd |- *. destruct (Z.leb_spec (plan_data (plan_ e)) (Z.of_nat (length ps))) as [Hge|Hlt].
  - rewrite bool_decide_eq_true_2 by lia.
    destruct (emit_spec _ _ (cursor_ e) (Z.to_nat (plan_parity (plan_ e))) Hadd Hlim Hc) as (e' & Hrun & Hem & Hh' & Hpl & Hcu & _).
    { rewrite list_lookup_total_insert_eq by lia. destruct Hlim as ([_ Hd] & _). unfold kMaximumFecData in Hd. lia. }
    { done. }
    exists e'. split; [exact Hrun|]. cbn [plan_ lanes_] in Hem.
    rewrite !list_lookup_total_insert_eq in Hem by (rewrite ?length_insert; lia).
    rewrite Hid in Hem.
    split_and!; [exact Hem|split|exact Hpl].
    + by rewrite list_insert_insert_eq in Hh'.
    + rewrite Hpl. by right.
    + rewrite Hpl. apply (room_insert e); [done..|by left|apply H].
    + rewrite Hcu, Hpl. by apply next_cursor.
  - rewrite bool_decide_eq_false_2 by lia. eexists. split; [reflexivity|].
    split_and!; [done|split|done]; [exact Hadd|by right| |by apply next_cursor].
    apply (room_insert e); [done..|by right|apply H].
Qed.
Lemma add_emits_parity_witness :
  let e := new_encoder (mkPlan 1 2 1 fzero) in
  ∃ e', add scalar e [7; 9] = Ok e' ∧
    emitted e' = block_parity (plan_ e) 0 [[7; 9]] 2.
Proof.
  intros e. assert (encoder_holds e (replicate 4 [])) as H by (apply configure_holds; [done|simpl; lia..]).
  destruct (add_emits_parity scalar e (replicate 4 []) [7; 9] H) as (e' & Hrun & Hem & _).
  - unfold plan_in_limits. vm_compute. intuition discriminate.
  - repeat constructor; discriminate.
  - discriminate.
  - exists e'. split; [exact Hrun|exact Hem].
Defined.

(** ** Flushing *)

Section Flush.
Context (pow : f64 → f64 → f64).

Definition lane_flush (plan : FecPlan) (lane : Lane) (ps : list (list Z)) : list (list Z) :=
  if decide (ps = []) then []
  else block_parity plan (lane_block lane) ps (Z.to_nat (flush_rows pow plan lane)).

Lemma flush_rows_range plan lane : plan_in_limits plan → lane_index lane ≠ 0%nat →
  1 ≤ flush_rows pow plan lane ≤ plan_parity plan.
Proof.
  intros (_ & Hp & _) Hi. unfold flush_rows. destruct (flt _ _); [|lia].
  apply parity_needed_range; lia.
Qed.

(** The lanes from [index] on are emptied, those before are left alone. *)
Lemma flush_lanes_spec n index e fill : lanes_hold e fill → plan_in_limits (plan_ e) → (index + n ≤ 4)%nat →
  (∀ i, (i < 4)%nat → Z.of_nat (length (fill !!! i)) ≤ 64) →
  ∃ e' fill', flush_lanes pow n index e = Ok e' ∧
    emitted e' = emitted e ++
      concat (map (λ i, lane_flush (plan_ e) (lanes_ e !!! i) (fill !!! i)) (seq index n)) ∧
    lanes_hold e' fill' ∧ plan_ e' = plan_ e ∧
    (∀ i, (i < 4)%nat → fill' !!! i = if decide (index ≤ i < index + n)%nat then [] else fill !!! i).
Proof.
  revert index e fill. induction n as [|n IH]; intros index e fill H Hlim Hi Hfit.
  { exists e, fill. simpl. rewrite app_nil_r. split_and!; [done..|]. intros i Hi4.
    by rewrite decide_False by lia. }
  cbn [flush_lanes seq map concat]. pose proof (eh_lane _ _ H index ltac:(lia)) as Hlane.
  destruct H as [Hl Hf Hlanes Hout]. case_decide as Hz.
  - destruct (IH (S index) e fill) as (e' & fill' & Hrun & Hem & H' & Hpl & Hfill); [done|done|lia|done|].
    assert (fill !!! index = []) as Hnil by (apply nil_length_inv; rewrite <- (lh_index _ _ _ Hlane); done).
    exists e', fill'. split; [done|]. rewrite Hem. split_and!; [|done..|].
    { unfold lane_flush at 2. by rewrite decide_True. }
    intros i Hi4. rewrite (Hfill i Hi4). destruct (decide (i = index)) as [->|Hne].
    { rewrite Hnil. by repeat case_decide. }
    repeat case_decide; done || lia.
  - destruct (emit_spec e fill index (Z.to_nat (flush_rows pow (plan_ e) (lanes_ e !!! index))))
      as (e1 & Hrun1 & Hem1 & H1 & Hpl1 & _ & Hsame); [done|done|lia|by apply Hfit; lia| |].
    { pose proof (flush_rows_range (plan_ e) _ Hlim Hz). lia. }
    rewrite Hrun1. cbn [rbind].
    destruct (IH (S index) e1 (<[index := []]> fill)) as (e' & fill' & Hrun & Hem & H' & Hpl & Hfill);
      [done|by rewrite Hpl1|lia| |].
    { intros i Hi4. destruct (decide (i = index)) as [->|].
      - rewrite list_lookup_total_insert_eq by lia. simpl. lia.
      - rewrite list_lookup_total_insert_ne by done. by apply Hfit. }
    exists e', fill'. split; [done|]. split_and!; [|done|by rewrite Hpl|].
    + rewrite Hem, Hem1, Hpl1, <- app_assoc. f_equal. f_equal.
      * unfold lane_flush. rewrite decide_False; [done|]. intros E. apply Hz. by rewrite (lh_index _ _ _ Hlane), E.
      * f_equal. apply map_ext_in. intros i Hin%list_elem_of_In%elem_of_seq.
        by rewrite Hsame, list_lookup_total_insert_ne by lia.
    + intros i Hi4. rewrite (Hfill i Hi4). destruct (decide (i = index)) as [->|Hne].
      { rewrite list_lookup_total_insert_eq by lia. by repeat case_decide; try lia. }
      rewrite list_lookup_total_insert_ne by done. repeat case_decide; done || lia.
Qed.

Lemma room_64 e fill : encoder_holds e fill → plan_in_limits (plan_ e) →
  ∀ i, (i < 4)%nat → Z.of_nat (length (fill !!! i)) ≤ 64.
Proof.
  intros H ([_ Hd] & _) i Hi. unfold kMaximumFecData in Hd.
  destruct (eh_room _ _ H i Hi) as [->|?]; [simpl|]; lia.
Qed.

(** [flush] returns, for each lane in use that holds packets, parity
    rows over exactly those packets and no others, leaves every such lane on
    an empty block, and never touches memory out of bounds. *)
Lemma flush_emits_parity e fill : encoder_holds e fill → plan_in_limits (plan_ e) →
  let lanes := Z.to_nat (plan_lanes (plan_ e)) in
  ∃ e' fill', flush pow e = Ok e' ∧
    emitted e' = concat (map (λ i, lane_flush (plan_ e) (lanes_ e !!! i) (fill !!! i)) (seq 0 lanes)) ∧
    encoder_holds e' fill' ∧ ∀ i, (i < lanes)%nat → fill' !!! i = [].
Proof.
  intros H Hlim lanes. assert (lanes ≤ 4)%nat as Hln.
  { unfold lanes. destruct Hlim as (_ & _ & ?). unfold kMaximumFecLanes in *. lia. }
  destruct (eh_core _ _ H) as [Hl Hf Hlane Hout].
  destruct (flush_lanes_spec lanes 0 (with_output_count e 0) fill) as (e' & fill' & Hrun & Hem & H' & Hpl & Hfill).
  { split; cbn; [done..|lia]. } { done. } { lia. } { by eapply room_64. }
  unfold flush. cbn [plan_ with_output_count]. rewrite (in_limits_active _ Hlim). cbn [negb].
  change (Z.to_nat (plan_lanes (plan_ e))) with lanes. rewrite Hrun. cbn [rbind].
  eexists _, fill'. split; [reflexivity|]. split; [exact Hem|]. split.
  - split; cbn [plan_ cursor_]; [split; apply H'|rewrite Hpl; by right| |lia].
    intros i Hi. rewrite Hpl, (Hfill i Hi). case_decide; [by left|]. by apply H.
  - intros i Hi. rewrite Hfill by lia. by rewrite decide_True by lia.
Qed.
End Flush.

