(* ===== verification/FecDelivery.v ===== *)
(** From encoder to decoder: any [k] distinct symbols of a block of [k]
    packets are enough for [FecDecoder::receive] to hand out all of them. *)

From S2P Require Import Prelude Packet Double Gf256 Fec FecEncoder FecDecoder FecReference FecRecovery FecEmission.

(** ** The symbols of one block *)

(** A symbol that belongs to the block of the packets [ps]: a data packet
    under the header [next_header] gives it, where [planned] is the plan's block
    size, or a parity row under the header [emit] gives it, where the block
    may have been flushed at [length ps] packets. *)
Inductive symbol_from (id : Z) (planned rows : nat) (ps : list (list Z))
    : FecSymbolHeader → list Z → Prop :=
| from_data i len : (i < length ps)%nat →
    symbol_from id planned rows ps
      (mkSymbol id (Z.of_nat i) (Z.of_nat planned) (Z.of_nat rows) false len) (ps !!! i)
| from_parity r len : (r < rows)%nat →
    symbol_from id planned rows ps
      (mkSymbol id (Z.of_nat r) (Z.of_nat (length ps)) (Z.of_nat rows) true len) (parity_row ps r).

(** What tells the symbols of a block apart. *)
Definition key (h : FecSymbolHeader) : bool * nat := (parity h, Z.to_nat (sym_index h)).

(** A run of [receive]; the packets come out in the order they are returned. *)
Fixpoint receive_all (b : Backend) (d : FecDecoder)
    (symbols : list (FecSymbolHeader * list Z * Instant)) : res unit (FecDecoder * list (list Z)) :=
  match symbols with
  | [] => Ok (d, [])
  | (h, payload, now) :: symbols =>
      let* first := receive b d h payload now in
      let* rest := receive_all b first.1 symbols in
      Ok (rest.1, first.2 ++ rest.2)
  end.

(** ** Finding a block *)

Lemma find_block_lookup id bs k i : find_block id bs k = Some i →
  (k ≤ i)%nat ∧ ∃ blk, bs !! (i - k)%nat = Some blk ∧ b_id blk = id.
Proof.
  revert k. induction bs as [|blk bs IH]; intros k H; [done|]. simpl in H.
  destruct (Z.eqb_spec (b_id blk) id) as [E|E].
  - injection H as <-. split; [done|]. rewrite Nat.sub_diag. by exists blk.
  - apply IH in H as (Hk & b' & Hl & Hid). split; [lia|]. exists b'.
    by replace (i - k)%nat with (S (i - S k)) by lia.
Qed.

Lemma find_block_insert id bs k i blk : find_block id bs k = Some i → b_id blk = id →
  find_block id (<[(i - k)%nat := blk]> bs) k = Some i.
Proof.
  intros H Hid. revert k H. induction bs as [|b1 bs IH]; intros k H; [done|]. simpl in H.
  destruct (Z.eqb_spec (b_id b1) id) as [E|E].
  - injection H as <-. rewrite Nat.sub_diag. simpl. by rewrite Hid, Z.eqb_refl.
  - destruct (find_block_lookup _ _ _ _ H) as [Hk _].
    replace (i - k)%nat with (S (i - S k)) by lia. simpl.
    destruct (Z.eqb_spec (b_id b1) id); [done|]. by apply IH.
Qed.

Lemma find_block_snoc id bs k blk : find_block id bs k = None → b_id blk = id →
  find_block id (bs ++ [blk]) k = Some (k + length bs)%nat.
Proof.
  intros H Hid. revert k H. induction bs as [|b1 bs IH]; intros k H; simpl in *.
  - rewrite Hid, Z.eqb_refl. f_equal. lia.
  - destruct (b_id b1 =? id); [done|]. rewrite IH by done. f_equal. lia.
Qed.

Lemma find_block_None id bs k : find_block id bs k = None ↔ Forall (λ blk, b_id blk ≠ id) bs.
Proof.
  revert k. induction bs as [|b1 bs IH]; intros k; simpl; [by split; [constructor|]|].
  rewrite Forall_cons. destruct (Z.eqb_spec (b_id b1) id); [naive_solver|]. rewrite IH. naive_solver.
Qed.

Lemma find_block_tail id bs : find_block id bs 0 = None → find_block id (tail bs) 0 = None.
Proof.
  rewrite !find_block_None. destruct bs; [done|]. by intros [_ ?]%Forall_cons_1.
Qed.

(** A filter over a range loses exactly the index that turns false. *)
Lemma filter_seq_remove (P Q : nat → Prop) `{∀ x, Decision (P x), ∀ x, Decision (Q x)} a n x :
  (a ≤ x < a + n)%nat → P x → ¬ Q x → (∀ y, y ≠ x → P y ↔ Q y) →
  length (filter P (seq a n)) = S (length (filter Q (seq a n))).
Proof.
  revert a. induction n as [|n IH]; intros a Hr Hp Hq Heq; [lia|]. cbn [seq].
  destruct (decide (a = x)) as [->|Hne].
  - rewrite filter_cons_True, filter_cons_False by done. simpl. f_equal. f_equal.
    apply filter_ext_in. intros y Hy%elem_of_seq. apply Heq. lia.
  - assert (P a ↔ Q a) as Ha by auto. destruct (decide (P a)) as [HP|HP].
    + rewrite !filter_cons_True by tauto. simpl. f_equal. apply IH; [lia|done..].
    + rewrite !filter_cons_False by tauto. apply IH; [lia|done..].
Qed.

Lemma insert_slots {A} (g g' : nat → A) n i : (i < n)%nat → (∀ j, j ≠ i → g j = g' j) →
  <[i := g' i]> (map g (seq 0 n)) = map g' (seq 0 n).
Proof.
  intros Hi Hg. apply list_eq. intros j. rewrite list_lookup_fmap.
  destruct (decide (j < n)%nat) as [Hj|Hj].
  - rewrite lookup_seq_lt by done. simpl. destruct (decide (j = i)) as [->|Hne].
    + by rewrite list_lookup_insert_eq by (rewrite length_map, length_seq; lia).
    + rewrite list_lookup_insert_ne, list_lookup_fmap, lookup_seq_lt by done. simpl. by rewrite Hg.
  - rewrite !lookup_ge_None_2; [done|rewrite length_seq; lia|].
    rewrite length_insert, length_map, length_seq. lia.
Qed.

Lemma lookup_slots {A} (g : nat → A) n i : (i < n)%nat → map g (seq 0 n) !! i = Some (g i).
Proof. intros Hi. by rewrite list_lookup_fmap, lookup_seq_lt. Qed.

(** ** What a block has seen *)

Section Delivery.
Context (b : Backend) (id : Z) (planned rows : nat) (ps : list (list Z)).
Context (packets_fit : Forall packet_ok ps) (some_packets : (1 ≤ length ps ≤ planned)%nat)
        (size_limit : (planned ≤ 64)%nat) (rows_limit : (1 ≤ rows ≤ 16)%nat).

Implicit Types (seen : list (bool * nat)) (blk : Block).

(** The data columns and the parity rows among the keys seen so far. *)
Definition absent seen n : list nat := filter (λ i, (false, i) ∉ seen) (seq 0 n).
Definition present seen : list nat := filter (λ r, (true, r) ∈ seen) (seq 0 rows).

Definition data_slots seen n : list (list Z) :=
  map (λ i, if decide ((false, i) ∈ seen) then symbol_of (ps !!! i) else []) (seq 0 n).
Definition parity_slots seen : list (list Z) :=
  map (λ r, if decide ((true, r) ∈ seen) then parity_row ps r else []) (seq 0 rows).

(** Only symbols of the block have been seen. *)
Definition within seen : Prop := ∀ i, (false, i) ∈ seen → (i < length ps)%nat.

Record tracks blk seen : Prop := {
  tk_id : b_id blk = id;
  tk_count : data_count blk = length ps ∨ (data_count blk = planned ∧ ∀ r, (true, r) ∉ seen);
  tk_data : b_data blk = data_slots seen (data_count blk);
  tk_rows : b_parity_count blk = rows;
  tk_parity : b_parity blk = parity_slots seen;
  tk_received : (data_received blk + length (absent seen (data_count blk)) = data_count blk)%nat;
}.

Lemma is_empty_nil v : is_empty v = true ↔ v = [].
Proof. by destruct v. Qed.

Lemma indices_where_slots (f : list Z → bool) (g : nat → list Z) n :
  indices_where f (map g (seq 0 n)) = filter (λ i, f (g i) = true) (seq 0 n).
Proof.
  unfold indices_where. rewrite length_map, length_seq. apply filter_ext_in.
  intros i Hi%elem_of_seq. rewrite lookup_total_map by (rewrite length_seq; lia).
  by rewrite lookup_total_seq_lt by lia.
Qed.

Lemma data_slot_empty seen i : is_empty (if decide ((false, i) ∈ seen) then symbol_of (ps !!! i) else []) = true
  ↔ (false, i) ∉ seen.
Proof. case_decide; simpl; naive_solver. Qed.

Lemma parity_row_nonempty r : parity_row ps r ≠ [].
Proof.
  intros E. apply (f_equal length) in E. rewrite length_parity_row in E. simpl in E.
  pose proof (width_at_least ps 0). lia.
Qed.

Lemma parity_slot_empty seen r :
  is_empty (if decide ((true, r) ∈ seen) then parity_row ps r else []) = true ↔ (true, r) ∉ seen.
Proof. rewrite is_empty_nil. pose proof (parity_row_nonempty r). case_decide; naive_solver. Qed.

Lemma tracks_missing blk seen : tracks blk seen → missing_of blk = absent seen (data_count blk).
Proof.
  intros H. unfold missing_of. rewrite (tk_data _ _ H). unfold data_slots.
  rewrite take_ge by (rewrite length_map, length_seq; lia).
  rewrite indices_where_slots. apply filter_ext_in. intros i _. apply data_slot_empty.
Qed.

Lemma tracks_rows blk seen : tracks blk seen → rows_of blk = present seen.
Proof.
  intros H. unfold rows_of. rewrite (tk_parity _ _ H), (tk_rows _ _ H). unfold parity_slots.
  rewrite take_ge by (rewrite length_map, length_seq; lia).
  rewrite indices_where_slots. apply filter_ext_in. intros r _.
  rewrite negb_true_iff, <- not_true_iff_false, parity_slot_empty. split; [apply dec_stable|auto].
Qed.

Lemma tracks_shaped blk seen : tracks blk seen → shaped blk.
Proof.
  intros H. split; [rewrite (tk_data _ _ H)|rewrite (tk_parity _ _ H), (tk_rows _ _ H)];
    unfold data_slots, parity_slots; by rewrite length_map, length_seq.
Qed.

Lemma tracks_holds blk seen : tracks blk seen → data_count blk = length ps → block_holds blk ps.
Proof.
  intros H Hn. split; [done|lia|done| | |rewrite (tk_rows _ _ H); lia| |].
  - rewrite (tk_data _ _ H). unfold data_slots. rewrite length_map, length_seq. done.
  - intros i Hi. rewrite (tk_data _ _ H). unfold data_slots. rewrite lookup_total_map by (rewrite length_seq; lia).
    rewrite lookup_total_seq_lt by lia. simpl. case_decide; auto.
  - rewrite (tk_parity _ _ H), (tk_rows _ _ H). unfold parity_slots. by rewrite length_map, length_seq.
  - intros r Hr. rewrite (tk_rows _ _ H) in Hr. rewrite (tk_parity _ _ H). unfold parity_slots.
    rewrite lookup_total_map by (rewrite length_seq; lia). rewrite lookup_total_seq_lt by lia. simpl.
    case_decide; auto.
Qed.

Lemma elem_key_cons (k k' : bool * nat) seen : k ≠ k' → k ∈ k' :: seen ↔ k ∈ seen.
Proof. rewrite elem_of_cons. naive_solver. Qed.

Lemma tracks_count_ge blk seen : tracks blk seen → (length ps ≤ data_count blk)%nat.
Proof. intros H. destruct (tk_count _ _ H) as [->|[-> _]]; lia. Qed.

(** Only which keys were seen matters. *)
Lemma tracks_ext blk seen seen' : (∀ k, k ∈ seen ↔ k ∈ seen') → tracks blk seen → tracks blk seen'.
Proof.
  intros Heq H. assert (∀ n, absent seen' n = absent seen n) as Ha.
  { intros n. apply filter_ext_in. intros i _. by rewrite Heq. }
  split; rewrite ?Ha; try apply H.
  - destruct (tk_count _ _ H) as [?|[? Hno]]; [by left|right]. split; [done|]. intros r. rewrite <- Heq. apply Hno.
  - rewrite (tk_data _ _ H). apply map_ext. intros i. by apply decide_ext.
  - rewrite (tk_parity _ _ H). apply map_ext. intros r. by apply decide_ext.
Qed.

(** A parity symbol settles the number of packets of the block. *)
Lemma shrunk_tracks blk seen : tracks blk seen → within seen →
  tracks (shrunk blk (length ps)) seen ∧ data_count (shrunk blk (length ps)) = length ps.
Proof.
  intros H Hin. unfold shrunk. case_decide as Hlt; last first.
  { split; [done|]. pose proof (tracks_count_ge _ _ H). lia. }
  split; [|done]. pose proof (tk_received _ _ H) as Hrec.
  assert (length (filter (λ v, is_empty v = false)
    (drop (length ps) (take (data_count blk) (b_data blk)))) = 0%nat) as ->.
  { rewrite (tk_data _ _ H). unfold data_slots. rewrite take_ge by (rewrite length_map, length_seq; lia).
    rewrite skipn_map, skipn_seq.
    rewrite filter_none; [done|]. intros v (i & -> & Hi%elem_of_seq)%list_elem_of_fmap.
    rewrite decide_False; [done|]. intros Hs%Hin. lia. }
  assert (length (absent seen (data_count blk)) =
          length (absent seen (length ps)) + (data_count blk - length ps))%nat as Habs.
  { unfold absent. replace (data_count blk) with (length ps + (data_count blk - length ps))%nat at 1 by lia.
    rewrite seq_app, filter_app, length_app. f_equal.
    rewrite filter_all; [by rewrite length_seq|]. intros i Hi%elem_of_seq Hs%Hin. lia. }
  split; cbn [b_id data_count b_data b_parity_count b_parity data_received]; try apply H; [by left| |lia].
  rewrite (tk_data _ _ H). unfold data_slots.
  rewrite firstn_map, take_seq. do 2 f_equal. lia.
Qed.

Lemma store_data blk seen i len : tracks blk seen → within seen → (i < length ps)%nat →
  ∃ blk' go, store blk (mkSymbol id (Z.of_nat i) (Z.of_nat planned) (Z.of_nat rows) false len) (ps !!! i)
             = Ok (blk', go) ∧
    tracks blk' ((false, i) :: seen) ∧ (go = false → (false, i) ∈ seen ∧ blk' = blk).
Proof.
  intros H Hin Hi. pose proof (tracks_count_ge _ _ H) as Hge. unfold store. cbn [parity sym_index].
  rewrite Nat2Z.id, decide_False by lia.
  assert (b_data blk !! i = Some (if decide ((false, i) ∈ seen) then symbol_of (ps !!! i) else [])) as ->.
  { rewrite (tk_data _ _ H). unfold data_slots. by rewrite lookup_slots by lia. }
  destruct (is_empty _) eqn:Hem.
  - apply data_slot_empty in Hem. eexists _, true. split; [reflexivity|]. split; [|done].
    split; cbn [b_id data_count b_data b_parity_count b_parity data_received]; try apply H.
    + destruct (tk_count _ _ H) as [?|[? Hno]]; [by left|right]. split; [done|]. intros r.
      rewrite elem_key_cons by done. apply Hno.
    + rewrite (tk_data _ _ H). unfold data_slots.
      rewrite <- (insert_slots (λ j, if decide ((false, j) ∈ seen) then symbol_of (ps !!! j) else [])
        (λ j, if decide ((false, j) ∈ (false, i) :: seen) then symbol_of (ps !!! j) else []) _ i);
        [|lia|].
      * by rewrite decide_True by left.
      * intros j Hne. apply decide_ext. by rewrite elem_key_cons by congruence.
    + rewrite (tk_parity _ _ H). apply map_ext. intros r.
      apply decide_ext. by rewrite elem_key_cons by congruence.
    + pose proof (tk_received _ _ H) as Hrec. unfold absent in *.
      rewrite (filter_seq_remove (λ j, (false, j) ∉ seen) (λ j, (false, j) ∉ (false, i) :: seen) 0
        (data_count blk) i) in Hrec; [lia|lia|done| |].
      * intros Hn. apply Hn. left.
      * intros j Hne. by rewrite elem_key_cons by congruence.
  - assert ((false, i) ∈ seen) as Hs.
    { apply dec_stable. intros Hn. by apply data_slot_empty in Hn; rewrite Hn in Hem. }
    eexists blk, false. split; [reflexivity|]. split; [|done].
    apply (tracks_ext _ seen); [|done]. intros k. rewrite elem_of_cons. naive_solver.
Qed.

Lemma store_parity blk seen r len : tracks blk seen → within seen → (r < rows)%nat →
  ∃ blk' go, store blk (mkSymbol id (Z.of_nat r) (Z.of_nat (length ps)) (Z.of_nat rows) true len)
                   (parity_row ps r) = Ok (blk', go) ∧
    tracks blk' ((true, r) :: seen) ∧ data_count blk' = length ps ∧
    (go = false → (true, r) ∈ seen ∧ blk' = shrunk blk (length ps)).
Proof.
  intros H0 Hin Hr. destruct (shrunk_tracks _ _ H0 Hin) as [H Hn]. unfold store.
  cbn [parity sym_index block_size]. rewrite !Nat2Z.id. rewrite shrink_eq by (by apply (tracks_shaped _ _ H0)). cbn [rbind]. set (blk1 := shrunk blk (length ps)) in *.
  assert (b_parity blk1 !! r = Some (if decide ((true, r) ∈ seen) then parity_row ps r else [])) as ->.
  { rewrite (tk_parity _ _ H). unfold parity_slots. by rewrite lookup_slots by lia. }
  destruct (is_empty _) eqn:Hem.
  - apply parity_slot_empty in Hem. eexists _, true. split; [reflexivity|]. split; [|done].
    split; cbn [b_id data_count b_data b_parity_count b_parity data_received]; try apply H.
    + by left.
    + rewrite (tk_data _ _ H). apply map_ext. intros i. apply decide_ext. by rewrite elem_key_cons by congruence.
    + rewrite (tk_parity _ _ H). unfold parity_slots.
      rewrite <- (insert_slots (λ j, if decide ((true, j) ∈ seen) then parity_row ps j else [])
        (λ j, if decide ((true, j) ∈ (true, r) :: seen) then parity_row ps j else []) _ r);
        [|lia|].
      * by rewrite decide_True by left.
      * intros j Hne. apply decide_ext. by rewrite elem_key_cons by congruence.
    + rewrite <- (tk_received _ _ H) at 2. do 2 f_equal. apply filter_ext_in. intros i _.
      by rewrite elem_key_cons by congruence.
  - assert ((true, r) ∈ seen) as Hs.
    { apply dec_stable. intros Hn1. by apply parity_slot_empty in Hn1; rewrite Hn1 in Hem. }
    eexists blk1, false. split; [reflexivity|]. split; [|done].
    apply (tracks_ext _ seen); [|done]. intros k. rewrite elem_of_cons. naive_solver.
Qed.

(** ** The decoder's view of the block *)

(** Too few symbols to solve for what is missing. *)
Definition waiting blk seen : Prop :=
  data_count blk = length ps → (length (present seen) < length (absent seen (length ps)))%nat.

Definition covered seen (out : list (list Z)) : Prop :=
  ∀ j, (j < length ps)%nat → (false, j) ∈ seen ∨ ps !!! j ∈ out.

Inductive view (d : FecDecoder) seen (out : list (list Z)) : Prop :=
| view_fresh : seen = [] → out = [] → id ∉ finished_ d → find_block id (blocks_ d) 0 = None → view d seen out
| view_waiting i blk : out = [] → id ∉ finished_ d → find_block id (blocks_ d) 0 = Some i →
    blocks_ d !! i = Some blk → tracks blk seen → waiting blk seen → view d seen out
| view_finished : id ∈ finished_ d → covered seen out → Forall (λ p, p ∈ ps) out → view d seen out.

Lemma finish_finished d : id ∈ finished_ (finish d id).
Proof.
  unfold finish, trim_finished. cbn [finished_]. change (Z.to_nat (kMaximumOutstandingBlocks * 2)) with 256%nat.
  rewrite skipn_app, length_app, length_cons, length_nil. apply elem_of_app. right.
  replace (length (finished_ d) + 1 - 256 - length (finished_ d))%nat with 0%nat by lia. left.
Qed.

Lemma new_block_tracks now h : block_id h = id → parity_count h = Z.of_nat rows →
  (block_size h = Z.of_nat planned ∨ block_size h = Z.of_nat (length ps)) → tracks (new_block h now) [].
Proof.
  intros Hid Hp Hs. unfold new_block. rewrite Hp, Nat2Z.id.
  assert (∀ n, replicate n [] = map (λ _, ([] : list Z)) (seq 0 n)) as Hrep.
  { intros n. by rewrite map_const, length_seq. }
  split; cbn [b_id data_count b_data b_parity_count b_parity data_received]; [done| |by apply Hrep|done|by apply Hrep|].
  - destruct Hs as [->| ->]; rewrite Nat2Z.id; [right; split; [done|]|by left]. intros r. apply not_elem_of_nil.
  - unfold absent. rewrite filter_all; [by rewrite length_seq|]. intros i _. apply not_elem_of_nil.
Qed.

(** The block [receive] works on. *)
Lemma find_or_create_view d seen out h payload now :
  symbol_from id planned rows ps h payload → view d seen out → id ∉ finished_ d →
  ∃ d' i blk, find_or_create d h now = (d', i) ∧ find_block id (blocks_ d') 0 = Some i ∧
    blocks_ d' !! i = Some blk ∧ tracks blk seen ∧ finished_ d' = finished_ d ∧ out = [] ∧
    (seen = [] ∨ waiting blk seen).
Proof.
  intros Hs Hv Hnf. assert (block_id h = id) as Hid by (by destruct Hs).
  unfold find_or_create. rewrite Hid. destruct Hv as [-> -> _ Hnone|i blk -> _ Hfind Hlk Ht Hwt|Hf]; [| |done].
  - rewrite Hnone.
    set (bs := if kMaximumOutstandingBlocks <=? _ then tail (blocks_ d) else blocks_ d).
    assert (find_block id bs 0 = None) as Hbs by (unfold bs; case_match; [by apply find_block_tail|done]).
    eexists _, (length bs), (new_block h now). split; [reflexivity|]. cbn [blocks_ finished_].
    split_and!; [|by rewrite list_lookup_middle| |done|done|by left].
    + rewrite find_block_snoc; done.
    + apply new_block_tracks; [done|by destruct Hs|]. destruct Hs; [by left|by right].
  - rewrite Hfind. exists d, i, blk. split_and!; auto.
Qed.

Lemma store_symbol blk seen h payload :
  symbol_from id planned rows ps h payload → tracks blk seen → within seen →
  ∃ blk' go, store blk h payload = Ok (blk', go) ∧ tracks blk' (key h :: seen) ∧ within (key h :: seen) ∧
    (go = false → key h ∈ seen ∧ (data_count blk' = length ps → data_count blk = length ps ∨ present seen ≠ [])).
Proof.
  intros [i len Hi|r len Hr] Ht Hw; unfold key; cbn [parity sym_index]; rewrite Nat2Z.id.
  - destruct (store_data blk seen i len Ht Hw Hi) as (blk' & go & Hrun & Ht' & Hgo).
    exists blk', go. split_and!; [done..| |].
    + intros j [[= ->]|Hj]%elem_of_cons; [done|by apply Hw].
    + intros Hf. destruct (Hgo Hf) as [? ->]. auto.
  - destruct (store_parity blk seen r len Ht Hw Hr) as (blk' & go & Hrun & Ht' & _ & Hgo).
    exists blk', go. split_and!; [done..| |].
    + intros j [[=]|Hj]%elem_of_cons. by apply Hw.
    + intros Hf. destruct (Hgo Hf) as [Hs _]. split; [done|]. intros _. right. intros E.
      apply (not_elem_of_nil (A:=nat) r). rewrite <- E. apply list_elem_of_filter. split; [done|].
      apply elem_of_seq. lia.
Qed.

Lemma absent_covered seen n : (length ps ≤ n)%nat → absent seen n = [] → covered seen [].
Proof.
  intros Hn He j Hj. left. apply dec_stable. intros Hs. apply (not_elem_of_nil (A:=nat) j).
  rewrite <- He. apply list_elem_of_filter. split; [done|]. apply elem_of_seq. lia.
Qed.

Lemma absent_present_ext seen seen' : (∀ k, k ∈ seen ↔ k ∈ seen') →
  present seen = present seen' ∧ ∀ n, absent seen n = absent seen' n.
Proof.
  intros Heq. split; [|intros n]; apply filter_ext_in; intros i _; by rewrite Heq.
Qed.

(** Nothing changes for a symbol that was seen before. *)
Lemma waiting_again blk blk' seen k : tracks blk seen → waiting blk seen → k ∈ seen →
  (data_count blk' = length ps → data_count blk = length ps ∨ present seen ≠ []) → waiting blk' (k :: seen).
Proof.
  intros Ht Hw Hk Hc Hn.
  destruct (absent_present_ext (k :: seen) seen) as [-> ->]; [intros k'; rewrite elem_of_cons; naive_solver|].
  apply Hw. destruct (Hc Hn) as [?|Hp]; [done|]. destruct (tk_count _ _ Ht) as [?|[_ Hno]]; [done|].
  destruct Hp. apply filter_none. intros r _. apply Hno.
Qed.

(** What [recovery] does for the block of [ps]. *)
Lemma try_recover_view d blk seen i : tracks blk seen → find_block id (blocks_ d) 0 = Some i →
  blocks_ d !! i = Some blk → id ∉ finished_ d → data_received blk ≠ data_count blk →
  view (recovery b d blk).1 seen (recovery b d blk).2.
Proof.
  intros Ht Hf Hl Hnf Hrec. pose proof (tk_received _ _ Ht) as Hcount.
  pose proof (tracks_missing _ _ Ht) as Hm. pose proof (tracks_rows _ _ Ht) as Hr.
  assert (missing_of blk ≠ []) as Hne by (rewrite Hm; intros E; rewrite E in Hcount; simpl in Hcount; lia).
  destruct (decide (data_count blk = length ps)) as [Hn|Hn].
  - pose proof (tracks_holds _ _ Ht Hn) as Hbh. pose proof (recovery_spec b d blk ps Hbh Hne) as Hspec.
    rewrite Hm, Hr, Hn in Hspec. case_decide as Hen.
    + destruct Hspec as (d' & -> & _ & _). rewrite (tk_id _ _ Ht). simpl. apply view_finished.
      * apply finish_finished.
      * intros j Hj. destruct (decide ((false, j) ∈ seen)) as [?|Hs]; [by left|right].
        apply list_elem_of_fmap. exists j. split; [done|]. apply list_elem_of_filter. split; [done|].
        apply elem_of_seq. lia.
      * apply Forall_fmap, Forall_forall. intros j [_ Hj%elem_of_seq]%list_elem_of_filter. simpl.
        apply lookup_total_elem. lia.
    + rewrite Hspec. simpl. eapply view_waiting; [done..|]. intros _. lia.
  - destruct (tk_count _ _ Ht) as [?|[_ Hno]]; [done|].
    assert (rows_of blk = []) as Hr0 by (rewrite Hr; apply filter_none; intros r _; apply Hno).
    unfold recovery, solution. rewrite decide_True; last first.
    { right. rewrite Hr0. destruct (missing_of blk); [done|simpl; lia]. }
    simpl. eapply view_waiting; [done..|]. by intros ?.
Qed.

(** Each symbol of the block keeps the view. *)
Lemma receive_view d seen out h payload now :
  symbol_from id planned rows ps h payload → within seen → view d seen out →
  ∃ d' new, receive b d h payload now = Ok (d', new) ∧ within (key h :: seen) ∧ view d' (key h :: seen) (out ++ new).
Proof.
  intros Hs Hw Hv. assert (block_id h = id) as Hid by (by destruct Hs).
  assert (parity_count h = Z.of_nat rows) as Hpc by (by destruct Hs).
  unfold receive, recently_finished. cbn [finished_]. rewrite Hid.
  set (d0 := mkDecoder _ _ _). assert (view d0 seen out) as Hv0 by (destruct Hv; econstructor; done).
  case_bool_decide as Hf.
  { destruct (store_symbol (new_block h now) [] h payload Hs) as (_ & _ & _ & _ & Hwk & _).
    { apply new_block_tracks; [done..|]. destruct Hs; [by left|by right]. }
    { intros i Hi. by apply not_elem_of_nil in Hi. }
    exists d0, []. split; [done|]. split.
    { intros i [Hi|Hi]%elem_of_cons; [apply Hwk; rewrite Hi; left|by apply Hw]. }
    rewrite app_nil_r. destruct Hv; [done..|]. apply view_finished; [done| |done].
    intros j Hj. rewrite elem_of_cons. specialize (H0 j Hj). tauto. }
  destruct (find_or_create_view d0 seen out h payload now Hs Hv0 Hf)
    as (d1 & i & blk & -> & Hfind & Hlk & Ht & Hfin & -> & Hwait).
  rewrite Hlk, (tk_rows _ _ Ht), Hpc, Z.eqb_refl. cbn [negb].
  destruct (store_symbol blk seen h payload Hs Ht Hw) as (blk' & go & -> & Ht' & Hw' & Hgo). cbn [rbind].
  set (d2 := with_blocks d1 _).
  assert (find_block id (blocks_ d2) 0 = Some i ∧ blocks_ d2 !! i = Some blk' ∧ id ∉ finished_ d2) as (Hf2 & Hl2 & Hn2).
  { unfold d2. cbn [with_blocks blocks_ finished_]. rewrite Hfin. split_and!; [| |done].
    - pose proof (find_block_insert id _ 0 i blk' Hfind (tk_id _ _ Ht')) as E. by rewrite Nat.sub_0_r in E.
    - rewrite list_lookup_insert_eq; [done|]. by eapply lookup_lt_Some. }
  destruct go; cbn [negb].
  - case_decide as Hall.
    + eexists _, []. split; [reflexivity|]. split; [done|]. rewrite (tk_id _ _ Ht').
      apply view_finished; [apply finish_finished| |constructor].
      apply (absent_covered _ (data_count blk')); [by eapply tracks_count_ge|].
      apply nil_length_inv. pose proof (tk_received _ _ Ht'). lia.
    + rewrite try_recover_ok by (by eapply tracks_shaped). destruct (recovery b d2 blk') as [d' new] eqn:E. exists d', new. split; [done|]. split; [done|].
      pose proof (try_recover_view d2 blk' (key h :: seen) i Ht' Hf2 Hl2 Hn2 Hall) as Hview. by rewrite E in Hview.
  - destruct (Hgo eq_refl) as [Hk Hc]. exists d2, []. split; [done|]. split; [done|].
    eapply view_waiting; [done..|]. destruct Hwait as [->|Hwait]; [by apply not_elem_of_nil in Hk|].
    by eapply waiting_again.
Qed.

Lemma receive_all_view symbols : ∀ d seen out, within seen → view d seen out →
  Forall (λ s, symbol_from id planned rows ps s.1.1 s.1.2) symbols →
  ∃ d' new, receive_all b d symbols = Ok (d', new) ∧
    view d' (rev (map (λ s, key s.1.1) symbols) ++ seen) (out ++ new).
Proof.
  induction symbols as [|[[h payload] now] symbols IH]; intros d seen out Hw Hv Hs.
  { exists d, []. by rewrite app_nil_r. }
  apply Forall_cons_1 in Hs as [Hh Hs]. simpl in Hh.
  destruct (receive_view d seen out h payload now Hh Hw Hv) as (d1 & new1 & Hrun1 & Hw1 & Hv1).
  destruct (IH d1 (key h :: seen) (out ++ new1) Hw1 Hv1 Hs) as (d2 & new2 & Hrun2 & Hv2).
  exists d2, (new1 ++ new2). simpl. rewrite Hrun1. cbn [rbind fst snd]. rewrite Hrun2. cbn [rbind fst snd].
  split; [done|]. by rewrite <- !app_assoc in *.
Qed.

Lemma key_range h payload : symbol_from id planned rows ps h payload →
  key h ∈ map (pair false) (seq 0 (length ps)) ++ map (pair true) (seq 0 rows).
Proof.
  intros [i len Hi|r len Hr]; unfold key; cbn [parity sym_index]; rewrite Nat2Z.id; apply elem_of_app;
    [left|right]; apply list_elem_of_fmap; eexists; (split; [done|]); apply elem_of_seq; lia.
Qed.

(** Distinct keys: data columns that are not absent, and parity rows. *)
Lemma distinct_keys seen :
  (∀ k, k ∈ seen → k ∈ map (pair false) (seq 0 (length ps)) ++ map (pair true) (seq 0 rows)) →
  (size (list_to_set seen : gset (bool * nat)) + length (absent seen (length ps))
   ≤ length ps + length (present seen))%nat.
Proof.
  intros Hr. set (got := filter (λ i, (false, i) ∈ seen) (seq 0 (length ps))).
  assert (length got + length (absent seen (length ps)) = length ps)%nat as Hgot.
  { unfold got, absent. rewrite <- length_app, (filter_app_complement (λ i, (false, i) ∈ seen)).
    apply length_seq. }
  assert (size (list_to_set seen : gset (bool * nat)) ≤ length got + length (present seen))%nat; [|lia].
  transitivity (size (list_to_set (map (pair false) got ++ map (pair true) (present seen)) : gset (bool * nat))).
  - apply subseteq_size. intros k. rewrite !elem_of_list_to_set. intros Hk. specialize (Hr k Hk).
    rewrite elem_of_app, !list_elem_of_fmap in Hr |- *.
    destruct Hr as [(i & -> & Hi)|(r & -> & Hi)]; [left|right]; eexists; (split; [done|]);
      by apply list_elem_of_filter.
  - rewrite size_list_to_set.
    + by rewrite length_app, !length_map.
    + apply NoDup_app. split_and!.
      * apply NoDup_fmap_2; [by intros ?? [=]|]. apply NoDup_filter, NoDup_seq.
      * intros k (i & -> & _)%list_elem_of_fmap (r & [=] & _)%list_elem_of_fmap.
      * apply NoDup_fmap_2; [by intros ?? [=]|]. apply NoDup_filter, NoDup_seq.
Qed.

Lemma view_complete d seen out : view d seen out →
  (∀ k, k ∈ seen → k ∈ map (pair false) (seq 0 (length ps)) ++ map (pair true) (seq 0 rows)) →
  (length ps ≤ size (list_to_set seen : gset (bool * nat)))%nat →
  covered seen out ∧ Forall (λ p, p ∈ ps) out.
Proof.
  intros Hv Hr Hsize. pose proof (distinct_keys seen Hr) as Hd.
  destruct Hv as [-> _ _ _|i blk -> _ _ _ Ht Hw|_ Hc Ho]; [|split; [|constructor]|done].
  - rewrite list_to_set_nil, size_empty in Hsize. lia.
  - destruct (tk_count _ _ Ht) as [Hn|[_ Hno]].
    + specialize (Hw Hn). lia.
    + assert (present seen = []) as Hp by (apply filter_none; intros r _; apply Hno).
      apply (absent_covered _ (length ps)); [done|]. apply nil_length_inv. rewrite Hp in Hd. simpl in Hd. lia.
Qed.

(** C18. Any [k] symbols are enough.  Take a block of [k] packets, protected
    under a plan of at most 64 packets and 16 parity rows, full or flushed
    early, and a decoder that has not met its id.  Whatever symbols of the
    block arrive, in whatever order and however often each, [receive] never
    leaves its buffers, and once [k] distinct ones have arrived every packet
    of the block either came as a data symbol or has been returned by
    [receive]; nothing but packets of the block is ever returned. *)
Theorem any_k_symbols_deliver d symbols :
  id ∉ finished_ d → find_block id (blocks_ d) 0 = None →
  Forall (λ s, symbol_from id planned rows ps s.1.1 s.1.2) symbols →
  (length ps ≤ size (list_to_set (map (λ s, key s.1.1) symbols) : gset (bool * nat)))%nat →
  ∃ d' out, receive_all b d symbols = Ok (d', out) ∧
    (∀ j, (j < length ps)%nat →
      (false, j) ∈ map (λ s, key s.1.1) symbols ∨ ps !!! j ∈ out) ∧
    Forall (λ p, p ∈ ps) out.
Proof.
  intros Hnf Hnone Hs Hsize.
  destruct (receive_all_view symbols d [] []) as (d' & out & Hrun & Hv); [|by apply view_fresh|done|].
  { intros i Hi. by apply not_elem_of_nil in Hi. }
  rewrite app_nil_r in Hv. simpl in Hv.
  assert (∀ k, k ∈ rev (map (λ s, key s.1.1) symbols) ↔ k ∈ map (λ s, key s.1.1) symbols) as Hrev.
  { intros k. by rewrite !list_elem_of_In, <- in_rev. }
  destruct (view_complete _ _ _ Hv) as [Hc Ho].
  - intros k (s & -> & Hin)%Hrev%list_elem_of_fmap. rewrite Forall_forall in Hs. by eapply key_range, Hs.
  - etransitivity; [exact Hsize|]. apply subseteq_size. intros k. rewrite !elem_of_list_to_set. apply Hrev.
  - exists d', out. split_and!; [done| |done]. intros j Hj. destruct (Hc j Hj) as [Hk|?]; [left|by right]. by apply Hrev.
Qed.
End Delivery.

Lemma any_k_symbols_deliver_witness :
  let ps := [[1; 2]; [3]] in
  ∃ d' out,
    receive_all avx2 new_decoder
      [(mkSymbol 5 0 2 1 true 4, parity_row ps 0, 0); (mkSymbol 5 0 2 1 false 2, [1; 2], 10)]
    = Ok (d', out) ∧ out = [[3]].
Proof.
  intros ps.
  destruct (any_k_symbols_deliver avx2 5 2 1 ps) with (d := new_decoder)
    (symbols := [(mkSymbol 5 0 2 1 true 4, parity_row ps 0, 0); (mkSymbol 5 0 2 1 false 2, [1; 2], 10)])
    as (d' & out & Hrun & _).
  - repeat constructor; discriminate.
  - simpl; lia.
  - lia.
  - lia.
  - apply not_elem_of_nil.
  - reflexivity.
  - constructor; [exact (from_parity 5 2 1 ps 0 4 ltac:(lia))|].
    constructor; [exact (from_data 5 2 1 ps 0 2 ltac:(simpl; lia))|constructor].
  - vm_compute. lia.
  - exists d', out. split; [exact Hrun|]. vm_compute in Hrun. by injection Hrun as _ <-.
Defined.

(** ** The encoder's symbols are symbols of the block *)

(** What the encoder puts on the wire is what the decoder's theorem
    asks for: every vector of [block_parity], which [add] and [flush] return,
    parses to the header of a parity row of the block, the bytes after the
    header being that row, and [next_header] is the header of the data
    symbol under which the packet about to be added travels. *)
Lemma encoder_symbols_belong e fill ps row : encoder_holds e fill → plan_in_limits (plan_ e) →
  let lane := lanes_ e !!! cursor_ e in
  let planned := Z.to_nat (plan_data (plan_ e)) in
  let rows := Z.to_nat (plan_parity (plan_ e)) in
  is_u32 (lane_block lane) → Forall bytes_ok ps → (1 ≤ length ps ≤ planned)%nat → (row < rows)%nat →
  (∃ h, parse_fec_header (parity_symbol (plan_ e) (lane_block lane) ps row) = Ok h ∧
     symbol_from (lane_block lane) planned rows ps h
       (drop 11 (parity_symbol (plan_ e) (lane_block lane) ps row))) ∧
  (∀ p len, fill !!! cursor_ e ++ [p] `prefix_of` ps →
     symbol_from (lane_block lane) planned rows ps (next_header e len) p).
Proof.
  intros H Hlim lane planned rows Hid Hps Hlen Hrow. destruct Hlim as (Hd & Hp & Hl) eqn:Elim.
  unfold kMaximumFecData, kMaximumFecParity in *.
  assert (Z.of_nat rows = plan_parity (plan_ e)) as Hr by (unfold rows; lia).
  assert (Z.of_nat planned = plan_data (plan_ e)) as Hpl by (unfold planned; lia). split.
  - exists (parity_header (plan_ e) (lane_block lane) ps row). split.
    + apply parse_fec_header_bytes; [|by apply parity_row_bytes].
      unfold symbol_ok, parity_header, kMaximumFecData, kMaximumFecParity. cbn [block_id original_length block_size parity_count sym_index parity].
      pose proof (u16_range (Z.of_nat (width_of ps))). split_and!; word_lia || done.
    + unfold parity_symbol, parity_header. rewrite <- Hr.
      rewrite (drop_app_length' (fec_header_bytes _) _ 11%nat) by done. by constructor.
  - intros p len [rest Hpre]. pose proof (cursor_lt_4 _ _ H Hlim) as Hc.
    destruct (eh_core _ _ H) as [_ _ Hlane _]. specialize (Hlane _ Hc). fold lane in Hlane.
    assert (length (fill !!! cursor_ e) < length ps)%nat as Hi by (rewrite Hpre, !length_app; simpl; lia).
    assert (ps !!! length (fill !!! cursor_ e) = p) as Hnth.
    { rewrite Hpre, <- app_assoc. rewrite lookup_total_app_r by done. by rewrite Nat.sub_diag. }
    unfold next_header. fold lane. rewrite (lh_index _ _ _ Hlane).
    rewrite !u8_id by (unfold is_u8; lia). rewrite <- Hr, <- Hpl, <- Hnth at 1. by constructor.
Qed.

(** ** Any sequence of symbols *)

Definition full_slots (slots : list (list Z)) : nat := length (filter (λ v, is_empty v = false) slots).

Record block_ok (blk : Block) : Prop := {
  bo_data : length (b_data blk) = data_count blk;
  bo_parity : length (b_parity blk) = b_parity_count blk;
  bo_received : data_received blk = full_slots (b_data blk);
}.

(** The decoder's memory is bounded and its blocks are well formed and
    have different ids. *)
Record decoder_ok (d : FecDecoder) : Prop := {
  do_blocks : (length (blocks_ d) ≤ 128)%nat;
  do_finished : (length (finished_ d) ≤ 256)%nat;
  do_ids : NoDup (map b_id (blocks_ d));
  do_each : Forall block_ok (blocks_ d);
}.

Lemma full_slots_insert slots i v w : slots !! i = Some v → is_empty v = true → is_empty w = false →
  full_slots (<[i := w]> slots) = S (full_slots slots).
Proof.
  unfold full_slots. revert i. induction slots as [|x slots IH]; intros [|i] Hl Hv Hw; [done..| |]; simpl in *.
  - injection Hl as ->. rewrite filter_cons_True, filter_cons_False by congruence. done.
  - rewrite !filter_cons. case_decide; simpl; by rewrite (IH i).
Qed.

Lemma full_slots_app a c : full_slots (a ++ c) = (full_slots a + full_slots c)%nat.
Proof. unfold full_slots. by rewrite filter_app, length_app. Qed.

Lemma block_ok_shaped blk : block_ok blk → shaped blk.
Proof. intros [Hd Hp _]. split; lia. Qed.

Lemma shrunk_ok blk n : block_ok blk → block_ok (shrunk blk n) ∧
  b_id (shrunk blk n) = b_id blk ∧ b_parity_count (shrunk blk n) = b_parity_count blk ∧
  b_parity (shrunk blk n) = b_parity blk.
Proof.
  intros [Hd Hp Hr]. unfold shrunk. case_decide as Hn; [|done]. split; [|done].
  split; cbn [b_data b_parity data_count b_parity_count data_received]; [rewrite length_take; lia|done|].
  rewrite take_ge by lia. fold (full_slots (drop n (b_data blk))).
  rewrite Hr, <- (take_drop n (b_data blk)) at 1. rewrite full_slots_app. lia.
Qed.

Lemma store_ok blk h payload : block_ok blk → symbol_ok h → Z.of_nat (b_parity_count blk) = parity_count h →
  ∃ blk' go, store blk h payload = Ok (blk', go) ∧ block_ok blk' ∧ b_id blk' = b_id blk.
Proof.
  intros Hok (_ & _ & _ & _ & Hi) Hpc. unfold store. destruct (parity h).
  - destruct (shrunk_ok blk (Z.to_nat (block_size h)) Hok) as (Hok' & Hid & Hcnt & Hpar).
    rewrite shrink_eq by apply (block_ok_shaped _ Hok). cbn [rbind].
    rewrite Hpar. destruct (lookup_lt_is_Some_2 (b_parity blk) (Z.to_nat (sym_index h))) as [slot ->].
    { rewrite (bo_parity _ Hok). lia. }
    destruct (is_empty slot); eexists _, _; (split; [reflexivity|]); [|done].
    split; [|done]. split; cbn [b_data b_parity data_count b_parity_count data_received]; try apply Hok'.
    by rewrite length_insert, Hcnt, (bo_parity _ Hok).
  - case_decide as Hge; [by eexists blk, false|].
    destruct (lookup_lt_is_Some_2 (b_data blk) (Z.to_nat (sym_index h))) as [slot Hs].
    { rewrite (bo_data _ Hok). lia. }
    rewrite Hs. destruct (is_empty slot) eqn:He; [|by eexists blk, false].
    eexists _, true. split; [reflexivity|]. split; [|done].
    split; cbn [b_data b_parity data_count b_parity_count data_received]; [by rewrite length_insert; apply Hok|apply Hok|].
    by rewrite (full_slots_insert _ _ slot), (bo_received _ Hok).
Qed.

Lemma trim_finished_length l : (length (trim_finished l) ≤ 256)%nat.
Proof. unfold trim_finished. change (Z.to_nat _) with 256%nat. rewrite length_drop. lia. Qed.

Lemma map_filter_sublist {A B} (f : A → B) (P : A → Prop) `{∀ x, Decision (P x)} l :
  map f (filter P l) `sublist_of` map f l.
Proof.
  induction l as [|x l IH]; [done|]. rewrite filter_cons. simpl.
  case_decide; simpl; [by apply sublist_skip|by apply sublist_cons].
Qed.

Lemma finish_ok d id : decoder_ok d → decoder_ok (finish d id).
Proof.
  intros [Hb Hf Hi He]. split; simpl.
  - pose proof (length_filter (λ blk, b_id blk ≠ id) (blocks_ d)). lia.
  - apply trim_finished_length.
  - eapply sublist_NoDup; [done|apply map_filter_sublist].
  - apply Forall_forall. intros blk [_ Hin]%list_elem_of_filter. rewrite Forall_forall in He. by apply He.
Qed.

Lemma new_block_ok h now : block_ok (new_block h now).
Proof.
  split; unfold new_block; simpl; [by rewrite length_replicate..|].
  unfold full_slots. rewrite filter_none; [done|]. by intros v [-> _]%elem_of_replicate.
Qed.

Lemma find_or_create_ok d h now : decoder_ok d →
  let '(d', i) := find_or_create d h now in
  decoder_ok d' ∧ ∃ blk, blocks_ d' !! i = Some blk.
Proof.
  intros Hd. unfold find_or_create. destruct (find_block _ _ _) as [i|] eqn:Hfind.
  { split; [done|]. apply find_block_lookup in Hfind as (_ & blk & Hl & _).
    rewrite Nat.sub_0_r in Hl. eauto. }
  set (bs := if kMaximumOutstandingBlocks <=? _ then tail (blocks_ d) else blocks_ d).
  split; [|exists (new_block h now); cbn [blocks_]; by apply list_lookup_middle].
  destruct Hd as [Hb Hf Hi He].
  assert (find_block (block_id h) bs 0 = None) as Hbs by (unfold bs; case_match; [by apply find_block_tail|done]).
  assert (length bs < 128)%nat as Hlen.
  { unfold bs, kMaximumOutstandingBlocks.
    destruct (Z.leb_spec 128 (Z.of_nat (length (blocks_ d)))); [|lia]. destruct (blocks_ d); simpl in *; lia. }
  assert (NoDup (map b_id bs) ∧ Forall block_ok bs) as [Hi' He'].
  { unfold bs. case_match; [|done]. destruct (blocks_ d); [done|]. simpl in *.
    apply NoDup_cons in Hi as [_ ?]. by apply Forall_cons_1 in He as [_ ?]. }
  split; cbn [blocks_ finished_]; [rewrite length_app; simpl; lia|done| |].
  - rewrite map_app. apply NoDup_app. split_and!; [done| |apply NoDup_singleton].
    intros x (blk & -> & Hin)%list_elem_of_fmap [Hx|Hx]%elem_of_cons; [|by apply elem_of_nil in Hx].
    apply find_block_None in Hbs. rewrite Forall_forall in Hbs. by apply (Hbs blk Hin).
  - apply Forall_app. split; [done|]. constructor; [apply new_block_ok|constructor].
Qed.

Lemma recovery_keeps b d blk : decoder_ok d → decoder_ok (recovery b d blk).1.
Proof.
  intros Hd. unfold recovery. destruct (solution b blk); [|done]. simpl. apply finish_ok.
  destruct Hd. by split.
Qed.

Lemma receive_ok b d h payload now : decoder_ok d → symbol_ok h →
  ∃ d' out, receive b d h payload now = Ok (d', out) ∧ decoder_ok d'.
Proof.
  intros Hd Hh. unfold receive. set (d0 := mkDecoder _ _ _).
  assert (decoder_ok d0) as Hd0 by (by destruct Hd; split).
  destruct (recently_finished _ _); [by eexists _, _|].
  pose proof (find_or_create_ok d0 h now Hd0) as Hfc.
  destruct (find_or_create d0 h now) as [d1 i]. destruct Hfc as (Hd1 & blk & Hl). rewrite Hl.
  destruct (Z.eqb_spec (Z.of_nat (b_parity_count blk)) (parity_count h)) as [Hpc|]; [cbn [negb]|by eexists _, _].
  pose proof (Forall_lookup_1 _ _ _ _ (do_each _ Hd1) Hl) as Hblk.
  destruct (store_ok blk h payload Hblk Hh Hpc) as (blk' & go & -> & Hok & Hid). cbn [rbind].
  assert (decoder_ok (with_blocks d1 (<[i := blk']> (blocks_ d1)))) as Hd2.
  { destruct Hd1 as [Hb Hf Hi He]. split; cbn [with_blocks blocks_ finished_]; [by rewrite length_insert|done| |].
    - replace (map b_id _) with (map b_id (blocks_ d1)); [done|].
      rewrite (list_fmap_insert b_id), list_insert_id; [done|]. by rewrite list_lookup_fmap, Hl, Hid.
    - by apply Forall_insert. }
  destruct go; cbn [negb]; [|by eexists _, _]. case_decide.
  - eexists _, _. split; [reflexivity|]. by apply finish_ok.
  - rewrite try_recover_ok by (by apply block_ok_shaped). destruct (recovery _ _ _) as [d' out] eqn:E. eexists _, _. split; [reflexivity|].
    pose proof (recovery_keeps b _ blk' Hd2) as H2. by rewrite E in H2.
Qed.

Lemma expire_loop_suffix now bs : ∀ fin n, ∃ k, (expire_loop bs fin now n).1.1 = drop k bs.
Proof.
  induction bs as [|blk bs IH]; intros fin n; simpl; [by exists 0%nat|].
  case_match; [|by exists 0%nat]. destruct (IH (fin ++ [b_id blk]) (S n)) as [k E]. by exists (S k).
Qed.

Lemma expire_ok d now : decoder_ok d → decoder_ok (expire d now).1.
Proof.
  intros [Hb Hf Hi He]. unfold expire.
  pose proof (expire_loop_suffix now (blocks_ d) (finished_ d) 0) as [k Hk].
  destruct (expire_loop _ _ _ _) as [[bs fin] n]. simpl in *. subst bs. split; simpl.
  - rewrite length_drop. lia.
  - apply trim_finished_length.
  - rewrite <- skipn_map. eapply sublist_NoDup; [done|apply sublist_drop].
  - by apply Forall_drop.
Qed.

(** The states a decoder can reach, whatever parsed headers and payloads
    arrive and whenever [expire] runs. *)
Inductive decoder_reach (b : Backend) : FecDecoder → Prop :=
| reach_new : decoder_reach b new_decoder
| reach_receive d d' h payload now out : decoder_reach b d → symbol_ok h →
    receive b d h payload now = Ok (d', out) → decoder_reach b d'
| reach_expire d now : decoder_reach b d → decoder_reach b (expire d now).1.

(** C39. No sequence of symbols drives the decoder out of bounds: in every
    reachable state at most 128 blocks with pairwise different ids and 256
    finished ids are held and each block's vectors match its counts, and
    [receive] of any symbol whose header parsed, with any payload, returns.
    Every access of [receive] and of [try_recover] is checked in the model
    and would be [Ub] outside its range: the slots of the block, the 16 by 16
    matrix and the syndromes of the elimination, and the range of the packet
    inside a recovered symbol, whose length field is whatever the arithmetic
    on hostile payloads yields. *)
Theorem decoder_stays_bounded b d : decoder_reach b d →
  decoder_ok d ∧
  ∀ h payload now, symbol_ok h → ∃ d' out, receive b d h payload now = Ok (d', out).
Proof.
  intros Hr. assert (decoder_ok d) as Hd.
  { induction Hr as [|d d' h payload now out _ IH Hh Hrun|d now _ IH].
    - split; simpl; [lia|lia|constructor|constructor].
    - destruct (receive_ok b d h payload now IH Hh) as (d2 & o2 & E & Hok). congruence.
    - by apply expire_ok. }
  split; [done|]. intros h payload now Hh. destruct (receive_ok b d h payload now Hd Hh) as (d' & out & E & _). eauto.
Qed.
Lemma decoder_stays_bounded_witness :
  let h := mkSymbol 9 0 1 1 true 3 in
  ∃ d, receive neon new_decoder h [200; 200; 1] 0 = Ok (d, []) ∧ decoder_ok d ∧ unrecoverable (d_stats d) = 1.
Proof.
  intros h.
  destruct (decoder_stays_bounded neon new_decoder (reach_new neon)) as [_ Hrun].
  assert (symbol_ok h) as Hh by (unfold symbol_ok; vm_compute; intuition discriminate).
  destruct (Hrun h [200; 200; 1] 0 Hh) as (d & out & E).
  assert (decoder_ok d) as Hd by (by apply (decoder_stays_bounded neon), (reach_receive neon new_decoder d h [200; 200; 1] 0 out (reach_new neon))).
  exists d. vm_compute in E. injection E as <- <-. split; [vm_compute; reflexivity|]. split; [exact Hd|reflexivity].
Defined.
