(* ===== verification/Nonce.v ===== *)
(** Nonces and key labels: [src/nonce.cpp] and [src/key_schedule.cpp].

    The security of the data channel rests on two facts proved here: a
    [PacketCounter] never yields a counter twice, so no nonce repeats under a
    key, and the label a traffic key is derived under determines domain,
    direction and generation. *)

From Stdlib Require Import String Ascii.
From S2P Require Import Prelude Packet.

(** ** [make_nonce] *)

Fixpoint nonce_loop {E} (n : nat) (index : nat) (nonce : list Z) (counter : Z) : res E (list Z) :=
  match n with
  | O => Ok nonce
  | S n =>
      let* nonce := wr nonce (4 + index) (u8 (Z.shiftr counter (Z.of_nat index * 8))) in
      nonce_loop n (S index) nonce counter
  end.

Definition make_nonce {E} (counter : Z) : res E (list Z) :=
  nonce_loop 8 0 (replicate 12 0) counter.

(** ** [PacketCounter] *)

Record PacketCounter := mkCounter { value_ : Z; exhausted_ : bool }.

Definition new_counter (initial : Z) : PacketCounter := mkCounter initial false.

Definition next (c : PacketCounter) : PacketCounter * res Error Z :=
  if exhausted_ c then (c, Fail counter_exhausted)
  else
    let counter := value_ c in
    (if value_ c =? UINT64_MAX then mkCounter (value_ c) true
     else mkCounter (u64 (value_ c + 1)) false, Ok counter).

(** The counters that [n] calls of [next] yield. *)
Fixpoint take_counters (n : nat) (c : PacketCounter) : list Z :=
  match n with
  | O => []
  | S n => match next c with (c, Ok v) => v :: take_counters n c | (c, _) => take_counters n c end
  end.

(** ** [make_key_label] *)

Definition text (s : string) : list Z := map (λ a, Z.of_N (N_of_ascii a)) (list_ascii_of_string s).

Inductive KeyDirection := initiator_to_responder | responder_to_initiator.

Definition kProtocolLabel : list Z := text "norr v1".
Definition kDataLabel : list Z := text "data".
Definition kControlLabel : list Z := text "control".

Definition direction_label (d : KeyDirection) : list Z :=
  match d with initiator_to_responder => text "i2r" | responder_to_initiator => text "r2i" end.

(** The 64-byte buffer and the bytes in use. *)
Record KeyLabel := mkLabel { label_bytes : list Z; label_size : nat }.

Definition label_view (l : KeyLabel) : list Z := take (label_size l) (label_bytes l).

Fixpoint append_chars {E} (chars : list Z) (l : KeyLabel) : res E KeyLabel :=
  match chars with
  | [] => Ok l
  | c :: chars =>
      let* bytes := wr (label_bytes l) (label_size l) c in
      append_chars chars (mkLabel bytes (S (label_size l)))
  end.

(** [Fail] is [false]. *)
Definition append_text (l : KeyLabel) (chars : list Z) : res Error KeyLabel :=
  throw packet_too_large when (blen (label_bytes l) <? Z.of_nat (label_size l) + blen chars) else
  append_chars chars l.

Fixpoint append_u32_loop {E} (n index : nat) (bytes : list Z) (size : nat) (value : Z) : res E (list Z) :=
  match n with
  | O => Ok bytes
  | S n =>
      let* bytes := wr bytes (size + index) (u8 (Z.shiftr value ((3 - Z.of_nat index) * 8))) in
      append_u32_loop n (S index) bytes size value
  end.

Definition append_u32 {E} (l : KeyLabel) (value : Z) : res E KeyLabel :=
  let* bytes := append_u32_loop 4 0 (label_bytes l) (label_size l) value in
  Ok (mkLabel bytes (label_size l + 4)).

Definition make_key_label (domain : list Z) (direction : KeyDirection) (generation : Z)
    : res Error KeyLabel :=
  throw malformed_packet when match domain with [] => true | _ => false end else
  let label := mkLabel (replicate 64 0) 0 in
  let* label := append_text label kProtocolLabel in
  let* label := append_text label (text ":") in
  let* label := append_text label domain in
  let* label := append_text label (text ":") in
  let* label := append_text label (direction_label direction) in
  let* label := append_text label (text ":") in
  throw packet_too_large when (blen (label_bytes label) <? Z.of_nat (label_size label) + 4) else
  append_u32 label generation.

(** ** Nonces do not repeat *)

Definition le_bytes (n : nat) (v : Z) : list Z := rev (be_bytes n v).

Lemma make_nonce_spec {E} counter :
  make_nonce (E:=E) counter = Ok (replicate 4 0 ++ le_bytes 8 counter).
Proof.
  unfold make_nonce. cbn [nonce_loop replicate Nat.add].
  do 8 (rewrite wr_spec by (simpl; lia); cbn [rbind take drop app Nat.add]).
  unfold le_bytes. cbn [be_bytes rev app]. done.
Qed.

Lemma make_nonce_inj {E} a c : is_u64 a → is_u64 c →
  make_nonce (E:=E) a = make_nonce c → a = c.
Proof.
  intros Ha Hc. rewrite !make_nonce_spec. intros H. apply Ok_inj, app_inv_head in H.
  unfold le_bytes in H. apply (f_equal (@rev Z)) in H. rewrite !rev_involutive in H.
  apply (f_equal be_value) in H. by rewrite !be_value_small in H by word_lia.
Qed.

Lemma take_counters_exhausted n v : take_counters n (mkCounter v true) = [].
Proof. by induction n. Qed.

(** Consecutive counters up to the largest one, then none. *)
Lemma take_counters_seq n v : is_u64 v →
  take_counters n (new_counter v) = seqZ v (Z.min (Z.of_nat n) (2 ^ 64 - v)).
Proof.
  revert v. induction n as [|n IH]; intros v Hv; [by rewrite seqZ_nil by word_lia|].
  cbn [take_counters]. unfold next. cbn [new_counter exhausted_ value_].
  rewrite seqZ_cons by word_lia. destruct (Z.eqb_spec v UINT64_MAX) as [->|Hne].
  - f_equal. rewrite take_counters_exhausted, seqZ_nil; [done|]. word_lia.
  - f_equal. rewrite u64_id by word_lia. change (mkCounter (v + 1) false) with (new_counter (v + 1)).
    rewrite IH by word_lia. unfold Z.succ, Z.pred. f_equal. lia.
Qed.

(** However often [next] is called on a counter that starts at [v], it
    yields the counters [v], [v + 1], ... up to [2^64 - 1] once each and then
    only [counter_exhausted]; the nonces made from them are pairwise
    different, so no nonce is used twice under a key. *)
Lemma nonces_never_repeat n v : is_u64 v →
  take_counters n (new_counter v) = seqZ v (Z.min (Z.of_nat n) (2 ^ 64 - v)) ∧
  NoDup (map (make_nonce (E := Error)) (take_counters n (new_counter v))).
Proof.
  intros Hv. pose proof (take_counters_seq n v Hv) as E. split; [done|]. rewrite E. clear E.
  assert (∀ x, x ∈ seqZ v (Z.min (Z.of_nat n) (2 ^ 64 - v)) → is_u64 x) as Hr.
  { intros x Hx%elem_of_seqZ. word_lia. }
  pose proof (NoDup_seqZ v (Z.min (Z.of_nat n) (2 ^ 64 - v))) as Hnd.
  induction Hnd as [|x l Hx Hl IH]; [constructor|]. cbn [map]. constructor.
  - intros (y & Heq & Hy)%list_elem_of_fmap. apply make_nonce_inj in Heq; [by subst|apply Hr; left|apply Hr; by right].
  - apply IH. intros y Hy. apply Hr. by right.
Qed.

(** ** Labels determine what they label *)

Lemma append_chars_spec {E} chars : ∀ l, (label_size l + length chars ≤ length (label_bytes l))%nat →
  ∃ l', append_chars (E:=E) chars l = Ok l' ∧ label_view l' = label_view l ++ chars ∧
    label_size l' = (label_size l + length chars)%nat ∧ length (label_bytes l') = length (label_bytes l).
Proof.
  induction chars as [|c chars IH]; intros l Hl; simpl in Hl.
  { exists l. by rewrite app_nil_r, Nat.add_0_r. }
  cbn [append_chars]. rewrite wr_spec by lia. cbn [rbind].
  destruct (IH (mkLabel (take (label_size l) (label_bytes l) ++ c :: drop (S (label_size l)) (label_bytes l))
    (S (label_size l)))) as (l' & Hrun & Hv & Hs & Hlen); cbn [label_size label_bytes] in *.
  { rewrite length_app, length_take, length_cons, length_drop. lia. }
  exists l'. rewrite Hrun. split; [done|]. rewrite Hv, Hs, Hlen. unfold label_view. cbn [label_size label_bytes].
  split_and!; [|simpl; lia|rewrite length_app, length_take; simpl; rewrite length_drop; lia].
  rewrite take_app_ge by (rewrite length_take; lia). rewrite length_take.
  replace (S (label_size l) - label_size l `min` length (label_bytes l))%nat with 1%nat by lia.
  simpl. by rewrite <- app_assoc.
Qed.

Lemma append_u32_loop_spec {E} n index b size v : (index + n = 4)%nat →
  append_u32_loop (E:=E) n index b size v = write_u64_loop n b (size + index) v.
Proof.
  revert index b. induction n as [|n IH]; intros index b Hn; [done|]. simpl.
  replace (3 - Z.of_nat index) with (Z.of_nat n) by lia.
  destruct (wr b (size + index) _) as [b'| |]; [cbn [rbind]|done..].
  rewrite IH by lia. by rewrite <- plus_n_Sm.
Qed.

Lemma append_u32_spec {E} l v : (label_size l + 4 ≤ length (label_bytes l))%nat →
  ∃ l', append_u32 (E:=E) l v = Ok l' ∧ label_view l' = label_view l ++ be_bytes 4 v.
Proof.
  intros Hl. unfold append_u32. rewrite append_u32_loop_spec, Nat.add_0_r by done.
  rewrite write_u64_loop_spec by lia. cbn [rbind]. eexists. split; [reflexivity|].
  unfold label_view. cbn [label_size label_bytes]. rewrite app_assoc. apply take_app_length'.
  rewrite length_app, length_take, length_be_bytes. lia.
Qed.

Lemma append_text_inv l chars l' : append_text l chars = Ok l' →
  (label_size l ≤ length (label_bytes l))%nat →
  label_view l' = label_view l ++ chars ∧ (label_size l' ≤ length (label_bytes l'))%nat.
Proof.
  unfold append_text. intros H Hl. unguard H. reflect_bools. unfold blen in *.
  destruct (append_chars_spec (E:=Error) chars l) as (l2 & Hrun & Hv & Hs & Hlen); [lia|].
  rewrite Hrun in H. injection H as <-. split; [done|]. lia.
Qed.

(** What a label spells out. *)
Definition label_text (domain : list Z) (direction : KeyDirection) (generation : Z) : list Z :=
  text "norr v1:" ++ domain ++ text ":" ++ direction_label direction ++ text ":" ++ be_bytes 4 generation.

Lemma make_key_label_text domain direction generation l :
  make_key_label domain direction generation = Ok l → label_view l = label_text domain direction generation.
Proof.
  unfold make_key_label. intros H. unguard H. set (l0 := mkLabel (replicate 64 0) 0) in H.
  assert (label_size l0 ≤ length (label_bytes l0))%nat as H0 by (simpl; lia).
  do 6 (match type of H with rbind (append_text ?a ?b) _ = _ =>
    let E := fresh "E" in let V := fresh "V" in
    destruct (append_text a b) as [?l| |] eqn:E; [cbn [rbind] in H|done..];
    apply append_text_inv in E as [V ?]; [|assumption] end).
  unguard H. reflect_bools. unfold blen in *.
  match type of H with append_u32 ?a _ = _ =>
    destruct (append_u32_spec (E:=Error) a generation) as (l' & Hrun & Hv); [lia|] end.
  rewrite Hrun in H. injection H as <-. rewrite Hv. repeat match goal with V : label_view _ = _ |- _ => rewrite V; clear V end.
  unfold label_text. by rewrite <- !app_assoc.
Qed.

(** Traffic keys are separated: the labels of two derivations agree only
    if domain, direction and key generation agree, so the keys of the two
    directions, of data and control, and of two generations come from
    different labels. *)
Lemma key_labels_separate domain domain' direction direction' generation generation' l l' :
  is_u32 generation → is_u32 generation' →
  make_key_label domain direction generation = Ok l →
  make_key_label domain' direction' generation' = Ok l' →
  label_view l = label_view l' →
  domain = domain' ∧ direction = direction' ∧ generation = generation'.
Proof.
  intros Hg Hg' Hl Hl' Heq. apply make_key_label_text in Hl, Hl'. rewrite Hl, Hl' in Heq.
  unfold label_text in Heq. apply app_inv_head in Heq. rewrite !(app_assoc _ _ (be_bytes 4 _)) in Heq.
  rewrite !app_assoc in Heq. apply app_inj_2 in Heq as [Heq Hgen]; [|done].
  rewrite <- !app_assoc in Heq.
  assert (length (text ":" ++ direction_label direction ++ text ":") =
          length (text ":" ++ direction_label direction' ++ text ":")) as Hlen by (by destruct direction, direction').
  apply app_inj_2 in Heq as [-> Hd]; [|done]. split_and!; [done| |].
  - by destruct direction, direction'.
  - apply (f_equal be_value) in Hgen. by rewrite !be_value_small in Hgen by word_lia.
Qed.
