(* ===== verification/Handshake.v ===== *)
(** The handshake: the state machine of [src/handshake.cpp], the frame
    format of [src/handshake_frame.cpp] and the capability negotiation of
    [src/capability.cpp]. *)

From S2P Require Import Prelude Packet.

(** ** [HandshakeMachine] *)

Inductive HandshakeRole := initiator | responder.
Inductive HandshakeState :=
  idle | init_sent | response_received | response_sent | confirm_sent
| established | rekeying | closing | closed.
Inductive HandshakeMessage := none | init | response | confirm | rekey_init | rekey_ack | cookie_reply.
Inductive HandshakeError :=
  invalid_role | invalid_transition | unauthenticated_message | generation_exhausted.

#[export] Instance HandshakeRole_eq : EqDecision HandshakeRole. Proof. solve_decision. Defined.
#[export] Instance HandshakeState_eq : EqDecision HandshakeState. Proof. solve_decision. Defined.
#[export] Instance HandshakeMessage_eq : EqDecision HandshakeMessage. Proof. solve_decision. Defined.

Definition kMaximumKeyGeneration : Z := 4294967295.

Record HandshakeMachine := mkMachine {
  role_ : HandshakeRole; state_ : HandshakeState; generation_ : Z }.

Definition new_machine (role : HandshakeRole) : HandshakeMachine := mkMachine role idle 0.

Abbreviation reply := (res HandshakeError HandshakeMessage).

Definition goto (m : HandshakeMachine) (s : HandshakeState) : HandshakeMachine :=
  mkMachine (role_ m) s (generation_ m).
Definition next_generation (m : HandshakeMachine) : HandshakeMachine :=
  mkMachine (role_ m) established (u32 (generation_ m + 1)).

Definition start (m : HandshakeMachine) : HandshakeMachine * reply :=
  if decide (role_ m ≠ initiator) then (m, Fail invalid_role)
  else if decide (state_ m ≠ idle) then (m, Fail invalid_transition)
  else (goto m init_sent, Ok init).

Definition receive (m : HandshakeMachine) (message : HandshakeMessage) (authenticated : bool)
    : HandshakeMachine * reply :=
  if negb authenticated then (m, Fail unauthenticated_message)
  else if decide (role_ m = initiator ∧ state_ m = init_sent ∧ message = response)
  then (goto m response_received, Ok confirm)
  else if decide (role_ m = responder ∧ state_ m = idle ∧ message = init)
  then (goto m response_sent, Ok response)
  else if decide (role_ m = responder ∧ state_ m = response_sent ∧ message = confirm)
  then (goto m established, Ok none)
  else if decide (role_ m = initiator ∧ state_ m = confirm_sent ∧ message = none)
  then (goto m established, Ok none)
  else if decide (state_ m = established ∧ message = rekey_init)
  then if generation_ m =? kMaximumKeyGeneration then (m, Fail generation_exhausted)
       else (goto m rekeying, Ok rekey_ack)
  else if decide (state_ m = rekeying ∧ message = rekey_ack) then (next_generation m, Ok none)
  else if decide (state_ m = rekeying ∧ message = none) then (next_generation m, Ok none)
  else (m, Fail invalid_transition).

Definition send_confirm (m : HandshakeMachine) : HandshakeMachine * reply :=
  if decide (role_ m ≠ initiator) then (m, Fail invalid_role)
  else if decide (state_ m ≠ response_received) then (m, Fail invalid_transition)
  else (goto m confirm_sent, Ok confirm).

Definition start_rekey (m : HandshakeMachine) : HandshakeMachine * reply :=
  if decide (state_ m ≠ established) then (m, Fail invalid_transition)
  else if generation_ m =? kMaximumKeyGeneration then (m, Fail generation_exhausted)
  else (goto m rekeying, Ok rekey_init).

Definition close (m : HandshakeMachine) : HandshakeMachine := goto m closed.
Definition begin_close (m : HandshakeMachine) : HandshakeMachine := goto m closing.

(** ** Handshake frames *)

Definition message_val (m : HandshakeMessage) : Z :=
  match m with
  | none => 0 | init => 1 | response => 2 | confirm => 3 | rekey_init => 4 | rekey_ack => 5
  | cookie_reply => 6
  end.

(** [static_cast<HandshakeMessage>] of a byte; [None] is a value outside the
    enumeration. *)
Definition message_of (b : Z) : option HandshakeMessage :=
  match b with
  | 0 => Some none | 1 => Some init | 2 => Some response | 3 => Some confirm
  | 4 => Some rekey_init | 5 => Some rekey_ack | 6 => Some cookie_reply
  | _ => None
  end.

Definition kHandshakeEnvelopeSize : Z := 4.
Definition kMaximumHandshakePayload : Z := 4096.
Definition kHandshakeMacSize : Z := 16.
Definition kHandshakeMacTrailerSize : Z := 2 * kHandshakeMacSize.

Definition mac1_offset (noise_length : Z) : Z := kHandshakeEnvelopeSize + noise_length.
Definition mac2_offset (noise_length : Z) : Z := mac1_offset noise_length + kHandshakeMacSize.

Definition is_wire_message (m : option HandshakeMessage) : bool :=
  match m with
  | Some m => (message_val init <=? message_val m) && (message_val m <=? message_val cookie_reply)
  | None => false
  end.

Record HandshakeFrameView := mkFrameView {
  fv_message : HandshakeMessage;
  noise_message : list Z;
  has_macs : bool;
  mac1 : list Z;
  mac2 : list Z;
  mac1_covered : list Z;
  mac2_covered : list Z;
}.

Definition parse_handshake_frame (bytes : list Z) : res Error HandshakeFrameView :=
  throw malformed_packet when (blen bytes <? kHandshakeEnvelopeSize) else
  let* b0 := rd bytes 0 in
  let* version := rd bytes 1 in
  let* length := read_u16 bytes 2 in
  throw unsupported_version when negb (version =? 1) else
  throw malformed_packet when negb (is_wire_message (message_of b0)) else
  throw packet_too_large when (kMaximumHandshakePayload <? length) else
  let without_header := blen bytes - kHandshakeEnvelopeSize in
  let message := default none (message_of b0) in
  if length =? without_header then
    let* noise := subspan_from bytes (Z.to_nat kHandshakeEnvelopeSize) in
    Ok (mkFrameView message noise false [] [] [] [])
  else
    throw payload_length_mismatch when negb (length + kHandshakeMacTrailerSize =? without_header) else
    let first := mac1_offset length in
    let second := mac2_offset length in
    let* noise := subspan bytes (Z.to_nat kHandshakeEnvelopeSize) (Z.to_nat length) in
    let* m1 := subspan bytes (Z.to_nat first) (Z.to_nat kHandshakeMacSize) in
    let* m2 := subspan bytes (Z.to_nat second) (Z.to_nat kHandshakeMacSize) in
    let* c1 := span_first bytes (Z.to_nat first) in
    let* c2 := span_first bytes (Z.to_nat second) in
    Ok (mkFrameView message noise true m1 m2 c1 c2).

Definition serialize_handshake_frame (message : HandshakeMessage) (noise : list Z) : res Error (list Z) :=
  throw malformed_packet when negb (is_wire_message (Some message)) else
  throw packet_too_large when (kMaximumHandshakePayload <? blen noise) else
  let bytes := replicate (Z.to_nat (kHandshakeEnvelopeSize + blen noise)) 0 in
  let* bytes := wr bytes 0 (u8 (message_val message)) in
  let* bytes := wr bytes 1 1 in
  let length := u16 (blen noise) in
  let* bytes := wr bytes 2 (u8 (Z.shiftr length 8)) in
  let* bytes := wr bytes 3 (u8 length) in
  blit bytes 4 noise.

Definition serialize_handshake_frame_with_macs (message : HandshakeMessage) (noise : list Z)
    : res Error (list Z) :=
  let* bytes := serialize_handshake_frame message noise in
  Ok (bytes ++ replicate (Z.to_nat kHandshakeMacTrailerSize) 0).

(** ** Capabilities *)

Record ProtocolVersion := mkVersion { major : Z; minor : Z }.
Record CapabilityOffer := mkOffer { offer_version : ProtocolVersion; supported : Z; required : Z }.
Inductive NegotiationError := major_version_mismatch | required_capability_missing.
Record NegotiatedCapabilities := mkNegotiated { agreed_version : ProtocolVersion; enabled : Z }.

Definition negotiate_capabilities (local peer : CapabilityOffer) : res NegotiationError NegotiatedCapabilities :=
  throw major_version_mismatch when negb (major (offer_version local) =? major (offer_version peer)) else
  let enabled := Z.land (supported local) (supported peer) in
  let required := Z.lor (required local) (required peer) in
  throw required_capability_missing when negb (Z.land enabled required =? required) else
  Ok (mkNegotiated
        (mkVersion (major (offer_version local))
           (Z.min (minor (offer_version local)) (minor (offer_version peer)))) enabled).

(** ** What a run of the machine has seen *)

Inductive operation :=
| op_start | op_receive (message : HandshakeMessage) (authenticated : bool)
| op_send_confirm | op_start_rekey | op_close | op_begin_close.

Definition apply_op (m : HandshakeMachine) (op : operation) : HandshakeMachine * reply :=
  match op with
  | op_start => start m
  | op_receive message authenticated => receive m message authenticated
  | op_send_confirm => send_confirm m
  | op_start_rekey => start_rekey m
  | op_close => (close m, Ok none)
  | op_begin_close => (begin_close m, Ok none)
  end.

(** A machine with the messages it has accepted so far and the number of
    rekeys it has completed. *)
Record history := mkHistory { machine : HandshakeMachine; accepted : list HandshakeMessage; rekeys : Z }.

Definition observe (h : history) (op : operation) : history :=
  let '(m, r) := apply_op (machine h) op in
  mkHistory m
    (match op, r with op_receive message _, Ok _ => accepted h ++ [message] | _, _ => accepted h end)
    (if decide (state_ (machine h) = rekeying ∧ state_ m = established) then rekeys h + 1 else rekeys h).

Definition observe_all (role : HandshakeRole) (ops : list operation) : history :=
  foldl observe (mkHistory (new_machine role) [] 0) ops.

(** What the handshake proper consists of, on either side. *)
Definition proof_of_peer (role : HandshakeRole) : list HandshakeMessage :=
  match role with initiator => [response; none] | responder => [init; confirm] end.

Definition log_fits (role : HandshakeRole) (s : HandshakeState) (log : list HandshakeMessage) : Prop :=
  match role, s with
  | _, (established | rekeying) => proof_of_peer role `prefix_of` log
  | _, (closing | closed) => True
  | _, idle => log = []
  | initiator, init_sent => log = []
  | initiator, (response_received | confirm_sent) => log = [response]
  | responder, response_sent => log = [init]
  | _, _ => False
  end.

Record history_ok (role : HandshakeRole) (h : history) : Prop := {
  ho_role : role_ (machine h) = role;
  ho_log : log_fits role (state_ (machine h)) (accepted h);
  ho_count : generation_ (machine h) = rekeys h;
  ho_range : 0 ≤ generation_ (machine h) ≤ kMaximumKeyGeneration;
  ho_room : state_ (machine h) = rekeying → generation_ (machine h) < kMaximumKeyGeneration;
}.

(** Decide the branch conditions of a step on a concrete state. *)
Ltac run_step :=
  repeat first
    [ rewrite decide_True by (split_and?; discriminate || reflexivity)
    | rewrite decide_False by (intros ?; destruct_and?; discriminate || done) ].

Lemma observe_ok role h op : history_ok role h → history_ok role (observe h op).
Proof.
  destruct h as [[r st g] log n]. intros [Hr Hl Hc Hg Hroom]. simpl in *. subst r n.
  assert (u32 (g + 1) = g + 1 ∨ g = kMaximumKeyGeneration) as Hu.
  { destruct (Z.eq_dec g kMaximumKeyGeneration); [by right|left]. apply u32_id.
    unfold kMaximumKeyGeneration in *. word_lia. }
  assert (∀ message, proof_of_peer role `prefix_of` log → proof_of_peer role `prefix_of` log ++ [message]) as Hp
    by (intros; by apply prefix_app_r).
  unfold observe. cbn [machine accepted rekeys].
  destruct op as [|message []| | | |], role, st; try destruct message; try done;
    unfold apply_op, start, receive, send_confirm, start_rekey, close, begin_close;
    cbn [role_ state_ generation_ negb log_fits proof_of_peer] in *; run_step;
    try (destruct (Z.eqb_spec g kMaximumKeyGeneration) as [Hmax|Hmax]);
    cbn [goto next_generation role_ state_ generation_ machine accepted rekeys]; run_step; subst;
    split; cbn [machine role_ state_ generation_ accepted rekeys log_fits proof_of_peer goto next_generation];
    intros; auto; try lia; try done;
    try (specialize (Hroom eq_refl); destruct Hu as [->|]; lia).
Qed.

(** The messages a run presents as authenticated. *)
Definition authentic (op : operation) : option HandshakeMessage :=
  match op with op_receive message true => Some message | _ => None end.

Lemma accepted_authentic ops : ∀ h,
  ∃ more, accepted (foldl observe h ops) = accepted h ++ more ∧ more `sublist_of` omap authentic ops.
Proof.
  induction ops as [|op ops IH]; intros h; simpl.
  { exists []. by rewrite app_nil_r. }
  destruct (IH (observe h op)) as (more & -> & Hsub). unfold observe.
  destruct (apply_op (machine h) op) as [m r] eqn:E. cbn [accepted].
  destruct op as [|message []| | | |]; cbn [authentic]; try (by exists more).
  - destruct r as [x|e|]; [exists (message :: more)|exists more..]; (split; [by rewrite <- ?app_assoc|]);
      [by apply sublist_skip|by apply sublist_cons..].
  - simpl in E. unfold receive in E. cbn [negb] in E. injection E as <- <-. by exists more.
Qed.

(** C35. No peer is taken for established without proof: in every run of the
    machine, a state of [established] or [rekeying] means that the peer's
    messages of the handshake were accepted in order, all of them
    authenticated; and the key generation counts the completed rekeys
    exactly, without ever wrapping around. *)
Theorem established_is_authenticated role ops :
  let h := observe_all role ops in
  (state_ (machine h) = established ∨ state_ (machine h) = rekeying →
     proof_of_peer role `prefix_of` accepted h) ∧
  accepted h `sublist_of` omap authentic ops ∧
  generation_ (machine h) = rekeys h ∧ rekeys h ≤ kMaximumKeyGeneration.
Proof.
  intros h. assert (history_ok role h) as [Hr Hl Hc Hg _].
  { unfold h, observe_all. assert (history_ok role (mkHistory (new_machine role) [] 0)) as H0.
    { split; simpl; [done|by destruct role|done|unfold kMaximumKeyGeneration; lia|done]. }
    revert H0. generalize (mkHistory (new_machine role) [] 0). clear. induction ops as [|op ops IH]; [done|].
    intros h Hh. simpl. by apply IH, observe_ok. }
  split_and!; [| |done|lia].
  - intros [E|E]; rewrite E in Hl; by destruct role.
  - destruct (accepted_authentic ops (mkHistory (new_machine role) [] 0)) as (more & E & Hs).
    unfold h, observe_all. by rewrite E.
Qed.
Lemma established_is_authenticated_witness :
  let h := observe_all responder [op_receive init true; op_receive confirm true] in
  state_ (machine h) = established ∧ proof_of_peer responder `prefix_of` accepted h.
Proof.
  intros h. destruct (established_is_authenticated responder [op_receive init true; op_receive confirm true]) as [H _].
  split; [reflexivity|]. apply H. left. reflexivity.
Defined.

(** ** Frames on the wire *)

Definition frame_bytes (message : HandshakeMessage) (noise : list Z) : list Z :=
  [message_val message; 1] ++ be_bytes 2 (blen noise) ++ noise.

Definition frame_ok (message : HandshakeMessage) (noise : list Z) : Prop :=
  message ≠ none ∧ blen noise ≤ kMaximumHandshakePayload.

(** The view of a frame without MACs, or with the two MACs in [trailer]. *)
Definition frame_view (message : HandshakeMessage) (noise trailer : list Z) : HandshakeFrameView :=
  match trailer with
  | [] => mkFrameView message noise false [] [] [] []
  | _ => mkFrameView message noise true (take 16 trailer) (drop 16 trailer)
           (frame_bytes message noise) (frame_bytes message noise ++ take 16 trailer)
  end.

Lemma message_of_val m : message_of (message_val m) = Some m.
Proof. by destruct m. Qed.

Lemma message_of_inv b m : message_of b = Some m → b = message_val m.
Proof. unfold message_of. intros H. repeat case_match; simplify_eq; done. Qed.

Lemma length_frame_bytes m noise : length (frame_bytes m noise) = (4 + length noise)%nat.
Proof. done. Qed.

Lemma parse_frame_bytes m noise trailer : frame_ok m noise → length trailer = 0%nat ∨ length trailer = 32%nat →
  parse_handshake_frame (frame_bytes m noise ++ trailer) = Ok (frame_view m noise trailer).
Proof.
  intros [Hm Hn] Ht. unfold kMaximumHandshakePayload in Hn. pose proof (blen_nonneg noise) as H0.
  set (bytes := frame_bytes m noise ++ trailer).
  assert (length bytes = 4 + length noise + length trailer)%nat as Hlen by (unfold bytes; by rewrite length_app).
  assert (rd (E:=Error) bytes 0 = Ok (message_val m)) as R0 by done.
  assert (rd (E:=Error) bytes 1 = Ok 1) as R1 by done.
  assert (read_u16 (E:=Error) bytes 2 = Ok (blen noise)) as R2.
  { erewrite read_u16_spec; [|reflexivity|apply u8_range..]. f_equal. be_fold 2%nat (blen noise). done. }
  unfold parse_handshake_frame, kHandshakeEnvelopeSize, kMaximumHandshakePayload.
  rewrite (proj2 (Z.ltb_ge (blen bytes) 4)) by (unfold blen; lia). cbn [guard].
  rewrite R0, R1, R2. cbn [rbind]. rewrite message_of_val.
  assert (is_wire_message (Some m) = true) as -> by (by destruct m). cbn [negb guard Z.eqb Pos.eqb].
  rewrite (proj2 (Z.ltb_ge 4096 (blen noise))) by lia. cbn [guard default].
  change (Z.to_nat 4) with 4%nat. change (Z.to_nat kHandshakeMacSize) with 16%nat.
  unfold mac2_offset, mac1_offset, kHandshakeEnvelopeSize, kHandshakeMacTrailerSize, kHandshakeMacSize.
  assert (blen bytes = 4 + blen noise + Z.of_nat (length trailer)) as Hbl by (unfold blen; lia).
  destruct Ht as [Ht|Ht].
  - rewrite (proj2 (Z.eqb_eq (blen noise) (blen bytes - 4))) by lia. apply nil_length_inv in Ht as ->.
    rewrite subspan_from_ok by lia. cbn [rbind]. do 2 f_equal. unfold bytes. by rewrite app_nil_r.
  - rewrite (proj2 (Z.eqb_neq (blen noise) (blen bytes - 4))) by (unfold blen; lia).
    rewrite (proj2 (Z.eqb_eq (blen noise + 2 * 16) (blen bytes - 4))) by (unfold blen; lia). cbn [negb guard].
    replace (Z.to_nat (4 + blen noise)) with (length (frame_bytes m noise)) by (rewrite length_frame_bytes; unfold blen; lia).
    replace (Z.to_nat (4 + blen noise + 16)) with (length (frame_bytes m noise) + 16)%nat by (rewrite length_frame_bytes; unfold blen; lia).
    replace (Z.to_nat (blen noise)) with (length noise) by (unfold blen; lia).
    rewrite !subspan_ok, !span_first_ok by (rewrite ?length_frame_bytes; lia). cbn [rbind].
    unfold frame_view. destruct trailer as [|t ts]; [done|]. set (trailer := t :: ts) in *. unfold bytes.
    change (drop 4 (frame_bytes m noise ++ trailer)) with (noise ++ trailer).
    rewrite take_app_length, drop_app_length, take_app_length, take_app_add.
    rewrite <- drop_drop, drop_app_length, (take_ge (drop 16 trailer)) by (rewrite length_drop; lia). done.
Qed.

Lemma parse_frame_inv bytes v : bytes_ok bytes → parse_handshake_frame bytes = Ok v →
  ∃ noise trailer, frame_ok (fv_message v) noise ∧ bytes = frame_bytes (fv_message v) noise ++ trailer ∧
    (length trailer = 0%nat ∨ length trailer = 32%nat).
Proof.
  intros Hok H. unfold parse_handshake_frame in H. unguard H. reflect_bools.
  unfold kHandshakeEnvelopeSize, kMaximumHandshakePayload, kHandshakeMacTrailerSize, kHandshakeMacSize in *.
  explode bytes 4%nat. rename b into x0, b0 into x1, b1 into x2, b2 into x3, rest0 into rest.
  unfold bytes_ok in Hok. repeat (apply Forall_cons_1 in Hok as [?Hb Hok]).
  cbn [rd lookup list_lookup rbind] in H.
  erewrite read_u16_spec in H; [|reflexivity|done..]. cbn [rbind] in H. unguard H. reflect_bools. subst x1.
  pose proof (be_value_range 2 [x2; x3] ltac:(repeat first [assumption | constructor]) eq_refl) as Hv.
  destruct (message_of x0) as [m|] eqn:Em; [|done]. apply message_of_inv in Em as ->. cbn [default] in H.
  set (n := be_value [x2; x3]) in *. change (256 ^ Z.of_nat 2) with 65536 in Hv.
  assert (m ≠ none) as Hm by (by intros ->). unfold blen in *. rewrite !length_cons in H.
  assert (∃ trailer, rest = take (Z.to_nat n) rest ++ trailer ∧ (Z.to_nat n ≤ length rest)%nat ∧
    (length trailer = 0%nat ∨ length trailer = 32%nat) ∧ fv_message v = m) as (trailer & Hrest & Hfit & Htr & Hmsg).
  { exists (drop (Z.to_nat n) rest). rewrite take_drop, length_drop.
    destruct (Z.eqb_spec n (Z.of_nat (S (S (S (S (length rest))))) - 4)) as [E|E].
    - rewrite subspan_from_ok in H by (simpl; lia). injection H as <-. split_and!; [done|lia|left; lia|done].
    - unguard H. reflect_bools.
      rewrite !subspan_ok, !span_first_ok in H
        by (unfold mac2_offset, mac1_offset, kHandshakeEnvelopeSize, kHandshakeMacSize; simpl length; lia).
      cbn [rbind] in H. injection H as <-. split_and!; [done|lia|right; lia|done]. }
  exists (take (Z.to_nat n) rest), trailer. rewrite Hmsg. split_and!; [|unfold frame_bytes|done].
  - split; [done|]. unfold kMaximumHandshakePayload, blen. rewrite length_take. lia.
  - replace (blen (take (Z.to_nat n) rest)) with n by (unfold blen; rewrite length_take; lia).
    unfold n at 1. be_unfold [x2; x3]. cbn [app]. by rewrite <- Hrest.
Qed.

Lemma serialize_frame_spec m noise : frame_ok m noise →
  serialize_handshake_frame m noise = Ok (frame_bytes m noise).
Proof.
  intros [Hm Hn]. unfold serialize_handshake_frame. pose proof (blen_nonneg noise).
  assert (is_wire_message (Some m) = true) as -> by (by destruct m). cbn [negb guard].
  unfold kMaximumHandshakePayload, kHandshakeEnvelopeSize in *.
  rewrite (proj2 (Z.ltb_ge 4096 (blen noise))) by lia. cbn [guard].
  replace (Z.to_nat (4 + blen noise)) with (4 + length noise)%nat by (unfold blen; lia). cbn [replicate Nat.add].
  rewrite u16_id by word_lia.
  do 4 (rewrite wr_spec by (simpl; lia); cbn [rbind take drop app]).
  rewrite drop_0. rewrite blit_ok by (rewrite !length_cons, length_replicate; lia). cbn [take drop app Nat.add].
  rewrite drop_ge, app_nil_r by (rewrite length_replicate; lia).
  unfold frame_bytes. cbn [be_bytes app]. change (Z.of_nat 0 * 8) with 0. rewrite Z.shiftr_0_r.
  f_equal. f_equal. by destruct m.
Qed.

(** A datagram parses as a handshake frame exactly when it is the four
    envelope bytes and a noise message of at most 4096 bytes, followed by
    nothing or by the two 16-byte MACs; the view has the message and the
    noise bytes, and with MACs [mac1] covers everything before it and [mac2]
    everything before it, [mac1] included.  [serialize_handshake_frame] and
    its variant with MACs write such frames. *)
Lemma handshake_frame_roundtrip bytes v : bytes_ok bytes →
  (parse_handshake_frame bytes = Ok v ↔
   ∃ m noise trailer, frame_ok m noise ∧ (length trailer = 0%nat ∨ length trailer = 32%nat) ∧
     bytes = frame_bytes m noise ++ trailer ∧ v = frame_view m noise trailer) ∧
  (∀ m noise, frame_ok m noise →
     serialize_handshake_frame m noise = Ok (frame_bytes m noise) ∧
     serialize_handshake_frame_with_macs m noise = Ok (frame_bytes m noise ++ replicate 32 0)).
Proof.
  intros Hok. split; [split|].
  - intros H. destruct (parse_frame_inv bytes v Hok H) as (noise & trailer & Hf & -> & Ht).
    rewrite parse_frame_bytes in H by done.
    exists (fv_message v), noise, trailer. split_and!; [done..|]. by injection H.
  - intros (m & noise & trailer & Hf & Ht & -> & ->). by apply parse_frame_bytes.
  - intros m noise Hf. assert (serialize_handshake_frame m noise = Ok (frame_bytes m noise)) as E
      by (by apply serialize_frame_spec).
    split; [done|]. unfold serialize_handshake_frame_with_macs. by rewrite E.
Qed.

(** ** Capabilities *)

(** Both peers of a negotiation, each seeing its own offer as local,
    reach the same outcome; what is enabled is exactly what both support, it
    includes everything either requires, and the version is one both speak. *)
Lemma negotiation_agrees a b :
  negotiate_capabilities a b = negotiate_capabilities b a ∧
  ∀ n, negotiate_capabilities a b = Ok n →
    (∀ i, 0 ≤ i → Z.testbit (enabled n) i = Z.testbit (supported a) i && Z.testbit (supported b) i) ∧
    (∀ i, 0 ≤ i → Z.testbit (required a) i || Z.testbit (required b) i = true → Z.testbit (enabled n) i = true) ∧
    major (agreed_version n) = major (offer_version a) ∧ major (agreed_version n) = major (offer_version b) ∧
    minor (agreed_version n) ≤ minor (offer_version a) ∧ minor (agreed_version n) ≤ minor (offer_version b).
Proof.
  unfold negotiate_capabilities. split.
  - rewrite (Z.eqb_sym (major (offer_version b))), (Z.land_comm (supported b)), (Z.lor_comm (required b)),
      (Z.min_comm (minor (offer_version b))).
    destruct (Z.eqb_spec (major (offer_version a)) (major (offer_version b))) as [->|]; done.
  - intros n H. unguard H. reflect_bools. injection H as <-. cbn [enabled agreed_version major minor].
    split_and!; [| |done|done|lia|lia].
    + intros i Hi. apply Z.land_spec.
    + intros i Hi Hr. rewrite <- Z.lor_spec in Hr. rewrite <- G0, Z.land_spec in Hr.
      by apply andb_true_iff in Hr as [? _].
Qed.
