(* ===== verification/Text.v ===== *)
(** The part of [std::string_view] and [<charconv>] that the parsers use,
    over texts as lists of character codes, and what it does on texts that
    are put together from fields and separators. *)

From S2P Require Import Prelude.

(** ** [std::string_view] *)

Fixpoint find_from (c : Z) (text : list Z) (at_ : nat) : option nat :=
  match text with
  | [] => None
  | x :: text => if x =? c then Some at_ else find_from c text (S at_)
  end.

(** [text.find(c, offset)]; [None] is [npos]. *)
Definition find (c : Z) (text : list Z) (offset : nat) : option nat := find_from c (drop offset text) offset.

(** [text.rfind(c)] *)
Fixpoint rfind_from (c : Z) (text : list Z) (at_ : nat) (best : option nat) : option nat :=
  match text with
  | [] => best
  | x :: text => rfind_from c text (S at_) (if x =? c then Some at_ else best)
  end.
Definition rfind (c : Z) (text : list Z) : option nat := rfind_from c text 0 None.

(** [text.find(cc, offset)] for a text of twice the character [c]. *)
Fixpoint find2_from (c : Z) (text : list Z) (at_ : nat) : option nat :=
  match text with
  | x :: ((y :: _) as rest) => if (x =? c) && (y =? c) then Some at_ else find2_from c rest (S at_)
  | _ => None
  end.
Definition find2 (c : Z) (text : list Z) (offset : nat) : option nat := find2_from c (drop offset text) offset.

(** [text.substr(offset, count)] and [text.substr(offset)]; an offset past
    the end throws, which the [noexcept] callers turn into a call of
    [std::terminate]. *)
Definition substr {E} (text : list Z) (offset : nat) (count : option nat) : res E (list Z) :=
  if decide (offset ≤ length text)%nat
  then Ok (match count with Some n => take n (drop offset text) | None => drop offset text end)
  else Ub.

(** ** [std::from_chars] for unsigned integers *)

Definition digit_value (base c : Z) : option Z :=
  let v := if (48 <=? c) && (c <=? 57) then Some (c - 48)
           else if (97 <=? c) && (c <=? 122) then Some (c - 87)
           else if (65 <=? c) && (c <=? 90) then Some (c - 55) else None in
  match v with Some v => if v <? base then Some v else None | None => None end.

(** The longest run of digits: its value and what follows it. *)
Fixpoint read_digits (base : Z) (text : list Z) (value : Z) : Z * list Z :=
  match text with
  | [] => (value, [])
  | c :: rest =>
      match digit_value base c with
      | Some d => read_digits base rest (value * base + d)
      | None => (value, text)
      end
  end.

(** [Some (value, rest)] is [ec == std::errc{}] with [ptr] at [rest];
    [None] is [invalid_argument] or [result_out_of_range]. *)
Definition from_chars (base maximum : Z) (text : list Z) : option (Z * list Z) :=
  match text with
  | [] => None
  | c :: _ =>
      match digit_value base c with
      | None => None
      | Some _ =>
          let '(value, rest) := read_digits base text 0 in
          if value <=? maximum then Some (value, rest) else None
      end
  end.

(** ** [std::to_chars] for unsigned integers, in decimal *)

Fixpoint decimal_loop (fuel : nat) (v : Z) (acc : list Z) : list Z :=
  match fuel with
  | O => acc
  | S fuel =>
      let acc := (48 + v mod 10) :: acc in
      if v <? 10 then acc else decimal_loop fuel (v / 10) acc
  end.

(** Twenty digits hold every 64-bit value. *)
Definition to_chars (v : Z) : list Z := decimal_loop 20 v [].

(** ** Fields and separators *)

Definition free_of (c : Z) (field : list Z) : Prop := Forall (λ x, x ≠ c) field.

Lemma find_from_free c f at_ : free_of c f → find_from c f at_ = None.
Proof.
  intros Hf. revert at_. induction Hf as [|x f Hx Hf IH]; intros at_; [done|]. simpl.
  destruct (Z.eqb_spec x c); [done|]. apply IH.
Qed.

Lemma find_from_hit c f rest at_ : free_of c f → find_from c (f ++ c :: rest) at_ = Some (at_ + length f)%nat.
Proof.
  intros Hf. revert at_. induction Hf as [|x f Hx Hf IH]; intros at_; simpl.
  - rewrite Z.eqb_refl. f_equal. lia.
  - destruct (Z.eqb_spec x c); [done|]. rewrite IH. f_equal. lia.
Qed.

Lemma find_free c pre f : free_of c f → find c (pre ++ f) (length pre) = None.
Proof. intros Hf. unfold find. rewrite drop_app_length. by apply find_from_free. Qed.

Lemma find_hit c pre f rest : free_of c f →
  find c (pre ++ f ++ c :: rest) (length pre) = Some (length pre + length f)%nat.
Proof. intros Hf. unfold find. rewrite drop_app_length. by apply find_from_hit. Qed.

Lemma rfind_from_free c f at_ best : free_of c f → rfind_from c f at_ best = best.
Proof.
  intros Hf. revert at_. induction Hf as [|x f Hx Hf IH]; intros at_; [done|]. simpl.
  destruct (Z.eqb_spec x c); [done|]. apply IH.
Qed.

Lemma rfind_from_app c f g at_ best :
  rfind_from c (f ++ g) at_ best = rfind_from c g (at_ + length f) (rfind_from c f at_ best).
Proof.
  revert at_ best. induction f as [|x f IH]; intros at_ best; simpl; [by rewrite Nat.add_0_r|].
  rewrite IH. f_equal. lia.
Qed.

Lemma rfind_hit c f rest : free_of c f → free_of c rest → rfind c (f ++ c :: rest) = Some (length f).
Proof.
  intros Hf Hr. unfold rfind. rewrite rfind_from_app, (rfind_from_free c f) by done. simpl.
  rewrite Z.eqb_refl. by apply rfind_from_free.
Qed.

Lemma substr_field {E} pre f rest : substr (E:=E) (pre ++ f ++ rest) (length pre) (Some (length f)) = Ok f.
Proof.
  unfold substr. rewrite decide_True by (rewrite length_app; lia).
  by rewrite drop_app_length, take_app_length.
Qed.

Lemma substr_rest {E} pre rest : substr (E:=E) (pre ++ rest) (length pre) None = Ok rest.
Proof. unfold substr. rewrite decide_True by (rewrite length_app; lia). by rewrite drop_app_length. Qed.

(** [f1 sep f2 sep ... fn] *)
Fixpoint join (sep : Z) (fields : list (list Z)) : list Z :=
  match fields with
  | [] => []
  | [f] => f
  | f :: fields => f ++ sep :: join sep fields
  end.

Lemma join_cons sep f g fields : join sep (f :: g :: fields) = f ++ sep :: join sep (g :: fields).
Proof. done. Qed.

Lemma join_free c sep fields : c ≠ sep → Forall (free_of c) fields → free_of c (join sep fields).
Proof.
  intros Hc. induction fields as [|f [|g fields] IH]; intros H; [constructor|by apply Forall_cons_1 in H as [? _]|].
  apply Forall_cons_1 in H as [Hf H]. rewrite join_cons. apply Forall_app. split; [done|].
  constructor; [done|by apply IH].
Qed.

Lemma find2_step c x y l at_ : find2_from c (x :: y :: l) at_ =
  if (x =? c) && (y =? c) then Some at_ else find2_from c (y :: l) (S at_).
Proof. done. Qed.

Lemma find2_from_free c f rest at_ : free_of c f → f ≠ [] →
  find2_from c (f ++ c :: rest) at_ = find2_from c (c :: rest) (at_ + length f)%nat.
Proof.
  intros Hf. revert at_. induction Hf as [|x f Hx Hf IH]; intros at_ Hne; [done|].
  assert (∃ y ys, f ++ c :: rest = y :: ys) as (y & ys & E) by (destruct f; eauto).
  change ((x :: f) ++ c :: rest) with (x :: (f ++ c :: rest)). rewrite E, find2_step.
  destruct (Z.eqb_spec x c); [done|]. cbn [andb]. rewrite <- E. destruct f as [|z f].
  - simpl app. f_equal. simpl. lia.
  - rewrite IH by done. f_equal. simpl. lia.
Qed.

(** Nonempty fields leave no two separators in a row. *)
Lemma find2_join c fields at_ : Forall (λ f, free_of c f ∧ f ≠ []) fields → find2_from c (join c fields) at_ = None.
Proof.
  assert (∀ f k, free_of c f → find2_from c f k = None) as Hfree.
  { intros f k Hf. revert k. induction Hf as [|x f Hx Hf IH]; intros k; [done|]. cbn [find2_from].
    destruct f as [|y f]; [done|]. rewrite ?find2_step. destruct (Z.eqb_spec x c); [done|]. apply IH. }
  revert at_. induction fields as [|f [|g fields] IH]; intros at_ H; [done| |].
  - apply Forall_cons_1 in H as [[Hf _] _]. by apply Hfree.
  - apply Forall_cons_1 in H as [[Hf Hne] H]. rewrite join_cons, find2_from_free by done.
    pose proof (Forall_cons_1 _ _ _ H) as [[Hg Hgne] _].
    assert (∃ y ys, join c (g :: fields) = y :: ys ∧ y ≠ c) as (y & ys & E & Hy).
    { destruct g as [|y g]; [done|]. apply Forall_cons_1 in Hg as [Hy _].
      destruct fields as [|h fields]; [by exists y, g|]. rewrite join_cons. simpl. eauto. }
    rewrite E, find2_step. rewrite (proj2 (Z.eqb_neq y c)) by done. rewrite andb_false_r.
    rewrite <- E. by apply IH.
Qed.
