(* ===== verification/Address.v ===== *)
(** Addresses, prefixes and endpoints: [src/address.cpp] and
    [src/endpoint.cpp].

    An address always has sixteen octets; an IPv4 address uses the first
    four.  Texts are lists of character codes. *)

From S2P Require Import Prelude Packet Text.

Inductive AddressFamily := ipv4 | ipv6.
#[export] Instance AddressFamily_eq : EqDecision AddressFamily. Proof. solve_decision. Defined.

Definition address_length (f : AddressFamily) : nat := match f with ipv4 => 4 | ipv6 => 16 end.
Definition maximum_prefix_length (f : AddressFamily) : Z := match f with ipv4 => 32 | ipv6 => 128 end.

Record Address := mkAddress { family_ : AddressFamily; octets_ : list Z }.
#[export] Instance Address_eq : EqDecision Address. Proof. solve_decision. Defined.

Definition address_bytes (a : Address) : list Z := take (address_length (family_ a)) (octets_ a).

Definition from_bytes (f : AddressFamily) (bytes : list Z) : Address :=
  let length := Nat.min (length bytes) 16 in
  mkAddress f (take length bytes ++ drop length (replicate 16 0)).

Definition bit (a : Address) (index : Z) : bool :=
  if maximum_prefix_length (family_ a) <=? index then false
  else
    let octet := octets_ a !!! Z.to_nat (index / 8) in
    negb (Z.land (Z.shiftr octet (7 - index mod 8)) 1 =? 0).

(** ** Parsing *)

Definition parse_decimal (text : list Z) (maximum : Z) : res Error Z :=
  throw malformed_packet when (blen text =? 0) || (3 <? blen text) else
  throw malformed_packet when (1 <? blen text) && (default 0 (head text) =? 48) else
  match from_chars 10 65535 text with
  | Some (value, []) =>
      throw malformed_packet when (maximum <? value) else Ok value
  | _ => Fail malformed_packet
  end.

(** [while (index < 4)], [n = 4 - index]: the octets, the index and whether
    the text was used up. *)
Fixpoint parse_ipv4_loop (n index offset : nat) (text octets : list Z) : res Error (list Z * nat * bool) :=
  match n with
  | O => Ok (octets, index, false)
  | S n =>
      let dot := find 46 text offset in
      let* field := substr text offset ((λ d, (d - offset)%nat) <$> dot) in
      let* value := parse_decimal field 255 in
      let* octets := wr octets index (u8 value) in
      match dot with
      | None => Ok (octets, S index, true)
      | Some dot => parse_ipv4_loop n (S index) (S dot) text octets
      end
  end.

Definition parse_ipv4 (text : list Z) : res Error Address :=
  let* out := parse_ipv4_loop 4 0 0 text (replicate 16 0) in
  let '(octets, index, consumed_all) := out in
  throw malformed_packet when negb (Nat.eqb index 4) || negb consumed_all else
  Ok (from_bytes ipv4 octets).

Definition parse_hextet (text : list Z) : res Error Z :=
  throw malformed_packet when (blen text =? 0) || (4 <? blen text) else
  match from_chars 16 65535 text with
  | Some (value, []) => Ok value
  | _ => Fail malformed_packet
  end.

(** The lambda [split]: the hextets of [input] in order.  At most eight are
    taken, so nine turns of [while (true)] are enough. *)
Fixpoint split_loop (fuel : nat) (input : list Z) (offset : nat) (out : list Z) : res Error (list Z) :=
  match fuel with
  | O => Ub
  | S fuel =>
      let colon := find 58 input offset in
      let* field := substr input offset ((λ c, (c - offset)%nat) <$> colon) in
      throw malformed_packet when Nat.eqb (length out) 8 else
      let* value := parse_hextet field in
      let out := out ++ [value] in
      match colon with
      | None => Ok out
      | Some colon => split_loop fuel input (S colon) out
      end
  end.

Definition split_hextets (input : list Z) : res Error (list Z) :=
  match input with [] => Ok [] | _ => split_loop 9 input 0 [] end.

Definition hextet_octets (hextets : list Z) : list Z :=
  concat (map (λ h, [u8 (Z.shiftr h 8); u8 (Z.land h 255)]) hextets).

Definition parse_ipv6 (text : list Z) : res Error Address :=
  let compression := find2 58 text 0 in
  throw malformed_packet when
    match compression with
    | Some c => match find2 58 text (c + 1) with Some _ => true | None => false end
    | None => false
    end else
  let* head_text := match compression with None => Ok text | Some c => substr text 0 (Some c) end in
  let* tail_text := match compression with None => Ok [] | Some c => substr text (c + 2) None end in
  let* head := split_hextets head_text in
  let* tail := split_hextets tail_text in
  match compression with
  | None =>
      throw malformed_packet when negb (Nat.eqb (length head) 8) else
      Ok (from_bytes ipv6 (hextet_octets head))
  | Some _ =>
      throw malformed_packet when (8 <=? Z.of_nat (length head) + Z.of_nat (length tail)) else
      Ok (from_bytes ipv6 (hextet_octets (head ++ replicate (8 - length tail - length head) 0 ++ tail)))
  end.

Definition parse_address (text : list Z) : res Error Address :=
  throw malformed_packet when (blen text =? 0) else
  match find 58 text 0 with Some _ => parse_ipv6 text | None => parse_ipv4 text end.

(** ** Printing *)

(** [append_decimal]: the four-byte buffer holds every value printed here. *)
Definition append_decimal (out : list Z) (value : Z) : list Z := out ++ to_chars value.

Definition kDigits : list Z := [48; 49; 50; 51; 52; 53; 54; 55; 56; 57; 97; 98; 99; 100; 101; 102].

Fixpoint ipv4_to_string_loop (n index : nat) (octets out : list Z) : list Z :=
  match n with
  | O => out
  | S n =>
      let out := if Nat.eqb index 0 then out else out ++ [46] in
      ipv4_to_string_loop n (S index) octets (append_decimal out (octets !!! index))
  end.

Fixpoint ipv6_to_string_loop (n index : nat) (octets out : list Z) : list Z :=
  match n with
  | O => out
  | S n =>
      let out := if Nat.eqb index 0 then out else out ++ [58] in
      let high := octets !!! (index * 2)%nat in
      let low := octets !!! (index * 2 + 1)%nat in
      let digit v := kDigits !!! Z.to_nat v in
      ipv6_to_string_loop n (S index) octets
        (out ++ [digit (Z.shiftr high 4); digit (Z.land high 15);
                 digit (Z.shiftr low 4); digit (Z.land low 15)])
  end.

Definition address_to_string (a : Address) : list Z :=
  match family_ a with
  | ipv4 => ipv4_to_string_loop 4 0 (octets_ a) []
  | ipv6 => ipv6_to_string_loop 8 0 (octets_ a) []
  end.

(** ** [Prefix] *)

Record Prefix := mkPrefix { address_ : Address; length_ : Z }.
#[export] Instance Prefix_eq : EqDecision Prefix. Proof. solve_decision. Defined.

(** [for (index = length; index < bits; ++index)] *)
Fixpoint mask_loop (n : nat) (index : Z) (octets : list Z) : res Error (list Z) :=
  match n with
  | O => Ok octets
  | S n =>
      let mask := u8 (Z.lnot (Z.shiftl 1 (7 - index mod 8))) in
      let* octet := rd octets (Z.to_nat (index / 8)) in
      let* octets := wr octets (Z.to_nat (index / 8)) (Z.land octet mask) in
      mask_loop n (index + 1) octets
  end.

Definition prefix_create (address : Address) (length : Z) : res Error Prefix :=
  throw malformed_packet when (maximum_prefix_length (family_ address) <? length) else
  let source := address_bytes address in
  let* octets := blit (replicate 16 0) 0 source in
  let* octets := mask_loop (Z.to_nat (Z.of_nat (address_length (family_ address)) * 8 - length)) length octets in
  Ok (mkPrefix (from_bytes (family_ address) octets) length).

Fixpoint octets_match (n index : nat) (candidate network : list Z) : bool :=
  match n with
  | O => true
  | S n => (candidate !!! index =? network !!! index) && octets_match n (S index) candidate network
  end.

Definition contains (p : Prefix) (a : Address) : bool :=
  if decide (family_ a ≠ family_ (address_ p)) then false
  else
    let whole_octets := Z.to_nat (length_ p / 8) in
    let remaining_bits := length_ p mod 8 in
    let candidate := address_bytes a in
    let network := address_bytes (address_ p) in
    if negb (octets_match whole_octets 0 candidate network) then false
    else if remaining_bits =? 0 then true
    else
      let mask := u8 (Z.shiftl 255 (8 - remaining_bits)) in
      Z.land (candidate !!! whole_octets) mask =? Z.land (network !!! whole_octets) mask.

Definition prefix_to_string (p : Prefix) : list Z :=
  append_decimal (address_to_string (address_ p) ++ [47]) (length_ p).

Definition parse_prefix (text : list Z) : res Error Prefix :=
  match find 47 text 0 with
  | None => Fail malformed_packet
  | Some slash =>
      let* head_text := substr text 0 (Some slash) in
      let* address := parse_address head_text in
      let* length_text := substr text (slash + 1) None in
      throw malformed_packet when (blen length_text =? 0) || (3 <? blen length_text) else
      throw malformed_packet when (1 <? blen length_text) && (default 0 (head length_text) =? 48) else
      match from_chars 10 65535 length_text with
      | Some (length, []) =>
          throw malformed_packet when (maximum_prefix_length (family_ address) <? length) else
          prefix_create address (u8 length)
      | _ => Fail malformed_packet
      end
  end.

(** ** [Endpoint] *)

Record Endpoint := mkEndpoint { ep_address : Address; port_ : Z }.
#[export] Instance Endpoint_eq : EqDecision Endpoint. Proof. solve_decision. Defined.

Definition parse_port (text : list Z) : res Error Z :=
  throw malformed_packet when (blen text =? 0) || (5 <? blen text) else
  throw malformed_packet when (1 <? blen text) && (default 0 (head text) =? 48) else
  match from_chars 10 4294967295 text with
  | Some (value, []) =>
      throw malformed_packet when (value =? 0) || (65535 <? value) else Ok (u16 value)
  | _ => Fail malformed_packet
  end.

Definition endpoint_to_string (e : Endpoint) : list Z :=
  let host := match family_ (ep_address e) with
              | ipv6 => [91] ++ address_to_string (ep_address e) ++ [93]
              | ipv4 => address_to_string (ep_address e)
              end in
  host ++ [58] ++ to_chars (port_ e).

Definition parse_endpoint (text : list Z) : res Error Endpoint :=
  match text with
  | [] => Fail malformed_packet
  | c :: _ =>
      if c =? 91 then
        match find 93 text 0 with
        | None => Fail malformed_packet
        | Some close =>
            throw malformed_packet when (blen text <=? Z.of_nat close + 1) || negb (text !!! (close + 1)%nat =? 58) else
            let* host := substr text 1 (Some (close - 1)%nat) in
            let* address := parse_address host in
            throw malformed_packet when bool_decide (family_ address ≠ ipv6) else
            let* port_text := substr text (close + 2) None in
            let* port := parse_port port_text in
            Ok (mkEndpoint address port)
        end
      else
        match rfind 58 text with
        | None => Fail malformed_packet
        | Some colon =>
            throw malformed_packet when bool_decide (find 58 text 0 ≠ Some colon) else
            let* host := substr text 0 (Some colon) in
            let* address := parse_address host in
            throw malformed_packet when bool_decide (family_ address ≠ ipv4) else
            let* port_text := substr text (colon + 1) None in
            let* port := parse_port port_text in
            Ok (mkEndpoint address port)
        end
  end.

(** ** Printed addresses parse back *)

Record address_ok (a : Address) : Prop := {
  ao_length : length (octets_ a) = 16%nat;
  ao_bytes : bytes_ok (octets_ a);
  ao_zeros : family_ a = ipv4 → drop 4 (octets_ a) = replicate 12 0;
}.

Lemma decimal_loop_digits fuel v acc : 0 ≤ v → Forall (λ c, 48 ≤ c ≤ 57) acc →
  Forall (λ c, 48 ≤ c ≤ 57) (decimal_loop fuel v acc).
Proof.
  revert v acc. induction fuel as [|fuel IH]; intros v acc Hv Ha; [done|]. simpl.
  assert (Forall (λ c, 48 ≤ c ≤ 57) ((48 + v mod 10) :: acc)) as Hc.
  { constructor; [|done]. pose proof (Z.mod_pos_bound v 10). lia. }
  case_match; [done|]. apply IH; [|done]. apply Z.div_pos; lia.
Qed.

Lemma to_chars_free c v : 0 ≤ v → ¬ (48 ≤ c ≤ 57) → free_of c (to_chars v).
Proof.
  intros Hv Hc. eapply Forall_impl; [apply (decimal_loop_digits 20 v []); [done|constructor]|].
  simpl. intros x Hx ->. done.
Qed.

Lemma digit_value_decimal v : 0 ≤ v < 10 → digit_value 10 (48 + v) = Some v.
Proof.
  intros Hv. unfold digit_value. rewrite (proj2 (Z.leb_le 48 (48 + v))), (proj2 (Z.leb_le (48 + v) 57)) by lia.
  cbn [andb]. replace (48 + v - 48) with v by lia. by rewrite (proj2 (Z.ltb_lt v 10)) by lia.
Qed.

(** Reading back what [to_chars] wrote. *)
Lemma read_decimal fuel v acc : 0 ≤ v < 10 ^ Z.of_nat fuel → (0 < fuel)%nat →
  read_digits 10 (decimal_loop fuel v acc) 0 = read_digits 10 acc v.
Proof.
  revert v acc. induction fuel as [|fuel IH]; intros v acc Hv Hf; [lia|].
  rewrite Nat2Z.inj_succ, Z.pow_succ_r in Hv by lia. pose proof (Z.div_mod v 10 ltac:(lia)) as Hdm.
  pose proof (Z.mod_pos_bound v 10 ltac:(lia)) as Hmod. cbn [decimal_loop].
  destruct (Z.ltb_spec v 10) as [Hlt|Hge].
  - rewrite Z.mod_small by lia. cbn [read_digits]. rewrite digit_value_decimal by lia. done.
  - destruct fuel as [|fuel]; [simpl in Hv; lia|]. rewrite IH by (lia || Z.to_euclidean_division_equations; lia).
    cbn [read_digits]. rewrite digit_value_decimal by lia. f_equal. lia.
Qed.

Lemma decimal_length fuel v acc k : 0 ≤ v < 10 ^ Z.of_nat k → (0 < k)%nat →
  (length acc < length (decimal_loop (S fuel) v acc) ≤ k + length acc)%nat.
Proof.
  revert v acc k. induction fuel as [|fuel IH]; intros v acc k Hv Hk; cbn [decimal_loop].
  - destruct (v <? 10); simpl; lia.
  - destruct (Z.ltb_spec v 10); [simpl; lia|]. destruct k as [|[|k]]; [lia|simpl in Hv; lia|].
    rewrite Nat2Z.inj_succ, Z.pow_succ_r in Hv by lia.
    specialize (IH (v / 10) ((48 + v mod 10) :: acc) (S k)). cbn [decimal_loop] in IH |- *. simpl length in IH.
    assert (0 ≤ v / 10 < 10 ^ Z.of_nat (S k)) by (Z.to_euclidean_division_equations; lia). lia.
Qed.

Lemma decimal_head fuel v acc : 0 < v < 10 ^ Z.of_nat fuel →
  ∃ d, head (decimal_loop fuel v acc) = Some d ∧ 48 < d ≤ 57.
Proof.
  revert v acc. induction fuel as [|fuel IH]; intros v acc Hv; [simpl in Hv; lia|].
  rewrite Nat2Z.inj_succ, Z.pow_succ_r in Hv by lia. cbn [decimal_loop].
  destruct (Z.ltb_spec v 10); [|apply IH; Z.to_euclidean_division_equations; lia].
  rewrite Z.mod_small by lia. eexists. split; [done|]. lia.
Qed.

(** The guards on decimal fields pass for a printed number. *)
Lemma decimal_guards v k : 0 ≤ v < 10 ^ Z.of_nat k → (0 < k ≤ 20)%nat →
  (blen (to_chars v) =? 0) || (Z.of_nat k <? blen (to_chars v)) = false ∧
  (1 <? blen (to_chars v)) && (default 0 (head (to_chars v)) =? 48) = false.
Proof.
  intros Hv Hk. pose proof (decimal_length 19 v [] k Hv ltac:(lia)) as Hlen. change (length (@nil Z)) with 0%nat in Hlen.
  unfold to_chars, blen. split.
  - apply orb_false_iff. split; [apply Z.eqb_neq|apply Z.ltb_ge]; lia.
  - destruct (Z.eq_dec v 0) as [->|Hne]; [done|].
    destruct (decimal_head 20 v []) as (d & -> & Hd).
    { split; [lia|]. eapply Z.lt_le_trans; [apply Hv|]. apply Z.pow_le_mono_r; lia. }
    simpl default. rewrite (proj2 (Z.eqb_neq d 48)) by lia. apply andb_false_r.
Qed.

Lemma from_chars_decimal maximum v : 0 ≤ v ≤ maximum → v < 10 ^ 20 →
  from_chars 10 maximum (to_chars v) = Some (v, []).
Proof.
  intros Hv H20. assert (read_digits 10 (to_chars v) 0 = (v, [])) as E by (unfold to_chars; by rewrite read_decimal by (simpl Z.of_nat; lia)).
  pose proof (decimal_length 19 v [] 20 ltac:(simpl Z.of_nat; lia) ltac:(lia)) as Hlen.
  pose proof (decimal_loop_digits 20 v [] ltac:(lia) ltac:(constructor)) as Hdig.
  unfold from_chars. fold (to_chars v) in Hlen, Hdig. destruct (to_chars v) as [|c rest]; [simpl in Hlen; lia|].
  apply Forall_cons_1 in Hdig as [Hc _]. replace c with (48 + (c - 48)) at 1 by lia.
  rewrite digit_value_decimal by lia. rewrite E. by rewrite (proj2 (Z.leb_le v maximum)) by lia.
Qed.

Lemma octet_decimal v : is_u8 v → parse_decimal (to_chars v) 255 = Ok v.
Proof.
  intros Hv. unfold parse_decimal. unfold is_u8 in Hv. simpl in Hv.
  destruct (decimal_guards v 3 ltac:(simpl; lia) ltac:(lia)) as [G1 G2]. change (Z.of_nat 3) with 3 in G1.
  rewrite G1, G2. cbn [guard].
  rewrite from_chars_decimal by lia. by rewrite (proj2 (Z.ltb_ge 255 v)) by lia.
Qed.

Lemma port_decimal v : is_u16 v → v ≠ 0 → parse_port (to_chars v) = Ok v.
Proof.
  intros Hv Hne. unfold parse_port. pose proof Hv as Hu. unfold is_u16 in Hv. simpl in Hv.
  destruct (decimal_guards v 5 ltac:(simpl; lia) ltac:(lia)) as [G1 G2]. change (Z.of_nat 5) with 5 in G1.
  rewrite G1, G2. cbn [guard].
  rewrite from_chars_decimal by lia. rewrite (proj2 (Z.eqb_neq v 0)), (proj2 (Z.ltb_ge 65535 v)) by lia.
  simpl. by rewrite u16_id.
Qed.

(** The four digits of a hextet. *)
Definition hextet_text (high low : Z) : list Z :=
  [kDigits !!! Z.to_nat (Z.shiftr high 4); kDigits !!! Z.to_nat (Z.land high 15);
   kDigits !!! Z.to_nat (Z.shiftr low 4); kDigits !!! Z.to_nat (Z.land low 15)].

Lemma digit_value_hex v : 0 ≤ v < 16 → digit_value 16 (kDigits !!! Z.to_nat v) = Some v.
Proof.
  intros Hv. rewrite <- (Z2Nat.id v) at 2 by lia. assert (Z.to_nat v < 16)%nat as Hn by lia.
  generalize dependent (Z.to_nat v). intros n Hn. do 16 (destruct n as [|n]; [done|]). lia.
Qed.

Lemma nibbles_of v : is_u8 v → 0 ≤ Z.shiftr v 4 < 16 ∧ 0 ≤ Z.land v 15 < 16 ∧
  Z.shiftr v 4 * 16 + Z.land v 15 = v.
Proof.
  intros Hv. unfold is_u8 in Hv. simpl in Hv. rewrite shiftr_div by lia. change 15 with (Z.ones 4).
  rewrite Z.land_ones by lia. change (2 ^ 4) with 16. Z.to_euclidean_division_equations. lia.
Qed.

Lemma parse_hextet_text high low : is_u8 high → is_u8 low →
  parse_hextet (hextet_text high low) = Ok (high * 256 + low).
Proof.
  intros Hh Hl. destruct (nibbles_of high Hh) as (H1 & H2 & H3). destruct (nibbles_of low Hl) as (H4 & H5 & H6).
  unfold parse_hextet, hextet_text, from_chars. cbn [blen length Z.of_nat guard read_digits].
  change (guard _ _ ?x) with x. rewrite !digit_value_hex by done. cbn [read_digits].
  rewrite (proj2 (Z.leb_le _ 65535)) by (unfold is_u8 in *; simpl in *; lia). f_equal. lia.
Qed.

Lemma hextet_octets_cons high low hs : is_u8 high → is_u8 low →
  hextet_octets (high * 256 + low :: hs) = high :: low :: hextet_octets hs.
Proof.
  intros Hh Hl. unfold hextet_octets. cbn [map concat app]. rewrite shiftr_div by lia.
  change 255 with (Z.ones 8). rewrite Z.land_ones by lia. change (2 ^ 8) with 256.
  unfold is_u8, u8 in *. change (2 ^ 8) with 256 in *. f_equal; [|f_equal]; Z.to_euclidean_division_equations; lia.
Qed.

Lemma hextet_text_free c high low : ¬ (48 ≤ c ≤ 57) → ¬ (97 ≤ c ≤ 102) → c ≠ 1 → free_of c (hextet_text high low).
Proof.
  intros H1 H2 H3. assert (∀ v, kDigits !!! v ≠ c) as Hd.
  { intros v. do 16 (destruct v as [|v]; [simpl; lia|]). intros E. apply H3. by rewrite <- E. }
  repeat constructor; apply Hd.
Qed.

(** The eight groups of an IPv6 address. *)
Fixpoint groups (octets : list Z) : list (list Z) :=
  match octets with
  | high :: low :: octets => hextet_text high low :: groups octets
  | _ => []
  end.

Fixpoint group_values (octets : list Z) : list Z :=
  match octets with
  | high :: low :: octets => high * 256 + low :: group_values octets
  | _ => []
  end.

Lemma ipv4_to_string_fields a b c d rest :
  ipv4_to_string_loop 4 0 (a :: b :: c :: d :: rest) [] = join 46 (map to_chars [a; b; c; d]).
Proof. cbn [ipv4_to_string_loop Nat.eqb append_decimal]. unfold append_decimal. cbn [map join app]. by rewrite <- !app_assoc. Qed.

Lemma ipv6_to_string_fields octets : length octets = 16%nat →
  ipv6_to_string_loop 8 0 octets [] = join 58 (groups octets).
Proof.
  intros Hl. explode octets 16%nat. destruct rest0; [|done]. reflexivity.
Qed.

(** The hextets of a joined text. *)
Lemma split_loop_join fields values : Forall2 (λ f v, free_of 58 f ∧ parse_hextet f = Ok v) fields values →
  ∀ fuel pre out, fields ≠ [] → (length fields ≤ fuel)%nat → (length out + length fields ≤ 8)%nat →
  split_loop fuel (pre ++ join 58 fields) (length pre) out = Ok (out ++ values).
Proof.
  induction 1 as [|f v fields values [Hf Hv] Hall IH]; intros fuel pre out Hne Hfuel Hout; [done|].
  destruct fuel as [|fuel]; [simpl in Hfuel; lia|]. cbn [split_loop]. simpl length in Hout, Hfuel.
  assert (Nat.eqb (length out) 8 = false) as Hn by (apply Nat.eqb_neq; lia).
  destruct fields as [|g fields].
  - inversion Hall; subst. cbn [join]. rewrite find_free by done. cbn [fmap option_fmap option_map].
    rewrite substr_rest. cbn [rbind]. rewrite Hn. cbn [guard]. by rewrite Hv.
  - rewrite join_cons, find_hit by done. cbn [fmap option_fmap option_map].
    replace (length pre + length f - length pre)%nat with (length f) by lia.
    rewrite substr_field. cbn [rbind]. rewrite Hn. cbn [guard]. rewrite Hv. cbn [rbind].
    specialize (IH fuel (pre ++ f ++ [58]) (out ++ [v]) ltac:(done) ltac:(lia) ltac:(rewrite length_app; simpl in *; lia)).
    rewrite !length_app in IH. simpl length in IH. rewrite <- !app_assoc in IH. cbn [app] in IH.
    replace (length pre + (length f + 1))%nat with (S (length pre + length f)) in IH by lia. exact IH.
Qed.

Lemma groups_parse octets : bytes_ok octets →
  Forall2 (λ f v, free_of 58 f ∧ parse_hextet f = Ok v) (groups octets) (group_values octets) ∧
  Forall (λ f, free_of 58 f ∧ f ≠ []) (groups octets).
Proof.
  revert octets. fix IH 1. intros [|high [|low octets]] Hb; [split; constructor..|]. cbn [groups group_values].
  apply Forall_cons_1 in Hb as [Hh Hb]. apply Forall_cons_1 in Hb as [Hl Hb].
  destruct (IH octets Hb) as [H1 H2].
  assert (free_of 58 (hextet_text high low)) as Hf by (apply hextet_text_free; lia).
  split; (constructor; [split|]); [done|by apply parse_hextet_text|exact H1|done|done|exact H2].
Qed.

Lemma group_values_octets octets : bytes_ok octets → Nat.Even (length octets) →
  hextet_octets (group_values octets) = octets.
Proof.
  revert octets. fix IH 1. intros [|high [|low octets]] Hb [k He]; [done|simpl in He; lia|].
  apply Forall_cons_1 in Hb as [Hh Hb]. apply Forall_cons_1 in Hb as [Hl Hb]. cbn [group_values].
  rewrite hextet_octets_cons by done. f_equal. f_equal. apply IH; [done|]. exists (k - 1)%nat. simpl in He. lia.
Qed.

Lemma from_bytes_ok a : address_ok a → from_bytes (family_ a) (octets_ a) = a.
Proof.
  intros H. unfold from_bytes. rewrite (ao_length _ H). rewrite Nat.min_id, take_ge by (rewrite (ao_length _ H); lia).
  change (drop 16 (replicate 16 0)) with (@nil Z). rewrite app_nil_r. by destruct a.
Qed.

Lemma parse_ipv4_loop_join fields values :
  Forall2 (λ f v, free_of 46 f ∧ parse_decimal f 255 = Ok v ∧ is_u8 v) fields values →
  ∀ n index pre octets, fields ≠ [] → (length fields ≤ n)%nat → (index + length fields ≤ length octets)%nat →
  parse_ipv4_loop n index (length pre) (pre ++ join 46 fields) octets =
  Ok (take index octets ++ values ++ drop (index + length fields) octets, index + length fields, true)%nat.
Proof.
  induction 1 as [|f v fields values (Hf & Hv & Hu) Hall IH]; intros n index pre octets Hne Hn Hi; [done|].
  destruct n as [|n]; [simpl in Hn; lia|]. cbn [parse_ipv4_loop]. simpl length in *.
  destruct fields as [|g fields].
  - inversion Hall; subst. cbn [join]. rewrite find_free by done. cbn [fmap option_fmap option_map].
    rewrite substr_rest. cbn [rbind]. rewrite Hv. cbn [rbind]. rewrite wr_spec by lia. cbn [rbind].
    rewrite u8_id by done. simpl length. by rewrite Nat.add_1_r.
  - rewrite join_cons, find_hit by done. cbn [fmap option_fmap option_map].
    replace (length pre + length f - length pre)%nat with (length f) by lia.
    rewrite substr_field. cbn [rbind]. rewrite Hv. cbn [rbind]. rewrite wr_spec by lia. cbn [rbind].
    rewrite u8_id by done.
    specialize (IH n (S index) (pre ++ f ++ [46]) (take index octets ++ v :: drop (S index) octets) ltac:(done) ltac:(lia)).
    rewrite !length_app in IH. simpl length in IH. rewrite <- !app_assoc in IH. cbn [app] in IH.
    replace (length pre + (length f + 1))%nat with (S (length pre + length f)) in IH by lia.
    rewrite IH by (rewrite length_take, length_drop; simpl in *; lia).
    simpl length. replace (S index + S (length fields))%nat with (index + S (S (length fields)))%nat by lia.
    do 2 f_equal. rewrite take_app, drop_app, length_take, take_take.
    replace (S index - index `min` length octets)%nat with 1%nat by lia.
    replace (index + S (S (length fields)) - index `min` length octets)%nat with (S (S (length fields))) by lia.
    rewrite (drop_ge (take index octets)) by (rewrite length_take; lia).
    rewrite Nat.min_r by lia. cbn [take drop app]. rewrite take_0, <- app_assoc. cbn [app].
    do 2 f_equal. rewrite drop_drop. do 3 f_equal. lia.
Qed.

Lemma parse_ipv4_string a : address_ok a → family_ a = ipv4 →
  address_to_string a ≠ [] ∧ free_of 58 (address_to_string a) ∧ free_of 47 (address_to_string a) ∧
  free_of 91 (address_to_string a) ∧ parse_ipv4 (address_to_string a) = Ok a.
Proof.
  intros H Hf. pose proof (ao_zeros _ H Hf) as Hz. pose proof (ao_bytes _ H) as Hb.
  pose proof (from_bytes_ok a H) as Hfrom. pose proof (ao_length _ H) as Hl. unfold address_to_string. rewrite Hf in *.
  destruct (octets_ a) as [|o0 [|o1 [|o2 [|o3 rest]]]]; try done.
  cbn [drop] in Hz. rewrite drop_0 in Hz. subst rest. unfold bytes_ok in Hb.
  do 4 (apply Forall_cons_1 in Hb as [? Hb]). rewrite ipv4_to_string_fields.
  assert (∀ c v, ¬ (48 ≤ c ≤ 57) → is_u8 v → free_of c (to_chars v)) as Hfree.
  { intros c v Hc Hv. apply to_chars_free; [unfold is_u8 in Hv; lia|done]. }
  assert (∀ c, ¬ (48 ≤ c ≤ 57) → c ≠ 46 → free_of c (join 46 (map to_chars [o0; o1; o2; o3]))) as Hj.
  { intros c Hc Hne. apply join_free; [done|]. simpl. repeat constructor; by apply Hfree. }
  split_and!; [|apply Hj; lia..|].
  - cbn [map join]. intros E. by apply app_eq_nil in E as [_ [=]].
  - unfold parse_ipv4.
    rewrite (parse_ipv4_loop_join (map to_chars [o0; o1; o2; o3]) [o0; o1; o2; o3]) with (pre := []);
      [|by repeat (apply Forall2_cons; split; [split_and!; [apply Hfree; [lia|done]|by apply octet_decimal|done]|])|done|simpl; lia|simpl; lia].
    cbn [rbind length map Nat.add Nat.eqb negb orb guard take app drop replicate]. f_equal. exact Hfrom.
Qed.

Lemma parse_ipv6_string a : address_ok a → family_ a = ipv6 →
  find 58 (address_to_string a) 0 ≠ None ∧ free_of 47 (address_to_string a) ∧
  free_of 93 (address_to_string a) ∧ parse_ipv6 (address_to_string a) = Ok a.
Proof.
  intros H Hf. pose proof (ao_bytes _ H) as Hb. pose proof (ao_length _ H) as Hl.
  pose proof (from_bytes_ok a H) as Hfrom. unfold address_to_string. rewrite Hf in *.
  rewrite ipv6_to_string_fields by done. destruct (groups_parse _ Hb) as [Hp Hg].
  assert (length (groups (octets_ a)) = 8%nat ∧ length (group_values (octets_ a)) = 8%nat) as [Hl8 Hv8].
  { destruct (octets_ a) as [|x0 [|x1 [|x2 [|x3 [|x4 [|x5 [|x6 [|x7 [|x8 [|x9 [|x10 [|x11 [|x12 [|x13 [|x14 [|x15 [|]]]]]]]]]]]]]]]]]; done. }
  assert (∀ c, ¬ (48 ≤ c ≤ 57) → ¬ (97 ≤ c ≤ 102) → c ≠ 1 → c ≠ 58 → free_of c (join 58 (groups (octets_ a)))) as Hj.
  { intros c H1 H2 H3 H4. apply join_free; [done|]. clear -H1 H2 H3. revert a. intros [f o]. simpl. revert o. fix IH 1.
    intros [|high [|low o]]; [constructor..|]. cbn [groups]. constructor; [by apply hextet_text_free|apply IH]. }
  split_and!; [|apply Hj; lia..|].
  - destruct (groups (octets_ a)) as [|g1 [|g2 gs]]; [done..|]. apply Forall_cons_1 in Hg as [[Hg _] _].
    rewrite join_cons. pose proof (find_hit 58 [] g1 (join 58 (g2 :: gs)) Hg) as E.
    cbn [app length] in E. by rewrite E.
  - unfold parse_ipv6, find2. rewrite drop_0, find2_join by done. cbn [guard rbind].
    unfold split_hextets. destruct (join 58 (groups (octets_ a))) as [|c t] eqn:Ej.
    { exfalso. destruct (groups (octets_ a)) as [|g1 [|g2 gs]]; [done..|]. rewrite join_cons in Ej. by destruct g1. }
    rewrite <- Ej. pose proof (split_loop_join _ _ Hp 9 [] []) as Hs. cbn [app length] in Hs.
    rewrite Hs; [|by intros E; rewrite E in Hl8|lia|lia].
    cbn [rbind app]. rewrite Hv8. cbn [Nat.eqb negb guard]. f_equal.
    rewrite group_values_octets; [exact Hfrom|done|]. rewrite Hl. by exists 8%nat.
Qed.

Lemma parse_address_string a : address_ok a → parse_address (address_to_string a) = Ok a.
Proof.
  intros H. unfold parse_address. destruct (family_ a) eqn:Hf.
  - destruct (parse_ipv4_string a H Hf) as (Hne & Hfree & _ & _ & Hp).
    pose proof (find_free 58 [] _ Hfree) as E. simpl in E. rewrite E, Hp.
    destruct (address_to_string a); [done|]. done.
  - destruct (parse_ipv6_string a H Hf) as (Hc & _ & _ & Hp). rewrite Hp.
    destruct (find 58 (address_to_string a) 0) eqn:E; [|done].
    destruct (address_to_string a); done.
Qed.

(** ** Prefixes, bit by bit *)

(** Bit [i] of an address, the most significant first. *)
Definition obit (octets : list Z) (i : Z) : bool := Z.testbit (octets !!! Z.to_nat (i / 8)) (7 - i mod 8).

Lemma bit_obit a i : 0 ≤ i < maximum_prefix_length (family_ a) → bit a i = obit (octets_ a) i.
Proof.
  intros Hi. unfold bit, obit. rewrite (proj2 (Z.leb_gt _ i)) by lia.
  pose proof (Z.mod_pos_bound i 8 ltac:(lia)). change 1 with (Z.ones 1) at 1. rewrite Z.land_ones by lia.
  rewrite <- Z.bit0_mod, Z.shiftr_spec by lia. rewrite Z.add_0_l. by destruct (Z.testbit _ _).
Qed.

Lemma octet_byte octets k : bytes_ok octets → (k < length octets)%nat → is_u8 (octets !!! k).
Proof. intros H Hk. apply (Forall_lookup_1 _ _ k _ H). by apply list_lookup_lookup_total_lt. Qed.

Lemma byte_bits_ext x y : is_u8 x → is_u8 y → (∀ j, 0 ≤ j < 8 → Z.testbit x j = Z.testbit y j) → x = y.
Proof.
  intros Hx Hy H. apply Z.bits_inj'. intros j Hj. destruct (Z.lt_ge_cases j 8); [by apply H|].
  by rewrite !(bits_above _ 8) by (unfold is_u8 in *; lia).
Qed.

Lemma obit_at o k j : 0 ≤ j < 8 → obit o (8 * Z.of_nat k + (7 - j)) = Z.testbit (o !!! k) j.
Proof.
  intros Hj. unfold obit.
  replace ((8 * Z.of_nat k + (7 - j)) / 8) with (Z.of_nat k) by (Z.to_euclidean_division_equations; lia).
  replace ((8 * Z.of_nat k + (7 - j)) mod 8) with (7 - j) by (Z.to_euclidean_division_equations; lia).
  rewrite Nat2Z.id. f_equal. lia.
Qed.

Lemma octets_bits_ext o o' n : bytes_ok o → bytes_ok o' → length o = n → length o' = n →
  (∀ i, 0 ≤ i < 8 * Z.of_nat n → obit o i = obit o' i) → o = o'.
Proof.
  intros Hb Hb' Hl Hl' H. apply (list_eq_same_length _ _ n); [done..|]. intros k x y Hk Hx Hy.
  apply list_lookup_total_correct in Hx, Hy. subst x y.
  apply byte_bits_ext; [apply octet_byte; [done|lia]..|]. intros j Hj.
  rewrite <- !obit_at by done. apply H. lia.
Qed.

Lemma testbit_u8 z j : 0 ≤ j → Z.testbit (u8 z) j = (j <? 8) && Z.testbit z j.
Proof.
  intros Hj. unfold u8. destruct (Z.ltb_spec j 8).
  - by rewrite Z.mod_pow2_bits_low by lia.
  - by rewrite Z.mod_pow2_bits_high by lia.
Qed.

Lemma mask_bit k j : 0 ≤ k < 8 → 0 ≤ j →
  Z.testbit (u8 (Z.lnot (Z.shiftl 1 k))) j = (j <? 8) && negb (j =? k).
Proof.
  intros Hk Hj. rewrite testbit_u8, Z.lnot_spec, Z.shiftl_spec by done. f_equal. f_equal.
  destruct (Z.eqb_spec j k) as [->|Hne]; [by rewrite Z.sub_diag|].
  destruct (Z.lt_ge_cases j k); [by rewrite Z.testbit_neg_r by lia|].
  by rewrite (bits_above _ 1) by lia.
Qed.

(** Clearing the host bits. *)
Lemma mask_loop_spec n : ∀ index o, length o = 16%nat → bytes_ok o → 0 ≤ index → index + Z.of_nat n ≤ 128 →
  ∃ o', mask_loop n index o = Ok o' ∧ length o' = 16%nat ∧ bytes_ok o' ∧
    ∀ i, 0 ≤ i < 128 → obit o' i = obit o i && negb ((index <=? i) && (i <? index + Z.of_nat n)).
Proof.
  induction n as [|n IH]; intros index o Hl Hb Hi Hn.
  { exists o. split_and!; [done..|]. intros i Hr.
    assert ((index <=? i) && (i <? index + Z.of_nat 0) = false) as -> by (apply andb_false_iff; rewrite Z.leb_gt, Z.ltb_ge; lia).
    by rewrite andb_true_r. }
  cbn [mask_loop]. set (k := Z.to_nat (index / 8)).
  assert (k < 16)%nat as Hk by (unfold k; Z.to_euclidean_division_equations; lia).
  rewrite (rd_ok _ _ (o !!! k)) by (apply list_lookup_lookup_total_lt; lia). cbn [rbind]. rewrite wr_spec by lia. cbn [rbind].
  pose proof (Z.mod_pos_bound index 8 ltac:(lia)) as Hm.
  set (m := u8 _). set (o1 := take k o ++ _ :: drop (S k) o).
  assert (o1 = <[k := Z.land (o !!! k) m]> o) as Ho1 by (symmetry; apply insert_take_drop; lia).
  assert (is_u8 (Z.land (o !!! k) m)) as Hbyte by (apply land_bound; [lia|apply octet_byte; [done|lia]]).
  destruct (IH (index + 1) o1) as (o' & Hrun & Hl' & Hb' & Hbits); [rewrite Ho1, length_insert; done| |lia|lia|].
  { rewrite Ho1. by apply Forall_insert. }
  exists o'. split_and!; [done..|]. intros i Hr. rewrite Hbits by done.
  assert (obit o1 i = obit o i && negb (i =? index)) as ->.
  { unfold obit. rewrite Ho1. pose proof (Z.mod_pos_bound i 8 ltac:(lia)).
    destruct (decide (Z.to_nat (i / 8) = k)) as [E|E].
    - rewrite E, list_lookup_total_insert_eq by lia. rewrite Z.land_spec. unfold m. rewrite mask_bit by lia.
      rewrite (proj2 (Z.ltb_lt _ 8)) by lia. cbn [andb]. f_equal. f_equal.
      destruct (Z.eqb_spec (7 - i mod 8) (7 - index mod 8)), (Z.eqb_spec i index); try done.
      + unfold k in E. Z.to_euclidean_division_equations; lia.
      + subst. lia.
    - rewrite list_lookup_total_insert_ne by done. destruct (Z.eqb_spec i index) as [->|]; [done|].
      by rewrite andb_true_r. }
  rewrite <- andb_assoc. f_equal. rewrite <- negb_orb. f_equal.
  destruct (Z.eqb_spec i index), (Z.leb_spec (index + 1) i), (Z.leb_spec index i),
    (Z.ltb_spec i (index + 1 + Z.of_nat n)), (Z.ltb_spec i (index + Z.of_nat (S n))); try done; lia.
Qed.

(** A prefix as [create] makes it: the bits beyond its length are zero. *)
Record prefix_ok (p : Prefix) : Prop := {
  po_address : address_ok (address_ p);
  po_length : 0 ≤ length_ p ≤ maximum_prefix_length (family_ (address_ p));
  po_host : ∀ i, length_ p ≤ i < maximum_prefix_length (family_ (address_ p)) → obit (octets_ (address_ p)) i = false;
}.

Lemma maximum_bits f : maximum_prefix_length f = 8 * Z.of_nat (address_length f).
Proof. by destruct f. Qed.

Lemma address_length_le f : (address_length f ≤ 16)%nat.
Proof. destruct f; simpl; lia. Qed.

Lemma padded_bytes a : address_ok a →
  blit (E:=Error) (replicate 16 0) 0 (address_bytes a) = Ok (octets_ a).
Proof.
  intros H. pose proof (ao_length _ H) as Hl. unfold address_bytes.
  rewrite blit_ok by (rewrite length_take, length_replicate; lia). cbn [take app Nat.add].
  rewrite length_take, Hl. f_equal. destruct (family_ a) eqn:Hf; cbn [address_length].
  - transitivity (take 4 (octets_ a) ++ replicate 12 0); [done|]. by rewrite <- (ao_zeros _ H Hf), take_drop.
  - rewrite (take_ge (octets_ a)) by lia. apply app_nil_r.
Qed.

(** What [create] returns. *)
Lemma prefix_create_spec a n : address_ok a → 0 ≤ n ≤ maximum_prefix_length (family_ a) →
  ∃ p, prefix_create a n = Ok p ∧ prefix_ok p ∧ length_ p = n ∧ family_ (address_ p) = family_ a ∧
    ∀ i, 0 ≤ i < n → obit (octets_ (address_ p)) i = obit (octets_ a) i.
Proof.
  intros H Hn. unfold prefix_create. rewrite (proj2 (Z.ltb_ge _ n)) by lia. cbn [guard].
  rewrite padded_bytes by done. cbn [rbind]. pose proof (maximum_bits (family_ a)) as Hmax.
  pose proof (address_length_le (family_ a)) as H16.
  destruct (mask_loop_spec (Z.to_nat (Z.of_nat (address_length (family_ a)) * 8 - n)) n (octets_ a))
    as (o & -> & Hl & Hb & Hbits); [apply H..|lia|lia|]. cbn [rbind].
  replace (n + Z.of_nat (Z.to_nat (Z.of_nat (address_length (family_ a)) * 8 - n)))
    with (maximum_prefix_length (family_ a)) in Hbits by lia.
  assert (address_ok (mkAddress (family_ a) o)) as Hok.
  { split; [done|done|]. cbn [family_ octets_]. intros Hf. apply (octets_bits_ext _ _ 12); [by apply Forall_drop|apply Forall_replicate; word_lia|rewrite length_drop; lia|done|].
    intros i Hi. assert (obit (drop 4 o) i = obit o (i + 32)) as ->.
    { unfold obit. replace ((i + 32) / 8) with (4 + i / 8) by (Z.to_euclidean_division_equations; lia).
      replace ((i + 32) mod 8) with (i mod 8) by (Z.to_euclidean_division_equations; lia).
      rewrite !list_lookup_total_alt, lookup_drop. do 4 f_equal. Z.to_euclidean_division_equations; lia. }
    rewrite Hbits by lia.
    assert (obit (octets_ a) (i + 32) = obit (replicate 12 0) i) as ->.
    { rewrite <- (ao_zeros _ H Hf). unfold obit.
      replace ((i + 32) / 8) with (4 + i / 8) by (Z.to_euclidean_division_equations; lia).
      replace ((i + 32) mod 8) with (i mod 8) by (Z.to_euclidean_division_equations; lia).
      rewrite !list_lookup_total_alt, lookup_drop. do 4 f_equal. Z.to_euclidean_division_equations; lia. }
    rewrite Hf. simpl maximum_prefix_length. rewrite (proj2 (Z.ltb_ge (i + 32) 32)) by lia.
    by rewrite andb_false_r, andb_true_r. }
  pose proof (from_bytes_ok _ Hok) as Hfrom. cbn [family_ octets_] in Hfrom. rewrite Hfrom.
  eexists. split; [reflexivity|]. cbn [address_ length_ family_ octets_].
  split_and!; [split; cbn [address_ length_ family_ octets_]; [done|done|]|done|done|].
  - intros i Hi. rewrite Hbits by lia. rewrite (proj2 (Z.leb_le n i)), (proj2 (Z.ltb_lt i _)) by lia. apply andb_false_r.
  - intros i Hi. rewrite Hbits by lia. rewrite (proj2 (Z.leb_gt n i)) by lia. apply andb_true_r.
Qed.

Lemma prefix_create_id p : prefix_ok p → prefix_create (address_ p) (length_ p) = Ok p.
Proof.
  intros [Ha Hl Hh]. destruct (prefix_create_spec _ _ Ha Hl) as (q & -> & [Hqa _ Hqh] & Hlen & Hfam & Hbits).
  f_equal. destruct p as [[f o] n], q as [[f' o'] n']. cbn [address_ length_ family_ octets_] in *. subst f' n'.
  do 2 f_equal. apply (octets_bits_ext _ _ 16); [apply Hqa|apply Ha|apply Hqa|apply Ha|].
  intros i Hi. destruct (Z.lt_ge_cases i n); [apply Hbits; lia|].
  destruct (Z.lt_ge_cases i (maximum_prefix_length f)); [by rewrite Hh, Hqh by lia|].
  assert (f = ipv4) as -> by (destruct f; [done|simpl in *; lia]).
  simpl in *. assert (∀ o, address_ok (mkAddress ipv4 o) → obit o i = false) as Hz.
  { intros u [Hl16 _ E]. specialize (E eq_refl). cbn [octets_] in *. unfold obit.
    assert (4 ≤ Z.to_nat (i / 8) < 16)%nat as Hi8 by (Z.to_euclidean_division_equations; lia).
    rewrite <- (take_drop 4 u), E, lookup_total_app_r by (rewrite length_take; lia).
    rewrite length_take, lookup_total_replicate_2 by lia. apply Z.bits_0. }
  by rewrite !Hz.
Qed.

Lemma octets_match_spec n : ∀ index a b, octets_match n index a b = true ↔
  ∀ k, (index ≤ k < index + n)%nat → a !!! k = b !!! k.
Proof.
  induction n as [|n IH]; intros index a b; simpl; [split; [intros _ k; lia|done]|].
  rewrite andb_true_iff, Z.eqb_eq, IH. split.
  - intros [H0 H] k Hk. destruct (decide (k = index)) as [->|]; [done|]. apply H. lia.
  - intros H. split; [apply H; lia|]. intros k Hk. apply H. lia.
Qed.

Lemma high_mask_bit r j : 0 < r < 8 → 0 ≤ j < 8 →
  Z.testbit (u8 (Z.shiftl 255 (8 - r))) j = (8 - r <=? j).
Proof.
  intros Hr Hj. rewrite testbit_u8, Z.shiftl_spec by lia. rewrite (proj2 (Z.ltb_lt j 8)) by lia. cbn [andb].
  change 255 with (Z.ones 8). destruct (Z.leb_spec (8 - r) j).
  - apply Z.ones_spec_low. lia.
  - apply Z.testbit_neg_r. lia.
Qed.

(** The last, partial octet of a prefix. *)
Lemma masked_octets x y r : is_u8 x → is_u8 y → 0 < r < 8 →
  Z.land x (u8 (Z.shiftl 255 (8 - r))) = Z.land y (u8 (Z.shiftl 255 (8 - r))) ↔
  ∀ j, 8 - r ≤ j < 8 → Z.testbit x j = Z.testbit y j.
Proof.
  intros Hx Hy Hr. split.
  - intros H j Hj. apply (f_equal (λ z, Z.testbit z j)) in H. rewrite !Z.land_spec, high_mask_bit in H by lia.
    rewrite (proj2 (Z.leb_le _ j)) in H by lia. by rewrite !andb_true_r in H.
  - intros H. apply byte_bits_ext; [by apply land_bound..|]. intros j Hj.
    rewrite !Z.land_spec, high_mask_bit by lia. destruct (Z.leb_spec (8 - r) j); [by rewrite H by lia|].
    by rewrite !andb_false_r.
Qed.

Lemma address_bytes_lookup a k : address_ok a → (k < address_length (family_ a))%nat →
  address_bytes a !!! k = octets_ a !!! k.
Proof. intros H Hk. unfold address_bytes. rewrite !list_lookup_total_alt, lookup_take_lt by done. done. Qed.

Lemma contains_spec p a : prefix_ok p → address_ok a →
  contains p a = true ↔ family_ a = family_ (address_ p) ∧
    ∀ i, 0 ≤ i < length_ p → obit (octets_ a) i = obit (octets_ (address_ p)) i.
Proof.
  intros [Hp Hl _] Ha. unfold contains. case_decide as Hf; [by split; [|intros [? _]]|].
  rewrite maximum_bits in Hl. pose proof (address_length_le (family_ a)) as H16.
  set (w := Z.to_nat (length_ p / 8)). set (r := length_ p mod 8).
  assert (length_ p = 8 * Z.of_nat w + r ∧ 0 ≤ r < 8) as [Hlen Hr] by (unfold w, r; Z.to_euclidean_division_equations; lia).
  assert (∀ k, (k < w)%nat ∨ (k = w ∧ 0 < r) → address_bytes a !!! k = octets_ a !!! k ∧
    address_bytes (address_ p) !!! k = octets_ (address_ p) !!! k ∧ is_u8 (octets_ a !!! k) ∧
    is_u8 (octets_ (address_ p) !!! k)) as Hk.
  { intros k Hk. rewrite <- Hf in *. split_and!; [apply address_bytes_lookup; [done|lia]| |apply octet_byte; [apply Ha|rewrite (ao_length _ Ha); lia]|
      apply octet_byte; [apply Hp|rewrite (ao_length _ Hp); lia]].
    apply address_bytes_lookup; [done|]. rewrite <- Hf. lia. }
  assert (octets_match w 0 (address_bytes a) (address_bytes (address_ p)) = true ↔
    ∀ i, 0 ≤ i < 8 * Z.of_nat w → obit (octets_ a) i = obit (octets_ (address_ p)) i) as Hwhole.
  { rewrite octets_match_spec. split.
    - intros H i Hi. assert (Z.to_nat (i / 8) < w)%nat as Hiw by (Z.to_euclidean_division_equations; lia).
      destruct (Hk _ (or_introl Hiw)) as (E1 & E2 & _). unfold obit. rewrite <- E1, <- E2, (H (Z.to_nat (i / 8))) by lia. done.
    - intros H k Hkw. destruct (Hk k ltac:(lia)) as (-> & -> & U1 & U2). apply byte_bits_ext; [done..|].
      intros j Hj. rewrite <- !obit_at by done. apply H. lia. }
  destruct (octets_match w 0 _ _); cbn [negb]; last first.
  { split; [done|]. intros [_ H]. apply Hwhole. intros i Hi. apply H. lia. }
  destruct (Z.eqb_spec r 0) as [Hr0|Hr0].
  { split; [|done]. intros _. split; [done|]. intros i Hi. apply (proj1 Hwhole); [done|lia]. }
  destruct (Hk w ltac:(lia)) as (-> & -> & U1 & U2). rewrite Z.eqb_eq, masked_octets by (done || lia). split.
  - intros H. split; [done|]. intros i Hi. destruct (Z.lt_ge_cases i (8 * Z.of_nat w)); [apply (proj1 Hwhole); [done|lia]|].
    replace i with (8 * Z.of_nat w + (7 - (7 - (i - 8 * Z.of_nat w)))) by lia.
    rewrite !obit_at by lia. apply H. lia.
  - intros [_ H] j Hj. rewrite <- !obit_at by lia. apply H. lia.
Qed.

(** A prefix contains an address exactly when they are of the same
    family and the first [length] bits agree; [Prefix::create] keeps these
    bits and clears the others, and fails exactly for a length beyond the
    family's. *)
Lemma prefix_contains_iff p a : prefix_ok p → address_ok a →
  (contains p a = true ↔
   family_ a = family_ (address_ p) ∧ ∀ i, 0 ≤ i < length_ p → bit a i = bit (address_ p) i) ∧
  ∀ n, 0 ≤ n →
    if n <=? maximum_prefix_length (family_ a)
    then ∃ q, prefix_create a n = Ok q ∧ prefix_ok q ∧ length_ q = n ∧ contains q a = true
    else prefix_create a n = Fail malformed_packet.
Proof.
  intros Hp Ha. split.
  - rewrite contains_spec by done. split; intros [Hf H]; (split; [done|]); intros i Hi; pose proof (po_length _ Hp);
      specialize (H i Hi); by rewrite !bit_obit in * by (rewrite ?Hf; lia).
  - intros n Hn. destruct (Z.leb_spec n (maximum_prefix_length (family_ a))) as [Hle|Hgt].
    + destruct (prefix_create_spec a n Ha ltac:(lia)) as (q & E & Hq & Hlen & Hfam & Hbits).
      exists q. split_and!; [done..|]. apply contains_spec; [done..|]. split; [done|]. intros i Hi.
      symmetry. apply Hbits. lia.
    + unfold prefix_create. by rewrite (proj2 (Z.ltb_lt _ n)) by lia.
Qed.
Definition sample_address : Address := from_bytes ipv4 [10; 0; 5; 7].

Lemma sample_address_ok : address_ok sample_address.
Proof. split; [done| |done]. repeat constructor; discriminate. Qed.

(** ** The three round trips *)

(** Cutting [host c number] at the separator. *)
Lemma cut_at {E} c host number : free_of c host →
  find c (host ++ c :: number) 0 = Some (length host) ∧
  substr (E:=E) (host ++ c :: number) 0 (Some (length host)) = Ok host ∧
  substr (E:=E) (host ++ c :: number) (length host + 1) None = Ok number.
Proof.
  intros Hf. split_and!.
  - exact (find_hit c [] host number Hf).
  - exact (substr_field [] host (c :: number)).
  - pose proof (substr_rest (E:=E) (host ++ [c]) number) as S2.
    rewrite length_app, <- app_assoc in S2. exact S2.
Qed.

Lemma address_string_free c a : address_ok a → c = 47 ∨ c = 93 ∧ family_ a = ipv6 → free_of c (address_to_string a).
Proof.
  intros Ha Hc. destruct (family_ a) eqn:Hf; destruct Hc as [->|[-> E]]; try done;
    [by apply parse_ipv4_string|by apply parse_ipv6_string..].
Qed.

Lemma parse_prefix_string p : prefix_ok p → parse_prefix (prefix_to_string p) = Ok p.
Proof.
  intros Hp. destruct p as [a n]. pose proof (po_address _ Hp) as Ha. pose proof (po_length _ Hp) as Hn.
  cbn [address_ length_] in *.
  assert (maximum_prefix_length (family_ a) ≤ 128) as Hmax by (destruct (family_ a); simpl; lia).
  unfold parse_prefix, prefix_to_string, append_decimal. cbn [address_ length_]. rewrite <- app_assoc. cbn [app].
  destruct (cut_at (E:=Error) 47 (address_to_string a) (to_chars n)) as (-> & S1 & S2);
    [by apply address_string_free; [|left]|].
  rewrite S1. cbn [rbind]. rewrite parse_address_string by done. cbn [rbind]. rewrite S2. cbn [rbind].
  destruct (decimal_guards n 3 ltac:(simpl; lia) ltac:(lia)) as [G1 G2]. change (Z.of_nat 3) with 3 in G1.
  rewrite G1, G2. cbn [guard]. rewrite from_chars_decimal by lia.
  rewrite (proj2 (Z.ltb_ge _ n)) by lia. cbn [guard]. rewrite u8_id by word_lia. by apply prefix_create_id in Hp.
Qed.

Lemma parse_endpoint_v4 a n : address_ok a → family_ a = ipv4 → is_u16 n → n ≠ 0 →
  parse_endpoint (endpoint_to_string (mkEndpoint a n)) = Ok (mkEndpoint a n).
Proof.
  intros Ha Hf Hu Hne. destruct (parse_ipv4_string a Ha Hf) as (Hnil & Hcolon & _ & Hb & _).
  assert (free_of 58 (to_chars n)) as Hpf by (apply to_chars_free; unfold is_u16 in Hu; lia).
  unfold endpoint_to_string, parse_endpoint. cbn [ep_address port_]. rewrite Hf. cbn [app].
  destruct (cut_at (E:=Error) 58 (address_to_string a) (to_chars n) Hcolon) as (Hfind & S1 & S2).
  destruct (address_to_string a ++ 58 :: to_chars n) as [|c rest] eqn:Et; [by destruct (address_to_string a)|].
  assert (c ≠ 91) as Hc.
  { destruct (address_to_string a); [done|]. injection Et as <- _. by apply Forall_cons_1 in Hb as [? _]. }
  rewrite (proj2 (Z.eqb_neq c 91)) by done. rewrite <- Et in *. rewrite rfind_hit, Hfind by done.
  rewrite bool_decide_eq_false_2 by (intros Hx; by apply Hx). cbn [guard]. rewrite S1. cbn [rbind].
  rewrite parse_address_string by done. cbn [rbind]. rewrite bool_decide_eq_false_2 by (intros Hx; by apply Hx).
  cbn [guard]. rewrite S2. cbn [rbind]. by rewrite port_decimal.
Qed.

Lemma parse_endpoint_v6 a n : address_ok a → family_ a = ipv6 → is_u16 n → n ≠ 0 →
  parse_endpoint (endpoint_to_string (mkEndpoint a n)) = Ok (mkEndpoint a n).
Proof.
  intros Ha Hf Hu Hne. pose proof (address_string_free 93 a Ha (or_intror (conj eq_refl Hf))) as Hb.
  unfold endpoint_to_string, parse_endpoint. cbn [ep_address port_]. rewrite Hf. rewrite <- !app_assoc. cbn [app].
  set (s := address_to_string a) in *. change (91 =? 91) with true. cbv iota.
  assert (free_of 93 (91 :: s)) as Hb' by (constructor; done).
  pose proof (find_hit 93 [] (91 :: s) (58 :: to_chars n) Hb') as E. cbn [app length Nat.add] in E. rewrite E.
  assert ((91 :: s ++ 93 :: 58 :: to_chars n) !!! (S (length s) + 1)%nat = 58) as ->.
  { apply list_lookup_total_correct. rewrite Nat.add_1_r. simpl. rewrite lookup_app_r by lia.
    by rewrite Nat.sub_succ_l, Nat.sub_diag by lia. }
  rewrite (proj2 (Z.leb_gt _ _)) by (unfold blen; rewrite length_cons, length_app; simpl; lia). cbn [orb negb Z.eqb Pos.eqb guard].
  pose proof (substr_field (E:=Error) [91] s (93 :: 58 :: to_chars n)) as S1. cbn [app length] in S1.
  rewrite Nat.sub_1_r, Nat.pred_succ, S1. cbn [rbind]. unfold s. rewrite parse_address_string by done. cbn [rbind].
  rewrite bool_decide_eq_false_2 by (intros Hx; by apply Hx). cbn [guard]. fold s.
  pose proof (substr_rest (E:=Error) (91 :: s ++ [93; 58]) (to_chars n)) as S2. cbn [app length] in S2.
  rewrite length_app, <- app_assoc in S2. cbn [app length] in S2.
  replace (S (length s) + 2)%nat with (S (length s + 2)) by lia. rewrite S2. cbn [rbind]. by rewrite port_decimal.
Qed.

(** Printing and parsing are inverse: every address, every prefix as
    [create] makes it and every endpoint with a port other than 0 parses back
    from its own text. *)
Lemma text_roundtrip a n : address_ok a →
  parse_address (address_to_string a) = Ok a ∧
  (prefix_ok (mkPrefix a n) → parse_prefix (prefix_to_string (mkPrefix a n)) = Ok (mkPrefix a n)) ∧
  (is_u16 n → n ≠ 0 → parse_endpoint (endpoint_to_string (mkEndpoint a n)) = Ok (mkEndpoint a n)).
Proof.
  intros Ha. split_and!; [by apply parse_address_string|by apply parse_prefix_string|].
  intros Hu Hne. destruct (family_ a) eqn:Hf; [by apply parse_endpoint_v4|by apply parse_endpoint_v6].
Qed.

(** ** No text makes a parser fail other than by its error *)

Lemma find_from_range c text at_ i : find_from c text at_ = Some i → (at_ ≤ i < at_ + length text)%nat.
Proof.
  revert at_. induction text as [|x text IH]; intros at_ H; [done|]. simpl in *.
  destruct (x =? c); [injection H as <-; lia|]. apply IH in H. lia.
Qed.

Lemma find_range c text offset i : find c text offset = Some i → (offset ≤ i < length text)%nat.
Proof. intros H. apply find_from_range in H. rewrite length_drop in H. lia. Qed.

Lemma find2_from_range c text at_ i : find2_from c text at_ = Some i → (at_ ≤ i ∧ i + 1 < at_ + length text)%nat.
Proof.
  revert at_. induction text as [|x [|y text] IH]; intros at_ H; [done..|]. rewrite find2_step in H.
  destruct (_ && _); [injection H as <-; simpl; lia|]. apply IH in H. simpl in *. lia.
Qed.

Lemma rfind_from_range c text : ∀ at_ best i, rfind_from c text at_ best = Some i →
  best = Some i ∨ (at_ ≤ i < at_ + length text)%nat.
Proof.
  induction text as [|x text IH]; intros at_ best i H; [by left|]. simpl in *. apply IH in H as [H|H]; [|right; lia].
  destruct (x =? c); [injection H as <-; right; lia|by left].
Qed.

Lemma substr_no_ub {E} text offset count : (offset ≤ length text)%nat → ∃ t, substr (E:=E) text offset count = Ok t.
Proof. intros H. unfold substr. rewrite decide_True by done. eauto. Qed.

Lemma parse_decimal_no_ub text m : no_ub (parse_decimal text m).
Proof. unfold parse_decimal, guard. repeat case_match; done. Qed.

Lemma parse_hextet_no_ub text : no_ub (parse_hextet text).
Proof. unfold parse_hextet, guard. repeat case_match; done. Qed.

Lemma parse_port_no_ub text : no_ub (parse_port text).
Proof. unfold parse_port, guard. repeat case_match; done. Qed.

Lemma parse_ipv4_loop_no_ub n : ∀ index offset text octets, (index + n ≤ length octets)%nat → (offset ≤ length text)%nat →
  no_ub (parse_ipv4_loop n index offset text octets).
Proof.
  induction n as [|n IH]; intros index offset text octets Hi Ho; [done|]. cbn [parse_ipv4_loop].
  destruct (substr_no_ub (E:=Error) text offset ((λ d, (d - offset)%nat) <$> find 46 text offset) Ho) as [field ->].
  cbn [rbind]. pose proof (parse_decimal_no_ub field 255) as Hd. destruct (parse_decimal field 255) as [v| |]; [|done..].
  cbn [rbind]. rewrite wr_spec by lia. cbn [rbind]. destruct (find 46 text offset) as [dot|] eqn:E; [|done].
  apply find_range in E. apply IH; [|lia]. rewrite length_app, length_take, length_cons, length_drop. lia.
Qed.

Lemma split_loop_no_ub fuel : ∀ input offset out, (9 ≤ fuel + length out)%nat → (offset ≤ length input)%nat →
  (length out ≤ 8)%nat → no_ub (split_loop fuel input offset out).
Proof.
  induction fuel as [|fuel IH]; intros input offset out Hf Ho Hl; [simpl in Hf; lia|]. cbn [split_loop].
  destruct (substr_no_ub (E:=Error) input offset ((λ d, (d - offset)%nat) <$> find 58 input offset) Ho) as [field ->].
  cbn [rbind]. unfold guard. destruct (Nat.eqb_spec (length out) 8); [done|].
  pose proof (parse_hextet_no_ub field) as Hd. destruct (parse_hextet field) as [v| |]; [|done..]. cbn [rbind].
  destruct (find 58 input offset) as [colon|] eqn:E; [|done]. apply find_range in E.
  apply IH; [rewrite length_app; simpl; lia|lia|rewrite length_app; simpl; lia].
Qed.

Lemma split_hextets_no_ub input : no_ub (split_hextets input).
Proof. unfold split_hextets. destruct input as [|c t]; [done|]. apply split_loop_no_ub; simpl; lia. Qed.

Lemma parse_ipv6_no_ub text : no_ub (parse_ipv6 text).
Proof.
  unfold parse_ipv6, guard. case_match; [done|]. destruct (find2 58 text 0) as [c|] eqn:E.
  - apply find2_from_range in E. rewrite drop_0 in E.
    destruct (substr_no_ub (E:=Error) text 0 (Some c) ltac:(lia)) as [head_text ->].
    destruct (substr_no_ub (E:=Error) text (c + 2) None ltac:(lia)) as [tail_text ->]. cbn [rbind].
    pose proof (split_hextets_no_ub head_text). pose proof (split_hextets_no_ub tail_text).
    destruct (split_hextets head_text); [cbn [rbind]|done..]. destruct (split_hextets tail_text); [cbn [rbind]|done..].
    by repeat case_match.
  - cbn [rbind]. pose proof (split_hextets_no_ub text). destruct (split_hextets text); [|done..]. simpl.
    by repeat case_match.
Qed.

Lemma parse_address_no_ub text : no_ub (parse_address text).
Proof.
  unfold parse_address, guard. case_match; [done|]. case_match; [apply parse_ipv6_no_ub|].
  unfold parse_ipv4. pose proof (parse_ipv4_loop_no_ub 4 0 0 text (replicate 16 0) ltac:(simpl; lia) ltac:(lia)) as Hn.
  destruct (parse_ipv4_loop _ _ _ _ _) as [[[o i] all]| |]; [cbn [rbind]|done..]. unfold guard. by case_match.
Qed.

Lemma parse_endpoint_no_ub text : no_ub (parse_endpoint text).
Proof.
  unfold parse_endpoint. destruct text as [|c t]; [done|].
  set (text := c :: t). assert (length text = S (length t)) as Hl by done.
  destruct (c =? 91) eqn:Hc.
  - destruct (find 93 text 0) as [close|] eqn:E; [|done]. pose proof (find_range _ _ _ _ E) as Hr.
    unfold guard at 1. destruct (_ || _) eqn:G; [done|]. reflect_bools. unfold blen in *.
    destruct (substr_no_ub (E:=Error) text 1 (Some (close - 1)%nat) ltac:(lia)) as [host ->]. cbn [rbind].
    pose proof (parse_address_no_ub host). destruct (parse_address host) as [a| |]; [cbn [rbind]|done..].
    unfold guard. case_bool_decide; [done|].
    destruct (substr_no_ub (E:=Error) text (close + 2) None ltac:(lia)) as [pt ->]. cbn [rbind].
    pose proof (parse_port_no_ub pt). by destruct (parse_port pt).
  - destruct (rfind 58 text) as [colon|] eqn:E; [|done]. apply rfind_from_range in E as [E|Hr]; [done|].
    unfold guard at 1. case_bool_decide; [done|].
    destruct (substr_no_ub (E:=Error) text 0 (Some colon) ltac:(lia)) as [host ->]. cbn [rbind].
    pose proof (parse_address_no_ub host). destruct (parse_address host) as [a| |]; [cbn [rbind]|done..].
    unfold guard. case_bool_decide; [done|].
    destruct (substr_no_ub (E:=Error) text (colon + 1) None ltac:(lia)) as [pt ->]. cbn [rbind].
    pose proof (parse_port_no_ub pt). by destruct (parse_port pt).
Qed.

(** ** Parsed values are well formed *)

Lemma from_bytes_length f l : length (octets_ (from_bytes f l)) = 16%nat.
Proof. unfold from_bytes. cbn [octets_]. rewrite length_app, length_take, length_drop, length_replicate. lia. Qed.

Lemma from_bytes_bytes f l : bytes_ok l → bytes_ok (octets_ (from_bytes f l)).
Proof.
  intros H. unfold from_bytes. apply bytes_ok_app. split; [by apply Forall_take|].
  apply Forall_drop, Forall_replicate. word_lia.
Qed.

Lemma hextet_octets_bytes hs : bytes_ok (hextet_octets hs).
Proof.
  unfold hextet_octets. induction hs as [|h hs IH]; [constructor|]. cbn [map concat app].
  constructor; [apply u8_range|constructor; [apply u8_range|exact IH]].
Qed.

Lemma parse_ipv4_loop_octets n : ∀ index offset text o r, parse_ipv4_loop n index offset text o = Ok r →
  (index + n ≤ 4)%nat → length o = 16%nat → bytes_ok o → drop 4 o = replicate 12 0 →
  length r.1.1 = 16%nat ∧ bytes_ok r.1.1 ∧ drop 4 r.1.1 = replicate 12 0.
Proof.
  induction n as [|n IH]; intros index offset text o r H Hi Hl Hb Hz; [injection H as <-; done|].
  cbn [parse_ipv4_loop] in H. destruct (substr text offset _) as [field| |]; [cbn [rbind] in H|done..].
  destruct (parse_decimal field 255) as [v| |]; [cbn [rbind] in H|done..].
  assert (wr (E:=Error) o index (u8 v) = Ok (<[index := u8 v]> o)) as E by (unfold wr; by rewrite decide_True by lia).
  rewrite E in H. cbn [rbind] in H. set (o1 := <[index := u8 v]> o) in *.
  assert (length o1 = 16%nat ∧ bytes_ok o1 ∧ drop 4 o1 = replicate 12 0) as (Hl1 & Hb1 & Hz1).
  { unfold o1. split_and!; [by rewrite length_insert|apply Forall_insert; [done|apply u8_range]|].
    by rewrite drop_insert_lt by lia. }
  destruct (find 46 text offset) as [dot|]; [|injection H as <-; done].
  apply IH in H; [done|lia|done..].
Qed.

Lemma parse_ipv6_octets text a : parse_ipv6 text = Ok a → ∃ hs, a = from_bytes ipv6 (hextet_octets hs).
Proof.
  unfold parse_ipv6. intros H. unguard H.
  repeat match type of H with
  | rbind ?r _ = Ok _ => let E := fresh "E" in destruct r eqn:E; [cbn [rbind] in H|discriminate H|discriminate H]
  end.
  destruct (find2 58 text 0); unguard H; injection H as <-; eauto.
Qed.

Lemma parse_address_ok text a : parse_address text = Ok a → address_ok a.
Proof.
  unfold parse_address. intros H. unguard H. destruct (find 58 text 0).
  - apply parse_ipv6_octets in H as [hs ->]. split; [apply from_bytes_length|apply from_bytes_bytes, hextet_octets_bytes|done].
  - unfold parse_ipv4 in H. destruct (parse_ipv4_loop 4 0 0 text (replicate 16 0)) as [[[o i] all]| |] eqn:E; [cbn [rbind] in H|done..].
    apply parse_ipv4_loop_octets in E as (Hl & Hb & Hz); [|lia|done|apply Forall_replicate; word_lia|done].
    cbn [fst] in *. unguard H. injection H as <-.
    split; [apply from_bytes_length|by apply from_bytes_bytes|]. intros _. unfold from_bytes. cbn [octets_].
    rewrite Hl, take_ge by lia. cbn [Nat.min]. change (drop 16 (replicate 16 0)) with (@nil Z). by rewrite app_nil_r.
Qed.

Lemma parse_prefix_spec text : no_ub (parse_prefix text) ∧ ∀ p, parse_prefix text = Ok p → prefix_ok p.
Proof.
  unfold parse_prefix. destruct (find 47 text 0) as [slash|] eqn:E; [|done]. apply find_range in E.
  destruct (substr_no_ub (E:=Error) text 0 (Some slash) ltac:(lia)) as [ht ->]. cbn [rbind].
  pose proof (parse_address_no_ub ht) as Hn. destruct (parse_address ht) as [a| |] eqn:Ea; [cbn [rbind]|done..].
  apply parse_address_ok in Ea.
  destruct (substr_no_ub (E:=Error) text (slash + 1) None ltac:(lia)) as [lt ->]. cbn [rbind].
  unfold guard. case_match; [done|]. case_match; [done|].
  destruct (from_chars 10 65535 lt) as [[n [|]]|] eqn:Ef; [|done..].
  destruct (Z.ltb_spec (maximum_prefix_length (family_ a)) n) as [|Hle]; [done|].
  assert (0 ≤ n) as Hn0.
  { unfold from_chars in Ef. destruct lt as [|c lt]; [done|]. destruct (digit_value 10 c); [|done].
    assert (∀ t v, 0 ≤ v → 0 ≤ (read_digits 10 t v).1) as Hr.
    { clear. induction t as [|x t IH]; intros v Hv; [done|]. simpl. destruct (digit_value 10 x) as [d|] eqn:Ed; [|done].
      apply IH. unfold digit_value in Ed. repeat case_match; simplify_eq; reflect_bools; lia. }
    specialize (Hr (c :: lt) 0 ltac:(lia)). destruct (read_digits 10 (c :: lt) 0) as [v rest]. simpl in Hr.
    case_match; [|done]. injection Ef as <- _. done. }
  assert (maximum_prefix_length (family_ a) ≤ 128) as Hmax by (destruct (family_ a); simpl; lia).
  rewrite u8_id by word_lia.
  destruct (prefix_create_spec a n Ea ltac:(lia)) as (p & -> & Hp & _). split; [done|]. by intros q [= <-].
Qed.

(** The parsers of addresses, prefixes and endpoints are total and
    sound: on any text whatever they return a value or their error, never
    reading a field past the end of the text, which in these [noexcept]
    functions would end the process, and never looping; what they return is
    well formed, with the host bits of a prefix cleared. *)
Lemma text_parsers_total text :
  no_ub (parse_address text) ∧ no_ub (parse_prefix text) ∧ no_ub (parse_endpoint text) ∧
  (∀ a, parse_address text = Ok a → address_ok a) ∧ (∀ p, parse_prefix text = Ok p → prefix_ok p).
Proof.
  split_and!; [apply parse_address_no_ub|apply parse_prefix_spec|apply parse_endpoint_no_ub|apply parse_address_ok|apply parse_prefix_spec].
Qed.
