(* ===== verification/Routing.v ===== *)
(** IP packets, flow hashing and the routing table: [src/ip_packet.cpp],
    [src/flow_hash.cpp] and [src/routing.cpp].

    The table's mutex serialises its operations, so they are modelled as
    functions on the table; [classify] holds the lock over its lookups. *)

From Stdlib Require Import Sorted.
From S2P Require Import Prelude Packet Text Address.

(** ** IP packets *)

Definition kIpv4HeaderSize : Z := 20.
Definition kIpv6HeaderSize : Z := 40.

Record IpPacketView := mkIpView {
  ip_family : AddressFamily;
  source : Address;
  destination : Address;
  protocol : Z;
  hop_limit : Z;
  ip_header_length : Z;
  total_length : Z;
}.

Definition parse_ipv4_packet (bytes : list Z) : res Error IpPacketView :=
  throw malformed_packet when (blen bytes <? kIpv4HeaderSize) else
  let* first := rd bytes 0 in
  let header_words := Z.land first 15 in
  let header_length := header_words * 4 in
  throw malformed_packet when (header_length <? kIpv4HeaderSize) || (blen bytes <? header_length) else
  let* total_length := read_u16 bytes 2 in
  throw malformed_packet when (total_length <? header_length) else
  throw payload_length_mismatch when negb (total_length =? blen bytes) else
  let* src := subspan bytes 12 4 in
  let* dst := subspan bytes 16 4 in
  let* protocol := rd bytes 9 in
  let* hop_limit := rd bytes 8 in
  Ok (mkIpView ipv4 (from_bytes ipv4 src) (from_bytes ipv4 dst) protocol hop_limit header_length total_length).

Definition parse_ipv6_packet (bytes : list Z) : res Error IpPacketView :=
  throw malformed_packet when (blen bytes <? kIpv6HeaderSize) else
  let* payload_length := read_u16 bytes 4 in
  let total_length := kIpv6HeaderSize + payload_length in
  throw payload_length_mismatch when negb (total_length =? blen bytes) else
  let* src := subspan bytes 8 16 in
  let* dst := subspan bytes 24 16 in
  let* protocol := rd bytes 6 in
  let* hop_limit := rd bytes 7 in
  Ok (mkIpView ipv6 (from_bytes ipv6 src) (from_bytes ipv6 dst) protocol hop_limit kIpv6HeaderSize total_length).

(** [Fail tt] is [std::nullopt]. *)
Definition declared_ip_length (bytes : list Z) : res unit Z :=
  throw tt when (blen bytes =? 0) else
  let* first := rd bytes 0 in
  let version := Z.shiftr first 4 in
  if version =? 4 then
    throw tt when (blen bytes <? kIpv4HeaderSize) else
    let* total := read_u16 bytes 2 in
    throw tt when (total <? kIpv4HeaderSize) else Ok total
  else if version =? 6 then
    throw tt when (blen bytes <? kIpv6HeaderSize) else
    let* payload := read_u16 bytes 4 in
    Ok (kIpv6HeaderSize + payload)
  else Fail tt.

Definition parse_ip_packet (bytes : list Z) : res Error IpPacketView :=
  throw malformed_packet when (blen bytes =? 0) else
  let* first := rd bytes 0 in
  let version := u8 (Z.shiftr first 4) in
  if version =? 4 then parse_ipv4_packet bytes
  else if version =? 6 then parse_ipv6_packet bytes
  else Fail unsupported_version.

Definition is_multicast (a : Address) : bool :=
  match family_ a with
  | ipv4 => Z.land (address_bytes a !!! 0%nat) 240 =? 224
  | ipv6 => address_bytes a !!! 0%nat =? 255
  end.

Definition is_unspecified (a : Address) : bool := forallb (λ o, o =? 0) (address_bytes a).

Definition is_loopback (a : Address) : bool :=
  match family_ a with
  | ipv4 => address_bytes a !!! 0%nat =? 127
  | ipv6 => forallb (λ o, o =? 0) (take 15 (address_bytes a)) && (address_bytes a !!! 15%nat =? 1)
  end.

(** ** Flows *)

Record FlowKey := mkFlow {
  flow_source : Address; flow_destination : Address;
  source_port : Z; destination_port : Z; flow_protocol : Z }.

Definition kProtocolTcp : Z := 6.
Definition kProtocolUdp : Z := 17.

Definition flow_key_of (packet : IpPacketView) (frame : list Z) : res Error FlowKey :=
  let key := mkFlow (source packet) (destination packet) 0 0 (protocol packet) in
  if negb (protocol packet =? kProtocolTcp) && negb (protocol packet =? kProtocolUdp) then Ok key
  else if blen frame <? ip_header_length packet + 4 then Ok key
  else
    let* transport := subspan_from frame (Z.to_nat (ip_header_length packet)) in
    let* source_port := read_u16 transport 0 in
    let* destination_port := read_u16 transport 2 in
    Ok (mkFlow (source packet) (destination packet) source_port destination_port (protocol packet)).

Definition kOffsetBasis : Z := 1469598103934665603.
Definition kPrime : Z := 1099511628211.

Definition mix (hash value : Z) : Z := u64 (Z.lxor hash value * kPrime).
Definition mix_address (hash : Z) (a : Address) : Z := foldl mix hash (address_bytes a).
Definition hash_address (a : Address) : Z := mix_address kOffsetBasis a.

Definition hash_flow (key : FlowKey) : Z :=
  let source := u64 (hash_address (flow_source key) + source_port key) in
  let destination := u64 (hash_address (flow_destination key) + destination_port key) in
  let hash := mix kOffsetBasis (u64 (source + destination)) in
  let hash := mix hash (flow_protocol key) in
  let hash := Z.lxor hash (Z.shiftr hash 33) in
  let hash := u64 (hash * 0xFF51AFD7ED558CCD) in
  Z.lxor hash (Z.shiftr hash 33).

Definition worker_for (key : FlowKey) (worker_count : Z) : Z :=
  if worker_count <=? 1 then 0 else hash_flow key mod worker_count.

(** ** The routing table *)

Definition kNoPeer : Z := 0.

Inductive RoutingError := duplicate_prefix | invalid_peer | prefix_family_mismatch | too_many_prefixes.

Inductive ForwardDecision :=
  forward | deliver_local | no_route | source_not_authorized | multicast_denied
| unspecified_address | loopback_address | hop_limit_exceeded | routing_loop.

Record ForwardResult := mkForward { decision : ForwardDecision; forward_peer : Z }.

Definition kMaximumPrefixes : Z := 4096.

Record Entry := mkEntry { entry_prefix : Prefix; entry_peer : Z }.

Record RoutingTable := mkTable { entries_ : list Entry; local_ : list Prefix }.

Definition empty_table : RoutingTable := mkTable [] [].

(** [std::ranges::lower_bound(entries_, length, greater, prefix.length)] on a
    range sorted by falling length: the first entry not longer than it. *)
Fixpoint lower_bound (length : Z) (entries : list Entry) : nat :=
  match entries with
  | [] => 0
  | e :: entries => if length_ (entry_prefix e) >? length then S (lower_bound length entries) else 0
  end.

Definition insert_at (i : nat) (e : Entry) (l : list Entry) : list Entry := take i l ++ e :: drop i l.

(** The scan for an entry with the same prefix. *)
Fixpoint find_prefix (prefix : Prefix) (entries : list Entry) : option Entry :=
  match entries with
  | [] => None
  | e :: entries => if decide (entry_prefix e = prefix) then Some e else find_prefix prefix entries
  end.

Definition add_route (t : RoutingTable) (peer : Z) (prefix : Prefix) : RoutingTable * res RoutingError unit :=
  if peer =? kNoPeer then (t, Fail invalid_peer)
  else if kMaximumPrefixes <=? Z.of_nat (length (entries_ t)) then (t, Fail too_many_prefixes)
  else
    match find_prefix prefix (entries_ t) with
    | Some e => if entry_peer e =? peer then (t, Ok tt) else (t, Fail duplicate_prefix)
    | None =>
        let position := lower_bound (length_ prefix) (entries_ t) in
        (mkTable (insert_at position (mkEntry prefix peer) (entries_ t)) (local_ t), Ok tt)
    end.

Definition add_local (t : RoutingTable) (prefix : Prefix) : RoutingTable * res RoutingError unit :=
  if kMaximumPrefixes <=? Z.of_nat (length (local_ t)) then (t, Fail too_many_prefixes)
  else if bool_decide (prefix ∈ local_ t) then (t, Ok tt)
  else (mkTable (entries_ t) (local_ t ++ [prefix]), Ok tt).

Definition clear_peer_routes (t : RoutingTable) : RoutingTable := mkTable [] (local_ t).

Definition matches (p : Prefix) (a : Address) : bool :=
  bool_decide (family_ (address_ p) = family_ a) && contains p a.

Definition is_local (t : RoutingTable) (a : Address) : bool := existsb (λ p, matches p a) (local_ t).

Fixpoint lookup_loop (entries : list Entry) (a : Address) : Z :=
  match entries with
  | [] => kNoPeer
  | e :: entries => if matches (entry_prefix e) a then entry_peer e else lookup_loop entries a
  end.
Definition lookup_route (t : RoutingTable) (a : Address) : Z := lookup_loop (entries_ t) a.

Definition is_authorized (t : RoutingTable) (peer : Z) (a : Address) : bool :=
  if peer =? kNoPeer then false
  else existsb (λ e, (entry_peer e =? peer) && matches (entry_prefix e) a) (entries_ t).

Definition refuse (d : ForwardDecision) : ForwardResult := mkForward d kNoPeer.

Definition classify (t : RoutingTable) (packet : IpPacketView) (ingress_peer : Z) : ForwardResult :=
  if is_multicast (destination packet) then refuse multicast_denied
  else if is_unspecified (destination packet) || is_unspecified (source packet) then refuse unspecified_address
  else if is_loopback (destination packet) || is_loopback (source packet) then refuse loopback_address
  else if hop_limit packet <=? 1 then refuse hop_limit_exceeded
  else if negb (ingress_peer =? kNoPeer) && negb (is_authorized t ingress_peer (source packet))
  then refuse source_not_authorized
  else if is_local t (destination packet) then mkForward deliver_local kNoPeer
  else
    let destination_peer := lookup_route t (destination packet) in
    if destination_peer =? kNoPeer then
      if negb (ingress_peer =? kNoPeer) then mkForward deliver_local kNoPeer else refuse no_route
    else if destination_peer =? ingress_peer then refuse routing_loop
    else mkForward forward destination_peer.

(** ** IP packets stay inside their frame *)

(** The 16-bit number at an offset. *)
Definition u16_at (b : list Z) (o : nat) : Z := be_value [b !!! o; b !!! S o].

Lemma read_u16_ok {E} b o : (S o < length b)%nat → bytes_ok b → read_u16 (E:=E) b o = Ok (u16_at b o).
Proof.
  intros Hl Hb. assert (∀ k, (k < length b)%nat → b !! k = Some (b !!! k)) as Hk
    by (intros; by apply list_lookup_lookup_total_lt).
  eapply read_u16_spec; [|apply octet_byte; [done|lia]..].
  rewrite (drop_S b (b !!! o) o), (drop_S b (b !!! S o) (S o)) by (apply Hk; lia). done.
Qed.

Lemma u16_at_range b o : (S o < length b)%nat → bytes_ok b → is_u16 (u16_at b o).
Proof.
  intros Hl Hb. apply (be_value_range 2); [|done].
  constructor; [apply octet_byte; [done|lia]|constructor; [apply octet_byte; [done|lia]|constructor]].
Qed.

Lemma rd_lt {E} b o : (o < length b)%nat → rd (E:=E) b o = Ok (b !!! o).
Proof. intros H. apply rd_ok. by apply list_lookup_lookup_total_lt. Qed.

Lemma span_address f b o n : (o + n ≤ length b)%nat → bytes_ok b → address_length f = n →
  address_ok (from_bytes f (take n (drop o b))).
Proof.
  intros Hl Hb Hn. split; [apply from_bytes_length|apply from_bytes_bytes, Forall_take, Forall_drop, Hb|].
  simpl family_. intros ->. simpl in Hn. subst n. unfold from_bytes. cbn [octets_].
  rewrite length_take, length_drop, Nat.min_l by lia. rewrite Nat.min_l by lia.
  rewrite (take_ge (take 4 (drop o b))) by (rewrite length_take; lia).
  rewrite drop_app_length'; [done|]. rewrite length_take, length_drop. lia.
Qed.

(** The view a parsed packet promises. *)
Record ip_view_ok (bytes : list Z) (v : IpPacketView) : Prop := {
  iv_total : total_length v = blen bytes;
  iv_header : kIpv4HeaderSize ≤ ip_header_length v ≤ total_length v;
  iv_source : address_ok (source v) ∧ family_ (source v) = ip_family v;
  iv_destination : address_ok (destination v) ∧ family_ (destination v) = ip_family v;
  iv_fields : is_u8 (protocol v) ∧ is_u8 (hop_limit v);
  iv_declared : declared_ip_length bytes = Ok (total_length v);
}.

Lemma nibble_small x : is_u8 x → u8 (Z.shiftr x 4) = Z.shiftr x 4.
Proof. intros Hx. apply u8_id. rewrite shiftr_div by lia. unfold is_u8 in *. Z.to_euclidean_division_equations. lia. Qed.

Lemma parse_ipv4_packet_spec bytes : bytes_ok bytes → Z.shiftr (bytes !!! 0%nat) 4 = 4 → bytes ≠ [] →
  no_ub (parse_ipv4_packet bytes) ∧ ∀ v, parse_ipv4_packet bytes = Ok v → ip_view_ok bytes v.
Proof.
  intros Hb E4 Hne. assert (0 < length bytes)%nat as Hpos by (destruct bytes; [done|simpl; lia]).
  unfold parse_ipv4_packet, guard, kIpv4HeaderSize. destruct (Z.ltb_spec (blen bytes) 20) as [|H20]; [done|].
  unfold blen in H20. rewrite rd_lt by lia. cbn [rbind]. case_match eqn:G; [done|]. reflect_bools.
  rewrite read_u16_ok by (done || lia). cbn [rbind].
  destruct (Z.ltb_spec (u16_at bytes 2) (Z.land (bytes !!! 0%nat) 15 * 4)) as [|Htl]; [done|].
  destruct (Z.eqb_spec (u16_at bytes 2) (blen bytes)) as [Elen|]; [cbn [negb]|done].
  rewrite !subspan_ok, !rd_lt by lia. cbn [rbind]. split; [done|]. intros v [= <-].
  split; cbn [total_length ip_header_length source destination protocol hop_limit ip_family]; [done|unfold kIpv4HeaderSize; lia|split; [by apply span_address; [lia|..]|done]..
    |split; apply octet_byte; (done || lia)|].
  unfold declared_ip_length, guard, blen, kIpv4HeaderSize. rewrite (proj2 (Z.eqb_neq (Z.of_nat (length bytes)) 0)) by lia.
  rewrite rd_lt by lia. cbn [rbind]. rewrite (proj2 (Z.eqb_eq _ 4)) by done.
  rewrite (proj2 (Z.ltb_ge (Z.of_nat (length bytes)) 20)) by lia. rewrite read_u16_ok by (done || lia). cbn [rbind].
  by rewrite (proj2 (Z.ltb_ge (u16_at bytes 2) 20)) by lia.
Qed.

Lemma parse_ipv6_packet_spec bytes : bytes_ok bytes → Z.shiftr (bytes !!! 0%nat) 4 = 6 → bytes ≠ [] →
  no_ub (parse_ipv6_packet bytes) ∧ ∀ v, parse_ipv6_packet bytes = Ok v → ip_view_ok bytes v.
Proof.
  intros Hb E6 Hne. assert (0 < length bytes)%nat as Hpos by (destruct bytes; [done|simpl; lia]).
  unfold parse_ipv6_packet, guard, kIpv6HeaderSize. destruct (Z.ltb_spec (blen bytes) 40) as [|H40]; [done|].
  unfold blen in H40. rewrite read_u16_ok by (done || lia). cbn [rbind].
  pose proof (u16_at_range bytes 4 ltac:(lia) Hb) as Hu.
  destruct (Z.eqb_spec (40 + u16_at bytes 4) (blen bytes)) as [Elen|]; [cbn [negb]|done].
  rewrite !subspan_ok, !rd_lt by lia. cbn [rbind]. split; [done|]. intros v [= <-].
  split; cbn [total_length ip_header_length source destination protocol hop_limit ip_family]; [done|unfold kIpv4HeaderSize, is_u16 in *; lia|split; [by apply span_address; [lia|..]|done]..
    |split; apply octet_byte; (done || lia)|].
  unfold declared_ip_length, guard, blen, kIpv6HeaderSize. rewrite (proj2 (Z.eqb_neq (Z.of_nat (length bytes)) 0)) by lia.
  rewrite rd_lt by lia. cbn [rbind]. rewrite (proj2 (Z.eqb_neq _ 4)), (proj2 (Z.eqb_eq _ 6)) by lia.
  rewrite (proj2 (Z.ltb_ge (Z.of_nat (length bytes)) 40)) by lia. by rewrite read_u16_ok by (done || lia).
Qed.

Lemma parse_ip_packet_spec bytes : bytes_ok bytes →
  no_ub (parse_ip_packet bytes) ∧ ∀ v, parse_ip_packet bytes = Ok v → ip_view_ok bytes v.
Proof.
  intros Hb. unfold parse_ip_packet, guard. destruct (Z.eqb_spec (blen bytes) 0) as [|Hne]; [done|].
  assert (bytes ≠ []) as Hnil by (by intros ->). assert (0 < length bytes)%nat as Hpos by (destruct bytes; [done|simpl; lia]).
  rewrite rd_lt by lia. cbn [rbind]. rewrite nibble_small by (by apply octet_byte).
  destruct (Z.eqb_spec (Z.shiftr (bytes !!! 0%nat) 4) 4); [by apply parse_ipv4_packet_spec|].
  destruct (Z.eqb_spec (Z.shiftr (bytes !!! 0%nat) 4) 6); [by apply parse_ipv6_packet_spec|done].
Qed.

Lemma flow_key_of_ok bytes v : bytes_ok bytes → ip_view_ok bytes v →
  ∃ key, flow_key_of v bytes = Ok key ∧ flow_source key = source v ∧ flow_destination key = destination v ∧
    is_u16 (source_port key) ∧ is_u16 (destination_port key) ∧ flow_protocol key = protocol v.
Proof.
  intros Hb Hv. destruct (iv_header _ _ Hv) as [Hh1 Hh2]. rewrite (iv_total _ _ Hv) in Hh2. unfold kIpv4HeaderSize in Hh1.
  unfold flow_key_of. case_match; [eexists; split; [done|]; cbn; split_and!; done|].
  destruct (Z.ltb_spec (blen bytes) (ip_header_length v + 4)) as [|Hlen]; [eexists; split; [done|]; cbn; split_and!; done|].
  unfold blen in Hlen. rewrite subspan_from_ok by lia. cbn [rbind].
  set (t := drop (Z.to_nat (ip_header_length v)) bytes).
  assert (4 ≤ length t)%nat as Ht by (unfold t; rewrite length_drop; lia).
  assert (bytes_ok t) as Hbt by (by apply Forall_drop).
  rewrite !read_u16_ok by (done || lia). cbn [rbind]. eexists. split; [reflexivity|]. cbn.
  split_and!; [done|done|apply u16_at_range; (done || lia)..|done].
Qed.

(** Whatever arrives from the tunnel device, [parse_ip_packet] and
    [flow_key_of] stay inside the frame; a packet that parses has a header
    inside its declared length, which is exactly the length of the frame and
    what [declared_ip_length] says, and well-formed addresses of its family. *)
Lemma parse_ip_packet_sound bytes : bytes_ok bytes →
  no_ub (parse_ip_packet bytes) ∧
  ∀ v, parse_ip_packet bytes = Ok v →
    ip_view_ok bytes v ∧
    ∃ key, flow_key_of v bytes = Ok key ∧ is_u16 (source_port key) ∧ is_u16 (destination_port key).
Proof.
  intros Hb. destruct (parse_ip_packet_spec bytes Hb) as [Hn H]. split; [done|]. intros v Hv. specialize (H v Hv).
  split; [done|]. destruct (flow_key_of_ok bytes v Hb H) as (key & E & _ & _ & Hs & Hd & _). eauto.
Qed.

(** ** Both directions of a flow meet on one worker *)

Definition reverse_flow (key : FlowKey) : FlowKey :=
  mkFlow (flow_destination key) (flow_source key) (destination_port key) (source_port key) (flow_protocol key).

(** A flow and its replies hash alike, so one worker handles both
    directions, and that worker exists. *)
Lemma flow_directions_share_worker key workers : 0 ≤ workers →
  hash_flow (reverse_flow key) = hash_flow key ∧
  worker_for (reverse_flow key) workers = worker_for key workers ∧
  0 ≤ worker_for key workers < Z.max 1 workers.
Proof.
  intros Hw. assert (hash_flow (reverse_flow key) = hash_flow key) as E.
  { unfold hash_flow. simpl. by rewrite (Z.add_comm (u64 (hash_address (flow_destination key) + destination_port key))). }
  split_and!; [done|unfold worker_for; by rewrite E|..]; unfold worker_for; destruct (Z.leb_spec workers 1); try lia;
    pose proof (Z.mod_pos_bound (hash_flow key) workers ltac:(lia)); lia.
Qed.

(** ** Longest-prefix match *)

Definition longer (e f : Entry) : Prop := length_ (entry_prefix f) ≤ length_ (entry_prefix e).

Record table_ok (t : RoutingTable) : Prop := {
  tb_sorted : StronglySorted longer (entries_ t);
  tb_unique : NoDup (map entry_prefix (entries_ t));
  tb_peers : Forall (λ e, entry_peer e ≠ kNoPeer ∧ prefix_ok (entry_prefix e)) (entries_ t);
  tb_size : Z.of_nat (length (entries_ t)) ≤ kMaximumPrefixes;
  tb_local : NoDup (local_ t) ∧ Z.of_nat (length (local_ t)) ≤ kMaximumPrefixes;
}.

Inductive table_reach : RoutingTable → Prop :=
| reach_empty : table_reach empty_table
| reach_add t peer p : table_reach t → prefix_ok p → table_reach (add_route t peer p).1
| reach_add_local t p : table_reach t → prefix_ok p → table_reach (add_local t p).1
| reach_clear t : table_reach t → table_reach (clear_peer_routes t).

Lemma find_prefix_None p entries : find_prefix p entries = None → p ∉ map entry_prefix entries.
Proof.
  induction entries as [|e entries IH]; simpl; [intros _; apply not_elem_of_nil|]. case_decide as Hd; [done|].
  intros H. apply not_elem_of_cons. split; [done|by apply IH].
Qed.

Lemma insert_at_perm i e l : insert_at i e l ≡ₚ e :: l.
Proof. unfold insert_at. rewrite <- Permutation_middle, take_drop. done. Qed.

(** Inserting at the lower bound keeps the table sorted. *)
Lemma lower_bound_sorted e l : StronglySorted longer l →
  StronglySorted longer (insert_at (lower_bound (length_ (entry_prefix e)) l) e l).
Proof.
  unfold insert_at. induction 1 as [|f l Hs IH Hf]; simpl; [repeat constructor|].
  rewrite Z.gtb_ltb. destruct (Z.ltb_spec (length_ (entry_prefix e)) (length_ (entry_prefix f))) as [Hlt|Hge]; simpl.
  - constructor; [done|]. set (k := lower_bound _ l).
    rewrite <- (take_drop k l) in Hf. apply Forall_app in Hf as [H1 H2]. apply Forall_app. split; [done|].
    constructor; [unfold longer; lia|done].
  - constructor; [by constructor|]. constructor; [done|].
    eapply Forall_impl; [exact Hf|]. unfold longer. intros g Hg. lia.
Qed.

Lemma add_route_ok t peer p : table_ok t → prefix_ok p → table_ok (add_route t peer p).1.
Proof.
  intros [Hs Hu Hp Hz Hl] Hok. unfold add_route.
  destruct (Z.eqb_spec peer kNoPeer); [done|].
  destruct (Z.leb_spec kMaximumPrefixes (Z.of_nat (length (entries_ t)))); [done|].
  destruct (find_prefix p (entries_ t)) as [e|] eqn:Hf; [by case_match|]. cbn [fst].
  split; cbn [entries_ local_].
  - by apply (lower_bound_sorted (mkEntry p peer)).
  - assert (map entry_prefix (insert_at (lower_bound (length_ p) (entries_ t)) (mkEntry p peer) (entries_ t))
      ≡ₚ map entry_prefix (mkEntry p peer :: entries_ t)) as E by (by rewrite insert_at_perm).
    rewrite E. simpl. constructor; [by apply find_prefix_None|done].
  - rewrite insert_at_perm. by constructor.
  - rewrite insert_at_perm. simpl. lia.
  - done.
Qed.

Lemma reachable_ok t : table_reach t → table_ok t.
Proof.
  induction 1 as [|t peer p _ IH Hp|t p _ IH Hp|t _ IH].
  - split; simpl; [constructor|constructor|constructor|unfold kMaximumPrefixes; lia|split; [constructor|unfold kMaximumPrefixes; lia]].
  - by apply add_route_ok.
  - unfold add_local. destruct (Z.leb_spec kMaximumPrefixes (Z.of_nat (length (local_ t)))); [done|].
    case_bool_decide as Hin; [done|]. destruct IH as [Hs Hu Hpe Hz [Hn Hlz]]. split; simpl; [done..|]. split.
    + apply NoDup_app. split_and!; [done| |apply NoDup_singleton].
      intros x Hx Hx'%list_elem_of_singleton. by subst.
    + rewrite length_app. simpl. lia.
  - destruct IH as [_ _ _ _ Hl]. split; simpl; [constructor|constructor|constructor|unfold kMaximumPrefixes; lia|done].
Qed.

(** An entry for the address that no longer one beats. *)
Definition best_route (t : RoutingTable) (a : Address) (e : Entry) : Prop :=
  e ∈ entries_ t ∧ contains (entry_prefix e) a = true ∧
  ∀ f, f ∈ entries_ t → contains (entry_prefix f) a = true → length_ (entry_prefix f) ≤ length_ (entry_prefix e).

Lemma matches_contains p a : matches p a = contains p a.
Proof.
  unfold matches, contains. case_bool_decide as Hf; [done|]. by rewrite decide_True by congruence.
Qed.

Lemma lookup_loop_best l a : StronglySorted longer l →
  (∃ e, e ∈ l ∧ contains (entry_prefix e) a = true ∧ lookup_loop l a = entry_peer e ∧
     ∀ f, f ∈ l → contains (entry_prefix f) a = true → length_ (entry_prefix f) ≤ length_ (entry_prefix e)) ∨
  (lookup_loop l a = kNoPeer ∧ ∀ f, f ∈ l → contains (entry_prefix f) a = false).
Proof.
  induction 1 as [|e l Hs IH Hf]; [right; split; [done|]; intros f Hf; by apply elem_of_nil in Hf|].
  simpl. rewrite matches_contains. destruct (contains (entry_prefix e) a) eqn:Hc.
  - left. exists e. split_and!; [left|done|done|]. intros f [->|Hin]%elem_of_cons _; [done|].
    rewrite Forall_forall in Hf. by apply Hf.
  - destruct IH as [(g & Hin & Hg & E & Hbest)|[E Hnone]].
    + left. exists g. split_and!; [by right|done|done|]. intros f [->|Hfin]%elem_of_cons Hcf; [congruence|by apply Hbest].
    + right. split; [done|]. intros f [->|Hfin]%elem_of_cons; [done|by apply Hnone].
Qed.

(** Two prefixes of the same length around one address are the same. *)
Lemma same_length_same_prefix p q a : prefix_ok p → prefix_ok q → address_ok a →
  contains p a = true → contains q a = true → length_ p = length_ q → p = q.
Proof.
  intros Hp Hq Ha Cp Cq Hl. apply contains_spec in Cp as [Fp Bp]; [|done..]. apply contains_spec in Cq as [Fq Bq]; [|done..].
  destruct p as [[fp op] n], q as [[fq oq] m]. cbn [length_ address_ family_ octets_] in *. subst m fp fq.
  do 2 f_equal. destruct Hp as [Hpa Hpl Hph], Hq as [Hqa Hql Hqh]. cbn [length_ address_ family_ octets_] in *.
  destruct a as [f oa]. cbn [family_ octets_] in *.
  apply (octets_bits_ext _ _ 16); [apply Hpa|apply Hqa|apply Hpa|apply Hqa|]. intros i Hi.
  destruct (Z.lt_ge_cases i n); [by rewrite <- Bp, <- Bq by lia|].
  destruct (Z.lt_ge_cases i (maximum_prefix_length f)); [by rewrite Hph, Hqh by lia|].
  destruct f; [|simpl in *; lia]. pose proof (ao_zeros _ Hpa eq_refl) as Zp. pose proof (ao_zeros _ Hqa eq_refl) as Zq.
  cbn [octets_ maximum_prefix_length] in *. unfold obit.
  assert (Z.to_nat (i / 8) = 4 + Z.to_nat (i / 8 - 4))%nat as -> by (Z.to_euclidean_division_equations; lia).
  by rewrite !list_lookup_total_alt, <- !lookup_drop, Zp, Zq.
Qed.

(** C20. Lookup is longest-prefix match: in every table built by [add],
    [add_local] and [clear_peer_routes], [lookup] returns the peer of the
    longest prefix that contains the address, which is unique, and [kNoPeer]
    exactly when no prefix contains it; the table never holds more than 4096
    prefixes nor one prefix twice. *)
Theorem lookup_is_longest_prefix t a : table_reach t → address_ok a →
  (∀ e, best_route t a e → lookup_route t a = entry_peer e ∧ entry_peer e ≠ kNoPeer) ∧
  (lookup_route t a = kNoPeer ↔ ∀ e, e ∈ entries_ t → contains (entry_prefix e) a = false) ∧
  (lookup_route t a ≠ kNoPeer → ∃ e, best_route t a e) ∧
  NoDup (map entry_prefix (entries_ t)) ∧ Z.of_nat (length (entries_ t)) ≤ kMaximumPrefixes.
Proof.
  intros Ht Ha. destruct (reachable_ok t Ht) as [Hs Hu Hp Hz _]. rewrite Forall_forall in Hp.
  unfold lookup_route. destruct (lookup_loop_best (entries_ t) a Hs) as [(e & Hin & Hc & E & Hbest)|[E Hnone]]; rewrite E.
  - destruct (Hp e Hin) as [Hpe Hok]. split_and!; [| | |done|done].
    + intros f (Hfin & Hfc & Hfb). specialize (Hbest f Hfin Hfc). specialize (Hfb e Hin Hc).
      assert (entry_prefix f = entry_prefix e) as Hpf by (apply (same_length_same_prefix _ _ a); [apply Hp|..]; (done || lia)).
      assert (f = e) as ->; [|done]. apply list_elem_of_lookup in Hfin as [i Hi], Hin as [j Hj].
      assert (i = j) as ->; [|congruence]. eapply (NoDup_lookup _ _ _ (entry_prefix e) Hu); rewrite list_lookup_fmap.
      * by rewrite Hi, <- Hpf.
      * by rewrite Hj.
    + split; [done|]. intros H. by rewrite H in Hc.
    + intros _. by exists e.
  - split_and!; [|done|done|done|done]. intros f (Hfin & Hfc & _). by rewrite Hnone in Hfc.
Qed.
Lemma lookup_is_longest_prefix_witness :
  let p := mkPrefix (from_bytes ipv4 [10; 0; 0; 0]) 20 in
  lookup_route (add_route empty_table 7 p).1 sample_address = 7.
Proof.
  intros p.
  assert (prefix_ok p) as Hp.
  { destruct (prefix_create_spec sample_address 20 sample_address_ok) as (q & E & Hq & _); [simpl; lia|].
    vm_compute in E. injection E as <-. exact Hq. }
  destruct (lookup_is_longest_prefix (add_route empty_table 7 p).1 sample_address) as (H & _).
  - apply reach_add; [apply reach_empty|exact Hp].
  - exact sample_address_ok.
  - apply (H (mkEntry p 7)). split_and!; [left|reflexivity|]. intros f [->|Hf]%elem_of_cons _; [done|by apply elem_of_nil in Hf].
Defined.

Lemma is_authorized_spec t peer a : is_authorized t peer a = true →
  peer ≠ kNoPeer ∧ ∃ e, e ∈ entries_ t ∧ entry_peer e = peer ∧ contains (entry_prefix e) a = true.
Proof.
  unfold is_authorized. destruct (Z.eqb_spec peer kNoPeer); [done|]. intros (e & Hin & H)%existsb_exists.
  apply andb_true_iff in H as [Hp Hm]. split; [done|]. exists e. rewrite matches_contains in Hm.
  split_and!; [by apply list_elem_of_In|by apply Z.eqb_eq|done].
Qed.

(** C32. No packet leaves for a peer unless its source is authorized: a
    packet from peer [ingress] is forwarded only if some prefix of that peer
    contains its source and the longest prefix of its destination belongs to
    another peer; it is never sent back where it came from, and a packet from
    a peer whose source is not authorized is refused whatever its
    destination. *)
Theorem classify_enforces_routes t packet ingress : table_reach t → address_ok (destination packet) →
  let r := classify t packet ingress in
  (decision r = forward →
     (∃ e, best_route t (destination packet) e ∧ entry_peer e = forward_peer r) ∧
     forward_peer r ≠ kNoPeer ∧ forward_peer r ≠ ingress ∧ 1 < hop_limit packet ∧
     is_multicast (destination packet) = false) ∧
  (ingress ≠ kNoPeer → decision r = forward ∨ decision r = deliver_local →
     ∃ e, e ∈ entries_ t ∧ entry_peer e = ingress ∧ contains (entry_prefix e) (source packet) = true) ∧
  (decision r ≠ forward → forward_peer r = kNoPeer).
Proof.
  intros Ht Ha r. unfold r, classify, refuse. destruct (reachable_ok t Ht) as [Hs _ Hp _ _]. rewrite Forall_forall in Hp.
  destruct (is_multicast (destination packet)); [by split_and!; intros; destruct_or?|].
  destruct (_ || _); [by split_and!; intros; destruct_or?|]. destruct (_ || _); [by split_and!; intros; destruct_or?|].
  destruct (Z.leb_spec (hop_limit packet) 1) as [|Hhop]; [by split_and!; intros; destruct_or?|].
  destruct (negb (ingress =? kNoPeer) && negb (is_authorized t ingress (source packet))) eqn:Hauth;
    [by split_and!; intros; destruct_or?|].
  assert (ingress ≠ kNoPeer → ∃ e, e ∈ entries_ t ∧ entry_peer e = ingress ∧ contains (entry_prefix e) (source packet) = true) as Hsrc.
  { intros Hne. rewrite (proj2 (Z.eqb_neq _ _)) in Hauth by done. cbn [negb andb] in Hauth. apply negb_false_iff in Hauth.
    by apply is_authorized_spec in Hauth as [_ ?]. }
  destruct (is_local t (destination packet)); [by split_and!; intros; auto|].
  unfold lookup_route. destruct (lookup_loop_best (entries_ t) (destination packet) Hs) as [(e & Hin & Hc & -> & Hbest)|[-> _]].
  - destruct (Hp e Hin) as [Hpe _]. rewrite (proj2 (Z.eqb_neq (entry_peer e) kNoPeer)) by done.
    destruct (Z.eqb_spec (entry_peer e) ingress) as [|Hne]; [by split_and!; intros; destruct_or?|].
    split_and!; [|by auto|done]. intros _. split_and!; [by exists e|done..].
  - rewrite Z.eqb_refl. destruct (negb (ingress =? kNoPeer)); [by split_and!; intros; auto|by split_and!; intros; destruct_or?].
Qed.
Lemma classify_enforces_routes_witness :
  let p := mkPrefix (from_bytes ipv4 [10; 0; 0; 0]) 20 in
  let t := (add_route empty_table 7 p).1 in
  let packet := mkIpView ipv4 (from_bytes ipv4 [192; 168; 0; 1]) sample_address 17 64 20 28 in
  decision (classify t packet kNoPeer) = forward ∧ forward_peer (classify t packet kNoPeer) ≠ kNoPeer.
Proof.
  intros p t packet.
  assert (prefix_ok p) as Hp.
  { destruct (prefix_create_spec sample_address 20 sample_address_ok) as (q & E & Hq & _); [simpl; lia|].
    vm_compute in E. injection E as <-. exact Hq. }
  destruct (classify_enforces_routes t packet kNoPeer) as (H & _).
  - apply reach_add; [apply reach_empty|exact Hp].
  - exact sample_address_ok.
  - split; [vm_compute; reflexivity|]. apply H. vm_compute. reflexivity.
Defined.
