(* ===== verification/Timers.v ===== *)
(** Timers: [src/timers.cpp].

    [TimerWheel] keeps its timers in a vector that [std::push_heap],
    [std::make_heap] and [std::pop_heap] maintain as a heap.  What the
    wheel relies on is the contract of these functions, the class
    [HeapFunctions]; the wheel's theorems hold for every implementation of
    it, and [sorting_heap] is one. *)

From Stdlib Require Import Sorted.
From S2P Require Import Prelude.

Inductive TimerKind :=
  handshake_timeout | handshake_retry | keepalive | rekey | session_expiry | path_probe | dead_peer
| provisional_timeout.
#[export] Instance TimerKind_eq : EqDecision TimerKind. Proof. solve_decision. Defined.

Record TimerEvent := mkTimer { kind : TimerKind; subject : Z; due : Instant }.
#[export] Instance TimerEvent_eq : EqDecision TimerEvent. Proof. solve_decision. Defined.
#[export] Instance TimerEvent_inhabited : Inhabited TimerEvent := populate (mkTimer keepalive 0 0).

Definition kHandshakeTimeout : Duration := seconds 5.
Definition kHandshakeRetryBase : Duration := milliseconds 500.
Definition kHandshakeRetryMax : Duration := seconds 30.
Definition kKeepaliveInterval : Duration := seconds 25.

(** [for (step = 0; step < attempt && delay < kHandshakeRetryMax; ++step)] *)
Fixpoint backoff_loop (steps : nat) (delay : Duration) : Duration :=
  match steps with
  | O => delay
  | S steps => if delay <? kHandshakeRetryMax then backoff_loop steps (delay * 2) else delay
  end.

Definition retry_backoff (attempt : Z) : Duration :=
  Z.min (backoff_loop (Z.to_nat attempt) kHandshakeRetryBase) kHandshakeRetryMax.

(** ** Heaps *)

(** [later_first]: the order under which the heap's front is due first. *)
Definition later_first (left right : TimerEvent) : bool := due left >? due right.

(** [std::is_heap] under [later_first]: no parent is due after its child. *)
Definition is_heap (l : list TimerEvent) : Prop :=
  ∀ i, (0 < i < length l)%nat → later_first (l !!! ((i - 1) / 2)%nat) (l !!! i) = false.

(** The contract of the heap functions of [<algorithm>]. *)
Class HeapFunctions := {
  push_heap : list TimerEvent → list TimerEvent;
  make_heap : list TimerEvent → list TimerEvent;
  pop_heap : list TimerEvent → list TimerEvent;
  push_heap_spec : ∀ l e, is_heap l → is_heap (push_heap (l ++ [e])) ∧ push_heap (l ++ [e]) ≡ₚ l ++ [e];
  make_heap_spec : ∀ l, is_heap (make_heap l) ∧ make_heap l ≡ₚ l;
  pop_heap_spec : ∀ e l, is_heap (e :: l) → ∃ l', pop_heap (e :: l) = l' ++ [e] ∧ is_heap l' ∧ l' ≡ₚ l;
}.

(** ** [TimerWheel] *)

Definition kMaximumTimers : Z := 8192.

Section Wheel.
Context `{HeapFunctions}.

(** The wheel is its vector [timers_]. *)
Definition schedule (timers : list TimerEvent) (k : TimerKind) (s : Z) (d : Instant) : list TimerEvent * bool :=
  if kMaximumTimers <=? Z.of_nat (length timers) then (timers, false)
  else (push_heap (timers ++ [mkTimer k s d]), true).

(** [std::erase_if] and the heap restored if anything went. *)
Definition erase_timers (gone : TimerEvent → bool) (timers : list TimerEvent) : list TimerEvent * nat :=
  let kept := filter (λ e, gone e = false) timers in
  let removed := (length timers - length kept)%nat in
  (if decide (0 < removed)%nat then make_heap kept else kept, removed).

Definition cancel (timers : list TimerEvent) (k : TimerKind) (s : Z) : list TimerEvent * nat :=
  erase_timers (λ e, bool_decide (kind e = k) && (subject e =? s)) timers.

Definition cancel_subject (timers : list TimerEvent) (s : Z) : list TimerEvent * nat :=
  erase_timers (λ e, subject e =? s) timers.

(** One turn of the loop shortens the vector: its length is enough fuel. *)
Fixpoint expire_loop (fuel : nat) (timers due_ : list TimerEvent) (now : Instant) : list TimerEvent * list TimerEvent :=
  match fuel with
  | O => (timers, due_)
  | S fuel =>
      match timers with
      | [] => (timers, due_)
      | front :: _ =>
          if due front <=? now then
            let popped := pop_heap timers in
            expire_loop fuel (removelast popped) (due_ ++ [List.last popped front]) now
          else (timers, due_)
      end
  end.

Definition expire (timers : list TimerEvent) (now : Instant) : list TimerEvent * list TimerEvent :=
  expire_loop (length timers) timers [] now.

Definition next_due (timers : list TimerEvent) : Instant :=
  match timers with [] => 0 | front :: _ => due front end.
End Wheel.

(** ** The delay before a retry *)

Lemma backoff_loop_spec n d : 0 < d → d * 2 ^ Z.of_nat n ≤ kHandshakeRetryMax → backoff_loop n d = d * 2 ^ Z.of_nat n.
Proof.
  revert d. induction n as [|n IH]; intros d Hd Hm; [simpl; lia|].
  rewrite Nat2Z.inj_succ, Z.pow_succ_r in * by lia. cbn [backoff_loop].
  pose proof (Z.pow_pos_nonneg 2 (Z.of_nat n) ltac:(lia) ltac:(lia)). 
  destruct (Z.ltb_spec d kHandshakeRetryMax); [rewrite IH by nia; ring|nia].
Qed.

Lemma backoff_loop_ge n d : 0 < d → kHandshakeRetryMax ≤ d * 2 ^ Z.of_nat n → kHandshakeRetryMax ≤ backoff_loop n d.
Proof.
  revert d. induction n as [|n IH]; intros d Hd Hm; [simpl in *; lia|].
  rewrite Nat2Z.inj_succ, Z.pow_succ_r in Hm by lia. cbn [backoff_loop].
  destruct (Z.ltb_spec d kHandshakeRetryMax); [|done]. apply IH; [lia|]. etransitivity; [exact Hm|]. lia.
Qed.

(** The handshake retry delay doubles from half a second with every
    attempt and is held at thirty seconds. *)
Lemma retry_backoff_doubles attempt : 0 ≤ attempt →
  retry_backoff attempt = Z.min (milliseconds 500 * 2 ^ attempt) (seconds 30) ∧
  retry_backoff attempt ≤ retry_backoff (attempt + 1).
Proof.
  assert (∀ n, 0 ≤ n → retry_backoff n = Z.min (milliseconds 500 * 2 ^ n) (seconds 30)) as Hspec.
  { intros n Hn. unfold retry_backoff. fold kHandshakeRetryBase kHandshakeRetryMax.
    assert (0 < kHandshakeRetryBase) as Hb by done.
    destruct (Z.le_ge_cases (kHandshakeRetryBase * 2 ^ n) kHandshakeRetryMax) as [Hle|Hge].
    - rewrite backoff_loop_spec; rewrite ?Z2Nat.id by lia; done.
    - pose proof (backoff_loop_ge (Z.to_nat n) kHandshakeRetryBase Hb) as Hl. rewrite Z2Nat.id in Hl by lia.
      specialize (Hl Hge). lia. }
  intros Ha. split; [by apply Hspec|]. rewrite !Hspec by lia. rewrite Z.pow_add_r by lia.
  pose proof (Z.pow_pos_nonneg 2 attempt ltac:(lia) Ha). unfold milliseconds, seconds. lia.
Qed.

(** ** The wheel *)

Definition due_first (e f : TimerEvent) : Prop := due e ≤ due f.

Lemma heap_front_first e l : is_heap (e :: l) → Forall (due_first e) (e :: l).
Proof.
  intros Hh. apply Forall_lookup. intros i. induction (lt_wf i) as [i _ IH]. intros x Hx.
  destruct i as [|i]; [injection Hx as <-; unfold due_first; lia|].
  pose proof (lookup_lt_Some _ _ _ Hx) as Hlt. specialize (Hh (S i) ltac:(lia)).
  rewrite (list_lookup_total_correct _ _ _ Hx) in Hh. set (p := ((S i - 1) / 2)%nat) in *.
  assert (p < S i)%nat as Hp by (unfold p; pose proof (Nat.div_le_upper_bound (S i - 1) 2 i); lia).
  destruct (lookup_lt_is_Some_2 (e :: l) p) as [y Hy]; [lia|].
  rewrite (list_lookup_total_correct _ _ _ Hy) in Hh. specialize (IH p Hp y Hy).
  unfold later_first in Hh. rewrite Z.gtb_ltb in Hh. apply Z.ltb_ge in Hh. unfold due_first in *. lia.
Qed.

Section WheelProofs.
Context `{HeapFunctions}.

Lemma expire_loop_spec fuel : ∀ timers acc now, is_heap timers → (length timers ≤ fuel)%nat →
  ∃ out, expire_loop fuel timers acc now = ((expire_loop fuel timers acc now).1, acc ++ out) ∧
    is_heap (expire_loop fuel timers acc now).1 ∧
    out ≡ₚ filter (λ e, due e ≤ now) timers ∧
    (expire_loop fuel timers acc now).1 ≡ₚ filter (λ e, ¬ due e ≤ now) timers ∧
    StronglySorted due_first out.
Proof.
  assert (∀ timers now, is_heap timers → match timers with [] => True | f :: _ => now < due f end →
    filter (λ e, due e ≤ now) timers = [] ∧ filter (λ e, ¬ due e ≤ now) timers = timers) as Hstop.
  { intros [|f timers] now Hh Hf; [done|]. pose proof (heap_front_first _ _ Hh) as Hm. rewrite Forall_forall in Hm.
    split; [apply filter_none|apply filter_all]; intros x Hx; specialize (Hm x Hx); unfold due_first in Hm; lia. }
  induction fuel as [|fuel IH]; intros timers acc now Hh Hl.
  { destruct timers; [|simpl in Hl; lia]. exists []. simpl. rewrite app_nil_r. split_and!; [done..|constructor]. }
  destruct timers as [|front rest]; [exists []; simpl; rewrite app_nil_r; split_and!; [done..|constructor]|].
  cbn [expire_loop]. destruct (Z.leb_spec (due front) now) as [Hdue|Hlate]; last first.
  { destruct (Hstop (front :: rest) now Hh Hlate) as [E1 E2]. exists []. cbn [fst]. rewrite E1, E2, app_nil_r.
    split_and!; [done..|constructor]. }
  destruct (pop_heap_spec front rest Hh) as (l' & -> & Hh' & Hperm).
  rewrite removelast_last, List.last_last.
  destruct (IH l' (acc ++ [front]) now Hh') as (out & E & Hheap & Hout & Hrest & Hsort).
  { rewrite Hperm. simpl in Hl. lia. }
  exists (front :: out). rewrite E. cbn [fst]. rewrite <- app_assoc. split_and!; [done|done| | |].
  - rewrite filter_cons_True by done. by rewrite Hout, Hperm.
  - rewrite filter_cons_False by lia. by rewrite Hrest, Hperm.
  - constructor; [done|]. pose proof (heap_front_first _ _ Hh) as Hm. apply Forall_cons_1 in Hm as [_ Hm].
    apply Forall_forall. intros x Hx. rewrite Hout in Hx. apply list_elem_of_filter in Hx as [_ Hx].
    rewrite Hperm in Hx. rewrite Forall_forall in Hm. by apply Hm.
Qed.

Lemma schedule_heap timers k s d : is_heap timers →
  is_heap (schedule timers k s d).1 ∧
  (schedule timers k s d).1 ≡ₚ (if (schedule timers k s d).2 then mkTimer k s d :: timers else timers).
Proof.
  intros Hh. unfold schedule. case_match; [done|]. cbn [fst snd].
  destruct (push_heap_spec timers (mkTimer k s d) Hh) as [H1 H2]. split; [done|]. rewrite H2. by rewrite Permutation_app_comm.
Qed.

Lemma erase_heap gone timers : is_heap timers →
  is_heap (erase_timers gone timers).1 ∧ (erase_timers gone timers).1 ≡ₚ filter (λ e, gone e = false) timers ∧
  (erase_timers gone timers).2 = length (filter (λ e, gone e = true) timers).
Proof.
  intros Hh. unfold erase_timers. cbn [fst snd].
  assert (length (filter (λ e, gone e = true) timers) + length (filter (λ e, gone e = false) timers) = length timers)%nat as Hlen.
  { rewrite <- length_app, (filter_ext_in (λ e, gone e = false) (λ e, ¬ gone e = true)) by (intros e _; by rewrite not_true_iff_false).
    by rewrite filter_app_complement. }
  split_and!; [| |lia].
  - case_decide as Hd; [apply make_heap_spec|].
    rewrite filter_all; [done|]. intros e He. destruct (gone e) eqn:G; [|done].
    pose proof (length_filter_lt (λ e, gone e = false) timers e He ltac:(congruence)). lia.
  - case_decide; [apply make_heap_spec|done].
Qed.

(** The wheels that the operations can produce. *)
Inductive wheel_reach : list TimerEvent → Prop :=
| wheel_new : wheel_reach []
| wheel_schedule timers k s d : wheel_reach timers → wheel_reach (schedule timers k s d).1
| wheel_cancel timers k s : wheel_reach timers → wheel_reach (cancel timers k s).1
| wheel_cancel_subject timers s : wheel_reach timers → wheel_reach (cancel_subject timers s).1
| wheel_expire timers now : wheel_reach timers → wheel_reach (expire timers now).1.

Lemma wheel_ok timers : wheel_reach timers → is_heap timers ∧ Z.of_nat (length timers) ≤ kMaximumTimers.
Proof.
  assert (∀ (P : TimerEvent → Prop) `{∀ x, Decision (P x)} l l', l' ≡ₚ filter P l → Z.of_nat (length l) ≤ kMaximumTimers →
    Z.of_nat (length l') ≤ kMaximumTimers) as Hle.
  { intros P ? l l' Hp Hl. rewrite Hp. pose proof (length_filter P l). lia. }
  induction 1 as [|timers k s d _ [IH Hz]|timers k s _ [IH Hz]|timers s _ [IH Hz]|timers now _ [IH Hz]].
  - split; [intros i Hi; simpl in Hi; lia|unfold kMaximumTimers; simpl; lia].
  - destruct (schedule_heap timers k s d IH) as [Hh Hp]. split; [done|]. rewrite Hp.
    unfold schedule. destruct (Z.leb_spec kMaximumTimers (Z.of_nat (length timers))); simpl; lia.
  - destruct (erase_heap (λ e, bool_decide (kind e = k) && (subject e =? s)) timers IH) as (Hh & Hp & _). split; [done|]. by eapply Hle.
  - destruct (erase_heap (λ e, subject e =? s) timers IH) as (Hh & Hp & _). split; [done|]. by eapply Hle.
  - destruct (expire_loop_spec (length timers) timers [] now IH ltac:(done)) as (out & _ & Hh & _ & Hr & _).
    split; [done|]. by eapply Hle.
Qed.

(** The wheel fires every timer exactly once and in order: in every
    state its operations can produce, [expire] returns exactly the timers due
    by then, earliest first, and keeps exactly the others; [cancel] removes
    exactly the timers of that kind and subject; [next_due] is the earliest
    due time; and there are never more than 8192 timers. *)
Lemma wheel_fires_in_order timers now : wheel_reach timers →
  let '(rest, out) := expire timers now in
  out ≡ₚ filter (λ e, due e ≤ now) timers ∧ rest ≡ₚ filter (λ e, ¬ due e ≤ now) timers ∧
  StronglySorted due_first out ∧
  (∀ e, e ∈ timers → next_due timers ≤ due e) ∧
  (∀ k s, (cancel timers k s).1 ≡ₚ filter (λ e, ¬ (kind e = k ∧ subject e = s)) timers) ∧
  Z.of_nat (length timers) ≤ kMaximumTimers.
Proof.
  intros Hr. destruct (wheel_ok timers Hr) as [Hh Hz]. unfold expire.
  destruct (expire_loop_spec (length timers) timers [] now Hh ltac:(done)) as (out & E & _ & Hout & Hrest & Hsort).
  rewrite E. simpl app. split_and!; [done|done|done| | |done].
  - intros e He. destruct timers as [|f l]; [by apply elem_of_nil in He|]. pose proof (heap_front_first f l Hh) as Hm.
    rewrite Forall_forall in Hm. by apply Hm.
  - intros k s. destruct (erase_heap (λ e, bool_decide (kind e = k) && (subject e =? s)) timers Hh) as (_ & Hp & _).
    unfold cancel. rewrite Hp. apply reflexive_eq, filter_ext_in. intros e _.
    rewrite andb_false_iff, bool_decide_eq_false, Z.eqb_neq. destruct (decide (kind e = k)), (Z.eq_dec (subject e) s); naive_solver.
Qed.
End WheelProofs.

(** ** An implementation of the contract *)

Fixpoint insert_due (e : TimerEvent) (l : list TimerEvent) : list TimerEvent :=
  match l with
  | [] => [e]
  | f :: l => if due e <=? due f then e :: f :: l else f :: insert_due e l
  end.
Definition sort_due (l : list TimerEvent) : list TimerEvent := foldr insert_due [] l.

Lemma insert_due_perm e l : insert_due e l ≡ₚ e :: l.
Proof. induction l as [|f l IH]; simpl; [done|]. case_match; [done|]. rewrite IH. apply perm_swap. Qed.

Lemma sort_due_perm l : sort_due l ≡ₚ l.
Proof. induction l as [|e l IH]; simpl; [done|]. by rewrite insert_due_perm, IH. Qed.

Lemma insert_due_sorted e l : StronglySorted due_first l → StronglySorted due_first (insert_due e l).
Proof.
  induction 1 as [|f l Hs IH Hf]; simpl; [repeat constructor|]. destruct (Z.leb_spec (due e) (due f)).
  - constructor; [by constructor|]. constructor; [done|]. eapply Forall_impl; [exact Hf|]. unfold due_first. intros; lia.
  - constructor; [done|]. rewrite insert_due_perm. constructor; [unfold due_first; lia|done].
Qed.

Lemma sort_due_sorted l : StronglySorted due_first (sort_due l).
Proof. induction l; simpl; [constructor|by apply insert_due_sorted]. Qed.

Lemma sorted_heap l : StronglySorted due_first l → is_heap l.
Proof.
  intros Hs i Hi. unfold later_first. rewrite Z.gtb_ltb. apply Z.ltb_ge.
  assert ((i - 1) / 2 < i)%nat as Hp by (pose proof (Nat.div_le_upper_bound (i - 1) 2 (i - 1)); lia).
  revert Hp. generalize ((i - 1) / 2)%nat. intros p Hp. revert p i Hi Hp.
  induction Hs as [|e l Hs IH Hf]; intros p i Hi Hp; [simpl in Hi; lia|].
  destruct i as [|i]; [lia|]. simpl in Hi. destruct p as [|p]; simpl.
  - rewrite Forall_forall in Hf. apply Hf. apply list_elem_of_lookup. exists i. apply list_lookup_lookup_total_lt. lia.
  - apply IH; lia.
Qed.

Definition sorting_pop (l : list TimerEvent) : list TimerEvent :=
  match l with [] => [] | e :: l => sort_due l ++ [e] end.

Lemma sort_due_spec l : is_heap (sort_due l) ∧ sort_due l ≡ₚ l.
Proof. split; [apply sorted_heap, sort_due_sorted|apply sort_due_perm]. Qed.

Lemma sorting_pop_spec e l : is_heap (e :: l) →
  ∃ l', sorting_pop (e :: l) = l' ++ [e] ∧ is_heap l' ∧ l' ≡ₚ l.
Proof. intros _. exists (sort_due l). split; [done|apply sort_due_spec]. Qed.

#[export] Instance sorting_heap : HeapFunctions := {|
  push_heap := sort_due;
  make_heap := sort_due;
  pop_heap := sorting_pop;
  push_heap_spec l e _ := sort_due_spec (l ++ [e]);
  make_heap_spec := sort_due_spec;
  pop_heap_spec := sorting_pop_spec;
|}.

