(* ===== verification/Qos.v ===== *)
(** Traffic classes and the egress scheduler: [src/qos.cpp].

    The arrays indexed by [TrafficClass] are lists of three elements.  Byte
    counts are 64-bit and wrap; the invariant shows that they do not. *)

From S2P Require Import Prelude Packet Double Text Address Routing.

Inductive TrafficClass := realtime | normal | bulk.
#[export] Instance TrafficClass_eq : EqDecision TrafficClass. Proof. solve_decision. Defined.

Definition class_index (c : TrafficClass) : nat := match c with realtime => 0 | normal => 1 | bulk => 2 end.

Definition kDscpExpeditedForwarding : Z := 46.
Definition kDscpVoiceAdmit : Z := 44.
Definition kDscpClassSelector5 : Z := 40.

Definition dscp_of (packet : IpPacketView) (frame : list Z) : res Error Z :=
  let offset := match ip_family packet with ipv4 => 1 | ipv6 => 0 end in
  if blen frame <=? offset + 1 then Ok 0
  else
    match ip_family packet with
    | ipv4 => let* b := rd frame 1 in Ok (u8 (Z.shiftr b 2))
    | ipv6 =>
        let* b0 := rd frame 0 in
        let* b1 := rd frame 1 in
        let high := Z.land b0 15 in
        let low := Z.shiftr b1 4 in
        Ok (u8 (Z.shiftr (Z.lor (Z.shiftl high 4) low) 2))
    end.

Definition classify_traffic (packet : IpPacketView) (frame : list Z) : res Error TrafficClass :=
  let* dscp := dscp_of packet frame in
  if (dscp =? kDscpExpeditedForwarding) || (dscp =? kDscpVoiceAdmit) || (dscp =? kDscpClassSelector5)
  then Ok realtime
  else
    let payload := u64 (total_length packet - ip_header_length packet) in
    if (protocol packet =? kProtocolUdp) && (payload <=? 256) then Ok realtime
    else if (protocol packet =? kProtocolTcp) && (1024 <=? payload) then Ok bulk
    else Ok normal.

Record QueueLimits := mkLimits { capacity : list Z; total_bytes : Z }.
Definition default_limits : QueueLimits := mkLimits [256; 1024; 4096] (16 * 1024 * 1024).

Record SchedulerStats := mkSchedStats {
  enqueued : list Z; dequeued : list Z; dropped : list Z;
  queue_delay_samples : list Z; queue_delay_total_us : list f64;
  shed_for_memory : Z }.
Definition no_sched_stats : SchedulerStats :=
  mkSchedStats [0; 0; 0] [0; 0; 0] [0; 0; 0] [0; 0; 0] [fzero; fzero; fzero] 0.

Record QueuedPacket := mkQueued {
  q_bytes : list Z; traffic_class : TrafficClass; enqueued_at : Instant; q_destination : Endpoint }.

Record Scheduler := mkScheduler {
  limits_ : QueueLimits;
  queues_ : list (list QueuedPacket);
  queued_bytes_ : Z;
  normal_deficit_ : Z;
  bulk_deficit_ : Z;
  sstats_ : SchedulerStats }.

Definition kNormalWeight : Z := 3.
Definition kBulkWeight : Z := 1.

Definition new_scheduler (limits : QueueLimits) : Scheduler :=
  mkScheduler limits [[]; []; []] 0 0 0 no_sched_stats.

#[export] Instance f64_inhabited : Inhabited f64 := populate fzero.

(** [++counters[index]] and [--counters[index]] *)
Definition bump (by_ : Z) (i : nat) (counters : list Z) : list Z :=
  <[i := u64 (counters !!! i + by_)]> counters.

Definition queue (s : Scheduler) (c : TrafficClass) : list QueuedPacket := queues_ s !!! class_index c.

Definition with_queue (s : Scheduler) (c : TrafficClass) (q : list QueuedPacket) (bytes : Z) (st : SchedulerStats) : Scheduler :=
  mkScheduler (limits_ s) (<[class_index c := q]> (queues_ s)) bytes (normal_deficit_ s) (bulk_deficit_ s) st.

Definition with_deficits (s : Scheduler) (n b : Z) : Scheduler :=
  mkScheduler (limits_ s) (queues_ s) (queued_bytes_ s) n b (sstats_ s).

Definition total_depth (s : Scheduler) : nat := sum_list (map length (queues_ s)).

Definition has_room (s : Scheduler) (c : TrafficClass) (bytes : Z) : bool :=
  if capacity (limits_ s) !!! class_index c <=? Z.of_nat (length (queue s c)) then false
  else u64 (queued_bytes_ s + bytes) <=? total_bytes (limits_ s).

(** The loop of [shed_bulk]; every turn takes a packet off the queue [q]. *)
Fixpoint shed_loop (q : list QueuedPacket) (s : Scheduler) (bytes_needed : Z) : Scheduler :=
  match q with
  | [] => s
  | front :: q =>
      if total_bytes (limits_ s) <? u64 (queued_bytes_ s + bytes_needed) then
        let st := sstats_ s in
        let st := mkSchedStats (enqueued st) (dequeued st) (bump 1 2 (dropped st)) (queue_delay_samples st)
                    (queue_delay_total_us st) (u64 (shed_for_memory st + 1)) in
        shed_loop q (with_queue s bulk q (u64 (queued_bytes_ s - blen (q_bytes front))) st) bytes_needed
      else s
  end.
Definition shed_bulk (s : Scheduler) (bytes_needed : Z) : Scheduler := shed_loop (queue s bulk) s bytes_needed.

Definition count_drop (s : Scheduler) (c : TrafficClass) : Scheduler :=
  let st := sstats_ s in
  mkScheduler (limits_ s) (queues_ s) (queued_bytes_ s) (normal_deficit_ s) (bulk_deficit_ s)
    (mkSchedStats (enqueued st) (dequeued st) (bump 1 (class_index c) (dropped st)) (queue_delay_samples st)
       (queue_delay_total_us st) (shed_for_memory st)).

Definition push_packet (s : Scheduler) (packet : list Z) (c : TrafficClass) (now : Instant) (dst : Endpoint) : Scheduler :=
  let st := sstats_ s in
  with_queue s c (queue s c ++ [mkQueued packet c now dst]) (u64 (queued_bytes_ s + blen packet))
    (mkSchedStats (bump 1 (class_index c) (enqueued st)) (dequeued st) (dropped st) (queue_delay_samples st)
       (queue_delay_total_us st) (shed_for_memory st)).

Definition enqueue (s : Scheduler) (packet : list Z) (c : TrafficClass) (now : Instant) (dst : Endpoint)
    : Scheduler * bool :=
  let bytes := blen packet in
  if has_room s c bytes then (push_packet s packet c now dst, true)
  else
    let s := if bool_decide (c ≠ bulk) && (total_bytes (limits_ s) <? u64 (queued_bytes_ s + bytes))
             then shed_bulk s bytes else s in
    if has_room s c bytes then (push_packet s packet c now dst, true)
    else (count_drop s c, false).

Definition restore (s : Scheduler) (p : QueuedPacket) : Scheduler :=
  let c := traffic_class p in
  let i := class_index c in
  let st := sstats_ s in
  let st := mkSchedStats (enqueued st)
              (if 0 <? dequeued st !!! i then bump (-1) i (dequeued st) else dequeued st)
              (dropped st) (queue_delay_samples st) (queue_delay_total_us st) (shed_for_memory st) in
  let s := with_deficits s
             (if bool_decide (c = normal) && (0 <? normal_deficit_ s) then normal_deficit_ s - 1 else normal_deficit_ s)
             (if bool_decide (c = bulk) && (0 <? bulk_deficit_ s) then bulk_deficit_ s - 1 else bulk_deficit_ s) in
  with_queue s c (p :: queue s c) (u64 (queued_bytes_ s + blen (q_bytes p))) st.

(** The lambda [take]. *)
Definition take_packet (s : Scheduler) (c : TrafficClass) (now : Instant) : Scheduler * option QueuedPacket :=
  match queue s c with
  | [] => (s, None)
  | packet :: q =>
      let i := class_index c in
      let st := sstats_ s in
      let delay := Z.quot (now - enqueued_at packet) 1000 in
      let counted := 0 <=? delay in
      let st := mkSchedStats (enqueued st) (bump 1 i (dequeued st)) (dropped st)
                  (if counted then bump 1 i (queue_delay_samples st) else queue_delay_samples st)
                  (if counted then <[i := fadd (queue_delay_total_us st !!! i) (of_int delay)]> (queue_delay_total_us st)
                   else queue_delay_total_us st)
                  (shed_for_memory st) in
      (with_queue s c q (u64 (queued_bytes_ s - blen (q_bytes packet))) st, Some packet)
  end.

Definition is_nil {A} (l : list A) : bool := match l with [] => true | _ => false end.

Definition dequeue (s : Scheduler) (now : Instant) : Scheduler * option QueuedPacket :=
  match take_packet s realtime now with
  | (s, Some packet) => (s, Some packet)
  | (s, None) =>
      let no_normal := is_nil (queue s normal) in
      let no_bulk := is_nil (queue s bulk) in
      if no_normal && no_bulk then (s, None)
      else if no_normal then take_packet (with_deficits s (normal_deficit_ s) 0) bulk now
      else if no_bulk then take_packet (with_deficits s 0 (bulk_deficit_ s)) normal now
      else if normal_deficit_ s <? kNormalWeight
      then take_packet (with_deficits s (normal_deficit_ s + 1) (bulk_deficit_ s)) normal now
      else if bulk_deficit_ s <? kBulkWeight
      then take_packet (with_deficits s (normal_deficit_ s) (bulk_deficit_ s + 1)) bulk now
      else take_packet (with_deficits s 1 0) normal now
  end.

(** ** The invariant *)

Definition bytes_of (q : list QueuedPacket) : Z := foldr (λ p n, blen (q_bytes p) + n) 0 q.

Record sched_ok (s : Scheduler) : Prop := {
  so_queues : length (queues_ s) = 3%nat;
  so_limit : total_bytes (limits_ s) < 2 ^ 63;
  so_bytes : queued_bytes_ s = bytes_of (queue s realtime) + bytes_of (queue s normal) + bytes_of (queue s bulk);
  so_memory : queued_bytes_ s ≤ Z.max 0 (total_bytes (limits_ s));
  so_capacity : ∀ c, Z.of_nat (length (queue s c)) ≤ Z.max 0 (capacity (limits_ s) !!! class_index c);
  so_class : ∀ c, Forall (λ p, traffic_class p = c) (queue s c);
  so_deficits : 0 ≤ normal_deficit_ s ≤ kNormalWeight ∧ 0 ≤ bulk_deficit_ s ≤ kBulkWeight;
}.

Lemma bytes_of_nonneg q : 0 ≤ bytes_of q.
Proof. induction q as [|p q IH]; simpl; [lia|]. pose proof (blen_nonneg (q_bytes p)). lia. Qed.

Lemma bytes_of_snoc q p : bytes_of (q ++ [p]) = bytes_of q + blen (q_bytes p).
Proof. induction q as [|x q IH]; simpl; [lia|]. rewrite IH. lia. Qed.

Lemma class_index_lt c : (class_index c < 3)%nat.
Proof. destruct c; simpl; lia. Qed.

Lemma queue_with s c q b st c' : length (queues_ s) = 3%nat →
  queue (with_queue s c q b st) c' = if decide (c = c') then q else queue s c'.
Proof.
  intros Hl. unfold queue, with_queue. cbn [queues_]. case_decide as Hc.
  - subst c'. apply list_lookup_total_insert_eq. rewrite Hl. apply class_index_lt.
  - apply list_lookup_total_insert_ne. destruct c, c'; done.
Qed.

(** The bytes in the queues when one of them is replaced. *)
Definition all_bytes (s : Scheduler) : Z :=
  bytes_of (queue s realtime) + bytes_of (queue s normal) + bytes_of (queue s bulk).

Lemma all_bytes_with s c q b st : length (queues_ s) = 3%nat →
  all_bytes (with_queue s c q b st) = all_bytes s - bytes_of (queue s c) + bytes_of q.
Proof. intros Hl. unfold all_bytes. rewrite !queue_with by done. destruct c; repeat case_decide; try done; lia. Qed.

(** Replacing a queue by one that fits. *)
Lemma with_queue_ok s c q b st : sched_ok s → Forall (λ p, traffic_class p = c) q →
  Z.of_nat (length q) ≤ Z.max 0 (capacity (limits_ s) !!! class_index c) →
  b = all_bytes s - bytes_of (queue s c) + bytes_of q → b ≤ Z.max 0 (total_bytes (limits_ s)) →
  sched_ok (with_queue s c q b st).
Proof.
  intros [Hl Hm Hb Hmem Hcap Hcl Hd] Hq Hcq Hbytes Hle. split; cbn [with_queue queues_ limits_ queued_bytes_ normal_deficit_ bulk_deficit_].
  - by rewrite length_insert.
  - done.
  - rewrite Hbytes. symmetry. apply (all_bytes_with s c q b st Hl).
  - done.
  - intros c'. fold (with_queue s c q b st). rewrite queue_with by done. case_decide; [by subst|apply Hcap].
  - intros c'. fold (with_queue s c q b st). rewrite queue_with by done. case_decide; [by subst|apply Hcl].
  - done.
Qed.

Lemma with_deficits_ok s n b : sched_ok s → 0 ≤ n ≤ kNormalWeight → 0 ≤ b ≤ kBulkWeight → sched_ok (with_deficits s n b).
Proof. intros [Hl Hm Hb Hmem Hcap Hcl Hd] Hn Hbd. split; try done. Qed.

Lemma bytes_range s : sched_ok s → 0 ≤ queued_bytes_ s < 2 ^ 63 ∧ ∀ c, bytes_of (queue s c) ≤ queued_bytes_ s.
Proof.
  intros [Hl Hm Hb Hmem Hcap Hcl Hd]. pose proof (bytes_of_nonneg (queue s realtime)).
  pose proof (bytes_of_nonneg (queue s normal)). pose proof (bytes_of_nonneg (queue s bulk)).
  split; [lia|]. intros []; lia.
Qed.

(** ** Dequeuing *)

Lemma take_packet_spec s c now : sched_ok s →
  sched_ok (take_packet s c now).1 ∧ limits_ (take_packet s c now).1 = limits_ s ∧
  normal_deficit_ (take_packet s c now).1 = normal_deficit_ s ∧ bulk_deficit_ (take_packet s c now).1 = bulk_deficit_ s ∧
  match (take_packet s c now).2 with
  | None => queue s c = [] ∧ (take_packet s c now).1 = s
  | Some p => queue s c = p :: queue (take_packet s c now).1 c ∧ traffic_class p = c ∧
              ∀ c', c' ≠ c → queue (take_packet s c now).1 c' = queue s c'
  end.
Proof.
  intros H. unfold take_packet. destruct (queue s c) as [|p q] eqn:Eq; [done|]. cbn [fst snd].
  pose proof (so_class _ H c) as Hcl. rewrite Eq in Hcl. apply Forall_cons_1 in Hcl as [Hp Hcl].
  destruct (bytes_range _ H) as [Hr Hc]. specialize (Hc c). rewrite Eq in Hc. simpl in Hc.
  pose proof (bytes_of_nonneg q). pose proof (blen_nonneg (q_bytes p)). pose proof (so_memory _ H).
  split_and!; [|done|done|done| |done|].
  - apply with_queue_ok; [done|done| | |].
    + pose proof (so_capacity _ H c) as Hcap. rewrite Eq in Hcap. simpl in Hcap. lia.
    + rewrite u64_id by word_lia. rewrite Eq, (so_bytes _ H). unfold all_bytes. simpl. lia.
    + rewrite u64_id by word_lia. lia.
  - rewrite queue_with by apply H. by rewrite decide_True.
  - intros c' Hne. rewrite queue_with by apply H. by rewrite decide_False.
Qed.

(** The packet left its queue from the front; the other queues are as they were. *)
Definition serves (s s' : Scheduler) (p : QueuedPacket) : Prop :=
  queue s (traffic_class p) = p :: queue s' (traffic_class p) ∧
  ∀ c, c ≠ traffic_class p → queue s' c = queue s c.

Lemma take_served s n b c now : sched_ok s → 0 ≤ n ≤ kNormalWeight → 0 ≤ b ≤ kBulkWeight → queue s c ≠ [] →
  ∃ s' p, take_packet (with_deficits s n b) c now = (s', Some p) ∧ traffic_class p = c ∧ serves s s' p ∧
    sched_ok s' ∧ limits_ s' = limits_ s ∧ normal_deficit_ s' = n ∧ bulk_deficit_ s' = b.
Proof.
  intros H Hn Hb Hne. pose proof (with_deficits_ok s n b H Hn Hb) as H'.
  destruct (take_packet_spec _ c now H') as (Hok & Hl & Hnd & Hbd & Hres).
  destruct (take_packet (with_deficits s n b) c now) as [s' [p|]]; cbn [fst snd] in *; [|by destruct Hres].
  destruct Hres as (Hq & Hc & Ho). exists s', p. split_and!; [done|done| |done..].
  unfold serves. rewrite Hc. split; [exact Hq|exact Ho].
Qed.

Definition wait (s : Scheduler) : Z :=
  kNormalWeight - normal_deficit_ s + (if bulk_deficit_ s =? 0 then 0 else 3).

(** What [dequeue] does, by the state of the queues. *)
Lemma dequeue_spec s now : sched_ok s →
  (∃ s' p, dequeue s now = (s', Some p) ∧ serves s s' p ∧ sched_ok s' ∧ limits_ s' = limits_ s ∧
     (queue s realtime ≠ [] → traffic_class p = realtime) ∧
     (queue s realtime = [] → queue s bulk ≠ [] →
        traffic_class p = bulk ∨ traffic_class p = normal ∧ wait s' < wait s)) ∨
  (dequeue s now = (s, None) ∧ ∀ c, queue s c = []).
Proof.
  intros H. unfold dequeue. destruct (so_deficits _ H) as [Hn Hb]. unfold kNormalWeight, kBulkWeight in *.
  pose proof (take_packet_spec s realtime now H) as (Hok & Hl & _ & _ & Hres).
  destruct (take_packet s realtime now) as [s0 [p|]]; cbn [fst snd] in *.
  { destruct Hres as (Hq & Hc & Ho). left. exists s0, p. unfold serves. rewrite Hc. split_and!; try done.
    intros E. by rewrite E in Hq. }
  destruct Hres as [Hr ->]. clear Hok Hl.
  destruct (queue s normal) as [|pn qn] eqn:En, (queue s bulk) as [|pb qb] eqn:Eb; cbn [is_nil andb].
  - right. split; [done|]. by intros [].
  - left. destruct (take_served s (normal_deficit_ s) 0 bulk now) as (s' & p & -> & Hc & Hs & Hok & Hl & _);
      [done|unfold kNormalWeight; lia|unfold kBulkWeight; lia|by rewrite Eb|].
    exists s', p. split_and!; auto; intros E; by destruct E.
  - left. destruct (take_served s 0 (bulk_deficit_ s) normal now) as (s' & p & -> & Hc & Hs & Hok & Hl & _);
      [done|unfold kNormalWeight; lia|done|by rewrite En|].
    exists s', p. split_and!; auto; intros E; by destruct E.
  - left. destruct (Z.ltb_spec (normal_deficit_ s) 3).
    { destruct (take_served s (normal_deficit_ s + 1) (bulk_deficit_ s) normal now) as (s' & p & -> & Hc & Hs & Hok & Hl & Hn' & Hb');
        [done|unfold kNormalWeight; lia|done|by rewrite En|].
      exists s', p. split_and!; auto; [intros E; by destruct E|]. intros _ _. right. split; [done|]. unfold wait. rewrite Hn', Hb'. lia. }
    destruct (Z.ltb_spec (bulk_deficit_ s) 1).
    { destruct (take_served s (normal_deficit_ s) (bulk_deficit_ s + 1) bulk now) as (s' & p & -> & Hc & Hs & Hok & Hl & _);
        [done|unfold kNormalWeight; lia|unfold kBulkWeight; lia|by rewrite Eb|].
      exists s', p. split_and!; auto; intros E; by destruct E. }
    destruct (take_served s 1 0 normal now) as (s' & p & -> & Hc & Hs & Hok & Hl & Hn' & Hb');
      [done|unfold kNormalWeight; lia|unfold kBulkWeight; lia|by rewrite En|].
    exists s', p. split_and!; auto; [intros E; by destruct E|]. intros _ _. right. split; [done|]. unfold wait, kNormalWeight.
    rewrite Hn', Hb'. rewrite (proj2 (Z.eqb_neq (bulk_deficit_ s) 0)) by lia. simpl. lia.
Qed.

(** ** Enqueuing *)

Lemma shed_loop_spec bytes_needed : 0 ≤ bytes_needed < 2 ^ 63 → ∀ q s, sched_ok s → queue s bulk = q →
  ∃ k, sched_ok (shed_loop q s bytes_needed) ∧ limits_ (shed_loop q s bytes_needed) = limits_ s ∧
    queue (shed_loop q s bytes_needed) bulk = drop k q ∧
    wait (shed_loop q s bytes_needed) = wait s ∧
    (∀ c, c ≠ bulk → queue (shed_loop q s bytes_needed) c = queue s c) ∧
    (∀ j, (j < k)%nat → total_bytes (limits_ s) < all_bytes s - bytes_of (take j q) + bytes_needed) ∧
    (queue (shed_loop q s bytes_needed) bulk = [] ∨
     all_bytes (shed_loop q s bytes_needed) + bytes_needed ≤ total_bytes (limits_ s)).
Proof.
  intros Hbn. induction q as [|p q IH]; intros s H Eq.
  { exists 0%nat. cbn [shed_loop]. split_and!; auto. intros j Hj. lia. }
  cbn [shed_loop]. pose proof (bytes_range _ H) as [Hr Hc]. pose proof (so_bytes _ H) as Hall. fold (all_bytes s) in Hall.
  rewrite u64_id by word_lia. destruct (Z.ltb_spec (total_bytes (limits_ s)) (queued_bytes_ s + bytes_needed)) as [Hshort|Henough].
  2: { exists 0%nat. split_and!; auto; [|right; lia]. intros j Hj. lia. }
  specialize (Hc bulk). rewrite Eq in Hc. simpl in Hc.
  pose proof (bytes_of_nonneg q). pose proof (blen_nonneg (q_bytes p)). pose proof (so_memory _ H).
  set (s1 := with_queue _ _ _ _ _).
  assert (sched_ok s1) as Hs1.
  { apply with_queue_ok; [done| | | |].
    - pose proof (so_class _ H bulk) as Hcl. rewrite Eq in Hcl. by apply Forall_cons_1 in Hcl as [_ ?].
    - pose proof (so_capacity _ H bulk) as Hcap. rewrite Eq in Hcap. simpl in Hcap |- *. lia.
    - rewrite u64_id by word_lia. rewrite Eq, (so_bytes _ H). unfold all_bytes. simpl. lia.
    - rewrite u64_id by word_lia. lia. }
  assert (all_bytes s1 = all_bytes s - blen (q_bytes p)) as Hs1b.
  { unfold s1. rewrite all_bytes_with by apply H. rewrite Eq. simpl. lia. }
  destruct (IH s1 Hs1) as (k & Hok & Hl & Hq & Hw & Ho & Hmin & Hend); [unfold s1; rewrite queue_with by apply H; by rewrite decide_True|].
  exists (S k). split_and!; [done|done|done|done| | |exact Hend].
  - intros c Hne. rewrite Ho by done. unfold s1. rewrite queue_with by apply H. by rewrite decide_False by congruence.
  - intros [|j] Hj; [simpl; lia|]. specialize (Hmin j ltac:(lia)). rewrite Hs1b in Hmin. simpl. change (limits_ s1) with (limits_ s) in Hmin. lia.
Qed.

Lemma push_packet_ok s packet c now dst : sched_ok s → has_room s c (blen packet) = true → blen packet < 2 ^ 63 →
  sched_ok (push_packet s packet c now dst).
Proof.
  intros H Hroom Hb. unfold has_room in Hroom. destruct (Z.leb_spec (capacity (limits_ s) !!! class_index c) (Z.of_nat (length (queue s c)))); [done|].
  apply Z.leb_le in Hroom. destruct (bytes_range _ H) as [Hr _]. pose proof (blen_nonneg packet).
  rewrite u64_id in Hroom by word_lia. apply with_queue_ok; [done| | | |].
  - apply Forall_app. split; [apply H|]. by repeat constructor.
  - rewrite length_app. simpl. lia.
  - rewrite u64_id by word_lia. rewrite bytes_of_snoc, (so_bytes _ H). unfold all_bytes. cbn [q_bytes]. lia.
  - rewrite u64_id by word_lia. lia.
Qed.

(** Whether a packet of [n] bytes can be taken: its queue is not full, and the
    memory has room for it, for a class above bulk once bulk packets are
    given up. *)
Definition admits (s : Scheduler) (c : TrafficClass) (n : Z) : Prop :=
  Z.of_nat (length (queue s c)) < capacity (limits_ s) !!! class_index c ∧
  (all_bytes s + n ≤ total_bytes (limits_ s) ∨
   c ≠ bulk ∧ all_bytes s - bytes_of (queue s bulk) + n ≤ total_bytes (limits_ s)).

(** [k] packets at the front of the bulk queue make way for [n] bytes of
    class [c], and none of them needlessly. *)
Definition sheds (s : Scheduler) (c : TrafficClass) (n : Z) (k : nat) : Prop :=
  (c = bulk → k = 0%nat) ∧
  ∀ j, (j < k)%nat → total_bytes (limits_ s) < all_bytes s - bytes_of (take j (queue s bulk)) + n.

(** The queue of class [c'] after [enqueue]: what was in it, less the [k]
    oldest packets if it is bulk, then the new packet if it is of this class
    and was accepted. *)
Definition grown (s : Scheduler) (c' : TrafficClass) (k : nat) (q : QueuedPacket) (accepted : bool) : list QueuedPacket :=
  (if decide (c' = bulk) then drop k (queue s c') else queue s c') ++
  (if accepted && bool_decide (traffic_class q = c') then [q] else []).

Lemma has_room_iff s c n : sched_ok s → 0 ≤ n < 2 ^ 63 →
  has_room s c n = true ↔
  Z.of_nat (length (queue s c)) < capacity (limits_ s) !!! class_index c ∧ all_bytes s + n ≤ total_bytes (limits_ s).
Proof.
  intros H Hn. destruct (bytes_range _ H) as [Hr _]. pose proof (so_bytes _ H) as Hb. fold (all_bytes s) in Hb.
  unfold has_room. rewrite u64_id by word_lia. destruct (Z.leb_spec (capacity (limits_ s) !!! class_index c) (Z.of_nat (length (queue s c)))).
  - split; [done|lia].
  - rewrite Z.leb_le. lia.
Qed.

(** What the shedding of [enqueue] leaves behind. *)
Record makes_way (s : Scheduler) (c : TrafficClass) (n : Z) (k : nat) (s1 : Scheduler) : Prop := {
  mw_ok : sched_ok s1;
  mw_limits : limits_ s1 = limits_ s;
  mw_wait : wait s1 = wait s;
  mw_bulk : queue s1 bulk = drop k (queue s bulk);
  mw_rest : ∀ c', c' ≠ bulk → queue s1 c' = queue s c';
  mw_sheds : sheds s c n k;
}.

Lemma makes_way_refl s c n : sched_ok s → makes_way s c n 0 s.
Proof. intros H. split; try done. split; [done|]. intros j Hj. lia. Qed.

Lemma shed_makes_way s c n : sched_ok s → 0 ≤ n < 2 ^ 63 → c ≠ bulk →
  ∃ k, makes_way s c n k (shed_bulk s n) ∧
    (queue (shed_bulk s n) bulk = [] ∨ all_bytes (shed_bulk s n) + n ≤ total_bytes (limits_ s)).
Proof.
  intros H Hn Hc. destruct (shed_loop_spec n Hn (queue s bulk) s H eq_refl) as (k & ? & ? & ? & ? & ? & ? & ?).
  exists k. split; [|done]. by split.
Qed.

Lemma push_grows s c n k s1 packet now dst : makes_way s c n k s1 →
  let q := mkQueued packet c now dst in
  ∀ c', queue (push_packet s1 packet c now dst) c' = grown s c' k q true.
Proof.
  intros M q c'. unfold push_packet, grown. rewrite queue_with by apply M. cbn [andb traffic_class q].
  destruct (decide (c = c')) as [<-|Hne].
  - rewrite bool_decide_eq_true_2 by done. f_equal. case_decide as Hb; [subst; apply M|by apply M].
  - rewrite bool_decide_eq_false_2, app_nil_r by done. case_decide as Hb; [subst; apply M|by apply M].
Qed.

Lemma stays_grown s c n k s1 q : makes_way s c n k s1 → ∀ c', queue (count_drop s1 c) c' = grown s c' k q false.
Proof.
  intros M c'. change (queue (count_drop s1 c) c') with (queue s1 c'). unfold grown. cbn [andb]. rewrite app_nil_r.
  case_decide as Hb; [subst; apply M|by apply M].
Qed.

(** The two tests of [enqueue] around the shedding decide [admits]. *)
Lemma enqueue_room s c n : sched_ok s → 0 ≤ n < 2 ^ 63 →
  let s1 := if has_room s c n then s
            else if bool_decide (c ≠ bulk) && (total_bytes (limits_ s) <? u64 (queued_bytes_ s + n))
                 then shed_bulk s n else s in
  ∃ k, makes_way s c n k s1 ∧ (has_room s1 c n = true ↔ admits s c n).
Proof.
  intros H Hn. destruct (has_room s c n) eqn:Hroom; cbv zeta.
  { exists 0%nat. split; [by apply makes_way_refl|]. rewrite Hroom. split; [intros _|done].
    apply has_room_iff in Hroom as [? ?]; [|done..]. split; [done|by left]. }
  pose proof (has_room_iff s c n H Hn) as Hiff. rewrite Hroom in Hiff.
  destruct (bytes_range _ H) as [Hr _]. pose proof (so_bytes _ H) as Hb. fold (all_bytes s) in Hb.
  rewrite u64_id by word_lia. destruct (bool_decide (c ≠ bulk) && _) eqn:G.
  - apply andb_true_iff in G as [Hc%bool_decide_eq_true Hshort%Z.ltb_lt].
    destruct (shed_makes_way s c n H Hn Hc) as (k & M & Hend). exists k. split; [done|].
    rewrite has_room_iff by (apply M || done). rewrite (mw_limits _ _ _ _ _ M), (mw_rest _ _ _ _ _ M c Hc).
    unfold admits. pose proof (bytes_of_nonneg (queue (shed_bulk s n) bulk)) as Hpos.
    assert (all_bytes (shed_bulk s n) - bytes_of (queue (shed_bulk s n) bulk) = all_bytes s - bytes_of (queue s bulk)) as Hsame.
    { unfold all_bytes. rewrite (mw_rest _ _ _ _ _ M realtime), (mw_rest _ _ _ _ _ M normal) by done. lia. }
    destruct Hend as [Hend|Hend]; [rewrite Hend in Hsame; simpl in Hsame|]; split; intros [? ?]; split; try done; try lia.
    + right. split; [done|lia].
    + right. split; [done|]. lia.
  - exists 0%nat. split; [by apply makes_way_refl|]. rewrite Hroom. split; [done|]. intros [Hcap Hmem].
    apply Hiff. split; [done|]. destruct Hmem as [?|[Hc Hmem]]; [done|].
    rewrite bool_decide_eq_true_2 in G by done. cbn [andb] in G. apply Z.ltb_ge in G. lia.
Qed.

(** What [enqueue] does. *)
Lemma enqueue_spec s packet c now dst : sched_ok s → blen packet < 2 ^ 63 →
  let '(s', accepted) := enqueue s packet c now dst in
  sched_ok s' ∧ limits_ s' = limits_ s ∧ wait s' = wait s ∧
  (accepted = true ↔ admits s c (blen packet)) ∧
  ∃ k, sheds s c (blen packet) k ∧ ∀ c', queue s' c' = grown s c' k (mkQueued packet c now dst) accepted.
Proof.
  intros H Hb. pose proof (blen_nonneg packet) as Hb0.
  destruct (enqueue_room s c (blen packet) H (conj Hb0 Hb)) as (k & M & Hroom). unfold enqueue.
  assert (∀ s1, makes_way s c (blen packet) k s1 → has_room s1 c (blen packet) = true → admits s c (blen packet) →
    let s' := push_packet s1 packet c now dst in
    sched_ok s' ∧ limits_ s' = limits_ s ∧ wait s' = wait s ∧ (true = true ↔ admits s c (blen packet)) ∧
    ∃ k, sheds s c (blen packet) k ∧ ∀ c', queue s' c' = grown s c' k (mkQueued packet c now dst) true) as Hpush.
  { intros s1 M1 H1 Hadm s'. split_and!; [apply push_packet_ok; [apply M1|done..]|apply M1|apply M1|done|].
    exists k. split; [apply M1|]. by apply (push_grows _ _ _ _ _ _ _ _ M1). }
  destruct (has_room s c (blen packet)) eqn:E.
  { cbv zeta in M, Hroom. apply Hpush; [done|done|]. by apply Hroom. }
  cbv zeta in M, Hroom. set (s1 := if _ && _ then _ else s) in *.
  destruct (has_room s1 c (blen packet)) eqn:E1; [by apply Hpush; [..|apply Hroom]|].
  split_and!; [by destruct (mw_ok _ _ _ _ _ M); split|apply M|apply M|split; [done|intros ?%Hroom; done]|].
  exists k. split; [apply M|]. by apply (stays_grown _ _ _ _ _ _ M).
Qed.

Lemma one_less (b : bool) x w : 0 ≤ x ≤ w → 0 ≤ (if b && (0 <? x) then x - 1 else x) ≤ w.
Proof. intros Hx. destruct b; simpl; [|done]. destruct (Z.ltb_spec 0 x); lia. Qed.

(** Putting a packet back undoes the dequeue. *)
Lemma restore_spec s s1 p : sched_ok s → sched_ok s1 → limits_ s1 = limits_ s → serves s s1 p →
  sched_ok (restore s1 p) ∧ limits_ (restore s1 p) = limits_ s ∧ ∀ c, queue (restore s1 p) c = queue s c.
Proof.
  intros H H1 Hlim [Hq Ho]. destruct (so_deficits _ H1) as [Hn Hb].
  assert (all_bytes s1 = all_bytes s - blen (q_bytes p)) as Hbytes.
  { unfold all_bytes. destruct (traffic_class p); rewrite Hq;
      [rewrite (Ho normal), (Ho bulk) by done|rewrite (Ho realtime), (Ho bulk) by done|rewrite (Ho realtime), (Ho normal) by done];
      simpl; lia. }
  pose proof (so_bytes _ H) as Eb. pose proof (so_bytes _ H1) as Eb1. fold (all_bytes s) in Eb. fold (all_bytes s1) in Eb1.
  destruct (bytes_range _ H) as [Hr _]. pose proof (so_memory _ H) as Hmem. pose proof (blen_nonneg (q_bytes p)).
  set (n := if bool_decide (traffic_class p = normal) && (0 <? normal_deficit_ s1) then normal_deficit_ s1 - 1 else normal_deficit_ s1).
  set (d := if bool_decide (traffic_class p = bulk) && (0 <? bulk_deficit_ s1) then bulk_deficit_ s1 - 1 else bulk_deficit_ s1).
  assert (sched_ok (with_deficits s1 n d)) as H2.
  { apply with_deficits_ok; [done|by apply one_less..]. }
  unfold restore. fold n d. split_and!; [|done|].
  - apply with_queue_ok; [done| | | |]; cbn [limits_ with_deficits queued_bytes_].
    + constructor; [done|]. apply H1.
    + change (queue (with_deficits s1 n d) (traffic_class p)) with (queue s1 (traffic_class p)).
      rewrite <- Hq, Hlim. apply H.
    + rewrite u64_id by word_lia. change (all_bytes (with_deficits s1 n d)) with (all_bytes s1).
      change (queue (with_deficits s1 n d) (traffic_class p)) with (queue s1 (traffic_class p)). simpl. lia.
    + rewrite u64_id by word_lia. rewrite Hlim. lia.
  - intros c. rewrite queue_with by apply H2. case_decide as Hc; [by subst c|]. by apply Ho.
Qed.

(** The states of a scheduler whose caller puts back only what it has just
    taken out. *)
Inductive sched_reach (limits : QueueLimits) : Scheduler → Prop :=
| sr_new : sched_reach limits (new_scheduler limits)
| sr_enqueue s packet c now dst : sched_reach limits s → blen packet < 2 ^ 63 →
    sched_reach limits (enqueue s packet c now dst).1
| sr_dequeue s now : sched_reach limits s → sched_reach limits (dequeue s now).1
| sr_restore s s1 p now : sched_reach limits s → dequeue s now = (s1, Some p) → sched_reach limits (restore s1 p).

Lemma sched_reach_ok limits s : sched_reach limits s → total_bytes limits < 2 ^ 63 → sched_ok s ∧ limits_ s = limits.
Proof.
  intros Hr Hlim. induction Hr as [|s packet c now dst _ [IH Hl] Hb|s now _ [IH Hl]|s s1 p now _ [IH Hl] E].
  - split; [|done]. split; [done|done|done|simpl; lia| |by intros []|unfold kNormalWeight, kBulkWeight; simpl; lia].
    intros []; simpl; lia.
  - pose proof (enqueue_spec s packet c now dst IH Hb) as H. destruct (enqueue s packet c now dst) as [s' ok].
    destruct H as (H & Hl' & _). split; [done|]. simpl. congruence.
  - destruct (dequeue_spec s now IH) as [(s' & p & -> & _ & H & Hl' & _)|[-> _]]; [|done]. split; [done|]. simpl. congruence.
  - destruct (dequeue_spec s now IH) as [(s' & q & E' & Hs & H & Hl' & _)|[E' _]]; rewrite E in E'; [|done].
    injection E' as <- <-. destruct (restore_spec s s1 p IH H Hl' Hs) as (H2 & Hl2 & _). split; [done|congruence].
Qed.

(** ** Histories

    A history is run with the packets accepted and the packets handed out by
    [dequeue], each oldest first; a packet put back was not handed out. *)
Inductive sched_run (limits : QueueLimits) : list QueuedPacket → list QueuedPacket → Scheduler → Prop :=
| run_new : sched_run limits [] [] (new_scheduler limits)
| run_enqueue acc out s packet c now dst s' accepted : sched_run limits acc out s → blen packet < 2 ^ 63 →
    enqueue s packet c now dst = (s', accepted) →
    sched_run limits (if accepted then acc ++ [mkQueued packet c now dst] else acc) out s'
| run_dequeue acc out s now s' p : sched_run limits acc out s → dequeue s now = (s', Some p) →
    sched_run limits acc (out ++ [p]) s'
| run_idle acc out s now s' : sched_run limits acc out s → dequeue s now = (s', None) → sched_run limits acc out s'
| run_restore acc out s now s1 p : sched_run limits acc out s → dequeue s now = (s1, Some p) →
    sched_run limits acc out (restore s1 p).

Definition of_class (c : TrafficClass) (l : list QueuedPacket) : list QueuedPacket :=
  filter (λ q, traffic_class q = c) l.

(** First in, first out: what was accepted of a class is what was handed out
    of it followed by what waits; of bulk, some may be missing. *)
Definition in_order (acc out : list QueuedPacket) (s : Scheduler) : Prop :=
  (∀ c, c ≠ bulk → of_class c acc = of_class c out ++ queue s c) ∧
  of_class bulk out ++ queue s bulk `sublist_of` of_class bulk acc.

Lemma of_class_snoc c l q : of_class c (l ++ [q]) = of_class c l ++ (if bool_decide (traffic_class q = c) then [q] else []).
Proof.
  unfold of_class. rewrite filter_app. f_equal. destruct (bool_decide _) eqn:E.
  - apply bool_decide_eq_true in E. by rewrite filter_cons_True.
  - apply bool_decide_eq_false in E. by rewrite filter_cons_False.
Qed.

Lemma in_order_enqueue acc out s s' k q accepted : in_order acc out s →
  (∀ c', queue s' c' = grown s c' k q accepted) → in_order (if accepted then acc ++ [q] else acc) out s'.
Proof.
  intros [Ho Hb] Hg. split.
  - intros c Hc. rewrite Hg. unfold grown. rewrite decide_False by done.
    destruct accepted; cbn [andb]; [rewrite of_class_snoc|rewrite app_nil_r]; rewrite Ho by done; [by rewrite app_assoc|done].
  - rewrite Hg. unfold grown. rewrite decide_True by done.
    assert (of_class bulk out ++ drop k (queue s bulk) `sublist_of` of_class bulk acc) as Hd.
    { etrans; [|exact Hb]. apply sublist_app; [done|apply sublist_drop]. }
    destruct accepted; cbn [andb]; [rewrite of_class_snoc, app_assoc; by apply sublist_app|by rewrite app_nil_r].
Qed.

Lemma in_order_serves acc out s s' p : in_order acc out s → serves s s' p → in_order acc (out ++ [p]) s'.
Proof.
  intros [Ho Hb] [Hq Hrest].
  assert (∀ c, of_class c (out ++ [p]) ++ queue s' c = of_class c out ++ queue s c) as Hsame.
  { intros c. rewrite of_class_snoc, <- app_assoc. f_equal. destruct (decide (traffic_class p = c)) as [<-|Hne].
    - by rewrite bool_decide_eq_true_2, Hq.
    - rewrite bool_decide_eq_false_2 by done. by rewrite Hrest. }
  split; [intros c Hc; rewrite Hsame; by apply Ho|by rewrite Hsame].
Qed.

Lemma in_order_same acc out s s' : in_order acc out s → (∀ c, queue s' c = queue s c) → in_order acc out s'.
Proof. intros [Ho Hb] Hs. split; [intros c Hc; rewrite Hs; by apply Ho|by rewrite Hs]. Qed.

Lemma sched_run_reach limits acc out s : sched_run limits acc out s → sched_reach limits s.
Proof.
  induction 1 as [|acc out s packet c now dst s' ok _ IH Hb E|acc out s now s' p _ IH E|acc out s now s' _ IH E|acc out s now s1 p _ IH E].
  - apply sr_new.
  - change s' with (s', ok).1. rewrite <- E. by apply sr_enqueue.
  - change s' with (s', Some p).1. rewrite <- E. by apply sr_dequeue.
  - change s' with (s', @None QueuedPacket).1. rewrite <- E. by apply sr_dequeue.
  - by apply (sr_restore _ s s1 p now).
Qed.

Lemma sched_run_in_order limits acc out s : sched_run limits acc out s → total_bytes limits < 2 ^ 63 → in_order acc out s.
Proof.
  intros Hr Hlim. induction Hr as [|acc out s packet c now dst s' ok Hr IH Hb E|acc out s now s' p Hr IH E|acc out s now s' Hr IH E|acc out s now s1 p Hr IH E];
    [split; [by intros []|done]|..];
    apply sched_run_reach in Hr; destruct (sched_reach_ok _ _ Hr Hlim) as [H _].
  - pose proof (enqueue_spec s packet c now dst H Hb) as Hs. rewrite E in Hs. destruct Hs as (_ & _ & _ & _ & k & _ & Hg).
    by apply (in_order_enqueue acc out s s' k).
  - destruct (dequeue_spec s now H) as [(s2 & q & E' & Hs & _)|[E' _]]; rewrite E in E'; [|done].
    injection E' as <- <-. by apply (in_order_serves acc out s).
  - destruct (dequeue_spec s now H) as [(s2 & q & E' & _)|[E' _]]; rewrite E in E'; [done|]. injection E' as ->. done.
  - destruct (dequeue_spec s now H) as [(s2 & q & E' & Hs & H' & Hl' & _)|[E' _]]; rewrite E in E'; [|done].
    injection E' as <- <-. apply (in_order_same acc out s); [done|]. by apply (restore_spec s s1 p H H' Hl' Hs).
Qed.

(** C40. The scheduler over every history of [enqueue], [dequeue] and
    [restore].  Its books balance: the memory counter is the sum of the
    queued packets and within its limit, and no queue exceeds its capacity.
    Each class is served first in, first out: the packets accepted of the
    realtime and the normal class are, in order, those handed out followed by
    those waiting, and of bulk no others and in no other order.  [enqueue]
    accepts a packet exactly when its queue is not full and the memory has
    room for it, for a class above bulk after giving up bulk packets; it
    sheds the oldest bulk packets, never more than it must, and appends the
    packet behind those of its class.  [dequeue] takes the oldest packet of a
    class, of the realtime class whenever it has one, returns nothing only
    when all queues are empty, and [restore] puts the packet back exactly
    where it was. *)
Theorem scheduler_accounts limits acc out s now : sched_run limits acc out s → total_bytes limits < 2 ^ 63 →
  queued_bytes_ s = all_bytes s ∧ queued_bytes_ s ≤ Z.max 0 (total_bytes limits) ∧
  (∀ c, Z.of_nat (length (queue s c)) ≤ Z.max 0 (capacity limits !!! class_index c)) ∧
  in_order acc out s ∧
  (∀ packet c at_ dst s' accepted, blen packet < 2 ^ 63 → enqueue s packet c at_ dst = (s', accepted) →
     (accepted = true ↔ admits s c (blen packet)) ∧
     ∃ k, sheds s c (blen packet) k ∧ ∀ c', queue s' c' = grown s c' k (mkQueued packet c at_ dst) accepted) ∧
  match dequeue s now with
  | (s', Some p) => serves s s' p ∧ (queue s realtime ≠ [] → traffic_class p = realtime) ∧
                    ∀ c, queue (restore s' p) c = queue s c
  | (s', None) => s' = s ∧ ∀ c, queue s c = []
  end.
Proof.
  intros Hr Hlim. pose proof (sched_run_in_order _ _ _ _ Hr Hlim) as Hord.
  destruct (sched_reach_ok _ _ (sched_run_reach _ _ _ _ Hr) Hlim) as [H <-].
  split_and!; [apply H|apply H|apply H|done| |].
  - intros packet c at_ dst s' accepted Hb E. pose proof (enqueue_spec s packet c at_ dst H Hb) as Hs.
    rewrite E in Hs. by destruct Hs as (_ & _ & _ & Hs).
  - destruct (dequeue_spec s now H) as [(s' & p & -> & Hs & H' & Hl' & Hrt & _)|[-> Hall]]; [|done].
    split_and!; [done|done|]. by apply (restore_spec s s' p H H' Hl' Hs).
Qed.
Lemma scheduler_accounts_witness :
  let e := mkEndpoint (from_bytes ipv4 [10; 0; 0; 1]) 9 in
  let limits := mkLimits [2; 2; 2] 7 in
  let s1 := (enqueue (new_scheduler limits) [1; 2; 3] bulk 5 e).1 in
  let s2 := (enqueue s1 [4; 5; 6] bulk 6 e).1 in
  let s3 := (enqueue s2 [7; 8; 9] normal 7 e).1 in
  queued_bytes_ s3 = 6 ∧ map q_bytes (queue s3 bulk) = [[4; 5; 6]] ∧
  in_order [mkQueued [1; 2; 3] bulk 5 e; mkQueued [4; 5; 6] bulk 6 e; mkQueued [7; 8; 9] normal 7 e] [] s3 ∧
  ¬ admits s3 bulk 2 ∧ admits s3 realtime 4.
Proof.
  intros e limits s1 s2 s3.
  destruct (scheduler_accounts limits [mkQueued [1; 2; 3] bulk 5 e; mkQueued [4; 5; 6] bulk 6 e; mkQueued [7; 8; 9] normal 7 e] [] s3 8)
    as (Hb & _ & _ & Hord & Henq & _).
  - eapply (run_enqueue limits [mkQueued [1; 2; 3] bulk 5 e; mkQueued [4; 5; 6] bulk 6 e] [] s2 [7; 8; 9] normal 7 e s3 true); [|reflexivity..].
    eapply (run_enqueue limits [mkQueued [1; 2; 3] bulk 5 e] [] s1 [4; 5; 6] bulk 6 e s2 true); [|reflexivity..].
    eapply (run_enqueue limits [] [] (new_scheduler limits) [1; 2; 3] bulk 5 e s1 true); [|reflexivity..].
    apply run_new.
  - reflexivity.
  - split_and!; [rewrite Hb; reflexivity|reflexivity|exact Hord| |].
    + assert (enqueue s3 [1; 2] bulk 9 e = ((enqueue s3 [1; 2] bulk 9 e).1, false)) as E by (vm_compute; reflexivity).
      destruct (Henq [1; 2] bulk 9 e _ false ltac:(reflexivity) E) as [Hiff _]. intros H. discriminate (proj2 Hiff H).
    + assert (enqueue s3 [1; 2; 3; 4] realtime 9 e = ((enqueue s3 [1; 2; 3; 4] realtime 9 e).1, true)) as E by (vm_compute; reflexivity).
      destruct (Henq [1; 2; 3; 4] realtime 9 e _ true ltac:(reflexivity) E) as [Hiff _]. exact (proj1 Hiff eq_refl).
Defined.

(** Bulk traffic is not starved by normal traffic: while no realtime
    packet waits and bulk packets do, every [dequeue] serves a bulk packet or
    brings the next one closer, and no more than six normal packets can go
    before it; what is enqueued meanwhile does not put it off. *)
Lemma bulk_not_starved limits s now : sched_reach limits s → total_bytes limits < 2 ^ 63 →
  queue s realtime = [] → queue s bulk ≠ [] →
  0 ≤ wait s ≤ 6 ∧
  (∃ s' p, dequeue s now = (s', Some p) ∧
     (traffic_class p = bulk ∨ traffic_class p = normal ∧ wait s' < wait s)) ∧
  (∀ packet c at_ dst, blen packet < 2 ^ 63 → wait (enqueue s packet c at_ dst).1 = wait s).
Proof.
  intros Hr Hlim Hrt Hbk. destruct (sched_reach_ok _ _ Hr Hlim) as [H _]. split_and!.
  - unfold wait. destruct (so_deficits _ H). unfold kNormalWeight, kBulkWeight in *. case_match; lia.
  - unfold wait. destruct (so_deficits _ H). unfold kNormalWeight, kBulkWeight in *. case_match; lia.
  - destruct (dequeue_spec s now H) as [(s' & p & E & _ & _ & _ & _ & Hw)|[_ Hall]]; [|by destruct Hbk].
    exists s', p. split; [done|]. by apply Hw.
  - intros packet c at_ dst Hp. pose proof (enqueue_spec s packet c at_ dst H Hp) as He.
    destruct (enqueue s packet c at_ dst). by destruct He as (_ & _ & ? & _).
Qed.

(** A realtime packet that finds both its own queue and the memory full
    costs a bulk packet its place and is refused all the same. *)
Example shed_without_room :
  let e := mkEndpoint (from_bytes ipv4 [10; 0; 0; 1]) 9 in
  let s := new_scheduler (mkLimits [1; 1; 1] 2) in
  let s := (enqueue (enqueue s [1] realtime 0 e).1 [2] bulk 0 e).1 in
  let '(s', accepted) := enqueue s [3] realtime 0 e in
  accepted = false ∧ length (queue s bulk) = 1%nat ∧ queue s' bulk = [].
Proof. vm_compute. done. Qed.
