(* ===== verification/Blake2sRfc.v ===== *)
(** BLAKE2s as RFC 7693 defines it, on a whole message.

    Nothing here is taken from [src/blake2s.cpp]: the initialisation vector is
    computed from the square roots of the first primes (section 2.6), the
    message schedule is the table of section 2.7 read as hexadecimal digits,
    words are integers modulo 2^32 with rotations by division, the work
    vector is a function from indices, and bytes past the end of the padded
    input read as zero. *)

From S2P Require Import Prelude.

Module Rfc7693.

(** ** Words *)

(** [x >>> n] *)
Definition rotr (x n : Z) : Z := x / 2 ^ n + x mod 2 ^ n * 2 ^ (32 - n).

(** Section 2.6: [floor(2^32 * frac(sqrt(prime(i+1))))]. *)
Definition primes : list Z := [2; 3; 5; 7; 11; 13; 17; 19].
Definition IV (i : nat) : Z := Z.sqrt (primes !!! i * 2 ^ 64) mod 2 ^ 32.

(** Section 2.7: digit [i] of row [r]. *)
Definition SIGMA : list Z :=
  [0x0123456789ABCDEF; 0xEA489FD61C02B753; 0xB8C052FDAE367194; 0x7931DCBE265A40F8; 0x905724AFE1BC683D;
   0x2C6A0B834D75FE19; 0xC51FED4A0763928B; 0xDB7EC13950F4862A; 0x6FE9B308C2D714A5; 0xA2847615FB9E3CD0].
Definition sigma (r i : nat) : nat := Z.to_nat (SIGMA !!! r / 16 ^ (15 - Z.of_nat i) mod 16).

(** ** Compression *)

Definition put_word (v : nat → Z) (i : nat) (x : Z) : nat → Z := λ j, if Nat.eqb j i then x else v j.

(** Section 3.1. *)
Definition G (v : nat → Z) (a b c d : nat) (x y : Z) : nat → Z :=
  let v := put_word v a ((v a + v b + x) mod 2 ^ 32) in
  let v := put_word v d (rotr (Z.lxor (v d) (v a)) 16) in
  let v := put_word v c ((v c + v d) mod 2 ^ 32) in
  let v := put_word v b (rotr (Z.lxor (v b) (v c)) 12) in
  let v := put_word v a ((v a + v b + y) mod 2 ^ 32) in
  let v := put_word v d (rotr (Z.lxor (v d) (v a)) 8) in
  let v := put_word v c ((v c + v d) mod 2 ^ 32) in
  put_word v b (rotr (Z.lxor (v b) (v c)) 7).

(** The columns and then the diagonals of the work vector. *)
Definition quarters : list (nat * nat * nat * nat) :=
  [(0, 4, 8, 12); (1, 5, 9, 13); (2, 6, 10, 14); (3, 7, 11, 15);
   (0, 5, 10, 15); (1, 6, 11, 12); (2, 7, 8, 13); (3, 4, 9, 14)]%nat.

Definition quarter (m : nat → Z) (r : nat) (v : nat → Z) (q : nat) : nat → Z :=
  let '(a, b, c, d) := quarters !!! q in
  G v a b c d (m (sigma r (2 * q))) (m (sigma r (2 * q + 1))).

Definition cipher_round (m : nat → Z) (v : nat → Z) (r : nat) : nat → Z := fold_left (quarter m r) (seq 0 8) v.

(** Section 3.2: the work vector of a block that ends [t] bytes in. *)
Definition work (h : nat → Z) (t : Z) (last : bool) (i : nat) : Z :=
  if Nat.ltb i 8 then h i
  else if Nat.eqb i 12 then Z.lxor (IV 4) (t mod 2 ^ 32)
  else if Nat.eqb i 13 then Z.lxor (IV 5) (t / 2 ^ 32 mod 2 ^ 32)
  else if Nat.eqb i 14 && last then Z.lxor (IV 6) (2 ^ 32 - 1)
  else IV (i - 8).

Definition F (h : nat → Z) (m : nat → Z) (t : Z) (last : bool) : nat → Z :=
  let v := fold_left (cipher_round m) (seq 0 10) (work h t last) in
  λ i, Z.lxor (Z.lxor (h i) (v i)) (v (i + 8)%nat).

(** ** Hashing *)

(** Section 3.3: the padded input, a key being a block of its own. *)
Definition byte_at (key message : list Z) (n : nat) : Z :=
  match key with
  | [] => default 0 (message !! n)
  | _ => if Nat.ltb n 64 then default 0 (key !! n) else default 0 (message !! (n - 64)%nat)
  end.
Definition padded_size (key message : list Z) : nat :=
  match key with [] => length message | _ => 64 + length message end.

(** Word [i] of block [k], least significant byte first. *)
Definition word (byte : nat → Z) (k i : nat) : Z :=
  let o := (64 * k + 4 * i)%nat in
  byte o + 256 * byte (o + 1)%nat + 65536 * byte (o + 2)%nat + 16777216 * byte (o + 3)%nat.

Definition block_count (n : nat) : nat := Nat.max 1 ((n + 63) / 64).

(** Byte [i] of the words, least significant byte first. *)
Definition digest_byte (h : nat → Z) (i : nat) : Z := h (i / 4)%nat / 256 ^ Z.of_nat (i mod 4) mod 256.

(** The words of [h] are computed once and for all. *)
Definition fixed (h : nat → Z) : nat → Z := let l := map h (seq 0 8) in λ i, l !!! i.

Definition blake2s (nn : nat) (key message : list Z) : list Z :=
  let total := padded_size key message in
  let dd := block_count total in
  let m k := word (byte_at key message) k in
  let h i := if Nat.eqb i 0 then Z.lxor (IV 0) (0x01010000 + 256 * Z.of_nat (length key) + Z.of_nat nn) else IV i in
  let h := fold_left (λ h k, fixed (F h (m k) (64 * (Z.of_nat k + 1)) false)) (seq 0 (dd - 1)) (fixed h) in
  let h := fixed (F h (m (dd - 1)%nat) (Z.of_nat total) true) in
  map (digest_byte h) (seq 0 nn).

(** Appendix B. *)
Example blake2s_abc : blake2s 32 [] [97; 98; 99] =
  [0x50; 0x8c; 0x5e; 0x8c; 0x32; 0x7c; 0x14; 0xe2; 0xe1; 0xa7; 0x2b; 0xa3; 0x4e; 0xeb; 0x45; 0x2f;
   0x37; 0x45; 0x8b; 0x20; 0x9e; 0xd6; 0x3a; 0x29; 0x4d; 0x99; 0x9b; 0x4c; 0x86; 0x67; 0x59; 0x82].
Proof. vm_compute. reflexivity. Qed.

End Rfc7693.
