(* ===== verification/Blake2s.v ===== *)
(** BLAKE2s, HMAC and HKDF: [src/blake2s.cpp].

    [Blake2s] is the incremental hash with its block buffer.  [blake2s_chain]
    is the code's own compression function chained over a whole message; the
    streaming code computes it however the input is cut, and it is the hash
    of RFC 7693 as Blake2sRfc defines it, independently of this code.
    [hmac_spec] is the construction of RFC 2104 and [hkdf_spec] the expansion
    of RFC 5869 over it. *)

From S2P Require Import Prelude Blake2sRfc.

Definition kBlockSize : nat := 64.
Definition kMaximumDigestSize : nat := 32.
Definition kMaximumKeySize : nat := 32.

Definition kInitialisationVector : list Z :=
  [0x6A09E667; 0xBB67AE85; 0x3C6EF372; 0xA54FF53A;
   0x510E527F; 0x9B05688C; 0x1F83D9AB; 0x5BE0CD19].

Definition kSigma : list (list nat) :=
  [[0; 1; 2; 3; 4; 5; 6; 7; 8; 9; 10; 11; 12; 13; 14; 15];
   [14; 10; 4; 8; 9; 15; 13; 6; 1; 12; 0; 2; 11; 7; 5; 3];
   [11; 8; 12; 0; 5; 2; 15; 13; 10; 14; 3; 6; 7; 1; 9; 4];
   [7; 9; 3; 1; 13; 12; 11; 14; 2; 6; 5; 10; 4; 0; 15; 8];
   [9; 0; 5; 7; 2; 4; 10; 15; 14; 1; 11; 12; 6; 8; 3; 13];
   [2; 12; 6; 10; 0; 11; 8; 3; 4; 13; 7; 5; 15; 14; 1; 9];
   [12; 5; 1; 15; 14; 13; 4; 10; 0; 7; 6; 3; 9; 2; 8; 11];
   [13; 11; 7; 14; 12; 1; 3; 9; 5; 0; 15; 4; 8; 6; 2; 10];
   [6; 15; 14; 9; 11; 3; 0; 8; 12; 2; 13; 7; 1; 4; 10; 5];
   [10; 2; 8; 4; 7; 6; 1; 5; 15; 11; 9; 14; 3; 12; 13; 0]]%nat.

Definition rotate_right (value bits : Z) : Z :=
  Z.lor (Z.shiftr value bits) (u32 (Z.shiftl value (32 - bits))).

Definition load_le32 (bytes : list Z) (o : nat) : Z :=
  Z.lor (Z.lor (Z.lor (bytes !!! o) (u32 (Z.shiftl (bytes !!! (o + 1)%nat) 8)))
    (u32 (Z.shiftl (bytes !!! (o + 2)%nat) 16)))
    (u32 (Z.shiftl (bytes !!! (o + 3)%nat) 24)).

Definition store_le32 (value : Z) : list Z :=
  [Z.land value 0xFF; Z.land (Z.shiftr value 8) 0xFF; Z.land (Z.shiftr value 16) 0xFF;
   Z.land (Z.shiftr value 24) 0xFF].

Definition mix (v : list Z) (a b c d : nat) (x y : Z) : list Z :=
  let v := <[a := u32 (v !!! a + v !!! b + x)]> v in
  let v := <[d := rotate_right (Z.lxor (v !!! d) (v !!! a)) 16]> v in
  let v := <[c := u32 (v !!! c + v !!! d)]> v in
  let v := <[b := rotate_right (Z.lxor (v !!! b) (v !!! c)) 12]> v in
  let v := <[a := u32 (v !!! a + v !!! b + y)]> v in
  let v := <[d := rotate_right (Z.lxor (v !!! d) (v !!! a)) 8]> v in
  let v := <[c := u32 (v !!! c + v !!! d)]> v in
  <[b := rotate_right (Z.lxor (v !!! b) (v !!! c)) 7]> v.

Record Blake2s := mkBlake2s {
  state_ : list Z;
  buffer_ : list Z;
  buffered_ : nat;
  counter_ : Z;
  digest_size_ : nat;
  finished_ : bool;
}.

(** One round of [compress] with the permutation [s]. *)
Definition round (message : list Z) (v : list Z) (s : list nat) : list Z :=
  let m i := message !!! (s !!! i) in
  let v := mix v 0 4 8 12 (m 0%nat) (m 1%nat) in
  let v := mix v 1 5 9 13 (m 2%nat) (m 3%nat) in
  let v := mix v 2 6 10 14 (m 4%nat) (m 5%nat) in
  let v := mix v 3 7 11 15 (m 6%nat) (m 7%nat) in
  let v := mix v 0 5 10 15 (m 8%nat) (m 9%nat) in
  let v := mix v 1 6 11 12 (m 10%nat) (m 11%nat) in
  let v := mix v 2 7 8 13 (m 12%nat) (m 13%nat) in
  mix v 3 4 9 14 (m 14%nat) (m 15%nat).

(** The new [state_] for a block, a counter and the flag of the last block. *)
Definition compress_state (state buffer : list Z) (counter : Z) (last : bool) : list Z :=
  let message := map (λ i, load_le32 buffer (i * 4)) (seq 0 16) in
  let v := state ++ kInitialisationVector in
  let v := <[12%nat := Z.lxor (v !!! 12%nat) (Z.land counter 0xFFFFFFFF)]> v in
  let v := <[13%nat := Z.lxor (v !!! 13%nat) (u32 (Z.shiftr counter 32))]> v in
  let v := if last then <[14%nat := u32 (Z.lnot (v !!! 14%nat))]> v else v in
  let v := fold_left (round message) kSigma v in
  map (λ i, Z.lxor (state !!! i) (Z.lxor (v !!! i) (v !!! (i + 8)%nat))) (seq 0 8).

Definition compress (b : Blake2s) (last : bool) : Blake2s :=
  mkBlake2s (compress_state (state_ b) (buffer_ b) (counter_ b) last) (buffer_ b) (buffered_ b)
    (counter_ b) (digest_size_ b) (finished_ b).

(** [std::copy_n(source, n, buffer + position)] *)
Definition copy_into (buffer : list Z) (position : nat) (source : list Z) : list Z :=
  take position buffer ++ source ++ drop (position + length source) buffer.

(** The [while] loop of [update]: [input] is what is left from [offset] on.
    Every turn consumes a byte, so [length input] turns are enough. *)
Fixpoint update_loop (fuel : nat) (input : list Z) (b : Blake2s) : Blake2s :=
  match fuel with
  | O => b
  | S fuel =>
      match input with
      | [] => b
      | _ =>
          let b :=
            if Nat.eqb (buffered_ b) kBlockSize then
              let b := mkBlake2s (state_ b) (buffer_ b) (buffered_ b)
                         (u64 (counter_ b + 64)) (digest_size_ b) (finished_ b) in
              let b := compress b false in
              mkBlake2s (state_ b) (buffer_ b) 0 (counter_ b) (digest_size_ b) (finished_ b)
            else b in
          let n := Nat.min (kBlockSize - buffered_ b) (length input) in
          update_loop fuel (drop n input)
            (mkBlake2s (state_ b) (copy_into (buffer_ b) (buffered_ b) (take n input))
               (buffered_ b + n) (counter_ b) (digest_size_ b) (finished_ b))
      end
  end.

Definition update (b : Blake2s) (input : list Z) : Blake2s :=
  if finished_ b then b else update_loop (length input) input b.

(** The constructor. *)
Definition new_blake2s (digest_size : nat) (key : list Z) : Blake2s :=
  let size := Nat.max 1 (Nat.min digest_size kMaximumDigestSize) in
  let key_length := Nat.min (length key) kMaximumKeySize in
  let parameters := Z.lor (Z.lor 0x01010000 (u32 (Z.shiftl (Z.of_nat key_length) 8))) (Z.of_nat size) in
  let state := <[0%nat := Z.lxor (kInitialisationVector !!! 0%nat) parameters]> kInitialisationVector in
  let b := mkBlake2s state (replicate kBlockSize 0) 0 0 size false in
  if Nat.ltb 0 key_length
  then update b (copy_into (replicate kBlockSize 0) 0 (take key_length key))
  else b.

(** [finish] fills [out]. *)
Definition finish (b : Blake2s) (out : list Z) : Blake2s * list Z :=
  if finished_ b then (b, out)
  else
    let b := mkBlake2s (state_ b)
               (copy_into (buffer_ b) (buffered_ b) (replicate (kBlockSize - buffered_ b) 0))
               (buffered_ b) (u64 (counter_ b + Z.of_nat (buffered_ b))) (digest_size_ b) true in
    let b := compress b true in
    let digest := concat (map store_le32 (state_ b)) in
    (b, copy_into out 0 (take (Nat.min (length out) (digest_size_ b)) digest)).

Definition zero_digest : list Z := replicate kMaximumDigestSize 0.

Definition hash (input key : list Z) : list Z :=
  (finish (update (new_blake2s kMaximumDigestSize key) input) zero_digest).2.

(** ** HMAC and HKDF *)

(** A key as one block. *)
Definition padded_key (key : list Z) : list Z :=
  if Nat.ltb kBlockSize (length key)
  then copy_into (replicate kBlockSize 0) 0 (hash key [])
  else copy_into (replicate kBlockSize 0) 0 key.

Definition pad_with (c : Z) (padded : list Z) : list Z := map (λ x, Z.lxor x c) padded.

Definition hmac_blake2s (key message : list Z) : list Z :=
  let padded := padded_key key in
  let inner := update (new_blake2s kMaximumDigestSize []) (pad_with 0x36 padded) in
  let inner := update inner message in
  let inner_digest := (finish inner zero_digest).2 in
  let outer := update (new_blake2s kMaximumDigestSize []) (pad_with 0x5C padded) in
  let outer := update outer inner_digest in
  (finish outer zero_digest).2.

Definition hkdf_extract (salt input : list Z) : list Z := hmac_blake2s salt input.

(** The loop of [hkdf_expand]; at most 255 turns are taken. *)
Fixpoint expand_loop (fuel : nat) (key info previous : list Z) (counter : Z) (produced : nat)
    (out : list Z) : list Z :=
  match fuel with
  | O => out
  | S fuel =>
      if Nat.ltb produced (length out) then
        let padded := padded_key key in
        let inner := update (new_blake2s kMaximumDigestSize []) (pad_with 0x36 padded) in
        let inner := if 1 <? counter then update inner previous else inner in
        let inner := update inner info in
        let inner := update inner [counter] in
        let inner_digest := (finish inner zero_digest).2 in
        let outer := update (new_blake2s kMaximumDigestSize []) (pad_with 0x5C padded) in
        let outer := update outer inner_digest in
        let previous := (finish outer previous).2 in
        let n := Nat.min kMaximumDigestSize (length out - produced) in
        expand_loop fuel key info previous (u8 (counter + 1)) (produced + n)
          (copy_into out produced (take n previous))
      else out
  end.

Definition hkdf_expand (key info out : list Z) : option (list Z) :=
  if 255 * 32 <? blen out then None
  else Some (expand_loop 255 key info zero_digest 1 0 out).

Example hash_abc : hash [97; 98; 99] [] =
  [0x50; 0x8c; 0x5e; 0x8c; 0x32; 0x7c; 0x14; 0xe2; 0xe1; 0xa7; 0x2b; 0xa3; 0x4e; 0xeb; 0x45; 0x2f;
   0x37; 0x45; 0x8b; 0x20; 0x9e; 0xd6; 0x3a; 0x29; 0x4d; 0x99; 0x9b; 0x4c; 0x86; 0x67; 0x59; 0x82].
Proof. vm_compute. reflexivity. Qed.

(** ** The hash of a whole message *)

Definition pad_block (l : list Z) : list Z := l ++ replicate (kBlockSize - length l) 0.

(** The chaining value after the whole of [data], [t] bytes in: every block but
    the last is compressed as such, the last one zero padded and flagged. *)
Fixpoint absorb (fuel : nat) (h : list Z) (t : Z) (data : list Z) : list Z :=
  match fuel with
  | O => h
  | S fuel =>
      if Nat.leb (length data) kBlockSize
      then compress_state h (pad_block data) (u64 (t + blen data)) true
      else absorb fuel (compress_state h (take kBlockSize data) (u64 (t + 64)) false)
             (u64 (t + 64)) (drop kBlockSize data)
  end.

Definition absorb_all (h : list Z) (t : Z) (data : list Z) : list Z := absorb (S (length data)) h t data.

Definition initial_state (size key_length : nat) : list Z :=
  <[0%nat := Z.lxor 0x6A09E667 (0x01010000 + 256 * Z.of_nat key_length + Z.of_nat size)]>
    kInitialisationVector.

(** A key is a block of its own before the message. *)
Definition key_block (key : list Z) : list Z := match key with [] => [] | _ => pad_block key end.

Definition blake2s_chain (size : nat) (key message : list Z) : list Z :=
  take size (concat (map store_le32
    (absorb_all (initial_state size (length key)) 0 (key_block key ++ message)))).

(** ** Streaming *)

Lemma absorb_fuel f g h t data : (length data < f)%nat → (length data < g)%nat →
  absorb f h t data = absorb g h t data.
Proof.
  revert g h t data. induction f as [|f IH]; intros [|g] h t data Hf Hg; try lia. cbn [absorb].
  destruct (Nat.leb_spec (length data) kBlockSize) as [|Hlt]; [done|].
  unfold kBlockSize in Hlt. apply IH; rewrite length_drop; unfold kBlockSize; lia.
Qed.

Lemma absorb_block h t block data : length block = kBlockSize → data ≠ [] →
  absorb_all h t (block ++ data) =
  absorb_all (compress_state h block (u64 (t + 64)) false) (u64 (t + 64)) data.
Proof.
  intros Hb Hd. destruct data as [|x data]; [done|]. unfold absorb_all at 1. cbn [absorb].
  rewrite length_app, Hb. destruct (Nat.leb_spec (kBlockSize + length (x :: data)) kBlockSize).
  { cbn [length] in *. lia. }
  rewrite take_app_length', drop_app_length' by done. apply absorb_fuel; unfold kBlockSize; cbn [length] in *; lia.
Qed.

(** A hash in progress: the buffer is a block and its first [buffered_] bytes
    are the input not yet compressed. *)
Record streaming (b : Blake2s) : Prop := {
  str_buffer : length (buffer_ b) = kBlockSize;
  str_room : (buffered_ b ≤ kBlockSize)%nat;
  str_open : finished_ b = false;
}.

Definition tail_of (b : Blake2s) : list Z := take (buffered_ b) (buffer_ b).

(** The chaining value [b] reaches when [rest] is all that follows. *)
Definition completes (b : Blake2s) (rest : list Z) : list Z :=
  absorb_all (state_ b) (counter_ b) (tail_of b ++ rest).

Lemma copy_into_length buffer p l : (p + length l ≤ length buffer)%nat →
  length (copy_into buffer p l) = length buffer.
Proof. intros H. unfold copy_into. rewrite !length_app, length_take, length_drop. lia. Qed.

Lemma take_copy_into buffer p l : (p + length l ≤ length buffer)%nat →
  take (p + length l) (copy_into buffer p l) = take p buffer ++ l.
Proof.
  intros H. unfold copy_into. rewrite app_assoc. apply take_app_length'.
  rewrite length_app, length_take. lia.
Qed.

Lemma update_loop_spec fuel : ∀ input b, (length input ≤ fuel)%nat → streaming b →
  streaming (update_loop fuel input b) ∧
  digest_size_ (update_loop fuel input b) = digest_size_ b ∧
  ∀ rest, completes (update_loop fuel input b) rest = completes b (input ++ rest).
Proof.
  induction fuel as [|fuel IH]; intros [|x input] b Hf Hb; try done; [simpl in Hf; lia|].
  cbn [update_loop]. set (data := x :: input) in *.
  assert (0 < length data)%nat as Hd by (simpl; lia).
  set (b1 := if Nat.eqb _ _ then _ else _).
  assert (streaming b1 ∧ (buffered_ b1 < kBlockSize)%nat ∧ digest_size_ b1 = digest_size_ b ∧
    ∀ rest, completes b1 (data ++ rest) = completes b (data ++ rest)) as (Hb1 & Hroom & Hsize & Heq).
  { destruct Hb as [Hbl Hbr Hbo]. unfold b1. destruct (Nat.eqb_spec (buffered_ b) kBlockSize) as [E|E].
    - split; [split; simpl; [done|lia|done]|]. split; [simpl; unfold kBlockSize; lia|].
      split; [done|]. intros rest.
      unfold completes, tail_of. cbn [state_ counter_ buffered_ buffer_ compress take app].
      rewrite take_0, E, (take_ge (buffer_ b)) by lia. symmetry. by rewrite absorb_block.
    - split; [by split|]. split; [lia|done]. }
  clearbody b1. set (n := Nat.min (kBlockSize - buffered_ b1) (length data)).
  assert (0 < n ≤ length data)%nat as Hn by lia.
  assert (length (take n data) = n) as Htn by (rewrite length_take; lia).
  set (b2 := mkBlake2s _ _ _ _ _ _).
  assert (streaming b2) as Hb2.
  { destruct Hb1 as [Hbl Hbr Hbo]. split; unfold b2; cbn [buffer_ buffered_ finished_]; [|lia|done].
    rewrite copy_into_length; [done|]. rewrite Htn, Hbl. lia. }
  destruct (IH (drop n data) b2) as (H1 & H2 & H3); [rewrite length_drop; lia|done|].
  split; [done|]. split; [by rewrite H2|]. intros rest. rewrite H3, <- Heq. unfold completes, b2, tail_of.
  cbn [state_ counter_ buffered_ buffer_]. rewrite <- Htn at 1.
  rewrite take_copy_into by (rewrite Htn, (str_buffer _ Hb1); lia).
  rewrite <- app_assoc, (app_assoc (take n data)), take_drop. done.
Qed.

Lemma update_spec b input : streaming b →
  streaming (update b input) ∧ digest_size_ (update b input) = digest_size_ b ∧
  ∀ rest, completes (update b input) rest = completes b (input ++ rest).
Proof. intros Hb. unfold update. rewrite (str_open _ Hb). by apply update_loop_spec. Qed.

(** Any number of updates absorb the concatenation of their inputs. *)
Lemma updates_spec chunks : ∀ b, streaming b →
  streaming (fold_left update chunks b) ∧
  digest_size_ (fold_left update chunks b) = digest_size_ b ∧
  ∀ rest, completes (fold_left update chunks b) rest = completes b (concat chunks ++ rest).
Proof.
  induction chunks as [|c chunks IH]; intros b Hb; [done|]. cbn [fold_left concat].
  destruct (update_spec b c Hb) as (H1 & H2 & H3). destruct (IH _ H1) as (H4 & H5 & H6).
  split; [done|]. split; [congruence|]. intros rest. by rewrite H6, H3, app_assoc.
Qed.

Lemma finish_digest_spec b out : streaming b →
  (finish b out).2 =
  copy_into out 0 (take (Nat.min (length out) (digest_size_ b)) (concat (map store_le32 (completes b [])))).
Proof.
  intros [Hbl Hbr Hbo]. unfold finish. rewrite Hbo. cbn [snd digest_size_ state_ compress]. do 5 f_equal.
  unfold completes, absorb_all, tail_of. rewrite app_nil_r. cbn [absorb].
  rewrite length_take_le by lia. destruct (Nat.leb_spec (buffered_ b) kBlockSize); [|lia].
  cbn [state_ buffer_ counter_].
  assert (blen (take (buffered_ b) (buffer_ b)) = Z.of_nat (buffered_ b)) as ->
    by (unfold blen; by rewrite length_take_le by lia).
  assert (pad_block (take (buffered_ b) (buffer_ b)) =
    copy_into (buffer_ b) (buffered_ b) (replicate (kBlockSize - buffered_ b) 0)) as ->; [|done].
  unfold copy_into, pad_block. rewrite length_replicate, length_take_le by lia.
  rewrite (drop_ge (buffer_ b)) by lia. by rewrite app_nil_r.
Qed.

Lemma parameter_word key_length size : (key_length ≤ 32)%nat → (size ≤ 32)%nat →
  Z.lor (Z.lor 0x01010000 (u32 (Z.shiftl (Z.of_nat key_length) 8))) (Z.of_nat size) =
  0x01010000 + 256 * Z.of_nat key_length + Z.of_nat size.
Proof.
  intros Hk Hs. rewrite Z.shiftl_mul_pow2 by lia. rewrite u32_id by word_lia.
  change 0x01010000 with (Z.shiftl 0x101 16). rewrite lor_shiftl_add by word_lia.
  replace (0x101 * 2 ^ 16 + Z.of_nat key_length * 2 ^ 8) with (Z.shiftl (0x10100 + Z.of_nat key_length) 8)
    by (rewrite Z.shiftl_mul_pow2 by lia; lia).
  rewrite lor_shiftl_add by word_lia. change (Z.shiftl 0x101 16) with 0x01010000. lia.
Qed.

Lemma new_blake2s_spec size key : (1 ≤ size ≤ 32)%nat → (length key ≤ 32)%nat →
  streaming (new_blake2s size key) ∧ digest_size_ (new_blake2s size key) = size ∧
  ∀ rest, completes (new_blake2s size key) rest =
    absorb_all (initial_state size (length key)) 0 (key_block key ++ rest).
Proof.
  intros Hs Hk. unfold new_blake2s, kMaximumDigestSize, kMaximumKeySize.
  rewrite (Nat.min_l size), (Nat.max_r 1 size), (Nat.min_l (length key)) by lia.
  rewrite parameter_word by lia.
  change (<[0%nat := _]> kInitialisationVector) with (initial_state size (length key)).
  set (b := mkBlake2s _ _ _ _ _ _). assert (streaming b) as Hb by (split; simpl; unfold kBlockSize; lia || done).
  destruct key as [|x key]; cbn [length Nat.ltb Nat.leb]; [done|].
  destruct (update_spec b (copy_into (replicate kBlockSize 0) 0 (take (S (length key)) (x :: key))) Hb)
    as (H1 & H2 & H3).
  split; [done|]. split; [done|]. intros rest. rewrite H3. unfold completes, b, tail_of.
  cbn [state_ counter_ buffered_ buffer_]. rewrite take_0. cbn [app key_block]. do 2 f_equal.
  rewrite take_ge by (simpl; lia). unfold copy_into, pad_block. rewrite take_0, drop_replicate. done.
Qed.

Lemma length_words h block t last : length (compress_state h block t last) = 8%nat.
Proof. unfold compress_state. by rewrite length_map, length_seq. Qed.

Lemma length_absorb f h t data : (length data < f)%nat → length (absorb f h t data) = 8%nat.
Proof.
  revert h t data. induction f as [|f IH]; intros h t data Hf; [lia|]. cbn [absorb].
  destruct (Nat.leb_spec (length data) kBlockSize) as [|Hlt]; [apply length_words|].
  unfold kBlockSize in Hlt. apply IH. rewrite length_drop. unfold kBlockSize. lia.
Qed.

Lemma length_blake2s_chain size key message : (size ≤ 32)%nat → length (blake2s_chain size key message) = size.
Proof.
  intros Hs. unfold blake2s_chain. rewrite length_take_le; [done|].
  pose proof (length_absorb (S (length (key_block key ++ message))) (initial_state size (length key)) 0
    (key_block key ++ message) ltac:(lia)) as Hl. unfold absorb_all.
  destruct (absorb _ _ _ _) as [|? [|? [|? [|? [|? [|? [|? [|? [|]]]]]]]]]; try done; simpl; lia.
Qed.

Lemma streamed_hash size key chunks out : (1 ≤ size ≤ 32)%nat → (length key ≤ 32)%nat →
  (finish (fold_left update chunks (new_blake2s size key)) out).2 =
  copy_into out 0 (take (length out) (blake2s_chain size key (concat chunks))).
Proof.
  intros Hs Hk. destruct (new_blake2s_spec size key Hs Hk) as (H1 & H2 & H3).
  destruct (updates_spec chunks _ H1) as (H4 & H5 & H6).
  rewrite finish_digest_spec, H6, H5, H2, H3, app_nil_r by done. unfold blake2s_chain. by rewrite take_take.
Qed.

(** ** The hash of RFC 7693 *)

Import Rfc7693.

Lemma vector_is_IV : kInitialisationVector = map IV (seq 0 8).
Proof. vm_compute. reflexivity. Qed.

Lemma schedule_is_sigma : kSigma = map (λ r, map (sigma r) (seq 0 16)) (seq 0 10).
Proof. vm_compute. reflexivity. Qed.

Lemma IV_range i : (i < 8)%nat → is_u32 (IV i).
Proof. intros _. unfold IV, is_u32. apply Z.mod_pos_bound. lia. Qed.

Lemma rotate_right_rotr x n : is_u32 x → 0 < n < 32 → rotate_right x n = rotr x n ∧ is_u32 (rotr x n).
Proof.
  intros Hx Hn. unfold rotate_right, rotr. rewrite shiftr_div by lia. rewrite Z.shiftl_mul_pow2 by lia.
  assert (2 ^ 32 = 2 ^ n * 2 ^ (32 - n)) as E by (rewrite <- Z.pow_add_r by lia; f_equal; lia).
  assert (0 < 2 ^ n ∧ 0 < 2 ^ (32 - n)) as [Hp Hq] by lia.
  assert (u32 (x * 2 ^ (32 - n)) = x mod 2 ^ n * 2 ^ (32 - n)) as ->.
  { unfold u32. rewrite E. by rewrite Z.mul_mod_distr_r by lia. }
  unfold is_u32 in *. rewrite E in *. pose proof (Z.mod_pos_bound x (2 ^ n) Hp) as Hm.
  assert (0 ≤ x / 2 ^ n < 2 ^ (32 - n)) as Hd by (split; [apply Z.div_pos; lia|apply Z.div_lt_upper_bound; lia]).
  split; [|nia]. rewrite Z.lor_comm. rewrite <- Z.shiftl_mul_pow2 by lia. rewrite lor_shiftl_add by lia. rewrite Z.shiftl_mul_pow2 by lia. lia.
Qed.

(** The work vector of the code and the one of the RFC. *)
Record vector_is (v : list Z) (f : nat → Z) : Prop := {
  vi_length : length v = 16%nat;
  vi_word : ∀ i, (i < 16)%nat → v !!! i = f i ∧ is_u32 (f i);
}.

Lemma vector_put v f i x y : vector_is v f → x = y → is_u32 y → vector_is (<[i := x]> v) (put_word f i y).
Proof.
  intros [Hl Hw] <- Hx. split; [by rewrite length_insert|]. intros j Hj. unfold put_word.
  destruct (Nat.eqb_spec j i) as [->|Hne].
  - by rewrite list_lookup_total_insert_eq by lia.
  - rewrite list_lookup_total_insert_ne by done. by apply Hw.
Qed.

Lemma vector_add v f i x : vector_is v f → (i < 16)%nat →
  vector_is (<[i := u32 x]> v) (put_word f i (x mod 2 ^ 32)).
Proof. intros H Hi. apply vector_put; [done|done|apply u32_range]. Qed.

Lemma vector_rotate v f i j k n : vector_is v f → (i < 16)%nat → (j < 16)%nat → 0 < n < 32 →
  vector_is (<[k := rotate_right (Z.lxor (v !!! i) (v !!! j)) n]> v) (put_word f k (rotr (Z.lxor (f i) (f j)) n)).
Proof.
  intros H Hi Hj Hn. destruct (vi_word _ _ H i Hi) as [-> Hfi]. destruct (vi_word _ _ H j Hj) as [-> Hfj].
  destruct (rotate_right_rotr (Z.lxor (f i) (f j)) n) as [-> Hr]; [by apply lxor_bound|done|]. by apply vector_put.
Qed.

Lemma mix_is_G v f a b c d x y : vector_is v f → (a < 16)%nat → (b < 16)%nat → (c < 16)%nat → (d < 16)%nat →
  vector_is (mix v a b c d x y) (G f a b c d x y).
Proof.
  intros H Ha Hb Hc Hd. unfold mix, G.
  assert (∀ v f i j x, vector_is v f → (i < 16)%nat → (j < 16)%nat →
    vector_is (<[i := u32 (v !!! i + v !!! j + x)]> v) (put_word f i ((f i + f j + x) mod 2 ^ 32))) as Hadd3.
  { intros w g i j z Hw Hi Hj. destruct (vi_word _ _ Hw i Hi) as [-> _]. destruct (vi_word _ _ Hw j Hj) as [-> _]. by apply vector_add. }
  assert (∀ v f i j, vector_is v f → (i < 16)%nat → (j < 16)%nat →
    vector_is (<[i := u32 (v !!! i + v !!! j)]> v) (put_word f i ((f i + f j) mod 2 ^ 32))) as Hadd2.
  { intros w g i j Hw Hi Hj. destruct (vi_word _ _ Hw i Hi) as [-> _]. destruct (vi_word _ _ Hw j Hj) as [-> _]. by apply vector_add. }
  apply vector_rotate; [|done|done|lia]. apply Hadd2; [|done|done].
  apply vector_rotate; [|done|done|lia]. apply Hadd3; [|done|done].
  apply vector_rotate; [|done|done|lia]. apply Hadd2; [|done|done].
  apply vector_rotate; [|done|done|lia]. by apply Hadd3.
Qed.

Lemma round_is_cipher_round message m r v f : (∀ i, (i < 16)%nat → message !!! i = m i) → (r < 10)%nat → vector_is v f →
  vector_is (round message v (map (sigma r) (seq 0 16))) (cipher_round m f r).
Proof.
  intros Hm Hr H. assert (∀ i, (i < 16)%nat → message !!! (map (sigma r) (seq 0 16) !!! i) = m (sigma r i)) as Hs.
  { intros i Hi. rewrite (list_lookup_total_fmap (sigma r)) by (rewrite length_seq; lia). rewrite lookup_total_seq_lt by lia. apply Hm.
    unfold sigma. pose proof (Z.mod_pos_bound (SIGMA !!! r / 16 ^ (15 - Z.of_nat i)) 16 ltac:(lia)). simpl. lia. }
  unfold round, cipher_round. cbn [seq fold_left]. unfold quarter. cbn [quarters lookup_total list_lookup_total].
  rewrite !Hs by lia. by repeat apply mix_is_G; try lia.
Qed.

(** Two folds in step. *)
Lemma fold_related {A B X Y} (R : A → B → Prop) (P : X → Prop) (f : A → Y → A) (g : B → X → B) (k : X → Y) :
  (∀ a b x, P x → R a b → R (f a (k x)) (g b x)) →
  ∀ xs a b, Forall P xs → R a b → R (fold_left f (map k xs) a) (fold_left g xs b).
Proof.
  intros Hstep. induction xs as [|x xs IH]; intros a b Hxs H; cbn [map fold_left]; [done|].
  apply Forall_cons_1 in Hxs as [Hx Hxs]. apply IH; [done|]. by apply Hstep.
Qed.

Lemma rounds_are message m v f : (∀ i, (i < 16)%nat → message !!! i = m i) → vector_is v f →
  vector_is (fold_left (round message) kSigma v) (fold_left (cipher_round m) (seq 0 10) f).
Proof.
  intros Hm H. rewrite schedule_is_sigma.
  apply (fold_related vector_is (λ r, (r < 10)%nat)); [|by apply Forall_forall; intros r Hr%elem_of_seq; lia|done].
  intros w g r Hr Hw. by apply round_is_cipher_round.
Qed.

(** A chaining value. *)
Record chain_is (h : list Z) (f : nat → Z) : Prop := {
  ci_length : length h = 8%nat;
  ci_word : ∀ i, (i < 8)%nat → h !!! i = f i ∧ is_u32 (f i);
}.

Lemma IV_word i : is_u32 (IV i).
Proof. unfold IV, is_u32. apply Z.mod_pos_bound. lia. Qed.

Lemma low_counter t : Z.land (u64 t) 0xFFFFFFFF = t mod 2 ^ 32.
Proof.
  change 0xFFFFFFFF with (Z.ones 32). rewrite Z.land_ones by lia. unfold u64. change (2 ^ 64) with (2 ^ 32 * 2 ^ 32).
  rewrite Z.rem_mul_r by lia. rewrite Z.mul_comm, Z.mod_add by lia. apply Z.mod_mod. lia.
Qed.

Lemma high_counter t : u32 (Z.shiftr (u64 t) 32) = t / 2 ^ 32 mod 2 ^ 32.
Proof.
  rewrite shiftr_div by lia. unfold u64, u32. change (2 ^ 64) with (2 ^ 32 * 2 ^ 32). rewrite Z.rem_mul_r by lia.
  rewrite Z.add_comm, Z.mul_comm, Z.div_add_l by lia. rewrite (Z.div_small (t mod 2 ^ 32)) by (apply Z.mod_pos_bound; lia).
  rewrite Z.add_0_r. apply Z.mod_mod. lia.
Qed.

(** The work vector before the rounds. *)
Definition starting_vector (h : list Z) (counter : Z) (last : bool) : list Z :=
  let v := h ++ kInitialisationVector in
  let v := <[12%nat := Z.lxor (v !!! 12%nat) (Z.land counter 0xFFFFFFFF)]> v in
  let v := <[13%nat := Z.lxor (v !!! 13%nat) (u32 (Z.shiftr counter 32))]> v in
  if last then <[14%nat := u32 (Z.lnot (v !!! 14%nat))]> v else v.

Lemma flipped_word : u32 (Z.lnot (IV 6)) = Z.lxor (IV 6) (2 ^ 32 - 1).
Proof. vm_compute. reflexivity. Qed.

Lemma starting_vector_eq h0 h1 h2 h3 h4 h5 h6 h7 t last :
  starting_vector [h0; h1; h2; h3; h4; h5; h6; h7] (u64 t) last =
  [h0; h1; h2; h3; h4; h5; h6; h7; IV 0; IV 1; IV 2; IV 3; Z.lxor (IV 4) (t mod 2 ^ 32);
   Z.lxor (IV 5) (t / 2 ^ 32 mod 2 ^ 32); if last then Z.lxor (IV 6) (2 ^ 32 - 1) else IV 6; IV 7].
Proof.
  unfold starting_vector. rewrite vector_is_IV, low_counter, high_counter. cbn [seq map app].
  rewrite <- flipped_word. generalize (IV 0) (IV 1) (IV 2) (IV 3) (IV 4) (IV 5) (IV 6) (IV 7). intros. by destruct last.
Qed.

Lemma starting_vector_is h f t last : chain_is h f → vector_is (starting_vector h (u64 t) last) (work f t last).
Proof.
  intros [Hl Hw]. do 8 (destruct h as [|? h]; [discriminate Hl|]). destruct h; [|discriminate Hl]. rewrite starting_vector_eq.
  assert (is_u32 (t mod 2 ^ 32) ∧ is_u32 (t / 2 ^ 32 mod 2 ^ 32) ∧ is_u32 (2 ^ 32 - 1)) as (Ht0 & Ht1 & Hones)
    by (unfold is_u32; split_and!; (apply Z.mod_pos_bound; lia) || lia).
  pose proof (lxor_bound _ _ 32 ltac:(lia) (IV_word 4) Ht0) as H12. pose proof (lxor_bound _ _ 32 ltac:(lia) (IV_word 5) Ht1) as H13.
  pose proof (lxor_bound _ _ 32 ltac:(lia) (IV_word 6) Hones) as H14.
  split; [reflexivity|]. intros i Hi. unfold work.
  destruct i as [|i]; [exact (Hw 0%nat ltac:(lia))|].
  destruct i as [|i]; [exact (Hw 1%nat ltac:(lia))|].
  destruct i as [|i]; [exact (Hw 2%nat ltac:(lia))|].
  destruct i as [|i]; [exact (Hw 3%nat ltac:(lia))|].
  destruct i as [|i]; [exact (Hw 4%nat ltac:(lia))|].
  destruct i as [|i]; [exact (Hw 5%nat ltac:(lia))|].
  destruct i as [|i]; [exact (Hw 6%nat ltac:(lia))|].
  destruct i as [|i]; [exact (Hw 7%nat ltac:(lia))|].
  do 4 (destruct i as [|i]; [split; [reflexivity|apply IV_word]|]).
  destruct i as [|i]; [split; [reflexivity|exact H12]|]. destruct i as [|i]; [split; [reflexivity|exact H13]|].
  destruct i as [|i]; [destruct last; split; first [reflexivity|exact H14|apply IV_word]|].
  destruct i as [|i]; [split; [reflexivity|apply IV_word]|]. lia.
Qed.

Lemma u32_lxor x y : is_u32 x → is_u32 y → is_u32 (Z.lxor x y).
Proof. by apply lxor_bound. Qed.

(** [compress] is the compression function F. *)
Lemma compress_is_F h f block m t last : chain_is h f →
  (∀ i, (i < 16)%nat → load_le32 block (i * 4) = m i) →
  chain_is (compress_state h block (u64 t) last) (F f m t last).
Proof.
  intros Hh Hm. unfold compress_state. fold (starting_vector h (u64 t) last).
  pose proof (starting_vector_is h f t last Hh) as Hv.
  set (message := map (λ i, load_le32 block (i * 4)) (seq 0 16)).
  assert (vector_is (fold_left (round message) kSigma (starting_vector h (u64 t) last))
                    (fold_left (cipher_round m) (seq 0 10) (work f t last))) as [_ Hw].
  { apply rounds_are; [|done]. intros i Hi. unfold message. rewrite (list_lookup_total_fmap (λ i, load_le32 block (i * 4))) by (rewrite length_seq; lia).
    rewrite lookup_total_seq_lt by lia. by apply Hm. }
  split; [by rewrite length_map, length_seq|]. intros i Hi.
  set (v := fold_left (round message) kSigma _) in *.
  rewrite (list_lookup_total_fmap (λ i, Z.lxor (h !!! i) (Z.lxor (v !!! i) (v !!! (i + 8)%nat)))) by (rewrite length_seq; lia).
  rewrite lookup_total_seq_lt by lia. cbn [Nat.add]. unfold F.
  destruct (ci_word _ _ Hh i Hi) as [-> H0]. destruct (Hw i ltac:(lia)) as [-> H1]. destruct (Hw (i + 8)%nat ltac:(lia)) as [-> H2].
  rewrite <- Z.lxor_assoc. split; [done|]. by repeat apply u32_lxor.
Qed.

Lemma chain_fixed h f : chain_is h f → chain_is h (fixed f).
Proof.
  intros [Hl Hw]. split; [done|]. intros i Hi. unfold fixed. rewrite (list_lookup_total_fmap f) by (rewrite length_seq; lia).
  rewrite lookup_total_seq_lt by lia. by apply Hw.
Qed.

(** ** Blocks and digests *)

Lemma load_le32_sum l o b0 b1 b2 b3 : l !!! o = b0 → l !!! (o + 1)%nat = b1 → l !!! (o + 2)%nat = b2 → l !!! (o + 3)%nat = b3 →
  is_u8 b0 → is_u8 b1 → is_u8 b2 → is_u8 b3 →
  load_le32 l o = b0 + 256 * b1 + 65536 * b2 + 16777216 * b3.
Proof.
  unfold load_le32. intros -> -> -> -> H0 H1 H2 H3. rewrite !Z.shiftl_mul_pow2 by lia. rewrite !u32_id by word_lia.
  rewrite <- !Z.shiftl_mul_pow2 by lia. rewrite (Z.lor_comm b0), lor_shiftl_add by word_lia.
  rewrite (Z.lor_comm (b1 * _ + _)), lor_shiftl_add by word_lia. rewrite Z.lor_comm, lor_shiftl_add by word_lia.
  lia.
Qed.

(** Byte [n] of the input, zero after its end. *)
Definition input_byte (data : list Z) (n : nat) : Z := default 0 (data !! n).

Lemma input_byte_range data n : bytes_ok data → is_u8 (input_byte data n).
Proof.
  intros Hd. unfold input_byte. destruct (data !! n) eqn:E; [|done]. by apply (Forall_lookup_1 _ _ _ _ Hd E).
Qed.

Lemma block_words data g k block : bytes_ok data → (∀ n, g n = input_byte data n) →
  (∀ n, (n < 64)%nat → block !!! n = input_byte data (64 * k + n)) →
  ∀ i, (i < 16)%nat → load_le32 block (i * 4) = word g k i.
Proof.
  intros Hd Hg Hb i Hi. unfold word. rewrite !Hg.
  apply load_le32_sum; try by apply input_byte_range.
  all: rewrite Hb by lia; f_equal; lia.
Qed.

Lemma store_le32_digits x : store_le32 x = map (λ k, x / 256 ^ Z.of_nat k mod 256) (seq 0 4).
Proof.
  unfold store_le32. change 0xFF with (Z.ones 8). rewrite !Z.land_ones by lia. rewrite !shiftr_div by lia.
  cbn [seq map]. change (256 ^ Z.of_nat 0) with 1. rewrite Z.div_1_r. reflexivity.
Qed.

Lemma digest_is h f size : chain_is h f → (size ≤ 32)%nat →
  take size (concat (map store_le32 h)) = map (digest_byte f) (seq 0 size).
Proof.
  intros [Hl Hw] Hs.
  assert (concat (map store_le32 h) = map (digest_byte f) (seq 0 32)) as ->.
  2: { rewrite firstn_map, take_seq. by rewrite Nat.min_l by lia. }
  do 8 (destruct h as [|? h]; [discriminate Hl|]). destruct h; [|discriminate Hl].
  cbn [map concat]. rewrite !store_le32_digits. unfold digest_byte.
  pose proof (λ i Hi, proj1 (Hw i Hi)) as E. clear Hw.
  pose proof (E 0%nat ltac:(lia)) as E0. pose proof (E 1%nat ltac:(lia)) as E1. pose proof (E 2%nat ltac:(lia)) as E2.
  pose proof (E 3%nat ltac:(lia)) as E3. pose proof (E 4%nat ltac:(lia)) as E4. pose proof (E 5%nat ltac:(lia)) as E5.
  pose proof (E 6%nat ltac:(lia)) as E6. pose proof (E 7%nat ltac:(lia)) as E7. clear E Hl.
  cbn in E0, E1, E2, E3, E4, E5, E6, E7. subst. reflexivity.
Qed.

(** ** The whole message *)

Lemma input_bytes key message n : (length key ≤ 32)%nat → byte_at key message n = input_byte (key_block key ++ message) n.
Proof.
  intros Hk. unfold byte_at, input_byte, key_block. destruct key as [|x key]; [done|].
  set (k := x :: key) in *. assert (length (pad_block k) = 64%nat) as Hl.
  { unfold pad_block. rewrite length_app, length_replicate. unfold kBlockSize. lia. }
  destruct (Nat.ltb_spec n 64) as [Hn|Hn].
  - rewrite lookup_app_l by lia. unfold pad_block. destruct (decide (n < length k)%nat) as [Hin|Hout].
    + by rewrite lookup_app_l.
    + rewrite lookup_app_r, (lookup_ge_None_2 k) by lia. rewrite lookup_replicate_2; [done|unfold kBlockSize; lia].
  - rewrite lookup_app_r by lia. by rewrite Hl.
Qed.

Lemma input_size key message : (length key ≤ 32)%nat → padded_size key message = length (key_block key ++ message).
Proof.
  intros Hk. unfold padded_size, key_block. destruct key as [|x key]; [done|].
  rewrite length_app. unfold pad_block. rewrite length_app, length_replicate. unfold kBlockSize. lia.
Qed.

Section chaining.
Context (data : list Z) (data_bytes : bytes_ok data) (g : nat → Z) (g_input : ∀ n, g n = input_byte data n).

(** The chaining values of the RFC over the blocks of [data]. *)
Definition rfc_block (h : nat → Z) (k : nat) : nat → Z := fixed (F h (word g k) (64 * (Z.of_nat k + 1)) false).
Definition rfc_last (h : nat → Z) : nat → Z :=
  fixed (F h (word g (block_count (length data) - 1)) (Z.of_nat (length data)) true).

Lemma full_block k : (64 * k + 64 ≤ length data)%nat →
  ∀ i, (i < 16)%nat → load_le32 (take 64 (drop (64 * k) data)) (i * 4) = word g k i.
Proof.
  intros Hk. apply (block_words data); [done|done|]. intros n Hn. unfold input_byte. rewrite list_lookup_total_alt.
  rewrite lookup_take_lt, lookup_drop by done. by destruct (lookup_lt_is_Some_2 data (64 * k + n) ltac:(lia)) as [x ->].
Qed.

Lemma last_block k : (length data ≤ 64 * k + 64)%nat →
  ∀ i, (i < 16)%nat → load_le32 (pad_block (drop (64 * k) data)) (i * 4) = word g k i.
Proof.
  intros Hk. apply (block_words data); [done|done|]. intros n Hn. unfold input_byte, pad_block. rewrite list_lookup_total_alt.
  destruct (decide (n < length (drop (64 * k) data))%nat) as [Hin|Hout].
  - rewrite lookup_app_l, lookup_drop by done. rewrite length_drop in Hin.
    by destruct (lookup_lt_is_Some_2 data (64 * k + n) ltac:(lia)) as [x ->].
  - rewrite lookup_app_r by lia. rewrite length_drop in Hout |- *. rewrite (lookup_ge_None_2 data) by lia.
    rewrite lookup_replicate_2; [done|unfold kBlockSize; lia].
Qed.

Lemma absorb_is_rfc fuel : ∀ k h f,
  (length data - 64 * k < fuel)%nat → (k < block_count (length data))%nat → chain_is h f →
  chain_is (absorb fuel h (u64 (64 * Z.of_nat k)) (drop (64 * k) data))
           (rfc_last (fold_left rfc_block (seq k (block_count (length data) - 1 - k)) f)).
Proof.
  induction fuel as [|fuel IH]; intros k h f Hf Hk Hh; [lia|]. cbn [absorb]. rewrite length_drop.
  assert (block_count (length data) = Nat.max 1 ((length data + 63) / 64)) as Hdd by reflexivity.
  pose proof (Nat.div_mod (length data + 63) 64 ltac:(lia)) as Hdiv. pose proof (Nat.mod_upper_bound (length data + 63) 64 ltac:(lia)) as Hmod.
  unfold kBlockSize. destruct (Nat.leb_spec (length data - 64 * k) 64) as [Hle|Hgt].
  - assert (block_count (length data) = S k) as E by lia.
    replace (block_count (length data) - 1 - k)%nat with 0%nat by lia. cbn [seq fold_left]. unfold rfc_last. rewrite E.
    replace (S k - 1)%nat with k by lia. apply chain_fixed.
    replace (u64 (u64 (64 * Z.of_nat k) + blen (drop (64 * k) data))) with (u64 (Z.of_nat (length data))).
    + apply compress_is_F; [done|]. apply last_block. lia.
    + unfold u64, blen. rewrite Zplus_mod_idemp_l. f_equal. rewrite length_drop. lia.
  - replace (block_count (length data) - 1 - k)%nat with (S (block_count (length data) - 1 - S k)) by lia. cbn [seq fold_left].
    assert (u64 (u64 (64 * Z.of_nat k) + 64) = u64 (64 * (Z.of_nat k + 1))) as ->.
    { unfold u64. rewrite Zplus_mod_idemp_l. f_equal. lia. }
    replace (u64 (64 * (Z.of_nat k + 1))) with (u64 (64 * Z.of_nat (S k))) at 2 by (f_equal; lia).
    rewrite drop_drop. replace (64 * k + 64)%nat with (64 * S k)%nat by lia.
    apply IH; [lia|lia|]. apply chain_fixed, compress_is_F; [done|]. apply full_block. lia.
Qed.
End chaining.

Lemma initial_chain size key_length : (key_length ≤ 32)%nat → (size ≤ 32)%nat →
  chain_is (initial_state size key_length)
    (fixed (λ i, if Nat.eqb i 0 then Z.lxor (IV 0) (0x01010000 + 256 * Z.of_nat key_length + Z.of_nat size) else IV i)).
Proof.
  intros Hk Hs. apply chain_fixed. split; [done|]. intros i Hi. unfold initial_state. destruct (Nat.eqb_spec i 0) as [->|Hne].
  - split; [reflexivity|]. apply u32_lxor; [apply IV_word|unfold is_u32; lia].
  - rewrite list_lookup_total_insert_ne by done. rewrite vector_is_IV, (list_lookup_total_fmap IV) by (rewrite length_seq; lia).
    rewrite lookup_total_seq_lt by lia. split; [done|apply IV_word].
Qed.

(** The chained compression function of the code is the hash of the RFC. *)
Lemma chain_is_rfc size key message : (size ≤ 32)%nat → (length key ≤ 32)%nat → bytes_ok key → bytes_ok message →
  blake2s_chain size key message = blake2s size key message.
Proof.
  intros Hs Hk Hbk Hbm. set (data := key_block key ++ message).
  assert (bytes_ok data) as Hd.
  { apply bytes_ok_app. split; [|done]. unfold key_block. destruct key; [constructor|].
    apply bytes_ok_app. split; [done|]. by apply Forall_replicate. }
  pose proof (absorb_is_rfc data Hd (byte_at key message) (λ n, input_bytes key message n Hk) (S (length data)) 0 _ _ ltac:(lia)
    ltac:(unfold block_count; lia) (initial_chain size (length key) Hk Hs)) as Hc.
  change (64 * 0)%nat with 0%nat in Hc. change (u64 (64 * Z.of_nat 0)) with 0 in Hc. rewrite drop_0, Nat.sub_0_r in Hc.
  unfold blake2s_chain, absorb_all. fold data. rewrite (digest_is _ _ size Hc Hs). unfold blake2s.
  rewrite (input_size key message Hk). reflexivity.
Qed.

Lemma hash_is_chain message key : (length key ≤ 32)%nat → hash message key = blake2s_chain 32 key message.
Proof.
  intros Hk. unfold hash. pose proof (streamed_hash 32 key [message] zero_digest ltac:(lia) Hk) as E.
  cbn [fold_left concat] in E. rewrite app_nil_r in E. unfold kMaximumDigestSize in *. rewrite E.
  pose proof (length_blake2s_chain 32 key message ltac:(lia)) as Hl.
  unfold copy_into, zero_digest. rewrite length_replicate, take_0, take_ge by (unfold kMaximumDigestSize; lia).
  rewrite Hl. simpl. by rewrite app_nil_r.
Qed.

(** C36. However a message is cut into pieces, the incremental hash of the
    pieces, with any digest size up to 32 and any key up to 32 bytes, is the
    hash of RFC 7693 on the whole message, written to as much of the output
    buffer as there is; the one-shot [hash] is the case of one piece.  The
    reference [Rfc7693.blake2s] is written from the RFC and shares no
    definition with the code: it computes its initialisation vector from the
    primes and has its own schedule, mixing, counters and padding. *)
Theorem blake2s_streaming size key chunks out : (1 ≤ size ≤ 32)%nat → (length key ≤ 32)%nat →
  bytes_ok key → Forall bytes_ok chunks →
  (finish (fold_left update chunks (new_blake2s size key)) out).2 =
    copy_into out 0 (take (length out) (Rfc7693.blake2s size key (concat chunks))) ∧
  length (Rfc7693.blake2s size key (concat chunks)) = size ∧
  hash (concat chunks) key = Rfc7693.blake2s 32 key (concat chunks).
Proof.
  intros Hs Hk Hbk Hbc. assert (bytes_ok (concat chunks)) as Hb by by apply Forall_concat.
  rewrite <- !chain_is_rfc by (done || lia). split; [by apply streamed_hash|]. split; [apply length_blake2s_chain; lia|].
  by apply hash_is_chain.
Qed.
Lemma blake2s_streaming_witness :
  (finish (fold_left update [[1; 2]; []; seqZ 0 130] (new_blake2s 16 [7])) (replicate 16 0)).2 =
  Rfc7693.blake2s 16 [7] ([1; 2] ++ seqZ 0 130).
Proof.
  destruct (blake2s_streaming 16 [7] [[1; 2]; []; seqZ 0 130] (replicate 16 0)) as [E _].
  - lia.
  - simpl; lia.
  - repeat constructor; discriminate.
  - repeat constructor; discriminate.
  - rewrite E. vm_compute. reflexivity.
Defined.

(** ** HMAC of RFC 2104 and HKDF of RFC 5869 *)

Abbreviation blake2s_256 := (blake2s_chain 32 []).

Definition hmac_spec (key message : list Z) : list Z :=
  let k := pad_block (if Nat.ltb 64 (length key) then blake2s_256 key else key) in
  blake2s_256 (pad_with 0x5C k ++ blake2s_256 (pad_with 0x36 k ++ message)).

(** The blocks T(0), T(1), ... of the expansion. *)
Fixpoint hkdf_block (key info : list Z) (i : nat) : list Z :=
  match i with
  | O => []
  | S j => hmac_spec key (hkdf_block key info j ++ info ++ [Z.of_nat i])
  end.

Definition hkdf_spec (key info : list Z) (length : nat) : list Z :=
  take length (concat (map (hkdf_block key info) (seq 1 255))).

Lemma finish_digest chunks out : length out = 32%nat →
  (finish (fold_left update chunks (new_blake2s kMaximumDigestSize [])) out).2 = blake2s_256 (concat chunks).
Proof.
  intros Ho. unfold kMaximumDigestSize. rewrite streamed_hash by (simpl; lia).
  pose proof (length_blake2s_chain 32 [] (concat chunks) ltac:(lia)) as Hl.
  unfold copy_into. rewrite take_0, Ho, take_ge, drop_ge by lia. by rewrite app_nil_r.
Qed.

Lemma hash_spec message : hash message [] = blake2s_256 message.
Proof.
  unfold hash. pose proof (finish_digest [message] zero_digest eq_refl) as E.
  cbn [fold_left concat] in E. rewrite E. by rewrite app_nil_r.
Qed.

Lemma length_blake2s_256 message : length (blake2s_256 message) = 32%nat.
Proof. by apply length_blake2s_chain. Qed.

Lemma padded_key_spec key :
  padded_key key = pad_block (if Nat.ltb 64 (length key) then blake2s_256 key else key).
Proof.
  unfold padded_key, kBlockSize. rewrite hash_spec.
  destruct (Nat.ltb 64 (length key)); unfold copy_into, pad_block, kBlockSize;
    by rewrite take_0, drop_replicate.
Qed.

(** Both keyed hashes of the code, inner pieces in any number. *)
Lemma keyed_hash key chunks out : length out = 32%nat →
  (finish (update (update (new_blake2s kMaximumDigestSize []) (pad_with 0x5C (padded_key key)))
    (finish (fold_left update chunks
       (update (new_blake2s kMaximumDigestSize []) (pad_with 0x36 (padded_key key)))) zero_digest).2) out).2 =
  hmac_spec key (concat chunks).
Proof.
  intros Ho. unfold hmac_spec. rewrite <- padded_key_spec.
  pose proof (finish_digest (pad_with 0x36 (padded_key key) :: chunks) zero_digest eq_refl) as E1.
  cbn [fold_left concat] in E1. rewrite E1.
  set (d := blake2s_256 (pad_with 0x36 (padded_key key) ++ concat chunks)).
  pose proof (finish_digest [pad_with 0x5C (padded_key key); d] out Ho) as E2.
  cbn [fold_left concat] in E2. rewrite E2. by rewrite app_nil_r.
Qed.

Lemma hmac_blake2s_spec key message : hmac_blake2s key message = hmac_spec key message.
Proof.
  pose proof (keyed_hash key [message] zero_digest eq_refl) as E.
  cbn [fold_left concat] in E. rewrite app_nil_r in E. exact E.
Qed.

Lemma length_hkdf_block key info i : length (hkdf_block key info (S i)) = 32%nat.
Proof. cbn [hkdf_block]. apply length_blake2s_256. Qed.

(** What a turn computes is the next block. *)
Lemma expand_turn key info previous i : length previous = 32%nat →
  (i = 0%nat ∨ previous = hkdf_block key info i) →
  let inner := update (new_blake2s kMaximumDigestSize []) (pad_with 0x36 (padded_key key)) in
  let inner := if 1 <? Z.of_nat (S i) then update inner previous else inner in
  let inner := update (update inner info) [Z.of_nat (S i)] in
  (finish (update (update (new_blake2s kMaximumDigestSize []) (pad_with 0x5C (padded_key key)))
     (finish inner zero_digest).2) previous).2 = hkdf_block key info (S i).
Proof.
  intros Hl Hp. cbv zeta. cbn [hkdf_block]. destruct (Z.ltb_spec 1 (Z.of_nat (S i))) as [Hlt|Hge].
  - destruct Hp as [->|Hp]; [lia|]. rewrite <- Hp.
    pose proof (keyed_hash key [previous; info; [Z.of_nat (S i)]] previous Hl) as E.
    cbn [fold_left concat] in E. rewrite E. by rewrite app_nil_r.
  - destruct i; [|lia]. pose proof (keyed_hash key [info; [Z.of_nat 1]] previous Hl) as E.
    cbn [fold_left concat] in E. rewrite E. by rewrite app_nil_r.
Qed.

Lemma expand_loop_spec key info fuel : ∀ i previous counter produced out,
  (fuel + i = 255)%nat → (fuel ≠ 0%nat → counter = Z.of_nat (S i)) →
  length previous = 32%nat → (i = 0%nat ∨ previous = hkdf_block key info i) →
  (produced ≤ length out)%nat → (length out - produced ≤ 32 * fuel)%nat →
  expand_loop fuel key info previous counter produced out =
  take produced out ++ take (length out - produced) (concat (map (hkdf_block key info) (seq (S i) fuel))).
Proof.
  induction fuel as [|fuel IH]; intros i previous counter produced out Hf Hc Hl Hp Hle Hroom.
  { cbn [expand_loop seq map concat]. rewrite take_nil, app_nil_r, take_ge by lia. done. }
  cbn [expand_loop]. destruct (Nat.ltb_spec produced (length out)) as [Hlt|Hge].
  2:{ replace (length out - produced)%nat with 0%nat by lia. rewrite take_0, app_nil_r, take_ge by lia. done. }
  rewrite Hc by done. pose proof (expand_turn key info previous i Hl Hp) as Et. cbv zeta in Et. rewrite Et.
  clear Et. pose proof (length_hkdf_block key info i) as Hb. set (T := hkdf_block key info (S i)) in *.
  set (n := Nat.min kMaximumDigestSize (length out - produced)).
  assert (length (take n T) = n) as Hn.
  { rewrite length_take, Hb. unfold n, kMaximumDigestSize. lia. }
  assert (n ≤ 32 ∧ n ≤ length out - produced)%nat as Hn' by (unfold n, kMaximumDigestSize; lia).
  assert (length (copy_into out produced (take n T)) = length out) as Hco.
  { apply copy_into_length. lia. }
  rewrite (IH (S i)); rewrite ?Hco; [|lia| |done|by right|lia|].
  - rewrite <- Hn at 1. rewrite take_copy_into by lia. rewrite <- app_assoc. f_equal.
    cbn [seq map concat]. fold T. rewrite take_app, Hb.
    destruct (Nat.le_gt_cases 32 (length out - produced)) as [Hbig|Hsmall].
    + assert (n = 32%nat) as -> by (unfold n, kMaximumDigestSize; lia).
      rewrite !(take_ge T) by lia. f_equal. f_equal. lia.
    + assert (n = length out - produced)%nat as -> by (unfold n, kMaximumDigestSize; lia).
      f_equal. by replace (length out - produced - 32)%nat with 0%nat by lia;
        replace (length out - (produced + (length out - produced)))%nat with 0%nat by lia.
  - intros Hne. rewrite u8_id; [lia|word_lia].
  - unfold n, kMaximumDigestSize. lia.
Qed.

Lemma hkdf_expand_spec key info out : hkdf_expand key info out =
  if 255 * 32 <? blen out then None else Some (hkdf_spec key info (length out)).
Proof.
  unfold hkdf_expand.
  destruct (Z.ltb_spec (255 * 32) (blen out)) as [|Hle]; [done|]. f_equal.
  rewrite (expand_loop_spec key info 255 0); try done; unfold blen in *.
  - rewrite take_0. cbn [app]. unfold hkdf_spec. by rewrite Nat.sub_0_r.
  - by left.
  - lia.
  - lia.
Qed.

(** [hmac_blake2s] is HMAC of RFC 2104 over BLAKE2s; [hkdf_expand] fills
    the whole output with the expansion of RFC 5869 when at most 255 blocks
    are asked for, and reports failure otherwise: its 8-bit block counter
    never wraps. *)
Lemma hkdf_expand_is_rfc5869 key info message out :
  hmac_blake2s key message = hmac_spec key message ∧
  hkdf_expand key info out =
    if 255 * 32 <? blen out then None else Some (hkdf_spec key info (length out)).
Proof. split; [apply hmac_blake2s_spec|apply hkdf_expand_spec]. Qed.
