(* ===== verification/Crypto.v ===== *)
(** Traffic keys: [TrafficKeys] and the cache of cipher contexts of [src/crypto.cpp].

    ChaCha20-Poly1305 itself is code of OpenSSL and libsodium.  It is a
    parameter here, the class [Aead], with what the two libraries document of
    it in [AeadLaws]; the calls' status codes are arguments ([Status]).  The
    theorem shows that the cache never hands out a context loaded with another
    key, so that sealing and opening through either library is the cipher
    under the key of the session. *)

From S2P Require Import Prelude Packet Nonce Blake2s.

Inductive CryptoError :=
| unsupported_platform | initialisation_failed | authentication_failed | buffer_too_small
| invalid_key_length | invalid_nonce | counter_exhausted | weak_public_key.

#[export] Instance CryptoError_eq_dec : EqDecision CryptoError.
Proof. solve_decision. Defined.

Definition kAeadTagSize : Z := 16.
Definition kAeadNonceSize : nat := 12.
Definition kKeyLength : nat := 32.

Abbreviation TrafficKey := (list Z) (only parsing).
Definition zero_key : TrafficKey := replicate kKeyLength 0.

(** ** The cipher *)

Class Aead := {
  aead_encrypt : TrafficKey → list Z → list Z → list Z → list Z;
  aead_decrypt : TrafficKey → list Z → list Z → list Z → option (list Z);
}.

Class AeadLaws `{Aead} : Prop := {
  aead_size k n a p : length (aead_encrypt k n a p) = (length p + 16)%nat;
  aead_bytes k n a p : bytes_ok p → bytes_ok (aead_encrypt k n a p);
  aead_opens k n a p : aead_decrypt k n a (aead_encrypt k n a p) = Some p;
  aead_body k n a c p : aead_decrypt k n a c = Some p → length c = (length p + 16)%nat;
}.

(** The status codes of the library calls of one [seal] or [open]: a new
    context, loading a key, the [EVP_Cipher*] sequence but for the check of the
    tag, and libsodium's call. *)
Record Status := mkStatus { new_ok : bool; init_ok : bool; evp_ok : bool; sodium_ok : bool }.

(** ** [aead_nonce] *)

Fixpoint aead_nonce_loop {E} (n index : nat) (nonce : list Z) (counter : Z) : res E (list Z) :=
  match n with
  | O => Ok nonce
  | S n =>
      let* nonce := wr nonce (4 + index) (u8 (Z.shiftr counter (Z.of_nat index * 8))) in
      aead_nonce_loop n (S index) nonce counter
  end.

Definition aead_nonce {E} (counter : Z) : res E (list Z) :=
  aead_nonce_loop 8 0 (replicate kAeadNonceSize 0) counter.

(** ** [AeadContexts]

    A context is the key and direction it was last loaded with, or [None]
    before it is loaded and after loading failed. *)

Record CtxEntry := mkCtx {
  ctx_key : TrafficKey;
  ctx_encrypt : bool;
  context : option (option (TrafficKey * bool));
}.

Record AeadContexts := mkContexts {
  cipher_ : bool;
  entries_ : list CtxEntry;
  next_ : nat;
}.

Definition new_contexts (fetched : bool) : AeadContexts :=
  mkContexts fetched (replicate 8 (mkCtx zero_key false None)) 0.

(** [entry.context != nullptr && entry.encrypt == encrypt && entry.key == key] *)
Definition ctx_matches (key : TrafficKey) (encrypt : bool) (e : CtxEntry) : bool :=
  match context e with
  | None => false
  | Some _ => bool_decide (ctx_encrypt e = encrypt) && bool_decide (ctx_key e = key)
  end.

(** [get] returns what the context handed out is loaded with; [None] is
    [nullptr].  The index [next_] is always below 8. *)
Definition get (st : Status) (c : AeadContexts) (key : TrafficKey) (encrypt : bool)
    : AeadContexts * option (option (TrafficKey * bool)) :=
  if negb (cipher_ c) then (c, None)
  else match list_find (λ e, ctx_matches key encrypt e = true) (entries_ c) with
  | Some (_, e) => (c, context e)
  | None =>
      match entries_ c !! next_ c with
      | None => (c, None)
      | Some victim =>
          let put e := mkContexts (cipher_ c) (<[next_ c := e]> (entries_ c))
                         (Nat.modulo (next_ c + 1) (length (entries_ c))) in
          let fresh := match context victim with
                       | Some loaded => Some loaded
                       | None => if new_ok st then Some None else None
                       end in
          match fresh with
          | None => (put victim, None)
          | Some _ =>
              if negb (init_ok st) then (put (mkCtx zero_key (ctx_encrypt victim) (Some None)), None)
              else (put (mkCtx key encrypt (Some (Some (key, encrypt)))), Some (Some (key, encrypt)))
          end
      end
  end.

(** ** [TrafficKeys] *)

Record TrafficKeys := mkKeys { key_ : TrafficKey; generation_ : Z }.

(** The move constructor: the new object and what is left of the old one. *)
Definition move_keys (other : TrafficKeys) : TrafficKeys * TrafficKeys :=
  (mkKeys (key_ other) (generation_ other), mkKeys (replicate (length (key_ other)) 0) 0).

(** [secure_zero(buffer.first(n))] *)
Definition secure_zero (out : list Z) (n : nat) : list Z := replicate n 0 ++ drop n out.

Section keys.
Context `{Aead}.

(** [out] and the number of bytes written to it.  What the library does with
    a context that holds no key is not documented: [Ub]. *)
Definition seal (st : Status) (c : AeadContexts) (k : TrafficKeys) (counter : Z)
    (associated_data plaintext out : list Z) : AeadContexts * res CryptoError (list Z * Z) :=
  if blen out <? blen plaintext + kAeadTagSize then (c, Fail buffer_too_small)
  else
    let '(c, ctx) := get st c (key_ k) true in
    (c, let* nonce := aead_nonce counter in
        match ctx with
        | Some loaded =>
            match loaded with
            | Some (key, true) =>
                throw authentication_failed when negb (evp_ok st) else
                let* out := blit out 0 (aead_encrypt key nonce associated_data plaintext) in
                Ok (out, blen plaintext + kAeadTagSize)
            | _ => Ub
            end
        | None =>
            throw authentication_failed when negb (sodium_ok st) else
            let sealed := aead_encrypt (key_ k) nonce associated_data plaintext in
            let* out := blit out 0 sealed in
            Ok (out, blen sealed)
        end).

(** The end of [open]: the plaintext in [out], or [wipe] bytes of it zeroed. *)
Definition finish (c : AeadContexts) (out : list Z) (wipe : nat) (opened : option (list Z))
    : AeadContexts * list Z * res CryptoError Z :=
  match opened with
  | None => (c, secure_zero out (Nat.min (length out) wipe), Fail authentication_failed)
  | Some plaintext =>
      match blit (E:=CryptoError) out 0 plaintext with
      | Ok out => (c, out, Ok (blen plaintext))
      | _ => (c, out, Ub)
      end
  end.

(** [out] is returned on failure too: the bytes it may hold of a rejected
    plaintext are wiped. *)
Definition open (st : Status) (c : AeadContexts) (k : TrafficKeys) (counter : Z)
    (associated_data ciphertext out : list Z)
    : AeadContexts * list Z * res CryptoError Z :=
  if blen ciphertext <? kAeadTagSize then (c, out, Fail authentication_failed)
  else if blen out <? blen ciphertext - kAeadTagSize then (c, out, Fail buffer_too_small)
  else
    let '(c, ctx) := get st c (key_ k) false in
    match aead_nonce (E:=CryptoError) counter, ctx with
    | Ok nonce, Some (Some (key, false)) =>
        finish c out (length ciphertext - 16)
          (if evp_ok st then aead_decrypt key nonce associated_data ciphertext else None)
    | Ok nonce, None =>
        finish c out (length ciphertext)
          (if sodium_ok st then aead_decrypt (key_ k) nonce associated_data ciphertext else None)
    | _, _ => (c, out, Ub)
    end.

End keys.

(** [derive_traffic_key]: a key for a domain, a direction and a generation. *)
Definition derive_traffic_key (handshake_secret domain : list Z) (direction : KeyDirection)
    (generation : Z) : res CryptoError TrafficKey :=
  match make_key_label domain direction generation with
  | Fail _ => Fail invalid_key_length
  | Ub => Ub
  | Ok label =>
      match hkdf_expand handshake_secret (label_view label) (replicate kKeyLength 0) with
      | None => Fail invalid_key_length
      | Some key => Ok key
      end
  end.

(** [constant_time_equal], the portable loop of a build without libsodium *)
Fixpoint difference_loop (ls rs : list Z) (difference : Z) : Z :=
  match ls, rs with
  | x :: ls, y :: rs => difference_loop ls rs (u8 (Z.lor difference (Z.lxor x y)))
  | _, _ => difference
  end.

Definition constant_time_equal (ls rs : list Z) : bool :=
  if negb (blen ls =? blen rs) then false
  else difference_loop ls rs 0 =? 0.

(** ** The cache hands out the key it is asked for *)

(** Contexts filed under a key of [P] are loaded with it. *)
Record contexts_for (P : TrafficKey → Prop) (c : AeadContexts) : Prop := {
  cok_size : length (entries_ c) = 8%nat;
  cok_next : (next_ c < 8)%nat;
  cok_loaded : ∀ e loaded, e ∈ entries_ c → context e = Some loaded → P (ctx_key e) →
    loaded = Some (ctx_key e, ctx_encrypt e);
}.

(** What holds whatever the libraries answer, and what holds while loading a
    key does not fail: only the zero key, filed after a failure, is at risk. *)
Definition contexts_ok : AeadContexts → Prop := contexts_for (λ k, k ≠ zero_key).
Definition contexts_clean : AeadContexts → Prop := contexts_for (λ _, True).

Lemma new_contexts_for P fetched : contexts_for P (new_contexts fetched).
Proof.
  split; [done|simpl; lia|]. intros e l He. apply elem_of_replicate in He as [-> _]. done.
Qed.

Lemma contexts_for_put P c f e n : contexts_for P c → (n < 8)%nat →
  (∀ loaded, context e = Some loaded → P (ctx_key e) → loaded = Some (ctx_key e, ctx_encrypt e)) →
  contexts_for P (mkContexts f (<[next_ c := e]> (entries_ c)) n).
Proof.
  intros [Hs Hn Hl] Hlt He. split; simpl; [by rewrite length_insert|done|].
  intros e' l [i Hi]%list_elem_of_lookup. apply list_lookup_insert_Some in Hi as [(_ & <- & _)|[_ Hi]].
  - apply He.
  - apply Hl. by eapply list_elem_of_lookup_2.
Qed.

(** No context, or one loaded with the key and direction asked for. *)
Definition served (key : TrafficKey) (encrypt : bool) (ctx : option (option (TrafficKey * bool))) : Prop :=
  ctx = None ∨ ctx = Some (Some (key, encrypt)).

Lemma get_for P st c key encrypt : contexts_for P c → init_ok st = true ∨ ¬ P zero_key →
  contexts_for P (get st c key encrypt).1 ∧ (P key → served key encrypt (get st c key encrypt).2).
Proof.
  intros Hc Hinit. unfold get, served. destruct (cipher_ c) eqn:Hf; simpl; [|by auto].
  destruct (list_find _ _) as [[i e]|] eqn:Hfind; simpl.
  - apply list_find_Some in Hfind as (Hi & Hm & _). split; [done|]. intros Hk.
    unfold ctx_matches in Hm. destruct (context e) as [l|] eqn:Hl; [|done].
    reflect_bools. apply bool_decide_eq_true in H as <-, H0 as <-. right.
    by rewrite (cok_loaded _ _ Hc e l (list_elem_of_lookup_2 _ _ _ Hi) Hl Hk).
  - destruct (lookup_lt_is_Some_2 (entries_ c) (next_ c)) as [victim Hv].
    { rewrite (cok_size _ _ Hc). apply Hc. }
    rewrite Hv, (cok_size _ _ Hc).
    assert ((next_ c + 1) mod 8 < 8)%nat as Hn by (apply Nat.mod_upper_bound; lia).
    destruct (context victim) as [l|] eqn:Hl; [|destruct (new_ok st)]; [destruct (init_ok st) eqn:Ei..|];
      simpl; (split; [apply contexts_for_put|]); simpl; auto; try done; try (intros ? [= <-]; done);
      try (intros ? _ Hz; by destruct Hinit). congruence.
Qed.

(** The contexts a thread can have: any sequence of requests, with any answers. *)
Fixpoint requests (rs : list (Status * TrafficKey * bool)) (c : AeadContexts) : AeadContexts :=
  match rs with
  | [] => c
  | (st, key, encrypt) :: rs => requests rs (get st c key encrypt).1
  end.

Lemma requests_ok rs : ∀ c, contexts_ok c → contexts_ok (requests rs c).
Proof.
  induction rs as [|[[st key] e] rs IH]; intros c Hc; [done|]. simpl. apply IH, get_for; [done|by right; intros Hz].
Qed.

(** ** Sealing and opening are the cipher under the session's key *)

(** The nonce of a counter. *)
Definition nonce_of (counter : Z) : list Z := replicate 4 0 ++ le_bytes 8 counter.

Lemma aead_nonce_spec {E} counter : aead_nonce (E:=E) counter = Ok (nonce_of counter).
Proof. apply (make_nonce_spec (E:=E)). Qed.

(** No library call failed. *)
Definition healthy (st : Status) : bool := evp_ok st && sodium_ok st.

Section specs.
Context `{AeadLaws}.

Lemma seal_served st c k counter a p out : served (key_ k) true (get st c (key_ k) true).2 →
  blen p + kAeadTagSize ≤ blen out →
  (seal st c k counter a p out).1 = (get st c (key_ k) true).1 ∧
  ((seal st c k counter a p out).2 =
     Ok (aead_encrypt (key_ k) (nonce_of counter) a p ++ drop (length p + 16) out,
         blen p + kAeadTagSize) ∨
   (healthy st = false ∧ (seal st c k counter a p out).2 = Fail authentication_failed)).
Proof.
  intros Hget Hroom. unfold seal. rewrite (proj2 (Z.ltb_ge _ _) Hroom).
  destruct (get st c (key_ k) true) as [c' ctx]. cbn [fst snd] in *. split; [done|].
  rewrite aead_nonce_spec. cbn [rbind]. unfold kAeadTagSize, blen in *.
  pose proof (aead_size (key_ k) (nonce_of counter) a p) as Hsz. unfold healthy, guard.
  destruct Hget as [->| ->].
  - destruct (sodium_ok st); [|right; by rewrite andb_false_r]. left. cbn [negb].
    rewrite blit_ok by lia. cbn [rbind take app Nat.add]. rewrite Hsz. repeat f_equal. lia.
  - destruct (evp_ok st); [|by right]. left. cbn [negb].
    rewrite blit_ok by lia. cbn [rbind take app Nat.add]. by rewrite Hsz.
Qed.

Lemma seal_spec st c k counter a p out : contexts_ok c → key_ k ≠ zero_key →
  blen p + kAeadTagSize ≤ blen out →
  contexts_ok (seal st c k counter a p out).1 ∧
  ((seal st c k counter a p out).2 =
     Ok (aead_encrypt (key_ k) (nonce_of counter) a p ++ drop (length p + 16) out,
         blen p + kAeadTagSize) ∨
   (healthy st = false ∧ (seal st c k counter a p out).2 = Fail authentication_failed)).
Proof.
  intros Hc Hk Hroom. destruct (get_for _ st c (key_ k) true Hc) as [Hc' Hget]; [by right; intros Hz|].
  destruct (seal_served st c k counter a p out (Hget Hk) Hroom) as [-> Hr]. done.
Qed.

(** With every call answered, under any key. *)
Lemma seal_clean st c k counter a p out : contexts_clean c → init_ok st = true → healthy st = true →
  blen p + kAeadTagSize ≤ blen out →
  ∃ c', contexts_clean c' ∧ seal st c k counter a p out =
    (c', Ok (aead_encrypt (key_ k) (nonce_of counter) a p ++ drop (length p + 16) out,
             blen p + kAeadTagSize)).
Proof.
  intros Hc Hi Hst Hroom. destruct (get_for _ st c (key_ k) true Hc) as [Hc' Hget]; [by left|].
  destruct (seal_served st c k counter a p out (Hget I) Hroom) as [E1 [E2|[E2 _]]]; [|congruence].
  exists (get st c (key_ k) true).1. split; [done|].
  destruct (seal st c k counter a p out). simpl in *. by subst.
Qed.

(** What [open] leaves in the buffer and reports, given the cipher's verdict. *)
Definition opened_as (out : list Z) (r : list Z * res CryptoError Z) (body : nat) (v : option (list Z)) : Prop :=
  match v with
  | Some p => r = (p ++ drop (length p) out, Ok (blen p))
  | None => r.2 = Fail authentication_failed ∧ take body r.1 = replicate body 0 ∧
            length r.1 = length out
  end.

Lemma finish_spec c out body wipe v : (body ≤ wipe)%nat → (body ≤ length out)%nat →
  (∀ p, v = Some p → (length p = body)%nat) →
  (finish c out wipe v).1.1 = c ∧
  opened_as out ((finish c out wipe v).1.2, (finish c out wipe v).2) body v.
Proof.
  intros Hw Hb Hp. unfold finish. destruct v as [p|]; simpl.
  - rewrite blit_ok by (rewrite (Hp p eq_refl); simpl; lia). done.
  - split; [done|]. split; [done|]. unfold secure_zero. split.
    + rewrite take_app_le by (rewrite length_replicate; lia). rewrite take_replicate. f_equal. lia.
    + rewrite length_app, length_replicate, length_drop. lia.
Qed.

Lemma open_served st c k counter a ct out : served (key_ k) false (get st c (key_ k) false).2 →
  kAeadTagSize ≤ blen ct → blen ct - kAeadTagSize ≤ blen out →
  let r := open st c k counter a ct out in
  r.1.1 = (get st c (key_ k) false).1 ∧
  (opened_as out (r.1.2, r.2) (length ct - 16) (aead_decrypt (key_ k) (nonce_of counter) a ct) ∨
   (healthy st = false ∧ opened_as out (r.1.2, r.2) (length ct - 16) None)).
Proof.
  intros Hget Htag Hroom. unfold open.
  rewrite (proj2 (Z.ltb_ge _ _) Htag), (proj2 (Z.ltb_ge _ _) Hroom). cbv zeta.
  destruct (get st c (key_ k) false) as [c' ctx]. cbn [fst snd] in *.
  rewrite aead_nonce_spec. unfold healthy, kAeadTagSize, blen in *.
  assert (∀ p, aead_decrypt (key_ k) (nonce_of counter) a ct = Some p →
    length p = (length ct - 16)%nat) as Hlen.
  { intros p Hp%aead_body. lia. }
  destruct Hget as [->| ->]; [destruct (sodium_ok st)|destruct (evp_ok st)];
    match goal with |- context [finish ?c ?o ?w ?v] =>
      destruct (finish_spec c o (length ct - 16) w v) as [E1 E2]; [lia|lia|done|] end;
    rewrite E1; split; auto. right. by rewrite andb_false_r.
Qed.

Lemma open_spec st c k counter a ct out : contexts_ok c → key_ k ≠ zero_key →
  kAeadTagSize ≤ blen ct → blen ct - kAeadTagSize ≤ blen out →
  let r := open st c k counter a ct out in
  contexts_ok r.1.1 ∧
  (opened_as out (r.1.2, r.2) (length ct - 16) (aead_decrypt (key_ k) (nonce_of counter) a ct) ∨
   (healthy st = false ∧ opened_as out (r.1.2, r.2) (length ct - 16) None)).
Proof.
  intros Hc Hk Htag Hroom. destruct (get_for _ st c (key_ k) false Hc) as [Hc' Hget]; [by right; intros Hz|].
  cbv zeta. destruct (open_served st c k counter a ct out (Hget Hk) Htag Hroom) as [E Hr].
  by rewrite E.
Qed.

(** With every call answered, what was sealed is opened. *)
Lemma open_clean st c k counter a p out : contexts_clean c → init_ok st = true → healthy st = true →
  blen p ≤ blen out →
  ∃ c', contexts_clean c' ∧
    open st c k counter a (aead_encrypt (key_ k) (nonce_of counter) a p) out =
    (c', p ++ drop (length p) out, Ok (blen p)).
Proof.
  intros Hc Hi Hst Hroom. destruct (get_for _ st c (key_ k) false Hc) as [Hc' Hget]; [by left|].
  pose proof (aead_size (key_ k) (nonce_of counter) a p) as Hsz.
  destruct (open_served st c k counter a (aead_encrypt (key_ k) (nonce_of counter) a p) out (Hget I))
    as [E1 [E2|[E2 _]]]; [unfold blen, kAeadTagSize in *; lia..| |congruence].
  rewrite aead_opens in E2. cbn [opened_as] in E2. exists (get st c (key_ k) false).1. split; [done|].
  destruct (open _ _ _ _ _ _ _) as [[? ?] ?]. simpl in *. by simplify_eq.
Qed.

End specs.

(** C31. Whatever requests a thread's context cache has served before and
    whatever the libraries answered, a seal under a non-zero key with room in
    the buffer writes the ciphertext of the cipher under that key and the
    counter's nonce, and fails only when a library call failed; an open
    yields the cipher's verdict under that key, and every byte a rejected
    plaintext could have occupied is zero afterwards. *)
Theorem sealed_under_own_key `{AeadLaws} fetched rs st k counter a : key_ k ≠ zero_key →
  let c := requests rs (new_contexts fetched) in
  (∀ p out, blen p + kAeadTagSize ≤ blen out →
    (seal st c k counter a p out).2 =
      Ok (aead_encrypt (key_ k) (nonce_of counter) a p ++ drop (length p + 16) out,
          blen p + kAeadTagSize) ∨
    (healthy st = false ∧ (seal st c k counter a p out).2 = Fail authentication_failed)) ∧
  (∀ ct out, kAeadTagSize ≤ blen ct → blen ct - kAeadTagSize ≤ blen out →
    let r := open st c k counter a ct out in
    opened_as out (r.1.2, r.2) (length ct - 16) (aead_decrypt (key_ k) (nonce_of counter) a ct) ∨
    (healthy st = false ∧ opened_as out (r.1.2, r.2) (length ct - 16) None)).
Proof.
  intros Hk c. assert (contexts_ok c) as Hc by apply requests_ok, new_contexts_for. split.
  - intros p out Hroom. by apply seal_spec.
  - intros ct out Htag Hroom. by apply open_spec.
Qed.

(** A cipher that meets the laws: the tag is the key, the nonce and the
    associated data, cut to 16 bytes. *)
(** A library that answers every call. *)
Definition all_well : Status := mkStatus true true true true.

Definition toy_tag (k n a : list Z) : list Z :=
  map u8 (take 16 (k ++ n ++ a ++ replicate 16 0)).

Definition toy_aead : Aead := {|
  aead_encrypt k n a p := p ++ toy_tag k n a;
  aead_decrypt k n a c :=
    let p := take (length c - 16) c in
    if decide (c = p ++ toy_tag k n a ∧ (16 ≤ length c)%nat) then Some p else None;
|}.

Lemma length_toy_tag k n a : length (toy_tag k n a) = 16%nat.
Proof. unfold toy_tag. rewrite length_map, length_take, !length_app, length_replicate. lia. Qed.

Lemma toy_laws : AeadLaws (H := toy_aead).
Proof.
  split; simpl.
  - intros k n a p. by rewrite length_app, length_toy_tag.
  - intros k n a p Hp. apply bytes_ok_app. split; [done|]. unfold toy_tag, bytes_ok.
    rewrite Forall_map. apply Forall_true. intros x. apply u8_range.
  - intros k n a p. rewrite length_app, length_toy_tag.
    replace (length p + 16 - 16)%nat with (length p) by lia. rewrite take_app_length.
    rewrite decide_True; [done|]. split; [done|lia].
  - intros k n a c p. case_decide as Hd; [|done]. intros [= <-]. rewrite length_take. lia.
Qed.

Lemma sealed_under_own_key_witness :
  let k := mkKeys (replicate 32 7) 0 in
  let st := mkStatus true true true true in
  let c := requests [(st, replicate 32 9, true)] (new_contexts true) in
  (seal (H := toy_aead) st c k 5 [1] [2; 3] (replicate 20 0)).2 =
    Ok ([2; 3] ++ replicate 16 7 ++ [0; 0], 18).
Proof.
  intros k st c. destruct (sealed_under_own_key (H0 := toy_laws) true [(st, replicate 32 9, true)] st k 5 [1])
    as [Hs _]; [vm_compute; congruence|].
  destruct (Hs [2; 3] (replicate 20 0)) as [E|[E _]]; [vm_compute; congruence| |].
  - unfold c. rewrite E. vm_compute. reflexivity.
  - vm_compute in E. discriminate E.
Defined.


(** ** The portable comparison is equality of byte strings *)

Lemma difference_loop_zero ls : ∀ rs d, length ls = length rs → bytes_ok ls → bytes_ok rs → is_u8 d →
  difference_loop ls rs d = 0 ↔ d = 0 ∧ ls = rs.
Proof.
  induction ls as [|x ls IH]; intros [|y rs] d Hlen Hl Hr Hd; simplify_eq/=; [tauto|].
  apply Forall_cons_1 in Hl as [Hx Hl], Hr as [Hy Hr].
  assert (is_u8 (Z.lxor x y)) as Hxy by (apply (lxor_bound _ _ 8); [lia|done..]).
  rewrite u8_id by (apply (lor_bound _ _ 8); [lia|done..]).
  rewrite IH; [|done..|apply (lor_bound _ _ 8); [lia|done..]].
  rewrite Z.lor_eq_0_iff, Z.lxor_eq_0_iff. split; [|naive_solver].
  by intros [[-> ->] ->].
Qed.

Lemma constant_time_equal_iff ls rs : bytes_ok ls → bytes_ok rs →
  constant_time_equal ls rs = true ↔ ls = rs.
Proof.
  intros Hl Hr. unfold constant_time_equal, blen.
  destruct (Z.eqb_spec (Z.of_nat (length ls)) (Z.of_nat (length rs))) as [E|E]; cbn [negb].
  - rewrite Z.eqb_eq, difference_loop_zero; [naive_solver|lia|done..|word_lia].
  - split; [done|]. intros ->. lia.
Qed.

(** A derived key is the first block of the expansion under the label. *)
Lemma derive_traffic_key_spec secret domain direction generation label :
  make_key_label domain direction generation = Ok label →
  derive_traffic_key secret domain direction generation =
  Ok (hmac_spec secret (label_view label ++ [1])).
Proof.
  intros E. unfold derive_traffic_key. rewrite E.
  rewrite hkdf_expand_spec.
  cbn [blen replicate length kKeyLength Z.ltb]. f_equal. unfold hkdf_spec.
  change (seq 1 255) with (1%nat :: seq 2 254). cbn [map concat].
  apply (take_app_length' _ _ 32). symmetry. apply length_blake2s_256.
Qed.
