(* ===== verification/Noise.v ===== *)
(** The Noise_IKpsk2_25519_ChaChaPoly_BLAKE2s handshake: [src/noise.cpp] and
    the Diffie-Hellman functions of [src/crypto.cpp].

    Curve25519 is libsodium's, the class [Dh] with the law that both sides
    compute the same secret.  A member function is a [step]: it takes the
    thread's cipher contexts and the object and returns both with its result,
    so an early return leaves the object as far as the code got.  The [Status]
    arguments are the answers of the cipher library, one per call. *)

From Stdlib Require Import String.
From S2P Require Import Prelude Packet Nonce Handshake Blake2s Crypto.

Module NoiseError.
Inductive t :=
| unsupported_platform | invalid_state | decryption_failed | message_too_short | message_too_large
| buffer_too_small | bad_public_key | missing_static_key | missing_remote_static.

#[export] Instance eq_dec : EqDecision t.
Proof. solve_decision. Defined.
End NoiseError.
Export (hints) NoiseError.
Abbreviation NoiseError := NoiseError.t.

Definition kNoiseProtocolName : list Z := text "Noise_IKpsk2_25519_ChaChaPoly_BLAKE2s".
Definition kNoiseHashLength : nat := 32.
Definition kNoiseDhLength : nat := 32.
Definition kNoiseMessage1Overhead : nat := 32 + 32 + 16 + 16.
Definition kNoiseMessage2Overhead : nat := 32 + 16.

(** ** X25519 *)

Class Dh := {
  scalarmult : list Z → list Z → option (list Z);
  scalarmult_base : list Z → list Z;
}.

Record KeyPair := mkKeyPair { public_key : list Z; private_key : list Z }.

Section keys.
Context `{Dh}.

Definition x25519 (private public : list Z) : res CryptoError (list Z) :=
  match scalarmult private public with
  | None => Fail weak_public_key
  | Some secret => Ok secret
  end.

(** [ok]: libsodium's status. *)
Definition derive_public_key (ok : bool) (private : list Z) : res CryptoError (list Z) :=
  throw invalid_key_length when negb ok else Ok (scalarmult_base private).

(** [random]: the private key drawn. *)
Definition generate_keypair (ok : bool) (random : list Z) : res CryptoError KeyPair :=
  let* public := derive_public_key ok random in
  Ok (mkKeyPair public random).

End keys.

(** ** [CipherState] *)

Record CipherState := mkCipher { cs_key : list Z; cs_nonce : Z; has_key : bool }.

Definition cipher_initialize (s : CipherState) (key : list Z) : CipherState :=
  mkCipher (copy_into (cs_key s) 0 (take (Nat.min (length key) (length (cs_key s))) key)) 0 true.

(** [sealed.error() == CryptoError::buffer_too_small ? buffer_too_small : other] *)
Definition noise_error (other : NoiseError) (e : CryptoError) : NoiseError :=
  if decide (e = buffer_too_small) then NoiseError.buffer_too_small else other.

Section cipher.
Context `{Aead}.

(** The new contexts and state, and [out] with the bytes written. *)
Definition encrypt_with_ad (st : Status) (c : AeadContexts) (s : CipherState)
    (associated_data plaintext out : list Z)
    : AeadContexts * CipherState * res NoiseError (list Z * nat) :=
  if negb (has_key s) then
    if Nat.ltb (length out) (length plaintext) then (c, s, Fail NoiseError.buffer_too_small)
    else (c, s, let* out := blit out 0 plaintext in Ok (out, length plaintext))
  else
    let '(c, sealed) := Crypto.seal st c (mkKeys (cs_key s) 0) (cs_nonce s) associated_data plaintext out in
    match sealed with
    | Ok (out, written) => (c, mkCipher (cs_key s) (u64 (cs_nonce s + 1)) true, Ok (out, Z.to_nat written))
    | Fail e => (c, s, Fail (noise_error NoiseError.unsupported_platform e))
    | Ub => (c, s, Ub)
    end.

Definition decrypt_with_ad (st : Status) (c : AeadContexts) (s : CipherState)
    (associated_data ciphertext out : list Z)
    : AeadContexts * CipherState * list Z * res NoiseError nat :=
  if negb (has_key s) then
    if Nat.ltb (length out) (length ciphertext) then (c, s, out, Fail NoiseError.buffer_too_small)
    else match blit (E:=NoiseError) out 0 ciphertext with
         | Ok out => (c, s, out, Ok (length ciphertext))
         | _ => (c, s, out, Ub)
         end
  else
    let '(c, out, opened) := Crypto.open st c (mkKeys (cs_key s) 0) (cs_nonce s) associated_data ciphertext out in
    match opened with
    | Ok written => (c, mkCipher (cs_key s) (u64 (cs_nonce s + 1)) true, out, Ok (Z.to_nat written))
    | Fail e => (c, s, out, Fail (noise_error NoiseError.decryption_failed e))
    | Ub => (c, s, out, Ub)
    end.

End cipher.

(** ** [SymmetricState] *)

Record HkdfOutputs := mkOutputs { output1 : list Z; output2 : list Z; output3 : list Z }.

Definition noise_hkdf (chaining_key input_key_material : list Z) (outputs : nat) : HkdfOutputs :=
  let temp_key := hmac_blake2s chaining_key input_key_material in
  let first := hmac_blake2s temp_key [1] in
  if Nat.eqb outputs 1 then mkOutputs first zero_digest zero_digest
  else
    let second := hmac_blake2s temp_key (first ++ [2]) in
    if Nat.eqb outputs 2 then mkOutputs first second zero_digest
    else mkOutputs first second (hmac_blake2s temp_key (second ++ [3])).

Record SymmetricState := mkSymmetric { chaining_key_ : list Z; hash_ : list Z; cipher : CipherState }.

Definition new_symmetric : SymmetricState :=
  mkSymmetric zero_digest zero_digest (mkCipher zero_key 0 false).

Definition symmetric_initialize (s : SymmetricState) (name : list Z) : SymmetricState :=
  let hash := if Nat.leb (length name) kNoiseHashLength
              then copy_into zero_digest 0 name
              else Blake2s.hash name [] in
  mkSymmetric hash hash (cipher s).

Definition mix_hash (s : SymmetricState) (data : list Z) : SymmetricState :=
  let state := update (update (new_blake2s kMaximumDigestSize []) (hash_ s)) data in
  mkSymmetric (chaining_key_ s) (Blake2s.finish state zero_digest).2 (cipher s).

Definition mix_key (s : SymmetricState) (input_key_material : list Z) : SymmetricState :=
  let outputs := noise_hkdf (chaining_key_ s) input_key_material 2 in
  mkSymmetric (output1 outputs) (hash_ s) (cipher_initialize (cipher s) (output2 outputs)).

Definition mix_key_and_hash (s : SymmetricState) (input_key_material : list Z) : SymmetricState :=
  let outputs := noise_hkdf (chaining_key_ s) input_key_material 3 in
  let s := mix_hash (mkSymmetric (output1 outputs) (hash_ s) (cipher s)) (output2 outputs) in
  mkSymmetric (chaining_key_ s) (hash_ s) (cipher_initialize (cipher s) (output3 outputs)).

Definition split (s : SymmetricState) : list Z * list Z :=
  let outputs := noise_hkdf (chaining_key_ s) [] 2 in (output1 outputs, output2 outputs).

Definition with_cipher (s : SymmetricState) (k : CipherState) : SymmetricState :=
  mkSymmetric (chaining_key_ s) (hash_ s) k.

Section symmetric.
Context `{Aead}.

Definition encrypt_and_hash (st : Status) (c : AeadContexts) (s : SymmetricState) (plaintext out : list Z)
    : AeadContexts * SymmetricState * res NoiseError (list Z * nat) :=
  let '(c, k, written) := encrypt_with_ad st c (cipher s) (hash_ s) plaintext out in
  let s := with_cipher s k in
  match written with
  | Ok (out, n) =>
      match span_first (E:=NoiseError) out n with
      | Ok sealed => (c, mix_hash s sealed, Ok (out, n))
      | _ => (c, s, Ub)
      end
  | Fail e => (c, s, Fail e)
  | Ub => (c, s, Ub)
  end.

Definition decrypt_and_hash (st : Status) (c : AeadContexts) (s : SymmetricState) (ciphertext out : list Z)
    : AeadContexts * SymmetricState * list Z * res NoiseError nat :=
  let '(c, k, out, written) := decrypt_with_ad st c (cipher s) (hash_ s) ciphertext out in
  let s := with_cipher s k in
  match written with
  | Ok n => (c, mix_hash s ciphertext, out, Ok n)
  | Fail e => (c, s, out, Fail e)
  | Ub => (c, s, out, Ub)
  end.

End symmetric.

(** ** [NoiseHandshake] *)

Record NoiseHandshake := mkHandshake {
  role_ : HandshakeRole;
  symmetric_ : SymmetricState;
  local_static_ : KeyPair;
  local_ephemeral_ : KeyPair;
  remote_static_ : list Z;
  remote_ephemeral_ : list Z;
  preshared_ : list Z;
  has_remote_static_ : bool;
  sent_message_1_ : bool;
  read_message_1_ : bool;
  finished_ : bool;
  has_fixed_ephemeral_ : bool;
}.

Definition zero_pair : KeyPair := mkKeyPair (replicate 32 0) (replicate 32 0).

Definition with_symmetric (h : NoiseHandshake) (s : SymmetricState) : NoiseHandshake :=
  mkHandshake (role_ h) s (local_static_ h) (local_ephemeral_ h) (remote_static_ h) (remote_ephemeral_ h)
    (preshared_ h) (has_remote_static_ h) (sent_message_1_ h) (read_message_1_ h) (finished_ h)
    (has_fixed_ephemeral_ h).
Definition with_local_ephemeral (h : NoiseHandshake) (k : KeyPair) : NoiseHandshake :=
  mkHandshake (role_ h) (symmetric_ h) (local_static_ h) k (remote_static_ h) (remote_ephemeral_ h)
    (preshared_ h) (has_remote_static_ h) (sent_message_1_ h) (read_message_1_ h) (finished_ h)
    (has_fixed_ephemeral_ h).
Definition with_remote_static (h : NoiseHandshake) (k : list Z) : NoiseHandshake :=
  mkHandshake (role_ h) (symmetric_ h) (local_static_ h) (local_ephemeral_ h) k (remote_ephemeral_ h)
    (preshared_ h) true (sent_message_1_ h) (read_message_1_ h) (finished_ h) (has_fixed_ephemeral_ h).
Definition with_remote_ephemeral (h : NoiseHandshake) (k : list Z) : NoiseHandshake :=
  mkHandshake (role_ h) (symmetric_ h) (local_static_ h) (local_ephemeral_ h) (remote_static_ h) k
    (preshared_ h) (has_remote_static_ h) (sent_message_1_ h) (read_message_1_ h) (finished_ h)
    (has_fixed_ephemeral_ h).
Definition with_flags (h : NoiseHandshake) (sent read finished : bool) : NoiseHandshake :=
  mkHandshake (role_ h) (symmetric_ h) (local_static_ h) (local_ephemeral_ h) (remote_static_ h)
    (remote_ephemeral_ h) (preshared_ h) (has_remote_static_ h) sent read finished (has_fixed_ephemeral_ h).

Definition use_ephemeral (h : NoiseHandshake) (k : KeyPair) : NoiseHandshake :=
  mkHandshake (role_ h) (symmetric_ h) (local_static_ h) k (remote_static_ h) (remote_ephemeral_ h)
    (preshared_ h) (has_remote_static_ h) (sent_message_1_ h) (read_message_1_ h) (finished_ h) true.

Definition create (available : bool) (role : HandshakeRole) (local_static : KeyPair)
    (remote_static preshared prologue : list Z) : res NoiseError NoiseHandshake :=
  throw NoiseError.unsupported_platform when negb available else
  let s := mix_hash (symmetric_initialize new_symmetric kNoiseProtocolName) prologue in
  let h s remote known := mkHandshake role s local_static zero_pair remote (replicate 32 0) preshared
                            known false false false false in
  match role with
  | initiator =>
      throw NoiseError.missing_remote_static when forallb (λ b, b =? 0) remote_static else
      Ok (h (mix_hash s remote_static) remote_static true)
  | responder => Ok (h (mix_hash s (public_key local_static)) (replicate 32 0) false)
  end.

Record NoiseResult := mkResult {
  res_send : list Z; res_receive : list Z; handshake_hash : list Z; remote_static : list Z }.

Definition result (h : NoiseHandshake) : res NoiseError NoiseResult :=
  throw NoiseError.invalid_state when negb (finished_ h) else
  let '(first, second) := split (symmetric_ h) in
  Ok (match role_ h with
      | initiator => mkResult first second (hash_ (symmetric_ h)) (remote_static_ h)
      | responder => mkResult second first (hash_ (symmetric_ h)) (remote_static_ h)
      end).

Lemma result_finished h : finished_ h = true →
  result h = Ok (match role_ h with
    | initiator => mkResult (split (symmetric_ h)).1 (split (symmetric_ h)).2 (hash_ (symmetric_ h)) (remote_static_ h)
    | responder => mkResult (split (symmetric_ h)).2 (split (symmetric_ h)).1 (hash_ (symmetric_ h)) (remote_static_ h)
    end).
Proof. unfold result. intros ->. simpl. by destruct (split (symmetric_ h)). Qed.

(** ** The four messages *)

Abbreviation step := (effect (AeadContexts * NoiseHandshake) NoiseError).

Definition self : step NoiseHandshake := gets snd.
Definition change (f : NoiseHandshake → NoiseHandshake) : step unit := modify (λ w, (w.1, f w.2)).
Definition on_symmetric (f : SymmetricState → SymmetricState) : step unit :=
  change (λ h, with_symmetric h (f (symmetric_ h))).

Section messages.
Context `{Aead, Dh}.

(** A Diffie-Hellman of the pattern: [x25519] and [symmetric_.mix_key]. *)
Definition mix_shared (private public : list Z) : step unit :=
  match x25519 private public with
  | Ok shared => on_symmetric (λ s, mix_key s shared)
  | Fail _ => lift (Fail NoiseError.bad_public_key)
  | Ub => lift Ub
  end.

(** [symmetric_.encrypt_and_hash(plaintext, out.subspan(offset))]: [out] and
    the new offset *)
Definition put_sealed (st : Status) (plaintext out : list Z) (offset : nat) : step (list Z * nat) :=
  λ w, match subspan_from (E:=NoiseError) out offset with
       | Ok rest =>
           let '(c, s, r) := encrypt_and_hash st w.1 (symmetric_ w.2) plaintext rest in
           ((c, with_symmetric w.2 s),
            match r with
            | Ok (rest, n) => Ok (take offset out ++ rest, (offset + n)%nat)
            | Fail e => Fail e
            | Ub => Ub
            end)
       | _ => (w, Ub)
       end.

(** [symmetric_.decrypt_and_hash(ciphertext, out)]: [out] and the bytes written *)
Definition take_opened (st : Status) (ciphertext out : list Z) : step (list Z * nat) :=
  λ w, let '(c, s, out, r) := decrypt_and_hash st w.1 (symmetric_ w.2) ciphertext out in
       ((c, with_symmetric w.2 s),
        match r with Ok n => Ok (out, n) | Fail e => Fail e | Ub => Ub end).

(** [if (!has_fixed_ephemeral_) local_ephemeral_ = generate_keypair()] *)
Definition fresh_ephemeral (generated : res CryptoError KeyPair) : step unit :=
  bind h := self in
  if has_fixed_ephemeral_ h then sret tt
  else match generated with
       | Ok k => change (λ h, with_local_ephemeral h k)
       | Fail _ => lift (Fail NoiseError.unsupported_platform)
       | Ub => lift Ub
       end.

(** The ephemeral public key goes out in the clear and into hash and key. *)
Definition put_ephemeral (out : list Z) : step (list Z) :=
  bind h := self in
  let e := public_key (local_ephemeral_ h) in
  bind out := lift (blit out 0 e) in
  bind _ := on_symmetric (λ s, mix_key (mix_hash s e) e) in
  sret out.

Definition take_ephemeral (message : list Z) : step unit :=
  bind e := lift (span_first message kNoiseDhLength) in
  bind _ := change (λ h, with_remote_ephemeral h e) in
  on_symmetric (λ s, mix_key (mix_hash s e) e).

Definition is_initiator (h : NoiseHandshake) : bool :=
  match role_ h with initiator => true | responder => false end.

Definition write_message_1 (st1 st2 : Status) (generated : res CryptoError KeyPair) (payload out : list Z)
    : step (list Z * nat) :=
  bind h := self in
  bind _ := check (negb (is_initiator h) || sent_message_1_ h || finished_ h) NoiseError.invalid_state in
  bind _ := check (negb (has_remote_static_ h)) NoiseError.missing_remote_static in
  bind _ := check (Nat.ltb (length out) (kNoiseMessage1Overhead + length payload)) NoiseError.buffer_too_small in
  bind _ := fresh_ephemeral generated in
  bind out := put_ephemeral out in
  bind h := self in
  bind _ := mix_shared (private_key (local_ephemeral_ h)) (remote_static_ h) in
  bind r := put_sealed st1 (public_key (local_static_ h)) out kNoiseDhLength in
  bind _ := mix_shared (private_key (local_static_ h)) (remote_static_ h) in
  bind r := put_sealed st2 payload r.1 r.2 in
  bind _ := change (λ h, with_flags h true (read_message_1_ h) (finished_ h)) in
  sret r.

Definition read_message_1 (st1 st2 : Status) (message payload_out : list Z) : step (list Z * nat) :=
  bind h := self in
  bind _ := check (is_initiator h || read_message_1_ h || finished_ h) NoiseError.invalid_state in
  bind _ := check (Nat.ltb (length message) kNoiseMessage1Overhead) NoiseError.message_too_short in
  bind _ := take_ephemeral message in
  bind h := self in
  bind _ := mix_shared (private_key (local_static_ h)) (remote_ephemeral_ h) in
  bind sealed := lift (subspan message 32 48) in
  bind r := take_opened st1 sealed (replicate 32 0) in
  bind _ := change (λ h, with_remote_static h r.1) in
  bind h := self in
  bind _ := mix_shared (private_key (local_static_ h)) (remote_static_ h) in
  bind remaining := lift (subspan_from message 80) in
  bind _ := check (Nat.ltb (length remaining) 16) NoiseError.message_too_short in
  bind _ := check (Nat.ltb (length payload_out) (length remaining - 16)) NoiseError.buffer_too_small in
  bind r := take_opened st2 remaining payload_out in
  bind _ := change (λ h, with_flags h (sent_message_1_ h) true (finished_ h)) in
  sret r.

Definition write_message_2 (st : Status) (generated : res CryptoError KeyPair) (payload out : list Z)
    : step (list Z * nat) :=
  bind h := self in
  bind _ := check (is_initiator h || negb (read_message_1_ h) || finished_ h) NoiseError.invalid_state in
  bind _ := check (Nat.ltb (length out) (kNoiseMessage2Overhead + length payload)) NoiseError.buffer_too_small in
  bind _ := fresh_ephemeral generated in
  bind out := put_ephemeral out in
  bind h := self in
  bind _ := mix_shared (private_key (local_ephemeral_ h)) (remote_ephemeral_ h) in
  bind _ := mix_shared (private_key (local_ephemeral_ h)) (remote_static_ h) in
  bind _ := on_symmetric (λ s, mix_key_and_hash s (preshared_ h)) in
  bind r := put_sealed st payload out kNoiseDhLength in
  bind _ := change (λ h, with_flags h (sent_message_1_ h) (read_message_1_ h) true) in
  sret r.

Definition read_message_2_unchecked (st : Status) (message payload_out : list Z) : step (list Z * nat) :=
  bind _ := take_ephemeral message in
  bind h := self in
  bind _ := mix_shared (private_key (local_ephemeral_ h)) (remote_ephemeral_ h) in
  bind _ := mix_shared (private_key (local_static_ h)) (remote_ephemeral_ h) in
  bind _ := on_symmetric (λ s, mix_key_and_hash s (preshared_ h)) in
  bind remaining := lift (subspan_from message 32) in
  bind _ := check (Nat.ltb (length remaining) 16) NoiseError.message_too_short in
  bind _ := check (Nat.ltb (length payload_out) (length remaining - 16)) NoiseError.buffer_too_small in
  bind r := take_opened st remaining payload_out in
  bind _ := change (λ h, with_flags h (sent_message_1_ h) (read_message_1_ h) true) in
  sret r.

Definition read_message_2 (st : Status) (message payload_out : list Z) : step (list Z * nat) :=
  bind h := self in
  bind _ := check (negb (is_initiator h) || negb (sent_message_1_ h) || finished_ h) NoiseError.invalid_state in
  bind _ := check (Nat.ltb (length message) kNoiseMessage2Overhead) NoiseError.message_too_short in
  λ w, match read_message_2_unchecked st message payload_out w with
       | (w', Ok r) => (w', Ok r)
       | (w', r) => ((w'.1, with_remote_ephemeral (with_symmetric w'.2 (symmetric_ h)) (remote_ephemeral_ h)), r)
       end.

End messages.

(** ** Both sides keep the same symmetric state *)

Class DhLaws `{Dh} : Prop := {
  dh_agree a b : scalarmult a (scalarmult_base b) = scalarmult b (scalarmult_base a);
  dh_length a : length (scalarmult_base a) = kNoiseDhLength;
}.

Section symmetric_specs.
Context `{AeadLaws}.

(** The ciphertext of a plaintext in a state, and the state after it. *)
Definition sealed (s : SymmetricState) (p : list Z) : list Z :=
  aead_encrypt (cs_key (cipher s)) (nonce_of (cs_nonce (cipher s))) (hash_ s) p.

Definition after (s : SymmetricState) (ct : list Z) : SymmetricState :=
  mix_hash (with_cipher s (mkCipher (cs_key (cipher s)) (u64 (cs_nonce (cipher s) + 1)) true)) ct.

Definition answered (st : Status) : Prop := init_ok st = true ∧ healthy st = true.

Lemma length_sealed s p : length (sealed s p) = (length p + 16)%nat.
Proof. apply aead_size. Qed.

Lemma encrypt_and_hash_spec st c s p out : contexts_clean c → answered st → has_key (cipher s) = true →
  (length p + 16 ≤ length out)%nat →
  ∃ c', contexts_clean c' ∧ encrypt_and_hash st c s p out =
    (c', after s (sealed s p), Ok (sealed s p ++ drop (length p + 16) out, (length p + 16)%nat)).
Proof.
  intros Hc [Hi Hst] Hk Hroom. unfold encrypt_and_hash, encrypt_with_ad. rewrite Hk. cbn [negb].
  destruct (seal_clean st c (mkKeys (cs_key (cipher s)) 0) (cs_nonce (cipher s)) (hash_ s) p out Hc Hi Hst)
    as (c' & Hc' & ->); [unfold blen, kAeadTagSize; lia|].
  exists c'. split; [done|]. cbn [key_]. fold (sealed s p).
  replace (Z.to_nat (blen p + kAeadTagSize)) with (length p + 16)%nat by (unfold blen, kAeadTagSize; lia).
  rewrite span_first_ok by (rewrite length_app, length_sealed, length_drop; lia).
  rewrite take_app_length' by (by rewrite length_sealed). done.
Qed.

Lemma decrypt_and_hash_spec st c s p out : contexts_clean c → answered st → has_key (cipher s) = true →
  (length p ≤ length out)%nat →
  ∃ c', contexts_clean c' ∧ decrypt_and_hash st c s (sealed s p) out =
    (c', after s (sealed s p), p ++ drop (length p) out, Ok (length p)).
Proof.
  intros Hc [Hi Hst] Hk Hroom. unfold decrypt_and_hash, decrypt_with_ad. rewrite Hk. cbn [negb].
  destruct (open_clean st c (mkKeys (cs_key (cipher s)) 0) (cs_nonce (cipher s)) (hash_ s) p out Hc Hi Hst)
    as (c' & Hc' & E); [unfold blen; lia|]. cbn [key_] in E. fold (sealed s p) in E. rewrite E.
  exists c'. split; [done|]. by replace (Z.to_nat (blen p)) with (length p) by (unfold blen; lia).
Qed.

Lemma put_sealed_spec st c h p pre rest : contexts_clean c → answered st →
  has_key (cipher (symmetric_ h)) = true → (length p + 16 ≤ length rest)%nat →
  ∃ c', contexts_clean c' ∧ put_sealed st p (pre ++ rest) (length pre) (c, h) =
    ((c', with_symmetric h (after (symmetric_ h) (sealed (symmetric_ h) p))),
     Ok ((pre ++ sealed (symmetric_ h) p) ++ drop (length p + 16) rest,
         length (pre ++ sealed (symmetric_ h) p))).
Proof.
  intros Hc Hst Hk Hroom. unfold put_sealed. rewrite subspan_from_ok by (rewrite length_app; lia).
  cbn [fst snd]. rewrite drop_app_length.
  destruct (encrypt_and_hash_spec st c (symmetric_ h) p rest Hc Hst Hk Hroom) as (c' & Hc' & ->).
  exists c'. split; [done|]. rewrite take_app_length, app_assoc, length_app, length_sealed. done.
Qed.

Lemma take_opened_spec st c h p out : contexts_clean c → answered st →
  has_key (cipher (symmetric_ h)) = true → (length p ≤ length out)%nat →
  ∃ c', contexts_clean c' ∧ take_opened st (sealed (symmetric_ h) p) out (c, h) =
    ((c', with_symmetric h (after (symmetric_ h) (sealed (symmetric_ h) p))),
     Ok (p ++ drop (length p) out, length p)).
Proof.
  intros Hc Hst Hk Hroom. unfold take_opened. cbn [fst snd].
  destruct (decrypt_and_hash_spec st c (symmetric_ h) p out Hc Hst Hk Hroom) as (c' & Hc' & ->).
  by exists c'.
Qed.

End symmetric_specs.

Lemma mix_shared_spec `{Dh} private public d c h : scalarmult private public = Some d →
  mix_shared private public (c, h) = ((c, with_symmetric h (mix_key (symmetric_ h) d)), Ok tt).
Proof. intros E. unfold mix_shared, x25519. by rewrite E. Qed.

(** The state once an ephemeral key is in it. *)
Definition with_e (s : SymmetricState) (e : list Z) : SymmetricState := mix_key (mix_hash s e) e.

Lemma fresh_ephemeral_spec k c h : has_fixed_ephemeral_ h = false →
  fresh_ephemeral (Ok k) (c, h) = ((c, with_local_ephemeral h k), Ok tt).
Proof. intros E. unfold fresh_ephemeral. rewrite (sbind_ok _ _ _ (c, h) h) by done. by rewrite E. Qed.

Lemma put_ephemeral_spec out c h : length (public_key (local_ephemeral_ h)) = 32%nat → (32 ≤ length out)%nat →
  put_ephemeral out (c, h) =
  ((c, with_symmetric h (with_e (symmetric_ h) (public_key (local_ephemeral_ h)))),
   Ok (public_key (local_ephemeral_ h) ++ drop 32 out)).
Proof.
  intros He Ho. unfold put_ephemeral. rewrite (sbind_ok _ _ _ (c, h) h) by done.
  rewrite (sbind_ok _ _ _ (c, h) (public_key (local_ephemeral_ h) ++ drop 32 out)); [done|].
  unfold lift. rewrite blit_ok by (rewrite He; lia). by rewrite take_0, He.
Qed.

Lemma take_ephemeral_spec e rest c h : length e = 32%nat →
  take_ephemeral (e ++ rest) (c, h) =
  ((c, with_symmetric (with_remote_ephemeral h e) (with_e (symmetric_ h) e)), Ok tt).
Proof.
  intros He. unfold take_ephemeral. rewrite (sbind_ok _ _ _ (c, h) e); [done|].
  unfold lift. rewrite span_first_ok by (rewrite length_app, He; unfold kNoiseDhLength; lia).
  by rewrite take_app_length' by (by rewrite He).
Qed.

(** ** The messages *)

Section exchange.
Context `{AeadLaws} `{Dh}.

(** Message 1 from a state: [e, es, s, ss], payload; the state after it. *)
Definition message_1 (s : SymmetricState) (e es static ss payload : list Z) : list Z * SymmetricState :=
  let k1 := mix_key (with_e s e) es in
  let c1 := sealed k1 static in
  let k2 := mix_key (after k1 c1) ss in
  let c2 := sealed k2 payload in
  (e ++ c1 ++ c2, after k2 c2).

(** Message 2: [e, ee, se, psk], payload. *)
Definition message_2 (s : SymmetricState) (e ee se psk payload : list Z) : list Z * SymmetricState :=
  let k := mix_key_and_hash (mix_key (mix_key (with_e s e) ee) se) psk in
  (e ++ sealed k payload, after k (sealed k payload)).

Lemma length_message_1 s e es static ss payload : length e = 32%nat → length static = 32%nat →
  length (message_1 s e es static ss payload).1 = (96 + length payload)%nat.
Proof. intros He Hs. unfold message_1. cbn [fst]. rewrite !length_app, !length_sealed, He, Hs. lia. Qed.

Lemma length_message_2 s e ee se psk payload : length e = 32%nat →
  length (message_2 s e ee se psk payload).1 = (48 + length payload)%nat.
Proof. intros He. unfold message_2. cbn [fst]. rewrite !length_app, !length_sealed, He. lia. Qed.

Definition z32 : list Z := replicate 32 0.

Ltac fields := cbn [with_symmetric with_remote_ephemeral with_local_ephemeral with_remote_static with_flags
  role_ symmetric_ local_static_ local_ephemeral_ remote_static_ remote_ephemeral_ preshared_
  has_remote_static_ sent_message_1_ read_message_1_ finished_ has_fixed_ephemeral_ fst snd
  is_initiator negb orb].

(** Run the first statement of a [bind]. *)
Ltac run tac := erewrite sbind_ok by tac; fields.
Ltac run_check := run ltac:(apply check_ok; (reflexivity || (apply Nat.ltb_ge; lia))).
Ltac run_step := run ltac:(reflexivity).

Lemma write_message_1_spec st1 st2 c s static eph remote psk payload out es ss :
  contexts_clean c → answered st1 → answered st2 →
  length (public_key eph) = 32%nat → length (public_key static) = 32%nat →
  scalarmult (private_key eph) remote = Some es → scalarmult (private_key static) remote = Some ss →
  (96 + length payload ≤ length out)%nat →
  let m := message_1 s (public_key eph) es (public_key static) ss payload in
  ∃ c', contexts_clean c' ∧
    write_message_1 st1 st2 (Ok eph) payload out
      (c, mkHandshake initiator s static zero_pair remote z32 psk true false false false false) =
    ((c', mkHandshake initiator m.2 static eph remote z32 psk true true false false false),
     Ok (m.1 ++ drop (96 + length payload) out, (96 + length payload)%nat)).
Proof.
  intros Hc Ha1 Ha2 He Hs Hes Hss Ho m. unfold write_message_1, kNoiseMessage1Overhead.
  run_step. do 3 run_check.
  run ltac:(apply fresh_ephemeral_spec; reflexivity).
  run ltac:(apply put_ephemeral_spec; [exact He|lia]).
  run_step. run ltac:(apply mix_shared_spec; exact Hes).
  set (k1 := mix_key (with_e s (public_key eph)) es).
  change kNoiseDhLength with 32%nat.
  match goal with |- context [sbind (put_sealed st1 _ _ _) _ (c, ?h)] =>
    destruct (put_sealed_spec st1 c h (public_key static) (public_key eph) (drop 32 out) Hc Ha1 eq_refl)
      as (c1 & Hc1 & E1); [rewrite length_drop; lia|] end.
  rewrite He in E1. run ltac:(exact E1). clear E1. fold k1. run ltac:(apply mix_shared_spec; exact Hss).
  set (k2 := mix_key (after k1 (sealed k1 (public_key static))) ss).
  match goal with |- context [sbind (put_sealed st2 _ (?pre ++ ?rest) _) _ (c1, ?h)] =>
    destruct (put_sealed_spec st2 c1 h payload pre rest Hc1 Ha2 eq_refl) as (c2 & Hc2 & E2);
      [rewrite !length_drop; lia|] end.
  run ltac:(exact E2). clear E2. fold k2. run_step. exists c2. split; [done|]. unfold sret, m, message_1. cbn [fst snd].
  fold k1. fold k2. rewrite !length_app, !length_sealed, He, Hs, !drop_drop, <- !app_assoc.
  replace (32 + (32 + 16) + (length payload + 16))%nat with (96 + length payload)%nat by lia.
  by replace (32 + (32 + 16 + (length payload + 16)))%nat with (96 + length payload)%nat by lia.
Qed.

Lemma read_message_1_spec st1 st2 c s static psk e es istatic ss payload out :
  contexts_clean c → answered st1 → answered st2 → length e = 32%nat → length istatic = 32%nat →
  scalarmult (private_key static) e = Some es → scalarmult (private_key static) istatic = Some ss →
  (length payload ≤ length out)%nat →
  let m := message_1 s e es istatic ss payload in
  ∃ c', contexts_clean c' ∧
    read_message_1 st1 st2 m.1 out
      (c, mkHandshake responder s static zero_pair z32 z32 psk false false false false false) =
    ((c', mkHandshake responder m.2 static zero_pair istatic e psk true false true false false),
     Ok (payload ++ drop (length payload) out, length payload)).
Proof.
  intros Hc Ha1 Ha2 He Hs Hes Hss Ho m.
  pose proof (length_message_1 s e es istatic ss payload He Hs) as Hlen. fold m in Hlen.
  unfold read_message_1, kNoiseMessage1Overhead. run_step. do 2 run_check.
  set (k1 := mix_key (with_e s e) es). set (k2 := mix_key (after k1 (sealed k1 istatic)) ss).
  change m.1 with (e ++ sealed k1 istatic ++ sealed k2 payload) in *.
  run ltac:(apply take_ephemeral_spec; exact He).
  run_step. run ltac:(apply mix_shared_spec; exact Hes). fold k1.
  assert (length (sealed k1 istatic) = 48%nat) as Hl1 by (rewrite length_sealed, Hs; done).
  assert (subspan (E:=NoiseError) (e ++ sealed k1 istatic ++ sealed k2 payload) 32 48 =
    Ok (sealed k1 istatic)) as Esub.
  { rewrite subspan_ok by lia. rewrite drop_app_length' by done. by rewrite take_app_length' by done. }
  run ltac:(unfold lift; rewrite Esub; reflexivity).
  match goal with |- context [sbind (take_opened st1 _ _) _ (c, ?h)] =>
    destruct (take_opened_spec st1 c h istatic (replicate 32 0) Hc Ha1 eq_refl) as (c1 & Hc1 & E1);
      [rewrite Hs, length_replicate; lia|] end.
  cbn [symmetric_] in E1. run ltac:(exact E1). clear E1.
  rewrite drop_ge, app_nil_r by (rewrite Hs, length_replicate; lia).
  run_step. run_step. run ltac:(apply mix_shared_spec; exact Hss). fold k2.
  assert (subspan_from (E:=NoiseError) (e ++ sealed k1 istatic ++ sealed k2 payload) 80 =
    Ok (sealed k2 payload)) as Efrom.
  { rewrite subspan_from_ok by lia. rewrite app_assoc, drop_app_length' by (rewrite length_app; lia). done. }
  run ltac:(unfold lift; rewrite Efrom; reflexivity).
  pose proof (length_sealed k2 payload) as Hl2. do 2 run_check.
  match goal with |- context [sbind (take_opened st2 _ _) _ (c1, ?h)] =>
    destruct (take_opened_spec st2 c1 h payload out Hc1 Ha2 eq_refl Ho) as (c2 & Hc2 & E2) end.
  cbn [symmetric_] in E2. run ltac:(exact E2). clear E2. run_step. exists c2. split; [done|]. reflexivity.
Qed.

Lemma write_message_2_spec st c s static istatic ie eph psk payload out ee se :
  contexts_clean c → answered st → length (public_key eph) = 32%nat →
  scalarmult (private_key eph) ie = Some ee → scalarmult (private_key eph) istatic = Some se →
  (48 + length payload ≤ length out)%nat →
  let m := message_2 s (public_key eph) ee se psk payload in
  ∃ c', contexts_clean c' ∧
    write_message_2 st (Ok eph) payload out
      (c, mkHandshake responder s static zero_pair istatic ie psk true false true false false) =
    ((c', mkHandshake responder m.2 static eph istatic ie psk true false true true false),
     Ok (m.1 ++ drop (48 + length payload) out, (48 + length payload)%nat)).
Proof.
  intros Hc Ha He Hee Hse Ho m. unfold write_message_2, kNoiseMessage2Overhead.
  run_step. do 2 run_check. run ltac:(apply fresh_ephemeral_spec; reflexivity).
  run ltac:(apply put_ephemeral_spec; [exact He|lia]).
  run_step. run ltac:(apply mix_shared_spec; exact Hee). run ltac:(apply mix_shared_spec; exact Hse). run_step.
  set (k := mix_key_and_hash _ psk). change kNoiseDhLength with 32%nat.
  match goal with |- context [sbind (put_sealed st _ _ _) _ (c, ?h)] =>
    destruct (put_sealed_spec st c h payload (public_key eph) (drop 32 out) Hc Ha eq_refl)
      as (c1 & Hc1 & E1); [rewrite length_drop; lia|] end.
  rewrite He in E1. cbn [symmetric_] in E1. run ltac:(exact E1). clear E1. run_step. exists c1. split; [done|].
  unfold sret, m, message_2. fold k. cbn [fst snd]. rewrite !length_app, length_sealed, He, drop_drop.
  replace (32 + (length payload + 16))%nat with (48 + length payload)%nat by lia. reflexivity.
Qed.

Lemma read_message_2_spec st c s static eph remote psk e ee se payload out :
  contexts_clean c → answered st → length e = 32%nat →
  scalarmult (private_key eph) e = Some ee → scalarmult (private_key static) e = Some se →
  (length payload ≤ length out)%nat →
  let m := message_2 s e ee se psk payload in
  ∃ c', contexts_clean c' ∧
    read_message_2 st m.1 out
      (c, mkHandshake initiator s static eph remote z32 psk true true false false false) =
    ((c', mkHandshake initiator m.2 static eph remote e psk true true false true false),
     Ok (payload ++ drop (length payload) out, length payload)).
Proof.
  intros Hc Ha He Hee Hse Ho m. pose proof (length_message_2 s e ee se psk payload He) as Hlen. fold m in Hlen.
  unfold read_message_2, kNoiseMessage2Overhead. run_step. do 2 run_check.
  set (k := mix_key_and_hash (mix_key (mix_key (with_e s e) ee) se) psk).
  change m.1 with (e ++ sealed k payload) in *.
  match goal with |- context [read_message_2_unchecked st ?msg ?o ?w] =>
    assert (∃ c', contexts_clean c' ∧ read_message_2_unchecked st msg o w =
      ((c', mkHandshake initiator m.2 static eph remote e psk true true false true false),
       Ok (payload ++ drop (length payload) out, length payload))) as (c' & Hc' & E) end.
  { unfold read_message_2_unchecked. run ltac:(apply take_ephemeral_spec; exact He).
    run_step. run ltac:(apply mix_shared_spec; exact Hee). run ltac:(apply mix_shared_spec; exact Hse). run_step.
    fold k. assert (subspan_from (E:=NoiseError) (e ++ sealed k payload) 32 = Ok (sealed k payload)) as Efrom.
    { rewrite subspan_from_ok by lia. by rewrite drop_app_length' by done. }
    run ltac:(unfold lift; rewrite Efrom; reflexivity).
    pose proof (length_sealed k payload) as Hl. do 2 run_check.
    match goal with |- context [sbind (take_opened st _ _) _ (c, ?h)] =>
      destruct (take_opened_spec st c h payload out Hc Ha eq_refl Ho) as (c1 & Hc1 & E1) end.
    cbn [symmetric_] in E1. run ltac:(exact E1). clear E1. run_step. exists c1. split; [done|]. reflexivity. }
  rewrite E. by exists c'.
Qed.

End exchange.

Definition valid_pair `{Dh} (k : KeyPair) : Prop := public_key k = scalarmult_base (private_key k).

Lemma shared_agrees `{DhLaws} a b d : valid_pair a → valid_pair b →
  scalarmult (private_key a) (public_key b) = Some d → scalarmult (private_key b) (public_key a) = Some d.
Proof. unfold valid_pair. intros -> -> <-. apply dh_agree. Qed.

Lemma length_public `{DhLaws} k : valid_pair k → length (public_key k) = 32%nat.
Proof. unfold valid_pair. intros ->. apply dh_length. Qed.

(** The state both sides start from. *)
Definition start_state (responder_static prologue : list Z) : SymmetricState :=
  mix_hash (mix_hash (symmetric_initialize new_symmetric kNoiseProtocolName) prologue) responder_static.

(** C25. Two honest peers that share the pre-shared key and the prologue
    complete the handshake: whatever their key pairs, provided no
    Diffie-Hellman secret is rejected as weak and the cipher library answers,
    both messages are accepted with their payloads, the responder learns the
    initiator's static key, and both sides end with the same transcript hash
    and the same two keys, each sending with the key the other receives with. *)
Theorem noise_handshake_agrees `{AeadLaws} `{DhLaws} (si sr ei er : KeyPair) psk prologue p1 p2
    buf1 buf2 out1 out2 (st : nat → Status) cI cR es ss ee se :
  valid_pair si → valid_pair sr → valid_pair ei → valid_pair er →
  (∀ i, answered (st i)) → contexts_clean cI → contexts_clean cR →
  forallb (λ b, b =? 0) (public_key sr) = false →
  scalarmult (private_key ei) (public_key sr) = Some es →
  scalarmult (private_key si) (public_key sr) = Some ss →
  scalarmult (private_key ei) (public_key er) = Some ee →
  scalarmult (private_key si) (public_key er) = Some se →
  (96 + length p1 ≤ length buf1)%nat → (length p1 ≤ length out1)%nat →
  (48 + length p2 ≤ length buf2)%nat → (length p2 ≤ length out2)%nat →
  ∃ hI hR wI1 wR1 wR2 wI2 wire1 n1 wire2 n2 a b hash,
    create true initiator si (public_key sr) psk prologue = Ok hI ∧
    create true responder sr z32 psk prologue = Ok hR ∧
    write_message_1 (st 0%nat) (st 1%nat) (Ok ei) p1 buf1 (cI, hI) = (wI1, Ok (wire1, n1)) ∧
    read_message_1 (st 2%nat) (st 3%nat) (take n1 wire1) out1 (cR, hR) =
      (wR1, Ok (p1 ++ drop (length p1) out1, length p1)) ∧
    remote_static_ wR1.2 = public_key si ∧
    write_message_2 (st 4%nat) (Ok er) p2 buf2 wR1 = (wR2, Ok (wire2, n2)) ∧
    read_message_2 (st 5%nat) (take n2 wire2) out2 wI1 =
      (wI2, Ok (p2 ++ drop (length p2) out2, length p2)) ∧
    result wI2.2 = Ok (mkResult a b hash (public_key sr)) ∧
    result wR2.2 = Ok (mkResult b a hash (public_key si)).
Proof.
  intros Vis Vrs Vie Vre Hst HcI HcR Hnz Des Dss Dee Dse Hb1 Ho1 Hb2 Ho2.
  set (s0 := start_state (public_key sr) prologue).
  set (m1 := message_1 s0 (public_key ei) es (public_key si) ss p1).
  set (m2 := message_2 m1.2 (public_key er) ee se psk p2).
  destruct (write_message_1_spec (st 0%nat) (st 1%nat) cI s0 si ei (public_key sr) psk p1 buf1 es ss)
    as (cI1 & HcI1 & E1);
    [solve [eauto using length_public].. |].
  destruct (read_message_1_spec (st 2%nat) (st 3%nat) cR s0 sr psk (public_key ei) es (public_key si) ss p1 out1)
    as (cR1 & HcR1 & E2);
    [solve [eauto using length_public, shared_agrees].. |].
  destruct (write_message_2_spec (st 4%nat) cR1 m1.2 sr (public_key si) (public_key ei) er psk p2 buf2 ee se)
    as (cR2 & HcR2 & E3);
    [solve [eauto using length_public, shared_agrees].. |].
  destruct (read_message_2_spec (st 5%nat) cI1 m1.2 si ei (public_key sr) psk (public_key er) ee se p2 out2)
    as (cI2 & HcI2 & E4);
    [solve [eauto using length_public].. |].
  fold m1 in E1, E2. fold m2 in E3, E4.
  assert (length m1.1 = 96 + length p1)%nat as L1 by (apply length_message_1; by apply length_public).
  assert (length m2.1 = 48 + length p2)%nat as L2 by (apply length_message_2; by apply length_public).
  exists (mkHandshake initiator s0 si zero_pair (public_key sr) z32 psk true false false false false),
    (mkHandshake responder s0 sr zero_pair z32 z32 psk false false false false false).
  do 8 eexists. exists (split m2.2).1, (split m2.2).2, (hash_ m2.2).
  split; [unfold create, guard; by rewrite Hnz|]. split; [reflexivity|]. split; [exact E1|].
  split; [rewrite take_app_length' by (symmetry; exact L1); exact E2|].
  split; [reflexivity|]. split; [exact E3|].
  split; [rewrite take_app_length' by (symmetry; exact L2); exact E4|].
  split; (rewrite result_finished by reflexivity); reflexivity.
Qed.

Definition toy_base (k : list Z) : list Z := map u8 (take 32 (k ++ replicate 32 1)).

Definition toy_dh : Dh := {|
  scalarmult a p := Some (zip_with (λ x y, u8 (x * y)) (toy_base a) p);
  scalarmult_base := toy_base;
|}.

Lemma toy_dh_laws : DhLaws (H := toy_dh).
Proof.
  split.
  - intros a b. cbn. f_equal. generalize (toy_base a) (toy_base b).
    intros k. induction k as [|x k IH]; intros [|y l]; cbn; [done..|]. by rewrite IH, Z.mul_comm.
  - intros a. cbn. unfold toy_base. rewrite length_map, length_take, length_app, length_replicate.
    unfold kNoiseDhLength. lia.
Qed.

Definition toy_pair (seed : Z) : KeyPair := mkKeyPair (toy_base [seed; 1]) [seed; 1].

Definition toy_secret (a b : Z) : list Z :=
  zip_with (λ x y, u8 (x * y)) (toy_base [a; 1]) (toy_base [b; 1]).

Lemma noise_handshake_agrees_witness :
  let _ := toy_aead in let _ := toy_dh in
  ∃ hI hR wI1 wR1 wR2 wI2 wire1 n1 wire2 n2 a b hash,
    create true initiator (toy_pair 3) (public_key (toy_pair 5)) [7] [8] = Ok hI ∧
    create true responder (toy_pair 5) z32 [7] [8] = Ok hR ∧
    write_message_1 all_well all_well (Ok (toy_pair 9)) [1; 2] (replicate 98 0) (new_contexts true, hI) =
      (wI1, Ok (wire1, n1)) ∧
    read_message_1 all_well all_well (take n1 wire1) [0; 0; 4] (new_contexts true, hR) =
      (wR1, Ok ([1; 2; 4], 2%nat)) ∧
    remote_static_ wR1.2 = public_key (toy_pair 3) ∧
    write_message_2 all_well (Ok (toy_pair 11)) [6] (replicate 60 0) wR1 = (wR2, Ok (wire2, n2)) ∧
    read_message_2 all_well (take n2 wire2) [0] wI1 = (wI2, Ok ([6], 1%nat)) ∧
    result wI2.2 = Ok (mkResult a b hash (public_key (toy_pair 5))) ∧
    result wR2.2 = Ok (mkResult b a hash (public_key (toy_pair 3))).
Proof.
  intros A D.
  apply (@noise_handshake_agrees toy_aead toy_laws toy_dh toy_dh_laws (toy_pair 3) (toy_pair 5) (toy_pair 9)
    (toy_pair 11) [7] [8] [1; 2] [6] (replicate 98 0) (replicate 60 0) [0; 0; 4] [0] (λ _, all_well)
    (new_contexts true) (new_contexts true) (toy_secret 9 5) (toy_secret 3 5) (toy_secret 9 11) (toy_secret 3 11));
    try reflexivity; try apply new_contexts_for; try (intros _; split; reflexivity);
    try (apply Nat.leb_le; reflexivity).
Defined.

(** ** A rejected response *)

(** Nothing but the symmetric state and the remote ephemeral key differs. *)
Definition framed (h h' : NoiseHandshake) : Prop :=
  with_remote_ephemeral (with_symmetric h' (symmetric_ h)) (remote_ephemeral_ h) = h.

#[local] Instance framed_preorder : PreOrder (λ w w' : AeadContexts * NoiseHandshake, framed w.2 w'.2).
Proof.
  split.
  - intros [c []]. reflexivity.
  - intros [c1 []] [c2 []] [c3 []]. unfold framed. cbn. intros [=] [=]. by subst.
Qed.

Abbreviation keeps_frame := (respects (E:=NoiseError) (λ w w', framed w.2 w'.2)).

(** A step that completes the handshake or stays in the frame. *)
Definition restorable {A} (m : step A) : Prop :=
  ∀ w, triple (λ w', w' = w) m (λ _ w', finished_ w'.2 = true) (λ w', framed w.2 w'.2).

Lemma sbind_restorable {A B} (m : step A) (f : A → step B) :
  keeps_frame m → (∀ a, restorable (f a)) → restorable (sbind m f).
Proof.
  intros Hm Hf w w0 ->. specialize (Hm w). unfold sbind. destruct (m w) as [w1 [a|e|]]; cbn in *; [|done..].
  specialize (Hf a w1 w1 eq_refl). destruct (f a w1) as [w2 [b|e|]]; cbn in *; [done|..];
    exact (PreOrder_Transitive (R:=λ w w', framed w.2 w'.2) _ _ _ Hm Hf).
Qed.

Lemma change_keeps f : (∀ h, framed h (f h)) → keeps_frame (change f).
Proof. intros Hf. apply respects_modify. intros [c h]. apply Hf. Qed.
Lemma on_symmetric_keeps f : keeps_frame (on_symmetric f).
Proof. apply change_keeps. by intros []. Qed.
Lemma remote_ephemeral_keeps e : keeps_frame (change (λ h, with_remote_ephemeral h e)).
Proof. apply change_keeps. by intros []. Qed.
Lemma mix_shared_keeps `{Dh} private public : keeps_frame (mix_shared private public).
Proof. unfold mix_shared. case_match; first [apply on_symmetric_keeps|apply respects_lift; apply _]. Qed.
Lemma take_opened_keeps `{Aead} st ct out : keeps_frame (take_opened st ct out).
Proof.
  intros [c h]. unfold take_opened. cbn [fst snd].
  destruct (decrypt_and_hash st c (symmetric_ h) ct out) as [[[c' s] out'] r]. by destruct h.
Qed.

Ltac keeps := repeat first
  [ apply respects_bind; [apply _| |intros ?] | apply respects_ret; apply _ | apply respects_lift; apply _
  | apply respects_gets; apply _ | apply respects_check; apply _ | apply on_symmetric_keeps
  | apply remote_ephemeral_keeps | apply mix_shared_keeps | apply take_opened_keeps ].

Lemma read_message_2_restorable `{Aead} `{Dh} st msg out : restorable (read_message_2_unchecked st msg out).
Proof.
  unfold read_message_2_unchecked, take_ephemeral. repeat (apply sbind_restorable; [keeps; done|intros ?]).
  intros w w' ->. reflexivity.
Qed.

(** A response the initiator rejects costs it nothing: unless
    [read_message_2] succeeds and completes the handshake, the object is
    exactly what it was, so a forged or corrupted response cannot spoil the
    handshake the genuine one will finish. *)
Lemma rejected_response_restores `{Aead} `{Dh} st msg out c h :
  let '((c', h'), r) := read_message_2 st msg out (c, h) in
  match r with Ok _ => finished_ h' = true | _ => h' = h end.
Proof.
  unfold read_message_2, sbind, self, gets, check. cbn [fst snd].
  destruct (_ || _ || _); [done|]. destruct (Nat.ltb _ _); [done|].
  pose proof (read_message_2_restorable st msg out (c, h) (c, h) eq_refl) as Hr.
  destruct (read_message_2_unchecked st msg out (c, h)) as [[c' h'] [r|e|]]; done.
Qed.

(** ** The context cache stays clean, whatever is decrypted *)

Lemma open_keeps_clean `{Aead} st c k n a ct out : contexts_clean c → init_ok st = true →
  contexts_clean (Crypto.open st c k n a ct out).1.1.
Proof.
  intros Hc Hi. unfold Crypto.open. do 2 (case_match; [done|]).
  destruct (get_for _ st c (key_ k) false Hc (or_introl Hi)) as [Hg _].
  destruct (get st c (key_ k) false) as [c' ctx]. cbn [fst] in Hg.
  assert (∀ out wipe o, contexts_clean (Crypto.finish c' out wipe o).1.1) as Hf.
  { intros o w v. unfold Crypto.finish. destruct v; [|done]. by destruct (blit _ _ _). }
  destruct (aead_nonce n); [|done..]. destruct ctx as [[[key []]|]|]; done || apply Hf.
Qed.

Definition keeps_clean (w w' : AeadContexts * NoiseHandshake) : Prop := contexts_clean w.1 → contexts_clean w'.1.
#[local] Instance keeps_clean_preorder : PreOrder keeps_clean.
Proof. split; [by intros w ?|]. intros w1 w2 w3 H1 H2 H. by apply H2, H1. Qed.

Lemma take_opened_clean `{Aead} st ct out : init_ok st = true → respects keeps_clean (take_opened st ct out).
Proof.
  intros Hi [c h] Hc. unfold take_opened, decrypt_and_hash, decrypt_with_ad. cbn [fst snd] in *.
  destruct (negb _); [repeat case_match; by simplify_eq|].
  pose proof (open_keeps_clean st c (mkKeys (cs_key (cipher (symmetric_ h))) 0) (cs_nonce (cipher (symmetric_ h)))
    (hash_ (symmetric_ h)) ct out Hc Hi) as Ho.
  destruct (Crypto.open _ _ _ _ _ _ _) as [[c' o] r]. by destruct r.
Qed.

Lemma read_message_2_clean `{Aead} `{Dh} st msg out c h : init_ok st = true → contexts_clean c →
  contexts_clean (read_message_2 st msg out (c, h)).1.1.
Proof.
  intros Hi Hc. assert (∀ f, respects (E:=NoiseError) keeps_clean (change f)) as Hch by (intros f w Hw; exact Hw).
  assert (respects keeps_clean (read_message_2_unchecked st msg out)) as Hu.
  { unfold read_message_2_unchecked, take_ephemeral, mix_shared, on_symmetric.
    repeat first [apply respects_bind; [apply _| |intros ?]|apply respects_ret; apply _|apply respects_lift; apply _
      |apply respects_gets; apply _|apply respects_check; apply _|by apply take_opened_clean|apply Hch|case_match]. }
  specialize (Hu (c, h) Hc). unfold read_message_2, sbind, self, gets, check. cbn [fst snd].
  destruct (_ || _ || _); [done|]. destruct (Nat.ltb _ _); [done|].
  by destruct (read_message_2_unchecked st msg out (c, h)) as [[c' h'] [r|e|]].
Qed.
