(* ===== verification/Session.v ===== *)
(** One encrypted session between two peers: class [Session] of [src/session.cpp].

    [Session] is the object; every member function is a definition.  The
    functions that take [guard_] are atomic steps; [seal_reserved] and
    [decrypt] run outside the lock, so the theorems on counters are stated for
    every interleaving of the atomic steps of concurrent workers.  Calls of
    [steady_clock::now()] are the argument [now]. *)

From S2P Require Import Prelude Packet ReplayWindow Double Nonce Address Timers Crypto.

Module SessionError.
Inductive t :=
| unknown_peer | unknown_key_id | not_established | counter_exhausted | replayed | too_old
| authentication_failed | buffer_too_small | key_id_exhausted | too_many_sessions
| generation_mismatch.

#[export] Instance eq_dec : EqDecision t.
Proof. solve_decision. Defined.
End SessionError.
Export (hints) SessionError.
Abbreviation SessionError := SessionError.t.

Definition kRekeyAfter : Z := minutes 2.
Definition kSessionExpiry : Z := minutes 3.
Definition kRekeyAfterMessages : Z := Z.shiftl 1 60.
Definition kRejectAfterMessages : Z := UINT64_MAX - Z.shiftl 1 13.
Definition kRetireAfter : Z := seconds 10.

Record SessionStats := mkSessionStats {
  sent : Z;
  received : Z;
  replay_drops : Z;
  auth_failures : Z;
  too_old_drops : Z;
}.

(** The counters of the current loss sample. *)
Record Sample := mkSample {
  sample_base_ : Z;
  sample_received_ : Z;
  sample_recovered_ : Z;
  sample_late_ : Z;
  sample_primed_ : bool;
}.

Record Session := mkSession {
  peer_ : Z;
  local_key_id_ : Z;
  remote_key_id_ : Z;
  send_keys_ : TrafficKeys;
  receive_keys_ : TrafficKeys;
  send_counter_ : PacketCounter;
  replay_ : ReplayWindow;
  endpoint_ : option Endpoint;
  last_received_ : Instant;
  established_at_ : Instant;
  stats_ : SessionStats;
  sample_ : Sample;
}.

Definition new_session (now : Instant) (peer local_key_id remote_key_id : Z)
    (send_keys receive_keys : TrafficKeys) : Session :=
  mkSession peer local_key_id remote_key_id send_keys receive_keys (new_counter 0) new_window
    None 0 now (mkSessionStats 0 0 0 0 0) (mkSample 0 0 0 0 false).

Definition with_stats (s : Session) (st : SessionStats) : Session :=
  mkSession (peer_ s) (local_key_id_ s) (remote_key_id_ s) (send_keys_ s) (receive_keys_ s)
    (send_counter_ s) (replay_ s) (endpoint_ s) (last_received_ s) (established_at_ s) st (sample_ s).
Definition with_sample (s : Session) (p : Sample) : Session :=
  mkSession (peer_ s) (local_key_id_ s) (remote_key_id_ s) (send_keys_ s) (receive_keys_ s)
    (send_counter_ s) (replay_ s) (endpoint_ s) (last_received_ s) (established_at_ s) (stats_ s) p.

(** The increments of the counters, 64 bits each. *)
Definition count_sent (t : SessionStats) : SessionStats :=
  mkSessionStats (u64 (sent t + 1)) (received t) (replay_drops t) (auth_failures t) (too_old_drops t).
Definition count_received (t : SessionStats) : SessionStats :=
  mkSessionStats (sent t) (u64 (received t + 1)) (replay_drops t) (auth_failures t) (too_old_drops t).
Definition count_replay (t : SessionStats) : SessionStats :=
  mkSessionStats (sent t) (received t) (u64 (replay_drops t + 1)) (auth_failures t) (too_old_drops t).
Definition count_auth_failure (t : SessionStats) : SessionStats :=
  mkSessionStats (sent t) (received t) (replay_drops t) (u64 (auth_failures t + 1)) (too_old_drops t).
Definition count_too_old (t : SessionStats) : SessionStats :=
  mkSessionStats (sent t) (received t) (replay_drops t) (auth_failures t) (u64 (too_old_drops t + 1)).

Definition note_authenticated_endpoint (s : Session) (e : Endpoint) : Session :=
  mkSession (peer_ s) (local_key_id_ s) (remote_key_id_ s) (send_keys_ s) (receive_keys_ s)
    (send_counter_ s) (replay_ s) (Some e) (last_received_ s) (established_at_ s) (stats_ s) (sample_ s).

Definition needs_rekey (s : Session) (now : Instant) : bool :=
  (kRekeyAfterMessages <=? sent (stats_ s)) || (kRekeyAfter <=? now - established_at_ s).

Definition expired (s : Session) (now : Instant) : bool :=
  (kRejectAfterMessages <=? sent (stats_ s)) || (kSessionExpiry <=? now - established_at_ s).

(** ** Sending *)

Definition reserve_counter (s : Session) : Session * res SessionError Z :=
  if kRejectAfterMessages <=? sent (stats_ s) then (s, Fail SessionError.counter_exhausted)
  else
    let '(sc, counter) := next (send_counter_ s) in
    let s' st := mkSession (peer_ s) (local_key_id_ s) (remote_key_id_ s) (send_keys_ s)
                   (receive_keys_ s) sc (replay_ s) (endpoint_ s) (last_received_ s)
                   (established_at_ s) st (sample_ s) in
    match counter with
    | Ok counter => (s' (count_sent (stats_ s)), Ok counter)
    | _ => (s' (stats_ s), Fail SessionError.counter_exhausted)
    end.

(** [sealed.error() == CryptoError::buffer_too_small ? ... : ...] *)
Definition session_error (e : CryptoError) : SessionError :=
  if decide (e = buffer_too_small) then SessionError.buffer_too_small
  else SessionError.authentication_failed.

Section data.
Context `{Aead}.

(** The buffer and the number of bytes to send. *)
Definition seal_reserved (st : Status) (c : AeadContexts) (s : Session) (type : FrameType)
    (counter : Z) (plaintext out : list Z) : AeadContexts * res SessionError (list Z * Z) :=
  let ciphertext_length := blen plaintext + kAeadTagSize in
  if blen out <? kPacketHeaderSize + ciphertext_length then (c, Fail SessionError.buffer_too_small)
  else if kMaximumPacketSize - kPacketHeaderSize <? ciphertext_length
  then (c, Fail SessionError.buffer_too_small)
  else
    let header := mkHeader kProtocolVersion type 0 (remote_key_id_ s) kPacketHeaderSize counter
                    (u16 ciphertext_length) in
    match serialize_header header ciphertext_length out with
    | Fail _ => (c, Fail SessionError.buffer_too_small)
    | Ub => (c, Ub)
    | Ok out =>
        match span_first (E:=SessionError) out 16, subspan_from (E:=SessionError) out 16 with
        | Ok associated, Ok rest =>
            let '(c, sealed) := Crypto.seal st c (send_keys_ s) counter associated plaintext rest in
            (c, match sealed with
                | Ok (rest, written) => Ok (associated ++ rest, kPacketHeaderSize + written)
                | Fail e => Fail (session_error e)
                | Ub => Ub
                end)
        | _, _ => (c, Ub)
        end
    end.

Definition seal (st : Status) (c : AeadContexts) (s : Session) (type : FrameType)
    (plaintext out : list Z) : AeadContexts * Session * res SessionError (list Z * Z) :=
  if blen out <? kPacketHeaderSize + blen plaintext + kAeadTagSize
  then (c, s, Fail SessionError.buffer_too_small)
  else
    let '(s, counter) := reserve_counter s in
    match counter with
    | Ok counter =>
        let '(c, r) := seal_reserved st c s type counter plaintext out in (c, s, r)
    | Fail e => (c, s, Fail e)
    | Ub => (c, s, Ub)
    end.

End data.

(** ** Receiving *)

Definition check_window (s : Session) (counter : Z) : Session * res SessionError unit :=
  let highest := highest_ (replay_ s) in
  if (counter <? highest) && (kWindowSize <=? highest - counter)
  then (with_stats s (count_too_old (stats_ s)), Fail SessionError.too_old)
  else (s, Ok tt).

Definition note_authentication_failure (s : Session) : Session :=
  with_stats s (count_auth_failure (stats_ s)).

Definition commit (now : Instant) (s : Session) (counter : Z) : Session * res SessionError unit :=
  let '(window, verdict) := accept (replay_ s) counter in
  let put last st p :=
    mkSession (peer_ s) (local_key_id_ s) (remote_key_id_ s) (send_keys_ s) (receive_keys_ s)
      (send_counter_ s) window (endpoint_ s) last (established_at_ s) st p in
  let p := sample_ s in
  match verdict with
  | replayed =>
      (put (last_received_ s) (count_replay (stats_ s))
         (mkSample (sample_base_ p) (sample_received_ p) (sample_recovered_ p)
            (u64 (sample_late_ p + 1)) (sample_primed_ p)),
       Fail SessionError.replayed)
  | too_old =>
      (put (last_received_ s) (count_too_old (stats_ s)) p, Fail SessionError.too_old)
  | accepted =>
      (put now (count_received (stats_ s))
         (mkSample (sample_base_ p) (u64 (sample_received_ p + 1)) (sample_recovered_ p)
            (sample_late_ p) (sample_primed_ p)),
       Ok tt)
  end.

Section receive.
Context `{Aead}.

Definition decrypt (st : Status) (c : AeadContexts) (s : Session) (view : PacketView)
    (packet out : list Z) : AeadContexts * list Z * res SessionError Z :=
  if blen packet <? kPacketHeaderSize then (c, out, Fail SessionError.buffer_too_small)
  else
    match span_first (E:=SessionError) packet 16 with
    | Ok associated =>
        let '(c, out, opened) :=
          Crypto.open st c (receive_keys_ s) (counter (header view)) associated (payload view) out in
        (c, out, match opened with
                 | Ok n => Ok n
                 | Fail e => Fail (session_error e)
                 | Ub => Ub
                 end)
    | _ => (c, out, Ub)
    end.

Definition open (st : Status) (now : Instant) (c : AeadContexts) (s : Session) (view : PacketView)
    (packet out : list Z) : AeadContexts * Session * list Z * res SessionError Z :=
  match check_window s (counter (header view)) with
  | (s, Ok _) =>
      let '(c, out, opened) := decrypt st c s view packet out in
      match opened with
      | Ok n =>
          let '(s, committed) := commit now s (counter (header view)) in
          (c, s, out, match committed with Ok _ => Ok n | Fail e => Fail e | Ub => Ub end)
      | Fail e =>
          let s := if decide (e = SessionError.authentication_failed)
                   then note_authentication_failure s else s in
          (c, s, out, Fail e)
      | Ub => (c, s, out, Ub)
      end
  | (s, Fail e) => (c, s, out, Fail e)
  | (s, Ub) => (c, s, out, Ub)
  end.

End receive.

(** ** Loss samples *)

Definition note_recovered (s : Session) : Session :=
  let p := sample_ s in
  with_sample s (mkSample (sample_base_ p) (sample_received_ p) (u64 (sample_recovered_ p + 1))
                   (sample_late_ p) (sample_primed_ p)).

Record LossSample := mkLoss { raw : f64; residual : f64; expected : Z }.

Definition fraction_missing (expected arrived : Z) : f64 :=
  if expected <=? arrived then fzero
  else fsub (of_int 1) (fdiv (of_int arrived) (of_int expected)).

Definition take_loss_sample (s : Session) : Session * option LossSample :=
  let p := sample_ s in
  let highest := highest_ (replay_ s) in
  let restart := with_sample s (mkSample highest 0 0 0 true) in
  if negb (sample_primed_ p) then
    if received (stats_ s) =? 0 then (s, None) else (restart, None)
  else
    let expected := if sample_base_ p <? highest then u64 (highest - sample_base_ p) else 0 in
    if expected <? 64 then (s, None)
    else
      let late := Z.min (sample_late_ p) (sample_recovered_ p) in
      let direct := u64 (sample_received_ p - sample_recovered_ p + late) in
      (restart, Some (mkLoss (fraction_missing expected direct)
                        (fraction_missing expected (sample_received_ p)) expected)).

(** ** Interleavings

    A session is shared by the workers: any order of its atomic steps can
    happen.  The events record the counters handed out for sending and the
    counters whose packets were delivered. *)

Inductive session_op :=
| do_reserve
| do_check (counter : Z)
| do_commit (now : Instant) (counter : Z)
| do_auth_failure
| do_recovered
| do_sample
| do_endpoint (e : Endpoint).

Inductive event := reserved (counter : Z) | delivered (counter : Z) | silent.

Definition step (s : Session) (op : session_op) : Session * event :=
  match op with
  | do_reserve => let '(s, r) := reserve_counter s in (s, match r with Ok c => reserved c | _ => silent end)
  | do_check c => ((check_window s c).1, silent)
  | do_commit now c => let '(s, r) := commit now s c in (s, match r with Ok _ => delivered c | _ => silent end)
  | do_auth_failure => (note_authentication_failure s, silent)
  | do_recovered => (note_recovered s, silent)
  | do_sample => ((take_loss_sample s).1, silent)
  | do_endpoint e => (note_authenticated_endpoint s e, silent)
  end.

Definition observe (h : Session * list event) (op : session_op) : Session * list event :=
  let '(s, e) := step h.1 op in (s, h.2 ++ [e]).

Definition run (s : Session) (ops : list session_op) : Session * list event :=
  fold_left observe ops (s, []).

Definition reserved_of (es : list event) : list Z :=
  omap (λ e, match e with reserved c => Some c | _ => None end) es.
Definition delivered_of (es : list event) : list Z :=
  omap (λ e, match e with delivered c => Some c | _ => None end) es.

Definition op_ok (op : session_op) : Prop :=
  match op with do_check c | do_commit _ c => is_u64 c | _ => True end.

(** What every history keeps. *)
Record session_inv (s : Session) (es : list event) : Prop := {
  inv_sent : 0 ≤ sent (stats_ s) ≤ kRejectAfterMessages;
  inv_counter : send_counter_ s = new_counter (sent (stats_ s));
  inv_reserved : reserved_of es = seqZ 0 (sent (stats_ s));
  inv_window : ∃ sp, window_sim (replay_ s) sp ∧ spec_wf sp ∧ NoDup (delivered_of es) ∧
    ∀ c, c ∈ seen_set sp ↔ c ∈ delivered_of es;
}.

Lemma new_session_inv now peer l r sk rk : session_inv (new_session now peer l r sk rk) [].
Proof.
  split; simpl; [by vm_compute|done..|]. exists new_spec. split; [apply new_window_sim|].
  split; [done|]. split; [constructor|]. intros c. set_solver.
Qed.

(** A step that touches neither counter, window nor [sent]. *)
Lemma session_inv_frame s s' es : session_inv s es →
  sent (stats_ s') = sent (stats_ s) → send_counter_ s' = send_counter_ s → replay_ s' = replay_ s →
  session_inv s' (es ++ [silent]).
Proof.
  intros [Hs Hc Hr Hw] E1 E2 E3. split; rewrite ?E1, ?E2, ?E3; try done.
  - unfold reserved_of. rewrite omap_app. simpl. by rewrite app_nil_r.
  - unfold delivered_of. rewrite omap_app. simpl. by rewrite app_nil_r.
Qed.

Lemma reserve_counter_inv s es : session_inv s es →
  (∃ s', reserve_counter s = (s', Ok (sent (stats_ s))) ∧ sent (stats_ s) < kRejectAfterMessages ∧
    session_inv s' (es ++ [reserved (sent (stats_ s))]) ∧ sent (stats_ s') = sent (stats_ s) + 1 ∧
    send_keys_ s' = send_keys_ s ∧ remote_key_id_ s' = remote_key_id_ s) ∨
  (sent (stats_ s) = kRejectAfterMessages ∧ reserve_counter s = (s, Fail SessionError.counter_exhausted)).
Proof.
  intros [Hs Hc Hr Hw]. unfold reserve_counter. rewrite Hc. unfold next. cbn [new_counter exhausted_ value_].
  assert (kRejectAfterMessages < UINT64_MAX) as Hlim by (by vm_compute).
  destruct (Z.leb_spec kRejectAfterMessages (sent (stats_ s))); [right; split; [lia|done]|left].
  assert (u64 (sent (stats_ s) + 1) = sent (stats_ s) + 1) as Hu.
  { apply u64_id. unfold is_u64, UINT64_MAX in *. lia. }
  destruct (Z.eqb_spec (sent (stats_ s)) UINT64_MAX); [lia|]. eexists. split; [done|].
  cbn [stats_ count_sent sent]. rewrite !Hu. split; [done|]. split; [|done].
  split; cbn [stats_ count_sent sent send_counter_ replay_]; rewrite ?Hu; [lia|done|..].
  - unfold reserved_of. rewrite omap_app. fold (reserved_of es). rewrite Hr. simpl.
    by rewrite seqZ_snoc by lia.
  - unfold delivered_of. rewrite omap_app. simpl. by rewrite app_nil_r.
Qed.

(** A commit delivers a counter that was not delivered before, and refuses
    only delivered counters and those below the window. *)
Lemma commit_inv now s es c : session_inv s es → is_u64 c →
  (∃ s', commit now s c = (s', Ok tt) ∧ c ∉ delivered_of es ∧ session_inv s' (es ++ [delivered c])) ∨
  (∃ s' e, commit now s c = (s', Fail e) ∧
    (c ∈ delivered_of es ∨ kWindowSize ≤ highest_ (replay_ s) - c) ∧
    session_inv s' (es ++ [silent])).
Proof.
  intros Hinv Hc. pose proof Hinv as [Hs Hcn Hr (sp & Hsim & Hwf & Hnd & Hset)].
  pose proof (accept_sim _ _ c Hsim Hc) as Ha. unfold commit.
  destruct (accept (replay_ s) c) as [w v] eqn:Eacc, (accept_spec sp c) as [sp' v'] eqn:Esp.
  destruct Ha as [<- Hsim']. destruct (accept_spec_step _ _ _ _ Hwf Esp) as (Hwf' & Hyes & Hno).
  destruct (decide (v = accepted)) as [->|Hv].
  - left. destruct (Hyes eq_refl) as [Hnew Hseen]. eexists. split; [done|].
    assert (c ∉ delivered_of es) as Hfresh by (by rewrite <- Hset). split; [done|].
    split; cbn [stats_ count_received sent send_counter_ replay_]; [done..| |].
    + unfold reserved_of. rewrite omap_app. simpl. by rewrite app_nil_r.
    + exists sp'. split; [done|]. split; [done|]. unfold delivered_of. rewrite omap_app. simpl.
      fold (delivered_of es). split.
      * apply NoDup_app. split; [done|]. split; [set_solver|]. apply NoDup_singleton.
      * intros d. rewrite Hseen. set_solver.
  - right. rewrite (Hno Hv) in *.
    assert (c ∈ delivered_of es ∨ kWindowSize ≤ highest_ (replay_ s) - c) as Hwhy.
    { rewrite <- Hset. unfold accept_spec in Esp. rewrite (sim_top _ _ Hsim) in Esp.
      destruct (initialized_ (replay_ s)); [|by simplify_eq].
      destruct (_ <? _); [by simplify_eq|].
      destruct (Z.leb_spec kWindowSize (highest_ (replay_ s) - c)); [by right|].
      case_decide; [by left|by simplify_eq]. }
    assert (∀ s', sent (stats_ s') = sent (stats_ s) → send_counter_ s' = send_counter_ s →
      replay_ s' = w → session_inv s' (es ++ [silent])) as Hframe.
    { intros s' E1 E2 E3. split; rewrite ?E1, ?E2, ?E3; try done.
      - unfold reserved_of. rewrite omap_app. simpl. by rewrite app_nil_r.
      - unfold delivered_of. rewrite omap_app. simpl. rewrite app_nil_r. by exists sp. }
    destruct v; [done|..]; do 2 eexists; (split; [done|]); (split; [done|]); by apply Hframe.
Qed.

Lemma step_inv s es op : session_inv s es → op_ok op →
  session_inv (step s op).1 (es ++ [(step s op).2]).
Proof.
  intros Hinv Hop. destruct op as [|c|now c| | | |e]; cbn [step].
  - destruct (reserve_counter_inv s es Hinv) as [(s' & -> & _ & H & _)|[_ ->]]; [done|].
    by apply (session_inv_frame s).
  - apply (session_inv_frame s); [done|..]; unfold check_window; by case_match.
  - destruct (commit_inv now s es c Hinv Hop) as [(s' & -> & _ & H)|(s' & e & -> & _ & H)]; done.
  - by apply (session_inv_frame s).
  - by apply (session_inv_frame s).
  - apply (session_inv_frame s); [done|..]; unfold take_loss_sample; by repeat case_match.
  - by apply (session_inv_frame s).
Qed.

Lemma run_inv s ops : session_inv s [] → Forall op_ok ops →
  session_inv (run s ops).1 (run s ops).2.
Proof.
  intros Hs Hops. unfold run.
  assert (session_inv (s, @nil event).1 (s, @nil event).2) as H by done. revert H.
  generalize (s, @nil event). induction Hops as [|op ops Hop Hops IH]; intros h Hh; [done|].
  cbn [fold_left]. apply IH. unfold observe. pose proof (step_inv h.1 h.2 op Hh Hop) as Hn.
  by destruct (step h.1 op) as [s' e].
Qed.

(** No step exchanges a key. *)
Lemma run_keys s ops : receive_keys_ (run s ops).1 = receive_keys_ s.
Proof.
  unfold run. change s with (s, @nil event).1 at 2. generalize (s, @nil event).
  induction ops as [|op ops IH]; intros h; [done|]. cbn [fold_left]. rewrite IH. unfold observe.
  destruct op; cbn [step]; unfold reserve_counter, commit, check_window, take_loss_sample;
    repeat case_match; by simplify_eq/=.
Qed.

Lemma run_from s es ops : fold_left observe ops (s, es) = ((run s ops).1, es ++ (run s ops).2).
Proof.
  unfold run. revert s es. induction ops as [|op ops IH]; intros s es; [by rewrite app_nil_r|].
  cbn [fold_left]. unfold observe at 2 4 6. cbn [fst snd]. destruct (step s op) as [s1 e]. cbn [fst snd].
  rewrite (IH s1 (es ++ [e])), (IH s1 ([] ++ [e])). cbn. by rewrite <- app_assoc.
Qed.

Lemma run_app_state s ops ops' : (run s (ops ++ ops')).1 = (run (run s ops).1 ops').1.
Proof. unfold run at 1. rewrite fold_left_app, (run_from s []), run_from. done. Qed.

Lemma run_inv_from s es ops : session_inv s es → Forall op_ok ops → session_inv (run s ops).1 (es ++ (run s ops).2).
Proof.
  intros Hs Hops. revert s es Hs. induction Hops as [|op ops Hop Hops IH]; intros s es Hs; [by rewrite app_nil_r|].
  unfold run. cbn [fold_left]. unfold observe at 2 4. cbn [fst snd]. pose proof (step_inv s es op Hs Hop) as H1.
  destruct (step s op) as [s1 e]. cbn [fst snd app] in *. rewrite run_from. cbn [fst snd]. rewrite app_assoc. by apply IH.
Qed.

Lemma run_peer s ops : peer_ (run s ops).1 = peer_ s.
Proof.
  revert s. induction ops as [|op ops IH]; intros s; [done|]. unfold run. cbn [fold_left]. unfold observe at 2. cbn [fst snd].
  destruct (step s op) as [s1 e] eqn:E. rewrite run_from. cbn [fst]. rewrite IH.
  destruct op; cbn [step] in E; unfold reserve_counter, commit, check_window, take_loss_sample in E;
    repeat case_match; by simplify_eq/=.
Qed.

(** C8. Under every interleaving of the session's steps by concurrent workers,
    the counters handed out for sending are 0, 1, 2, ... without a gap or a
    repetition and stop for good [2^13] below the last one, so no nonce of the
    send key is used twice; and no counter is delivered twice. *)
Theorem interleaved_counters_unique now peer l r sk rk ops : Forall op_ok ops →
  let h := run (new_session now peer l r sk rk) ops in
  reserved_of h.2 = seqZ 0 (sent (stats_ h.1)) ∧
  sent (stats_ h.1) ≤ kRejectAfterMessages ∧
  NoDup (map nonce_of (reserved_of h.2)) ∧
  NoDup (delivered_of h.2).
Proof.
  intros Hops h. destruct (run_inv _ ops (new_session_inv now peer l r sk rk) Hops)
    as [Hs _ Hr (sp & _ & _ & Hnd & _)]. fold h in Hs, Hr, Hnd.
  split; [done|]. split; [lia|]. split; [|done]. rewrite Hr.
  apply NoDup_fmap_2_strong; [|apply NoDup_seqZ].
  assert (kRejectAfterMessages < UINT64_MAX) as Hlim by (by vm_compute).
  intros x y Hx%elem_of_seqZ Hy%elem_of_seqZ E. apply (make_nonce_inj (E:=Error)).
  - unfold is_u64, UINT64_MAX in *. lia.
  - unfold is_u64, UINT64_MAX in *. lia.
  - rewrite !make_nonce_spec. by f_equal.
Qed.

Definition sample_keys : TrafficKeys := mkKeys (replicate 32 7) 1.
Definition sample_session : Session := new_session 0 3 11 12 sample_keys sample_keys.

Lemma interleaved_counters_unique_witness :
  let h := run sample_session
    [do_reserve; do_check 5; do_check 5; do_commit 9 5; do_commit 9 5; do_reserve; do_sample] in
  NoDup (delivered_of h.2) ∧ reserved_of h.2 = [0; 1] ∧ delivered_of h.2 = [5].
Proof.
  intros h. split; [|by vm_compute].
  apply (interleaved_counters_unique 0 3 11 12 sample_keys sample_keys).
  repeat constructor; word_lia.
Defined.

(** ** Packets between two sessions *)

Section roundtrip.
Context `{AeadLaws}.

Definition sealed_header (s : Session) (type : FrameType) (counter : Z) (plen : Z) : PacketHeader :=
  mkHeader kProtocolVersion type 0 (remote_key_id_ s) kPacketHeaderSize counter (u16 plen).

(** The datagram a session sends for a plaintext. *)
Definition sealed_packet (s : Session) (type : FrameType) (counter : Z) (p : list Z) : list Z :=
  let hb := header_bytes (sealed_header s type counter (blen p + 16)) (blen p + 16) in
  hb ++ aead_encrypt (key_ (send_keys_ s)) (nonce_of counter) hb p.

Definition sealed_view (s : Session) (type : FrameType) (counter : Z) (p : list Z) : PacketView :=
  mkView (sealed_header s type counter (blen p + 16)) (drop 16 (sealed_packet s type counter p)).

(** What a frame needs to be sendable by a session. *)
Record frame_fits (s : Session) (type : FrameType) (p out : list Z) : Prop := {
  ff_type : valid_frame_type type = true;
  ff_named : frame_of (frame_val type) = type;
  ff_key : is_u16 (remote_key_id_ s) ∧ remote_key_id_ s ≠ kPreSessionKeyId;
  ff_bytes : bytes_ok p;
  ff_size : blen p + 32 ≤ kMaximumPacketSize;
  ff_room : blen p + 32 ≤ blen out;
  ff_secret : key_ (send_keys_ s) ≠ zero_key;
}.

Lemma sealed_header_sendable s type counter p out : frame_fits s type p out →
  sendable (sealed_header s type counter (blen p + 16)) (blen p + 16) = true.
Proof.
  intros [Ht _ [_ Hk] _ Hs _ _]. unfold sendable.
  cbn [sealed_header version Packet.type flags header_length key_id].
  rewrite Ht, (proj2 (Z.eqb_neq _ _) Hk), !Z.eqb_refl. cbn [andb negb].
  apply Z.leb_le. unfold kPacketHeaderSize. lia.
Qed.

Lemma drop_sealed_packet s type counter p :
  drop 16 (sealed_packet s type counter p) =
  aead_encrypt (key_ (send_keys_ s)) (nonce_of counter)
    (header_bytes (sealed_header s type counter (blen p + 16)) (blen p + 16)) p.
Proof. reflexivity. Qed.

Lemma blen_sealed_packet s type counter p : blen (sealed_packet s type counter p) = blen p + 32.
Proof.
  unfold sealed_packet. rewrite blen_app. unfold blen. rewrite length_header_bytes, aead_size. lia.
Qed.

Lemma parse_sealed_packet s type counter p out : frame_fits s type p out → is_u64 counter →
  parse_packet (sealed_packet s type counter p) = Ok (sealed_view s type counter p).
Proof.
  intros Hf Hc. pose proof (sealed_header_sendable s type counter p out Hf) as Hs.
  assert (blen (payload (sealed_view s type counter p)) = blen p + 16) as Hl.
  { unfold sealed_view. cbn [payload]. rewrite drop_sealed_packet. unfold blen. rewrite aead_size. lia. }
  rewrite <- (parse_header_bytes (sealed_view s type counter p)).
  - rewrite Hl. unfold sealed_view. cbn [header payload]. by rewrite drop_sealed_packet.
  - destruct Hf as [Ht Hn [Hk _] Hb Hsz _ _]. pose proof (blen_nonneg p).
    unfold kMaximumPacketSize in Hsz. split; [|split].
    + split; cbn; try done; try word_lia. apply u16_range.
    + unfold sealed_view. cbn [payload]. rewrite drop_sealed_packet. by apply aead_bytes.
    + rewrite Hl. split; [done|]. cbn. apply u16_id. word_lia.
Qed.

Lemma seal_reserved_spec st c s type counter p out : contexts_ok c → healthy st = true →
  frame_fits s type p out →
  ∃ c', contexts_ok c' ∧ seal_reserved st c s type counter p out =
    (c', Ok (sealed_packet s type counter p ++ drop (length p + 32) out, blen p + 32)).
Proof.
  intros Hc Hst Hf. pose proof (sealed_header_sendable s type counter p out Hf) as Hs.
  destruct Hf as [_ _ _ _ Hsz Hroom Hk]. unfold seal_reserved.
  unfold kAeadTagSize, kPacketHeaderSize, kMaximumPacketSize in *.
  destruct (Z.ltb_spec (blen out) (16 + (blen p + 16))); [lia|].
  destruct (Z.ltb_spec (65535 - 16) (blen p + 16)); [lia|].
  fold (sealed_header s type counter (blen p + 16)).
  pose proof (blen_nonneg p). rewrite serialize_header_spec by (done || (unfold kPacketHeaderSize; lia)).
  set (hb := header_bytes _ _). assert (length hb = 16%nat) as Hhb by done.
  unfold span_first, subspan_from. rewrite !decide_True by (rewrite length_app, Hhb; lia).
  rewrite take_app_length' by done. rewrite drop_app_length' by done.
  destruct (seal_spec st c (send_keys_ s) counter hb p (drop 16 out)) as [Hc' [E|[E _]]].
  - done.
  - done.
  - unfold blen, kAeadTagSize in *. rewrite length_drop. lia.
  - destruct (Crypto.seal _ _ _ _ _ _ _) as [c' r]. cbn [fst snd] in *. subst r.
    exists c'. split; [done|]. unfold kAeadTagSize. do 3 f_equal; [|lia].
    change (sealed_packet s type counter p) with
      (hb ++ aead_encrypt (key_ (send_keys_ s)) (nonce_of counter) hb p).
    rewrite <- app_assoc, drop_drop. do 3 f_equal. lia.
  - congruence.
Qed.

(** A session whose receive key is the sender's, with the counter fresh and in
    the window, opens the packet and delivers it. *)
Lemma open_sealed st now c r es s type counter p out out' : contexts_ok c → healthy st = true →
  frame_fits s type p out → is_u64 counter → receive_keys_ r = send_keys_ s → session_inv r es →
  counter ∉ delivered_of es → highest_ (replay_ r) - counter < kWindowSize → blen p ≤ blen out' →
  ∃ c' r', contexts_ok c' ∧ session_inv r' (es ++ [delivered counter]) ∧
    open st now c r (sealed_view s type counter p) (sealed_packet s type counter p) out' =
    (c', r', p ++ drop (length p) out', Ok (blen p)).
Proof.
  intros Hc Hst Hf Hu Hkeys Hinv Hnew Hwin Hroom. pose proof (ff_secret _ _ _ _ Hf) as Hk.
  unfold open. cbn [sealed_view header sealed_header Packet.counter].
  unfold check_window. destruct (Z.leb_spec kWindowSize (highest_ (replay_ r) - counter)); [lia|].
  rewrite andb_false_r. unfold decrypt.
  pose proof (blen_sealed_packet s type counter p) as Hlen. pose proof (blen_nonneg p).
  destruct (Z.ltb_spec (blen (sealed_packet s type counter p)) kPacketHeaderSize);
    [unfold kPacketHeaderSize in *; lia|].
  rewrite span_first_ok by (unfold blen in *; lia).
  set (hb := take 16 _). cbn [sealed_view header sealed_header Packet.counter payload].
  destruct (open_spec st c (receive_keys_ r) counter hb
    (drop 16 (sealed_packet s type counter p)) out') as [Hc' Ho].
  - done.
  - by rewrite Hkeys.
  - unfold blen, kAeadTagSize in *. rewrite length_drop. lia.
  - unfold blen, kAeadTagSize in *. rewrite length_drop. lia.
  - rewrite Hkeys, drop_sealed_packet, aead_opens in Ho.
    destruct Ho as [Ho|[Ho _]]; [|congruence]. cbn [opened_as] in Ho. rewrite Hkeys in *.
    rewrite drop_sealed_packet in *.
    destruct (Crypto.open _ _ _ _ _ _ _) as [[c' out2] res]. cbn [fst snd] in *.
    injection Ho as -> ->.
    destruct (commit_inv now r es counter Hinv Hu) as [(r' & -> & _ & Hr')|(r' & e & _ & [Hin|Hold] & _)];
      [|done|lia].
    by exists c', r'.
Qed.

(** A delivered counter is not delivered again. *)
Lemma open_delivered_again st now c r es view packet out n : session_inv r es →
  is_u64 (counter (header view)) → counter (header view) ∈ delivered_of es →
  (open st now c r view packet out).2 ≠ Ok n.
Proof.
  intros Hinv Hu Hin. unfold open. destruct (check_window _ _) as [r1 [[]|e|]] eqn:Ew; [|done..].
  assert (session_inv r1 (es ++ [silent])) as Hinv1.
  { assert (r1 = (check_window r (counter (header view))).1) as -> by (by rewrite Ew).
    by apply (step_inv r es (do_check (counter (header view)))). }
  destruct (decrypt _ _ _ _ _ _) as [[c1 o1] [m|e|]]; [|by case_decide|done].
  destruct (commit_inv now r1 _ _ Hinv1 Hu) as [(r' & _ & Hnew & _)|(r' & e & -> & _)]; [|done].
  exfalso. apply Hnew. unfold delivered_of in *. rewrite omap_app. simpl. by rewrite app_nil_r.
Qed.

End roundtrip.

(** C3. A frame sealed by one session is delivered once by the other.  For two
    sessions in any reachable states, the send key of one the receive key of
    the other: sealing a frame that fits a datagram succeeds while the counter
    is below the limit, the datagram parses and names the remote key id; when
    its counter was not delivered and is not below the window, opening it
    yields exactly the plaintext; and a second [open] of it, later and under
    any circumstances, delivers nothing. *)
Theorem sealed_packet_opens_once `{AeadLaws} now peer l r sk rk ops now' peer' l' r' sk' ops'
    st st' time c c' type p out out' :
  let s := (run (new_session now peer l r sk rk) ops).1 in
  let h := run (new_session now' peer' l' r' sk' (send_keys_ s)) ops' in
  let v := sent (stats_ s) in
  Forall op_ok ops → Forall op_ok ops' → contexts_ok c → contexts_ok c' →
  healthy st = true → healthy st' = true → frame_fits s type p out → blen p ≤ blen out' →
  v < kRejectAfterMessages → v ∉ delivered_of h.2 → highest_ (replay_ h.1) - v < kWindowSize →
  ∃ c1 s1 buf view c2 h1,
    seal st c s type p out = (c1, s1, Ok (buf, blen p + 32)) ∧
    let packet := take (length p + 32) buf in
    parse_packet packet = Ok view ∧ key_id (header view) = remote_key_id_ s ∧
    open st' time c' h.1 view packet out' = (c2, h1, p ++ drop (length p) out', Ok (blen p)) ∧
    ∀ st'' time' c'' out'' n, (open st'' time' c'' h1 view packet out'').2 ≠ Ok n.
Proof.
  intros s h v Hops Hops' Hc Hc' Hst Hst' Hf Hroom Hv Hnew Hwin.
  assert (receive_keys_ h.1 = send_keys_ s) as Hkeys by apply run_keys.
  pose proof (run_inv _ ops (new_session_inv now peer l r sk rk) Hops) as Hs. fold s in Hs.
  pose proof (run_inv _ ops' (new_session_inv now' peer' l' r' sk' (send_keys_ s)) Hops') as Hh. fold h in Hh.
  destruct (reserve_counter_inv _ _ Hs) as [(s1 & Er & _ & _ & _ & Hsk & Hrk)|[E _]]; [|fold v in E; lia].
  assert (is_u64 v) as Hu.
  { assert (kRejectAfterMessages < UINT64_MAX) by (by vm_compute).
    pose proof (inv_sent _ _ Hs). unfold is_u64, UINT64_MAX in *. unfold v in *. lia. }
  assert (frame_fits s1 type p out) as Hf1 by (destruct Hf; split; congruence).
  destruct (seal_reserved_spec st c s1 type v p out Hc Hst Hf1) as (c1 & _ & Es).
  destruct (open_sealed st' time c' h.1 h.2 s1 type v p out out') as (c2 & h1 & _ & Hh1 & Eo);
    try done; [congruence|].
  exists c1, s1, (sealed_packet s1 type v p ++ drop (length p + 32) out), (sealed_view s1 type v p), c2, h1.
  assert (take (length p + 32) (sealed_packet s1 type v p ++ drop (length p + 32) out) =
    sealed_packet s1 type v p) as ->.
  { apply take_app_length'. pose proof (blen_sealed_packet s1 type v p). unfold blen in *. lia. }
  split; [|split; [by eapply parse_sealed_packet|split; [done|split; [done|]]]].
  - unfold seal. destruct (Z.ltb_spec (blen out) (kPacketHeaderSize + blen p + kAeadTagSize)).
    + destruct Hf. unfold kPacketHeaderSize, kAeadTagSize in *. lia.
    + rewrite Er. fold v. by rewrite Es.
  - intros. apply (open_delivered_again _ _ _ _ _ _ _ _ _ Hh1); [done|]. cbn.
    unfold delivered_of. rewrite omap_app. simpl. set_solver.
Qed.

Lemma sealed_packet_opens_once_witness :
  let _ := toy_aead in
  ∃ c1 s1 buf view c2 h1,
    seal all_well (new_contexts true) sample_session FrameType.data [1; 2; 3] (replicate 40 0) =
      (c1, s1, Ok (buf, 35)) ∧
    parse_packet (take 35 buf) = Ok view ∧
    open all_well 50 (new_contexts true) sample_session view (take 35 buf) (replicate 4 0) =
      (c2, h1, [1; 2; 3; 0], Ok 3) ∧
    (open all_well 60 c2 h1 view (take 35 buf) (replicate 4 0)).2 ≠ Ok 3.
Proof.
  intros T.
  destruct (@sealed_packet_opens_once toy_aead toy_laws 0 3 11 12 sample_keys sample_keys [] 0 3 11 12
    sample_keys [] all_well all_well 50 (new_contexts true) (new_contexts true) FrameType.data
    [1; 2; 3] (replicate 40 0) (replicate 4 0)) as (c1 & s1 & buf & view & c2 & h1 & E1 & E2 & E3 & E4 & E5).
  - constructor.
  - constructor.
  - apply new_contexts_for.
  - apply new_contexts_for.
  - reflexivity.
  - reflexivity.
  - split; try (by vm_compute).
    + repeat constructor; word_lia.
  - by vm_compute.
  - by vm_compute.
  - vm_compute. intros Hin. inversion Hin.
  - by vm_compute.
  - exists c1, s1, buf, view, c2, h1. split; [exact E1|]. split; [exact E2|]. split; [exact E4|].
    apply E5.
Defined.

(** A datagram the cipher rejects changes nothing but the statistics.  The
    call reports [authentication_failed], or [too_old] for a counter below the
    window; window, counters, loss sample and liveness of the session are as
    before, and the bytes of the output buffer that could hold the forged
    plaintext are zero. *)
Lemma forgery_changes_nothing `{AeadLaws} st now c s view packet out :
  contexts_ok c → key_ (receive_keys_ s) ≠ zero_key →
  kPacketHeaderSize ≤ blen packet → kAeadTagSize ≤ blen (payload view) →
  blen (payload view) - kAeadTagSize ≤ blen out →
  aead_decrypt (key_ (receive_keys_ s)) (nonce_of (counter (header view))) (take 16 packet)
    (payload view) = None →
  ∃ c' s' out' e, open st now c s view packet out = (c', s', out', Fail e) ∧
    contexts_ok c' ∧ with_stats s' (stats_ s) = s ∧
    sent (stats_ s') = sent (stats_ s) ∧ received (stats_ s') = received (stats_ s) ∧
    ((e = SessionError.too_old ∧ out' = out) ∨
     (e = SessionError.authentication_failed ∧
      take (length (payload view) - 16) out' = replicate (length (payload view) - 16) 0)).
Proof.
  intros Hc Hk Hp Htag Hroom Hforged. unfold open, check_window.
  destruct ((_ <? _) && _).
  { do 4 eexists. split; [reflexivity|]. split; [done|]. split; [by destruct s|]. auto. }
  unfold decrypt. rewrite (proj2 (Z.ltb_ge _ _) Hp), span_first_ok.
  2:{ unfold kPacketHeaderSize, blen in Hp. lia. }
  destruct (open_spec st c (receive_keys_ s) (counter (header view)) (take 16 packet)
    (payload view) out Hc Hk Htag Hroom) as [Hc' Ho].
  destruct (Crypto.open _ _ _ _ _ _ _) as [[c' out'] r]. cbn [fst snd] in *.
  rewrite Hforged in Ho.
  assert (r = Fail authentication_failed ∧
    take (length (payload view) - 16) out' = replicate (length (payload view) - 16) 0) as [-> Hz].
  { destruct Ho as [(?&?&?)|(_&?&?&?)]; done. }
  do 4 eexists. split; [reflexivity|]. split; [done|]. split; [by destruct s|]. auto.
Qed.

