(* ===== verification/SessionTable.v ===== *)
(** The sessions of a node: class [SessionTable] of [src/session.cpp].

    The table holds shared pointers; sessions are objects of a heap that
    outlive their entry while a worker holds one, so a pointer is an index
    into [Heap] and the table is a map from key ids to pointers.  Iteration
    order of the hash maps is never observed by these operations. *)

From S2P Require Import Prelude Packet Nonce ReplayWindow Routing Crypto Session.

Definition kMaximumSessions : Z := 1024.

Abbreviation Heap := (list Session).

Record Retired := mkRetired { retired_id : Z; retired_at : Instant }.

Record SessionTable := mkSessionTable {
  sessions_ : gmap Z nat;
  by_peer_ : gmap Z Z;
  retired_ : list Retired;
  retired_receives_ : Z;
  next_key_id_ : Z;
}.

Definition new_session_table : SessionTable := mkSessionTable ∅ ∅ [] 0 1.

(** [sessions_.size()] *)
Definition table_size (t : SessionTable) : Z := Z.of_nat (size (sessions_ t)).

(** ** [allocate_key_id] *)

Definition next_id (id : Z) : Z := u16 (if id =? 0xFFFF then 1 else id + 1).

(** The loop of 65536 attempts: the id found and the next one to try. *)
Fixpoint allocate_loop (fuel : nat) (sessions : gmap Z nat) (next : Z) : Z * res SessionError Z :=
  match fuel with
  | O => (next, Fail SessionError.key_id_exhausted)
  | S fuel =>
      let candidate := next in
      let next := next_id next in
      if candidate =? kPreSessionKeyId then allocate_loop fuel sessions next
      else match sessions !! candidate with
           | None => (next, Ok candidate)
           | Some _ => allocate_loop fuel sessions next
           end
  end.

Definition allocate_key_id (t : SessionTable) : SessionTable * res SessionError Z :=
  if kMaximumSessions <=? table_size t then (t, Fail SessionError.too_many_sessions)
  else
    let '(next, r) := allocate_loop (Z.to_nat 0x10000) (sessions_ t) (next_key_id_ t) in
    (mkSessionTable (sessions_ t) (by_peer_ t) (retired_ t) (retired_receives_ t) next, r).

(** ** [install], [find_by_key_id], [find_by_peer], [expire_retired], [remove] *)

(** [std::erase_if(retired_, entry.key_id == id)] *)
Definition forget_retired (id : Z) (rs : list Retired) : list Retired :=
  filter (λ r, retired_id r ≠ id) rs.

Definition install (now : Instant) (heap : Heap) (t : SessionTable) (peer local_key_id : Z)
    (session : Session) : Heap * SessionTable * res SessionError nat :=
  if peer =? kNoPeer then (heap, t, Fail SessionError.unknown_peer)
  else if local_key_id =? kPreSessionKeyId then (heap, t, Fail SessionError.unknown_key_id)
  else if kMaximumSessions <=? table_size t then (heap, t, Fail SessionError.too_many_sessions)
  else
    let '(sessions, by_peer, retired) :=
      match by_peer_ t !! peer with
      | Some existing =>
          let by_peer := delete peer (by_peer_ t) in
          if negb (existing =? local_key_id)
          then (sessions_ t, by_peer, retired_ t ++ [mkRetired existing now])
          else (delete existing (sessions_ t), by_peer, retired_ t)
      | None => (sessions_ t, by_peer_ t, retired_ t)
      end in
    let sessions := delete local_key_id sessions in
    let retired := forget_retired local_key_id retired in
    let pointer := length heap in
    match sessions !! local_key_id with
    | Some _ =>
        (heap ++ [session],
         mkSessionTable sessions by_peer retired (retired_receives_ t) (next_key_id_ t),
         Fail SessionError.unknown_key_id)
    | None =>
        (heap ++ [session],
         mkSessionTable (<[local_key_id := pointer]> sessions) (<[peer := local_key_id]> by_peer)
           retired (retired_receives_ t) (next_key_id_ t),
         Ok pointer)
    end.

(** The overload that constructs the session; the clock is read once for the
    session's age and once for the retirement, here at the same instant. *)
Definition install_keys (now : Instant) (heap : Heap) (t : SessionTable)
    (peer local_key_id remote_key_id : Z) (send_keys receive_keys : TrafficKeys)
    : Heap * SessionTable * res SessionError nat :=
  install now heap t peer local_key_id
    (new_session now peer local_key_id remote_key_id send_keys receive_keys).

Definition is_retired (t : SessionTable) (id : Z) : bool :=
  existsb (λ r, retired_id r =? id) (retired_ t).

Definition find_by_key_id (t : SessionTable) (id : Z) : SessionTable * option nat :=
  match sessions_ t !! id with
  | None => (t, None)
  | Some pointer =>
      (if is_retired t id
       then mkSessionTable (sessions_ t) (by_peer_ t) (retired_ t) (u64 (retired_receives_ t + 1))
              (next_key_id_ t)
       else t,
       Some pointer)
  end.

Definition find_by_peer (t : SessionTable) (peer : Z) : SessionTable * option nat :=
  match by_peer_ t !! peer with
  | None => (t, None)
  | Some id => find_by_key_id t id
  end.

(** The predicate of [erase_if] erases the session as it goes. *)
Fixpoint expire_retired_loop (now : Instant) (rs : list Retired) (sessions : gmap Z nat)
    : gmap Z nat * list Retired :=
  match rs with
  | [] => (sessions, [])
  | r :: rs =>
      if now - retired_at r <? kRetireAfter then
        let '(sessions, rs) := expire_retired_loop now rs sessions in (sessions, r :: rs)
      else expire_retired_loop now rs (delete (retired_id r) sessions)
  end.

Definition expire_retired (now : Instant) (t : SessionTable) : SessionTable :=
  let '(sessions, retired) := expire_retired_loop now (retired_ t) (sessions_ t) in
  mkSessionTable sessions (by_peer_ t) retired (retired_receives_ t) (next_key_id_ t).

Definition remove (heap : Heap) (t : SessionTable) (id : Z) : SessionTable :=
  match sessions_ t !! id with
  | None => t
  | Some pointer =>
      let retired := forget_retired id (retired_ t) in
      let by_peer :=
        match heap !! pointer with
        | Some s =>
            match by_peer_ t !! peer_ s with
            | Some current => if current =? id then delete (peer_ s) (by_peer_ t) else by_peer_ t
            | None => by_peer_ t
            end
        | None => by_peer_ t
        end in
      mkSessionTable (delete id (sessions_ t)) by_peer retired (retired_receives_ t) (next_key_id_ t)
  end.

(** ** Key ids are found while there is room *)

Lemma next_id_range id : 1 ≤ id < 2 ^ 16 → 1 ≤ next_id id < 2 ^ 16.
Proof. unfold next_id. intros H. destruct (Z.eqb_spec id 0xFFFF); rewrite u16_id; word_lia. Qed.

(** The [i]th id tried after [id]. *)
Definition nth_id (id : Z) (i : nat) : Z := (id - 1 + Z.of_nat i) mod 65535 + 1.

Lemma nth_id_0 id : 1 ≤ id < 2 ^ 16 → nth_id id 0 = id.
Proof. intros H. unfold nth_id. rewrite Z.mod_small; lia. Qed.

Lemma nth_id_S id i : 1 ≤ id < 2 ^ 16 → nth_id id (S i) = nth_id (next_id id) i.
Proof.
  intros H. unfold nth_id, next_id. destruct (Z.eqb_spec id 0xFFFF) as [->|Hne].
  - rewrite u16_id by word_lia. replace (65535 - 1 + Z.of_nat (S i)) with (1 - 1 + Z.of_nat i + 1 * 65535) by lia.
    by rewrite Z.mod_add.
  - rewrite u16_id by word_lia. do 2 f_equal. lia.
Qed.

Lemma nth_id_inj id i j : Z.of_nat i < 65535 → Z.of_nat j < 65535 → nth_id id i = nth_id id j → i = j.
Proof.
  unfold nth_id. intros Hi Hj E.
  rewrite !Z.mod_eq in E by lia. lia.
Qed.

(** The loop stops at the first free id among those it tries. *)
Lemma allocate_loop_spec fuel m id : 1 ≤ id < 2 ^ 16 →
  (∃ i, (i < fuel)%nat ∧ m !! nth_id id i = None) →
  ∃ i, (∀ k, (k < i)%nat → is_Some (m !! nth_id id k)) ∧ m !! nth_id id i = None ∧
    allocate_loop fuel m id = (next_id (nth_id id i), Ok (nth_id id i)).
Proof.
  revert id. induction fuel as [|fuel IH]; intros id Hid (i & Hi & Hfree); [lia|]. cbn [allocate_loop].
  destruct (Z.eqb_spec id kPreSessionKeyId) as [E|_]; [unfold kPreSessionKeyId in E; lia|].
  destruct (m !! id) eqn:Em.
  - destruct i as [|i]; [rewrite nth_id_0 in Hfree by done; congruence|].
    rewrite nth_id_S in Hfree by done.
    destruct (IH (next_id id) (next_id_range _ Hid)) as (j & Hb & Hj & Ej); [exists i; split; [lia|done]|].
    exists (S j). rewrite nth_id_S by done. split; [|done]. intros [|k] Hk; [rewrite nth_id_0 by done; by eexists|].
    rewrite nth_id_S by done. apply Hb. lia.
  - exists 0%nat. rewrite nth_id_0 by done. split; [lia|done].
Qed.

(** A map with fewer than [n] keys misses one of the first [n] ids. *)
Lemma some_id_free (m : gmap Z nat) id n : (size m < n)%nat → Z.of_nat n ≤ 65535 →
  ∃ i, (i < n)%nat ∧ m !! nth_id id i = None.
Proof.
  intros Hn Hmax. destruct (decide (Exists (λ i, m !! nth_id id i = None) (seq 0 n))) as [He|He].
  - apply Exists_exists in He as (i & Hi%elem_of_seq & E). exists i. split; [lia|done].
  - exfalso. assert (list_to_set (map (nth_id id) (seq 0 n)) ⊆ dom m) as Hsub.
    { intros x [i [-> Hi]]%elem_of_list_to_set%list_elem_of_fmap. apply elem_of_dom.
      destruct (m !! nth_id id i) eqn:E; [by eexists|].
      destruct He. apply Exists_exists. by exists i. }
    apply subseteq_size in Hsub. rewrite size_list_to_set, length_map, length_seq, size_dom in Hsub.
    + lia.
    + apply NoDup_fmap_2_strong; [|apply NoDup_seq]. intros i j Hi%elem_of_seq Hj%elem_of_seq.
      apply nth_id_inj; lia.
Qed.

(** ** The invariant of the table *)

Record table_ok (heap : Heap) (t : SessionTable) : Prop := {
  (* every entry is a live session filed under its own key id *)
  tok_entry : ∀ id ptr, sessions_ t !! id = Some ptr →
    id ≠ kPreSessionKeyId ∧ ∃ s, heap !! ptr = Some s ∧ local_key_id_ s = id;
  (* a peer's current session is its own and not retired *)
  tok_peer : ∀ peer id, by_peer_ t !! peer = Some id →
    peer ≠ kNoPeer ∧ (∃ ptr s, sessions_ t !! id = Some ptr ∧ heap !! ptr = Some s ∧ peer_ s = peer) ∧
    id ∉ map retired_id (retired_ t);
  (* a session is the current one of its peer or waits to be expired *)
  tok_kept : ∀ id ptr s, sessions_ t !! id = Some ptr → heap !! ptr = Some s →
    by_peer_ t !! peer_ s = Some id ∨ id ∈ map retired_id (retired_ t);
  tok_size : table_size t ≤ kMaximumSessions;
  tok_next : 1 ≤ next_key_id_ t < 2 ^ 16;
}.

Lemma new_table_ok heap : table_ok heap new_session_table.
Proof. split; simpl; try done; set_solver. Qed.

(** No other peer uses the key id. *)
Definition id_available (heap : Heap) (t : SessionTable) (peer id : Z) : Prop :=
  ∀ ptr s, sessions_ t !! id = Some ptr → heap !! ptr = Some s → peer_ s = peer.

Lemma elem_forget id id' rs : id' ∈ map retired_id (forget_retired id rs) ↔ id' ≠ id ∧ id' ∈ map retired_id rs.
Proof.
  unfold forget_retired. rewrite !list_elem_of_fmap. setoid_rewrite list_elem_of_filter. naive_solver.
Qed.

(** What a successful [install] makes of the table. *)
Lemma install_spec now heap t peer id s : table_ok heap t → peer ≠ kNoPeer → id ≠ kPreSessionKeyId →
  table_size t < kMaximumSessions →
  install now heap t peer id s =
    (heap ++ [s],
     mkSessionTable (<[id := length heap]> (sessions_ t)) (<[peer := id]> (by_peer_ t))
       (forget_retired id (retired_ t ++ match by_peer_ t !! peer with
                                         | Some old => [mkRetired old now]
                                         | None => [] end))
       (retired_receives_ t) (next_key_id_ t),
     Ok (length heap)).
Proof.
  intros Hok Hp Hid Hsz. unfold install.
  rewrite (proj2 (Z.eqb_neq _ _) Hp), (proj2 (Z.eqb_neq _ _) Hid), (proj2 (Z.leb_gt _ _) Hsz).
  destruct (by_peer_ t !! peer) as [old|] eqn:Eo.
  - destruct (Z.eqb_spec old id) as [->|Hne]; cbn [negb].
    + rewrite lookup_delete_eq, !insert_delete_eq.
      do 2 f_equal. f_equal. unfold forget_retired. rewrite filter_app, filter_cons_False, app_nil_r; [done|].
      simpl. tauto.
    + by rewrite lookup_delete_eq, !insert_delete_eq.
  - by rewrite lookup_delete_eq, insert_delete_eq, app_nil_r.
Qed.

Lemma install_ok now heap t peer id s : table_ok heap t → peer ≠ kNoPeer → id ≠ kPreSessionKeyId →
  table_size t < kMaximumSessions → peer_ s = peer → local_key_id_ s = id →
  id_available heap t peer id →
  table_ok (install now heap t peer id s).1.1 (install now heap t peer id s).1.2.
Proof.
  intros Hok Hp Hid Hsz Hs1 Hs2 Hav. rewrite install_spec by done. cbn [fst snd].
  assert (∀ i ptr, sessions_ t !! i = Some ptr → (heap ++ [s]) !! ptr = heap !! ptr) as Hold.
  { intros i ptr Hi. destruct (tok_entry _ _ Hok _ _ Hi) as (_ & x & Hx & _).
    apply lookup_app_l. by eapply lookup_lt_Some. }
  assert ((heap ++ [s]) !! length heap = Some s) as Hnew by (by apply list_lookup_middle).
  split; cbn [sessions_ by_peer_ retired_ next_key_id_].
  - intros i ptr [[<- <-]|[Hne Hi]]%lookup_insert_Some; [by eauto|].
    rewrite (Hold _ _ Hi). by apply Hok.
  - intros q i [[<- <-]|[Hne Hq]]%lookup_insert_Some.
    + split; [done|]. split; [|rewrite elem_forget; tauto].
      exists (length heap), s. by rewrite lookup_insert_eq.
    + destruct (tok_peer _ _ Hok _ _ Hq) as (Hq0 & (ptr & x & Hi & Hx & Hxq) & Hnr).
      assert (i ≠ id) as Hii. { intros ->. destruct Hne. rewrite <- Hxq. symmetry. by eapply Hav. }
      split; [done|]. split.
      * exists ptr, x. rewrite lookup_insert_ne by done. by rewrite (Hold _ _ Hi).
      * rewrite elem_forget, map_app, elem_of_app. intros [_ [?|Hin]]; [done|].
        destruct (by_peer_ t !! peer) as [old|] eqn:Eo; [|set_solver].
        simpl in Hin. apply list_elem_of_singleton in Hin as ->.
        destruct (tok_peer _ _ Hok _ _ Eo) as (_ & (ptr' & x' & Hi' & Hx' & Hxp) & _). congruence.
  - intros i ptr x [[<- <-]|[Hne Hi]]%lookup_insert_Some Hx.
    + left. rewrite Hnew in Hx. injection Hx as <-. by rewrite Hs1, lookup_insert_eq.
    + rewrite (Hold _ _ Hi) in Hx. rewrite elem_forget, map_app, elem_of_app.
      destruct (tok_kept _ _ Hok _ _ _ Hi Hx) as [Hcur|Hret]; [|by auto].
      destruct (decide (peer_ x = peer)) as [Ep|Ep].
      * right. split; [done|]. right. rewrite <- Ep, Hcur. simpl. set_solver.
      * left. by rewrite lookup_insert_ne.
  - unfold table_size in *. cbn [sessions_]. rewrite map_size_insert. case_match; simpl; lia.
  - apply Hok.
Qed.

Lemma expire_retired_loop_spec now rs : ∀ m,
  (expire_retired_loop now rs m).2 = filter (λ r, now - retired_at r < kRetireAfter) rs ∧
  ∀ id, (expire_retired_loop now rs m).1 !! id =
    if decide (id ∈ map retired_id (filter (λ r, ¬ (now - retired_at r < kRetireAfter)) rs))
    then None else m !! id.
Proof.
  induction rs as [|r rs IH]; intros m; [done|]. cbn [expire_retired_loop].
  destruct (Z.ltb_spec (now - retired_at r) kRetireAfter) as [Hlt|Hge].
  - rewrite filter_cons_True by done. rewrite filter_cons_False by tauto.
    destruct (IH m) as [E1 E2]. destruct (expire_retired_loop now rs m). cbn [fst snd] in *.
    split; [by f_equal|done].
  - rewrite filter_cons_False by lia. rewrite (filter_cons_True (λ r, ¬ _)) by lia.
    destruct (IH (delete (retired_id r) m)) as [E1 E2]. split; [done|]. intros id. rewrite E2. cbn [map].
    destruct (decide (id = retired_id r)) as [->|Hne].
    + rewrite lookup_delete_eq. case_decide; case_decide; done || set_solver.
    + rewrite lookup_delete_ne by done. case_decide; case_decide; done || set_solver.
Qed.

Lemma expire_retired_ok now heap t : table_ok heap t → table_ok heap (expire_retired now t).
Proof.
  intros Hok. unfold expire_retired. destruct (expire_retired_loop_spec now (retired_ t) (sessions_ t)) as [E1 E2].
  destruct (expire_retired_loop _ _ _) as [m rs]. cbn [fst snd] in *. subst rs.
  assert (∀ id ptr, m !! id = Some ptr → sessions_ t !! id = Some ptr ∧
    id ∉ map retired_id (filter (λ r, ¬ (now - retired_at r < kRetireAfter)) (retired_ t))) as Hm.
  { intros id ptr. rewrite E2. by case_decide. }
  split; cbn [sessions_ by_peer_ retired_ next_key_id_].
  - intros id ptr [Hi _]%Hm. by apply Hok.
  - intros peer id Hp. destruct (tok_peer _ _ Hok _ _ Hp) as (Hp0 & (ptr & s & Hi & Hs & Hpeer) & Hnr).
    split; [done|]. split.
    + exists ptr, s. rewrite E2, decide_False; [done|]. intros (r & -> & [_ Hr]%list_elem_of_filter)%list_elem_of_fmap.
      apply Hnr. by apply list_elem_of_fmap_2.
    + intros (r & -> & [_ Hr]%list_elem_of_filter)%list_elem_of_fmap. apply Hnr. by apply list_elem_of_fmap_2.
  - intros id ptr s [Hi Hne]%Hm Hs. destruct (tok_kept _ _ Hok _ _ _ Hi Hs) as [|Hr]; [by left|right].
    apply list_elem_of_fmap in Hr as (r & -> & Hr). apply list_elem_of_fmap. exists r. split; [done|].
    apply list_elem_of_filter. split; [|done].
    destruct (decide (now - retired_at r < kRetireAfter)) as [|Hge]; [done|].
    destruct Hne. apply list_elem_of_fmap. exists r. split; [done|]. by apply list_elem_of_filter.
  - transitivity (table_size t); [|apply Hok]. unfold table_size. cbn [sessions_]. apply Nat2Z.inj_le.
    apply map_subseteq_size. apply map_subseteq_spec. intros id ptr. rewrite E2. by case_decide.
  - apply Hok.
Qed.

Lemma remove_ok heap t id : table_ok heap t → table_ok heap (remove heap t id).
Proof.
  intros Hok. unfold remove. destruct (sessions_ t !! id) as [ptr|] eqn:Ei; [|done].
  destruct (tok_entry _ _ Hok _ _ Ei) as (Hid & s & Hs & Hl). rewrite Hs.
  set (bp := match by_peer_ t !! peer_ s with Some _ => _ | None => _ end).
  assert (∀ q i, bp !! q = Some i ↔ by_peer_ t !! q = Some i ∧ i ≠ id) as Hbp.
  { assert (∀ q, by_peer_ t !! q = Some id → q = peer_ s) as Hown.
    { intros q Hq. destruct (tok_peer _ _ Hok _ _ Hq) as (_ & (ptr' & s' & Hi' & Hs' & <-) & _). congruence. }
    intros q i. unfold bp. destruct (by_peer_ t !! peer_ s) as [cur|] eqn:Ec.
    - destruct (Z.eqb_spec cur id) as [->|Hne].
      + rewrite lookup_delete_Some. split; [|naive_solver].
        intros [Hn Hq]. split; [done|]. intros ->. by destruct Hn; rewrite (Hown q).
      + split; [|naive_solver]. intros Hq. split; [done|]. intros ->. rewrite (Hown q Hq) in Hq. congruence.
    - split; [|naive_solver]. intros Hq. split; [done|]. intros ->. rewrite (Hown q Hq) in Hq. congruence. }
  clearbody bp. split; cbn [sessions_ by_peer_ retired_ next_key_id_].
  - intros i p [_ Hi]%lookup_delete_Some. by apply Hok.
  - intros q i [Hq Hne]%Hbp. destruct (tok_peer _ _ Hok _ _ Hq) as (Hq0 & (p & x & Hi & Hx & Hxq) & Hnr).
    split; [done|]. split; [|rewrite elem_forget; tauto].
    exists p, x. by rewrite lookup_delete_ne.
  - intros i p x [Hne Hi]%lookup_delete_Some Hx. rewrite elem_forget, Hbp.
    destruct (tok_kept _ _ Hok _ _ _ Hi Hx); auto.
  - transitivity (table_size t); [|apply Hok]. unfold table_size. cbn [sessions_]. apply Nat2Z.inj_le.
    apply map_subseteq_size, delete_subseteq.
  - apply Hok.
Qed.

Lemma nth_id_range id i : 1 ≤ nth_id id i < 2 ^ 16.
Proof. unfold nth_id. pose proof (Z.mod_pos_bound (id - 1 + Z.of_nat i) 65535 ltac:(lia)). lia. Qed.

(** The id is the first free one from [next_key_id_] on. *)
Lemma allocate_first heap t : table_ok heap t → table_size t < kMaximumSessions →
  ∃ i, (i ≤ size (sessions_ t))%nat ∧ (∀ k, (k < i)%nat → is_Some (sessions_ t !! nth_id (next_key_id_ t) k)) ∧
    sessions_ t !! nth_id (next_key_id_ t) i = None ∧
    allocate_key_id t =
      (mkSessionTable (sessions_ t) (by_peer_ t) (retired_ t) (retired_receives_ t)
         (next_id (nth_id (next_key_id_ t) i)), Ok (nth_id (next_key_id_ t) i)).
Proof.
  intros Hok Hsz. unfold allocate_key_id. rewrite (proj2 (Z.leb_gt _ _) Hsz).
  unfold table_size, kMaximumSessions in Hsz.
  destruct (some_id_free (sessions_ t) (next_key_id_ t) (S (size (sessions_ t)))) as (i & Hi & Hfree); [lia..|].
  destruct (allocate_loop_spec (Z.to_nat 0x10000) (sessions_ t) (next_key_id_ t)) as (j & Hb & Hj & ->).
  { apply Hok. }
  { exists i. split; [lia|done]. }
  exists j. split_and!; [|done..]. destruct (decide (j ≤ i)%nat) as [|Hgt]; [lia|].
  destruct (Hb i ltac:(lia)) as [x Hx]. congruence.
Qed.

Lemma allocate_ok heap t : table_ok heap t → table_size t < kMaximumSessions →
  ∃ id, allocate_key_id t =
      (mkSessionTable (sessions_ t) (by_peer_ t) (retired_ t) (retired_receives_ t) (next_id id), Ok id) ∧
    1 ≤ id < 2 ^ 16 ∧ sessions_ t !! id = None.
Proof.
  intros Hok Hsz. destruct (allocate_first heap t Hok Hsz) as (i & _ & _ & Hfree & ->).
  eexists. split; [done|]. split; [apply nth_id_range|done].
Qed.

(** The invariant reads maps, retirements and the next id only. *)
Lemma table_ok_frame heap t t' : table_ok heap t → sessions_ t' = sessions_ t →
  by_peer_ t' = by_peer_ t → retired_ t' = retired_ t → 1 ≤ next_key_id_ t' < 2 ^ 16 → table_ok heap t'.
Proof.
  intros [] E1 E2 E3 ?. split; unfold table_size in *; rewrite ?E1, ?E2, ?E3; done.
Qed.

Lemma allocate_key_id_ok heap t : table_ok heap t → table_ok heap (allocate_key_id t).1.
Proof.
  intros Hok. destruct (decide (table_size t < kMaximumSessions)) as [Hlt|Hge].
  - destruct (allocate_ok heap t Hok Hlt) as (id & -> & Hid & _). apply (table_ok_frame heap t); try done.
    simpl. by apply next_id_range.
  - unfold allocate_key_id. destruct (Z.leb_spec kMaximumSessions (table_size t)); [done|lia].
Qed.

Lemma find_by_key_id_ok heap t id : table_ok heap t → table_ok heap (find_by_key_id t id).1.
Proof.
  intros Hok. unfold find_by_key_id. destruct (sessions_ t !! id); [|done]. cbn [fst].
  case_match; [|done]. apply (table_ok_frame heap t); try done. apply Hok.
Qed.

Lemma step_identity s op : peer_ (step s op).1 = peer_ s ∧ local_key_id_ (step s op).1 = local_key_id_ s.
Proof.
  destruct op; cbn [step]; unfold reserve_counter, commit, check_window, take_loss_sample;
    repeat case_match; by simplify_eq/=.
Qed.

(** Workers that hold a pointer go on using the session. *)
Lemma session_step_ok heap t ptr s op : table_ok heap t → heap !! ptr = Some s →
  table_ok (<[ptr := (step s op).1]> heap) t.
Proof.
  intros Hok Hs. destruct (step_identity s op) as [Hp Hl].
  assert (∀ q x, heap !! q = Some x → ∃ y, <[ptr := (step s op).1]> heap !! q = Some y ∧
    peer_ y = peer_ x ∧ local_key_id_ y = local_key_id_ x) as Hfwd.
  { intros q x Hx. destruct (decide (q = ptr)) as [->|Hne].
    - rewrite list_lookup_insert_eq by (by eapply lookup_lt_Some). eexists. split; [done|].
      rewrite Hx in Hs. by injection Hs as ->.
    - rewrite list_lookup_insert_ne by done. by exists x. }
  destruct Hok as [He Hb Hk Hsz Hn]. split; try done.
  - intros id q Hq. destruct (He _ _ Hq) as (Hid & x & Hx & <-). split; [done|].
    destruct (Hfwd _ _ Hx) as (y & Hy & _ & Hyl). eauto.
  - intros peer id Hq. destruct (Hb _ _ Hq) as (Hp0 & (q & x & Hi & Hx & <-) & Hnr). split; [done|].
    split; [|done]. destruct (Hfwd _ _ Hx) as (y & Hy & Hyp & _). eauto 6.
  - intros id q y Hi Hy. destruct (He _ _ Hi) as (_ & x & Hx & _).
    destruct (Hfwd _ _ Hx) as (y' & Hy' & Hyp & _). rewrite Hy in Hy'. injection Hy' as <-.
    rewrite Hyp. by eapply Hk.
Qed.

(** ** Histories of a table *)

Inductive table_step : Heap * SessionTable → Heap * SessionTable → Prop :=
| step_allocate h t : table_step (h, t) (h, (allocate_key_id t).1)
| step_install now h t peer id remote sk rk : id_available h t peer id →
    table_step (h, t) (install_keys now h t peer id remote sk rk).1
| step_find h t id : table_step (h, t) (h, (find_by_key_id t id).1)
| step_find_peer h t peer : table_step (h, t) (h, (find_by_peer t peer).1)
| step_expire now h t : table_step (h, t) (h, expire_retired now t)
| step_remove h t id : table_step (h, t) (h, remove h t id)
| step_session h t ptr s op : h !! ptr = Some s → table_step (h, t) (<[ptr := (step s op).1]> h, t).

Definition reachable (c : Heap * SessionTable) : Prop := rtc table_step ([], new_session_table) c.

Lemma table_step_ok c c' : table_step c c' → table_ok c.1 c.2 → table_ok c'.1 c'.2.
Proof.
  destruct 1 as [h t|now h t peer id remote sk rk Hav|h t id|h t peer|now h t|h t id|h t ptr s op Hs];
    cbn [fst snd]; intros Hok.
  - by apply allocate_key_id_ok.
  - unfold install_keys. destruct (decide (peer = kNoPeer)) as [->|Hp]; [done|].
    destruct (decide (id = kPreSessionKeyId)) as [->|Hid].
    { unfold install. by rewrite (proj2 (Z.eqb_neq _ _) Hp). }
    destruct (decide (table_size t < kMaximumSessions)) as [Hsz|Hsz]; [by apply install_ok|].
    unfold install. rewrite (proj2 (Z.eqb_neq _ _) Hp), (proj2 (Z.eqb_neq _ _) Hid).
    destruct (Z.leb_spec kMaximumSessions (table_size t)); [done|lia].
  - by apply find_by_key_id_ok.
  - unfold find_by_peer. case_match; [by apply find_by_key_id_ok|done].
  - by apply expire_retired_ok.
  - by apply remove_ok.
  - by apply session_step_ok.
Qed.

Lemma table_reachable_ok c : reachable c → table_ok c.1 c.2.
Proof.
  intros Hr. assert (∀ a b, rtc table_step a b → table_ok a.1 a.2 → table_ok b.1 b.2) as Hall.
  { induction 1 as [|? ? ? Hs _ IH]; [done|]. intros Ha. apply IH. by eapply table_step_ok. }
  apply (Hall _ _ Hr), new_table_ok.
Qed.

(** C21. In every reachable table, where keys are installed under ids no other
    peer uses: a peer is found by [find_by_peer] exactly through its own
    session, filed under its own non-zero key id; every other session waits in
    [retired_], so none leaks; and there are at most 1024 sessions. *)
Theorem session_table_consistent h t : reachable (h, t) →
  (∀ peer ptr, (find_by_peer t peer).2 = Some ptr →
    ∃ s, h !! ptr = Some s ∧ peer_ s = peer ∧ by_peer_ t !! peer = Some (local_key_id_ s)) ∧
  (∀ id ptr, (find_by_key_id t id).2 = Some ptr →
    ∃ s, h !! ptr = Some s ∧ local_key_id_ s = id ∧ id ≠ kPreSessionKeyId ∧
      ((find_by_peer t (peer_ s)).2 = Some ptr ∨ is_retired t id = true)) ∧
  table_size t ≤ kMaximumSessions.
Proof.
  intros Hok%table_reachable_ok. cbn [fst snd] in Hok.
  assert (∀ id, (find_by_key_id t id).2 = sessions_ t !! id) as Hfind.
  { intros id. unfold find_by_key_id. by destruct (sessions_ t !! id). }
  split_and!; [..|apply Hok].
  - intros peer ptr. unfold find_by_peer. destruct (by_peer_ t !! peer) as [id|] eqn:Ep; [|done].
    rewrite Hfind. intros Hi. destruct (tok_peer _ _ Hok _ _ Ep) as (_ & (p & s & Hi' & Hs & Hps) & _).
    rewrite Hi in Hi'. injection Hi' as ->. destruct (tok_entry _ _ Hok _ _ Hi) as (_ & s' & Hs' & <-).
    exists s. by rewrite Hs in Hs'; injection Hs' as ->.
  - intros id ptr. rewrite Hfind. intros Hi. destruct (tok_entry _ _ Hok _ _ Hi) as (Hid & s & Hs & Hl).
    exists s. split_and!; [done..|]. destruct (tok_kept _ _ Hok _ _ _ Hi Hs) as [Hc|Hr].
    + left. unfold find_by_peer. by rewrite Hc, Hfind.
    + right. unfold is_retired. apply existsb_exists. apply list_elem_of_fmap in Hr as (r & -> & Hr).
      exists r. split; [by apply list_elem_of_In|]. apply Z.eqb_refl.
Qed.

Lemma find_key_lookup t id : (find_by_key_id t id).2 = sessions_ t !! id.
Proof. unfold find_by_key_id. by destruct (sessions_ t !! id). Qed.

Lemma find_after_expire later t id : (find_by_key_id (expire_retired later t) id).2 =
  if decide (id ∈ map retired_id (filter (λ r, ¬ (later - retired_at r < kRetireAfter)) (retired_ t)))
  then None else (find_by_key_id t id).2.
Proof.
  rewrite !find_key_lookup. unfold expire_retired.
  destruct (expire_retired_loop_spec later (retired_ t) (sessions_ t)) as [_ E].
  destruct (expire_retired_loop _ _ _) as [m rs]. apply E.
Qed.

(** The retirement of the session that was current until [now]. *)
Lemma old_retirement now later id old rs : old ∉ map retired_id rs → old ≠ id →
  old ∈ map retired_id
    (filter (λ r, ¬ (later - retired_at r < kRetireAfter)) (forget_retired id (rs ++ [mkRetired old now]))) ↔
  ¬ (later - now < kRetireAfter).
Proof.
  intros Hnr Hne. rewrite list_elem_of_fmap. setoid_rewrite list_elem_of_filter. unfold forget_retired.
  setoid_rewrite list_elem_of_filter. setoid_rewrite elem_of_app. split.
  - intros (r & Heq & Hexp & _ & [Hr|Hr]).
    + destruct Hnr. rewrite Heq. by apply list_elem_of_fmap_2.
    + apply list_elem_of_singleton in Hr as ->. done.
  - intros Hexp. exists (mkRetired old now). split_and!; [done..|]. right. set_solver.
Qed.

(** C38. Rekeying does not interrupt a peer.  In a reachable table with fewer
    than 1024 sessions [allocate_key_id] succeeds with a non-zero id not in
    use; the session installed under it is at once the peer's current one and
    stays so, every other session is found as before, and the session it
    replaces is found until [expire_retired] runs ten seconds later or more,
    and not after that. *)
Theorem rekey_keeps_old_session h t now peer remote sk rk : reachable (h, t) →
  table_size t < kMaximumSessions → peer ≠ kNoPeer →
  ∃ id t1 h2 t2, allocate_key_id t = (t1, Ok id) ∧ 1 ≤ id < 2 ^ 16 ∧ sessions_ t !! id = None ∧
    install_keys now h t1 peer id remote sk rk = (h2, t2, Ok (length h)) ∧
    (∀ other, other ≠ id → (find_by_key_id t2 other).2 = (find_by_key_id t other).2) ∧
    (∀ later, (find_by_peer (expire_retired later t2) peer).2 = Some (length h)) ∧
    (∀ old later, by_peer_ t !! peer = Some old →
      (find_by_key_id (expire_retired later t2) old).2 =
      if later - now <? kRetireAfter then (find_by_key_id t old).2 else None).
Proof.
  intros Hok%table_reachable_ok Hsz Hp. cbn [fst snd] in Hok.
  destruct (allocate_ok h t Hok Hsz) as (id & Ea & Hid & Hfree).
  pose proof (allocate_key_id_ok h t Hok) as Hok1. rewrite Ea in Hok1. cbn [fst] in Hok1.
  do 4 eexists. split; [exact Ea|]. split; [done|]. split; [done|].
  split; [apply install_spec; [done..|unfold kPreSessionKeyId; lia|done]|]. cbn [by_peer_ sessions_ retired_].
  split_and!.
  - intros other Hne. rewrite !find_key_lookup. cbn [sessions_]. by rewrite lookup_insert_ne.
  - intros later. unfold find_by_peer.
    replace (by_peer_ (expire_retired later _)) with (<[peer := id]> (by_peer_ t))
      by (unfold expire_retired; by destruct (expire_retired_loop _ _ _)).
    rewrite lookup_insert_eq, find_after_expire, decide_False.
    + rewrite find_key_lookup. cbn [sessions_]. by rewrite lookup_insert_eq.
    + cbn [retired_]. intros (r & -> & [_ Hr]%list_elem_of_filter)%list_elem_of_fmap.
      by apply list_elem_of_filter in Hr as [? _].
  - intros old later Eo. destruct (tok_peer _ _ Hok _ _ Eo) as (_ & (ptr & s & Hi & _) & Hnr).
    assert (old ≠ id) by congruence. rewrite Eo, find_after_expire, !find_key_lookup. cbn [retired_ sessions_].
    rewrite lookup_insert_ne by done.
    destruct (Z.ltb_spec (later - now) kRetireAfter).
    + rewrite decide_False; [done|]. rewrite old_retirement by done. lia.
    + rewrite decide_True; [done|]. rewrite old_retirement by done. lia.
Qed.

Definition sample_install (now peer id : Z) (c : Heap * SessionTable) : Heap * SessionTable :=
  (install_keys now c.1 c.2 peer id 77 sample_keys sample_keys).1.

Lemma sample_reachable : reachable (sample_install 100 5 1 ([], new_session_table)).
Proof. eapply rtc_l; [|reflexivity]. apply (step_install 100 [] new_session_table 5 1 77). intros ptr s H. done. Defined.

Lemma session_table_consistent_witness :
  let c := sample_install 100 5 1 ([], new_session_table) in
  table_size c.2 ≤ kMaximumSessions ∧ (find_by_peer c.2 5).2 = Some 0%nat.
Proof.
  intros c. split; [|by vm_compute].
  apply (session_table_consistent c.1 c.2 sample_reachable).
Defined.

Lemma rekey_keeps_old_session_witness :
  let c := sample_install 100 5 1 ([], new_session_table) in
  ∃ id t1 h2 t2, allocate_key_id c.2 = (t1, Ok id) ∧
    install_keys 200 c.1 t1 5 id 78 sample_keys sample_keys = (h2, t2, Ok 1%nat) ∧
    (find_by_key_id (expire_retired 300 t2) 1).2 = Some 0%nat.
Proof.
  intros c. destruct (rekey_keeps_old_session c.1 c.2 200 5 78 sample_keys sample_keys sample_reachable)
    as (id & t1 & h2 & t2 & E1 & _ & _ & E2 & _ & _ & E3); [by vm_compute|by vm_compute|].
  exists id, t1, h2, t2. split; [exact E1|]. split; [exact E2|].
  rewrite (E3 1 300) by (by vm_compute). by vm_compute.
Defined.

(** An [install] under the id of another peer's session leaves that peer
    pointing at the new session: the callers must pass a free id. *)
Example install_used_id :
  let c := sample_install 200 6 1 (sample_install 100 5 1 ([], new_session_table)) in
  (find_by_peer c.2 5).2 = Some 1%nat ∧ peer_ <$> c.1 !! 1%nat = Some 6.
Proof. by vm_compute. Qed.
