(* ===== verification/Cookie.v ===== *)
(** Handshake MACs and cookies: [src/cookie.cpp].

    Under load a responder answers a first message with a cookie: a MAC of the
    sender's address under a secret that rotates every two minutes, sealed
    with XChaCha20-Poly1305 (libsodium's, so an instance of [Aead] given as a
    parameter).  Random bytes are arguments, [None] where the generator failed.
    [Blake2s] supplies the MACs. *)

From Stdlib Require Import String.
From S2P Require Import Prelude Packet Fec Nonce Address Blake2s Crypto.

Definition kLabelMac1 : list Z := text "mac1----".
Definition kLabelCookie : list Z := text "cookie--".
Definition kMacSize : nat := 16.
Definition kCookieSize : nat := 16.
Definition kCookieNonceSize : nat := 24.
Definition kCookieReplySize : Z := 60.
Definition kCookieSecretLifetime : Z := minutes 2.

Module CookieError.
Inductive t := unsupported_platform | invalid_mac | decryption_failed | buffer_too_small | message_too_short.
End CookieError.
Abbreviation CookieError := CookieError.t.

Definition keyed_mac (key message : list Z) : list Z :=
  (Blake2s.finish (update (new_blake2s kMacSize key) message) (replicate kMacSize 0)).2.

(** The first eight characters of the label, zero padded. *)
Definition hash_label_and_key (label key : list Z) : list Z :=
  let label_bytes := copy_into (replicate 8 0) 0 (take 8 label) in
  let state := update (update (new_blake2s kMaximumDigestSize []) label_bytes) key in
  (Blake2s.finish state zero_digest).2.

Definition mac1_key (responder_static : list Z) : list Z := hash_label_and_key kLabelMac1 responder_static.
Definition cookie_key (responder_static : list Z) : list Z := hash_label_and_key kLabelCookie responder_static.

(** ** Cookie replies on the wire *)

Record CookieReply := mkReply { receiver_index : Z; nonce : list Z; encrypted_cookie : list Z }.

(** [write_u32] and [read_u32] are the same helpers as in [src/fec.cpp]. *)
Definition serialize_cookie_reply (reply : CookieReply) (out : list Z) : res CookieError (list Z) :=
  throw CookieError.buffer_too_small when blen out <? kCookieReplySize else
  let* out := write_u32 out 0 (receiver_index reply) in
  let* out := blit out 4 (nonce reply) in
  blit out 28 (encrypted_cookie reply).

Definition parse_cookie_reply (bytes : list Z) : res CookieError CookieReply :=
  throw CookieError.message_too_short when blen bytes <? kCookieReplySize else
  let* receiver_index := read_u32 bytes 0 in
  let* nonce := subspan bytes 4 kCookieNonceSize in
  let* encrypted_cookie := subspan bytes 28 32 in
  Ok (mkReply receiver_index nonce encrypted_cookie).

(** ** The responder *)

Record CookieIssuer := mkIssuer {
  mac1_key_ : list Z;
  cookie_key_ : list Z;
  secret_ : list Z;
  previous_secret_ : list Z;
  secret_created_ : Instant;
  has_previous_ : bool;
  under_load_ : bool;
}.

Definition new_issuer (local_static : list Z) : CookieIssuer :=
  mkIssuer (mac1_key local_static) (cookie_key local_static) (replicate 32 0) (replicate 32 0) 0 false false.

Definition set_under_load (i : CookieIssuer) (value : bool) : CookieIssuer :=
  mkIssuer (mac1_key_ i) (cookie_key_ i) (secret_ i) (previous_secret_ i) (secret_created_ i)
    (has_previous_ i) value.

Definition refresh (random : option (list Z)) (i : CookieIssuer) (now : Instant) : CookieIssuer :=
  let expired := (secret_created_ i =? 0) || (kCookieSecretLifetime <=? now - secret_created_ i) in
  if negb expired then i
  else
    let '(previous, has) :=
      if negb (secret_created_ i =? 0) then (secret_ i, true) else (previous_secret_ i, has_previous_ i) in
    let secret := match random with Some bytes => bytes | None => replicate 32 0 end in
    mkIssuer (mac1_key_ i) (cookie_key_ i) secret previous now has (under_load_ i).

Definition compute_cookie (random : option (list Z)) (i : CookieIssuer) (source : Endpoint) (now : Instant)
    : CookieIssuer * list Z :=
  let i := refresh random i now in
  (i, keyed_mac (secret_ i) (address_bytes (ep_address source))).

Definition issuer_mac1 (i : CookieIssuer) (message : list Z) : list Z := keyed_mac (mac1_key_ i) message.

Definition verify_mac1 (i : CookieIssuer) (message mac1 : list Z) : bool :=
  constant_time_equal (issuer_mac1 i message) mac1.

(** The lambda [check] of [verify_mac2]. *)
Definition check_mac2 (source : Endpoint) (message mac2 secret : list Z) : bool :=
  let cookie := keyed_mac secret (address_bytes (ep_address source)) in
  constant_time_equal (keyed_mac cookie message) mac2.

Definition verify_mac2 (random : option (list Z)) (i : CookieIssuer) (source : Endpoint)
    (message mac2 : list Z) (now : Instant) : CookieIssuer * bool :=
  let i := refresh random i now in
  (i, if check_mac2 source message mac2 (secret_ i) then true
      else has_previous_ i && check_mac2 source message mac2 (previous_secret_ i)).

(** ** The initiator *)

Record CookieHolder := mkHolder {
  holder_mac1_key_ : list Z;
  holder_cookie_key_ : list Z;
  cookie_ : list Z;
  received_ : Instant;
  has_cookie_ : bool;
}.

Definition new_holder (responder_static : list Z) : CookieHolder :=
  mkHolder (mac1_key responder_static) (cookie_key responder_static) (replicate kCookieSize 0) 0 false.

Definition holder_mac1 (h : CookieHolder) (message : list Z) : list Z :=
  keyed_mac (holder_mac1_key_ h) message.

Definition compute_mac2 (h : CookieHolder) (message : list Z) : list Z :=
  if negb (has_cookie_ h) then replicate kMacSize 0 else keyed_mac (cookie_ h) message.

Section xchacha.
Context `{Aead}.

(** [sealed]: libsodium's status. *)
Definition build_reply (random nonce_bytes : option (list Z)) (sealed : bool) (i : CookieIssuer)
    (source : Endpoint) (index : Z) (received_mac1 : list Z) (now : Instant)
    : CookieIssuer * res CookieError CookieReply :=
  let '(i, cookie) := compute_cookie random i source now in
  (i, match nonce_bytes with
      | None => Fail CookieError.unsupported_platform
      | Some n =>
          throw CookieError.decryption_failed when negb sealed else
          Ok (mkReply index n (aead_encrypt (cookie_key_ i) n received_mac1 cookie))
      end).

Definition accept_reply (h : CookieHolder) (reply : CookieReply) (sent_mac1 : list Z) (now : Instant)
    : CookieHolder * res CookieError unit :=
  match aead_decrypt (holder_cookie_key_ h) (nonce reply) sent_mac1 (encrypted_cookie reply) with
  | None => (h, Fail CookieError.decryption_failed)
  | Some cookie => (mkHolder (holder_mac1_key_ h) (holder_cookie_key_ h) cookie now true, Ok tt)
  end.

End xchacha.

(** ** MACs *)

Lemma store_le32_bytes w : bytes_ok (store_le32 w).
Proof.
  assert (∀ x, is_u8 (Z.land x 0xFF)) as Hb.
  { intros x. change 0xFF with (Z.ones 8). rewrite Z.land_ones by lia. apply u8_range. }
  unfold store_le32. solve_bytes; apply Hb.
Qed.

Lemma blake2s_chain_bytes size key message : bytes_ok (blake2s_chain size key message).
Proof.
  unfold blake2s_chain. apply bytes_ok_take. induction (absorb_all _ _ _) as [|w ws IH]; [constructor|].
  cbn [map concat]. apply bytes_ok_app. split; [apply store_le32_bytes|done].
Qed.

Lemma keyed_mac_spec key message : (length key ≤ 32)%nat → keyed_mac key message = blake2s_chain 16 key message.
Proof.
  intros Hk. unfold keyed_mac, kMacSize.
  pose proof (streamed_hash 16 key [message] (replicate 16 0) ltac:(lia) Hk) as E.
  cbn [fold_left concat] in E. rewrite app_nil_r in E. rewrite E.
  pose proof (length_blake2s_chain 16 key message ltac:(lia)) as Hl.
  unfold copy_into. rewrite length_replicate, take_0, (take_ge (blake2s_chain _ _ _)) by lia.
  rewrite Hl, drop_ge by (simpl; lia).
  by rewrite app_nil_r.
Qed.

Lemma length_keyed_mac key message : (length key ≤ 32)%nat → length (keyed_mac key message) = 16%nat.
Proof. intros Hk. rewrite keyed_mac_spec by done. apply length_blake2s_chain. lia. Qed.

Lemma keyed_mac_bytes key message : (length key ≤ 32)%nat → bytes_ok (keyed_mac key message).
Proof. intros Hk. rewrite keyed_mac_spec by done. apply blake2s_chain_bytes. Qed.

Lemma length_hash_label label key : length (hash_label_and_key label key) = 32%nat.
Proof.
  unfold hash_label_and_key.
  pose proof (finish_digest [copy_into (replicate 8 0) 0 (take 8 label); key] zero_digest eq_refl) as E.
  cbn [fold_left] in E. rewrite E. apply length_blake2s_256.
Qed.

(** A MAC check passes exactly on the MAC of the message under the cookie of
    the address. *)
Lemma check_mac2_iff source message mac2 secret : (length secret ≤ 32)%nat → bytes_ok mac2 →
  check_mac2 source message mac2 secret = true ↔
  mac2 = keyed_mac (keyed_mac secret (address_bytes (ep_address source))) message.
Proof.
  intros Hs Hm. unfold check_mac2.
  assert (length (keyed_mac secret (address_bytes (ep_address source))) ≤ 32)%nat as Hc.
  { rewrite length_keyed_mac by done. lia. }
  rewrite constant_time_equal_iff by (done || by apply keyed_mac_bytes). naive_solver.
Qed.

(** ** Cookie replies round trip *)

Record reply_ok (r : CookieReply) : Prop := {
  rok_index : is_u32 (receiver_index r);
  rok_nonce : length (nonce r) = kCookieNonceSize;
  rok_cookie : length (encrypted_cookie r) = 32%nat;
}.

Definition reply_bytes (r : CookieReply) : list Z :=
  be_bytes 4 (receiver_index r) ++ nonce r ++ encrypted_cookie r.

Lemma length_reply_bytes r : reply_ok r → length (reply_bytes r) = 60%nat.
Proof.
  intros [_ Hn He]. unfold reply_bytes. rewrite !length_app, length_be_bytes, Hn, He. done.
Qed.

Lemma serialize_reply_spec r out : reply_ok r → kCookieReplySize ≤ blen out →
  serialize_cookie_reply r out = Ok (reply_bytes r ++ drop 60 out).
Proof.
  intros Hr Ho. pose proof Hr as [Hi Hn He]. unfold serialize_cookie_reply, guard.
  rewrite (proj2 (Z.ltb_ge _ _) Ho). unfold kCookieReplySize, blen, kCookieNonceSize in *.
  rewrite write_u32_spec by lia. cbn [rbind Nat.add]. rewrite take_0. cbn [app].
  pose proof (length_be_bytes 4 (receiver_index r)) as Hb.
  rewrite blit_ok by (rewrite length_app, length_drop; lia). cbn [rbind].
  rewrite take_app_length' by done. rewrite drop_app_ge by lia.
  rewrite blit_ok by (rewrite !length_app, !length_drop; lia). f_equal.
  unfold reply_bytes. rewrite !(app_assoc (be_bytes 4 (receiver_index r)) (nonce r)).
  assert (length (be_bytes 4 (receiver_index r) ++ nonce r) = 28%nat) as Ha by (rewrite length_app; lia).
  revert Ha. generalize (be_bytes 4 (receiver_index r) ++ nonce r). intros l Ha.
  rewrite take_app_length', drop_app_ge by lia. rewrite !drop_drop, <- !app_assoc. do 3 f_equal. lia.
Qed.

Lemma parse_reply_spec r rest : reply_ok r → parse_cookie_reply (reply_bytes r ++ rest) = Ok r.
Proof.
  intros Hr. pose proof Hr as [Hi Hn He]. pose proof (length_reply_bytes r Hr) as Hl.
  unfold parse_cookie_reply, guard, kCookieReplySize, kCookieNonceSize in *.
  destruct (Z.ltb_spec (blen (reply_bytes r ++ rest)) 60) as [Hlt|_].
  { unfold blen in Hlt. rewrite length_app in Hlt. lia. }
  pose proof (be_bytes_ok 4 (receiver_index r)) as Hb. pose proof (length_be_bytes 4 (receiver_index r)) as Hb4.
  pose proof (be_value_small 4 (receiver_index r)) as Hv. unfold reply_bytes in *.
  destruct (be_bytes 4 (receiver_index r)) as [|x [|y [|z [|w [|]]]]]; try done.
  rewrite (read_u32_spec _ 0 x y z w (nonce r ++ encrypted_cookie r ++ rest));
    [|by rewrite <- !app_assoc|by repeat (apply Forall_cons_1 in Hb as [? Hb])..].
  rewrite Hv by word_lia. cbn [rbind].
  rewrite !subspan_ok by (rewrite !length_app in *; lia). cbn [rbind].
  rewrite <- !app_assoc.
  rewrite (drop_app_length' [x; y; z; w]), take_app_length' by done.
  rewrite (app_assoc [x; y; z; w] (nonce r)), (drop_app_length' ([x; y; z; w] ++ nonce r))
    by (rewrite length_app, Hn; done).
  rewrite take_app_length' by done. by destruct r.
Qed.

(** ** The life of a secret *)

Definition random_ok (random : option (list Z)) : Prop := ∀ bytes, random = Some bytes → length bytes = 32%nat.

(** The issuer's keys, and secrets of full length. *)
Record issuer_ok (mk ck : list Z) (i : CookieIssuer) : Prop := {
  iok_mac1 : mac1_key_ i = mk;
  iok_cookie : cookie_key_ i = ck;
  iok_secret : length (secret_ i) = 32%nat;
  iok_previous : length (previous_secret_ i) = 32%nat;
}.

Lemma refresh_ok mk ck random i now : random_ok random → issuer_ok mk ck i →
  issuer_ok mk ck (refresh random i now).
Proof.
  intros Hr Hi. unfold refresh. destruct (negb _); [exact Hi|]. destruct Hi as [H1 H2 H3 H4].
  assert (length (match random with Some bytes => bytes | None => replicate 32 0 end) = 32%nat) as Hs
    by (destruct random; [by apply Hr|done]).
  destruct (negb (secret_created_ i =? 0)); split; assumption.
Qed.

(** Requests served in between, each with the random bytes it would use. *)
Definition refreshes (events : list (option (list Z) * Instant)) (i : CookieIssuer) : CookieIssuer :=
  fold_left (λ i e, refresh e.1 i e.2) events i.

Definition event_in (from until : Instant) (e : option (list Z) * Instant) : Prop :=
  random_ok e.1 ∧ from ≤ e.2 < until.

(** The secret a cookie was made with at [t]: current, or previous and then
    replaced not before [t]. *)
Definition honours (secret : list Z) (t : Instant) (i : CookieIssuer) : Prop :=
  secret_created_ i ≠ 0 ∧
  (secret_ i = secret ∨ (has_previous_ i = true ∧ previous_secret_ i = secret ∧ t ≤ secret_created_ i)).

Lemma refresh_honours secret t random i now : 0 < t → t ≤ now < t + kCookieSecretLifetime →
  honours secret t i → honours secret t (refresh random i now).
Proof.
  intros Ht Hn [Hc Hs]. unfold refresh. rewrite (proj2 (Z.eqb_neq _ _) Hc). cbn [orb negb].
  destruct (Z.leb_spec kCookieSecretLifetime (now - secret_created_ i)) as [Hold|]; cbn [negb]; [|done].
  destruct Hs as [Hs|(_ & _ & Hlate)]; [|lia]. split; cbn; [lia|]. right. split; [done|]. split; [done|lia].
Qed.

Lemma refreshes_ok mk ck t until events : ∀ i, Forall (event_in t until) events →
  issuer_ok mk ck i → issuer_ok mk ck (refreshes events i).
Proof.
  intros i He Hi. revert i Hi. induction He as [|e events [Hr _] _ IH]; intros i Hi; [done|].
  apply IH. by apply refresh_ok.
Qed.

Lemma refreshes_honour secret t events : ∀ i, 0 < t →
  Forall (event_in t (t + kCookieSecretLifetime)) events →
  honours secret t i → honours secret t (refreshes events i).
Proof.
  intros i Ht He Hi. revert i Hi. induction He as [|e events [_ He] _ IH]; intros i Hi; [done|].
  apply IH. by apply refresh_honours.
Qed.

(** After any request at [t], the current secret is honoured from [t] on. *)
Lemma fresh_honoured random i t : 0 < t → honours (secret_ (refresh random i t)) t (refresh random i t).
Proof.
  intros Ht. split; [|by left]. unfold refresh.
  destruct (Z.eqb_spec (secret_created_ i) 0) as [E|E]; cbn [orb negb]; [cbn; lia|].
  destruct (kCookieSecretLifetime <=? _); cbn; [lia|done].
Qed.

Lemma honoured_mac2 mk ck random i source message secret t now :
  0 < t → t ≤ now < t + kCookieSecretLifetime → random_ok random →
  issuer_ok mk ck i → honours secret t i → length secret = 32%nat →
  (verify_mac2 random i source message
    (keyed_mac (keyed_mac secret (address_bytes (ep_address source))) message) now).2 = true.
Proof.
  intros Ht Hn Hr Hi Hh Hs. unfold verify_mac2. cbn [snd].
  apply (refresh_honours _ _ random _ _ Ht Hn) in Hh. apply (refresh_ok _ _ random _ now Hr) in Hi.
  assert (∀ s, s = secret → check_mac2 source message
    (keyed_mac (keyed_mac secret (address_bytes (ep_address source))) message) s = true) as Hcheck.
  { intros s ->. apply check_mac2_iff; [lia| |done]. apply keyed_mac_bytes. rewrite length_keyed_mac; lia. }
  destruct Hh as [_ [E|(-> & E & _)]]; rewrite (Hcheck _ E); [done|]. by destruct (check_mac2 _ _ _ _).
Qed.

(** C37. A cookie admits its holder for two minutes.  Whatever the issuer has
    done before, the reply it builds at time [t] survives its wire format and
    is accepted by an initiator that knows the responder's key and sent that
    [mac1]; from then on every message the initiator sends within two minutes
    of [t] from the same address carries MACs the issuer accepts, however many
    requests rotate the secret in between. *)
Theorem cookie_admits_for_two_minutes `{AeadLaws} static i source index sent_mac1 random n t :
  issuer_ok (mac1_key static) (cookie_key static) i → random_ok random → length n = kCookieNonceSize → is_u32 index → 0 < t →
  let issued := build_reply random (Some n) true i source index sent_mac1 t in
  ∃ reply wire, issued.2 = Ok reply ∧
    serialize_cookie_reply reply (replicate 60 0) = Ok wire ∧ parse_cookie_reply wire = Ok reply ∧
    ∀ received, ∃ holder,
      accept_reply (new_holder static) reply sent_mac1 received = (holder, Ok tt) ∧
      ∀ message events random' now,
        Forall (event_in t (t + kCookieSecretLifetime)) events → random_ok random' →
        t ≤ now < t + kCookieSecretLifetime →
        let later := refreshes events issued.1 in
        (verify_mac2 random' later source message (compute_mac2 holder message) now).2 = true ∧
        verify_mac1 later message (holder_mac1 holder message) = true.
Proof.
  intros Hi Hr Hn Hidx Ht issued. unfold issued, build_reply, compute_cookie, new_holder.
  assert (length (mac1_key static) ≤ 32)%nat as Hmk by (unfold mac1_key; rewrite length_hash_label; lia).
  revert Hi Hmk. generalize (mac1_key static) (cookie_key static). intros mk ck Hi Hmk.
  cbn [fst snd guard negb].
  set (j := refresh random i t). assert (issuer_ok mk ck j) as Hj by (by apply refresh_ok).
  set (cookie := keyed_mac (secret_ j) (address_bytes (ep_address source))).
  pose proof (iok_secret _ _ _ Hj) as Hsl.
  assert (length cookie = 16%nat) as Hcl by (apply length_keyed_mac; lia).
  set (reply := mkReply _ _ _). assert (reply_ok reply) as Hrep.
  { split; cbn; [done..|]. by rewrite aead_size, Hcl. }
  exists reply, (reply_bytes reply). split; [done|]. split.
  { rewrite serialize_reply_spec by done. rewrite drop_ge by done. by rewrite app_nil_r. }
  split; [rewrite <- (app_nil_r (reply_bytes reply)); by apply parse_reply_spec|]. intros received.
  exists (mkHolder mk ck cookie received true). split.
  { unfold accept_reply. cbn [holder_cookie_key_ reply nonce encrypted_cookie holder_mac1_key_].
    rewrite (iok_cookie _ _ _ Hj), aead_opens. done. }
  intros message events random' now He Hr' Hnow. cbv zeta.
  pose proof (refreshes_ok mk ck _ _ events j He Hj) as Hl. split.
  - unfold compute_mac2. cbn [has_cookie_ negb cookie_]. unfold cookie.
    assert (honours (secret_ j) t (refreshes events j)) as Hh
      by (apply refreshes_honour; [exact Ht|exact He|by apply fresh_honoured]).
    exact (honoured_mac2 mk ck _ _ source message _ t now Ht Hnow Hr' Hl Hh Hsl).
  - unfold verify_mac1, issuer_mac1, holder_mac1. cbn [holder_mac1_key_]. rewrite (iok_mac1 _ _ _ Hl).
    apply constant_time_equal_iff; [| |done]; by apply keyed_mac_bytes.
Qed.

Definition sample_source : Endpoint := mkEndpoint sample_address 443.

Lemma cookie_admits_for_two_minutes_witness :
  let static := replicate 32 9 in
  ∃ reply, (build_reply (H := toy_aead) (Some (replicate 32 5)) (Some (replicate 24 6)) true
              (new_issuer static) sample_source 0 (replicate 16 1) 1000).2 = Ok reply.
Proof.
  intros static.
  destruct (@cookie_admits_for_two_minutes toy_aead toy_laws static (new_issuer static) sample_source 0
    (replicate 16 1) (Some (replicate 32 5)) (replicate 24 6) 1000) as (reply & wire & E & _).
  - split; reflexivity.
  - by intros bytes [= <-].
  - reflexivity.
  - word_lia.
  - lia.
  - by exists reply.
Defined.
