(* ===== verification/RateLimit.v ===== *)
(** Protection against floods of handshakes: [src/rate_limit.cpp] and
    [src/load_monitor.cpp].

    Token buckets per source and for the node, and the smoothed load that
    decides when cookies are demanded; [double] is [Double.f64]. *)

From S2P Require Import Prelude Double Address.

Definition fge (x y : f64) : bool := fle y x.

(** ** [TokenBucket] *)

Record TokenBucket := mkBucket {
  capacity_ : f64;
  refill_per_second_ : f64;
  tokens_ : f64;
  last_ : Instant;
  initialized_ : bool;
}.

Definition empty_bucket : TokenBucket := mkBucket fzero fzero fzero 0 false.
#[export] Instance TokenBucket_inhabited : Inhabited TokenBucket := populate empty_bucket.

Definition new_bucket (capacity refill_per_second : f64) (now : Instant) : TokenBucket :=
  mkBucket capacity refill_per_second capacity now true.

Definition refill (b : TokenBucket) (now : Instant) : TokenBucket :=
  if now <=? last_ b then b
  else
    let elapsed := to_seconds (now - last_ b) in
    mkBucket (capacity_ b) (refill_per_second_ b)
      (fmin (capacity_ b) (fadd (tokens_ b) (fmul elapsed (refill_per_second_ b)))) now (initialized_ b).

Definition consume (b : TokenBucket) (now : Instant) (tokens : f64) : TokenBucket * bool :=
  let b := refill b now in
  if flt (tokens_ b) tokens then (b, false)
  else (mkBucket (capacity_ b) (refill_per_second_ b) (fsub (tokens_ b) tokens) (last_ b) (initialized_ b), true).

Definition available (b : TokenBucket) (now : Instant) : TokenBucket * f64 :=
  let b := refill b now in (b, tokens_ b).

(** ** [SourceRateLimiter] and [GlobalLimiter] *)

Definition kBucketCount : Z := 4096.
Definition kSourceBurst : f64 := of_int 8.
Definition kSourcePerSecond : f64 := of_int 2.
Definition kGlobalBurst : f64 := of_int 256.
Definition kGlobalPerSecond : f64 := of_int 64.

Record SourceRateLimiter := mkLimiter {
  burst_ : f64;
  per_second_ : f64;
  buckets_ : list TokenBucket;
  allowed_ : Z;
  rejected_ : Z;
}.

Definition new_limiter (burst per_second : f64) : SourceRateLimiter :=
  mkLimiter burst per_second (replicate (Z.to_nat kBucketCount) empty_bucket) 0 0.

Definition hash_endpoint (endpoint : Endpoint) : Z :=
  fold_left (λ hash octet, u64 (Z.lxor hash octet * 1099511628211))
    (address_bytes (ep_address endpoint)) 1469598103934665603.

Definition index_of (source : Endpoint) : nat := Z.to_nat (hash_endpoint source mod kBucketCount).

(** [auto& bucket = buckets_[index_of(source)]] *)
Definition allow (l : SourceRateLimiter) (source : Endpoint) (now : Instant) : SourceRateLimiter * bool :=
  let i := index_of source in
  let bucket := buckets_ l !!! i in
  let bucket := if negb (initialized_ bucket) then new_bucket (burst_ l) (per_second_ l) now else bucket in
  let '(bucket, granted) := consume bucket now (of_int 1) in
  let buckets := <[i := bucket]> (buckets_ l) in
  if granted then (mkLimiter (burst_ l) (per_second_ l) buckets (u64 (allowed_ l + 1)) (rejected_ l), true)
  else (mkLimiter (burst_ l) (per_second_ l) buckets (allowed_ l) (u64 (rejected_ l + 1)), false).

(** [GlobalLimiter] is its bucket. *)
Definition new_global (now : Instant) : TokenBucket := new_bucket kGlobalBurst kGlobalPerSecond now.
Definition global_allow (bucket : TokenBucket) (now : Instant) : TokenBucket * bool :=
  consume bucket now (of_int 1).

(** ** [LoadMonitor] *)

Inductive LoadState := normal | elevated | overloaded.
#[export] Instance LoadState_eq : EqDecision LoadState. Proof. solve_decision. Defined.

Record LoadSample := mkLoadSample {
  handshakes_received : Z;
  handshakes_completed : Z;
  queue_depth : Z;
  queue_capacity : Z;
  pending_handshakes : Z;
  pending_capacity : Z;
}.

Record LoadThresholds := mkThresholds {
  handshakes_per_second_high : f64;
  handshakes_per_second_low : f64;
  queue_fraction_high : f64;
  queue_fraction_low : f64;
  pending_fraction_high : f64;
  pending_fraction_low : f64;
  completion_ratio_low : f64;
  completion_ratio_minimum : Z;
}.

Definition default_thresholds : LoadThresholds :=
  mkThresholds (of_int 50) (of_int 20) (lit 60 100) (lit 30 100) (lit 50 100) (lit 20 100) (lit 25 100) 20.

Record LoadMonitor := mkMonitor {
  thresholds_ : LoadThresholds;
  load_state_ : LoadState;
  load_last_ : Instant;
  last_received_ : Z;
  last_completed_ : Z;
  primed_ : bool;
  handshake_rate_ : f64;
  queue_fraction_ : f64;
  pending_fraction_ : f64;
  completion_ratio_ : f64;
  transitions_ : Z;
}.

Definition new_monitor (t : LoadThresholds) : LoadMonitor :=
  mkMonitor t normal 0 0 0 false fzero fzero fzero (of_int 1) 0.

Definition kSmoothing : f64 := lit 33 100.
Definition smooth (previous sample : f64) : f64 := fadd previous (fmul kSmoothing (fsub sample previous)).
Definition fraction_of (used capacity : Z) : f64 :=
  if capacity =? 0 then fzero else fdiv (of_int used) (of_int capacity).

Definition any_high (m : LoadMonitor) : bool :=
  if fge (handshake_rate_ m) (handshakes_per_second_high (thresholds_ m)) then true
  else if fge (queue_fraction_ m) (queue_fraction_high (thresholds_ m)) then true
  else if fge (pending_fraction_ m) (pending_fraction_high (thresholds_ m)) then true
  else false.

Definition all_low (m : LoadMonitor) : bool :=
  fle (handshake_rate_ m) (handshakes_per_second_low (thresholds_ m)) &&
  fle (queue_fraction_ m) (queue_fraction_low (thresholds_ m)) &&
  fle (pending_fraction_ m) (pending_fraction_low (thresholds_ m)).

(** [now - last_] of a counter that never decreases; zero if it did. *)
Definition since (now last : Z) : Z := if last <=? now then now - last else 0.

(** The smoothed rates after a sample [elapsed] seconds after the last. *)
Definition measure (m : LoadMonitor) (sample : LoadSample) (now : Instant) (elapsed : f64) : LoadMonitor :=
  let received := since (handshakes_received sample) (last_received_ m) in
  let completed := since (handshakes_completed sample) (last_completed_ m) in
  let rate := smooth (handshake_rate_ m) (fdiv (of_int received) elapsed) in
  let ratio := if completion_ratio_minimum (thresholds_ m) <=? received
               then smooth (completion_ratio_ m) (fdiv (of_int completed) (of_int received))
               else completion_ratio_ m in
  mkMonitor (thresholds_ m) (load_state_ m) now (handshakes_received sample) (handshakes_completed sample)
    (primed_ m) rate (queue_fraction_ m) (pending_fraction_ m) ratio (transitions_ m).

Definition decide_state (m : LoadMonitor) : LoadMonitor :=
  let suspicious_pattern :=
    fge (handshake_rate_ m) (handshakes_per_second_low (thresholds_ m)) &&
    flt (completion_ratio_ m) (completion_ratio_low (thresholds_ m)) in
  let previous := load_state_ m in
  let state := if any_high m || suspicious_pattern then overloaded
               else if all_low m then normal
               else if decide (previous = overloaded) then overloaded else elevated in
  mkMonitor (thresholds_ m) state (load_last_ m) (last_received_ m) (last_completed_ m) (primed_ m)
    (handshake_rate_ m) (queue_fraction_ m) (pending_fraction_ m) (completion_ratio_ m)
    (if decide (state ≠ previous) then u64 (transitions_ m + 1) else transitions_ m).

Definition observe (m : LoadMonitor) (sample : LoadSample) (now : Instant) : LoadMonitor :=
  let queue := smooth (queue_fraction_ m) (fraction_of (queue_depth sample) (queue_capacity sample)) in
  let pending := smooth (pending_fraction_ m)
                   (fraction_of (pending_handshakes sample) (pending_capacity sample)) in
  if negb (primed_ m) then
    mkMonitor (thresholds_ m) (load_state_ m) now (handshakes_received sample) (handshakes_completed sample)
      true (handshake_rate_ m) queue pending (completion_ratio_ m) (transitions_ m)
  else
    let m := mkMonitor (thresholds_ m) (load_state_ m) (load_last_ m) (last_received_ m) (last_completed_ m)
               (primed_ m) (handshake_rate_ m) queue pending (completion_ratio_ m) (transitions_ m) in
    let elapsed := to_seconds (now - load_last_ m) in
    decide_state (if flt fzero elapsed then measure m sample now elapsed else m).

Definition under_load (m : LoadMonitor) : bool := bool_decide (load_state_ m = overloaded).

Lemma index_of_range source : (index_of source < Z.to_nat kBucketCount)%nat.
Proof. unfold index_of. pose proof (Z.mod_pos_bound (hash_endpoint source) kBucketCount eq_refl). lia. Qed.
