(* ===== verification/ControlPlane.v ===== *)
(** Handshakes in the large: class [ControlPlane] of [src/control_plane.cpp].

    The plane keeps the handshakes it started ([pending_]), those it answered
    and that wait for the first packet ([provisional_]), and installs the
    sessions they give in the table it shares with the workers.  [World] is
    everything the members read and write: the plane, the session table with
    its heap, the timer wheel and the thread's cipher contexts.  What a call
    gets from outside (clocks, random bytes, the cipher library's answers, the
    iteration order of the hash maps) is its [Env]. *)

From S2P Require Import Prelude Packet Nonce Handshake Address Routing Timers RateLimit Blake2s Crypto Noise.
From S2P Require Import Session SessionTable Cookie.

Module ControlError.
Inductive t :=
| unknown_peer | rate_limited | too_many_pending | handshake_failed | session_install_failed
| invalid_message | not_pending | crypto_unavailable | timer_capacity.

#[export] Instance eq_dec : EqDecision t.
Proof. solve_decision. Defined.
End ControlError.
Export (hints) ControlError.
Abbreviation ControlError := ControlError.t.

Record PeerConfig := mkPeer {
  pc_id : Z;
  static_public : list Z;
  preshared : list Z;
  pc_endpoint : option Endpoint;
}.

(** The counters of [ControlStats]. *)
Inductive Counter :=
| handshakes_started | control_completed | handshakes_failed | handshakes_timed_out | retries
| rate_limited_count | pending_rejected | responder_handshakes | provisional_promoted
| cookies_issued | cookies_accepted | mac1_failures | mac2_failures | replayed_initiations.
#[export] Instance Counter_eq : EqDecision Counter. Proof. solve_decision. Defined.

Definition ControlStats : Type := Counter → Z.
Definition new_control_stats : ControlStats := λ _, 0.
(** [++stats_.counter] *)
Definition increment (counter : Counter) (s : ControlStats) : ControlStats :=
  λ k, if decide (k = counter) then u64 (s k + 1) else s k.

Record OutgoingHandshake := mkOutgoing { destination : Endpoint; datagram : list Z }.

Definition kMaximumPending : Z := 256.
Definition kHandshakePayloadSize : nat := 16.

Record Pending := mkPending {
  pd_peer : Z;
  pd_handshake : option NoiseHandshake;
  pd_local_key_id : Z;
  attempt : Z;
  pd_destination : Endpoint;
  started : Instant;
  cookies : option CookieHolder;
  last_mac1 : list Z;
}.

Record Provisional := mkProvisional {
  pv_peer : Z;
  pv_local_key_id : Z;
  pv_remote_key_id : Z;
  pv_result : NoiseResult;
  pv_endpoint : Endpoint;
  created : Instant;
}.

Record ControlPlane := mkPlane {
  local_static_ : KeyPair;
  peers_ : gmap Z PeerConfig;
  pending_ : gmap Z Pending;
  provisional_ : gmap Z Provisional;
  keepalive_due_ : list Z;
  rekey_after_ : Duration;
  greatest_timestamp_ : gmap Z Z;
  learned_endpoint_ : gmap Z Endpoint;
  rate_limiter_ : SourceRateLimiter;
  global_limiter_ : TokenBucket;
  issuer_ : CookieIssuer;
  load_monitor_ : LoadMonitor;
  handshakes_seen_ : Z;
  control_stats_ : ControlStats;
}.

Definition with_peers (c : ControlPlane) (v : gmap Z PeerConfig) : ControlPlane :=
  mkPlane (local_static_ c) v (pending_ c) (provisional_ c) (keepalive_due_ c) (rekey_after_ c)
    (greatest_timestamp_ c) (learned_endpoint_ c) (rate_limiter_ c) (global_limiter_ c) (issuer_ c)
    (load_monitor_ c) (handshakes_seen_ c) (control_stats_ c).
Definition with_pending (c : ControlPlane) (v : gmap Z Pending) : ControlPlane :=
  mkPlane (local_static_ c) (peers_ c) v (provisional_ c) (keepalive_due_ c) (rekey_after_ c)
    (greatest_timestamp_ c) (learned_endpoint_ c) (rate_limiter_ c) (global_limiter_ c) (issuer_ c)
    (load_monitor_ c) (handshakes_seen_ c) (control_stats_ c).
Definition with_provisional (c : ControlPlane) (v : gmap Z Provisional) : ControlPlane :=
  mkPlane (local_static_ c) (peers_ c) (pending_ c) v (keepalive_due_ c) (rekey_after_ c)
    (greatest_timestamp_ c) (learned_endpoint_ c) (rate_limiter_ c) (global_limiter_ c) (issuer_ c)
    (load_monitor_ c) (handshakes_seen_ c) (control_stats_ c).
Definition with_keepalive_due (c : ControlPlane) (v : list Z) : ControlPlane :=
  mkPlane (local_static_ c) (peers_ c) (pending_ c) (provisional_ c) v (rekey_after_ c)
    (greatest_timestamp_ c) (learned_endpoint_ c) (rate_limiter_ c) (global_limiter_ c) (issuer_ c)
    (load_monitor_ c) (handshakes_seen_ c) (control_stats_ c).
Definition set_rekey_after (c : ControlPlane) (v : Duration) : ControlPlane :=
  mkPlane (local_static_ c) (peers_ c) (pending_ c) (provisional_ c) (keepalive_due_ c) v
    (greatest_timestamp_ c) (learned_endpoint_ c) (rate_limiter_ c) (global_limiter_ c) (issuer_ c)
    (load_monitor_ c) (handshakes_seen_ c) (control_stats_ c).
Definition with_timestamps (c : ControlPlane) (v : gmap Z Z) : ControlPlane :=
  mkPlane (local_static_ c) (peers_ c) (pending_ c) (provisional_ c) (keepalive_due_ c) (rekey_after_
    c) v (learned_endpoint_ c) (rate_limiter_ c) (global_limiter_ c) (issuer_ c) (load_monitor_ c)
    (handshakes_seen_ c) (control_stats_ c).
Definition with_learned (c : ControlPlane) (v : gmap Z Endpoint) : ControlPlane :=
  mkPlane (local_static_ c) (peers_ c) (pending_ c) (provisional_ c) (keepalive_due_ c) (rekey_after_
    c) (greatest_timestamp_ c) v (rate_limiter_ c) (global_limiter_ c) (issuer_ c) (load_monitor_ c)
    (handshakes_seen_ c) (control_stats_ c).
Definition with_rate_limiter (c : ControlPlane) (v : SourceRateLimiter) : ControlPlane :=
  mkPlane (local_static_ c) (peers_ c) (pending_ c) (provisional_ c) (keepalive_due_ c) (rekey_after_
    c) (greatest_timestamp_ c) (learned_endpoint_ c) v (global_limiter_ c) (issuer_ c) (load_monitor_ c)
    (handshakes_seen_ c) (control_stats_ c).
Definition with_global_limiter (c : ControlPlane) (v : TokenBucket) : ControlPlane :=
  mkPlane (local_static_ c) (peers_ c) (pending_ c) (provisional_ c) (keepalive_due_ c) (rekey_after_
    c) (greatest_timestamp_ c) (learned_endpoint_ c) (rate_limiter_ c) v (issuer_ c) (load_monitor_ c)
    (handshakes_seen_ c) (control_stats_ c).
Definition with_issuer (c : ControlPlane) (v : CookieIssuer) : ControlPlane :=
  mkPlane (local_static_ c) (peers_ c) (pending_ c) (provisional_ c) (keepalive_due_ c) (rekey_after_
    c) (greatest_timestamp_ c) (learned_endpoint_ c) (rate_limiter_ c) (global_limiter_ c) v
    (load_monitor_ c) (handshakes_seen_ c) (control_stats_ c).
Definition with_load_monitor (c : ControlPlane) (v : LoadMonitor) : ControlPlane :=
  mkPlane (local_static_ c) (peers_ c) (pending_ c) (provisional_ c) (keepalive_due_ c) (rekey_after_
    c) (greatest_timestamp_ c) (learned_endpoint_ c) (rate_limiter_ c) (global_limiter_ c) (issuer_ c) v
    (handshakes_seen_ c) (control_stats_ c).
Definition with_seen (c : ControlPlane) (v : Z) : ControlPlane :=
  mkPlane (local_static_ c) (peers_ c) (pending_ c) (provisional_ c) (keepalive_due_ c) (rekey_after_
    c) (greatest_timestamp_ c) (learned_endpoint_ c) (rate_limiter_ c) (global_limiter_ c) (issuer_ c)
    (load_monitor_ c) v (control_stats_ c).
Definition with_control_stats (c : ControlPlane) (v : ControlStats) : ControlPlane :=
  mkPlane (local_static_ c) (peers_ c) (pending_ c) (provisional_ c) (keepalive_due_ c) (rekey_after_
    c) (greatest_timestamp_ c) (learned_endpoint_ c) (rate_limiter_ c) (global_limiter_ c) (issuer_ c)
    (load_monitor_ c) (handshakes_seen_ c) v.

Definition new_plane (local_static : KeyPair) : ControlPlane :=
  mkPlane local_static ∅ ∅ ∅ [] kRekeyAfter ∅ ∅ (new_limiter kSourceBurst kSourcePerSecond) (new_global 0)
    (new_issuer (public_key local_static)) (new_monitor default_thresholds) 0 new_control_stats.

(** ** The world of a member function *)

Record World := mkWorld {
  plane : ControlPlane;
  heap : Heap;
  table : SessionTable;
  timers_ : list TimerEvent;
  contexts : AeadContexts;
}.

Definition on_plane (f : ControlPlane → ControlPlane) (w : World) : World :=
  mkWorld (f (plane w)) (heap w) (table w) (timers_ w) (contexts w).
Definition with_table (w : World) (h : Heap) (t : SessionTable) : World :=
  mkWorld (plane w) h t (timers_ w) (contexts w).
Definition with_timers (w : World) (l : list TimerEvent) : World :=
  mkWorld (plane w) (heap w) (table w) l (contexts w).
Definition with_contexts (w : World) (c : AeadContexts) : World :=
  mkWorld (plane w) (heap w) (table w) (timers_ w) c.

Abbreviation ctl := (effect World ControlError).

Definition count (k : Counter) : ctl unit :=
  modify (on_plane (λ c, with_control_stats c (increment k (control_stats_ c)))).
(** [++stats_.k; return std::unexpected(e);] *)
Definition fail_with {A} (k : Counter) (e : ControlError) : ctl A := bind _ := count k in lift (Fail e).

Record Env := mkEnv {
  crypto_available : bool;
  steady_now : Instant;           (* [steady_clock::now()] *)
  system_now : Z;                 (* [system_clock::now()], nanoseconds since the epoch *)
  keypair_ok : bool;              (* libsodium's status and random bytes in [generate_keypair] *)
  keypair_random : list Z;
  status : nat → Status;          (* the cipher library, call by call *)
  cookie_secret : nat → option (list Z);
  cookie_nonce : option (list Z);
  cookie_sealed : bool;
  pending_order : list Z;         (* the order in which the hash maps are iterated *)
  peer_order : list Z;
  provisional_order : list Z;
}.

(** The cipher of the cookies, XChaCha20-Poly1305. *)
Record CookieCipher := mkCookieCipher { cookie_aead : Aead }.

(** ** Payloads of the handshake *)

Definition default_version : ProtocolVersion := mkVersion 1 0.

Definition handshake_timestamp (env : Env) : Z := u64 (system_now env).

Definition build_payload (version : ProtocolVersion) (capabilities key_id timestamp : Z) : list Z :=
  [u8 (major version); u8 (minor version)] ++
  [Z.land (Z.shiftr capabilities 24) 0xFF; Z.land (Z.shiftr capabilities 16) 0xFF;
   Z.land (Z.shiftr capabilities 8) 0xFF; Z.land capabilities 0xFF] ++
  [Z.land (Z.shiftr key_id 8) 0xFF; Z.land key_id 0xFF] ++
  map (λ index, Z.land (Z.shiftr timestamp ((7 - Z.of_nat index) * 8)) 0xFF) (seq 0 8).

Definition payload_timestamp (payload : list Z) : Z :=
  if Nat.ltb (length payload) 16 then 0
  else fold_left (λ value b, Z.lor (u64 (Z.shiftl value 8)) b) (take 8 (drop 8 payload)) 0.

Definition payload_key_id (payload : list Z) : Z :=
  if Nat.ltb (length payload) 8 then kPreSessionKeyId
  else u16 (Z.lor (Z.shiftl (payload !!! 6%nat) 8) (payload !!! 7%nat)).

(** ** Peers *)

Section operations.
Context {heap_functions : HeapFunctions} {aead : Aead} {dh : Dh} (xc : CookieCipher).

Definition find_peer (c : ControlPlane) (peer : Z) : option PeerConfig := peers_ c !! peer.

Definition add_peer (peer : PeerConfig) : ctl unit :=
  bind _ := check (pc_id peer =? kNoPeer) ControlError.unknown_peer in
  modify (on_plane (λ c, with_peers c (<[pc_id peer := peer]> (peers_ c)))).

Definition cancel_timer (k : TimerKind) (subject : Z) : ctl unit :=
  modify (λ w, with_timers w (cancel (timers_ w) k subject).1).
Definition schedule_timer (k : TimerKind) (subject : Z) (due : Instant) : ctl bool :=
  λ w, let '(l, scheduled) := schedule (timers_ w) k subject due in (with_timers w l, Ok scheduled).

(** [std::erase_if(provisional_, ...)] *)
Fixpoint forget_provisional (order : list Z) (peer : Z) : ctl unit :=
  match order with
  | [] => sret tt
  | id :: order =>
      bind w := state in
      match provisional_ (plane w) !! id with
      | Some entry =>
          if negb (pv_peer entry =? peer) then forget_provisional order peer
          else
            bind _ := cancel_timer provisional_timeout id in
            bind _ := modify (on_plane (λ c, with_provisional c (delete id (provisional_ c)))) in
            forget_provisional order peer
      | None => forget_provisional order peer
      end
  end.

Definition forget_peer (env : Env) (peer : Z) : ctl unit :=
  bind _ := modify (on_plane (λ c, with_peers c (delete peer (peers_ c)))) in
  bind _ := modify (on_plane (λ c, with_pending c (delete peer (pending_ c)))) in
  bind _ := modify (on_plane (λ c, with_timestamps c (delete peer (greatest_timestamp_ c)))) in
  bind _ := modify (on_plane (λ c, with_learned c (delete peer (learned_endpoint_ c)))) in
  bind _ := cancel_timer handshake_timeout peer in
  bind _ := cancel_timer handshake_retry peer in
  bind _ := cancel_timer rekey peer in
  bind _ := cancel_timer keepalive peer in
  bind _ := forget_provisional (provisional_order env) peer in
  modify (on_plane (λ c, with_keepalive_due c (filter (λ p, p ≠ peer) (keepalive_due_ c)))).

Definition dial_endpoint (c : ControlPlane) (peer : Z) : option Endpoint :=
  match find_peer c peer with
  | None => None
  | Some config =>
      match pc_endpoint config with
      | Some e => Some e
      | None => learned_endpoint_ c !! peer
      end
  end.

(** ** Key ids *)

Definition held (c : ControlPlane) (id : Z) : bool :=
  existsb (λ e, pd_local_key_id e.2 =? id) (map_to_list (pending_ c)).

Fixpoint allocate_attempts (attempts : nat) : ctl Z :=
  match attempts with
  | O => lift (Fail ControlError.session_install_failed)
  | S attempts => λ w,
      let '(t, candidate) := SessionTable.allocate_key_id (table w) in
      let w := with_table w (heap w) t in
      match candidate with
      | Ok id =>
          match provisional_ (plane w) !! id with
          | Some _ => allocate_attempts attempts w
          | None => if held (plane w) id then allocate_attempts attempts w else (w, Ok id)
          end
      | Fail _ => (w, Fail ControlError.session_install_failed)
      | Ub => (w, Ub)
      end
  end.

Definition allocate_key_id : ctl Z := allocate_attempts (Z.to_nat (kMaximumPending * 2 + 2)).

(** ** Initiations *)

(** A member function of a handshake object held in a local variable. *)
Definition noise_call {A} (e : ControlError) (m : Noise.step A) (h : NoiseHandshake) : ctl (NoiseHandshake * A) :=
  λ w, let '((c, h), r) := m (contexts w, h) in
       (with_contexts w c, let* a := recast (λ _, e) r in Ok (h, a)).

(** The code works on a reference to the entry, here next to the world. *)
Abbreviation pctl := (effect (World * Pending) ControlError).
Definition outer {A} (m : ctl A) : pctl A := λ s, let '(w, r) := m s.1 in ((w, s.2), r).

Definition with_cookies (e : Pending) (h : CookieHolder) : Pending :=
  mkPending (pd_peer e) (pd_handshake e) (pd_local_key_id e) (attempt e) (pd_destination e) (started e)
    (Some h) (last_mac1 e).
Definition with_last_mac1 (e : Pending) (m : list Z) : Pending :=
  mkPending (pd_peer e) (pd_handshake e) (pd_local_key_id e) (attempt e) (pd_destination e) (started e)
    (cookies e) m.
Definition with_handshake (e : Pending) (h : NoiseHandshake) : Pending :=
  mkPending (pd_peer e) (Some h) (pd_local_key_id e) (attempt e) (pd_destination e) (started e)
    (cookies e) (last_mac1 e).
Definition with_started (e : Pending) (now : Instant) : Pending :=
  mkPending (pd_peer e) (pd_handshake e) (pd_local_key_id e) (attempt e) (pd_destination e) now
    (cookies e) (last_mac1 e).
Definition with_attempt (e : Pending) (n : Z) : Pending :=
  mkPending (pd_peer e) (pd_handshake e) (pd_local_key_id e) n (pd_destination e) (started e)
    (cookies e) (last_mac1 e).

Definition create_error (e : NoiseError) : ControlError :=
  if decide (e = NoiseError.unsupported_platform) then ControlError.crypto_unavailable
  else ControlError.handshake_failed.

(** [frame] with both MACs of [holder] written behind a message of [written] bytes. *)
Definition stamp_macs (holder : CookieHolder) (frame : list Z) (written : nat)
    : res ControlError (list Z * list Z) :=
  let first := Z.to_nat (mac1_offset (Z.of_nat written)) in
  let second := Z.to_nat (mac2_offset (Z.of_nat written)) in
  let* covered := span_first frame first in
  let mac1 := holder_mac1 holder covered in
  let* frame := blit frame first mac1 in
  let* covered := span_first frame second in
  let* frame := blit frame second (compute_mac2 holder covered) in
  Ok (frame, mac1).

Definition keypair (env : Env) : res CryptoError KeyPair := generate_keypair (keypair_ok env) (keypair_random env).

Definition build_initiation (env : Env) (now : Instant) : pctl OutgoingHandshake :=
  bind s := state in
  let entry := s.2 in
  match find_peer (plane s.1) (pd_peer entry) with
  | None => lift (Fail ControlError.unknown_peer)
  | Some config =>
      bind handshake := lift (recast create_error
        (create (crypto_available env) initiator (local_static_ (plane s.1)) (static_public config)
           (preshared config) [])) in
      let payload := build_payload default_version 0 (pd_local_key_id entry) (handshake_timestamp env) in
      let message := replicate (kNoiseMessage1Overhead + length payload) 0 in
      bind sent := outer (noise_call ControlError.handshake_failed
        (write_message_1 (status env 0) (status env 1) (keypair env) payload message) handshake) in
      let handshake := sent.1 in
      let written := sent.2.2 in
      bind message := lift (span_first sent.2.1 written) in
      bind frame := lift (recast (λ _, ControlError.handshake_failed)
        (serialize_handshake_frame_with_macs init message)) in
      let holder := default (new_holder (static_public config)) (cookies entry) in
      bind _ := modify (λ s, (s.1, with_cookies s.2 holder)) in
      bind stamped := lift (stamp_macs holder frame written) in
      bind _ := modify (λ s, (s.1, with_last_mac1 s.2 stamped.2)) in
      bind _ := modify (λ s, (s.1, with_started (with_handshake s.2 handshake) now)) in
      bind scheduled := outer (schedule_timer handshake_timeout (pd_peer entry) (now + kHandshakeTimeout)) in
      bind _ := check (negb scheduled) ControlError.timer_capacity in
      bind scheduled := outer (schedule_timer handshake_retry (pd_peer entry)
        (now + retry_backoff (attempt entry))) in
      bind _ := check (negb scheduled) ControlError.timer_capacity in
      sret (mkOutgoing (pd_destination entry) stamped.1)
  end.

Definition size_of {A} (m : gmap Z A) : Z := Z.of_nat (size m).
Definition contains {A} (m : gmap Z A) (k : Z) : bool := match m !! k with Some _ => true | None => false end.

Definition start_handshake (env : Env) (peer : Z) (now : Instant) : ctl OutgoingHandshake :=
  bind _ := check (negb (crypto_available env)) ControlError.crypto_unavailable in
  bind w := state in
  bind _ := check (negb (contains (peers_ (plane w)) peer)) ControlError.unknown_peer in
  match dial_endpoint (plane w) peer with
  | None => lift (Fail ControlError.unknown_peer)
  | Some destination =>
      if (kMaximumPending <=? size_of (pending_ (plane w))) && negb (contains (pending_ (plane w)) peer)
      then fail_with pending_rejected ControlError.too_many_pending
      else
        bind key_id := allocate_key_id in
        let entry := mkPending peer None key_id 0 destination 0 None (replicate kMacSize 0) in
        bind initiation := (λ w, let '((w, entry), r) := build_initiation env now (w, entry) in
                                 (w, let* out := r in Ok (out, entry))) in
        bind _ := modify (on_plane (λ c, with_pending c (<[peer := initiation.2]> (pending_ c)))) in
        bind _ := count handshakes_started in
        sret initiation.1
  end.

(** ** Sessions *)

Definition learn_endpoint (peer : Z) (e : Endpoint) : ctl unit :=
  modify (on_plane (λ c, with_learned c (<[peer := e]> (learned_endpoint_ c)))).

(** [SessionTable::install] and [note_authenticated_endpoint] of the session installed *)
Definition put_session (env : Env) (peer local_key_id : Z) (session : Session) : ctl nat :=
  λ w, let '(h, t, r) := install (steady_now env) (heap w) (table w) peer local_key_id session in
       (with_table w h t, recast (λ _, ControlError.session_install_failed) r).

Definition note_endpoint (pointer : nat) (e : Endpoint) : ctl unit :=
  modify (λ w, with_table w (alter (λ s, note_authenticated_endpoint s e) pointer (heap w)) (table w)).

(** The timers of a new session replace those of its handshake. *)
Definition arm_timers (env : Env) (peer : Z) : ctl unit :=
  let now := steady_now env in
  bind _ := cancel_timer handshake_timeout peer in
  bind _ := cancel_timer handshake_retry peer in
  bind _ := cancel_timer rekey peer in
  bind _ := cancel_timer keepalive peer in
  bind w := state in
  bind _ := (if 0 <? rekey_after_ (plane w) then schedule_timer rekey peer (now + rekey_after_ (plane w))
             else sret true) in
  bind _ := schedule_timer keepalive peer (now + kKeepaliveInterval) in
  sret tt.

Definition install_session (env : Env) (peer local_key_id remote_key_id : Z) (result : NoiseResult)
    (endpoint : Endpoint) : ctl unit :=
  bind pointer := put_session env peer local_key_id
    (new_session (steady_now env) peer local_key_id remote_key_id (mkKeys (res_send result) 0)
       (mkKeys (res_receive result) 0)) in
  bind _ := note_endpoint pointer endpoint in
  bind _ := learn_endpoint peer endpoint in
  arm_timers env peer.

(** ** Datagrams *)

Abbreviation answer := (option OutgoingHandshake).

Definition put_pending (peer : Z) (entry : Pending) : ctl unit :=
  modify (on_plane (λ c, with_pending c (<[peer := entry]> (pending_ c)))).

(** [build_initiation(entry, now)] on the entry of [peer] in [pending_] *)
Definition reinitiate (env : Env) (now : Instant) (peer : Z) (entry : Pending) : ctl OutgoingHandshake :=
  λ w, let '((w, entry), r) := build_initiation env now (w, entry) in
       ((put_pending peer entry w).1, r).

Fixpoint cookie_loop (env : Env) (reply : CookieReply) (now : Instant) (order : list Z) : ctl answer :=
  match order with
  | [] => lift (Fail ControlError.not_pending)
  | peer :: order =>
      bind w := state in
      match pending_ (plane w) !! peer with
      | None => cookie_loop env reply now order
      | Some entry =>
          match cookies entry with
          | None => cookie_loop env reply now order
          | Some holder =>
              match accept_reply (H := cookie_aead xc) holder reply (last_mac1 entry) now with
              | (holder, Ok _) =>
                  bind _ := count cookies_accepted in
                  bind retry := reinitiate env now peer (with_cookies entry holder) in
                  sret (Some retry)
              | _ => cookie_loop env reply now order
              end
          end
      end
  end.

Definition handle_cookie_reply (env : Env) (frame : HandshakeFrameView) (now : Instant) : ctl answer :=
  bind reply := lift (recast (λ _, ControlError.invalid_message) (parse_cookie_reply (noise_message frame))) in
  cookie_loop env reply now (pending_order env).

Definition with_issuer_ (i : CookieIssuer) : ctl unit := modify (on_plane (λ c, with_issuer c i)).

(** The cookie sent instead of an answer. *)
Definition demand_cookie (env : Env) (source : Endpoint) (mac1 : list Z) (now : Instant) : ctl answer :=
  bind _ := count mac2_failures in
  bind w := state in
  let '(issuer, reply) := build_reply (H := cookie_aead xc) (cookie_secret env 1) (cookie_nonce env)
                            (cookie_sealed env) (issuer_ (plane w)) source 0 mac1 now in
  bind _ := with_issuer_ issuer in
  bind reply := lift (recast (λ _, ControlError.handshake_failed) reply) in
  bind encoded := lift (recast (λ _, ControlError.handshake_failed)
    (serialize_cookie_reply reply (replicate (Z.to_nat kCookieReplySize) 0))) in
  bind datagram := lift (recast (λ _, ControlError.handshake_failed)
    (serialize_handshake_frame cookie_reply encoded)) in
  bind _ := count cookies_issued in
  sret (Some (mkOutgoing source datagram)).

(** The guards of an initiation: [Some] is the cookie that answers it. *)
Definition admit_initiation (env : Env) (source : Endpoint) (frame : HandshakeFrameView) (now : Instant)
    : ctl answer :=
  bind w := state in
  if kMaximumPending <=? size_of (provisional_ (plane w))
  then fail_with pending_rejected ControlError.too_many_pending
  else if negb (has_macs frame) then fail_with mac1_failures ControlError.invalid_message
  else if negb (verify_mac1 (issuer_ (plane w)) (mac1_covered frame) (mac1 frame))
  then fail_with mac1_failures ControlError.invalid_message
  else if under_load_ (issuer_ (plane w)) then
    let '(issuer, verified) := verify_mac2 (cookie_secret env 0) (issuer_ (plane w)) source
                                 (mac2_covered frame) (mac2 frame) now in
    bind _ := with_issuer_ issuer in
    if verified then sret None else demand_cookie env source (mac1 frame) now
  else sret None.

(** [for (const auto& [peer_id, config] : peers_)] *)
Fixpoint match_peer (c : ControlPlane) (claimed : list Z) (order : list Z) : option (Z * PeerConfig) :=
  match order with
  | [] => None
  | peer :: order =>
      match peers_ c !! peer with
      | Some config =>
          if constant_time_equal claimed (static_public config) then Some (peer, config)
          else match_peer c claimed order
      | None => match_peer c claimed order
      end
  end.

(** A responder's handshake that has read the initiation, and its payload. *)
Definition read_initiation (env : Env) (st : nat) (preshared : list Z) (frame : HandshakeFrameView)
    : ctl (NoiseHandshake * list Z) :=
  bind w := state in
  bind handshake := lift (recast (λ _, ControlError.handshake_failed)
    (create (crypto_available env) responder (local_static_ (plane w)) (replicate 32 0) preshared [])) in
  bind read := otherwise
    (noise_call ControlError.handshake_failed
       (read_message_1 (status env st) (status env (S st)) (noise_message frame)
          (replicate kHandshakePayloadSize 0)) handshake)
    (fail_with handshakes_failed ControlError.handshake_failed) in
  sret (read.1, read.2.1).

Definition identify (env : Env) (frame : HandshakeFrameView) : ctl (Z * PeerConfig) :=
  bind read := read_initiation env 0 (replicate 32 0) frame in
  bind w := state in
  match match_peer (plane w) (remote_static_ read.1) (peer_order env) with
  | None => fail_with handshakes_failed ControlError.unknown_peer
  | Some found => sret found
  end.

(** [greatest_timestamp_]: an initiation must be newer than the last accepted. *)
Definition replayed_initiation (c : ControlPlane) (peer timestamp : Z) : bool :=
  match greatest_timestamp_ c !! peer with Some seen => timestamp <=? seen | None => false end.

(** The response on the wire, with its first MAC. *)
Definition frame_response (issuer : CookieIssuer) (message : list Z) : res ControlError (list Z) :=
  let* reply := recast (λ _, ControlError.handshake_failed)
                  (serialize_handshake_frame_with_macs response message) in
  let first := Z.to_nat (mac1_offset (blen message)) in
  let* covered := span_first reply first in
  blit reply first (issuer_mac1 issuer covered).

Definition answer_initiation (env : Env) (source : Endpoint) (frame : HandshakeFrameView) (now : Instant)
    (matched_id : Z) (matched : PeerConfig) : ctl answer :=
  bind read := read_initiation env 2 (preshared matched) frame in
  let handshake := read.1 in
  let payload := read.2 in
  let remote_key_id := payload_key_id payload in
  if remote_key_id =? kPreSessionKeyId then fail_with handshakes_failed ControlError.invalid_message
  else
    let timestamp := payload_timestamp payload in
    bind w := state in
    if replayed_initiation (plane w) matched_id timestamp
    then fail_with replayed_initiations ControlError.invalid_message
    else
      bind _ := modify (on_plane (λ c,
        with_timestamps c (<[matched_id := timestamp]> (greatest_timestamp_ c)))) in
      bind key_id := allocate_key_id in
      let reply_payload := build_payload default_version 0 key_id (handshake_timestamp env) in
      let message := replicate (kNoiseMessage2Overhead + length reply_payload) 0 in
      bind sent := otherwise
        (noise_call ControlError.handshake_failed
           (write_message_2 (status env 4) (keypair env) reply_payload message) handshake)
        (fail_with handshakes_failed ControlError.handshake_failed) in
      match result sent.1 with
      | Ok completed =>
          if negb (constant_time_equal (remote_static completed) (static_public matched))
          then fail_with handshakes_failed ControlError.handshake_failed
          else
            bind w := state in
            if kMaximumPending <=? size_of (provisional_ (plane w))
            then fail_with pending_rejected ControlError.too_many_pending
            else
              let entry := mkProvisional matched_id key_id remote_key_id completed source now in
              bind _ := modify (on_plane (λ c, with_provisional c (<[key_id := entry]> (provisional_ c)))) in
              bind _ := schedule_timer provisional_timeout key_id (now + kHandshakeTimeout) in
              bind message := lift (span_first sent.2.1 sent.2.2) in
              bind reply := lift (frame_response (issuer_ (plane w)) message) in
              bind _ := count responder_handshakes in
              sret (Some (mkOutgoing source reply))
      | Fail _ => fail_with handshakes_failed ControlError.handshake_failed
      | Ub => lift Ub
      end.

Definition handle_initiation (env : Env) (source : Endpoint) (frame : HandshakeFrameView) (now : Instant)
    : ctl answer :=
  bind cookie := admit_initiation env source frame now in
  match cookie with
  | Some _ => sret cookie
  | None =>
      bind matched := identify env frame in
      answer_initiation env source frame now matched.1 matched.2
  end.

(** [entry.handshake->read_message_2]: the entry keeps the handshake, whatever it answers. *)
Definition read_response (env : Env) (i : nat) (peer : Z) (entry : Pending) (h : NoiseHandshake)
    (frame : HandshakeFrameView) : ctl (option (NoiseHandshake * list Z)) :=
  λ w, let '((c, h), r) := read_message_2 (status env i) (noise_message frame)
                             (replicate kHandshakePayloadSize 0) (contexts w, h) in
       ((put_pending peer (with_handshake entry h) (with_contexts w c)).1,
        match r with
        | Ok (payload, _) => Ok (Some (h, payload))
        | Fail _ => Ok None
        | Ub => Ub
        end).

Definition finish_handshake (peer : Z) : ctl answer :=
  bind _ := modify (on_plane (λ c, with_pending c (delete peer (pending_ c)))) in
  bind _ := count control_completed in
  bind _ := modify (on_plane (λ c, with_keepalive_due c (keepalive_due_ c ++ [peer]))) in
  sret None.

Fixpoint response_loop (env : Env) (i : nat) (source : Endpoint) (frame : HandshakeFrameView)
    (order : list Z) : ctl answer :=
  match order with
  | [] => fail_with handshakes_failed ControlError.not_pending
  | peer :: order =>
      let continue := response_loop env (S i) source frame order in
      bind w := state in
      match pending_ (plane w) !! peer with
      | None => continue
      | Some entry =>
          match pd_handshake entry, cookies entry with
          | Some h, Some holder =>
              if negb (constant_time_equal (holder_mac1 holder (mac1_covered frame)) (mac1 frame))
              then continue
              else
                bind read := read_response env i peer entry h frame in
                match read with
                | None => continue
                | Some (h, payload) =>
                    match result h with
                    | Ok completed =>
                        let responder_key_id := payload_key_id payload in
                        if responder_key_id =? kPreSessionKeyId then continue
                        else
                          bind _ := install_session env peer (pd_local_key_id entry) responder_key_id
                                      completed source in
                          finish_handshake peer
                    | Fail _ => continue
                    | Ub => lift Ub
                    end
                end
          | _, _ => continue
          end
      end
  end.

Definition handle_response (env : Env) (source : Endpoint) (frame : HandshakeFrameView) : ctl answer :=
  if negb (has_macs frame) then fail_with mac1_failures ControlError.invalid_message
  else response_loop env 0 source frame (pending_order env).

(** Both rate limits; a refusal is counted. *)
Definition limit (source : Endpoint) (now : Instant) : ctl unit :=
  bind w := state in
  let '(bucket, granted) := global_allow (global_limiter_ (plane w)) now in
  bind _ := modify (on_plane (λ c, with_global_limiter c bucket)) in
  if negb granted then fail_with rate_limited_count ControlError.rate_limited
  else
    let '(limiter, granted) := allow (rate_limiter_ (plane w)) source now in
    bind _ := modify (on_plane (λ c, with_rate_limiter c limiter)) in
    if negb granted then fail_with rate_limited_count ControlError.rate_limited else sret tt.

Definition handle_datagram (env : Env) (source : Endpoint) (bytes : list Z) (now : Instant) : ctl answer :=
  bind _ := check (negb (crypto_available env)) ControlError.crypto_unavailable in
  bind _ := limit source now in
  bind _ := modify (on_plane (λ c, with_seen c (u64 (handshakes_seen_ c + 1)))) in
  bind frame := lift (recast (λ _, ControlError.invalid_message) (parse_handshake_frame bytes)) in
  match fv_message frame with
  | cookie_reply => handle_cookie_reply env frame now
  | init => handle_initiation env source frame now
  | response => handle_response env source frame
  | _ => lift (Fail ControlError.invalid_message)
  end.

(** ** Load, promotion and timers *)

Definition evaluate_load (queue_depth queue_capacity : Z) (now : Instant) : ctl unit :=
  modify (on_plane (λ c,
    let sample := mkLoadSample (handshakes_seen_ c) (control_stats_ c control_completed) queue_depth
                    queue_capacity (size_of (pending_ c) + size_of (provisional_ c)) kMaximumPending in
    let monitor := RateLimit.observe (load_monitor_ c) sample now in
    with_issuer (with_load_monitor c monitor) (set_under_load (issuer_ c) (under_load monitor)))).

(** After a provisional session has opened its first packet. *)
Definition promote (env : Env) (key_id : Z) (entry : Provisional) (candidate : Session) (source : Endpoint)
    : ctl unit :=
  bind pointer := (λ w, let '(w, r) := put_session env (pv_peer entry) (pv_local_key_id entry) candidate w in
                        ((on_plane (λ c, with_provisional c (delete key_id (provisional_ c))) w), r)) in
  bind _ := note_endpoint pointer source in
  let peer := peer_ candidate in
  bind _ := learn_endpoint peer source in
  bind _ := cancel_timer provisional_timeout key_id in
  bind _ := cancel_timer rekey peer in
  bind _ := cancel_timer keepalive peer in
  bind _ := schedule_timer keepalive peer (steady_now env + kKeepaliveInterval) in
  bind _ := count provisional_promoted in
  count control_completed.

(** The plaintext goes to [out]. *)
Definition try_promote_provisional (env : Env) (view : PacketView) (bytes out : list Z) (source : Endpoint)
    (w : World) : World * list Z * res ControlError Z :=
  let key := key_id (header view) in
  match provisional_ (plane w) !! key with
  | None => (w, out, Fail ControlError.not_pending)
  | Some entry =>
      let candidate := new_session (steady_now env) (pv_peer entry) (pv_local_key_id entry)
                         (pv_remote_key_id entry) (mkKeys (res_send (pv_result entry)) 0)
                         (mkKeys (res_receive (pv_result entry)) 0) in
      let '(c, candidate, out, opened) :=
        Session.open (status env 0) (steady_now env) (contexts w) candidate view bytes out in
      let w := with_contexts w c in
      match opened with
      | Ok n => let '(w, r) := promote env key entry candidate source w in (w, out, let* _ := r in Ok n)
      | Fail _ => (w, out, Fail ControlError.handshake_failed)
      | Ub => (w, out, Ub)
      end
  end.

Definition push_keepalive (peer : Z) : ctl unit :=
  modify (on_plane (λ c, with_keepalive_due c (keepalive_due_ c ++ [peer]))).

(** What an event sends, if anything. *)
Definition on_timer (event : TimerEvent) (env : Env) (now : Instant) : ctl answer :=
  let peer := subject event in
  bind w := state in
  match kind event with
  | handshake_timeout =>
      if contains (pending_ (plane w)) peer then
        bind _ := modify (on_plane (λ c, with_pending c (delete peer (pending_ c)))) in
        bind _ := count handshakes_timed_out in
        bind _ := cancel_timer handshake_retry peer in
        sret None
      else sret None
  | provisional_timeout =>
      if (peer <=? 0xFFFF) && contains (provisional_ (plane w)) (u16 peer) then
        bind _ := modify (on_plane (λ c, with_provisional c (delete (u16 peer) (provisional_ c)))) in
        bind _ := count handshakes_timed_out in
        sret None
      else sret None
  | handshake_retry =>
      match pending_ (plane w) !! peer with
      | None => sret None
      | Some entry =>
          bind _ := count retries in
          bind retry := reinitiate env now peer (with_attempt entry (u32 (attempt entry + 1))) in
          sret (Some retry)
      end
  | rekey => bind out := start_handshake env peer now in sret (Some out)
  | keepalive =>
      let '(t, found) := find_by_peer (table w) peer in
      bind _ := modify (λ w, with_table w (heap w) t) in
      match found with
      | None => sret None
      | Some _ =>
          bind _ := push_keepalive peer in
          bind _ := schedule_timer keepalive peer (now + kKeepaliveInterval) in
          sret None
      end
  | session_expiry | path_probe | dead_peer => sret None
  end.

(** The events that expired, each with what the outside answers meanwhile. *)
Fixpoint on_timers (events : list (TimerEvent * Env)) (now : Instant) (w : World)
    : World * list OutgoingHandshake :=
  match events with
  | [] => (w, [])
  | (event, env) :: events =>
      let '(w, r) := on_timer event env now w in
      let '(w, outgoing) := on_timers events now w in
      (w, match r with Ok (Some out) => out :: outgoing | _ => outgoing end)
  end.

Definition take_expired_keepalives (w : World) : World * list Z :=
  (on_plane (λ c, with_keepalive_due c []) w, keepalive_due_ (plane w)).

End operations.
