(* ===== verification/ControlIds.v ===== *)
(** The invariant of the control plane: key ids of pending handshakes,
    provisional sessions and installed sessions never meet, and every table
    stays within its bound. *)

From S2P Require Import Prelude Packet Nonce Handshake Address Routing Timers RateLimit Blake2s Crypto Noise.
From S2P Require Import Session SessionTable Cookie ControlPlane.

Section invariant.
Context {heap_functions : HeapFunctions} {aead : Aead} {dh : Dh} (xc : CookieCipher).

Record plane_ok (w : World) : Prop := {
  po_table : table_ok (heap w) (table w);
  po_wheel : wheel_reach (timers_ w);
  po_peers : ∀ p c, peers_ (plane w) !! p = Some c → p ≠ kNoPeer;
  po_pending : ∀ p e, pending_ (plane w) !! p = Some e → p ≠ kNoPeer ∧ pd_peer e = p ∧
    1 ≤ pd_local_key_id e < 2 ^ 16 ∧ sessions_ (table w) !! pd_local_key_id e = None ∧
    provisional_ (plane w) !! pd_local_key_id e = None;
  po_distinct : ∀ p q e f, pending_ (plane w) !! p = Some e → pending_ (plane w) !! q = Some f →
    pd_local_key_id e = pd_local_key_id f → p = q;
  po_provisional : ∀ id v, provisional_ (plane w) !! id = Some v → pv_local_key_id v = id ∧
    1 ≤ id < 2 ^ 16 ∧ pv_peer v ≠ kNoPeer ∧ sessions_ (table w) !! id = None;
  po_pending_size : size_of (pending_ (plane w)) ≤ kMaximumPending;
  po_provisional_size : size_of (provisional_ (plane w)) ≤ kMaximumPending;
}.

(** An id no handshake and no session uses. *)
Record id_free (w : World) (id : Z) : Prop := {
  if_range : 1 ≤ id < 2 ^ 16;
  if_sessions : sessions_ (table w) !! id = None;
  if_provisional : provisional_ (plane w) !! id = None;
  if_pending : ∀ p e, pending_ (plane w) !! p = Some e → pd_local_key_id e ≠ id;
}.

(** The parts the invariant reads are as before, but for timers. *)
Record same_core (w w' : World) : Prop := {
  sc_peers : peers_ (plane w') = peers_ (plane w);
  sc_pending : pending_ (plane w') = pending_ (plane w);
  sc_provisional : provisional_ (plane w') = provisional_ (plane w);
  sc_heap : heap w' = heap w;
  sc_table : table w' = table w;
  sc_wheel : wheel_reach (timers_ w) → wheel_reach (timers_ w');
}.

#[export] Instance same_core_preorder : PreOrder same_core.
Proof.
  split; [by intros w|]. intros w1 w2 w3 [] []. split; first [congruence|auto].
Qed.

Lemma same_core_ok w w' : same_core w w' → plane_ok w → plane_ok w'.
Proof.
  intros [E1 E2 E3 E4 E5 Hw] []. split; rewrite ?E1, ?E2, ?E3, ?E4, ?E5; auto.
Qed.

Lemma same_core_free w w' id : same_core w w' → id_free w id → id_free w' id.
Proof. intros [E1 E2 E3 E4 E5 Hw] []. split; rewrite ?E1, ?E2, ?E3, ?E4, ?E5; auto. Qed.

Definition inert {A} (m : ctl A) : Prop := respects same_core m.
Definition keeps {A} (m : ctl A) : Prop := triple plane_ok m (λ _, plane_ok) plane_ok.

Lemma inert_keeps {A} (m : ctl A) : inert m → keeps m.
Proof. intros Hm. apply (triple_respects same_core); [done|]. intros. by eapply same_core_ok. Qed.

(** ** Steps that leave the core alone *)

Lemma on_plane_inert (f : ControlPlane → ControlPlane) :
  (∀ c, peers_ (f c) = peers_ c ∧ pending_ (f c) = pending_ c ∧ provisional_ (f c) = provisional_ c) →
  inert (modify (on_plane f)).
Proof. intros Hf. apply respects_modify. intros w. destruct (Hf (plane w)) as (? & ? & ?). by split. Qed.

Lemma count_inert k : inert (count k).
Proof. by apply on_plane_inert. Qed.

Lemma fail_with_inert {A} k e : inert (fail_with (A:=A) k e).
Proof. apply respects_bind; [apply _|apply count_inert|]. intros _. apply respects_lift, _. Qed.

Lemma cancel_inert k s : inert (cancel_timer k s).
Proof. apply respects_modify. intros w. split; try done. apply wheel_cancel. Qed.

Lemma schedule_inert k s d : inert (schedule_timer k s d).
Proof.
  intros w. unfold schedule_timer. destruct (schedule _ _ _ _) as [l b] eqn:El.
  split; try done. intros Hw. cbn. pose proof (wheel_schedule (timers_ w) k s d Hw) as H. by rewrite El in H.
Qed.

Lemma learn_inert peer e : inert (learn_endpoint peer e).
Proof. by apply on_plane_inert. Qed.

Lemma noise_call_inert {A} e (m : Noise.step A) h : inert (noise_call e m h).
Proof. intros w. unfold noise_call. destruct (m (contexts w, h)) as [[c' h'] r]. by split. Qed.

Ltac inert_step := lazymatch goal with
  | |- inert _ => unfold inert
  | |- respects _ (fail_with _ _) => apply fail_with_inert
  | |- respects _ (sbind _ _) => apply respects_bind; [apply _| |intros ?]
  | |- respects _ (count _) => apply count_inert
  | |- respects _ (cancel_timer _ _) => apply cancel_inert
  | |- respects _ (schedule_timer _ _ _) => apply schedule_inert
  | |- respects _ (learn_endpoint _ _) => apply learn_inert
  | |- respects _ (noise_call _ _ _) => apply noise_call_inert
  | |- respects _ (sret _) => apply respects_ret, _
  | |- respects _ (lift _) => apply respects_lift, _
  | |- respects _ (gets _) => apply respects_gets, _
  | |- respects _ (check _ _) => apply respects_check, _
  | |- respects _ (otherwise _ _) => apply respects_otherwise; [apply _| |]
  | |- respects _ (modify (on_plane _)) => by apply on_plane_inert
  | |- respects _ (match _ with _ => _ end) => case_match
  end.
Ltac inert := repeat inert_step.

(** ** [allocate_key_id] *)

Lemma held_spec c id : held c id = false ↔ ∀ p e, pending_ c !! p = Some e → pd_local_key_id e ≠ id.
Proof.
  unfold held. rewrite <- not_true_iff_false, existsb_exists. split.
  - intros Hn p e Hp E. apply Hn. exists (p, e). split; [|by apply Z.eqb_eq].
    by apply list_elem_of_In, elem_of_map_to_list.
  - intros Ha ((p & e) & Hin%list_elem_of_In%elem_of_map_to_list & E%Z.eqb_eq). by apply (Ha p e).
Qed.

Lemma with_table_ok w h t : plane_ok w → table_ok h t → sessions_ t = sessions_ (table w) →
  plane_ok (with_table w h t).
Proof. intros [] Ht E. by split; cbn; rewrite ?E. Qed.

Lemma allocate_sessions t : sessions_ (SessionTable.allocate_key_id t).1 = sessions_ t.
Proof.
  unfold SessionTable.allocate_key_id. case_match; [done|]. by destruct (allocate_loop _ _ _).
Qed.

Lemma allocate_by_peer t : by_peer_ (SessionTable.allocate_key_id t).1 = by_peer_ t.
Proof.
  unfold SessionTable.allocate_key_id. case_match; [done|]. by destruct (allocate_loop _ _ _).
Qed.

Lemma allocate_attempts_spec n :
  triple plane_ok (allocate_attempts n) (λ id w, plane_ok w ∧ id_free w id) plane_ok.
Proof.
  induction n as [|n IH]; intros w Hw; [done|]. cbn [allocate_attempts].
  pose proof (allocate_key_id_ok _ _ (po_table _ Hw)) as Ht.
  pose proof (allocate_sessions (table w)) as Es.
  destruct (SessionTable.allocate_key_id (table w)) as [t r] eqn:Ea. cbn [fst snd] in Ht, Es.
  set (w1 := with_table w (heap w) t). assert (plane_ok w1) as Hw1 by (by apply with_table_ok).
  destruct (decide (table_size (table w) < kMaximumSessions)) as [Hlt|Hge].
  - destruct (allocate_ok _ _ (po_table _ Hw) Hlt) as (id & E & Hid & Hfree). rewrite E in Ea. injection Ea as <- <-.
    destruct (provisional_ (plane w1) !! id) eqn:Ep; [by apply IH|].
    destruct (held (plane w1) id) eqn:Eh; [by apply IH|]. cbn [fst snd]. split; [done|].
    split; [done|done|done|by apply held_spec].
  - unfold SessionTable.allocate_key_id in Ea. rewrite (proj2 (Z.leb_le _ _)) in Ea by lia.
    injection Ea as <- <-. done.
Qed.

(** Only the table's next id moves. *)
Definition same_but_table (w w' : World) : Prop :=
  plane w' = plane w ∧ heap w' = heap w ∧ sessions_ (table w') = sessions_ (table w) ∧
  timers_ w' = timers_ w ∧ contexts w' = contexts w ∧ by_peer_ (table w') = by_peer_ (table w).

Lemma allocate_frame n : respects same_but_table (allocate_attempts n).
Proof.
  induction n as [|n IH]; intros w; [done|]. cbn [allocate_attempts].
  pose proof (allocate_sessions (table w)) as Es. pose proof (allocate_by_peer (table w)) as Eb.
  destruct (SessionTable.allocate_key_id (table w)) as [t [id|e|]]; cbn [fst] in Es, Eb; [|done..].
  assert (same_but_table w (with_table w (heap w) t)) as Hs by done.
  assert (∀ w2, same_but_table (with_table w (heap w) t) w2 → same_but_table w w2) as Htr.
  { intros w2 (H1 & H2 & H3 & H4 & H5 & H6). unfold same_but_table. cbn in *. split_and!; congruence. }
  repeat case_match; [by apply Htr, IH..|done].
Qed.

Lemma allocate_key_id_spec w : plane_ok w →
  triple (λ s, s = w) allocate_key_id (λ id w', plane_ok w' ∧ same_but_table w w' ∧ id_free w' id) plane_ok.
Proof.
  intros Hw s ->. pose proof (allocate_attempts_spec (Z.to_nat (kMaximumPending * 2 + 2)) w Hw) as Ha.
  pose proof (allocate_frame (Z.to_nat (kMaximumPending * 2 + 2)) w) as Hp.
  unfold allocate_key_id. destruct (allocate_attempts _ w) as [w' [id|e|]]; cbn in *; [|done..].
  by destruct Ha.
Qed.

(** ** Initiations *)

(** The entry of a pending handshake keeps its peer and its id. *)
Definition same_entry (s s' : World * Pending) : Prop :=
  same_core s.1 s'.1 ∧ pd_peer s'.2 = pd_peer s.2 ∧ pd_local_key_id s'.2 = pd_local_key_id s.2.

#[local] Instance same_entry_preorder : PreOrder same_entry.
Proof.
  split; [by intros s|]. intros s1 s2 s3 (H1 & E1 & F1) (H2 & E2 & F2). split; [by etransitivity|]. by rewrite E2, F2.
Qed.

Lemma outer_same {A} (m : ctl A) : inert m → respects same_entry (outer m).
Proof.
  intros Hm s. specialize (Hm s.1). unfold outer. destruct (m s.1) as [w r]. by split.
Qed.

Ltac same := repeat first
  [ apply respects_bind; [apply _| |intros ?] | apply respects_ret, _ | apply respects_lift, _
  | apply respects_gets, _ | apply respects_check, _ | apply outer_same; by inert
  | by apply respects_modify; intros []; split_and! | case_match ].

Lemma build_initiation_same env now : respects same_entry (build_initiation env now).
Proof. unfold build_initiation, state. same.
Qed.

(** A new or changed entry under an id of its own. *)
Lemma put_pending_ok w p e : plane_ok w → p ≠ kNoPeer → pd_peer e = p →
  id_free w (pd_local_key_id e) →
  size_of (<[p := e]> (pending_ (plane w))) ≤ kMaximumPending →
  plane_ok (on_plane (λ c, with_pending c (<[p := e]> (pending_ c))) w).
Proof.
  intros [] Hp He [] Hs. split; cbn; try done.
  - intros q f [[<- <-]|[_ Hq]]%lookup_insert_Some; by auto 10.
  - intros q r f g [[<- <-]|[_ Hq]]%lookup_insert_Some [[<- <-]|[_ Hr]]%lookup_insert_Some E;
      [done|by edestruct if_pending0|by edestruct if_pending0|by eauto].
Qed.

Lemma replace_pending_ok w p e e' : plane_ok w → pending_ (plane w) !! p = Some e →
  pd_peer e' = pd_peer e → pd_local_key_id e' = pd_local_key_id e →
  plane_ok (on_plane (λ c, with_pending c (<[p := e']> (pending_ c))) w).
Proof.
  intros [] Hp Ep Ei. split; cbn; try done.
  - intros q f [[<- <-]|[_ Hq]]%lookup_insert_Some; [rewrite Ep, Ei|]; by auto.
  - intros q r f g [[<- <-]|[_ Hq]]%lookup_insert_Some [[<- <-]|[_ Hr]]%lookup_insert_Some E;
      rewrite ?Ei in E; by eauto.
  - unfold size_of in *. by rewrite map_size_insert_Some by eauto.
Qed.

Lemma delete_pending_ok p : keeps (modify (on_plane (λ c, with_pending c (delete p (pending_ c))))).
Proof.
  intros w []. split; cbn; try done.
  - intros q f [_ Hq]%lookup_delete_Some. by auto.
  - intros q r f g [_ Hq]%lookup_delete_Some [_ Hr]%lookup_delete_Some. by eauto.
  - unfold size_of in *. etransitivity; [|exact po_pending_size0].
    apply Nat2Z.inj_le, map_subseteq_size, delete_subseteq.
Qed.

Lemma delete_provisional_ok id : keeps (modify (on_plane (λ c, with_provisional c (delete id (provisional_ c))))).
Proof.
  intros w []. split; cbn; try done.
  - intros q f Hq. destruct (po_pending0 q f Hq) as (Ha & Hb & Hc & Hd & Hn).
    refine (conj Ha (conj Hb (conj Hc (conj Hd _)))).
    apply lookup_delete_None. by right.
  - intros i v [_ Hq]%lookup_delete_Some. by auto.
  - unfold size_of in *. etransitivity; [|exact po_provisional_size0].
    apply Nat2Z.inj_le, map_subseteq_size, delete_subseteq.
Qed.

Lemma reinitiate_keeps env now p e w : plane_ok w →
  (∃ old, pending_ (plane w) !! p = Some old ∧ pd_peer e = pd_peer old ∧ pd_local_key_id e = pd_local_key_id old) →
  plane_ok (reinitiate env now p e w).1.
Proof.
  intros Hw (old & Hp & E1 & E2). unfold reinitiate.
  pose proof (build_initiation_same env now (w, e)) as Hs.
  destruct (build_initiation env now (w, e)) as [[w1 e1] r]. destruct Hs as (Hc & F1 & F2). cbn in *.
  apply (replace_pending_ok _ _ old); [by eapply same_core_ok| |congruence..].
  by rewrite (sc_pending _ _ Hc).
Qed.

(** ** The operations *)

Lemma contains_is_Some {A} (m : gmap Z A) k : contains m k = true ↔ is_Some (m !! k).
Proof. unfold contains. by destruct (m !! k). Qed.

Lemma keeps_bind {A B} (m : ctl A) (f : A → ctl B) : keeps m → (∀ a, keeps (f a)) → keeps (sbind m f).
Proof. intros Hm Hf. by eapply triple_bind. Qed.

Lemma start_handshake_keeps env peer now : keeps (start_handshake env peer now).
Proof.
  apply triple_check; [done|intros _]. apply triple_state. intros w Hw.
  apply triple_check; [by intros ? ->|]. intros Ec%negb_false_iff%contains_is_Some. destruct Ec as [cfg Hcfg].
  pose proof (po_peers _ Hw _ _ Hcfg) as Hp.
  destruct (dial_endpoint (plane w) peer) as [dest|]; [|by apply triple_fail; [by intros ? ->|]].
  destruct (_ && _) eqn:Efull; [by intros w' ->; apply inert_keeps; [apply fail_with_inert|]|].
  eapply triple_bind; [by apply allocate_key_id_spec|]. intros id w1 (Hw1 & [Epl _] & Hfree).
  set (e0 := mkPending _ _ _ _ _ _ _ _).
  eapply (triple_bind _ _ (λ s, s = w1) (λ r w2, plane_ok w2 ∧ same_core w1 w2 ∧ pd_peer r.2 = peer ∧
    pd_local_key_id r.2 = id)); [| |done].
  { intros s ->. pose proof (build_initiation_same env now (w1, e0)) as Hs.
    destruct (build_initiation env now (w1, e0)) as [[w2 e] r]. destruct Hs as (Hc & F1 & F2).
    pose proof (same_core_ok _ _ Hc Hw1) as Hw2. by destruct r. }
  intros [out e] w2 (Hw2 & Hc & F1 & F2). cbn [fst snd] in *.
  eapply same_core_ok; [apply (count_inert handshakes_started)|].
  apply (put_pending_ok w2 peer e); [done..| |].
  { rewrite F2. by eapply same_core_free. }
  rewrite (sc_pending _ _ Hc), Epl. pose proof (po_pending_size _ Hw) as Hsz.
  unfold size_of in *. rewrite map_size_insert. destruct (pending_ (plane w) !! peer) eqn:Eq; cbn; [done|].
  unfold contains in Efull. rewrite Eq, andb_true_r in Efull. apply Z.leb_gt in Efull. lia.
Qed.

(** ** Installing sessions *)

(** A session goes in under a free id, or nothing changes. *)
Lemma put_session_spec env p id s w : table_ok (heap w) (table w) → p ≠ kNoPeer → 1 ≤ id < 2 ^ 16 →
  sessions_ (table w) !! id = None → peer_ s = p → local_key_id_ s = id →
  (∃ h t, put_session env p id s w = (with_table w h t, Ok (length (heap w))) ∧ table_ok h t ∧
    sessions_ t = <[id := length (heap w)]> (sessions_ (table w)) ∧ h !! length (heap w) = Some s) ∨
  put_session env p id s w = (w, Fail ControlError.session_install_failed).
Proof.
  intros Ht Hp Hid Hfree Hs1 Hs2. unfold put_session.
  assert (id ≠ kPreSessionKeyId) as Hid0 by (unfold kPreSessionKeyId; lia).
  destruct (decide (table_size (table w) < kMaximumSessions)) as [Hlt|Hge].
  - left. pose proof (install_ok (steady_now env) _ _ p id s Ht Hp Hid0 Hlt Hs1 Hs2) as Hok.
    rewrite install_spec in * by done. do 2 eexists. split; [done|]. split; [|split; [done|]].
    + apply Hok. intros ptr s' Hptr. congruence.
    + by apply list_lookup_middle.
  - right. unfold install. rewrite (proj2 (Z.eqb_neq _ _) Hp), (proj2 (Z.eqb_neq _ _) Hid0).
    rewrite (proj2 (Z.leb_le _ _)) by lia. by destruct w.
Qed.

Lemma list_alter_Some {A} (f : A → A) (l : list A) i x : l !! i = Some x → alter f i l = <[i := f x]> l.
Proof.
  revert i. induction l as [|y l IH]; intros [|i] H; try done; cbn in *.
  - by injection H as ->.
  - f_equal. by apply IH.
Qed.

Lemma note_endpoint_table h t ptr s e : table_ok h t → h !! ptr = Some s →
  table_ok (alter (λ s, note_authenticated_endpoint s e) ptr h) t.
Proof.
  intros Ht Hs. pose proof (session_step_ok h t ptr s (do_endpoint e) Ht Hs) as H. cbn in H.
  by rewrite (list_alter_Some _ _ _ s Hs).
Qed.

(** The world without one pending handshake, and without one provisional session. *)
Definition without_pending (p : Z) : World → World :=
  on_plane (λ c, with_pending c (delete p (pending_ c))).
Definition without_provisional (id : Z) : World → World :=
  on_plane (λ c, with_provisional c (delete id (provisional_ c))).

Lemma session_added w h t id ptr : plane_ok w → id_free w id → table_ok h t →
  sessions_ t = <[id := ptr]> (sessions_ (table w)) → plane_ok (with_table w h t).
Proof.
  intros [] [] Ht Es. split; cbn; rewrite ?Es; try done.
  - intros p e Hp. destruct (po_pending0 p e Hp) as (Ha & Hb & Hc & Hd & He).
    refine (conj Ha (conj Hb (conj Hc (conj _ He)))).
    rewrite lookup_insert_ne; [done|]. intros E. by apply (if_pending0 p e Hp).
  - intros i v Hv. destruct (po_provisional0 i v Hv) as (Ha & Hb & Hc & Hd).
    refine (conj Ha (conj Hb (conj Hc _))).
    rewrite lookup_insert_ne; [done|]. congruence.
Qed.

(** Steps that cannot fail and leave the core alone. *)
Definition settled {A} (m : ctl A) : Prop := ∀ w, ∃ w' a, m w = (w', Ok a) ∧ same_core w w'.

Lemma settled_bind {A B} (m : ctl A) (f : A → ctl B) : settled m → (∀ a, settled (f a)) → settled (sbind m f).
Proof.
  intros Hm Hf w. destruct (Hm w) as (w1 & a & E & H1). destruct (Hf a w1) as (w2 & b & E2 & H2).
  exists w2, b. rewrite (sbind_ok _ _ _ _ _ E). split; [done|by etransitivity].
Qed.

Lemma settled_cancel k s : settled (cancel_timer k s).
Proof. intros w. do 2 eexists. split; [done|]. apply (cancel_inert k s w). Qed.
Lemma settled_schedule k s d : settled (schedule_timer k s d).
Proof.
  intros w. pose proof (schedule_inert k s d w) as H. unfold schedule_timer in *.
  destruct (schedule _ _ _ _). by do 2 eexists.
Qed.
Lemma settled_on_plane (f : ControlPlane → ControlPlane) :
  (∀ c, peers_ (f c) = peers_ c ∧ pending_ (f c) = pending_ c ∧ provisional_ (f c) = provisional_ c) →
  settled (modify (on_plane f)).
Proof. intros Hf w. do 2 eexists. split; [done|]. by apply (on_plane_inert f Hf w). Qed.
Lemma settled_count k : settled (count k).
Proof. by apply settled_on_plane. Qed.
Lemma settled_learn p e : settled (learn_endpoint p e).
Proof. by apply settled_on_plane. Qed.
Lemma settled_state : settled state.
Proof. intros w. by do 2 eexists. Qed.
Lemma settled_ret {A} (a : A) : settled (sret a).
Proof. intros w. by do 2 eexists. Qed.

Ltac settle := repeat first
  [ apply settled_bind; [|intros ?] | apply settled_cancel | apply settled_schedule | apply settled_count
  | apply settled_learn | apply settled_state | apply settled_ret | case_match | by apply settled_on_plane ].

Lemma arm_timers_settled env p : settled (arm_timers env p).
Proof. unfold arm_timers. settle. Qed.

Lemma settled_triple {A} (m : ctl A) (P : World → Prop) I :
  settled m → (∀ w w', same_core w w' → P w → P w') → triple P m (λ _, P) I.
Proof. intros Hm HP w Hw. destruct (Hm w) as (w' & a & -> & Hs). cbn. by eapply HP. Qed.

Lemma same_core_without_pending p w w' : same_core w w' → same_core (without_pending p w) (without_pending p w').
Proof. intros []. split; cbn; congruence || done. Qed.
Lemma same_core_without_provisional p w w' :
  same_core w w' → same_core (without_provisional p w) (without_provisional p w').
Proof. intros []. split; cbn; congruence || done. Qed.

Lemma own_pending w p e : plane_ok w → pending_ (plane w) !! p = Some e →
  plane_ok (without_pending p w) ∧ id_free (without_pending p w) (pd_local_key_id e).
Proof.
  intros Hw Hp. split; [by apply (delete_pending_ok p w)|].
  destruct (po_pending _ Hw p e Hp) as (_ & _ & Hr & Hs & Hv). split; [done..|].
  cbn. intros q f [Hne Hq]%lookup_delete_Some E. apply Hne. by eapply (po_distinct _ Hw).
Qed.

Lemma own_provisional w id v : plane_ok w → provisional_ (plane w) !! id = Some v →
  plane_ok (without_provisional id w) ∧ id_free (without_provisional id w) id.
Proof.
  intros Hw Hp. split; [by apply (delete_provisional_ok id w)|].
  destruct (po_provisional _ Hw id v Hp) as (_ & Hr & _ & Hs). split; [done..| |].
  - apply lookup_delete_eq.
  - intros q f Hq E. destruct (po_pending _ Hw q f Hq) as (_ & _ & _ & _ & Hn). congruence.
Qed.

Lemma install_session_spec env p e remote result source w : plane_ok w → pending_ (plane w) !! p = Some e →
  triple (λ s, s = w) (install_session env p (pd_local_key_id e) remote result source)
    (λ _ w', plane_ok (without_pending p w')) plane_ok.
Proof.
  intros Hw Hp. destruct (own_pending w p e Hw Hp) as [Hw0 Hfree].
  destruct (po_pending _ Hw p e Hp) as (Hp0 & _ & Hr & Hs & _).
  eapply (triple_bind _ _ _ (λ ptr w', plane_ok (without_pending p w') ∧ ∃ s, heap w' !! ptr = Some s)).
  { intros s ->. set (session := new_session _ _ _ _ _ _).
    destruct (put_session_spec env p (pd_local_key_id e) session w (po_table _ Hw) Hp0 Hr Hs)
      as [(h & t & -> & Ht & Es & Hh)|E]; [done..| |by rewrite E].
    cbn [fst snd]. split; [|by eexists]. exact (session_added _ h t _ _ Hw0 Hfree Ht Es). }
  intros ptr. eapply (triple_bind _ _ _ (λ _ w', plane_ok (without_pending p w'))).
  { intros w1 [Hw1 [s Hs1]]. cbn [fst snd modify note_endpoint].
    apply (with_table_ok (without_pending p w1)); [done| |done].
    apply (note_endpoint_table _ _ _ s); [apply (po_table _ Hw1)|done]. }
  intros _. apply settled_triple; [apply settled_bind; [settle|intros ?; apply arm_timers_settled]|]. intros w1 w2 Hc. by apply same_core_ok, same_core_without_pending.
Qed.

(** ** Datagrams *)

Lemma keeps_at {A} (m : ctl A) w : keeps m → plane_ok w → triple (λ s, s = w) m (λ _, plane_ok) plane_ok.
Proof. intros Hm Hw s ->. by apply Hm. Qed.

Lemma inert_fails {A} k e : keeps (fail_with (A:=A) k e).
Proof. apply inert_keeps, fail_with_inert. Qed.

Lemma read_response_spec env i p e h frame w : plane_ok w → pending_ (plane w) !! p = Some e →
  triple (λ s, s = w) (read_response env i p e h frame)
    (λ _ w', plane_ok w' ∧ ∃ e', pending_ (plane w') !! p = Some e' ∧ pd_local_key_id e' = pd_local_key_id e)
    plane_ok.
Proof.
  intros Hw Hp s ->. unfold read_response.
  destruct (read_message_2 _ _ _ (contexts w, h)) as [[c h'] r].
  assert (plane_ok (put_pending p (with_handshake e h') (with_contexts w c)).1) as Hw'.
  { apply (replace_pending_ok (with_contexts w c) p e); [|done..]. by apply (same_core_ok w). }
  assert (pending_ (plane (put_pending p (with_handshake e h') (with_contexts w c)).1) !! p =
    Some (with_handshake e h')) as Hl by apply lookup_insert_eq.
  destruct r as [[payload n]|err|]; cbn [fst snd]; [|split; [done|]|done]; eauto 6.
Qed.

Lemma finish_handshake_spec p :
  triple (λ w, plane_ok (without_pending p w)) (finish_handshake p) (λ _, plane_ok) plane_ok.
Proof.
  eapply (triple_bind _ _ _ (λ _, plane_ok)); [by intros w Hw|]. intros []. apply inert_keeps.
  apply respects_bind; [apply _|apply count_inert|intros _].
  apply respects_bind; [apply _|by apply on_plane_inert|intros _]. apply respects_ret, _.
Qed.

Lemma response_loop_keeps env source frame order : ∀ i, keeps (response_loop env i source frame order).
Proof.
  induction order as [|p order IH]; intros i; [apply inert_fails|]. cbn [response_loop].
  apply triple_state. intros w Hw. destruct (pending_ (plane w) !! p) as [e|] eqn:Hp; [|by apply keeps_at].
  destruct (pd_handshake e) as [h|], (cookies e) as [holder|]; try by apply keeps_at.
  destruct (negb _); [by apply keeps_at|].
  eapply triple_bind; [by apply read_response_spec|]. intros read w1 (Hw1 & e' & Hp' & Ee).
  destruct read as [[h' payload]|]; [|by apply IH].
  destruct (result h') as [completed|err|]; [|by apply IH|done].
  destruct (_ =? _); [by apply IH|]. rewrite <- Ee.
  eapply (triple_bind _ _ (λ s, s = w1)); [by apply install_session_spec| |done].
  intros []. apply finish_handshake_spec.
Qed.

Lemma handle_response_keeps env source frame : keeps (handle_response env source frame).
Proof. unfold handle_response. case_match; [apply inert_fails|apply response_loop_keeps]. Qed.

Lemma cookie_loop_keeps env reply now order : keeps (cookie_loop xc env reply now order).
Proof.
  induction order as [|p order IH]; [by apply triple_fail|]. cbn [cookie_loop].
  apply triple_state. intros w Hw. destruct (pending_ (plane w) !! p) as [e|] eqn:Hp; [|by apply keeps_at].
  destruct (cookies e) as [holder|]; [|by apply keeps_at].
  destruct (accept_reply _ _ _ _) as [holder' [[]|err|]]; [|by apply keeps_at..].
  eapply (triple_bind _ _ _ (λ _ w', plane_ok w' ∧ pending_ (plane w') !! p = Some e)).
  { intros s ->. split; [by apply (same_core_ok w); [apply (count_inert cookies_accepted w)|]|done]. }
  intros []. eapply (triple_bind _ _ _ (λ _, plane_ok)); [|by intros ? w' Hw'].
  intros w1 [Hw1 Hp1]. pose proof (reinitiate_keeps env now p (with_cookies e holder') w1 Hw1) as Hr.
  destruct (reinitiate _ _ _ _ _) as [w2 r]. destruct r; apply Hr; eauto.
Qed.

Lemma handle_cookie_reply_keeps env frame now : keeps (handle_cookie_reply xc env frame now).
Proof.
  apply (triple_bind _ _ _ (λ _, plane_ok)); [|intros ?; apply cookie_loop_keeps].
  apply inert_keeps, respects_lift, _.
Qed.

Lemma admit_initiation_inert env source frame now : inert (admit_initiation xc env source frame now).
Proof. unfold admit_initiation, demand_cookie, state, with_issuer_. inert. Qed.

Lemma read_initiation_inert env st psk frame : inert (read_initiation env st psk frame).
Proof. unfold read_initiation, state. inert. Qed.

Lemma match_peer_spec c claimed order p cfg : match_peer c claimed order = Some (p, cfg) →
  peers_ c !! p = Some cfg ∧ constant_time_equal claimed (static_public cfg) = true.
Proof.
  induction order as [|q order IH]; [done|]. cbn. destruct (peers_ c !! q) eqn:E; [|done].
  case_match; [|done]. by intros [= <- <-].
Qed.

Lemma identify_spec env frame :
  triple plane_ok (identify env frame) (λ r w, plane_ok w ∧ r.1 ≠ kNoPeer) plane_ok.
Proof.
  eapply (triple_bind _ _ _ (λ _, plane_ok)); [apply inert_keeps, read_initiation_inert|]. intros read.
  apply triple_state. intros w Hw. destruct (match_peer _ _ _) as [[p cfg]|] eqn:E.
  - intros s ->. split; [done|]. apply match_peer_spec in E as [E _]. by apply (po_peers _ Hw _ _ E).
  - intros s ->. by apply inert_fails.
Qed.

(** A new provisional session under a free id. *)
Lemma put_provisional_ok w id v : plane_ok w → id_free w id → pv_local_key_id v = id → pv_peer v ≠ kNoPeer →
  size_of (provisional_ (plane w)) < kMaximumPending →
  plane_ok (on_plane (λ c, with_provisional c (<[id := v]> (provisional_ c))) w).
Proof.
  intros [] [] Hv Hp Hs. split; cbn; try done.
  - intros q f Hq. destruct (po_pending0 q f Hq) as (Ha & Hb & Hc & Hd & Hn).
    refine (conj Ha (conj Hb (conj Hc (conj Hd _)))). rewrite lookup_insert_ne; [done|]. intros E. by apply (if_pending0 q f Hq).
  - intros i x [[<- <-]|[_ Hx]]%lookup_insert_Some; by auto.
  - unfold size_of in *. rewrite map_size_insert_None by done. lia.
Qed.

Lemma inert_free {A} (m : ctl A) id : inert m →
  triple (λ w, plane_ok w ∧ id_free w id) m (λ _ w, plane_ok w ∧ id_free w id) plane_ok.
Proof.
  intros Hm w [Hw Hf]. specialize (Hm w). destruct (m w) as [w' [a|e|]]; cbn in *; [|by eapply same_core_ok..].
  split; [by eapply same_core_ok|by eapply same_core_free].
Qed.

(** After the id is allocated. *)
Lemma install_provisional_keeps source now p id remote completed w : p ≠ kNoPeer → plane_ok w → id_free w id →
  size_of (provisional_ (plane w)) < kMaximumPending →
  triple (E:=ControlError) (λ s, s = w) (modify (on_plane (λ c, with_provisional c
    (<[id := mkProvisional p id remote completed source now]> (provisional_ c))))) (λ _, plane_ok) plane_ok.
Proof. intros Hp Hw Hf Hs s ->. by apply put_provisional_ok. Qed.

Lemma answer_initiation_keeps env source frame now p cfg : p ≠ kNoPeer →
  keeps (answer_initiation env source frame now p cfg).
Proof.
  intros Hp. eapply (triple_bind _ _ _ (λ _, plane_ok)); [apply inert_keeps, read_initiation_inert|]. intros read.
  cbv beta zeta. destruct (_ =? _); [apply inert_fails|]. apply triple_state. intros w Hw.
  destruct (replayed_initiation _ _ _); [by apply keeps_at; [apply inert_fails|]|].
  eapply (triple_bind _ _ _ (λ _, plane_ok)); [by apply keeps_at; [apply inert_keeps; inert|]|]. intros [] w1 Hw1.
  eapply (triple_bind _ _ (λ s, s = w1)); [by apply allocate_key_id_spec| |done]. intros id.
  eapply (triple_bind _ _ _ (λ _ w, plane_ok w ∧ id_free w id)).
  { apply (triple_weaken _ (λ w, plane_ok w ∧ id_free w id) _ (λ _ w, plane_ok w ∧ id_free w id));
      [by intros ? (? & _ & ?)|done|apply inert_free; inert]. }
  intros sent. destruct (result sent.1) as [completed|err|]; [|by intros w2 [Hw2 _]; apply inert_fails|by intros w2 []].
  destruct (negb _); [by intros w2 [Hw2 _]; apply inert_fails|]. apply triple_state. intros w2 [Hw2 Hf2].
  destruct (Z.leb_spec kMaximumPending (size_of (provisional_ (plane w2)))) as [|Hlt];
    [by apply keeps_at; [apply inert_fails|]|].
  eapply triple_bind; [by apply install_provisional_keeps|]. intros []. apply inert_keeps. inert.
Qed.

Lemma handle_initiation_keeps env source frame now : keeps (handle_initiation xc env source frame now).
Proof.
  eapply (triple_bind _ _ _ (λ _, plane_ok)); [apply inert_keeps, admit_initiation_inert|].
  intros [cookie|]; [apply inert_keeps; inert|].
  eapply triple_bind; [apply identify_spec|]. intros [p cfg] w [Hw Hp]. by apply answer_initiation_keeps.
Qed.

Lemma limit_inert source now : inert (limit source now).
Proof. unfold limit, state. inert. Qed.

Lemma handle_datagram_keeps env source bytes now : keeps (handle_datagram xc env source bytes now).
Proof.
  apply triple_check; [done|intros _].
  eapply (triple_bind _ _ _ (λ _, plane_ok)); [apply inert_keeps, limit_inert|intros []].
  eapply (triple_bind _ _ _ (λ _, plane_ok)); [apply inert_keeps; inert|intros []].
  eapply (triple_bind _ _ _ (λ _, plane_ok)); [apply inert_keeps; inert|intros frame].
  destruct (fv_message frame); try (by apply triple_fail).
  - apply handle_initiation_keeps.
  - apply handle_response_keeps.
  - apply handle_cookie_reply_keeps.
Qed.

(** ** The other operations *)

Lemma add_peer_keeps peer : keeps (add_peer peer).
Proof.
  apply triple_check; [done|]. intros Hid%Z.eqb_neq w []. split; cbn; try done.
  intros p c [[<- _]|[_ Hp]]%lookup_insert_Some; [done|by eauto].
Qed.

Lemma delete_peer_keeps p : keeps (modify (on_plane (λ c, with_peers c (delete p (peers_ c))))).
Proof. intros w []. split; cbn; try done. intros q c [_ Hq]%lookup_delete_Some. by eauto. Qed.

Lemma forget_provisional_keeps order p : keeps (forget_provisional order p).
Proof.
  induction order as [|id order IH]; [by intros w|]. cbn [forget_provisional]. apply triple_state. intros w Hw.
  destruct (provisional_ (plane w) !! id) as [v|]; [|by apply keeps_at]. destruct (negb _); [by apply keeps_at|].
  apply keeps_at; [|done]. apply keeps_bind; [apply inert_keeps; inert|intros _].
  apply keeps_bind; [apply delete_provisional_ok|done].
Qed.

Lemma forget_peer_keeps env p : keeps (forget_peer env p).
Proof.
  apply keeps_bind; [apply delete_peer_keeps|intros _]. apply keeps_bind; [apply delete_pending_ok|intros _].
  do 6 (apply keeps_bind; [apply inert_keeps; inert|intros _]).
  apply keeps_bind; [apply forget_provisional_keeps|intros _]. apply inert_keeps. inert.
Qed.

Lemma evaluate_load_keeps depth capacity now : keeps (evaluate_load depth capacity now).
Proof. apply inert_keeps. unfold evaluate_load. inert. Qed.

Lemma on_timer_keeps event env now : keeps (on_timer event env now).
Proof.
  apply triple_state. intros w Hw. destruct (kind event).
  - destruct (contains _ _); [|by intros s ->]. apply keeps_at; [|done].
    apply keeps_bind; [apply delete_pending_ok|intros _]. apply inert_keeps. inert.
  - destruct (pending_ (plane w) !! subject event) as [e|] eqn:Hp; [|by intros s ->].
    eapply (triple_bind _ _ _ (λ _ w', plane_ok w' ∧ pending_ (plane w') !! subject event = Some e)).
    { intros s ->. split; [by apply (same_core_ok w); [apply (count_inert retries w)|]|done]. }
    intros []. eapply (triple_bind _ _ _ (λ _, plane_ok)); [|by intros ? w' Hw'].
    intros w1 [Hw1 Hp1].
    pose proof (reinitiate_keeps env now (subject event) (with_attempt e (u32 (attempt e + 1))) w1 Hw1) as Hr.
    destruct (reinitiate _ _ _ _ _) as [w2 r]. destruct r; apply Hr; eauto.
  - pose proof (find_by_key_id_ok (heap w) (table w)) as Hok.
    destruct (find_by_peer (table w) (subject event)) as [t found] eqn:Ef.
    eapply (triple_bind _ _ _ (λ _, plane_ok)).
    { intros s ->. unfold find_by_peer, find_by_key_id in *. cbn.
      apply with_table_ok; [done|..]; repeat case_match; simplify_eq; try done; try apply (po_table _ Hw).
      eapply table_ok_frame; [apply (po_table _ Hw)|done..|]. apply (tok_next _ _ (po_table _ Hw)). }
    intros []. destruct found; apply inert_keeps; unfold push_keepalive; inert.
  - apply keeps_at; [|done]. apply keeps_bind; [apply start_handshake_keeps|]. intros out. apply inert_keeps. inert.
  - by intros s ->.
  - by intros s ->.
  - by intros s ->.
  - destruct (_ && _); [|by intros s ->]. apply keeps_at; [|done].
    apply keeps_bind; [apply delete_provisional_ok|intros _]. apply inert_keeps. inert.
Qed.

Lemma open_identity st now c s view packet out :
  let '(_, s', _, _) := Session.open st now c s view packet out in
  peer_ s' = peer_ s ∧ local_key_id_ s' = local_key_id_ s.
Proof.
  unfold Session.open. pose proof (step_identity s (do_check (counter (header view)))) as H1. cbn [Session.step] in H1.
  destruct (check_window s (counter (header view))) as [s1 [[]|e|]]; cbn [fst] in H1; [|done..].
  destruct (decrypt _ _ _ _ _ _) as [[c' out'] [n|e|]]; [|by case_decide|done].
  pose proof (step_identity s1 (do_commit now (counter (header view)))) as H2. cbn [Session.step] in H2.
  destruct (commit _ _ _) as [s2 r]. cbn [fst] in H2. destruct H1, H2. by split; etransitivity.
Qed.

Lemma promote_keeps env id v candidate source w : plane_ok w → provisional_ (plane w) !! id = Some v →
  peer_ candidate = pv_peer v → local_key_id_ candidate = pv_local_key_id v →
  triple (λ s, s = w) (promote env id v candidate source) (λ _, plane_ok) plane_ok.
Proof.
  intros Hw Hv Hp Hl. destruct (own_provisional w id v Hw Hv) as [Hw0 Hfree].
  destruct (po_provisional _ Hw id v Hv) as (Hid & Hr & Hp0 & Hs). rewrite Hid in Hl.
  eapply (triple_bind _ _ _ (λ ptr w', plane_ok w' ∧ ∃ s, heap w' !! ptr = Some s)).
  { intros s ->. rewrite Hid.
    destruct (put_session_spec env (pv_peer v) id candidate w (po_table _ Hw) Hp0 Hr Hs Hp Hl)
      as [(h & t & -> & Ht & Es & Hh)|E]; [|by rewrite E].
    split; [|by eexists]. exact (session_added _ h t _ _ Hw0 Hfree Ht Es). }
  intros ptr. eapply (triple_bind _ _ _ (λ _, plane_ok)).
  { intros w1 [Hw1 [s Hs1]]. apply (with_table_ok w1); [done| |done].
    apply (note_endpoint_table _ _ _ s); [apply (po_table _ Hw1)|done]. }
  intros []. apply inert_keeps. inert.
Qed.

Lemma try_promote_keeps env view bytes out source w : plane_ok w →
  plane_ok (try_promote_provisional env view bytes out source w).1.1.
Proof.
  intros Hw. unfold try_promote_provisional. destruct (provisional_ (plane w) !! _) as [v|] eqn:Hv; [|done].
  set (s0 := new_session _ _ _ _ _ _).
  pose proof (open_identity (status env 0) (steady_now env) (contexts w) s0 view bytes out) as Hi.
  destruct (Session.open _ _ _ _ _ _ _) as [[[c s] out'] r]. destruct Hi as [Hp Hl].
  assert (plane_ok (with_contexts w c)) as Hc by (by apply (same_core_ok w)).
  destruct r as [n|e|]; [|done..].
  pose proof (promote_keeps env (key_id (header view)) v s source (with_contexts w c) Hc Hv Hp Hl _ eq_refl) as H.
  destruct (promote _ _ _ _ _ _) as [w' r]. by destruct r.
Qed.

Lemma keeps_after {A} (m : ctl A) w : keeps m → plane_ok w → plane_ok (m w).1.
Proof. intros Hm Hw. specialize (Hm w Hw). by destruct (m w) as [w' [a|e|]]. Qed.

Lemma on_timers_keeps events now : ∀ w, plane_ok w → plane_ok (on_timers events now w).1.
Proof.
  induction events as [|[event env] events IH]; intros w Hw; [done|]. cbn [on_timers].
  pose proof (keeps_after _ _ (on_timer_keeps event env now) Hw) as Hw1.
  destruct (on_timer event env now w) as [w1 r]. specialize (IH w1 Hw1).
  by destruct (on_timers events now w1).
Qed.

(** ** Histories

    The members of the plane in any order, and what the workers and the
    runtime do to the session table and the wheel in between.  The label is the
    peer a step forgets. *)

Inductive control_step : option Z → World → World → Prop :=
| step_add_peer peer w : control_step None w (add_peer peer w).1
| step_forget_peer env peer w : control_step (Some peer) w (forget_peer env peer w).1
| step_start env peer now w : control_step None w (start_handshake env peer now w).1
| step_datagram env source bytes now w : control_step None w (handle_datagram xc env source bytes now w).1
| step_timers events now w : control_step None w (on_timers events now w).1
| step_promote env view bytes out source w :
    control_step None w (try_promote_provisional env view bytes out source w).1.1
| step_evaluate depth capacity now w : control_step None w (evaluate_load depth capacity now w).1
| step_keepalives w : control_step None w (take_expired_keepalives w).1
| step_set_load value w : control_step None w (on_plane (λ c, with_issuer c (set_under_load (issuer_ c) value)) w)
| step_set_rekey interval w : control_step None w (on_plane (λ c, set_rekey_after c interval) w)
| step_wheel now w : control_step None w (with_timers w (expire (timers_ w) now).1)
| step_lookup id w : control_step None w (with_table w (heap w) (find_by_key_id (table w) id).1)
| step_retire now w : control_step None w (with_table w (heap w) (expire_retired now (table w)))
| step_drop id w : control_step None w (with_table w (heap w) (remove (heap w) (table w) id))
| step_traffic ptr s op w : heap w !! ptr = Some s →
    control_step None w (with_table w (<[ptr := (Session.step s op).1]> (heap w)) (table w)).

Definition new_world (local_static : KeyPair) (c : AeadContexts) : World :=
  mkWorld (new_plane local_static) [] new_session_table [] c.

Lemma new_world_ok k c : plane_ok (new_world k c).
Proof. split; cbn; try done. constructor. Qed.

(** Sessions only leave the table. *)
Lemma fewer_sessions_ok w t : plane_ok w → table_ok (heap w) t →
  (∀ id, sessions_ (table w) !! id = None → sessions_ t !! id = None) → plane_ok (with_table w (heap w) t).
Proof.
  intros [] Ht Hs. split; cbn; try done.
  - intros p e Hp. destruct (po_pending0 p e Hp) as (Ha & Hb & Hc & Hd & He).
    exact (conj Ha (conj Hb (conj Hc (conj (Hs _ Hd) He)))).
  - intros i v Hv. destruct (po_provisional0 i v Hv) as (Ha & Hb & Hc & Hd).
    exact (conj Ha (conj Hb (conj Hc (Hs _ Hd)))).
Qed.

Lemma control_step_ok l w w' : control_step l w w' → plane_ok w → plane_ok w'.
Proof.
  destruct 1; intros Hw.
  - apply keeps_after; [apply add_peer_keeps|done].
  - apply keeps_after; [apply forget_peer_keeps|done].
  - apply keeps_after; [apply start_handshake_keeps|done].
  - apply keeps_after; [apply handle_datagram_keeps|done].
  - by apply on_timers_keeps.
  - by apply try_promote_keeps.
  - apply keeps_after; [apply evaluate_load_keeps|done].
  - by apply (same_core_ok w).
  - by apply (same_core_ok w).
  - by apply (same_core_ok w).
  - apply (same_core_ok w); [|done]. split; try done. apply wheel_expire.
  - apply fewer_sessions_ok; [done|apply find_by_key_id_ok, Hw|]. intros i. unfold find_by_key_id. by repeat case_match.
  - apply fewer_sessions_ok; [done|apply expire_retired_ok, Hw|]. intros i Hi. unfold expire_retired.
    destruct (expire_retired_loop_spec now (retired_ (table w)) (sessions_ (table w))) as [_ E].
    destruct (expire_retired_loop _ _ _) as [m rs]. cbn. rewrite E. by case_decide.
  - apply fewer_sessions_ok; [done|apply remove_ok, Hw|]. intros i Hi. unfold remove.
    destruct (sessions_ (table w) !! id); [|done]. cbn. apply lookup_delete_None. by right.
  - apply with_table_ok; [done| |done]. apply session_step_ok; [apply Hw|done].
Qed.

Definition control_reachable (w : World) : Prop := ∃ k c, rtc (λ w w', ∃ l, control_step l w w') (new_world k c) w.

Lemma control_reachable_ok w : control_reachable w → plane_ok w.
Proof.
  intros (k & c & Hr). pose proof (new_world_ok k c) as H0. induction Hr as [|w1 w2 w3 [l Hs] _ IH]; [done|].
  by eapply IH, control_step_ok.
Qed.

(** ** A key id is always found

    Every attempt that fails meets another id held by a handshake, and there
    are fewer of those than attempts. *)

Lemma nth_id_add base j i : nth_id (nth_id base j) i = nth_id base (j + i).
Proof.
  unfold nth_id. replace ((base - 1 + Z.of_nat j) `mod` 65535 + 1 - 1 + Z.of_nat i)
    with ((base - 1 + Z.of_nat j) `mod` 65535 + Z.of_nat i) by lia.
  rewrite Zplus_mod_idemp_l. do 2 f_equal. lia.
Qed.

Lemma next_id_nth base k : next_id (nth_id base k) = nth_id base (S k).
Proof.
  replace (S k) with (k + 1)%nat by lia. rewrite <- nth_id_add. pose proof (nth_id_range base k).
  rewrite nth_id_S by done. by rewrite nth_id_0 by (by apply next_id_range).
Qed.

Definition busy (c : ControlPlane) : gset Z :=
  dom (provisional_ c) ∪ list_to_set (map (λ e, pd_local_key_id e.2) (map_to_list (pending_ c))).

Lemma busy_size w : plane_ok w → Z.of_nat (size (busy (plane w))) ≤ 2 * kMaximumPending.
Proof.
  intros Hw. pose proof (po_pending_size _ Hw). pose proof (po_provisional_size _ Hw). unfold busy, size_of in *.
  pose proof (size_union_alt (dom (provisional_ (plane w)))
    (list_to_set (map (λ e, pd_local_key_id e.2) (map_to_list (pending_ (plane w)))) : gset Z)) as E.
  set (l := map (λ e : Z * Pending, pd_local_key_id e.2) (map_to_list (pending_ (plane w)))) in *.
  assert (size (list_to_set l ∖ dom (provisional_ (plane w)) : gset Z) ≤ length l)%nat as Hl.
  { transitivity (size (list_to_set l : gset Z)); [apply subseteq_size; set_solver|].
    clear. induction l as [|x l IH]; [done|]. cbn. rewrite size_union_alt, size_singleton.
    pose proof (subseteq_size (list_to_set l ∖ {[x]} : gset Z) (list_to_set l) ltac:(set_solver)). lia. }
  assert (length l = size (pending_ (plane w))) as Hlen by (unfold l; by rewrite length_map, length_map_to_list).
  rewrite E, size_dom. lia.
Qed.

Lemma free_or_busy c id :
  match provisional_ c !! id with Some _ => true | None => held c id end = true → id ∈ busy c.
Proof.
  unfold busy. destruct (provisional_ c !! id) eqn:E; intros H; apply elem_of_union.
  - left. by apply elem_of_dom.
  - right. apply elem_of_list_to_set, list_elem_of_fmap. unfold held in H. apply existsb_exists in H as (e & He & Ei%Z.eqb_eq).
    exists e. split; [done|]. by apply list_elem_of_In.
Qed.

(** After [length vs] failed attempts, the ids tried: [vs] and those of sessions. *)
Lemma allocate_attempts_find n : ∀ w base j (vs : list Z), plane_ok w → table_size (table w) < kMaximumSessions →
  next_key_id_ (table w) = nth_id base j → Z.of_nat j ≤ 65535 →
  NoDup vs → (∀ v, v ∈ vs → v ∈ busy (plane w) ∧ ∃ k, (k < j)%nat ∧ v = nth_id base k) →
  (∀ k, (k < j)%nat → is_Some (sessions_ (table w) !! nth_id base k) ∨ nth_id base k ∈ vs) →
  2 * kMaximumPending < Z.of_nat (length vs + n) < 2 * kMaximumPending + 1000 →
  ∃ w' id, allocate_attempts n w = (w', Ok id).
Proof.
  induction n as [|n IH]; intros w base j vs Hw Hroom Hnext Hj Hnd Hvs Hcov Hn.
  { exfalso. pose proof (busy_size w Hw) as Hb.
    assert (list_to_set vs ⊆ busy (plane w)) as Hsub%subseteq_size by (intros v Hv%elem_of_list_to_set; by apply Hvs).
    rewrite size_list_to_set in Hsub by done. lia. }
  cbn [allocate_attempts]. pose proof (po_table _ Hw) as Ht.
  destruct (allocate_first _ _ Ht Hroom) as (i & Hi & Hbefore & Hfree & Ea). rewrite Ea.
  rewrite Hnext in *. rewrite nth_id_add, next_id_nth in *. unfold table_size, kMaximumSessions, kMaximumPending in *.
  set (id := nth_id base (j + i)) in *. set (w1 := with_table _ _ _).
  assert (plane_ok w1) as Hw1.
  { apply with_table_ok; [done| |done]. apply (table_ok_frame _ _ _ Ht); try done. cbn. apply nth_id_range. }
  change (plane w1) with (plane w).
  destruct (match provisional_ (plane w) !! id with Some _ => true | None => held (plane w) id end) eqn:Eb; last first.
  { destruct (provisional_ (plane w) !! id); [done|]. rewrite Eb. by do 2 eexists. }
  assert (∃ w' id, allocate_attempts n w1 = (w', Ok id)) as Hgoal; last first.
  { destruct (provisional_ (plane w) !! id); [done|]. by rewrite Eb. }
  apply free_or_busy in Eb.
  assert (j ≤ size (sessions_ (table w)) + length vs)%nat as Hbound.
  { assert (list_to_set (map (nth_id base) (seq 0 j)) ⊆ dom (sessions_ (table w)) ∪ (list_to_set vs : gset Z)) as Hsub.
    { intros v (k & -> & Hk%elem_of_seq)%elem_of_list_to_set%list_elem_of_fmap. apply elem_of_union.
      rewrite elem_of_dom, elem_of_list_to_set. apply Hcov. lia. }
    apply subseteq_size in Hsub. rewrite size_union_alt, size_dom in Hsub.
    rewrite size_list_to_set, length_map, length_seq in Hsub.
    - pose proof (subseteq_size (list_to_set vs ∖ dom (sessions_ (table w)) : gset Z) (list_to_set vs) ltac:(set_solver)) as Hs.
      rewrite (size_list_to_set vs) in Hs by done. lia.
    - apply NoDup_fmap_2_strong; [|apply NoDup_seq]. intros a b Ha%elem_of_seq Hb%elem_of_seq. apply nth_id_inj; lia. }
  assert (Z.of_nat (j + i) < 65535) as Hji by lia.
  apply (IH w1 base (S (j + i)) (id :: vs)); [done|done|done|lia| | | |cbn [length]; lia].
  - constructor; [|done]. intros (_ & k & Hk & E)%Hvs. apply nth_id_inj in E; lia.
  - intros v [->|Hv]%elem_of_cons; [split; [done|]; exists (j + i)%nat; split; [lia|done]|].
    destruct (Hvs v Hv) as (Hb & k & Hk & ->). split; [done|]. exists k. split; [lia|done].
  - intros k Hk. change (sessions_ (table w1)) with (sessions_ (table w)).
    destruct (decide (k = j + i)%nat) as [->|]; [right; apply list_elem_of_here|].
    destruct (decide (k < j)%nat) as [Hkj|Hkj].
    + destruct (Hcov k Hkj) as [|Hin]; [by left|right]. by apply list_elem_of_further.
    + left. specialize (Hbefore (k - j)%nat ltac:(lia)). rewrite nth_id_add in Hbefore.
      by replace (j + (k - j))%nat with k in Hbefore by lia.
Qed.

Lemma allocate_key_id_finds w : plane_ok w → table_size (table w) < kMaximumSessions →
  ∃ w' id, allocate_key_id w = (w', Ok id) ∧ plane_ok w' ∧ same_but_table w w' ∧ id_free w' id.
Proof.
  intros Hw Hroom. pose proof (tok_next _ _ (po_table _ Hw)) as Hnext.
  assert (∃ w' id, allocate_key_id w = (w', Ok id)) as (w' & id & E).
  2: { exists w', id. split; [done|]. pose proof (allocate_key_id_spec w Hw w eq_refl) as Hs. by rewrite E in Hs. }
  apply (allocate_attempts_find _ w (next_key_id_ (table w)) 0 []); try done.
  - by rewrite nth_id_0.
  - constructor.
  - intros v Hv. by apply not_elem_of_nil in Hv.
  - intros k Hk. lia.
Qed.

End invariant.

(** C23. In every history of the control plane, whatever the network, the cipher
    library and the workers do: the key ids of pending handshakes, provisional
    sessions and installed sessions are disjoint, non-zero and unique, so a
    datagram's key id names one of them at most; at most 256 handshakes are
    pending and 256 provisional, at most 1024 sessions installed and 8192
    timers set. *)
Theorem control_key_ids_disjoint {heap_functions : HeapFunctions} {aead : Aead} {dh : Dh} (xc : CookieCipher) w :
  control_reachable xc w →
  (∀ p e, pending_ (plane w) !! p = Some e → 1 ≤ pd_local_key_id e < 2 ^ 16 ∧
    sessions_ (table w) !! pd_local_key_id e = None ∧ provisional_ (plane w) !! pd_local_key_id e = None) ∧
  (∀ p q e f, pending_ (plane w) !! p = Some e → pending_ (plane w) !! q = Some f →
    pd_local_key_id e = pd_local_key_id f → p = q) ∧
  (∀ id v, provisional_ (plane w) !! id = Some v → pv_local_key_id v = id ∧ 1 ≤ id < 2 ^ 16 ∧
    sessions_ (table w) !! id = None) ∧
  size_of (pending_ (plane w)) ≤ 256 ∧ size_of (provisional_ (plane w)) ≤ 256 ∧
  table_size (table w) ≤ 1024 ∧ Z.of_nat (length (timers_ w)) ≤ 8192.
Proof.
  intros Hw%control_reachable_ok. split; [|split; [|split]].
  - intros p e Hp. by destruct (po_pending _ Hw p e Hp) as (_ & _ & ? & ? & ?).
  - apply (po_distinct _ Hw).
  - intros id v Hv. by destruct (po_provisional _ Hw id v Hv) as (? & ? & _ & ?).
  - split; [apply (po_pending_size _ Hw)|]. split; [apply (po_provisional_size _ Hw)|].
    split; [apply (tok_size _ _ (po_table _ Hw))|]. apply (wheel_ok _ (po_wheel _ Hw)).
Qed.

(** A node with room for a session always finds a key id: in every
    reachable world with fewer than 1024 sessions the bounded search of
    [allocate_key_id] succeeds, whatever ids the handshakes under way hold, and
    the id is used by no session and no handshake. *)
Lemma control_key_id_found {heap_functions : HeapFunctions} {aead : Aead} {dh : Dh} (xc : CookieCipher) w :
  control_reachable xc w → table_size (table w) < kMaximumSessions →
  ∃ w' id, allocate_key_id w = (w', Ok id) ∧ id_free w' id ∧ plane w' = plane w.
Proof.
  intros Hw%control_reachable_ok Hroom.
  destruct (allocate_key_id_finds w Hw Hroom) as (w' & id & E & _ & [Hp _] & Hf). by exists w', id.
Qed.

(** ** A node that has dialled a peer *)

Definition sample_env : Env :=
  mkEnv true 100 12345 true [9; 1] (λ _, all_well) (λ _, Some (replicate 32 1)) (Some (replicate 24 2)) true
    [5] [5] [].
Definition sample_cipher : CookieCipher := mkCookieCipher toy_aead.
Definition sample_peer : PeerConfig := mkPeer 5 (public_key (toy_pair 5)) (replicate 32 7) (Some sample_source).

Definition dialled : World :=
  (start_handshake (heap_functions := sorting_heap) (aead := toy_aead) (dh := toy_dh) sample_env 5 1000
     (add_peer sample_peer (new_world (toy_pair 3) (new_contexts true))).1).1.

Lemma dialled_reachable :
  control_reachable (heap_functions := sorting_heap) (aead := toy_aead) (dh := toy_dh) sample_cipher dialled.
Proof.
  exists (toy_pair 3), (new_contexts true). eapply rtc_l; [exists None; apply (step_add_peer _ sample_peer)|].
  eapply rtc_l; [exists None; apply (step_start _ sample_env 5 1000)|]. reflexivity.
Defined.

Lemma control_key_ids_disjoint_witness :
  (pd_local_key_id <$> pending_ (plane dialled) !! 5 = Some 1) ∧ sessions_ (table dialled) !! 1 = None ∧
  size_of (pending_ (plane dialled)) ≤ 256.
Proof.
  destruct (@control_key_ids_disjoint sorting_heap toy_aead toy_dh sample_cipher dialled dialled_reachable)
    as (H & _ & _ & Hs & _).
  assert (pd_local_key_id <$> pending_ (plane dialled) !! 5 = Some 1) as Hid by (vm_compute; reflexivity).
  split; [exact Hid|]. split; [|exact Hs].
  destruct (pending_ (plane dialled) !! 5) as [e|] eqn:E; [|discriminate Hid].
  cbn in Hid. injection Hid as Hid. destruct (H 5 e E) as (_ & Hn & _). rewrite Hid in Hn. exact Hn.
Defined.

