(* ===== verification/ControlExchange.v ===== *)
(** Two control planes that talk to each other: the datagram of
    [start_handshake] is answered by the peer's [handle_datagram], whose answer
    completes the handshake, and both ends hold the same keys. *)

From S2P Require Import Prelude Packet Nonce Handshake Address Routing Timers RateLimit Blake2s Crypto Noise.
From S2P Require Import Session SessionTable Cookie ControlPlane ControlIds.

(** ** Payloads *)

Lemma land_byte x : Z.land x 0xFF = u8 x.
Proof. change 0xFF with (Z.ones 8). by rewrite Z.land_ones by lia. Qed.

Lemma build_payload_spec version id timestamp :
  build_payload version 0 id timestamp =
  [u8 (major version); u8 (minor version); 0; 0; 0; 0] ++ be_bytes 2 id ++ be_bytes 8 timestamp.
Proof. unfold build_payload. cbn [map seq app be_bytes]. rewrite !land_byte. by rewrite Z.shiftr_0_r. Qed.

Lemma length_build_payload version id timestamp : length (build_payload version 0 id timestamp) = 16%nat.
Proof. done. Qed.

Lemma build_payload_bytes version id timestamp : bytes_ok (build_payload version 0 id timestamp).
Proof.
  rewrite build_payload_spec, !bytes_ok_app. split; [|split; apply be_bytes_ok].
  repeat constructor; try apply u8_range; word_lia.
Qed.

Lemma payload_key_id_spec version id timestamp : is_u16 id →
  payload_key_id (build_payload version 0 id timestamp) = id.
Proof.
  intros Hid. unfold payload_key_id. rewrite length_build_payload. cbn [Nat.ltb Nat.leb].
  rewrite build_payload_spec. pose proof (be_value_small 2 id ltac:(word_lia)) as E.
  pose proof (be_bytes_ok 2 id) as Hb. pose proof (length_be_bytes 2 id) as Hl.
  destruct (be_bytes 2 id) as [|x [|y [|]]]; try done. change (_ !!! 6%nat) with x. change (_ !!! 7%nat) with y.
  apply Forall_cons_1 in Hb as [Hx Hb]. apply Forall_cons_1 in Hb as [Hy _].
  rewrite be_value_2 in E. rewrite lor_shiftl_add by word_lia. change (2 ^ 8) with 256. rewrite E. by apply u16_id.
Qed.

Lemma fold_bytes_value l : ∀ acc, bytes_ok l → (length l ≤ 8)%nat → 0 ≤ acc < 256 ^ Z.of_nat (8 - length l) →
  fold_left (λ value b, Z.lor (u64 (Z.shiftl value 8)) b) l acc = fold_left (λ acc x, acc * 256 + x) l acc.
Proof.
  induction l as [|x l IH]; intros acc Hok Hlen Hacc; [done|]. apply Forall_cons_1 in Hok as [Hx Hok].
  cbn [fold_left length] in *.
  assert (256 ^ Z.of_nat (8 - S (length l)) ≤ 256 ^ 7) by (apply Z.pow_le_mono_r; lia).
  rewrite (u64_id (Z.shiftl acc 8)) by (rewrite Z.shiftl_mul_pow2 by lia; word_lia).
  rewrite lor_shiftl_add by word_lia. apply IH; [done|lia|].
  replace (8 - length l)%nat with (S (8 - S (length l))) by lia.
  rewrite Nat2Z.inj_succ, Z.pow_succ_r by lia. word_lia.
Qed.

Lemma payload_timestamp_spec version id timestamp : is_u64 timestamp →
  payload_timestamp (build_payload version 0 id timestamp) = timestamp.
Proof.
  intros Ht. unfold payload_timestamp. rewrite length_build_payload. cbn [Nat.ltb Nat.leb].
  replace (take 8 (drop 8 (build_payload version 0 id timestamp))) with (be_bytes 8 timestamp)
    by (rewrite build_payload_spec; reflexivity).
  rewrite fold_bytes_value; [|apply be_bytes_ok|rewrite length_be_bytes; lia|rewrite length_be_bytes; simpl; lia].
  apply (be_value_small 8). word_lia.
Qed.

(** ** Frames with MACs *)

(** The datagram of a message under the MACs of a holder. *)
Definition stamped (m : HandshakeMessage) (holder : CookieHolder) (noise : list Z) : list Z :=
  let mac := holder_mac1 holder (frame_bytes m noise) in
  frame_bytes m noise ++ mac ++ compute_mac2 holder (frame_bytes m noise ++ mac).

Lemma stamp_macs_spec m holder noise : length (holder_mac1 holder (frame_bytes m noise)) = 16%nat →
  (∀ c, length (compute_mac2 holder c) = 16%nat) →
  stamp_macs holder (frame_bytes m noise ++ replicate 32 0) (length noise) =
  Ok (stamped m holder noise, holder_mac1 holder (frame_bytes m noise)).
Proof.
  intros H1 H2. unfold stamp_macs, mac2_offset, mac1_offset, kHandshakeEnvelopeSize, kHandshakeMacSize.
  pose proof (length_frame_bytes m noise) as Hl.
  replace (Z.to_nat (4 + Z.of_nat (length noise))) with (length (frame_bytes m noise)) by lia.
  replace (Z.to_nat (4 + Z.of_nat (length noise) + 16)) with (length (frame_bytes m noise) + 16)%nat by lia.
  unfold stamped. revert H1. generalize (frame_bytes m noise). intros f H1.
  rewrite span_first_ok by (rewrite length_app; lia). cbn [rbind]. rewrite take_app_length.
  set (mac := holder_mac1 holder f) in *.
  rewrite blit_ok by (rewrite length_app, length_replicate; lia). cbn [rbind].
  rewrite take_app_length, drop_app_ge by lia. replace (length f + length mac - length f)%nat with 16%nat by lia.
  change (drop 16 (replicate 32 0)) with (replicate 16 0).
  rewrite span_first_ok by (rewrite !length_app, length_replicate; lia). cbn [rbind].
  rewrite (app_assoc f mac), take_app_length' by (rewrite length_app; lia).
  rewrite blit_ok by (rewrite !length_app, length_replicate, H2; lia). cbn [rbind].
  rewrite take_app_length', drop_ge, app_nil_r by (rewrite ?length_app, ?length_replicate, ?H2; lia).
  by rewrite <- app_assoc.
Qed.

(** ** The initiator *)

Lemma create_initiator local remote psk : forallb (λ b, b =? 0) remote = false →
  create true initiator local remote psk [] =
  Ok (mkHandshake initiator (start_state remote []) local zero_pair remote z32 psk true false false false false).
Proof. intros Hz. unfold create, guard. cbn [negb]. by rewrite Hz. Qed.

Lemma create_responder local remote psk :
  create true responder local remote psk [] =
  Ok (mkHandshake responder (start_state (public_key local) []) local zero_pair z32 z32 psk false false false false false).
Proof. reflexivity. Qed.

Lemma noise_call_ok {A} e (m : Noise.step A) h w c h' a : m (contexts w, h) = ((c, h'), Ok a) →
  noise_call e m h w = (with_contexts w c, Ok (h', a)).
Proof. unfold noise_call. by intros ->. Qed.

Lemma length_new_holder_mac static m noise : length (holder_mac1 (new_holder static) (frame_bytes m noise)) = 16%nat.
Proof. apply length_keyed_mac. unfold new_holder, mac1_key. cbn [holder_mac1_key_]. rewrite length_hash_label. lia. Qed.

Lemma serialize_with_macs_spec m noise : frame_ok m noise →
  serialize_handshake_frame_with_macs m noise = Ok (frame_bytes m noise ++ replicate 32 0).
Proof. intros Hf. unfold serialize_handshake_frame_with_macs. by rewrite serialize_frame_spec. Qed.

Lemma schedule_room {heap_functions : HeapFunctions} l k s d : wheel_reach l →
  Z.of_nat (length l) < kMaximumTimers →
  ∃ l', schedule l k s d = (l', true) ∧ wheel_reach l' ∧ l' ≡ₚ mkTimer k s d :: l.
Proof.
  intros Hl Hroom. pose proof (schedule_heap l k s d (proj1 (wheel_ok l Hl))) as [_ Hp].
  pose proof (wheel_schedule l k s d Hl) as Hr. unfold schedule in *. rewrite (proj2 (Z.leb_gt _ _) Hroom) in *.
  eexists. by split_and!.
Qed.

(** The timers of a handshake that has been started. *)
Definition timed (p : Z) (l l' : list TimerEvent) : Prop :=
  ∃ late early, l' ≡ₚ mkTimer handshake_retry p late :: mkTimer handshake_timeout p early :: l.

(** Peers and sessions are as before. *)
Definition same_nodes (w w' : World) : Prop :=
  peers_ (plane w') = peers_ (plane w) ∧ provisional_ (plane w') = provisional_ (plane w) ∧ heap w' = heap w ∧
  sessions_ (table w') = sessions_ (table w) ∧ by_peer_ (table w') = by_peer_ (table w).

(** What a side draws and computes for a message. *)
Record drawn `{Dh} (env : Env) (eph : KeyPair) : Prop := {
  dr_available : crypto_available env = true;
  dr_status : ∀ i, answered (status env i);
  dr_keypair : keypair env = Ok eph;
}.

Section exchange.
Context {heap_functions : HeapFunctions} `{AeadLaws} `{DhLaws} (xc : CookieCipher).

Lemma drawn_valid env eph : drawn env eph → valid_pair eph.
Proof.
  intros [_ _ Hk]. unfold keypair, generate_keypair, derive_public_key in Hk.
  destruct (keypair_ok env); [|done]. cbn in Hk. by injection Hk as <-.
Qed.

Lemma drawn_length env eph : drawn env eph → length (public_key eph) = 32%nat.
Proof. intros Hd. by eapply length_public, drawn_valid. Qed.

(** The entry of an initiation that has been sent. *)
Definition sent_entry (e : Pending) (now : Instant) (holder : CookieHolder) (h : NoiseHandshake) (noise : list Z)
    : Pending :=
  mkPending (pd_peer e) (Some h) (pd_local_key_id e) (attempt e) (pd_destination e) now (Some holder)
    (holder_mac1 holder (frame_bytes init noise)).

Lemma build_initiation_spec env now w e cfg eph es ss :
  peers_ (plane w) !! pd_peer e = Some cfg → cookies e = None → drawn env eph → contexts_clean (contexts w) →
  wheel_reach (timers_ w) → Z.of_nat (length (timers_ w)) + 2 ≤ kMaximumTimers →
  forallb (λ b, b =? 0) (static_public cfg) = false →
  length (public_key (local_static_ (plane w))) = 32%nat →
  scalarmult (private_key eph) (static_public cfg) = Some es →
  scalarmult (private_key (local_static_ (plane w))) (static_public cfg) = Some ss →
  let local := local_static_ (plane w) in
  let holder := new_holder (static_public cfg) in
  let m := message_1 (start_state (static_public cfg) []) (public_key eph) es (public_key local) ss
             (build_payload default_version 0 (pd_local_key_id e) (handshake_timestamp env)) in
  ∃ c l, contexts_clean c ∧ timed (pd_peer e) (timers_ w) l ∧
    build_initiation env now (w, e) =
    ((with_timers (with_contexts w c) l,
      sent_entry e now holder
        (mkHandshake initiator m.2 local eph (static_public cfg) z32 (preshared cfg) true true false false false) m.1),
     Ok (mkOutgoing (pd_destination e) (stamped init holder m.1))).
Proof.
  intros Hcfg Hck Hd Hc Hw Hl Hnz Hlen Hes Hss local holder m.
  pose proof (drawn_length env eph Hd) as He. destruct Hd as [Hav Hst Hk].
  set (payload := build_payload default_version 0 (pd_local_key_id e) (handshake_timestamp env)) in *.
  destruct (write_message_1_spec (status env 0) (status env 1) (contexts w) (start_state (static_public cfg) [])
    local eph (static_public cfg) (preshared cfg) payload (replicate (96 + 16) 0) es ss) as (c & Hc' & E);
    [done|done|done|done|done|done|done|rewrite length_replicate; unfold payload; rewrite length_build_payload; lia|].
  fold m in E. assert (length m.1 = 112%nat) as Hm.
  { unfold m. rewrite length_message_1 by done. unfold payload. by rewrite length_build_payload. }
  exists c. unfold build_initiation. erewrite sbind_ok by reflexivity. cbn [fst snd].
  unfold find_peer. rewrite Hcfg, Hav, create_initiator by done. cbn [recast].
  erewrite sbind_ok by reflexivity. fold payload local. rewrite Hk. cbv zeta.
  change (kNoiseMessage1Overhead + length payload)%nat with 112%nat.
  erewrite sbind_ok by (unfold outer; cbn [fst snd]; erewrite noise_call_ok by exact E; reflexivity).
  cbn [fst snd]. change (96 + length payload)%nat with 112%nat. rewrite drop_ge, app_nil_r by (rewrite length_replicate; lia).
  rewrite span_first_ok, take_ge by lia. erewrite sbind_ok by reflexivity.
  rewrite serialize_with_macs_spec by (split; [done|unfold kMaximumHandshakePayload, blen; lia]). cbn [recast].
  erewrite sbind_ok by reflexivity. rewrite Hck. cbn [default]. fold holder.
  erewrite sbind_ok by reflexivity. rewrite <- Hm.
  rewrite stamp_macs_spec by (apply length_new_holder_mac || done).
  do 3 (erewrite sbind_ok by reflexivity). cbn [fst snd].
  destruct (schedule_room (timers_ w) handshake_timeout (pd_peer e) (now + kHandshakeTimeout) Hw ltac:(lia))
    as (l1 & E1 & Hw1 & Hl1).
  erewrite sbind_ok by (unfold outer, schedule_timer; cbn [fst snd with_contexts timers_]; rewrite E1; reflexivity).
  erewrite sbind_ok by reflexivity. cbn [fst snd].
  destruct (schedule_room l1 handshake_retry (pd_peer e) (now + retry_backoff (attempt e)) Hw1 ltac:(rewrite Hl1; cbn [length]; lia))
    as (l2 & E2 & Hw2 & Hl2).
  erewrite sbind_ok by (unfold outer, schedule_timer; cbn [fst snd with_timers timers_]; rewrite E2; reflexivity).
  erewrite sbind_ok by reflexivity. exists l2. split; [done|]. split; [|reflexivity]. do 2 eexists. by rewrite Hl2, Hl1.
Qed.

(** A node with room for a handshake. *)
Record ready (w : World) : Prop := {
  rd_ok : plane_ok w;
  rd_contexts : contexts_clean (contexts w);
  rd_static : valid_pair (local_static_ (plane w));
  rd_sessions : table_size (table w) < kMaximumSessions;
  rd_pending : size_of (pending_ (plane w)) < kMaximumPending;
  rd_provisional : size_of (provisional_ (plane w)) < kMaximumPending;
  rd_timers : Z.of_nat (length (timers_ w)) + 2 ≤ kMaximumTimers;
}.

(** A node with room for [k] handshakes of its own. *)
Record room (k : nat) (w : World) : Prop := {
  rm_ok : plane_ok w;
  rm_contexts : contexts_clean (contexts w);
  rm_static : valid_pair (local_static_ (plane w));
  rm_sessions : table_size (table w) < kMaximumSessions;
  rm_pending : size_of (pending_ (plane w)) + Z.of_nat k ≤ kMaximumPending;
  rm_timers : Z.of_nat (length (timers_ w)) + 2 * Z.of_nat k ≤ kMaximumTimers;
}.
Lemma ready_room w : ready w → room 1 w.
Proof. intros []. split; try done; lia. Qed.

(** The handshake of the initiator after its first message, that message, and
    the key it computed with. *)
Definition first_message (remote : list Z) (eph local : KeyPair) (es ss : list Z) (id timestamp : Z)
    : list Z * SymmetricState :=
  message_1 (start_state remote []) (public_key eph) es (public_key local) ss
    (build_payload default_version 0 id timestamp).

Definition waiting (m : SymmetricState) (eph local : KeyPair) (cfg : PeerConfig) : NoiseHandshake :=
  mkHandshake initiator m local eph (static_public cfg) z32 (preshared cfg) true true false false false.

Lemma start_handshake_spec env now w p cfg dest eph es ss :
  room 1 w → peers_ (plane w) !! p = Some cfg → dial_endpoint (plane w) p = Some dest → drawn env eph →
  forallb (λ b, b =? 0) (static_public cfg) = false →
  scalarmult (private_key eph) (static_public cfg) = Some es →
  scalarmult (private_key (local_static_ (plane w))) (static_public cfg) = Some ss →
  let local := local_static_ (plane w) in
  let holder := new_holder (static_public cfg) in
  ∃ w' id e, 1 ≤ id < 2 ^ 16 ∧
    let m := first_message (static_public cfg) eph local es ss id (handshake_timestamp env) in
    start_handshake env p now w = (w', Ok (mkOutgoing dest (stamped init holder m.1))) ∧
    pending_ (plane w') = <[p := e]> (pending_ (plane w)) ∧
    pd_handshake e = Some (waiting m.2 eph local cfg) ∧ cookies e = Some holder ∧ pd_local_key_id e = id ∧
    contexts_clean (contexts w') ∧ local_static_ (plane w') = local ∧ timed p (timers_ w) (timers_ w') ∧ same_nodes w w'.
Proof.
  intros Hr Hcfg Hdest Hd Hnz Hes Hss local holder. destruct Hr as [Hw Hc Hst Hs Hp Ht].
  assert (size_of (pending_ (plane w)) < kMaximumPending) as Hp' by lia.
  destruct (allocate_key_id_finds w Hw Hs) as (w1 & id & Ea & Hw1 & (E1 & E2 & E3 & E4 & E5 & E6) & Hf).
  pose proof (dr_available _ _ Hd) as Hav.
  set (e0 := mkPending p None id 0 dest 0 None (replicate kMacSize 0)).
  destruct (build_initiation_spec env now w1 e0 cfg eph es ss) as (c & l & Hc' & Hl & Eb); rewrite ?E1, ?E4, ?E5; try done.
  { apply (po_wheel _ Hw). }
  { by apply length_public. }
  rewrite E1 in Eb. fold local holder in Eb.
  unfold start_handshake. erewrite sbind_ok by (by rewrite Hav). erewrite sbind_ok by reflexivity.
  erewrite sbind_ok by (unfold contains; rewrite Hcfg; reflexivity). rewrite Hdest.
  rewrite (proj2 (Z.leb_gt _ _) Hp'). cbn [andb]. erewrite sbind_ok by exact Ea. cbv zeta. fold e0.
  erewrite sbind_ok by (rewrite Eb; reflexivity). do 2 (erewrite sbind_ok by reflexivity).
  do 3 eexists. split; [exact (if_range _ _ Hf)|]. cbv zeta. split; [reflexivity|].
  cbn [on_plane plane with_control_stats with_pending pending_ with_timers with_contexts local_static_ contexts
    sent_entry pd_handshake cookies pd_local_key_id fst snd timers_]. rewrite E1. rewrite E4 in Hl.
  split_and!; try done. unfold same_nodes. cbn. by rewrite E1.
Qed.

(** ** The responder *)

(** The world once a datagram is past the limits. *)
Definition admitted (b : TokenBucket) (l : SourceRateLimiter) (w : World) : World :=
  on_plane (λ c, with_seen c (u64 (handshakes_seen_ c + 1)))
    (on_plane (λ c, with_rate_limiter c l) (on_plane (λ c, with_global_limiter c b) w)).

Lemma limit_ok source now w : (limit source now w).2 = Ok tt →
  ∃ b l, limit source now w =
    (on_plane (λ c, with_rate_limiter c l) (on_plane (λ c, with_global_limiter c b) w), Ok tt).
Proof.
  unfold limit. rewrite (sbind_ok _ _ _ w w) by reflexivity.
  destruct (global_allow _ now) as [b g]. erewrite sbind_ok by reflexivity. destruct g; [|done]. cbn [negb].
  destruct (allow _ source now) as [l g]. erewrite sbind_ok by reflexivity. destruct g; [|done].
  intros _. by exists b, l.
Qed.

Lemma handle_admitted env source bytes now w : crypto_available env = true → (limit source now w).2 = Ok tt →
  ∃ b l, handle_datagram xc env source bytes now w =
    (bind frame := lift (recast (λ _, ControlError.invalid_message) (parse_handshake_frame bytes)) in
     match fv_message frame with
     | cookie_reply => handle_cookie_reply xc env frame now
     | init => handle_initiation xc env source frame now
     | response => handle_response env source frame
     | _ => lift (Fail ControlError.invalid_message)
     end) (admitted b l w).
Proof.
  intros Hav Hl. unfold handle_datagram. erewrite sbind_ok by (by rewrite Hav).
  destruct (limit_ok source now w Hl) as (b & l & E). exists b, l.
  erewrite sbind_ok by exact E. erewrite sbind_ok by reflexivity. reflexivity.
Qed.

Lemma ready_admitted b l w : ready w → ready (admitted b l w).
Proof. intros []. split; try done. by apply (same_core_ok w). Qed.

Definition answered_by (issuer : CookieIssuer) (noise : list Z) : list Z :=
  frame_bytes response noise ++ issuer_mac1 issuer (frame_bytes response noise) ++ replicate 16 0.

Lemma frame_response_spec issuer noise : frame_ok response noise →
  length (issuer_mac1 issuer (frame_bytes response noise)) = 16%nat →
  frame_response issuer noise = Ok (answered_by issuer noise).
Proof.
  intros Hf Hm. unfold frame_response. rewrite serialize_with_macs_spec by done. cbn [recast rbind].
  unfold mac1_offset, kHandshakeEnvelopeSize, blen. pose proof (length_frame_bytes response noise) as Hl.
  replace (Z.to_nat (4 + Z.of_nat (length noise))) with (length (frame_bytes response noise)) by lia.
  unfold answered_by. revert Hm. generalize (frame_bytes response noise). intros f Hm.
  rewrite span_first_ok by (rewrite length_app; lia). cbn [rbind]. rewrite take_app_length.
  rewrite blit_ok by (rewrite length_app, length_replicate; lia).
  rewrite take_app_length, drop_app_ge by lia. rewrite Hm. replace (length f + 16 - length f)%nat with 16%nat by lia.
  reflexivity.
Qed.

Lemma read_initiation_spec env st psk frame w eph local es ss id timestamp :
  crypto_available env = true → (∀ i, answered (status env i)) → contexts_clean (contexts w) →
  length (public_key eph) = 32%nat → length (public_key local) = 32%nat →
  scalarmult (private_key (local_static_ (plane w))) (public_key eph) = Some es →
  scalarmult (private_key (local_static_ (plane w))) (public_key local) = Some ss →
  let m := first_message (public_key (local_static_ (plane w))) eph local es ss id timestamp in
  noise_message frame = m.1 →
  ∃ c, contexts_clean c ∧
    read_initiation env st psk frame w =
    (with_contexts w c,
     Ok (mkHandshake responder m.2 (local_static_ (plane w)) zero_pair (public_key local) (public_key eph) psk
           true false true false false, build_payload default_version 0 id timestamp)).
Proof.
  intros Hav Hst Hc He Hl Hes Hss m Hn.
  set (payload := build_payload default_version 0 id timestamp) in *.
  destruct (read_message_1_spec (status env st) (status env (S st)) (contexts w)
    (start_state (public_key (local_static_ (plane w))) []) (local_static_ (plane w)) psk (public_key eph) es
    (public_key local) ss payload (replicate kHandshakePayloadSize 0)) as (c & Hc' & E); [done..|].
  exists c. split; [done|]. unfold read_initiation. erewrite sbind_ok by reflexivity.
  rewrite Hav, create_responder. erewrite sbind_ok by reflexivity. rewrite Hn.
  erewrite sbind_ok by (unfold otherwise; erewrite noise_call_ok by exact E; reflexivity).
  cbn [fst snd]. rewrite drop_ge, app_nil_r by done. reflexivity.
Qed.

(** A responder that will answer: not under load, and it knows the initiator. *)
Record answers (env : Env) (w : World) (local : KeyPair) (p : Z) (cfg : PeerConfig) (timestamp : Z) : Prop := {
  an_ready : ready w;
  an_mac : mac1_key_ (issuer_ (plane w)) = mac1_key (public_key (local_static_ (plane w)));
  an_load : under_load_ (issuer_ (plane w)) = false;
  an_match : match_peer (plane w) (public_key local) (peer_order env) = Some (p, cfg);
  an_fresh : replayed_initiation (plane w) p timestamp = false;
}.

Lemma match_peer_frame c c' claimed order : peers_ c' = peers_ c →
  match_peer c' claimed order = match_peer c claimed order.
Proof. intros E. induction order as [|q order IH]; [done|]. cbn. by rewrite E, IH. Qed.

Lemma answers_admitted b l env w local p cfg timestamp :
  answers env w local p cfg timestamp → answers env (admitted b l w) local p cfg timestamp.
Proof.
  intros [Hr Hmk Hu Hm Hf]. split; [by apply ready_admitted|exact Hmk|exact Hu| |exact Hf].
  rewrite <- Hm. by apply match_peer_frame.
Qed.

Lemma holder_mac_verifies issuer static m noise : mac1_key_ issuer = mac1_key static →
  verify_mac1 issuer (frame_bytes m noise) (holder_mac1 (new_holder static) (frame_bytes m noise)) = true.
Proof.
  intros Hk. unfold verify_mac1, issuer_mac1, holder_mac1, new_holder. cbn [holder_mac1_key_]. rewrite Hk.
  assert (length (mac1_key static) ≤ 32)%nat as Hl by (unfold mac1_key; rewrite length_hash_label; lia).
  apply constant_time_equal_iff; [by apply keyed_mac_bytes..|done].
Qed.

Lemma stamped_frame static noise : frame_ok init noise → let holder := new_holder static in
  let mac := holder_mac1 holder (frame_bytes init noise) in
  parse_handshake_frame (stamped init holder noise) =
    Ok (mkFrameView init noise true mac (replicate 16 0) (frame_bytes init noise) (frame_bytes init noise ++ mac)).
Proof.
  intros Hf holder mac. unfold stamped. fold mac.
  pose proof (length_new_holder_mac static init noise) as Hm. fold holder mac in Hm.
  change (compute_mac2 holder _) with (replicate 16 0).
  rewrite parse_frame_bytes by (done || (right; rewrite length_app, Hm; done)). unfold frame_view.
  destruct mac as [|b mac']; [done|]. cbn [app].
  rewrite (app_comm_cons mac' (replicate 16 0) b). by rewrite take_app_length', drop_app_length' by done.
Qed.

(** The second message, and what the responder computes from it. *)
Definition second_message (m : SymmetricState) (eph : KeyPair) (ee se psk : list Z) (id timestamp : Z)
    : list Z * SymmetricState :=
  message_2 m (public_key eph) ee se psk (build_payload default_version 0 id timestamp).

Lemma answer_initiation_spec env source frame now w p cfg local eph eph' es ss ee se id timestamp :
  answers env w local p cfg timestamp → drawn env eph' → is_u64 timestamp → 1 ≤ id < 2 ^ 16 →
  length (public_key eph) = 32%nat → length (public_key local) = 32%nat →
  scalarmult (private_key (local_static_ (plane w))) (public_key eph) = Some es →
  scalarmult (private_key (local_static_ (plane w))) (public_key local) = Some ss →
  scalarmult (private_key eph') (public_key eph) = Some ee →
  scalarmult (private_key eph') (public_key local) = Some se →
  let m := first_message (public_key (local_static_ (plane w))) eph local es ss id timestamp in
  noise_message frame = m.1 →
  ∃ w' id', 1 ≤ id' < 2 ^ 16 ∧
    let m' := second_message m.2 eph' ee se (preshared cfg) id' (handshake_timestamp env) in
    answer_initiation env source frame now p cfg w =
      (w', Ok (Some (mkOutgoing source (answered_by (issuer_ (plane w)) m'.1)))) ∧
    provisional_ (plane w') !! id' = Some (mkProvisional p id' id
      (mkResult (split m'.2).2 (split m'.2).1 (hash_ m'.2) (public_key local)) source now) ∧
    contexts_clean (contexts w').
Proof.
  intros Ha Hd Hts Hid He Hl Hes Hss Hee Hse m Hn. destruct Ha as [Hr Hmk Hu Hm Hf].
  pose proof (drawn_length env eph' Hd) as He'. destruct Hd as [Hav Hst Hk].
  destruct Hr as [Hw Hc Hv Hs Hp Hpr Ht].
  destruct (read_initiation_spec env 2 (preshared cfg) frame w eph local es ss id timestamp)
    as (c & Hc1 & E1); [done..|]. fold m in E1.
  set (w1 := with_contexts w c).
  set (w2 := on_plane (λ c, with_timestamps c (<[p := timestamp]> (greatest_timestamp_ c))) w1).
  assert (plane_ok w2) as Hw2 by (by apply (same_core_ok w)).
  destruct (allocate_key_id_finds w2 Hw2 Hs) as (w3 & id' & E3 & Hw3 & (F1 & F2 & F3 & F4 & F5 & _) & Hf3).
  set (payload := build_payload default_version 0 id' (handshake_timestamp env)).
  destruct (write_message_2_spec (status env 4) (contexts w3) m.2 (local_static_ (plane w)) (public_key local)
    (public_key eph) eph' (preshared cfg) payload (replicate 64 0) ee se) as (c4 & Hc4 & E4);
    [rewrite F5; exact Hc1|exact (Hst 4%nat)|exact He'|exact Hee|exact Hse
    |unfold payload; rewrite length_build_payload, length_replicate; lia|].
  set (m' := second_message m.2 eph' ee se (preshared cfg) id' (handshake_timestamp env)).
  change (message_2 m.2 (public_key eph') ee se (preshared cfg) payload) with m' in E4.
  assert (length m'.1 = 64%nat) as Hm' by (unfold m', second_message; by rewrite length_message_2).
  exists (with_timers (on_plane (λ c, with_control_stats c (increment responder_handshakes (control_stats_ c)))
    (on_plane (λ c, with_provisional c (<[id' := mkProvisional p id' id
      (mkResult (split m'.2).2 (split m'.2).1 (hash_ m'.2) (public_key local)) source now]> (provisional_ c)))
      (with_contexts w3 c4))) (schedule (timers_ w3) provisional_timeout id' (now + kHandshakeTimeout)).1), id'.
  split; [exact (if_range _ _ Hf3)|]. cbv zeta. fold m'. split; [|split; [apply lookup_insert_eq|exact Hc4]].
  unfold answer_initiation. erewrite sbind_ok by exact E1. cbn [fst snd]. cbv zeta.
  rewrite payload_key_id_spec by word_lia. rewrite (proj2 (Z.eqb_neq id kPreSessionKeyId)) by (unfold kPreSessionKeyId; lia).
  rewrite payload_timestamp_spec by done. erewrite sbind_ok by reflexivity.
  change (plane (with_contexts w c)) with (plane w). rewrite Hf. erewrite sbind_ok by reflexivity. fold w1 w2.
  erewrite sbind_ok by exact E3. fold payload. change (kNoiseMessage2Overhead + length payload)%nat with 64%nat.
  rewrite Hk. erewrite sbind_ok by (unfold otherwise; erewrite noise_call_ok by exact E4; reflexivity).
  cbn [fst snd]. change (48 + length payload)%nat with 64%nat. rewrite drop_ge, app_nil_r by (rewrite length_replicate; lia).
  rewrite result_finished by reflexivity. cbn [role_ remote_static symmetric_ remote_static_].
  rewrite (proj2 (match_peer_spec _ _ _ _ _ Hm)). cbn [negb]. erewrite sbind_ok by reflexivity.
  change (plane (with_contexts w3 c4)) with (plane w3). rewrite F1.
  change (provisional_ (plane w2)) with (provisional_ (plane w)). rewrite (proj2 (Z.leb_gt _ _) Hpr).
  cbv zeta. erewrite sbind_ok by reflexivity.
  erewrite sbind_ok by (unfold schedule_timer; cbn [on_plane with_contexts timers_];
    rewrite (surjective_pairing (schedule (timers_ w3) _ _ _)); reflexivity).
  rewrite span_first_ok by lia. rewrite take_ge by lia. erewrite sbind_ok by reflexivity.
  change (issuer_ (plane w2)) with (issuer_ (plane w)).
  rewrite frame_response_spec.
  2: { split; [done|]. unfold kMaximumHandshakePayload, blen. lia. }
  2: { apply length_keyed_mac. rewrite Hmk. unfold mac1_key. rewrite length_hash_label. lia. }
  do 2 (erewrite sbind_ok by reflexivity). reflexivity.
Qed.

Lemma handle_initiation_spec env source frame now w p cfg local eph eph' es ss ee se id timestamp :
  answers env w local p cfg timestamp → drawn env eph' → is_u64 timestamp → 1 ≤ id < 2 ^ 16 →
  length (public_key eph) = 32%nat → length (public_key local) = 32%nat →
  scalarmult (private_key (local_static_ (plane w))) (public_key eph) = Some es →
  scalarmult (private_key (local_static_ (plane w))) (public_key local) = Some ss →
  scalarmult (private_key eph') (public_key eph) = Some ee →
  scalarmult (private_key eph') (public_key local) = Some se →
  let m := first_message (public_key (local_static_ (plane w))) eph local es ss id timestamp in
  noise_message frame = m.1 → has_macs frame = true →
  verify_mac1 (issuer_ (plane w)) (mac1_covered frame) (mac1 frame) = true →
  ∃ w' id', 1 ≤ id' < 2 ^ 16 ∧
    let m' := second_message m.2 eph' ee se (preshared cfg) id' (handshake_timestamp env) in
    handle_initiation xc env source frame now w =
      (w', Ok (Some (mkOutgoing source (answered_by (issuer_ (plane w)) m'.1)))) ∧
    provisional_ (plane w') !! id' = Some (mkProvisional p id' id
      (mkResult (split m'.2).2 (split m'.2).1 (hash_ m'.2) (public_key local)) source now) ∧
    contexts_clean (contexts w').
Proof.
  intros Ha Hd Hts Hid He Hl Hes Hss Hee Hse m Hn Hmacs Hver. pose proof Ha as [Hr Hmk Hu Hm Hf].
  destruct (read_initiation_spec env 0 z32 frame w eph local es ss id timestamp) as (c & Hc & E0);
    [apply Hd|apply Hd|apply Hr|done..|].
  assert (answers env (with_contexts w c) local p cfg timestamp) as Ha'.
  { split; [|exact Hmk|exact Hu|exact Hm|exact Hf]. destruct Hr. split; try done. by apply (same_core_ok w). }
  destruct (answer_initiation_spec env source frame now (with_contexts w c) p cfg local eph eph' es ss ee se id timestamp)
    as (w' & id' & Hid' & E & Hprov & Hcl); [done..|].
  exists w', id'. split; [exact Hid'|]. cbv zeta in *. split; [|split; [exact Hprov|exact Hcl]].
  assert (admit_initiation xc env source frame now w = (w, Ok None)) as Ead.
  { unfold admit_initiation. rewrite (sbind_ok _ _ _ w w) by reflexivity.
    rewrite (proj2 (Z.leb_gt _ _) (rd_provisional _ Hr)), Hmacs, Hver, Hu. reflexivity. }
  unfold handle_initiation. rewrite (sbind_ok _ _ _ _ _ Ead).
  assert (identify env frame w = (with_contexts w c, Ok (p, cfg))) as Eid; [|by rewrite (sbind_ok _ _ _ _ _ Eid)].
  unfold identify. change (replicate 32 0) with z32.
  erewrite sbind_ok by exact E0. erewrite sbind_ok by reflexivity.
  cbn [fst snd remote_static_]. change (plane (with_contexts w c)) with (plane w). by rewrite Hm.
Qed.

(** ** The initiator completes *)

Lemma answered_frame issuer noise : frame_ok response noise →
  length (issuer_mac1 issuer (frame_bytes response noise)) = 16%nat →
  ∃ covered2, parse_handshake_frame (answered_by issuer noise) =
    Ok (mkFrameView response noise true (issuer_mac1 issuer (frame_bytes response noise)) (replicate 16 0)
          (frame_bytes response noise) covered2).
Proof.
  intros Hf Hm. unfold answered_by. rewrite parse_frame_bytes by (done || (right; rewrite length_app, Hm; done)).
  unfold frame_view. set (mac := issuer_mac1 _ _) in *. destruct mac as [|b mac']; [done|]. cbn [app].
  rewrite (app_comm_cons mac' (replicate 16 0) b). eexists. by rewrite take_app_length', drop_app_length' by done.
Qed.

(** The session the handshake leaves in the table. *)
Definition established (env : Env) (peer local remote : Z) (r : NoiseResult) (source : Endpoint) : Session :=
  note_authenticated_endpoint
    (new_session (steady_now env) peer local remote (mkKeys (res_send r) 0) (mkKeys (res_receive r) 0)) source.

Lemma install_session_installs env w p e remote r source : plane_ok w → pending_ (plane w) !! p = Some e →
  table_size (table w) < kMaximumSessions →
  ∃ w' ptr, install_session env p (pd_local_key_id e) remote r source w = (w', Ok tt) ∧
    (find_by_peer (table w') p).2 = Some ptr ∧
    heap w' !! ptr = Some (established env p (pd_local_key_id e) remote r source).
Proof.
  intros Hw Hp Hs. destruct (po_pending _ Hw p e Hp) as (Hp0 & _ & Hr & Hfree & _).
  set (session := new_session (steady_now env) p (pd_local_key_id e) remote (mkKeys (res_send r) 0)
    (mkKeys (res_receive r) 0)).
  unfold install_session. fold session. set (id := pd_local_key_id e) in *.
  assert (id ≠ kPreSessionKeyId) as Hid0 by (unfold kPreSessionKeyId; lia).
  erewrite sbind_ok by (unfold put_session; rewrite install_spec by (done || apply Hw); reflexivity).
  erewrite sbind_ok by reflexivity. erewrite sbind_ok by reflexivity.
  match goal with |- context [arm_timers env p ?w0 = _] =>
    destruct (arm_timers_settled env p w0) as (w' & [] & E & Hc) end.
  exists w', (length (heap w)). split; [exact E|]. rewrite (sc_table _ _ Hc), (sc_heap _ _ Hc). cbn. split.
  - unfold find_by_peer. cbn [by_peer_]. rewrite lookup_insert_eq, find_key_lookup. apply lookup_insert_eq.
  - rewrite (list_alter_Some _ _ _ session); [|by apply list_lookup_middle].
    rewrite list_lookup_insert_eq; [done|]. rewrite length_app. cbn. lia.
Qed.

(** A pending handshake that does not take a response: it has not been sent,
    the response does not carry the first MAC under its peer's key, or does
    not decrypt in it. *)
Definition declines (env : Env) (frame : HandshakeFrameView) (e : Pending) : Prop :=
  match pd_handshake e, cookies e with
  | Some h, Some holder =>
      constant_time_equal (holder_mac1 holder (mac1_covered frame)) (mac1 frame) = false ∨
      ∀ i c, contexts_clean c → ∃ err,
        (read_message_2 (status env i) (noise_message frame) (replicate kHandshakePayloadSize 0) (c, h)).2 = Fail err
  | _, _ => True
  end.

(** A response that does not decrypt leaves the entry as it was. *)
Lemma read_response_fails env i q e h frame w err : contexts_clean (contexts w) → init_ok (status env i) = true →
  pending_ (plane w) !! q = Some e → pd_handshake e = Some h →
  (read_message_2 (status env i) (noise_message frame) (replicate kHandshakePayloadSize 0) (contexts w, h)).2 = Fail err →
  ∃ c, contexts_clean c ∧ read_response env i q e h frame w = (with_contexts w c, Ok None).
Proof.
  intros Hc Hi Hq Hh Hf. pose proof (read_message_2_clean (status env i) (noise_message frame) (replicate kHandshakePayloadSize 0)
    (contexts w) h Hi Hc) as Hcl. pose proof (rejected_response_restores (status env i) (noise_message frame)
    (replicate kHandshakePayloadSize 0) (contexts w) h) as Hr. unfold read_response.
  destruct (read_message_2 _ _ _ _) as [[c h'] r]. cbn [fst snd] in *. rewrite Hf in *. subst h'. exists c. split; [done|]. f_equal.
  unfold put_pending, with_contexts, modify, on_plane. cbn. unfold with_pending. rewrite insert_id; [by destruct w as [[] ? ? ? ?]|].
  rewrite Hq. destruct e. cbn in *. by subst.
Qed.

(** The loop passes over the peers whose handshake declines. *)
Lemma response_loop_skip env source frame p order : p ∈ order → (∀ i, answered (status env i)) → ∀ i w,
  contexts_clean (contexts w) → (∀ q e, q ≠ p → pending_ (plane w) !! q = Some e → declines env frame e) →
  ∃ i' rest c, contexts_clean c ∧
    response_loop env i source frame order w = response_loop env i' source frame (p :: rest) (with_contexts w c).
Proof.
  intros Hin Hst. induction order as [|q order IH]; [by apply not_elem_of_nil in Hin|]. intros i w Hc Hq.
  destruct (decide (q = p)) as [->|Hne]; [exists i, order, (contexts w); split; [done|]; by destruct w|].
  apply elem_of_cons in Hin as [->|Hin]; [done|]. specialize (IH Hin).
  assert (∀ c, contexts_clean c → ∃ i' rest c', contexts_clean c' ∧
    response_loop env (S i) source frame order (with_contexts w c) =
    response_loop env i' source frame (p :: rest) (with_contexts w c')) as Hgo.
  { intros c Hcc. exact (IH (S i) (with_contexts w c) Hcc Hq). }
  assert (with_contexts w (contexts w) = w) as Hw by (by destruct w).
  pose proof (Hgo (contexts w) Hc) as Hsame. rewrite Hw in Hsame.
  cbn [response_loop]. rewrite (sbind_ok _ _ _ w w) by reflexivity.
  destruct (pending_ (plane w) !! q) as [e|] eqn:Eq; [|exact Hsame].
  specialize (Hq q e Hne Eq) as Hd. unfold declines in Hd.
  destruct (pd_handshake e) as [h|] eqn:Eh; [|exact Hsame]. destruct (cookies e) as [holder|]; [|exact Hsame].
  destruct (constant_time_equal _ _) eqn:Em; cbn [negb]; [|exact Hsame]. destruct Hd as [Hd|Hd]; [discriminate Hd|].
  destruct (Hd i (contexts w) Hc) as [err Hf].
  destruct (read_response_fails env i q e h frame w err Hc (proj1 (Hst i)) Eq Eh Hf) as (c & Hcc & Er).
  rewrite (sbind_ok _ _ _ _ _ Er). by apply Hgo.
Qed.

(** A node whose initiation to [p] is under way, perhaps among others, which
    do not take the response in the datagram. *)
Record awaits (w : World) (env : Env) (p : Z) (e : Pending) (bytes : list Z) : Prop := {
  aw_ok : plane_ok w;
  aw_contexts : contexts_clean (contexts w);
  aw_sessions : table_size (table w) < kMaximumSessions;
  aw_entry : pending_ (plane w) !! p = Some e;
  aw_others : ∀ q e' frame, q ≠ p → pending_ (plane w) !! q = Some e' →
    parse_handshake_frame bytes = Ok frame → declines env frame e';
  aw_order : p ∈ pending_order env;
}.

Lemma awaits_admitted b l w env p e bytes : awaits w env p e bytes → awaits (admitted b l w) env p e bytes.
Proof. intros []. split; try done. by apply (same_core_ok w). Qed.
Lemma awaits_contexts c w env p e bytes : contexts_clean c → awaits w env p e bytes → awaits (with_contexts w c) env p e bytes.
Proof. intros Hc []. split; try done. by apply (same_core_ok w). Qed.

(** The turn of the loop at the handshake the response belongs to. *)
Lemma response_loop_takes env i rest source frame w p e m eph local cfg issuer eph' ee se id timestamp bytes :
  awaits w env p e bytes → (∀ i, answered (status env i)) → 1 ≤ id < 2 ^ 16 →
  pd_handshake e = Some (waiting m eph local cfg) → cookies e = Some (new_holder (static_public cfg)) →
  length (public_key eph') = 32%nat →
  scalarmult (private_key eph) (public_key eph') = Some ee →
  scalarmult (private_key local) (public_key eph') = Some se →
  let m' := second_message m eph' ee se (preshared cfg) id timestamp in
  mac1_key_ issuer = mac1_key (static_public cfg) →
  noise_message frame = m'.1 → mac1_covered frame = frame_bytes response m'.1 →
  mac1 frame = issuer_mac1 issuer (frame_bytes response m'.1) →
  ∃ w' ptr, response_loop env i source frame (p :: rest) w = (w', Ok None) ∧
    (find_by_peer (table w') p).2 = Some ptr ∧
    heap w' !! ptr = Some (established env p (pd_local_key_id e) id
      (mkResult (split m'.2).1 (split m'.2).2 (hash_ m'.2) (static_public cfg)) source).
Proof.
  intros [Hw Hc Hs Hp _ _] Hst Hid Hh Hck He Hee Hse m' Hmk Hn Hcov Hmac.
  cbn [response_loop]. rewrite (sbind_ok _ _ _ w w) by reflexivity. rewrite Hp, Hh, Hck.
  pose proof (holder_mac_verifies issuer (static_public cfg) response m'.1 Hmk) as Hver.
  unfold verify_mac1 in Hver. rewrite Hcov, Hmac.
  assert (constant_time_equal (holder_mac1 (new_holder (static_public cfg)) (frame_bytes response m'.1))
    (issuer_mac1 issuer (frame_bytes response m'.1)) = true) as ->.
  { unfold issuer_mac1, holder_mac1, new_holder in *. cbn [holder_mac1_key_] in *. by rewrite Hmk in *. }
  cbn [negb]. set (payload := build_payload default_version 0 id timestamp).
  destruct (read_message_2_spec (status env i) (contexts w) m local eph (static_public cfg) (preshared cfg)
    (public_key eph') ee se payload (replicate kHandshakePayloadSize 0)) as (c & Hc' & E);
    [exact Hc|exact (Hst i)|exact He|exact Hee|exact Hse|
     unfold payload, kHandshakePayloadSize; rewrite length_build_payload, length_replicate; lia|].
  change (message_2 m (public_key eph') ee se (preshared cfg) payload) with m' in E.
  set (h' := mkHandshake initiator m'.2 local eph (static_public cfg) (public_key eph') (preshared cfg)
    true true false true false) in *.
  set (w1 := (put_pending p (with_handshake e h') (with_contexts w c)).1).
  assert (read_response env i p e (waiting m eph local cfg) frame w = (w1, Ok (Some (h', payload)))) as Er.
  { unfold read_response. rewrite Hn. unfold waiting. rewrite E. by rewrite drop_ge, app_nil_r. }
  rewrite (sbind_ok _ _ _ _ _ Er). rewrite result_finished by reflexivity.
  cbn [role_ h' symmetric_ remote_static_]. unfold payload. rewrite payload_key_id_spec by word_lia.
  rewrite (proj2 (Z.eqb_neq id kPreSessionKeyId)) by (unfold kPreSessionKeyId; lia).
  assert (plane_ok w1) as Hw1.
  { apply (replace_pending_ok (with_contexts w c) p e); [by apply (same_core_ok w)|done..]. }
  assert (pending_ (plane w1) !! p = Some (with_handshake e h')) as Hp1 by apply lookup_insert_eq.
  destruct (install_session_installs env w1 p (with_handshake e h') id
    (mkResult (split m'.2).1 (split m'.2).2 (hash_ m'.2) (static_public cfg)) source Hw1 Hp1 Hs)
    as (w2 & ptr & Ei & Hfind & Hheap).
  change (pd_local_key_id (with_handshake e h')) with (pd_local_key_id e) in Ei, Hheap.
  rewrite (sbind_ok _ _ _ _ _ Ei). unfold finish_handshake. do 3 (erewrite sbind_ok by reflexivity).
  do 2 eexists. split; [reflexivity|]. split; [exact Hfind|exact Hheap].
Qed.

(** The datagram of a response, at the node that waits for it. *)
Lemma response_completes env source now w p e m eph local cfg issuer eph' ee se id timestamp :
  let m' := second_message m eph' ee se (preshared cfg) id timestamp in
  awaits w env p e (answered_by issuer m'.1) → crypto_available env = true → (∀ i, answered (status env i)) →
  (limit source now w).2 = Ok tt → 1 ≤ id < 2 ^ 16 →
  pd_handshake e = Some (waiting m eph local cfg) → cookies e = Some (new_holder (static_public cfg)) →
  length (public_key eph') = 32%nat →
  scalarmult (private_key eph) (public_key eph') = Some ee →
  scalarmult (private_key local) (public_key eph') = Some se →
  mac1_key_ issuer = mac1_key (static_public cfg) →
  ∃ w' ptr, handle_datagram xc env source (answered_by issuer m'.1) now w = (w', Ok None) ∧
    (find_by_peer (table w') p).2 = Some ptr ∧
    heap w' !! ptr = Some (established env p (pd_local_key_id e) id
      (mkResult (split m'.2).1 (split m'.2).2 (hash_ m'.2) (static_public cfg)) source).
Proof.
  intros m' Haw Hav Hst Hlim Hid Hh Hck He Hee Hse Hmk.
  assert (length m'.1 = 64%nat) as Hm'.
  { unfold m', second_message. rewrite length_message_2 by exact He. by rewrite length_build_payload. }
  destruct (handle_admitted env source (answered_by issuer m'.1) now w Hav Hlim) as (b & l & ->).
  destruct (answered_frame issuer m'.1) as (covered & Ef).
  { split; [done|]. unfold kMaximumHandshakePayload, blen. lia. }
  { apply length_keyed_mac. rewrite Hmk. unfold mac1_key. rewrite length_hash_label. lia. }
  rewrite Ef. cbn [recast]. erewrite sbind_ok by reflexivity. cbn [fv_message].
  match goal with |- context [handle_response _ _ ?fr _] => set (frame := fr) in * end.
  apply (awaits_admitted b l) in Haw. unfold handle_response. cbn [has_macs frame negb].
  destruct (response_loop_skip env source frame p _ (aw_order _ _ _ _ _ Haw) Hst 0 (admitted b l w) (aw_contexts _ _ _ _ _ Haw))
    as (i & rest & c & Hc & ->).
  { intros q e' Hne Hq. exact (aw_others _ _ _ _ _ Haw q e' frame Hne Hq Ef). }
  apply (awaits_contexts c) in Haw; [|done].
  exact (response_loop_takes env i rest source frame _ p e m eph local cfg issuer eph' ee se id timestamp _ Haw Hst Hid Hh Hck
    He Hee Hse Hmk eq_refl eq_refl eq_refl).
Qed.

(** The datagram of an initiation, at the node that answers it. *)
Lemma initiation_answered env source now w p cfg local eph eph' es ss ee se id timestamp :
  answers env w local p cfg timestamp → drawn env eph' → is_u64 timestamp → 1 ≤ id < 2 ^ 16 →
  valid_pair eph → valid_pair local → (limit source now w).2 = Ok tt →
  let remote := public_key (local_static_ (plane w)) in
  scalarmult (private_key eph) remote = Some es → scalarmult (private_key local) remote = Some ss →
  scalarmult (private_key eph) (public_key eph') = Some ee →
  scalarmult (private_key local) (public_key eph') = Some se →
  let m := first_message remote eph local es ss id timestamp in
  ∃ w' id', 1 ≤ id' < 2 ^ 16 ∧
    let m' := second_message m.2 eph' ee se (preshared cfg) id' (handshake_timestamp env) in
    handle_datagram xc env source (stamped init (new_holder remote) m.1) now w =
      (w', Ok (Some (mkOutgoing source (answered_by (issuer_ (plane w)) m'.1)))) ∧
    provisional_ (plane w') !! id' = Some (mkProvisional p id' id
      (mkResult (split m'.2).2 (split m'.2).1 (hash_ m'.2) (public_key local)) source now).
Proof.
  intros Han Hd Hts Hid Hve Hvl Hlim remote Hes Hss Hee Hse m.
  pose proof (drawn_valid env eph' Hd) as Hv'. pose proof (rd_static _ (an_ready _ _ _ _ _ _ Han)) as Hvw.
  assert (length m.1 = 112%nat) as Hm.
  { unfold m, first_message. by rewrite length_message_1 by (by apply length_public). }
  destruct (handle_admitted env source (stamped init (new_holder remote) m.1) now w (dr_available _ _ Hd) Hlim) as (b & l & ->).
  rewrite stamped_frame by (split; [done|unfold kMaximumHandshakePayload, blen; lia]).
  cbn [recast]. erewrite sbind_ok by reflexivity. cbn [fv_message].
  match goal with |- context [handle_initiation _ _ _ ?fr _ _] => set (frame := fr) end.
  destruct (handle_initiation_spec env source frame now (admitted b l w) p cfg local eph eph' es ss ee se id timestamp)
    as (w' & id' & Hid' & E & Hprov & _);
    [by apply answers_admitted|done|done|done|by apply length_public|by apply length_public
    |exact (shared_agrees _ _ _ Hve Hvw Hes)|exact (shared_agrees _ _ _ Hvl Hvw Hss)
    |exact (shared_agrees _ _ _ Hve Hv' Hee)|exact (shared_agrees _ _ _ Hvl Hv' Hse)|reflexivity|reflexivity
    |apply holder_mac_verifies, Han|].
  exists w', id'. split; [done|]. split; [exact E|exact Hprov].
Qed.

End exchange.

(** C22. Two nodes that know each other's keys establish a session.  Node A
    dials node B; B, not under load and past its rate limits, answers A's
    datagram and keeps a provisional session; whenever that answer reaches A
    while its handshake is still pending, A installs a session, however many
    handshakes with other peers are under way: the loop of [handle_response]
    passes over them and finds the one that was answered.  Of the others it is
    asked that they decline the answer, that is that it carries another first
    MAC than under their peer's key or fails to decrypt in them.  The session
    and the provisional one name each other's key ids and peers, and each sends
    with the key the other receives with.  Both nodes are well formed and have
    room for the handshake, and the primitives succeed. *)
Theorem handshake_establishes {heap_functions : HeapFunctions} `{AeadLaws} `{DhLaws} (xc : CookieCipher)
    wa wb envA envB pA pB cfgA cfgB dest ephA ephB es ss ee se nowA nowB srcA :
  ready wa → peers_ (plane wa) !! pB = Some cfgB → dial_endpoint (plane wa) pB = Some dest → drawn envA ephA →
  static_public cfgB = public_key (local_static_ (plane wb)) → preshared cfgB = preshared cfgA →
  forallb (λ b, b =? 0) (static_public cfgB) = false →
  answers envB wb (local_static_ (plane wa)) pA cfgA (handshake_timestamp envA) →
  drawn envB ephB → (limit srcA nowB wb).2 = Ok tt →
  scalarmult (private_key ephA) (static_public cfgB) = Some es →
  scalarmult (private_key (local_static_ (plane wa))) (static_public cfgB) = Some ss →
  scalarmult (private_key ephA) (public_key ephB) = Some ee →
  scalarmult (private_key (local_static_ (plane wa))) (public_key ephB) = Some se →
  ∃ wa1 out1 wb1 out2 e idB a b hash,
    start_handshake envA pB nowA wa = (wa1, Ok out1) ∧ destination out1 = dest ∧
    pending_ (plane wa1) !! pB = Some e ∧
    handle_datagram xc envB srcA (datagram out1) nowB wb = (wb1, Ok (Some out2)) ∧ destination out2 = srcA ∧
    provisional_ (plane wb1) !! idB =
      Some (mkProvisional pA idB (pd_local_key_id e) (mkResult b a hash (public_key (local_static_ (plane wa)))) srcA nowB) ∧
    ∀ wa2 envA2 srcB nowA2, awaits wa2 envA2 pB e (datagram out2) → crypto_available envA2 = true →
      (∀ i, answered (status envA2 i)) → (limit srcB nowA2 wa2).2 = Ok tt →
      ∃ wa3 ptr, handle_datagram xc envA2 srcB (datagram out2) nowA2 wa2 = (wa3, Ok None) ∧
        (find_by_peer (table wa3) pB).2 = Some ptr ∧
        heap wa3 !! ptr =
          Some (established envA2 pB (pd_local_key_id e) idB (mkResult a b hash (static_public cfgB)) srcB).
Proof.
  intros Hra HcfgB Hdial HdA Hst Hpsk Hnz Han HdB Hlim Hes Hss Hee Hse.
  destruct (start_handshake_spec envA nowA wa pB cfgB dest ephA es ss)
    as (wa1 & idA & e & HidA & Ea & Hpend & Hh & Hck & Hide & _ & _); [by apply ready_room|done..|].
  pose proof (drawn_valid envA ephA HdA) as HvA. rewrite Hst in Hes, Hss.
  destruct (initiation_answered xc envB srcA nowB wb pA cfgA (local_static_ (plane wa)) ephA ephB es ss ee se idA
    (handshake_timestamp envA)) as (wb1 & idB & HidB & Eb & Hprov); [done|done|apply u64_range|done|done|apply Hra|done..|].
  rewrite <- Hst in Eb, Hprov. rewrite <- Hpsk in Eb, Hprov. cbv zeta in *.
  set (m := first_message _ _ _ _ _ _ _) in *. set (m' := second_message _ _ _ _ _ _ _) in *.
  exists wa1, (mkOutgoing dest (stamped init (new_holder (static_public cfgB)) m.1)), wb1,
    (mkOutgoing srcA (answered_by (issuer_ (plane wb)) m'.1)), e, idB, (split m'.2).1, (split m'.2).2, (hash_ m'.2).
  split; [exact Ea|]. split; [reflexivity|]. split; [rewrite Hpend; apply lookup_insert_eq|].
  split; [exact Eb|]. split; [reflexivity|]. split; [rewrite Hide; exact Hprov|].
  intros wa2 envA2 srcB nowA2 Haw Hav Hans Hlim2.
  cbn [datagram] in *. pose proof (an_mac _ _ _ _ _ _ Han) as Hmk. rewrite <- Hst in Hmk.
  exact (response_completes xc envA2 srcB nowA2 wa2 pB e m.2 ephA (local_static_ (plane wa)) cfgB (issuer_ (plane wb)) ephB ee se
    idB (handshake_timestamp envB) Haw Hav Hans Hlim2 HidB Hh Hck (drawn_length _ _ HdB) Hee Hse Hmk).
Qed.

(** ** Two nodes with toy ciphers *)

Section sample.
#[local] Existing Instances sorting_heap toy_aead toy_laws toy_dh toy_dh_laws.

Definition dialling : World := (add_peer sample_peer (new_world (toy_pair 3) (new_contexts true))).1.
Definition listening : World :=
  (add_peer (mkPeer 3 (public_key (toy_pair 3)) (replicate 32 7) None) (new_world (toy_pair 5) (new_contexts true))).1.
Definition listening_env : Env :=
  mkEnv true 200 22345 true [11; 1] (λ _, all_well) (λ _, None) None false [] [3] [].

Lemma sample_ready k c p : plane_ok (new_world k c) → valid_pair k → contexts_clean c → pc_id p ≠ kNoPeer →
  ready (add_peer p (new_world k c)).1.
Proof.
  intros Hw Hk Hc Hp. assert (plane_ok (add_peer p (new_world k c)).1) as Hok.
  { apply keeps_after; [apply add_peer_keeps|exact Hw]. }
  unfold add_peer in *. rewrite (sbind_ok _ _ _ (new_world k c) tt) in *
    by (unfold check; by rewrite (proj2 (Z.eqb_neq _ _) Hp)).
  split; done.
Qed.

(** A node that dials a second peer while a handshake with another is pending. *)
Definition other_peer : PeerConfig := mkPeer 6 (public_key (toy_pair 6)) (replicate 32 7) (Some sample_source).
Definition two_peers : World := (add_peer other_peer dialling).1.
Definition busy : World := (start_handshake sample_env 6 900 two_peers).1.
Definition calling : World := (start_handshake sample_env 5 1000 busy).1.
Definition waiting_env : Env :=
  mkEnv true 300 32345 true [13; 1] (λ _, all_well) (λ _, None) None false [6; 5] [] [].

Definition sent_by (r : res ControlError OutgoingHandshake) : list Z := match r with Ok out => datagram out | _ => [] end.
Definition answered_with (r : res ControlError (option OutgoingHandshake)) : list Z :=
  match r with Ok (Some out) => datagram out | _ => [] end.
Definition call : list Z := sent_by (start_handshake sample_env 5 1000 busy).2.
Definition reply : list Z :=
  answered_with (handle_datagram sample_cipher listening_env sample_source call 2000 listening).2.

Lemma sample_drawn : drawn sample_env (toy_pair 9).
Proof. split; [reflexivity|by split|reflexivity]. Qed.

Lemma two_peers_ready : ready two_peers.
Proof.
  assert (plane_ok two_peers) as Hok.
  { apply keeps_after; [apply add_peer_keeps|]. apply keeps_after; [apply add_peer_keeps|apply new_world_ok]. }
  split; [exact Hok|apply new_contexts_for|reflexivity|vm_compute; first [reflexivity|discriminate]..].
Qed.

Lemma busy_ready : ready busy ∧ ∃ e, pending_ (plane busy) = <[6 := e]> ∅ ∧ cookies e = Some (new_holder (public_key (toy_pair 6))).
Proof.
  destruct (start_handshake_spec sample_env 900 two_peers 6 other_peer sample_source (toy_pair 9) (toy_secret 9 6) (toy_secret 3 6))
    as (w & id & e & _ & E & Hp & _ & Hck & _ & Hc & _ & _ & _);
    [apply ready_room, two_peers_ready|reflexivity|reflexivity|apply sample_drawn|reflexivity|reflexivity|reflexivity|].
  assert (w = busy) as -> by (symmetry; exact (f_equal fst E)). split; [|exists e; split; [exact Hp|exact Hck]].
  split; [|exact Hc|vm_compute; first [reflexivity|discriminate]..].
  apply keeps_after; [apply start_handshake_keeps|apply two_peers_ready].
Qed.

Lemma calling_awaits e : pending_ (plane calling) !! 5 = Some e → awaits calling waiting_env 5 e reply.
Proof.
  intros He. destruct busy_ready as [Hb (e6 & Hp6 & Hck6)].
  destruct (start_handshake_spec sample_env 1000 busy 5 sample_peer sample_source (toy_pair 9) (toy_secret 9 5) (toy_secret 3 5))
    as (w & id & e5 & _ & E & Hp & _ & _ & _ & Hc & _ & _ & _);
    [by apply ready_room|vm_compute; reflexivity|vm_compute; reflexivity|apply sample_drawn|reflexivity|reflexivity|vm_compute; reflexivity|].
  assert (w = calling) as -> by (symmetry; exact (f_equal fst E)).
  split; [apply keeps_after; [apply start_handshake_keeps|apply Hb]|exact Hc|vm_compute; reflexivity|exact He| |right; left].
  intros q e' frame Hne Hq Hf. rewrite Hp, Hp6, lookup_insert_ne in Hq by done.
  apply lookup_insert_Some in Hq as [[<- <-]|[_ Hq]]; [|discriminate Hq].
  unfold declines. destruct (pd_handshake e6); [|exact I]. rewrite Hck6. left.
  assert (match parse_handshake_frame reply with
          | Ok frame => constant_time_equal (holder_mac1 (new_holder (public_key (toy_pair 6))) (mac1_covered frame)) (mac1 frame)
          | _ => true end = false) as Hn by (vm_compute; reflexivity).
  rewrite Hf in Hn. exact Hn.
Qed.

Lemma handshake_establishes_witness : ∃ wb1 out2 wa3 ptr,
  is_Some (pending_ (plane calling) !! 6) ∧
  handle_datagram sample_cipher listening_env sample_source call 2000 listening = (wb1, Ok (Some out2)) ∧
  handle_datagram sample_cipher waiting_env sample_source (datagram out2) 3000 calling = (wa3, Ok None) ∧
  (find_by_peer (table wa3) 5).2 = Some ptr.
Proof.
  destruct (handshake_establishes sample_cipher busy listening sample_env listening_env 3 5
    (mkPeer 3 (public_key (toy_pair 3)) (replicate 32 7) None) sample_peer sample_source (toy_pair 9) (toy_pair 11)
    (toy_secret 9 5) (toy_secret 3 5) (toy_secret 9 11) (toy_secret 3 11) 1000 2000 sample_source)
    as (wa1 & out1 & wb1 & out2 & e & idB & a & b & hash & E1 & _ & He & E2 & _ & _ & Hlast).
  - apply busy_ready.
  - vm_compute. reflexivity.
  - vm_compute. reflexivity.
  - apply sample_drawn.
  - reflexivity.
  - reflexivity.
  - reflexivity.
  - split; [apply sample_ready; [apply new_world_ok|done|apply new_contexts_for|done]|reflexivity..].
  - split; [reflexivity|by split|reflexivity].
  - vm_compute. reflexivity.
  - reflexivity.
  - vm_compute. reflexivity.
  - reflexivity.
  - vm_compute. reflexivity.
  - assert (wa1 = calling) as Hw by (symmetry; exact (f_equal fst E1)). assert (datagram out1 = call) as Hd
      by (symmetry; exact (f_equal (λ x, sent_by x.2) E1)). rewrite Hw in He. rewrite Hd in E2.
    assert (datagram out2 = reply) as Hd2 by (symmetry; exact (f_equal (λ x, answered_with x.2) E2)).
    destruct (Hlast calling waiting_env sample_source 3000) as (wa3 & ptr & E3 & Hfind & _).
    + rewrite Hd2. exact (calling_awaits e He).
    + reflexivity.
    + intros i. split; reflexivity.
    + vm_compute. reflexivity.
    + exists wb1, out2, wa3, ptr. split; [vm_compute; eexists; reflexivity|]. split; [exact E2|]. split; [exact E3|exact Hfind].
Defined.
End sample.
