(* ===== verification/ControlReplay.v ===== *)
(** Replayed initiations: the control plane answers an initiation only if its
    timestamp, the one in its encrypted payload, is newer than the last it
    accepted from the peer. *)

From S2P Require Import Prelude Packet Nonce Handshake Address Routing Timers RateLimit Blake2s Crypto Noise.
From S2P Require Import Session SessionTable Cookie ControlPlane ControlIds ControlExchange.

Section replay.
Context {heap_functions : HeapFunctions} {aead : Aead} {dh : Dh} (xc : CookieCipher).

(** No timestamp changes and no provisional session appears. *)
Definition quiet (w w' : World) : Prop :=
  greatest_timestamp_ (plane w') = greatest_timestamp_ (plane w) ∧
  provisional_ (plane w') ⊆ provisional_ (plane w).

#[local] Instance quiet_preorder : PreOrder quiet.
Proof.
  split; [by intros w|]. intros w1 w2 w3 [E1 S1] [E2 S2]. split; [congruence|by etransitivity].
Qed.

(** The same for the world next to an entry. *)
Definition quiet_entry (s s' : World * Pending) : Prop := quiet s.1 s'.1.
#[local] Instance quiet_entry_preorder : PreOrder quiet_entry.
Proof. split; [by intros s|]. intros s1 s2 s3. apply quiet_preorder. Qed.

Lemma on_plane_quiet (f : ControlPlane → ControlPlane) :
  (∀ c, greatest_timestamp_ (f c) = greatest_timestamp_ c ∧ provisional_ (f c) ⊆ provisional_ c) →
  respects (E:=ControlError) quiet (modify (on_plane f)).
Proof. intros Hf. apply respects_modify. intros w. apply Hf. Qed.

Lemma count_quiet k : respects quiet (count k).
Proof. by apply on_plane_quiet. Qed.
Lemma schedule_quiet k s d : respects quiet (schedule_timer k s d).
Proof. intros w. unfold schedule_timer. by destruct (schedule _ _ _ _). Qed.
Lemma noise_call_quiet {A} e (m : Noise.step A) h : respects quiet (noise_call e m h).
Proof. intros w. unfold noise_call. by destruct (m (contexts w, h)) as [[c' h'] r]. Qed.
Lemma outer_quiet {A} (m : ctl A) : respects quiet m → respects quiet_entry (outer m).
Proof. intros Hm s. specialize (Hm s.1). unfold outer. by destruct (m s.1). Qed.
Lemma allocate_quiet : respects quiet allocate_key_id.
Proof.
  intros w. destruct (allocate_frame (Z.to_nat (kMaximumPending * 2 + 2)) w) as [E _].
  unfold allocate_key_id. split; by rewrite E.
Qed.
Lemma put_session_quiet env p id s : respects quiet (put_session env p id s).
Proof. intros w. unfold put_session. by destruct (install _ _ _ _ _ _) as [[h t] r]. Qed.

Ltac quiet_step := lazymatch goal with
  | |- respects _ (sbind _ _) => apply respects_bind; [apply _| |intros ?]
  | |- respects _ (count _) => apply count_quiet
  | |- respects _ (schedule_timer _ _ _) => apply schedule_quiet
  | |- respects _ (noise_call _ _ _) => apply noise_call_quiet
  | |- respects _ allocate_key_id => apply allocate_quiet
  | |- respects _ (put_session _ _ _ _) => apply put_session_quiet
  | |- respects _ (sret _) => apply respects_ret, _
  | |- respects _ (lift _) => apply respects_lift, _
  | |- respects _ (gets _) => apply respects_gets, _
  | |- respects _ (check _ _) => apply respects_check, _
  | |- respects _ (otherwise _ _) => apply respects_otherwise; [apply _| |]
  | |- respects _ (outer _) => apply outer_quiet
  | |- respects quiet (modify (on_plane _)) => by apply on_plane_quiet
  | |- respects _ (modify _) => by apply respects_modify
  | |- respects _ (match _ with _ => _ end) => case_match
  end.
Ltac quiet_by tac := repeat first [tac | quiet_step].
Ltac quiet := quiet_by fail.
















(** What a peer's timestamp and provisional sessions do between two moments. *)
Record newer (p : Z) (w w' : World) : Prop := {
  nw_mono : ∀ t, greatest_timestamp_ (plane w) !! p = Some t →
    ∃ t', greatest_timestamp_ (plane w') !! p = Some t' ∧ t ≤ t';
  nw_fresh : ∀ id v, provisional_ (plane w') !! id = Some v → pv_peer v = p →
    provisional_ (plane w) !! id = Some v ∨
    ∃ t', greatest_timestamp_ (plane w') !! p = Some t' ∧ ∀ t, greatest_timestamp_ (plane w) !! p = Some t → t < t';
}.

#[export] Instance newer_preorder p : PreOrder (newer p).
Proof.
  split.
  - intros w. split; [|by left]. intros t Ht. exists t. split; [done|lia].
  - intros w1 w2 w3 [M1 F1] [M2 F2]. split.
    + intros t Ht. destruct (M1 t Ht) as (t1 & Ht1 & ?). destruct (M2 t1 Ht1) as (t2 & Ht2 & ?).
      exists t2. split; [done|lia].
    + intros id v Hv Hp. destruct (F2 id v Hv Hp) as [H2|(t2 & Ht2 & Hlt)].
      * destruct (F1 id v H2 Hp) as [|(t1 & Ht1 & Hlt)]; [by left|right].
        destruct (M2 t1 Ht1) as (t2 & Ht2 & ?). exists t2. split; [done|]. intros t Ht. specialize (Hlt t Ht). lia.
      * right. exists t2. split; [done|]. intros t Ht. destruct (M1 t Ht) as (t1 & Ht1 & ?). specialize (Hlt t1 Ht1). lia.
Qed.



(** Once the timestamp [t] is recorded, the rest adds sessions of that peer only. *)
Definition accepted_from (q t : Z) (w0 w : World) : Prop :=
  (∀ p, p ≠ q → greatest_timestamp_ (plane w) !! p = greatest_timestamp_ (plane w0) !! p) ∧
  (greatest_timestamp_ (plane w) !! q = Some t ∧
   ∀ t0, greatest_timestamp_ (plane w0) !! q = Some t0 → t0 < t) ∧
  (∀ id v, provisional_ (plane w) !! id = Some v → provisional_ (plane w0) !! id = Some v ∨ pv_peer v = q).




Definition still_accepted (q t : Z) (w0 w w' : World) : Prop := accepted_from q t w0 w → accepted_from q t w0 w'.
#[local] Instance still_accepted_preorder q t w0 : PreOrder (still_accepted q t w0).
Proof. unfold still_accepted. split; [by intros w ?|]. intros w1 w2 w3 H1 H2 H3. auto. Qed.



(** ** The timestamp of an initiation *)













Definition shrinks (w w' : World) : Prop := provisional_ (plane w') ⊆ provisional_ (plane w).
#[local] Instance shrinks_preorder : PreOrder shrinks.
Proof. unfold shrinks. split; [intros w; reflexivity|]. intros w1 w2 w3 H1 H2. by etransitivity. Qed.







End replay.


Section sample.
#[local] Existing Instances sorting_heap toy_aead toy_dh.



End sample.
