(* ===== verification/DnsFramer.v ===== *)
(** The DNS envelope of a datagram: [src/dns_framer.cpp].

    [name] is the wire form of a domain name.  The theorem shows that what
    [wrap] puts in a query or response [unwrap] takes out intact, with every
    access in bounds. *)

From Stdlib Require Import String.
From S2P Require Import Prelude Packet Fec Nonce Text.

Definition kDnsHeaderSize : nat := 12.
Definition kDnsQuestionTrailerSize : nat := 4.
Definition kDnsPayloadLengthSize : nat := 2.
Definition kDnsLabelMaxSize : nat := 63.
Definition kDnsTypeTxt : Z := 0x0010.
Definition kDnsClassIn : Z := 0x0001.
Definition kDnsFlagsQuery : Z := 0x0100.
Definition kDnsFlagsResponse : Z := 0x8180.
Definition kDefaultDomain : list Z := text "t.example.com".

Inductive DnsFramerError := payload_too_large | buffer_too_small | malformed.
Inductive DnsRole := client | server.

Record DnsFramer := mkFramer { role_ : DnsRole; qname_ : list Z; id_ : Z }.

Definition new_framer : DnsFramer := mkFramer client [] 0.

(** The loop of [encode_domain]: one turn per label, so [length domain + 2]
    turns are enough. *)
Fixpoint encode_loop (fuel : nat) (domain : list Z) (start : nat) (out : list Z) : list Z :=
  match fuel with
  | O => out
  | S fuel =>
      if Nat.leb start (length domain) then
        let dot := match find 46 domain start with Some dot => dot | None => length domain end in
        let n := (dot - start)%nat in
        let n := if Nat.ltb kDnsLabelMaxSize n then kDnsLabelMaxSize else n in
        let out := if Nat.ltb 0 n then out ++ [Z.of_nat n] ++ take n (drop start domain) else out in
        if Nat.eqb dot (length domain) then out else encode_loop fuel domain (dot + 1) out
      else out
  end.

Definition encode_domain (domain : list Z) : list Z :=
  encode_loop (length domain + 2) domain 0 [] ++ [0].

Definition configure (f : DnsFramer) (role : DnsRole) (domain : list Z) : DnsFramer :=
  mkFramer role (encode_domain (match domain with [] => kDefaultDomain | _ => domain end)) (id_ f).

Definition envelope_size (f : DnsFramer) : nat :=
  kDnsHeaderSize + length (qname_ f) + kDnsQuestionTrailerSize + kDnsPayloadLengthSize.

Definition max_payload (f : DnsFramer) (datagram_size : nat) : nat :=
  if Nat.ltb (envelope_size f) datagram_size then datagram_size - envelope_size f else 0.

Definition put_u16 {E} (out : list Z) (pos : nat) (value : Z) : res E (list Z) :=
  let* out := wr out pos (u8 (Z.shiftr value 8)) in
  wr out (pos + 1) (u8 (Z.land value 0xFF)).

Definition get_u16 {E} (b : list Z) (pos : nat) : res E Z :=
  let* x := rd b pos in
  let* y := rd b (pos + 1) in
  Ok (u16 (Z.lor (u32 (Z.shiftl x 8)) y)).

Definition wrap (f : DnsFramer) (payload out : list Z) : DnsFramer * res DnsFramerError (list Z * nat) :=
  if 0xFFFF <? blen payload then (f, Fail payload_too_large)
  else
    let total := (envelope_size f + length payload)%nat in
    if Nat.ltb (length out) total then (f, Fail buffer_too_small)
    else
      let flags := match role_ f with server => kDnsFlagsResponse | client => kDnsFlagsQuery end in
      let answers := match role_ f with server => 1 | client => 0 end in
      let id := u16 (id_ f + 1) in
      (mkFramer (role_ f) (qname_ f) id,
       let* out := put_u16 out 0 id in
       let* out := put_u16 out 2 flags in
       let* out := put_u16 out 4 1 in
       let* out := put_u16 out 6 answers in
       let* out := put_u16 out 8 0 in
       let* out := put_u16 out 10 0 in
       let pos := kDnsHeaderSize in
       let* out := blit out pos (qname_ f) in
       let pos := (pos + length (qname_ f))%nat in
       let* out := put_u16 out pos kDnsTypeTxt in
       let* out := put_u16 out (pos + 2) kDnsClassIn in
       let pos := (pos + kDnsQuestionTrailerSize)%nat in
       let* out := put_u16 out pos (u16 (blen payload)) in
       let pos := (pos + kDnsPayloadLengthSize)%nat in
       let* out := blit out pos payload in
       Ok (out, total)).

(** The loop over the labels of the question: the position after the root
    label, or [malformed] when there is none.  A turn moves at least one byte. *)
Fixpoint skip_name (fuel : nat) (wire : list Z) (pos : nat) : res DnsFramerError nat :=
  match fuel with
  | O => Fail malformed
  | S fuel =>
      if Nat.ltb pos (length wire) then
        let* label := rd wire pos in
        let pos := (pos + 1)%nat in
        if label =? 0 then Ok pos
        else
          let label := Z.to_nat label in
          throw malformed
            when Nat.ltb kDnsLabelMaxSize label || Nat.ltb (length wire) (pos + label) else
          skip_name fuel wire (pos + label)
      else Fail malformed
  end.

Definition unwrap (wire out : list Z) : res DnsFramerError (list Z * nat) :=
  throw malformed when Nat.ltb (length wire) kDnsHeaderSize else
  let* pos := skip_name (length wire) wire kDnsHeaderSize in
  throw malformed
    when Nat.ltb (length wire) (pos + kDnsQuestionTrailerSize + kDnsPayloadLengthSize) else
  let pos := (pos + kDnsQuestionTrailerSize)%nat in
  let* n := get_u16 wire pos in
  let n := Z.to_nat n in
  let pos := (pos + kDnsPayloadLengthSize)%nat in
  throw malformed when Nat.ltb (length wire) (pos + n) else
  throw buffer_too_small when Nat.ltb (length out) n else
  let* body := subspan wire pos n in
  let* out := blit out 0 body in
  Ok (out, n).

(** ** Names *)

(** The wire form of a name: labels of 1 to 63 bytes, then the root label. *)
Inductive name : list Z → Prop :=
| name_root : name [0]
| name_label l q : (1 ≤ length l ≤ 63)%nat → name q → name (Z.of_nat (length l) :: l ++ q).

(** Where a label ends. *)
Definition label_end (domain : list Z) (start : nat) : nat :=
  match find 46 domain start with Some dot => dot | None => length domain end.

Lemma find_from_bounds l : ∀ at_ d, find_from 46 l at_ = Some d → (at_ ≤ d < at_ + length l)%nat.
Proof.
  induction l as [|x l IH]; intros at_ d; cbn [find_from length]; [done|].
  destruct (x =? 46); [intros [= <-]; lia|]. intros Hd%IH. lia.
Qed.

Lemma label_end_bounds domain start : (start ≤ length domain)%nat →
  (start ≤ label_end domain start ≤ length domain)%nat.
Proof.
  intros Hs. unfold label_end, find. destruct (find_from 46 (drop start domain) start) as [d|] eqn:E; [|lia].
  apply find_from_bounds in E. rewrite length_drop in E. lia.
Qed.

(** The turns allotted are enough: more of them change nothing. *)
Lemma encode_loop_enough domain f : ∀ g start out, (length domain + 1 - start < f)%nat →
  (length domain + 1 - start < g)%nat → encode_loop f domain start out = encode_loop g domain start out.
Proof.
  induction f as [|f IH]; intros [|g] start out Hf Hg; try lia. cbn [encode_loop].
  destruct (Nat.leb_spec start (length domain)) as [Hs|]; [|done]. fold (label_end domain start).
  pose proof (label_end_bounds domain start Hs). destruct (Nat.eqb _ _); [done|]. apply IH; lia.
Qed.

Lemma encode_loop_name fuel domain : ∀ start out, (start ≤ length domain)%nat →
  ∃ q, encode_loop fuel domain start out ++ [0] = out ++ q ∧ name q.
Proof.
  induction fuel as [|fuel IH]; intros start out Hs; [exists [0]; split; [done|constructor]|].
  cbn [encode_loop]. destruct (Nat.leb_spec start (length domain)); [|lia].
  fold (label_end domain start). pose proof (label_end_bounds domain start Hs) as Hd.
  set (dot := label_end domain start) in *.
  set (n := if Nat.ltb kDnsLabelMaxSize (dot - start) then _ else _).
  assert (n ≤ 63 ∧ n ≤ length domain - start)%nat as Hn.
  { unfold n, kDnsLabelMaxSize. destruct (Nat.ltb_spec 63 (dot - start)); lia. }
  set (out' := if Nat.ltb 0 n then _ else out).
  assert (∀ tail, name tail → ∃ q, out' ++ tail = out ++ q ∧ name q) as Hout.
  { intros tail Ht. unfold out'. destruct (Nat.ltb_spec 0 n); [|by exists tail].
    assert (length (take n (drop start domain)) = n) as Hl by (rewrite length_take, length_drop; lia).
    exists (Z.of_nat n :: take n (drop start domain) ++ tail). rewrite <- !app_assoc. split; [done|].
    rewrite <- Hl at 1. constructor; [lia|done]. }
  destruct (Nat.eqb_spec dot (length domain)); [apply Hout; constructor|].
  destruct (IH (dot + 1)%nat out' ltac:(lia)) as (q & -> & Hq). by apply Hout.
Qed.

Lemma encode_domain_name domain : name (encode_domain domain).
Proof.
  destruct (encode_loop_name (length domain + 2) domain 0 [] ltac:(lia)) as (q & E & Hq). cbn [app] in E.
  unfold encode_domain. by rewrite E.
Qed.

(** The turns allotted to the loop are enough. *)
Lemma skip_name_enough wire f : ∀ g pos, (length wire - pos < f)%nat → (length wire - pos < g)%nat →
  skip_name f wire pos = skip_name g wire pos.
Proof.
  induction f as [|f IH]; intros [|g] pos Hf Hg; try lia. cbn [skip_name].
  destruct (Nat.ltb_spec pos (length wire)) as [Hlt|]; [|done].
  destruct (rd wire pos) as [b| |]; [|done..]. cbn [rbind]. destruct (b =? 0); [done|].
  unfold guard. destruct (_ || _); [done|]. apply IH; lia.
Qed.

Lemma skip_name_spec q : name q → ∀ pre post fuel, (length q ≤ fuel)%nat →
  skip_name fuel (pre ++ q ++ post) (length pre) = Ok (length pre + length q)%nat.
Proof.
  induction 1 as [|l q Hl Hq IH]; intros pre post fuel Hf; (destruct fuel as [|fuel]; [simpl in Hf; lia|]);
    cbn [skip_name];
    match goal with |- context [Nat.ltb (length pre) ?n] => destruct (Nat.ltb_spec (length pre) n) end;
    try (rewrite !length_app in *; simpl in *; lia).
  - rewrite (rd_ok _ _ 0) by (by apply list_lookup_middle). cbn. done.
  - rewrite (rd_ok _ _ (Z.of_nat (length l))) by (by apply list_lookup_middle). cbn [rbind].
    destruct (Z.eqb_spec (Z.of_nat (length l)) 0); [lia|]. rewrite Nat2Z.id.
    unfold guard. destruct (Nat.ltb_spec kDnsLabelMaxSize (length l)); [unfold kDnsLabelMaxSize in *; lia|].
    destruct (Nat.ltb_spec (length (pre ++ (Z.of_nat (length l) :: l ++ q) ++ post)) (length pre + 1 + length l)).
    { rewrite !length_app in *. cbn [length] in *. rewrite length_app in *. lia. }
    cbn [orb]. replace (pre ++ (Z.of_nat (length l) :: l ++ q) ++ post)
      with ((pre ++ Z.of_nat (length l) :: l) ++ q ++ post) by (by rewrite <- !app_assoc; cbn; rewrite <- app_assoc).
    replace (length pre + 1 + length l)%nat with (length (pre ++ Z.of_nat (length l) :: l))
      by (rewrite length_app; simpl; lia).
    rewrite IH by (cbn [length] in Hf; rewrite length_app in Hf; lia).
    f_equal. rewrite length_app. cbn [length]. rewrite length_app. lia.
Qed.

(** ** The envelope *)

Definition dns_header (f : DnsFramer) : list Z :=
  be_bytes 2 (u16 (id_ f + 1)) ++
  be_bytes 2 (match role_ f with server => kDnsFlagsResponse | client => kDnsFlagsQuery end) ++
  be_bytes 2 1 ++ be_bytes 2 (match role_ f with server => 1 | client => 0 end) ++
  be_bytes 2 0 ++ be_bytes 2 0.

Definition dns_message (f : DnsFramer) (payload : list Z) : list Z :=
  dns_header f ++ qname_ f ++ be_bytes 2 kDnsTypeTxt ++ be_bytes 2 kDnsClassIn ++
  be_bytes 2 (u16 (blen payload)) ++ payload.

Lemma put_u16_next {E} pre post pos v : pos = length pre → (2 ≤ length post)%nat →
  put_u16 (E:=E) (pre ++ post) pos v = Ok ((pre ++ be_bytes 2 v) ++ drop 2 post).
Proof.
  intros Hp Hl. rewrite <- (write_u16_next (E:=E) pre post pos v Hp Hl). unfold put_u16, write_u16.
  by rewrite land_255.
Qed.

Lemma length_dns_header f : length (dns_header f) = 12%nat.
Proof. done. Qed.

Lemma length_dns_message f payload : length (dns_message f payload) = (envelope_size f + length payload)%nat.
Proof.
  unfold dns_message, envelope_size, kDnsHeaderSize, kDnsQuestionTrailerSize, kDnsPayloadLengthSize.
  rewrite !length_app, length_dns_header, !length_be_bytes. lia.
Qed.

Lemma dns_wrap_spec f payload out : blen payload ≤ 0xFFFF →
  (envelope_size f + length payload ≤ length out)%nat →
  (wrap f payload out).2 =
  Ok (dns_message f payload ++ drop (envelope_size f + length payload) out,
      (envelope_size f + length payload)%nat).
Proof.
  intros Hp Ho. unfold wrap. rewrite (proj2 (Z.ltb_ge _ _) Hp).
  destruct (Nat.ltb_spec (length out) (envelope_size f + length payload)); [lia|]. cbn [snd].
  unfold dns_message, dns_header, envelope_size, kDnsHeaderSize, kDnsQuestionTrailerSize, kDnsPayloadLengthSize in *.
  change out with ([] ++ out) at 1.
  do 6 (rewrite put_u16_next by (rewrite ?length_app, ?length_drop, ?length_be_bytes; simpl; lia); cbn [rbind]).
  rewrite blit_next by (rewrite ?length_app, ?length_drop, ?length_be_bytes; simpl; lia). cbn [rbind].
  do 3 (rewrite put_u16_next by (rewrite ?length_app, ?length_drop, ?length_be_bytes; simpl; lia); cbn [rbind]).
  rewrite blit_next by (rewrite ?length_app, ?length_drop, ?length_be_bytes; simpl; lia). cbn [rbind].
  do 2 f_equal. rewrite !drop_drop, <- !app_assoc. cbn [app]. do 12 f_equal. lia.
Qed.

Lemma get_u16_be {E} b pos v rest : drop pos b = be_bytes 2 v ++ rest → is_u16 v → get_u16 (E:=E) b pos = Ok v.
Proof.
  intros Hd Hv. change (get_u16 b pos) with (read_u16 (E:=E) b pos). cbn [be_bytes app] in Hd.
  rewrite (read_u16_spec _ _ _ _ _ Hd) by auto with norr. f_equal. by be_fold 2%nat v.
Qed.

Lemma unwrap_spec f payload post out : name (qname_ f) → blen payload ≤ 0xFFFF →
  (length payload ≤ length out)%nat →
  unwrap (dns_message f payload ++ post) out =
  Ok (payload ++ drop (length payload) out, length payload).
Proof.
  intros Hq Hp Ho. assert (is_u16 (blen payload)) as Hu by (pose proof (blen_nonneg payload); word_lia).
  unfold unwrap, guard. set (wire := dns_message f payload ++ post).
  assert (length wire = envelope_size f + length payload + length post)%nat as Hw
    by (unfold wire; rewrite length_app, length_dns_message; lia).
  unfold envelope_size, kDnsHeaderSize, kDnsQuestionTrailerSize, kDnsPayloadLengthSize in *.
  destruct (Nat.ltb_spec (length wire) 12); [lia|].
  assert (skip_name (length wire) wire 12 = Ok (12 + length (qname_ f))%nat) as ->.
  { unfold wire, dns_message. rewrite <- !app_assoc, <- (length_dns_header f).
    apply skip_name_spec; [done|]. rewrite !length_app. lia. }
  cbn [rbind]. destruct (Nat.ltb_spec (length wire) (12 + length (qname_ f) + 4 + 2)); [lia|].
  set (front := dns_header f ++ qname_ f ++ be_bytes 2 kDnsTypeTxt ++ be_bytes 2 kDnsClassIn).
  assert (wire = front ++ be_bytes 2 (blen payload) ++ payload ++ post) as Ew.
  { unfold wire, dns_message, front. rewrite <- !app_assoc. by rewrite u16_id. }
  assert (length front = 12 + length (qname_ f) + 4)%nat as Hf.
  { unfold front. rewrite !length_app, length_dns_header, !length_be_bytes. lia. }
  rewrite (get_u16_be _ _ (blen payload) (payload ++ post)); [|by rewrite Ew, <- Hf, drop_app_length|done].
  cbn [rbind]. unfold blen in *. rewrite Nat2Z.id.
  destruct (Nat.ltb_spec (length wire) (12 + length (qname_ f) + 4 + 2 + length payload)); [lia|].
  destruct (Nat.ltb_spec (length out) (length payload)); [lia|].
  rewrite subspan_ok by lia. cbn [rbind].
  assert (take (length payload) (drop (12 + length (qname_ f) + 4 + 2) wire) = payload) as ->.
  { rewrite Ew, app_assoc, drop_app_length' by (rewrite length_app, length_be_bytes; lia). apply take_app_length. }
  by rewrite blit_ok.
Qed.

Lemma skip_name_no_ub fuel wire : ∀ pos, no_ub (skip_name fuel wire pos) ∧
  ∀ r, skip_name fuel wire pos = Ok r → (r ≤ length wire)%nat.
Proof.
  induction fuel as [|fuel IH]; intros pos; [done|]. cbn [skip_name].
  destruct (Nat.ltb_spec pos (length wire)) as [Hlt|]; [|done].
  destruct (lookup_lt_is_Some_2 wire pos Hlt) as [b Hb]. rewrite (rd_ok _ _ _ Hb). cbn [rbind].
  destruct (b =? 0); [split; [done|]; intros r [= <-]; lia|].
  unfold guard. destruct (_ || _); [done|]. apply IH.
Qed.

Lemma unwrap_no_ub wire out : no_ub (unwrap wire out).
Proof.
  unfold unwrap, guard. destruct (Nat.ltb _ _); [done|].
  destruct (skip_name_no_ub (length wire) wire kDnsHeaderSize) as [Hn Hr].
  destruct (skip_name _ _ _) as [pos| |]; [|done..]. cbn [rbind]. specialize (Hr pos eq_refl).
  unfold kDnsQuestionTrailerSize, kDnsPayloadLengthSize.
  destruct (Nat.ltb_spec (length wire) (pos + 4 + 2)); [done|]. unfold get_u16, rd.
  destruct (lookup_lt_is_Some_2 wire (pos + 4)) as [x ->]; [lia|]. cbn [rbind].
  destruct (lookup_lt_is_Some_2 wire (pos + 4 + 1)) as [y ->]; [lia|]. cbn [rbind].
  set (n := Z.to_nat _). destruct (Nat.ltb_spec (length wire) (pos + 4 + 2 + n)); [done|].
  destruct (Nat.ltb_spec (length out) n); [done|]. rewrite subspan_ok by lia. cbn [rbind].
  rewrite blit_ok by (rewrite length_take, length_drop; lia). done.
Qed.

(** For every role and domain, a payload of at most 65535 bytes that fits
    the buffer is wrapped in a message of exactly [envelope_size] bytes more,
    whose question holds a well-formed name; unwrapping that message, also
    with bytes after it, returns the payload; and [unwrap] reads within the
    datagram on every input. *)
Lemma dns_envelope_roundtrip f role domain payload out out' trailing :
  let g := configure f role domain in
  blen payload ≤ 0xFFFF → (envelope_size g + length payload ≤ length out)%nat →
  (length payload ≤ length out')%nat →
  ∃ wire total, (wrap g payload out).2 = Ok (wire, total) ∧
    total = (envelope_size g + length payload)%nat ∧
    unwrap (take total wire ++ trailing) out' =
      Ok (payload ++ drop (length payload) out', length payload) ∧
    ∀ any buffer, no_ub (unwrap any buffer).
Proof.
  intros g Hp Ho Ho'. rewrite dns_wrap_spec by done. do 2 eexists. split; [done|]. split; [done|].
  split; [|intros; apply unwrap_no_ub]. rewrite take_app_length' by (by rewrite length_dns_message).
  apply unwrap_spec; [apply encode_domain_name|done..].
Qed.

