(* ===== verification/SshFramer.v ===== *)
(** The SSH envelope of a stream frame: [src/ssh_framer.cpp].

    A record is the packet length, the padding length, the payload and 4 to 11
    bytes of padding that fill it to a multiple of eight.  [g_pad_state], the
    generator of the padding, is passed along.  The theorem is the round trip
    through a stream: a record is taken from the front of the bytes received
    and never before all of it is there. *)

From S2P Require Import Prelude Packet Fec.

Definition kSshHeaderSize : nat := 5.
Definition kSshBlockSize : nat := 8.
Definition kSshMinPadding : nat := 4.
Definition kMaximumTcpFrame : Z := 65535.

Inductive SshFramerError := payload_too_large | buffer_too_small | malformed | incomplete.

(** [cheap_random_byte]: the new state and the byte. *)
Definition cheap_random_byte (state : Z) : Z * Z :=
  let state := u64 (state + 0x9E3779B97F4A7C15) in
  let value := u64 (Z.lxor state (Z.shiftr state 30) * 0xBF58476D1CE4E5B9) in
  let value := u64 (Z.lxor value (Z.shiftr value 27) * 0x94D049BB133111EB) in
  let value := Z.lxor value (Z.shiftr value 31) in
  (state, u8 (Z.land value 0xFF)).

Definition put_u32 {E} (out : list Z) (value : Z) : res E (list Z) :=
  let* out := wr out 0 (u8 (Z.land (Z.shiftr value 24) 0xFF)) in
  let* out := wr out 1 (u8 (Z.land (Z.shiftr value 16) 0xFF)) in
  let* out := wr out 2 (u8 (Z.land (Z.shiftr value 8) 0xFF)) in
  wr out 3 (u8 (Z.land value 0xFF)).

Definition get_u32 {E} (b : list Z) : res E Z :=
  let* x := rd b 0 in
  let* y := rd b 1 in
  let* z := rd b 2 in
  let* w := rd b 3 in
  Ok (Z.lor (Z.lor (Z.lor (u32 (Z.shiftl x 24)) (u32 (Z.shiftl y 16))) (u32 (Z.shiftl z 8))) w).

Definition padding_for (payload : nat) : nat :=
  let padding := (kSshBlockSize - Nat.modulo (kSshHeaderSize + payload) kSshBlockSize)%nat in
  if Nat.ltb padding kSshMinPadding then (padding + kSshBlockSize)%nat else padding.

Definition record_size (payload : nat) : nat := (4 + 1 + payload + padding_for payload)%nat.

(** The loop that fills [padding] bytes from [at_] on. *)
Fixpoint pad_loop {E} (padding : nat) (at_ : nat) (state : Z) (out : list Z) : res E (list Z * Z) :=
  match padding with
  | O => Ok (out, state)
  | S padding =>
      let '(state, b) := cheap_random_byte state in
      let* out := wr out at_ b in
      pad_loop padding (S at_) state out
  end.

(** The buffer, the generator and the number of bytes of the record. *)
Definition wrap (state : Z) (payload out : list Z) : res SshFramerError (list Z * Z * nat) :=
  throw payload_too_large when kMaximumTcpFrame <? blen payload else
  let padding := padding_for (length payload) in
  let packet_length := (1 + length payload + padding)%nat in
  let total := (4 + packet_length)%nat in
  throw buffer_too_small when Nat.ltb (length out) total else
  let* out := put_u32 out (u32 (Z.of_nat packet_length)) in
  let* out := wr out 4 (u8 (Z.of_nat padding)) in
  let* out := blit out kSshHeaderSize payload in
  let* r := pad_loop padding (kSshHeaderSize + length payload) state out in
  Ok (r, total).

(** The payload in [out], its length and [consumed]. *)
Definition unwrap (wire out : list Z) : res SshFramerError (list Z * nat * nat) :=
  throw incomplete when Nat.ltb (length wire) kSshHeaderSize else
  let* packet_length := get_u32 wire in
  let* padding := rd wire 4 in
  throw malformed
    when (packet_length <? 2) || (kMaximumTcpFrame + Z.of_nat kSshBlockSize + 1 <? packet_length) else
  throw malformed when (padding <? Z.of_nat kSshMinPadding) || (packet_length <? padding + 1) else
  let total := (4 + Z.to_nat packet_length)%nat in
  throw incomplete when Nat.ltb (length wire) total else
  let payload_length := (Z.to_nat packet_length - Z.to_nat padding - 1)%nat in
  throw buffer_too_small when Nat.ltb (length out) payload_length else
  let* body := subspan wire kSshHeaderSize payload_length in
  let* out := blit out 0 body in
  Ok (out, payload_length, total).

(** ** Padding *)

Lemma padding_range n : (4 ≤ padding_for n ≤ 11)%nat ∧ (record_size n `mod` 8 = 0)%nat.
Proof.
  unfold record_size, padding_for, kSshBlockSize, kSshHeaderSize, kSshMinPadding.
  pose proof (Nat.mod_upper_bound (5 + n) 8 ltac:(lia)) as Hm.
  pose proof (Nat.div_mod (5 + n) 8 ltac:(lia)) as Hd. set (r := ((5 + n) mod 8)%nat) in *.
  destruct (Nat.ltb_spec (8 - r) 4); (split; [lia|]); apply Nat.Div0.mod_divides.
  - exists ((5 + n) / 8 + 2)%nat. lia.
  - exists ((5 + n) / 8 + 1)%nat. lia.
Qed.

Fixpoint pad_bytes (n : nat) (state : Z) : list Z :=
  match n with
  | O => []
  | S n => (cheap_random_byte state).2 :: pad_bytes n (cheap_random_byte state).1
  end.

Lemma length_pad_bytes n : ∀ state, length (pad_bytes n state) = n.
Proof. induction n; intros state; [done|]. cbn [pad_bytes length]. by rewrite IHn. Qed.

Lemma wr_next {E} pre x post pos v : pos = length pre →
  wr (E:=E) (pre ++ x :: post) pos v = Ok ((pre ++ [v]) ++ post).
Proof.
  intros ->. rewrite wr_spec by (rewrite length_app; simpl; lia).
  rewrite take_app_length, <- app_assoc. do 3 f_equal. rewrite drop_app_ge by lia.
  by replace (S (length pre) - length pre)%nat with 1%nat by lia.
Qed.

Lemma pad_loop_spec {E} n : ∀ pre post state, (n ≤ length post)%nat →
  ∃ state', pad_loop (E:=E) n (length pre) state (pre ++ post) =
    Ok ((pre ++ pad_bytes n state) ++ drop n post, state').
Proof.
  induction n as [|n IH]; intros pre post state Hn.
  { exists state. cbn. by rewrite app_nil_r. }
  destruct post as [|x post]; [simpl in Hn; lia|]. cbn [pad_loop pad_bytes].
  destruct (cheap_random_byte state) as [state1 b]. cbn [fst snd]. rewrite wr_next by done. cbn [rbind].
  destruct (IH (pre ++ [b]) post state1) as [state' E1]; [simpl in Hn; lia|].
  rewrite length_app in E1. cbn [length] in E1. rewrite Nat.add_1_r in E1. exists state'. rewrite E1.
  by rewrite <- !app_assoc.
Qed.

Lemma put_u32_spec {E} out v : (4 ≤ length out)%nat → put_u32 (E:=E) out v = Ok (be_bytes 4 v ++ drop 4 out).
Proof. intros H. exact (write_u32_spec out 0 v H). Qed.

(** ** Records *)

Definition record_front (payload : list Z) : list Z :=
  be_bytes 4 (Z.of_nat (1 + length payload + padding_for (length payload))) ++
  [Z.of_nat (padding_for (length payload))] ++ payload.

Definition ssh_record (state : Z) (payload : list Z) : list Z :=
  record_front payload ++ pad_bytes (padding_for (length payload)) state.

Lemma length_record_front payload : length (record_front payload) = (5 + length payload)%nat.
Proof. unfold record_front. rewrite !length_app, length_be_bytes. simpl. lia. Qed.

Lemma length_ssh_record state payload : length (ssh_record state payload) = record_size (length payload).
Proof.
  unfold ssh_record, record_size. rewrite length_app, length_record_front, length_pad_bytes. lia.
Qed.

Lemma ssh_wrap_spec state payload out : blen payload ≤ kMaximumTcpFrame →
  (record_size (length payload) ≤ length out)%nat →
  ∃ state', wrap state payload out =
    Ok (ssh_record state payload ++ drop (record_size (length payload)) out, state',
        record_size (length payload)).
Proof.
  intros Hp Ho. unfold wrap, guard. rewrite (proj2 (Z.ltb_ge _ _) Hp).
  destruct (padding_range (length payload)) as [Hpad _]. unfold kMaximumTcpFrame, blen in Hp.
  unfold record_size in *. set (pd := padding_for (length payload)) in *.
  destruct (Nat.ltb_spec (length out) (4 + (1 + length payload + pd))); [lia|].
  rewrite put_u32_spec by lia. cbn [rbind]. rewrite u32_id, u8_id by word_lia.
  destruct (drop 4 out) as [|x post] eqn:Ed.
  { apply (f_equal length) in Ed. rewrite length_drop in Ed. simpl in Ed. lia. }
  assert (length post = length out - 5)%nat as Hl.
  { apply (f_equal length) in Ed. rewrite length_drop in Ed. simpl in Ed. lia. }
  rewrite wr_next by done. cbn [rbind].
  rewrite blit_next by (rewrite ?length_app, ?length_be_bytes; unfold kSshHeaderSize; simpl; lia). cbn [rbind].
  assert ((be_bytes 4 (Z.of_nat (1 + length payload + pd)) ++ [Z.of_nat pd]) ++ payload = record_front payload) as ->
    by (unfold record_front; by rewrite <- app_assoc).
  replace (kSshHeaderSize + length payload)%nat with (length (record_front payload))
    by (rewrite length_record_front; done).
  destruct (pad_loop_spec (E:=SshFramerError) pd (record_front payload) (drop (length payload) post) state)
    as [state' ->]; [rewrite length_drop; lia|].
  exists state'. cbn [rbind]. unfold ssh_record. fold pd.
  assert (post = drop 5 out) as -> by (change 5%nat with (4 + 1)%nat; by rewrite <- drop_drop, Ed).
  rewrite !drop_drop. replace (4 + (1 + length payload + pd))%nat with (4 + 1 + length payload + pd)%nat by lia.
  by replace (5 + length payload + pd)%nat with (4 + 1 + length payload + pd)%nat by lia.
Qed.

Lemma get_u32_be {E} v rest : is_u32 v → get_u32 (E:=E) (be_bytes 4 v ++ rest) = Ok v.
Proof.
  intros Hv. change (get_u32 (be_bytes 4 v ++ rest)) with (read_u32 (E:=E) (be_bytes 4 v ++ rest) 0).
  cbn [be_bytes app].
  rewrite (read_u32_spec _ 0 _ _ _ _ rest eq_refl) by auto with norr. f_equal. by be_fold 4%nat v.
Qed.

(** What the first five bytes of a record say, whatever follows them. *)
Lemma unwrap_front payload wire tail out : blen payload ≤ kMaximumTcpFrame →
  let pd := padding_for (length payload) in
  wire = be_bytes 4 (Z.of_nat (1 + length payload + pd)) ++ Z.of_nat pd :: tail →
  unwrap wire out =
    if Nat.ltb (length wire) (record_size (length payload)) then Fail incomplete
    else if Nat.ltb (length out) (length payload) then Fail buffer_too_small
    else let* body := subspan wire kSshHeaderSize (length payload) in
         let* out := blit out 0 body in
         Ok (out, length payload, record_size (length payload)).
Proof.
  intros Hp pd Ew. destruct (padding_range (length payload)) as [Hpad Hmod].
  apply Nat.Div0.mod_divides in Hmod as [k Hk]. unfold record_size in Hk.
  unfold kMaximumTcpFrame, blen in Hp. unfold unwrap, guard.
  assert (4 < length wire)%nat as Hlen by (rewrite Ew, length_app, length_be_bytes; simpl; lia).
  destruct (Nat.ltb_spec (length wire) kSshHeaderSize); [unfold kSshHeaderSize in *; lia|].
  rewrite Ew at 1. rewrite get_u32_be by word_lia. cbn [rbind].
  rewrite (rd_ok wire 4 (Z.of_nat pd)) by (rewrite Ew; apply list_lookup_middle; by rewrite length_be_bytes).
  cbn [rbind].
  repeat match goal with |- context [?a <? ?b] => rewrite (proj2 (Z.ltb_ge a b));
    [|unfold kMaximumTcpFrame, kSshBlockSize, kSshMinPadding, pd; lia] end.
  cbn [orb]. unfold record_size. fold pd. rewrite !Nat2Z.id.
  replace (4 + (1 + length payload + pd))%nat with (4 + 1 + length payload + pd)%nat by lia.
  replace (1 + length payload + pd - pd - 1)%nat with (length payload) by lia. done.
Qed.

Lemma ssh_record_front state payload rest :
  ssh_record state payload ++ rest =
  be_bytes 4 (Z.of_nat (1 + length payload + padding_for (length payload))) ++
  Z.of_nat (padding_for (length payload)) ::
  payload ++ pad_bytes (padding_for (length payload)) state ++ rest.
Proof. unfold ssh_record, record_front. by rewrite <- !app_assoc. Qed.

(** A stream that starts with a record yields its payload and loses exactly
    the record. *)
Lemma unwrap_record state payload rest out : blen payload ≤ kMaximumTcpFrame → (length payload ≤ length out)%nat →
  unwrap (ssh_record state payload ++ rest) out =
  Ok (payload ++ drop (length payload) out, length payload, record_size (length payload)).
Proof.
  intros Hp Ho. pose proof (length_ssh_record state payload) as Hr.
  rewrite (unwrap_front payload _ _ _ Hp (ssh_record_front _ _ _)).
  destruct (Nat.ltb_spec (length (ssh_record state payload ++ rest)) (record_size (length payload)));
    [rewrite length_app in *; lia|].
  destruct (Nat.ltb_spec (length out) (length payload)); [lia|].
  rewrite subspan_ok by (rewrite length_app, Hr; unfold record_size, kSshHeaderSize; lia). cbn [rbind].
  assert (take (length payload) (drop kSshHeaderSize (ssh_record state payload ++ rest)) = payload) as ->.
  { rewrite ssh_record_front. cbn [be_bytes app kSshHeaderSize drop]. apply take_app_length. }
  by rewrite blit_ok.
Qed.

(** While bytes of the record are missing it is incomplete. *)
Lemma unwrap_partial state payload n out : blen payload ≤ kMaximumTcpFrame → (n < record_size (length payload))%nat →
  unwrap (take n (ssh_record state payload)) out = Fail incomplete.
Proof.
  intros Hp Hn. pose proof (length_ssh_record state payload) as Hr.
  assert (length (take n (ssh_record state payload)) = n) as Hl by (rewrite length_take; lia).
  destruct (Nat.lt_ge_cases n 5).
  - unfold unwrap, guard. rewrite Hl. destruct (Nat.ltb_spec n kSshHeaderSize); [done|unfold kSshHeaderSize in *; lia].
  - rewrite (unwrap_front payload _ (take (n - 5) (payload ++ pad_bytes (padding_for (length payload)) state)) _ Hp).
    + rewrite Hl. destruct (Nat.ltb_spec n (record_size (length payload))); [done|lia].
    + rewrite <- (app_nil_r (ssh_record _ _)), ssh_record_front, app_nil_r.
      destruct n as [|[|[|[|[|n]]]]]; try lia. cbn [be_bytes app take Nat.sub]. by rewrite Nat.sub_0_r.
Qed.

(** A payload of at most 65535 bytes with room for its record is wrapped
    in a record that is a multiple of eight bytes long; from a stream that
    starts with the record [unwrap] returns the payload and consumes exactly
    the record, and while bytes of it are missing it reports [incomplete]. *)
Lemma ssh_stream_roundtrip state payload out out' :
  blen payload ≤ kMaximumTcpFrame → (record_size (length payload) ≤ length out)%nat →
  (length payload ≤ length out')%nat →
  ∃ buffer state' total, wrap state payload out = Ok (buffer, state', total) ∧
    (total `mod` 8 = 0)%nat ∧
    (∀ rest, unwrap (take total buffer ++ rest) out' =
      Ok (payload ++ drop (length payload) out', length payload, total)) ∧
    (∀ n, (n < total)%nat → unwrap (take n buffer) out' = Fail incomplete).
Proof.
  intros Hp Ho Ho'. destruct (ssh_wrap_spec state payload out Hp Ho) as [state' ->].
  do 3 eexists. split; [done|]. split; [apply padding_range|].
  pose proof (length_ssh_record state payload) as Hr. split.
  - intros rest. rewrite take_app_length' by done. by apply unwrap_record.
  - intros n Hn. rewrite take_app_le by lia. by apply unwrap_partial.
Qed.
