(* ===== verification/Obfuscation.v ===== *)
(** Obfuscation of datagrams (src/src/obfuscation.cpp): every datagram gets a
    fresh nonce in front and is masked with a keystream, either its packet
    header or, in full mode, all of it after a length byte and junk.

    The stream cipher is code of libsodium and a parameter, the class
    [Keystream]; so is the random source [Rng], which answers each call with
    bytes or not at all.  The state of the [Obfuscator] counts the calls. *)

From Stdlib Require Import String.
From S2P Require Import Prelude Packet Fec Nonce Blake2s Crypto.

Definition kObfuscationKeySize : nat := 32.
Definition kObfuscationNonceSize : nat := 8.
Definition kObfuscationOverhead : nat := kObfuscationNonceSize.
Definition kMaximumJunkLength : nat := 255.
Definition kJunkLengthFieldSize : nat := 1.
Definition kPrimingMinSize : Z := 40.
Definition kPrimingMaxSize : Z := 576.
Definition kPoolSize : nat := Z.to_nat 4096.

Module ObfuscationError.
Inductive t := disabled | buffer_too_small | invalid_nonce | decryption_failed | malformed | junk_overflow.
End ObfuscationError.

Inductive ObfuscationMode := off | header_mask | full.

#[export] Instance ObfuscationMode_eq_dec : EqDecision ObfuscationMode.
Proof. solve_decision. Defined.

Record ObfuscationConfig := mkConfig {
  mode : ObfuscationMode;
  junk_padding : bool;
  priming : bool;
  uniform_length : bool;
  junk_max : Z;
  length_bucket : Z;
}.
Definition default_config : ObfuscationConfig := mkConfig off false false false 64 256.

(** [crypto_stream_chacha20_xor]: the first [n] bytes of the keystream. *)
Class Keystream := keystream : list Z → list Z → nat → list Z.
Class KeystreamLaws `{Keystream} : Prop := {
  keystream_length k n m : length (keystream k n m) = m;
  keystream_bytes k n m : bytes_ok (keystream k n m);
}.

(** [randombytes_buf]: the answer to the [i]-th call, for [n] bytes. *)
Class Rng := random : nat → nat → option (list Z).
Class RngLaws `{Rng} : Prop := {
  random_length i n bytes : random i n = Some bytes → length bytes = n;
  random_bytes_ok i n bytes : random i n = Some bytes → bytes_ok bytes;
}.

(** [keystream_xor] of src/src/crypto.cpp *)
Definition keystream_xor `{Keystream} (key nonce data : list Z) : res CryptoError (list Z) :=
  throw invalid_key_length when negb (length key =? 32)%nat else
  throw invalid_nonce when negb (length nonce =? 8)%nat else
  if (length data =? 0)%nat then Ok data else
  Ok (zip_with Z.lxor data (keystream key nonce (length data))).

Record Obfuscator := mkObfuscator {
  config_ : ObfuscationConfig;
  key_ : list Z;
  nonce_counter_ : Z;
  junk_pool_ : list Z;
  junk_pos_ : nat;
  junk_ready_ : bool;
  nonce_pool_ : list Z;
  nonce_pos_ : nat;
  unwrap_scratch_ : list Z;
  calls_ : nat;
}.

Definition new_obfuscator (calls : nat) : Obfuscator :=
  mkObfuscator default_config (replicate kObfuscationKeySize 0) 0 (replicate kPoolSize 0) kPoolSize false
    (replicate kPoolSize 0) kPoolSize [] calls.

Definition with_junk (o : Obfuscator) (pool : list Z) (pos : nat) (ready : bool) : Obfuscator :=
  mkObfuscator (config_ o) (key_ o) (nonce_counter_ o) pool pos ready (nonce_pool_ o) (nonce_pos_ o)
    (unwrap_scratch_ o) (calls_ o).
Definition with_nonces (o : Obfuscator) (pool : list Z) (pos : nat) (counter : Z) : Obfuscator :=
  mkObfuscator (config_ o) (key_ o) counter (junk_pool_ o) (junk_pos_ o) (junk_ready_ o) pool pos
    (unwrap_scratch_ o) (calls_ o).
Definition with_scratch (o : Obfuscator) (scratch : list Z) : Obfuscator :=
  mkObfuscator (config_ o) (key_ o) (nonce_counter_ o) (junk_pool_ o) (junk_pos_ o) (junk_ready_ o)
    (nonce_pool_ o) (nonce_pos_ o) scratch (calls_ o).
Definition called (o : Obfuscator) : Obfuscator :=
  mkObfuscator (config_ o) (key_ o) (nonce_counter_ o) (junk_pool_ o) (junk_pos_ o) (junk_ready_ o)
    (nonce_pool_ o) (nonce_pos_ o) (unwrap_scratch_ o) (S (calls_ o)).

Definition kObfuscationDomain : list Z := text "norr-obfuscation-v1".

(** [Blake2s::hash(domain, preshared)], a digest of 32 bytes *)
Definition derive_obfuscation_key (preshared : list Z) : list Z :=
  Blake2s.hash kObfuscationDomain preshared.

Section operations.
Context `{Keystream} `{Rng}.

Definition configure (o : Obfuscator) (config : ObfuscationConfig) (preshared : list Z) : Obfuscator :=
  let seed := default (replicate 8 0) (random (calls_ o) 8) in
  let counter := fold_left (λ acc byte, Z.lor (u64 (Z.shiftl acc 8)) byte) seed 0 in
  mkObfuscator config (derive_obfuscation_key preshared) counter (junk_pool_ o) kPoolSize
    (junk_padding config && (junk_max config >? 0)) (nonce_pool_ o) kPoolSize (unwrap_scratch_ o) (S (calls_ o)).

Definition enabled (o : Obfuscator) : bool := negb (bool_decide (mode (config_ o) = off)).

Abbreviation obf := (effect Obfuscator ObfuscationError.t) (only parsing).

Definition next_junk_byte : obf Z :=
  bind o := state in
  bind filled :=
    if (kPoolSize <=? junk_pos_ o)%nat then
      bind _ := modify called in
      match random (calls_ o) kPoolSize with
      | Some pool => bind _ := modify (λ o, with_junk o pool 0 (junk_ready_ o)) in sret true
      | None => bind _ := modify (λ o, with_junk o (junk_pool_ o) (junk_pos_ o) false) in sret false
      end
    else sret true in
  if negb filled : bool then sret 0 else
  bind o := state in
  bind byte := lift (rd (junk_pool_ o) (junk_pos_ o)) in
  bind _ := modify (λ o, with_junk o (junk_pool_ o) (S (junk_pos_ o)) (junk_ready_ o)) in
  sret byte.

(** The nonce derived from the counter when the random source fails. *)
Definition counter_nonce (counter : Z) : list Z :=
  let value := u64 (counter + 0x9E3779B97F4A7C15) in
  let value := u64 (Z.lxor value (Z.shiftr value 30) * 0xBF58476D1CE4E5B9) in
  let value := u64 (Z.lxor value (Z.shiftr value 27) * 0x94D049BB133111EB) in
  let value := Z.lxor value (Z.shiftr value 31) in
  map (λ index, u8 (Z.land (Z.shiftr value (8 * (7 - Z.of_nat index))) 0xFF)) (seq 0 kObfuscationNonceSize).

Definition refill_nonces : obf unit :=
  bind o := state in
  if (kPoolSize <? nonce_pos_ o + kObfuscationNonceSize)%nat then
    bind _ := modify called in
    match random (calls_ o) kPoolSize with
    | Some pool => modify (λ o, with_nonces o pool 0 (nonce_counter_ o))
    | None => sret tt
    end
  else sret tt.

Definition take_nonce : obf (list Z) :=
  bind o := state in
  if (nonce_pos_ o + kObfuscationNonceSize <=? kPoolSize)%nat then
    bind nonce := lift (subspan (nonce_pool_ o) (nonce_pos_ o) kObfuscationNonceSize) in
    bind _ := modify (λ o, with_nonces o (nonce_pool_ o) (nonce_pos_ o + kObfuscationNonceSize) (nonce_counter_ o)) in
    sret nonce
  else
    bind _ := modify (λ o, with_nonces o (nonce_pool_ o) (nonce_pos_ o) (u64 (nonce_counter_ o + 1))) in
    sret (counter_nonce (nonce_counter_ o)).

Definition next_nonce : obf (list Z) :=
  bind _ := refill_nonces in
  take_nonce.

(** The masked region, if the cipher took the key and the nonce. *)
Definition mask (o : Obfuscator) (nonce region : list Z) : option (list Z) :=
  ok_opt (keystream_xor (key_ o) nonce region).

Definition max_overhead (o : Obfuscator) : nat :=
  match mode (config_ o) with
  | off => 0
  | header_mask => kObfuscationNonceSize
  | full => kObfuscationNonceSize + kJunkLengthFieldSize +
      (if junk_padding (config_ o) then Z.to_nat (junk_max (config_ o)) else 0)
  end.

(** ** Wrapping: the state is the obfuscator and the output buffer *)

Abbreviation wrapping := (effect (Obfuscator * list Z) ObfuscationError.t) (only parsing).

Definition with_obf {A} (m : obf A) : wrapping A :=
  λ w, let r := m w.1 in ((r.1, w.2), r.2).
Definition on_out (f : list Z → res ObfuscationError.t (list Z)) : wrapping unit :=
  λ w, match f w.2 with
       | Ok out => ((w.1, out), Ok tt)
       | Fail e => (w, Fail e)
       | Ub => (w, Ub)
       end.

(** [mask(nonce, out.subspan(from).first(length))] *)
Definition mask_out (nonce : list Z) (from length : nat) : wrapping unit :=
  bind w := state in
  bind region := lift (subspan w.2 from length) in
  match mask w.1 nonce region with
  | Some masked => on_out (λ out, blit out from masked)
  | None => lift (Fail ObfuscationError.decryption_failed)
  end.

Fixpoint entropy_loop (n : nat) (entropy : Z) : obf Z :=
  match n with
  | O => sret entropy
  | S n =>
      bind byte := next_junk_byte in
      entropy_loop n (Z.lor (u32 (Z.shiftl entropy 8)) byte)
  end.

(** How much junk goes before a payload of the given length. *)
Definition junk_amount (c : ObfuscationConfig) (payload : Z) (entropy : Z) : Z :=
  let cap := junk_max c in
  let bucket := if length_bucket c =? 0 then 1 else length_bucket c in
  let base_len := Z.of_nat kJunkLengthFieldSize + payload in
  let to_bucket := (bucket - base_len mod bucket) mod bucket in
  let floor := if to_bucket <=? cap then to_bucket else 0 in
  if uniform_length c then floor
  else let span := cap - floor + 1 in floor + entropy mod span.

Definition choose_junk (payload : nat) : obf Z :=
  bind o := state in
  let c := config_ o in
  if junk_padding c && (junk_max c >? 0) && junk_ready_ o then
    bind entropy := entropy_loop 4 0 in
    bind o := state in
    sret (if junk_ready_ o then junk_amount c (Z.of_nat payload) entropy else 0)
  else sret 0.

Fixpoint junk_loop (n : nat) (at_ : nat) : wrapping unit :=
  match n with
  | O => sret tt
  | S n =>
      bind byte := with_obf next_junk_byte in
      bind _ := on_out (λ out, wr out at_ byte) in
      junk_loop n (S at_)
  end.

Definition wrap_header (nonce plaintext : list Z) : wrapping nat :=
  bind w := state in
  bind _ := check (length w.2 - kObfuscationNonceSize <? length plaintext)%nat ObfuscationError.buffer_too_small in
  bind _ := on_out (λ out, blit out kObfuscationNonceSize plaintext) in
  bind _ := mask_out nonce kObfuscationNonceSize (Z.to_nat kPacketHeaderSize `min` length plaintext) in
  sret (kObfuscationNonceSize + length plaintext)%nat.

Definition wrap_full (nonce plaintext : list Z) : wrapping nat :=
  bind junk := with_obf (choose_junk (length plaintext)) in
  let junk_length := Z.to_nat junk in
  let body := (kJunkLengthFieldSize + junk_length + length plaintext)%nat in
  bind w := state in
  bind _ := check (length w.2 - kObfuscationNonceSize <? body)%nat ObfuscationError.buffer_too_small in
  bind _ := on_out (λ out, wr out kObfuscationNonceSize (u8 junk)) in
  bind _ := junk_loop junk_length (kObfuscationNonceSize + kJunkLengthFieldSize) in
  bind _ := on_out (λ out, blit out (kObfuscationNonceSize + kJunkLengthFieldSize + junk_length) plaintext) in
  bind _ := mask_out nonce kObfuscationNonceSize body in
  sret (kObfuscationNonceSize + body)%nat.

Definition wrap (plaintext : list Z) : wrapping nat :=
  bind w := state in
  bind _ := check (bool_decide (mode (config_ w.1) = off)) ObfuscationError.disabled in
  bind nonce := with_obf next_nonce in
  bind _ := check (length w.2 <? kObfuscationNonceSize)%nat ObfuscationError.buffer_too_small in
  bind _ := on_out (λ out, blit out 0 nonce) in
  if bool_decide (mode (config_ w.1) = header_mask) then wrap_header nonce plaintext
  else wrap_full nonce plaintext.

Definition unwrap_header (nonce region : list Z) : wrapping nat :=
  bind w := state in
  bind _ := check (length w.2 <? length region)%nat ObfuscationError.buffer_too_small in
  bind _ := on_out (λ out, blit out 0 region) in
  bind _ := mask_out nonce 0 (Z.to_nat kPacketHeaderSize `min` length region) in
  sret (length region).

Definition unwrap_full (nonce region : list Z) : wrapping nat :=
  bind _ := check (length region =? 0)%nat ObfuscationError.malformed in
  bind _ := modify (λ w, (with_scratch w.1 region, w.2)) in
  bind w := state in
  bind plain :=
    match mask w.1 nonce region with
    | Some plain => bind _ := modify (λ w, (with_scratch w.1 plain, w.2)) in sret plain
    | None => lift (Fail ObfuscationError.decryption_failed)
    end in
  bind first := lift (rd plain 0) in
  let junk_length := Z.to_nat first in
  bind _ := check (length plain <? kJunkLengthFieldSize + junk_length)%nat ObfuscationError.junk_overflow in
  let payload_length := (length plain - kJunkLengthFieldSize - junk_length)%nat in
  bind _ := check (length w.2 <? payload_length)%nat ObfuscationError.buffer_too_small in
  bind _ := on_out (λ out, blit out 0 (drop (kJunkLengthFieldSize + junk_length) plain)) in
  sret payload_length.

Definition unwrap (wire : list Z) : wrapping nat :=
  bind w := state in
  bind _ := check (bool_decide (mode (config_ w.1) = off)) ObfuscationError.disabled in
  bind _ := check (length wire <? kObfuscationNonceSize)%nat ObfuscationError.malformed in
  bind nonce := lift (span_first wire kObfuscationNonceSize) in
  bind region := lift (subspan_from wire kObfuscationNonceSize) in
  if bool_decide (mode (config_ w.1) = header_mask) then unwrap_header nonce region
  else unwrap_full nonce region.

Definition generate_priming : wrapping nat :=
  bind w := state in
  bind _ := with_obf (modify called) in
  match random (calls_ w.1) 2 with
  | None => lift (Fail ObfuscationError.invalid_nonce)
  | Some pick =>
      bind a := lift (rd pick 0) in
      bind b := lift (rd pick 1) in
      let span := kPrimingMaxSize - kPrimingMinSize in
      let size := Z.to_nat (kPrimingMinSize + Z.lor (Z.shiftl a 8) b mod (span + 1)) in
      bind _ := check (length w.2 <? size)%nat ObfuscationError.buffer_too_small in
      bind _ := with_obf (modify called) in
      match random (S (calls_ w.1)) size with
      | None => lift (Fail ObfuscationError.invalid_nonce)
      | Some bytes =>
          bind _ := on_out (λ out, blit out 0 bytes) in
          sret size
      end
  end.

End operations.

(** * The state *)

Definition config_ok (c : ObfuscationConfig) : Prop := is_u8 (junk_max c) ∧ is_u16 (length_bucket c).

Section proofs.
Context `{KeystreamLaws} `{RngLaws}.

(** The random source never fails to fill a pool. *)
Definition pools_filled : Prop := ∀ i, is_Some (random i kPoolSize).

Record obf_ok (c : ObfuscationConfig) (key : list Z) (o : Obfuscator) : Prop := {
  ob_config : config_ o = c;
  ob_key : key_ o = key;
  ob_junk : length (junk_pool_ o) = kPoolSize;
  ob_junk_bytes : bytes_ok (junk_pool_ o);
  ob_nonces : length (nonce_pool_ o) = kPoolSize;
  ob_ready : pools_filled → junk_ready_ o = junk_padding c && (junk_max c >? 0);
}.

Lemma next_junk_byte_spec c key o : obf_ok c key o →
  ∃ o' b, next_junk_byte o = (o', Ok b) ∧ is_u8 b ∧ obf_ok c key o'.
Proof.
  intros Hok. pose proof Hok as []. unfold next_junk_byte, sbind, state, gets, modify, sret, lift.
  destruct (Nat.leb_spec kPoolSize (junk_pos_ o)) as [Hp|Hp].
  - destruct (random (calls_ o) kPoolSize) as [pool|] eqn:E; cbn.
    + pose proof (random_length _ _ _ E) as L. pose proof (random_bytes_ok _ _ _ E) as B.
      destruct pool as [|x pool]; [by unfold kPoolSize in L|]. cbn. eexists _, x. split; [done|].
      apply Forall_cons in B as [Bx B']. split; [done|]. by constructor; cbn; [..|by constructor| |].
    + eexists _, 0. split; [done|]. split; [done|]. constructor; cbn; try done. intros Hf. destruct (Hf (calls_ o)). congruence.
  - destruct (lookup_lt_is_Some_2 (junk_pool_ o) (junk_pos_ o)) as [x Hx]; [lia|]. cbn. rewrite (rd_ok _ _ _ Hx). cbn.
    eexists _, x. split; [done|]. split; [by eapply Forall_lookup_1|]. by constructor.
Qed.

Lemma counter_nonce_length counter : length (counter_nonce counter) = kObfuscationNonceSize.
Proof. unfold counter_nonce. by rewrite length_map, length_seq. Qed.

Lemma refill_nonces_spec c key o : obf_ok c key o → ∃ o', refill_nonces o = (o', Ok tt) ∧ obf_ok c key o'.
Proof.
  intros Hok. pose proof Hok as []. unfold refill_nonces. erewrite sbind_ok by done.
  destruct (_ <? _)%nat; [|by exists o]. erewrite sbind_ok by done.
  destruct (random (calls_ o) kPoolSize) as [pool|] eqn:E; (eexists; split; [done|]); constructor; try done.
  by eapply random_length.
Qed.

Lemma take_nonce_spec c key o : obf_ok c key o →
  ∃ o' nonce, take_nonce o = (o', Ok nonce) ∧ length nonce = kObfuscationNonceSize ∧ obf_ok c key o'.
Proof.
  intros []. unfold take_nonce. erewrite sbind_ok by done.
  destruct (Nat.leb_spec (nonce_pos_ o + kObfuscationNonceSize) kPoolSize).
  - rewrite subspan_ok by lia. do 2 (erewrite sbind_ok by done). eexists _, _. split; [done|].
    split; [rewrite length_take, length_drop; lia|by constructor].
  - erewrite sbind_ok by done. eexists _, _. split; [done|]. split; [apply counter_nonce_length|by constructor].
Qed.

Lemma next_nonce_spec c key o : obf_ok c key o →
  ∃ o' nonce, next_nonce o = (o', Ok nonce) ∧ length nonce = kObfuscationNonceSize ∧ obf_ok c key o'.
Proof.
  intros Hok. destruct (refill_nonces_spec c key o Hok) as (o1 & E & Hok1). unfold next_nonce.
  rewrite (sbind_ok _ _ _ _ _ E). by apply take_nonce_spec.
Qed.

(** ** Junk *)

Lemma entropy_loop_spec c key n : ∀ o e, obf_ok c key o → 0 ≤ e →
  ∃ o' e', entropy_loop n e o = (o', Ok e') ∧ 0 ≤ e' ∧ obf_ok c key o'.
Proof.
  induction n as [|n IH]; intros o e Hok He; cbn [entropy_loop]; [by exists o, e|].
  destruct (next_junk_byte_spec c key o Hok) as (o1 & b & E & Hb & Hok1). rewrite (sbind_ok _ _ _ _ _ E).
  apply IH; [done|]. apply Z.lor_nonneg. split; [apply u32_range|apply Hb].
Qed.

Lemma junk_amount_range c payload e : config_ok c → 0 ≤ e → 0 ≤ junk_amount c payload e ≤ junk_max c.
Proof.
  intros [Hm Hb] He. unfold junk_amount. set (bucket := if _ =? _ then _ else _).
  assert (0 < bucket) by (unfold bucket, is_u16 in *; destruct (Z.eqb_spec (length_bucket c) 0); lia).
  pose proof (Z.mod_pos_bound (bucket - (Z.of_nat kJunkLengthFieldSize + payload) mod bucket) bucket).
  set (t := (bucket - _) mod bucket) in *. unfold is_u8 in Hm. destruct (Z.leb_spec t (junk_max c)), (uniform_length c); try lia.
  - pose proof (Z.mod_pos_bound e (junk_max c - t + 1)). lia.
  - pose proof (Z.mod_pos_bound e (junk_max c - 0 + 1)). lia.
Qed.

(** Padding of a uniform length fills the bucket. *)
Definition pads_uniformly (c : ObfuscationConfig) : Prop :=
  junk_padding c = true ∧ uniform_length c = true ∧ 0 < length_bucket c ≤ junk_max c + 1 ∧ 0 < junk_max c.

Definition bucket_size (c : ObfuscationConfig) (n : Z) : Z :=
  length_bucket c * ((n + length_bucket c - 1) / length_bucket c).

Lemma junk_amount_uniform c payload e : pads_uniformly c → 0 ≤ payload →
  1 + junk_amount c payload e + payload = bucket_size c (1 + payload).
Proof.
  intros (_ & Hu & Hb & _) Hp. unfold junk_amount, bucket_size, kJunkLengthFieldSize. rewrite Hu.
  destruct (Z.eqb_spec (length_bucket c) 0); [lia|]. set (b := length_bucket c) in *. change (Z.of_nat 1) with 1.
  pose proof (Z.mod_pos_bound (1 + payload) b). pose proof (Z.div_mod (1 + payload) b).
  pose proof (Z.mod_pos_bound (b - (1 + payload) mod b) b).
  destruct (Z.leb_spec ((b - (1 + payload) mod b) mod b) (junk_max c)); [|lia].
  set (q := (1 + payload) / b) in *. set (r := (1 + payload) mod b) in *. destruct (decide (r = 0)) as [E|E].
  - rewrite E, Z.sub_0_r, Z.mod_same by lia. replace (1 + payload + b - 1) with (q * b + (b - 1)) by lia.
    rewrite Z.div_add_l, Z.div_small by lia. lia.
  - rewrite (Z.mod_small (b - r)) by lia. replace (1 + payload + b - 1) with ((q + 1) * b + (r - 1)) by lia.
    rewrite Z.div_add_l, Z.div_small by lia. lia.
Qed.

Definition junk_ok (c : ObfuscationConfig) (payload : nat) (j : Z) : Prop :=
  0 ≤ j ≤ (if junk_padding c then junk_max c else 0) ∧
  (pools_filled → pads_uniformly c → 1 + j + Z.of_nat payload = bucket_size c (1 + Z.of_nat payload)).

Lemma choose_junk_spec c key payload o : config_ok c → obf_ok c key o →
  ∃ o' j, choose_junk payload o = (o', Ok j) ∧ junk_ok c payload j ∧ obf_ok c key o'.
Proof.
  intros Hc Hok. unfold choose_junk. erewrite sbind_ok by done. rewrite (ob_config _ _ _ Hok). cbn zeta.
  pose proof Hc as [Hm _]. unfold is_u8 in Hm.
  destruct (junk_padding c && (junk_max c >? 0) && junk_ready_ o) eqn:Eon.
  - apply andb_true_iff in Eon as [[Ep Em]%andb_true_iff _].
    destruct (entropy_loop_spec c key 4 o 0 Hok) as (o1 & e & E & He & Hok1); [lia|].
    rewrite (sbind_ok _ _ _ _ _ E). erewrite sbind_ok by done. eexists _, _. split; [done|]. split; [|done].
    unfold junk_ok. rewrite Ep. pose proof (junk_amount_range c (Z.of_nat payload) e Hc He).
    destruct (junk_ready_ o1) eqn:Er.
    + split; [lia|]. intros _ Hu. apply junk_amount_uniform; [done|lia].
    + split; [lia|]. intros Hf. rewrite (ob_ready _ _ _ Hok1 Hf), Ep, Em in Er. done.
  - exists o, 0. split; [done|]. split; [|done]. split; [destruct (junk_padding c); lia|].
    intros Hf (Ep & _ & _ & Hpos). rewrite (ob_ready _ _ _ Hok Hf), Ep in Eon. cbn [andb] in Eon.
    rewrite Z.gtb_ltb in Eon. destruct (Z.ltb_spec 0 (junk_max c)); [done|lia].
Qed.

Lemma junk_loop_spec c key n : ∀ o out at_, obf_ok c key o → (at_ + n ≤ length out)%nat →
  ∃ o' junk, junk_loop n at_ (o, out) = ((o', put out at_ junk), Ok tt) ∧ length junk = n ∧ bytes_ok junk ∧ obf_ok c key o'.
Proof.
  induction n as [|n IH]; intros o out at_ Hok Hl; cbn [junk_loop].
  { exists o, []. unfold put. rewrite app_nil_l, Nat.add_0_r, take_drop. split; [done|]. split; [done|]. split; [constructor|done]. }
  destruct (next_junk_byte_spec c key o Hok) as (o1 & b & E & Hb & Hok1).
  erewrite sbind_ok; [|unfold with_obf; cbn [fst snd]; rewrite E; done].
  erewrite sbind_ok; [|unfold on_out; cbn [fst snd]; rewrite wr_put by lia; done].
  destruct (IH o1 (put out at_ [b]) (S at_)) as (o2 & junk & E2 & Lj & Bj & Hok2); [done|rewrite length_put by (cbn; lia); lia|].
  exists o2, (b :: junk). cbn [fst snd] in *. rewrite E2. split; [|cbn; split; [lia|split; [by constructor|done]]]. do 2 f_equal.
  unfold put at 1. rewrite drop_put by (cbn; lia).
  replace (S at_) with (at_ + length [b])%nat at 1 by (cbn; lia).
  assert (take (at_ + length [b]) (put out at_ [b]) = take at_ out ++ [b]) as ->.
  { unfold put. rewrite app_assoc. apply take_app_length'. rewrite length_app, length_take. cbn. lia. }
  unfold put. rewrite <- app_assoc. cbn [app length]. do 4 f_equal. lia.
Qed.

(** ** Masking *)

Definition masked (key nonce data : list Z) : list Z := zip_with Z.lxor data (keystream key nonce (length data)).

Lemma length_masked key nonce data : length (masked key nonce data) = length data.
Proof. unfold masked. rewrite length_zip_with, keystream_length. lia. Qed.

Lemma xor_twice (d k : list Z) : length d = length k → zip_with Z.lxor (zip_with Z.lxor d k) k = d.
Proof.
  revert k. induction d as [|x d IH]; intros [|y k] Hl; try done. cbn in *.
  rewrite IH by lia. by rewrite Z.lxor_assoc, Z.lxor_nilpotent, Z.lxor_0_r.
Qed.

Lemma masked_masked key nonce data : masked key nonce (masked key nonce data) = data.
Proof. unfold masked at 1. rewrite length_masked. apply xor_twice. by rewrite keystream_length. Qed.

(** A buffer as what is written, in three parts. *)
Lemma put_middle pre old new post o : length pre = o → length old = length new →
  put (pre ++ old ++ post) o new = pre ++ new ++ post.
Proof.
  intros <- Hl. unfold put. rewrite take_app_length. do 2 f_equal.
  rewrite <- Hl, app_assoc. apply drop_app_length'. by rewrite length_app.
Qed.

Lemma on_out_blit o pre old new post from : length pre = from → length old = length new →
  on_out (λ out, blit out from new) (o, pre ++ old ++ post) = ((o, pre ++ new ++ post), Ok tt).
Proof.
  intros Hf Hl. unfold on_out. cbn [fst snd]. rewrite blit_put by (rewrite !length_app; lia).
  by rewrite put_middle.
Qed.

Context (c : ObfuscationConfig) (key : list Z) (Hconfig : config_ok c) (Hkey : length key = kObfuscationKeySize).

Lemma mask_spec o nonce region : obf_ok c key o → length nonce = kObfuscationNonceSize →
  mask o nonce region = Some (masked key nonce region).
Proof.
  intros Hok Hn. unfold mask, keystream_xor. rewrite (ob_key _ _ _ Hok), Hkey, Hn. cbn. by destruct region.
Qed.

Lemma mask_out_spec o nonce pre old post from n : obf_ok c key o → length nonce = kObfuscationNonceSize →
  length pre = from → length old = n →
  mask_out nonce from n (o, pre ++ old ++ post) = ((o, pre ++ masked key nonce old ++ post), Ok tt).
Proof.
  intros Hok Hn <- <-. unfold mask_out. erewrite sbind_ok by done. cbn [fst snd].
  erewrite sbind_ok; [|unfold lift; rewrite subspan_ok by (rewrite !length_app; lia); done].
  rewrite drop_app_length, take_app_length, (mask_spec _ _ _ Hok Hn). unfold on_out. cbn [fst snd].
  rewrite blit_put by (rewrite !length_app, length_masked; lia).
  rewrite put_middle by (rewrite ?length_masked; done). done.
Qed.

(** ** What wrapping writes *)

Definition header_size (p : list Z) : nat := Z.to_nat kPacketHeaderSize `min` length p.
Definition header_wire (nonce p : list Z) : list Z :=
  nonce ++ masked key nonce (take (header_size p) p) ++ drop (header_size p) p.
Definition full_wire (nonce : list Z) (j : Z) (junk p : list Z) : list Z :=
  nonce ++ masked key nonce (u8 j :: junk ++ p).

Lemma wrap_header_spec o nonce p old post : obf_ok c key o → length nonce = kObfuscationNonceSize → length old = length p →
  wrap_header nonce p (o, nonce ++ old ++ post) = ((o, header_wire nonce p ++ post), Ok (kObfuscationNonceSize + length p)%nat).
Proof.
  intros Hok Hn Hl. unfold wrap_header. erewrite sbind_ok by done. cbn [fst snd].
  erewrite sbind_ok; [|apply check_ok, Nat.ltb_ge; rewrite !length_app; lia].
  erewrite sbind_ok; [|by apply on_out_blit]. fold (header_size p).
  rewrite <- (take_drop (header_size p) p) at 2. rewrite <- app_assoc.
  erewrite sbind_ok; [|apply mask_out_spec; [done..|rewrite length_take; unfold header_size; lia]].
  unfold sret, header_wire. by rewrite <- !app_assoc.
Qed.

Lemma wrap_full_spec o nonce p region : obf_ok c key o → length nonce = kObfuscationNonceSize →
  (1 + (if junk_padding c then Z.to_nat (junk_max c) else 0) + length p ≤ length region)%nat →
  ∃ o' j junk post, wrap_full nonce p (o, nonce ++ region) =
      ((o', full_wire nonce j junk p ++ post), Ok (length (full_wire nonce j junk p))) ∧
    obf_ok c key o' ∧ junk_ok c (length p) j ∧ length junk = Z.to_nat j ∧
    post = drop (1 + Z.to_nat j + length p) region.
Proof.
  intros Hok Hn Hl. unfold wrap_full.
  destruct (choose_junk_spec c key (length p) o Hconfig Hok) as (o1 & j & E & Hj & Hok1).
  erewrite sbind_ok; [|unfold with_obf; cbn [fst snd]; rewrite E; done]. cbn [fst snd]. erewrite sbind_ok by done. cbn [fst snd].
  pose proof Hj as [Hr _]. assert (Z.to_nat j ≤ if junk_padding c then Z.to_nat (junk_max c) else 0)%nat as Hjn
    by (destruct (junk_padding c); lia).
  set (n := Z.to_nat j) in *. unfold kJunkLengthFieldSize.
  erewrite sbind_ok; [|apply check_ok, Nat.ltb_ge; rewrite length_app; lia].
  destruct region as [|x region]; [cbn in Hl; lia|]. cbn [length] in Hl.
  assert (∃ old1 old2 post, region = old1 ++ old2 ++ post ∧ length old1 = n ∧ length old2 = length p) as (old1 & old2 & post & -> & L1 & L2).
  { exists (take n region), (take (length p) (drop n region)), (drop (length p) (drop n region)).
    rewrite !take_drop. split; [done|]. rewrite !length_take, length_drop. lia. }
  erewrite sbind_ok; [|unfold on_out; cbn [fst snd]; rewrite wr_put by (rewrite length_app; cbn [length]; lia); done]. cbn [fst snd].
  change (x :: old1 ++ old2 ++ post) with ([x] ++ (old1 ++ old2 ++ post)). rewrite put_middle by done.
  rewrite app_assoc.
  destruct (junk_loop_spec c key n o1 ((nonce ++ [u8 j]) ++ old1 ++ old2 ++ post) (kObfuscationNonceSize + 1))
    as (o2 & junk & E2 & Lj & Bj & Hok2); [done|rewrite !length_app; cbn [length]; lia|].
  rewrite put_middle in E2 by (rewrite ?length_app; cbn [length]; lia). rewrite (sbind_ok _ _ _ _ _ E2). clear E2.
  rewrite (app_assoc _ junk). erewrite sbind_ok; [|apply on_out_blit; [rewrite !length_app; cbn [length]; lia|done]].
  rewrite <- !app_assoc. erewrite sbind_ok.
  2: { rewrite (app_assoc junk), (app_assoc [u8 j]). apply mask_out_spec; [done..|]. rewrite !length_app. cbn [length]. lia. }
  exists o2, j, junk, post. split; [|split; [done|split; [done|split; [done|]]]].
  - unfold full_wire. rewrite !length_app, length_masked. cbn [app length]. rewrite length_app, <- app_assoc.
    unfold sret. do 2 f_equal. lia.
  - cbn [Nat.add drop]. fold n. cbn [app drop]. rewrite (app_assoc old1). symmetry. apply drop_app_length'. rewrite length_app. lia.
Qed.

(** What a receiver does with it. *)
Lemma unwrap_header_spec r nonce p out : obf_ok c key r → length nonce = kObfuscationNonceSize → (length p ≤ length out)%nat →
  unwrap_header nonce (masked key nonce (take (header_size p) p) ++ drop (header_size p) p) (r, out) =
    ((r, p ++ drop (length p) out), Ok (length p)).
Proof.
  intros Hok Hn Hl. unfold unwrap_header. erewrite sbind_ok by done. cbn [fst snd].
  assert (length (masked key nonce (take (header_size p) p) ++ drop (header_size p) p) = length p) as Lr.
  { rewrite length_app, length_masked, length_take, length_drop. unfold header_size. lia. }
  rewrite Lr. erewrite sbind_ok; [|by apply check_ok, Nat.ltb_ge].
  rewrite <- (take_drop (length p) out) at 1. erewrite sbind_ok.
  2: { apply (on_out_blit r [] (take (length p) out)); [done|]. rewrite length_take, Lr. lia. }
  cbn [app]. rewrite <- app_assoc. fold (header_size p).
  erewrite sbind_ok; [|apply (mask_out_spec r nonce []); [done..|rewrite length_masked, length_take; unfold header_size; lia]].
  cbn [app]. rewrite masked_masked, app_assoc, take_drop. done.
Qed.

Lemma unwrap_full_spec r nonce j junk p out : obf_ok c key r → length nonce = kObfuscationNonceSize → is_u8 j →
  length junk = Z.to_nat j → (length p ≤ length out)%nat →
  unwrap_full nonce (masked key nonce (u8 j :: junk ++ p)) (r, out) =
    ((with_scratch (with_scratch r (masked key nonce (u8 j :: junk ++ p))) (u8 j :: junk ++ p), p ++ drop (length p) out),
     Ok (length p)).
Proof.
  intros Hok Hn Hj Lj Hl. unfold unwrap_full.
  erewrite sbind_ok; [|apply check_ok; rewrite length_masked; done].
  erewrite sbind_ok by done. erewrite sbind_ok by done. cbn [fst snd].
  rewrite mask_spec by (done || by destruct Hok; constructor). rewrite masked_masked.
  erewrite sbind_ok; [|by erewrite sbind_ok by done]. erewrite sbind_ok by done. rewrite u8_id by done.
  cbn [fst snd]. unfold kJunkLengthFieldSize. erewrite sbind_ok; [|apply check_ok, Nat.ltb_ge; cbn; rewrite length_app; lia].
  assert (length (j :: junk ++ p) - 1 - Z.to_nat j = length p)%nat as -> by (cbn; rewrite length_app; lia).
  erewrite sbind_ok; [|by apply check_ok, Nat.ltb_ge].
  assert (drop (1 + Z.to_nat j) (j :: junk ++ p) = p) as -> by (cbn [Nat.add drop]; by apply drop_app_length').
  rewrite <- (take_drop (length p) out) at 1. erewrite sbind_ok.
  2: { apply (on_out_blit _ [] (take (length p) out)); [done|]. rewrite length_take. lia. }
  done.
Qed.
End proofs.

(** * Histories *)

Section histories.
Context `{KeystreamLaws} `{RngLaws}.

Lemma length_derived_key preshared : (length preshared ≤ 32)%nat →
  length (derive_obfuscation_key preshared) = kObfuscationKeySize.
Proof.
  intros Hl. unfold derive_obfuscation_key, hash.
  pose proof (streamed_hash kMaximumDigestSize preshared [kObfuscationDomain] zero_digest) as E. cbn [fold_left] in E.
  rewrite E by (unfold kMaximumDigestSize; lia). rewrite copy_into_length; [done|].
  rewrite length_take. cbn [Nat.add]. lia.
Qed.

Lemma configured_ok calls c preshared :
  obf_ok c (derive_obfuscation_key preshared) (configure (new_obfuscator calls) c preshared).
Proof. constructor; cbn; try done. by apply Forall_replicate. Qed.

(** Every operation keeps the configuration, the key and the pools. *)
Definition keeps (o o' : Obfuscator) : Prop := ∀ c key, config_ok c → obf_ok c key o → obf_ok c key o'.
Definition keeps_out (w w' : Obfuscator * list Z) : Prop := keeps w.1 w'.1.

#[local] Instance keeps_preorder : PreOrder keeps.
Proof. split; [intros o c key; auto|intros o1 o2 o3 H12 H23 c key Hc Hok; auto]. Qed.
#[local] Instance keeps_out_preorder : PreOrder keeps_out.
Proof. split; [intros o c key; auto|intros o1 o2 o3 H12 H23 c key Hc Hok; auto]. Qed.

Lemma with_obf_keeps {A} (m : effect Obfuscator ObfuscationError.t A) : respects keeps m → respects keeps_out (with_obf m).
Proof. intros Hm [o out]. apply Hm. Qed.

Lemma on_out_keeps f : respects keeps_out (on_out f).
Proof. intros [o out]. unfold on_out. cbn. destruct (f out); intros c key; auto. Qed.

Lemma next_junk_byte_keeps : respects keeps next_junk_byte.
Proof. intros o c key Hc Hok. by destruct (next_junk_byte_spec c key o Hok) as (o' & b & -> & _ & ?). Qed.

Lemma next_nonce_keeps : respects keeps next_nonce.
Proof. intros o c key Hc Hok. by destruct (next_nonce_spec c key o Hok) as (o' & b & -> & _ & ?). Qed.

Lemma choose_junk_keeps n : respects keeps (choose_junk n).
Proof. intros o c key Hc Hok. by destruct (choose_junk_spec c key n o Hc Hok) as (o' & b & -> & _ & ?). Qed.

Lemma scratch_keeps w l : keeps_out w (with_scratch w.1 l, w.2).
Proof. intros c key Hc []. by constructor. Qed.

Lemma called_keeps : respects (E:=ObfuscationError.t) keeps (modify called).
Proof. intros o c key Hc []. by constructor. Qed.

Ltac keep :=
  repeat lazymatch goal with
  | |- respects _ (sbind _ _) => apply respects_bind; [exact _| |intros ?]
  | |- respects _ (sret _) => apply respects_ret; exact _
  | |- respects _ (lift _) => apply respects_lift; exact _
  | |- respects _ state => apply respects_gets; exact _
  | |- respects _ (check _ _) => apply respects_check; exact _
  | |- respects _ (on_out _) => apply on_out_keeps
  | |- respects _ (with_obf _) => apply with_obf_keeps
  | |- respects _ next_junk_byte => apply next_junk_byte_keeps
  | |- respects _ next_nonce => apply next_nonce_keeps
  | |- respects _ (choose_junk _) => apply choose_junk_keeps
  | |- respects _ (modify called) => apply called_keeps
  | |- respects _ (modify _) => apply respects_modify; intros ?; apply scratch_keeps
  | |- respects _ (if _ then _ else _) => case_match
  | |- respects _ (match _ with _ => _ end) => case_match
  end.

Lemma mask_out_keeps nonce from n : respects keeps_out (mask_out nonce from n).
Proof. unfold mask_out. keep. Qed.

Lemma junk_loop_keeps n at_ : respects keeps_out (junk_loop n at_).
Proof. revert at_. induction n as [|n IH]; intros at_; cbn [junk_loop]; keep. apply IH. Qed.

Lemma wrap_keeps p : respects keeps_out (wrap p).
Proof. unfold wrap, wrap_header, wrap_full. keep; auto using mask_out_keeps, junk_loop_keeps. Qed.

Lemma unwrap_keeps wire : respects keeps_out (unwrap wire).
Proof. unfold unwrap, unwrap_header, unwrap_full. keep; auto using mask_out_keeps. Qed.

Lemma priming_keeps : respects keeps_out generate_priming.
Proof. unfold generate_priming. keep. Qed.

(** An obfuscator that was configured and used. *)
Inductive used (c : ObfuscationConfig) (preshared : list Z) : Obfuscator → Prop :=
| used_configured calls : used c preshared (configure (new_obfuscator calls) c preshared)
| used_wrap o p out : used c preshared o → used c preshared (wrap p (o, out)).1.1
| used_unwrap o wire out : used c preshared o → used c preshared (unwrap wire (o, out)).1.1
| used_priming o out : used c preshared o → used c preshared (generate_priming (o, out)).1.1.

Lemma used_ok c preshared o : config_ok c → used c preshared o → obf_ok c (derive_obfuscation_key preshared) o.
Proof.
  intros Hc. induction 1 as [calls|o p out _ IH|o wire out _ IH|o out _ IH]; [apply configured_ok|..].
  - by apply (wrap_keeps p (o, out) c _ Hc IH).
  - by apply (unwrap_keeps wire (o, out) c _ Hc IH).
  - by apply (priming_keeps (o, out) c _ Hc IH).
Qed.
(** The bytes of a wrapped datagram. *)
Inductive wire_of (c : ObfuscationConfig) (key p : list Z) : list Z → Prop :=
| wire_header nonce : mode c = header_mask → length nonce = kObfuscationNonceSize →
    wire_of c key p (header_wire key nonce p)
| wire_full nonce j junk : mode c = full → length nonce = kObfuscationNonceSize → junk_ok c (length p) j →
    length junk = Z.to_nat j → wire_of c key p (full_wire key nonce j junk p).

Lemma wire_length c key p wire : wire_of c key p wire →
  length wire = (kObfuscationNonceSize + length p)%nat ∧ mode c = header_mask ∨
  ∃ j, length wire = (kObfuscationNonceSize + 1 + Z.to_nat j + length p)%nat ∧ junk_ok c (length p) j ∧ mode c = full.
Proof.
  intros [nonce Hm Hn|nonce j junk Hm Hn Hj Lj]; [left|right].
  - unfold header_wire. rewrite !length_app, length_masked, length_take, length_drop. unfold header_size. split; [lia|done].
  - exists j. unfold full_wire. rewrite length_app, length_masked. cbn [length]. rewrite length_app. split; [lia|done].
Qed.

Lemma wrap_spec c key s p out : config_ok c → obf_ok c key s → length key = kObfuscationKeySize → mode c ≠ off →
  (length p + max_overhead s ≤ length out)%nat →
  ∃ s' wire, wrap p (s, out) = ((s', wire ++ drop (length wire) out), Ok (length wire)) ∧ wire_of c key p wire.
Proof.
  intros Hc Hs Hk Hm Hl. unfold max_overhead in Hl. rewrite (ob_config _ _ _ Hs) in Hl.
  destruct (next_nonce_spec c key s Hs) as (s1 & nonce & En & Ln & Hs1).
  unfold wrap. erewrite sbind_ok by done. cbn [fst snd]. rewrite (ob_config _ _ _ Hs).
  erewrite sbind_ok; [|by apply check_ok, bool_decide_eq_false].
  erewrite sbind_ok; [|unfold with_obf; cbn [fst snd]; rewrite En; done]. cbn [fst snd].
  erewrite sbind_ok; [|apply check_ok, Nat.ltb_ge; destruct (mode c); [done|lia|lia]].
  assert (kObfuscationNonceSize ≤ length out)%nat as Hout by (destruct (mode c); [done|lia|lia]).
  assert (on_out (λ out, blit out 0 nonce) (s1, out) = ((s1, nonce ++ drop kObfuscationNonceSize out), Ok tt)) as Eb.
  { rewrite <- (take_drop kObfuscationNonceSize out) at 1.
    apply (on_out_blit s1 [] (take kObfuscationNonceSize out)); [done|rewrite length_take; lia]. }
  rewrite (sbind_ok _ _ _ _ _ Eb). clear Eb.
  set (region := drop kObfuscationNonceSize out). assert (length region = length out - kObfuscationNonceSize)%nat as Lr by apply length_drop.
  destruct (mode c) eqn:Em; [done| |]; cbn [bool_decide decide].
  - rewrite bool_decide_eq_true_2 by done. exists s1, (header_wire key nonce p).
    assert (length (header_wire key nonce p) = kObfuscationNonceSize + length p)%nat as Lw.
    { destruct (wire_length c key p (header_wire key nonce p)) as [[? _]|(j & _ & _ & ?)]; [by apply wire_header|done|congruence]. }
    rewrite Lw. split; [|by apply wire_header]. rewrite <- (take_drop (length p) region).
    rewrite (wrap_header_spec c key Hk s1 nonce p) by (done || rewrite length_take; lia).
    unfold region. by rewrite drop_drop.
  - rewrite bool_decide_eq_false_2 by done.
    destruct (wrap_full_spec c key Hc Hk s1 nonce p region) as (s2 & j & junk & post & E & Hs2 & Hj & Lj & ->);
      [done|done|unfold kJunkLengthFieldSize in *; lia|].
    exists s2, (full_wire key nonce j junk p). split; [|by apply wire_full]. rewrite E. do 3 f_equal.
    unfold full_wire. rewrite length_app, length_masked. cbn [length]. rewrite length_app. unfold region.
    rewrite drop_drop. f_equal. lia.
Qed.

Lemma obf_unwrap_spec cs c key r p wire out : config_ok cs → obf_ok c key r → length key = kObfuscationKeySize →
  mode cs = mode c → wire_of cs key p wire → (length p ≤ length out)%nat →
  ∃ r', unwrap wire (r, out) = ((r', p ++ drop (length p) out), Ok (length p)).
Proof.
  intros [Hmax _] Hr Hk Hm Hw Hl. assert (mode c ≠ off) as Hoff by (destruct Hw; congruence).
  pose proof (wire_length _ _ _ _ Hw) as Lw. unfold unwrap. erewrite sbind_ok by done. cbn [fst snd].
  rewrite (ob_config _ _ _ Hr). erewrite sbind_ok; [|by apply check_ok, bool_decide_eq_false].
  erewrite sbind_ok; [|apply check_ok, Nat.ltb_ge; destruct Lw as [[-> _]|(j & -> & _)]; lia].
  erewrite sbind_ok; [|unfold lift; rewrite span_first_ok by (destruct Lw as [[-> _]|(j & -> & _)]; lia); done].
  erewrite sbind_ok; [|unfold lift; rewrite subspan_from_ok by (destruct Lw as [[-> _]|(j & -> & _)]; lia); done].
  destruct Hw as [nonce Hmw Ln|nonce j junk Hmw Ln Hj Lj]; unfold header_wire, full_wire;
    rewrite <- Ln, take_app_length, drop_app_length, <- Hm, Hmw.
  - rewrite bool_decide_eq_true_2 by done. exists r. by apply (unwrap_header_spec c key Hk).
  - rewrite bool_decide_eq_false_2 by done. eexists. apply (unwrap_full_spec c key Hk); try done.
    destruct Hj as [Hj _]. unfold is_u8 in *. destruct (junk_padding cs); lia.
Qed.
End histories.

(** Obfuscation loses nothing and, when padding is uniform, hides lengths.
    However a sender and a receiver with the same mode and preshared key were
    used before: a datagram wrapped into a buffer with room for
    [max_overhead] more bytes is written without touching the rest of the
    buffer, unwrapping the written bytes gives the datagram back, and its size
    on the wire is at most [max_overhead] larger.  With uniform padding that
    can fill a bucket and a working random source, the size is 8 bytes more
    than the least multiple of the bucket that holds the datagram and its
    length byte, the same for all datagrams that fill the same bucket. *)
Lemma obfuscation_roundtrip `{KeystreamLaws} `{RngLaws} cs cr preshared s r p out out2 :
  config_ok cs → config_ok cr → mode cs = mode cr → mode cs ≠ off → (length preshared ≤ 32)%nat →
  used cs preshared s → used cr preshared r →
  (length p + max_overhead s ≤ length out)%nat → (length p ≤ length out2)%nat →
  ∃ s' out' n r' out2', wrap p (s, out) = ((s', out'), Ok n) ∧
    (n ≤ length p + max_overhead s)%nat ∧ drop n out' = drop n out ∧
    unwrap (take n out') (r, out2) = ((r', out2'), Ok (length p)) ∧ out2' = p ++ drop (length p) out2 ∧
    (mode cs = full → pools_filled → pads_uniformly cs →
       Z.of_nat n = Z.of_nat kObfuscationNonceSize + bucket_size cs (1 + Z.of_nat (length p))).
Proof.
  intros Hcs Hcr Hmode Hoff Hpsk Hs%used_ok Hr%used_ok Hl Hl2; [|done..].
  pose proof (length_derived_key preshared Hpsk) as Hkey. set (key := derive_obfuscation_key preshared) in *.
  destruct (wrap_spec cs key s p out Hcs Hs Hkey Hoff Hl) as (s' & wire & Ew & Hw).
  destruct (obf_unwrap_spec cs cr key r p wire out2 Hcs Hr Hkey Hmode Hw Hl2) as (r' & Eu).
  exists s', (wire ++ drop (length wire) out), (length wire), r', (p ++ drop (length p) out2).
  rewrite take_app_length, drop_app_length. split; [done|]. unfold max_overhead. rewrite (ob_config _ _ _ Hs).
  destruct (wire_length _ _ _ _ Hw) as [[Lw Hm]|(j & Lw & [Hj Hu] & Hm)]; rewrite Lw, Hm.
  - split; [lia|]. done.
  - split; [unfold kJunkLengthFieldSize; destruct (junk_padding cs); lia|]. do 3 (split; [done|]).
    intros _ Hf Hp. specialize (Hu Hf Hp). lia.
Qed.

Section sample.
Instance toy_keystream : Keystream := λ key nonce n, replicate n 90.
Instance toy_rng : Rng := λ i n, Some (replicate n 7).
Instance toy_keystream_laws : KeystreamLaws.
Proof. split; intros; [apply length_replicate|by apply Forall_replicate]. Qed.
Instance toy_rng_laws : RngLaws.
Proof. split; intros i n bytes [= <-]; [apply length_replicate|by apply Forall_replicate]. Qed.

Definition sample_config : ObfuscationConfig := mkConfig full true false true 255 64.
Definition sample_obfuscator : Obfuscator := configure (new_obfuscator 0) sample_config (replicate 32 1).

End sample.

(** With the default limits, a bucket of 256 and at most 64 bytes of junk, most
    payloads get no junk at all when padding is uniform. *)
Example default_uniform_padding_is_empty entropy :
  junk_amount (mkConfig full true false true 64 256) 40 entropy = 0.
Proof. done. Qed.
