(* ===== verification/Offload.v ===== *)
(** Segmentation offload (src/src/offload.cpp): the Internet checksum, the
    expansion of a packet that the kernel hands over unsegmented into packets
    of their own ([expand_offloaded]), and the coalescer that does the reverse
    for the packets written to the tunnel device ([TcpCoalescer]).

    Packets are lists of bytes; an access outside one is [Ub].  The functions
    that call a sink or a writer return the list of what it was given. *)

From S2P Require Import Prelude Packet Fec.

Definition kVirtioHeaderSize : nat := 10.
Definition kMaximumOffloadFrame : nat := Z.to_nat 65535.

Definition kVirtioNeedsChecksum : Z := 1.
Definition kGsoNone : Z := 0.
Definition kGsoTcpV4 : Z := 1.
Definition kGsoUdpL4 : Z := 5.
Definition kGsoTcpV6 : Z := 4.

Definition kProtocolTcp : Z := 6.
Definition kProtocolUdp : Z := 17.
Definition kTcpFin : Z := 0x01.
Definition kTcpPsh : Z := 0x08.
Definition kTcpAck : Z := 0x10.
Definition kTcpCwr : Z := 0x80.
Definition kKeepUnlessLast : Z := Z.land 0xFF (Z.lnot (Z.lor kTcpFin kTcpPsh)).
Definition kKeepUnlessFirst : Z := Z.land 0xFF (Z.lnot kTcpCwr).
Definition kNotAckOrPush : Z := Z.land 0xFF (Z.lnot (Z.lor kTcpAck kTcpPsh)).

Record VirtioHeader := mkVirtio {
  flags : Z;
  gso_type : Z;
  header_length : Z;
  gso_size : Z;
  checksum_start : Z;
  checksum_offset : Z;
}.

(** ** Fields of packets *)

Definition load16 (bytes : list Z) (offset : nat) : res unit Z :=
  let* a := rd bytes offset in
  let* b := rd bytes (offset + 1) in
  Ok (u16 (Z.lor (u32 (Z.shiftl a 8)) b)).

Definition store16 (bytes : list Z) (offset : nat) (value : Z) : res unit (list Z) :=
  let* bytes := wr bytes offset (u8 (Z.shiftr value 8)) in
  wr bytes (offset + 1) (u8 (Z.land value 0xFF)).

Definition load32 (bytes : list Z) (offset : nat) : res unit Z :=
  let* a := rd bytes offset in
  let* b := rd bytes (offset + 1) in
  let* c := rd bytes (offset + 2) in
  let* d := rd bytes (offset + 3) in
  Ok (Z.lor (Z.lor (Z.lor (u32 (Z.shiftl a 24)) (u32 (Z.shiftl b 16))) (u32 (Z.shiftl c 8))) d).

Definition store32 (bytes : list Z) (offset : nat) (value : Z) : res unit (list Z) :=
  let* bytes := wr bytes offset (u8 (Z.shiftr value 24)) in
  let* bytes := wr bytes (offset + 1) (u8 (Z.land (Z.shiftr value 16) 0xFF)) in
  let* bytes := wr bytes (offset + 2) (u8 (Z.land (Z.shiftr value 8) 0xFF)) in
  wr bytes (offset + 3) (u8 (Z.land value 0xFF)).

Definition is_ipv4 (packet : list Z) : bool :=
  match packet with [] => false | first :: _ => Z.shiftr first 4 =? 4 end.

Definition ip_header_length (packet : list Z) : res unit nat :=
  if is_ipv4 packet then
    let* first := rd packet 0 in
    Ok (Z.to_nat (Z.land first 0x0F) * 4)%nat
  else Ok 40%nat.

Definition ip_protocol (packet : list Z) : res unit Z :=
  rd packet (if is_ipv4 packet then 9 else 6).

(** ** Checksums *)

(** [while ((sum >> 16U) != 0)]: each round takes off 16 bits, so five rounds
    are enough for a 64-bit sum ([fold_loop_spec]). *)
Fixpoint fold_loop (fuel : nat) (sum : Z) : Z :=
  match fuel with
  | O => sum
  | S fuel =>
      if Z.shiftr sum 16 =? 0 then sum
      else fold_loop fuel (u64 (Z.land sum 0xFFFF + Z.shiftr sum 16))
  end.

Definition fold_checksum (sum : Z) : Z := u16 (fold_loop 5 sum).

Fixpoint add_eights (fuel : nat) (bytes : list Z) (index : nat) (sum : Z) : res unit (nat * Z) :=
  match fuel with
  | O => Ok (index, sum)
  | S fuel =>
      if (index + 8 <=? length bytes)%nat then
        let* a := load16 bytes index in
        let* b := load16 bytes (index + 2) in
        let* c := load16 bytes (index + 4) in
        let* d := load16 bytes (index + 6) in
        add_eights fuel bytes (index + 8) (u64 (u64 (u64 (u64 (sum + a) + b) + c) + d))
      else Ok (index, sum)
  end.

Fixpoint add_pairs (fuel : nat) (bytes : list Z) (index : nat) (sum : Z) : res unit (nat * Z) :=
  match fuel with
  | O => Ok (index, sum)
  | S fuel =>
      if (index + 1 <? length bytes)%nat then
        let* a := load16 bytes index in
        add_pairs fuel bytes (index + 2) (u64 (sum + a))
      else Ok (index, sum)
  end.

Definition checksum_add (bytes : list Z) (initial : Z) : res unit Z :=
  let* eights := add_eights (length bytes) bytes 0 initial in
  let* pairs := add_pairs (length bytes) bytes eights.1 eights.2 in
  if (pairs.1 <? length bytes)%nat then
    let* last := rd bytes pairs.1 in
    Ok (u64 (pairs.2 + u64 (Z.shiftl last 8)))
  else Ok pairs.2.

Definition pseudo_header_sum (packet : list Z) (protocol : Z) (transport_length : nat) : res unit Z :=
  if is_ipv4 packet then
    let* addresses := subspan packet 12 8 in
    let* sum := checksum_add addresses protocol in
    Ok (u64 (sum + Z.of_nat transport_length))
  else
    let* addresses := subspan packet 8 32 in
    let* sum := checksum_add addresses protocol in
    let sum := u64 (sum + Z.shiftr (Z.of_nat transport_length) 16) in
    Ok (u64 (sum + Z.land (Z.of_nat transport_length) 0xFFFF)).

Definition set_ip_length (packet : list Z) (total : nat) : res unit (list Z) :=
  if is_ipv4 packet then
    let* packet := store16 packet 2 (u16 (Z.of_nat total)) in
    let* packet := store16 packet 10 0 in
    let* header := ip_header_length packet in
    let* front := span_first packet header in
    let* sum := checksum_add front 0 in
    store16 packet 10 (u16 (Z.lnot (fold_checksum sum)))
  else store16 packet 4 (u16 (u64 (Z.of_nat total - 40))).

(** [store16(packet.subspan(from), ...)]: a span shares the bytes it views. *)
Definition with_subspan (packet : list Z) (from : nat) (f : list Z → res unit (list Z)) : res unit (list Z) :=
  let* part := subspan_from packet from in
  let* part := f part in
  Ok (take from packet ++ part).

Definition finish_transport_checksum (packet : list Z) (ip_length : nat) (protocol : Z) : res unit (list Z) :=
  let field := if protocol =? kProtocolTcp then 16%nat else 6%nat in
  let* packet := with_subspan packet ip_length (λ transport, store16 transport field 0) in
  let* transport := subspan_from packet ip_length in
  let* pseudo := pseudo_header_sum packet protocol (length transport) in
  let* sum := checksum_add transport 0 in
  let value := u16 (Z.lnot (fold_checksum (u64 (pseudo + sum)))) in
  let value := if (protocol =? kProtocolUdp) && (value =? 0) then 0xFFFF else value in
  with_subspan packet ip_length (λ transport, store16 transport field value).

Definition transport_checksum_valid (packet : list Z) : res unit bool :=
  let* ip_length := ip_header_length packet in
  if (length packet <? ip_length)%nat then Ok false else
  let* transport := subspan_from packet ip_length in
  let* protocol := ip_protocol packet in
  let* pseudo := pseudo_header_sum packet protocol (length transport) in
  let* sum := checksum_add transport 0 in
  Ok (fold_checksum (u64 (pseudo + sum)) =? 0xFFFF).

(** ** The virtio header: host (little-endian) 16-bit fields *)

Definition little (bytes : list Z) (offset : nat) : res unit Z :=
  let* low := rd bytes offset in
  let* high := rd bytes (offset + 1) in
  Ok (low + 256 * high).

Definition parse_virtio_header (bytes : list Z) : res unit VirtioHeader :=
  if (length bytes <? kVirtioHeaderSize)%nat then Ok (mkVirtio 0 0 0 0 0 0) else
  let* f := rd bytes 0 in
  let* t := rd bytes 1 in
  let* hl := little bytes 2 in
  let* gs := little bytes 4 in
  let* cs := little bytes 6 in
  let* co := little bytes 8 in
  Ok (mkVirtio f t hl gs cs co).

Definition put_little (out : list Z) (offset : nat) (value : Z) : res unit (list Z) :=
  blit out offset [u8 value; u8 (Z.shiftr value 8)].

Definition write_virtio_header (header : VirtioHeader) (out : list Z) : res unit (list Z) :=
  if (length out <? kVirtioHeaderSize)%nat then Ok out else
  let* out := wr out 0 (flags header) in
  let* out := wr out 1 (gso_type header) in
  let* out := put_little out 2 (header_length header) in
  let* out := put_little out 4 (gso_size header) in
  let* out := put_little out 6 (checksum_start header) in
  put_little out 8 (checksum_offset header).

(** ** Expanding an offloaded packet *)

(** What [expand_offloaded] leaves in the packet and in the scratch vector,
    the packets it gave to the sink, and what it returns. *)
Record Expansion := mkExpansion {
  ex_packet : list Z;
  ex_scratch : list Z;
  ex_sunk : list (list Z);
  ex_done : bool;
}.

(** The fields of the offloaded packet the loop uses. *)
Record Offloaded := mkOffloaded {
  of_ipv4 : bool;
  of_tcp : bool;
  of_protocol : Z;
  of_ip_length : nat;
  of_headers : nat;
  of_segment : nat;
  of_sequence : Z;
  of_flags : Z;
  of_identifier : Z;
}.

Definition segment_flags (o : Offloaded) (index : nat) (last : bool) : Z :=
  let f := of_flags o in
  let f := if negb last then u8 (Z.land f kKeepUnlessLast) else f in
  if (0 <? index)%nat then u8 (Z.land f kKeepUnlessFirst) else f.

(** One turn of the loop: the headers and the payload at [offset] are copied
    into the scratch vector, then the fields that differ are patched. *)
Definition copy_segment (o : Offloaded) (packet scratch : list Z) (offset chunk : nat) : res unit (list Z) :=
  let* payload := subspan_from packet (of_headers o) in
  let out := resize scratch (of_headers o + chunk) in
  let* front := span_first packet (of_headers o) in
  let* out := blit out 0 front in
  let* piece := subspan payload offset chunk in
  blit out (of_headers o) piece.

Definition patch_segment (o : Offloaded) (out : list Z) (index offset chunk : nat) (last : bool)
    : res unit (list Z) :=
  let* out := if of_ipv4 o then store16 out 4 (u16 (of_identifier o + Z.of_nat index)) else Ok out in
  let* out := set_ip_length out (length out) in
  let* out :=
    if of_tcp o then
      let* out := store32 out (of_ip_length o + 4) (u32 (of_sequence o + Z.of_nat offset)) in
      wr out (of_ip_length o + 13) (u8 (segment_flags o index last))
    else store16 out (of_ip_length o + 4) (u16 (8 + Z.of_nat chunk)) in
  finish_transport_checksum out (of_ip_length o) (of_protocol o).

Definition build_segment (o : Offloaded) (packet scratch : list Z) (index offset : nat) : res unit (list Z) :=
  let remaining := (length packet - of_headers o - offset)%nat in
  let chunk := (of_segment o `min` remaining)%nat in
  let last := (length packet - of_headers o <=? offset + chunk)%nat in
  let* out := copy_segment o packet scratch offset chunk in
  patch_segment o out index offset chunk last.

Fixpoint segment_loop (fuel : nat) (o : Offloaded) (packet scratch : list Z) (index offset : nat)
    (sunk : list (list Z)) : res unit (list Z * list (list Z)) :=
  match fuel with
  | O => Ok (scratch, sunk)
  | S fuel =>
      if (offset <? length packet - of_headers o)%nat then
        let* out := build_segment o packet scratch index offset in
        segment_loop fuel o packet out (S index) (offset + of_segment o) (sunk ++ [out])
      else Ok (scratch, sunk)
  end.

(** [header.gso_type == kGsoNone]: at most the checksum is missing. *)
Definition complete_checksum (header : VirtioHeader) (packet scratch : list Z) (protocol : Z)
    : res unit Expansion :=
  if negb (Z.land (flags header) kVirtioNeedsChecksum =? 0) then
    let start := Z.to_nat (checksum_start header) in
    let field := (start + Z.to_nat (checksum_offset header))%nat in
    if (length packet <? field + 2)%nat || (length packet <=? start)%nat
    then Ok (mkExpansion packet scratch [] false) else
    let* part := subspan_from packet start in
    let* sum := checksum_add part 0 in
    let value := u16 (Z.lnot (fold_checksum sum)) in
    let value := if (protocol =? kProtocolUdp) && (value =? 0) then 0xFFFF else value in
    let* packet := store16 packet field value in
    Ok (mkExpansion packet scratch [packet] true)
  else Ok (mkExpansion packet scratch [packet] true).

Definition expand_offloaded (header : VirtioHeader) (packet scratch : list Z) : res unit Expansion :=
  let refuse := Ok (mkExpansion packet scratch [] false) in
  if (length packet <? 20)%nat then refuse else
  let ipv4 := is_ipv4 packet in
  let* ip_length := ip_header_length packet in
  if (ip_length <? 20)%nat || (length packet <? ip_length)%nat then refuse else
  let* protocol := ip_protocol packet in
  if gso_type header =? kGsoNone then complete_checksum header packet scratch protocol else
  let tcp := (gso_type header =? kGsoTcpV4) || (gso_type header =? kGsoTcpV6) in
  let udp := gso_type header =? kGsoUdpL4 in
  if (negb tcp && negb udp) || (gso_size header =? 0) then refuse else
  if tcp && negb (protocol =? kProtocolTcp) then refuse else
  if udp && negb (protocol =? kProtocolUdp) then refuse else
  if (length packet <? ip_length + (if tcp then 20 else 8))%nat then refuse else
  let* transport_length :=
    if tcp then let* b := rd packet (ip_length + 12) in Ok (Z.to_nat (Z.shiftr b 4) * 4)%nat
    else Ok 8%nat in
  let headers := (ip_length + transport_length)%nat in
  if (transport_length <? 8)%nat || (length packet <? headers)%nat then refuse else
  let* sequence := if tcp then load32 packet (ip_length + 4) else Ok 0 in
  let* flags := if tcp then rd packet (ip_length + 13) else Ok 0 in
  let* identifier := if ipv4 then load16 packet 4 else Ok 0 in
  let o := mkOffloaded ipv4 tcp protocol ip_length headers (Z.to_nat (gso_size header))
             sequence flags identifier in
  let* r := segment_loop (length packet) o packet scratch 0 0 [] in
  Ok (mkExpansion packet r.1 r.2 true).

(** * The Internet checksum

    The reference is the plain sum of the big-endian 16-bit words, an odd last
    byte being the high half of a word. *)

Fixpoint word_sum (l : list Z) : Z :=
  match l with
  | a :: b :: l => be_value [a; b] + word_sum l
  | [a] => a * 256
  | [] => 0
  end.

Lemma word_ind (P : list Z → Prop) :
  P [] → (∀ a, P [a]) → (∀ a b l, P l → P (a :: b :: l)) → ∀ l, P l.
Proof.
  intros H0 H1 H2 l. enough (P l ∧ ∀ a, P (a :: l)) as [? _] by done.
  induction l as [|x l [IH1 IH2]]; auto.
Qed.

Lemma word_sum_app l m : Nat.Even (length l) → word_sum (l ++ m) = word_sum l + word_sum m.
Proof.
  induction l as [|a|a b l IH] using word_ind; intros He; [done|by destruct He; cbn in *; lia|].
  cbn [app word_sum]. rewrite IH; [lia|]. destruct He as [k Hk]. exists (k - 1)%nat. cbn in Hk. lia.
Qed.

Lemma word_sum_bound l : bytes_ok l → 0 ≤ word_sum l ≤ 65535 * blen l.
Proof.
  induction l as [|a|a b l IH] using word_ind; intros Hb; [done| |].
  - apply Forall_cons in Hb as [Ha _]. unfold blen. cbn. word_lia.
  - apply Forall_cons in Hb as [Ha [Hb Hl]%Forall_cons]. specialize (IH Hl).
    cbn [word_sum]. rewrite be_value_2. unfold blen in *. cbn [length]. word_lia.
Qed.

Lemma word_sum_put l o v : (o + 2 ≤ length l)%nat → Nat.Even o →
  word_sum (put l o (be_bytes 2 v)) + be_value (slice o 2 l) = word_sum l + u16 v.
Proof.
  intros Hl He. assert (Nat.Even (length (take o l))) by (rewrite length_take, Nat.min_l by lia; done).
  assert (word_sum l = word_sum (take o l) + word_sum (drop o l)) as ->
    by (by rewrite <- word_sum_app, take_drop).
  unfold put. rewrite !word_sum_app by done. rewrite length_be_bytes, <- (drop_drop l 2 o).
  unfold slice. assert (2 ≤ length (drop o l))%nat by (rewrite length_drop; lia).
  pose proof (be_value_be_bytes 2 v) as Hv. cbn [be_bytes] in *. explode (drop o l) 2%nat.
  cbn [app word_sum take drop]. rewrite Hv, drop_0. change (256 ^ Z.of_nat 2) with (2 ^ 16). unfold u16. rewrite take_0. lia.
Qed.

(** ** Folding *)

Lemma fold_step s : 0 ≤ s < 2 ^ 64 → let s' := u64 (Z.land s 0xFFFF + Z.shiftr s 16) in
  s' = s mod 2 ^ 16 + s / 2 ^ 16.
Proof.
  intros Hs. cbn zeta. change 0xFFFF with (Z.ones 16). rewrite Z.land_ones, shiftr_div by lia.
  apply u64_id. unfold is_u64. pose proof (Z.mod_pos_bound s (2 ^ 16)).
  pose proof (Z.div_lt_upper_bound s (2 ^ 16) (2 ^ 48)). pose proof (Z.div_pos s (2 ^ 16)). lia.
Qed.

(** The sum keeps its value modulo 65535 and does not become zero. *)
Lemma fold_loop_residue fuel s : 0 ≤ s < 2 ^ 64 →
  0 ≤ fold_loop fuel s < 2 ^ 64 ∧ (fold_loop fuel s) mod 65535 = s mod 65535 ∧ (fold_loop fuel s = 0 ↔ s = 0).
Proof.
  revert s. induction fuel as [|fuel IH]; intros s Hs; [done|]. cbn [fold_loop].
  destruct (Z.eqb_spec (Z.shiftr s 16) 0) as [E|E]; [done|].
  pose proof (fold_step s Hs) as Es. cbn zeta in Es. rewrite Es.
  pose proof (Z.div_mod s (2 ^ 16)). pose proof (Z.mod_pos_bound s (2 ^ 16)).
  rewrite shiftr_div in E by lia. pose proof (Z.div_pos s (2 ^ 16)).
  destruct (IH (s mod 2 ^ 16 + s / 2 ^ 16)) as (Hr & Hm & Hz); [lia|].
  split; [done|]. split; [|rewrite Hz; lia]. rewrite Hm.
  replace s with (s mod 2 ^ 16 + s / 2 ^ 16 + (s / 2 ^ 16) * 65535) at 3 by lia. by rewrite Z.mod_add.
Qed.

Lemma fold_loop_small n s : 0 ≤ s < 2 ^ 16 → fold_loop n s = s.
Proof.
  intros Hs. destruct n; [done|]. cbn [fold_loop]. rewrite shiftr_div, Z.div_small by lia. done.
Qed.

Lemma fold_loop_S fuel s b : 0 ≤ s < 2 ^ 64 → 0 ≤ b → s ≤ b * 2 ^ 16 + (2 ^ 16 - 1) →
  ∃ s', fold_loop (S fuel) s = fold_loop fuel s' ∧ 0 ≤ s' < 2 ^ 64 ∧ s' ≤ b + (2 ^ 16 - 1).
Proof.
  intros Hs Hb Hle. cbn [fold_loop]. destruct (Z.eqb_spec (Z.shiftr s 16) 0) as [E|E].
  - exists s. rewrite shiftr_div in E by lia. apply Z.div_small_iff in E; [|lia]. rewrite fold_loop_small; lia.
  - eexists. split; [done|]. pose proof (fold_step s Hs) as Es. cbn zeta in Es. rewrite Es.
    pose proof (Z.div_mod s (2 ^ 16)). pose proof (Z.mod_pos_bound s (2 ^ 16)).
    pose proof (Z.div_pos s (2 ^ 16)). assert (s / 2 ^ 16 < b + 1); [|lia].
    apply Z.div_lt_upper_bound; lia.
Qed.

Lemma fold_loop_enough s : 0 ≤ s < 2 ^ 64 → 0 ≤ fold_loop 5 s < 2 ^ 16.
Proof.
  intros H0. destruct (fold_loop_S 4 s (2 ^ 48 - 1) H0) as (s1 & -> & H1 & L1); [lia..|].
  destruct (fold_loop_S 3 s1 (2 ^ 32) H1) as (s2 & -> & H2 & L2); [lia..|].
  destruct (fold_loop_S 2 s2 65537 H2) as (s3 & -> & H3 & L3); [lia..|].
  destruct (fold_loop_S 1 s3 2 H3) as (s4 & -> & H4 & L4); [lia..|].
  destruct (decide (s4 < 2 ^ 16)); [rewrite fold_loop_small; lia|].
  cbn [fold_loop]. pose proof (fold_step s4 H4) as Es. cbn zeta in Es. rewrite Es.
  assert (s4 / 2 ^ 16 = 1 ∧ s4 mod 2 ^ 16 = s4 - 2 ^ 16) as [Hq Hr].
  { pose proof (Z.div_mod s4 (2 ^ 16)). pose proof (Z.mod_pos_bound s4 (2 ^ 16)). nia. }
  rewrite shiftr_div, Hq, Hr by lia. cbn. lia.
Qed.

Lemma fold_checksum_spec s : 0 ≤ s < 2 ^ 64 →
  is_u16 (fold_checksum s) ∧ fold_checksum s mod 65535 = s mod 65535 ∧ (fold_checksum s = 0 ↔ s = 0).
Proof.
  intros Hs. unfold fold_checksum. pose proof (fold_loop_enough s Hs).
  rewrite u16_id by done. destruct (fold_loop_residue 5 s Hs) as (_ & ? & ?). done.
Qed.

Lemma fold_checksum_ones s : 0 < s < 2 ^ 64 → s mod 65535 = 0 → fold_checksum s = 65535.
Proof.
  intros Hs Hm. destruct (fold_checksum_spec s) as (Hr & Hf & Hz); [lia|]. unfold is_u16 in Hr.
  rewrite Hm in Hf. pose proof (Z.div_mod (fold_checksum s) 65535). nia.
Qed.

(** The complement of a sum completes it, also when zero stands for 0xFFFF. *)
Lemma complement_completes s v : 0 ≤ s < 2 ^ 63 → v = u16 (Z.lnot (fold_checksum s)) ∨ v = 0xFFFF ∧ u16 (Z.lnot (fold_checksum s)) = 0 →
  is_u16 v ∧ fold_checksum (u64 (s + v)) = 65535.
Proof.
  intros Hs Hv. destruct (fold_checksum_spec s) as (Hr & Hf & Hz); [lia|].
  assert (u16 (Z.lnot (fold_checksum s)) = 65535 - fold_checksum s) as En.
  { unfold u16. unfold is_u16 in Hr. rewrite Z.lnot_eq_pred_opp.
    rewrite <- (Z.mod_add _ 1) by lia. rewrite Z.mod_small by lia. lia. }
  rewrite En in Hv. unfold is_u16 in *. assert (0 ≤ v < 2 ^ 16) by lia. split; [done|].
  rewrite u64_id by (unfold is_u64; lia). apply fold_checksum_ones; [lia|].
  rewrite Zplus_mod, <- Hf, <- Zplus_mod. destruct Hv as [->|[-> E]].
  - by replace (fold_checksum s + (65535 - fold_checksum s)) with 65535 by lia.
  - replace (fold_checksum s) with 65535 by lia. done.
Qed.

(** ** The loops *)

Lemma load16_spec bytes o : bytes_ok bytes → (o + 2 ≤ length bytes)%nat →
  load16 bytes o = Ok (be_value (slice o 2 bytes)).
Proof.
  intros Hb Hl. change (load16 bytes o) with (read_u16 (E:=unit) bytes o).
  assert (bytes_ok (drop o bytes)) as Hd by auto with norr.
  assert (2 ≤ length (drop o bytes))%nat by (rewrite length_drop; lia).
  unfold slice. destruct (drop o bytes) as [|x [|y l]] eqn:E; [cbn in *; lia..|].
  apply Forall_cons in Hd as [Hx [Hy _]%Forall_cons]. by eapply read_u16_spec.
Qed.

Lemma load32_spec bytes o : bytes_ok bytes → (o + 4 ≤ length bytes)%nat →
  load32 bytes o = Ok (be_value (slice o 4 bytes)).
Proof.
  intros Hb Hl. change (load32 bytes o) with (read_u32 (E:=unit) bytes o).
  assert (bytes_ok (drop o bytes)) as Hd by auto with norr.
  assert (4 ≤ length (drop o bytes))%nat by (rewrite length_drop; lia).
  unfold slice. destruct (drop o bytes) as [|x [|y [|z [|w l]]]] eqn:E; [cbn in *; lia..|].
  apply Forall_cons in Hd as [Hx [Hy [Hz [Hw _]%Forall_cons]%Forall_cons]%Forall_cons].
  by eapply read_u32_spec.
Qed.

Lemma store16_spec bytes o v : (o + 2 ≤ length bytes)%nat →
  store16 bytes o v = Ok (put bytes o (be_bytes 2 v)).
Proof.
  intros Hl. unfold store16. rewrite land_255. etransitivity; [exact (write_u16_spec bytes o v Hl)|].
  unfold put. by rewrite length_be_bytes.
Qed.

Lemma store32_spec bytes o v : is_u32 v → (o + 4 ≤ length bytes)%nat →
  store32 bytes o v = Ok (put bytes o (be_bytes 4 v)).
Proof.
  intros Hv Hl. unfold put. rewrite length_be_bytes, <- (write_u32_spec (E:=unit) bytes o v) by done.
  unfold store32, write_u32. by rewrite (land_255 (Z.shiftr v 24)).
Qed.

Lemma drop_words bytes o : bytes_ok bytes → (o + 2 ≤ length bytes)%nat →
  word_sum (drop o bytes) = be_value (slice o 2 bytes) + word_sum (drop (o + 2) bytes) ∧
  0 ≤ be_value (slice o 2 bytes) ∧ 0 ≤ word_sum (drop (o + 2) bytes).
Proof.
  intros Hb Hl. split.
  - unfold slice. rewrite <- (drop_drop bytes 2 o).
    assert (2 ≤ length (drop o bytes))%nat by (rewrite length_drop; lia).
    explode (drop o bytes) 2%nat. cbn [drop take word_sum]. by rewrite take_0, ?drop_0.
  - split; [apply be_value_bound|apply word_sum_bound]; auto with norr.
Qed.

(** Sums that stay in 64 bits, innermost first. *)
Ltac no_wrap :=
  repeat match goal with
  | |- context [u64 ?x] =>
      lazymatch x with
      | context [u64 _] => fail
      | _ => rewrite (u64_id x) by (unfold is_u64, is_u16, is_u8 in *; lia)
      end
  end.

(** What is left to add after a loop that stopped at [index]. *)
Definition to_add (bytes : list Z) (total : Z) (r : nat * Z) : Prop :=
  (r.1 ≤ length bytes)%nat ∧ 0 ≤ r.2 ∧ r.2 + word_sum (drop r.1 bytes) = total.

Lemma add_eights_spec fuel bytes index sum total : bytes_ok bytes → total < 2 ^ 64 →
  to_add bytes total (index, sum) → ∃ r, add_eights fuel bytes index sum = Ok r ∧ to_add bytes total r.
Proof.
  intros Hb Ht. revert index sum. induction fuel as [|fuel IH]; intros index sum Hi; [by eexists|].
  cbn [add_eights]. destruct (Nat.leb_spec (index + 8) (length bytes)); [|by eexists].
  rewrite !load16_spec by (done || lia). cbn [rbind]. destruct Hi as (_ & Hs & Hi). cbn [fst snd] in *.
  destruct (drop_words bytes index) as (E1 & P1 & _); [done|lia|].
  destruct (drop_words bytes (index + 2)) as (E2 & P2 & _); [done|lia|].
  destruct (drop_words bytes (index + 2 + 2)) as (E3 & P3 & _); [done|lia|].
  destruct (drop_words bytes (index + 2 + 2 + 2)) as (E4 & P4 & P5); [done|lia|].
  replace (index + 4)%nat with (index + 2 + 2)%nat by lia.
  replace (index + 6)%nat with (index + 2 + 2 + 2)%nat by lia.
  no_wrap. apply IH. unfold to_add. cbn [fst snd].
  replace (index + 8)%nat with (index + 2 + 2 + 2 + 2)%nat by lia. lia.
Qed.

Lemma add_pairs_spec fuel bytes index sum total : bytes_ok bytes → total < 2 ^ 64 →
  to_add bytes total (index, sum) → (length bytes - index ≤ fuel)%nat →
  ∃ r, add_pairs fuel bytes index sum = Ok r ∧ to_add bytes total r ∧ (length bytes ≤ r.1 + 1)%nat.
Proof.
  intros Hb Ht. revert index sum. induction fuel as [|fuel IH]; intros index sum Hi Hf.
  { eexists. split; [done|]. split; [done|]. cbn. lia. }
  cbn [add_pairs]. destruct (Nat.ltb_spec (index + 1) (length bytes)); [|by eexists].
  rewrite load16_spec by (done || lia). cbn [rbind]. destruct Hi as (_ & Hs & Hi). cbn [fst snd] in *.
  destruct (drop_words bytes index) as (E1 & P1 & P2); [done|lia|].
  no_wrap. apply IH; [|lia]. unfold to_add. cbn [fst snd]. lia.
Qed.

(** The unrolled loops compute the plain sum. *)
Lemma checksum_add_spec bytes initial : bytes_ok bytes → 0 ≤ initial → initial + word_sum bytes < 2 ^ 64 →
  checksum_add bytes initial = Ok (initial + word_sum bytes).
Proof.
  intros Hb Hi Ht. unfold checksum_add.
  destruct (add_eights_spec (length bytes) bytes 0 initial _ Hb Ht) as (r1 & -> & H1).
  { unfold to_add. cbn [fst snd]. rewrite drop_0. lia. }
  destruct r1 as [i1 s1]. cbn [rbind fst snd].
  destruct (add_pairs_spec (length bytes) bytes i1 s1 _ Hb Ht H1) as ([i2 s2] & -> & (L & P & E) & Hend); [lia|].
  cbn [rbind fst snd] in *. destruct (Nat.ltb_spec i2 (length bytes)) as [Hlt|Hge].
  - destruct (lookup_lt_is_Some_2 bytes i2 Hlt) as [x Hx]. rewrite (rd_ok _ _ _ Hx). cbn [rbind].
    rewrite (drop_S _ _ _ Hx), (drop_ge bytes (S i2)) in E by lia. cbn [word_sum] in E.
    assert (is_u8 x) by (eapply Forall_lookup_1; eauto).
    rewrite Z.shiftl_mul_pow2 by lia. change (2 ^ 8) with 256. no_wrap. by rewrite E.
  - rewrite drop_ge in E by lia. cbn [word_sum] in E. f_equal. lia.
Qed.

(** ** The parts of a packet the checksums cover *)

Definition ip_len (p : list Z) : nat := if is_ipv4 p then Z.to_nat (Z.land (p !!! 0%nat) 0x0F) * 4 else 40.
Definition fixed_len (p : list Z) : nat := if is_ipv4 p then 20 else 40.
Definition protocol_at (p : list Z) : nat := if is_ipv4 p then 9 else 6.
Definition addresses (p : list Z) : list Z := if is_ipv4 p then slice 12 8 p else slice 8 32 p.
Definition pseudo (p : list Z) (protocol : Z) (length : nat) : Z :=
  protocol + word_sum (addresses p) +
  if is_ipv4 p then Z.of_nat length else Z.of_nat length / 2 ^ 16 + Z.of_nat length mod 2 ^ 16.

Lemma ip_header_length_spec p : ip_header_length p = Ok (ip_len p).
Proof. unfold ip_header_length, ip_len. destruct (is_ipv4 p) eqn:E; [|done]. by destruct p. Qed.

(** Only the first byte tells the two versions apart. *)
Lemma is_ipv4_put p o bs : (1 ≤ o)%nat → (o + length bs ≤ length p)%nat → is_ipv4 (put p o bs) = is_ipv4 p.
Proof.
  intros Ho Hl. assert (take 1 (put p o bs) = take 1 p) as E by (by apply take_put).
  destruct (put p o bs), p; try done. by injection E as ->.
Qed.

Lemma ip_len_put p o bs : (1 ≤ o)%nat → (o + length bs ≤ length p)%nat → ip_len (put p o bs) = ip_len p.
Proof.
  intros Ho Hl. unfold ip_len. rewrite is_ipv4_put by done.
  rewrite !list_lookup_total_alt, lookup_put_other by lia. done.
Qed.

Lemma addresses_put p o bs : (fixed_len p ≤ o)%nat → (o + length bs ≤ length p)%nat →
  addresses (put p o bs) = addresses p.
Proof.
  unfold fixed_len, addresses. intros Ho Hl. rewrite is_ipv4_put by (destruct (is_ipv4 p); lia).
  destruct (is_ipv4 p); apply slice_put_other; lia.
Qed.

Lemma pseudo_put p o bs protocol n : (fixed_len p ≤ o)%nat → (o + length bs ≤ length p)%nat →
  pseudo (put p o bs) protocol n = pseudo p protocol n.
Proof.
  intros Ho Hl. unfold pseudo. rewrite addresses_put by done.
  rewrite is_ipv4_put by (unfold fixed_len in Ho; destruct (is_ipv4 p); lia). done.
Qed.

Lemma addresses_sum p : bytes_ok p → (fixed_len p ≤ length p)%nat → 0 ≤ word_sum (addresses p) < 2 ^ 22.
Proof.
  intros Hb Hl. unfold fixed_len, addresses in *. destruct (is_ipv4 p).
  - pose proof (word_sum_bound (slice 12 8 p)) as H. unfold blen in H. rewrite length_slice in H by lia.
    specialize (H (slice_bytes _ _ _ Hb)). lia.
  - pose proof (word_sum_bound (slice 8 32 p)) as H. unfold blen in H. rewrite length_slice in H by lia.
    specialize (H (slice_bytes _ _ _ Hb)). lia.
Qed.

Lemma pseudo_range p protocol n : bytes_ok p → (fixed_len p ≤ length p)%nat → is_u8 protocol →
  Z.of_nat n < 2 ^ 32 → 0 ≤ pseudo p protocol n < 2 ^ 40.
Proof.
  intros Hb Hl Hp Hn. pose proof (addresses_sum p Hb Hl). unfold pseudo, is_u8 in *.
  pose proof (Z.div_le_upper_bound (Z.of_nat n) (2 ^ 16) (2 ^ 16)). pose proof (Z.div_pos (Z.of_nat n) (2 ^ 16)).
  pose proof (Z.mod_pos_bound (Z.of_nat n) (2 ^ 16)). destruct (is_ipv4 p); lia.
Qed.

Lemma pseudo_header_sum_spec p protocol n : bytes_ok p → (fixed_len p ≤ length p)%nat → is_u8 protocol →
  Z.of_nat n < 2 ^ 32 → pseudo_header_sum p protocol n = Ok (pseudo p protocol n).
Proof.
  intros Hb Hl Hp Hn. pose proof (addresses_sum p Hb Hl) as Ha. unfold pseudo_header_sum, pseudo.
  pose proof (Z.div_le_upper_bound (Z.of_nat n) (2 ^ 16) (2 ^ 16)). pose proof (Z.div_pos (Z.of_nat n) (2 ^ 16)).
  pose proof (Z.mod_pos_bound (Z.of_nat n) (2 ^ 16)).
  unfold fixed_len, addresses in *. unfold is_u8 in Hp. destruct (is_ipv4 p).
  - rewrite subspan_ok by lia. cbn [rbind]. fold (slice 12 8 p).
    rewrite checksum_add_spec by (auto with norr; lia). cbn [rbind]. by no_wrap.
  - rewrite subspan_ok by lia. cbn [rbind]. fold (slice 8 32 p).
    rewrite checksum_add_spec by (auto with norr; lia). cbn [rbind].
    change 0xFFFF with (Z.ones 16). rewrite Z.land_ones, shiftr_div by lia. no_wrap. f_equal. lia.
Qed.

(** ** Filling in the checksums *)

Lemma with_subspan_store p from o v : (from + o + 2 ≤ length p)%nat →
  with_subspan p from (λ part, store16 part o v) = Ok (put p (from + o) (be_bytes 2 v)).
Proof.
  intros Hl. unfold with_subspan. rewrite subspan_from_ok by lia. cbn [rbind].
  rewrite store16_spec by (rewrite length_drop; lia). cbn [rbind]. f_equal.
  rewrite <- drop_put_inside by (rewrite length_be_bytes; lia).
  rewrite <- (take_put p (from + o) (be_bytes 2 v) from) by (rewrite ?length_be_bytes; lia).
  apply take_drop.
Qed.

Definition checksum_at (protocol : Z) : nat := if protocol =? kProtocolTcp then 16 else 6.

Definition transport_sum (p : list Z) (protocol : Z) : Z :=
  pseudo p protocol (length (drop (ip_len p) p)) + word_sum (drop (ip_len p) p).

Lemma fixed_len_pos p : (20 ≤ fixed_len p)%nat.
Proof. unfold fixed_len. destruct (is_ipv4 p); lia. Qed.

Lemma checksum_at_even protocol : Nat.Even (checksum_at protocol).
Proof. unfold checksum_at. destruct (_ =? _); [by exists 8%nat|by exists 3%nat]. Qed.

(** A field of the transport header adds its value to the sum. *)
Lemma transport_sum_field p protocol c v : (fixed_len p ≤ ip_len p)%nat → (ip_len p + c + 2 ≤ length p)%nat →
  Nat.Even c → is_u16 v →
  transport_sum (put p (ip_len p + c) (be_bytes 2 v)) protocol =
  pseudo p protocol (length (drop (ip_len p) p)) + word_sum (drop (ip_len p) p) -
    be_value (slice c 2 (drop (ip_len p) p)) + v.
Proof.
  intros Hf Hl He Hv. pose proof (fixed_len_pos p). unfold transport_sum.
  rewrite ip_len_put by (rewrite ?length_be_bytes; lia). rewrite pseudo_put by (rewrite ?length_be_bytes; lia).
  rewrite drop_put_inside by (rewrite length_be_bytes; lia).
  rewrite length_put by (rewrite length_drop, length_be_bytes; lia).
  pose proof (word_sum_put (drop (ip_len p) p) c v) as H1. rewrite length_drop in H1.
  specialize (H1 ltac:(lia) He). rewrite u16_id in H1 by done. lia.
Qed.

Lemma transport_sum_range p protocol : bytes_ok p → Z.of_nat (length p) < 2 ^ 32 → is_u8 protocol →
  (fixed_len p ≤ length p)%nat → 0 ≤ transport_sum p protocol < 2 ^ 63.
Proof.
  intros Hb Hl Hp Hf. unfold transport_sum.
  pose proof (pseudo_range p protocol (length (drop (ip_len p) p)) Hb Hf Hp) as H1.
  pose proof (word_sum_bound (drop (ip_len p) p)) as H2. unfold blen in H2. rewrite length_drop in *.
  specialize (H1 ltac:(lia)). specialize (H2 ltac:(auto with norr)). lia.
Qed.

Lemma transport_sum_code p protocol : bytes_ok p → Z.of_nat (length p) < 2 ^ 32 → is_u8 protocol →
  (fixed_len p ≤ length p)%nat →
  pseudo_header_sum p protocol (length (drop (ip_len p) p)) = Ok (pseudo p protocol (length (drop (ip_len p) p))) ∧
  checksum_add (drop (ip_len p) p) 0 = Ok (word_sum (drop (ip_len p) p)).
Proof.
  intros Hb Hl Hp Hf. pose proof (word_sum_bound (drop (ip_len p) p)) as H2. unfold blen in H2.
  specialize (H2 ltac:(auto with norr)). rewrite length_drop in H2.
  split; [apply pseudo_header_sum_spec|rewrite checksum_add_spec]; try done; auto with norr; rewrite ?length_drop; lia.
Qed.

Lemma finish_transport_checksum_spec p protocol : bytes_ok p → Z.of_nat (length p) < 2 ^ 32 →
  is_u8 protocol → (fixed_len p ≤ ip_len p)%nat → (ip_len p + checksum_at protocol + 2 ≤ length p)%nat →
  ∃ v, is_u16 v ∧
    finish_transport_checksum p (ip_len p) protocol = Ok (put p (ip_len p + checksum_at protocol) (be_bytes 2 v)) ∧
    fold_checksum (transport_sum (put p (ip_len p + checksum_at protocol) (be_bytes 2 v)) protocol) = 0xFFFF.
Proof.
  intros Hb Hlen Hp Hf Hl. pose proof (fixed_len_pos p). pose proof (checksum_at_even protocol) as He.
  unfold finish_transport_checksum. fold (checksum_at protocol). set (c := checksum_at protocol) in *.
  rewrite with_subspan_store by lia. cbn [rbind]. set (z := put p (ip_len p + c) (be_bytes 2 0)).
  assert (length z = length p) as Lz by (apply length_put; rewrite length_be_bytes; lia).
  assert (ip_len p = ip_len z) as Iz by (symmetry; apply ip_len_put; rewrite ?length_be_bytes; lia).
  assert (fixed_len z = fixed_len p) as Fz
    by (unfold fixed_len, z; by rewrite is_ipv4_put by (rewrite ?length_be_bytes; lia)).
  assert (bytes_ok z) as Bz by (apply put_bytes; auto with norr).
  rewrite subspan_from_ok by lia. cbn [rbind]. 
  destruct (transport_sum_code z protocol) as [E1 E2]; [done|lia|done|lia|]. rewrite <- Iz in E1, E2.
  rewrite E1, E2. cbn [rbind]. clear E1 E2.
  assert (transport_sum z protocol = pseudo z protocol (length (drop (ip_len p) z)) + word_sum (drop (ip_len p) z)) as Es
    by (unfold transport_sum; by rewrite <- Iz).
  rewrite <- Es. clear Es. pose proof (transport_sum_range z protocol Bz ltac:(lia) Hp ltac:(lia)) as Rs.
  rewrite (u64_id (transport_sum _ _)) by (unfold is_u64; lia).
  match goal with |- context [with_subspan _ _ (λ _, store16 _ _ ?v)] => set (w := v) end.
  destruct (complement_completes (transport_sum z protocol) w) as [Rv Hv]; [done| |].
  { unfold w. destruct (_ && _) eqn:E; [right|by left]. by apply andb_true_iff in E as [_ E%Z.eqb_eq]. }
  exists w. split; [done|]. rewrite with_subspan_store by lia.
  split; [f_equal; apply put_put; rewrite ?length_be_bytes; [done|lia]|].
  rewrite <- Hv. f_equal. unfold z in Rs |- *. rewrite !transport_sum_field by (done || lia).
  rewrite transport_sum_field in Rs by (done || lia). unfold is_u16 in Rv. rewrite u64_id; [lia|unfold is_u64; lia].
Qed.

Lemma take_put_inside l o bs n : (o + length bs ≤ n)%nat → (n ≤ length l)%nat →
  take n (put l o bs) = put (take n l) o bs.
Proof.
  intros Ho Hn. unfold put. rewrite take_app_ge by (rewrite length_take; lia).
  rewrite take_app_ge by (rewrite length_take; lia). rewrite take_take, length_take, !Nat.min_l by lia.
  do 2 f_equal. rewrite take_drop_commute. do 2 f_equal. lia.
Qed.

(** ** Bytes that stay as they are *)

(** [c] is [b] outside the bytes [o .. o + n - 1]. *)
Definition rewritten (b : list Z) (o n : nat) (c : list Z) : Prop :=
  length c = length b ∧ (bytes_ok b → bytes_ok c) ∧ ∀ k, (k < o ∨ o + n ≤ k)%nat → c !! k = b !! k.

Lemma put_rewritten b o bs : bytes_ok bs → (o + length bs ≤ length b)%nat →
  rewritten b o (length bs) (put b o bs).
Proof.
  intros Hb Hl. split; [by apply length_put|]. split; [auto with norr|]. intros k Hk.
  by apply lookup_put_other.
Qed.

Lemma slice_ext b c p m : (∀ k, (p ≤ k < p + m)%nat → c !! k = b !! k) → slice p m c = slice p m b.
Proof.
  intros Hk. apply list_eq. intros k. destruct (decide (k < m)%nat).
  - rewrite !lookup_slice by done. apply Hk. lia.
  - rewrite !lookup_ge_None_2; [done|unfold slice; rewrite length_take; lia..].
Qed.

Lemma rewritten_slice b o n c p m : rewritten b o n c → (p + m ≤ o ∨ o + n ≤ p)%nat → slice p m c = slice p m b.
Proof. intros (_ & _ & Hk) Hp. apply slice_ext. intros k ?. apply Hk. lia. Qed.

Lemma rewritten_drop b o n c m : rewritten b o n c → (o + n ≤ m)%nat → drop m c = drop m b.
Proof. intros (_ & _ & Hk) Hm. apply list_eq. intros k. rewrite !lookup_drop. apply Hk. lia. Qed.

Lemma rewritten_ipv4 b o n c : rewritten b o n c → (1 ≤ o)%nat → is_ipv4 c = is_ipv4 b ∧ ip_len c = ip_len b.
Proof.
  intros Hr Ho. pose proof (rewritten_slice b o n c 0 1 Hr ltac:(lia)) as E. unfold slice in E. rewrite !drop_0 in E.
  destruct b, c; try done. by injection E as ->.
Qed.

Lemma store16_rewritten b o v : (o + 2 ≤ length b)%nat →
  ∃ c, store16 b o v = Ok c ∧ rewritten b o 2 c ∧ slice o 2 c = be_bytes 2 v.
Proof.
  intros Hl. rewrite store16_spec by done. eexists. split; [done|].
  change 2%nat with (length (be_bytes 2 v)) in Hl. split.
  - by apply (put_rewritten b o (be_bytes 2 v)), Hl; auto with norr.
  - by apply (slice_put_same b o (be_bytes 2 v)).
Qed.

Lemma store32_rewritten b o v : is_u32 v → (o + 4 ≤ length b)%nat →
  ∃ c, store32 b o v = Ok c ∧ rewritten b o 4 c ∧ slice o 4 c = be_bytes 4 v.
Proof.
  intros Hv Hl. rewrite store32_spec by done. eexists. split; [done|].
  change 4%nat with (length (be_bytes 4 v)) in Hl. split.
  - by apply (put_rewritten b o (be_bytes 4 v)), Hl; auto with norr.
  - by apply (slice_put_same b o (be_bytes 4 v)).
Qed.

Lemma wr_rewritten b o v : is_u8 v → (o < length b)%nat →
  ∃ c, wr (E:=unit) b o v = Ok c ∧ rewritten b o 1 c ∧ c !! o = Some v.
Proof.
  intros Hv Hl. rewrite wr_put by done. eexists. split; [done|]. split.
  - apply (put_rewritten b o [v]); [by apply Forall_singleton|cbn; lia].
  - unfold put. rewrite lookup_app_r by (rewrite length_take; lia).
    rewrite length_take, Nat.min_l, Nat.sub_diag by lia. done.
Qed.

(** ** The IP header *)

Definition header_sum (p : list Z) : Z := word_sum (take (ip_len p) p).

Lemma set_ip_length_v4 p total : bytes_ok p → is_ipv4 p = true → (20 ≤ ip_len p ≤ length p)%nat →
  Z.of_nat (length p) < 2 ^ 32 →
  ∃ c d, set_ip_length p total = Ok d ∧ rewritten p 2 2 c ∧ rewritten c 10 2 d ∧
    slice 2 2 d = be_bytes 2 (u16 (Z.of_nat total)) ∧ fold_checksum (header_sum d) = 0xFFFF.
Proof.
  intros Hb H4 Hi Hlen. unfold set_ip_length. rewrite H4.
  destruct (store16_rewritten p 2 (u16 (Z.of_nat total))) as (c & -> & Rc & Sc); [lia|]. cbn [rbind].
  destruct (rewritten_ipv4 _ _ _ _ Rc) as [C4 Ci]; [lia|]. destruct Rc as (Lc & Bc & Kc).
  specialize (Bc Hb). rewrite store16_spec by lia. cbn [rbind]. set (z := put c 10 (be_bytes 2 0)).
  assert (length z = length c) as Lz by (apply length_put; rewrite length_be_bytes; lia).
  rewrite ip_header_length_spec. cbn [rbind]. assert (ip_len z = ip_len p) as Iz
    by (unfold z; rewrite ip_len_put by (rewrite ?length_be_bytes; lia); done).
  assert (bytes_ok z) as Bz by (apply put_bytes; auto with norr).
  rewrite Iz, span_first_ok by lia. cbn [rbind].
  pose proof (word_sum_bound (take (ip_len p) z) ltac:(auto with norr)) as Rw. unfold blen in Rw.
  rewrite length_take in Rw. rewrite checksum_add_spec by (auto with norr; lia). cbn [rbind]. rewrite Z.add_0_l.
  set (w := u16 _). destruct (complement_completes (word_sum (take (ip_len p) z)) w) as [Rv Hv]; [lia|by left|].
  exists c, (put c 10 (be_bytes 2 w)). rewrite store16_spec by lia. unfold z at 1.
  rewrite put_put by (rewrite ?length_be_bytes; first [done|lia]). split; [done|]. split; [done|].
  assert (rewritten c 10 2 (put c 10 (be_bytes 2 w))) as Rd
    by (apply (put_rewritten c 10 (be_bytes 2 w)); [auto with norr|rewrite length_be_bytes; lia]).
  split; [done|]. split; [by rewrite (rewritten_slice _ _ _ _ _ _ Rd) by lia|].
  unfold header_sum. rewrite ip_len_put, Ci by (rewrite ?length_be_bytes; lia).
  pose proof (word_sum_put (take (ip_len p) c) 10 w) as H1. pose proof (word_sum_put (take (ip_len p) c) 10 0) as H0.
  rewrite length_take in H0, H1. specialize (H1 ltac:(lia) ltac:(by exists 5%nat)).
  specialize (H0 ltac:(lia) ltac:(by exists 5%nat)). rewrite u16_id in H1 by done. change (u16 0) with 0 in H0.
  rewrite take_put_inside by (rewrite ?length_be_bytes; lia).
  rewrite <- Hv. f_equal. unfold z in *. rewrite take_put_inside in * by (rewrite ?length_be_bytes; lia).
  unfold is_u16 in Rv. rewrite u64_id; [lia|unfold is_u64; lia].
Qed.

(** * Segments *)

Record offload_ok (o : Offloaded) (packet : list Z) : Prop := {
  oo_bytes : bytes_ok packet;
  oo_length : Z.of_nat (length packet) ≤ 65535;
  oo_ipv4 : of_ipv4 o = is_ipv4 packet;
  oo_ip : of_ip_length o = ip_len packet;
  oo_fixed : (fixed_len packet ≤ ip_len packet)%nat;
  oo_protocol : packet !! protocol_at packet = Some (of_protocol o);
  oo_kind : of_protocol o = if of_tcp o then kProtocolTcp else kProtocolUdp;
  oo_headers : (ip_len packet + (if of_tcp o then 20 else 8) ≤ of_headers o ≤ length packet)%nat;
  oo_segment : (0 < of_segment o)%nat;
}.

(** The size of the payload of the segment at [offset]. *)
Definition chunk_at (o : Offloaded) (packet : list Z) (offset : nat) : nat :=
  of_segment o `min` (length packet - of_headers o - offset).

(** The header bytes that may differ between a segment and the packet. *)
Definition patched (o : Offloaded) (k : nat) : Prop :=
  (if of_ipv4 o then (2 ≤ k < 6)%nat ∨ (10 ≤ k < 12)%nat else (4 ≤ k < 6)%nat) ∨
  (if of_tcp o
   then (of_ip_length o + 4 ≤ k < of_ip_length o + 8)%nat ∨ k = (of_ip_length o + 13)%nat ∨
        (of_ip_length o + 16 ≤ k < of_ip_length o + 18)%nat
   else (of_ip_length o + 4 ≤ k < of_ip_length o + 8)%nat).

(** [seg] is the packet for the payload at [offset], the [index]-th one. *)
Record segment_of (o : Offloaded) (packet : list Z) (index offset : nat) (seg : list Z) : Prop := {
  so_bytes : bytes_ok seg;
  so_length : length seg = (of_headers o + chunk_at o packet offset)%nat;
  so_payload : drop (of_headers o) seg = slice (of_headers o + offset) (chunk_at o packet offset) packet;
  so_kept : ∀ k, (k < of_headers o)%nat → ¬ patched o k → seg !! k = packet !! k;
  so_total : be_value (slice (if of_ipv4 o then 2 else 4) 2 seg) =
             Z.of_nat (length seg) - (if of_ipv4 o then 0 else 40);
  so_identifier : of_ipv4 o = true → be_value (slice 4 2 seg) = u16 (of_identifier o + Z.of_nat index);
  so_header_sum : of_ipv4 o = true → fold_checksum (header_sum seg) = 0xFFFF;
  so_sequence : of_tcp o = true →
    be_value (slice (of_ip_length o + 4) 4 seg) = u32 (of_sequence o + Z.of_nat offset);
  so_flags : of_tcp o = true → seg !! (of_ip_length o + 13)%nat =
    Some (u8 (segment_flags o index (length packet - of_headers o <=? offset + chunk_at o packet offset)%nat));
  so_udp_length : of_tcp o = false →
    be_value (slice (of_ip_length o + 4) 2 seg) = 8 + Z.of_nat (chunk_at o packet offset);
  so_valid : fold_checksum (transport_sum seg (of_protocol o)) = 0xFFFF;
}.

(** The scratch vector is overwritten completely. *)
Lemma copied_segment scratch front piece headers : length front = headers →
  (let* out := blit (E:=unit) (resize scratch (headers + length piece)) 0 front in blit out headers piece) =
  Ok (front ++ piece).
Proof.
  intros <-. rewrite blit_put by (rewrite length_resize; lia). cbn [rbind]. rewrite blit_put.
  2: { rewrite length_put; rewrite length_resize; lia. }
  f_equal. unfold put. rewrite take_0. cbn [app]. rewrite take_app_length.
  rewrite (drop_ge _ (length front + length piece)); [by rewrite app_nil_r|].
  rewrite length_app, length_drop, length_resize. lia.
Qed.

Lemma be_value_u16_bytes v : is_u16 v → be_value (be_bytes 2 v) = v.
Proof. apply (be_value_small 2). Qed.
Lemma be_value_u32_bytes v : is_u32 v → be_value (be_bytes 4 v) = v.
Proof. apply (be_value_small 4). Qed.

(** The IP fields: identifier, length and header checksum. *)
Definition ip_patched (ipv4 : bool) (k : nat) : Prop :=
  if ipv4 then (2 ≤ k < 6)%nat ∨ (10 ≤ k < 12)%nat else (4 ≤ k < 6)%nat.

Lemma ip_stage o s index : of_ipv4 o = is_ipv4 s → bytes_ok s → (fixed_len s ≤ ip_len s ≤ length s)%nat →
  Z.of_nat (length s) ≤ 65535 →
  ∃ s1 s2, (if of_ipv4 o then store16 s 4 (u16 (of_identifier o + Z.of_nat index)) else Ok s) = Ok s1 ∧
    set_ip_length s1 (length s1) = Ok s2 ∧ length s2 = length s ∧ bytes_ok s2 ∧
    (∀ k, ¬ ip_patched (of_ipv4 o) k → s2 !! k = s !! k) ∧
    be_value (slice (if of_ipv4 o then 2 else 4) 2 s2) = Z.of_nat (length s) - (if of_ipv4 o then 0 else 40) ∧
    (of_ipv4 o = true → be_value (slice 4 2 s2) = u16 (of_identifier o + Z.of_nat index) ∧
       fold_checksum (header_sum s2) = 0xFFFF).
Proof.
  intros H4 Hb Hi Hl. unfold fixed_len in Hi. rewrite H4. destruct (is_ipv4 s) eqn:E4.
  - destruct (store16_rewritten s 4 (u16 (of_identifier o + Z.of_nat index))) as (s1 & -> & R1 & S1); [lia|].
    destruct (rewritten_ipv4 _ _ _ _ R1) as [F4 Fi]; [lia|]. pose proof R1 as (L1 & B1 & K1). specialize (B1 Hb).
    destruct (set_ip_length_v4 s1 (length s1)) as (c & s2 & E & Rc & Rd & St & Sh); [done|congruence|lia|lia|].
    pose proof Rc as (Lc & Bc & Kc). pose proof Rd as (Ld & Bd & Kd).
    exists s1, s2. split; [done|]. split; [done|]. split; [lia|]. split; [auto|].
    split; [intros k Hk; cbn in Hk; rewrite Kd, Kc, K1 by lia; done|].
    split; [rewrite St, be_value_u16_bytes, u16_id by (auto with norr; unfold is_u16; lia); lia|].
    intros _. split; [|done]. rewrite (rewritten_slice _ _ _ _ _ _ Rd), (rewritten_slice _ _ _ _ _ _ Rc), S1 by lia.
    by apply be_value_u16_bytes, u16_range.
  - exists s. unfold set_ip_length. rewrite E4.
    destruct (store16_rewritten s 4 (u16 (u64 (Z.of_nat (length s) - 40)))) as (s2 & -> & R2 & S2); [lia|].
    pose proof R2 as (L2 & B2 & K2). exists s2. do 2 (split; [done|]). split; [done|]. split; [auto|].
    split; [intros k Hk; cbn in Hk; apply K2; lia|]. split; [|done].
    rewrite S2, be_value_u16_bytes by auto with norr. rewrite u64_id, u16_id; [done|unfold is_u16, is_u64; lia..].
Qed.

(** The transport fields: sequence number and flags, or the datagram length. *)
Definition transport_patched (tcp : bool) (ip k : nat) : Prop :=
  if tcp then (ip + 4 ≤ k < ip + 8)%nat ∨ k = (ip + 13)%nat else (ip + 4 ≤ k < ip + 6)%nat.

Lemma transport_stage o s index offset chunk last : bytes_ok s → Z.of_nat chunk ≤ 65527 →
  (of_ip_length o + (if of_tcp o then 20 else 8) ≤ length s)%nat →
  ∃ s2, (if of_tcp o then
           let* out := store32 s (of_ip_length o + 4) (u32 (of_sequence o + Z.of_nat offset)) in
           wr out (of_ip_length o + 13) (u8 (segment_flags o index last))
         else store16 s (of_ip_length o + 4) (u16 (8 + Z.of_nat chunk))) = Ok s2 ∧
    length s2 = length s ∧ bytes_ok s2 ∧
    (∀ k, ¬ transport_patched (of_tcp o) (of_ip_length o) k → s2 !! k = s !! k) ∧
    (of_tcp o = true → be_value (slice (of_ip_length o + 4) 4 s2) = u32 (of_sequence o + Z.of_nat offset) ∧
       s2 !! (of_ip_length o + 13)%nat = Some (u8 (segment_flags o index last))) ∧
    (of_tcp o = false → be_value (slice (of_ip_length o + 4) 2 s2) = 8 + Z.of_nat chunk).
Proof.
  intros Hb Hc Hl. destruct (of_tcp o).
  - destruct (store32_rewritten s (of_ip_length o + 4) (u32 (of_sequence o + Z.of_nat offset)))
      as (s1 & -> & R1 & S1); [auto with norr|lia|]. pose proof R1 as (L1 & B1 & K1). cbn [rbind].
    destruct (wr_rewritten s1 (of_ip_length o + 13) (u8 (segment_flags o index last)))
      as (s2 & -> & R2 & S2); [auto with norr|lia|]. pose proof R2 as (L2 & B2 & K2).
    exists s2. split; [done|]. split; [lia|]. split; [auto|].
    split; [intros k Hk; cbn in Hk; rewrite K2, K1 by lia; done|]. split; [|done]. intros _. split; [|done].
    rewrite (rewritten_slice _ _ _ _ _ _ R2), S1 by lia. by apply be_value_u32_bytes, u32_range.
  - destruct (store16_rewritten s (of_ip_length o + 4) (u16 (8 + Z.of_nat chunk))) as (s2 & -> & R2 & S2); [lia|].
    pose proof R2 as (L2 & B2 & K2). exists s2. split; [done|]. split; [done|]. split; [auto|].
    split; [intros k Hk; cbn in Hk; apply K2; lia|]. split; [done|]. intros _.
    rewrite S2, be_value_u16_bytes by auto with norr. apply u16_id. unfold is_u16. lia.
Qed.

(** What depends only on the first bytes, which a segment shares. *)
Lemma same_front b c : (∀ k, (k < 1)%nat → c !! k = b !! k) →
  is_ipv4 c = is_ipv4 b ∧ ip_len c = ip_len b ∧ fixed_len c = fixed_len b.
Proof.
  intros Hk. specialize (Hk 0%nat ltac:(lia)). unfold fixed_len.
  destruct b, c; try done. by injection Hk as ->.
Qed.

Lemma same_header_sum b c : (∀ k, (k < 1 ∨ k < ip_len b)%nat → c !! k = b !! k) → header_sum c = header_sum b.
Proof.
  intros Hk. destruct (same_front b c) as (_ & E & _); [intros; apply Hk; lia|]. unfold header_sum. rewrite E. f_equal.
  apply list_eq. intros k. destruct (decide (k < ip_len b)%nat).
  - rewrite !lookup_take_lt by done. apply Hk. lia.
  - rewrite !lookup_take_ge by lia. done.
Qed.

Lemma copy_segment_spec o packet scratch offset chunk :
  (of_headers o + offset + chunk ≤ length packet)%nat →
  copy_segment o packet scratch offset chunk =
    Ok (take (of_headers o) packet ++ slice (of_headers o + offset) chunk packet).
Proof.
  intros Hl. unfold copy_segment. rewrite subspan_from_ok by lia. cbn [rbind].
  rewrite span_first_ok by lia. cbn [rbind]. rewrite subspan_ok by (rewrite length_drop; lia). rewrite drop_drop.
  fold (slice (of_headers o + offset) chunk packet).
  pose proof (copied_segment scratch (take (of_headers o) packet) (slice (of_headers o + offset) chunk packet)
    (of_headers o)) as Ec. rewrite length_slice in Ec by lia. rewrite <- Ec; [done|]. rewrite length_take. lia.
Qed.

Definition segment_base (o : Offloaded) (packet : list Z) (offset : nat) : list Z :=
  take (of_headers o) packet ++ slice (of_headers o + offset) (chunk_at o packet offset) packet.

Lemma segment_base_spec o packet offset : offload_ok o packet → (offset < length packet - of_headers o)%nat →
  let s := segment_base o packet offset in
  length s = (of_headers o + chunk_at o packet offset)%nat ∧ (length s ≤ length packet)%nat ∧ bytes_ok s ∧
  drop (of_headers o) s = slice (of_headers o + offset) (chunk_at o packet offset) packet ∧
  (∀ k, (k < of_headers o)%nat → s !! k = packet !! k).
Proof.
  intros Hok Ho. destruct (oo_headers _ _ Hok) as [_ Hh]. cbn zeta. unfold segment_base.
  assert (length (take (of_headers o) packet) = of_headers o) as Lf by (rewrite length_take; lia).
  rewrite length_app, Lf, length_slice by (unfold chunk_at; lia). split; [done|].
  split; [unfold chunk_at; lia|]. split; [apply bytes_ok_app; pose proof (oo_bytes _ _ Hok); auto with norr|].
  split; [by apply drop_app_length'|]. intros k Hk. rewrite lookup_app_l by lia. by apply lookup_take_lt.
Qed.

(** What the patches leave alone, and what they write. *)
Lemma patch_segment_spec o packet s index offset chunk last : offload_ok o packet →
  bytes_ok s → length s = (of_headers o + chunk)%nat → (length s ≤ length packet)%nat →
  (∀ k, (k < of_headers o)%nat → s !! k = packet !! k) →
  ∃ seg, patch_segment o s index offset chunk last = Ok seg ∧ length seg = length s ∧ bytes_ok seg ∧
    (∀ k, ¬ patched o k → seg !! k = s !! k) ∧
    be_value (slice (if of_ipv4 o then 2 else 4) 2 seg) = Z.of_nat (length s) - (if of_ipv4 o then 0 else 40) ∧
    (of_ipv4 o = true → be_value (slice 4 2 seg) = u16 (of_identifier o + Z.of_nat index) ∧
       fold_checksum (header_sum seg) = 0xFFFF) ∧
    (of_tcp o = true → be_value (slice (of_ip_length o + 4) 4 seg) = u32 (of_sequence o + Z.of_nat offset) ∧
       seg !! (of_ip_length o + 13)%nat = Some (u8 (segment_flags o index last))) ∧
    (of_tcp o = false → be_value (slice (of_ip_length o + 4) 2 seg) = 8 + Z.of_nat chunk) ∧
    fold_checksum (transport_sum seg (of_protocol o)) = 0xFFFF.
Proof.
  intros [Hb Hlen H4 Hip Hfix Hpr Hkind Hh Hs] B0 L0 Hle K0. pose proof (fixed_len_pos packet) as Hpos.
  destruct (same_front packet s) as (F4 & Fi & Ff); [intros; apply K0; lia|]. unfold patch_segment.
  destruct (ip_stage o s index) as (s1 & s2 & -> & E2 & L2 & B2 & K2 & T2 & I2); [congruence|done|lia|lia|].
  cbn [rbind]. rewrite E2. cbn [rbind].
  destruct (transport_stage o s2 index offset chunk last) as (s3 & -> & L3 & B3 & K3 & T3 & U3); [done|lia|lia|].
  cbn [rbind]. assert (∀ k, (k < of_ip_length o)%nat → s3 !! k = s2 !! k) as K32
    by (intros k Hk; apply K3; unfold transport_patched; destruct (of_tcp o); lia).
  destruct (same_front packet s3) as (G4 & Gi & Gf).
  { intros k Hk. rewrite K32, K2, K0; [done|lia|unfold ip_patched; destruct (of_ipv4 o); lia|lia]. }
  destruct (finish_transport_checksum_spec s3 (of_protocol o)) as (v & Rv & E4 & V4); [done|lia| |lia| |].
  { rewrite Hkind. destruct (of_tcp o); done. }
  { rewrite Gi, L3, L2, L0, Hkind. unfold checksum_at. destruct (of_tcp o); cbn; lia. }
  rewrite Hip, <- Gi, E4 in *. eexists. split; [done|].
  set (c := checksum_at (of_protocol o)) in *. set (seg := put s3 _ _) in *.
  assert (c = if of_tcp o then 16 else 6)%nat as Ec by (unfold c; rewrite Hkind; by destruct (of_tcp o)).
  assert (rewritten s3 (ip_len s3 + c) 2 seg) as R4.
  { apply (put_rewritten s3 (ip_len s3 + c) (be_bytes 2 v)); [auto with norr|].
    rewrite length_be_bytes, Gi, L3, L2, L0, Ec. destruct (of_tcp o); lia. }
  destruct R4 as (L4 & B4 & K4). split; [lia|]. split; [auto|].
  assert (∀ k, (k < ip_len s3)%nat → seg !! k = s2 !! k) as K42
    by (intros k Hk; rewrite K4 by lia; by apply K32).
  assert (20 ≤ ip_len s3)%nat as Hi by lia.
  split; [|split; [|split; [|split; [|split; [|done]]]]].
  - intros k Hk. unfold patched in Hk. rewrite Hip in Hk.
    rewrite K4, K3, K2; unfold transport_patched, ip_patched; destruct (of_ipv4 o), (of_tcp o); try done; lia.
  - rewrite <- T2. f_equal. apply slice_ext. intros k Hk. apply K42. destruct (of_ipv4 o); lia.
  - intros E. destruct (I2 E) as [<- <-]. split; [f_equal; apply slice_ext; intros k Hk; apply K42; lia|].
    f_equal. apply same_header_sum. intros k Hk. apply K42.
    destruct (same_front s3 s2) as (_ & Ei & _); [intros; symmetry; apply K32; lia|]. lia.
  - intros E. rewrite E in *. destruct (T3 eq_refl) as [<- <-]. split; [f_equal; apply slice_ext; intros k Hk|];
      apply K4; lia.
  - intros E. rewrite E in *. rewrite <- (U3 eq_refl). f_equal. apply slice_ext. intros k Hk. apply K4. lia.
Qed.

Lemma build_segment_spec o packet scratch index offset : offload_ok o packet →
  (offset < length packet - of_headers o)%nat →
  ∃ seg, build_segment o packet scratch index offset = Ok seg ∧ segment_of o packet index offset seg.
Proof.
  intros Hok Ho. pose proof (segment_base_spec o packet offset Hok Ho) as (L0 & Hle & B0 & D0 & K0).
  unfold build_segment. fold (chunk_at o packet offset).
  rewrite copy_segment_spec by (unfold chunk_at; lia). fold (segment_base o packet offset). cbn [rbind].
  destruct (patch_segment_spec o packet (segment_base o packet offset) index offset (chunk_at o packet offset)
    (length packet - of_headers o <=? offset + chunk_at o packet offset)%nat Hok B0 L0 Hle K0)
    as (seg & E & L & B & K & T & I & S & U & V).
  exists seg. split; [done|]. assert (∀ k, patched o k → (k < of_headers o)%nat) as Hp.
  { intros k Hk. destruct (oo_headers _ _ Hok) as [Hh _]. pose proof (oo_fixed _ _ Hok). pose proof (fixed_len_pos packet).
    unfold patched in Hk. rewrite (oo_ip _ _ Hok) in Hk. destruct (of_ipv4 o), (of_tcp o); lia. }
  constructor; try done; try lia.
  - rewrite <- D0. apply list_eq. intros k. rewrite !lookup_drop. apply K. intros Hk%Hp. lia.
  - intros k Hk Hn. rewrite K by done. by apply K0.
  - intros E4. by destruct (I E4).
  - intros E4. by destruct (I E4).
  - intros E4. by destruct (S E4).
  - intros E4. by destruct (S E4).
Qed.

Lemma slice_drop p n m k : (n ≤ m)%nat → (n = m ∨ length p - k ≤ n)%nat → slice k n p ++ drop (k + m) p = drop k p.
Proof.
  intros Hn Hc. unfold slice. rewrite <- drop_drop. destruct Hc as [->|Hc]; [apply take_drop|].
  rewrite take_ge, (drop_ge _ m), app_nil_r by (rewrite length_drop; lia). done.
Qed.

Lemma segment_loop_spec o packet : offload_ok o packet → ∀ fuel scratch index offset sunk,
  (length packet - of_headers o - offset ≤ fuel)%nat →
  ∃ scratch' segs, segment_loop fuel o packet scratch index offset sunk = Ok (scratch', sunk ++ segs) ∧
    concat (drop (of_headers o) <$> segs) = drop (of_headers o + offset) packet ∧
    (∀ i, is_Some (segs !! i) ↔ (offset + i * of_segment o < length packet - of_headers o)%nat) ∧
    ∀ i seg, segs !! i = Some seg → segment_of o packet (index + i) (offset + i * of_segment o) seg.
Proof.
  intros Hok. pose proof (oo_segment _ _ Hok) as Hs.
  induction fuel as [|fuel IH]; intros scratch index offset sunk Hf; cbn [segment_loop].
  { exists scratch, []. rewrite app_nil_r, drop_ge by lia. split; [done|]. split; [done|]. split; [|done].
    intros i. rewrite lookup_nil. split; [by intros []|lia]. }
  destruct (Nat.ltb_spec offset (length packet - of_headers o)) as [Hlt|Hge].
  2: { exists scratch, []. rewrite app_nil_r, drop_ge by lia. split; [done|]. split; [done|]. split; [|done].
       intros i. rewrite lookup_nil. split; [by intros []|lia]. }
  destruct (build_segment_spec o packet scratch index offset Hok Hlt) as (seg & -> & Hseg). cbn [rbind].
  destruct (IH seg (S index) (offset + of_segment o)%nat (sunk ++ [seg])) as (scratch' & segs & -> & Hc & Hn & Hall); [lia|].
  exists scratch', (seg :: segs). rewrite <- app_assoc. split; [done|]. split; [|split].
  - cbn [fmap list_fmap concat]. rewrite (so_payload _ _ _ _ _ Hseg), Hc, Nat.add_assoc. apply slice_drop; unfold chunk_at; lia.
  - intros [|i]; [cbn; split; [lia|by eexists]|]. cbn [lookup list_lookup]. rewrite Hn. lia.
  - intros [|i] s Hi; [injection Hi as <-; by rewrite !Nat.add_0_r|].
    replace (index + S i)%nat with (S index + i)%nat by lia.
    replace (offset + S i * of_segment o)%nat with (offset + of_segment o + i * of_segment o)%nat by lia. by apply Hall.
Qed.

Lemma checksum_valid p protocol : bytes_ok p → Z.of_nat (length p) < 2 ^ 32 →
  (fixed_len p ≤ ip_len p ≤ length p)%nat → p !! protocol_at p = Some protocol →
  fold_checksum (transport_sum p protocol) = 0xFFFF → transport_checksum_valid p = Ok true.
Proof.
  intros B Hl Hf Hp Hv. unfold transport_checksum_valid. rewrite ip_header_length_spec. cbn [rbind].
  assert (is_u8 protocol) as Hu by (by eapply Forall_lookup_1).
  destruct (Nat.ltb_spec (length p) (ip_len p)); [lia|]. rewrite subspan_from_ok by lia. cbn [rbind].
  unfold ip_protocol. fold (protocol_at p). rewrite (rd_ok _ _ _ Hp). cbn [rbind].
  destruct (transport_sum_code p protocol) as [-> ->]; [done..|lia|]. cbn [rbind].
  fold (transport_sum p protocol). pose proof (transport_sum_range p protocol B Hl Hu ltac:(lia)).
  rewrite u64_id by (unfold is_u64; lia). by rewrite Hv.
Qed.

Lemma segment_valid o packet index offset seg : offload_ok o packet → segment_of o packet index offset seg →
  transport_checksum_valid seg = Ok true.
Proof.
  intros Hok Hs. destruct (oo_headers _ _ Hok) as [Hh Hh']. pose proof (oo_fixed _ _ Hok). pose proof (fixed_len_pos packet).
  assert (∀ k, (k < 1 ∨ k = protocol_at packet)%nat → seg !! k = packet !! k) as Hk.
  { intros k Hk. apply (so_kept _ _ _ _ _ Hs).
    - unfold protocol_at in Hk. destruct (is_ipv4 packet), (of_tcp o); lia.
    - unfold patched. rewrite (oo_ip _ _ Hok), (oo_ipv4 _ _ Hok). unfold protocol_at in Hk.
      destruct (is_ipv4 packet), (of_tcp o); lia. }
  destruct (same_front packet seg) as (F4 & Fi & Ff); [intros; apply Hk; by left|].
  pose proof (so_length _ _ _ _ _ Hs) as L. pose proof (oo_length _ _ Hok).
  apply (checksum_valid seg (of_protocol o)); [apply Hs|rewrite L; unfold chunk_at; lia|lia| |apply Hs].
  unfold protocol_at. rewrite F4. fold (protocol_at packet). rewrite Hk by (by right). apply (oo_protocol _ _ Hok).
Qed.

(** ** Expanding a packet *)

(** What the offloaded packet says about itself. *)
Definition offload_of (h : VirtioHeader) (p : list Z) : Offloaded :=
  let tcp := (gso_type h =? kGsoTcpV4) || (gso_type h =? kGsoTcpV6) in
  let ip := ip_len p in
  mkOffloaded (is_ipv4 p) tcp (p !!! protocol_at p) ip
    (ip + if tcp then Z.to_nat (Z.shiftr (p !!! (ip + 12)%nat) 4) * 4 else 8)%nat (Z.to_nat (gso_size h))
    (if tcp then be_value (slice (ip + 4) 4 p) else 0) (if tcp then p !!! (ip + 13)%nat else 0)
    (if is_ipv4 p then be_value (slice 4 2 p) else 0).

(** A packet a device may offload: a TCP or UDP packet of at most 65535 bytes
    with complete headers and a segment size. *)
Definition offloadable (h : VirtioHeader) (p : list Z) : Prop :=
  (gso_type h = kGsoTcpV4 ∨ gso_type h = kGsoTcpV6 ∨ gso_type h = kGsoUdpL4) ∧ 0 < gso_size h ∧
  bytes_ok p ∧ Z.of_nat (length p) ≤ 65535 ∧ (fixed_len p ≤ ip_len p)%nat ∧
  let o := offload_of h p in
  of_protocol o = (if of_tcp o then kProtocolTcp else kProtocolUdp) ∧
  (ip_len p + (if of_tcp o then 20 else 8) ≤ of_headers o ≤ length p)%nat.

Lemma offloadable_ok h p : offloadable h p → offload_ok (offload_of h p) p.
Proof.
  intros (Ht & Hg & Hb & Hl & Hf & Hp & Hh). constructor; try done; [|cbn; lia].
  apply list_lookup_lookup_total_lt. unfold protocol_at. pose proof (fixed_len_pos p). destruct (is_ipv4 p), (of_tcp _); lia.
Qed.

Lemma expand_offloaded_spec h p scratch : offloadable h p →
  ∃ scratch' segs, expand_offloaded h p scratch = Ok (mkExpansion p scratch' segs true) ∧
    segment_loop (length p) (offload_of h p) p scratch 0 0 [] = Ok (scratch', segs).
Proof.
  intros Hof. pose proof (offloadable_ok h p Hof) as Hok. destruct Hof as (Ht & Hg & Hb & Hl & Hf & Hp & Hh).
  destruct (segment_loop_spec _ _ Hok (length p) scratch 0 0 []) as (scratch' & segs & E & _); [lia|].
  exists scratch', segs. split; [|done]. pose proof (fixed_len_pos p). cbn [app] in E.
  assert (∀ k, (k < length p)%nat → rd (E:=unit) p k = Ok (p !!! k)) as Hrd
    by (intros; by apply rd_ok, list_lookup_lookup_total_lt).
  unfold expand_offloaded. destruct (Nat.ltb_spec (length p) 20); [lia|].
  rewrite ip_header_length_spec. cbn [rbind].
  destruct (Nat.ltb_spec (ip_len p) 20); [lia|]. destruct (Nat.ltb_spec (length p) (ip_len p)); [lia|]. cbn [orb].
  unfold ip_protocol. fold (protocol_at p). rewrite Hrd by (unfold protocol_at; destruct (is_ipv4 p); lia). cbn [rbind].
  destruct (Z.eqb_spec (gso_type h) kGsoNone) as [E0|_]; [unfold kGsoNone, kGsoTcpV4, kGsoTcpV6, kGsoUdpL4 in *; lia|].
  destruct (Z.eqb_spec (gso_size h) 0); [lia|]. unfold offload_of in *. cbn [of_tcp of_protocol of_headers] in *.
  destruct ((gso_type h =? kGsoTcpV4) || (gso_type h =? kGsoTcpV6)) eqn:Etcp; cbn [negb andb orb].
  - rewrite Hp in E |- *. rewrite Z.eqb_refl. cbn [negb]. assert (gso_type h =? kGsoUdpL4 = false) as ->.
    { apply orb_true_iff in Etcp as [->%Z.eqb_eq| ->%Z.eqb_eq]; done. }
    cbn [andb]. destruct (Nat.ltb_spec (length p) (ip_len p + 20)); [lia|].
    rewrite !Hrd by lia. cbn [rbind]. rewrite load32_spec by (done || lia).
    destruct (Nat.ltb_spec (Z.to_nat (Z.shiftr (p !!! (ip_len p + 12)%nat) 4) * 4) 8); [lia|].
    destruct (Nat.ltb_spec (length p) (ip_len p + Z.to_nat (Z.shiftr (p !!! (ip_len p + 12)%nat) 4) * 4)); [lia|].
    cbn [orb rbind]. destruct (is_ipv4 p); [rewrite load16_spec by (done || lia)|]; cbn [rbind]; by rewrite E.
  - assert (gso_type h =? kGsoUdpL4 = true) as Eu.
    { destruct Ht as [Ht|[Ht|Ht]]; rewrite Ht in Etcp |- *; done. }
    rewrite Hp in E |- *. rewrite Eu, Z.eqb_refl. cbn [negb andb]. destruct (Nat.ltb_spec (length p) (ip_len p + 8)); [lia|]. cbn [rbind].
    destruct (Nat.ltb_spec 8 8); [lia|]. destruct (Nat.ltb_spec (length p) (ip_len p + 8)); [lia|]. cbn [orb rbind].
    destruct (is_ipv4 p); [rewrite load16_spec by (done || lia)|]; cbn [rbind]; by rewrite E.
Qed.

(** Segmentation.  A TCP or UDP packet that the kernel hands over
    unsegmented is taken apart into packets whose payloads, in order, are the
    payload; each but the last carries exactly the segment size.  Every one
    has the headers of the packet except for the fields that must differ: its
    own IP length, consecutive IPv4 identifiers, the sequence number of its
    payload, FIN and PSH only on the last and CWR only on the first, and valid
    IP header and transport checksums.  The scratch buffer does not matter. *)
Lemma expand_offloaded_segments h p scratch : offloadable h p →
  let o := offload_of h p in
  ∃ scratch' segs, expand_offloaded h p scratch = Ok (mkExpansion p scratch' segs true) ∧
    concat (drop (of_headers o) <$> segs) = drop (of_headers o) p ∧
    (∀ i, is_Some (segs !! i) ↔ (i * of_segment o < length p - of_headers o)%nat) ∧
    ∀ i seg, segs !! i = Some seg →
      segment_of o p i (i * of_segment o) seg ∧ transport_checksum_valid seg = Ok true.
Proof.
  intros Hof. pose proof (offloadable_ok h p Hof) as Hok.
  destruct (expand_offloaded_spec h p scratch Hof) as (scratch' & segs & E & El).
  destruct (segment_loop_spec _ _ Hok (length p) scratch 0 0 []) as (scratch'' & segs' & El' & Hc & Hn & Hall); [lia|].
  rewrite El in El'. injection El' as <- <-. exists scratch', segs. split; [done|].
  split; [by rewrite Hc, Nat.add_0_r|]. split; [exact Hn|]. intros i seg Hi. specialize (Hall i seg Hi).
  split; [done|]. by eapply segment_valid.
Qed.

(** An IPv4 packet with a 20-byte TCP header and five bytes of payload. *)
Definition sample_tcp (data_offset : Z) : list Z :=
  [0x45; 0; 0; 45; 0; 7; 0; 0; 64; 6; 0; 0; 10; 0; 0; 1; 10; 0; 0; 2;
   1; 2; 3; 4; 0; 0; 1; 0; 0; 0; 0; 9; data_offset; 0x18; 0; 100; 0; 0; 0; 0; 1; 2; 3; 4; 5].
Definition sample_virtio (size : Z) : VirtioHeader := mkVirtio kVirtioNeedsChecksum kGsoTcpV4 40 size 20 16.

Lemma sample_offloadable : offloadable (sample_virtio 2) (sample_tcp 0x50).
Proof.
  split; [by left|]. split; [done|]. split; [apply Forall_forall; intros x Hx|].
  - unfold sample_tcp in Hx. repeat (apply elem_of_cons in Hx as [->|Hx]; [done|]). by apply elem_of_nil in Hx.
  - vm_compute. repeat split; try done; lia.
Defined.

(** A TCP header that claims less than 20 bytes passes the guard
    [transport_length < 8], and the flags are then written outside a segment
    that is too short to hold them. *)
Example short_tcp_header_overruns : expand_offloaded (sample_virtio 1) (sample_tcp 0x20) [] = Ub.
Proof. by vm_compute. Qed.

(** A packet that lacks only its checksum: the checksum field holds the folded
    sum of the pseudo header, as the kernel leaves it. *)
Definition lacks_checksum (h : VirtioHeader) (p : list Z) : Prop :=
  let protocol := p !!! protocol_at p in
  bytes_ok p ∧ Z.of_nat (length p) ≤ 65535 ∧ (fixed_len p ≤ ip_len p)%nat ∧
  gso_type h = kGsoNone ∧ (Z.land (flags h) kVirtioNeedsChecksum =? 0) = false ∧
  Z.to_nat (checksum_start h) = ip_len p ∧ Z.to_nat (checksum_offset h) = checksum_at protocol ∧
  (ip_len p + checksum_at protocol + 2 ≤ length p)%nat ∧ 0 < protocol ∧
  be_value (slice (ip_len p + checksum_at protocol) 2 p) =
    fold_checksum (pseudo p protocol (length (drop (ip_len p) p))).

(** Adding the complement of the sum over the partial packet gives all ones. *)
Lemma partial_sum_completes s f w v : 0 < s < 2 ^ 62 → f = fold_checksum s → f ≤ w < 2 ^ 62 →
  v = u16 (Z.lnot (fold_checksum w)) ∨ v = 0xFFFF ∧ u16 (Z.lnot (fold_checksum w)) = 0 →
  is_u16 v ∧ fold_checksum (s + w - f + v) = 0xFFFF.
Proof.
  intros Hs -> Hw Hv. destruct (fold_checksum_spec s) as (Hr & Hf & _); [lia|]. unfold is_u16 in Hr.
  destruct (complement_completes w v) as [Rv Hc]; [lia|done|]. unfold is_u16 in *. split; [done|].
  rewrite u64_id in Hc by (unfold is_u64; lia). destruct (fold_checksum_spec (w + v)) as (_ & Hm & _); [lia|].
  rewrite Hc in Hm. apply fold_checksum_ones; [lia|].
  replace (s + w - fold_checksum s + v) with ((s - fold_checksum s) + (w + v)) by lia.
  rewrite Zplus_mod, <- Hm. change (65535 mod 65535) with 0. rewrite Z.add_0_r, Z.mod_mod by lia.
  by rewrite Zminus_mod, Hf, Z.sub_diag.
Qed.

Lemma pseudo_positive p protocol n : bytes_ok p → (fixed_len p ≤ length p)%nat → 0 < protocol → 0 < pseudo p protocol n.
Proof.
  intros Hb Hl Hp. pose proof (addresses_sum p Hb Hl). unfold pseudo.
  pose proof (Z.div_pos (Z.of_nat n) (2 ^ 16)). pose proof (Z.mod_pos_bound (Z.of_nat n) (2 ^ 16)).
  destruct (is_ipv4 p); lia.
Qed.

Lemma field_in_sum l o : bytes_ok l → (o + 2 ≤ length l)%nat → Nat.Even o →
  0 ≤ be_value (slice o 2 l) ≤ word_sum l.
Proof.
  intros Hb Hl He. pose proof (word_sum_put l o 0 Hl He) as H. change (u16 0) with 0 in H.
  pose proof (word_sum_bound (put l o (be_bytes 2 0)) ltac:(auto with norr)).
  pose proof (be_value_bound (slice o 2 l) ltac:(auto with norr)). lia.
Qed.

(** Writing the complement of the sum over the transport part completes it. *)
Lemma complete_sum p protocol v : bytes_ok p → Z.of_nat (length p) ≤ 65535 → is_u8 protocol → 0 < protocol →
  (fixed_len p ≤ ip_len p)%nat → (ip_len p + checksum_at protocol + 2 ≤ length p)%nat →
  be_value (slice (ip_len p + checksum_at protocol) 2 p) =
    fold_checksum (pseudo p protocol (length (drop (ip_len p) p))) →
  let w := word_sum (drop (ip_len p) p) in
  v = u16 (Z.lnot (fold_checksum w)) ∨ v = 0xFFFF ∧ u16 (Z.lnot (fold_checksum w)) = 0 →
  fold_checksum (transport_sum (put p (ip_len p + checksum_at protocol) (be_bytes 2 v)) protocol) = 0xFFFF.
Proof.
  intros Hb Hl Hu Hpos Hf Hlen Hfield. cbn zeta. pose proof (checksum_at_even protocol) as He.
  set (c := checksum_at protocol) in *. set (d := drop (ip_len p) p) in *. intros Hv. assert (bytes_ok d) as Bd by (unfold d; auto with norr).
  assert (length d = length p - ip_len p)%nat as Ld by apply length_drop.
  assert (slice (ip_len p + c) 2 p = slice c 2 d) as Es by (unfold slice, d; by rewrite drop_drop). rewrite Es in Hfield.
  pose proof (pseudo_range p protocol (length d) Hb ltac:(lia) Hu ltac:(lia)).
  pose proof (pseudo_positive p protocol (length d) Hb ltac:(lia) Hpos).
  pose proof (field_in_sum d c Bd ltac:(lia) He). pose proof (word_sum_bound d Bd). unfold blen in *.
  destruct (partial_sum_completes (pseudo p protocol (length d)) (be_value (slice c 2 d)) (word_sum d) v)
    as [Rv Hc]; [lia|done|lia|done|].
  rewrite transport_sum_field by (done || lia). fold d. done.
Qed.

(** A packet that lacks only its checksum is completed: [expand_offloaded]
    hands on the packet with the two bytes of the checksum changed, and its
    transport checksum is then valid. *)
Lemma partial_checksum_completed h p scratch : lacks_checksum h p →
  ∃ q, expand_offloaded h p scratch = Ok (mkExpansion q scratch [q] true) ∧
    rewritten p (ip_len p + checksum_at (p !!! protocol_at p)) 2 q ∧ transport_checksum_valid q = Ok true.
Proof.
  intros (Hb & Hl & Hf & Hg & Hn & Hcs & Hco & Hlen & Hpos & Hfield). set (protocol := p !!! protocol_at p) in *.
  pose proof (fixed_len_pos p). assert (protocol_at p < 20)%nat as Hat by (unfold protocol_at; destruct (is_ipv4 p); lia).
  assert (p !! protocol_at p = Some protocol) as Hp by (apply list_lookup_lookup_total_lt; lia).
  assert (is_u8 protocol) as Hu by (by eapply Forall_lookup_1).
  unfold expand_offloaded. destruct (Nat.ltb_spec (length p) 20); [lia|]. rewrite ip_header_length_spec. cbn [rbind].
  destruct (Nat.ltb_spec (ip_len p) 20); [lia|]. destruct (Nat.ltb_spec (length p) (ip_len p)); [lia|]. cbn [orb].
  unfold ip_protocol. fold (protocol_at p). rewrite (rd_ok _ _ _ Hp), Hg. cbn [rbind].
  unfold complete_checksum. rewrite Hn, Hcs, Hco. cbn [negb Z.eqb kGsoNone].
  destruct (Nat.ltb_spec (length p) (ip_len p + checksum_at protocol + 2)); [lia|].
  destruct (Nat.leb_spec (length p) (ip_len p)); [lia|]. cbn [orb]. rewrite subspan_from_ok by lia. cbn [rbind].
  destruct (transport_sum_code p protocol) as [_ ->]; [done|lia|done|lia|]. cbn [rbind].
  set (v := if _ && _ then _ else _). rewrite store16_spec by lia. cbn [rbind]. eexists. split; [done|].
  assert (rewritten p (ip_len p + checksum_at protocol) 2 (put p (ip_len p + checksum_at protocol) (be_bytes 2 v))) as R
    by (apply (put_rewritten p (ip_len p + checksum_at protocol) (be_bytes 2 v)); [auto with norr|rewrite length_be_bytes; lia]).
  split; [done|]. destruct (rewritten_ipv4 _ _ _ _ R) as [F4 Fi]; [lia|]. destruct R as (L & B & K).
  assert (fixed_len (put p (ip_len p + checksum_at protocol) (be_bytes 2 v)) = fixed_len p) as Ff
    by (unfold fixed_len; by rewrite F4).
  apply (checksum_valid _ protocol); [auto|lia|lia|unfold protocol_at; rewrite F4; fold (protocol_at p); rewrite K by lia; done|].
  apply complete_sum; try done. unfold v. destruct (_ && _) eqn:E; [right|by left].
  by apply andb_true_iff in E as [_ E%Z.eqb_eq].
Qed.

(** The sample packet with the sum of its pseudo header in the checksum field. *)
Definition sample_partial : list Z := <[36%nat := 20]> (<[37%nat := 34]> (sample_tcp 0x50)).

