(* ===== verification/Coalescer.v ===== *)
(** The TCP coalescer (src/src/offload.cpp, class [TcpCoalescer]): consecutive
    packets of a flow are gathered into one frame for the tunnel device, which
    [expand_offloaded] takes apart again.

    A payload is a view: into a buffer of the caller that stays put until the
    flush, or into one of the coalescer's own buffers ([owned_]), which are
    used again after it.  [bytes_of] reads a view through the store, so that
    the theorems cover the reuse of buffers. *)

From S2P Require Import Prelude Packet Fec Offload.

(** [std::span] of a payload, and the bytes it views. *)
Inductive View :=
| Stable (bytes : list Z)
| Owned (slot offset : nat).

Record Item := mkItem {
  head : list Z;
  payloads : list View;
  it_tcp : bool;
  it_ipv4 : bool;
  it_ip_length : nat;
  it_tcp_length : nat;
  it_segment : nat;
  it_total : nat;
  next_sequence : Z;
  it_open : bool;
}.

Definition new_item : Item := mkItem [] [] false false 0 0 0 0 0 false.

Record TcpCoalescer := mkCoalescer {
  items_ : list Item;
  used_ : nat;
  owned_ : list (list Z);
  owned_used_ : nat;
  coalesced_ : Z;
}.

Definition new_coalescer : TcpCoalescer := mkCoalescer [] 0 [] 0 0.

Definition coalescer_empty (c : TcpCoalescer) : bool := (used_ c =? 0)%nat.

Definition bytes_of (owned : list (list Z)) (v : View) : list Z :=
  match v with
  | Stable bytes => bytes
  | Owned slot offset => drop offset (owned !!! slot)
  end.

Definition view_from (v : View) (offset : nat) : View :=
  match v with
  | Stable bytes => Stable (drop offset bytes)
  | Owned slot start => Owned slot (start + offset)
  end.

(** The next unused item, cleared. *)
Definition next_item (c : TcpCoalescer) : TcpCoalescer * nat :=
  let items := if (used_ c =? length (items_ c))%nat then items_ c ++ [new_item] else items_ c in
  (mkCoalescer (<[used_ c := new_item]> items) (S (used_ c)) (owned_ c) (owned_used_ c) (coalesced_ c), used_ c).

Definition retain (c : TcpCoalescer) (packet : list Z) (stable : bool) : TcpCoalescer * View :=
  if stable then (c, Stable packet) else
  let owned := if (owned_used_ c =? length (owned_ c))%nat then owned_ c ++ [[]] else owned_ c in
  (mkCoalescer (items_ c) (used_ c) (<[owned_used_ c := packet]> owned) (S (owned_used_ c)) (coalesced_ c),
   Owned (owned_used_ c) 0).

Definition set_item (c : TcpCoalescer) (index : nat) (item : Item) : TcpCoalescer :=
  mkCoalescer (<[index := item]> (items_ c)) (used_ c) (owned_ c) (owned_used_ c) (coalesced_ c).

(** [std::equal(a.begin() + from, a.begin() + to, b.begin() + from)] *)
Definition same_range (a b : list Z) (from to : nat) : res unit bool :=
  let* x := subspan a from (to - from) in
  let* y := subspan b from (to - from) in
  Ok (bool_decide (x = y)).

(** [if (cond) return false; rest] *)
Definition unless (cond : res unit bool) (rest : res unit bool) : res unit bool :=
  let* c := cond in if c then Ok false else rest.
Notation "'no' 'if' c ';' k" := (unless c k) (at level 10, c at level 100, k at level 200) : norr_scope.

Definition differ8 (a b : list Z) (i : nat) : res unit bool :=
  let* x := rd a i in let* y := rd b i in Ok (negb (x =? y)).
Definition differ16 (a b : list Z) (i : nat) : res unit bool :=
  let* x := load16 a i in let* y := load16 b i in Ok (negb (x =? y)).
Definition differ32 (a b : list Z) (i : nat) : res unit bool :=
  let* x := load32 a i in let* y := load32 b i in Ok (negb (x =? y)).
Definition bits16 (a : list Z) (i : nat) (mask : Z) : res unit bool :=
  let* x := load16 a i in Ok (negb (Z.land x mask =? 0)).
Definition bits8 (a : list Z) (i : nat) (mask : Z) : res unit bool :=
  let* x := rd a i in Ok (negb (Z.land x mask =? 0)).

(** The IP headers agree as far as one frame can carry both. *)
Definition ip_mergeable (packet base : list Z) (ipv4 : bool) (rest : res unit bool) : res unit bool :=
  if ipv4 then
    no if (let* e := same_range packet base 12 20 in Ok (negb e));
    no if differ8 packet base 1;
    no if differ8 packet base 8;
    no if bits16 packet 6 0xBFFF;
    no if differ16 packet base 6;
    rest
  else
    no if (let* e := same_range packet base 8 40 in Ok (negb e));
    no if differ8 packet base 0;
    no if differ8 packet base 1;
    no if differ8 packet base 7;
    rest.

Definition try_append (item : Item) (packet : list Z) (ipv4 : bool) (ip_length tcp_length : nat) : res unit bool :=
  if negb (it_tcp item) || negb (it_open item) || negb (eqb (it_ipv4 item) ipv4) ||
     negb (it_ip_length item =? ip_length)%nat || negb (it_tcp_length item =? tcp_length)%nat
  then Ok false else
  let base := head item in
  let payload := (length packet - ip_length - tcp_length)%nat in
  if (payload =? 0)%nat || (it_segment item <? payload)%nat then Ok false else
  if (kMaximumOffloadFrame <? it_total item + payload)%nat || (64 <=? length (payloads item))%nat then Ok false else
  ip_mergeable packet base ipv4 (
    let* tcp := subspan_from packet ip_length in
    let* first := subspan_from base ip_length in
    no if differ32 tcp first 0;
    no if (let* x := load32 tcp 4 in Ok (negb (x =? next_sequence item)));
    no if differ32 tcp first 8;
    no if differ16 tcp first 14;
    no if bits8 tcp 13 kNotAckOrPush;
    same_range tcp first 20 tcp_length).

(** The packets the coalescer tries to merge. *)
Definition candidate (packet : list Z) : res unit bool :=
  if (length packet <? 40)%nat then Ok false else
  let* first := rd packet 0 in
  let version := Z.shiftr first 4 in
  if version =? 4 then
    if negb (Z.land first 0x0F =? 5) then Ok false else
    let* protocol := rd packet 9 in
    if negb (protocol =? kProtocolTcp) then Ok false else
    let* fragment := load16 packet 6 in
    Ok (Z.land fragment 0x3FFF =? 0)
  else if negb (version =? 6) then Ok false
  else if (length packet <? 60)%nat then Ok false
  else let* next := rd packet 6 in Ok (next =? kProtocolTcp).

Definition same_flow (item : Item) (packet : list Z) (ipv4 : bool) (ip_length : nat) : res unit bool :=
  let* e := if ipv4 then same_range packet (head item) 12 20 else same_range packet (head item) 8 40 in
  if negb e then Ok false else
  let* x := load32 packet ip_length in
  let* y := load32 (head item) (it_ip_length item) in
  Ok (x =? y).

(** [for (std::size_t index = used_; index-- > 0;)]: the newest item of the
    flow takes the packet or no item does. *)
Fixpoint find_item (n : nat) (items : list Item) (packet : list Z) (ipv4 : bool) (ip_length tcp_length : nat)
    : res unit (option nat) :=
  match n with
  | O => Ok None
  | S index =>
      match items !! index with
      | None => Ub
      | Some item =>
          if negb (it_tcp item) || negb (eqb (it_ipv4 item) ipv4)
          then find_item index items packet ipv4 ip_length tcp_length else
          let* flow := same_flow item packet ipv4 ip_length in
          if negb flow then find_item index items packet ipv4 ip_length tcp_length else
          let* fits := try_append item packet ipv4 ip_length tcp_length in
          Ok (if fits then Some index else None)
      end
  end.

(** The packet joins the item at [index]. *)
Definition append_item (item : Item) (kept : View) (headers payload : nat) (flags : Z) : res unit Item :=
  let push := negb (Z.land flags kTcpPsh =? 0) in
  let* head :=
    if push then
      let* b := rd (head item) (it_ip_length item + 13) in
      wr (head item) (it_ip_length item + 13) (u8 (Z.lor b kTcpPsh))
    else Ok (head item) in
  Ok (mkItem head (payloads item ++ [view_from kept headers]) (it_tcp item) (it_ipv4 item) (it_ip_length item)
        (it_tcp_length item) (it_segment item) (it_total item + payload)
        (u32 (next_sequence item + Z.of_nat payload))
        (if (payload <? it_segment item)%nat || push then false else it_open item)).

(** A packet that opens an item of its own. *)
Definition open_item (c : TcpCoalescer) (packet : list Z) (stable ipv4 : bool)
    (ip_length tcp_length : nat) (flags : Z) : res unit TcpCoalescer :=
  let headers := (ip_length + tcp_length)%nat in
  let payload := (length packet - headers)%nat in
  let (c, kept) := retain c packet stable in
  let (c, index) := next_item c in
  let* front := span_first (bytes_of (owned_ c) kept) headers in
  let* sequence := load32 packet (ip_length + 4) in
  Ok (set_item c index (mkItem front [view_from kept headers] true ipv4 ip_length tcp_length payload
        (length packet) (u32 (sequence + Z.of_nat payload)) (flags =? kTcpAck))).

(** Any other packet is passed on as it is. *)
Definition pass_item (c : TcpCoalescer) (packet : list Z) (stable : bool) : TcpCoalescer :=
  let (c, index) := next_item c in
  let (c, kept) := retain c packet stable in
  set_item c index (mkItem [] [kept] false false 0 0 0 (length packet) 0 false).

Definition add (c : TcpCoalescer) (packet : list Z) (stable : bool) : res unit TcpCoalescer :=
  let* cand := candidate packet in
  if negb cand then Ok (pass_item c packet stable) else
  let ipv4 := is_ipv4 packet in
  let* ip_length := ip_header_length packet in
  let* b := rd packet (ip_length + 12) in
  let tcp_length := (Z.to_nat (Z.shiftr b 4) * 4)%nat in
  let headers := (ip_length + tcp_length)%nat in
  if negb ((20 <=? tcp_length)%nat && (headers <? length packet)%nat) then Ok (pass_item c packet stable) else
  let payload := (length packet - headers)%nat in
  let* flags := rd packet (ip_length + 13) in
  let* found := find_item (used_ c) (items_ c) packet ipv4 ip_length tcp_length in
  match found with
  | Some index =>
      let (c, kept) := retain c packet stable in
      match items_ c !! index with
      | None => Ub
      | Some item =>
          let* item := append_item item kept headers payload flags in
          Ok (set_item c index item)
      end
  | None => open_item c packet stable ipv4 ip_length tcp_length flags
  end.

(** What the writer is given: the virtio header, the headers and the payloads. *)
Record Frame := mkFrame {
  fr_virtio : list Z;
  fr_head : list Z;
  fr_payloads : list (list Z);
}.

Definition flush_item (owned : list (list Z)) (item : Item) : res unit (Item * Frame * bool) :=
  let header := replicate kVirtioHeaderSize 0 in
  let pieces := bytes_of owned <$> payloads item in
  if negb (it_tcp item) || (length (payloads item) <? 2)%nat
  then Ok (item, mkFrame header (head item) pieces, false) else
  let* h := set_ip_length (head item) (it_total item) in
  let transport_length := (it_total item - it_ip_length item)%nat in
  let* sum := pseudo_header_sum h kProtocolTcp transport_length in
  let* h := store16 h (it_ip_length item + 16) (fold_checksum sum) in
  let virtio := mkVirtio kVirtioNeedsChecksum (if it_ipv4 item then kGsoTcpV4 else kGsoTcpV6)
    (u16 (Z.of_nat (it_ip_length item + it_tcp_length item))) (u16 (Z.of_nat (it_segment item)))
    (u16 (Z.of_nat (it_ip_length item))) 16 in
  let* header := write_virtio_header virtio header in
  Ok (mkItem h (payloads item) (it_tcp item) (it_ipv4 item) (it_ip_length item) (it_tcp_length item)
        (it_segment item) (it_total item) (next_sequence item) (it_open item),
      mkFrame header h pieces, true).

Fixpoint flush_loop (n index : nat) (c : TcpCoalescer) (written : list Frame) : res unit (TcpCoalescer * list Frame) :=
  match n with
  | O => Ok (c, written)
  | S n =>
      match items_ c !! index with
      | None => Ub
      | Some item =>
          let* r := flush_item (owned_ c) item in
          let '(item', frame, merged) := r in
          let c := set_item c index item' in
          let more := if merged : bool then Z.of_nat (length (payloads item)) - 1 else 0 in
          flush_loop n (S index)
            (mkCoalescer (items_ c) (used_ c) (owned_ c) (owned_used_ c) (u64 (coalesced_ c + more)))
            (written ++ [frame])
      end
  end.

(** The frames given to the writer, in order; their number is returned. *)
Definition flush (c : TcpCoalescer) : res unit (TcpCoalescer * list Frame) :=
  let* r := flush_loop (used_ c) 0 c [] in
  Ok (mkCoalescer (items_ r.1) 0 (owned_ r.1) 0 (coalesced_ r.1), r.2).

(** * The tests of the code *)

(** A test that runs, and what its answer says. *)
Definition decides (r : res unit bool) (P : Prop) : Prop := ∃ b, r = Ok b ∧ (b = true → P).
Definition refutes (r : res unit bool) (P : Prop) : Prop := ∃ b, r = Ok b ∧ (b = false → P).

Lemma unless_decides c k P Q : refutes c P → decides k Q → decides (unless c k) (P ∧ Q).
Proof.
  intros (b & -> & HP) (b' & -> & HQ). unfold unless. cbn [rbind]. destruct b; [by exists false|].
  exists b'. auto.
Qed.

Lemma be_value_inj a b : bytes_ok a → bytes_ok b → length a = length b → be_value a = be_value b → a = b.
Proof. intros Ha Hb Hl E. rewrite <- (be_bytes_be_value a), <- (be_bytes_be_value b) by done. by rewrite Hl, E. Qed.

Section tests.
Context (a b : list Z) (Ha : bytes_ok a) (Hb : bytes_ok b).

Lemma same_range_decides from to : (from ≤ to ≤ length a)%nat → (to ≤ length b)%nat →
  same_range a b from to = Ok (bool_decide (slice from (to - from) a = slice from (to - from) b)).
Proof. intros ??. unfold same_range. by rewrite !subspan_ok by lia. Qed.

Lemma range_refutes from to : (from ≤ to ≤ length a)%nat → (to ≤ length b)%nat →
  refutes (let* e := same_range a b from to in Ok (negb e)) (slice from (to - from) a = slice from (to - from) b).
Proof.
  intros ??. rewrite same_range_decides by done. eexists. split; [done|].
  intros E%negb_false_iff. by apply bool_decide_eq_true in E.
Qed.

Lemma differ8_refutes i : (i < length a)%nat → (i < length b)%nat → refutes (differ8 a b i) (a !! i = b !! i).
Proof.
  intros Hi Hj. unfold differ8. apply lookup_lt_is_Some in Hi as [x Hx]. apply lookup_lt_is_Some in Hj as [y Hy].
  rewrite (rd_ok _ _ _ Hx), (rd_ok _ _ _ Hy). cbn [rbind]. eexists. split; [done|].
  intros E%negb_false_iff%Z.eqb_eq. congruence.
Qed.

Lemma differ16_refutes i : (i + 2 ≤ length a)%nat → (i + 2 ≤ length b)%nat →
  refutes (differ16 a b i) (slice i 2 a = slice i 2 b).
Proof.
  intros Hi Hj. unfold differ16. rewrite !load16_spec by done. cbn [rbind]. eexists. split; [done|].
  intros E%negb_false_iff%Z.eqb_eq. apply be_value_inj; auto with norr. by rewrite !length_slice.
Qed.

Lemma differ32_refutes i : (i + 4 ≤ length a)%nat → (i + 4 ≤ length b)%nat →
  refutes (differ32 a b i) (slice i 4 a = slice i 4 b).
Proof.
  intros Hi Hj. unfold differ32. rewrite !load32_spec by done. cbn [rbind]. eexists. split; [done|].
  intros E%negb_false_iff%Z.eqb_eq. apply be_value_inj; auto with norr. by rewrite !length_slice.
Qed.

Lemma bits16_refutes i mask : (i + 2 ≤ length a)%nat → refutes (bits16 a i mask) True.
Proof. intros Hi. unfold bits16. rewrite load16_spec by done. by eexists. Qed.

Lemma bits8_refutes i mask : (i < length a)%nat → refutes (bits8 a i mask) (Z.land (a !!! i) mask = 0).
Proof.
  intros Hi. unfold bits8. apply lookup_lt_is_Some in Hi as [x Hx]. rewrite (rd_ok _ _ _ Hx), (list_lookup_total_correct _ _ _ Hx).
  cbn [rbind]. eexists. split; [done|]. intros E%negb_false_iff%Z.eqb_eq. exact E.
Qed.
End tests.

(** Equal slices agree byte by byte. *)
Lemma slice_lookup a b i n k : slice i n a = slice i n b → (i ≤ k < i + n)%nat → a !! k = b !! k.
Proof.
  intros E Hk. apply (f_equal (.!! (k - i)%nat)) in E. rewrite !lookup_slice in E by lia.
  by replace (i + (k - i))%nat with k in E by lia.
Qed.

(** * Packets the coalescer may merge *)

Definition tcp_len (p : list Z) : nat := Z.to_nat (Z.shiftr (p !!! (ip_len p + 12)%nat) 4) * 4.
Definition hdr (p : list Z) : nat := ip_len p + tcp_len p.
Definition pay (p : list Z) : nat := length p - hdr p.
Definition sequence_of (p : list Z) : Z := be_value (slice (ip_len p + 4) 4 p).
Definition flags_of (p : list Z) : Z := p !!! (ip_len p + 13)%nat.
Definition pushes (p : list Z) : bool := negb (Z.land (flags_of p) kTcpPsh =? 0).
(** The flags a merged packet is delivered with: its own, with the acknowledgement. *)
Definition acked_flags (p : list Z) : Z := Z.lor (flags_of p) kTcpAck.

Definition is_candidate (p : list Z) : bool :=
  (40 <=? length p)%nat &&
  (if is_ipv4 p then
     (Z.land (p !!! 0%nat) 0x0F =? 5) && (p !!! 9%nat =? kProtocolTcp) && (Z.land (be_value (slice 6 2 p)) 0x3FFF =? 0)
   else (Z.shiftr (p !!! 0%nat) 4 =? 6) && (60 <=? length p)%nat && (p !!! 6%nat =? kProtocolTcp)).

Definition mergeable (p : list Z) : bool :=
  is_candidate p && (20 <=? tcp_len p)%nat && (hdr p <? length p)%nat.

Lemma candidate_spec p : bytes_ok p → candidate p = Ok (is_candidate p).
Proof.
  intros Hb. unfold candidate, is_candidate. destruct (Nat.ltb_spec (length p) 40), (Nat.leb_spec 40 (length p)); try lia; [done|].
  assert (∀ k, (k < length p)%nat → rd (E:=unit) p k = Ok (p !!! k)) as Hrd
    by (intros; by apply rd_ok, list_lookup_lookup_total_lt).
  rewrite Hrd by lia. cbn [rbind andb]. assert (is_ipv4 p = (Z.shiftr (p !!! 0%nat) 4 =? 4)) as ->.
  { destruct p; [cbn in *; lia|done]. }
  destruct (_ =? 4); [|].
  - destruct (_ =? 5); cbn [negb andb]; [|done]. rewrite Hrd by lia. cbn [rbind].
    destruct (_ =? kProtocolTcp); cbn [negb andb]; [|done]. by rewrite load16_spec by (done || lia).
  - destruct (_ =? 6); cbn [negb andb]; [|done].
    destruct (Nat.ltb_spec (length p) 60), (Nat.leb_spec 60 (length p)); try lia; cbn [andb]; [done|].
    by rewrite Hrd by lia.
Qed.

(** The shape of a candidate: plain IP headers, TCP. *)
Record shaped (p : list Z) : Prop := {
  sh_bytes : bytes_ok p;
  sh_ip : ip_len p = if is_ipv4 p then 20%nat else 40%nat;
  sh_tcp : (20 ≤ tcp_len p)%nat;
  sh_hdr : (hdr p < length p)%nat;
  sh_protocol : p !! protocol_at p = Some kProtocolTcp;
}.

Lemma mergeable_shaped p : bytes_ok p → mergeable p = true → shaped p.
Proof.
  intros Hb H. unfold mergeable, is_candidate in H. apply andb_true_iff in H as [[H Ht%Nat.leb_le]%andb_true_iff Hh%Nat.ltb_lt].
  apply andb_true_iff in H as [Hl%Nat.leb_le H]. unfold ip_len in *. constructor; try done; unfold protocol_at.
  - destruct (is_ipv4 p) eqn:E4; unfold ip_len; rewrite E4; [|done].
    apply andb_true_iff in H as [[->%Z.eqb_eq _]%andb_true_iff _]. done.
  - destruct (is_ipv4 p) eqn:E4.
    + apply andb_true_iff in H as [[_ E%Z.eqb_eq]%andb_true_iff _]. rewrite <- E. apply list_lookup_lookup_total_lt. lia.
    + apply andb_true_iff in H as [_ E%Z.eqb_eq]. rewrite <- E. apply list_lookup_lookup_total_lt. lia.
Qed.

(** ** Packets that differ only in what a frame recomputes or drops: IP length,
    IPv4 identifier and header checksum, IPv6 flow label, sequence number,
    flags, TCP checksum and urgent pointer. *)

Definition unkept (p : list Z) (k : nat) : Prop :=
  (2 ≤ k < 6)%nat ∨ (is_ipv4 p = true ∧ (10 ≤ k < 12)%nat) ∨ (ip_len p + 4 ≤ k < ip_len p + 8)%nat ∨
  (ip_len p + 12 ≤ k < ip_len p + 14)%nat ∨ (ip_len p + 16 ≤ k < ip_len p + 20)%nat.

Record alike (p q : list Z) : Prop := {
  al_ipv4 : is_ipv4 q = is_ipv4 p;
  al_ip : ip_len q = ip_len p;
  al_tcp : tcp_len q = tcp_len p;
  al_bytes : ∀ k, (k < hdr p)%nat → ¬ unkept p k → q !! k = p !! k;
}.

(** The kept headers of [p]: its own but for the flags. *)
Record mirrors (h p : list Z) : Prop := {
  mi_bytes : bytes_ok h;
  mi_length : length h = hdr p;
  mi_kept : ∀ k, (k < hdr p)%nat → k ≠ (ip_len p + 13)%nat → h !! k = p !! k;
}.

Lemma first_byte p : shaped p → is_ipv4 p = true → p !! 0%nat = Some 0x45.
Proof.
  intros Hs H4. pose proof (sh_ip _ Hs) as Hi. unfold ip_len in Hi. rewrite H4 in Hi.
  destruct p as [|x p]; [done|]. cbn in H4, Hi |- *. apply Z.eqb_eq in H4.
  pose proof (sh_bytes _ Hs) as [Hx _]%Forall_cons. unfold is_u8 in Hx. f_equal.
  assert (Z.land x 15 = 5) as E by lia. change 15 with (Z.ones 4) in E. rewrite Z.land_ones in E by lia.
  rewrite shiftr_div in H4 by lia. pose proof (Z.div_mod x (2 ^ 4)). lia.
Qed.

Definition ip_agrees (p h : list Z) (ipv4 : bool) : Prop :=
  if ipv4 then slice 12 8 p = slice 12 8 h ∧ p !! 1%nat = h !! 1%nat ∧ p !! 8%nat = h !! 8%nat ∧
    slice 6 2 p = slice 6 2 h
  else slice 8 32 p = slice 8 32 h ∧ p !! 0%nat = h !! 0%nat ∧ p !! 1%nat = h !! 1%nat ∧ p !! 7%nat = h !! 7%nat.


Lemma decides_weaken r P Q : decides r P → (P → Q) → decides r Q.
Proof. intros (b & E & H) HQ. exists b. auto. Qed.

Lemma ip_mergeable_decides p h ipv4 rest Q : bytes_ok p → bytes_ok h → (40 ≤ length p)%nat → (40 ≤ length h)%nat →
  decides rest Q → decides (ip_mergeable p h ipv4 rest) (ip_agrees p h ipv4 ∧ Q).
Proof.
  intros Hp Hh Lp Lh HQ. unfold ip_mergeable, ip_agrees. destruct ipv4; eapply decides_weaken.
  - repeat apply unless_decides; [apply range_refutes; lia|apply differ8_refutes; lia..|apply bits16_refutes; [done|lia]|
      apply differ16_refutes; [done..|lia|lia]|exact HQ].
  - cbn. tauto.
  - repeat apply unless_decides; [apply range_refutes; lia|apply differ8_refutes; lia..|exact HQ].
  - cbn. tauto.
Qed.

Definition tcp_agrees (t h : list Z) (next : Z) (tcp_length : nat) : Prop :=
  slice 0 4 t = slice 0 4 h ∧ be_value (slice 4 4 t) = next ∧ slice 8 4 t = slice 8 4 h ∧ slice 14 2 t = slice 14 2 h ∧
  Z.land (t !!! 13%nat) kNotAckOrPush = 0 ∧ slice 20 (tcp_length - 20) t = slice 20 (tcp_length - 20) h.

Lemma tcp_tests_decide t h next tcp_length : bytes_ok t → bytes_ok h → (20 ≤ tcp_length ≤ length t)%nat →
  (tcp_length ≤ length h)%nat →
  decides (no if differ32 t h 0; no if (let* x := load32 t 4 in Ok (negb (x =? next))); no if differ32 t h 8;
           no if differ16 t h 14; no if bits8 t 13 kNotAckOrPush; same_range t h 20 tcp_length)
    (tcp_agrees t h next tcp_length).
Proof.
  intros Ht Hh Lt Lh. eapply decides_weaken.
  - repeat apply unless_decides; [apply differ32_refutes; [done..|lia|lia]| |apply differ32_refutes; [done..|lia|lia]|
      apply differ16_refutes; [done..|lia|lia]|apply bits8_refutes; lia|].
    + rewrite load32_spec by (done || lia). cbn [rbind]. eexists. split; [done|].
      intros E%negb_false_iff%Z.eqb_eq. exact E.
    + rewrite same_range_decides by lia. eexists. split; [done|]. intros E%bool_decide_eq_true_1. exact E.
  - unfold tcp_agrees. tauto.
Qed.

(** The two tests together: the headers agree. *)
Lemma agrees_alike p q h next : shaped p → shaped q → mirrors h p → is_ipv4 q = is_ipv4 p → tcp_len q = tcp_len p →
  ip_agrees q h (is_ipv4 q) → tcp_agrees (drop (ip_len q) q) (drop (ip_len q) h) next (tcp_len q) →
  alike p q ∧ sequence_of q = next ∧ Z.land (flags_of q) kNotAckOrPush = 0.
Proof.
  intros Sp Sq Hm E4 Et Hi (Hports & Hseq & Hack & Hwin & Hflags & Hopt).
  assert (ip_len q = ip_len p) as Ei by (rewrite (sh_ip _ Sp), (sh_ip _ Sq), E4; done).
  split; [|split; [by unfold sequence_of; rewrite <- Hseq; unfold slice; rewrite drop_drop|]].
  2: { unfold flags_of. rewrite list_lookup_total_alt in Hflags |- *. by rewrite lookup_drop in Hflags. }
  constructor; [done..|]. intros k Hk Hu. unfold unkept in Hu.
  rewrite <- (mi_kept _ _ Hm k Hk) by lia. unfold hdr in Hk.
  assert (∀ o n, slice o n (drop (ip_len q) q) = slice o n (drop (ip_len q) h) →
    (ip_len p + o ≤ k < ip_len p + o + n)%nat → q !! k = h !! k) as Htcp.
  { intros o n E Hr. unfold slice in E. rewrite !drop_drop, Ei in E. by eapply (slice_lookup _ _ (ip_len p + o) n). }
  destruct (decide (k < ip_len p)%nat) as [Hlt|Hge].
  - rewrite (sh_ip _ Sp) in Hlt, Hu. unfold ip_agrees in Hi. rewrite E4 in Hi.
    pose proof (sh_protocol _ Sp) as Pp. pose proof (sh_protocol _ Sq) as Pq. unfold protocol_at in Pp, Pq. rewrite E4 in Pq.
    destruct (is_ipv4 p) eqn:F4.
    + destruct Hi as (Ha & H1 & H8 & H6).
      destruct (decide (k = 0)%nat) as [->|]; [rewrite (mi_kept _ _ Hm) by (unfold hdr; lia); by rewrite !first_byte|].
      destruct (decide (k = 9)%nat) as [->|]; [rewrite (mi_kept _ _ Hm) by (unfold hdr; lia); congruence|].
      destruct (decide (k = 1)%nat) as [->|]; [done|]. destruct (decide (k = 8)%nat) as [->|]; [done|].
      destruct (decide (k < 8)%nat); [by eapply (slice_lookup _ _ 6 2); [done|lia]|].
      eapply (slice_lookup _ _ 12 8); [done|lia].
    + destruct Hi as (Ha & H0 & H1 & H7).
      destruct (decide (k = 0)%nat) as [->|]; [done|]. destruct (decide (k = 1)%nat) as [->|]; [done|].
      destruct (decide (k = 7)%nat) as [->|]; [done|].
      destruct (decide (k = 6)%nat) as [->|]; [rewrite (mi_kept _ _ Hm) by (unfold hdr; lia); congruence|].
      eapply (slice_lookup _ _ 8 32); [done|lia].
  - destruct (decide (k < ip_len p + 4)%nat); [eapply (Htcp 0%nat 4%nat); [done|lia]|].
    destruct (decide (k < ip_len p + 12)%nat); [eapply (Htcp 8%nat 4%nat); [done|lia]|].
    destruct (decide (k < ip_len p + 16)%nat); [eapply (Htcp 14%nat 2%nat); [done|lia]|].
    eapply (Htcp 20%nat); [done|]. rewrite Et. lia.
Qed.

Lemma try_append_decides it p q : it_tcp it = true → it_ipv4 it = is_ipv4 p → it_ip_length it = ip_len p →
  it_tcp_length it = tcp_len p → shaped p → shaped q → mirrors (head it) p →
  decides (try_append it q (is_ipv4 q) (ip_len q) (tcp_len q))
    (it_open it = true ∧ alike p q ∧ sequence_of q = next_sequence it ∧ Z.land (flags_of q) kNotAckOrPush = 0 ∧ (0 < pay q ≤ it_segment it)%nat ∧
     Z.of_nat (it_total it + pay q) ≤ 65535).
Proof.
  intros Ht E4 Ei Et Sp Sq Hm. unfold try_append. rewrite Ht, E4, Ei, Et. cbn [negb orb].
  destruct (it_open it); cbn [negb orb]; [|by exists false].
  destruct (Bool.eqb_spec (is_ipv4 p) (is_ipv4 q)) as [F4|]; cbn [negb orb]; [|by exists false].
  destruct (Nat.eqb_spec (ip_len p) (ip_len q)) as [Fi|]; cbn [negb orb]; [|by exists false].
  destruct (Nat.eqb_spec (tcp_len p) (tcp_len q)) as [Ft|]; cbn [negb orb]; [|by exists false].
  replace (length q - ip_len q - tcp_len q)%nat with (pay q) by (unfold pay, hdr; lia).
  destruct (Nat.eqb_spec (pay q) 0), (Nat.ltb_spec (it_segment it) (pay q)); cbn [orb]; try by exists false.
  destruct (Nat.ltb_spec kMaximumOffloadFrame (it_total it + pay q)); cbn [orb]; [by exists false|].
  destruct (64 <=? _)%nat; [by exists false|].
  pose proof (sh_hdr _ Sp). pose proof (sh_hdr _ Sq). pose proof (sh_tcp _ Sp). pose proof (sh_tcp _ Sq).
  pose proof (mi_length _ _ Hm) as Lm. pose proof (mi_bytes _ _ Hm) as Bm. pose proof (sh_bytes _ Sq) as Bq.
  assert (20 ≤ ip_len p)%nat by (rewrite (sh_ip _ Sp); destruct (is_ipv4 p); lia). unfold hdr in *.
  rewrite !subspan_from_ok by lia. cbn [rbind].
  eapply decides_weaken; [apply ip_mergeable_decides; [done..|lia|lia|]|].
  - apply (tcp_tests_decide _ _ (next_sequence it) (tcp_len q)); rewrite ?length_drop; auto with norr; lia.
  - intros [Hi Hc]. destruct (agrees_alike p q (head it) (next_sequence it)) as (Ha & Hs & Hf); [done..|].
    do 4 (split; [done|]). unfold kMaximumOffloadFrame in *. lia.
Qed.

(** ** Flows *)

Definition flow_of (p : list Z) : option (bool * list Z * list Z) :=
  if mergeable p then Some (is_ipv4 p, addresses p, slice (ip_len p) 4 p) else None.

Lemma alike_flow p q : shaped p → shaped q → alike p q → addresses q = addresses p ∧ slice (ip_len q) 4 q = slice (ip_len p) 4 p.
Proof.
  intros Sp Sq Ha. pose proof (sh_ip _ Sp) as Hi. pose proof (sh_tcp _ Sp). unfold addresses. rewrite (al_ipv4 _ _ Ha), (al_ip _ _ Ha).
  unfold hdr, unkept in *. pose proof (al_bytes _ _ Ha) as Hb. unfold hdr, unkept in Hb.
  destruct (is_ipv4 p); split; apply slice_ext; intros k Hk; apply Hb; lia.
Qed.

Lemma same_flow_spec it p q : it_ip_length it = ip_len p → shaped p → shaped q → mirrors (head it) p →
  is_ipv4 q = is_ipv4 p →
  same_flow it q (is_ipv4 q) (ip_len q) =
    Ok (bool_decide (addresses q = addresses p ∧ slice (ip_len q) 4 q = slice (ip_len p) 4 p)).
Proof.
  intros Ei Sp Sq Hm E4. pose proof (sh_hdr _ Sp). pose proof (sh_hdr _ Sq). pose proof (sh_tcp _ Sp). pose proof (sh_tcp _ Sq).
  pose proof (mi_length _ _ Hm) as Lm. pose proof (mi_bytes _ _ Hm) as Bm. pose proof (sh_bytes _ Sq) as Bq.
  pose proof (sh_ip _ Sp) as Ip. pose proof (sh_ip _ Sq) as Iq. unfold hdr in *.
  assert (∀ o n, (o + n ≤ ip_len p + 4)%nat → slice o n (head it) = slice o n p) as Hk.
  { intros o n Ho. apply slice_ext. intros k Hk. apply (mi_kept _ _ Hm); unfold hdr; lia. }
  unfold same_flow. assert ((if is_ipv4 q then same_range q (head it) 12 20 else same_range q (head it) 8 40) =
    Ok (bool_decide (addresses q = addresses p))) as ->.
  { unfold addresses. rewrite E4 in *. destruct (is_ipv4 p); rewrite same_range_decides by lia; cbn [Nat.sub]; by rewrite Hk by lia. }
  cbn [rbind]. destruct (bool_decide_reflect (addresses q = addresses p)) as [Ea|Ea]; cbn [negb].
  2: { f_equal. symmetry. apply bool_decide_eq_false. tauto. }
  rewrite Ei, !load32_spec by (done || lia). cbn [rbind]. f_equal. rewrite Hk by lia.
  apply Bool.eq_iff_eq_true. rewrite Z.eqb_eq, bool_decide_eq_true. split; [|intros [_ ->]; done].
  intros E. split; [done|]. apply be_value_inj; auto with norr; [apply slice_bytes, Sp|]. rewrite !length_slice; lia.
Qed.

(** * What the items hold *)

(** Nothing was cut short and nothing pushed, so more may follow. *)
Definition goes_on (p1 p : list Z) : Prop := pay p = pay p1 ∧ acked_flags p = kTcpAck.

Lemma acked_flags_cases p : shaped p → Z.land (flags_of p) kNotAckOrPush = 0 →
  acked_flags p = if pushes p then Z.lor kTcpAck kTcpPsh else kTcpAck.
Proof.
  intros Sp Hf. pose proof (sh_hdr _ Sp). pose proof (sh_tcp _ Sp).
  assert (is_u8 (flags_of p)) as Hu.
  { eapply (Forall_lookup_1 _ _ _ _ (sh_bytes _ Sp)). apply list_lookup_lookup_total_lt. unfold hdr in *. lia. }
  unfold acked_flags, pushes. set (f := flags_of p) in *. clearbody f.
  assert (Forall (λ f, Z.land f kNotAckOrPush = 0 →
    Z.lor f kTcpAck = if negb (Z.land f kTcpPsh =? 0) then Z.lor kTcpAck kTcpPsh else kTcpAck) (seqZ 0 256)) as Hall
    by (apply (bool_decide_unpack _); vm_compute; done).
  rewrite Forall_forall in Hall. apply Hall; [|done]. apply elem_of_seqZ. unfold is_u8 in Hu. lia.
Qed.

Definition total_pay (ps : list (list Z)) : nat := sum_list_with pay ps.

(** The [i]-th packet continues the stream that [p1] starts. *)
Definition continues (p1 : list Z) (ps : list (list Z)) (i : nat) (p : list Z) : Prop :=
  shaped p ∧ flow_of p = flow_of p1 ∧ alike p1 p ∧ sequence_of p = u32 (sequence_of p1 + Z.of_nat (i * pay p1)) ∧ (pay p ≤ pay p1)%nat ∧
  ((S i < length ps)%nat → goes_on p1 p).

(** The item has gathered the packets [ps], of which [p1] is the first. *)
Record gathered (owned : list (list Z)) (it : Item) (p1 : list Z) (ps : list (list Z)) : Prop := {
  ga_tcp : it_tcp it = true;
  ga_ipv4 : it_ipv4 it = is_ipv4 p1;
  ga_ip : it_ip_length it = ip_len p1;
  ga_tcp_length : it_tcp_length it = tcp_len p1;
  ga_segment : it_segment it = pay p1;
  ga_first : ps !! 0%nat = Some p1;
  ga_mergeable : mergeable p1 = true;
  ga_head : mirrors (head it) p1;
  ga_single : length ps = 1%nat → head it = take (hdr p1) p1;
  ga_flags : ∃ b p, head it !! (ip_len p1 + 13)%nat = Some b ∧ last ps = Some p ∧
    (it_open it = true ∨ (2 ≤ length ps)%nat → b = acked_flags p ∧ (b = kTcpAck ∨ b = Z.lor kTcpAck kTcpPsh));
  ga_views : bytes_of owned <$> payloads it = (λ p, drop (hdr p) p) <$> ps;
  ga_total : it_total it = (hdr p1 + total_pay ps)%nat;
  ga_next : next_sequence it = u32 (sequence_of p1 + Z.of_nat (total_pay ps));
  ga_continues : ∀ i p, ps !! i = Some p → continues p1 ps i p;
  ga_open : it_open it = true → Forall (goes_on p1) ps;
  ga_fits : (2 ≤ length ps)%nat → Z.of_nat (it_total it) ≤ 65535;
}.

Inductive carries (owned : list (list Z)) (it : Item) : list (list Z) → Prop :=
| carries_tcp p1 ps : gathered owned it p1 ps → carries owned it ps
| carries_pass p : mergeable p = false → it_tcp it = false → head it = [] →
    bytes_of owned <$> payloads it = [p] → carries owned it [p].

Definition live (used : nat) (v : View) : Prop :=
  match v with Stable _ => True | Owned slot _ => (slot < used)%nat end.

(** The items in use hold the groups of packets, through live views. *)
Record holds (c : TcpCoalescer) (groups : list (list (list Z))) : Prop := {
  ho_used : (used_ c ≤ length (items_ c))%nat;
  ho_owned : (owned_used_ c ≤ length (owned_ c))%nat;
  ho_items : Forall2 (carries (owned_ c)) (take (used_ c) (items_ c)) groups;
  ho_live : Forall (λ it, Forall (live (owned_used_ c)) (payloads it)) (take (used_ c) (items_ c));
}.

Lemma new_coalescer_holds : holds new_coalescer [].
Proof. constructor; cbn; try lia; constructor. Qed.

Lemma gathered_views owned owned' it p1 ps : bytes_of owned' <$> payloads it = bytes_of owned <$> payloads it →
  gathered owned it p1 ps → gathered owned' it p1 ps.
Proof. intros E []. constructor; try done. by rewrite E. Qed.

Lemma carries_views owned owned' it ps : bytes_of owned' <$> payloads it = bytes_of owned <$> payloads it →
  carries owned it ps → carries owned' it ps.
Proof.
  intros E H. destruct H as [p1 ps Hg|p ? ? ? Hv]; [|by apply carries_pass; rewrite ?E].
  by eapply carries_tcp, gathered_views.
Qed.

(** ** Keeping a packet *)

Lemma retain_owned c p stable : (owned_used_ c ≤ length (owned_ c))%nat →
  (owned_used_ (retain c p stable).1 ≤ length (owned_ (retain c p stable).1))%nat ∧
  (∀ v, live (owned_used_ c) v → bytes_of (owned_ (retain c p stable).1) v = bytes_of (owned_ c) v ∧
     live (owned_used_ (retain c p stable).1) v) ∧
  bytes_of (owned_ (retain c p stable).1) (retain c p stable).2 = p ∧
  live (owned_used_ (retain c p stable).1) (retain c p stable).2.
Proof.
  intros Hu. unfold retain. destruct stable; cbn; [done|].
  match goal with |- context [<[_ := p]> ?l] => set (owned := l) end. assert (owned_used_ c < length owned)%nat as Hl.
  { unfold owned. destruct (Nat.eqb_spec (owned_used_ c) (length (owned_ c))); [rewrite length_app; cbn; lia|lia]. }
  rewrite length_insert. split; [lia|]. split; [|split; [by rewrite list_lookup_total_insert_eq, drop_0|lia]].
  intros [bytes|slot offset] Hlive; cbn in *; [done|]. split; [|lia]. f_equal.
  rewrite list_lookup_total_insert_ne by lia. unfold owned. destruct (_ =? _)%nat; [|done].
  by rewrite lookup_total_app_l by lia.
Qed.

Lemma retain_items c p stable :
  items_ (retain c p stable).1 = items_ c ∧ used_ (retain c p stable).1 = used_ c.
Proof. unfold retain. by destruct stable. Qed.

Lemma retain_views c p stable vs : (owned_used_ c ≤ length (owned_ c))%nat → Forall (live (owned_used_ c)) vs →
  bytes_of (owned_ (retain c p stable).1) <$> vs = bytes_of (owned_ c) <$> vs.
Proof.
  intros Ho Hl. destruct (retain_owned c p stable Ho) as (_ & Hv & _). apply list_fmap_ext. intros j v Hj.
  apply Hv. by eapply (Forall_lookup_1 _ _ _ _ Hl).
Qed.

Lemma retain_holds c p stable groups : holds c groups → holds (retain c p stable).1 groups.
Proof.
  intros [Hu Ho Hi Hl]. destruct (retain_owned c p stable Ho) as (Ho' & Hv & _).
  destruct (retain_items c p stable) as [E1 E2].
  constructor; rewrite ?E1, ?E2; try done.
  - apply Forall2_same_length_lookup_2; [by eapply Forall2_length|]. intros i it g Hit Hg.
    eapply carries_views; [|by eapply Forall2_lookup_lr].
    apply (Forall_lookup_1 _ _ _ _ Hl) in Hit. by apply retain_views.
  - eapply Forall_impl; [exact Hl|]. intros it Hit. eapply Forall_impl; [exact Hit|]. intros v Hlive. by apply Hv.
Qed.

(** ** Items *)

(** An item in the next free place. *)
Lemma push_item_holds c groups it g : holds c groups → carries (owned_ c) it g →
  Forall (live (owned_used_ c)) (payloads it) →
  holds (set_item (next_item c).1 (next_item c).2 it) (groups ++ [g]).
Proof.
  intros [Hu Ho Hi Hl] Hg Hlive. unfold next_item, set_item. cbn.
  match goal with |- context [<[_ := new_item]> ?l] => set (items := l) end. assert (used_ c < length items)%nat as Hlen.
  { unfold items. destruct (Nat.eqb_spec (used_ c) (length (items_ c))); [rewrite length_app; cbn; lia|lia]. }
  assert (take (used_ c) items = take (used_ c) (items_ c)) as Et.
  { unfold items. destruct (_ =? _)%nat; [|done]. by rewrite take_app_le by lia. }
  rewrite list_insert_insert_eq.
  assert (take (S (used_ c)) (<[used_ c := it]> items) = take (used_ c) (items_ c) ++ [it]) as Es.
  { rewrite (take_S_r _ _ it) by (by apply list_lookup_insert_eq). by rewrite take_insert_ge, Et by lia. }
  constructor; cbn; rewrite ?Es, ?length_insert; try done; try lia.
  - by apply Forall2_app; [|constructor].
  - by apply Forall_app; split; [|constructor].
Qed.

(** An item in use replaced. *)
Lemma set_item_holds c groups index it g : holds c groups → (index < used_ c)%nat → carries (owned_ c) it g →
  Forall (live (owned_used_ c)) (payloads it) → holds (set_item c index it) (<[index := g]> groups).
Proof.
  intros [Hu Ho Hi Hl] Hlt Hg Hlive. constructor; cbn; rewrite ?length_insert; try done.
  - rewrite take_insert_lt by lia. by apply Forall2_insert.
  - rewrite take_insert_lt by lia. by apply Forall_insert.
Qed.

(** ** Where a packet goes *)

(** What [try_append] has checked of the packet [q]. *)
Definition fits (it : Item) (p1 q : list Z) : Prop :=
  it_open it = true ∧ alike p1 q ∧ sequence_of q = next_sequence it ∧ Z.land (flags_of q) kNotAckOrPush = 0 ∧
  (0 < pay q ≤ it_segment it)%nat ∧
  Z.of_nat (it_total it + pay q) ≤ 65535.

Definition off_flow (q : list Z) (g : list (list Z)) : Prop := Forall (λ p, flow_of p ≠ flow_of q) g.

Lemma gathered_flow owned it p1 ps p : gathered owned it p1 ps → p ∈ ps → flow_of p = flow_of p1.
Proof. intros Hg [i Hi]%list_elem_of_lookup. by apply (ga_continues _ _ _ _ Hg) in Hi as (_ & ? & _). Qed.

Lemma gathered_off_flow owned it p1 ps q : gathered owned it p1 ps → flow_of p1 ≠ flow_of q → off_flow q ps.
Proof. intros Hg Hn. apply Forall_forall. intros p Hp. by rewrite (gathered_flow _ _ _ _ _ Hg Hp). Qed.

Lemma find_item_spec c groups q : holds c groups → shaped q → mergeable q = true → ∀ n, (n ≤ used_ c)%nat →
  ∃ r, find_item n (items_ c) q (is_ipv4 q) (ip_len q) (tcp_len q) = Ok r ∧
    ∀ index, r = Some index → (index < n)%nat ∧ ∃ it p1 ps, items_ c !! index = Some it ∧
      groups !! index = Some ps ∧ gathered (owned_ c) it p1 ps ∧ fits it p1 q ∧ flow_of p1 = flow_of q ∧
      ∀ j g, (index < j < n)%nat → groups !! j = Some g → off_flow q g.
Proof.
  intros Hc Sq Mq. pose proof (ho_used _ _ Hc) as Hu. induction n as [|n IH]; intros Hn; [by exists None|].
  cbn [find_item]. destruct (lookup_lt_is_Some_2 (items_ c) n) as [it Hit]; [lia|]. rewrite Hit.
  assert (take (used_ c) (items_ c) !! n = Some it) as Ht by (rewrite lookup_take_lt by lia; done).
  destruct (Forall2_lookup_l _ _ _ _ _ (ho_items _ _ Hc) Ht) as (g & Hg & Hcar).
  assert (off_flow q g → ∃ r, find_item n (items_ c) q (is_ipv4 q) (ip_len q) (tcp_len q) = Ok r ∧
    ∀ index, r = Some index → (index < S n)%nat ∧ ∃ it p1 ps, items_ c !! index = Some it ∧
      groups !! index = Some ps ∧ gathered (owned_ c) it p1 ps ∧ fits it p1 q ∧ flow_of p1 = flow_of q ∧
      ∀ j g, (index < j < S n)%nat → groups !! j = Some g → off_flow q g) as Hskip.
  { intros Hoff. destruct IH as (r & E & Hr); [lia|]. exists r. split; [done|]. intros index Hi.
    destruct (Hr index Hi) as (Hlt & it' & p1 & ps & ? & ? & ? & ? & ? & Hj). split; [lia|].
    exists it', p1, ps. do 5 (split; [done|]). intros j g' Hj' Hg'. destruct (decide (j = n)) as [->|]; [congruence|].
    apply (Hj j); [lia|done]. }
  assert (flow_of q = Some (is_ipv4 q, addresses q, slice (ip_len q) 4 q)) as Fq by (unfold flow_of; by rewrite Mq).
  destruct Hcar as [p1 ps Hga|p Hm Htcp _ _].
  2: { rewrite Htcp. cbn [negb orb]. apply Hskip. apply Forall_singleton. rewrite Fq. unfold flow_of. by rewrite Hm. }
  pose proof (ga_continues _ _ _ _ Hga 0 p1 (ga_first _ _ _ _ Hga)) as (Sp & _).
  assert (flow_of p1 = Some (is_ipv4 p1, addresses p1, slice (ip_len p1) 4 p1)) as Fp
    by (unfold flow_of; by rewrite (ga_mergeable _ _ _ _ Hga)).
  rewrite (ga_tcp _ _ _ _ Hga), (ga_ipv4 _ _ _ _ Hga). cbn [negb orb].
  destruct (Bool.eqb_spec (is_ipv4 p1) (is_ipv4 q)) as [E4|E4]; cbn [negb].
  2: { apply Hskip. eapply gathered_off_flow; [done|]. rewrite Fp, Fq. congruence. }
  rewrite (same_flow_spec it p1 q) by (done || apply Hga). cbn [rbind].
  destruct (bool_decide_reflect (addresses q = addresses p1 ∧ slice (ip_len q) 4 q = slice (ip_len p1) 4 p1)) as [[Ea Es]|Hne]; cbn [negb].
  2: { apply Hskip. eapply gathered_off_flow; [done|]. rewrite Fp, Fq. intros [=]. by apply Hne. }
  destruct (try_append_decides it p1 q) as (b & -> & Hb); try apply Hga; try done. cbn [rbind].
  eexists. split; [done|]. intros index Hi. destruct b; [|done]. injection Hi as <-. split; [lia|].
  exists it, p1, ps. do 3 (split; [done|]). split; [by apply Hb|]. split; [rewrite Fp, Fq; congruence|]. lia.
Qed.

(** ** A packet joins an item *)

Ltac item_fields :=
  cbn [head payloads it_tcp it_ipv4 it_ip_length it_tcp_length it_segment it_total next_sequence it_open].

Lemma bytes_of_view owned v n : bytes_of owned (view_from v n) = drop n (bytes_of owned v).
Proof. destruct v; cbn; [done|]. by rewrite drop_drop. Qed.

Lemma total_pay_app ps q : total_pay (ps ++ [q]) = (total_pay ps + pay q)%nat.
Proof. unfold total_pay. rewrite sum_list_with_app. cbn. lia. Qed.

Lemma total_pay_even p1 ps : Forall (goes_on p1) ps → total_pay ps = (length ps * pay p1)%nat.
Proof. unfold total_pay. induction 1 as [|p ps [E _] _ IH]; [done|]. cbn. rewrite IH, E. done. Qed.

(** The kept headers take over the push flag. *)
Lemma append_head owned it p1 ps q : gathered owned it p1 ps → it_open it = true → shaped q →
  Z.land (flags_of q) kNotAckOrPush = 0 →
  ∃ h, (if pushes q then
         let* b := rd (head it) (it_ip_length it + 13) in
         wr (head it) (it_ip_length it + 13) (u8 (Z.lor b kTcpPsh))
       else Ok (head it)) = Ok (E:=unit) h ∧ mirrors h p1 ∧ h !! (ip_len p1 + 13)%nat = Some (acked_flags q).
Proof.
  intros Hg Ho Sq Hf. destruct (ga_flags _ _ _ _ Hg) as (b & p & Hb & Hp & Hset). pose proof (ga_head _ _ _ _ Hg) as Hm.
  destruct Hset as [Eb _]; [auto|]. assert (acked_flags p = kTcpAck) as Ep.
  { apply (ga_open _ _ _ _ Hg) in Ho. rewrite Forall_forall in Ho. apply (Ho p).
    rewrite last_lookup in Hp. by eapply list_elem_of_lookup_2. }
  rewrite (acked_flags_cases q Sq Hf). rewrite Ep in Eb. subst b. destruct (pushes q).
  - rewrite (ga_ip _ _ _ _ Hg), (rd_ok _ _ _ Hb). cbn [rbind].
    destruct (wr_rewritten (head it) (ip_len p1 + 13) (u8 (Z.lor kTcpAck kTcpPsh))) as (h & -> & (L & B & K) & Hh);
      [auto with norr|by eapply lookup_lt_Some|].
    exists h. split; [done|]. split; [|done].
    constructor; [apply B, Hm|rewrite L; apply Hm|]. intros k Hk Hne. rewrite K by lia. by apply Hm.
  - by exists (head it).
Qed.

Lemma append_item_spec owned it p1 ps q kept : gathered owned it p1 ps → fits it p1 q → shaped q →
  flow_of q = flow_of p1 → bytes_of owned kept = q →
  ∃ it', append_item it kept (hdr q) (pay q) (flags_of q) = Ok it' ∧ gathered owned it' p1 (ps ++ [q]) ∧
    payloads it' = payloads it ++ [view_from kept (hdr q)].
Proof.
  intros Hg (Ho & Ha & Hs & Hfl & Hpay & Hfit) Sq Hf Hk. unfold append_item. fold (pushes q). cbn zeta.
  destruct (append_head owned it p1 ps q Hg Ho Sq Hfl) as (h & -> & Hm & Hb). cbn [rbind].
  pose proof (acked_flags_cases q Sq Hfl) as Hset.
  eexists. split; [done|]. split; [|done]. pose proof (ga_open _ _ _ _ Hg Ho) as Hall.
  pose proof (ga_first _ _ _ _ Hg) as H1. assert (1 ≤ length ps)%nat as Hlen by (apply lookup_lt_Some in H1; lia).
  pose proof (ga_segment _ _ _ _ Hg) as Hseg. pose proof (total_pay_even p1 ps Hall) as Htot.
  constructor; item_fields; try apply Hg.
  - by rewrite lookup_app_l by lia.
  - done.
  - rewrite length_app. cbn. lia.
  - exists (acked_flags q), q. rewrite last_snoc. do 2 (split; [done|]). intros _. split; [done|]. destruct (pushes q); auto.
  - rewrite !fmap_app, (ga_views _ _ _ _ Hg). cbn. by rewrite bytes_of_view, Hk.
  - rewrite total_pay_app, (ga_total _ _ _ _ Hg). lia.
  - rewrite total_pay_app, (ga_next _ _ _ _ Hg). unfold u32. rewrite Zplus_mod_idemp_l. f_equal. lia.
  - intros i p [Hi|(Hi & Hx)]%lookup_app_Some.
    + destruct (ga_continues _ _ _ _ Hg i p Hi) as (? & ? & ? & ? & ? & _). do 5 (split; [done|]). intros _.
      eapply Forall_lookup_1 in Hall; done.
    + apply list_lookup_singleton_Some in Hx as [Ei <-]. assert (i = length ps) as -> by lia.
      do 3 (split; [done|]). split; [rewrite Hs, (ga_next _ _ _ _ Hg), Htot; done|].
      split; [lia|]. rewrite length_app. cbn. lia.
  - destruct (Nat.ltb_spec (pay q) (it_segment it)), (pushes q) eqn:Eq; cbn [orb]; intros Hop; try done.
    apply Forall_app. split; [done|]. apply Forall_singleton. split; [lia|done].
  - intros _. lia.
Qed.

(** ** A packet starts an item *)

Lemma open_item_gathered owned p kept : shaped p → mergeable p = true → bytes_of owned kept = p →
  gathered owned (mkItem (take (hdr p) p) [view_from kept (hdr p)] true (is_ipv4 p) (ip_len p) (tcp_len p) (pay p)
    (length p) (u32 (sequence_of p + Z.of_nat (pay p))) (flags_of p =? kTcpAck)) p [p].
Proof.
  intros Sp Mp Hk. pose proof (sh_hdr _ Sp) as Hh. pose proof (sh_tcp _ Sp) as Ht.
  assert (∀ k, (k < hdr p)%nat → take (hdr p) p !! k = p !! k) as Hl by (intros; by apply lookup_take_lt).
  constructor; cbn; try done.
  - constructor; [apply bytes_ok_take, Sp|rewrite length_take; lia|auto].
  - exists (flags_of p), p. split; [|split; [done|]].
    + rewrite Hl by (unfold hdr; lia). apply list_lookup_lookup_total_lt. unfold hdr in *. lia.
    + intros [E%Z.eqb_eq|?]; [|lia]. unfold acked_flags. rewrite E. auto.
  - by rewrite bytes_of_view, Hk.
  - unfold total_pay, pay. cbn. lia.
  - unfold total_pay. cbn. by rewrite Nat.add_0_r.
  - intros i q [-> <-]%list_lookup_singleton_Some. split; [done|]. split; [done|]. split; [by constructor|].
    split; [|cbn; lia]. cbn. rewrite Z.add_0_r. symmetry. apply u32_id.
    apply (be_value_range 4); [apply slice_bytes, Sp|apply length_slice; unfold hdr in *; lia].
  - intros E%Z.eqb_eq. apply Forall_singleton. split; [done|]. unfold acked_flags. by rewrite E.
  - lia.
Qed.

(** What an added packet does to the groups: it joins the newest group of its
    flow, or it opens one at the end. *)
Inductive joins (q : list Z) (groups : list (list (list Z))) : list (list (list Z)) → Prop :=
| joins_last : joins q groups (groups ++ [[q]])
| joins_flow index ps : groups !! index = Some ps → Forall (λ p, flow_of p = flow_of q) ps →
    (∀ j g, (index < j)%nat → groups !! j = Some g → off_flow q g) → joins q groups (<[index := ps ++ [q]]> groups).

Lemma pass_item_holds c groups q stable : holds c groups → mergeable q = false →
  holds (pass_item c q stable) (groups ++ [[q]]).
Proof.
  intros Hc Hm. pose proof (retain_holds c q stable groups Hc) as Hr.
  destruct (retain_owned c q stable (ho_owned _ _ Hc)) as (_ & _ & Hb & Hl).
  set (kept := (retain c q stable).2) in *. set (c' := (retain c q stable).1) in *.
  pose proof (push_item_holds c' groups (mkItem [] [kept] false false 0 0 0 (length q) 0 false) [q] Hr) as H.
  assert (pass_item c q stable = set_item (next_item c').1 (next_item c').2
    (mkItem [] [kept] false false 0 0 0 (length q) 0 false)) as ->.
  { unfold pass_item, c', kept, retain. by destruct stable. }
  apply H; [apply carries_pass; cbn; by rewrite ?Hb|by apply Forall_singleton].
Qed.

Lemma open_item_holds c groups q stable : holds c groups → shaped q → mergeable q = true →
  ∃ c', open_item c q stable (is_ipv4 q) (ip_len q) (tcp_len q) (flags_of q) = Ok c' ∧ holds c' (groups ++ [[q]]).
Proof.
  intros Hc Sq Hm. pose proof (retain_holds c q stable groups Hc) as Hr.
  destruct (retain_owned c q stable (ho_owned _ _ Hc)) as (_ & _ & Hb & Hl). unfold open_item.
  destruct (retain c q stable) as [c' kept]. cbn [fst snd] in *.
  pose proof (push_item_holds c' groups) as H. unfold next_item in *. cbn [fst snd owned_] in *.
  fold (hdr q). fold (pay q). pose proof (sh_hdr _ Sq). pose proof (sh_tcp _ Sq). rewrite Hb, span_first_ok by lia. cbn [rbind].
  rewrite load32_spec by (apply Sq || unfold hdr in *; lia). cbn [rbind]. fold (sequence_of q).
  eexists. split; [done|]. apply H; [done|by eapply carries_tcp, open_item_gathered|].
  cbn. apply Forall_singleton. by destruct kept.
Qed.

Lemma join_item_holds c groups q stable index it p1 ps : holds c groups → shaped q → (index < used_ c)%nat →
  items_ c !! index = Some it → gathered (owned_ c) it p1 ps → fits it p1 q → flow_of p1 = flow_of q →
  ∃ it', append_item it (retain c q stable).2 (hdr q) (pay q) (flags_of q) = Ok it' ∧
    holds (set_item (retain c q stable).1 index it') (<[index := ps ++ [q]]> groups).
Proof.
  intros Hc Sq Hlt Hit Hga Hfits Hflow. pose proof (retain_holds c q stable groups Hc) as Hr.
  destruct (retain_owned c q stable (ho_owned _ _ Hc)) as (_ & Hv & Hb & Hl).
  destruct (retain_items c q stable) as [Ei Eu].
  assert (Forall (live (owned_used_ c)) (payloads it)) as Hlive.
  { eapply (Forall_lookup_1 _ _ _ _ (ho_live _ _ Hc)). by rewrite lookup_take_lt. }
  assert (gathered (owned_ (retain c q stable).1) it p1 ps) as Hga'
    by (by eapply gathered_views; [apply retain_views; [apply Hc|done]|]).
  destruct (append_item_spec _ it p1 ps q (retain c q stable).2 Hga' Hfits Sq (eq_sym Hflow) Hb) as (it' & E & Hg & Hp).
  exists it'. split; [done|]. apply set_item_holds; [done|lia|by eapply carries_tcp|].
  rewrite Hp. apply Forall_app. split; [eapply Forall_impl; [exact Hlive|]; intros v; apply Hv|].
  apply Forall_singleton. by destruct (retain c q stable).2.
Qed.

Lemma add_spec c groups q stable : holds c groups → bytes_ok q →
  ∃ c' groups', add c q stable = Ok c' ∧ holds c' groups' ∧ joins q groups groups'.
Proof.
  intros Hc Hb. assert (mergeable q = false → ∃ c' groups', Ok (E:=unit) (pass_item c q stable) = Ok c' ∧
    holds c' groups' ∧ joins q groups groups') as Hpass.
  { intros Hm. eexists _, _. split; [done|]. split; [by apply pass_item_holds|constructor]. }
  unfold add. rewrite candidate_spec by done. cbn [rbind]. unfold mergeable in Hpass.
  destruct (is_candidate q) eqn:Ec; cbn [negb andb] in *; [|by apply Hpass].
  rewrite ip_header_length_spec. cbn [rbind].
  assert (ip_len q + 20 ≤ length q)%nat as Hl.
  { unfold is_candidate in Ec. apply andb_true_iff in Ec as [Hlen%Nat.leb_le Ec]. unfold ip_len. destruct (is_ipv4 q).
    - apply andb_true_iff in Ec as [[->%Z.eqb_eq _]%andb_true_iff _]. cbn. lia.
    - apply andb_true_iff in Ec as [[_ ?%Nat.leb_le]%andb_true_iff _]. lia. }
  assert (∀ k, (k < length q)%nat → rd (E:=unit) q k = Ok (q !!! k)) as Hrd
    by (intros; by apply rd_ok, list_lookup_lookup_total_lt).
  rewrite Hrd by lia. cbn [rbind]. fold (tcp_len q). fold (hdr q).
  destruct ((20 <=? tcp_len q)%nat && (hdr q <? length q)%nat) eqn:Et; cbn [negb]; [|by apply Hpass].
  assert (mergeable q = true) as Mq by (unfold mergeable; by rewrite Ec).
  pose proof (mergeable_shaped q Hb Mq) as Sq. rewrite Hrd by lia. cbn [rbind]. fold (pay q). fold (flags_of q).
  destruct (find_item_spec c groups q Hc Sq Mq (used_ c)) as (r & -> & Hr); [done|]. cbn [rbind].
  destruct r as [index|].
  2: { destruct (open_item_holds c groups q stable Hc Sq Mq) as (c' & -> & Hc'). eexists _, _. split; [done|].
       split; [done|]. constructor. }
  destruct (Hr index eq_refl) as (Hlt & it & p1 & ps & Hit & Hps & Hga & Hfits & Hflow & Hoff).
  destruct (join_item_holds c groups q stable index it p1 ps) as (it' & E & Hh); [done..|].
  destruct (retain_items c q stable) as [Ei _]. destruct (retain c q stable) as [c' kept]. cbn [fst snd] in *.
  rewrite Ei, Hit, E. cbn [rbind]. eexists _, _. split; [done|]. split; [done|]. apply joins_flow; [done| |].
  - apply Forall_forall. intros p Hp. by rewrite (gathered_flow _ _ _ _ _ Hga Hp).
  - intros j g Hj Hg. destruct (decide (j < used_ c)%nat); [by apply (Hoff j); [lia|]|].
    apply lookup_lt_Some in Hg. rewrite <- (Forall2_length _ _ _ (ho_items _ _ Hc)), length_take in Hg. lia.
Qed.

Fixpoint add_all (c : TcpCoalescer) (packets : list (list Z * bool)) : res unit TcpCoalescer :=
  match packets with
  | [] => Ok c
  | (p, stable) :: packets => let* c := add c p stable in add_all c packets
  end.

(** The packets of each flow, and those passed on as they are, keep their order. *)
Lemma joins_order q groups groups' f : joins q groups groups' →
  filter (λ p, flow_of p = f) (concat groups') = filter (λ p, flow_of p = f) (concat groups) ++ filter (λ p, flow_of p = f) [q].
Proof.
  intros [|index ps Hps Hf Hoff]; [by rewrite concat_app, filter_app|].
  rewrite insert_take_drop by (by eapply lookup_lt_Some). rewrite <- (take_drop_middle groups index ps Hps) at 3.
  rewrite !concat_app. cbn [concat]. rewrite !filter_app, <- !app_assoc. f_equal. f_equal.
  destruct (decide (flow_of q = f)) as [E|E].
  - assert (filter (λ p, flow_of p = f) (concat (drop (S index) groups)) = []) as ->; [|by rewrite app_nil_r].
    apply filter_none. intros p Hp. apply list_elem_of_In, in_concat in Hp as (g & Hg%list_elem_of_In & Hp%list_elem_of_In).
    apply list_elem_of_lookup in Hg as [j Hj]. rewrite lookup_drop in Hj. specialize (Hoff (S index + j)%nat g ltac:(lia) Hj).
    eapply Forall_forall in Hoff; [|done]. congruence.
  - rewrite (filter_none _ [q]) by (intros p ->%list_elem_of_singleton; done). by rewrite app_nil_r.
Qed.

Lemma add_all_spec packets : Forall (λ x, bytes_ok x.1) packets → ∀ c groups, holds c groups →
  ∃ c' groups', add_all c packets = Ok c' ∧ holds c' groups' ∧
    ∀ f, filter (λ p, flow_of p = f) (concat groups') =
         filter (λ p, flow_of p = f) (concat groups ++ packets.*1).
Proof.
  induction 1 as [|[p stable] packets Hb _ IH]; intros c groups Hc; cbn [add_all].
  { exists c, groups. cbn. by rewrite app_nil_r. }
  destruct (add_spec c groups p stable Hc Hb) as (c1 & g1 & -> & Hc1 & Hj). cbn [rbind].
  destruct (IH c1 g1 Hc1) as (c' & groups' & E & Hc' & Hf). exists c', groups'. split; [done|]. split; [done|].
  intros f. rewrite Hf, !filter_app, (joins_order _ _ _ _ Hj), <- app_assoc, <- filter_app. done.
Qed.

(** * Frames *)

(** The virtio header is read back as it was written. *)
Definition virtio_ok (h : VirtioHeader) : Prop :=
  is_u8 (flags h) ∧ is_u8 (gso_type h) ∧ is_u16 (header_length h) ∧ is_u16 (gso_size h) ∧
  is_u16 (checksum_start h) ∧ is_u16 (checksum_offset h).

Lemma little_value v : is_u16 v → u8 v + 256 * u8 (Z.shiftr v 8) = v.
Proof.
  intros Hv. unfold is_u16, u8 in *. rewrite shiftr_div by lia. change (2 ^ 8) with 256.
  rewrite (Z.mod_small (v / 256)); [pose proof (Z.div_mod v 256); lia|].
  split; [apply Z.div_pos; lia|apply Z.div_lt_upper_bound; lia].
Qed.

Lemma virtio_roundtrip h : virtio_ok h → ∃ out,
  write_virtio_header h (replicate kVirtioHeaderSize 0) = Ok out ∧ parse_virtio_header out = Ok h.
Proof.
  intros (Hf & Ht & Hh & Hg & Hs & Ho). eexists. split; [reflexivity|]. cbn.
  rewrite !little_value by done. by destruct h.
Qed.

(** ** The headers of a frame *)

(** The IP length and the IPv4 header checksum. *)
Definition length_fields (ipv4 : bool) (k : nat) : Prop :=
  if ipv4 then (2 ≤ k < 4)%nat ∨ (10 ≤ k < 12)%nat else (4 ≤ k < 6)%nat.

Ltac outside := unfold length_fields; case_match; lia.

(** [h] has the bytes of [p] outside the IP length and checksum, the flags and
    the TCP checksum. *)
Record frame_head (p h : list Z) : Prop := {
  fh_bytes : bytes_ok h;
  fh_length : length h = hdr p;
  fh_kept : ∀ k, (k < hdr p)%nat → ¬ (length_fields (is_ipv4 p) k ∨
    k = (ip_len p + 13)%nat ∨ (ip_len p + 16 ≤ k < ip_len p + 18)%nat) → h !! k = p !! k;
}.

Lemma set_ip_length_kept h total : bytes_ok h → (fixed_len h ≤ ip_len h ≤ length h)%nat → Z.of_nat (length h) < 2 ^ 32 →
  ∃ d, set_ip_length h total = Ok d ∧ length d = length h ∧ bytes_ok d ∧
    ∀ k, ¬ length_fields (is_ipv4 h) k → d !! k = h !! k.
Proof.
  intros Hb Hi Hl. pose proof (fixed_len_pos h). unfold length_fields. destruct (is_ipv4 h) eqn:E4.
  - destruct (set_ip_length_v4 h total) as (c & d & E & (Lc & Bc & Kc) & (Ld & Bd & Kd) & _); [done|done|lia|done|].
    exists d. split; [done|]. split; [lia|]. split; [auto|]. intros k Hk. rewrite Kd, Kc by lia. done.
  - unfold set_ip_length. rewrite E4.
    destruct (store16_rewritten h 4 (u16 (u64 (Z.of_nat total - 40)))) as (d & -> & (Ld & Bd & Kd) & _); [lia|].
    exists d. split; [done|]. split; [done|]. split; [auto|]. intros k Hk. apply Kd. lia.
Qed.

Lemma mirrors_front h p : shaped p → mirrors h p → is_ipv4 h = is_ipv4 p ∧ ip_len h = ip_len p ∧ fixed_len h = fixed_len p.
Proof.
  intros Sp Hm. apply same_front. intros k Hk. pose proof (sh_tcp _ Sp). apply (mi_kept _ _ Hm); unfold hdr; lia.
Qed.

Lemma shaped_fixed p : shaped p → fixed_len p = ip_len p.
Proof. intros Sp. rewrite (sh_ip _ Sp). done. Qed.

Lemma flush_merged owned it p1 ps : gathered owned it p1 ps → (2 ≤ length ps)%nat →
  ∃ it' h b p, flush_item owned it = Ok (it', mkFrame (default [] (ok_opt (write_virtio_header
      (mkVirtio kVirtioNeedsChecksum (if is_ipv4 p1 then kGsoTcpV4 else kGsoTcpV6) (Z.of_nat (hdr p1))
        (Z.of_nat (pay p1)) (Z.of_nat (ip_len p1)) 16) (replicate kVirtioHeaderSize 0)))) h
      ((λ p, drop (hdr p) p) <$> ps), true) ∧
    frame_head p1 h ∧ h !! (ip_len p1 + 13)%nat = Some b ∧ last ps = Some p ∧ b = acked_flags p ∧
    (b = kTcpAck ∨ b = Z.lor kTcpAck kTcpPsh).
Proof.
  intros Hg Hlen. pose proof (ga_continues _ _ _ _ Hg 0 p1 (ga_first _ _ _ _ Hg)) as (Sp & _).
  pose proof (ga_head _ _ _ _ Hg) as Hm. destruct (mirrors_front _ _ Sp Hm) as (M4 & Mi & Mf).
  pose proof (shaped_fixed _ Sp) as Hfx. pose proof (fixed_len_pos p1) as Hpos. pose proof (sh_tcp _ Sp) as Ht.
  pose proof (mi_length _ _ Hm) as Lh. destruct (ga_flags _ _ _ _ Hg) as (b & p & Hb & Hp & Hset).
  pose proof (ga_fits _ _ _ _ Hg Hlen) as Hfit. pose proof (ga_total _ _ _ _ Hg) as Htot.
  assert (length (payloads it) = length ps) as Lp.
  { rewrite <- (length_fmap (bytes_of owned)), (ga_views _ _ _ _ Hg). apply length_fmap. }
  unfold flush_item. rewrite (ga_tcp _ _ _ _ Hg), Lp. destruct (Nat.ltb_spec (length ps) 2); [lia|]. cbn [negb orb].
  destruct (set_ip_length_kept (head it) (it_total it)) as (d & -> & Ld & Bd & Kd); [apply Hm|unfold hdr in *; lia|unfold hdr in *; lia|].
  cbn [rbind]. destruct (same_front (head it) d) as (D4 & Di & Df); [intros k Hk; apply Kd; outside|].
  rewrite pseudo_header_sum_spec; [|done|unfold hdr in *; lia|done|lia]. cbn [rbind]. rewrite (ga_ip _ _ _ _ Hg).
  destruct (store16_rewritten d (ip_len p1 + 16) (fold_checksum (pseudo d kProtocolTcp (it_total it - ip_len p1))))
    as (h & -> & (Le & Be & Ke) & _); [unfold hdr in *; lia|]. cbn [rbind].
  rewrite (ga_ipv4 _ _ _ _ Hg), (ga_tcp_length _ _ _ _ Hg), (ga_segment _ _ _ _ Hg). fold (hdr p1).
  assert (pay p1 ≤ total_pay ps)%nat as Hpay.
  { unfold total_pay. pose proof (ga_first _ _ _ _ Hg) as H1. destruct ps as [|x ps]; [done|]. injection H1 as ->. cbn. lia. }
  rewrite !u16_id by (unfold is_u16, hdr in *; lia).
  eexists _, h, b, p. split; [cbn; rewrite (ga_views _ _ _ _ Hg); reflexivity|].
  rewrite M4 in Kd. split; [|split; [|by split; [|auto]]].
  - constructor; [auto|lia|]. intros k Hk Hn.
    rewrite Ke by lia. rewrite Kd by tauto. apply (mi_kept _ _ Hm); [done|tauto].
  - rewrite Ke, Kd; [done|outside|lia].
Qed.

(** ** Taking a frame apart *)

(** Pieces of equal size but for the last are found at the multiples of it. *)
Lemma concat_chunks (n : nat) (l : list (list Z)) :
  (∀ i x, l !! i = Some x → (0 < length x ≤ n)%nat ∧ ((S i < length l)%nat → length x = n)) →
  (∀ i, is_Some (l !! i) ↔ (i * n < length (concat l))%nat) ∧
  ∀ i x, l !! i = Some x → slice (i * n) (n `min` (length (concat l) - i * n)) (concat l) = x ∧
    ((length (concat l) ≤ i * n + (n `min` (length (concat l) - i * n)))%nat ↔ S i = length l).
Proof.
  induction l as [|y l IH]; intros Hl; [split; [|done]; intros i; rewrite lookup_nil; split; [by intros []|cbn; lia]|].
  destruct (Hl 0%nat y eq_refl) as [Hy Hyn]. cbn [length] in Hyn.
  destruct IH as [IH1 IH2]. { intros i x Hx. destruct (Hl (S i) x Hx) as [? Hn]. cbn in Hn. split; [done|]. intros. apply Hn. lia. }
  assert (length l ≠ 0%nat → length y = n) as Hyn' by (intros; apply Hyn; lia). clear Hyn.
  assert (length l = 0%nat → l = []) as Hnil by (intros E; by destruct l). cbn [concat]. rewrite length_app. split.
  - intros [|i]; [cbn; split; [lia|by eexists]|]. cbn [lookup list_lookup]. rewrite IH1.
    destruct (decide (length l = 0)%nat) as [E|E]; [rewrite (Hnil E); cbn; lia|]. rewrite (Hyn' E). lia.
  - intros [|i] x Hx; cbn [lookup list_lookup] in Hx.
    + injection Hx as <-. rewrite Nat.sub_0_r. destruct (decide (length l = 0)%nat) as [E|E].
      * rewrite (Hnil E). cbn [concat length]. unfold slice. rewrite app_nil_r, drop_0, take_ge by lia. split; [done|lia].
      * assert (0 < length (concat l))%nat as Hc.
        { apply (IH1 0%nat). apply lookup_lt_is_Some. lia. }
        unfold slice. rewrite drop_0, Nat.min_l by (rewrite (Hyn' E); lia).
        rewrite <- (Hyn' E) at 1. rewrite take_app_length. split; [done|]. rewrite (Hyn' E). cbn [length]. lia.
    + assert (length l ≠ 0%nat) as E by (intros E; by rewrite (Hnil E) in Hx).
      destruct (IH2 i x Hx) as [Hs He]. rewrite (Hyn' E).
      replace (n + length (concat l) - S i * n)%nat with (length (concat l) - i * n)%nat by lia.
      split; [|cbn [length]; lia]. etransitivity; [|exact Hs]. unfold slice. f_equal.
      rewrite drop_app_ge by (rewrite (Hyn' E); lia). f_equal. rewrite (Hyn' E). lia.
Qed.

(** The flags of the segments: those of the frame on the last one. *)
Lemma segment_flags_acked o index last : of_flags o = kTcpAck ∨ of_flags o = Z.lor kTcpAck kTcpPsh →
  u8 (segment_flags o index last) = if last then of_flags o else kTcpAck.
Proof. unfold segment_flags. by intros [->| ->]; destruct last, (0 <? index)%nat. Qed.

(** The fields a frame has once, which all its segments take from the first
    packet: the reserved bits of TCP, its urgent pointer and the low part of the
    IPv6 flow label. *)
Definition from_first (p : list Z) (k : nat) : Prop :=
  k = (ip_len p + 12)%nat ∨ (ip_len p + 18 ≤ k < ip_len p + 20)%nat ∨ (is_ipv4 p = false ∧ (2 ≤ k < 4)%nat).

(** The [i]-th segment [seg] of a frame stands for the packet [p] that went
    into it after the first packet [p1].  Every byte is accounted for: outside
    [unkept] the header is that of [p], and the fields in [unkept] are given
    one by one. *)
Record stands_for (p1 : list Z) (i : nat) (p seg : list Z) : Prop := {
  sf_bytes : bytes_ok seg;
  sf_length : length seg = length p;
  sf_payload : drop (hdr p) seg = drop (hdr p) p;
  sf_header : ∀ k, (k < hdr p)%nat → ¬ unkept p k → seg !! k = p !! k;
  sf_sequence : be_value (slice (ip_len p + 4) 4 seg) = sequence_of p;
  sf_flags : seg !! (ip_len p + 13)%nat = Some (acked_flags p);
  sf_first : ∀ k, from_first p k → seg !! k = p1 !! k;
  sf_offset : tcp_len seg = tcp_len p;
  sf_total : be_value (slice (if is_ipv4 p then 2 else 4) 2 seg) = Z.of_nat (length p) - (if is_ipv4 p then 0 else 40);
  sf_identifier : is_ipv4 p = true → be_value (slice 4 2 seg) = u16 (be_value (slice 4 2 p1) + Z.of_nat i);
  sf_header_sum : is_ipv4 p = true → fold_checksum (header_sum seg) = 0xFFFF;
  sf_valid : transport_checksum_valid seg = Ok true;
}.

(** A frame over the headers [h] with the payloads of [ps]. *)
Section frame.
Context (owned : list (list Z)) (it : Item) (p1 : list Z) (ps : list (list Z)) (h : list Z) (b : Z) (pl : list Z).
Context (Hg : gathered owned it p1 ps) (Hlen : (2 ≤ length ps)%nat) (Hh : frame_head p1 h).
Context (Hb : h !! (ip_len p1 + 13)%nat = Some b) (Hlast : last ps = Some pl).
Context (Hset : b = acked_flags pl) (Hcases : b = kTcpAck ∨ b = Z.lor kTcpAck kTcpPsh).

Definition frame_virtio : VirtioHeader :=
  mkVirtio kVirtioNeedsChecksum (if is_ipv4 p1 then kGsoTcpV4 else kGsoTcpV6) (Z.of_nat (hdr p1))
    (Z.of_nat (pay p1)) (Z.of_nat (ip_len p1)) 16.
Definition pieces : list (list Z) := (λ p, drop (hdr p) p) <$> ps.
Definition frame : list Z := h ++ concat pieces.

Lemma first_shaped : shaped p1.
Proof. by destruct (ga_continues _ _ _ _ Hg 0 p1 (ga_first _ _ _ _ Hg)). Qed.

Lemma frame_front k : (k < hdr p1)%nat → frame !! k = h !! k.
Proof. intros Hk. unfold frame. apply lookup_app_l. by rewrite (fh_length _ _ Hh). Qed.

Lemma frame_same : is_ipv4 frame = is_ipv4 p1 ∧ ip_len frame = ip_len p1 ∧ fixed_len frame = fixed_len p1.
Proof.
  pose proof (sh_tcp _ first_shaped). apply same_front. intros k Hk. rewrite frame_front by (unfold hdr; lia).
  apply (fh_kept _ _ Hh); [unfold hdr; lia|]. pose proof (fixed_len_pos p1). rewrite (shaped_fixed _ first_shaped) in *. outside.
Qed.

Lemma length_pieces : length (concat pieces) = total_pay ps.
Proof.
  unfold pieces, total_pay. assert (∀ l, length (concat ((λ p, drop (hdr p) p) <$> l)) = sum_list_with pay l) as H.
  { induction l as [|p l IH]; [done|]. cbn [fmap list_fmap concat sum_list_with foldr].
    by rewrite length_app, length_drop, IH. }
  apply H.
Qed.

Lemma frame_length : length frame = it_total it.
Proof. unfold frame. by rewrite length_app, length_pieces, (fh_length _ _ Hh), (ga_total _ _ _ _ Hg). Qed.

Lemma pieces_bytes : bytes_ok (concat pieces).
Proof.
  apply Forall_concat, Forall_forall. intros x Hx. apply list_elem_of_lookup in Hx as [i Hi].
  unfold pieces in Hi. apply list_lookup_fmap_Some in Hi as (p & -> & Hp).
  apply (ga_continues _ _ _ _ Hg) in Hp as (Sp & _). apply bytes_ok_drop, Sp.
Qed.

Lemma frame_kept k : (k < hdr p1)%nat → ¬ unkept p1 k ∨ from_first p1 k ∨ (is_ipv4 p1 = true ∧ (4 ≤ k < 6)%nat) →
  frame !! k = p1 !! k.
Proof.
  intros Hk Hu. pose proof (fixed_len_pos p1). pose proof (sh_ip _ first_shaped). rewrite frame_front by done.
  apply (fh_kept _ _ Hh); [done|]. unfold unkept, from_first in Hu. unfold length_fields.
  destruct (is_ipv4 p1); intuition (discriminate || lia).
Qed.

Lemma same_tcp_len q : is_ipv4 q = is_ipv4 p1 → ip_len q = ip_len p1 →
  q !! (ip_len p1 + 12)%nat = p1 !! (ip_len p1 + 12)%nat → tcp_len q = tcp_len p1.
Proof. intros E4 Ei E. unfold tcp_len. by rewrite Ei, !list_lookup_total_alt, E. Qed.

Lemma frame_tcp_len : tcp_len frame = tcp_len p1.
Proof.
  destruct frame_same as (E4 & Ei & _). pose proof (sh_tcp _ first_shaped).
  apply same_tcp_len; [done..|]. apply frame_kept; unfold hdr, from_first; [lia|auto].
Qed.

Lemma frame_offload : offload_of frame_virtio frame =
  mkOffloaded (is_ipv4 p1) true kProtocolTcp (ip_len p1) (hdr p1) (pay p1) (sequence_of p1) b
    (if is_ipv4 p1 then be_value (slice 4 2 p1) else 0).
Proof.
  destruct frame_same as (E4 & Ei & _). pose proof (sh_tcp _ first_shaped) as Ht. pose proof (fixed_len_pos p1).
  rewrite (shaped_fixed _ first_shaped) in *. unfold offload_of.
  assert ((gso_type frame_virtio =? kGsoTcpV4) || (gso_type frame_virtio =? kGsoTcpV6) = true) as ->
    by (unfold frame_virtio; cbn; by destruct (is_ipv4 p1)).
  assert (frame !!! protocol_at frame = kProtocolTcp) as ->.
  { unfold protocol_at. rewrite E4. fold (protocol_at p1). rewrite list_lookup_total_alt.
    assert (protocol_at p1 = 6%nat ∨ protocol_at p1 = 9%nat) by (unfold protocol_at; destruct (is_ipv4 p1); auto).
    rewrite frame_kept; [by rewrite (sh_protocol _ first_shaped)|unfold hdr; lia|left; unfold unkept; lia]. }
  rewrite E4, Ei. rewrite (list_lookup_total_correct frame (ip_len p1 + 13) b).
  2: { rewrite frame_front by (unfold hdr; lia). done. }
  f_equal; [|cbn; lia| |].
  - unfold hdr. f_equal. pose proof frame_tcp_len as E. unfold tcp_len in E. by rewrite Ei in E.
  - unfold sequence_of. f_equal. apply slice_ext. intros k Hk. rewrite frame_front by (unfold hdr; lia).
    apply (fh_kept _ _ Hh); [unfold hdr; lia|]. outside.
  - destruct (is_ipv4 p1) eqn:F4; [|done]. f_equal. apply slice_ext. intros k Hk.
    apply frame_kept; [unfold hdr; lia|]. right. right. split; [done|lia].
Qed.

Lemma frame_offloadable : offloadable frame_virtio frame.
Proof.
  pose proof frame_offload as Eo. destruct frame_same as (E4 & Ei & Ef). pose proof (sh_hdr _ first_shaped) as Hd.
  assert (hdr p1 ≤ length frame)%nat by (unfold frame; rewrite length_app, (fh_length _ _ Hh); lia).
  split; [cbn; destruct (is_ipv4 p1); tauto|]. split; [cbn; unfold pay; lia|].
  split; [apply bytes_ok_app; split; [apply Hh|apply pieces_bytes]|].
  split; [rewrite frame_length; by apply Hg|]. rewrite Ef, Ei, (shaped_fixed _ first_shaped). split; [done|].
  rewrite Eo. cbn [of_tcp of_protocol of_headers]. split; [done|]. pose proof (sh_tcp _ first_shaped). unfold hdr in *. lia.
Qed.

Lemma pieces_sizes i x : pieces !! i = Some x →
  (0 < length x ≤ pay p1)%nat ∧ ((S i < length pieces)%nat → length x = pay p1).
Proof.
  unfold pieces. intros (p & -> & Hp)%list_lookup_fmap_Some. rewrite length_fmap, length_drop.
  destruct (ga_continues _ _ _ _ Hg i p Hp) as (Sp & _ & _ & _ & Hle & Hgo). fold (pay p).
  pose proof (sh_hdr _ Sp). split; [unfold pay in *; lia|]. intros Hi. by apply Hgo.
Qed.

Lemma drop_frame : drop (hdr p1) frame = concat pieces.
Proof. unfold frame. apply drop_app_length'. by rewrite (fh_length _ _ Hh). Qed.

Lemma alike_unkept p k : alike p1 p → unkept p k ↔ unkept p1 k.
Proof. intros Ha. unfold unkept. by rewrite (al_ipv4 _ _ Ha), (al_ip _ _ Ha). Qed.

Lemma alike_from_first p k : alike p1 p → from_first p k ↔ from_first p1 k.
Proof. intros Ha. unfold from_first. by rewrite (al_ipv4 _ _ Ha), (al_ip _ _ Ha). Qed.

Lemma alike_hdr p : alike p1 p → hdr p = hdr p1.
Proof. intros Ha. unfold hdr. by rewrite (al_ip _ _ Ha), (al_tcp _ _ Ha). Qed.

Section segment.
Context (i : nat) (p seg : list Z) (Hp : ps !! i = Some p).
Context (Hs : segment_of (offload_of frame_virtio frame) frame i (i * pay p1) seg).

Lemma segment_kept k : (k < hdr p1)%nat → ¬ unkept p1 k ∨ from_first p1 k → seg !! k = p1 !! k.
Proof.
  intros Hk Hu. rewrite <- frame_kept by tauto. pose proof (so_kept _ _ _ _ _ Hs) as Hkept. rewrite frame_offload in Hkept.
  apply Hkept; [done|]. pose proof (sh_ip _ first_shaped) as Hi. unfold patched, unkept, from_first in *.
  cbn [of_ipv4 of_tcp of_ip_length]. destruct (is_ipv4 p1); intuition (discriminate || lia).
Qed.

Lemma segment_chunk : chunk_at (offload_of frame_virtio frame) frame (i * pay p1) =
  (pay p1 `min` (length (concat pieces) - i * pay p1))%nat.
Proof. rewrite frame_offload. unfold chunk_at. cbn [of_segment of_headers]. by rewrite <- drop_frame, length_drop. Qed.

Lemma segment_piece : drop (hdr p1) seg = drop (hdr p1) p.
Proof.
  destruct (ga_continues _ _ _ _ Hg i p Hp) as (_ & _ & Ha & _).
  destruct (concat_chunks (pay p1) pieces pieces_sizes) as [_ Hc].
  assert (pieces !! i = Some (drop (hdr p) p)) as Hi by (unfold pieces; by rewrite list_lookup_fmap, Hp).
  destruct (Hc i _ Hi) as [Hsl _]. rewrite (alike_hdr p Ha) in Hsl. pose proof (so_payload _ _ _ _ _ Hs) as Hpay.
  rewrite segment_chunk in Hpay. rewrite frame_offload in Hpay. cbn [of_headers] in Hpay.
  rewrite Hpay, <- Hsl, <- drop_frame. unfold slice. by rewrite drop_drop.
Qed.

(** The frame's flags go to the last segment, the others only acknowledge. *)
Lemma segment_acked : seg !! (ip_len p1 + 13)%nat = Some (acked_flags p).
Proof.
  destruct (ga_continues _ _ _ _ Hg i p Hp) as (_ & _ & _ & _ & _ & Hgo).
  destruct (concat_chunks (pay p1) pieces pieces_sizes) as [_ Hc].
  assert (pieces !! i = Some (drop (hdr p) p)) as Hi by (unfold pieces; by rewrite list_lookup_fmap, Hp).
  destruct (Hc i _ Hi) as [_ Hend]. assert (length pieces = length ps) as Lps by apply length_fmap. rewrite Lps in Hend.
  assert (of_tcp (offload_of frame_virtio frame) = true) as Et by (by rewrite frame_offload).
  pose proof (so_flags _ _ _ _ _ Hs Et) as Hf. rewrite segment_chunk in Hf.
  rewrite frame_offload in Hf. cbn [of_ip_length of_headers] in Hf. rewrite Hf, segment_flags_acked by done. cbn [of_flags].
  f_equal. rewrite <- length_drop, drop_frame. pose proof (lookup_lt_Some _ _ _ Hp) as Hlt.
  destruct (Nat.leb_spec (length (concat pieces)) (i * pay p1 + pay p1 `min` (length (concat pieces) - i * pay p1))) as [Hle|Hgt].
  - apply Hend in Hle. rewrite Hset. f_equal. rewrite last_lookup in Hlast.
    replace (Init.Nat.pred (length ps)) with i in Hlast by lia. congruence.
  - symmetry. apply Hgo. destruct (decide (S i = length ps)) as [E|]; [apply Hend in E|]; lia.
Qed.

Lemma segment_stands : stands_for p1 i p seg.
Proof.
  destruct (ga_continues _ _ _ _ Hg i p Hp) as (Sp & _ & Ha & Hseq & _ & _). pose proof segment_piece as Epay.
  pose proof (sh_hdr _ Sp) as Hlt. pose proof (sh_tcp _ first_shaped) as Ht. pose proof (alike_hdr p Ha) as Eh.
  pose proof (sh_ip _ first_shaped) as Hip.
  assert (0 < ip_len p1)%nat as Hpos by (rewrite Hip; destruct (is_ipv4 p1); lia).
  destruct (same_front p1 seg) as (S4 & Si & _); [intros k Hk; apply segment_kept; unfold hdr, unkept; lia|].
  assert (length seg = length p) as Ls.
  { pose proof (so_length _ _ _ _ _ Hs) as Ls. rewrite frame_offload in Ls. cbn [of_headers] in Ls.
    apply (f_equal length) in Epay. rewrite !length_drop in Epay. lia. }
  pose proof (so_total _ _ _ _ _ Hs) as Htotal. pose proof (so_identifier _ _ _ _ _ Hs) as Hid.
  pose proof (so_header_sum _ _ _ _ _ Hs) as Hsum. pose proof (so_sequence _ _ _ _ _ Hs) as Hsq.
  rewrite frame_offload in Htotal, Hid, Hsum, Hsq. cbn [of_ipv4 of_identifier of_tcp of_ip_length of_sequence] in Htotal, Hid, Hsum, Hsq.
  assert (∀ k, from_first p1 k → seg !! k = p1 !! k) as Hfirst.
  { intros k Hk. apply segment_kept; [|by right]. unfold from_first, hdr in *. destruct (is_ipv4 p1); intuition (discriminate || lia). }
  constructor; rewrite ?(al_ipv4 _ _ Ha), ?(al_ip _ _ Ha), ?(al_tcp _ _ Ha), ?Eh, ?Hseq; auto.
  - apply Hs.
  - intros k Hk Hu. rewrite (alike_unkept p k Ha) in Hu. rewrite (al_bytes _ _ Ha) by done. apply segment_kept; auto.
  - apply segment_acked.
  - intros k Hk. apply Hfirst. by apply alike_from_first in Hk.
  - apply same_tcp_len; [done..|]. apply Hfirst. by left.
  - by rewrite Htotal, Ls.
  - intros E4. rewrite E4 in Hid. by apply Hid.
  - by apply (segment_valid _ _ _ _ _ (offloadable_ok _ _ frame_offloadable) Hs).
Qed.
End segment.

(** The frame is taken apart into segments that stand for the packets. *)
Lemma frame_expands scratch : ∃ scratch' segs,
  expand_offloaded frame_virtio frame scratch = Ok (mkExpansion frame scratch' segs true) ∧ length segs = length ps ∧
  ∀ i p seg, ps !! i = Some p → segs !! i = Some seg → stands_for p1 i p seg.
Proof.
  pose proof frame_offloadable as Hof. pose proof (offloadable_ok _ _ Hof) as Hok.
  destruct (expand_offloaded_spec frame_virtio frame scratch Hof) as (scratch' & segs & E & El).
  destruct (segment_loop_spec _ _ Hok (length frame) scratch 0 0 []) as (s' & segs' & El' & _ & Hn & Hall); [lia|].
  rewrite El in El'. injection El' as <- <-. exists scratch', segs. split; [done|].
  destruct (concat_chunks (pay p1) pieces pieces_sizes) as [Hc _].
  assert (∀ i, is_Some (segs !! i) ↔ is_Some (ps !! i)) as Hsame.
  { intros i. rewrite Hn, frame_offload. cbn [of_segment of_headers]. rewrite Nat.add_0_l, <- length_drop, drop_frame, <- Hc.
    unfold pieces. rewrite list_lookup_fmap. apply fmap_is_Some. }
  split.
  - pose proof (Hsame (length ps)) as H1. pose proof (Hsame (length segs)) as H2. rewrite !lookup_lt_is_Some in H1, H2. lia.
  - intros i p seg Hp Hs. apply (segment_stands i); [done|].
    assert (of_segment (offload_of frame_virtio frame) = pay p1) as <- by (by rewrite frame_offload). by apply Hall.
Qed.
End frame.

(** ** Flushing *)

(** What a frame delivers: one packet as it is, or several that its segments
    stand for, one by one. *)
Inductive delivers (fr : Frame) : list (list Z) → Prop :=
| delivers_packet : fr_virtio fr = replicate kVirtioHeaderSize 0 →
    delivers fr [fr_head fr ++ concat (fr_payloads fr)]
| delivers_segments v p1 ps : parse_virtio_header (fr_virtio fr) = Ok v → (2 ≤ length ps)%nat → ps !! 0%nat = Some p1 →
    (∀ scratch, ∃ scratch' segs, expand_offloaded v (fr_head fr ++ concat (fr_payloads fr)) scratch =
       Ok (mkExpansion (fr_head fr ++ concat (fr_payloads fr)) scratch' segs true) ∧
       length segs = length ps ∧ ∀ i p seg, ps !! i = Some p → segs !! i = Some seg → stands_for p1 i p seg) →
    delivers fr ps.

(** A packet on its own is written byte for byte. *)
Lemma delivers_one fr p : delivers fr [p] →
  fr_virtio fr = replicate kVirtioHeaderSize 0 ∧ fr_head fr ++ concat (fr_payloads fr) = p.
Proof. inversion 1 as [|v p1 ps _ Hlen]; subst; [done|]. cbn in Hlen. lia. Qed.

Lemma flush_item_delivers owned it ps : carries owned it ps →
  ∃ it' fr merged, flush_item owned it = Ok (it', fr, merged) ∧ delivers fr ps.
Proof.
  intros [p1 l Hg|p Hm Ht Hh Hv].
  - assert (length (payloads it) = length l) as Lp.
    { rewrite <- (length_fmap (bytes_of owned)), (ga_views _ _ _ _ Hg). apply length_fmap. }
    destruct (decide (2 ≤ length l)%nat) as [Hlen|Hlen].
    + destruct (flush_merged owned it p1 l Hg Hlen) as (it' & h & b & pl & E & Hfh & Hb & Hl & Hset & Hcases).
      rewrite E. do 3 eexists. split; [done|]. fold (frame_virtio p1).
      destruct (virtio_roundtrip (frame_virtio p1)) as (out & Ew & Er).
      { pose proof (ga_continues _ _ _ _ Hg 0 p1 (ga_first _ _ _ _ Hg)) as (Sp & _).
        pose proof (ga_fits _ _ _ _ Hg Hlen) as Hfit. rewrite (ga_total _ _ _ _ Hg) in Hfit.
        assert (pay p1 ≤ total_pay l)%nat.
        { unfold total_pay. pose proof (ga_first _ _ _ _ Hg) as H1. destruct l as [|x l]; [done|]. injection H1 as ->. cbn. lia. }
        unfold virtio_ok, is_u8, is_u16, frame_virtio, hdr in *. cbn. unfold kVirtioNeedsChecksum, kGsoTcpV4, kGsoTcpV6.
        destruct (is_ipv4 p1); lia. }
      rewrite Ew. cbn [ok_opt default]. apply (delivers_segments _ (frame_virtio p1) p1); [done|done|apply Hg|]. intros scratch.
      apply (frame_expands owned it p1 l h b pl Hg Hlen Hfh Hb Hl Hset Hcases).
    + unfold flush_item. rewrite (ga_tcp _ _ _ _ Hg), Lp. destruct (Nat.ltb_spec (length l) 2); [|lia]. cbn [negb orb].
      do 3 eexists. split; [done|]. pose proof (ga_first _ _ _ _ Hg) as H1.
      destruct l as [|x [|y l]]; [done| |cbn in *; lia]. injection H1 as ->.
      enough (p1 = head it ++ concat (bytes_of owned <$> payloads it)) as -> by (by apply (delivers_packet (mkFrame _ _ _))).
      rewrite (ga_single _ _ _ _ Hg), (ga_views _ _ _ _ Hg) by done. cbn. by rewrite app_nil_r, take_drop.
  - unfold flush_item. rewrite Ht. cbn [negb orb]. do 3 eexists. split; [done|].
    enough (p = head it ++ concat (bytes_of owned <$> payloads it)) as -> by (by apply (delivers_packet (mkFrame _ _ _))).
    rewrite Hh, Hv. cbn. by rewrite app_nil_r.
Qed.

Lemma flush_loop_spec groups : ∀ c index written,
  (∀ i g, groups !! i = Some g → ∃ it, items_ c !! (index + i)%nat = Some it ∧ carries (owned_ c) it g) →
  ∃ c' frames, flush_loop (length groups) index c written = Ok (c', written ++ frames) ∧
    Forall2 delivers frames groups.
Proof.
  induction groups as [|g groups IH]; intros c index written Hi; cbn [flush_loop length].
  { exists c, []. rewrite app_nil_r. by split. }
  destruct (Hi 0%nat g eq_refl) as (it & Hit & Hcar). rewrite Nat.add_0_r in Hit. rewrite Hit.
  destruct (flush_item_delivers _ _ _ Hcar) as (it' & fr & merged & -> & Hd). cbn [rbind].
  destruct (IH (mkCoalescer (items_ (set_item c index it')) (used_ (set_item c index it')) (owned_ (set_item c index it'))
    (owned_used_ (set_item c index it'))
    (u64 (coalesced_ (set_item c index it') + (if merged then Z.of_nat (length (payloads it)) - 1 else 0))))
    (S index) (written ++ [fr])) as (c' & frames & E & Hf).
  { intros i g' Hg. destruct (Hi (S i) g' Hg) as (it2 & H2 & Hc2). exists it2. cbn. split; [|done].
    rewrite list_lookup_insert_ne by lia. by replace (S (index + i))%nat with (index + S i)%nat by lia. }
  rewrite E. exists c', (fr :: frames). rewrite <- app_assoc. split; [done|]. by constructor.
Qed.

Lemma flush_spec c groups : holds c groups →
  ∃ c' frames, flush c = Ok (c', frames) ∧ Forall2 delivers frames groups ∧ holds c' [].
Proof.
  intros Hc. pose proof (ho_used _ _ Hc) as Hu. pose proof (Forall2_length _ _ _ (ho_items _ _ Hc)) as Hlen.
  rewrite length_take in Hlen. unfold flush. replace (used_ c) with (length groups) by lia.
  destruct (flush_loop_spec groups c 0 []) as (c' & frames & -> & Hf).
  { intros i g Hg. destruct (Forall2_lookup_r _ _ _ _ _ (ho_items _ _ Hc) Hg) as (it & Hit & Hcar).
    exists it. split; [|done]. rewrite lookup_take_Some in Hit. apply Hit. }
  cbn [rbind fst snd]. eexists _, frames. split; [done|]. split; [done|]. constructor; cbn; try lia; constructor.
Qed.

(** Rounds of packets, each added and flushed, as the worker does. *)
Fixpoint run_rounds (c : TcpCoalescer) (rounds : list (list (list Z * bool)))
    : res unit (TcpCoalescer * list (list Frame)) :=
  match rounds with
  | [] => Ok (c, [])
  | packets :: rounds =>
      let* c := add_all c packets in
      let* r := flush c in
      let* s := run_rounds r.1 rounds in
      Ok (s.1, r.2 :: s.2)
  end.

(** The frames of a round deliver its packets, those of each flow in order. *)
Definition round_delivered (packets : list (list Z * bool)) (frames : list Frame) : Prop :=
  ∃ groups, Forall2 delivers frames groups ∧
    ∀ f, filter (λ p, flow_of p = f) (concat groups) = filter (λ p, flow_of p = f) packets.*1.

Lemma run_rounds_spec rounds : Forall (Forall (λ x, bytes_ok x.1)) rounds → ∀ c, holds c [] →
  ∃ c' frames, run_rounds c rounds = Ok (c', frames) ∧ Forall2 round_delivered rounds frames.
Proof.
  induction 1 as [|packets rounds Hb _ IH]; intros c Hc; [by exists c, []|]. cbn [run_rounds].
  destruct (add_all_spec packets Hb c [] Hc) as (c1 & groups & -> & Hc1 & Hf). cbn [rbind].
  destruct (flush_spec c1 groups Hc1) as (c2 & frames & -> & Hd & Hc2). cbn [rbind fst snd].
  destruct (IH c2 Hc2) as (c' & fs & -> & Hfs). cbn [rbind fst snd]. eexists _, _. split; [done|].
  constructor; [|done]. by exists groups.
Qed.

(** C30. Coalescing loses nothing.  Whatever packets are added between flushes,
    round after round on the same coalescer and its reused buffers, no access
    leaves a buffer and the frames given to the writer deliver those packets:
    a frame is one packet byte for byte, or [expand_offloaded] takes it apart
    into as many segments as packets went into it, and each stands for its
    packet.  Length, payload, sequence number, addresses, ports,
    acknowledgement, window, options and all other header bytes are the
    packet's; the IP length and the checksums are valid for the segment; the
    flags are the packet's with the acknowledgement set, so no FIN, SYN, RST,
    URG, ECE or CWR and no push is lost or invented.  What a frame has only
    once comes from the first packet it gathered: the reserved bits, the urgent
    pointer, the low sixteen bits of the IPv6 flow label, and the IPv4
    identifier, counted up from it.  The packets of every flow, and those that
    are not coalesced, keep their order. *)
Theorem coalesced_frames_deliver rounds : Forall (Forall (λ x, bytes_ok x.1)) rounds →
  ∃ c frames, run_rounds new_coalescer rounds = Ok (c, frames) ∧ Forall2 round_delivered rounds frames.
Proof. intros Hb. apply run_rounds_spec; [done|apply new_coalescer_holds]. Qed.

(** Two consecutive packets of a flow, and the round that coalesces them. *)
Definition sample_data (sequence flags : Z) (payload : list Z) : list Z :=
  [0x45; 0; 0; 40 + blen payload; 0; 7; 0; 0; 64; 6; 0; 0; 10; 0; 0; 1; 10; 0; 0; 2;
   1; 2; 3; 4; 0; 0; 1; sequence; 0; 0; 0; 9; 0x50; flags; 0; 100; 0; 0; 0; 0] ++ payload.
Definition sample_round : list (list Z * bool) :=
  [(sample_data 0 0x10 [1; 2; 3], false); (sample_data 3 0x18 [4; 5], false)].
(** The same flow, closed by a packet that stays on its own. *)
Definition closing_round : list (list Z * bool) :=
  [(sample_data 0 0x10 [1; 2; 3], false); (sample_data 3 0x10 [4; 5; 6], false); (sample_data 6 0x11 [7; 8], false)].

Lemma coalesced_frames_deliver_witness :
  match run_rounds new_coalescer [sample_round; closing_round] with
  | Ok (_, frames) => map (map fr_payloads) frames = [[[[1; 2; 3]; [4; 5]]]; [[[1; 2; 3]; [4; 5; 6]]; [[7; 8]]]]
  | _ => False
  end ∧
  ∃ c frames, run_rounds new_coalescer [sample_round; closing_round] = Ok (c, frames) ∧
    Forall2 round_delivered [sample_round; closing_round] frames.
Proof.
  split; [by vm_compute|]. apply coalesced_frames_deliver.
  repeat (constructor; try done).
Defined.
