(* ===== verification/PathSelector.v ===== *)
(** Path selection (src/src/path_selector.cpp): the health of each transport
    as a state machine driven by samples, and the choice of the active one
    with hysteresis.

    [double] is [Double.f64]; counters wrap at their width. *)

From S2P Require Import Prelude Double Timers.

Inductive TransportKind := udp | quic | tcp_tls | icmp | ipip | gre | esp | ah | ospf | dns.
#[export] Instance TransportKind_eq_dec : EqDecision TransportKind.
Proof. solve_decision. Defined.

Inductive PathState := probing | healthy | degraded | failed | recovering.
#[export] Instance PathState_eq_dec : EqDecision PathState.
Proof. solve_decision. Defined.

Record PathSample := mkSample {
  rtt_microseconds : f64;
  loss_fraction : f64;
  transport_errors : Z;
  reachable : bool;
}.

Record PathThresholds := mkThresholds {
  loss_degraded : f64;
  loss_healthy : f64;
  rtt_degraded_microseconds : f64;
  rtt_healthy_microseconds : f64;
  promotion_window : Z;
  demotion_threshold : Z;
  cooldown : Duration;
  minimum_improvement : f64;
}.
Definition default_path_thresholds : PathThresholds :=
  mkThresholds (lit 5 100) (lit 2 100) (of_int 200000) (of_int 120000) 5 3 (seconds 10) (lit 15 100).

Record Path := mkPath {
  kind_ : TransportKind;
  state_ : PathState;
  score_ : f64;
  smoothed_loss_ : f64;
  smoothed_rtt_ : f64;
  good_ : Z;
  bad_ : Z;
  primed_ : bool;
  failed_at_ : Instant;
}.
Definition new_path (kind : TransportKind) : Path :=
  mkPath kind probing (of_int 1) fzero fzero 0 0 false 0.
#[export] Instance Path_inhabited : Inhabited Path := populate (new_path udp).

Definition with_state (p : Path) (s : PathState) (good bad : Z) : Path :=
  mkPath (kind_ p) s (score_ p) (smoothed_loss_ p) (smoothed_rtt_ p) good bad (primed_ p) (failed_at_ p).

Definition usable (p : Path) : bool :=
  bool_decide (state_ p = healthy) || bool_decide (state_ p = degraded).

Definition mark_failed (p : Path) (now : Instant) : Path :=
  mkPath (kind_ p) failed (score_ p) (smoothed_loss_ p) (smoothed_rtt_ p) 0 (bad_ p) (primed_ p) now.

Definition kPathRetryAfter : Duration := seconds 45.

Definition retry_due (p : Path) (now : Instant) : bool :=
  bool_decide (state_ p = failed) && negb (failed_at_ p =? 0) && (kPathRetryAfter <=? now - failed_at_ p).

Definition kPathSmoothing : f64 := lit 3 10.
Definition smooth_path (previous sample : f64) : f64 :=
  fadd previous (fmul kPathSmoothing (fsub sample previous)).

(** ** [Path::observe] *)

Definition measure_path (p : Path) (sample : PathSample) : Path :=
  let loss := if primed_ p then smooth_path (smoothed_loss_ p) (loss_fraction sample) else loss_fraction sample in
  let rtt := if primed_ p then smooth_path (smoothed_rtt_ p) (rtt_microseconds sample) else rtt_microseconds sample in
  let rtt_term := fmin (fdiv rtt (of_int 1000000)) (of_int 1) in
  mkPath (kind_ p) (state_ p) (fadd (fmul loss (of_int 10)) rtt_term) loss rtt (good_ p) (bad_ p) true (failed_at_ p).

Definition bad_sample (sample : PathSample) (t : PathThresholds) : bool :=
  flt (loss_degraded t) (loss_fraction sample) || flt (rtt_degraded_microseconds t) (rtt_microseconds sample).
Definition good_sample (sample : PathSample) (t : PathThresholds) : bool :=
  fle (loss_fraction sample) (loss_healthy t) && fle (rtt_microseconds sample) (rtt_healthy_microseconds t).

(** The switch over the states, with the counters already advanced. *)
Definition next_state (s : PathState) (good bad : Z) (t : PathThresholds) : PathState :=
  match s with
  | probing =>
      if promotion_window t <=? good then healthy
      else if demotion_threshold t <=? bad then failed else s
  | healthy => if demotion_threshold t <=? bad then degraded else s
  | degraded =>
      if promotion_window t <=? good then healthy
      else if u32 (demotion_threshold t * 2) <=? bad then failed else s
  | failed => if 1 <=? good then recovering else s
  | recovering =>
      if promotion_window t <=? good then healthy
      else if demotion_threshold t <=? bad then failed else s
  end.

Definition observe_path (p : Path) (sample : PathSample) (t : PathThresholds) : Path :=
  let p := measure_path p sample in
  if negb (reachable sample) then with_state p failed 0 (demotion_threshold t)
  else if bad_sample sample t then
    let bad := u32 (bad_ p + 1) in with_state p (next_state (state_ p) 0 bad t) 0 bad
  else if good_sample sample t then
    let good := u32 (good_ p + 1) in with_state p (next_state (state_ p) good 0 t) good 0
  else p.

(** ** [PathSelector] *)

Record SelectorStats := mkSelectorStats {
  switches : Z;
  switches_suppressed_by_cooldown : Z;
  switches_suppressed_by_margin : Z;
  failovers : Z;
}.

Record PathSelector := mkSelector {
  thresholds_ : PathThresholds;
  paths_ : list Path;
  count_ : nat;
  active_ : TransportKind;
  last_switch_ : Instant;
  has_active_ : bool;
  stats_ : SelectorStats;
}.

Definition kMaximumPaths : nat := 3.
Definition new_selector (t : PathThresholds) : PathSelector :=
  mkSelector t (replicate kMaximumPaths (new_path udp)) 0 udp 0 false (mkSelectorStats 0 0 0 0).

(** [for (index = 0; index < count_; ++index) if (paths_[index].kind() == kind)] *)
Fixpoint find_path (n index : nat) (paths : list Path) (kind : TransportKind) : option nat :=
  match n with
  | O => None
  | S n =>
      if bool_decide (kind_ (paths !!! index) = kind) then Some index
      else find_path n (S index) paths kind
  end.
Definition find (s : PathSelector) (kind : TransportKind) : option nat := find_path (count_ s) 0 (paths_ s) kind.
Definition path (s : PathSelector) (kind : TransportKind) : option Path :=
  (λ index, paths_ s !!! index) <$> find s kind.

Definition with_paths (s : PathSelector) (paths : list Path) : PathSelector :=
  mkSelector (thresholds_ s) paths (count_ s) (active_ s) (last_switch_ s) (has_active_ s) (stats_ s).
Definition with_stats (s : PathSelector) (stats : SelectorStats) : PathSelector :=
  mkSelector (thresholds_ s) (paths_ s) (count_ s) (active_ s) (last_switch_ s) (has_active_ s) stats.

Definition add_path (s : PathSelector) (kind : TransportKind) : PathSelector :=
  match find s kind with
  | Some _ => s
  | None =>
      if (kMaximumPaths <=? count_ s)%nat then s else
      mkSelector (thresholds_ s) (<[count_ s := new_path kind]> (paths_ s)) (S (count_ s))
        (if has_active_ s then active_ s else kind) (last_switch_ s) true (stats_ s)
  end.

Definition set_active (s : PathSelector) (kind : TransportKind) : PathSelector :=
  match find s kind with
  | None => s
  | Some _ => mkSelector (thresholds_ s) (paths_ s) (count_ s) kind (last_switch_ s) true (stats_ s)
  end.

Definition observe (s : PathSelector) (kind : TransportKind) (sample : PathSample) : PathSelector :=
  match find s kind with
  | None => s
  | Some index => with_paths s (<[index := observe_path (paths_ s !!! index) sample (thresholds_ s)]> (paths_ s))
  end.

Definition eligible (active : TransportKind) (must_move : bool) (now : Instant) (candidate : Path) : bool :=
  negb (bool_decide (kind_ candidate = active)) &&
  (usable candidate || (must_move && (bool_decide (state_ candidate = probing) || retry_due candidate now))).

Definition better (best : option Path) (candidate : Path) : option Path :=
  match best with
  | None => Some candidate
  | Some b => if flt (score_ candidate) (score_ b) then Some candidate else best
  end.

Definition best_path (s : PathSelector) (must_move : bool) (now : Instant) : option Path :=
  fold_left (λ best candidate, if eligible (active_ s) must_move now candidate then better best candidate else best)
    (take (count_ s) (paths_ s)) None.

(** [(current - best) / current] as far as [current] has a positive score. *)
Definition improvement (current best : Path) : f64 :=
  if flt fzero (score_ current) then fdiv (fsub (score_ current) (score_ best)) (score_ current) else fzero.

(** The switch itself: the path left behind failed if it had to be left. *)
Definition switch (s : PathSelector) (must_move : bool) (best : Path) (now : Instant) : PathSelector :=
  let paths :=
    if must_move then
      match find s (active_ s) with
      | Some index => <[index := mark_failed (paths_ s !!! index) now]> (paths_ s)
      | None => paths_ s
      end
    else paths_ s in
  let st := stats_ s in
  mkSelector (thresholds_ s) paths (count_ s) (kind_ best) now (has_active_ s)
    (mkSelectorStats (u64 (switches st + 1)) (switches_suppressed_by_cooldown st) (switches_suppressed_by_margin st)
       (if must_move then u64 (failovers st + 1) else failovers st)).

Definition count_cooldown (s : PathSelector) : PathSelector :=
  let st := stats_ s in
  with_stats s (mkSelectorStats (switches st) (u64 (switches_suppressed_by_cooldown st + 1))
    (switches_suppressed_by_margin st) (failovers st)).
Definition count_margin (s : PathSelector) : PathSelector :=
  let st := stats_ s in
  with_stats s (mkSelectorStats (switches st) (switches_suppressed_by_cooldown st)
    (u64 (switches_suppressed_by_margin st + 1)) (failovers st)).

Definition evaluate (s : PathSelector) (now : Instant) : PathSelector * bool :=
  if (count_ s =? 0)%nat || negb (has_active_ s) then (s, false) else
  match path s (active_ s) with
  | None => (s, false)
  | Some current =>
      let must_move := negb (usable current) in
      match best_path s must_move now with
      | None => (s, false)
      | Some best =>
          if negb (last_switch_ s =? 0) && (now - last_switch_ s <? cooldown (thresholds_ s))
          then (count_cooldown s, false) else
          if negb must_move && bool_decide (state_ current = healthy) then (count_margin s, false) else
          if negb must_move && flt (improvement current best) (minimum_improvement (thresholds_ s))
          then (count_margin s, false) else
          (switch s must_move best now, true)
      end
  end.

(** * The choice of the best path *)

Lemma flt_irrefl x : flt x x = false.
Proof. apply not_true_iff_false. rewrite flt_order. unfold lex_lt. intuition lia. Qed.

Section best.
Context (e : Path → bool).

Definition pick (best : option Path) (candidate : Path) : option Path :=
  if e candidate then better best candidate else best.

Lemma pick_spec l : ∀ best,
  (fold_left pick l best = None ↔ best = None ∧ Forall (λ p, e p = false) l) ∧
  ∀ b, fold_left pick l best = Some b →
    (best = Some b ∨ b ∈ l ∧ e b = true) ∧
    (∀ b0, best = Some b0 → b = b0 ∨ flt (score_ b) (score_ b0) = true) ∧
    ∀ p, p ∈ l → e p = true → flt (score_ p) (score_ b) = false.
Proof.
  induction l as [|c l IH]; intros best; cbn [fold_left].
  { split; [split; [intros ->; auto|by intros [-> _]]|]. intros b ->. split; [by left|].
    split; [|by intros p Hp%elem_of_nil]. intros b0 [= ->]. by left. }
  destruct (IH (pick best c)) as [IHn IHs]. clear IH.
  assert (pick best c = if e c then better best c else best) as Ep by done. rewrite Ep in *. clear Ep. split.
  - rewrite IHn, Forall_cons. destruct (e c) eqn:Ec; [|tauto]. unfold better.
    destruct best as [b0|]; [|intuition done]. destruct (flt _ _); intuition done.
  - intros b Hb. destruct (IHs b Hb) as (Hin & Hbest & Hall). destruct (e c) eqn:Ec.
    2: { split; [destruct Hin as [?|[? ?]]; [by left|right; split; [by right|done]]|]. split; [done|].
         intros p [->|Hp]%elem_of_cons He; [congruence|auto]. }
    assert (b = c ∨ flt (score_ b) (score_ c) = true → flt (score_ c) (score_ b) = false) as Hc.
    { intros [->|Hlt]; [apply flt_irrefl|]. apply not_true_iff_false. intros Hgt.
      pose proof (flt_trans _ _ _ Hlt Hgt) as Hbb. by rewrite flt_irrefl in Hbb. }
    unfold better in *. destruct best as [b0|]; [destruct (flt (score_ c) (score_ b0)) eqn:Ef|].
    + split; [right; destruct Hin as [[= ->]|[? ?]]; split; try done; [by left|by right]|]. specialize (Hbest c eq_refl).
      split; [|intros p [->|Hp]%elem_of_cons He; auto]. intros b1 [= <-]. right.
      destruct Hbest as [->|Hlt]; [done|]. by eapply flt_trans.
    + split; [destruct Hin as [?|[? ?]]; [by left|right; split; [by right|done]]|]. split; [done|].
      intros p [->|Hp]%elem_of_cons He; [|auto]. destruct (Hbest b0 eq_refl) as [->|Hlt]; [done|].
      apply not_true_iff_false. intros Hgt. by rewrite (flt_trans _ _ _ Hgt Hlt) in Ef.
    + split; [right; destruct Hin as [[= ->]|[? ?]]; split; try done; [by left|by right]|]. split; [done|].
      intros p [->|Hp]%elem_of_cons He; auto.
Qed.
End best.

(** * Histories of the selector *)

Definition registered (s : PathSelector) : list Path := take (count_ s) (paths_ s).

Record selector_ok (t : PathThresholds) (s : PathSelector) : Prop := {
  se_thresholds : thresholds_ s = t;
  se_paths : length (paths_ s) = kMaximumPaths;
  se_count : (count_ s ≤ kMaximumPaths)%nat;
  se_distinct : NoDup (kind_ <$> registered s);
  se_active : has_active_ s = true → active_ s ∈ kind_ <$> registered s;
  se_some : has_active_ s = (0 <? count_ s)%nat;
}.

Lemma find_path_spec paths kind n : ∀ index, (index + n ≤ length paths)%nat →
  match find_path n index paths kind with
  | Some i => ∃ p, (index ≤ i < index + n)%nat ∧ paths !! i = Some p ∧ kind_ p = kind
  | None => kind ∉ kind_ <$> take n (drop index paths)
  end.
Proof.
  induction n as [|n IH]; intros index Hl; cbn [find_path]; [by intros ?%elem_of_nil|].
  destruct (lookup_lt_is_Some_2 paths index) as [p Hp]; [lia|].
  rewrite (list_lookup_total_correct _ _ _ Hp), (drop_S _ _ _ Hp). cbn [take fmap list_fmap].
  destruct (bool_decide_reflect (kind_ p = kind)) as [E|E]; [exists p; split; [lia|done]|].
  specialize (IH (S index) ltac:(lia)). destruct (find_path n (S index) paths kind) as [i|].
  - destruct IH as (q & ? & ?). exists q. split; [lia|done].
  - intros [?|?]%elem_of_cons; [congruence|done].
Qed.

Lemma find_spec t s kind : selector_ok t s →
  match find s kind with
  | Some i => ∃ p, (i < count_ s)%nat ∧ paths_ s !! i = Some p ∧ kind_ p = kind
  | None => kind ∉ kind_ <$> registered s
  end.
Proof.
  intros []. pose proof (find_path_spec (paths_ s) kind (count_ s) 0 ltac:(lia)) as H. unfold find.
  destruct (find_path _ _ _ _); [|done]. destruct H as (p & ? & ?). exists p. split; [lia|done].
Qed.

Lemma registered_insert s i p q : (i < count_ s)%nat → (count_ s ≤ length (paths_ s))%nat →
  paths_ s !! i = Some q → kind_ p = kind_ q →
  kind_ <$> take (count_ s) (<[i := p]> (paths_ s)) = kind_ <$> registered s.
Proof.
  intros Hi Hl Hq Hk. unfold registered. rewrite take_insert_lt, list_fmap_insert by done. apply list_insert_id.
  rewrite list_lookup_fmap, lookup_take_lt, Hq by done. cbn. by rewrite Hk.
Qed.

Lemma observe_path_kind p sample t : kind_ (observe_path p sample t) = kind_ p.
Proof. unfold observe_path. by repeat case_match. Qed.

Lemma find_path_kinds (paths paths' : list Path) kind n index : (∀ i, kind_ (paths' !!! i) = kind_ (paths !!! i)) →
  find_path n index paths' kind = find_path n index paths kind.
Proof. intros Hk. revert index. induction n as [|n IH]; intros index; [done|]. cbn [find_path]. by rewrite Hk, IH. Qed.

Lemma insert_kinds (paths : list Path) (i : nat) p q (j : nat) : paths !! i = Some q → kind_ p = kind_ q →
  kind_ (<[i := p]> paths !!! j) = kind_ (paths !!! j).
Proof.
  intros Hq Hk. destruct (decide (i = j)) as [<-|Hne]; [|by rewrite list_lookup_total_insert_ne].
  rewrite list_lookup_total_insert_eq by (by eapply lookup_lt_Some). by rewrite (list_lookup_total_correct _ _ _ Hq).
Qed.

(** A path replaced by one of the same kind. *)
Lemma with_paths_ok t s i p q : selector_ok t s → (i < count_ s)%nat → paths_ s !! i = Some q → kind_ p = kind_ q →
  selector_ok t (with_paths s (<[i := p]> (paths_ s))).
Proof.
  intros [] Hi Hq Hk. assert (count_ s ≤ length (paths_ s))%nat by lia.
  constructor; unfold registered; cbn; rewrite ?length_insert, ?(registered_insert s i p q) by done; done.
Qed.

Lemma new_selector_ok t : selector_ok t (new_selector t).
Proof. constructor; cbn; try done; [lia|constructor]. Qed.

Lemma add_path_ok t s kind : selector_ok t s → selector_ok t (add_path s kind).
Proof.
  intros Hok. unfold add_path. pose proof (find_spec t s kind Hok) as Hf. destruct (find s kind); [done|].
  destruct (Nat.leb_spec kMaximumPaths (count_ s)); [done|]. destruct Hok as [Ht Hp Hc Hd Ha Hs].
  assert (take (S (count_ s)) (<[count_ s := new_path kind]> (paths_ s)) = registered s ++ [new_path kind]) as Er.
  { rewrite (take_S_r _ _ (new_path kind)) by (apply list_lookup_insert_eq; lia). by rewrite take_insert_ge. }
  constructor; unfold registered in *; cbn [thresholds_ paths_ count_ active_ has_active_];
    rewrite ?length_insert, ?Er, ?fmap_app; try done.
  - apply NoDup_app. split; [done|]. split; [|apply NoDup_singleton]. intros k Hk ->%list_elem_of_singleton. done.
  - intros _. apply elem_of_app. destruct (has_active_ s); [left; by apply Ha|right; by left].
Qed.

Lemma set_active_ok t s kind : selector_ok t s → selector_ok t (set_active s kind).
Proof.
  intros Hok. unfold set_active. pose proof (find_spec t s kind Hok) as Hf. destruct (find s kind) as [i|]; [|done].
  destruct Hf as (p & Hi & Hp & <-). destruct Hok as [? ? ? ? ? Hs]. constructor; try done; cbn.
  - intros _. apply list_elem_of_fmap. exists p. split; [done|]. apply (list_elem_of_lookup_2 _ i).
    unfold registered. cbn. by rewrite lookup_take_lt.
  - destruct (count_ s); [lia|done].
Qed.

Lemma selector_observe_ok t s kind sample : selector_ok t s → selector_ok t (observe s kind sample).
Proof.
  intros Hok. unfold observe. pose proof (find_spec t s kind Hok) as Hf. destruct (find s kind) as [i|]; [|done].
  destruct Hf as (p & Hi & Hp & _). rewrite (list_lookup_total_correct _ _ _ Hp).
  eapply with_paths_ok; [done..|]. apply observe_path_kind.
Qed.

(** ** What an evaluation decides *)

Definition candidate (s : PathSelector) (current : Path) (now : Instant) (p : Path) : Prop :=
  p ∈ registered s ∧ kind_ p ≠ active_ s ∧
  (usable p = true ∨ usable current = false ∧ (state_ p = probing ∨ retry_due p now = true)).

Record switched (s : PathSelector) (now : Instant) (current best : Path) (s' : PathSelector) : Prop := {
  sw_candidate : candidate s current now best;
  sw_best : ∀ p, candidate s current now p → flt (score_ p) (score_ best) = false;
  sw_cooled : last_switch_ s = 0 ∨ cooldown (thresholds_ s) ≤ now - last_switch_ s;
  sw_reason : usable current = false ∨
    state_ current = degraded ∧ flt (improvement current best) (minimum_improvement (thresholds_ s)) = false;
  sw_active : active_ s' = kind_ best;
  sw_last : last_switch_ s' = now;
  sw_left : usable current = false → path s' (active_ s) = Some (mark_failed current now);
  sw_others : ∀ k, k ≠ active_ s ∨ usable current = true → path s' k = path s k;
}.

(** Why the active path is kept. *)
Definition kept (s : PathSelector) (now : Instant) (current : Path) : Prop :=
  (∀ p, ¬ candidate s current now p) ∨ last_switch_ s ≠ 0 ∧ now - last_switch_ s < cooldown (thresholds_ s) ∨
  state_ current = healthy ∨
  usable current = true ∧ ∃ best, candidate s current now best ∧
    flt (improvement current best) (minimum_improvement (thresholds_ s)) = true.

Lemma eligible_candidate s current now p : p ∈ registered s →
  eligible (active_ s) (negb (usable current)) now p = true ↔ candidate s current now p.
Proof.
  intros Hp. unfold eligible, candidate. rewrite andb_true_iff, orb_true_iff, andb_true_iff, orb_true_iff, !negb_true_iff,
    bool_decide_eq_false, bool_decide_eq_true. tauto.
Qed.

Lemma best_path_spec s current now :
  (best_path s (negb (usable current)) now = None → ∀ p, ¬ candidate s current now p) ∧
  ∀ b, best_path s (negb (usable current)) now = Some b →
    candidate s current now b ∧ ∀ p, candidate s current now p → flt (score_ p) (score_ b) = false.
Proof.
  destruct (pick_spec (eligible (active_ s) (negb (usable current)) now) (registered s) None) as [Hn Hs].
  change (best_path s (negb (usable current)) now) with
    (fold_left (pick (eligible (active_ s) (negb (usable current)) now)) (registered s) None).
  split.
  - intros E p Hc. apply Hn in E as [_ E]. rewrite Forall_forall in E. pose proof (proj1 Hc) as Hin.
    apply eligible_candidate in Hc; [|done]. by rewrite (E p Hin) in Hc.
  - intros b E. destruct (Hs b E) as ([?|[Hin Hb]] & _ & Hall); [done|]. split; [by apply eligible_candidate|].
    intros p Hc. apply Hall; [apply Hc|]. apply eligible_candidate; [apply Hc|done].
Qed.

Lemma usable_states p : usable p = true ↔ state_ p = healthy ∨ state_ p = degraded.
Proof. unfold usable. rewrite orb_true_iff, !bool_decide_eq_true. done. Qed.

(** The paths after a switch. *)
Lemma switch_paths t s current best now : selector_ok t s → path s (active_ s) = Some current →
  let s' := switch s (negb (usable current)) best now in
  (usable current = false → path s' (active_ s) = Some (mark_failed current now)) ∧
  (∀ k, k ≠ active_ s ∨ usable current = true → path s' k = path s k) ∧
  ∃ paths, paths_ s' = paths_ (with_paths s paths) ∧ selector_ok t (with_paths s paths).
Proof.
  intros Hok Hp. unfold switch, path in *. pose proof (find_spec t s (active_ s) Hok) as Hf.
  destruct (find s (active_ s)) as [i|] eqn:Ef; [|done]. injection Hp as Hc.
  destruct Hf as (p & Hi & Hpi & Hk). rewrite (list_lookup_total_correct _ _ _ Hpi) in Hc |- *. subst p.
  destruct (usable current); cbn [negb].
  { split; [done|]. split; [done|]. exists (paths_ s). by destruct s, Hok. }
  assert (∀ k, find (mkSelector (thresholds_ s) (<[i := mark_failed current now]> (paths_ s)) (count_ s) (kind_ best) now
    (has_active_ s) (mkSelectorStats (u64 (switches (stats_ s) + 1)) (switches_suppressed_by_cooldown (stats_ s))
      (switches_suppressed_by_margin (stats_ s)) (u64 (failovers (stats_ s) + 1)))) k = find s k) as Efind.
  { intros k. unfold find. cbn. apply find_path_kinds. intros j. by eapply insert_kinds. }
  split; [|split].
  - intros _. rewrite Efind, Ef. cbn. by rewrite list_lookup_total_insert_eq by (by eapply lookup_lt_Some).
  - intros k [Hne|?]; [|done]. rewrite Efind. pose proof (find_spec t s k Hok) as Hfk.
    destruct (find s k) as [j|]; [|done]. destruct Hfk as (q & _ & Hq & Hqk). cbn. f_equal.
    apply list_lookup_total_insert_ne. intros ->. congruence.
  - exists (<[i := mark_failed current now]> (paths_ s)). split; [done|]. by eapply with_paths_ok.
Qed.

Lemma active_path t s : selector_ok t s → registered s ≠ [] → ∃ current, path s (active_ s) = Some current.
Proof.
  intros Hok Hne. pose proof (find_spec t s (active_ s) Hok) as Hf. unfold path.
  destruct (find s (active_ s)) as [i|]; [by eexists|]. exfalso. apply Hf, (se_active _ _ Hok).
  rewrite (se_some _ _ Hok). apply Nat.ltb_lt. unfold registered in Hne. destruct (count_ s); [by rewrite take_0 in Hne|lia].
Qed.

Definition stays (s s' : PathSelector) : Prop :=
  active_ s' = active_ s ∧ last_switch_ s' = last_switch_ s ∧ paths_ s' = paths_ s ∧ count_ s' = count_ s.

Lemma stats_ok t s st : selector_ok t s → selector_ok t (with_stats s st).
Proof. intros []. by constructor. Qed.

Lemma switch_ok t s current best now : selector_ok t s → path s (active_ s) = Some current →
  candidate s current now best → selector_ok t (switch s (negb (usable current)) best now).
Proof.
  intros Hok Hp Hb. destruct (switch_paths t s current best now Hok Hp) as (_ & _ & paths & Ep & Hok').
  destruct Hok' as [Ht Hl Hc Hd Ha Hs]. unfold registered in *. cbn in Hl, Hd, Ha, Ep, Hc.
  constructor; unfold registered; cbn; cbn in Ep; rewrite ?Ep; try done.
  intros _. assert (kind_ <$> take (count_ s) paths = kind_ <$> registered s) as ->.
  2: { apply list_elem_of_fmap. exists best. split; [done|apply Hb]. }
  rewrite <- Ep. unfold switch. cbn. pose proof (find_spec t s (active_ s) Hok) as Hf.
  destruct (usable current); cbn [negb]; [done|]. destruct (find s (active_ s)) as [i|]; [|done].
  destruct Hf as (p & Hi & Hpi & _). rewrite (list_lookup_total_correct _ _ _ Hpi).
  eapply registered_insert; try done. rewrite (se_paths _ _ Hok). apply (se_count _ _ Hok).
Qed.

Lemma evaluate_spec t s now : selector_ok t s →
  selector_ok t (evaluate s now).1 ∧
  if (evaluate s now).2
  then ∃ current best, path s (active_ s) = Some current ∧ switched s now current best (evaluate s now).1
  else stays s (evaluate s now).1 ∧
    (registered s = [] ∨ ∃ current, path s (active_ s) = Some current ∧ kept s now current).
Proof.
  intros Hok. unfold evaluate. destruct (decide (registered s = [])) as [Er|Er].
  { assert (count_ s = 0)%nat as ->.
    { apply (f_equal length) in Er. unfold registered in Er. rewrite length_take, (se_paths _ _ Hok) in Er.
      pose proof (se_count _ _ Hok). cbn in Er. lia. }
    cbn. split; [done|]. split; [done|by left]. }
  destruct (active_path t s Hok Er) as [current Hcur]. rewrite (se_some _ _ Hok).
  assert ((count_ s =? 0)%nat = false ∧ (0 <? count_ s)%nat = true) as [-> ->].
  { unfold registered in Er. destruct (count_ s); [by rewrite take_0 in Er|done]. }
  cbn [orb negb]. rewrite Hcur. cbn zeta. destruct (best_path_spec s current now) as [Hnone Hsome].
  destruct (best_path s (negb (usable current)) now) as [best|].
  2: { split; [done|]. split; [done|]. right. exists current. split; [done|]. left. by apply Hnone. }
  destruct (Hsome best eq_refl) as [Hb Hbest].
  destruct (negb (last_switch_ s =? 0) && _) eqn:Ecool.
  { split; [by apply stats_ok|]. split; [done|]. right. exists current. split; [done|]. right; left. reflect_bools. done. }
  destruct (negb (negb (usable current)) && bool_decide (state_ current = healthy)) eqn:Eh.
  { split; [by apply stats_ok|]. split; [done|]. right. exists current. split; [done|]. right; right; left.
    apply andb_true_iff in Eh as [_ Eh%bool_decide_eq_true_1]. done. }
  destruct (negb (negb (usable current)) && flt _ _) eqn:Ei.
  { split; [by apply stats_ok|]. split; [done|]. right. exists current. split; [done|]. right; right; right.
    rewrite negb_involutive in Ei. apply andb_true_iff in Ei as [Ei Ef]. split; [done|]. by exists best. }
  rewrite negb_involutive in Eh, Ei. destruct (switch_paths t s current best now Hok Hcur) as (Hleft & Hoth & _).
  split; [by apply switch_ok|]. exists current, best. split; [done|]. constructor; try done.
  - apply andb_false_iff in Ecool as [E|E]; reflect_bools; [by left|by right].
  - destruct (usable current) eqn:Eu; [right|by left]. cbn [andb] in Eh, Ei. split; [|done].
    apply bool_decide_eq_false in Eh. apply usable_states in Eu. tauto.
Qed.

(** ** Histories *)

Inductive Operation :=
| OpAdd (kind : TransportKind)
| OpActive (kind : TransportKind)
| OpObserve (kind : TransportKind) (sample : PathSample)
| OpEvaluate (now : Instant).

Definition apply (s : PathSelector) (op : Operation) : PathSelector * list Instant :=
  match op with
  | OpAdd kind => (add_path s kind, [])
  | OpActive kind => (set_active s kind, [])
  | OpObserve kind sample => (observe s kind sample, [])
  | OpEvaluate now => ((evaluate s now).1, if (evaluate s now).2 then [now] else [])
  end.

(** The selector after a history and the times at which it switched. *)
Fixpoint run (s : PathSelector) (ops : list Operation) : PathSelector * list Instant :=
  match ops with
  | [] => (s, [])
  | op :: ops =>
      let r := apply s op in
      let r' := run r.1 ops in
      (r'.1, r.2 ++ r'.2)
  end.

(** Switches after the one at [last], which is 0 before the first. *)
Fixpoint spaced (gap last : Z) (times : list Z) : Prop :=
  match times with
  | [] => True
  | now :: times => (last = 0 ∨ gap ≤ now - last) ∧ spaced gap now times
  end.

Lemma apply_ok t s op : selector_ok t s → selector_ok t (apply s op).1.
Proof.
  intros Hok. destruct op; cbn; [by apply add_path_ok|by apply set_active_ok|by apply selector_observe_ok|].
  by apply evaluate_spec.
Qed.

Lemma apply_last s op : (∀ now, op ≠ OpEvaluate now) → last_switch_ (apply s op).1 = last_switch_ s ∧ (apply s op).2 = [].
Proof.
  intros Hop. destruct op; cbn; unfold add_path, set_active, observe; [..|by destruct (Hop now)];
    repeat case_match; done.
Qed.

Lemma run_spec t ops : ∀ s, selector_ok t s →
  selector_ok t (run s ops).1 ∧ spaced (cooldown t) (last_switch_ s) (run s ops).2.
Proof.
  induction ops as [|op ops IH]; intros s Hok; [done|]. cbn [run].
  destruct (IH (apply s op).1 (apply_ok t s op Hok)) as [IH1 IH2]. split; [done|]. cbn [snd].
  destruct op as [k|k|k sample|now].
  4: { cbn in IH2 |- *. pose proof (evaluate_spec t s now Hok) as [_ He]. destruct (evaluate s now) as [s' []]; cbn in *.
       - destruct He as (current & best & _ & Hsw). rewrite (sw_last _ _ _ _ _ Hsw) in IH2. split; [|done].
         pose proof (sw_cooled _ _ _ _ _ Hsw) as Hc. by rewrite (se_thresholds _ _ Hok) in Hc.
       - destruct He as [(_ & <- & _) _]. done. }
  all: match goal with |- context [apply ?x ?op] => destruct (apply_last x op) as [El Et]; [done|] end;
    cbn [snd] in *; rewrite Et; cbn [app]; first [by rewrite El in IH2|exact IH2].
Qed.

(** The choice of path.  In every history of the selector: at most three
    paths of distinct kinds are registered, and the active one is among them;
    switches are at least the cooldown apart; and an evaluation switches
    exactly as intended.  It moves only to a usable path, or, when the active
    one is unusable, to one that is being probed or due for a retry, and to
    one with the lowest score among these; it leaves a usable path only if
    that is degraded and the gain is large enough; the path left because it
    was unusable is marked failed and no other changes.  It stays only if
    there is nowhere to go, during the cooldown, or if the active path is
    usable and healthy or the gain too small. *)
Lemma path_selection t ops now :
  let s := (run (new_selector t) ops).1 in
  spaced (cooldown t) 0 (run (new_selector t) ops).2 ∧
  (length (registered s) ≤ 3)%nat ∧ NoDup (kind_ <$> registered s) ∧
  (registered s ≠ [] → ∃ current, path s (active_ s) = Some current) ∧
  if (evaluate s now).2
  then ∃ current best, path s (active_ s) = Some current ∧ switched s now current best (evaluate s now).1
  else stays s (evaluate s now).1 ∧
    (registered s = [] ∨ ∃ current, path s (active_ s) = Some current ∧ kept s now current).
Proof.
  cbn zeta. destruct (run_spec t ops (new_selector t) (new_selector_ok t)) as [Hok Hsp].
  split; [done|]. split; [unfold registered; rewrite length_take; pose proof (se_count _ _ Hok); unfold kMaximumPaths in *; lia|].
  split; [apply Hok|]. split; [by apply (active_path t)|]. by apply (evaluate_spec t).
Qed.

(** * Hysteresis of a path *)

Inductive PathEvent :=
| Sampled (sample : PathSample)
| Left (now : Instant).

Definition path_event (t : PathThresholds) (p : Path) (e : PathEvent) : Path :=
  match e with
  | Sampled sample => observe_path p sample t
  | Left now => mark_failed p now
  end.

(** Good samples since the last bad one, since the path was unreachable or was
    left; samples that are neither good nor bad do not count. *)
Definition good_streak (t : PathThresholds) (n : Z) (e : PathEvent) : Z :=
  match e with
  | Left _ => 0
  | Sampled s =>
      if negb (reachable s) then 0 else if bad_sample s t then 0 else if good_sample s t then n + 1 else n
  end.

(** Bad samples since the last good one; being unreachable counts as enough. *)
Definition bad_streak (t : PathThresholds) (n : Z) (e : PathEvent) : Z :=
  match e with
  | Left _ => n
  | Sampled s =>
      if negb (reachable s) then demotion_threshold t
      else if bad_sample s t then n + 1 else if good_sample s t then 0 else n
  end.

Definition path_after (t : PathThresholds) (kind : TransportKind) (h : list PathEvent) : Path :=
  fold_left (path_event t) h (new_path kind).
Definition goods (t : PathThresholds) (h : list PathEvent) : Z := fold_left (good_streak t) h 0.
Definition bads (t : PathThresholds) (h : list PathEvent) : Z := fold_left (bad_streak t) h 0.

(** The counters count the streaks, in histories that are not astronomical. *)
Lemma streaks_counted t kind h : 0 ≤ demotion_threshold t < 2 ^ 31 → Z.of_nat (length h) < 2 ^ 31 →
  good_ (path_after t kind h) = goods t h ∧ bad_ (path_after t kind h) = bads t h ∧
  0 ≤ goods t h ≤ Z.of_nat (length h) ∧ 0 ≤ bads t h ≤ demotion_threshold t + Z.of_nat (length h).
Proof.
  intros Ht. unfold path_after, goods, bads. induction h as [|e h IH] using rev_ind; intros Hl; [cbn; lia|].
  rewrite length_app in Hl. cbn in Hl. rewrite !fold_left_app, length_app. cbn [fold_left length].
  destruct IH as (Hg & Hb & Rg & Rb); [lia|]. set (p := fold_left (path_event t) h (new_path kind)) in *.
  set (g := fold_left (good_streak t) h 0) in *. set (b := fold_left (bad_streak t) h 0) in *.
  destruct e as [s|now]; cbn [path_event good_streak bad_streak]; [|cbn; lia].
  unfold observe_path. destruct (reachable s); cbn [negb]; [|cbn; lia].
  destruct (bad_sample s t); [|destruct (good_sample s t)]; cbn; rewrite ?Hg, ?Hb, ?u32_id by (unfold is_u32; lia); lia.
Qed.

(** Hysteresis.  However the samples of a path came in, one more sample
    makes it healthy only after [promotion_window] good samples in a row,
    takes it out of the healthy state only when it shows the path unreachable
    or completes [demotion_threshold] bad samples in a row, and then to
    degraded, still usable, unless unreachable; a failed path comes back only
    through recovering. *)
Lemma path_hysteresis t kind h s : 0 ≤ demotion_threshold t < 2 ^ 31 → Z.of_nat (S (length h)) < 2 ^ 31 →
  let before := state_ (path_after t kind h) in
  let after := state_ (path_after t kind (h ++ [Sampled s])) in
  (after = healthy → before ≠ healthy → promotion_window t ≤ goods t (h ++ [Sampled s])) ∧
  (before = healthy → after ≠ healthy →
     reachable s = false ∧ after = failed ∨
     reachable s = true ∧ after = degraded ∧ demotion_threshold t ≤ bads t (h ++ [Sampled s])) ∧
  (before = failed → after = failed ∨ after = recovering) ∧ (reachable s = false → after = failed).
Proof.
  intros Ht Hl. cbn zeta. destruct (streaks_counted t kind (h ++ [Sampled s])) as (Hg & Hb & _); [done|rewrite length_app; cbn; lia|].
  rewrite <- Hg, <- Hb. clear Hg Hb. unfold path_after. rewrite fold_left_app. cbn [fold_left path_event].
  set (p := fold_left (path_event t) h (new_path kind)). unfold observe_path.
  destruct (reachable s); cbn [negb]; [|cbn; intuition done].
  destruct (bad_sample s t); [|destruct (good_sample s t)]; cbn [with_state state_ good_ bad_ measure_path]; [..|intuition done];
    unfold next_state; destruct (state_ p); repeat case_match; reflect_bools; intuition (done || lia).
Qed.

Definition sample_good : PathSample := mkSample (of_int 20000) fzero 0 true.

