(* ===== verification/Congestion.v ===== *)
(** Congestion control and pacing: [src/congestion.cpp] and [src/pacer.cpp].

    Rates are [Double.f64]; round trip times are integral durations, whose
    divisions truncate.  The theorem covers every history of samples, lost or
    delivered in any number, in both modes of the controller. *)

From stdpp Require Import sorting.
From S2P Require Import Prelude Double.

(** ** [CongestionController] *)

Record CongestionConfig := mkCongestionConfig {
  delay_threshold : Duration;
  maximum_jitter_tolerance : Duration;
  loss_threshold : f64;
  backoff_delay : f64;
  backoff_loss : f64;
  probe_gain : f64;
  probe_ceiling : f64;
  minimum_rate_bytes : f64;
  maximum_rate_bytes : f64;
  minimum_rtt_window : Duration;
  brutal_rate_bytes : f64;
}.
Definition default_congestion_config : CongestionConfig :=
  mkCongestionConfig (milliseconds 5) (milliseconds 15) (lit 10 100) (lit 85 100) (lit 75 100) (lit 105 100)
    (lit 125 100) (of_int 8000) (of_int 1250000000) (seconds 10) fzero.

Inductive CongestionAction := hold | probe | back_off_delay | back_off_loss.
#[export] Instance CongestionAction_eq_dec : EqDecision CongestionAction.
Proof. solve_decision. Defined.

Record DeliverySample := mkDelivery {
  rtt : Duration;
  bytes_delivered : Z;
  bytes_lost : Z;
  interval : Duration;
}.

Record CongestionStats := mkCongestionStats {
  samples : Z;
  probes : Z;
  delay_backoffs : Z;
  loss_backoffs : Z;
}.

Record RttSample := mkRttSample { sample_rtt : Duration; at_ : Instant }.

Record CongestionController := mkController {
  config_ : CongestionConfig;
  rate_ : f64;
  delivery_rate_ : f64;
  loss_fraction_ : f64;
  smoothed_rtt_ : Duration;
  rtt_variance_ : Duration;
  minimum_rtt_ : Duration;
  minimum_window_ : list RttSample;
  primed_ : bool;
  last_action_ : CongestionAction;
  stats_ : CongestionStats;
}.

Definition new_controller (config : CongestionConfig) (initial_rate_bytes : f64) : CongestionController :=
  mkController config initial_rate_bytes fzero fzero 0 0 0 [] false hold (mkCongestionStats 0 0 0 0).

Definition queueing_delay (c : CongestionController) : Duration :=
  if smoothed_rtt_ c <=? minimum_rtt_ c then 0 else smoothed_rtt_ c - minimum_rtt_ c.

(** [while (!empty() && now - front().at > window) pop_front()] *)
Fixpoint drop_stale (window : Duration) (now : Instant) (entries : list RttSample) : list RttSample :=
  match entries with
  | [] => []
  | entry :: rest => if window <? now - at_ entry then drop_stale window now rest else entries
  end.

Definition minimum_of (start : Duration) (entries : list RttSample) : Duration :=
  fold_left (λ m entry, Z.min m (sample_rtt entry)) entries start.

Definition update_rtt (c : CongestionController) (sample : Duration) (now : Instant) : CongestionController :=
  if sample <=? 0 then c else
  let '(smoothed, variance) :=
    if negb (primed_ c) then (sample, Z.quot sample 2)
    else
      let difference := if smoothed_rtt_ c <? sample then sample - smoothed_rtt_ c else smoothed_rtt_ c - sample in
      (Z.quot (smoothed_rtt_ c * 7 + sample) 8, Z.quot (rtt_variance_ c * 3 + difference) 4) in
  let window := drop_stale (minimum_rtt_window (config_ c)) now (minimum_window_ c ++ [mkRttSample sample now]) in
  let minimum := minimum_of (match window with [] => sample | front :: _ => sample_rtt front end) window in
  mkController (config_ c) (rate_ c) (delivery_rate_ c) (loss_fraction_ c) smoothed variance minimum window true
    (last_action_ c) (stats_ c).

(** The rates measured by a sample. *)
Definition measure_delivery (c : CongestionController) (sample : DeliverySample) : CongestionController :=
  let elapsed := to_seconds (interval sample) in
  let delivery := if flt fzero elapsed then fdiv (of_int (bytes_delivered sample)) elapsed else delivery_rate_ c in
  let total := u64 (bytes_delivered sample + bytes_lost sample) in
  let loss := if 0 <? total then fdiv (of_int (bytes_lost sample)) (of_int total) else fzero in
  mkController (config_ c) (rate_ c) delivery loss (smoothed_rtt_ c) (rtt_variance_ c) (minimum_rtt_ c)
    (minimum_window_ c) (primed_ c) (last_action_ c) (stats_ c).

Definition clamp_rate (config : CongestionConfig) (rate : f64) : f64 :=
  fclamp rate (minimum_rate_bytes config) (maximum_rate_bytes config).

Definition act (c : CongestionController) (rate : f64) (action : CongestionAction) (stats : CongestionStats)
    : CongestionController :=
  mkController (config_ c) (clamp_rate (config_ c) rate) (delivery_rate_ c) (loss_fraction_ c) (smoothed_rtt_ c)
    (rtt_variance_ c) (minimum_rtt_ c) (minimum_window_ c) (primed_ c) action stats.

(** The choice between backing off, probing and holding, and the new rate. *)
Definition react (c : CongestionController) : CongestionController :=
  let config := config_ c in
  let st := stats_ c in
  let queueing := queueing_delay c in
  let tolerance := Z.min (rtt_variance_ c * 2) (maximum_jitter_tolerance config) in
  let delay_limit := tolerance + delay_threshold config in
  if delay_limit <? queueing then
    act c (fmul (rate_ c) (backoff_delay config)) back_off_delay
      (mkCongestionStats (samples st) (probes st) (u64 (delay_backoffs st + 1)) (loss_backoffs st))
  else if flt (loss_threshold config) (loss_fraction_ c) then
    act c (fmul (rate_ c) (backoff_loss config)) back_off_loss
      (mkCongestionStats (samples st) (probes st) (delay_backoffs st) (u64 (loss_backoffs st + 1)))
  else if queueing <? rtt_variance_ c then
    let probed := fmul (rate_ c) (probe_gain config) in
    let ceiling := if flt fzero (delivery_rate_ c) then fmul (delivery_rate_ c) (probe_ceiling config) else probed in
    act c (fmin probed ceiling) probe
      (mkCongestionStats (samples st) (u64 (probes st + 1)) (delay_backoffs st) (loss_backoffs st))
  else act c (rate_ c) hold st.

Definition brutal (c : CongestionController) : CongestionController :=
  let deliverable := fclamp (fsub (of_int 1) (loss_fraction_ c)) (lit 2 10) (of_int 1) in
  act c (fdiv (brutal_rate_bytes (config_ c)) deliverable) hold (stats_ c).

Definition count_sample (c : CongestionController) : CongestionController :=
  let st := stats_ c in
  mkController (config_ c) (rate_ c) (delivery_rate_ c) (loss_fraction_ c) (smoothed_rtt_ c) (rtt_variance_ c)
    (minimum_rtt_ c) (minimum_window_ c) (primed_ c) (last_action_ c)
    (mkCongestionStats (u64 (samples st + 1)) (probes st) (delay_backoffs st) (loss_backoffs st)).

Definition observe (c : CongestionController) (sample : DeliverySample) (now : Instant) : CongestionController :=
  let c := measure_delivery (update_rtt (count_sample c) (rtt sample) now) sample in
  if flt fzero (brutal_rate_bytes (config_ c)) then brutal c else react c.

(** ** [Pacer] *)

Definition kMinimumBurstBytes : Z := 1500.

Record Pacer := mkPacer {
  pace_rate_ : f64;
  capacity_ : f64;
  available_ : f64;
  last_ : Instant;
  enabled_ : bool;
  paced_bytes_ : Z;
  deferred_ : Z;
}.
Definition no_pacer : Pacer := mkPacer fzero fzero fzero 0 false 0 0.

Definition new_pacer (bytes_per_second : f64) (burst_bytes : Z) (now : Instant) : Pacer :=
  let burst := of_int (Z.max burst_bytes kMinimumBurstBytes) in
  mkPacer bytes_per_second burst burst now (flt fzero bytes_per_second) 0 0.

Definition refill_pacer (p : Pacer) (now : Instant) : Pacer :=
  if now <=? last_ p then p else
  let elapsed := to_seconds (now - last_ p) in
  mkPacer (pace_rate_ p) (capacity_ p) (fmin (capacity_ p) (fadd (available_ p) (fmul elapsed (pace_rate_ p))))
    now (enabled_ p) (paced_bytes_ p) (deferred_ p).

Definition allow_bytes (p : Pacer) (bytes : Z) (now : Instant) : Pacer * bool :=
  if negb (enabled_ p) then (p, true) else
  let p := refill_pacer p now in
  let needed := of_int bytes in
  let put available paced deferred :=
    mkPacer (pace_rate_ p) (capacity_ p) available (last_ p) (enabled_ p) paced deferred in
  if flt (capacity_ p) needed then (put fzero (u64 (paced_bytes_ p + bytes)) (deferred_ p), true)
  else if flt (available_ p) needed then (put (available_ p) (paced_bytes_ p) (u64 (deferred_ p + 1)), false)
  else (put (fsub (available_ p) needed) (u64 (paced_bytes_ p + bytes)) (deferred_ p), true).

Definition delay_for (p : Pacer) (bytes : Z) (now : Instant) : Pacer * Duration :=
  if negb (enabled_ p) then (p, 0) else
  let p := refill_pacer p now in
  let needed := of_int bytes in
  if flt (capacity_ p) needed || fle needed (available_ p) then (p, 0)
  else if fle (pace_rate_ p) fzero then (p, 0)
  else (p, to_duration (fdiv (fsub needed (available_ p)) (pace_rate_ p))).

Definition set_rate_bytes_per_second (p : Pacer) (rate : f64) : Pacer :=
  if flt fzero rate
  then mkPacer rate (capacity_ p) (available_ p) (last_ p) (enabled_ p) (paced_bytes_ p) (deferred_ p) else p.

(** * The rate stays in range and the minimum is the windowed one *)

(** What the operator's configuration must satisfy. *)
Record congestion_config_ok (config : CongestionConfig) : Prop := {
  cc_minimum : flt fzero (minimum_rate_bytes config) = true;
  cc_range : fle (minimum_rate_bytes config) (maximum_rate_bytes config) = true;
  cc_maximum : is_finite (maximum_rate_bytes config) = true;
  cc_delay : is_nan (backoff_delay config) = false;
  cc_loss : is_nan (backoff_loss config) = false;
  cc_gain : is_nan (probe_gain config) = false;
  cc_window : 0 ≤ minimum_rtt_window config;
}.

Definition delivery_ok (s : DeliverySample) : Prop := is_u64 (bytes_delivered s) ∧ is_u64 (bytes_lost s).

Definition rate_in_range (config : CongestionConfig) (rate : f64) : Prop :=
  fle (minimum_rate_bytes config) rate = true ∧ fle rate (maximum_rate_bytes config) = true.

Lemma loss_number config s : delivery_ok s →
  is_nan (loss_fraction_ (measure_delivery config s)) = false.
Proof.
  intros _. cbn. case_match eqn:E; [|done]. apply Z.ltb_lt in E. apply fdiv_number; [apply of_int_number|].
  apply of_int_finite. pose proof (u64_range (bytes_delivered s + bytes_lost s)). unfold is_u64 in *. lia.
Qed.

Lemma act_in_range c rate action st : congestion_config_ok (config_ c) → is_nan rate = false →
  rate_in_range (config_ c) (rate_ (act c rate action st)).
Proof. intros []. intros Hr. by apply fclamp_range. Qed.

Lemma brutal_in_range c : congestion_config_ok (config_ c) → flt fzero (brutal_rate_bytes (config_ c)) = true →
  is_nan (loss_fraction_ c) = false → rate_in_range (config_ c) (rate_ (brutal c)).
Proof.
  intros Hc Hb Hl. apply act_in_range; [done|]. apply fdiv_number; [apply flt_order in Hb; tauto|].
  destruct (fclamp_range (fsub (of_int 1) (loss_fraction_ c)) (lit 2 10) (of_int 1)) as [H1 H2].
  { apply fsub_number; [by vm_compute|done]. }
  { by vm_compute. }
  eapply between_finite; [| |exact H1|exact H2]; by vm_compute.
Qed.

Lemma react_in_range c : congestion_config_ok (config_ c) → is_finite (rate_ c) = true →
  rate_in_range (config_ c) (rate_ (react c)).
Proof.
  intros Hc Hr. pose proof Hc as []. unfold react. repeat case_match; apply act_in_range; try done;
    try (by apply fmul_number); [| |by destruct (rate_ c)].
  - unfold fmin. case_match eqn:E; [apply flt_order in E; tauto|by apply fmul_number].
  - unfold fmin. case_match; by apply fmul_number.
Qed.

Lemma in_range_finite config rate : congestion_config_ok config → rate_in_range config rate → is_finite rate = true.
Proof. intros [] [H1 H2]. by eapply between_finite. Qed.

Lemma observe_in_range c s now : congestion_config_ok (config_ c) → is_finite (rate_ c) = true → delivery_ok s →
  config_ (observe c s now) = config_ c ∧ rate_in_range (config_ c) (rate_ (observe c s now)).
Proof.
  intros Hc Hr Hs. unfold observe. set (c1 := measure_delivery _ _).
  assert (config_ c1 = config_ c ∧ rate_ c1 = rate_ c) as [E1 E2].
  { subst c1. unfold update_rtt. cbn. by repeat case_match. }
  rewrite E1. split.
  { case_match; [done|]. unfold react. by repeat case_match. }
  rewrite <- E1 in Hc |- *. case_match; [|apply react_in_range; by rewrite ?E2].
  apply brutal_in_range; [done..|]. by apply loss_number.
Qed.

(** The window holds the recent positive samples, in order of time. *)

Abbreviation history := (list (DeliverySample * Instant)).

Definition controller_after (config : CongestionConfig) (rate : f64) (h : history) : CongestionController :=
  fold_left (λ c x, observe c x.1 x.2) h (new_controller config rate).

(** The samples with a round trip time. *)
Definition measured (h : history) : list RttSample :=
  omap (λ x, if rtt x.1 <=? 0 then None else Some (mkRttSample (rtt x.1) x.2)) h.

(** Those of the last [window] before the latest one. *)
Definition recent (window : Duration) (l : list RttSample) : list RttSample :=
  match last l with
  | None => []
  | Some newest => filter (λ e, at_ newest - at_ e ≤ window) l
  end.

Definition chronological (l : list RttSample) : Prop := StronglySorted (λ a b, at_ a ≤ at_ b) l.

Lemma chronological_filter (P : RttSample → Prop) `{∀ x, Decision (P x)} l : chronological l → chronological (filter P l).
Proof.
  induction 1 as [|e l Hl IH He]; [constructor|]. rewrite filter_cons. case_decide; [|done].
  constructor; [done|]. rewrite Forall_forall in He |- *. intros b [_ Hb]%list_elem_of_filter. auto.
Qed.

Lemma drop_stale_filter window now l : chronological l →
  drop_stale window now l = filter (λ e, now - at_ e ≤ window) l.
Proof.
  induction 1 as [|e l Hl IH He]; [done|]. cbn [drop_stale]. rewrite filter_cons.
  destruct (Z.ltb_spec window (now - at_ e)) as [Hlt|Hge].
  - rewrite decide_False by lia. auto.
  - rewrite decide_True by lia. f_equal. symmetry. apply filter_all. intros b Hb.
    rewrite Forall_forall in He. specialize (He b Hb). lia.
Qed.

Lemma recent_snoc window l e : 0 ≤ window → chronological (l ++ [e]) →
  drop_stale window (at_ e) (recent window l ++ [e]) = recent window (l ++ [e]).
Proof.
  intros Hw Hc. unfold recent at 2. rewrite last_snoc.
  assert (Hbefore : ∀ b, b ∈ l → at_ b ≤ at_ e).
  { intros b Hb. apply (StronglySorted_app_1_elem_of _ _ _ b e Hc Hb). by left. }
  rewrite drop_stale_filter.
  - rewrite !filter_app. f_equal. unfold recent. destruct (last l) as [newest|] eqn:El; [|by apply last_None in El as ->].
    rewrite list_filter_filter. apply filter_ext_in. intros b _.
    apply last_Some_elem_of in El. specialize (Hbefore _ El). lia.
  - apply StronglySorted_app_2; [| |repeat constructor].
    + intros a b Ha ->%list_elem_of_singleton. apply Hbefore. unfold recent in Ha. destruct (last l); [|by apply elem_of_nil in Ha].
      by apply list_elem_of_filter in Ha as [_ ?].
    + unfold recent. destruct (last l); [|constructor]. apply chronological_filter. by apply StronglySorted_app_1_l in Hc.
Qed.

Lemma minimum_of_spec l : ∀ start,
  minimum_of start l ≤ start ∧ (minimum_of start l = start ∨ minimum_of start l ∈ sample_rtt <$> l) ∧
  ∀ e, e ∈ l → minimum_of start l ≤ sample_rtt e.
Proof.
  induction l as [|e l IH]; intros start; cbn; [split; [lia|]; split; [by left|by intros ? ?%elem_of_nil]|].
  destruct (IH (start `min` sample_rtt e)) as (H1 & H2 & H3). unfold minimum_of in *. split; [lia|]. split.
  - destruct H2 as [->|H2]; [|right; by right]. destruct (Z.min_spec start (sample_rtt e)) as [[_ ->]|[_ ->]]; [by left|right; by left].
  - intros b [->|Hb]%elem_of_cons; [lia|auto].
Qed.

(** [m] is the least round trip time of [l]. *)
Definition is_minimum (m : Duration) (l : list RttSample) : Prop :=
  m ∈ sample_rtt <$> l ∧ ∀ e, e ∈ l → m ≤ sample_rtt e.

Lemma observe_window c s now :
  minimum_window_ (observe c s now) = minimum_window_ (update_rtt c (rtt s) now) ∧
  minimum_rtt_ (observe c s now) = minimum_rtt_ (update_rtt c (rtt s) now).
Proof.
  unfold observe. case_match; [|unfold react; repeat case_match]; cbn; unfold update_rtt; cbn; by repeat case_match.
Qed.

(** Times of the history. *)
Definition in_order (h : history) : Prop := StronglySorted Z.le (snd <$> h).

Lemma measured_snoc h x : measured (h ++ [x]) =
  measured h ++ (if rtt x.1 <=? 0 then [] else [mkRttSample (rtt x.1) x.2]).
Proof. unfold measured. rewrite omap_app. f_equal. cbn. by destruct (rtt x.1 <=? 0). Qed.

Lemma measured_at h e : e ∈ measured h → at_ e ∈ h.*2.
Proof.
  unfold measured. intros ([s now] & Hin & He)%list_elem_of_omap. cbn in He. case_match; simplify_eq.
  apply list_elem_of_fmap. by exists (s, now).
Qed.

Lemma measured_chronological h : in_order h → chronological (measured h).
Proof.
  induction h as [|x h IH] using rev_ind; [constructor|]. unfold in_order. rewrite fmap_app, measured_snoc.
  intros (Hx & Hh & _)%StronglySorted_app. case_match; [rewrite app_nil_r; by apply IH|]. apply StronglySorted_app_2; [|by apply IH|repeat constructor].
  intros a b Ha ->%list_elem_of_singleton. apply Hx; [by apply measured_at|by left].
Qed.

Lemma window_is_recent config rate h : 0 ≤ minimum_rtt_window config → in_order h →
  let c := controller_after config rate h in
  config_ c = config ∧ minimum_window_ c = recent (minimum_rtt_window config) (measured h) ∧
  (measured h ≠ [] → is_minimum (minimum_rtt_ c) (recent (minimum_rtt_window config) (measured h))).
Proof.
  intros Hw. cbn zeta. induction h as [|[s now] h IH] using rev_ind; intros Ho; [done|].
  pose proof (measured_chronological _ Ho) as Hc. unfold in_order in Ho. rewrite fmap_app in Ho.
  apply StronglySorted_app_1_l in Ho. destruct (IH Ho) as (E0 & E1 & E2).
  unfold controller_after in *. rewrite fold_left_app. cbn [fold_left fst snd]. set (c := fold_left _ h _) in *.
  destruct (observe_window c s now) as [-> ->]. rewrite measured_snoc in Hc |- *. cbn [fst snd] in *.
  split; [unfold observe; cbn; unfold update_rtt, react; by repeat (case_match; cbn)|].
  unfold update_rtt. destruct (rtt s <=? 0); [by rewrite app_nil_r|].
  set (e := mkRttSample (rtt s) now) in *.
  assert (drop_stale (minimum_rtt_window config) now (minimum_window_ c ++ [e]) =
    recent (minimum_rtt_window config) (measured h ++ [e])) as Ew by (rewrite E1; by apply (recent_snoc _ _ e)).
  rewrite E0, Ew. case_match. cbn. split; [done|]. intros _.
  assert (e ∈ recent (minimum_rtt_window config) (measured h ++ [e])) as He.
  { unfold recent. rewrite last_snoc. apply list_elem_of_filter. split; [lia|]. set_solver. }
  destruct (recent _ (measured h ++ [e])) as [|f l]; [by apply elem_of_nil in He|].
  destruct (minimum_of_spec (f :: l) (sample_rtt f)) as (_ & H2 & H3). split; [|done].
  destruct H2 as [->|H2]; [by left|done].
Qed.

Lemma controller_after_snoc config rate h s now :
  controller_after config rate (h ++ [(s, now)]) = observe (controller_after config rate h) s now.
Proof. unfold controller_after. by rewrite fold_left_app. Qed.

Lemma after_finite config rate h : congestion_config_ok config → is_finite rate = true →
  Forall (λ x, delivery_ok x.1) h →
  config_ (controller_after config rate h) = config ∧ is_finite (rate_ (controller_after config rate h)) = true.
Proof.
  intros Hcfg Hr. induction h as [|[s now] h IH] using rev_ind; [done|]. intros [Hd Hx]%Forall_app.
  rewrite Forall_singleton in Hx. destruct (IH Hd) as [E Hf]. rewrite controller_after_snoc.
  destruct (observe_in_range (controller_after config rate h) s now) as [E1 E2]; [by rewrite E|exact Hf|exact Hx|].
  rewrite E in E1, E2. split; [exact E1|by apply (in_range_finite config)].
Qed.

Lemma after_in_range config rate h s now : congestion_config_ok config → is_finite rate = true →
  Forall (λ x, delivery_ok x.1) h → delivery_ok s →
  rate_in_range config (rate_ (controller_after config rate (h ++ [(s, now)]))).
Proof.
  intros Hcfg Hr Hh Hs. destruct (after_finite config rate h Hcfg Hr Hh) as [E Hf]. rewrite controller_after_snoc.
  destruct (observe_in_range (controller_after config rate h) s now) as [_ E2]; [by rewrite E|exact Hf|exact Hs|].
  by rewrite E in E2.
Qed.

(** Congestion control.  With a configuration whose bounds are positive,
    finite and in order and whose factors are numbers, the rate after any
    history of samples is a number between the configured minimum and maximum,
    whatever was delivered or lost and whether the fixed-rate mode is on; and
    the base round trip time is the least of the measured ones within the
    configured window before the latest. *)
Lemma congestion_rate_bounded config rate h s now :
  congestion_config_ok config → is_finite rate = true → Forall (λ x, delivery_ok x.1) (h ++ [(s, now)]) →
  in_order (h ++ [(s, now)]) →
  let c := controller_after config rate (h ++ [(s, now)]) in
  rate_in_range config (rate_ c) ∧
  (measured (h ++ [(s, now)]) ≠ [] →
     is_minimum (minimum_rtt_ c) (recent (minimum_rtt_window config) (measured (h ++ [(s, now)])))).
Proof.
  intros Hcfg Hr Hs Ho. cbn zeta. split; [|by apply window_is_recent; [apply Hcfg|]].
  apply Forall_app in Hs as [Hs Hx]. rewrite Forall_singleton in Hx. by apply after_in_range.
Qed.

Definition sample_delivery : DeliverySample := mkDelivery (milliseconds 40) 100000 1000 (milliseconds 100).

