(* ===== verification/FecBytes.v ===== *)
(** What the decoder hands on is made of bytes: whatever symbols arrive, the
    packets it recovers consist of bytes, as their type in the code says. *)

From S2P Require Import Prelude Gf256 Fec FecEncoder FecDecoder FecReference.

Definition rows_bytes (rows : list (list Z)) : Prop := Forall bytes_ok rows.

Lemma row_bytes rows i : rows_bytes rows → bytes_ok (rows !!! i).
Proof.
  intros Hr. rewrite list_lookup_total_alt. destruct (rows !! i) as [row|] eqn:E; [|constructor].
  by apply (Forall_lookup_1 _ _ _ _ Hr E).
Qed.

Lemma entry_byte row i : bytes_ok row → is_u8 (row !!! i).
Proof.
  intros Hr. rewrite list_lookup_total_alt. destruct (row !! i) as [x|] eqn:E; [|by vm_compute].
  by apply (Forall_lookup_1 _ _ _ _ Hr E).
Qed.

Lemma rows_insert rows i row : rows_bytes rows → bytes_ok row → rows_bytes (<[i := row]> rows).
Proof. apply Forall_insert. Qed.

Lemma rows_imap (f : nat → list Z → list Z) rows : rows_bytes rows →
  (∀ i row, bytes_ok row → bytes_ok (f i row)) → rows_bytes (imap f rows).
Proof.
  intros Hr. revert f. induction Hr as [|row rows Hrow Hrows IH]; intros f Hf; [constructor|].
  cbn. constructor; [by apply Hf|]. apply IH. intros i row' Hrow'. by apply Hf.
Qed.

Lemma multiply_add_bytes b acc src c : bytes_ok acc → bytes_ok src → is_u8 c → bytes_ok (multiply_add b acc src c).
Proof.
  intros Ha Hs Hc. rewrite multiply_add_spec by done. apply xor_map_bytes; [done..|].
  intros x Hx. by apply multiply_byte.
Qed.

Lemma scale_bytes row c : bytes_ok row → is_u8 c → bytes_ok (scale row c).
Proof.
  intros Hr Hc. unfold scale. apply Forall_fmap, (Forall_impl _ _ _ Hr). intros x Hx. cbn.
  by apply (multiply_byte c x).
Qed.

Lemma swap_bytes i j rows : rows_bytes rows → rows_bytes (swap i j rows).
Proof. intros Hr. apply rows_insert; [apply rows_insert; [done|]|]; by apply row_bytes. Qed.

Lemma eliminate_bytes count k prow row : is_u8 k → bytes_ok prow → bytes_ok row → bytes_ok (eliminate_row count k prow row).
Proof.
  intros Hk Hp Hr. unfold eliminate_row, bytes_ok. apply Forall_lookup_2. intros i x.
  rewrite list_lookup_imap. destruct (row !! i) as [v|] eqn:E; [|done]. cbn. intros [= <-].
  pose proof (Forall_lookup_1 _ _ _ _ Hr E) as Hv. case_decide; [|done]. apply lxor_bound; [lia|done|].
  apply multiply_byte; [done|by apply entry_byte].
Qed.

Lemma reduce_column_bytes b count column m s m' s' : rows_bytes m → rows_bytes s →
  reduce_column b count column m s = Some (m', s') → rows_bytes m' ∧ rows_bytes s'.
Proof.
  intros Hm Hs. unfold reduce_column. case_decide; [done|].
  set (pivot := pivot_of _ _ _ _ _). pose proof (swap_bytes pivot column m Hm) as Hm1.
  pose proof (swap_bytes pivot column s Hs) as Hs1. set (m1 := swap pivot column m) in *.
  set (s1 := swap pivot column s) in *. intros [= <- <-].
  assert (is_u8 (inverse (m1 !!! column !!! column))) as Hf by (by apply inverse_byte, entry_byte, row_bytes).
  assert (rows_bytes (<[column := map (λ v, multiply v (inverse (m1 !!! column !!! column))) (m1 !!! column)]> m1)) as Hm2.
  { apply rows_insert; [done|]. apply Forall_fmap, (Forall_impl _ _ _ (row_bytes _ column Hm1)).
    intros x Hx. by apply multiply_byte. }
  assert (rows_bytes (<[column := scale (s1 !!! column) (inverse (m1 !!! column !!! column))]> s1)) as Hs2
    by (apply rows_insert; [done|]; by apply scale_bytes; [apply row_bytes|]).
  split; apply rows_imap; try done; intros i row Hrow; case_match; try done.
  - apply eliminate_bytes; [by apply entry_byte, row_bytes|by apply row_bytes|done].
  - apply multiply_add_bytes; [done|by apply row_bytes|by apply entry_byte, row_bytes].
Qed.

Lemma reduce_columns_bytes b count n : ∀ column m s m' s', rows_bytes m → rows_bytes s →
  reduce_columns n b count column m s = Some (m', s') → rows_bytes s'.
Proof.
  induction n as [|n IH]; intros column m s m' s' Hm Hs; cbn [reduce_columns]; [by intros [= _ <-]|].
  intros ([m1 s1] & E1 & E2)%bind_Some. destruct (reduce_column_bytes _ _ _ _ _ _ _ Hm Hs E1) as [H1 H2]. exact (IH _ _ _ _ _ H1 H2 E2).
Qed.

Lemma syndrome_bytes b row data n : ∀ index acc, rows_bytes data → bytes_ok acc →
  bytes_ok (subtract_known n b row index data acc).
Proof.
  induction n as [|n IH]; intros index acc Hd Ha; cbn [subtract_known]; [done|]. apply IH; [done|].
  case_match; [done|]. apply multiply_add_bytes; [done|by apply row_bytes|apply cauchy_byte].
Qed.

Definition block_bytes (blk : Block) : Prop := rows_bytes (b_data blk) ∧ rows_bytes (b_parity blk).

Lemma solve_bytes_of b blk syndrome : block_bytes blk → solution b blk = Some syndrome → rows_bytes syndrome.
Proof.
  intros [Hd Hp]. unfold solution. case_decide; [done|]. case_match; [|done].
  intros ([m s] & E & [= <-])%bind_Some. eapply reduce_columns_bytes; [| |exact E].
  - unfold initial_matrix. apply Forall_fmap, Forall_forall. intros row _. cbn. apply bytes_ok_app. split.
    + apply Forall_fmap, Forall_forall. intros i _. apply cauchy_byte.
    + by apply Forall_replicate.
  - unfold initial_syndrome. apply Forall_fmap, Forall_forall. intros row _. cbn. by apply syndrome_bytes; [|apply row_bytes].
Qed.

Lemma packets_bytes symbols : rows_bytes symbols → rows_bytes (packets_of symbols).
Proof.
  intros Hs. apply Forall_forall. intros p (s & Hin & E)%list_elem_of_omap.
  unfold rows_bytes in Hs. rewrite Forall_forall in Hs. specialize (Hs s Hin). destruct s as [|hi [|lo rest]]; try done. cbn in E.
  destruct (_ || _); [done|]. injection E as <-. apply bytes_ok_take.
  apply Forall_cons in Hs as [_ Hs]. by apply Forall_cons in Hs as [_ Hs].
Qed.

Definition decoder_bytes (d : FecDecoder) : Prop := Forall block_bytes (blocks_ d).

Lemma symbol_of_bytes p : bytes_ok p → bytes_ok (symbol_of p).
Proof. intros Hp. apply bytes_ok_app. split; [repeat constructor; apply u8_range|done]. Qed.

Lemma store_bytes blk h p blk' go : block_bytes blk → bytes_ok p → store blk h p = Ok (blk', go) → block_bytes blk'.
Proof.
  intros [Hd Hpar] Hp. unfold store. destruct (parity h).
  - destruct (shrink blk (Z.to_nat (block_size h))) as [blk1|e|] eqn:Eb; [|done..]. cbn [rbind].
    assert (block_bytes blk1) as [Hd' Hp'].
    { unfold shrink in Eb. case_decide; [|by injection Eb as <-]. destruct (count_lost _ _ _ _); [|done..].
      injection Eb as <-. split; [by apply Forall_take|done]. }
    destruct (b_parity _ !! _); [|done]. destruct (is_empty _); intros [= <- <-]; [|done].
    split; [done|by apply rows_insert].
  - case_decide; [by intros [= <- <-]|]. destruct (b_data _ !! _); [|done].
    destruct (is_empty _); intros [= <- <-]; [|done]. split; [|done]. by apply rows_insert; [|apply symbol_of_bytes].
Qed.

Lemma finish_bytes d id : decoder_bytes d → decoder_bytes (finish d id).
Proof. intros Hd. unfold finish, decoder_bytes in *. cbn. rewrite Forall_forall in Hd |- *.
  intros blk [_ Hin]%list_elem_of_filter. auto. Qed.

(** Every packet the decoder recovers is made of bytes. *)
Lemma receive_bytes b d h p now d' out : decoder_bytes d → bytes_ok p →
  receive b d h p now = Ok (d', out) → decoder_bytes d' ∧ rows_bytes out.
Proof.
  intros Hd Hp. unfold receive. set (d0 := mkDecoder (blocks_ d) _ _).
  assert (decoder_bytes d0) as Hd0 by done. clearbody d0.
  case_match; [intros [= <- <-]; split; [done|constructor]|].
  destruct (find_or_create d0 h now) as [d1 at_] eqn:Ef.
  assert (decoder_bytes d1) as Hd1.
  { unfold find_or_create in Ef. destruct (find_block _ _ _); simplify_eq; [done|]. unfold decoder_bytes. cbn.
    apply Forall_app. split; [case_match; [by apply Forall_tail|done]|]. apply Forall_singleton.
    split; cbn; apply Forall_replicate; constructor. }
  destruct (blocks_ d1 !! at_) as [blk|] eqn:Eb; [|done].
  case_match; [intros [= <- <-]; split; [done|constructor]|].
  pose proof (Forall_lookup_1 _ _ _ _ Hd1 Eb) as Hblk.
  destruct (store blk h p) as [[blk' go]|e|] eqn:Es; [|done..]. cbn [rbind].
  pose proof (store_bytes _ _ _ _ _ Hblk Hp Es) as Hblk'.
  assert (decoder_bytes (with_blocks d1 (<[at_ := blk']> (blocks_ d1)))) as Hd2 by (by apply Forall_insert).
  case_match; [intros [= <- <-]; split; [done|constructor]|].
  case_decide; [intros [= <- <-]; split; [by apply finish_bytes|constructor]|].
  intros [E _]%try_recover_inv. unfold recovery in E. destruct (solution b blk') as [syndrome|] eqn:Esol; injection E as -> ->;
    [|split; [done|constructor]].
  split; [by apply finish_bytes|]. by eapply packets_bytes, solve_bytes_of.
Qed.

Lemma expire_bytes d now : decoder_bytes d → decoder_bytes (expire d now).1.
Proof.
  intros Hd. unfold expire, decoder_bytes in *. revert Hd. generalize 0%nat (finished_ d).
  induction (blocks_ d) as [|blk blocks IH]; intros n f Hd; [done|]. cbn [expire_loop].
  destruct (_ <=? _); [|done]. apply IH. by apply Forall_cons in Hd as [_ ?].
Qed.
