(* ===== verification/Worker.v ===== *)
(** The data path: [src/worker.cpp], which composes the other components.

    A worker moves frames from the tunnel device to the carrier and back.  The
    sessions are the shared objects of [SessionTable]'s heap; jobs hold
    pointers to them.  The tunnel device, the carrier, the status of the cipher
    libraries and the functions the runtime registers are outside: the class
    [Surroundings] answers each call as a function of everything that happened
    so far ([trace_]), and the class [Handlers] holds the registered functions,
    which may change any part of the worker they can reach.  A call of
    [steady_clock::now()] is the argument [now].

    A function that returns a [DropReason] is a computation that fails with the
    reason, [DropReason::none] being success; undefined behaviour is [Ub].
    Vectors that are cleared before each use ([transmit_batch_], [fec_batch_],
    [parity_slots_], [inbound_]) are local lists.  The tasks of [runner_] write
    to slots of their own and share nothing but the per-thread cipher contexts,
    which never show in the result, so they run in order. *)

From S2P Require Import Prelude Packet Double Gf256 Fec FecEncoder FecDecoder Nonce Text Address Routing.
From S2P Require Import Qos Crypto ReplayWindow Session SessionTable Offload Coalescer Congestion.

(** ** Traffic profiles: [include/norr/traffic_profile.hpp] *)

Inductive TrafficProfile := standard | quic | dns.
#[export] Instance TrafficProfile_eq_dec : EqDecision TrafficProfile.
Proof. solve_decision. Defined.

Definition profile_buckets (profile : TrafficProfile) : list Z :=
  match profile with
  | standard => []
  | quic => [64; 128; 256; 512; 1100]
  | dns => [64; 128; 256; 512]
  end.

Fixpoint first_bucket (aligned : Z) (buckets : list Z) : Z :=
  match buckets with
  | [] => aligned
  | bucket :: buckets => if aligned <=? bucket then bucket else first_bucket aligned buckets
  end.

Definition profile_padded_length (profile : TrafficProfile) (length : Z) : Z :=
  first_bucket (padded_length length) (profile_buckets profile).

Definition kChaffInterval : Duration := milliseconds 250.
Definition kDefaultTunnelMtu : Z := 1420.
Definition kEchoRequest : Z := 1.
Definition kEchoReply : Z := 2.
Definition kLossReport : Z := 3.
Definition kLossReportSize : Z := 5.
Definition kFrameBufferSize : Z := 9216.
Definition kDefaultBatchSize : nat := 256.
Definition kCoalescedDatagramSize : Z := 65536.
Definition kMaximumFecSources : nat := 256.

#[export] Instance FecMode_eq_dec : EqDecision FecMode.
Proof. solve_decision. Defined.

(** ** Data *)

Inductive DropReason :=
| malformed_inner_packet | malformed_outer_packet | no_route | no_session | source_not_authorized | policy_denied
| routing_loop | hop_limit | authentication_failed | replayed | too_old | counter_exhausted | no_endpoint
| send_failed | tun_write_failed | oversized.
#[export] Instance DropReason_eq_dec : EqDecision DropReason.
Proof. solve_decision. Defined.

(** Its value; [DropReason::none] is 0. *)
Definition drop_index (r : DropReason) : nat :=
  match r with
  | malformed_inner_packet => 1 | malformed_outer_packet => 2 | no_route => 3 | no_session => 4
  | source_not_authorized => 5 | policy_denied => 6 | routing_loop => 7 | hop_limit => 8
  | authentication_failed => 9 | replayed => 10 | too_old => 11 | counter_exhausted => 12 | no_endpoint => 13
  | send_failed => 14 | tun_write_failed => 15 | oversized => 16
  end.

Record WorkerStats := mkWorkerStats {
  tun_to_udp : Z;
  udp_to_tun : Z;
  keepalives_received : Z;
  drops : Z;
  drop_reasons : list Z;
}.
Definition no_worker_stats : WorkerStats := mkWorkerStats 0 0 0 0 (replicate 17 0).

Definition record_drop (st : WorkerStats) (reason : DropReason) : WorkerStats :=
  mkWorkerStats (tun_to_udp st) (udp_to_tun st) (keepalives_received st) (u64 (drops st + 1))
    (alter (λ n, u64 (n + 1)) (drop_index reason) (drop_reasons st)).
Definition drops_for (st : WorkerStats) (reason : DropReason) : Z := drop_reasons st !!! drop_index reason.

Record OutboundDatagram := mkOutbound {
  out_destination : Endpoint;
  out_payload : list Z;
  out_flow : Z;
  spoofable : bool;
  urgent : bool;
}.
Record InboundDatagram := mkInbound { in_source : Endpoint; in_payload : list Z }.

Record TransmitJob := mkTransmit {
  tx_session : nat;
  tx_counter : Z;
  tx_flow : Z;
  tx_length : Z;
  tx_destination : Endpoint;
  tx_sealed : Z;
  tx_fec : option nat;
  tx_ok : bool;
}.

Record ReceiveJob := mkReceive {
  rx_session : nat;
  rx_view : PacketView;
  rx_datagram : list Z;
  rx_source : Endpoint;
  rx_length : Z;
  rx_error : SessionError;
  rx_ok : bool;
}.

Record FecPeer := mkFecPeer {
  fp_peer : Z;
  fp_destination : Endpoint;
  fp_encoder : FecEncoder;
  fp_last_symbol : Instant;
  fp_controller : AdaptiveFec;
  fp_packets : Z;
  packets_at_report : Z;
  send_failures_at_report : Z;
  sent_at_report : Z;
  last_report : Instant;
}.

Record FecSource := mkFecSource { fs_source : Endpoint; fs_decoder : FecDecoder; last_seen : Instant }.

(** What the surroundings saw, in order, and the packets that were opened. *)
Inductive Event :=
| Sent (batch : list OutboundDatagram) (accepted : option nat)
| Received (batch : option (list InboundDatagram))
| ReadFrame (frame : option (list Z))
| Wrote (frame : list Z) (done : bool)
| Gathered (frame : list Z)
| WroteFrame (frame : Frame) (done : bool)
| Opened (pointer : nat) (counter : Z) (plaintext : list Z).

(** ** The worker *)

Record Links := mkLinks {
  heap_ : Heap;
  table_ : SessionTable;
  contexts_ : AeadContexts;
  trace_ : list Event;
}.

Record Buffers := mkBuffers {
  encrypt_buffer_ : list Z;
  pad_buffer_ : list Z;
  decrypt_buffer_ : list Z;
  fec_buffer_ : list Z;
  segment_scratch_ : list Z;
  transmit_slots_ : list (list Z);
  transmit_plain_ : list (list Z);
  receive_plain_ : list (list Z);
}.

Record Counters := mkCounters {
  stats_ : WorkerStats;
  bytes_sent_ : Z;
  bytes_dropped_ : Z;
  last_outbound_ : Instant;
  chaff_sent_ : Z;
}.

Record Protection := mkProtection {
  fec_mode_ : FecMode;
  fec_peers_ : list FecPeer;
  fec_sources_ : list FecSource;
}.

Record Shaping := mkShaping {
  scheduler_ : Scheduler;
  pacer_ : Pacer;
  queueing_enabled_ : bool;
}.

Record Worker := mkWorker {
  links : Links;
  buffers : Buffers;
  counters : Counters;
  fec : Protection;
  shaping : Shaping;
  routes_ : RoutingTable;
  profile_ : TrafficProfile;
  mtu_ : Z;
  receive_size_ : Z;
  coalescer_ : TcpCoalescer;
  transmit_jobs_ : list TransmitJob;
  receive_jobs_ : list ReceiveJob;
}.

Definition new_worker (links : Links) (routes : RoutingTable) : Worker :=
  let encrypt := Z.to_nat (kFrameBufferSize + kPacketHeaderSize + kAeadTagSize + kPaddingAlignment) in
  let pad := Z.to_nat (kFrameBufferSize + kPaddingAlignment) in
  let frame := Z.to_nat kFrameBufferSize in
  mkWorker links
    (mkBuffers (replicate encrypt 0) (replicate pad 0) (replicate frame 0) [] []
       (replicate kDefaultBatchSize (replicate (Z.to_nat kFecHeaderSize + encrypt) 0))
       (replicate kDefaultBatchSize (replicate pad 0)) (replicate kDefaultBatchSize (replicate frame 0)))
    (mkCounters no_worker_stats 0 0 0 0) (mkProtection off [] []) (mkShaping (new_scheduler default_limits) no_pacer false)
    routes standard kDefaultTunnelMtu kCoalescedDatagramSize new_coalescer [] [].

Definition on_links (f : Links → Links) (w : Worker) : Worker :=
  mkWorker (f (links w)) (buffers w) (counters w) (fec w) (shaping w) (routes_ w) (profile_ w) (mtu_ w)
    (receive_size_ w) (coalescer_ w) (transmit_jobs_ w) (receive_jobs_ w).
Definition on_buffers (f : Buffers → Buffers) (w : Worker) : Worker :=
  mkWorker (links w) (f (buffers w)) (counters w) (fec w) (shaping w) (routes_ w) (profile_ w) (mtu_ w)
    (receive_size_ w) (coalescer_ w) (transmit_jobs_ w) (receive_jobs_ w).
Definition on_counters (f : Counters → Counters) (w : Worker) : Worker :=
  mkWorker (links w) (buffers w) (f (counters w)) (fec w) (shaping w) (routes_ w) (profile_ w) (mtu_ w)
    (receive_size_ w) (coalescer_ w) (transmit_jobs_ w) (receive_jobs_ w).
Definition on_fec (f : Protection → Protection) (w : Worker) : Worker :=
  mkWorker (links w) (buffers w) (counters w) (f (fec w)) (shaping w) (routes_ w) (profile_ w) (mtu_ w)
    (receive_size_ w) (coalescer_ w) (transmit_jobs_ w) (receive_jobs_ w).
Definition with_shaping (s : Shaping) (w : Worker) : Worker :=
  mkWorker (links w) (buffers w) (counters w) (fec w) s (routes_ w) (profile_ w) (mtu_ w)
    (receive_size_ w) (coalescer_ w) (transmit_jobs_ w) (receive_jobs_ w).
Definition with_coalescer (c : TcpCoalescer) (w : Worker) : Worker :=
  mkWorker (links w) (buffers w) (counters w) (fec w) (shaping w) (routes_ w) (profile_ w) (mtu_ w)
    (receive_size_ w) c (transmit_jobs_ w) (receive_jobs_ w).
Definition with_transmit_jobs (jobs : list TransmitJob) (w : Worker) : Worker :=
  mkWorker (links w) (buffers w) (counters w) (fec w) (shaping w) (routes_ w) (profile_ w) (mtu_ w)
    (receive_size_ w) (coalescer_ w) jobs (receive_jobs_ w).
Definition with_receive_jobs (jobs : list ReceiveJob) (w : Worker) : Worker :=
  mkWorker (links w) (buffers w) (counters w) (fec w) (shaping w) (routes_ w) (profile_ w) (mtu_ w)
    (receive_size_ w) (coalescer_ w) (transmit_jobs_ w) jobs.

Definition heap (w : Worker) : Heap := heap_ (links w).
Definition trace (w : Worker) : list Event := trace_ (links w).
Definition jobs (w : Worker) : list TransmitJob := transmit_jobs_ w.

Definition emits (e : Event) : Worker → Worker :=
  on_links (λ l, mkLinks (heap_ l) (table_ l) (contexts_ l) (trace_ l ++ [e])).
Definition with_session (pointer : nat) (s : Session) : Worker → Worker :=
  on_links (λ l, mkLinks (<[pointer := s]> (heap_ l)) (table_ l) (contexts_ l) (trace_ l)).
Definition with_contexts (c : AeadContexts) : Worker → Worker :=
  on_links (λ l, mkLinks (heap_ l) (table_ l) c (trace_ l)).
Definition with_table (t : SessionTable) : Worker → Worker :=
  on_links (λ l, mkLinks (heap_ l) t (contexts_ l) (trace_ l)).
Definition on_stats (f : WorkerStats → WorkerStats) : Worker → Worker :=
  on_counters (λ c, mkCounters (f (stats_ c)) (bytes_sent_ c) (bytes_dropped_ c) (last_outbound_ c) (chaff_sent_ c)).
Definition count_bytes_sent (n : Z) : Worker → Worker :=
  on_counters (λ c, mkCounters (stats_ c) (u64 (bytes_sent_ c + n)) (bytes_dropped_ c) (last_outbound_ c) (chaff_sent_ c)).
Definition count_bytes_dropped (n : Z) : Worker → Worker :=
  on_counters (λ c, mkCounters (stats_ c) (bytes_sent_ c) (u64 (bytes_dropped_ c + n)) (last_outbound_ c) (chaff_sent_ c)).
Definition with_last_outbound (now : Instant) : Worker → Worker :=
  on_counters (λ c, mkCounters (stats_ c) (bytes_sent_ c) (bytes_dropped_ c) now (chaff_sent_ c)).
Definition count_tun_to_udp (n : Z) : Worker → Worker :=
  on_stats (λ st, mkWorkerStats (u64 (tun_to_udp st + n)) (udp_to_tun st) (keepalives_received st) (drops st) (drop_reasons st)).
Definition count_udp_to_tun : Worker → Worker :=
  on_stats (λ st, mkWorkerStats (tun_to_udp st) (u64 (udp_to_tun st + 1)) (keepalives_received st) (drops st) (drop_reasons st)).
Definition count_keepalive : Worker → Worker :=
  on_stats (λ st, mkWorkerStats (tun_to_udp st) (udp_to_tun st) (u64 (keepalives_received st + 1)) (drops st) (drop_reasons st)).
Definition dropped_for (reason : DropReason) : Worker → Worker := on_stats (λ st, record_drop st reason).

(** ** The surroundings *)

Class Surroundings := {
  send_batch : list Event → list OutboundDatagram → option nat;
  receive_batch : list Event → nat → option (list InboundDatagram);
  offload_enabled : bool;
  read_frame : list Event → option (list Z);
  write_frame : list Event → list Z → bool;
  write_vectored : list Event → Frame → bool;
  cipher_status : list Event → nat → Status;
  visit : gmap Z nat → list nat;
  fec_backend : Backend;
  fec_pow : f64 → f64 → f64;
}.

(** A carrier takes at most what it is offered and hands over at most what was
    asked for; [for_each] visits every session once. *)
Class SurroundingsLaws `{Surroundings} : Prop := {
  send_batch_most t batch n : send_batch t batch = Some n → (n ≤ length batch)%nat;
  receive_batch_most t room batch : receive_batch t room = Some batch → (length batch ≤ room)%nat;
  receive_batch_bytes t room batch : receive_batch t room = Some batch → Forall (λ d, bytes_ok (in_payload d)) batch;
  visit_all sessions : visit sessions ≡ₚ (map_to_list sessions).*2;
}.

(** The functions the runtime registers; [None] is an empty [std::function]. *)
Class Handlers := {
  session_request_ : option (Z → Worker → Worker);
  echo_responder_ : option (Z → list Z → Worker → Worker);
  echo_reply_handler_ : option (Z → list Z → Worker → Worker);
  loss_report_handler_ : option (Z → f64 → f64 → Worker → Worker);
  ingress_filter_ : option (Endpoint → list Z → Worker → Worker * bool);
  provisional_opener_ : option (PacketView → list Z → Endpoint → Worker → Worker * option Z);
}.

(** A computation of the worker; [Fail reason] is [return reason]. *)
Abbreviation work := (effect Worker DropReason).

(** [stats_.record_drop(reason); return reason] *)
Definition drop_frame {A} (reason : DropReason) : work A := λ w, (dropped_for reason w, Fail reason).
Definition drop_when (bad : bool) (reason : DropReason) : work unit :=
  if bad then drop_frame reason else sret tt.
(** The value of the call, [None] for [DropReason::none]. *)
Definition verdict (m : work unit) : work (option DropReason) := λ w,
  match m w with
  | (w, Ok _) => (w, Ok None)
  | (w, Fail reason) => (w, Ok (Some reason))
  | (w, Ub) => (w, Ub)
  end.
Definition conclude (r : option DropReason) : work unit :=
  match r with None => sret tt | Some reason => lift (Fail reason) end.
(** Results of other components, whose errors are handled by the caller. *)
Definition settled {E A} (r : res E A) : work (option A) :=
  lift match r with Ok a => Ok (Some a) | Fail _ => Ok None | Ub => Ub end.
Definition sure {E A} (r : res E A) : work A :=
  lift match r with Ok a => Ok a | _ => Ub end.

Definition at_index {A} (l : list A) (i : nat) : work A :=
  lift match l !! i with Some a => Ok a | None => Ub end.
Definition session_at (pointer : nat) : work Session := bind w := state in at_index (heap w) pointer.

Fixpoint for_all {A} (l : list A) (f : nat → A → work unit) (index : nat) : work unit :=
  match l with
  | [] => sret tt
  | a :: l => bind _ := f index a in for_all l f (S index)
  end.

Section worker.
Context `{Aead} `{Surroundings} `{Handlers}.

(** ** Sending *)

Definition call_send (batch : list OutboundDatagram) : work (option nat) := λ w,
  let accepted := send_batch (trace w) batch in (emits (Sent batch accepted) w, Ok accepted).

Definition payload_bytes (batch : list OutboundDatagram) : Z :=
  foldr (λ d n, blen (out_payload d) + n) 0 batch.

(** The loop of [flush_transmit] and [send_all]: how much of [batch] the
    carrier took.  [tally] is what the caller counts per accepted datagram; an
    index past the batch is out of range. *)
Fixpoint send_loop (fuel : nat) (tally : nat → Worker → Worker) (batch : list OutboundDatagram) (offset : nat)
    : work nat :=
  match fuel with
  | O => sret offset
  | S fuel =>
      if (offset <? length batch)%nat then
        bind sent := call_send (drop offset batch) in
        match sent with
        | None | Some O => sret offset
        | Some sent =>
            if (length batch <? offset + sent)%nat then lift Ub else
            bind _ := modify (count_bytes_sent (payload_bytes (take sent (drop offset batch)))) in
            bind _ := modify (tally sent) in
            send_loop fuel tally batch (offset + sent)
        end
      else sret offset
  end.

Definition send_all (batch : list OutboundDatagram) : work nat :=
  bind offset := send_loop (S (length batch)) (λ _ w, w) batch 0 in
  bind _ := modify (count_bytes_dropped (payload_bytes (drop offset batch))) in
  sret offset.

Definition set_slot (index : nat) (bytes : list Z) : Worker → Worker :=
  on_buffers (λ b, mkBuffers (encrypt_buffer_ b) (pad_buffer_ b) (decrypt_buffer_ b) (fec_buffer_ b)
    (segment_scratch_ b) (<[index := bytes]> (transmit_slots_ b)) (transmit_plain_ b) (receive_plain_ b)).
Definition set_plain (index : nat) (bytes : list Z) : Worker → Worker :=
  on_buffers (λ b, mkBuffers (encrypt_buffer_ b) (pad_buffer_ b) (decrypt_buffer_ b) (fec_buffer_ b)
    (segment_scratch_ b) (transmit_slots_ b) (<[index := bytes]> (transmit_plain_ b)) (receive_plain_ b)).
Definition set_opened (index : nat) (bytes : list Z) : Worker → Worker :=
  on_buffers (λ b, mkBuffers (encrypt_buffer_ b) (pad_buffer_ b) (decrypt_buffer_ b) (fec_buffer_ b)
    (segment_scratch_ b) (transmit_slots_ b) (transmit_plain_ b) (<[index := bytes]> (receive_plain_ b))).
Definition set_job (index : nat) (job : TransmitJob) (w : Worker) : Worker :=
  with_transmit_jobs (<[index := job]> (transmit_jobs_ w)) w.
Definition set_received (index : nat) (job : ReceiveJob) (w : Worker) : Worker :=
  with_receive_jobs (<[index := job]> (receive_jobs_ w)) w.

(** The task of the runner: the packet of job [index] is sealed in its slot,
    behind the room for a symbol header. *)
Definition seal_job (index : nat) (job : TransmitJob) : work unit :=
  bind w := state in
  bind session := session_at (tx_session job) in
  bind plain := at_index (transmit_plain_ (buffers w)) index in
  bind slot := at_index (transmit_slots_ (buffers w)) index in
  bind text := sure (E:=unit) (span_first plain (Z.to_nat (tx_length job))) in
  bind out := sure (E:=unit) (subspan_from slot (Z.to_nat kFecHeaderSize)) in
  let '(c, sealed) := seal_reserved (cipher_status (trace w) index) (contexts_ (links w)) session
                        FrameType.data (tx_counter job) text out in
  bind _ := modify (with_contexts c) in
  let done sealed ok := mkTransmit (tx_session job) (tx_counter job) (tx_flow job) (tx_length job)
                          (tx_destination job) sealed (tx_fec job) ok in
  bind sealed := settled sealed in
  match sealed with
  | Some (out, n) =>
      bind _ := modify (set_slot index (take (Z.to_nat kFecHeaderSize) slot ++ out)) in
      modify (set_job index (done n true))
  | None => modify (set_job index (done 0 false))
  end.

Definition set_fec_peer (index : nat) (entry : FecPeer) : Worker → Worker :=
  on_fec (λ f, mkProtection (fec_mode_ f) (<[index := entry]> (fec_peers_ f)) (fec_sources_ f)).

(** [entry.destination = destination; entry.last_symbol = now] with a new encoder. *)
Definition note_symbol (entry : FecPeer) (destination : Endpoint) (encoder : FecEncoder) (now : Instant) : FecPeer :=
  mkFecPeer (fp_peer entry) destination encoder now (fp_controller entry) (fp_packets entry)
    (packets_at_report entry) (send_failures_at_report entry) (sent_at_report entry) (last_report entry).

(** The datagrams of job [index]: the packet, or the symbol that carries it and
    the parity it completes. *)
Definition stage_job (now : Instant) (index : nat) (job : TransmitJob) : work (list OutboundDatagram) :=
  if negb (tx_ok job) then (bind _ := modify (dropped_for oversized) in sret []) else
  bind w := state in
  bind slot := at_index (transmit_slots_ (buffers w)) index in
  bind sealed := sure (E:=unit) (subspan slot (Z.to_nat kFecHeaderSize) (Z.to_nat (tx_sealed job))) in
  let datagram payload := mkOutbound (tx_destination job) payload (tx_flow job) true false in
  match tx_fec job with
  | None => sret [datagram sealed]
  | Some peer =>
      bind entry := at_index (fec_peers_ (fec w)) peer in
      if negb (active (plan_ (fp_encoder entry))) then sret [datagram sealed] else
      bind written := sure (serialize_fec_header (next_header (fp_encoder entry) (tx_sealed job)) slot) in
      bind _ := modify (set_slot index written.1) in
      bind symbol := sure (E:=unit) (span_first written.1 (Z.to_nat (kFecHeaderSize + tx_sealed job))) in
      bind encoder := sure (FecEncoder.add fec_backend (fp_encoder entry) sealed) in
      bind _ := modify (set_fec_peer peer (note_symbol entry (tx_destination job) encoder now)) in
      sret (datagram symbol :: (datagram <$> emitted encoder))
  end.

Fixpoint stage_jobs (now : Instant) (js : list TransmitJob) (index : nat) : work (list OutboundDatagram) :=
  match js with
  | [] => sret []
  | job :: js =>
      bind here := stage_job now index job in
      bind rest := stage_jobs now js (S index) in
      sret (here ++ rest)
  end.

Definition flush_transmit (now : Instant) : work nat :=
  bind w := state in
  match transmit_jobs_ w with
  | [] => sret 0%nat
  | js =>
      bind _ := for_all js seal_job 0 in
      bind w := state in
      bind batch := stage_jobs now (transmit_jobs_ w) 0 in
      bind _ := modify (with_transmit_jobs []) in
      match batch with
      | [] => sret 0%nat
      | _ =>
          bind offset := send_loop (S (length batch)) (λ sent, count_tun_to_udp (Z.of_nat sent)) batch 0 in
          bind _ := for_all (drop offset batch)
                      (λ _ d, modify (λ w, dropped_for send_failed (count_bytes_dropped (blen (out_payload d)) w))) 0 in
          bind _ := modify (if (0 <? offset)%nat then with_last_outbound now else λ w, w) in
          sret offset
      end
  end.

(** ** Forward error correction per peer *)

Fixpoint find_fec_peer (peer : Z) (entries : list FecPeer) (index : nat) : option nat :=
  match entries with
  | [] => None
  | e :: entries => if fp_peer e =? peer then Some index else find_fec_peer peer entries (S index)
  end.

Definition new_fec_peer (peer : Z) (destination : Endpoint) (mode : FecMode) (now : Instant) : FecPeer :=
  mkFecPeer peer destination
    (new_encoder (plan_for_mode (match mode with automatic => off | _ => mode end))) 0 new_adaptive 0 0 0 0 now.

Definition fec_index (peer : Z) (destination : Endpoint) (now : Instant) : work nat :=
  bind w := state in
  match find_fec_peer peer (fec_peers_ (fec w)) 0 with
  | Some index => sret index
  | None =>
      bind _ := modify (on_fec (λ f, mkProtection (fec_mode_ f)
                  (fec_peers_ f ++ [new_fec_peer peer destination (fec_mode_ f) now]) (fec_sources_ f))) in
      sret (length (fec_peers_ (fec w)))
  end.

Definition peer_fec_plan (w : Worker) (peer : Z) : FecPlan :=
  match find_fec_peer peer (fec_peers_ (fec w)) 0 with
  | Some index => match fec_peers_ (fec w) !! index with
                  | Some entry => plan_ (fp_encoder entry)
                  | None => empty_plan
                  end
  | None => match fec_mode_ (fec w) with automatic => empty_plan | mode => plan_for_mode mode end
  end.

Definition send_parity (destination : Endpoint) (parity : list (list Z)) : work unit :=
  match parity with
  | [] => sret tt
  | _ => bind _ := send_all ((λ symbol, mkOutbound destination symbol 0 true false) <$> parity) in sret tt
  end.

Definition enable_fec (mode : FecMode) (w : Worker) : Worker :=
  on_buffers (λ b, mkBuffers (encrypt_buffer_ b) (pad_buffer_ b) (decrypt_buffer_ b)
      (replicate (Z.to_nat (kFrameBufferSize + kPacketHeaderSize + kAeadTagSize + kPaddingAlignment + kFecHeaderSize)) 0)
      (segment_scratch_ b) (transmit_slots_ b) (transmit_plain_ b) (receive_plain_ b))
    (on_fec (λ _, mkProtection mode [] []) w).

(** The last entry of the peer, as the loop without [break] finds it. *)
Fixpoint last_fec_peer (peer : Z) (entries : list FecPeer) (index : nat) (found : option nat) : option nat :=
  match entries with
  | [] => found
  | e :: entries => last_fec_peer peer entries (S index) (if fp_peer e =? peer then Some index else found)
  end.

(** The report of a peer's loss since the last one. *)
Definition loss_report_of (st : WorkerStats) (entry : FecPeer) (raw_loss residual_loss : f64) (rtt_inflated : bool)
    (now : Instant) : FecLossReport :=
  let elapsed := to_seconds (now - last_report entry) in
  let packets := u64 (fp_packets entry - packets_at_report entry) in
  let failures := u64 (drops_for st send_failed - send_failures_at_report entry) in
  let sent := u64 (tun_to_udp st - sent_at_report entry) in
  let local_loss := if u64 (sent + failures) =? 0 then fzero
                    else fdiv (of_int failures) (of_int (u64 (sent + failures))) in
  mkReport raw_loss residual_loss (if flt fzero elapsed then fdiv (of_int packets) elapsed else fzero)
    (rtt_inflated || (flt fzero raw_loss && fle (fmul raw_loss (lit 5 10)) local_loss)).

Definition note_peer_loss (peer : Z) (raw_loss residual_loss : f64) (rtt_inflated : bool) (now : Instant)
    : work (option FecPlan) :=
  bind w := state in
  if bool_decide (fec_mode_ (fec w) ≠ automatic) then sret None else
  match last_fec_peer peer (fec_peers_ (fec w)) 0 None with
  | None => sret None
  | Some index =>
      bind entry := at_index (fec_peers_ (fec w)) index in
      let st := stats_ (counters w) in
      let report := loss_report_of st entry raw_loss residual_loss rtt_inflated now in
      let '(controller, decision) := decide_plan fec_pow (fp_controller entry) (plan_ (fp_encoder entry)) report now in
      let noted encoder := mkFecPeer (fp_peer entry) (fp_destination entry) encoder (fp_last_symbol entry) controller
                             (fp_packets entry) (fp_packets entry) (drops_for st send_failed) (tun_to_udp st) now in
      bind _ := modify (set_fec_peer index (noted (fp_encoder entry))) in
      match decision with
      | None => sret None
      | Some plan =>
          bind flushed := sure (FecEncoder.flush fec_pow (fp_encoder entry)) in
          bind _ := send_parity (fp_destination entry) (emitted flushed) in
          bind _ := modify (set_fec_peer index (noted (resume_at (new_encoder plan) (next_block_ flushed)))) in
          sret (Some plan)
      end
  end.

(** ** From the tunnel *)

(** The switch over the routing decisions that refuse. *)
Definition refusal (d : ForwardDecision) : option DropReason :=
  match d with
  | Routing.no_route => Some no_route
  | Routing.source_not_authorized => Some source_not_authorized
  | Routing.routing_loop => Some routing_loop
  | hop_limit_exceeded => Some hop_limit
  | multicast_denied | unspecified_address | loopback_address => Some policy_denied
  | deliver_local | forward => None
  end.

Definition drop_if (reason : option DropReason) : work unit :=
  match reason with Some reason => drop_frame reason | None => sret tt end.

(** [std::copy(frame, buffer); std::fill(buffer from frame.size() to padded, 0)] *)
Definition pad_into (buffer frame : list Z) (padded : Z) : res unit (list Z) :=
  let* buffer := blit buffer 0 frame in
  blit buffer (length frame) (replicate (Z.to_nat padded - length frame) 0).

Definition count_fec_packet (index : nat) : work FecPeer :=
  bind w := state in
  bind e := at_index (fec_peers_ (fec w)) index in
  let e := mkFecPeer (fp_peer e) (fp_destination e) (fp_encoder e) (fp_last_symbol e) (fp_controller e)
             (u64 (fp_packets e + 1)) (packets_at_report e) (send_failures_at_report e) (sent_at_report e)
             (last_report e) in
  bind _ := modify (set_fec_peer index e) in
  sret e.

(** Which encoder protects a packet of the session, if any. *)
Definition choose_fec (session : Session) (destination : Endpoint) (now : Instant) : work (option nat) :=
  bind w := state in
  match fec_mode_ (fec w) with
  | off => sret None
  | _ =>
      bind index := fec_index (peer_ session) destination now in
      bind entry := count_fec_packet index in
      sret (if active (plan_ (fp_encoder entry)) then Some index else None)
  end.

(** [batch && !queueing_enabled_]: a job for the next flush. *)
Definition stage_frame (pointer : nat) (frame : list Z) (padded flow : Z) (protection : option nat) (now : Instant)
    : work unit :=
  bind w := state in
  bind _ := (if (length (transmit_plain_ (buffers w)) <=? length (transmit_jobs_ w))%nat
             then (bind _ := flush_transmit now in sret tt) else sret tt) in
  bind session := session_at pointer in
  let '(session, counter) := reserve_counter session in
  bind _ := modify (with_session pointer session) in
  bind counter := settled counter in
  match counter with
  | None => drop_frame counter_exhausted
  | Some counter =>
      match endpoint_ session with
      | None => lift Ub
      | Some destination =>
          bind w := state in
          let index := length (transmit_jobs_ w) in
          bind plain := at_index (transmit_plain_ (buffers w)) index in
          bind plain := sure (pad_into plain frame padded) in
          bind _ := modify (set_plain index plain) in
          modify (with_transmit_jobs (transmit_jobs_ w ++
            [mkTransmit pointer counter flow padded destination 0 protection false]))
      end
  end.

Definition set_pad (bytes : list Z) : Worker → Worker :=
  on_buffers (λ b, mkBuffers (encrypt_buffer_ b) bytes (decrypt_buffer_ b) (fec_buffer_ b)
    (segment_scratch_ b) (transmit_slots_ b) (transmit_plain_ b) (receive_plain_ b)).
Definition set_encrypt (bytes : list Z) : Worker → Worker :=
  on_buffers (λ b, mkBuffers bytes (pad_buffer_ b) (decrypt_buffer_ b) (fec_buffer_ b)
    (segment_scratch_ b) (transmit_slots_ b) (transmit_plain_ b) (receive_plain_ b)).
Definition set_decrypt (bytes : list Z) : Worker → Worker :=
  on_buffers (λ b, mkBuffers (encrypt_buffer_ b) (pad_buffer_ b) bytes (fec_buffer_ b)
    (segment_scratch_ b) (transmit_slots_ b) (transmit_plain_ b) (receive_plain_ b)).
Definition set_fec_buffer (bytes : list Z) : Worker → Worker :=
  on_buffers (λ b, mkBuffers (encrypt_buffer_ b) (pad_buffer_ b) (decrypt_buffer_ b) bytes
    (segment_scratch_ b) (transmit_slots_ b) (transmit_plain_ b) (receive_plain_ b)).
Definition set_scratch (bytes : list Z) : Worker → Worker :=
  on_buffers (λ b, mkBuffers (encrypt_buffer_ b) (pad_buffer_ b) (decrypt_buffer_ b) (fec_buffer_ b)
    bytes (transmit_slots_ b) (transmit_plain_ b) (receive_plain_ b)).

(** [session->seal(type, pad_buffer_.first(length), encrypt_buffer_)], and what
    was sealed. *)
Definition seal_padded (pointer : nat) (type : FrameType) (length : Z) : work (res SessionError (list Z)) :=
  bind w := state in
  bind session := session_at pointer in
  bind text := sure (E:=unit) (span_first (pad_buffer_ (buffers w)) (Z.to_nat length)) in
  let '(c, session, sealed) := Session.seal (cipher_status (trace w) 0) (contexts_ (links w)) session type text
                                 (encrypt_buffer_ (buffers w)) in
  bind _ := modify (λ w, with_contexts c (with_session pointer session w)) in
  match sealed with
  | Ok (out, n) => bind _ := modify (set_encrypt out) in sret (Ok (take (Z.to_nat n) out))
  | Fail e => sret (Fail e)
  | Ub => lift Ub
  end.

(** [drain_queue], called with [now]. *)
Fixpoint drain_loop (fuel : nat) (now : Instant) (sent : nat) : work nat :=
  match fuel with
  | O => sret sent
  | S fuel =>
      bind w := state in
      let s := shaping w in
      if (total_depth (scheduler_ s) =? 0)%nat then sret sent else
      let '(scheduler, found) := dequeue (scheduler_ s) now in
      match found with
      | None => bind _ := modify (with_shaping (mkShaping scheduler (pacer_ s) (queueing_enabled_ s))) in sret sent
      | Some queued =>
          let '(pacer, allowed) := allow_bytes (pacer_ s) (blen (q_bytes queued)) now in
          if negb allowed then
            bind _ := modify (with_shaping (mkShaping (restore scheduler queued) pacer (queueing_enabled_ s))) in
            sret sent
          else
            bind _ := modify (with_shaping (mkShaping scheduler pacer (queueing_enabled_ s))) in
            bind result := call_send [mkOutbound (q_destination queued) (q_bytes queued) 0 true false] in
            match result with
            | None | Some O =>
                bind _ := modify (λ w, dropped_for send_failed (count_bytes_dropped (blen (q_bytes queued)) w)) in
                sret sent
            | Some _ =>
                bind _ := modify (count_bytes_sent (blen (q_bytes queued))) in
                drain_loop fuel now (S sent)
            end
      end
  end.

Definition drain_queue (now : Instant) : work nat :=
  bind w := state in
  if negb (queueing_enabled_ (shaping w)) then sret 0%nat
  else drain_loop (S (total_depth (scheduler_ (shaping w)))) now 0.

Definition enable_queueing (bytes_per_second : f64) (burst_bytes : Z) (now : Instant) (w : Worker) : Worker :=
  with_shaping (mkShaping (scheduler_ (shaping w)) (new_pacer bytes_per_second burst_bytes now)
                  (flt fzero bytes_per_second)) w.

Definition set_pacing_rate (bytes_per_second : f64) (w : Worker) : Worker :=
  let s := shaping w in
  if queueing_enabled_ s
  then with_shaping (mkShaping (scheduler_ s) (set_rate_bytes_per_second (pacer_ s) bytes_per_second) true) w else w.

(** The sealed packet as a symbol: [Some wire] goes on to the queue or the
    carrier, [None] went out with the parity it completed. *)
Definition protect (index : nat) (wire : list Z) (destination : Endpoint) (flow : Z) (now : Instant)
    : work (option (list Z)) :=
  bind w := state in
  bind entry := at_index (fec_peers_ (fec w)) index in
  bind written := sure (serialize_fec_header (next_header (fp_encoder entry) (blen wire)) (fec_buffer_ (buffers w))) in
  bind _ := modify (set_fec_buffer written.1) in
  if negb (written.2 =? kFecHeaderSize) then sret (Some wire) else
  bind buffer := sure (E:=unit) (blit written.1 (Z.to_nat kFecHeaderSize) wire) in
  bind _ := modify (set_fec_buffer buffer) in
  bind framed := sure (E:=unit) (span_first buffer (Z.to_nat (kFecHeaderSize + blen wire))) in
  bind encoder := sure (FecEncoder.add fec_backend (fp_encoder entry) wire) in
  bind _ := modify (set_fec_peer index (note_symbol entry destination encoder now)) in
  match emitted encoder with
  | [] => sret (Some framed)
  | parity =>
      bind sent := send_all (mkOutbound destination framed flow true false ::
                             ((λ symbol, mkOutbound destination symbol flow true false) <$> parity)) in
      if (sent =? 0)%nat then
        bind _ := modify (count_bytes_dropped (blen framed)) in drop_frame send_failed
      else
        bind _ := modify (λ w, with_last_outbound now (count_tun_to_udp 1 w)) in sret None
  end.

Definition queue_wire (parsed : IpPacketView) (frame wire : list Z) (destination : Endpoint) (now : Instant) : work unit :=
  bind class := sure (classify_traffic parsed frame) in
  bind w := state in
  let s := shaping w in
  let '(scheduler, queued) := enqueue (scheduler_ s) wire class now destination in
  bind _ := modify (with_shaping (mkShaping scheduler (pacer_ s) (queueing_enabled_ s))) in
  if negb queued then drop_frame send_failed else
  bind _ := drain_queue now in
  modify (λ w, count_tun_to_udp 1 (with_last_outbound now w)).

Definition send_wire (wire : list Z) (destination : Endpoint) (now : Instant) : work unit :=
  bind sent := call_send [mkOutbound destination wire 0 true false] in
  match sent with
  | None | Some O => bind _ := modify (count_bytes_dropped (blen wire)) in drop_frame send_failed
  | Some _ => modify (λ w, count_tun_to_udp 1 (with_last_outbound now (count_bytes_sent (blen wire) w)))
  end.

(** The path of a single packet: sealed at once, then queued or sent. *)
Definition send_frame (pointer : nat) (parsed : IpPacketView) (frame : list Z) (padded flow : Z)
    (protection : option nat) (now : Instant) : work unit :=
  bind w := state in
  bind pad := sure (pad_into (pad_buffer_ (buffers w)) frame padded) in
  bind _ := modify (set_pad pad) in
  bind sealed := seal_padded pointer FrameType.data padded in
  match sealed with
  | Ub => lift Ub
  | Fail e => drop_frame (if decide (e = SessionError.counter_exhausted) then counter_exhausted else oversized)
  | Ok wire =>
      bind session := session_at pointer in
      match endpoint_ session with
      | None => lift Ub
      | Some destination =>
          bind wire := match protection with
                       | Some index => protect index wire destination flow now
                       | None => sret (Some wire)
                       end in
          match wire with
          | None => sret tt
          | Some wire =>
              bind w := state in
              if queueing_enabled_ (shaping w) then queue_wire parsed frame wire destination now
              else send_wire wire destination now
          end
      end
  end.

(** [std::max(frame.size(), mtu_)] when the profile's length exceeds the MTU. *)
Definition frame_padding (w : Worker) (frame : list Z) : Z :=
  let padded := profile_padded_length (profile_ w) (blen frame) in
  if mtu_ w <? padded then Z.max (blen frame) (mtu_ w) else padded.

(** [if (session_request_) session_request_(peer)] *)
Definition request_session (peer : Z) : work unit :=
  modify (match session_request_ with Some request => request peer | None => λ w, w end).

(** The session the frame goes to, and its endpoint. *)
Definition session_for (peer : Z) (now : Instant) : work (nat * Session * Endpoint) :=
  bind w := state in
  let '(table, pointer) := find_by_peer (table_ (links w)) peer in
  bind _ := modify (with_table table) in
  let missing := bind _ := request_session peer in drop_frame no_session in
  match pointer with
  | None => missing
  | Some pointer =>
      bind session := session_at pointer in
      if expired session now then missing else
      match endpoint_ session with
      | None => drop_frame no_endpoint
      | Some destination => sret (pointer, session, destination)
      end
  end.

Definition route_from_tun (frame : list Z) (batch : bool) (now : Instant) : work unit :=
  bind parsed := settled (parse_ip_packet frame) in
  match parsed with
  | None => drop_frame malformed_inner_packet
  | Some parsed =>
      bind key := sure (flow_key_of parsed frame) in
      let flow := u32 (hash_flow key) in
      bind w := state in
      let verdict := Routing.classify (routes_ w) parsed kNoPeer in
      bind _ := drop_if (refusal (decision verdict)) in
      bind _ := drop_when (match decision verdict with deliver_local => true | _ => false end) no_route in
      bind target := session_for (forward_peer verdict) now in
      let '(pointer, session, destination) := target in
      bind w := state in
      let padded := frame_padding w frame in
      bind _ := drop_when (blen (pad_buffer_ (buffers w)) <? padded) oversized in
      bind protection := choose_fec session destination now in
      bind w := state in
      if batch && negb (queueing_enabled_ (shaping w)) then stage_frame pointer frame padded flow protection now
      else send_frame pointer parsed frame padded flow protection now
  end.

Definition forward_from_tun (frame : list Z) (now : Instant) : work unit :=
  bind reason := verdict (route_from_tun frame true now) in
  bind _ := flush_transmit now in
  conclude reason.

(** ** Towards the tunnel *)

(** [permille / 1000.0] of the two bytes at [offset], at most 1. *)
Definition read_permille (payload : list Z) (offset : nat) : res unit f64 :=
  let* permille := read_u16 payload offset in
  Ok (fmin (of_int 1) (fdiv (of_int permille) (of_int 1000))).

Definition handle_control (ingress_peer : Z) (bytes : list Z) : work unit :=
  bind _ := modify count_keepalive in
  if negb ((1 <? blen bytes) && negb (ingress_peer =? kNoPeer)) then sret tt else
  bind kind := sure (E:=unit) (rd bytes 0) in
  bind token := sure (E:=unit) (subspan_from bytes 1) in
  if kind =? kEchoRequest then
    match echo_responder_ with Some f => modify (f ingress_peer token) | None => sret tt end
  else if kind =? kEchoReply then
    match echo_reply_handler_ with Some f => modify (f ingress_peer token) | None => sret tt end
  else if (kind =? kLossReport) && (blen bytes =? kLossReportSize) then
    match loss_report_handler_ with
    | Some f =>
        bind raw := sure (read_permille bytes 1) in
        bind residual := sure (read_permille bytes 3) in
        modify (f ingress_peer raw residual)
    | None => sret tt
    end
  else sret tt.

Definition call_write (frame : list Z) : work bool := λ w,
  let done := write_frame (trace w) frame in (emits (Wrote frame done) w, Ok done).

(** A packet that was opened: the padding is cut off, the packet checked
    against the routes of the peer it came from, and written to the tunnel. *)
Definition deliver_opened (ingress_peer : Z) (type : FrameType) (padded_plaintext : list Z) (stable : bool) : work unit :=
  match type with
  | FrameType.control => handle_control ingress_peer padded_plaintext
  | _ =>
      bind declared := settled (declared_ip_length padded_plaintext) in
      match declared with
      | None => drop_frame malformed_inner_packet
      | Some declared =>
          bind _ := drop_when (blen padded_plaintext <? declared) malformed_inner_packet in
          bind plaintext := sure (E:=unit) (span_first padded_plaintext (Z.to_nat declared)) in
          bind parsed := settled (parse_ip_packet plaintext) in
          match parsed with
          | None => drop_frame malformed_inner_packet
          | Some parsed =>
              bind w := state in
              let verdict := Routing.classify (routes_ w) parsed ingress_peer in
              bind _ := drop_if (refusal (decision verdict)) in
              if offload_enabled then
                bind coalescer := sure (Coalescer.add (coalescer_ w) plaintext stable) in
                modify (λ w, count_udp_to_tun (emits (Gathered plaintext) (with_coalescer coalescer w)))
              else
                bind written := call_write plaintext in
                bind _ := drop_when (negb written) tun_write_failed in
                modify count_udp_to_tun
          end
      end
  end.

(** [find_by_key_id] of the shared table. *)
Definition find_session (key_id : Z) : work (option nat) :=
  bind w := state in
  let '(table, pointer) := find_by_key_id (table_ (links w)) key_id in
  bind _ := modify (with_table table) in
  sret pointer.

(** The reason a packet is dropped when its session does not open it. *)
Definition open_refusal (e : SessionError) : DropReason :=
  match e with
  | SessionError.replayed => replayed
  | SessionError.too_old => too_old
  | SessionError.buffer_too_small => oversized
  | _ => authentication_failed
  end.

(** [session->open] into [decrypt_buffer_], the endpoint noted: the peer and
    the number of bytes. *)
Definition open_session (pointer : nat) (source : Endpoint) (view : PacketView) (datagram : list Z) (recovered : bool)
    (now : Instant) : work (Z * Z) :=
  bind w := state in
  bind session := session_at pointer in
  let '(c, session, out, opened) :=
    Session.open (cipher_status (trace w) 0) now (contexts_ (links w)) session view datagram
      (decrypt_buffer_ (buffers w)) in
  bind _ := modify (λ w, set_decrypt out (with_contexts c (with_session pointer session w))) in
  match opened with
  | Ub => lift Ub
  | Fail e => drop_frame (open_refusal e)
  | Ok n =>
      let session := if recovered then note_recovered session else note_authenticated_endpoint session source in
      bind _ := modify (λ w, emits (Opened pointer (Packet.counter (header view)) (take (Z.to_nat n) out))
                               (with_session pointer session w)) in
      sret (peer_ session, n)
  end.

(** A packet without a session may confirm a provisional one. *)
Definition open_provisional (source : Endpoint) (view : PacketView) (datagram : list Z) : work (Z * Z) :=
  match provisional_opener_ with
  | None => drop_frame no_session
  | Some opener =>
      bind promoted := (λ w, let '(w, promoted) := opener view datagram source w in (w, Ok promoted)) in
      match promoted with
      | None => drop_frame no_session
      | Some n =>
          bind pointer := find_session (key_id (header view)) in
          match pointer with
          | None => drop_frame no_session
          | Some pointer =>
              bind session := session_at pointer in
              sret (peer_ session, n)
          end
      end
  end.

Definition forward_sealed (source : Endpoint) (datagram : list Z) (recovered : bool) (now : Instant) : work unit :=
  bind view := settled (parse_packet datagram) in
  match view with
  | None => drop_frame malformed_outer_packet
  | Some view =>
      bind pointer := find_session (key_id (header view)) in
      bind opened := match pointer with
                     | None => open_provisional source view datagram
                     | Some pointer => open_session pointer source view datagram recovered now
                     end in
      bind w := state in
      bind plaintext := sure (E:=unit) (span_first (decrypt_buffer_ (buffers w)) (Z.to_nat opened.2)) in
      deliver_opened opened.1 (type (header view)) plaintext false
  end.

(** ** Symbols *)

Fixpoint find_source (source : Endpoint) (entries : list FecSource) (index : nat) : option nat :=
  match entries with
  | [] => None
  | e :: entries => if bool_decide (fs_source e = source) then Some index else find_source source entries (S index)
  end.

(** [std::ranges::min_element] by [last_seen]: the first least one. *)
Fixpoint stalest (entries : list FecSource) (index best : nat) (seen : Instant) : nat :=
  match entries with
  | [] => best
  | e :: entries => if last_seen e <? seen then stalest entries (S index) index (last_seen e)
                    else stalest entries (S index) best seen
  end.
Definition stalest_source (entries : list FecSource) : nat :=
  match entries with [] => 0 | e :: rest => stalest rest 1 0 (last_seen e) end.

Definition fec_source (source : Endpoint) (now : Instant) (entries : list FecSource) : list FecSource * nat :=
  match find_source source entries 0 with
  | Some index => (alter (λ e, mkFecSource (fs_source e) (fs_decoder e) now) index entries, index)
  | None =>
      let entries := if (kMaximumFecSources <=? length entries)%nat
                     then delete (stalest_source entries) entries else entries in
      (entries ++ [mkFecSource source new_decoder now], length entries)
  end.

(** [fec_source(source, now).decoder.receive(header, body, now)] *)
Definition receive_symbol (source : Endpoint) (h : FecSymbolHeader) (body : list Z) (now : Instant)
    : work (list (list Z)) :=
  bind w := state in
  let '(entries, index) := fec_source source now (fec_sources_ (fec w)) in
  bind entry := at_index entries index in
  bind received := sure (FecDecoder.receive fec_backend (fs_decoder entry) h body now) in
  let entry := mkFecSource (fs_source entry) received.1 (last_seen entry) in
  bind _ := modify (on_fec (λ f, mkProtection (fec_mode_ f) (fec_peers_ f) (<[index := entry]> entries))) in
  sret received.2.

Fixpoint forward_recovered (source : Endpoint) (packets : list (list Z)) (parity : bool) (reason : option DropReason)
    (now : Instant) : work (option DropReason) :=
  match packets with
  | [] => sret reason
  | p :: packets =>
      bind outcome := verdict (forward_sealed source p true now) in
      forward_recovered source packets parity
        (if parity && bool_decide (reason = None) then outcome else reason) now
  end.

Definition forward_from_transport (source : Endpoint) (datagram : list Z) (now : Instant) : work unit :=
  if looks_like_fec_symbol datagram then
    bind header := settled (parse_fec_header datagram) in
    match header with
    | None => drop_frame malformed_outer_packet
    | Some header =>
        bind body := sure (E:=unit) (subspan_from datagram (Z.to_nat kFecHeaderSize)) in
        bind recovered := receive_symbol source header body now in
        bind reason := (if parity header then sret None else verdict (forward_sealed source body false now)) in
        bind reason := forward_recovered source recovered (parity header) reason now in
        conclude reason
    end
  else forward_sealed source datagram false now.

Definition expire_source (now : Instant) (e : FecSource) : FecSource :=
  mkFecSource (fs_source e) (FecDecoder.expire (fs_decoder e) now).1 (last_seen e).
Definition source_kept (now : Instant) (e : FecSource) : Prop :=
  ¬ (minutes 2 < now - last_seen e ∧ blocks_ (fs_decoder e) = []).
#[export] Instance source_kept_dec now e : Decision (source_kept now e).
Proof.
  unfold source_kept. destruct (decide (minutes 2 < now - last_seen e)); [|left; tauto].
  destruct (blocks_ (fs_decoder e)) eqn:E; [right; tauto|left; by intros [_ ?]].
Defined.

(** The parity of a block that waited long enough. *)
Definition flush_peer (now : Instant) (index : nat) (_ : FecPeer) : work unit :=
  bind w := state in
  bind entry := at_index (fec_peers_ (fec w)) index in
  if (pending (fp_encoder entry) =? 0)%nat then sret tt
  else if now - fp_last_symbol entry <? kFecFlushInterval then sret tt
  else
    bind encoder := sure (FecEncoder.flush fec_pow (fp_encoder entry)) in
    bind _ := modify (set_fec_peer index (mkFecPeer (fp_peer entry) (fp_destination entry) encoder
                (fp_last_symbol entry) (fp_controller entry) (fp_packets entry) (packets_at_report entry)
                (send_failures_at_report entry) (sent_at_report entry) (last_report entry))) in
    send_parity (fp_destination entry) (emitted encoder).

Definition flush_fec (now : Instant) : work unit :=
  bind _ := modify (on_fec (λ f, mkProtection (fec_mode_ f) (fec_peers_ f)
              (filter (source_kept now) (expire_source now <$> fec_sources_ f)))) in
  bind w := state in
  match fec_mode_ (fec w) with
  | off => sret tt
  | _ => for_all (fec_peers_ (fec w)) (flush_peer now) 0
  end.

Definition fec_pending (w : Worker) : bool := existsb (λ e, 0 <? pending (fp_encoder e))%nat (fec_peers_ (fec w)).

(** ** Batches from the carrier *)

Definition call_write_vectored (frame : Frame) : work bool := λ w,
  let done := write_vectored (trace w) frame in (emits (WroteFrame frame done) w, Ok done).

Definition flush_tun_writes : work unit :=
  bind w := state in
  if coalescer_empty (coalescer_ w) then sret tt else
  bind flushed := sure (Coalescer.flush (coalescer_ w)) in
  bind _ := for_all flushed.2 (λ _ frame,
              bind written := call_write_vectored frame in
              modify (if written : bool then λ w, w else dropped_for tun_write_failed)) 0 in
  modify (with_coalescer flushed.1).

(** The task of the runner: the packet of job [index] is decrypted. *)
Definition decrypt_job (index : nat) (job : ReceiveJob) : work unit :=
  bind w := state in
  bind session := session_at (rx_session job) in
  bind plain := at_index (receive_plain_ (buffers w)) index in
  let '(c, out, opened) := decrypt (cipher_status (trace w) index) (contexts_ (links w)) session (rx_view job)
                             (rx_datagram job) plain in
  let done length error ok := mkReceive (rx_session job) (rx_view job) (rx_datagram job) (rx_source job) length error ok in
  bind _ := modify (λ w, with_contexts c (set_opened index out w)) in
  match opened with
  | Ok n => modify (set_received index (done n (rx_error job) true))
  | Fail e => modify (set_received index (done (rx_length job) e false))
  | Ub => lift Ub
  end.

Definition update_session (pointer : nat) (f : Session → Session) : work unit :=
  bind session := session_at pointer in modify (with_session pointer (f session)).

(** A decrypted packet is committed to the replay window and delivered;
    whether it was. *)
Definition settle_job (now : Instant) (index : nat) (job : ReceiveJob) : work bool :=
  if negb (rx_ok job) then
    bind _ := (if bool_decide (rx_error job = SessionError.authentication_failed)
               then update_session (rx_session job) note_authentication_failure else sret tt) in
    bind _ := modify (dropped_for (if bool_decide (rx_error job = SessionError.buffer_too_small)
                                   then oversized else authentication_failed)) in
    sret false
  else
    bind session := session_at (rx_session job) in
    let '(session, committed) := commit now session (Packet.counter (header (rx_view job))) in
    bind _ := modify (with_session (rx_session job) session) in
    match committed with
    | Ub => lift Ub
    | Fail e =>
        bind _ := modify (dropped_for (if bool_decide (e = SessionError.replayed) then replayed else too_old)) in
        sret false
    | Ok _ =>
        bind w := state in
        bind plain := at_index (receive_plain_ (buffers w)) index in
        bind plaintext := sure (E:=unit) (span_first plain (Z.to_nat (rx_length job))) in
        bind _ := modify (λ w, emits (Opened (rx_session job) (Packet.counter (header (rx_view job))) plaintext)
                    (with_session (rx_session job) (note_authenticated_endpoint session (rx_source job)) w)) in
        bind reason := verdict (deliver_opened (peer_ session) (type (header (rx_view job))) plaintext true) in
        sret (bool_decide (reason = None))
    end.

Fixpoint settle_jobs (now : Instant) (js : list ReceiveJob) (index : nat) (delivered : nat) : work nat :=
  match js with
  | [] => sret delivered
  | job :: js =>
      bind done := settle_job now index job in
      settle_jobs now js (S index) (if done : bool then S delivered else delivered)
  end.

Definition settle_receive (now : Instant) : work nat :=
  bind w := state in
  match receive_jobs_ w with
  | [] => sret 0%nat
  | js =>
      bind _ := for_all js decrypt_job 0 in
      bind w := state in
      bind delivered := settle_jobs now (receive_jobs_ w) 0 0 in
      bind _ := flush_tun_writes in
      bind _ := modify (with_receive_jobs []) in
      sret delivered
  end.

(** Whether the datagram was taken care of. *)
Definition stage_receive (source : Endpoint) (datagram : list Z) (now : Instant) : work bool :=
  bind view := settled (parse_packet datagram) in
  match view with
  | None => sret false
  | Some view =>
      bind pointer := find_session (key_id (header view)) in
      match pointer with
      | None => sret false
      | Some pointer =>
          bind w := state in
          bind _ := (if (length (receive_plain_ (buffers w)) <=? length (receive_jobs_ w))%nat
                     then (bind _ := settle_receive now in sret tt) else sret tt) in
          bind session := session_at pointer in
          let '(session, window) := check_window session (Packet.counter (header view)) in
          bind _ := modify (with_session pointer session) in
          match window with
          | Ok _ =>
              bind _ := modify (λ w, with_receive_jobs (receive_jobs_ w ++
                [mkReceive pointer view datagram source 0 SessionError.authentication_failed false]) w) in
              sret true
          | _ => bind _ := modify (dropped_for too_old) in sret true
          end
      end
  end.

(** [forward_sealed(...) == DropReason::none ? 1 : 0] *)
Definition count_forward (m : work unit) : work nat :=
  bind reason := verdict m in sret (if bool_decide (reason = None) then 1 else 0)%nat.

Fixpoint deliver_recovered (source : Endpoint) (packets : list (list Z)) (now : Instant) (delivered : nat) : work nat :=
  match packets with
  | [] => sret delivered
  | p :: packets =>
      bind n := count_forward (forward_sealed source p true now) in
      deliver_recovered source packets now (delivered + n)
  end.

Definition call_filter (source : Endpoint) (datagram : list Z) : work bool :=
  match ingress_filter_ with
  | None => sret false
  | Some filter => λ w, let '(w, taken) := filter source datagram w in (w, Ok taken)
  end.

(** The body of the inner loop of [pump_udp_to_tun]: packets delivered. *)
Definition pump_symbol (source : Endpoint) (h : FecSymbolHeader) (datagram : list Z) (now : Instant) : work nat :=
  bind body := sure (E:=unit) (subspan_from datagram (Z.to_nat kFecHeaderSize)) in
  bind recovered := receive_symbol source h body now in
  bind staged := (if parity h then sret false else stage_receive source body now) in
  bind n1 := (match recovered with [] => sret 0%nat | _ => settle_receive now end) in
  bind n2 := deliver_recovered source recovered now 0 in
  if staged || parity h then sret (n1 + n2)%nat else
  bind n3 := settle_receive now in
  bind n4 := count_forward (forward_sealed source body false now) in
  sret (n1 + n2 + n3 + n4)%nat.

Definition pump_datagram (d : InboundDatagram) (now : Instant) : work nat :=
  let '(mkInbound source datagram) := d in
  bind taken := call_filter source datagram in
  if taken : bool then sret 0%nat else
  let fall_back :=
    bind n1 := settle_receive now in
    bind n2 := count_forward (forward_from_transport source datagram now) in
    sret (n1 + n2)%nat in
  if negb (looks_like_fec_symbol datagram) then
    bind staged := stage_receive source datagram now in
    if staged : bool then sret 0%nat else fall_back
  else
    bind header := settled (parse_fec_header datagram) in
    match header with
    | Some header => pump_symbol source header datagram now
    | None => fall_back
    end.

Fixpoint pump_batch (batch : list InboundDatagram) (now : Instant) (delivered : nat) : work nat :=
  match batch with
  | [] => sret delivered
  | d :: batch => bind n := pump_datagram d now in pump_batch batch now (delivered + n)
  end.

Definition call_receive (room : nat) : work (option (list InboundDatagram)) := λ w,
  let batch := receive_batch (trace w) room in (emits (Received batch) w, Ok batch).

(** [while (processed < max_datagrams)]; [inbound_] has room for a batch. *)
Fixpoint pump_udp_loop (fuel : nat) (max processed : nat) (delivered : nat) (now : Instant) : work nat :=
  match fuel with
  | O => sret delivered
  | S fuel =>
      if (processed <? max)%nat then
        bind received := call_receive ((max - processed) `min` kDefaultBatchSize) in
        match received with
        | None | Some [] => sret delivered
        | Some batch =>
            bind delivered := pump_batch batch now delivered in
            bind n := settle_receive now in
            pump_udp_loop fuel max (processed + length batch) (delivered + n) now
        end
      else sret delivered
  end.

Definition pump_udp_to_tun (max_datagrams : nat) (now : Instant) : work nat :=
  bind delivered := pump_udp_loop max_datagrams max_datagrams 0 0 now in
  bind _ := flush_tun_writes in
  sret delivered.

(** ** Frames from the tunnel device *)

Definition call_read : work (option (list Z)) := λ w,
  let frame := read_frame (trace w) in (emits (ReadFrame frame) w, Ok frame).

Fixpoint route_segments (segments : list (list Z)) (now : Instant) (forwarded : nat) : work nat :=
  match segments with
  | [] => sret forwarded
  | segment :: segments =>
      bind n := count_forward (route_from_tun segment true now) in
      route_segments segments now (forwarded + n)
  end.

Definition pump_offloaded (frame : list Z) (now : Instant) (forwarded : nat) : work nat :=
  if (length frame <=? kVirtioHeaderSize)%nat then sret forwarded else
  bind header := sure (parse_virtio_header (take kVirtioHeaderSize frame)) in
  bind w := state in
  bind expansion := sure (expand_offloaded header (drop kVirtioHeaderSize frame) (segment_scratch_ (buffers w))) in
  bind _ := modify (set_scratch (ex_scratch expansion)) in
  bind forwarded := route_segments (ex_sunk expansion) now forwarded in
  bind _ := modify (if ex_done expansion then λ w, w else dropped_for malformed_inner_packet) in
  sret forwarded.

Fixpoint pump_tun_loop (frames : nat) (now : Instant) (forwarded : nat) : work nat :=
  match frames with
  | O => sret forwarded
  | S frames =>
      bind frame := call_read in
      match frame with
      | None | Some [] => sret forwarded
      | Some frame =>
          bind forwarded :=
            (if offload_enabled then pump_offloaded frame now forwarded
             else bind n := count_forward (route_from_tun frame true now) in sret (forwarded + n)%nat) in
          pump_tun_loop frames now forwarded
      end
  end.

Definition pump_tun_to_udp (max_frames : nat) (now : Instant) : work nat :=
  bind forwarded := pump_tun_loop max_frames now 0 in
  bind _ := flush_transmit now in
  sret forwarded.

Definition poll (now : Instant) : work nat :=
  bind forwarded := pump_tun_to_udp 64 now in
  bind delivered := pump_udp_to_tun 64 now in
  sret (forwarded + delivered)%nat.

Definition flush (now : Instant) : work nat :=
  bind _ := flush_tun_writes in
  bind _ := flush_fec now in
  drain_queue now.

(** ** Chaff and settings *)

Definition chaff_session (length : Z) (pointer : nat) (sent : nat) : work nat :=
  bind session := session_at pointer in
  match endpoint_ session with
  | None => sret sent
  | Some _ =>
      bind w := state in
      if blen (pad_buffer_ (buffers w)) <? length then sret sent else
      bind pad := sure (E:=unit) (blit (pad_buffer_ (buffers w)) 0 (replicate (Z.to_nat length) 0)) in
      bind _ := modify (set_pad pad) in
      bind sealed := seal_padded pointer FrameType.control length in
      match sealed with
      | Ok wire =>
          bind session := session_at pointer in
          match endpoint_ session with
          | None => lift Ub
          | Some destination =>
              bind accepted := call_send [mkOutbound destination wire 0 false false] in
              match accepted with
              | None => sret sent
              | Some _ =>
                  bind _ := modify (on_counters (λ c, mkCounters (stats_ c) (u64 (bytes_sent_ c + blen wire))
                              (bytes_dropped_ c) (last_outbound_ c) (u64 (chaff_sent_ c + 1)))) in
                  sret (S sent)
              end
          end
      | Fail _ => sret sent
      | Ub => lift Ub
      end
  end.

Fixpoint chaff_sessions (length : Z) (pointers : list nat) (sent : nat) : work nat :=
  match pointers with
  | [] => sret sent
  | pointer :: pointers => bind sent := chaff_session length pointer sent in chaff_sessions length pointers sent
  end.

Definition send_chaff (now : Instant) : work nat :=
  bind w := state in
  let last := last_outbound_ (counters w) in
  if negb (last =? 0) && (now - last <? kChaffInterval) then sret 0%nat else
  match profile_buckets (profile_ w) with
  | [] => sret 0%nat
  | length :: _ =>
      bind sent := chaff_sessions length (visit (sessions_ (table_ (links w)))) 0 in
      bind _ := modify (if (0 <? sent)%nat then with_last_outbound now else λ w, w) in
      sret sent
  end.
End worker.

Definition set_mtu (mtu : Z) (w : Worker) : Worker :=
  let mtu := clampZ mtu 576 kFrameBufferSize in
  mkWorker (links w) (buffers w) (counters w) (fec w) (shaping w) (routes_ w) (profile_ w) mtu
    (Z.max kCoalescedDatagramSize
       (mtu + kPacketHeaderSize + kAeadTagSize + kPaddingAlignment + kFecHeaderSize + 64))
    (coalescer_ w) (transmit_jobs_ w) (receive_jobs_ w).

Definition set_traffic_profile (profile : TrafficProfile) (w : Worker) : Worker :=
  mkWorker (links w) (buffers w) (counters w) (fec w) (shaping w) (routes_ w) profile (mtu_ w)
    (receive_size_ w) (coalescer_ w) (transmit_jobs_ w) (receive_jobs_ w).

(** ** Totals over the peers and sources *)

Definition fec_stats (w : Worker) : FecStats :=
  foldl (λ total e, let st := FecEncoder.stats_ (fp_encoder e) in
           mkStats (u64 (blocks_encoded total + blocks_encoded st)) (u64 (parity_sent total + parity_sent st))
             (symbols_received total) (recovered total) (unrecoverable total) (FecEncoder.expired total))
    no_stats (fec_peers_ (fec w)).

Definition fec_decode_stats (w : Worker) : FecStats :=
  foldl (λ total e, let st := d_stats (fs_decoder e) in
           mkStats (blocks_encoded total) (parity_sent total) (u64 (symbols_received total + symbols_received st))
             (u64 (recovered total + recovered st)) (u64 (unrecoverable total + unrecoverable st))
             (u64 (FecEncoder.expired total + FecEncoder.expired st)))
    no_stats (fec_sources_ (fec w)).
