(* ===== verification/WorkerIngress.v ===== *)
(** What a worker writes to the tunnel.

    The handlers of the runtime and everything on the sending side move the
    worker along [handled]: sessions take steps of their own, new ones may
    appear, and nothing is opened or written.  The receiving side keeps
    [ingress_ok]: every frame written or gathered follows the opening of the
    packet that held it, by a session whose peer owns its source address. *)

From S2P Require Import Prelude Packet Double Gf256 Fec FecEncoder FecDecoder FecBytes Nonce Text Address Routing.
From S2P Require Import Qos Congestion Offload Coalescer Crypto ReplayWindow Session SessionTable Worker.

(** ** Sessions in use *)

(** A session that was installed: it has keys and a peer. *)
Definition session_live (s : Session) : Prop := key_ (receive_keys_ s) ≠ zero_key ∧ peer_ s ≠ kNoPeer.

Lemma run_live s ops : session_live s → session_live (run s ops).1.
Proof. unfold session_live. by rewrite run_keys, run_peer. Qed.

(** ** What handlers and the sending side may do *)

Definition quiet (e : Event) : Prop :=
  match e with Wrote _ _ | Gathered _ | Opened _ _ _ => False | _ => True end.

Record sessions_advance (h h' : Heap) : Prop := {
  sa_step p s : h !! p = Some s → ∃ ops, Forall op_ok ops ∧ h' !! p = Some (run s ops).1;
  sa_new p s : h !! p = None → h' !! p = Some s → session_live s ∧ ∃ es, session_inv s es;
}.

Lemma advance_refl h : sessions_advance h h.
Proof. split; [|congruence]. intros p s Hs. by exists []. Qed.

Lemma advance_trans h1 h2 h3 : sessions_advance h1 h2 → sessions_advance h2 h3 → sessions_advance h1 h3.
Proof.
  intros [S1 N1] [S2 N2]. split.
  - intros p s (ops & Ho & E)%S1. destruct (S2 p _ E) as (ops' & Ho' & E'). exists (ops ++ ops').
    rewrite run_app_state. split; [by apply Forall_app|done].
  - intros p s E1 E3. destruct (h2 !! p) as [s2|] eqn:E2; [|by eapply N2].
    destruct (N1 p s2 E1 E2) as (Hl & es & Hi). destruct (S2 p s2 E2) as (ops & Ho & E). simplify_eq.
    split; [by apply run_live|]. eexists. by apply run_inv_from.
Qed.

Lemma advance_step h p s op : h !! p = Some s → op_ok op → sessions_advance h (<[p := (step s op).1]> h).
Proof.
  intros Hs Ho. split.
  - intros q t Ht. destruct (decide (p = q)) as [<-|Hne].
    + exists [op]. split; [by constructor|]. rewrite list_lookup_insert_eq by (by eapply lookup_lt_Some).
      assert (t = s) as -> by congruence. unfold run. cbn. unfold observe. cbn. by destruct (step s op).
    + exists []. split; [done|]. by rewrite list_lookup_insert_ne.
  - intros q t Hn Ht. destruct (decide (p = q)) as [<-|Hne]; [congruence|]. rewrite list_lookup_insert_ne in Ht by done. congruence.
Qed.

Definition sources_bytes (w : Worker) : Prop := Forall (λ e, decoder_bytes (fs_decoder e)) (fec_sources_ (fec w)).

Record handled (w w' : Worker) : Prop := {
  hd_routes : routes_ w' = routes_ w;
  hd_plain : receive_plain_ (buffers w') = receive_plain_ (buffers w);
  hd_jobs : receive_jobs_ w' = receive_jobs_ w;
  hd_sources : sources_bytes w → sources_bytes w';
  hd_heap : sessions_advance (heap w) (heap w');
  hd_contexts : contexts_ok (contexts_ (links w)) → contexts_ok (contexts_ (links w'));
  hd_trace : ∃ new, trace w' = trace w ++ new ∧ Forall quiet new;
}.

#[export] Instance handled_preorder : PreOrder handled.
Proof.
  split.
  - intros w. split; try done; [apply advance_refl|]. exists []. by rewrite app_nil_r.
  - intros w1 w2 w3 [A1 A2 A3 A4 A5 A6 (n1 & A7 & A8)] [B1 B2 B3 B4 B5 B6 (n2 & B7 & B8)].
    split; [congruence..|auto|by eapply advance_trans|auto|]. exists (n1 ++ n2). rewrite B7, A7, app_assoc.
    split; [done|by apply Forall_app].
Qed.

(** A change of nothing the relation speaks about. *)
Lemma handled_same w w' : links w' = links w → routes_ w' = routes_ w →
  receive_plain_ (buffers w') = receive_plain_ (buffers w) → receive_jobs_ w' = receive_jobs_ w →
  fec_sources_ (fec w') = fec_sources_ (fec w) → handled w w'.
Proof.
  intros El ? ? ? Ef. split; unfold heap, trace, sources_bytes; rewrite ?El, ?Ef; try done; [apply advance_refl|].
  exists []. by rewrite app_nil_r.
Qed.

Lemma handled_emits w e : quiet e → handled w (emits e w).
Proof. intros He. split; try done; [apply advance_refl|]. exists [e]. split; [done|by constructor]. Qed.

Lemma handled_contexts w c : (contexts_ok (contexts_ (links w)) → contexts_ok c) → handled w (with_contexts c w).
Proof. intros Hc. split; try done; [apply advance_refl|]. exists []. by rewrite app_nil_r. Qed.

Lemma handled_session w p s op : heap w !! p = Some s → op_ok op → handled w (with_session p (step s op).1 w).
Proof.
  intros Hs Ho. split; try done; [by apply advance_step|]. exists []. by rewrite app_nil_r.
Qed.

(** [m] from the state [w]. *)
Lemma respects_state {A} (R : Worker → Worker → Prop) (f : Worker → work A) :
  (∀ w, R w (f w w).1) → respects R (sbind state f).
Proof. intros Hf w. apply Hf. Qed.

Lemma respects_session {A} (R : Worker → Worker → Prop) `{!PreOrder R} p (f : Session → work A) :
  (∀ w s, heap w !! p = Some s → R w (f s w).1) → respects R (sbind (session_at p) f).
Proof.
  intros Hf w. unfold session_at, sbind, state, gets, at_index, lift. specialize (Hf w).
  destruct (heap w !! p) as [s|]; [|reflexivity]. specialize (Hf s eq_refl). by destruct (f s w).
Qed.

Lemma from_session {A} p (f : Session → work A) w s : heap w !! p = Some s → sbind (session_at p) f w = f s w.
Proof. intros Hs. unfold session_at, sbind, state, gets, at_index, lift. by rewrite Hs. Qed.
Lemma from_no_session {A} p (f : Session → work A) w : heap w !! p = None → sbind (session_at p) f w = (w, Ub).
Proof. intros Hs. unfold session_at, sbind, state, gets, at_index, lift. by rewrite Hs. Qed.
Lemma from_sure {E A B} (r : res E A) (f : A → work B) w :
  sbind (sure r) f w = match r with Ok a => f a w | _ => (w, Ub) end.
Proof. by destruct r. Qed.

Lemma from_settled {E A B} (r : res E A) (f : option A → work B) w :
  sbind (settled r) f w = match r with Ok a => f (Some a) w | Fail _ => f None w | Ub => (w, Ub) end.
Proof. by destruct r. Qed.
Lemma from_state {A} (f : Worker → work A) w : sbind state f w = f w w.
Proof. done. Qed.
Lemma from_drop_when {A} b r (f : unit → work A) w :
  sbind (drop_when b r) f w = if b then (dropped_for r w, Fail r) else f tt w.
Proof. by destruct b. Qed.
Lemma from_drop_if {A} r (f : unit → work A) w :
  sbind (drop_if r) f w = match r with Some r => (dropped_for r w, Fail r) | None => f tt w end.
Proof. by destruct r. Qed.

Lemma from_at {A B} (l : list A) i (f : A → work B) w :
  sbind (at_index l i) f w = match l !! i with Some a => f a w | None => (w, Ub) end.
Proof. unfold at_index, sbind, lift. by destruct (l !! i). Qed.
Lemma from_modify {A} (g : Worker → Worker) (f : unit → work A) w : sbind (modify g) f w = f tt (g w).
Proof. done. Qed.
Lemma from_call {A B} (g : Worker → Worker * A) (f : A → work B) w :
  sbind (λ w, let '(w', a) := g w in (w', Ok a)) f w = f (g w).2 (g w).1.
Proof. unfold sbind. by destruct (g w). Qed.

Lemma respects_from {B} (R : Worker → Worker → Prop) `{!PreOrder R} (f : Worker → Worker) (m : work B) w :
  R w (f w) → respects R m → R w ((sbind (E:=DropReason) (modify f) (λ _, m)) w).1.
Proof. intros Hf Hm. etransitivity; [exact Hf|apply Hm]. Qed.

Lemma respects_verdict (R : Worker → Worker → Prop) m : respects R m → respects R (verdict m).
Proof. intros Hm w. specialize (Hm w). unfold verdict. by destruct (m w) as [w' [[]|e|]]. Qed.

Lemma respects_drop {A} r : respects handled (drop_frame (A:=A) r).
Proof. intros w. by apply handled_same. Qed.

Lemma respects_for_all {A} R `{!PreOrder R} (l : list A) f : (∀ i a, respects R (f i a)) → ∀ i, respects R (for_all l f i).
Proof. intros Hf. induction l as [|a l IH]; intros i; [apply respects_ret; apply _|]. apply respects_bind; [apply _|apply Hf|auto]. Qed.

Create HintDb handled.
#[export] Hint Resolve respects_drop : handled.

(** Steps through a computation, as far as each step is on its own. *)
Ltac through :=
  repeat first
    [ progress auto with handled nocore
    | match goal with
      | |- respects _ (sbind _ _) => apply respects_bind; [apply _| |intros ?]
      | |- respects _ (sret _) => apply respects_ret; apply _
      | |- respects _ (lift _) => apply respects_lift; apply _
      | |- respects _ state => apply respects_gets; apply _
      | |- respects _ (at_index _ _) => apply respects_lift; apply _
      | |- respects _ (sure _) => apply respects_lift; apply _
      | |- respects _ (settled _) => apply respects_lift; apply _
      | |- respects _ (verdict _) => apply respects_verdict
      | |- respects _ (for_all _ _ _) => apply respects_for_all; [apply _|intros ? ?]
      | |- respects _ (modify _) => apply respects_modify; intros ?; try (by apply handled_same)
      | |- respects _ (match ?x with _ => _ end) => destruct x
      end ].

Section egress.
Context `{Aead} `{Surroundings} `{Handlers}.

Lemma get_contexts st c key e : contexts_ok c → contexts_ok (get st c key e).1.
Proof. intros Hc. apply get_for; [done|]. by right; intros Hz. Qed.

Lemma seal_contexts st c k counter a p out : contexts_ok c → contexts_ok (Crypto.seal st c k counter a p out).1.
Proof.
  intros Hc. unfold Crypto.seal. case_match; [done|]. pose proof (get_contexts st c (key_ k) true Hc) as Hg.
  by destruct (get st c (key_ k) true).
Qed.

Lemma seal_reserved_contexts st c s type counter p out : contexts_ok c →
  contexts_ok (seal_reserved st c s type counter p out).1.
Proof.
  intros Hc. unfold seal_reserved. case_match; [done|]. case_match; [done|].
  destruct (serialize_header _ _ _) as [o|e|]; [|done..]. destruct (span_first o 16) as [a|e|]; [|done..].
  destruct (subspan_from o 16) as [rest|e|]; [|done..].
  pose proof (seal_contexts st c (send_keys_ s) counter a p rest Hc). by destruct (Crypto.seal _ _ _ _ _ _ _).
Qed.

Lemma call_send_handled batch : respects handled (call_send batch).
Proof. intros w. by apply handled_emits. Qed.
#[local] Hint Resolve call_send_handled : handled.

Lemma send_loop_handled tally batch fuel : (∀ n w, handled w (tally n w)) → ∀ offset,
  respects handled (send_loop fuel tally batch offset).
Proof. intros Ht. induction fuel as [|fuel IH]; intros offset; cbn [send_loop]; through. Qed.

Lemma send_all_handled batch : respects handled (send_all batch).
Proof. unfold send_all. through. apply send_loop_handled. intros n w. reflexivity. Qed.
#[local] Hint Resolve send_all_handled : handled.

Lemma seal_job_handled index job : respects handled (seal_job index job).
Proof.
  apply respects_state. intros w. unfold session_at, sbind, state, gets, at_index, sure, settled, lift, modify.
  destruct (heap w !! tx_session job) as [s|]; [|cbn; reflexivity].
  destruct (_ !! index) as [plain|]; [|cbn; reflexivity]. destruct (_ !! index) as [slot|]; [|cbn; reflexivity].
  destruct (span_first _ _) as [text|[]|]; [|cbn; reflexivity..].
  destruct (subspan_from _ _) as [out|[]|]; [|cbn; reflexivity..].
  pose proof (seal_reserved_contexts (cipher_status (trace w) index) (contexts_ (links w)) s FrameType.data
    (tx_counter job) text out) as Hc.
  destruct (seal_reserved _ _ _ _ _ _ _) as [c sealed]. cbn [fst] in Hc.
  etransitivity; [by apply (handled_contexts w c)|]. destruct sealed as [[? ?]|?|]; cbn; [|by apply handled_same|reflexivity].
  by apply handled_same.
Qed.
#[local] Hint Resolve seal_job_handled : handled.

Lemma stage_jobs_handled now js : ∀ index, respects handled (stage_jobs now js index).
Proof. induction js as [|job js IH]; intros index; cbn [stage_jobs]; unfold stage_job; through. Qed.
#[local] Hint Resolve stage_jobs_handled : handled.

Lemma flush_transmit_handled now : respects handled (flush_transmit now).
Proof.
  unfold flush_transmit. through; [apply send_loop_handled; intros n w; by apply handled_same|..]; by case_match; apply handled_same.
Qed.
#[local] Hint Resolve flush_transmit_handled : handled.

Lemma fec_index_handled peer destination now : respects handled (fec_index peer destination now).
Proof. unfold fec_index. through. Qed.
#[local] Hint Resolve fec_index_handled : handled.

Lemma send_parity_handled destination parity : respects handled (send_parity destination parity).
Proof. unfold send_parity. through. Qed.
#[local] Hint Resolve send_parity_handled : handled.

Lemma note_peer_loss_handled peer raw residual inflated now : respects handled (note_peer_loss peer raw residual inflated now).
Proof. unfold note_peer_loss. through. Qed.

Lemma choose_fec_handled session destination now : respects handled (choose_fec session destination now).
Proof. unfold choose_fec, count_fec_packet. through. Qed.
#[local] Hint Resolve choose_fec_handled : handled.

Lemma reserve_handled w p s : heap w !! p = Some s → handled w (with_session p (reserve_counter s).1 w).
Proof.
  intros Hs. replace (reserve_counter s).1 with (step s do_reserve).1 by (cbn; by destruct (reserve_counter s)).
  by apply handled_session.
Qed.

Lemma stage_frame_handled p frame padded flow protection now : respects handled (stage_frame p frame padded flow protection now).
Proof.
  unfold stage_frame. apply respects_bind; [apply _|through|intros w0]. apply respects_bind; [apply _|through|intros _].
  apply respects_session; [apply _|]. intros w s Es. pose proof (reserve_handled w p s Es) as Hr. destruct (reserve_counter s) as [s' counter]. cbn [fst] in Hr.
  apply respects_from; [apply _|done|]. through.
Qed.
#[local] Hint Resolve stage_frame_handled : handled.

Lemma seal_padded_handled p type n : respects handled (seal_padded p type n).
Proof.
  apply respects_state. intros w. destruct (heap w !! p) as [s|] eqn:Es; [|by rewrite from_no_session].
  rewrite (from_session _ _ _ _ Es), from_sure. destruct (span_first _ _) as [text|[]|]; [|reflexivity..].
  destruct (Session.seal _ _ _ _ _ _) as [[c s'] sealed] eqn:E. unfold Session.seal in E.
  case_match; simplify_eq.
  - apply respects_from; [apply _| |through]. unfold with_session, with_contexts, on_links. cbn.
    rewrite list_insert_id by done. by destruct w as [[] ? ? ? ? ? ? ? ? ? ? ?].
  - pose proof (reserve_handled w p s Es) as Hr. destruct (reserve_counter s) as [s1 counter]. cbn [fst] in Hr.
    apply respects_from; [apply _| |through]. destruct counter as [n'|e|]; simplify_eq.
    2,3: etransitivity; [exact Hr|]; by apply handled_same.
    pose proof (seal_reserved_contexts (cipher_status (trace w) 0) (contexts_ (links w)) s1 type n' text
      (encrypt_buffer_ (buffers w))) as Hc.
    destruct (seal_reserved _ _ _ _ _ _ _) as [c1 r1]. simplify_eq. etransitivity; [exact Hr|]. by apply handled_contexts.
Qed.
#[local] Hint Resolve seal_padded_handled : handled.

Lemma drain_loop_handled now fuel : ∀ sent, respects handled (drain_loop fuel now sent).
Proof. induction fuel as [|fuel IH]; intros sent; cbn [drain_loop]; through. Qed.
#[local] Hint Resolve drain_loop_handled : handled.

Lemma drain_queue_handled now : respects handled (drain_queue now).
Proof. unfold drain_queue. through. Qed.
#[local] Hint Resolve drain_queue_handled : handled.

Lemma send_frame_handled p parsed frame padded flow protection now :
  respects handled (send_frame p parsed frame padded flow protection now).
Proof. unfold send_frame, protect, queue_wire, send_wire, session_at. through. Qed.
#[local] Hint Resolve send_frame_handled : handled.

Lemma flush_peer_handled now index e : respects handled (flush_peer now index e).
Proof. unfold flush_peer. through. Qed.
#[local] Hint Resolve flush_peer_handled : handled.

Lemma flush_fec_handled now : respects handled (flush_fec now).
Proof.
  unfold flush_fec. through. split; try done; [|apply advance_refl|exists []; by rewrite app_nil_r].
  unfold sources_bytes. cbn. rewrite !Forall_forall. intros Hs e [_ Hin]%list_elem_of_filter.
  apply list_elem_of_fmap in Hin as (e0 & -> & Hin). by apply expire_bytes, Hs.
Qed.

Lemma chaff_handled n pointers : ∀ sent, respects handled (chaff_sessions n pointers sent).
Proof. induction pointers as [|p ps IH]; intros sent; cbn [chaff_sessions]; unfold chaff_session, session_at; through. Qed.
#[local] Hint Resolve chaff_handled : handled.

Lemma send_chaff_handled now : respects handled (send_chaff now).
Proof. unfold send_chaff. through. by case_match; apply handled_same. Qed.
End egress.

(** ** What is opened and written *)

Section ingress.
Context `{Aead} `{!AeadLaws} `{Surroundings} `{!SurroundingsLaws} `{Handlers}.

(** The text is what the cipher makes of some packet under the session's
    receive key and the counter's nonce. *)
Definition decrypts (s : Session) (c : Z) (text : list Z) : Prop :=
  ∃ ad ct, aead_decrypt (key_ (receive_keys_ s)) (nonce_of c) ad ct = Some text.

(** The frame is the packet at the front of the text, and the peer owns the
    address it comes from. *)
Definition authorised (routes : RoutingTable) (peer : Z) (text frame : list Z) : Prop :=
  ∃ n v, declared_ip_length text = Ok n ∧ n ≤ blen text ∧ frame = take (Z.to_nat n) text ∧
    parse_ip_packet frame = Ok v ∧ is_authorized routes peer (source v) = true.

Definition opened_at (p : nat) (t : list Event) : list Z :=
  omap (λ e, match e with Opened q c _ => if decide (q = p) then Some c else None | _ => None end) t.

Definition written (e : Event) (frame : list Z) : Prop := (∃ done, e = Wrote frame done) ∨ e = Gathered frame.

Context (routes : RoutingTable).

Record ingress_ok (w : Worker) : Prop := {
  in_routes : routes_ w = routes;
  in_contexts : contexts_ok (contexts_ (links w));
  in_sources : sources_bytes w;
  in_jobs : Forall (λ j, is_u64 (Packet.counter (header (rx_view j)))) (receive_jobs_ w);
  in_sessions p s : heap w !! p = Some s →
    session_live s ∧ ∃ es, session_inv s es ∧ opened_at p (trace w) `sublist_of` delivered_of es;
  in_opened p c text : Opened p c text ∈ trace w → ∃ s, heap w !! p = Some s ∧ decrypts s c text;
  in_written i e frame : trace w !! i = Some e → written e frame →
    ∃ j p c text s, i = S j ∧ trace w !! j = Some (Opened p c text) ∧ heap w !! p = Some s ∧
      authorised routes (peer_ s) text frame;
}.

Definition keeps {A} (m : work A) : Prop := triple ingress_ok m (λ _, ingress_ok) ingress_ok.

Lemma quiet_not_opened p new : Forall quiet new → opened_at p new = [].
Proof. induction 1 as [|e new He Hnew IH]; [done|]. by destruct e. Qed.

Lemma quiet_not_in new p c text : Forall quiet new → Opened p c text ∉ new.
Proof. rewrite Forall_forall. intros Hq Hin. by apply (Hq _ Hin). Qed.

(** Extending the trace by events of which only the last may count. *)
Lemma lookup_quiet (t new : list Event) i e frame : Forall quiet new → (t ++ new) !! i = Some e → written e frame →
  (i < length t)%nat ∧ t !! i = Some e.
Proof.
  intros Hq Hi Hw. destruct (decide (i < length t)%nat) as [Hl|Hl]; [by rewrite lookup_app_l in Hi|].
  rewrite lookup_app_r in Hi by lia. pose proof (Forall_lookup_1 _ _ _ _ Hq Hi) as He.
  by destruct Hw as [[? ->]| ->].
Qed.

Lemma handled_ingress w w' : handled w w' → ingress_ok w → ingress_ok w'.
Proof.
  intros [Hr Hp Hj Hs [Hst Hnew] Hc (new & Et & Hq)] [I0 I1 I2 I3 I4 I5 I6]. split; [congruence|auto..|by rewrite Hj| | |].
  - intros p s Es. rewrite Et. unfold opened_at. rewrite omap_app. fold (opened_at p (trace w)) (opened_at p new).
    rewrite (quiet_not_opened p new Hq), app_nil_r. destruct (heap w !! p) as [s0|] eqn:E0.
    + destruct (I4 p s0 E0) as (Hl & es & Hi & Hsub). destruct (Hst p s0 E0) as (ops & Ho & E). simplify_eq.
      split; [by apply run_live|]. exists (es ++ (run s0 ops).2). split; [by apply run_inv_from|].
      unfold delivered_of. rewrite omap_app. by apply sublist_inserts_r.
    + destruct (Hnew p s E0 Es) as (Hl & es & Hi). split; [done|]. exists es. split; [done|].
      assert (opened_at p (trace w) = []) as ->; [|apply sublist_nil_l].
      apply elem_of_nil_inv. intros c (e & He & E)%list_elem_of_omap. destruct e; try done. case_decide; [|done].
      destruct (I5 _ _ _ He) as (s' & Es' & _). congruence.
  - intros p c text Hin. rewrite Et in Hin. apply elem_of_app in Hin as [Hin|Hin]; [|by apply quiet_not_in in Hin].
    destruct (I5 p c text Hin) as (s & Es & Hd). destruct (Hst p s Es) as (ops & _ & E). exists (run s ops).1.
    split; [done|]. unfold decrypts. by rewrite run_keys.
  - intros i e frame Hi Hw. rewrite Et in Hi. destruct (lookup_quiet _ _ _ _ _ Hq Hi Hw) as [Hl Hi'].
    destruct (I6 i e frame Hi' Hw) as (j & p & c & text & s & -> & Ej & Es & Ha). destruct (Hst p s Es) as (ops & _ & E).
    exists j, p, c, text, (run s ops).1. rewrite Et, lookup_app_l, run_peer by lia. done.
Qed.

Lemma handled_keeps {A} (m : work A) : respects handled m → keeps m.
Proof. intros Hm. apply (triple_respects handled); [done|]. intros w w' Hw. by apply handled_ingress. Qed.

(** A session opens a packet: its steps deliver exactly the packet's counter. *)
Lemma opening_ingress w p s ops c text : ingress_ok w → heap w !! p = Some s → Forall op_ok ops →
  delivered_of (run s ops).2 = [c] → decrypts s c text →
  ingress_ok (emits (Opened p c text) (with_session p (run s ops).1 w)).
Proof.
  intros [I0 I1 I2 I3 I4 I5 I6] Es Ho Hd Hdec.
  assert (p < length (heap w))%nat as Hl by (by eapply lookup_lt_Some).
  assert (∀ q t, heap w !! q = Some t → ∃ t', <[p := (run s ops).1]> (heap w) !! q = Some t' ∧
    receive_keys_ t' = receive_keys_ t ∧ peer_ t' = peer_ t) as Hkeep.
  { intros q t Et. destruct (decide (p = q)) as [<-|Hne].
    - rewrite list_lookup_insert_eq by done. simplify_eq. eexists. by rewrite run_keys, run_peer.
    - rewrite list_lookup_insert_ne by done. eauto. }
  split; cbn [emits with_session on_links links routes_ receive_jobs_ fec contexts_]; try done;
    unfold heap, trace, opened_at in *; cbn [emits with_session on_links links heap_ trace_] in *.
  - intros q t Et. rewrite omap_app. cbn. destruct (decide (p = q)) as [<-|Hne].
    + rewrite list_lookup_insert_eq in Et by done. injection Et as <-. destruct (I4 p s Es) as (Hlive & es & Hi & Hsub).
      split; [by apply run_live|]. exists (es ++ (run s ops).2). split; [by apply run_inv_from|].
      unfold delivered_of in *. rewrite omap_app, Hd. by apply sublist_app.
    + rewrite list_lookup_insert_ne in Et by done. rewrite app_nil_r. auto.
  - intros q c' text' [Hin|Hin%list_elem_of_singleton]%elem_of_app.
    + destruct (I5 q c' text' Hin) as (t & Et & Ht). destruct (Hkeep q t Et) as (t' & Et' & Hk & _).
      exists t'. split; [done|]. unfold decrypts. by rewrite Hk.
    + injection Hin as -> -> ->. exists (run s ops).1. rewrite list_lookup_insert_eq by done. split; [done|].
      unfold decrypts. by rewrite run_keys.
  - intros i e frame Hi Hw. destruct (decide (i < length (trace_ (links w)))%nat) as [Hil|Hil].
    + rewrite lookup_app_l in Hi by done. destruct (I6 i e frame Hi Hw) as (j & q & c' & text' & t & -> & Ej & Et & Ha).
      destruct (Hkeep q t Et) as (t' & Et' & _ & Hp). exists j, q, c', text', t'. rewrite Hp, lookup_app_l by lia. done.
    + rewrite lookup_app_r in Hi by lia. apply list_lookup_singleton_Some in Hi as [_ <-]. by destruct Hw as [[? ?]|?].
Qed.

(** Right after an opening, the packet at the front of the text may be written. *)
Definition just_opened (w : Worker) (peer : Z) (text : list Z) : Prop :=
  ∃ p c s, last (trace w) = Some (Opened p c text) ∧ heap w !! p = Some s ∧ peer_ s = peer.

Lemma writing_ingress w peer text frame e : ingress_ok w → just_opened w peer text →
  authorised routes peer text frame → written e frame → ingress_ok (emits e w).
Proof.
  intros [I0 I1 I2 I3 I4 I5 I6] (p & c & s & Hlast & Es & Hpeer) Ha Hw.
  assert (∀ q, opened_at q [e] = []) as Hno by (by destruct Hw as [[? ->]| ->]).
  apply last_Some in Hlast as [t Et].
  split; cbn [emits on_links links routes_ receive_jobs_ fec contexts_]; try done;
    unfold heap, trace in *; cbn [emits on_links links heap_ trace_] in *.
  - intros q t' Et'. unfold opened_at. rewrite omap_app. fold (opened_at q (trace_ (links w))) (opened_at q [e]).
    rewrite Hno, app_nil_r. auto.
  - intros q c' text' [Hin|Hin%list_elem_of_singleton]%elem_of_app; [eauto|]. by destruct Hw as [[? ->]| ->].
  - intros i e' frame' Hi Hw'. destruct (decide (i < length (trace_ (links w)))%nat) as [Hil|Hil].
    + rewrite lookup_app_l in Hi by done. destruct (I6 i e' frame' Hi Hw') as (j & q & c' & text' & s' & -> & Ej & Es' & Ha').
      exists j, q, c', text', s'. rewrite lookup_app_l by lia. done.
    + rewrite lookup_app_r in Hi by lia. apply list_lookup_singleton_Some in Hi as [Hi <-].
      assert (frame' = frame) as -> by (destruct Hw as [[? ->]| ->], Hw' as [[? ?]|?]; by simplify_eq).
      exists (length t), p, c, text, s. rewrite Et in Hi, Hil |- *. rewrite length_app in Hi, Hil. cbn in Hi, Hil.
      split; [lia|]. rewrite lookup_app_l by (rewrite length_app; cbn; lia).
      rewrite lookup_app_r, Nat.sub_diag by lia. rewrite Hpeer. done.
Qed.

(** What the runtime's functions promise.  A packet that confirms a
    provisional session is opened by the control plane, which files the session
    under the packet's key id; [WorkerPromotion] proves it of the function the
    runtime registers. *)
Definition promoted (w w' : Worker) (view : PacketView) (n : Z) : Prop :=
  let c := Packet.counter (header view) in
  ∃ w1 p s ops text, handled w w1 ∧ heap w1 !! p = Some s ∧ Forall op_ok ops ∧
    delivered_of (run s ops).2 = [c] ∧ decrypts s c text ∧
    w' = emits (Opened p c text) (with_session p (run s ops).1 w1) ∧
    sessions_ (table_ (links w')) !! key_id (header view) = Some p ∧
    span_first (E:=unit) (decrypt_buffer_ (buffers w')) (Z.to_nat n) = Ok text.

Class HandlerLaws : Prop := {
  request_handled f peer w : session_request_ = Some f → handled w (f peer w);
  responder_handled f peer token w : echo_responder_ = Some f → handled w (f peer token w);
  reply_handled f peer token w : echo_reply_handler_ = Some f → handled w (f peer token w);
  report_handled f peer raw residual w : loss_report_handler_ = Some f → handled w (f peer raw residual w);
  filter_handled f source d w : ingress_filter_ = Some f → handled w (f source d w).1;
  opener_promotes f view d source w : provisional_opener_ = Some f → is_u64 (Packet.counter (header view)) →
    contexts_ok (contexts_ (links w)) →
    match f view d source w with
    | (w', None) => handled w w'
    | (w', Some n) => promoted w w' view n
    end;
}.
Context `{!HandlerLaws}.

(** What stays in place for the jobs of a batch. *)
Record framed (w w' : Worker) : Prop := {
  fr_routes : routes_ w' = routes_ w;
  fr_plain : receive_plain_ (buffers w') = receive_plain_ (buffers w);
  fr_jobs : receive_jobs_ w' = receive_jobs_ w;
  fr_heap p s : heap w !! p = Some s →
    ∃ s', heap w' !! p = Some s' ∧ receive_keys_ s' = receive_keys_ s ∧ peer_ s' = peer_ s;
}.

#[export] Instance framed_preorder : PreOrder framed.
Proof.
  split; [split; [done..|eauto]|]. intros w1 w2 w3 [A1 A2 A3 A4] [B1 B2 B3 B4]. split; [congruence..|].
  intros p s Es. destruct (A4 p s Es) as (s2 & E2 & K2 & P2). destruct (B4 p s2 E2) as (s3 & E3 & K3 & P3).
  exists s3. split; [done|]. split; congruence.
Qed.

Lemma handled_framed w w' : handled w w' → framed w w'.
Proof.
  intros [? ? ? _ [Hs _] _ _]. split; [done..|]. intros p s (ops & _ & E)%Hs. eexists. by rewrite run_keys, run_peer.
Qed.

Lemma framed_same w w' : heap w' = heap w → routes_ w' = routes_ w →
  receive_plain_ (buffers w') = receive_plain_ (buffers w) → receive_jobs_ w' = receive_jobs_ w → framed w w'.
Proof. intros Eh ? ? ?. split; [done..|]. intros p s Es. rewrite Eh. eauto. Qed.

Lemma respects_framed {A} (m : work A) : respects handled m → respects framed m.
Proof. intros Hm w. by apply handled_framed. Qed.

Lemma handle_control_handled peer bytes : respects handled (handle_control peer bytes).
Proof.
  unfold handle_control. apply respects_bind; [apply _|through|intros _]. destruct (negb _); [through|].
  apply respects_bind; [apply _|through|intros kind]. apply respects_bind; [apply _|through|intros token].
  destruct (kind =? kEchoRequest).
  { destruct echo_responder_ eqn:E; through. by apply responder_handled. }
  destruct (kind =? kEchoReply).
  { destruct echo_reply_handler_ eqn:E; through. by apply reply_handled. }
  destruct (_ && _); [|through]. destruct loss_report_handler_ eqn:E; through. by apply report_handled.
Qed.

Lemma classify_authorized t v peer : refusal (decision (Routing.classify t v peer)) = None → peer ≠ kNoPeer →
  is_authorized t peer (source v) = true.
Proof.
  intros Hr Hp. unfold Routing.classify in Hr. rewrite (proj2 (Z.eqb_neq _ _) Hp) in Hr. cbn [negb andb] in Hr.
  repeat (case_match; [done|]). by destruct (is_authorized t peer (source v)).
Qed.

(** The rest of [deliver_opened], once the packet is found authorised. *)
Definition deliver_frame (w : Worker) (plaintext : list Z) (stable : bool) : work unit :=
  if offload_enabled then
    bind coalescer := sure (Coalescer.add (coalescer_ w) plaintext stable) in
    modify (λ w, count_udp_to_tun (emits (Gathered plaintext) (with_coalescer coalescer w)))
  else
    bind written := call_write plaintext in
    bind _ := drop_when (negb written) tun_write_failed in
    modify count_udp_to_tun.

Lemma from_call_write {A} frame (f : bool → work A) w :
  sbind (call_write frame) f w =
  f (write_frame (trace w) frame) (emits (Wrote frame (write_frame (trace w) frame)) w).
Proof. done. Qed.

(** A packet that is not control is dropped or, authorised, delivered. *)
Lemma deliver_opened_cases peer type text stable w : type ≠ FrameType.control →
  (∃ r, deliver_opened peer type text stable w = (dropped_for r w, Fail r)) ∨
  deliver_opened peer type text stable w = (w, Ub) ∨
  ∃ frame, deliver_opened peer type text stable w = deliver_frame w frame stable w ∧
    (peer ≠ kNoPeer → authorised (routes_ w) peer text frame).
Proof.
  intros Ht. assert (deliver_opened peer type text stable w = deliver_opened peer FrameType.data text stable w) as ->
    by (by destruct type).
  unfold deliver_opened. rewrite from_settled.
  destruct (declared_ip_length text) as [n|e|] eqn:En; [|left; by eexists|by right; left].
  rewrite from_drop_when. destruct (Z.ltb_spec (blen text) n) as [Hlt|Hge]; [left; by eexists|].
  rewrite from_sure. destruct (span_first text (Z.to_nat n)) as [frame|e|] eqn:Ef; [|by right; left..].
  rewrite from_settled. destruct (parse_ip_packet frame) as [v|e|] eqn:Ev; [|left; by eexists|by right; left].
  rewrite from_state, from_drop_if.
  destruct (refusal _) as [r|] eqn:Er; [left; by eexists|]. right; right. exists frame. split; [done|]. intros Hp.
  exists n, v. split; [done|]. split; [done|]. split; [|split; [done|by apply classify_authorized]].
  unfold span_first in Ef. by case_match; simplify_eq.
Qed.

Lemma deliver_opened_framed peer type text stable : respects framed (deliver_opened peer type text stable).
Proof.
  intros w. destruct (decide (type = FrameType.control)) as [->|Ht]; [apply handled_framed, handle_control_handled|].
  destruct (deliver_opened_cases peer type text stable w Ht) as [[r ->]|[->|(frame & -> & _)]]; [by apply framed_same|done|].
  unfold deliver_frame. destruct offload_enabled.
  - rewrite from_sure. destruct (Coalescer.add _ _ _); [|done..]. by apply framed_same.
  - rewrite from_call_write, from_drop_when. destruct (negb _); by apply framed_same.
Qed.

Lemma ingress_same w w' : links w' = links w → routes_ w' = routes_ w → receive_jobs_ w' = receive_jobs_ w →
  fec_sources_ (fec w') = fec_sources_ (fec w) → ingress_ok w → ingress_ok w'.
Proof.
  intros El Er Ej Es [I0 I1 I2 I3 I4 I5 I6]. split; unfold heap, trace, sources_bytes in *; rewrite ?El, ?Er, ?Ej, ?Es; done.
Qed.

Lemma deliver_opened_keeps peer type text stable :
  triple (λ w, ingress_ok w ∧ just_opened w peer text) (deliver_opened peer type text stable) (λ _, ingress_ok) ingress_ok.
Proof.
  intros w [Hok Hj]. destruct (decide (type = FrameType.control)) as [->|Ht].
  { apply (handled_keeps _ (handle_control_handled peer text) w Hok). }
  destruct (deliver_opened_cases peer type text stable w Ht) as [[r ->]|[->|(frame & -> & Ha)]];
    [by apply (ingress_same w)|done|].
  assert (peer ≠ kNoPeer) as Hp.
  { destruct Hj as (p & c & s & _ & Es & <-). by destruct (in_sessions w Hok p s Es) as [[_ ?] _]. }
  specialize (Ha Hp). rewrite (in_routes w Hok) in Ha. unfold deliver_frame. destruct offload_enabled.
  - unfold sure, lift, sbind, modify. destruct (Coalescer.add _ _ _) as [co|e|]; [|done..]. cbn [fst snd].
    apply (ingress_same (emits (Gathered frame) w)); try done. eapply writing_ingress; [done..|by right].
  - rewrite from_call_write. set (done := write_frame _ _).
    assert (ingress_ok (emits (Wrote frame done) w)) as Hw by (eapply writing_ingress; [done..|left; by eexists]).
    rewrite from_drop_when. destruct (negb done); by apply (ingress_same (emits (Wrote frame done) w)).
Qed.

(** ** Opening packets *)

Ltac ops_ok := repeat first [apply Forall_nil_2|apply Forall_cons_2]; try done.

(** The buffer after an opening: the text in front. *)
Definition opened_in (s : Session) (c : Z) (out out' : list Z) (n : Z) (text : list Z) : Prop :=
  decrypts s c text ∧ n = blen text ∧ (length text ≤ length out)%nat ∧ out' = text ++ drop (length text) out.

Lemma decrypt_spec st c s view packet out : contexts_ok c → session_live s →
  let r := decrypt st c s view packet out in
  contexts_ok r.1.1 ∧
  match r.2 with Ok n => ∃ text, opened_in s (Packet.counter (header view)) out r.1.2 n text | _ => True end.
Proof.
  intros Hc [Hk _]. unfold decrypt. case_match; [done|]. destruct (span_first packet 16) as [ad|e|]; [|done..].
  set (cnt := Packet.counter (header view)). destruct (Z.ltb_spec (blen (payload view)) kAeadTagSize) as [Ht|Ht].
  { unfold Crypto.open. by rewrite (proj2 (Z.ltb_lt _ _) Ht). }
  destruct (Z.ltb_spec (blen out) (blen (payload view) - kAeadTagSize)) as [Hr|Hr].
  { unfold Crypto.open. by rewrite (proj2 (Z.ltb_ge _ _) Ht), (proj2 (Z.ltb_lt _ _) Hr). }
  destruct (open_spec st c (receive_keys_ s) cnt ad (payload view) out Hc Hk Ht Hr) as [Hc' Ho].
  destruct (Crypto.open _ _ _ _ _ _ _) as [[c' out'] r]. cbn [fst snd] in *. split; [done|].
  destruct Ho as [Ho|[_ [Ho _]]]; [|cbn in Ho; by subst r].
  destruct (aead_decrypt _ _ _ _) as [text|] eqn:Ed; [|destruct Ho as [Ho _]; cbn in Ho; by subst r].
  injection Ho as -> ->. exists text. split; [by exists ad, (payload view)|]. split; [done|]. split; [|done].
  apply aead_body in Ed. unfold blen, kAeadTagSize in *. lia.
Qed.

Lemma run_two s op1 op2 : run s [op1; op2] = ((step (step s op1).1 op2).1, [(step s op1).2; (step (step s op1).1 op2).2]).
Proof. unfold run, observe. cbn. destruct (step s op1) as [s1 e1]. cbn. by destruct (step s1 op2). Qed.
Lemma run_app s ops ops' : (run s (ops ++ ops')).2 = (run s ops).2 ++ (run (run s ops).1 ops').2.
Proof. unfold run at 1. by rewrite fold_left_app, (run_from s []), run_from. Qed.
Lemma run_one s op : run s [op] = ((step s op).1, [(step s op).2]).
Proof. unfold run, observe. cbn. by destruct (step s op). Qed.

Lemma open_steps st now c s view packet out : contexts_ok c → session_live s → is_u64 (Packet.counter (header view)) →
  let cnt := Packet.counter (header view) in
  let r := Session.open st now c s view packet out in
  contexts_ok r.1.1.1 ∧
  match r.2 with
  | Ok n => (∃ text, opened_in s cnt out r.1.2 n text) ∧ r.1.1.2 = (run s [do_check cnt; do_commit now cnt]).1 ∧
            delivered_of (run s [do_check cnt; do_commit now cnt]).2 = [cnt]
  | _ => ∃ ops, Forall op_ok ops ∧ r.1.1.2 = (run s ops).1
  end.
Proof.
  intros Hc Hs Hu cnt. unfold Session.open. fold cnt. destruct (check_window s cnt) as [s1 w] eqn:Ew.
  assert (s1 = (step s (do_check cnt)).1) as Es1 by (cbn; by rewrite Ew).
  assert (∃ ops, Forall op_ok ops ∧ s1 = (run s ops).1) as Hearly.
  { exists [do_check cnt]. rewrite run_one. split; [ops_ok|done]. }
  destruct w as [[]|e|]; [|by split..].
  assert (receive_keys_ s1 = receive_keys_ s ∧ peer_ s1 = peer_ s) as [K1 P1].
  { rewrite Es1. pose proof (run_keys s [do_check cnt]) as Hk. pose proof (run_peer s [do_check cnt]) as Hp.
    by rewrite run_one in Hk, Hp. }
  destruct (decrypt_spec st c s1 view packet out Hc) as [Hc' Hd]; [unfold session_live; by rewrite K1, P1|].
  destruct (decrypt st c s1 view packet out) as [[c' out'] r]. cbn [fst snd] in *.
  destruct r as [n|e|].
  - destruct (commit now s1 cnt) as [s2 r2] eqn:Ec. cbn [fst snd]. split; [done|]. rewrite run_two, <- Es1. cbn [step].
    rewrite Ec. destruct r2 as [[]|e|]; cbn.
    + split; [|done]. destruct Hd as (text & (ad & ct & Hd) & Hrest). exists text. split; [|done].
      exists ad, ct. by rewrite <- K1.
    + exists [do_check cnt; do_commit now cnt]. rewrite run_two, <- Es1. cbn [step]. rewrite Ec. split; [ops_ok|done].
    + exists [do_check cnt; do_commit now cnt]. rewrite run_two, <- Es1. cbn [step]. rewrite Ec. split; [ops_ok|done].
  - split; [done|]. cbn [fst snd]. case_decide; [|exact Hearly].
    exists [do_check cnt; do_auth_failure]. rewrite run_two, <- Es1. split; [ops_ok|done].
  - by split.
Qed.

(** What [forward_sealed] has in hand before it delivers. *)
Definition ready (r : Z * Z) (w : Worker) : Prop :=
  ingress_ok w ∧ ∃ text, span_first (E:=unit) (decrypt_buffer_ (buffers w)) (Z.to_nat r.2) = Ok text ∧ just_opened w r.1 text.

Lemma last_emits e w : last (trace (emits e w)) = Some e.
Proof. unfold trace, emits. cbn. apply last_snoc. Qed.

Lemma opening_ready w p s ops c text : ingress_ok w → heap w !! p = Some s → Forall op_ok ops →
  delivered_of (run s ops).2 = [c] → decrypts s c text →
  let w' := emits (Opened p c text) (with_session p (run s ops).1 w) in ingress_ok w' ∧ just_opened w' (peer_ s) text.
Proof.
  intros Hok Es Ho Hd Ht. split; [by apply opening_ingress|]. exists p, c, (run s ops).1. split; [apply last_emits|].
  split; [|apply run_peer]. unfold heap. cbn. apply list_lookup_insert_eq. by eapply lookup_lt_Some.
Qed.

Lemma handled_open w p s ops c out : heap w !! p = Some s → Forall op_ok ops →
  (contexts_ok (contexts_ (links w)) → contexts_ok c) →
  handled w (set_decrypt out (with_contexts c (with_session p (run s ops).1 w))).
Proof.
  intros Es Ho Hc. split; try done; [|exists []; by rewrite app_nil_r]. unfold heap. cbn. split.
  - intros q t Et. destruct (decide (p = q)) as [<-|Hne].
    + exists ops. split; [done|]. rewrite list_lookup_insert_eq by (by eapply lookup_lt_Some). unfold heap in Es. congruence.
    + exists []. split; [done|]. by rewrite list_lookup_insert_ne.
  - intros q t Hn Et. destruct (decide (p = q)) as [<-|Hne]; [unfold heap in Es; congruence|].
    rewrite list_lookup_insert_ne in Et by done. congruence.
Qed.

Lemma with_session_twice p s1 s2 e c out w :
  emits e (with_session p s2 (set_decrypt out (with_contexts c (with_session p s1 w)))) =
  emits e (with_session p s2 (set_decrypt out (with_contexts c w))).
Proof. unfold emits, with_session, on_links. cbn. by rewrite list_insert_insert_eq. Qed.

Lemma open_session_ready p source view datagram recovered now : is_u64 (Packet.counter (header view)) →
  triple ingress_ok (open_session p source view datagram recovered now) ready ingress_ok.
Proof.
  intros Hu w Hok. unfold open_session. rewrite from_state. destruct (heap w !! p) as [s|] eqn:Es; [|by rewrite from_no_session].
  rewrite (from_session _ _ _ _ Es). destruct (in_sessions w Hok p s Es) as (Hlive & _).
  pose proof (open_steps (cipher_status (trace w) 0) now (contexts_ (links w)) s view datagram (decrypt_buffer_ (buffers w))
    (in_contexts w Hok) Hlive Hu) as [Hc Ho].
  destruct (Session.open _ _ _ _ _ _ _) as [[[c s'] out] r]. cbn [fst snd] in *. set (cnt := Packet.counter (header view)) in *.
  destruct r as [n|e|].
  - destruct Ho as ((text & Hdec & -> & Hlen & ->) & -> & Hd). unfold sbind, modify. cbn [fst snd].
    set (out := text ++ drop (length text) (decrypt_buffer_ (buffers w))). set (w0 := set_decrypt out (with_contexts c w)).
    assert (ingress_ok w0) as Hok0.
    { apply (handled_ingress w); [|done]. etransitivity; [by apply (handled_contexts w c)|by apply handled_same]. }
    assert (take (Z.to_nat (blen text)) out = text) as Et by (unfold blen, out; by rewrite Nat2Z.id, take_app_length).
    set (op := if recovered then do_recovered else do_endpoint source).
    assert ((run s [do_check cnt; do_commit now cnt; op]).1 =
      if recovered then note_recovered (run s [do_check cnt; do_commit now cnt]).1
      else note_authenticated_endpoint (run s [do_check cnt; do_commit now cnt]).1 source) as Elast.
    { change [do_check cnt; do_commit now cnt; op] with ([do_check cnt; do_commit now cnt] ++ [op]).
      rewrite run_app_state, run_one. subst op. by destruct recovered. }
    destruct (opening_ready w0 p s [do_check cnt; do_commit now cnt; op] cnt text) as [H1' H2']; [done|done| | |done|].
    + ops_ok. subst op. by destruct recovered.
    + change [do_check cnt; do_commit now cnt; op] with ([do_check cnt; do_commit now cnt] ++ [op]).
      rewrite run_app, run_one. unfold delivered_of in *. rewrite omap_app, Hd. subst op. by destruct recovered.
    + rewrite Et, <- Elast, with_session_twice. rewrite (run_peer s). split; [done|]. exists text. split; [|done].
      cbn. unfold span_first. rewrite Et. rewrite decide_True; [done|]. unfold out, blen. rewrite length_app. lia.
  - destruct Ho as (ops & Hops & ->). cbn. apply (ingress_same (set_decrypt out (with_contexts c (with_session p (run s ops).1 w))));
      try done. apply (handled_ingress w); [by apply handled_open|done].
  - destruct Ho as (ops & Hops & ->). cbn. apply (handled_ingress w); [by apply handled_open|done].
Qed.

Lemma ingress_bind {A B} (m : work A) (f : A → work B) : keeps m → (∀ a, keeps (f a)) → keeps (sbind m f).
Proof. intros Hm Hf. by eapply triple_bind. Qed.
Lemma keeps_verdict (m : work unit) : keeps m → keeps (verdict m).
Proof. intros Hm w Hw. specialize (Hm w Hw). unfold verdict. by destruct (m w) as [w' [[]|e|]]. Qed.

Lemma find_session_handled id : respects handled (find_session id).
Proof.
  apply respects_state. intros w. destruct (find_by_key_id _ _) as [t p]. unfold sbind, modify, sret. cbn.
  split; try done; [apply advance_refl|]. exists []. by rewrite app_nil_r.
Qed.

Lemma from_find_session {A} id (f : option nat → work A) w p : sessions_ (table_ (links w)) !! id = Some p →
  ∃ t, sbind (find_session id) f w = f (Some p) (with_table t w).
Proof. intros E. unfold find_session, find_by_key_id, sbind, state, gets. cbn. rewrite E. by eexists. Qed.

Lemma ready_table r w t : ready r w → ready r (with_table t w).
Proof.
  intros (Hok & text & Hs & Hj). split; [|by exists text]. apply (handled_ingress w); [|done].
  split; try done; [apply advance_refl|]. exists []. by rewrite app_nil_r.
Qed.

Lemma open_provisional_ready source view datagram : is_u64 (Packet.counter (header view)) →
  triple ingress_ok (open_provisional source view datagram) ready ingress_ok.
Proof.
  intros Hu w Hok. unfold open_provisional. destruct provisional_opener_ as [f|] eqn:Ef; [|by apply (ingress_same w)].
  rewrite (from_call (f view datagram source)). pose proof (opener_promotes f view datagram source w Ef Hu (in_contexts w Hok)) as Hp.
  destruct (f view datagram source w) as [w' [n|]]; cbn [fst snd].
  2: { apply (ingress_same w'); try done. by apply (handled_ingress w). }
  destruct Hp as (w1 & p & s & ops & text & Hh & Es & Ho & Hd & Hdec & -> & Et & Hsp).
  destruct (opening_ready w1 p s ops (Packet.counter (header view)) text) as [H1' H2']; [by apply (handled_ingress w)|done..|].
  set (w' := emits _ _) in *.
  destruct (from_find_session (key_id (header view))
    (λ pointer, match pointer with
                | None => drop_frame no_session
                | Some pointer => bind session := session_at pointer in sret (peer_ session, n)
                end) w' p Et) as [t ->].
  assert (heap (with_table t w') !! p = Some (run s ops).1) as Es'.
  { unfold heap. cbn. apply list_lookup_insert_eq. by eapply lookup_lt_Some. }
  rewrite (from_session _ _ _ _ Es'). cbn [sret fst snd]. apply ready_table. split; [done|]. exists text.
  by rewrite run_peer.
Qed.

Lemma forward_sealed_keeps source datagram recovered now : bytes_ok datagram →
  keeps (forward_sealed source datagram recovered now).
Proof.
  intros Hb w Hok. unfold forward_sealed. rewrite from_settled.
  destruct (parse_packet datagram) as [view|e|] eqn:Ep; [|by apply (ingress_same w)|done].
  destruct (parse_packet_inv datagram view Hb Ep) as [[[] _] _]. revert w Hok.
  eapply triple_bind; [apply handled_keeps, find_session_handled|]. intros pointer. eapply triple_bind with (M := ready).
  { destruct pointer; [by apply open_session_ready|by apply open_provisional_ready]. }
  intros r w (Hok & text & Hs & Hj). rewrite from_state, from_sure, Hs. by apply deliver_opened_keeps.
Qed.

Lemma forward_recovered_keeps source packets parity now : rows_bytes packets → ∀ reason,
  keeps (forward_recovered source packets parity reason now).
Proof.
  induction 1 as [|p packets Hp Hps IH]; intros reason; cbn [forward_recovered].
  - apply handled_keeps, respects_ret, _.
  - apply ingress_bind; [by apply keeps_verdict, forward_sealed_keeps|auto].
Qed.

Lemma fec_source_bytes source now entries : Forall (λ e, decoder_bytes (fs_decoder e)) entries →
  Forall (λ e, decoder_bytes (fs_decoder e)) (fec_source source now entries).1.
Proof.
  intros He. unfold fec_source. destruct (find_source _ _ _) as [i|]; cbn.
  - apply Forall_alter; [done|]. by intros e _ Hd.
  - apply Forall_app. split; [case_match; [by apply Forall_delete|done]|]. by apply Forall_singleton, Forall_nil.
Qed.

Lemma receive_symbol_keeps source h body now : bytes_ok body →
  triple ingress_ok (receive_symbol source h body now) (λ recovered w, ingress_ok w ∧ rows_bytes recovered) ingress_ok.
Proof.
  intros Hb w Hok. unfold receive_symbol. rewrite from_state.
  pose proof (fec_source_bytes source now _ (in_sources w Hok)) as Hs.
  destruct (fec_source source now (fec_sources_ (fec w))) as [entries index]. cbn [fst] in Hs.
  rewrite from_at. destruct (entries !! index) as [entry|] eqn:Ee; [|done].
  rewrite from_sure. destruct (FecDecoder.receive _ _ _ _ _) as [[d out]|e|] eqn:Er; [|done..].
  destruct (receive_bytes _ _ _ _ _ _ _ (Forall_lookup_1 _ _ _ _ Hs Ee) Hb Er) as [Hd Ho]. cbn. split; [|done].
  apply (handled_ingress w); [|done]. split; try done; [|apply advance_refl|exists []; by rewrite app_nil_r].
  intros _. unfold sources_bytes. cbn. by apply Forall_insert.
Qed.

Lemma forward_from_transport_keeps source datagram now : bytes_ok datagram →
  keeps (forward_from_transport source datagram now).
Proof.
  intros Hb. unfold forward_from_transport. destruct (looks_like_fec_symbol datagram); [|by apply forward_sealed_keeps].
  apply ingress_bind; [apply handled_keeps; through|]. intros [h|]; [|apply handled_keeps; through]. intros w Hok. rewrite from_sure.
  destruct (subspan_from datagram _) as [body|e|] eqn:Es; [|done..].
  assert (bytes_ok body) as Hbody.
  { unfold subspan_from in Es. case_match; simplify_eq. by apply bytes_ok_drop. }
  revert w Hok. eapply triple_bind; [by apply receive_symbol_keeps|]. intros recovered w [Hok Hrec]. revert w Hok.
  apply ingress_bind. { destruct (parity h); [apply handled_keeps; through|]. by apply keeps_verdict, forward_sealed_keeps. }
  intros reason. apply ingress_bind; [by apply forward_recovered_keeps|]. intros r. apply handled_keeps. unfold conclude. through.
Qed.

(** ** Batches *)

(** Job [i] holds, if it was decrypted, the text of its packet in its buffer. *)
Definition job_ready (w : Worker) (i : nat) (job : ReceiveJob) : Prop :=
  is_u64 (Packet.counter (header (rx_view job))) ∧
  (rx_ok job = true → ∃ s plain text, heap w !! rx_session job = Some s ∧ receive_plain_ (buffers w) !! i = Some plain ∧
     span_first (E:=unit) plain (Z.to_nat (rx_length job)) = Ok text ∧
     decrypts s (Packet.counter (header (rx_view job))) text).

Lemma job_ready_framed w w' i job : framed w w' → job_ready w i job → job_ready w' i job.
Proof.
  intros [_ Hp _ Hh] [Hu Hr]. split; [done|]. intros Hok. destruct (Hr Hok) as (s & plain & text & Es & Ep & Et & Hd).
  destruct (Hh _ _ Es) as (s' & Es' & Hk & _). exists s', plain, text. rewrite Hp. unfold decrypts. by rewrite Hk.
Qed.

Definition decrypted (k : nat) (w : Worker) : Prop :=
  ∀ i job, (i < k)%nat → receive_jobs_ w !! i = Some job → job_ready w i job.

Lemma decrypt_job_keeps k job : is_u64 (Packet.counter (header (rx_view job))) →
  triple (λ w, ingress_ok w ∧ decrypted k w ∧ (k < length (receive_jobs_ w))%nat) (decrypt_job k job)
    (λ _ w, ingress_ok w ∧ decrypted (S k) w) ingress_ok.
Proof.
  intros Hu w (Hok & Hdec & Hk). unfold decrypt_job. rewrite from_state.
  destruct (heap w !! rx_session job) as [s|] eqn:Es; [|by rewrite from_no_session].
  rewrite (from_session _ _ _ _ Es), from_at. destruct (receive_plain_ (buffers w) !! k) as [plain|] eqn:Ep; [|done].
  destruct (in_sessions w Hok _ s Es) as (Hlive & _).
  pose proof (decrypt_spec (cipher_status (trace w) k) (contexts_ (links w)) s (rx_view job) (rx_datagram job) plain
    (in_contexts w Hok) Hlive) as [Hc Hd].
  destruct (decrypt _ _ _ _ _ _) as [[c out] r]. cbn [fst snd] in *. rewrite from_modify.
  assert (∀ job', is_u64 (Packet.counter (header (rx_view job'))) →
    ingress_ok (set_received k job' (with_contexts c (set_opened k out w)))) as Hok'.
  { intros job' Hu'. destruct Hok as [I0 I1 I2 I3 I4 I5 I6]. split; try done. cbn. by apply Forall_insert. }
  assert (∀ job', job_ready (set_received k job' (with_contexts c (set_opened k out w))) k job' →
    decrypted (S k) (set_received k job' (with_contexts c (set_opened k out w)))) as Hdec'.
  { intros job' Hj i j Hi Ej. destruct (decide (i = k)) as [->|Hne].
    { cbn in Ej. rewrite list_lookup_insert_eq in Ej by done. by simplify_eq. }
    cbn in Ej. rewrite list_lookup_insert_ne in Ej by done. destruct (Hdec i j ltac:(lia) Ej) as [Hu' Hr]. split; [done|].
    intros Hjok. destruct (Hr Hjok) as (s' & plain' & text & ? & ? & ? & ?). exists s', plain', text.
    split; [done|]. cbn. rewrite list_lookup_insert_ne by done. done. }
  destruct r as [n|e|].
  - cbn [modify fst snd]. split; [by apply Hok'|]. apply Hdec'. split; [done|]. intros _.
    destruct Hd as (text & Hdt & -> & Hlen & ->). exists s, (text ++ drop (length text) plain), text.
    split; [done|]. cbn. rewrite list_lookup_insert_eq by (by eapply lookup_lt_Some). split; [done|]. split; [|done].
    unfold span_first, blen. rewrite Nat2Z.id. rewrite decide_True by (rewrite length_app; lia). by rewrite take_app_length.
  - cbn [modify fst snd]. split; [by apply Hok'|]. by apply Hdec'.
  - cbn. destruct Hok as [I0 I1 I2 I3 I4 I5 I6]. by split.
Qed.

Lemma decrypt_jobs_keeps l : Forall (λ j, is_u64 (Packet.counter (header (rx_view j)))) l → ∀ k,
  triple (λ w, ingress_ok w ∧ decrypted k w ∧ length (receive_jobs_ w) = (k + length l)%nat) (for_all l decrypt_job k)
    (λ _ w, ingress_ok w ∧ decrypted (k + length l) w ∧ length (receive_jobs_ w) = (k + length l)%nat) ingress_ok.
Proof.
  induction 1 as [|job l Hj Hl IH]; intros k w (Hok & Hdec & Hlen).
  { cbn in *. by rewrite Nat.add_0_r in *. }
  cbn [for_all]. pose proof (decrypt_job_keeps k job Hj w) as Hstep. cbn [length] in *.
  assert (length (receive_jobs_ (decrypt_job k job w).1) = length (receive_jobs_ w)) as Hl'.
  { unfold decrypt_job. rewrite from_state. destruct (heap w !! rx_session job) as [s|] eqn:Es; [|by rewrite from_no_session].
    rewrite (from_session _ _ _ _ Es), from_at. destruct (_ !! k); [|done]. destruct (decrypt _ _ _ _ _ _) as [[c out] r].
    rewrite from_modify. destruct r; cbn; by rewrite ?length_insert. }
  unfold sbind. destruct (decrypt_job k job w) as [w1 [[]|e|]]; cbn [fst snd] in *.
  - replace (k + S (length l))%nat with (S k + length l)%nat by lia. apply IH. destruct Hstep; [split; [done|]; split; [done|lia]|].
    split; [done|]. split; [done|]. lia.
  - apply Hstep. split; [done|]; split; [done|lia].
  - apply Hstep. split; [done|]; split; [done|lia].
Qed.

Lemma framed_session w p s s' : heap w !! p = Some s → receive_keys_ s' = receive_keys_ s → peer_ s' = peer_ s →
  framed w (with_session p s' w).
Proof.
  intros Es Hk Hp. split; [done..|]. intros q t Et. unfold heap in *. cbn. destruct (decide (p = q)) as [<-|Hne].
  - rewrite list_lookup_insert_eq by (by eapply lookup_lt_Some). simplify_eq. eauto.
  - rewrite list_lookup_insert_ne by done. eauto.
Qed.

Lemma settle_job_framed now index job : respects framed (settle_job now index job).
Proof.
  unfold settle_job. destruct (negb (rx_ok job)).
  { apply respects_bind; [apply _| |].
    { case_match; [|apply respects_ret, _]. unfold update_session. apply respects_session; [apply _|]. intros w s Es.
      by apply (framed_session w _ s). }
    intros _. apply respects_bind; [apply _| |intros _; apply respects_ret, _]. apply respects_modify. intros w. by apply framed_same. }
  apply respects_session; [apply _|]. intros w s Es. set (cnt := Packet.counter (header (rx_view job))).
  pose proof (run_keys s [do_commit now cnt]) as Hk. pose proof (run_peer s [do_commit now cnt]) as Hp.
  rewrite run_one in Hk, Hp. cbn [step] in Hk, Hp. destruct (commit now s cnt) as [s' r]. cbn [fst] in *.
  rewrite from_modify. pose proof (framed_session w _ s s' Es Hk Hp) as Hf.
  etransitivity; [exact Hf|]. destruct r as [[]|e|]; [|rewrite from_modify; by apply framed_same|done].
  rewrite from_state, from_at. destruct (_ !! index) as [plain|]; [|done]. rewrite from_sure.
  destruct (span_first _ _) as [text|e|]; [|done..]. rewrite from_modify.
  match goal with |- framed _ (sbind ?m ?f ?w').1 =>
    assert (respects framed (sbind m f)) as Hm; [|etransitivity; [|apply (Hm w')]] end.
  { apply respects_bind; [apply _|apply respects_verdict, deliver_opened_framed|intros ?; apply respects_ret, _]. }
  etransitivity; [|by apply (framed_same (with_session (rx_session job) (note_authenticated_endpoint s' (rx_source job))
    (with_session (rx_session job) s' w)))].
  apply (framed_session _ (rx_session job) s'); [|done..]. unfold heap. cbn. apply list_lookup_insert_eq. by eapply lookup_lt_Some.
Qed.

Lemma settle_job_keeps now index job :
  triple (λ w, ingress_ok w ∧ job_ready w index job) (settle_job now index job) (λ _, ingress_ok) ingress_ok.
Proof.
  intros w [Hok [Hu Hr]]. unfold settle_job. destruct (rx_ok job) eqn:Erx; cbn [negb].
  2: { clear Hr. revert w Hok. apply ingress_bind.
       - apply handled_keeps. case_match; [|through]. unfold update_session. apply respects_session; [apply _|]. intros w s Es.
         by apply (handled_session w _ s do_auth_failure).
       - intros _. apply handled_keeps. through. }
  destruct (Hr eq_refl) as (s & plain & text & Es & Ep & Et & Hd). rewrite (from_session _ _ _ _ Es).
  set (cnt := Packet.counter (header (rx_view job))) in *. destruct (commit now s cnt) as [s' r] eqn:Ec.
  assert (s' = (step s (do_commit now cnt)).1) as Es' by (cbn; by rewrite Ec). rewrite from_modify.
  assert (ingress_ok (with_session (rx_session job) s' w)) as Hok1.
  { apply (handled_ingress w); [|done]. rewrite Es'. by apply handled_session. }
  destruct r as [[]|e|]; [|by apply (ingress_same (with_session (rx_session job) s' w))|done].
  rewrite from_state, from_at. cbn [with_session on_links buffers]. rewrite Ep, from_sure, Et, from_modify.
  destruct (opening_ready w (rx_session job) s [do_commit now cnt; do_endpoint (rx_source job)] cnt text) as [H1' H2']; [done|done|ops_ok| |done|].
  { rewrite run_two. cbn [step]. by rewrite Ec. }
  rewrite run_two in H1', H2'. cbn [step fst] in H1', H2'. rewrite Ec in H1', H2'. cbn [fst] in H1', H2'.
  assert (emits (Opened (rx_session job) cnt text) (with_session (rx_session job)
     (note_authenticated_endpoint s' (rx_source job)) (with_session (rx_session job) s' w)) =
    emits (Opened (rx_session job) cnt text) (with_session (rx_session job) (note_authenticated_endpoint s' (rx_source job)) w)) as ->.
  { unfold emits, with_session, on_links. cbn. by rewrite list_insert_insert_eq. }
  assert (peer_ s' = peer_ s) as ->.
  { pose proof (run_peer s [do_commit now cnt]) as Hp. rewrite run_one in Hp. by rewrite Es'. }
  set (w1 := emits _ _) in *. pose proof (deliver_opened_keeps (peer_ s) (type (header (rx_view job))) text true w1
    (conj H1' H2')) as Hdel. unfold sbind, verdict. by destruct (deliver_opened _ _ _ _ _) as [w2 [[]|e|]].
Qed.

Lemma settle_jobs_keeps now js : ∀ index n,
  triple (λ w, ingress_ok w ∧ ∀ i job, js !! i = Some job → job_ready w (index + i) job) (settle_jobs now js index n)
    (λ _, ingress_ok) ingress_ok.
Proof.
  induction js as [|job js IH]; intros index n w [Hok Hr]; [done|]. cbn [settle_jobs].
  pose proof (settle_job_keeps now index job w) as Hk. pose proof (settle_job_framed now index job w) as Hf.
  unfold sbind. destruct (settle_job now index job w) as [w1 [b|e|]]; cbn [fst snd] in *.
  - apply IH. split; [apply Hk; split; [done|]|].
    + specialize (Hr 0%nat job eq_refl). by rewrite Nat.add_0_r in Hr.
    + intros i j Ej. apply (job_ready_framed w); [done|]. replace (S index + i)%nat with (index + S i)%nat by lia. by apply Hr.
  - apply Hk. split; [done|]. specialize (Hr 0%nat job eq_refl). by rewrite Nat.add_0_r in Hr.
  - apply Hk. split; [done|]. specialize (Hr 0%nat job eq_refl). by rewrite Nat.add_0_r in Hr.
Qed.

Lemma flush_tun_writes_handled : respects handled flush_tun_writes.
Proof.
  unfold flush_tun_writes. through.
  - intros w. by apply handled_emits.
  - by case_match; apply handled_same.
Qed.

Lemma settle_receive_keeps now : keeps (settle_receive now).
Proof.
  intros w Hok. unfold settle_receive. rewrite from_state. pose proof (in_jobs w Hok) as Hu.
  assert (ingress_ok w ∧ decrypted 0 w ∧ length (receive_jobs_ w) = (0 + length (receive_jobs_ w))%nat) as Hpre
    by (split; [done|]; split; [intros ? ? ?; lia|done]).
  revert Hu Hpre. destruct (receive_jobs_ w) as [|job js] eqn:Ej; [done|]. rewrite <- Ej. intros Hu Hpre.
  assert (∀ l, Forall (λ j, is_u64 (Packet.counter (header (rx_view j)))) l →
    triple (λ w, ingress_ok w ∧ decrypted 0 w ∧ length (receive_jobs_ w) = (0 + length l)%nat)
      (bind _ := for_all l decrypt_job 0 in
       bind w := state in
       bind delivered := settle_jobs now (receive_jobs_ w) 0 0 in
       bind _ := flush_tun_writes in
       bind _ := modify (with_receive_jobs []) in
       sret delivered) (λ _, ingress_ok) ingress_ok) as Hall; [|by apply (Hall (receive_jobs_ w))].
  clear w Hok Ej Hu Hpre job js. intros l Hl. eapply triple_bind; [by apply decrypt_jobs_keeps|]. intros _ w (Hok & Hdec & Hlen). rewrite from_state.
  assert (ingress_ok w ∧ ∀ i job, receive_jobs_ w !! i = Some job → job_ready w (0 + i) job) as Hpre.
  { split; [done|]. intros i job Ej. apply Hdec; [|done]. rewrite <- Hlen. by eapply lookup_lt_Some. }
  revert Hpre. generalize (receive_jobs_ w). intros js Hpre. clear Hok Hdec Hlen. revert w Hpre.
  eapply triple_bind; [apply settle_jobs_keeps|]. intros delivered. apply ingress_bind; [apply handled_keeps, flush_tun_writes_handled|].
  intros _ w [I0 I1 I2 I3 I4 I5 I6]. by split.
Qed.

Lemma stage_receive_keeps source datagram now : bytes_ok datagram → keeps (stage_receive source datagram now).
Proof.
  intros Hb w Hok. unfold stage_receive. rewrite from_settled.
  destruct (parse_packet datagram) as [view|e|] eqn:Ep; [|done..].
  destruct (parse_packet_inv datagram view Hb Ep) as [[[] _] _]. revert w Hok.
  apply ingress_bind; [apply handled_keeps, find_session_handled|]. intros [p|]; [|apply handled_keeps; through].
  apply ingress_bind; [apply handled_keeps; through|]. intros w0. apply ingress_bind.
  { case_match; [apply ingress_bind; [apply settle_receive_keeps|intros ?]|]; apply handled_keeps; through. }
  intros _ w Hok. destruct (heap w !! p) as [s|] eqn:Es; [|by rewrite from_no_session].
  rewrite (from_session _ _ _ _ Es). set (cnt := Packet.counter (header view)).
  pose proof (handled_session w p s (do_check cnt) Es hok_counter) as Hh. cbn [step] in Hh.
  destruct (check_window s cnt) as [s' r]. cbn [fst] in Hh. rewrite from_modify.
  pose proof (handled_ingress _ _ Hh Hok) as Hok1. set (w1 := with_session p s' w) in *.
  destruct r as [u|e|]; [|by apply (ingress_same w1)..].
  destruct Hok1 as [I0 I1 I2 I3 I4 I5 I6]. split; try done. cbn. apply Forall_app. split; [done|]. by apply Forall_singleton.
Qed.

Lemma count_forward_keeps m : keeps m → keeps (count_forward m).
Proof. intros Hm. apply ingress_bind; [by apply keeps_verdict|]. intros ?. apply handled_keeps; through. Qed.

Lemma deliver_recovered_keeps source packets now : rows_bytes packets → ∀ n, keeps (deliver_recovered source packets now n).
Proof.
  induction 1 as [|p packets Hp Hps IH]; intros n; cbn [deliver_recovered].
  - apply handled_keeps; through.
  - apply ingress_bind; [by apply count_forward_keeps, forward_sealed_keeps|auto].
Qed.

Lemma pump_symbol_keeps source h datagram now : bytes_ok datagram → keeps (pump_symbol source h datagram now).
Proof.
  intros Hb w Hok. unfold pump_symbol. rewrite from_sure. destruct (subspan_from datagram _) as [body|e|] eqn:Es; [|done..].
  assert (bytes_ok body) as Hbody by (unfold subspan_from in Es; case_match; simplify_eq; by apply bytes_ok_drop).
  revert w Hok. eapply triple_bind; [by apply receive_symbol_keeps|]. intros recovered w [Hok Hrec]. revert w Hok.
  apply ingress_bind; [destruct (parity h); [apply handled_keeps; through|by apply stage_receive_keeps]|]. intros staged.
  apply ingress_bind; [destruct recovered; [apply handled_keeps; through|apply settle_receive_keeps]|]. intros n1.
  apply ingress_bind; [by apply deliver_recovered_keeps|]. intros n2. case_match; [apply handled_keeps; through|].
  apply ingress_bind; [apply settle_receive_keeps|]. intros n3.
  apply ingress_bind; [by apply count_forward_keeps, forward_sealed_keeps|]. intros n4. apply handled_keeps; through.
Qed.

Lemma pump_datagram_keeps d now : bytes_ok (in_payload d) → keeps (pump_datagram d now).
Proof.
  destruct d as [source datagram]. intros Hb. cbn in Hb. unfold pump_datagram.
  assert (keeps (bind n1 := settle_receive now in
    bind n2 := count_forward (forward_from_transport source datagram now) in sret (n1 + n2)%nat)) as Hfall.
  { apply ingress_bind; [apply settle_receive_keeps|]. intros n1.
    apply ingress_bind; [by apply count_forward_keeps, forward_from_transport_keeps|]. intros n2. apply handled_keeps; through. }
  apply ingress_bind.
  { apply handled_keeps. unfold call_filter. destruct ingress_filter_ as [f|] eqn:Ef; [|through]. intros w.
    pose proof (filter_handled f source datagram w Ef). by destruct (f source datagram w). }
  intros taken. destruct taken; [apply handled_keeps; through|]. destruct (negb _).
  - apply ingress_bind; [by apply stage_receive_keeps|]. intros []; [apply handled_keeps; through|done].
  - apply ingress_bind; [apply handled_keeps; through|]. intros [h|]; [by apply pump_symbol_keeps|done].
Qed.

Lemma pump_batch_keeps batch now : Forall (λ d, bytes_ok (in_payload d)) batch → ∀ n, keeps (pump_batch batch now n).
Proof.
  induction 1 as [|d batch Hd Hb IH]; intros n; cbn [pump_batch]; [apply handled_keeps; through|].
  apply ingress_bind; [by apply pump_datagram_keeps|auto].
Qed.

Lemma from_receive {A} room (f : option (list InboundDatagram) → work A) w :
  sbind (call_receive room) f w =
  f (receive_batch (trace w) room) (emits (Received (receive_batch (trace w) room)) w).
Proof. done. Qed.

Lemma pump_udp_keeps max now : keeps (pump_udp_to_tun max now).
Proof.
  unfold pump_udp_to_tun. apply ingress_bind.
  2: { intros n. apply handled_keeps. pose proof flush_tun_writes_handled. through. }
  generalize max at 1. intros fuel. generalize 0%nat at 1 as processed. generalize 0%nat as delivered.
  induction fuel as [|fuel IH]; intros delivered processed; cbn [pump_udp_loop]; [apply handled_keeps; through|].
  case_match; [|apply handled_keeps; through]. set (room := Nat.min _ _). intros w Hok.
  rewrite from_receive.
  pose proof (receive_batch_bytes (trace w) room) as Hb.
  assert (ingress_ok (emits (Received (receive_batch (trace w) room)) w)) as Hok' by (by apply (handled_ingress w); [apply handled_emits|]).
  destruct (receive_batch (trace w) room) as [[|d batch]|]; [done| |done]. specialize (Hb _ eq_refl). revert Hok'.
  generalize (emits (Received (Some (d :: batch))) w). apply ingress_bind; [by apply pump_batch_keeps|]. intros n.
  apply ingress_bind; [apply settle_receive_keeps|auto].
Qed.

(** ** Frames from the tunnel *)

Lemma session_for_handled peer now : respects handled (session_for peer now).
Proof.
  unfold session_for. apply respects_state. intros w. destruct (find_by_peer _ _) as [t pointer]. apply respects_from; [apply _| |].
  { split; try done; [apply advance_refl|]. exists []. by rewrite app_nil_r. }
  assert (respects handled (bind _ := request_session peer in drop_frame (A:=nat * Session * Endpoint) no_session)) as Hm.
  { through. unfold request_session. destruct session_request_ as [f|] eqn:Ef; through. by apply request_handled. }
  destruct pointer as [p|]; [|done]. unfold session_at. through.
Qed.

Lemma route_from_tun_handled frame batch now : respects handled (route_from_tun frame batch now).
Proof.
  pose proof (stage_frame_handled). pose proof (send_frame_handled). pose proof (choose_fec_handled).
  pose proof (session_for_handled). unfold route_from_tun, drop_if, drop_when. through.
Qed.

Lemma route_segments_handled segments now : ∀ n, respects handled (route_segments segments now n).
Proof.
  pose proof route_from_tun_handled. induction segments as [|s segments IH]; intros n; cbn [route_segments]; unfold count_forward; through.
Qed.

Lemma pump_tun_handled max now : respects handled (pump_tun_to_udp max now).
Proof.
  pose proof route_from_tun_handled. pose proof route_segments_handled. pose proof flush_transmit_handled.
  unfold pump_tun_to_udp. apply respects_bind; [apply _| |intros ?; through]. generalize 0%nat.
  induction max as [|max IH]; intros n; cbn [pump_tun_loop]; unfold pump_offloaded, count_forward; through.
  - intros w. by apply handled_emits.
  - by case_match; apply handled_same.
Qed.

(** ** Histories *)

(** What the owner of the worker calls. *)
Inductive WorkerOp :=
| Forward (frame : list Z) (now : Instant)
| Transport (source : Endpoint) (datagram : list Z) (now : Instant)
| PumpTun (max : nat) (now : Instant)
| PumpUdp (max : nat) (now : Instant)
| Poll (now : Instant)
| Flush (now : Instant)
| FlushTransmit (now : Instant)
| Chaff (now : Instant)
| PeerLoss (peer : Z) (raw residual : f64) (inflated : bool) (now : Instant)
| EnableFec (mode : FecMode)
| EnableQueueing (rate : f64) (burst : Z) (now : Instant)
| SetPacing (rate : f64)
| SetMtu (mtu : Z)
| SetProfile (profile : TrafficProfile).

Definition worker_step (op : WorkerOp) (w : Worker) : Worker :=
  match op with
  | Forward frame now => (forward_from_tun frame now w).1
  | Transport source datagram now => (forward_from_transport source datagram now w).1
  | PumpTun max now => (pump_tun_to_udp max now w).1
  | PumpUdp max now => (pump_udp_to_tun max now w).1
  | Poll now => (poll now w).1
  | Flush now => (flush now w).1
  | FlushTransmit now => (flush_transmit now w).1
  | Chaff now => (send_chaff now w).1
  | PeerLoss peer raw residual inflated now => (note_peer_loss peer raw residual inflated now w).1
  | EnableFec mode => enable_fec mode w
  | EnableQueueing rate burst now => enable_queueing rate burst now w
  | SetPacing rate => set_pacing_rate rate w
  | SetMtu mtu => set_mtu mtu w
  | SetProfile profile => set_traffic_profile profile w
  end.

Definition worker_op_ok (op : WorkerOp) : Prop :=
  match op with Transport _ datagram _ => bytes_ok datagram | _ => True end.

(** The worker's own operations, and what others do to the sessions it shares
    in between. *)
Inductive worker_reach (start : Worker) : Worker → Prop :=
| reach_start : worker_reach start start
| reach_step w op : worker_reach start w → worker_op_ok op → worker_reach start (worker_step op w)
| reach_outside w w' : worker_reach start w → handled w w' → worker_reach start w'.

Lemma keeps_state {A} (m : work A) w : keeps m → ingress_ok w → ingress_ok (m w).1.
Proof. intros Hm Hw. specialize (Hm w Hw). by destruct (m w) as [w' [a|e|]]. Qed.

Lemma worker_step_ingress op w : worker_op_ok op → ingress_ok w → ingress_ok (worker_step op w).
Proof.
  intros Ho Hw. destruct op; cbn [worker_step worker_op_ok] in *;
    try (apply keeps_state; [|done]); try (by apply (ingress_same w)).
  - apply handled_keeps. pose proof route_from_tun_handled. pose proof flush_transmit_handled. unfold forward_from_tun, conclude. through.
  - by apply forward_from_transport_keeps.
  - apply handled_keeps, pump_tun_handled.
  - apply pump_udp_keeps.
  - unfold poll. apply ingress_bind; [apply handled_keeps, pump_tun_handled|intros n].
    apply ingress_bind; [apply pump_udp_keeps|intros m; apply handled_keeps; through].
  - apply handled_keeps. pose proof flush_tun_writes_handled. pose proof flush_fec_handled. pose proof drain_queue_handled.
    unfold flush. through.
  - apply handled_keeps, flush_transmit_handled.
  - apply handled_keeps, send_chaff_handled.
  - apply handled_keeps, note_peer_loss_handled.
  - destruct Hw as [I0 I1 I2 I3 I4 I5 I6]. split; try done. constructor.
  - unfold set_pacing_rate. case_match; by apply (ingress_same w).
Qed.

(** A worker at the start: nothing happened yet, and its sessions are installed
    ones. *)
Record worker_start (w : Worker) : Prop := {
  ws_routes : routes_ w = routes;
  ws_contexts : contexts_ok (contexts_ (links w));
  ws_sources : fec_sources_ (fec w) = [];
  ws_jobs : receive_jobs_ w = [];
  ws_trace : trace w = [];
  ws_sessions p s : heap w !! p = Some s → session_live s ∧ ∃ es, session_inv s es;
}.

Lemma worker_start_ingress w : worker_start w → ingress_ok w.
Proof.
  intros [S1 S2 S3 S4 S5 S6]. split; [done|done|unfold sources_bytes; by rewrite S3|by rewrite S4| |rewrite S5|rewrite S5].
  - intros p s Es. destruct (S6 p s Es) as (Hl & es & Hi). split; [done|]. exists es. split; [done|]. rewrite S5. apply sublist_nil_l.
  - by intros p c text ?%elem_of_nil.
  - done.
Qed.

Lemma worker_reach_ingress start w : worker_start start → worker_reach start w → ingress_ok w.
Proof.
  intros Hs. induction 1 as [|w op _ IH Ho|w w' _ IH Hh];
    [by apply worker_start_ingress|by apply worker_step_ingress|by apply (handled_ingress w)].
Qed.
End ingress.

(** C4. What comes out of the tunnel.  In every history of a worker, with any
    carrier, tunnel device and handlers and whatever other workers and the
    control plane do to the shared sessions meanwhile: each frame written to
    the tunnel, or gathered for a coalesced write, is the IP packet at the
    front of a text that was opened just before; that text is what the cipher
    made of a packet under the receive key of a session; the source address of
    the frame is one that the routing table assigns to the session's peer; and
    no session opened two packets with the same counter. *)
Theorem tunnel_writes_authentic `{AeadLaws} `{SurroundingsLaws} `{Handlers} `{!HandlerLaws} routes start w :
  worker_start routes start → worker_reach start w →
  (∀ i e frame, trace w !! i = Some e → written e frame →
     ∃ j p c text s, i = S j ∧ trace w !! j = Some (Opened p c text) ∧ heap w !! p = Some s ∧ decrypts s c text ∧
       authorised routes (peer_ s) text frame) ∧
  ∀ p, NoDup (opened_at p (trace w)).
Proof.
  intros Hs Hr. pose proof (worker_reach_ingress routes start w Hs Hr) as Hok. split.
  - intros i e frame Hi Hw. destruct (in_written routes w Hok i e frame Hi Hw) as (j & p & c & text & s & -> & Ej & Es & Ha).
    exists j, p, c, text, s. split; [done|]. split; [done|]. split; [done|]. split; [|done].
    destruct (in_opened routes w Hok p c text) as (s' & Es' & Hd); [by apply list_elem_of_lookup_2 in Ej|]. by simplify_eq.
  - intros p. destruct (heap w !! p) as [s|] eqn:Es.
    + destruct (in_sessions routes w Hok p s Es) as (_ & es & Hi & Hsub). destruct (inv_window _ _ Hi) as (sp & _ & _ & Hnd & _).
      by eapply sublist_NoDup.
    + assert (opened_at p (trace w) = []) as ->; [|constructor].
      apply elem_of_nil_inv. intros c (e & He & E)%list_elem_of_omap. destruct e; try done. case_decide; [|done].
      destruct (in_opened routes w Hok _ _ _ He) as (s' & Es' & _). congruence.
Qed.

(** ** A worker at rest *)

(** A carrier that takes everything and has nothing to hand over. *)
#[local] Instance sample_surroundings : Surroundings := {|
  send_batch _ batch := Some (length batch);
  receive_batch _ _ := None;
  offload_enabled := false;
  read_frame _ := None;
  write_frame _ _ := true;
  write_vectored _ _ := true;
  cipher_status _ _ := all_well;
  visit sessions := (map_to_list sessions).*2;
  fec_backend := scalar;
  fec_pow x _ := x;
|}.
#[local] Instance sample_surroundings_laws : SurroundingsLaws.
Proof. split; by intros; simplify_eq/=. Qed.

#[local] Instance no_handlers : Handlers := {|
  session_request_ := None; echo_responder_ := None; echo_reply_handler_ := None;
  loss_report_handler_ := None; ingress_filter_ := None; provisional_opener_ := None;
|}.
#[local] Instance no_handler_laws `{Aead} : HandlerLaws.
Proof. by split. Qed.

Definition sample_routes : RoutingTable :=
  (add_route empty_table 5 (mkPrefix (from_bytes ipv4 [10; 0; 0; 0]) 20)).1.
Definition sample_worker : Worker :=
  let installed := sample_install 100 5 1 ([], new_session_table) in
  new_worker (mkLinks installed.1 installed.2 (new_contexts true) []) sample_routes.
Definition sample_frame : list Z :=
  [69; 0; 0; 24; 0; 0; 0; 0; 64; 17; 0; 0; 10; 0; 0; 1; 192; 168; 0; 2; 1; 0; 0; 53].
(** What the peer sends. *)
Definition sample_datagram : list Z :=
  let _ := toy_aead in sealed_packet (new_session 0 3 1 1 sample_keys sample_keys) FrameType.data 0 sample_frame.
Definition sample_endpoint : Endpoint := mkEndpoint (from_bytes ipv4 [10; 0; 5; 7]) 4000.
Definition sample_history : Worker :=
  let _ := toy_aead in worker_step (Transport sample_endpoint sample_datagram 200) sample_worker.

Lemma sample_worker_start : worker_start sample_routes sample_worker.
Proof.
  split; try done; [apply new_contexts_for|]. intros p s Hs. destruct p as [|p]; [|by destruct p].
  injection Hs as <-. split; [done|]. eexists. apply new_session_inv.
Qed.

Lemma tunnel_writes_authentic_witness :
  let _ := toy_aead in
  trace sample_history !! 1%nat = Some (Wrote sample_frame true) ∧
  (∃ text s, trace sample_history !! 0%nat = Some (Opened 0 0 text) ∧ heap sample_history !! 0%nat = Some s ∧
     decrypts s 0 text ∧ authorised sample_routes (peer_ s) text sample_frame) ∧
  NoDup (opened_at 0 (trace sample_history)).
Proof.
  intros T. assert (trace sample_history !! 1%nat = Some (Wrote sample_frame true)) as E by (by vm_compute).
  destruct (@tunnel_writes_authentic toy_aead toy_laws sample_surroundings sample_surroundings_laws no_handlers no_handler_laws
    sample_routes sample_worker sample_history) as [Hw Hn].
  - exact sample_worker_start.
  - apply reach_step; [apply reach_start|]. cbn [worker_op_ok]. apply (bool_decide_unpack (Forall (λ b, 0 ≤ b < 256) sample_datagram)). by vm_compute.
  - split; [exact E|]. split; [|apply Hn].
    destruct (Hw 1%nat (Wrote sample_frame true) sample_frame E) as (j & p & c & text & s & [= <-] & Ej & Es & H); [left; by exists true|].
    assert (trace sample_history !! 0%nat = Some (Opened 0 0 sample_frame)) as E0 by (by vm_compute).
    rewrite E0 in Ej. injection Ej as <- <- <-. exists sample_frame, s.
    split; [exact E0|]. split; [exact Es|exact H].
Defined.
