(* ===== verification/WorkerDelivery.v ===== *)
(** A frame that enters the tunnel at one worker leaves it at another. *)

From S2P Require Import Prelude Packet Double Gf256 Fec FecEncoder FecDecoder FecBytes Nonce Text Address Routing.
From S2P Require Import Qos Congestion Offload Coalescer Crypto ReplayWindow Session SessionTable Worker WorkerIngress.

(** ** Padding *)

Lemma declared_padded frame rest n : declared_ip_length frame = Ok n → declared_ip_length (frame ++ rest) = Ok n.
Proof.
  unfold declared_ip_length, guard. destruct frame as [|x frame]; [done|]. set (b := x :: frame).
  assert (0 < blen b) as Hpos by (unfold blen, b; cbn; lia). pose proof (blen_nonneg rest). rewrite blen_app.
  rewrite !(proj2 (Z.eqb_neq _ 0)) by lia. rewrite !rd_lt by (rewrite ?length_app; unfold b; cbn; lia).
  cbn [rbind]. replace ((b ++ rest) !!! 0%nat) with (b !!! 0%nat) by done.
  assert (∀ o, 0 ≤ Z.of_nat o < blen b → rd (E:=unit) (b ++ rest) o = rd b o) as Hrd.
  { intros o Ho. unfold rd. by rewrite lookup_app_l by (unfold blen in Ho; lia). }
  destruct (_ =? 4); [|destruct (_ =? 6); [|done]]; unfold kIpv4HeaderSize, kIpv6HeaderSize, read_u16.
  - destruct (Z.ltb_spec (blen b) 20); [done|]. rewrite (proj2 (Z.ltb_ge _ _)) by lia. by rewrite !Hrd by lia.
  - destruct (Z.ltb_spec (blen b) 40); [done|]. rewrite (proj2 (Z.ltb_ge _ _)) by lia. by rewrite !Hrd by lia.
Qed.

Lemma first_bucket_spec aligned buckets limit : aligned ≤ limit → Forall (λ b, b ≤ limit) buckets →
  aligned ≤ first_bucket aligned buckets ≤ limit.
Proof.
  intros Ha. induction 1 as [|b buckets Hb Hbs IH]; cbn [first_bucket]; [lia|]. destruct (Z.leb_spec aligned b); [lia|done].
Qed.

(** A frame the tunnel device delivers is padded to at most a frame buffer. *)
Lemma frame_padding_range w frame : mtu_ w ≤ kFrameBufferSize → blen frame ≤ kFrameBufferSize →
  blen frame ≤ frame_padding w frame ≤ kFrameBufferSize.
Proof.
  intros Hm Hf. pose proof (blen_nonneg frame). unfold kFrameBufferSize in *.
  assert (blen frame ≤ padded_length (blen frame) ≤ 9216) as Hp.
  { unfold padded_length, kPaddingAlignment. destruct (Z.eqb_spec (blen frame mod 16) 0); Z.to_euclidean_division_equations; lia. }
  assert (blen frame ≤ profile_padded_length (profile_ w) (blen frame) ≤ 9216) as Hq.
  { unfold profile_padded_length.
    destruct (first_bucket_spec (padded_length (blen frame)) (profile_buckets (profile_ w)) 9216); [lia| |lia].
    destruct (profile_ w); repeat (apply Forall_cons_2; [lia|]); apply Forall_nil_2. }
  unfold frame_padding. case_match; lia.
Qed.

(** What [pad_into] leaves at the front of the buffer. *)
Definition padded_frame (frame : list Z) (padded : Z) : list Z :=
  frame ++ replicate (Z.to_nat padded - length frame) 0.

Lemma length_padded_frame frame padded : blen frame ≤ padded → blen (padded_frame frame padded) = padded.
Proof. unfold padded_frame, blen. rewrite length_app, length_replicate. lia. Qed.

Lemma pad_into_spec buffer frame padded : blen frame ≤ padded ≤ blen buffer →
  ∃ rest, pad_into buffer frame padded = Ok (padded_frame frame padded ++ rest) ∧
    blen (padded_frame frame padded ++ rest) = blen buffer.
Proof.
  intros H. unfold blen in H. unfold pad_into. rewrite blit_ok by lia. cbn [rbind]. rewrite take_0, app_nil_l.
  assert (length (frame ++ drop (0 + length frame) buffer) = length buffer) as Hl
    by (rewrite length_app, length_drop; lia).
  rewrite blit_ok by (rewrite Hl, length_replicate; lia). rewrite take_app_length, length_replicate.
  eexists. unfold padded_frame. rewrite <- app_assoc. split; [reflexivity|].
  unfold blen. rewrite !length_app, length_replicate, length_drop, length_app, length_drop. lia.
Qed.

(** ** The worker that sends *)

(** The buffers as the constructor makes them. *)
Record buffers_sized (w : Worker) : Prop := {
  bs_pad : blen (pad_buffer_ (buffers w)) = kFrameBufferSize + kPaddingAlignment;
  bs_decrypt : blen (decrypt_buffer_ (buffers w)) = kFrameBufferSize;
  bs_plain : length (transmit_plain_ (buffers w)) = kDefaultBatchSize;
  bs_plains : Forall (λ b, blen b = kFrameBufferSize + kPaddingAlignment) (transmit_plain_ (buffers w));
  bs_slot : length (transmit_slots_ (buffers w)) = kDefaultBatchSize;
  bs_slots : Forall (λ b, blen b = kFecHeaderSize + (kFrameBufferSize + kPacketHeaderSize + kAeadTagSize + kPaddingAlignment))
               (transmit_slots_ (buffers w));
}.

Lemma sized_same w w' : buffers w' = buffers w → buffers_sized w → buffers_sized w'.
Proof. intros E [? ? ? ? ? ?]. by split; rewrite E. Qed.

Lemma sized_plain w : buffers_sized w → ∃ b, transmit_plain_ (buffers w) !! 0%nat = Some b ∧ blen b = 9232.
Proof.
  intros Hs. destruct (lookup_lt_is_Some_2 (transmit_plain_ (buffers w)) 0) as [b Hb].
  { rewrite (bs_plain _ Hs). unfold kDefaultBatchSize. lia. }
  exists b. split; [done|]. apply (Forall_lookup_1 _ _ _ _ (bs_plains _ Hs) Hb).
Qed.
Lemma sized_slot w : buffers_sized w → ∃ b, transmit_slots_ (buffers w) !! 0%nat = Some b ∧ blen b = 9275.
Proof.
  intros Hs. destruct (lookup_lt_is_Some_2 (transmit_slots_ (buffers w)) 0) as [b Hb].
  { rewrite (bs_slot _ Hs). unfold kDefaultBatchSize. lia. }
  exists b. split; [done|]. apply (Forall_lookup_1 _ _ _ _ (bs_slots _ Hs) Hb).
Qed.

Lemma from_ret {A B} (a : A) (f : A → work B) w : sbind (sret a) f w = f a w.
Proof. done. Qed.
Lemma from_ok {A B} (m : work A) (f : A → work B) w w' a : m w = (w', Ok a) → sbind m f w = f a w'.
Proof. unfold sbind. by intros ->. Qed.

Lemma from_fail {A B} (m : work A) (f : A → work B) w w' e : m w = (w', Fail e) → sbind m f w = (w', Fail e).
Proof. unfold sbind. by intros ->. Qed.
Lemma from_ub {A B} (m : work A) (f : A → work B) w w' : m w = (w', Ub) → sbind m f w = (w', Ub).
Proof. unfold sbind. by intros ->. Qed.

Section delivery.
Context `{AeadLaws} `{Surroundings} `{Handlers}.

(** A worker in no queueing or protecting mode, between batches, whose carrier
    takes the next datagram. *)
Record plain_sender (w : Worker) : Prop := {
  ps_sized : buffers_sized w;
  ps_mtu : mtu_ w ≤ kFrameBufferSize;
  ps_jobs : transmit_jobs_ w = [];
  ps_fec : fec_mode_ (fec w) = off;
  ps_queue : queueing_enabled_ (shaping w) = false;
  ps_contexts : contexts_ok (contexts_ (links w));
  ps_status : healthy (cipher_status (trace w) 0) = true;
  ps_carrier d : send_batch (trace w) [d] = Some 1%nat;
}.

(** The session of [peer] can seal, and knows where the peer is. *)
Record session_out (w : Worker) (peer : Z) (now : Instant) (p : nat) (s : Session) (destination : Endpoint) : Prop := {
  so_table : (find_by_peer (table_ (links w)) peer).2 = Some p;
  so_heap : heap w !! p = Some s;
  so_inv : ∃ es, session_inv s es;
  so_alive : expired s now = false;
  so_endpoint : endpoint_ s = Some destination;
  so_key_id : is_u16 (remote_key_id_ s) ∧ remote_key_id_ s ≠ kPreSessionKeyId;
  so_secret : key_ (send_keys_ s) ≠ zero_key;
}.

Lemma session_for_out w peer now p s destination : session_out w peer now p s destination →
  session_for peer now w = (with_table (find_by_peer (table_ (links w)) peer).1 w, Ok (p, s, destination)).
Proof.
  intros [Ht Hh _ Ha He _ _]. unfold session_for. rewrite from_state.
  destruct (find_by_peer _ _) as [t q]. cbn in Ht. subst q. rewrite from_modify.
  rewrite (from_session p _ _ s) by done. by rewrite Ha, He.
Qed.

Lemma reserve_endpoint s : endpoint_ (reserve_counter s).1 = endpoint_ s.
Proof. unfold reserve_counter. case_match; [done|]. by destruct (next _) as [sc [v|e|]]. Qed.

(** The job of the frame: the counter is reserved, the frame padded. *)
Definition staged (w : Worker) (p : nat) (s1 : Session) (plain : list Z) (job : TransmitJob) : Worker :=
  with_transmit_jobs [job] (set_plain 0 plain (with_session p s1 w)).

Lemma stage_frame_plain w now p s destination frame padded flow : plain_sender w →
  heap w !! p = Some s → (∃ es, session_inv s es) → sent (Session.stats_ s) < kRejectAfterMessages →
  endpoint_ s = Some destination → blen frame ≤ padded ≤ 9232 →
  ∃ s1 rest, reserve_counter s = (s1, Ok (sent (Session.stats_ s))) ∧ blen (padded_frame frame padded ++ rest) = 9232 ∧
    stage_frame p frame padded flow None now w =
    (staged w p s1 (padded_frame frame padded ++ rest) (mkTransmit p (sent (Session.stats_ s)) flow padded destination 0 None false), Ok tt).
Proof.
  intros Hw Hh [es Hi] Hs He Hp. destruct (sized_plain w (ps_sized _ Hw)) as (b & Hb & Hbl).
  destruct (reserve_counter_inv s es Hi) as [(s1 & Er & _)|[? _]]; [|lia].
  destruct (pad_into_spec b frame padded ltac:(lia)) as (rest & Ep & Hl). exists s1, rest. rewrite Hl.
  split; [done|]. split; [done|].
  assert (endpoint_ s1 = Some destination) as He1 by (by rewrite <- He, <- (reserve_endpoint s), Er).
  unfold stage_frame. rewrite from_state, (ps_jobs _ Hw), (bs_plain _ (ps_sized _ Hw)).
  rewrite (from_ok _ _ _ w tt) by done. rewrite (from_session p _ _ s) by done. rewrite Er, from_modify, from_settled, He1, from_state.
  rewrite from_at. cbn [with_session on_links transmit_jobs_ buffers]. rewrite (ps_jobs _ Hw). cbn [length]. rewrite Hb.
  rewrite from_sure, Ep, from_modify. done.
Qed.

(** A sealed packet in its slot, behind the room for a symbol header. *)
Lemma seal_job_plain w s1 slot job text rest :
  contexts_ok (contexts_ (links w)) → healthy (cipher_status (trace w) 0) = true →
  heap w !! tx_session job = Some s1 → transmit_plain_ (buffers w) !! 0%nat = Some (text ++ rest) →
  transmit_slots_ (buffers w) !! 0%nat = Some slot → blen slot = 9275 → tx_length job = blen text →
  frame_fits s1 FrameType.data text (drop (Z.to_nat kFecHeaderSize) slot) →
  let packet := sealed_packet s1 FrameType.data (tx_counter job) text in
  ∃ c tail, seal_job 0 job w =
    (set_job 0 (mkTransmit (tx_session job) (tx_counter job) (tx_flow job) (tx_length job) (tx_destination job)
                  (blen packet) (tx_fec job) true)
       (set_slot 0 (take (Z.to_nat kFecHeaderSize) slot ++ packet ++ tail) (with_contexts c w)), Ok tt).
Proof.
  intros Hc Hst Hs Hp Hsl Hl Ht Hf packet. unfold seal_job. rewrite from_state, (from_session _ _ _ _ Hs).
  rewrite !from_at, Hp, from_at, Hsl, from_sure, span_first_ok by (rewrite Ht, length_app; unfold blen; lia).
  rewrite from_sure, subspan_from_ok by (unfold blen, kFecHeaderSize in *; lia).
  replace (take (Z.to_nat (tx_length job)) (text ++ rest)) with text
    by (symmetry; apply take_app_length'; rewrite Ht; unfold blen; lia).
  destruct (seal_reserved_spec (cipher_status (trace w) 0) _ s1 FrameType.data (tx_counter job) text _ Hc Hst Hf)
    as (c & _ & ->).
  rewrite from_modify, from_settled. cbn beta iota. rewrite from_modify.
  exists c, (drop (length text + 32) (drop (Z.to_nat kFecHeaderSize) slot)).
  unfold packet. by rewrite blen_sealed_packet.
Qed.

Lemma stage_job_plain now w job slot front packet tail : tx_ok job = true → tx_fec job = None →
  transmit_slots_ (buffers w) !! 0%nat = Some slot → slot = front ++ packet ++ tail → blen front = kFecHeaderSize →
  tx_sealed job = blen packet →
  stage_job now 0 job w = (w, Ok [mkOutbound (tx_destination job) packet (tx_flow job) true false]).
Proof.
  intros Ho Hn Hsl -> Hfr Hse. unfold stage_job. rewrite Ho, Hn. cbn [negb]. rewrite from_state, from_at, Hsl, from_sure.
  assert (length front = Z.to_nat kFecHeaderSize) as Hlf by (unfold blen in Hfr; lia).
  rewrite subspan_ok by (rewrite !length_app, Hse; unfold blen; lia).
  rewrite drop_app_length' by done. rewrite take_app_length' by (rewrite Hse; unfold blen; lia). done.
Qed.

(** The carrier takes the one datagram. *)
Lemma send_one tally w d : send_batch (trace w) [d] = Some 1%nat →
  send_loop 2 tally [d] 0 w = (tally 1%nat (count_bytes_sent (payload_bytes [d]) (emits (Sent [d] (Some 1%nat)) w)), Ok 1%nat).
Proof.
  intros E. cbn [send_loop length Nat.ltb Nat.leb drop]. unfold call_send, sbind. cbn [drop skipn]. rewrite E. done.
Qed.

Lemma flush_one now w s1 job text rest : buffers_sized w → transmit_jobs_ w = [job] →
  contexts_ok (contexts_ (links w)) → healthy (cipher_status (trace w) 0) = true → (∀ d, send_batch (trace w) [d] = Some 1%nat) →
  heap w !! tx_session job = Some s1 → transmit_plain_ (buffers w) !! 0%nat = Some (text ++ rest) →
  tx_length job = blen text → tx_fec job = None → (∀ out, blen out = 9264 → frame_fits s1 FrameType.data text out) →
  let packet := sealed_packet s1 FrameType.data (tx_counter job) text in
  ∃ w', flush_transmit now w = (w', Ok 1%nat) ∧ heap w' = heap w ∧
    trace w' = trace w ++ [Sent [mkOutbound (tx_destination job) packet (tx_flow job) true false] (Some 1%nat)].
Proof.
  intros Hb Hj Hc Hst Hsend Hs Hp Ht Hn Hf packet. destruct (sized_slot w Hb) as (slot & Hsl & Hl).
  assert (frame_fits s1 FrameType.data text (drop (Z.to_nat kFecHeaderSize) slot)) as Hfit.
  { apply Hf. unfold blen, kFecHeaderSize in *. rewrite length_drop. lia. }
  destruct (seal_job_plain w s1 slot job text rest Hc Hst Hs Hp Hsl Hl Ht Hfit) as (c & tail & Es). fold packet in Es.
  set (job' := mkTransmit _ _ _ _ _ _ _ true) in Es. set (w1 := set_job _ _ _) in Es.
  assert (transmit_jobs_ w1 = [job']) as Hj1 by (unfold w1; cbn; by rewrite Hj).
  assert (transmit_slots_ (buffers w1) !! 0%nat = Some (take (Z.to_nat kFecHeaderSize) slot ++ packet ++ tail)) as Hsl1.
  { cbn. rewrite list_lookup_insert_eq by (by eapply lookup_lt_Some). done. }
  assert (blen (take (Z.to_nat kFecHeaderSize) slot) = kFecHeaderSize) as Hfr.
  { unfold blen, kFecHeaderSize in *. rewrite length_take. lia. }
  unfold flush_transmit. rewrite from_state, Hj. cbn [for_all].
  rewrite (from_ok _ _ _ w1 tt) by (unfold sbind at 1; by rewrite Es). rewrite from_state, Hj1.
  rewrite (from_ok _ _ _ w1 [mkOutbound (tx_destination job) packet (tx_flow job) true false]).
  2: { cbn [stage_jobs]. erewrite from_ok; [|by eapply (stage_job_plain now w1 job')]. done. }
  rewrite from_modify. cbn beta iota. rewrite (from_ok _ _ _ _ _ (send_one _ (with_transmit_jobs [] w1) _ (Hsend _))).
  eexists. split; [reflexivity|]. done.
Qed.

Lemma plain_sender_table w t : plain_sender w → plain_sender (with_table t w).
Proof. intros [Hs ? ? ? ? ? ? ?]. split; try done. by apply (sized_same w). Qed.

Lemma session_out_sent w peer now p s destination : session_out w peer now p s destination →
  sent (Session.stats_ s) < kRejectAfterMessages.
Proof. intros [_ _ _ Ha _ _ _]. unfold expired in Ha. apply orb_false_iff in Ha as [Ha _]. by apply Z.leb_gt in Ha. Qed.

Lemma route_plain w now frame v p s destination : plain_sender w → bytes_ok frame → blen frame ≤ kFrameBufferSize →
  parse_ip_packet frame = Ok v → decision (Routing.classify (routes_ w) v kNoPeer) = forward →
  session_out w (forward_peer (Routing.classify (routes_ w) v kNoPeer)) now p s destination →
  let padded := frame_padding w frame in
  ∃ t s1 rest flow, reserve_counter s = (s1, Ok (sent (Session.stats_ s))) ∧
    blen (padded_frame frame padded ++ rest) = 9232 ∧
    route_from_tun frame true now w =
    (staged (with_table t w) p s1 (padded_frame frame padded ++ rest)
       (mkTransmit p (sent (Session.stats_ s)) flow padded destination 0 None false), Ok tt).
Proof.
  intros Hw Hb Hl Ev Hd Hout padded. destruct (parse_ip_packet_spec frame Hb) as [_ Hv]. specialize (Hv v Ev).
  destruct (flow_key_of_ok frame v Hb Hv) as (key & Ek & _).
  pose proof (frame_padding_range w frame (ps_mtu _ Hw) Hl) as Hpad. fold padded in Hpad.
  set (peer := forward_peer _) in *. set (t := (find_by_peer (table_ (links w)) peer).1).
  pose proof (plain_sender_table w t Hw) as Hw0. set (w0 := with_table t w) in *.
  pose proof (session_for_out _ _ _ _ _ _ Hout) as Efor. pose proof (session_out_sent _ _ _ _ _ _ Hout) as Hsent.
  destruct Hout as [_ Hh Hi _ He _ _].
  destruct (stage_frame_plain w0 now p s destination frame padded (u32 (hash_flow key)) Hw0 Hh Hi Hsent He)
    as (s1 & rest & Er & Hrest & Estage); [unfold kFrameBufferSize in *; lia|].
  exists t, s1, rest, (u32 (hash_flow key)). split; [done|]. split; [done|].
  unfold route_from_tun. rewrite from_settled, Ev. rewrite from_sure, Ek, from_state, Hd. rewrite from_drop_if. cbn [refusal].
  rewrite from_drop_when. fold peer. rewrite (from_ok _ _ _ _ _ Efor).
  rewrite from_state, from_drop_when. fold t w0. change (frame_padding w0 frame) with padded.
  rewrite (bs_pad _ (ps_sized _ Hw0)). rewrite (proj2 (Z.ltb_ge _ _)) by (unfold kPaddingAlignment; lia).
  unfold choose_fec. rewrite (from_ok _ _ _ w0 None).
  2: { rewrite from_state. by rewrite (ps_fec _ Hw0). }
  by rewrite from_state, (ps_queue _ Hw0).
Qed.

(** The frame goes out as one datagram: sealed with the next counter of the
    session, padded as the profile says. *)
Lemma forward_plain w now frame v p s destination : plain_sender w → bytes_ok frame → blen frame ≤ kFrameBufferSize →
  parse_ip_packet frame = Ok v → decision (Routing.classify (routes_ w) v kNoPeer) = forward →
  session_out w (forward_peer (Routing.classify (routes_ w) v kNoPeer)) now p s destination →
  ∃ w' s1 flow, let text := padded_frame frame (frame_padding w frame) in
    forward_from_tun frame now w = (w', Ok tt) ∧
    reserve_counter s = (s1, Ok (sent (Session.stats_ s))) ∧ heap w' = <[p := s1]> (heap w) ∧
    (∀ out, blen out = 9264 → frame_fits s1 FrameType.data text out) ∧
    trace w' = trace w ++ [Sent [mkOutbound destination (sealed_packet s1 FrameType.data (sent (Session.stats_ s)) text)
                                   flow true false] (Some 1%nat)].
Proof.
  intros Hw Hb Hl Ev Hd Hout. destruct (route_plain w now frame v p s destination) as (t & s1 & rest & flow & Er & Hrest & Eroute);
    try done.
  pose proof (frame_padding_range w frame (ps_mtu _ Hw) Hl) as Hpad. set (padded := frame_padding w frame) in *.
  set (text := padded_frame frame padded) in *. set (job := mkTransmit _ _ _ _ _ _ _ _) in Eroute.
  set (w1 := staged _ _ _ _ _) in Eroute. destruct Hout as [_ Hh [es Hi] _ _ Hk Hsec].
  assert (blen text = padded) as Hbt by (apply length_padded_frame; lia).
  assert (send_keys_ s1 = send_keys_ s ∧ remote_key_id_ s1 = remote_key_id_ s) as [Esk Erk].
  { destruct (reserve_counter_inv s es Hi) as [(s1' & Er' & _ & _ & _ & ? & ?)|[_ Er']]; rewrite Er in Er'; by simplify_eq. }
  assert (∀ out, blen out = 9264 → frame_fits s1 FrameType.data text out) as Hfit.
  { intros out Ho. unfold kFrameBufferSize in *. split; rewrite ?Erk, ?Esk, ?Hbt; try done; [|unfold kMaximumPacketSize; lia|lia].
    apply bytes_ok_app. split; [done|]. apply Forall_replicate. split; lia. }
  assert (transmit_plain_ (buffers w1) = <[0%nat := text ++ rest]> (transmit_plain_ (buffers w))) as Eplain by done.
  destruct (sized_plain w (ps_sized _ Hw)) as (b0 & Hb0 & _). apply lookup_lt_Some in Hb0.
  destruct (flush_one now w1 s1 job text rest) as (w' & Ef & Eh & Et); try done; try apply Hw.
  - destruct (ps_sized _ Hw) as [? ? B1 B2 ? ?]. split; try done; rewrite Eplain; [by rewrite length_insert|].
    by apply Forall_insert.
  - cbn. apply list_lookup_insert_eq. by eapply lookup_lt_Some.
  - rewrite Eplain. by apply list_lookup_insert_eq.
  - exists w', s1, flow. split; [|split; [done|split; [done|split; [done|done]]]].
    unfold forward_from_tun. rewrite (from_ok _ _ _ w1 None) by (unfold verdict; by rewrite Eroute).
    by rewrite (from_ok _ _ _ _ _ Ef).
Qed.

(** ** The worker that receives *)

(** A worker between calls whose tunnel device takes the frames it is given;
    the coalescer holds the packets [waiting]. *)
Record plain_receiver (w : Worker) (waiting : list (list (list Z))) : Prop := {
  pr_sized : blen (decrypt_buffer_ (buffers w)) = kFrameBufferSize;
  pr_contexts : contexts_ok (contexts_ (links w));
  pr_status : healthy (cipher_status (trace w) 0) = true;
  pr_waiting : Coalescer.holds (coalescer_ w) waiting;
  pr_writes t frame : write_frame t frame = true;
  pr_vectored t frame : write_vectored t frame = true;
}.

(** The writes that [frame] leads to while the packets [waiting] are in the
    coalescer: on its own, or as a packet that the frames of the coalescer
    deliver with the others. *)
Inductive emerges (frame : list Z) (waiting : list (list (list Z))) : list Event → Prop :=
| emerges_written frames : offload_enabled = false → Forall2 delivers frames waiting →
    emerges frame waiting (Wrote frame true :: ((λ f, WroteFrame f true) <$> frames))
| emerges_gathered frames groups : offload_enabled = true → joins frame waiting groups → Forall2 delivers frames groups →
    emerges frame waiting (Gathered frame :: ((λ f, WroteFrame f true) <$> frames)).

(** The session under the key id [id] opens what [s1] seals; [counter] is new
    to it and not below its window. *)
Record session_in (w : Worker) (id : Z) (keys : TrafficKeys) (counter : Z) (q : nat) (r : Session) : Prop := {
  si_table : (find_by_key_id (table_ (links w)) id).2 = Some q;
  si_heap : heap w !! q = Some r;
  si_keys : receive_keys_ r = keys;
  si_peer : peer_ r ≠ kNoPeer;
  si_fresh : ∃ es, session_inv r es ∧ counter ∉ delivered_of es;
  si_window : highest_ (replay_ r) - counter < kWindowSize;
}.

Definition delivery_of (frame : list Z) : Event := if offload_enabled then Gathered frame else Wrote frame true.

Lemma deliver_plain w waiting peer frame padded v stable : Coalescer.holds (coalescer_ w) waiting →
  write_frame (trace w) frame = true → bytes_ok frame → parse_ip_packet frame = Ok v →
  refusal (decision (Routing.classify (routes_ w) v peer)) = None →
  ∃ w' groups, deliver_opened peer FrameType.data (padded_frame frame padded) stable w = (w', Ok tt) ∧
    links w' = links (emits (delivery_of frame) w) ∧ Coalescer.holds (coalescer_ w') groups ∧
    if offload_enabled then joins frame waiting groups else groups = waiting.
Proof.
  intros Hc Hwr Hb Ev Hr. destruct (parse_ip_packet_spec frame Hb) as [_ Hv]. specialize (Hv v Ev).
  pose proof (iv_declared _ _ Hv) as Hd. rewrite (iv_total _ _ Hv) in Hd. unfold deliver_opened, padded_frame, delivery_of.
  rewrite from_settled, (declared_padded _ _ _ Hd), from_drop_when.
  rewrite (proj2 (Z.ltb_ge _ _)) by (unfold blen; rewrite length_app; lia).
  rewrite from_sure, span_first_ok by (unfold blen; rewrite length_app; lia).
  rewrite take_app_length' by (unfold blen; lia). rewrite from_settled, Ev, from_state, from_drop_if, Hr.
  destruct offload_enabled.
  - destruct (Coalescer.add_spec _ waiting frame stable Hc Hb) as (c & groups & Ea & Hc' & Hj).
    rewrite from_sure, Ea. by eexists _, groups.
  - rewrite from_call_write, Hwr, from_drop_when. by eexists _, waiting.
Qed.

(** Flushing the coalescer writes its frames. *)
Lemma write_frames frames : (∀ t frame, write_vectored t frame = true) → ∀ i w,
  ∃ w', for_all frames (λ _ frame, bind written := call_write_vectored frame in
           modify (if written : bool then λ w, w else dropped_for tun_write_failed)) i w = (w', Ok tt) ∧
    trace w' = trace w ++ ((λ f, WroteFrame f true) <$> frames) ∧ heap w' = heap w ∧ table_ (links w') = table_ (links w).
Proof.
  intros Hv. induction frames as [|fr frames IH]; intros i w; cbn [for_all].
  { exists w. by rewrite app_nil_r. }
  destruct (IH (S i) (emits (WroteFrame fr true) w)) as (w' & E & Et & Eh & Etab).
  exists w'. rewrite (from_ok _ _ w (emits (WroteFrame fr true) w) tt), E.
  2: { unfold sbind, call_write_vectored. by rewrite Hv. }
  split; [done|]. rewrite Et. split; [cbn; by rewrite <- app_assoc|done].
Qed.

Lemma flush_plain w groups : Coalescer.holds (coalescer_ w) groups → (∀ t frame, write_vectored t frame = true) →
  ∃ w' frames, flush_tun_writes w = (w', Ok tt) ∧ Forall2 delivers frames groups ∧
    trace w' = trace w ++ ((λ f, WroteFrame f true) <$> frames) ∧ heap w' = heap w ∧ table_ (links w') = table_ (links w).
Proof.
  intros Hc Hv. unfold flush_tun_writes. rewrite from_state. unfold coalescer_empty.
  destruct (Nat.eqb_spec (used_ (coalescer_ w)) 0) as [E|E].
  - exists w, []. pose proof (ho_items _ _ Hc) as Hi. rewrite E in Hi. inversion Hi. rewrite app_nil_r.
    split; [done|]. by split; [constructor|].
  - destruct (Coalescer.flush_spec _ _ Hc) as (c & frames & Ef & Hd & _). rewrite from_sure, Ef. cbn [fst snd].
    destruct (write_frames frames Hv 0 w) as (w' & Ew & Et & Eh & Etab). rewrite (from_ok _ _ _ _ _ Ew).
    by exists (with_coalescer c w'), frames.
Qed.

Lemma find_again t id : (find_by_key_id (find_by_key_id t id).1 id).2 = (find_by_key_id t id).2.
Proof. unfold find_by_key_id. destruct (sessions_ t !! id) eqn:E; cbn [fst snd]; [destruct (is_retired t id); cbn [sessions_]; by rewrite E|by rewrite E]. Qed.

Lemma find_session_at id q w : (find_by_key_id (table_ (links w)) id).2 = Some q →
  find_session id w = (with_table (find_by_key_id (table_ (links w)) id).1 w, Ok (Some q)).
Proof. intros E. unfold find_session. rewrite from_state. destruct (find_by_key_id _ _). cbn in E. by subst. Qed.

(** Opening the packet: the text is at the front of the buffer, the counter
    is delivered, and the peer is where the packet came from. *)
Lemma open_session_plain w q r es source s1 counter text out now waiting : plain_receiver w waiting → heap w !! q = Some r →
  receive_keys_ r = send_keys_ s1 → peer_ r ≠ kNoPeer → session_inv r es → counter ∉ delivered_of es →
  highest_ (replay_ r) - counter < kWindowSize → is_u64 counter → frame_fits s1 FrameType.data text out →
  blen text ≤ kFrameBufferSize →
  ∃ c r1, session_inv r1 (es ++ [delivered counter]) ∧ peer_ r1 = peer_ r ∧
    open_session q source (sealed_view s1 FrameType.data counter text) (sealed_packet s1 FrameType.data counter text) false now w =
    (emits (Opened q counter text) (with_session q (note_authenticated_endpoint r1 source)
       (set_decrypt (text ++ drop (length text) (decrypt_buffer_ (buffers w))) (with_contexts c (with_session q r1 w)))),
     Ok (peer_ r, blen text)).
Proof.
  intros Hw Hh Hk Hp Hi Hn Hwin Hu Hf Hl. pose proof (pr_sized _ _ Hw) as Hsz.
  destruct (open_sealed (cipher_status (trace w) 0) now (contexts_ (links w)) r es s1 FrameType.data counter text out
    (decrypt_buffer_ (buffers w))) as (c & r1 & _ & Hi1 & Eo); try done; [apply Hw|apply Hw|lia|].
  assert (peer_ r1 = peer_ r) as Hp1.
  { destruct (open_steps (cipher_status (trace w) 0) now (contexts_ (links w)) r (sealed_view s1 FrameType.data counter text)
      (sealed_packet s1 FrameType.data counter text) (decrypt_buffer_ (buffers w))) as [_ Hst]; [apply Hw| |done|].
    - split; [by rewrite Hk; apply (ff_secret _ _ _ _ Hf)|done].
    - rewrite Eo in Hst. cbn [fst snd] in Hst. destruct Hst as (_ & -> & _). by rewrite run_peer. }
  exists c, r1. split; [done|]. split; [done|]. unfold open_session. rewrite from_state, (from_session _ _ _ _ Hh).
  rewrite Eo, from_modify, from_modify. cbn [peer_ note_authenticated_endpoint]. rewrite Hp1.
  rewrite take_app_length' by (unfold blen; lia). done.
Qed.

Lemma sealed_not_symbol s1 counter text : looks_like_fec_symbol (sealed_packet s1 FrameType.data counter text) = false.
Proof. done. Qed.

Lemma receive_plain w waiting q r source s1 counter frame padded v out now : plain_receiver w waiting →
  let text := padded_frame frame padded in
  session_in w (remote_key_id_ s1) (send_keys_ s1) counter q r → is_u64 counter →
  frame_fits s1 FrameType.data text out → blen text ≤ kFrameBufferSize →
  bytes_ok frame → parse_ip_packet frame = Ok v → refusal (decision (Routing.classify (routes_ w) v (peer_ r))) = None →
  ∃ w1 w' r' es writes, forward_from_transport source (sealed_packet s1 FrameType.data counter text) now w = (w1, Ok tt) ∧
    flush_tun_writes w1 = (w', Ok tt) ∧ trace w' = trace w ++ Opened q counter text :: writes ∧ emerges frame waiting writes ∧
    (find_by_key_id (table_ (links w')) (remote_key_id_ s1)).2 = Some q ∧
    heap w' !! q = Some r' ∧ endpoint_ r' = Some source ∧ session_inv r' es ∧ counter ∈ delivered_of es.
Proof.
  intros Hw text [Ht Hh Hk Hp (es & Hi & Hn) Hwin] Hu Hf Hl Hb Ev Hr.
  unfold forward_from_transport. rewrite sealed_not_symbol. unfold forward_sealed.
  rewrite from_settled, (parse_sealed_packet _ _ _ _ _ Hf Hu). cbn [key_id header sealed_view sealed_header].
  rewrite (from_ok _ _ _ _ _ (find_session_at _ _ _ Ht)). set (t := (find_by_key_id _ _).1). set (w0 := with_table t w).
  assert (plain_receiver w0 waiting) as Hw0 by (destruct Hw; by split).
  destruct (open_session_plain w0 q r es source s1 counter text out now waiting) as (c & r1 & Hi1 & _ & Eo); try done.
  rewrite (from_ok _ _ _ _ _ Eo). set (w1 := emits _ _). rewrite from_state, from_sure. cbn [fst snd].
  assert (decrypt_buffer_ (buffers w1) = text ++ drop (length text) (decrypt_buffer_ (buffers w))) as Ebuf by done.
  rewrite Ebuf, span_first_ok by (rewrite length_app; unfold blen; lia). rewrite take_app_length' by (unfold blen; lia).
  cbn [type sealed_view header sealed_header].
  destruct (deliver_plain w1 waiting (peer_ r) frame padded v false) as (w2 & groups & Ed & El & Hc & Hj);
    [apply Hw|apply (pr_writes _ _ Hw)|exact Hb|exact Ev|exact Hr|].
  unfold text at 1. rewrite Ed. destruct (flush_plain w2 groups Hc (pr_vectored _ _ Hw)) as (w3 & frames & Ef & Hd & Et & Eh & Etab).
  exists w2, w3, (note_authenticated_endpoint r1 source), ((es ++ [delivered counter]) ++ [silent]),
    (delivery_of frame :: ((λ f, WroteFrame f true) <$> frames)).
  rewrite Et, Eh, Etab. unfold trace, heap. rewrite El.
  split; [reflexivity|]. split; [done|]. split; [cbn; by rewrite <- !app_assoc|]. split.
  { unfold delivery_of. destruct offload_enabled eqn:Eo'; [by eapply emerges_gathered|]. subst groups. by apply emerges_written. }
  split; [by apply (eq_trans (find_again _ _))|].
  split. { cbn. rewrite list_insert_insert_eq. apply list_lookup_insert_eq. by eapply lookup_lt_Some. }
  split; [done|]. split; [by apply (session_inv_frame r1)|].
  unfold delivered_of. rewrite !omap_app. cbn. set_solver.
Qed.

(** The same datagram again: nothing is opened and nothing written. *)
Lemma replay_plain w q r es source s1 counter text out now :
  (find_by_key_id (table_ (links w)) (remote_key_id_ s1)).2 = Some q → heap w !! q = Some r → session_inv r es →
  counter ∈ delivered_of es → is_u64 counter → frame_fits s1 FrameType.data text out →
  let again := forward_from_transport source (sealed_packet s1 FrameType.data counter text) now w in
  trace again.1 = trace w ∧ again.2 ≠ Ok tt.
Proof.
  intros Ht Hh Hi Hin Hu Hf. unfold forward_from_transport. rewrite sealed_not_symbol. unfold forward_sealed.
  rewrite from_settled, (parse_sealed_packet _ _ _ _ _ Hf Hu). cbn [key_id header sealed_view sealed_header].
  rewrite (from_ok _ _ _ _ _ (find_session_at _ _ _ Ht)). set (w0 := with_table _ w).
  pose proof (λ n, open_delivered_again (cipher_status (trace w0) 0) now (contexts_ (links w0)) r es
    (sealed_view s1 FrameType.data counter text) (sealed_packet s1 FrameType.data counter text)
    (decrypt_buffer_ (buffers w0)) n Hi Hu Hin) as Hno.
  assert (∃ w' res, open_session q source (sealed_view s1 FrameType.data counter text)
    (sealed_packet s1 FrameType.data counter text) false now w0 = (w', res) ∧ trace w' = trace w ∧ ∀ a, res ≠ Ok a)
    as (w' & res & Eo & Et & Hres).
  { unfold open_session. rewrite from_state, (from_session q _ w0 r Hh).
    destruct (Session.open _ _ _ _ _ _ _) as [[[c r1] out'] [n|e|]]; [by destruct (Hno n)|rewrite from_modify..]; by eexists _, _. }
  destruct res as [a|e|]; [by destruct (Hres a)|rewrite (from_fail _ _ _ _ _ Eo)|rewrite (from_ub _ _ _ _ Eo)]; done.
Qed.
End delivery.

(** C5. A frame that enters the tunnel at one worker leaves it at the other.
    The workers have carriers, tunnel devices and handlers of their own.  The
    first is between calls, with forward error correction and queueing off, as
    the configuration has them unless told otherwise; its ciphers work and the
    carrier takes the datagram.  The second has segmentation offload on or off
    and any packets waiting in its coalescer; its ciphers work and its tunnel
    device takes what it is given.  When the first routes the IP packet to a
    peer with a live session and an endpoint, the second holds a session with
    the matching receive key to which the counter is new and not below the
    window, and its routes accept the packet: every frame up to the size of
    the frame buffer goes out as one datagram, and this datagram and the next
    flush make the second write that frame, without its padding, and note
    where the peer is.  Without offload the frame is written as it is; with
    offload it joins the packets of the coalescer and the frames written
    deliver exactly those, so that a packet on its own is written byte for
    byte.  Presented again, from anywhere and at any time, the datagram is
    neither opened nor written. *)
Theorem frame_crosses_tunnel `{AeadLaws} (Ea Eb : Surroundings) (Ha Hb : Handlers)
    a b waiting now now' frame v p s destination source q r :
  plain_sender (H1:=Ea) a → plain_receiver (H1:=Eb) b waiting →
  bytes_ok frame → blen frame ≤ kFrameBufferSize → parse_ip_packet frame = Ok v →
  decision (Routing.classify (routes_ a) v kNoPeer) = forward →
  session_out a (forward_peer (Routing.classify (routes_ a) v kNoPeer)) now p s destination →
  session_in b (remote_key_id_ s) (send_keys_ s) (sent (Session.stats_ s)) q r →
  refusal (decision (Routing.classify (routes_ b) v (peer_ r))) = None →
  let arrives := forward_from_transport (H0:=Eb) (H1:=Hb) in
  ∃ a' b1 b' datagram flow text writes r',
    forward_from_tun (H0:=Ea) (H1:=Ha) frame now a = (a', Ok tt) ∧
    trace a' = trace a ++ [Sent [mkOutbound destination datagram flow true false] (Some 1%nat)] ∧
    arrives source datagram now' b = (b1, Ok tt) ∧ flush_tun_writes (H0:=Eb) b1 = (b', Ok tt) ∧
    trace b' = trace b ++ Opened q (sent (Session.stats_ s)) text :: writes ∧ emerges (H1:=Eb) frame waiting writes ∧
    heap b' !! q = Some r' ∧ endpoint_ r' = Some source ∧
    ∀ source2 now2, trace (arrives source2 datagram now2 b').1 = trace b' ∧ (arrives source2 datagram now2 b').2 ≠ Ok tt.
Proof.
  intros Hsnd Hrcv Hby Hl Ev Hd Hout Hin Hr arrives.
  destruct (forward_plain (H1:=Ea) (H2:=Ha) a now frame v p s destination Hsnd Hby Hl Ev Hd Hout)
    as (a' & s1 & flow & Ea' & Er & _ & Hfit & Ta).
  pose proof (frame_padding_range a frame (ps_mtu _ Hsnd) Hl) as Hpad. set (padded := frame_padding a frame) in *.
  destruct Hout as [_ _ [es Hi] Hal _ _ _].
  destruct (reserve_counter_inv s es Hi) as [(s1' & Er' & Hlt & _ & _ & Esk & Erk)|[_ Er']]; rewrite Er in Er'; [|done].
  injection Er' as <-. specialize (Hfit (replicate 9264 0) ltac:(unfold blen; by rewrite length_replicate)).
  assert (is_u64 (sent (Session.stats_ s))) as Hu.
  { assert (kRejectAfterMessages < UINT64_MAX) by (by vm_compute). pose proof (inv_sent _ _ Hi). unfold is_u64, UINT64_MAX in *. lia. }
  rewrite <- Esk, <- Erk in Hin.
  destruct (receive_plain (H1:=Eb) (H2:=Hb) b waiting q r source s1 (sent (Session.stats_ s)) frame padded v _ now' Hrcv Hin Hu Hfit)
    as (b1 & b' & r' & es' & writes & Eb' & Ef & Tb & Hem & Htab & Hhb & He & Hib & Hdel); try done.
  { rewrite length_padded_frame; lia. }
  eexists a', b1, b', _, flow, _, writes, r'. split; [exact Ea'|]. split; [exact Ta|]. split; [exact Eb'|].
  split; [exact Ef|]. split; [exact Tb|]. split; [done|]. split; [done|]. split; [done|]. intros source2 now2. by eapply (replay_plain b' q r' es').
Qed.

Definition sample_sender : Worker :=
  let installed := install_keys 100 [] new_session_table 5 1 1 sample_keys sample_keys in
  new_worker (mkLinks ((λ s, note_authenticated_endpoint s sample_endpoint) <$> installed.1.1) installed.1.2 (new_contexts true) [])
    (add_route empty_table 5 (mkPrefix (from_bytes ipv4 [192; 168; 0; 0]) 20)).1.

Lemma new_worker_sized links routes : buffers_sized (new_worker links routes).
Proof. split; try done; by apply Forall_replicate. Qed.

(** The receiver of the witness has segmentation offload on. *)
Definition offload_surroundings : Surroundings := {|
  send_batch _ batch := Some (length batch);
  receive_batch _ _ := None;
  offload_enabled := true;
  read_frame _ := None;
  write_frame _ _ := true;
  write_vectored _ _ := true;
  cipher_status _ _ := all_well;
  visit sessions := (map_to_list sessions).*2;
  fec_backend := scalar;
  fec_pow x _ := x;
|}.

Lemma frame_crosses_tunnel_witness :
  let _ := toy_aead in let _ := no_handlers in
  ∃ a' b1 b' datagram flow text fr,
    forward_from_tun (H0:=sample_surroundings) sample_frame 200 sample_sender = (a', Ok tt) ∧
    trace a' = [Sent [mkOutbound sample_endpoint datagram flow true false] (Some 1%nat)] ∧
    forward_from_transport (H0:=offload_surroundings) sample_endpoint datagram 300 sample_worker = (b1, Ok tt) ∧
    flush_tun_writes (H0:=offload_surroundings) b1 = (b', Ok tt) ∧
    trace b' = [Opened 0 0 text; Gathered sample_frame; WroteFrame fr true] ∧
    fr_head fr ++ concat (fr_payloads fr) = sample_frame.
Proof.
  intros T N.
  destruct (@frame_crosses_tunnel toy_aead toy_laws sample_surroundings offload_surroundings no_handlers no_handlers
    sample_sender sample_worker [] 200 300 sample_frame (mkIpView ipv4 (from_bytes ipv4 [10; 0; 0; 1]) (from_bytes ipv4 [192; 168; 0; 2]) 17 64 20 24)
    0%nat (note_authenticated_endpoint (new_session 100 5 1 1 sample_keys sample_keys) sample_endpoint) sample_endpoint sample_endpoint
    0%nat (new_session 100 5 1 77 sample_keys sample_keys)) as (a' & b1 & b' & d & flow & text & writes & r' & E1 & E2 & E3 & E4 & E5 & E6 & _).
  - split; try done; [apply new_worker_sized|apply new_contexts_for].
  - split; try (intros; reflexivity); [apply new_contexts_for|apply new_coalescer_holds].
  - apply (bool_decide_unpack (Forall (λ b, 0 ≤ b < 256) sample_frame)). by vm_compute.
  - by vm_compute.
  - by vm_compute.
  - by vm_compute.
  - split; try (by vm_compute). exists ([] ++ [silent]). apply (session_inv_frame (new_session 100 5 1 1 sample_keys sample_keys)); [apply new_session_inv|done..].
  - split; try (by vm_compute). exists []. split; [apply new_session_inv|]. apply not_elem_of_nil.
  - by vm_compute.
  - destruct E6 as [frames Hoff _|frames groups _ Hj Hd]; [discriminate Hoff|].
    assert (groups = [[sample_frame]]) as -> by (destruct Hj as [|index ps Hps]; [reflexivity|by rewrite lookup_nil in Hps]).
    destruct frames as [|fr [|]]; [by apply Forall2_length in Hd| |by apply Forall2_length in Hd].
    apply Forall2_cons in Hd as [Hfr _].
    exists a', b1, b', d, flow, text, fr. split; [exact E1|]. split; [exact E2|]. split; [exact E3|].
    split; [exact E4|]. split; [exact E5|]. apply (delivers_one fr sample_frame Hfr).
Defined.
