(* ===== verification/Parallel.v ===== *)
(** The helper threads of a worker: [include/norr/parallel.hpp] and
    [src/parallel.cpp].

    The owner of a [ParallelRunner] and its helpers are threads that share the
    atomics, the mutex and the condition variables.  [advance] is one access of
    a thread to the shared state, a thread that waits for the mutex or sleeps
    on a condition variable being blocked; executions are arbitrary
    interleavings of such steps, with calls of [run], the destructor and
    spurious wake-ups in between.  Accesses are taken in one order that all
    threads agree on: the release and acquire pairs on [generation_] and
    [finished_] are what the code relies on for it, and the relaxed ones are
    ordered by these pairs or by the mutex.  The index counters are bounded by
    the number of jobs and helpers; [generation_] wraps. *)

From S2P Require Import Prelude.

(** ** Threads *)

Inductive Thread := Owner | Assistant (index : nat).
#[export] Instance Thread_eq_dec : EqDecision Thread.
Proof. solve_decision. Defined.

(** Where the owner is in [run] or in the destructor. *)
Inductive OwnerPc :=
| Idle
| Sequential (index : nat)
| Entering | SetTask | SetCount | SetNext | SetFinished | Publish | Unlocking | Waking
| EnterDrain | Draining (task : nat) | Running (task index : nat)
| Spinning (spin : nat) | Checking | LockDone | AwaitDone | Asleep | Woken | UnlockDone | Clearing
| DtorLock | DtorStop | DtorPublish | DtorUnlock | DtorWake | DtorJoin | Gone.
#[export] Instance OwnerPc_eq_dec : EqDecision OwnerPc.
Proof. solve_decision. Defined.

(** Where a helper is in [helper_loop]. *)
Inductive HelperPc :=
| Load | Spin (current : Z) (spin : nat) | LockWake | AwaitWake | AsleepWake | WokenWake | Reload
| See (current : Z) | LockStop | CheckStop
| Enter | Fetch (task : nat) | Run (task index : nat)
| Finish | LockNotify | Notify | Exited.
#[export] Instance HelperPc_eq_dec : EqDecision HelperPc.
Proof. solve_decision. Defined.

Record Helper := mkHelper { pc : HelperPc; seen : Z }.

(** The members, the threads, the arguments of the call under way and the jobs
    it ran; of each call that returned its task, count and jobs. *)
Record Runner := mkRunner {
  task_ : option nat;
  count_ : nat;
  next_ : nat;
  finished_ : nat;
  generation_ : Z;
  stopping_ : bool;
  mutex_ : option Thread;
  owner : OwnerPc;
  arg_task : nat;
  arg_count : nat;
  helpers_ : list Helper;
  ran : list (nat * nat);
  past : list (nat * nat * list (nat * nat));
}.

Definition kSequentialBelow : nat := 8.
Definition kHelperSpins : nat := 4000.
Definition kOwnerSpins : nat := Z.to_nat 20000.

Definition default_helpers (cores : nat) : nat := if (cores <=? 1)%nat then 0 else (cores - 1) `min` 3.

Definition new_runner (helpers : nat) : Runner :=
  mkRunner None 0 0 0 0 false None Idle 0 0 (replicate helpers (mkHelper Load 0)) [] [].

Definition at_owner (p : OwnerPc) (s : Runner) : Runner :=
  mkRunner (task_ s) (count_ s) (next_ s) (finished_ s) (generation_ s) (stopping_ s) (mutex_ s) p (arg_task s)
    (arg_count s) (helpers_ s) (ran s) (past s).
Definition at_helper (i : nat) (h : Helper) (s : Runner) : Runner :=
  mkRunner (task_ s) (count_ s) (next_ s) (finished_ s) (generation_ s) (stopping_ s) (mutex_ s) (owner s) (arg_task s)
    (arg_count s) (<[i := h]> (helpers_ s)) (ran s) (past s).
Definition with_mutex (m : option Thread) (s : Runner) : Runner :=
  mkRunner (task_ s) (count_ s) (next_ s) (finished_ s) (generation_ s) (stopping_ s) m (owner s) (arg_task s)
    (arg_count s) (helpers_ s) (ran s) (past s).
Definition with_task (t : option nat) (s : Runner) : Runner :=
  mkRunner t (count_ s) (next_ s) (finished_ s) (generation_ s) (stopping_ s) (mutex_ s) (owner s) (arg_task s)
    (arg_count s) (helpers_ s) (ran s) (past s).
Definition with_count (n : nat) (s : Runner) : Runner :=
  mkRunner (task_ s) n (next_ s) (finished_ s) (generation_ s) (stopping_ s) (mutex_ s) (owner s) (arg_task s)
    (arg_count s) (helpers_ s) (ran s) (past s).
Definition with_next (n : nat) (s : Runner) : Runner :=
  mkRunner (task_ s) (count_ s) n (finished_ s) (generation_ s) (stopping_ s) (mutex_ s) (owner s) (arg_task s)
    (arg_count s) (helpers_ s) (ran s) (past s).
Definition with_finished (n : nat) (s : Runner) : Runner :=
  mkRunner (task_ s) (count_ s) (next_ s) n (generation_ s) (stopping_ s) (mutex_ s) (owner s) (arg_task s)
    (arg_count s) (helpers_ s) (ran s) (past s).
Definition publish_generation (s : Runner) : Runner :=
  mkRunner (task_ s) (count_ s) (next_ s) (finished_ s) (u64 (generation_ s + 1)) (stopping_ s) (mutex_ s) (owner s)
    (arg_task s) (arg_count s) (helpers_ s) (ran s) (past s).
Definition stopped (s : Runner) : Runner :=
  mkRunner (task_ s) (count_ s) (next_ s) (finished_ s) (generation_ s) true (mutex_ s) (owner s) (arg_task s)
    (arg_count s) (helpers_ s) (ran s) (past s).
Definition ran_job (task index : nat) (s : Runner) : Runner :=
  mkRunner (task_ s) (count_ s) (next_ s) (finished_ s) (generation_ s) (stopping_ s) (mutex_ s) (owner s) (arg_task s)
    (arg_count s) (helpers_ s) (ran s ++ [(task, index)]) (past s).

(** [wake_.notify_all()]: who sleeps there goes on to take the mutex. *)
Definition roused (h : Helper) : Helper := mkHelper (if decide (pc h = AsleepWake) then WokenWake else pc h) (seen h).
Definition notify_wake (s : Runner) : Runner :=
  mkRunner (task_ s) (count_ s) (next_ s) (finished_ s) (generation_ s) (stopping_ s) (mutex_ s) (owner s) (arg_task s)
    (arg_count s) (roused <$> helpers_ s) (ran s) (past s).
(** [done_.notify_one()]: only the owner sleeps there. *)
Definition notify_done (s : Runner) : Runner := if decide (owner s = Asleep) then at_owner Woken s else s.

(** The call returns to its caller. *)
Definition returned (s : Runner) : Runner :=
  mkRunner (task_ s) (count_ s) (next_ s) (finished_ s) (generation_ s) (stopping_ s) (mutex_ s) Idle (arg_task s)
    (arg_count s) (helpers_ s) [] (past s ++ [(arg_task s, arg_count s, ran s)]).

(** ** Steps: [Fail] is a blocked thread, [Ub] undefined behaviour. *)

Abbreviation stepped := (res unit Runner).

(** The mutex is free. *)
Definition locking (t : Thread) (s : Runner) (then_ : Runner) : stepped :=
  match mutex_ s with None => Ok (with_mutex (Some t) then_) | Some _ => Fail tt end.

(** [run], one access at a time; then the destructor. *)
Definition owner_step (s : Runner) : stepped :=
  match owner s with
  | Idle | Gone | Asleep => Fail tt
  | Sequential i =>
      if (i <? arg_count s)%nat then Ok (at_owner (Sequential (S i)) (ran_job (arg_task s) i s)) else Ok (returned s)
  | Entering => locking Owner s (at_owner SetTask s)
  | SetTask => Ok (at_owner SetCount (with_task (Some (arg_task s)) s))
  | SetCount => Ok (at_owner SetNext (with_count (arg_count s) s))
  | SetNext => Ok (at_owner SetFinished (with_next 0 s))
  | SetFinished => Ok (at_owner Publish (with_finished 0 s))
  | Publish => Ok (at_owner Unlocking (publish_generation s))
  | Unlocking => Ok (at_owner Waking (with_mutex None s))
  | Waking => Ok (at_owner EnterDrain (notify_wake s))
  | EnterDrain => match task_ s with Some t => Ok (at_owner (Draining t) s) | None => Ub end
  | Draining t =>
      Ok (at_owner (if (count_ s <=? next_ s)%nat then Spinning 0 else Running t (next_ s)) (with_next (S (next_ s)) s))
  | Running t i => Ok (at_owner (Draining t) (ran_job t i s))
  | Spinning k =>
      Ok (at_owner (if (finished_ s <? length (helpers_ s))%nat && (k <? kOwnerSpins)%nat then Spinning (S k) else Checking) s)
  | Checking => Ok (at_owner (if (finished_ s <? length (helpers_ s))%nat then LockDone else Clearing) s)
  | LockDone | Woken => locking Owner s (at_owner AwaitDone s)
  | AwaitDone =>
      if (finished_ s =? length (helpers_ s))%nat then Ok (at_owner UnlockDone s)
      else Ok (at_owner Asleep (with_mutex None s))
  | UnlockDone => Ok (at_owner Clearing (with_mutex None s))
  | Clearing => Ok (returned (with_task None s))
  | DtorLock => locking Owner s (at_owner DtorStop s)
  | DtorStop => Ok (at_owner DtorPublish (stopped s))
  | DtorPublish => Ok (at_owner DtorUnlock (publish_generation s))
  | DtorUnlock => Ok (at_owner DtorWake (with_mutex None s))
  | DtorWake => Ok (at_owner DtorJoin (notify_wake s))
  | DtorJoin => if decide (Forall (λ h, pc h = Exited) (helpers_ s)) then Ok (at_owner Gone s) else Fail tt
  end.

(** [helper_loop] and the [drain] it calls. *)
Definition helper_step (i : nat) (h : Helper) (s : Runner) : stepped :=
  let goes p := at_helper i (mkHelper p (seen h)) in
  match pc h with
  | Load => Ok (goes (Spin (generation_ s) 0) s)
  | Spin current k =>
      if (current =? seen h) && (k <? kHelperSpins)%nat then Ok (goes (Spin (generation_ s) (S k)) s)
      else if current =? seen h then Ok (goes LockWake s) else Ok (goes (See current) s)
  | LockWake | WokenWake => locking (Assistant i) s (goes AwaitWake s)
  | AwaitWake => if generation_ s =? seen h then Ok (goes AsleepWake (with_mutex None s)) else Ok (goes Reload s)
  | AsleepWake | Exited => Fail tt
  | Reload => Ok (goes (See (generation_ s)) (with_mutex None s))
  | See current => Ok (at_helper i (mkHelper LockStop current) s)
  | LockStop => locking (Assistant i) s (goes CheckStop s)
  | CheckStop => Ok (goes (if stopping_ s then Exited else Enter) (with_mutex None s))
  | Enter => match task_ s with Some t => Ok (goes (Fetch t) s) | None => Ub end
  | Fetch t => Ok (goes (if (count_ s <=? next_ s)%nat then Finish else Run t (next_ s)) (with_next (S (next_ s)) s))
  | Run t j => Ok (goes (Fetch t) (ran_job t j s))
  | Finish =>
      Ok (goes (if (S (finished_ s) =? length (helpers_ s))%nat then LockNotify else Load) (with_finished (S (finished_ s)) s))
  | LockNotify => locking (Assistant i) s (goes Notify s)
  | Notify => Ok (goes Load (with_mutex None (notify_done s)))
  end.

Definition advance (t : Thread) (s : Runner) : stepped :=
  match t with
  | Owner => owner_step s
  | Assistant i => match helpers_ s !! i with Some h => helper_step i h s | None => Fail tt end
  end.

(** What happens besides: a call by the owner, its destructor, and wake-ups for
    no reason. *)
Definition call_run (task count : nat) (s : Runner) : Runner :=
  let s := mkRunner (task_ s) (count_ s) (next_ s) (finished_ s) (generation_ s) (stopping_ s) (mutex_ s) (owner s) task count
             (helpers_ s) [] (past s) in
  if (count =? 0)%nat then returned s
  else if (length (helpers_ s) =? 0)%nat || (count <? kSequentialBelow)%nat then at_owner (Sequential 0) s
  else at_owner Entering s.

Inductive runner_move : Runner → Runner → Prop :=
| move_advance t s s' : advance t s = Ok s' → runner_move s s'
| move_call task count s : owner s = Idle → runner_move s (call_run task count s)
| move_destroy s : owner s = Idle → runner_move s (at_owner DtorLock s)
| move_spurious_owner s : owner s = Asleep → runner_move s (at_owner Woken s)
| move_spurious_helper i h s : helpers_ s !! i = Some h → pc h = AsleepWake →
    runner_move s (at_helper i (mkHelper WokenWake (seen h)) s).

(** ** The invariant *)

Inductive Phase := quiet | opened | closing.
#[export] Instance Phase_eq_dec : EqDecision Phase.
Proof. solve_decision. Defined.

Definition phase (p : OwnerPc) : Phase :=
  match p with
  | Unlocking | Waking | EnterDrain | Draining _ | Running _ _ | Spinning _ | Checking | LockDone | AwaitDone
  | Asleep | Woken | UnlockDone => opened
  | DtorUnlock | DtorWake | DtorJoin | Gone => closing
  | _ => quiet
  end.

Definition working (p : HelperPc) : bool :=
  match p with LockStop | CheckStop | Enter | Fetch _ | Run _ _ | Finish => true | _ => false end.
Definition owner_holds (p : OwnerPc) : bool :=
  match p with
  | SetTask | SetCount | SetNext | SetFinished | Publish | Unlocking | AwaitDone | UnlockDone
  | DtorStop | DtorPublish | DtorUnlock => true
  | _ => false
  end.
Definition helper_holds (p : HelperPc) : bool :=
  match p with AwaitWake | Reload | CheckStop | Notify => true | _ => false end.
(** The helpers that have not seen the call, or the destructor, will be woken. *)
Definition owner_wakes (p : OwnerPc) : bool :=
  match p with Unlocking | Waking | DtorUnlock | DtorWake => true | _ => false end.

Definition owner_stops (p : OwnerPc) : bool :=
  match p with DtorPublish | DtorUnlock | DtorWake | DtorJoin | Gone => true | _ => false end.

(** The helper is done with everything published so far. *)
Definition caught_up (g : Z) (h : Helper) : bool := (seen h =? g) && negb (working (pc h)).
Definition late (s : Runner) (h : Helper) : Prop :=
  u64 (seen h + 1) = generation_ s ∧ phase (owner s) ≠ quiet.
Definition abreast (s : Runner) (h : Helper) : Prop := seen h = generation_ s ∧ phase (owner s) ≠ closing ∨ late s h.

Definition helper_at (s : Runner) (h : Helper) : Prop :=
  match pc h with
  | Load | LockWake | AwaitWake | AsleepWake | WokenWake | LockNotify | Notify => abreast s h
  | Spin c _ => abreast s h ∧ (c = seen h ∨ c = generation_ s)
  | Reload => late s h
  | See c => late s h ∧ c = generation_ s
  | LockStop | CheckStop => seen h = generation_ s ∧ phase (owner s) ≠ quiet
  | Enter => seen h = generation_ s ∧ phase (owner s) = opened
  | Fetch t => seen h = generation_ s ∧ phase (owner s) = opened ∧ t = arg_task s
  | Run t _ => seen h = generation_ s ∧ phase (owner s) = opened ∧ t = arg_task s
  | Finish => seen h = generation_ s ∧ phase (owner s) = opened ∧ (arg_count s ≤ next_ s)%nat
  | Exited => seen h = generation_ s ∧ phase (owner s) = closing
  end.

Record helper_ok (s : Runner) (i : nat) (h : Helper) : Prop := {
  hk_at : helper_at s h;
  hk_seen : is_u64 (seen h);
  hk_mutex : mutex_ s = Some (Assistant i) ↔ helper_holds (pc h) = true;
  hk_asleep : pc h = AsleepWake → seen h = generation_ s ∨ owner_wakes (owner s) = true;
}.

Definition owner_jobs (p : OwnerPc) : list (nat * nat) := match p with Running t j => [(t, j)] | _ => [] end.
Definition helper_jobs (h : Helper) : list (nat * nat) := match pc h with Run t j => [(t, j)] | _ => [] end.
(** The jobs that were fetched and are being run. *)
Definition in_flight (s : Runner) : list (nat * nat) := owner_jobs (owner s) ++ (helpers_ s ≫= helper_jobs).
(** The jobs of a call. *)
Definition jobs_of (task count : nat) : list (nat * nat) := (λ j, (task, j)) <$> seq 0 count.

(** What is set before the call is published. *)
Definition owner_at (s : Runner) : Prop :=
  match owner s with
  | Sequential i => ran s = jobs_of (arg_task s) i ∧ (i ≤ arg_count s)%nat
  | Entering | SetTask => ran s = []
  | SetCount => ran s = [] ∧ task_ s = Some (arg_task s)
  | SetNext => ran s = [] ∧ task_ s = Some (arg_task s) ∧ count_ s = arg_count s
  | SetFinished => ran s = [] ∧ task_ s = Some (arg_task s) ∧ count_ s = arg_count s ∧ next_ s = 0%nat
  | Publish => ran s = [] ∧ task_ s = Some (arg_task s) ∧ count_ s = arg_count s ∧ next_ s = 0%nat ∧ finished_ s = 0%nat
  | Draining t | Running t _ => t = arg_task s
  | Spinning _ | Checking | LockDone | AwaitDone | Asleep | Woken => (arg_count s ≤ next_ s)%nat
  | UnlockDone => (arg_count s ≤ next_ s)%nat ∧ finished_ s = length (helpers_ s)
  | Clearing => ran s ≡ₚ jobs_of (arg_task s) (arg_count s)
  | _ => True
  end.

Record opened_ok (s : Runner) : Prop := {
  op_task : task_ s = Some (arg_task s);
  op_count : count_ s = arg_count s;
  op_finished : finished_ s = length (filter (λ h, caught_up (generation_ s) h = true) (helpers_ s));
  op_jobs : ran s ++ in_flight s ≡ₚ jobs_of (arg_task s) (next_ s `min` arg_count s);
}.

Record runner_ok (s : Runner) : Prop := {
  rk_generation : is_u64 (generation_ s);
  rk_helpers i h : helpers_ s !! i = Some h → helper_ok s i h;
  rk_mutex : mutex_ s = Some Owner ↔ owner_holds (owner s) = true;
  rk_thread i : mutex_ s = Some (Assistant i) → is_Some (helpers_ s !! i);
  rk_owner : owner_at s;
  rk_opened : phase (owner s) = opened → opened_ok s;
  rk_stopping : stopping_ s = owner_stops (owner s);
  rk_done : owner s = Asleep → (finished_ s < length (helpers_ s))%nat ∨
    ∃ i h, helpers_ s !! i = Some h ∧ (pc h = LockNotify ∨ pc h = Notify);
  rk_past : Forall (λ c, c.2 ≡ₚ jobs_of c.1.1 c.1.2) (past s);
}.

(** ** Counting over the helpers *)

Lemma filter_insert_length {A} (P : A → Prop) `{!∀ x, Decision (P x)} (l : list A) i x y : l !! i = Some x →
  (length (filter P (<[i := y]> l)) + (if decide (P x) then 1 else 0) =
   length (filter P l) + (if decide (P y) then 1 else 0))%nat.
Proof.
  revert i. induction l as [|z l IH]; intros i Hi; [done|]. destruct i as [|i]; cbn in Hi.
  - simplify_eq. cbn [insert list_insert]. rewrite !filter_cons. repeat case_decide; cbn; lia.
  - change (<[S i := y]> (z :: l)) with (z :: <[i := y]> l). specialize (IH i Hi). rewrite !filter_cons. destruct (decide (P x)), (decide (P y)), (decide (P z)); cbn [length]; lia.
Qed.

Lemma bind_insert_perm {A B} (f : A → list B) (l : list A) i x y : l !! i = Some x →
  (<[i := y]> l ≫= f) ++ f x ≡ₚ (l ≫= f) ++ f y.
Proof.
  revert i. induction l as [|z l IH]; intros i Hi; [done|]. destruct i as [|i]; cbn in Hi.
  - simplify_eq. change (<[0%nat := y]> (x :: l)) with (y :: l). rewrite !bind_cons. solve_Permutation.
  - change (<[S i := y]> (z :: l)) with (z :: <[i := y]> l). rewrite !bind_cons, <- !app_assoc. by rewrite (IH i Hi).
Qed.

Lemma filter_all_lookup {A} (P : A → Prop) `{!∀ x, Decision (P x)} (l : list A) : length (filter P l) = length l → Forall P l.
Proof.
  induction l as [|x l IH]; intros Hl; [done|]. rewrite filter_cons in Hl. pose proof (length_filter P l).
  case_decide; cbn [length] in Hl; [constructor; [done|apply IH; lia]|lia].
Qed.

Lemma bind_nil {A B} (f : A → list B) (l : list A) : Forall (λ x, f x = []) l → l ≫= f = [].
Proof. induction 1 as [|x l Hx Hl IH]; [done|]. by rewrite bind_cons, Hx, IH. Qed.

Lemma jobs_of_S task n : jobs_of task (S n) = jobs_of task n ++ [(task, n)].
Proof. unfold jobs_of. rewrite seq_S, fmap_app. done. Qed.

Lemma u64_next g : is_u64 g → u64 (g + 1) ≠ g.
Proof.
  intros Hg E. destruct (decide (g = UINT64_MAX)) as [->|Hn]; [by vm_compute in E|].
  rewrite u64_id in E; [lia|]. unfold is_u64, UINT64_MAX in *. lia.
Qed.

(** ** What a step leaves alone *)

(** Nothing helper [j] relies on changed, but that jobs were fetched. *)
Record steady (s s' : Runner) (j : nat) : Prop := {
  sd_generation : generation_ s' = generation_ s;
  sd_phase : phase (owner s') = phase (owner s);
  sd_wakes : owner_wakes (owner s') = owner_wakes (owner s);
  sd_task : arg_task s' = arg_task s;
  sd_count : arg_count s' = arg_count s;
  sd_next : (next_ s ≤ next_ s')%nat;
  sd_mutex : mutex_ s' = Some (Assistant j) ↔ mutex_ s = Some (Assistant j);
}.

Lemma steady_at s s' j h : steady s s' j → helper_at s h → helper_at s' h.
Proof.
  intros [Eg Ep _ Et Ec Hn _]. unfold helper_at, abreast, late. rewrite Eg, Ep, Et, Ec.
  destruct (pc h); intuition lia.
Qed.

Lemma steady_helper s s' j h : steady s s' j → helper_ok s j h → helper_ok s' j h.
Proof.
  intros Hs [H1 H2 H3 H4]. split; [by eapply steady_at|done|by rewrite (sd_mutex _ _ _ Hs)|].
  by rewrite (sd_generation _ _ _ Hs), (sd_wakes _ _ _ Hs).
Qed.

(** Helper [i] moved on: the rest of the invariant. *)
Lemma opened_step s s' i h h' : opened_ok s → helpers_ s !! i = Some h → helpers_ s' = <[i := h']> (helpers_ s) →
  task_ s' = task_ s → count_ s' = count_ s → generation_ s' = generation_ s → arg_task s' = arg_task s →
  arg_count s' = arg_count s → owner_jobs (owner s') = owner_jobs (owner s) →
  (finished_ s' + (if caught_up (generation_ s) h then 1 else 0) =
   finished_ s + (if caught_up (generation_ s) h' then 1 else 0))%nat →
  ran s' ++ helper_jobs h' ++ jobs_of (arg_task s) (next_ s `min` arg_count s) ≡ₚ
  ran s ++ helper_jobs h ++ jobs_of (arg_task s) (next_ s' `min` arg_count s) →
  opened_ok s'.
Proof.
  intros [O1 O2 O3 O4] Hi Eh Et Ec Eg Ea Eac Eo Hf Hj. split; [congruence..| |].
  - rewrite Eh, Eg. pose proof (filter_insert_length (λ h, caught_up (generation_ s) h = true) _ _ _ h' Hi) as Hl.
    cbn beta in Hl. destruct (caught_up (generation_ s) h), (caught_up (generation_ s) h');
      rewrite ?(decide_True (P:=true = true)), ?(decide_False (P:=false = true)) in Hl by done; lia.
  - rewrite Ea, Eac. unfold in_flight in *. rewrite Eh, Eo.
    pose proof (bind_insert_perm helper_jobs _ _ _ h' Hi) as Hp.
    set (N := jobs_of _ _) in Hj, O4. set (N' := jobs_of _ (next_ s' `min` _)) in *.
    set (F := helpers_ s ≫= helper_jobs) in *. set (F' := <[i := h']> (helpers_ s) ≫= helper_jobs) in *.
    apply (Permutation_app_inv_r (helper_jobs h ++ N)).
    transitivity (ran s' ++ owner_jobs (owner s) ++ (F' ++ helper_jobs h) ++ N); [solve_Permutation|].
    rewrite Hp. transitivity (owner_jobs (owner s) ++ F ++ (ran s' ++ helper_jobs h' ++ N)); [solve_Permutation|].
    rewrite Hj. transitivity ((ran s ++ owner_jobs (owner s) ++ F) ++ helper_jobs h ++ N'); [solve_Permutation|].
    rewrite O4. solve_Permutation.
Qed.

(** ** A helper moves *)

Definition notifies (p : HelperPc) : Prop := p = LockNotify ∨ p = Notify.
#[export] Instance notifies_dec p : Decision (notifies p).
Proof. unfold notifies. apply _. Defined.

(** What the steps of a helper have in common. *)
Record helper_move (s s' : Runner) (i : nat) (h h' : Helper) : Prop := {
  hm_helpers : helpers_ s' = <[i := h']> (helpers_ s);
  hm_task : task_ s' = task_ s;
  hm_count : count_ s' = count_ s;
  hm_generation : generation_ s' = generation_ s;
  hm_stopping : stopping_ s' = stopping_ s;
  hm_args : arg_task s' = arg_task s ∧ arg_count s' = arg_count s;
  hm_past : past s' = past s;
  hm_next : (next_ s ≤ next_ s')%nat;
  hm_quiet : phase (owner s) ≠ opened → ran s' = ran s ∧ next_ s' = next_ s ∧ finished_ s' = finished_ s;
  hm_owner : owner s' = owner s ∨ owner s = Asleep ∧ owner s' = Woken;
  hm_mutex t : t ≠ Assistant i → mutex_ s' = Some t ↔ mutex_ s = Some t;
  hm_keeps : caught_up (generation_ s) h = true → caught_up (generation_ s) h' = true;
  hm_finished : phase (owner s) = opened → (finished_ s' + (if caught_up (generation_ s) h then 1 else 0) =
                 finished_ s + (if caught_up (generation_ s) h' then 1 else 0))%nat;
  hm_jobs : phase (owner s) = opened →
    ran s' ++ helper_jobs h' ++ jobs_of (arg_task s) (next_ s `min` arg_count s) ≡ₚ
    ran s ++ helper_jobs h ++ jobs_of (arg_task s) (next_ s' `min` arg_count s);
  hm_done : owner s' = Asleep → (notifies (pc h) → notifies (pc h')) ∧
    (finished_ s' = finished_ s ∨ (finished_ s' < length (helpers_ s))%nat ∨ notifies (pc h'));
  hm_ok : helper_ok s' i h';
}.

Lemma finished_most s i h : opened_ok s → helpers_ s !! i = Some h → caught_up (generation_ s) h = false →
  (finished_ s < length (helpers_ s))%nat.
Proof.
  intros Ho Hi Hc. rewrite (op_finished _ Ho). eapply length_filter_lt; [by eapply list_elem_of_lookup_2|].
  cbn. by rewrite Hc.
Qed.

Lemma helper_move_owner s s' i h h' : runner_ok s → helpers_ s !! i = Some h → helper_move s s' i h h' → owner_at s'.
Proof.
  intros Hs Hi M. pose proof (rk_owner _ Hs) as Ho. destruct (hm_args _ _ _ _ _ M) as [Et Ec].
  assert (length (helpers_ s') = length (helpers_ s)) as El by (by rewrite (hm_helpers _ _ _ _ _ M), length_insert).
  pose proof (hm_next _ _ _ _ _ M) as Hn. destruct (hm_owner _ _ _ _ _ M) as [Eo|[E1 E2]].
  2: { unfold owner_at in *. rewrite E1 in Ho. rewrite E2, Ec. lia. }
  destruct (decide (phase (owner s) = opened)) as [Hp|Hp]; unfold owner_at in *; rewrite Eo, Et, Ec.
  - pose proof (rk_opened _ Hs Hp) as Hop. pose proof (hm_finished _ _ _ _ _ M Hp) as Hf. destruct (owner s); try done; try lia.
    destruct Ho as [Ho1 Ho2]. split; [lia|]. rewrite El, <- Ho2.
    destruct (caught_up (generation_ s) h) eqn:E; [|pose proof (finished_most s i h Hop Hi E); lia].
    rewrite (hm_keeps _ _ _ _ _ M E) in Hf. lia.
  - destruct (hm_quiet _ _ _ _ _ M Hp) as (-> & -> & ->). rewrite (hm_task _ _ _ _ _ M), (hm_count _ _ _ _ _ M).
    destruct (owner s); done.
Qed.

Lemma helper_move_ok s s' i h h' : runner_ok s → helpers_ s !! i = Some h → helper_move s s' i h h' → runner_ok s'.
Proof.
  intros Hs Hi M. destruct (hm_args _ _ _ _ _ M) as [Et Ec]. pose proof (hm_helpers _ _ _ _ _ M) as Eh.
  assert (phase (owner s') = phase (owner s) ∧ owner_wakes (owner s') = owner_wakes (owner s) ∧
    owner_holds (owner s') = owner_holds (owner s) ∧ owner_stops (owner s') = owner_stops (owner s) ∧
    owner_jobs (owner s') = owner_jobs (owner s)) as (Ep & Ew & Eho & Est & Ej)
    by (destruct (hm_owner _ _ _ _ _ M) as [->|[-> ->]]; done).
  assert (length (helpers_ s') = length (helpers_ s)) as El by (by rewrite Eh, length_insert).
  assert (i < length (helpers_ s))%nat as Hlt by (by eapply lookup_lt_Some). split.
  - rewrite (hm_generation _ _ _ _ _ M). apply Hs.
  - intros j k Hj. rewrite Eh in Hj. destruct (decide (i = j)) as [<-|Hne].
    + rewrite list_lookup_insert_eq in Hj by done. simplify_eq. apply M.
    + rewrite list_lookup_insert_ne in Hj by done. apply (steady_helper s); [|by apply Hs].
      split; try done; try apply M. congruence.
  - rewrite (hm_mutex _ _ _ _ _ M) by done. rewrite Eho. apply Hs.
  - intros j Hj. apply lookup_lt_is_Some_2. rewrite El. destruct (decide (i = j)) as [<-|Hne]; [done|].
    apply lookup_lt_is_Some_1. apply (rk_thread _ Hs). apply (hm_mutex _ _ _ _ _ M); congruence.
  - by eapply helper_move_owner.
  - rewrite Ep. intros Hp. apply (opened_step s s' i h h'); [by apply Hs|done|done|..]; try done; by apply M.
  - rewrite (hm_stopping _ _ _ _ _ M), Est. apply Hs.
  - intros Ho. destruct (hm_done _ _ _ _ _ M Ho) as [Hn Hf]. rewrite El.
    destruct (decide (notifies (pc h'))) as [Hn'|Hn']; [right; exists i, h'; rewrite Eh, list_lookup_insert_eq by done; done|].
    destruct (hm_owner _ _ _ _ _ M) as [Eo|[_ ?]]; [|congruence]. rewrite Eo in Ho.
    destruct (rk_done _ Hs Ho) as [Hlt'|(j & k & Hj & Hk)]; [left; naive_solver lia|].
    right. exists j, k. split; [|done]. rewrite Eh, list_lookup_insert_ne; [done|]. intros ->. simplify_eq. naive_solver.
  - rewrite (hm_past _ _ _ _ _ M). apply Hs.
Qed.

Lemma caught_up_pc g h p : working (pc h) = working p → caught_up g (mkHelper p (seen h)) = caught_up g h.
Proof. unfold caught_up. cbn. by intros ->. Qed.

(** A step that changes nothing but where the helper is and, perhaps, who
    holds the mutex. *)
Lemma local_move s i h p m : runner_ok s → helpers_ s !! i = Some h →
  (∀ t, t ≠ Assistant i → m = Some t ↔ mutex_ s = Some t) → (m = Some (Assistant i) ↔ helper_holds p = true) →
  working (pc h) = working p ∨ phase (owner s) ≠ opened ∧ working (pc h) = true → helper_jobs h = [] → helper_jobs (mkHelper p (seen h)) = [] →
  (notifies (pc h) → notifies p) → helper_at s (mkHelper p (seen h)) →
  (p = AsleepWake → seen h = generation_ s ∨ owner_wakes (owner s) = true) →
  helper_move s (at_helper i (mkHelper p (seen h)) (with_mutex m s)) i h (mkHelper p (seen h)).
Proof.
  intros Hs Hi Hm Hh Hw Hj Hj' Hn Ha Has. pose proof (rk_helpers _ Hs i h Hi) as [A1 A2 A3 A4].
  assert (phase (owner s) = opened → caught_up (generation_ s) (mkHelper p (seen h)) = caught_up (generation_ s) h) as Ec.
  { intros Hp. destruct Hw as [Hw|[? _]]; [by apply caught_up_pc|done]. }
  split; try done; cbn [finished_ ran next_ at_helper with_mutex mutex_ owner pc]; try tauto; try lia.
  - destruct Hw as [Hw|[_ Hw]]; [by rewrite (caught_up_pc _ h p Hw)|]. unfold caught_up. by rewrite Hw, andb_false_r.
  - intros Hp. by rewrite Ec.
  - intros _. by rewrite Hj, Hj'.
Qed.

Lemma acquires s t then_ s' : locking t s then_ = Ok s' → mutex_ s = None ∧ s' = with_mutex (Some t) then_.
Proof. unfold locking. destruct (mutex_ s); [done|]. by intros [= <-]. Qed.

Ltac locally q m :=
  match goal with
  | Hi : helpers_ ?s !! ?i = Some ?h |- _ =>
      exists (mkHelper q (seen h)); apply (local_move s i h q m);
      unfold helper_at, abreast, late, notifies; cbn [pc seen working helper_jobs helper_holds] in *; try done; try tauto; try (intros [?|?]; discriminate)
  end.

Lemma see_move s i h current : runner_ok s → helpers_ s !! i = Some h → pc h = See current →
  helper_move s (at_helper i (mkHelper LockStop current) s) i h (mkHelper LockStop current).
Proof.
  intros Hs Hi Hp. pose proof (rk_helpers _ Hs i h Hi) as [A1 A2 A3 _]. unfold helper_at in A1. rewrite Hp in *.
  destruct A1 as [[Hl Hq] ->]. pose proof (u64_next _ A2) as Hne.
  assert (caught_up (generation_ s) h = false) as Ec.
  { unfold caught_up. rewrite (proj2 (Z.eqb_neq _ _)); [done|]. congruence. }
  split; try done; cbn [finished_ ran next_ at_helper owner pc]; try tauto; try lia.
  - by rewrite Ec.
  - intros _. rewrite Ec. unfold caught_up. cbn. by rewrite andb_false_r.
  - intros _. unfold helper_jobs. by rewrite Hp.
  - intros _. rewrite Hp. split; [|by left]. intros [?|?]; discriminate.
  - split; [done|apply Hs|done|done].
Qed.

Lemma helper_opened s i h : runner_ok s → helpers_ s !! i = Some h →
  match pc h with Enter | Fetch _ | Run _ _ | Finish => true | _ => false end = true →
  phase (owner s) = opened ∧ seen h = generation_ s ∧ opened_ok s ∧ caught_up (generation_ s) h = false.
Proof.
  intros Hs Hi Hp. pose proof (hk_at _ _ _ (rk_helpers _ Hs i h Hi)) as A. unfold helper_at in A.
  assert (phase (owner s) = opened ∧ seen h = generation_ s) as [Ho E] by (destruct (pc h); naive_solver).
  split; [done|]. split; [done|]. split; [by apply Hs|]. unfold caught_up. destruct (pc h); try done; by rewrite andb_false_r.
Qed.

Lemma fetch_move s i h t : runner_ok s → helpers_ s !! i = Some h → pc h = Fetch t →
  let h' := mkHelper (if (count_ s <=? next_ s)%nat then Finish else Run t (next_ s)) (seen h) in
  helper_move s (at_helper i h' (with_next (S (next_ s)) s)) i h h'.
Proof.
  intros Hs Hi Hp h'. destruct (helper_opened s i h Hs Hi) as (Ho & Eg & [O1 O2 O3 O4] & Ec); [by rewrite Hp|].
  pose proof (rk_helpers _ Hs i h Hi) as [A1 A2 A3 _]. unfold helper_at in A1. rewrite Hp in *. destruct A1 as (_ & _ & ->).
  assert (caught_up (generation_ s) h' = false) as Ec'.
  { unfold caught_up, h'. case_match; cbn; by rewrite andb_false_r. }
  split; try done; cbn [finished_ ran next_ at_helper with_next owner pc]; try tauto; try lia.
  - by rewrite Ec.
  - by rewrite Ec, Ec'.
  - intros _. unfold helper_jobs at 2, h'. rewrite Hp, O2. destruct (Nat.leb_spec (arg_count s) (next_ s)); cbn [helper_jobs pc].
    + by rewrite !Nat.min_r by lia.
    + rewrite !Nat.min_l by lia. rewrite jobs_of_S. cbn. solve_Permutation.
  - intros _. rewrite Hp. split; [|by left]. intros [?|?]; discriminate.
  - unfold h'. rewrite O2. split; [|done| |].
    + unfold helper_at. cbn. destruct (Nat.leb_spec (arg_count s) (next_ s)); cbn; split_and!; (done || lia).
    + cbn. by case_match.
    + cbn. by case_match.
Qed.

Lemma run_move s i h t j : runner_ok s → helpers_ s !! i = Some h → pc h = Run t j →
  helper_move s (at_helper i (mkHelper (Fetch t) (seen h)) (ran_job t j s)) i h (mkHelper (Fetch t) (seen h)).
Proof.
  intros Hs Hi Hp. destruct (helper_opened s i h Hs Hi) as (Ho & Eg & _ & Ec); [by rewrite Hp|].
  pose proof (rk_helpers _ Hs i h Hi) as [A1 A2 A3 _]. unfold helper_at in A1. rewrite Hp in *. destruct A1 as (_ & _ & ->).
  split; try done; cbn [finished_ ran next_ at_helper ran_job owner pc]; try tauto; try lia.
  - by rewrite Ec.
  - intros _. rewrite Ec. unfold caught_up. cbn. by rewrite andb_false_r.
  - intros _. unfold helper_jobs. rewrite Hp. cbn. solve_Permutation.
  - intros _. rewrite Hp. split; [|by left]. intros [?|?]; discriminate.
Qed.

Lemma finish_move s i h : runner_ok s → helpers_ s !! i = Some h → pc h = Finish →
  let h' := mkHelper (if (S (finished_ s) =? length (helpers_ s))%nat then LockNotify else Load) (seen h) in
  helper_move s (at_helper i h' (with_finished (S (finished_ s)) s)) i h h'.
Proof.
  intros Hs Hi Hp h'. destruct (helper_opened s i h Hs Hi) as (Ho & Eg & Hop & Ec); [by rewrite Hp|].
  pose proof (finished_most s i h Hop Hi Ec) as Hlt.
  pose proof (rk_helpers _ Hs i h Hi) as [A1 A2 A3 _]. rewrite Hp in A3.
  assert (caught_up (generation_ s) h' = true) as Ec'.
  { unfold caught_up, h'. cbn. rewrite Eg, Z.eqb_refl. by case_match. }
  split; try done; cbn [finished_ ran next_ at_helper with_finished owner pc]; try tauto; try lia.
  - rewrite Ec, Ec'. lia.
  - intros _. assert (helper_jobs h' = [] ∧ helper_jobs h = []) as [-> ->]; [|done].
    unfold helper_jobs, h'. rewrite Hp. cbn [pc]. by destruct (_ =? _)%nat.
  - intros _. unfold h'. rewrite Hp. split; [intros [?|?]; discriminate|]. right. cbn [pc].
    destruct (Nat.eqb_spec (S (finished_ s)) (length (helpers_ s))); [right; by left|left; lia].
  - unfold h'. split; [|done| |].
    + unfold helper_at. cbn [pc]. destruct (_ =? _)%nat; left; cbn; by rewrite Ho.
    + cbn [pc]. by destruct (_ =? _)%nat.
    + cbn [pc]. by destruct (_ =? _)%nat.
Qed.
Lemma notify_move s i h : runner_ok s → helpers_ s !! i = Some h → pc h = Notify →
  helper_move s (at_helper i (mkHelper Load (seen h)) (with_mutex None (notify_done s))) i h (mkHelper Load (seen h)).
Proof.
  intros Hs Hi Hp. pose proof (rk_helpers _ Hs i h Hi) as [A1 A2 A3 _]. rewrite Hp in A3. pose proof (proj2 A3 eq_refl) as Hm.
  unfold helper_at, abreast, late in A1. rewrite Hp in A1.
  assert (caught_up (generation_ s) (mkHelper Load (seen h)) = caught_up (generation_ s) h) as Ec
    by (apply caught_up_pc; by rewrite Hp).
  assert (helper_jobs h = []) as Ej by (unfold helper_jobs; by rewrite Hp).
  unfold notify_done. destruct (decide (owner s = Asleep)) as [Eo|Eo].
  all: split; try done; cbn [finished_ ran next_ at_helper with_mutex at_owner owner mutex_ pc]; try tauto; try lia.
  all: try (by rewrite Ec); try (by rewrite Ej).
  all: try (intros t Ht; split; [done|rewrite Hm; congruence]).
  all: try (split; [|done|done|done]; unfold helper_at, abreast, late; cbn; rewrite ?Eo in *; done).
Qed.

Lemma helper_step_move s i h s' : runner_ok s → helpers_ s !! i = Some h → helper_step i h s = Ok s' →
  ∃ h', helper_move s s' i h h'.
Proof.
  intros Hs Hi. pose proof (rk_helpers _ Hs i h Hi) as [A1 A2 A3 A4]. pose proof (rk_stopping _ Hs) as Hst.
  unfold helper_step. destruct h as [p sn]. cbn [pc seen] in *. pose proof (u64_next _ A2) as Hne.
  unfold helper_at, abreast, late in *. cbn [pc seen] in *.
  destruct p as [|current k| | | | | |current| | | |t|t j| | | |]; try done.
  - intros [= <-]. locally (Spin (generation_ s) 0) (mutex_ s).
  - destruct (Z.eqb_spec current sn) as [->|Hcur]; cbn [andb].
    + case_match; intros [= <-]; [locally (Spin (generation_ s) (S k)) (mutex_ s)|locally LockWake (mutex_ s)].
    + intros [= <-]. locally (See current) (mutex_ s). naive_solver.
  - intros [Hm ->]%acquires. locally AwaitWake (Some (Assistant i)). rewrite Hm. intros t Ht. split; congruence.
  - destruct (Z.eqb_spec (generation_ s) sn) as [<-|Hg]; intros [= <-].
    + locally AsleepWake (@None Thread). intros t Ht. split; [done|]. rewrite (proj2 A3 eq_refl). congruence.
    + locally Reload (mutex_ s). naive_solver.
  - intros [Hm ->]%acquires. locally AwaitWake (Some (Assistant i)). rewrite Hm. intros t Ht. split; congruence.
  - intros [= <-]. locally (See (generation_ s)) (@None Thread). intros t Ht. split; [done|]. rewrite (proj2 A3 eq_refl). congruence.
  - intros [= <-]. eexists. by apply see_move.
  - intros [Hm ->]%acquires. locally CheckStop (Some (Assistant i)). rewrite Hm. intros t Ht. split; congruence.
  - intros [= <-]. rewrite Hst. pose proof (proj2 A3 eq_refl) as Hm.
    assert (∀ t, t ≠ Assistant i → None = Some t ↔ mutex_ s = Some t) as Hfree by (intros t Ht; rewrite Hm; split; congruence).
    destruct A1 as [Es Hq]. assert (phase (owner s) = if owner_stops (owner s) then closing else opened) as Hph.
    { destruct (owner s); done. }
    destruct (owner_stops (owner s)) eqn:Est; [locally Exited (@None Thread)|locally Enter (@None Thread)].
    right. by rewrite Hph.
  - destruct (task_ s) as [t|] eqn:Et; [|done]. intros [= <-]. locally (Fetch t) (mutex_ s). split; [tauto|]. split; [tauto|].
    pose proof (op_task _ (rk_opened _ Hs (proj2 A1))). congruence.
  - intros [= <-]. eexists. by apply (fetch_move s i (mkHelper (Fetch t) sn)).
  - intros [= <-]. eexists. by apply (run_move s i (mkHelper (Run t j) sn)).
  - intros [= <-]. eexists. by apply (finish_move s i (mkHelper Finish sn)).
  - intros [Hm ->]%acquires. locally Notify (Some (Assistant i)). rewrite Hm. intros t Ht. split; congruence.
  - intros [= <-]. eexists. by apply (notify_move s i (mkHelper Notify sn)).
Qed.

(** ** The owner moves *)

Lemma opened_same s s' : opened_ok s → helpers_ s' = helpers_ s → task_ s' = task_ s → count_ s' = count_ s →
  generation_ s' = generation_ s → arg_task s' = arg_task s → arg_count s' = arg_count s → finished_ s' = finished_ s →
  ran s' ++ owner_jobs (owner s') ++ jobs_of (arg_task s) (next_ s `min` arg_count s) ≡ₚ
  ran s ++ owner_jobs (owner s) ++ jobs_of (arg_task s) (next_ s' `min` arg_count s) →
  opened_ok s'.
Proof.
  intros [O1 O2 O3 O4] Eh Et Ec Eg Ea Eac Ef Hj. split; [congruence..|by rewrite Ef, Eg, Eh|].
  unfold in_flight in *. rewrite Eh, Ea, Eac. set (F := helpers_ s ≫= helper_jobs) in *.
  set (N := jobs_of _ _) in Hj, O4. set (N' := jobs_of _ (next_ s' `min` _)) in *.
  apply (Permutation_app_inv_r N).
  transitivity (F ++ ran s' ++ owner_jobs (owner s') ++ N); [solve_Permutation|]. rewrite Hj.
  transitivity ((ran s ++ owner_jobs (owner s) ++ F) ++ N'); [solve_Permutation|]. rewrite O4. solve_Permutation.
Qed.

Lemma owner_moved s s' : runner_ok s → helpers_ s' = helpers_ s → (∀ j, steady s s' j) →
  (mutex_ s' = Some Owner ↔ owner_holds (owner s') = true) → owner_at s' → (phase (owner s') = opened → opened_ok s') →
  stopping_ s' = owner_stops (owner s') →
  (owner s' = Asleep → (finished_ s' < length (helpers_ s'))%nat) →
  Forall (λ c, c.2 ≡ₚ jobs_of c.1.1 c.1.2) (past s') → runner_ok s'.
Proof.
  intros Hs Eh Hst Hm Ho Hop Hsp Hd Hpast. split; try done.
  - rewrite (sd_generation _ _ _ (Hst 0%nat)). apply Hs.
  - intros i h Hi. rewrite Eh in Hi. apply (steady_helper s); [done|by apply Hs].
  - intros i Hi. rewrite Eh. apply (rk_thread _ Hs). by apply (sd_mutex _ _ _ (Hst i)).
  - intros Ha. left. auto.
Qed.

(** A step that changes nothing but where the owner is and, perhaps, its hold
    of the mutex. *)
Lemma owner_local s p m : runner_ok s → phase p = phase (owner s) → owner_wakes p = owner_wakes (owner s) →
  owner_stops p = owner_stops (owner s) → (∀ j, m = Some (Assistant j) ↔ mutex_ s = Some (Assistant j)) →
  (m = Some Owner ↔ owner_holds p = true) → owner_at (at_owner p s) →
  (phase p = opened → owner_jobs p = owner_jobs (owner s)) → (p = Asleep → (finished_ s < length (helpers_ s))%nat) →
  runner_ok (at_owner p (with_mutex m s)).
Proof.
  intros Hs Ep Ew Est Hm Ho Ha Hj Hd. apply (owner_moved s); try done.
  - intros Hp. cbn in Hp. apply (opened_same s); try done; [apply Hs; congruence|]. cbn. by rewrite Hj.
  - cbn. rewrite Est. apply Hs.
  - apply Hs.
Qed.

(** The caught-up helpers, when no call is published. *)
Lemma quiet_helper s h : helper_at s h → phase (owner s) = quiet → seen h = generation_ s ∧
  match pc h with Spin c _ => c = seen h | Reload | See _ | Exited => False | p => working p = false end.
Proof. unfold helper_at, abreast, late. intros Ha Hq. destruct (pc h); cbn; intuition congruence. Qed.

(** A call, or the destructor, is published. *)
Lemma publish_helper s p i h : helper_ok s i h → phase (owner s) = quiet → phase p ≠ quiet → owner_wakes p = true →
  is_u64 (generation_ s) → helper_ok (at_owner p (publish_generation s)) i h.
Proof.
  intros [A1 A2 A3 A4] Hq Hp Hw Hg. destruct (quiet_helper s h A1 Hq) as (Es & Hpc).
  split; [|done|done|intros _; by right]. unfold helper_at, abreast, late. cbn. rewrite Es in *.
  destruct (pc h); cbn in *; intuition congruence.
Qed.

(** The sleeping helpers are woken. *)
Lemma rouse_helper s p i h : helper_ok s i h → phase p = phase (owner s) → helper_ok (at_owner p (notify_wake s)) i (roused h).
Proof.
  intros [A1 A2 A3 A4] Hp. unfold roused. split; cbn [seen pc mutex_ at_owner notify_wake]; [|done| |].
  - unfold helper_at, abreast, late in *. cbn [generation_ owner arg_task arg_count next_ at_owner notify_wake pc seen].
    rewrite Hp. destruct (pc h); cbn in *; done.
  - by destruct (pc h).
  - by destruct (pc h).
Qed.

(** The call is over when all helpers are done with it. *)
Lemma finish_helper s p i h m : helper_ok s i h → phase (owner s) = opened → phase p = quiet →
  caught_up (generation_ s) h = true → owner_wakes (owner s) = false →
  (∀ j, m = Some (Assistant j) ↔ mutex_ s = Some (Assistant j)) → helper_ok (at_owner p (with_mutex m s)) i h.
Proof.
  intros [A1 A2 A3 A4] Ho Hp Hc Hw Hm. unfold caught_up in Hc. apply andb_true_iff in Hc as [Es%Z.eqb_eq Hk].
  split; cbn; [|done|by rewrite Hm|by left]. pose proof (u64_next _ A2). unfold helper_at, abreast, late in *. cbn.
  destruct (pc h); cbn in *; intuition congruence.
Qed.

Lemma caught_up_jobs g h : caught_up g h = true → helper_jobs h = [].
Proof. unfold caught_up, helper_jobs. intros [_ Hw]%andb_true_iff. by destruct (pc h). Qed.

(** Nobody caught up with a new generation. *)
Lemma none_caught_up g hs : is_u64 g → Forall (λ h, seen h = g) hs →
  filter (λ h, caught_up (u64 (g + 1)) h = true) hs = [].
Proof.
  intros Hg. induction 1 as [|h hs Eh Hhs IH]; [done|]. rewrite filter_cons_False; [done|].
  unfold caught_up. rewrite Eh. rewrite (proj2 (Z.eqb_neq _ _)); [done|]. apply not_eq_sym. by apply u64_next.
Qed.

Lemma publish_ok s : runner_ok s → owner s = Publish → runner_ok (at_owner Unlocking (publish_generation s)).
Proof.
  intros Hs Eo. pose proof (rk_owner _ Hs) as Ho. unfold owner_at in Ho. rewrite Eo in Ho. destruct Ho as (Er & Et & Ec & En & Ef).
  assert (phase (owner s) = quiet) as Hq by (by rewrite Eo). split; try done.
  - apply u64_range.
  - intros i h Hi. by apply publish_helper; [apply (rk_helpers _ Hs)|..|apply (rk_generation _ Hs)].
  - cbn. rewrite (rk_mutex _ Hs). by rewrite Eo.
  - apply Hs.
  - intros _. split; try done.
    + cbn. rewrite none_caught_up; [done|apply Hs|]. apply Forall_lookup. intros i h Hi.
      apply (quiet_helper s); [apply (hk_at _ _ _ (rk_helpers _ Hs i h Hi))|done].
    + cbn [ran at_owner publish_generation arg_task arg_count next_]. rewrite Er, En. cbn. rewrite bind_nil; [done|].
      apply Forall_lookup. intros i h Hi. destruct (quiet_helper s h) as [_ Hp]; [apply (hk_at _ _ _ (rk_helpers _ Hs i h Hi))|done|].
      unfold helper_jobs. by destruct (pc h).
  - cbn. rewrite (rk_stopping _ Hs). by rewrite Eo.
  - apply Hs.
Qed.

Lemma dtor_publish_ok s : runner_ok s → owner s = DtorPublish → runner_ok (at_owner DtorUnlock (publish_generation s)).
Proof.
  intros Hs Eo. assert (phase (owner s) = quiet) as Hq by (by rewrite Eo). split; try done.
  - apply u64_range.
  - intros i h Hi. by apply publish_helper; [apply (rk_helpers _ Hs)|..|apply (rk_generation _ Hs)].
  - cbn. rewrite (rk_mutex _ Hs). by rewrite Eo.
  - apply Hs.
  - cbn. rewrite (rk_stopping _ Hs). by rewrite Eo.
  - apply Hs.
Qed.

Lemma roused_fields h : helper_jobs (roused h) = helper_jobs h ∧ ∀ g, caught_up g (roused h) = caught_up g h.
Proof. unfold helper_jobs, caught_up, roused. cbn. by destruct (pc h). Qed.

Lemma roused_jobs (hs : list Helper) : (roused <$> hs) ≫= helper_jobs = hs ≫= helper_jobs.
Proof. induction hs as [|h hs IH]; [done|]. rewrite fmap_cons, !bind_cons, IH. by rewrite (proj1 (roused_fields h)). Qed.

Lemma roused_caught_up g (hs : list Helper) : length (filter (λ h, caught_up g h = true) (roused <$> hs)) = length (filter (λ h, caught_up g h = true) hs).
Proof.
  induction hs as [|h hs IH]; [done|]. rewrite fmap_cons, !filter_cons. rewrite (proj2 (roused_fields h)).
  case_decide; cbn [length]; by rewrite IH.
Qed.

Lemma wake_ok s p : runner_ok s → phase p = phase (owner s) → owner_holds p = owner_holds (owner s) →
  owner_stops p = owner_stops (owner s) → owner_jobs p = owner_jobs (owner s) → owner_at (at_owner p s) → p ≠ Asleep →
  runner_ok (at_owner p (notify_wake s)).
Proof.
  intros Hs Ep Eh Est Ej Ha Hn. split; try done.
  - apply Hs.
  - intros i h Hi. cbn in Hi. rewrite list_lookup_fmap in Hi. destruct (helpers_ s !! i) as [k|] eqn:Ek; [|done].
    simplify_eq/=. apply rouse_helper; [|done]. by apply Hs.
  - cbn. rewrite (rk_mutex _ Hs). by rewrite Eh.
  - intros i Hi. cbn. rewrite list_lookup_fmap. apply fmap_is_Some. by apply Hs.
  - unfold owner_at in *. cbn in *. by rewrite length_fmap.
  - intros Hp. cbn in Hp. destruct (rk_opened _ Hs) as [O1 O2 O3 O4]; [congruence|]. split; try done.
    + cbn. by rewrite roused_caught_up.
    + unfold in_flight in *. cbn [helpers_ at_owner notify_wake owner ran arg_task arg_count next_]. rewrite Ej, roused_jobs. done.
  - cbn. rewrite Est. apply Hs.
  - apply Hs.
Qed.

Lemma clear_ok s m : runner_ok s → phase (owner s) = opened → owner_wakes (owner s) = false →
  owner_jobs (owner s) = [] → (length (helpers_ s) ≤ finished_ s)%nat → (arg_count s ≤ next_ s)%nat → m ≠ Some Owner →
  (∀ j, m = Some (Assistant j) ↔ mutex_ s = Some (Assistant j)) → runner_ok (at_owner Clearing (with_mutex m s)).
Proof.
  intros Hs Hp Hw Hj Hf Hn Hno Hm. pose proof (rk_opened _ Hs Hp) as [O1 O2 O3 O4].
  assert (Forall (λ h, caught_up (generation_ s) h = true) (helpers_ s)) as Hall.
  { apply (filter_all_lookup (λ h, caught_up (generation_ s) h = true)). pose proof (length_filter (λ h, caught_up (generation_ s) h = true) (helpers_ s)). lia. }
  split; try done.
  - apply Hs.
  - intros i h Hi. apply finish_helper; try done; [by apply Hs|]. by apply (Forall_lookup_1 _ _ _ _ Hall Hi).
  - intros i Hi. apply (rk_thread _ Hs). by apply Hm.
  - unfold owner_at. cbn. unfold in_flight in O4. rewrite Hj, bind_nil in O4.
    + rewrite Nat.min_r in O4 by done. by rewrite app_nil_r in O4.
    + eapply Forall_impl; [exact Hall|]. intros h. apply caught_up_jobs.
  - cbn. rewrite (rk_stopping _ Hs). by destruct (owner s).
  - apply Hs.
Qed.

Lemma returned_ok s : runner_ok s → phase (owner s) = quiet → owner_wakes (owner s) = false → owner_holds (owner s) = false →
  owner_stops (owner s) = false → ran s ≡ₚ jobs_of (arg_task s) (arg_count s) → runner_ok (returned s).
Proof.
  intros Hs Hp Hw Hh Hst Hr. apply (owner_moved s); try done.
  - cbn. rewrite (rk_mutex _ Hs). by rewrite Hh.
  - cbn. by rewrite (rk_stopping _ Hs).
  - cbn. apply Forall_app. split; [apply Hs|by apply Forall_singleton].
Qed.

(** The owner writes to a member nobody reads before the call is published. *)
Lemma set_ok s s' : runner_ok s → phase (owner s) = quiet → phase (owner s') = quiet → helpers_ s' = helpers_ s →
  generation_ s' = generation_ s → mutex_ s' = mutex_ s → stopping_ s' = owner_stops (owner s') → past s' = past s →
  owner_holds (owner s') = owner_holds (owner s) → owner_at s' → runner_ok s'.
Proof.
  intros Hs Hp Hp' Eh Eg Em Est Epast Eho Ha. split; try done.
  - rewrite Eg. apply Hs.
  - intros i h Hi. rewrite Eh in Hi. destruct (rk_helpers _ Hs i h Hi) as [A1 A2 A3 A4].
    destruct (quiet_helper s h A1 Hp) as [Es Hpc]. split; [|done|by rewrite Em|rewrite Eg; by left].
    unfold helper_at, abreast, late. rewrite Eg, Hp', Es. destruct (pc h); cbn in *; intuition congruence.
  - rewrite Em, Eho. apply Hs.
  - intros i. rewrite Em, Eh. apply Hs.
  - congruence.
  - intros E. by rewrite E in Hp'.
  - rewrite Epast. apply Hs.
Qed.

Lemma owner_draining s t : runner_ok s → owner s = Draining t →
  runner_ok (at_owner (if (count_ s <=? next_ s)%nat then Spinning 0 else Running t (next_ s)) (with_next (S (next_ s)) s)).
Proof.
  intros Hs Eo. pose proof (rk_owner _ Hs) as Ha. unfold owner_at in Ha. rewrite Eo in Ha. subst t.
  destruct (rk_opened _ Hs) as [O1 O2 O3 O4]; [by rewrite Eo|]. rewrite O2.
  pose proof (rk_mutex _ Hs) as Hm. rewrite Eo in Hm. pose proof (rk_stopping _ Hs) as Hst. rewrite Eo in Hst.
  assert (∀ p, phase p = opened → owner_wakes p = false → ∀ j, steady s (at_owner p (with_next (S (next_ s)) s)) j) as Hsd.
  { intros p Hp Hw j. split; cbn; rewrite ?Eo; (done || lia). }
  assert (∀ p, owner_jobs p ++ jobs_of (arg_task s) (next_ s `min` arg_count s) ≡ₚ jobs_of (arg_task s) (S (next_ s) `min` arg_count s) →
    opened_ok (at_owner p (with_next (S (next_ s)) s))) as Hop.
  { intros p Hj. apply (opened_same s); try done.
    cbn [ran owner next_ at_owner with_next]. rewrite Eo. cbn [owner_jobs]. by rewrite Hj. }
  destruct (Nat.leb_spec (arg_count s) (next_ s)) as [Hle|Hlt]; apply (owner_moved s); try done; try apply Hs; try (by apply Hsd).
  - unfold owner_at. cbn. lia.
  - intros _. apply Hop. cbn [owner_jobs app]. by rewrite !Nat.min_r by lia.
  - intros _. apply Hop. rewrite !Nat.min_l by lia. rewrite jobs_of_S. cbn [owner_jobs]. solve_Permutation.
Qed.

Lemma owner_running s t i : runner_ok s → owner s = Running t i → runner_ok (at_owner (Draining t) (ran_job t i s)).
Proof.
  intros Hs Eo. pose proof (rk_owner _ Hs) as Ha. unfold owner_at in Ha. rewrite Eo in Ha.
  pose proof (rk_mutex _ Hs) as Hm. rewrite Eo in Hm. pose proof (rk_stopping _ Hs) as Hst. rewrite Eo in Hst.
  apply (owner_moved s); try done.
  - intros j. split; cbn; rewrite ?Eo; (done || lia).
  - intros _. apply (opened_same s); try done; [apply Hs; by rewrite Eo|]. cbn [ran owner next_ at_owner ran_job]. rewrite Eo.
    cbn [owner_jobs]. solve_Permutation.
  - apply Hs.
Qed.

(** The hypotheses of [owner_local] at a known place of the owner. *)
Ltac at_place Hs Eo :=
  pose proof (rk_mutex _ Hs) as Hm; pose proof (rk_owner _ Hs) as Ha; unfold owner_at in Ha; rewrite Eo in Hm, Ha;
  cbn [owner_holds] in Hm.

Lemma owner_frees s j : runner_ok s → owner_holds (owner s) = true → (@None Thread) = Some (Assistant j) ↔ mutex_ s = Some (Assistant j).
Proof. intros Hs Hh. rewrite (proj2 (rk_mutex _ Hs) Hh). by split. Qed.
Lemma owner_takes s j : mutex_ s = None → Some Owner = Some (Assistant j) ↔ mutex_ s = Some (Assistant j).
Proof. intros ->. by split. Qed.

Lemma owner_opened_step_ok s s' : runner_ok s → phase (owner s) = opened → owner_step s = Ok s' → runner_ok s'.
Proof.
  intros Hs Hp. pose proof (rk_stopping _ Hs) as Hst. unfold owner_step. destruct (owner s) eqn:Eo; try done.
  - intros [= <-]. apply (owner_local s Waking None); try done; try (by rewrite Eo). intros j. apply owner_frees; [done|by rewrite Eo].
  - intros [= <-]. apply wake_ok; try done; try (by rewrite Eo).
  - destruct (task_ s) as [t|] eqn:Et; [|done]. intros [= <-]. at_place Hs Eo.
    apply (owner_local s (Draining t) (mutex_ s)); try done; try (by rewrite Eo). unfold owner_at. cbn.
    pose proof (op_task _ (rk_opened _ Hs ltac:(by rewrite Eo))). congruence.
  - intros [= <-]. by apply owner_draining.
  - intros [= <-]. by apply owner_running.
  - intros [= <-]. at_place Hs Eo. case_match.
    + apply (owner_local s (Spinning (S spin)) (mutex_ s)); try done; try (by rewrite Eo).
    + apply (owner_local s Checking (mutex_ s)); try done; try (by rewrite Eo).
  - intros [= <-]. at_place Hs Eo. destruct (Nat.ltb_spec (finished_ s) (length (helpers_ s))).
    + apply (owner_local s LockDone (mutex_ s)); try done; try (by rewrite Eo).
    + apply (clear_ok s (mutex_ s)); try done; try (by rewrite Eo). rewrite Hm. done.
  - intros [Hfree ->]%acquires. at_place Hs Eo. apply (owner_local s AwaitDone (Some Owner)); try done; try (by rewrite Eo).
    intros j. by apply owner_takes.
  - at_place Hs Eo. destruct (Nat.eqb_spec (finished_ s) (length (helpers_ s))) as [Ef|Ef]; intros [= <-].
    + apply (owner_local s UnlockDone (mutex_ s)); try done; try (by rewrite Eo).
    + apply (owner_local s Asleep None); try done; try (by rewrite Eo).
      * intros j. apply owner_frees; [done|by rewrite Eo].
      * intros _. destruct (rk_opened _ Hs) as [_ _ O3 _]; [by rewrite Eo|].
        pose proof (length_filter (λ h, caught_up (generation_ s) h = true) (helpers_ s)). lia.
  - intros [Hfree ->]%acquires. at_place Hs Eo. apply (owner_local s AwaitDone (Some Owner)); try done; try (by rewrite Eo).
    intros j. by apply owner_takes.
  - intros [= <-]. at_place Hs Eo. apply (clear_ok s None); try done; try (by rewrite Eo); try lia.
    intros j. apply owner_frees; [done|by rewrite Eo].
Qed.

Lemma owner_other_step_ok s s' : runner_ok s → phase (owner s) ≠ opened → owner_step s = Ok s' → runner_ok s'.
Proof.
  intros Hs Hp. pose proof (rk_stopping _ Hs) as Hst. unfold owner_step. destruct (owner s) eqn:Eo; try done.
  - at_place Hs Eo. destruct (Nat.ltb_spec index (arg_count s)) as [Hlt|Hge]; intros [= <-].
    + apply (set_ok s); try done; try (by rewrite Eo). split; [|cbn; lia]. cbn. destruct Ha as [-> _]. by rewrite <- jobs_of_S.
    + apply returned_ok; try done; try (by rewrite Eo). destruct Ha as [-> Hle]. by replace index with (arg_count s) by lia.
  - intros [Hfree ->]%acquires. at_place Hs Eo. apply (owner_local s SetTask (Some Owner)); try done; try (by rewrite Eo).
    intros j. by apply owner_takes.
  - intros [= <-]. at_place Hs Eo. apply (set_ok s); try done; try (by rewrite Eo).
  - intros [= <-]. at_place Hs Eo. apply (set_ok s); try done; try (by rewrite Eo). split_and!; naive_solver.
  - intros [= <-]. at_place Hs Eo. apply (set_ok s); try done; try (by rewrite Eo). split_and!; naive_solver.
  - intros [= <-]. at_place Hs Eo. apply (set_ok s); try done; try (by rewrite Eo). split_and!; naive_solver.
  - intros [= <-]. by apply publish_ok.
  - intros [= <-]. at_place Hs Eo.
    assert (runner_ok (with_task None s)) as Hs' by (apply (set_ok s); try done; unfold owner_at; cbn; by rewrite ?Eo).
    by apply (returned_ok _ Hs'); cbn; rewrite ?Eo.
  - intros [Hfree ->]%acquires. at_place Hs Eo. apply (owner_local s DtorStop (Some Owner)); try done; try (by rewrite Eo).
    intros j. by apply owner_takes.
  - intros [= <-]. at_place Hs Eo. apply (set_ok s); try done; try (by rewrite Eo).
  - intros [= <-]. by apply dtor_publish_ok.
  - intros [= <-]. apply (owner_local s DtorWake None); try done; try (by rewrite Eo). intros j. apply owner_frees; [done|by rewrite Eo].
  - intros [= <-]. apply wake_ok; try done; try (by rewrite Eo).
  - case_decide; [|done]. intros [= <-]. at_place Hs Eo. apply (owner_local s Gone (mutex_ s)); try done; try (by rewrite Eo).
Qed.

Lemma owner_step_ok s s' : runner_ok s → owner_step s = Ok s' → runner_ok s'.
Proof.
  intros Hs. destruct (decide (phase (owner s) = opened)); [by apply owner_opened_step_ok|by apply owner_other_step_ok].
Qed.

Lemma call_ok s task count : runner_ok s → owner s = Idle → runner_ok (call_run task count s).
Proof.
  intros Hs Eo. pose proof (rk_stopping _ Hs) as Hst. rewrite Eo in Hst. unfold call_run.
  set (s1 := mkRunner _ _ _ _ _ _ _ _ task count _ _ _).
  assert (∀ p, phase p = quiet → owner_holds p = false → owner_stops p = false → owner_at (at_owner p s1) → runner_ok (at_owner p s1)) as H1.
  { intros p Hp Hh Hst' Ha. apply (set_ok s); try done; cbn; rewrite ?Eo, ?Hst'; done. }
  destruct (Nat.eqb_spec count 0) as [->|Hc]; [|case_match; by apply H1; try (split; cbn; [done|lia])].
  assert (runner_ok s1) as Hs1.
  { replace s1 with (at_owner Idle s1) by (unfold at_owner, s1; cbn; by rewrite <- Eo). by apply H1. }
  apply (returned_ok s1 Hs1); cbn; by rewrite ?Eo.
Qed.

Lemma runner_move_ok s s' : runner_ok s → runner_move s s' → runner_ok s'.
Proof.
  intros Hs. destruct 1 as [t s s' Hadv|task count s Eo|s Eo|s Eo|i h s Hi Hp].
  - destruct t as [|i]; cbn [advance] in Hadv; [by eapply owner_step_ok|]. destruct (helpers_ s !! i) as [h|] eqn:Hi; [|done].
    destruct (helper_step_move s i h s' Hs Hi Hadv) as [h' M]. by eapply helper_move_ok.
  - by apply call_ok.
  - apply (set_ok s); try done; rewrite ?Eo; try done. cbn. by rewrite (rk_stopping _ Hs), Eo.
  - at_place Hs Eo. apply (owner_local s Woken (mutex_ s)); try done; by rewrite Eo.
  - pose proof (rk_helpers _ Hs i h Hi) as [A1 A2 A3 A4]. rewrite Hp in A3. unfold helper_at in A1. rewrite Hp in A1.
    apply (helper_move_ok s _ i h (mkHelper WokenWake (seen h)) Hs Hi).
    apply (local_move s i h WokenWake (mutex_ s)); try done; [left; by rewrite Hp|unfold helper_jobs; by rewrite Hp|].
    rewrite Hp. intros [?|?]; discriminate.
Qed.

Lemma new_runner_ok helpers : runner_ok (new_runner helpers).
Proof.
  split; try done. intros i h [-> _]%lookup_replicate. split; try done. by left.
Qed.

Definition runner_reach (helpers : nat) : Runner → Prop := rtc runner_move (new_runner helpers).

Lemma runner_reach_ok helpers s : runner_reach helpers s → runner_ok s.
Proof.
  intros Hr. apply (rtc_ind_r runner_ok (new_runner helpers)) in Hr; [done|apply new_runner_ok|].
  intros s1 s2 _ Hm Hok. by eapply runner_move_ok.
Qed.

(** ** Somebody can move *)

Lemma advance_defined s t : runner_ok s → advance t s ≠ Ub.
Proof.
  intros Hs. destruct t as [|i]; cbn [advance].
  - unfold owner_step, locking. destruct (owner s) eqn:Eo; try done; try (by case_match).
    rewrite (op_task _ (rk_opened _ Hs ltac:(by rewrite Eo))). done.
  - destruct (helpers_ s !! i) as [h|] eqn:Hi; [|done]. unfold helper_step, locking.
    destruct (pc h) eqn:Hp; try done; repeat (case_match; try done).
    destruct (helper_opened s i h Hs Hi) as (_ & _ & [O1 _ _ _] & _); [by rewrite Hp|]. congruence.
Qed.

(** A helper that neither sleeps nor waits for the mutex moves. *)
Lemma helper_runs s i h : runner_ok s → helpers_ s !! i = Some h →
  mutex_ s = None ∨ helper_holds (pc h) = true → pc h ≠ AsleepWake → pc h ≠ Exited → ∃ t s', advance t s = Ok s'.
Proof.
  intros Hs Hi Hm Ha He. exists (Assistant i). pose proof (advance_defined s (Assistant i) Hs) as Hd. cbn [advance] in *. rewrite Hi in *.
  unfold helper_step, locking in *. destruct (pc h) eqn:Hp; try done; try (destruct Hm as [->|?]; [|done]);
    repeat case_match; try done; by eexists.
Qed.

Lemma owner_runs s : runner_ok s → mutex_ s = None ∨ owner_holds (owner s) = true → owner s ≠ Idle → owner s ≠ Gone →
  owner s ≠ Asleep → owner s ≠ DtorJoin → ∃ t s', advance t s = Ok s'.
Proof.
  intros Hs Hm H1 H2 H3 H4. exists Owner. pose proof (advance_defined s Owner Hs) as Hd. cbn [advance] in *.
  unfold owner_step, locking in *. destruct (owner s) eqn:Eo; try done; try (destruct Hm as [->|?]; [|done]);
    repeat case_match; try done; by eexists.
Qed.

Lemma filter_misses {A} (P : A → Prop) `{!∀ x, Decision (P x)} (l : list A) : (length (filter P l) < length l)%nat →
  ∃ i x, l !! i = Some x ∧ ¬ P x.
Proof.
  intros Hl. destruct (decide (Forall P l)) as [Ha|Hn].
  - exfalso. assert (filter P l = l) as E; [|rewrite E in Hl; lia]. clear Hl.
    induction Ha as [|x l Hx Ha IH]; [done|]. by rewrite filter_cons_True, IH.
  - apply not_Forall_Exists in Hn; [|apply _]. apply Exists_exists in Hn as (x & Hin & Hx).
    apply list_elem_of_lookup in Hin as [i Hi]. eauto.
Qed.

Lemma runner_progress s : runner_ok s → owner s ≠ Idle → owner s ≠ Gone → ∃ t s', advance t s = Ok s'.
Proof.
  intros Hs Hidle Hgone. destruct (mutex_ s) as [[|i]|] eqn:Hm.
  - pose proof (proj1 (rk_mutex _ Hs) Hm) as Hh. apply owner_runs; try done; try (by right); intros E; by rewrite E in Hh.
  - destruct (rk_thread _ Hs i Hm) as [h Hi]. pose proof (proj1 (hk_mutex _ _ _ (rk_helpers _ Hs i h Hi)) Hm) as Hh.
    apply (helper_runs s i h); try done; try (by right); intros E; by rewrite E in Hh.
  - destruct (decide (owner s = Asleep)) as [Eo|Hna]; [|destruct (decide (owner s = DtorJoin)) as [Eo|Hnj]].
    + assert (∃ i h, helpers_ s !! i = Some h ∧ pc h ≠ AsleepWake ∧ pc h ≠ Exited) as (i & h & Hi & Hw & He);
        [|by apply (helper_runs s i h); auto].
      destruct (rk_done _ Hs Eo) as [Hlt|(i & h & Hi & Hp)]; [|exists i, h; split; [done|]; by destruct Hp as [-> | ->]].
      destruct (rk_opened _ Hs) as [_ _ O3 _]; [by rewrite Eo|]. rewrite O3 in Hlt.
      destruct (filter_misses _ _ Hlt) as (i & h & Hi & Hc). exists i, h. split; [done|].
      pose proof (rk_helpers _ Hs i h Hi) as [A1 _ _ A4]. unfold caught_up in Hc. rewrite Eo in A4. split; intros Hp.
      * destruct (A4 Hp) as [E|E]; [|done]. apply Hc. by rewrite E, Z.eqb_refl, Hp.
      * unfold helper_at in A1. rewrite Hp, Eo in A1. by destruct A1.
    + destruct (decide (Forall (λ h, pc h = Exited) (helpers_ s))) as [Ha|Hn].
      { exists Owner. cbn [advance]. unfold owner_step. rewrite Eo, decide_True by done. by eexists. }
      apply not_Forall_Exists in Hn; [|apply _]. apply Exists_exists in Hn as (h & Hin & Hx).
      apply list_elem_of_lookup in Hin as [i Hi]. apply (helper_runs s i h); try done; [by left|]. intros Hp.
      pose proof (rk_helpers _ Hs i h Hi) as [A1 A2 _ A4]. rewrite Eo in A4. pose proof (u64_next _ A2).
      unfold helper_at, abreast, late in A1. rewrite Hp, Eo in A1. destruct (A4 Hp) as [E|E]; [|done]. intuition congruence.
    + apply owner_runs; auto.
Qed.

(** ** Nobody moves forever *)

(** What a helper can still do before it sleeps or ends. *)
Definition pc_rank (p : HelperPc) : Z :=
  match p with
  | Exited | See _ => 0
  | Reload | AsleepWake => 1
  | AwaitWake => 2
  | LockWake | WokenWake => 3
  | Spin _ k => 4 + Z.of_nat (kHelperSpins - k)
  | Load => 4005
  | Notify => 4010
  | LockNotify => 4011
  | Finish => 4012
  | Fetch _ => 4013
  | Run _ _ => 4014
  | Enter => 4015
  | CheckStop => 4016
  | LockStop => 4017
  end.
Definition helper_rank (g : Z) (h : Helper) : Z := pc_rank (pc h) + (if seen h =? g then 0 else 4018).
Definition helpers_rank (g : Z) (hs : list Helper) : Z := foldr (λ h n, helper_rank g h + n) 0 hs.

(** What the owner can still do, with [n] helpers and [c] jobs. *)
Definition owner_rank (n c : Z) (p : OwnerPc) : Z :=
  match p with
  | Idle | Gone => 0
  | Sequential i => 1 + Z.max 0 (c - Z.of_nat i)
  | Entering => 4020 * n + 2 * c + 20027
  | SetTask => 4020 * n + 2 * c + 20026
  | SetCount => 4020 * n + 2 * c + 20025
  | SetNext => 4020 * n + 2 * c + 20024
  | SetFinished => 4020 * n + 2 * c + 20023
  | Publish => 4020 * n + 2 * c + 20022
  | Unlocking => 2 * n + 20014
  | Waking => 2 * n + 20013
  | EnterDrain => 20012
  | Running _ _ => 20011
  | Draining _ => 20010
  | Spinning k => 7 + Z.of_nat (kOwnerSpins - k)
  | Checking => 6
  | LockDone | Woken => 5
  | AwaitDone => 4
  | Asleep => 3
  | UnlockDone => 2
  | Clearing => 1
  | DtorLock => 4020 * n + 6
  | DtorStop => 4020 * n + 5
  | DtorPublish => 4020 * n + 4
  | DtorUnlock => 2 * n + 3
  | DtorWake => 2 * n + 2
  | DtorJoin => 1
  end.

(** The jobs nobody fetched yet. *)
Definition unfetched (s : Runner) : Z :=
  match phase (owner s) with opened => Z.of_nat (arg_count s - next_ s) | _ => 0 end.
Definition runner_rank (s : Runner) : Z :=
  owner_rank (Z.of_nat (length (helpers_ s))) (Z.of_nat (arg_count s)) (owner s) +
  helpers_rank (generation_ s) (helpers_ s) + 2 * unfetched s.

Lemma helpers_rank_insert g hs i h h' : hs !! i = Some h →
  helpers_rank g (<[i := h']> hs) + helper_rank g h = helpers_rank g hs + helper_rank g h'.
Proof.
  revert i. induction hs as [|k hs IH]; intros i Hi; [done|]. destruct i as [|i].
  - injection Hi as ->. cbn. lia.
  - specialize (IH i Hi). change (<[S i := h']> (k :: hs)) with (k :: <[i := h']> hs). cbn [helpers_rank foldr].
    fold (helpers_rank g (<[i := h']> hs)) (helpers_rank g hs). lia.
Qed.

Lemma helper_rank_nonneg g h : 0 ≤ helper_rank g h.
Proof. unfold helper_rank. destruct (pc h), (seen h =? g); cbn [pc_rank]; lia. Qed.

Lemma helpers_rank_nonneg g hs : 0 ≤ helpers_rank g hs.
Proof. induction hs as [|h hs IH]; cbn; [lia|]. pose proof (helper_rank_nonneg g h). unfold helpers_rank in IH. lia. Qed.

Lemma runner_rank_nonneg s : 0 ≤ runner_rank s.
Proof.
  pose proof (helpers_rank_nonneg (generation_ s) (helpers_ s)). unfold runner_rank, unfetched.
  destruct (owner s); cbn [owner_rank phase]; lia.
Qed.

(** The step of a helper, when its own rank pays for the rest. *)
Lemma rank_helper s s' i h h' : helpers_ s !! i = Some h → helpers_ s' = <[i := h']> (helpers_ s) →
  generation_ s' = generation_ s → arg_count s' = arg_count s →
  owner_rank (Z.of_nat (length (helpers_ s))) (Z.of_nat (arg_count s)) (owner s') + helper_rank (generation_ s) h' + 2 * unfetched s' <
  owner_rank (Z.of_nat (length (helpers_ s))) (Z.of_nat (arg_count s)) (owner s) + helper_rank (generation_ s) h + 2 * unfetched s →
  runner_rank s' < runner_rank s.
Proof.
  intros Hi Eh Eg Ec Hlt. unfold runner_rank. rewrite Eh, Eg, Ec, length_insert.
  pose proof (helpers_rank_insert (generation_ s) _ _ _ h' Hi). lia.
Qed.

(** A step that lowers the rank of where the helper is. *)
Lemma rank_local s s0 i h p : helpers_ s !! i = Some h → helpers_ s0 = helpers_ s → generation_ s0 = generation_ s →
  arg_count s0 = arg_count s → owner s0 = owner s → next_ s0 = next_ s → pc_rank p < pc_rank (pc h) →
  runner_rank (at_helper i (mkHelper p (seen h)) s0) < runner_rank s.
Proof.
  intros Hi Eh Eg Ec Eo En Hlt. apply (rank_helper s _ i h (mkHelper p (seen h))); try done; [cbn; by rewrite Eh|].
  unfold helper_rank, unfetched. cbn [pc seen owner arg_count next_ at_helper]. rewrite Eo, Ec, En. lia.
Qed.

Lemma fetch_rank s i h t : runner_ok s → helpers_ s !! i = Some h → pc h = Fetch t →
  let p := if (count_ s <=? next_ s)%nat then Finish else Run t (next_ s) in
  runner_rank (at_helper i (mkHelper p (seen h)) (with_next (S (next_ s)) s)) < runner_rank s.
Proof.
  intros Hs Hi Hp p. destruct (helper_opened s i h Hs Hi) as (Ho & _ & [_ O2 _ _] & _); [by rewrite Hp|].
  apply (rank_helper s _ i h (mkHelper p (seen h))); try done.
  unfold helper_rank, unfetched, p. cbn [pc seen owner arg_count next_ at_helper with_next]. rewrite Ho, Hp, O2.
  destruct (Nat.leb_spec (arg_count s) (next_ s)); cbn [pc_rank]; lia.
Qed.

Lemma see_rank s i h current : runner_ok s → helpers_ s !! i = Some h → pc h = See current →
  runner_rank (at_helper i (mkHelper LockStop current) s) < runner_rank s.
Proof.
  intros Hs Hi Hp. pose proof (rk_helpers _ Hs i h Hi) as [A1 A2 _ _]. unfold helper_at, late in A1. rewrite Hp in A1.
  destruct A1 as [[E _] ->]. pose proof (u64_next _ A2) as Hne. rewrite E in Hne.
  apply (rank_helper s _ i h (mkHelper LockStop (generation_ s))); try done. unfold helper_rank, unfetched. cbn [pc seen owner at_helper arg_count next_].
  rewrite Z.eqb_refl, Hp, (proj2 (Z.eqb_neq _ _)) by congruence. cbn [pc_rank]. lia.
Qed.

Lemma notify_rank s i h : helpers_ s !! i = Some h → pc h = Notify →
  runner_rank (at_helper i (mkHelper Load (seen h)) (with_mutex None (notify_done s))) < runner_rank s.
Proof.
  intros Hi Hp. unfold notify_done. destruct (decide (owner s = Asleep)) as [Eo|Eo].
  - apply (rank_helper s _ i h (mkHelper Load (seen h))); try done. unfold helper_rank, unfetched.
    cbn [pc seen owner at_helper with_mutex at_owner arg_count next_]. rewrite Eo, Hp. cbn [phase owner_rank pc_rank]. lia.
  - apply rank_local; try done. by rewrite Hp.
Qed.

Lemma helper_step_rank s i h s' : runner_ok s → helpers_ s !! i = Some h → helper_step i h s = Ok s' →
  runner_rank s' < runner_rank s.
Proof.
  intros Hs Hi. unfold helper_step. destruct (pc h) as [|current k| | | | | |current| | | |t|t j| | | |] eqn:Hp; try done.
  all: try (intros [_ ->]%acquires; apply (rank_local s (with_mutex (Some (Assistant i)) s) i h); try done; by rewrite Hp).
  - intros [= <-]. apply (rank_local s _ i h); try done. rewrite Hp. cbn [pc_rank]. unfold kHelperSpins. lia.
  - destruct (current =? seen h); cbn [andb]; [destruct (Nat.ltb_spec k kHelperSpins)|]; intros [= <-];
      apply (rank_local s _ i h); try done; rewrite Hp; cbn [pc_rank]; lia.
  - case_match; intros [= <-]; apply (rank_local s _ i h); try done; by rewrite Hp.
  - intros [= <-]. apply (rank_local s _ i h); try done; by rewrite Hp.
  - intros [= <-]. by apply (see_rank s i h).
  - intros [= <-]. apply (rank_local s _ i h); try done. rewrite Hp. by destruct (stopping_ s).
  - destruct (task_ s); [|done]. intros [= <-]. apply (rank_local s _ i h); try done; by rewrite Hp.
  - intros [= <-]. by apply (fetch_rank s i h).
  - intros [= <-]. apply (rank_local s _ i h); try done; by rewrite Hp.
  - intros [= <-]. apply (rank_local s _ i h); try done. rewrite Hp. by case_match.
  - intros [= <-]. by apply notify_rank.
Qed.

Lemma helpers_rank_publish g g' hs : helpers_rank g' hs ≤ helpers_rank g hs + 4018 * Z.of_nat (length hs).
Proof.
  induction hs as [|h hs IH]; cbn [helpers_rank foldr length]; [lia|]. unfold helpers_rank in IH. unfold helper_rank at 1 3.
  destruct (seen h =? g'), (seen h =? g); lia.
Qed.

Lemma helpers_rank_roused g hs : helpers_rank g (roused <$> hs) ≤ helpers_rank g hs + 2 * Z.of_nat (length hs).
Proof.
  induction hs as [|h hs IH]; [done|]. rewrite fmap_cons. cbn [helpers_rank foldr length]. unfold helpers_rank in IH.
  assert (helper_rank g (roused h) ≤ helper_rank g h + 2); [|lia].
  unfold helper_rank, roused. cbn [seen pc]. destruct (decide (pc h = AsleepWake)) as [->|]; cbn [pc_rank]; lia.
Qed.

Ltac ranked :=
  cbn [owner phase owner_rank helpers_ arg_count generation_ next_ at_owner with_mutex with_task with_count with_next
       with_finished publish_generation notify_wake stopped ran_job returned].

Lemma owner_step_rank s s' : runner_ok s → owner_step s = Ok s' → runner_rank s' < runner_rank s.
Proof.
  intros Hs. pose proof (rk_owner _ Hs) as Ha. pose proof (helpers_rank_nonneg (generation_ s) (helpers_ s)) as Hn.
  assert (phase (owner s) = opened → count_ s = arg_count s) as Hc by (intros Hp; apply (rk_opened _ Hs Hp)).
  unfold owner_step, runner_rank, unfetched, owner_at in *. destruct (owner s) eqn:Eo; try done.
  all: try (intros [_ ->]%acquires; ranked; lia); try (intros [= <-]; ranked; lia).
  - case_match eqn:Hl; intros [= <-]; ranked;
      [apply Nat.ltb_lt in Hl|]; lia.
  - intros [= <-]. ranked.
    pose proof (helpers_rank_publish (generation_ s) (u64 (generation_ s + 1)) (helpers_ s)). lia.
  - intros [= <-]. ranked.
    rewrite ?length_fmap. pose proof (helpers_rank_roused (generation_ s) (helpers_ s)). lia.
  - case_match; [|done]. intros [= <-]. ranked. lia.
  - intros [= <-]. ranked. rewrite Hc by done.
    destruct (Nat.leb_spec (arg_count s) (next_ s)); cbn [phase owner_rank]; unfold kOwnerSpins; lia.
  - intros [= <-]. ranked.
    destruct (_ <? _)%nat; cbn [andb]; [destruct (Nat.ltb_spec spin kOwnerSpins)|]; cbn [phase owner_rank]; lia.
  - intros [= <-]. ranked. destruct (_ <? _)%nat; cbn [phase owner_rank]; lia.
  - case_match; intros [= <-]; ranked; lia.
  - intros [= <-]. ranked.
    pose proof (helpers_rank_publish (generation_ s) (u64 (generation_ s + 1)) (helpers_ s)). lia.
  - intros [= <-]. ranked.
    rewrite ?length_fmap. pose proof (helpers_rank_roused (generation_ s) (helpers_ s)). lia.
  - case_decide; [|done]. intros [= <-]. ranked. lia.
Qed.

Lemma advance_rank t s s' : runner_ok s → advance t s = Ok s' → runner_rank s' < runner_rank s.
Proof.
  intros Hs. destruct t as [|i]; cbn [advance]; [by apply owner_step_rank|].
  destruct (helpers_ s !! i) as [h|] eqn:Hi; [|done]. by apply helper_step_rank.
Qed.

(** Whoever moves, the owner comes back: some thread can move until it does,
    and the moves run out. *)
Inductive always_returns (s : Runner) : Prop :=
| back : owner s = Idle ∨ owner s = Gone → always_returns s
| moves : (∃ t s', advance t s = Ok s') → (∀ t s', advance t s = Ok s' → always_returns s') → always_returns s.

Lemma returns_within n s : runner_ok s → runner_rank s < Z.of_nat n → always_returns s.
Proof.
  revert s. induction n as [|n IH]; intros s Hs Hr; [pose proof (runner_rank_nonneg s); lia|].
  destruct (decide (owner s = Idle)) as [?|Hi]; [by apply back; left|].
  destruct (decide (owner s = Gone)) as [?|Hg]; [by apply back; right|].
  apply moves; [by apply runner_progress|]. intros t s' Ha. apply IH.
  - eapply runner_move_ok; [exact Hs|by eapply move_advance].
  - pose proof (advance_rank t s s' Hs Ha). lia.
Qed.

Lemma jobs_of_NoDup task count : NoDup (jobs_of task count).
Proof. apply NoDup_fmap_2; [intros x y; congruence|apply NoDup_seq]. Qed.

Lemma quiet_no_jobs s : runner_ok s → phase (owner s) ≠ opened → in_flight s = [].
Proof.
  intros Hs Hp. unfold in_flight. rewrite bind_nil.
  - by destruct (owner s).
  - apply Forall_lookup. intros i h Hi. pose proof (hk_at _ _ _ (rk_helpers _ Hs i h Hi)) as A. unfold helper_at in A.
    unfold helper_jobs. destruct (pc h); naive_solver.
Qed.

(** ** Jobs *)

(** C6. Each job is run once and before [run] returns.  However the owner and
    the helpers are interleaved, with wake-ups for no reason and any number of
    calls: no thread reads a task that is not there; every call that returned
    ran each index below its count exactly once; two threads never run the
    same job at the same time; and outside a call nothing is running, so the
    task may be destroyed. *)
Theorem parallel_jobs_once helpers s : runner_reach helpers s →
  (∀ t, advance t s ≠ Ub) ∧
  Forall (λ c, c.2 ≡ₚ jobs_of c.1.1 c.1.2) (past s) ∧
  NoDup (in_flight s) ∧
  (owner s = Idle → in_flight s = []).
Proof.
  intros Hr. pose proof (runner_reach_ok helpers s Hr) as Hs. split; [intros t; by apply advance_defined|]. split; [apply Hs|].
  split; [|intros E; apply quiet_no_jobs; [done|by rewrite E]].
  destruct (decide (phase (owner s) = opened)) as [Hp|Hp]; [|rewrite quiet_no_jobs by done; constructor].
  pose proof (op_jobs _ (rk_opened _ Hs Hp)) as Hj.
  pose proof (jobs_of_NoDup (arg_task s) (next_ s `min` arg_count s)) as Hnd. rewrite <- Hj in Hnd. by apply NoDup_app in Hnd as (_ & _ & ?).
Qed.

(** C7. A call of [run] returns.  From every state the runner can be in, under
    every scheduling of the threads, some thread can move as long as the call
    or the destructor is under way, and only finitely many moves are possible
    before it is over: no wake-up is lost and no thread waits for another
    forever.  The owner is woken by helpers, not for no reason. *)
Theorem parallel_run_returns helpers s : runner_reach helpers s → always_returns s.
Proof.
  intros Hr. pose proof (runner_rank_nonneg s). apply (returns_within (S (Z.to_nat (runner_rank s)))).
  - by eapply runner_reach_ok.
  - lia.
Qed.

(** A schedule, in which a blocked thread loses its turn. *)
Fixpoint follow (schedule : list Thread) (s : Runner) : Runner :=
  match schedule with
  | [] => s
  | t :: schedule => follow schedule (match advance t s with Ok s' => s' | _ => s end)
  end.

Lemma follow_reach helpers schedule s : runner_reach helpers s → runner_reach helpers (follow schedule s).
Proof.
  revert s. induction schedule as [|t schedule IH]; intros s Hr; [done|]. cbn [follow].
  destruct (advance t s) as [s'|e|] eqn:Ha; [|auto..]. apply IH. eapply rtc_r; [exact Hr|]. by eapply move_advance.
Qed.

Definition sample_called : Runner := call_run 7 9 (new_runner 2).
Definition sample_turns : list Thread := mjoin (replicate 40 [Assistant 1; Owner; Assistant 0]).

Lemma sample_called_reach : runner_reach 2 sample_called.
Proof. eapply rtc_l; [apply (move_call 7 9); done|reflexivity]. Qed.

Lemma parallel_jobs_once_witness :
  let s := follow sample_turns sample_called in
  owner s = Idle ∧ in_flight s = [] ∧ ∃ jobs, past s = [(7, 9, jobs)]%nat ∧ jobs ≡ₚ jobs_of 7 9.
Proof.
  intros s. destruct (parallel_jobs_once 2 s (follow_reach 2 _ _ sample_called_reach)) as (_ & Hp & _ & Hf).
  assert (owner s = Idle) as E by (by vm_compute). split; [exact E|]. split; [exact (Hf E)|].
  assert ((past s).*1 = [(7, 9)]%nat) as Ep by (by vm_compute). revert Hp Ep. generalize (past s). clear.
  intros [|[k jobs] [|? ?]] Hp Ep; try discriminate. injection Ep as ->. exists jobs. split; [done|].
  rewrite Forall_singleton in Hp. exact Hp.
Defined.

Lemma parallel_run_returns_witness : owner sample_called = Entering ∧ always_returns sample_called.
Proof. split; [by vm_compute|]. apply (parallel_run_returns 2). apply sample_called_reach. Defined.
