(* ===== verification/Spoof.v ===== *)
(** Source addresses that are not the host's own: [src/spoof_pool.cpp],
    [src/spoof_feedback.cpp] and [src/spoof_envelope.cpp].

    The pool picks a source for a flow by rendezvous hashing among the
    addresses that are not in quarantine; the feedback blames the addresses
    whose packets the other end did not see, as its receipts tell; the envelope
    draws candidate addresses from a pseudo-random sequence. *)

From S2P Require Import Prelude.

(** ** The pool *)

Record SpoofPoolConfig := mkPoolConfig {
  death_threshold : Z;
  initial_cooldown : Duration;
  max_cooldown : Duration;
}.
Definition default_pool_config : SpoofPoolConfig := mkPoolConfig 4 (seconds 30) (minutes 5).

Record SpoofEntry := mkEntry {
  ip_be : Z;
  death_streak : Z;
  cooldown_level : Z;
  cooldown_until : Instant;
  entry_sent : Z;
}.
Record SpoofPool := mkPool { entries_ : list SpoofEntry; config_ : SpoofPoolConfig }.
Record SpoofPick := mkPick { pick_index : nat; source_be : Z }.

Definition mix64 (value : Z) : Z :=
  let value := u64 (value + 0x9E3779B97F4A7C15) in
  let value := u64 (Z.lxor value (Z.shiftr value 30) * 0xBF58476D1CE4E5B9) in
  let value := u64 (Z.lxor value (Z.shiftr value 27) * 0x94D049BB133111EB) in
  Z.lxor value (Z.shiftr value 31).

Definition score (flow_hash ip : Z) : Z := mix64 (Z.lxor flow_hash (mix64 ip)).

Definition settle_config (c : SpoofPoolConfig) : SpoofPoolConfig :=
  mkPoolConfig (if death_threshold c =? 0 then 1 else death_threshold c) (initial_cooldown c)
    (if max_cooldown c <? initial_cooldown c then initial_cooldown c else max_cooldown c).

Definition add_source (entries : list SpoofEntry) (ip : Z) : list SpoofEntry :=
  if ip =? 0 then entries
  else if existsb (λ e, ip_be e =? ip) entries then entries
  else entries ++ [mkEntry ip 0 0 0 0].

Definition new_pool (sources_be : list Z) (config : SpoofPoolConfig) : SpoofPool :=
  mkPool (foldl add_source [] sources_be) (settle_config config).

(** [cooldown_for]: the loop over the remaining steps. *)
Fixpoint cooldown_loop (steps : nat) (cap cooldown : Duration) : Duration :=
  match steps with
  | O => cooldown
  | S steps =>
      if cap - cooldown <=? cooldown then cap
      else let cooldown := cooldown * 2 in if cap <=? cooldown then cap else cooldown_loop steps cap cooldown
  end.
Definition cooldown_for (c : SpoofPoolConfig) (level : Z) : Duration :=
  cooldown_loop (Z.to_nat level) (max_cooldown c) (initial_cooldown c).

Definition quarantined (p : SpoofPool) (index : nat) (now : Instant) : bool :=
  match entries_ p !! index with Some e => now <? cooldown_until e | None => true end.

(** The loop of [pick] from [index] on; [size] stands for no healthy entry. *)
Fixpoint pick_loop (size : nat) (flow_hash : Z) (now : Instant) (rest : list SpoofEntry) (index : nat)
    (healthy_best : nat) (healthy_score : Z) (soonest : nat) (soonest_until : Instant) : nat * nat :=
  match rest with
  | [] => (healthy_best, soonest)
  | e :: rest =>
      let sooner := cooldown_until e <? soonest_until in
      let soonest_until := if sooner then cooldown_until e else soonest_until in
      let soonest := if sooner then index else soonest in
      if now <? cooldown_until e then
        pick_loop size flow_hash now rest (S index) healthy_best healthy_score soonest soonest_until
      else
        let candidate := score flow_hash (ip_be e) in
        if (healthy_best =? size)%nat || (healthy_score <? candidate)
        then pick_loop size flow_hash now rest (S index) index candidate soonest soonest_until
        else pick_loop size flow_hash now rest (S index) healthy_best healthy_score soonest soonest_until
  end.

Definition count_pick (e : SpoofEntry) : SpoofEntry :=
  mkEntry (ip_be e) (death_streak e) (cooldown_level e) (cooldown_until e) (u64 (entry_sent e + 1)).

Definition pick (p : SpoofPool) (flow_hash : Z) (now : Instant) : SpoofPool * option SpoofPick :=
  match entries_ p with
  | [] => (p, None)
  | first :: _ =>
      let size := length (entries_ p) in
      let '(healthy_best, soonest) := pick_loop size flow_hash now (entries_ p) 0 size 0 0 (cooldown_until first) in
      let chosen := if (healthy_best =? size)%nat then soonest else healthy_best in
      (mkPool (alter count_pick chosen (entries_ p)) (config_ p),
       mkPick chosen <$> (ip_be <$> entries_ p !! chosen))
  end.

(** [Instant::max()] *)
Definition kInstantMax : Instant := 2 ^ 63 - 1.

Definition blame_entry (c : SpoofPoolConfig) (now : Instant) (e : SpoofEntry) : SpoofEntry :=
  let streak := u32 (death_streak e + 1) in
  if streak <? death_threshold c then mkEntry (ip_be e) streak (cooldown_level e) (cooldown_until e) (entry_sent e)
  else
    let cooldown := cooldown_for c (cooldown_level e) in
    let headroom := kInstantMax - now in
    mkEntry (ip_be e) 0 (if cooldown_level e <? 30 then cooldown_level e + 1 else cooldown_level e)
      (if headroom <=? cooldown then kInstantMax else now + cooldown) (entry_sent e).
Definition blame (p : SpoofPool) (index : nat) (now : Instant) : SpoofPool :=
  mkPool (alter (blame_entry (config_ p) now) index (entries_ p)) (config_ p).

Definition reward_entry (e : SpoofEntry) : SpoofEntry :=
  mkEntry (ip_be e) 0 (if 0 <? cooldown_level e then cooldown_level e - 1 else cooldown_level e) (cooldown_until e)
    (entry_sent e).
Definition reward (p : SpoofPool) (index : nat) : SpoofPool := mkPool (alter reward_entry index (entries_ p)) (config_ p).

Definition healthy_count (p : SpoofPool) (now : Instant) : nat := length (filter (λ e, cooldown_until e ≤ now) (entries_ p)).
Definition sent_of (p : SpoofPool) (index : nat) : Z := match entries_ p !! index with Some e => entry_sent e | None => 0 end.
Definition source_of (p : SpoofPool) (index : nat) : Z := match entries_ p !! index with Some e => ip_be e | None => 0 end.

(** ** Receipts *)

Definition kSpoofReceipt : Z := 4.
Definition kSpoofReceiptMaxWords : nat := 16.

(** [bitmap[index / 64] |= 1ULL << (index % 64)] *)
Definition mark_receipt (pool_size : nat) (bitmap : list Z) (index : nat) : list Z :=
  if (pool_size <=? index)%nat then bitmap
  else alter (λ word, Z.lor word (u64 (Z.shiftl 1 (Z.of_nat (index mod 64))))) (index / 64)%nat bitmap.
Definition make_receipt_bitmap (received : list nat) (pool_size : nat) : list Z :=
  foldl (mark_receipt pool_size) (replicate ((pool_size + 63) / 64) 0) received.

Definition receipt_bit (bitmap : list Z) (index : nat) : bool :=
  match bitmap !! (index / 64)%nat with
  | None => false
  | Some word => negb (Z.land (Z.shiftr word (Z.of_nat (index mod 64))) 1 =? 0)
  end.

(** The bytes of a word, from the most significant. *)
Fixpoint push_bytes (bytes : nat) (value : Z) : list Z :=
  match bytes with
  | O => []
  | S bytes => u8 (Z.land (Z.shiftr value (8 * Z.of_nat bytes)) 0xFF) :: push_bytes bytes value
  end.
Definition encode_spoof_receipt (bitmap : list Z) : list Z :=
  kSpoofReceipt :: (take kSpoofReceiptMaxWords bitmap ≫= push_bytes 8).
Definition encode_source_receipt (sources_be : list Z) : list Z :=
  kSpoofReceipt :: (take (kSpoofReceiptMaxWords * 64) sources_be ≫= push_bytes 4).

(** [value = (value << 8U) | byte], [wrap] the width of [value]. *)
Fixpoint read_word (wrap : Z → Z) (bytes : nat) (body : list Z) (value : Z) : Z * list Z :=
  match bytes, body with
  | S bytes, b :: body => read_word wrap bytes body (Z.lor (wrap (Z.shiftl value 8)) b)
  | _, _ => (value, body)
  end.
Fixpoint read_words (wrap : Z → Z) (width words : nat) (body : list Z) : list Z :=
  match words with
  | O => []
  | S words => let '(value, body) := read_word wrap width body 0 in value :: read_words wrap width words body
  end.
Definition decode_receipt (wrap : Z → Z) (width most : nat) (payload : list Z) : list Z :=
  match payload with
  | [] => []
  | kind :: body =>
      if negb (kind =? kSpoofReceipt) then []
      else read_words wrap width ((length body / width) `min` most) body
  end.
Definition decode_spoof_receipt : list Z → list Z := decode_receipt u64 8 kSpoofReceiptMaxWords.
Definition decode_source_receipt : list Z → list Z := decode_receipt u32 4 (kSpoofReceiptMaxWords * 64).

(** [SpoofReceiptTracker] is the list [seen_]. *)
Definition observe (seen : list Z) (source : Z) : list Z :=
  if source =? 0 then seen
  else if (kSpoofReceiptMaxWords * 64 <=? length seen)%nat then seen
  else if existsb (Z.eqb source) seen then seen
  else seen ++ [source].
Definition drain_receipt (seen : list Z) : list Z * list Z := (encode_source_receipt seen, []).

Fixpoint index_of (ip : Z) (entries : list SpoofEntry) (index : nat) : option nat :=
  match entries with
  | [] => None
  | e :: entries => if ip_be e =? ip then Some index else index_of ip entries (S index)
  end.
Definition receipt_bitmap_for_pool (sources_be : list Z) (p : SpoofPool) : list Z :=
  make_receipt_bitmap (omap (λ ip, index_of ip (entries_ p) 0) sources_be) (length (entries_ p)).

(** ** Feedback *)

Record SpoofFeedbackConfig := mkFeedbackConfig { miss_windows : Z; reroll_interval : Duration }.
Definition default_feedback_config : SpoofFeedbackConfig := mkFeedbackConfig 3 0.
Record SpoofWindow := mkWindow { sent_at_window : Z; miss_streak : Z }.
Record SpoofFeedback := mkFeedback {
  pool_ : SpoofPool;
  feedback_config : SpoofFeedbackConfig;
  windows_ : list SpoofWindow;
  window_counter_ : Z;
}.

Definition new_feedback (pool : SpoofPool) (c : SpoofFeedbackConfig) : SpoofFeedback :=
  mkFeedback pool (mkFeedbackConfig (if miss_windows c =? 0 then 1 else miss_windows c) (reroll_interval c))
    (replicate (length (entries_ pool)) (mkWindow 0 0)) 0.

Definition epoch_salt (f : SpoofFeedback) (now : Instant) : Z :=
  let interval := reroll_interval (feedback_config f) in
  if interval <=? 0 then 0 else mix64 (u64 (now ÷ interval)).

Definition feedback_pick (f : SpoofFeedback) (flow_hash : Z) (now : Instant) : SpoofFeedback * option SpoofPick :=
  let '(pool, chosen) := pick (pool_ f) (Z.lxor flow_hash (epoch_salt f now)) now in
  (mkFeedback pool (feedback_config f)
     (match chosen with
      | Some c => alter (λ w, mkWindow (u64 (window_counter_ f + 1)) (miss_streak w)) (pick_index c) (windows_ f)
      | None => windows_ f
      end) (window_counter_ f), chosen).

(** What a receipt says about one address. *)
Definition judge_window (bitmap : list Z) (now : Instant) (index : nat) (w : SpoofWindow) (f : SpoofFeedback)
    : SpoofFeedback :=
  let judged pool streak :=
    mkFeedback pool (feedback_config f) (<[index := mkWindow (sent_at_window w) streak]> (windows_ f)) (window_counter_ f) in
  if negb (sent_at_window w =? window_counter_ f) then f
  else if receipt_bit bitmap index then judged (reward (pool_ f) index) 0
  else
    let streak := u32 (miss_streak w + 1) in
    if miss_windows (feedback_config f) <=? streak then judged (blame (pool_ f) index now) 0 else judged (pool_ f) streak.
Fixpoint judge_windows (bitmap : list Z) (now : Instant) (rest : list SpoofWindow) (index : nat) (f : SpoofFeedback)
    : SpoofFeedback :=
  match rest with
  | [] => f
  | w :: rest => judge_windows bitmap now rest (S index) (judge_window bitmap now index w f)
  end.

Definition apply_receipt (f : SpoofFeedback) (bitmap : list Z) (now : Instant) : SpoofFeedback :=
  let f := mkFeedback (pool_ f) (feedback_config f) (windows_ f) (u64 (window_counter_ f + 1)) in
  judge_windows bitmap now (windows_ f) 0 f.
Definition apply_source_receipt (f : SpoofFeedback) (frame : list Z) (now : Instant) : SpoofFeedback :=
  apply_receipt f (receipt_bitmap_for_pool (decode_source_receipt frame) (pool_ f)) now.
Definition miss_streak_of (f : SpoofFeedback) (index : nat) : Z :=
  match windows_ f !! index with Some w => miss_streak w | None => 0 end.

(** ** Candidates *)

Inductive SpoofClass := same_host_24 | same_host_16 | same_isp_block | neighbor_random | foreign_random.
#[export] Instance SpoofClass_eq_dec : EqDecision SpoofClass.
Proof. solve_decision. Defined.
Definition spoof_classes : list SpoofClass := [same_host_24; same_host_16; same_isp_block; neighbor_random; foreign_random].

Record SpoofCandidate := mkCandidate { candidate_ip : Z; candidate_class : SpoofClass }.
Record SpoofEnvelopeConfig := mkEnvelope { per_class : Z; seed : Z }.
Definition default_envelope_config : SpoofEnvelopeConfig := mkEnvelope 8 0x9E3779B97F4A7C15.
Definition kSurvivorThreshold : Z := 2.

Definition next_random (state : Z) : Z :=
  let state := Z.lxor state (u64 (Z.shiftl state 13)) in
  let state := Z.lxor state (Z.shiftr state 7) in
  Z.lxor state (u64 (Z.shiftl state 17)).

Definition reserved_host (host mask : Z) : bool := (host =? 0) || (host =? mask).

(** The loop of [fill_prefix]: at most [tries] draws; the candidates and the
    state of the generator. *)
Fixpoint fill_loop (tries : nat) (added count network host_mask : Z) (cls : SpoofClass) (out : list SpoofCandidate) (state : Z)
    : list SpoofCandidate * Z :=
  match tries with
  | O => (out, state)
  | S tries =>
      if added <? count then
        let state := next_random state in
        let host := Z.land (u32 state) host_mask in
        let ip := Z.lor network host in
        if reserved_host host host_mask || existsb (λ c, candidate_ip c =? ip) out
        then fill_loop tries added count network host_mask cls out state
        else fill_loop tries (added + 1) count network host_mask cls (out ++ [mkCandidate ip cls]) state
      else (out, state)
  end.
Definition fill_prefix (network host_mask : Z) (cls : SpoofClass) (count : Z) (r : list SpoofCandidate * Z)
    : list SpoofCandidate * Z :=
  fill_loop (Z.to_nat (u32 (count * 16))) 0 count network host_mask cls r.1 r.2.

(** The addresses nobody routes, and those of the host's own network. *)
Definition foreign_refused (real_ip_be ip : Z) : bool :=
  let octet := Z.land (Z.shiftr ip 24) 0xFF in
  (octet =? 0) || (octet =? 10) || (octet =? 127) || (224 <=? octet)
  || (octet =? 172) && (Z.land (Z.shiftr ip 16) 0xF0 =? 0x10)
  || (octet =? 192) && (Z.land (Z.shiftr ip 16) 0xFF =? 168)
  || (Z.land ip 0xFFFFFF00 =? Z.land real_ip_be 0xFFFFFF00).

Fixpoint foreign_loop (tries : nat) (added count real_ip_be : Z) (out : list SpoofCandidate) (state : Z)
    : list SpoofCandidate * Z :=
  match tries with
  | O => (out, state)
  | S tries =>
      if added <? count then
        let state := next_random state in
        let ip := u32 state in
        if foreign_refused real_ip_be ip then foreign_loop tries added count real_ip_be out state
        else foreign_loop tries (added + 1) count real_ip_be (out ++ [mkCandidate ip foreign_random]) state
      else (out, state)
  end.

Definition build_spoof_candidates (real_ip_be : Z) (isp_blocks_be : list Z) (config : SpoofEnvelopeConfig)
    : list SpoofCandidate :=
  let count := per_class config in
  if count =? 0 then []
  else
    let r := ([], Z.lxor (seed config) real_ip_be) in
    let r := fill_prefix (Z.land real_ip_be 0xFFFFFF00) 0x000000FF same_host_24 count r in
    let r := fill_prefix (Z.land real_ip_be 0xFFFF0000) 0x0000FFFF same_host_16 count r in
    let r := foldl (λ r block, fill_prefix (Z.land block 0xFFFFFF00) 0x000000FF same_isp_block count r) r isp_blocks_be in
    let r := fill_prefix (Z.lxor (Z.land real_ip_be 0xFFFF0000) 0x00010000) 0x0000FFFF neighbor_random count r in
    (foreign_loop (Z.to_nat (u32 (count * 16))) 0 count real_ip_be r.1 r.2).1.

Definition slot (cls : SpoofClass) : nat :=
  match cls with same_host_24 => 0 | same_host_16 => 1 | same_isp_block => 2 | neighbor_random => 3 | foreign_random => 4 end.
Record SpoofClassTally := mkTally { survivors_ : list Z; sent_ : list Z }.
Definition new_tally : SpoofClassTally := mkTally (replicate 5 0) (replicate 5 0).
Definition record_survivor (t : SpoofClassTally) (cls : SpoofClass) : SpoofClassTally :=
  mkTally (alter (λ n, u32 (n + 1)) (slot cls) (survivors_ t)) (sent_ t).
Definition record_sent (t : SpoofClassTally) (cls : SpoofClass) : SpoofClassTally :=
  mkTally (survivors_ t) (alter (λ n, u32 (n + 1)) (slot cls) (sent_ t)).
Definition class_usable (t : SpoofClassTally) (cls : SpoofClass) : bool := kSurvivorThreshold <=? survivors_ t !!! slot cls.
Definition usable_classes (t : SpoofClassTally) : list SpoofClass := filter (λ c, class_usable t c = true) spoof_classes.

(** ** Cooldowns double up to the cap *)

Lemma cooldown_loop_spec steps cap c : 0 < c ≤ cap → cooldown_loop steps cap c = Z.min cap (c * 2 ^ Z.of_nat steps).
Proof.
  revert c. induction steps as [|n IH]; intros c Hc; cbn [cooldown_loop]; [cbn; lia|].
  replace (Z.of_nat (S n)) with (1 + Z.of_nat n) by lia. rewrite Z.pow_add_r by lia. change (2 ^ 1) with 2.
  assert (0 < 2 ^ Z.of_nat n) by (apply Z.pow_pos_nonneg; lia).
  destruct (Z.leb_spec (cap - c) c); [nia|]. destruct (Z.leb_spec cap (c * 2)); [nia|]. rewrite IH by lia. f_equal. lia.
Qed.

Definition pool_config_ok (c : SpoofPoolConfig) : Prop := 0 < death_threshold c ∧ 0 < initial_cooldown c ≤ max_cooldown c.

Lemma settled_config c : is_u32 (death_threshold c) → 0 < initial_cooldown c → pool_config_ok (settle_config c).
Proof.
  intros Hd Hi. unfold pool_config_ok, settle_config. cbn. unfold is_u32 in Hd.
  destruct (Z.eqb_spec (death_threshold c) 0), (Z.ltb_spec (max_cooldown c) (initial_cooldown c)); lia.
Qed.

(** ** Picking *)

Definition healthy (now : Instant) (e : SpoofEntry) : Prop := cooldown_until e ≤ now.

(** The first of the healthy entries with the highest score. *)
Definition best_healthy (flow_hash : Z) (now : Instant) (entries : list SpoofEntry) (i : nat) : Prop :=
  ∃ e, entries !! i = Some e ∧ healthy now e ∧
    ∀ j e', entries !! j = Some e' → healthy now e' →
      score flow_hash (ip_be e') ≤ score flow_hash (ip_be e) ∧
      ((j < i)%nat → score flow_hash (ip_be e') < score flow_hash (ip_be e)).
(** The first of those whose quarantine ends soonest. *)
Definition soonest_out (entries : list SpoofEntry) (i : nat) : Prop :=
  ∃ e, entries !! i = Some e ∧ ∀ j e', entries !! j = Some e' →
    cooldown_until e ≤ cooldown_until e' ∧ ((j < i)%nat → cooldown_until e < cooldown_until e').

(** What the loop knows about the entries before [index]. *)
Record picked_so_far (flow_hash : Z) (now : Instant) (before : list SpoofEntry) (size : nat)
    (best : nat) (best_score : Z) (soonest : nat) (until : Instant) : Prop := {
  pk_best : if (best =? size)%nat then Forall (λ e, ¬ healthy now e) before
            else best_healthy flow_hash now before best ∧
                 (score flow_hash <$> (ip_be <$> before !! best)) = Some best_score;
  pk_soonest : before ≠ [] → soonest_out before soonest ∧ (cooldown_until <$> before !! soonest) = Some until;
}.

Lemma lookup_snoc {A} (l : list A) x j y : (l ++ [x]) !! j = Some y → l !! j = Some y ∨ j = length l ∧ y = x.
Proof.
  intros H. destruct (decide (j < length l)%nat) as [Hj|Hj]; [left; by rewrite lookup_app_l in H|].
  rewrite lookup_app_r in H by lia. destruct (j - length l)%nat eqn:E; cbn in H; [|done]. right. split; [lia|congruence].
Qed.

Lemma best_keep flow now before e best : best_healthy flow now before best →
  (healthy now e → ∃ b, before !! best = Some b ∧ score flow (ip_be e) ≤ score flow (ip_be b)) →
  best_healthy flow now (before ++ [e]) best.
Proof.
  intros (b & Hb & Hh & Hmax) He. exists b. split; [by apply lookup_app_l_Some|]. split; [done|].
  intros j e' [Hj|[-> ->]]%lookup_snoc Hj'; [by apply (Hmax j)|]. destruct (He Hj') as (b' & Hb' & Hle). simplify_eq.
  split; [done|]. apply lookup_lt_Some in Hb. lia.
Qed.

Lemma best_new flow now before e : healthy now e →
  (∀ j e', before !! j = Some e' → healthy now e' → score flow (ip_be e') < score flow (ip_be e)) →
  best_healthy flow now (before ++ [e]) (length before).
Proof.
  intros He Hless. exists e. split; [by rewrite lookup_app_r, Nat.sub_diag by done|]. split; [done|].
  intros j e' [Hj|[-> ->]]%lookup_snoc Hj'; [specialize (Hless j e' Hj Hj'); lia|lia].
Qed.

Lemma soonest_snoc before e soonest until : before ≠ [] → soonest_out before soonest → (cooldown_until <$> before !! soonest) = Some until →
  let sooner := cooldown_until e <? until in
  soonest_out (before ++ [e]) (if sooner then length before else soonest) ∧
  (cooldown_until <$> (before ++ [e]) !! (if sooner then length before else soonest)) = Some (if sooner then cooldown_until e else until).
Proof.
  intros _ (s & Hs & Hmin) Hu. rewrite Hs in Hu. injection Hu as <-. pose proof (lookup_lt_Some _ _ _ Hs) as Hlt. cbn zeta.
  destruct (Z.ltb_spec (cooldown_until e) (cooldown_until s)) as [H1|H1].
  - rewrite lookup_app_r, Nat.sub_diag by done. split; [|done]. exists e.
    rewrite lookup_app_r, Nat.sub_diag by done. split; [done|].
    intros j e' [Hj|[-> ->]]%lookup_snoc; [destruct (Hmin j e' Hj); lia|lia].
  - rewrite lookup_app_l, Hs by done. split; [|done]. exists s. rewrite lookup_app_l by done. split; [done|].
    intros j e' [Hj|[-> ->]]%lookup_snoc; [by apply Hmin|lia].
Qed.

Lemma soonest_first e : soonest_out [e] 0 ∧ (cooldown_until <$> [e] !! 0%nat) = Some (cooldown_until e).
Proof. split; [|done]. exists e. split; [done|]. intros [|j] e' Hj; [|done]. injection Hj as <-. lia. Qed.

(** One turn of the loop. *)
Lemma picked_step flow now before e size best bs soonest until :
  (length before < size)%nat → picked_so_far flow now before size best bs soonest until →
  (before = [] → soonest = 0%nat ∧ until = cooldown_until e) →
  let sooner := cooldown_until e <? until in
  let better := (best =? size)%nat || (bs <? score flow (ip_be e)) in
  picked_so_far flow now (before ++ [e]) size
    (if now <? cooldown_until e then best else if better then length before else best)
    (if now <? cooldown_until e then bs else if better then score flow (ip_be e) else bs)
    (if sooner then length before else soonest) (if sooner then cooldown_until e else until).
Proof.
  intros Hsz [Hb Hs] Hfirst sooner better. split.
  - destruct (Z.ltb_spec now (cooldown_until e)) as [Hq|Hq].
    + destruct (Nat.eqb_spec best size) as [->|Hne].
      { apply Forall_app. split; [done|]. apply Forall_singleton. unfold healthy. lia. }
      destruct Hb as [Hb Hbs]. split; [apply best_keep; [done|]; unfold healthy; lia|].
      destruct (before !! best) as [b|] eqn:E; [|done]. by rewrite (lookup_app_l_Some _ _ _ _ E).
    + unfold better. destruct (Nat.eqb_spec best size) as [->|Hne]; cbn [orb].
      { rewrite (proj2 (Nat.eqb_neq _ _)) by lia. rewrite lookup_app_r, Nat.sub_diag by done. split; [|done].
        apply best_new; [done|]. intros j e' Hj Hh. by destruct (Forall_lookup_1 _ _ _ _ Hb Hj). }
      destruct Hb as [Hb Hbs]. destruct (before !! best) as [b|] eqn:E; [|done]. injection Hbs as <-.
      destruct (Z.ltb_spec (score flow (ip_be b)) (score flow (ip_be e))) as [Hlt|Hge].
      * rewrite (proj2 (Nat.eqb_neq _ _)) by lia. rewrite lookup_app_r, Nat.sub_diag by done. split; [|done].
        apply best_new; [done|]. destruct Hb as (b' & Eb & _ & Hmax). simplify_eq.
        intros j e' Hj Hh. destruct (Hmax j e' Hj Hh). lia.
      * rewrite (proj2 (Nat.eqb_neq _ _)) by done. rewrite (lookup_app_l_Some _ _ _ _ E). split; [|done].
        apply best_keep; [done|]. intros _. by exists b.
  - intros _. destruct before as [|b0 before]; [|destruct (Hs ltac:(done)) as [H1 H2]; by apply soonest_snoc].
    destruct (Hfirst eq_refl) as [-> ->]. unfold sooner. rewrite Z.ltb_irrefl. apply soonest_first.
Qed.

Lemma pick_loop_spec flow now rest : ∀ before size best bs soonest until,
  size = length (before ++ rest) → picked_so_far flow now before size best bs soonest until →
  (before = [] → soonest = 0%nat ∧ ∀ e r, rest = e :: r → until = cooldown_until e) →
  ∃ bs' until', let r := pick_loop size flow now rest (length before) best bs soonest until in
    picked_so_far flow now (before ++ rest) size r.1 bs' r.2 until'.
Proof.
  induction rest as [|e rest IH]; intros before size best bs soonest until Hsz Hp Hfirst; cbn [pick_loop].
  - exists bs, until. by rewrite app_nil_r.
  - assert (length before < size)%nat as Hlt by (rewrite Hsz, length_app; cbn; lia).
    pose proof (picked_step flow now before e size best bs soonest until Hlt Hp) as Hstep.
    specialize (Hstep ltac:(intros Hb; destruct (Hfirst Hb) as [? Hu]; split; [done|by eapply Hu])). cbn zeta in Hstep.
    specialize (IH (before ++ [e])). rewrite (length_app before [e]), <- app_assoc in IH. cbn [length app] in IH. rewrite Nat.add_1_r in IH.
    destruct (now <? cooldown_until e); [|destruct (_ || _)]; eapply IH; try done; by destruct before.
Qed.

Lemma spoof_pick_spec p flow now : match (pick p flow now).2 with
  | None => entries_ p = []
  | Some c => (∃ e, entries_ p !! pick_index c = Some e ∧ source_be c = ip_be e) ∧
      (Exists (healthy now) (entries_ p) → best_healthy flow now (entries_ p) (pick_index c)) ∧
      (Forall (λ e, ¬ healthy now e) (entries_ p) → soonest_out (entries_ p) (pick_index c))
  end.
Proof.
  unfold pick. destruct (entries_ p) as [|first rest] eqn:El; [done|]. rewrite <- El.
  destruct (pick_loop_spec flow now (entries_ p) [] (length (entries_ p)) (length (entries_ p)) 0 0 (cooldown_until first))
    as (bs & until & Hp); [done| | |].
  { split; [by rewrite Nat.eqb_refl|done]. }
  { intros _. split; [done|]. intros e r Er. rewrite El in Er. by injection Er as <- _. }
  cbn [app length] in Hp. destruct (pick_loop _ _ _ _ _ _ _ _ _) as [best soonest]. cbn [fst snd] in Hp.
  destruct Hp as [Hb Hs]. destruct (Hs ltac:(by rewrite El)) as [Hso _]. cbn [snd].
  destruct (Nat.eqb_spec best (length (entries_ p))) as [->|Hne].
  - pose proof Hso as (e & He & _). rewrite He. cbn. split; [by exists e|]. split; [|done].
    intros (e' & Hin & Hh)%Exists_exists. by destruct (proj1 (Forall_forall _ _) Hb e' Hin).
  - destruct Hb as [Hb _]. pose proof Hb as (e & He & Hh & _). rewrite He. cbn. split; [by exists e|]. split; [done|].
    intros Hn. by destruct (Forall_lookup_1 _ _ _ _ Hn He).
Qed.

Lemma best_unique flow now l i j : best_healthy flow now l i → best_healthy flow now l j → i = j.
Proof.
  intros (a & Ha & Hah & Hamax) (b & Hb & Hbh & Hbmax). destruct (Hamax j b Hb Hbh) as [H1 H2].
  destruct (Hbmax i a Ha Hah) as [H3 H4]. destruct (lt_eq_lt_dec i j) as [[H|H]|H]; [specialize (H4 H)|done|specialize (H2 H)]; lia.
Qed.

(** Fewer healthy entries, the best one among them: the choice stays. *)
Lemma best_fewer flow now l l' i : best_healthy flow now l i →
  (∀ j e', l' !! j = Some e' → healthy now e' → ∃ e, l !! j = Some e ∧ healthy now e ∧ ip_be e' = ip_be e) →
  (∃ e', l' !! i = Some e' ∧ healthy now e') → best_healthy flow now l' i.
Proof.
  intros (e & He & _ & Hmax) Hsub (e' & He' & Hh'). exists e'. split; [done|]. split; [done|].
  destruct (Hsub i e' He' Hh') as (e0 & E0 & _ & Eip). simplify_eq. intros j k Hj Hk.
  destruct (Hsub j k Hj Hk) as (k0 & Ek & Hk0 & Ekip). rewrite Eip, Ekip. by apply Hmax.
Qed.

(** ** Histories of a pool *)

Inductive PoolOp := DoPick (flow_hash : Z) (now : Instant) | DoBlame (index : nat) (now : Instant) | DoReward (index : nat).
Definition apply_op (p : SpoofPool) (op : PoolOp) : SpoofPool :=
  match op with
  | DoPick flow_hash now => (pick p flow_hash now).1
  | DoBlame index now => blame p index now
  | DoReward index => reward p index
  end.

Lemma op_addresses p op : ip_be <$> entries_ (apply_op p op) = ip_be <$> entries_ p.
Proof.
  assert (∀ (f : SpoofEntry → SpoofEntry) (i : nat) (l : list SpoofEntry), (∀ e, ip_be (f e) = ip_be e) → ip_be <$> alter f i l = ip_be <$> l) as Halter.
  { intros f i l Hf. apply list_eq. intros k. rewrite !list_lookup_fmap.
    destruct (decide (i = k)) as [<-|Hne]; [rewrite list_lookup_alter_eq|by rewrite list_lookup_alter_ne].
    destruct (l !! i); [|done]. cbn. by rewrite Hf. }
  destruct op as [flow now|i now|i]; cbn [apply_op].
  - unfold pick. destruct (entries_ p) as [|e l] eqn:El; [by cbn; rewrite El|]. rewrite <- El.
    destruct (pick_loop _ _ _ _ _ _ _ _ _). by apply Halter.
  - apply Halter. intros e. unfold blame_entry. by case_match.
  - by apply Halter.
Qed.

Lemma ops_addresses ops : ∀ p, ip_be <$> entries_ (foldl apply_op p ops) = ip_be <$> entries_ p.
Proof. induction ops as [|op ops IH]; intros p; [done|]. cbn [foldl]. by rewrite IH, op_addresses. Qed.

Lemma add_sources_spec sources : ∀ entries, let ips := ip_be <$> foldl add_source entries sources in
  NoDup (ip_be <$> entries) → 0 ∉ (ip_be <$> entries) →
  NoDup ips ∧ 0 ∉ ips ∧ ∀ ip, ip ∈ ips ↔ ip ∈ (ip_be <$> entries) ∨ ip ∈ sources ∧ ip ≠ 0.
Proof.
  induction sources as [|s sources IH]; intros entries ips Hnd H0; [set_solver|]. cbn [foldl] in ips.
  assert (NoDup (ip_be <$> add_source entries s) ∧ 0 ∉ (ip_be <$> add_source entries s) ∧
    ∀ ip, ip ∈ (ip_be <$> add_source entries s) ↔ ip ∈ (ip_be <$> entries) ∨ ip = s ∧ s ≠ 0) as (A1 & A2 & A3).
  { unfold add_source. destruct (Z.eqb_spec s 0) as [->|Hs]; [set_solver|].
    destruct (existsb _ _) eqn:Ex.
    - apply existsb_exists in Ex as (e & Hin%list_elem_of_In & He%Z.eqb_eq). split; [done|]. split; [done|].
      intros ip. split; [by left|]. intros [?|[-> _]]; [done|]. rewrite <- He. by apply list_elem_of_fmap_2.
    - rewrite fmap_app. cbn. split; [|set_solver]. apply NoDup_app. split; [done|]. split; [|apply NoDup_singleton].
      intros ip (e & -> & He)%list_elem_of_fmap Hin%list_elem_of_singleton.
      assert (existsb (λ e, ip_be e =? s) entries = true); [|congruence].
      apply existsb_exists. exists e. split; [by apply list_elem_of_In|by apply Z.eqb_eq]. }
  destruct (IH (add_source entries s) A1 A2) as (B1 & B2 & B3). split; [done|]. split; [done|].
  intros ip. unfold ips. rewrite (B3 ip), (A3 ip). set_solver.
Qed.

Lemma not_quarantined p i now : quarantined p i now = false → ∃ e, entries_ p !! i = Some e ∧ healthy now e.
Proof. unfold quarantined, healthy. destruct (entries_ p !! i) as [e|]; [|done]. intros H%Z.ltb_ge. by exists e. Qed.

Lemma pick_after_blame p flow now c j t : (pick p flow now).2 = Some c → j ≠ pick_index c →
  quarantined p (pick_index c) now = false → quarantined p j now = false → (pick (blame p j t) flow now).2 = Some c.
Proof.
  intros Hc Hj (e & He & Hh)%not_quarantined (ej & Hej & Hhj)%not_quarantined.
  pose proof (spoof_pick_spec p flow now) as Hp. rewrite Hc in Hp. destruct Hp as ((e0 & E0 & Esrc) & Hbest & _). simplify_eq.
  assert (best_healthy flow now (entries_ p) (pick_index c)) as Hb.
  { apply Hbest. apply Exists_exists. exists e. split; [by eapply list_elem_of_lookup_2|done]. }
  assert (entries_ (blame p j t) !! pick_index c = Some e) as He'
    by (cbn [entries_ blame]; by rewrite list_lookup_alter_ne).
  assert (best_healthy flow now (entries_ (blame p j t)) (pick_index c)) as Hb'.
  { apply (best_fewer _ _ _ _ _ Hb); [|by exists e]. intros k x Hk Hx. cbn [entries_ blame] in Hk.
    destruct (decide (j = k)) as [<-|Hne]; [|rewrite list_lookup_alter_ne in Hk by done; by exists x].
    rewrite list_lookup_alter_eq, Hej in Hk. injection Hk as <-. exists ej. split; [done|]. split; [done|].
    unfold blame_entry. by case_match. }
  pose proof (spoof_pick_spec (blame p j t) flow now) as Hp. destruct (pick (blame p j t) flow now).2 as [c'|].
  - destruct Hp as ((e' & Ee' & Es') & Hbest' & _).
    assert (pick_index c' = pick_index c) as Ei.
    { eapply best_unique; [|exact Hb']. apply Hbest'. apply Exists_exists. exists e. split; [by eapply list_elem_of_lookup_2|done]. }
    rewrite Ei, He' in Ee'. injection Ee' as <-. destruct c, c'. cbn in *. congruence.
  - by rewrite Hp in He'.
Qed.

(** The source of a flow.  After every history of picks, blames and
    rewards the pool offers an address of the configuration that is not zero
    whenever there is one: among those not in quarantine the one whose hash
    with the flow is highest, and only when all are in quarantine the one
    whose quarantine ends first.  When another address is put into
    quarantine, the flows that do not use it keep the address they have. *)
Lemma spoof_pick_rendezvous sources config ops flow now :
  let p := foldl apply_op (new_pool sources config) ops in
  match (pick p flow now).2 with
  | None => Forall (λ ip, ip = 0) sources
  | Some c =>
      source_be c ∈ sources ∧ source_be c ≠ 0 ∧ source_of p (pick_index c) = source_be c ∧
      (Exists (healthy now) (entries_ p) → best_healthy flow now (entries_ p) (pick_index c)) ∧
      (Forall (λ e, ¬ healthy now e) (entries_ p) → soonest_out (entries_ p) (pick_index c)) ∧
      ∀ j t, j ≠ pick_index c → quarantined p (pick_index c) now = false → quarantined p j now = false →
        (pick (blame p j t) flow now).2 = Some c
  end.
Proof.
  intros p. pose proof (ops_addresses ops (new_pool sources config)) as Ha. fold p in Ha.
  destruct (add_sources_spec sources []) as (_ & H0 & Hin); [constructor|set_solver|]. unfold new_pool in Ha. cbn [entries_] in Ha.
  pose proof (spoof_pick_spec p flow now) as Hp. destruct (pick p flow now).2 as [c|] eqn:Ec.
  - destruct Hp as ((e & He & Es) & Hbest & Hsoon).
    assert (ip_be e ∈ (ip_be <$> entries_ p)) as Hm by (apply list_elem_of_fmap_2; by eapply list_elem_of_lookup_2).
    rewrite Ha in Hm. rewrite Es. split; [set_solver|]. split; [set_solver|]. split; [unfold source_of; by rewrite He|].
    split; [done|]. split; [done|]. intros j t. by apply pick_after_blame.
  - rewrite Hp in Ha. cbn in Ha. apply Forall_forall. intros ip Hip. destruct (decide (ip = 0)); [done|].
    exfalso. assert (ip ∈ (ip_be <$> foldl add_source [] sources)) as Hm by (apply Hin; by right). rewrite <- Ha in Hm. set_solver.
Qed.

(** ** Receipts *)

Lemma push_bytes_be n v : push_bytes n v = be_bytes n v.
Proof.
  induction n as [|n IH]; [done|]. cbn [push_bytes be_bytes]. rewrite IH. f_equal.
  change 0xFF with (Z.ones 8). rewrite Z.land_ones by lia. unfold u8. rewrite Z.mod_mod by lia. do 2 f_equal. lia.
Qed.

Lemma read_word_spec wrap limit l rest : (∀ z, 0 ≤ z < limit → wrap z = z) → bytes_ok l → ∀ acc, 0 ≤ acc →
  (acc + 1) * 256 ^ Z.of_nat (length l) ≤ limit →
  read_word wrap (length l) (l ++ rest) acc = (fold_left (λ acc x, acc * 256 + x) l acc, rest).
Proof.
  intros Hw. induction 1 as [|b l Hb Hl IH]; intros acc Ha Hlim; [done|]. cbn [length app read_word fold_left].
  cbn [length] in Hlim. rewrite Nat2Z.inj_succ, Z.pow_succ_r in Hlim by lia. unfold is_u8 in Hb.
  assert (0 < 256 ^ Z.of_nat (length l)) as Hpos by (apply Z.pow_pos_nonneg; lia).
  rewrite Z.shiftl_mul_pow2 by lia. change (2 ^ 8) with 256. rewrite Hw by nia.
  assert (Z.lor (acc * 256) b = acc * 256 + b) as ->.
  { change 256 with (2 ^ 8). rewrite <- Z.shiftl_mul_pow2 at 1 by lia. by apply lor_shiftl_add. }
  apply IH; [lia|nia].
Qed.

Lemma read_words_push wrap width vs rest : (∀ z, 0 ≤ z < 256 ^ Z.of_nat width → wrap z = z) →
  Forall (λ v, 0 ≤ v < 256 ^ Z.of_nat width) vs →
  read_words wrap width (length vs) ((vs ≫= push_bytes width) ++ rest) = vs.
Proof.
  intros Hw. induction 1 as [|v vs Hv Hvs IH]; [done|]. cbn [length read_words]. rewrite bind_cons, <- app_assoc, push_bytes_be.
  pose proof (read_word_spec wrap _ (be_bytes width v) ((vs ≫= push_bytes width) ++ rest) Hw (be_bytes_ok _ _) 0 ltac:(lia)) as E.
  rewrite length_be_bytes in E. rewrite E by lia. fold (be_value (be_bytes width v)).
  rewrite be_value_be_bytes, Z.mod_small by done. by rewrite IH.
Qed.

Lemma length_pushed width (vs : list Z) : length (vs ≫= push_bytes width) = (length vs * width)%nat.
Proof.
  induction vs as [|v vs IH]; [done|]. rewrite bind_cons, length_app, push_bytes_be, length_be_bytes, IH. cbn [length]. lia.
Qed.

Lemma decode_pushed wrap width most vs : (0 < width)%nat → (∀ z, 0 ≤ z < 256 ^ Z.of_nat width → wrap z = z) →
  Forall (λ v, 0 ≤ v < 256 ^ Z.of_nat width) vs → (length vs ≤ most)%nat →
  decode_receipt wrap width most (kSpoofReceipt :: (vs ≫= push_bytes width)) = vs.
Proof.
  intros Hpos Hw Hvs Hm. cbn [decode_receipt]. rewrite Z.eqb_refl. cbn [negb]. rewrite length_pushed, Nat.div_mul, Nat.min_l by lia.
  rewrite <- (app_nil_r (vs ≫= push_bytes width)). by apply read_words_push.
Qed.

Lemma source_receipt_roundtrip sources : Forall is_u32 sources →
  decode_source_receipt (encode_source_receipt sources) = take (kSpoofReceiptMaxWords * 64) sources.
Proof.
  intros Hs. apply decode_pushed; [lia|exact u32_id|by apply Forall_take|rewrite length_take; lia].
Qed.

Lemma spoof_receipt_roundtrip bitmap : Forall is_u64 bitmap →
  decode_spoof_receipt (encode_spoof_receipt bitmap) = take kSpoofReceiptMaxWords bitmap.
Proof.
  intros Hs. apply decode_pushed; [lia|exact u64_id|by apply Forall_take|rewrite length_take; lia].
Qed.

(** ** Bitmaps *)

Lemma low_bit word k : 0 ≤ k → negb (Z.land (Z.shiftr word k) 1 =? 0) = Z.testbit word k.
Proof.
  intros Hk. change 1 with (Z.ones 1). rewrite Z.land_ones by lia. change (2 ^ 1) with 2. rewrite <- Z.bit0_mod, Z.shiftr_spec by lia.
  replace (0 + k) with k by lia. by destruct (Z.testbit word k).
Qed.

Lemma one_bit k m : 0 ≤ k < 64 → 0 ≤ m → Z.testbit (u64 (Z.shiftl 1 k)) m = (k =? m).
Proof.
  intros Hk Hm. rewrite Z.shiftl_1_l. rewrite u64_id.
  - apply Z.pow2_bits_eqb. lia.
  - split; [apply Z.pow_nonneg; lia|]. apply Z.pow_lt_mono_r; lia.
Qed.

Lemma mod64_range (i : nat) : 0 ≤ Z.of_nat (i mod 64) < 64.
Proof. pose proof (Nat.mod_upper_bound i 64 ltac:(lia)). lia. Qed.

Lemma same_bit (i j : nat) : i = j ↔ (i / 64 = j / 64)%nat ∧ (i mod 64 = j mod 64)%nat.
Proof.
  split; [by intros ->|]. intros [H1 H2]. rewrite (Nat.div_mod i 64), (Nat.div_mod j 64) by lia. by rewrite H1, H2.
Qed.

Lemma mark_receipt_bit size bitmap i j : (length bitmap = (size + 63) / 64)%nat →
  receipt_bit (mark_receipt size bitmap j) i = receipt_bit bitmap i || bool_decide (i = j ∧ (j < size)%nat).
Proof.
  intros Hl. unfold mark_receipt. destruct (Nat.leb_spec size j) as [Hj|Hj].
  { rewrite bool_decide_eq_false_2 by lia. by rewrite orb_false_r. }
  assert (j / 64 < length bitmap)%nat as Hlt.
  { rewrite Hl. apply Nat.div_lt_upper_bound; [lia|]. pose proof (Nat.div_mod (size + 63) 64). pose proof (Nat.mod_upper_bound (size + 63) 64). lia. }
  pose proof (mod64_range i). pose proof (mod64_range j). unfold receipt_bit. destruct (decide (i / 64 = j / 64)%nat) as [E|E].
  - rewrite E, list_lookup_alter_eq. destruct (lookup_lt_is_Some_2 _ _ Hlt) as [w Hw]. rewrite Hw. cbn [fmap option_fmap option_map].
    rewrite !low_bit by lia. rewrite Z.lor_spec, one_bit by lia. f_equal. apply eq_bool_prop_intro.
    rewrite bool_decide_spec, (same_bit i j), Is_true_true, Z.eqb_eq. lia.
  - rewrite list_lookup_alter_ne by done. rewrite bool_decide_eq_false_2; [by rewrite orb_false_r|]. intros [-> _]. done.
Qed.

Lemma length_mark size bitmap j : length (mark_receipt size bitmap j) = length bitmap.
Proof. unfold mark_receipt. case_match; [done|apply length_alter]. Qed.

Lemma zero_bit n i : receipt_bit (replicate n 0) i = false.
Proof.
  unfold receipt_bit. destruct (replicate n 0 !! (i / 64)%nat) as [w|] eqn:E; [|done]. apply lookup_replicate in E as [-> _].
  rewrite low_bit by apply mod64_range. apply Z.bits_0.
Qed.

Lemma receipt_bitmap_bit received size i : receipt_bit (make_receipt_bitmap received size) i = bool_decide (i ∈ received ∧ (i < size)%nat).
Proof.
  unfold make_receipt_bitmap. pose proof (zero_bit ((size + 63) / 64) i) as Hz.
  assert (length (replicate ((size + 63) / 64) 0%Z) = (size + 63) / 64)%nat as Hl by apply length_replicate. revert Hz Hl.
  generalize (replicate ((size + 63) / 64) 0). intros bitmap Hz Hl.
  transitivity (receipt_bit bitmap i || bool_decide (i ∈ received ∧ (i < size)%nat)); [|by rewrite Hz]. clear Hz.
  revert bitmap Hl. induction received as [|j received IH]; intros bitmap Hl; cbn [foldl].
  - rewrite bool_decide_eq_false_2 by set_solver. by rewrite orb_false_r.
  - rewrite (IH (mark_receipt size bitmap j)) by (by rewrite length_mark). rewrite mark_receipt_bit by done. rewrite <- orb_assoc. f_equal.
    rewrite <- bool_decide_or. apply bool_decide_ext. set_solver.
Qed.

Lemma index_of_spec ip entries : ∀ k, match index_of ip entries k with
  | Some i => ∃ e, (k ≤ i)%nat ∧ entries !! (i - k)%nat = Some e ∧ ip_be e = ip
  | None => ip ∉ (ip_be <$> entries)
  end.
Proof.
  induction entries as [|e entries IH]; intros k; cbn [index_of]; [set_solver|].
  destruct (Z.eqb_spec (ip_be e) ip) as [<-|Hne].
  - exists e. rewrite Nat.sub_diag. by split; [lia|].
  - specialize (IH (S k)). destruct (index_of ip entries (S k)) as [i|]; [|set_solver].
    destruct IH as (e' & Hi & He & Eip). exists e'. split; [lia|]. split; [|done]. by replace (i - k)%nat with (S (i - S k)) by lia.
Qed.

(** The bit of an address tells whether the receipt names it. *)
Lemma receipt_names p sources i e : NoDup (ip_be <$> entries_ p) → entries_ p !! i = Some e →
  receipt_bit (receipt_bitmap_for_pool sources p) i = bool_decide (ip_be e ∈ sources).
Proof.
  intros Hnd He. unfold receipt_bitmap_for_pool. rewrite receipt_bitmap_bit. apply bool_decide_ext. split.
  - intros [(ip & Hin & Ei)%list_elem_of_omap _]. pose proof (index_of_spec ip (entries_ p) 0) as Hs. rewrite Ei in Hs.
    destruct Hs as (e' & _ & He' & <-). rewrite Nat.sub_0_r in He'. by simplify_eq.
  - intros Hin. split; [|by eapply lookup_lt_Some]. apply list_elem_of_omap. exists (ip_be e). split; [done|].
    pose proof (index_of_spec (ip_be e) (entries_ p) 0) as Hs. destruct (index_of (ip_be e) (entries_ p) 0) as [j|].
    + destruct Hs as (e' & _ & He' & Eip). rewrite Nat.sub_0_r in He'. f_equal.
      apply (NoDup_lookup _ _ _ (ip_be e) Hnd); rewrite list_lookup_fmap; [by rewrite He'; cbn; rewrite Eip|by rewrite He].
    + exfalso. apply Hs. apply list_elem_of_fmap_2. by eapply list_elem_of_lookup_2.
Qed.

(** ** Feedback *)

(** The verdict on one address: its entry and its window. *)
Definition judged_entry (c : SpoofPoolConfig) (most : Z) (now : Instant) (used seen : bool) (w : SpoofWindow) (e : SpoofEntry) : SpoofEntry :=
  if negb used then e else if seen then reward_entry e
  else if most <=? u32 (miss_streak w + 1) then blame_entry c now e else e.
Definition judged_window (most : Z) (used seen : bool) (w : SpoofWindow) : SpoofWindow :=
  if negb used then w
  else mkWindow (sent_at_window w) (if seen then 0 else if most <=? u32 (miss_streak w + 1) then 0 else u32 (miss_streak w + 1)).

Lemma judge_window_same bitmap now k w f : let f' := judge_window bitmap now k w f in
  feedback_config f' = feedback_config f ∧ window_counter_ f' = window_counter_ f ∧ config_ (pool_ f') = config_ (pool_ f) ∧
  ∀ i, i ≠ k → entries_ (pool_ f') !! i = entries_ (pool_ f) !! i ∧ windows_ f' !! i = windows_ f !! i.
Proof.
  cbn zeta. unfold judge_window. case_match; [done|].
  assert (∀ pool streak, config_ pool = config_ (pool_ f) → (∀ i, i ≠ k → entries_ pool !! i = entries_ (pool_ f) !! i) →
    let f' := mkFeedback pool (feedback_config f) (<[k := mkWindow (sent_at_window w) streak]> (windows_ f)) (window_counter_ f) in
    feedback_config f' = feedback_config f ∧ window_counter_ f' = window_counter_ f ∧ config_ (pool_ f') = config_ (pool_ f) ∧
    ∀ i, i ≠ k → entries_ (pool_ f') !! i = entries_ (pool_ f) !! i ∧ windows_ f' !! i = windows_ f !! i) as Hj.
  { intros pool streak Hc He. split; [done|]. split; [done|]. split; [done|]. intros i Hi. split; [by apply He|].
    cbn. by rewrite list_lookup_insert_ne. }
  repeat case_match; apply Hj; try done; intros i Hi; cbn; by rewrite list_lookup_alter_ne.
Qed.

Lemma judge_window_at bitmap now k w f e : windows_ f !! k = Some w → entries_ (pool_ f) !! k = Some e →
  let f' := judge_window bitmap now k w f in let used := sent_at_window w =? window_counter_ f in
  let most := miss_windows (feedback_config f) in
  entries_ (pool_ f') !! k = Some (judged_entry (config_ (pool_ f)) most now used (receipt_bit bitmap k) w e) ∧
  windows_ f' !! k = Some (judged_window most used (receipt_bit bitmap k) w).
Proof.
  intros Hw He. pose proof (lookup_lt_Some _ _ _ Hw). unfold judge_window, judged_entry, judged_window. destruct (_ =? _); cbn [negb]; [|done].
  repeat case_match; cbn [pool_ entries_ windows_ reward blame config_]; rewrite ?list_lookup_alter_eq, ?He;
    rewrite list_lookup_insert_eq by done; done.
Qed.

Lemma judge_windows_spec bitmap now rest : ∀ k f, (∀ i w, rest !! i = Some w → windows_ f !! (k + i)%nat = Some w) →
  let f' := judge_windows bitmap now rest k f in
  ∀ i e w, entries_ (pool_ f) !! i = Some e → windows_ f !! i = Some w →
  let inside := bool_decide (k ≤ i < k + length rest)%nat in
  let used := inside && (sent_at_window w =? window_counter_ f) in let most := miss_windows (feedback_config f) in
  entries_ (pool_ f') !! i = Some (judged_entry (config_ (pool_ f)) most now used (receipt_bit bitmap i) w e) ∧
  windows_ f' !! i = Some (judged_window most used (receipt_bit bitmap i) w).
Proof.
  induction rest as [|x rest IH]; intros k f Hr f' i e w He Hw; cbn [judge_windows length] in *.
  { rewrite bool_decide_eq_false_2 by lia. done. }
  pose proof (Hr 0%nat x eq_refl) as Hx. rewrite Nat.add_0_r in Hx.
  destruct (judge_window_same bitmap now k x f) as (Ec & Ew & Ep & Hother). set (f1 := judge_window bitmap now k x f) in *.
  assert (∀ i w, rest !! i = Some w → windows_ f1 !! (S k + i)%nat = Some w) as Hr1.
  { intros j y Hy. rewrite (proj2 (Hother (S k + j)%nat ltac:(lia))). replace (S k + j)%nat with (k + S j)%nat by lia. by apply Hr. }
  specialize (IH (S k) f1 Hr1). cbn zeta in IH. rewrite Ec, Ew, Ep in IH. fold f' in IH.
  destruct (decide (i = k)) as [->|Hne].
  - assert (w = x) as -> by congruence. destruct (judge_window_at bitmap now k x f e Hx He) as [E1 E2]. fold f1 in E1, E2.
    destruct (IH k _ _ E1 E2) as [H1 H2]. rewrite bool_decide_eq_false_2 in H1, H2 by lia.
    rewrite bool_decide_eq_true_2 by lia. cbn [andb] in *. done.
  - destruct (Hother i Hne) as [H1 H2]. rewrite <- H1 in He. rewrite <- H2 in Hw. destruct (IH i e w He Hw) as [H3 H4].
    replace (bool_decide (k ≤ i < k + S (length rest))%nat) with (bool_decide (S k ≤ i < S k + length rest)%nat); [done|].
    apply bool_decide_ext. lia.
Qed.

Lemma apply_receipt_spec f bitmap now i e w : entries_ (pool_ f) !! i = Some e → windows_ f !! i = Some w →
  let f' := apply_receipt f bitmap now in let used := sent_at_window w =? u64 (window_counter_ f + 1) in
  let most := miss_windows (feedback_config f) in
  entries_ (pool_ f') !! i = Some (judged_entry (config_ (pool_ f)) most now used (receipt_bit bitmap i) w e) ∧
  windows_ f' !! i = Some (judged_window most used (receipt_bit bitmap i) w).
Proof.
  intros He Hw. unfold apply_receipt. set (f1 := mkFeedback _ _ _ _).
  destruct (judge_windows_spec bitmap now (windows_ f1) 0 f1 ltac:(done) i e w He Hw) as [H1 H2].
  assert (bool_decide (0 ≤ i < 0 + length (windows_ f1))%nat = true) as Hin.
  { apply bool_decide_eq_true_2. pose proof (lookup_lt_Some _ _ _ Hw). cbn. lia. }
  rewrite Hin in H1, H2. cbn [andb] in H1, H2. done.
Qed.

(** ** Histories of the feedback *)

Inductive FeedbackOp := FeedPick (flow_hash : Z) (now : Instant) | FeedReceipt (frame : list Z) (now : Instant).

(** The feedback, and the addresses picked since the last receipt. *)
Definition feedback_step (s : SpoofFeedback * list nat) (op : FeedbackOp) : SpoofFeedback * list nat :=
  match op with
  | FeedPick flow_hash now =>
      let '(f, chosen) := feedback_pick s.1 flow_hash now in
      (f, match chosen with Some c => pick_index c :: s.2 | None => s.2 end)
  | FeedReceipt frame now => (apply_source_receipt s.1 frame now, [])
  end.

(** A window is marked with the number of the next receipt exactly when its
    address was picked since the last one. *)
Record feedback_ok (n : nat) (s : SpoofFeedback * list nat) : Prop := {
  fo_windows : length (windows_ s.1) = length (entries_ (pool_ s.1));
  fo_nodup : NoDup (ip_be <$> entries_ (pool_ s.1));
  fo_nonzero : 0 ∉ (ip_be <$> entries_ (pool_ s.1));
  fo_counter : 0 ≤ window_counter_ s.1 ≤ Z.of_nat n;
  fo_marks : ∀ i w, windows_ s.1 !! i = Some w →
    sent_at_window w ≤ window_counter_ s.1 + 1 ∧ (sent_at_window w = window_counter_ s.1 + 1 ↔ i ∈ s.2);
}.

Lemma length_entries_ips (a b : list SpoofEntry) : ip_be <$> a = ip_be <$> b → length a = length b.
Proof. intros H%(f_equal length). by rewrite !length_fmap in H. Qed.

Lemma judge_windows_kept bitmap now rest : ∀ k f, let f' := judge_windows bitmap now rest k f in
  ip_be <$> entries_ (pool_ f') = ip_be <$> entries_ (pool_ f) ∧ length (windows_ f') = length (windows_ f) ∧
  window_counter_ f' = window_counter_ f.
Proof.
  induction rest as [|w rest IH]; intros k f; cbn [judge_windows]; [done|]. cbn zeta in IH.
  destruct (IH (S k) (judge_window bitmap now k w f)) as (-> & -> & ->). unfold judge_window. case_match; [done|].
  repeat case_match; cbn [pool_ windows_ window_counter_]; rewrite length_insert; split; try done.
  - apply (op_addresses (pool_ f) (DoReward k)).
  - apply (op_addresses (pool_ f) (DoBlame k now)).
Qed.

Lemma new_feedback_ok sources pc fc : feedback_ok 0 (new_feedback (new_pool sources pc) fc, []).
Proof.
  destruct (add_sources_spec sources []) as (H1 & H2 & _); [constructor|set_solver|].
  split; cbn [fst snd new_feedback new_pool pool_ entries_ windows_ window_counter_]; [apply length_replicate|done|done|lia|].
  intros i w [-> _]%lookup_replicate. cbn. split; [lia|]. split; [lia|set_solver].
Qed.

Lemma feed_pick_ok n s flow now : feedback_ok n s → Z.of_nat n < 2 ^ 64 - 1 → feedback_ok n (feedback_step s (FeedPick flow now)).
Proof.
  intros [Hw Hnd H0 Hc Hm] Hn. cbn [feedback_step]. unfold feedback_pick.
  set (h := Z.lxor flow (epoch_salt s.1 now)). pose proof (op_addresses (pool_ s.1) (DoPick h now)) as Ha. cbn [apply_op] in Ha.
  destruct (pick (pool_ s.1) h now) as [pool chosen]. cbn [fst] in Ha.
  split; cbn [fst snd pool_ windows_ window_counter_]; rewrite ?Ha; try done.
  - rewrite (length_entries_ips _ _ Ha), <- Hw. destruct chosen; [apply length_alter|done].
  - destruct chosen as [c|]; [|done]. intros i w. destruct (decide (pick_index c = i)) as [<-|Hne].
    + rewrite list_lookup_alter_eq. intros (w0 & Hw0 & ->)%fmap_Some. cbn [sent_at_window]. rewrite u64_id by (unfold is_u64; lia). split; [lia|]. split; [set_solver|done].
    + rewrite list_lookup_alter_ne by done. intros Hi. destruct (Hm i w Hi) as [H1 H2]. split; [done|]. rewrite H2. set_solver.
Qed.

Lemma feed_receipt_ok n s frame now : feedback_ok n s → Z.of_nat n < 2 ^ 64 - 1 →
  feedback_ok (S n) (feedback_step s (FeedReceipt frame now)).
Proof.
  intros [Hw Hnd H0 Hc Hm] Hn. cbn [feedback_step]. unfold apply_source_receipt.
  set (bitmap := receipt_bitmap_for_pool _ _). pose proof (apply_receipt_spec s.1 bitmap now) as Hj. unfold apply_receipt in *.
  set (f1 := mkFeedback _ _ _ _) in *. cbn zeta in Hj.
  destruct (judge_windows_kept bitmap now (windows_ f1) 0 f1) as (Ha & Hlw & Ec). set (f' := judge_windows _ _ _ _ _) in *.
  assert (window_counter_ f1 = window_counter_ s.1 + 1) as E1 by (apply u64_id; unfold is_u64; lia).
  split; cbn [fst snd]; rewrite ?Ha; try done.
  - rewrite Hlw, (length_entries_ips _ _ Ha). done.
  - rewrite Ec, E1. lia.
  - intros i w' Hi. destruct (lookup_lt_is_Some_2 (windows_ s.1) i) as [w Hwi]; [apply lookup_lt_Some in Hi; rewrite Hlw in Hi; done|].
    destruct (lookup_lt_is_Some_2 (entries_ (pool_ s.1)) i) as [e He]; [rewrite <- Hw; by eapply lookup_lt_Some|].
    destruct (Hj i e w He Hwi) as [_ Hi']. rewrite Hi' in Hi. injection Hi as <-. destruct (Hm i w Hwi) as [Hle _].
    assert (∀ used seen most, sent_at_window (judged_window most used seen w) = sent_at_window w) as ->
      by (intros; unfold judged_window; by case_match).
    rewrite Ec, E1. split; [lia|]. split; [lia|set_solver].
Qed.

Lemma feedback_history_ok ops : ∀ n s, feedback_ok n s → Z.of_nat (n + length ops) < 2 ^ 64 - 1 →
  feedback_ok (n + length ops) (foldl feedback_step s ops).
Proof.
  induction ops as [|op ops IH]; intros n s Hs Hn; cbn [foldl length] in *; [by rewrite Nat.add_0_r|].
  assert (feedback_ok (S n) (feedback_step s op)) as H1.
  { destruct op; [|apply feed_receipt_ok; [done|lia]].
    destruct (feed_pick_ok n s flow_hash now Hs ltac:(lia)). split; [done..|lia|done]. }
  rewrite Nat.add_succ_r. apply (IH (S n)); [done|lia].
Qed.

Lemma observe_all observed : ∀ seen, Forall is_u32 seen → Forall is_u32 observed →
  (length seen + length observed ≤ kSpoofReceiptMaxWords * 64)%nat →
  let all := foldl observe seen observed in
  Forall is_u32 all ∧ (length all ≤ kSpoofReceiptMaxWords * 64)%nat ∧ ∀ ip, ip ≠ 0 → ip ∈ all ↔ ip ∈ seen ∨ ip ∈ observed.
Proof.
  induction observed as [|o observed IH]; intros seen Hs Ho Hl; cbn [foldl length] in *.
  { split; [done|]. split; [lia|]. set_solver. }
  apply Forall_cons in Ho as [Hou Ho].
  assert (Forall is_u32 (observe seen o) ∧ (length (observe seen o) ≤ S (length seen))%nat ∧
    ∀ ip, ip ≠ 0 → ip ∈ observe seen o ↔ ip ∈ seen ∨ ip = o) as (A1 & A2 & A3).
  { unfold observe. destruct (Z.eqb_spec o 0) as [->|H0]; [split; [done|]; split; [lia|set_solver]|].
    destruct (Nat.leb_spec (kSpoofReceiptMaxWords * 64) (length seen)); [lia|]. destruct (existsb _ _) eqn:Ex.
    - apply existsb_exists in Ex as (x & Hin%list_elem_of_In & <-%Z.eqb_eq). split; [done|]. split; [lia|set_solver].
    - rewrite length_app. cbn [length]. split; [by apply Forall_app; split; [|constructor]|]. split; [lia|set_solver]. }
  destruct (IH (observe seen o) A1 Ho ltac:(lia)) as (B1 & B2 & B3). split; [done|]. split; [done|].
  intros ip Hip. rewrite (B3 ip Hip), (A3 ip Hip). set_solver.
Qed.

(** What a receipt changes.  After every history of picks and receipts,
    however the frames look, let the other end see packets from the addresses
    [observed], at most as many as a receipt holds, and let its receipt
    arrive.  Then the addresses not picked since the last receipt keep their
    state; a picked address among those seen is rewarded and its misses
    forgotten; a picked address that was not seen has one more miss, and is
    blamed and starts anew when that makes as many as are tolerated. *)
Lemma spoof_receipts_judge sources pc fc ops observed now :
  Forall is_u32 observed → (length observed ≤ kSpoofReceiptMaxWords * 64)%nat → Z.of_nat (length ops) < 2 ^ 64 - 1 →
  let '(f, picked) := foldl feedback_step (new_feedback (new_pool sources pc) fc, []) ops in
  let f' := apply_source_receipt f (drain_receipt (foldl observe [] observed)).1 now in
  let most := miss_windows (feedback_config f) in
  length (windows_ f) = length (entries_ (pool_ f)) ∧
  ∀ i e w, entries_ (pool_ f) !! i = Some e → windows_ f !! i = Some w →
    let used := bool_decide (i ∈ picked) in let seen := bool_decide (ip_be e ∈ observed) in
    entries_ (pool_ f') !! i = Some (judged_entry (config_ (pool_ f)) most now used seen w e) ∧
    windows_ f' !! i = Some (judged_window most used seen w).
Proof.
  intros Hu Hl Hn. pose proof (feedback_history_ok ops 0 _ (new_feedback_ok sources pc fc) Hn) as [Hw Hnd H0 Hc Hm].
  destruct (foldl feedback_step _ ops) as [f picked]. cbn [fst snd] in *. split; [done|]. intros i e w He Hwi.
  destruct (observe_all observed [] ltac:(constructor) Hu Hl) as (A1 & A2 & A3).
  unfold drain_receipt. cbn [fst]. unfold apply_source_receipt. rewrite source_receipt_roundtrip by done.
  rewrite take_ge by done. set (bitmap := receipt_bitmap_for_pool _ _).
  assert (receipt_bit bitmap i = bool_decide (ip_be e ∈ observed)) as Eb.
  { unfold bitmap. rewrite (receipt_names _ _ _ _ Hnd He). apply bool_decide_ext. rewrite A3; [set_solver|].
    intros E. apply H0. rewrite <- E. apply list_elem_of_fmap_2. by eapply list_elem_of_lookup_2. }
  assert ((sent_at_window w =? u64 (window_counter_ f + 1)) = bool_decide (i ∈ picked)) as Eu.
  { rewrite u64_id by (unfold is_u64; lia). apply eq_bool_prop_intro. rewrite bool_decide_spec, Is_true_true, Z.eqb_eq. by apply Hm. }
  pose proof (apply_receipt_spec f bitmap now i e w He Hwi) as Hj. cbn zeta in Hj. by rewrite Eb, Eu in Hj.
Qed.

(** ** Candidates *)

(** Where the addresses of a class lie. *)
Definition candidate_fits (real_ip_be : Z) (isp_blocks_be : list Z) (c : SpoofCandidate) : Prop :=
  let ip := candidate_ip c in
  match candidate_class c with
  | same_host_24 => Z.land ip 0xFFFFFF00 = Z.land real_ip_be 0xFFFFFF00
  | same_host_16 => Z.land ip 0xFFFF0000 = Z.land real_ip_be 0xFFFF0000
  | same_isp_block => ∃ block, block ∈ isp_blocks_be ∧ Z.land ip 0xFFFFFF00 = Z.land block 0xFFFFFF00
  | neighbor_random => Z.land ip 0xFFFF0000 = Z.lxor (Z.land real_ip_be 0xFFFF0000) 0x10000
  | foreign_random => foreign_refused real_ip_be ip = false
  end.

Lemma network_kept network host host_mask mask : Z.land network mask = network → Z.land host_mask mask = 0 →
  Z.land (Z.lor network (Z.land host host_mask)) mask = network.
Proof. intros Hn Hm. by rewrite Z.land_lor_distr_l, <- Z.land_assoc, Hm, Z.land_0_r, Z.lor_0_r. Qed.

Lemma fill_loop_fits (P : SpoofCandidate → Prop) network host_mask cls : (∀ host, P (mkCandidate (Z.lor network (Z.land host host_mask)) cls)) →
  ∀ tries added count out state, Forall P out → Forall P (fill_loop tries added count network host_mask cls out state).1.
Proof.
  intros HP. induction tries as [|tries IH]; intros added count out state Ho; [done|]. cbn [fill_loop].
  repeat case_match; [by apply IH| |done]. apply IH, Forall_app. split; [done|]. apply Forall_singleton, HP.
Qed.

Lemma foreign_loop_fits (P : SpoofCandidate → Prop) real : (∀ ip, foreign_refused real ip = false → P (mkCandidate ip foreign_random)) →
  ∀ tries added count out state, Forall P out → Forall P (foreign_loop tries added count real out state).1.
Proof.
  intros HP. induction tries as [|tries IH]; intros added count out state Ho; [done|]. cbn [foreign_loop].
  repeat case_match; [by apply IH| |done]. apply IH, Forall_app. split; [done|]. by apply Forall_singleton, HP.
Qed.

Lemma masked_twice a m : Z.land (Z.land a m) m = Z.land a m.
Proof. by rewrite <- Z.land_assoc, Z.land_diag. Qed.

(** The addresses offered for a class are of that class: inside the host's
    own networks, an announced block or the neighbouring one; and the foreign
    ones are neither private nor reserved nor the host's own. *)
Lemma spoof_candidates_fit real blocks config :
  Forall (candidate_fits real blocks) (build_spoof_candidates real blocks config).
Proof.
  unfold build_spoof_candidates, fill_prefix. case_match; [constructor|]. cbn zeta. apply foreign_loop_fits; [done|].
  apply fill_loop_fits.
  { intros host. cbn. apply network_kept; [|done]. apply Z.bits_inj'. intros i Hi.
    rewrite Z.land_spec, Z.lxor_spec, Z.land_spec. change 0x10000 with (Z.land 0x10000 0xFFFF0000). rewrite Z.land_spec.
    by destruct (Z.testbit real i), (Z.testbit 0x10000 i), (Z.testbit 0xFFFF0000 i). }
  assert (∀ l r, l ⊆ blocks → Forall (candidate_fits real blocks) r.1 → Forall (candidate_fits real blocks)
    (foldl (λ r block, fill_loop (Z.to_nat (u32 (per_class config * 16))) 0 (per_class config) (Z.land block 0xFFFFFF00) 0xFF same_isp_block r.1 r.2) r l).1)
    as Hblocks.
  { induction l as [|b l IH]; intros r Hl Hr; [done|]. cbn [foldl]. apply IH; [set_solver|]. apply fill_loop_fits; [|done].
    intros host. exists b. split; [set_solver|]. apply network_kept; [apply masked_twice|done]. }
  apply Hblocks; [done|]. do 2 (apply fill_loop_fits; [intros host; apply network_kept; [apply masked_twice|done]|]). constructor.
Qed.
