(* ===== verification/Reality.v ===== *)
(** Hidden authentication inside a TLS hello: [src/reality.cpp].

    The client puts its time and short id, masked and authenticated under a
    secret shared with the server's static key, into the session id of its
    hello; the server proves itself with a tag over its own key share.
    Curve25519 is the class [Dh] and the stream cipher [Keystream]; the key
    pair drawn is an argument. *)

From Stdlib Require Import String.
From S2P Require Import Prelude Packet Nonce Handshake Blake2s Crypto Noise Cookie Obfuscation.

Definition kRealityShortIdSize : nat := 8.
Definition kRealityCipherSize : nat := 16.
Definition kRealityMacSize : nat := 16.
Definition kRealitySessionIdSize : nat := (kRealityCipherSize + kRealityMacSize)%nat.
Definition kRealityAuthSize : nat := 32.
Definition kPublicKeySize : nat := 32.
Definition kRealityDomain : list Z := text "norr-reality-v1".
Definition kRealityAuthDomain : list Z := text "norr-reality-server-v1".
Definition kRealityNonceSize : nat := 8.

Record RealityClientHello := mkHello { ephemeral : KeyPair; session_id : list Z }.
Record RealityServerResult := mkVerdict { authenticated : bool; verdict_short_id : list Z; timestamp : Z }.
Definition no_verdict : RealityServerResult := mkVerdict false (replicate kRealityShortIdSize 0) 0.

Definition derive_key (secret : list Z) : list Z := take 32 (hkdf_extract kRealityDomain secret).

Definition put_u64 (value : Z) : list Z :=
  map (λ index, u8 (Z.land (Z.shiftr value (8 * (7 - Z.of_nat index))) 0xFF)) (seq 0 8).
Definition get_u64 (input : list Z) : Z := fold_left (λ value b, Z.lor (u64 (Z.shiftl value 8)) b) (take 8 input) 0.

Section reality.
Context `{Dh} `{Keystream}.

(** [generated]: the answer of [generate_keypair]. *)
Definition reality_client_hello (generated : res CryptoError KeyPair) (server_public short_id : list Z) (unix_time : Z)
    : res CryptoError RealityClientHello :=
  let* pair := generated in
  let* secret := x25519 (private_key pair) server_public in
  let key := derive_key secret in
  let plain := put_u64 unix_time ++ short_id in
  let nonce := take kRealityNonceSize (public_key pair) in
  let* plain := recast (λ _, initialisation_failed) (keystream_xor key nonce plain) in
  let mac := hmac_blake2s key (public_key pair ++ plain) in
  Ok (mkHello pair (plain ++ take kRealityMacSize mac)).

Definition reality_server_verify (server_private client_key_share session_id : list Z) (now window_seconds : Z)
    : RealityServerResult :=
  if negb (length session_id =? kRealitySessionIdSize)%nat then no_verdict else
  match x25519 server_private client_key_share with
  | Ok secret =>
      let key := derive_key secret in
      let cipher := take kRealityCipherSize session_id in
      let mac := take kRealityMacSize (drop kRealityCipherSize session_id) in
      let expected := hmac_blake2s key (client_key_share ++ cipher) in
      if negb (constant_time_equal mac (take kRealityMacSize expected)) then no_verdict else
      match keystream_xor key (take kRealityNonceSize client_key_share) cipher with
      | Ok plain =>
          let timestamp := get_u64 (take 8 plain) in
          let delta := if timestamp <? now then now - timestamp else timestamp - now in
          if window_seconds <? delta then no_verdict
          else mkVerdict true (drop 8 plain) timestamp
      | _ => no_verdict
      end
  | _ => no_verdict
  end.

Definition auth_tag (secret server_key_share : list Z) : list Z :=
  let key := take 32 (hkdf_extract kRealityAuthDomain secret) in
  take kRealityAuthSize (hmac_blake2s key server_key_share).

Definition reality_server_auth (server_private client_key_share server_key_share : list Z) : res CryptoError (list Z) :=
  let* secret := x25519 server_private client_key_share in
  Ok (auth_tag secret server_key_share).

Definition reality_verify_server_auth (client_ephemeral_private server_static_public server_key_share claimed_auth : list Z) : bool :=
  if negb (length claimed_auth =? kRealityAuthSize)%nat then false else
  match x25519 client_ephemeral_private server_static_public with
  | Ok secret => constant_time_equal claimed_auth (auth_tag secret server_key_share)
  | _ => false
  end.

End reality.

(** ** Digests and numbers *)

Lemma length_hmac key message : length (hmac_blake2s key message) = 32%nat.
Proof. rewrite hmac_blake2s_spec. apply length_blake2s_256. Qed.

Lemma hmac_bytes key message : bytes_ok (hmac_blake2s key message).
Proof. rewrite hmac_blake2s_spec. apply blake2s_chain_bytes. Qed.

Lemma length_derive_key secret : length (derive_key secret) = 32%nat.
Proof. unfold derive_key, hkdf_extract. rewrite length_take, length_hmac. done. Qed.

Lemma put_u64_be v : put_u64 v = be_bytes 8 v.
Proof.
  unfold put_u64. cbn [seq map be_bytes]. change 0xFF with (Z.ones 8).
  repeat match goal with |- context [Z.land ?a (Z.ones 8)] => rewrite (Z.land_ones a 8) by lia end.
  unfold u8. repeat rewrite Z.mod_mod by lia. done.
Qed.

Lemma get_put_u64 v rest : is_u64 v → get_u64 (put_u64 v ++ rest) = v.
Proof.
  intros Hv. rewrite put_u64_be. unfold get_u64. rewrite take_app_length' by (by rewrite length_be_bytes).
  rewrite <- (be_value_small 8 v Hv) at 2. unfold be_value. pose proof (be_bytes_ok 8 v) as Hb. revert Hb.
  assert (∀ l acc, bytes_ok l → 0 ≤ acc → (acc + 1) * 256 ^ Z.of_nat (length l) ≤ 2 ^ 64 →
    fold_left (λ value b, Z.lor (u64 (Z.shiftl value 8)) b) l acc = fold_left (λ acc x, acc * 256 + x) l acc) as Hf.
  { intros l acc Hl. revert acc. induction Hl as [|b l Hb Hl IH]; intros acc Ha Hlim; [done|]. cbn [fold_left length] in *.
    rewrite Nat2Z.inj_succ, Z.pow_succ_r in Hlim by lia. unfold is_u8 in Hb.
    assert (0 < 256 ^ Z.of_nat (length l)) by (apply Z.pow_pos_nonneg; lia).
    assert (Z.lor (u64 (Z.shiftl acc 8)) b = acc * 256 + b) as ->; [|apply IH; nia].
    rewrite u64_id; [by apply lor_shiftl_add|]. rewrite Z.shiftl_mul_pow2 by lia. change (2 ^ 8) with 256. split; nia. }
  intros Hb. apply Hf; [done|lia|]. rewrite length_be_bytes. lia.
Qed.

#[local] Opaque hmac_blake2s derive_key.

(** ** Both sides agree *)

Section agreement.
Context `{DhLaws} `{KeystreamLaws}.

Lemma xor_back data stream : (length data = length stream)%nat →
  zip_with Z.lxor (zip_with Z.lxor data stream) stream = data.
Proof.
  revert stream. induction data as [|d data IH]; intros [|s stream] Hl; cbn in *; [done..|]. f_equal; [|apply IH; lia].
  by rewrite Z.lxor_assoc, Z.lxor_nilpotent, Z.lxor_0_r.
Qed.

Lemma keystream_xor_back key nonce data : length key = 32%nat → length nonce = 8%nat →
  ∃ masked, keystream_xor key nonce data = Ok masked ∧ length masked = length data ∧
    keystream_xor key nonce masked = Ok data.
Proof.
  intros Hk Hn. unfold keystream_xor, guard. rewrite Hk, Hn. cbn [Nat.eqb negb].
  destruct (Nat.eqb_spec (length data) 0) as [E|E].
  { exists data. rewrite E. done. }
  exists (zip_with Z.lxor data (keystream key nonce (length data))).
  assert (length (zip_with Z.lxor data (keystream key nonce (length data))) = length data) as El.
  { rewrite length_zip_with, keystream_length. lia. }
  rewrite El. split; [done|]. split; [done|]. destruct (Nat.eqb_spec (length data) 0); [done|].
  by rewrite xor_back by (by rewrite keystream_length).
Qed.

Lemma secret_agrees a b : x25519 a (scalarmult_base b) = x25519 b (scalarmult_base a).
Proof. unfold x25519. by rewrite dh_agree. Qed.

(** A hello is made unless the server's key is weak. *)
Lemma hello_made random server_private short_id time : scalarmult random (scalarmult_base server_private) ≠ None →
  ∃ hello, reality_client_hello (generate_keypair true random) (scalarmult_base server_private) short_id time = Ok hello.
Proof.
  intros Hd. unfold reality_client_hello, generate_keypair, derive_public_key, guard. cbn [negb rbind private_key public_key].
  unfold x25519. destruct (scalarmult random (scalarmult_base server_private)) as [secret|]; [|done]. cbn [rbind].
  destruct (keystream_xor_back (derive_key secret) (take kRealityNonceSize (scalarmult_base random)) (put_u64 time ++ short_id)) as (masked & -> & _);
    [apply length_derive_key|rewrite length_take, dh_length; done|]. cbn. eauto.
Qed.

Lemma hello_private random server_public short_id time hello :
  reality_client_hello (generate_keypair true random) server_public short_id time = Ok hello → ephemeral hello = mkKeyPair (scalarmult_base random) random.
Proof.
  unfold reality_client_hello, generate_keypair, derive_public_key, guard. cbn [negb rbind private_key public_key].
  destruct (x25519 random server_public) as [secret| |]; cbn [rbind]; [|done..]. destruct (keystream_xor _ _ _) as [plain| |]; cbn [recast rbind]; [|done..].
  by intros [= <-].
Qed.

(** What a hello looks like, and that the server reads it back. *)
Lemma hello_verified ok random server_private short_id time hello now window :
  length short_id = kRealityShortIdSize → is_u64 time →
  reality_client_hello (generate_keypair ok random) (scalarmult_base server_private) short_id time = Ok hello →
  ephemeral hello = mkKeyPair (scalarmult_base random) random ∧ length (session_id hello) = kRealitySessionIdSize ∧
  reality_server_verify server_private (public_key (ephemeral hello)) (session_id hello) now window =
    if window <? Z.abs (now - time) then no_verdict else mkVerdict true short_id time.
Proof.
  intros Hs Ht. unfold reality_client_hello, generate_keypair, derive_public_key, guard. destruct ok; cbn [negb rbind]; [|done].
  cbn [private_key public_key]. rewrite secret_agrees. destruct (x25519 server_private (scalarmult_base random)) as [secret| |] eqn:Ex; cbn [rbind]; [|done..].
  assert (length (take kRealityNonceSize (scalarmult_base random)) = 8%nat) as Hn
    by (rewrite length_take, dh_length; done).
  destruct (keystream_xor_back (derive_key secret) (take kRealityNonceSize (scalarmult_base random)) (put_u64 time ++ short_id)
    (length_derive_key _) Hn) as (masked & -> & Hm & Hback). cbn [recast rbind]. intros [= <-]. cbn [ephemeral session_id public_key].
  assert (length masked = kRealityCipherSize) as Hc by (rewrite Hm, length_app, Hs, put_u64_be, length_be_bytes; done).
  set (mac := take kRealityMacSize (hmac_blake2s (derive_key secret) (scalarmult_base random ++ masked))).
  assert (length mac = kRealityMacSize) as Hmac by (unfold mac; rewrite length_take, length_hmac; done).
  split; [done|]. assert (length (masked ++ mac) = kRealitySessionIdSize) as Hlen by (rewrite length_app, Hc, Hmac; done).
  split; [exact Hlen|]. unfold reality_server_verify. rewrite Hlen, Nat.eqb_refl, Ex. cbn [negb].
  rewrite take_app_length', drop_app_length' by done. rewrite (take_ge mac) by lia.
  assert (constant_time_equal mac mac = true) as Heq by (apply constant_time_equal_iff; [apply bytes_ok_take, hmac_bytes..|done]).
  fold mac. rewrite Heq, Hback. cbn [negb].
  rewrite take_app_length' by (by rewrite put_u64_be, length_be_bytes).
  rewrite drop_app_length' by (by rewrite put_u64_be, length_be_bytes).
  rewrite <- (app_nil_r (put_u64 time)), get_put_u64 by done.
  replace (if time <? now then now - time else time - now) with (Z.abs (now - time)); [done|].
  destruct (Z.ltb_spec time now); lia.
Qed.

(** Nothing else is accepted: the session id carries the MAC of the shared
    secret over the key share and the time inside is within the window. *)
Lemma verified_hello server_private share sid now window : bytes_ok sid →
  authenticated (reality_server_verify server_private share sid now window) = true →
  ∃ secret plain, x25519 server_private share = Ok secret ∧
    sid = take kRealityCipherSize sid ++ take kRealityMacSize (hmac_blake2s (derive_key secret) (share ++ take kRealityCipherSize sid)) ∧
    keystream_xor (derive_key secret) (take kRealityNonceSize share) (take kRealityCipherSize sid) = Ok plain ∧
    Z.abs (now - get_u64 (take 8 plain)) ≤ window.
Proof.
  intros Hb. unfold reality_server_verify. destruct (Nat.eqb_spec (length sid) kRealitySessionIdSize) as [Hl|]; cbn [negb]; [|done].
  destruct (x25519 server_private share) as [secret| |]; [|done..].
  destruct (constant_time_equal _ _) eqn:Em; cbn [negb]; [|done].
  apply constant_time_equal_iff in Em; [|auto using bytes_ok_take, bytes_ok_drop..|apply bytes_ok_take, hmac_bytes].
  destruct (keystream_xor _ _ _) as [plain| |] eqn:Ek; [|done..].
  destruct (Z.ltb_spec window (if get_u64 (take 8 plain) <? now then now - get_u64 (take 8 plain) else get_u64 (take 8 plain) - now)) as [|Hw]; [done|].
  intros _. exists secret, plain. split; [done|]. split.
  - rewrite <- Em, (take_ge (drop _ _)) by (rewrite length_drop, Hl; done). by rewrite take_drop.
  - split; [exact Ek|]. destruct (Z.ltb_spec (get_u64 (take 8 plain)) now); lia.
Qed.

Lemma length_auth_tag secret share : length (auth_tag secret share) = kRealityAuthSize.
Proof. unfold auth_tag. rewrite length_take, length_hmac. done. Qed.

(** The client accepts the server's tag and no other. *)
Lemma server_auth_checked client_private server_private share claimed : bytes_ok claimed →
  reality_verify_server_auth client_private (scalarmult_base server_private) share claimed = true ↔
  reality_server_auth server_private (scalarmult_base client_private) share = Ok claimed.
Proof.
  intros Hb. unfold reality_verify_server_auth, reality_server_auth. rewrite secret_agrees.
  destruct (x25519 server_private (scalarmult_base client_private)) as [secret| |]; cbn [rbind]; [|by case_match..].
  destruct (Nat.eqb_spec (length claimed) kRealityAuthSize) as [El|El]; cbn [negb].
  - rewrite constant_time_equal_iff by (done || apply bytes_ok_take, hmac_bytes). split; [intros ->; reflexivity|intros E%Ok_inj; exact (eq_sym E)].
  - split; [done|]. intros [= <-]. by rewrite length_auth_tag in El.
Qed.

End agreement.
