(* ===== verification/Camouflage.v ===== *)
(** The disguise of a stream as TLS: [src/camouflage.cpp].

    Hellos are built and searched for their key shares; [CamouflageFramer]
    answers a client's hello, hides the two proofs of [Reality] in them, skips
    the simulated certificates and carries the tunnel's bytes in application
    data records.

    [random_bytes] is the class [Rng], its calls counted in [calls_]; the time
    of the system clock is an argument.  The members that only a reality
    configuration uses are the record [Reality], those of the receive buffer
    the record [Inbox]. *)

From Stdlib Require Import String.
From S2P Require Import Prelude Packet Nonce Handshake Blake2s Crypto Noise Cookie Obfuscation Reality.

Definition kTlsRecordHeaderSize : nat := 5.
Definition kTlsMaxRecordPayload : nat := Z.to_nat 16384.
Definition kTlsRandomSize : nat := 32.
Definition kTlsSessionIdSize : nat := 32.
Definition kCertificateFlightRecords : nat := 4.

Inductive TlsRecordType := change_cipher_spec | alert | handshake | application_data.
#[export] Instance TlsRecordType_eq_dec : EqDecision TlsRecordType.
Proof. solve_decision. Defined.
Definition record_code (t : TlsRecordType) : Z :=
  match t with change_cipher_spec => 20 | alert => 21 | handshake => 22 | application_data => 23 end.
(** [static_cast<TlsRecordType>] of a code in range *)
Definition record_type (code : Z) : TlsRecordType :=
  if code =? 20 then change_cipher_spec else if code =? 21 then alert else if code =? 22 then handshake else application_data.

Module CamouflageError.
Inductive t := need_more | malformed | oversized | buffer_too_small.
End CamouflageError.
Abbreviation CamouflageError := CamouflageError.t.

Record TlsRecordView := mkRecordView { rec_type : TlsRecordType; rec_payload : list Z; rec_consumed : nat }.

(** ** Bytes *)

Definition push_u8 (value : Z) : list Z := [u8 value].
Definition push_u16 (value : Z) : list Z := [u8 (Z.shiftr value 8); u8 (Z.land value 0xFF)].
Definition push_u32 (value : Z) : list Z :=
  [u8 (Z.land (Z.shiftr value 24) 0xFF); u8 (Z.land (Z.shiftr value 16) 0xFF);
   u8 (Z.land (Z.shiftr value 8) 0xFF); u8 (Z.land value 0xFF)].

Definition framed_handshake (message_type : Z) (body : list Z) (record_version : Z) : list Z :=
  let size := Z.of_nat (length body) in
  let message := push_u8 message_type ++ push_u8 (Z.land (Z.shiftr size 16) 0xFF) ++ push_u8 (Z.land (Z.shiftr size 8) 0xFF) ++
                 push_u8 (Z.land size 0xFF) ++ body in
  push_u8 (record_code handshake) ++ push_u16 record_version ++ push_u16 (u16 (Z.of_nat (length message))) ++ message.

(** [rd16] *)
Definition rd16 (b : list Z) (o : nat) : res CamouflageError nat :=
  let* x := rd b o in
  let* y := rd b (o + 1) in
  Ok (Z.to_nat (Z.lor (Z.shiftl x 8) y)).
Definition rd8 (b : list Z) (o : nat) : res CamouflageError nat :=
  let* x := rd b o in Ok (Z.to_nat x).

(** ** Key shares *)

(** The entries of a client's key share list, from [q] on. *)
Fixpoint share_loop (fuel : nat) (record : list Z) (q list_end : nat) : res CamouflageError (list Z) :=
  match fuel with
  | O => Ub
  | S fuel =>
      if (q + 4 <=? list_end)%nat then
        let* group := rd16 record q in
        let* klen := rd16 record (q + 2) in
        let kbody := (q + 4)%nat in
        if (list_end <? kbody + klen)%nat then Ok []
        else if (group =? 0x001d)%nat && (klen =? kPublicKeySize)%nat then subspan record kbody klen
        else share_loop fuel record (kbody + klen) list_end
      else Ok []
  end.

(** [if (ext_type == 0x0033)] of the client's hello *)
Definition client_share (record : list Z) (ext_body ext_len ext_end : nat) : res CamouflageError (list Z) :=
  if (ext_body + ext_len <? ext_body + 2)%nat then Ok [] else
  let* list_len := rd16 record ext_body in
  let q := (ext_body + 2)%nat in
  let list_end := Nat.min (ext_body + ext_len) (q + list_len) in
  share_loop (S (length record)) record q list_end.

(** [if (ext_type == 0x0033)] of the server's hello *)
Definition server_share (record : list Z) (ext_body ext_len ext_end : nat) : res CamouflageError (list Z) :=
  if (ext_len <? 4)%nat then Ok [] else
  let* group := rd16 record ext_body in
  if negb (group =? 0x001d)%nat then Ok [] else
  let* klen := rd16 record (ext_body + 2) in
  if (klen =? kPublicKeySize)%nat && (ext_body + 4 + kPublicKeySize <=? ext_end)%nat
  then subspan record (ext_body + 4) kPublicKeySize else Ok [].

(** The loop over the extensions, [found] being what it does with a key
    share. *)
Fixpoint extension_loop (found : nat → nat → nat → res CamouflageError (list Z)) (fuel : nat) (record : list Z) (p ext_end : nat)
    : res CamouflageError (list Z) :=
  match fuel with
  | O => Ub
  | S fuel =>
      if (p + 4 <=? ext_end)%nat then
        let* ext_type := rd16 record p in
        let* ext_len := rd16 record (p + 2) in
        let ext_body := (p + 4)%nat in
        if (ext_end <? ext_body + ext_len)%nat then Ok []
        else if (ext_type =? 0x0033)%nat then found ext_body ext_len ext_end
        else extension_loop found fuel record (ext_body + ext_len) ext_end
      else Ok []
  end.

Definition extensions (found : nat → nat → nat → res CamouflageError (list Z)) (record : list Z) (p : nat) : res CamouflageError (list Z) :=
  let* ext_total := rd16 record p in
  let p := (p + 2)%nat in
  let ext_end := Nat.min (length record) (p + ext_total) in
  extension_loop found (S (length record)) record p ext_end.

Definition extract_key_share_x25519 (record : list Z) : res CamouflageError (list Z) :=
  let p := (kTlsRecordHeaderSize + 4)%nat in
  if (length record <? p + 2 + kTlsRandomSize + 1)%nat then Ok [] else
  let p := (p + 2 + kTlsRandomSize)%nat in
  let* sid_len := rd8 record p in
  let p := (p + 1 + sid_len)%nat in
  if (length record <? p + 2)%nat then Ok [] else
  let* cipher_len := rd16 record p in
  let p := (p + 2 + cipher_len)%nat in
  if (length record <? p + 1)%nat then Ok [] else
  let* comp_len := rd8 record p in
  let p := (p + 1 + comp_len)%nat in
  if (length record <? p + 2)%nat then Ok [] else
  extensions (client_share record) record p.

Definition extract_server_key_share (record : list Z) : res CamouflageError (list Z) :=
  let p := (kTlsRecordHeaderSize + 4)%nat in
  if (length record <? p + 2 + kTlsRandomSize + 1)%nat then Ok [] else
  let p := (p + 2 + kTlsRandomSize)%nat in
  let* sid_len := rd8 record p in
  let p := (p + 1 + sid_len)%nat in
  if (length record <? p + 2 + 1 + 2)%nat then Ok [] else
  let p := (p + 2 + 1)%nat in
  extensions (server_share record) record p.

(** ** Records *)

(** The buffer and the number of bytes written. *)
Definition write_record_header (type : TlsRecordType) (size : Z) (out : list Z) : res CamouflageError (list Z * nat) :=
  if (length out <? kTlsRecordHeaderSize)%nat then Ok (out, 0%nat) else
  let* out := wr out 0 (u8 (record_code type)) in
  let* out := wr out 1 0x03 in
  let* out := wr out 2 0x03 in
  let* out := wr out 3 (u8 (Z.land (Z.shiftr size 8) 0xFF)) in
  let* out := wr out 4 (u8 (Z.land size 0xFF)) in
  Ok (out, kTlsRecordHeaderSize).

Definition parse_record (bytes : list Z) : res CamouflageError TlsRecordView :=
  throw CamouflageError.need_more when (length bytes <? kTlsRecordHeaderSize)%nat else
  let* type := rd bytes 0 in
  let* major := rd bytes 1 in
  let* high := rd bytes 3 in
  let* low := rd bytes 4 in
  let size := Z.to_nat (Z.lor (Z.shiftl high 8) low) in
  throw CamouflageError.malformed when negb (major =? 0x03) else
  throw CamouflageError.malformed when (type <? 20) || (23 <? type) else
  throw CamouflageError.oversized when (kTlsMaxRecordPayload <? size)%nat else
  throw CamouflageError.need_more when (length bytes <? kTlsRecordHeaderSize + size)%nat else
  let* payload := subspan bytes kTlsRecordHeaderSize size in
  Ok (mkRecordView (record_type type) payload (kTlsRecordHeaderSize + size)).

Definition build_change_cipher_spec : list Z :=
  push_u8 (record_code change_cipher_spec) ++ push_u16 0x0303 ++ push_u16 1 ++ push_u8 1.

Definition looks_like_client_hello (bytes : list Z) : res CamouflageError bool :=
  if (length bytes <? kTlsRecordHeaderSize + 4)%nat then Ok false else
  let* type := rd bytes 0 in
  let* major := rd bytes 1 in
  let* message := rd bytes kTlsRecordHeaderSize in
  if negb (type =? record_code handshake) then Ok false
  else if negb (major =? 0x03) then Ok false
  else Ok (message =? 0x01).

(** A header in a fresh array. *)
Definition record_header (type : TlsRecordType) (size : nat) : res CamouflageError (list Z) :=
  let* r := write_record_header type (Z.of_nat size) (replicate kTlsRecordHeaderSize 0) in Ok r.1.

Fixpoint wrap_loop (fuel : nat) (payload out : list Z) (offset : nat) : res CamouflageError (list Z) :=
  match fuel with
  | O => Ub
  | S fuel =>
      if (offset <? length payload)%nat then
        let chunk := Nat.min kTlsMaxRecordPayload (length payload - offset) in
        let* header := record_header application_data chunk in
        let* body := subspan payload offset chunk in
        wrap_loop fuel payload (out ++ header ++ body) (offset + chunk)
      else Ok out
  end.
Definition wrap (payload : list Z) : res CamouflageError (list Z) := wrap_loop (S (length payload)) payload [] 0.

(** ** Hellos *)

Section building.
Context `{Rng}.

(** [push_random]: the number of calls so far and the bytes. *)
Definition push_random (calls count : nat) : nat * list Z := (S calls, default (replicate count 0) (random calls count)).

Definition grease_value (calls : nat) : nat * Z :=
  let nibble := match random calls 1 with Some pick => Z.land (pick !!! 0%nat) 0x0F | None => 0x0A end in
  let byte := u16 (Z.lor (Z.shiftl nibble 4) 0x0A) in
  (S calls, u16 (Z.lor (Z.shiftl byte 8) byte)).

Definition hello_ciphers (grease : Z) : list Z :=
  [grease; 0x1301; 0x1302; 0x1303; 0xc02b; 0xc02f; 0xc02c; 0xc030;
   0xcca9; 0xcca8; 0xc013; 0xc014; 0x009c; 0x009d; 0x002f; 0x0035].
Definition kSig : list Z := [0x0403; 0x0804; 0x0401; 0x0503; 0x0805; 0x0501; 0x0806; 0x0601].

(** The extensions of a client's hello before the key share. *)
Definition hello_extensions (grease : Z) (server_name : list Z) : list Z :=
  let name_len := u16 (Z.of_nat (length server_name)) in
  push_u16 grease ++ push_u16 0 ++
  push_u16 0x0000 ++ push_u16 (u16 (name_len + 5)) ++ push_u16 (u16 (name_len + 3)) ++ push_u8 0 ++ push_u16 name_len ++ server_name ++
  push_u16 0x0017 ++ push_u16 0 ++
  push_u16 0x000d ++ push_u16 (Z.of_nat (length kSig * 2 + 2)) ++ push_u16 (Z.of_nat (length kSig * 2)) ++ (kSig ≫= push_u16) ++
  push_u16 0x0010 ++ push_u16 14 ++ push_u16 12 ++ push_u8 2 ++ text "h2" ++ push_u8 8 ++ text "http/1.1" ++
  push_u16 0x0005 ++ push_u16 5 ++ push_u8 1 ++ push_u32 0 ++
  push_u16 0x000b ++ push_u16 2 ++ push_u8 1 ++ push_u8 0 ++
  push_u16 0x000a ++ push_u16 10 ++ push_u16 8 ++ push_u16 grease ++ push_u16 0x001d ++ push_u16 0x0017 ++ push_u16 0x0018 ++
  push_u16 0x0023 ++ push_u16 0 ++
  push_u16 0x002d ++ push_u16 2 ++ push_u8 1 ++ push_u8 0 ++
  push_u16 0x002b ++ push_u16 7 ++ push_u8 6 ++ push_u16 grease ++ push_u16 0x0304 ++ push_u16 0x0303.

(** The key share extension, and the one after it. *)
Definition hello_key_share (grease : Z) (share : list Z) : list Z :=
  push_u16 0x0033 ++ push_u16 (Z.of_nat (kTlsRandomSize + 11)) ++ push_u16 (Z.of_nat (kTlsRandomSize + 9)) ++
  push_u16 grease ++ push_u16 1 ++ push_u8 0 ++
  push_u16 0x001d ++ push_u16 (Z.of_nat kTlsRandomSize) ++ share ++
  push_u16 grease ++ push_u16 1 ++ push_u8 0.

(** [given] when it has the right size, else random bytes *)
Definition given_or_random (size : nat) (given : list Z) (calls : nat) : nat * list Z :=
  if (length given =? size)%nat then (calls, given) else push_random calls size.

Definition build_client_hello (server_name key_share session_id : list Z) (calls : nat) : nat * list Z :=
  let '(calls, grease) := grease_value calls in
  let '(calls, random) := push_random calls kTlsRandomSize in
  let '(calls, sid) := given_or_random kTlsSessionIdSize session_id calls in
  let '(calls, share) := given_or_random kTlsRandomSize key_share calls in
  let ciphers := hello_ciphers grease in
  let ext := hello_extensions grease server_name ++ hello_key_share grease share in
  let body := push_u16 0x0303 ++ random ++ push_u8 (Z.of_nat kTlsSessionIdSize) ++ sid ++
              push_u16 (Z.of_nat (length ciphers * 2)) ++ (ciphers ≫= push_u16) ++ push_u8 1 ++ push_u8 0 ++
              push_u16 (u16 (Z.of_nat (length ext))) ++ ext in
  (calls, framed_handshake 0x01 body 0x0301).

Definition build_server_hello (session_id key_share auth : list Z) (calls : nat) : nat * list Z :=
  let '(calls, random) := given_or_random kRealityAuthSize auth calls in
  let '(calls, sid) :=
    if (1 <=? length session_id)%nat && (length session_id <=? 32)%nat then (calls, session_id)
    else push_random calls kTlsSessionIdSize in
  let '(calls, share) := given_or_random kTlsRandomSize key_share calls in
  let ext := push_u16 0x002b ++ push_u16 2 ++ push_u16 0x0304 ++
             push_u16 0x0033 ++ push_u16 (Z.of_nat (kTlsRandomSize + 4)) ++ push_u16 0x001d ++
             push_u16 (Z.of_nat kTlsRandomSize) ++ share in
  let body := push_u16 0x0303 ++ random ++ push_u8 (Z.of_nat (length sid)) ++ sid ++ push_u16 0x1301 ++ push_u8 0 ++
              push_u16 (u16 (Z.of_nat (length ext))) ++ ext in
  (calls, framed_handshake 0x02 body 0x0303).

(** One record of the simulated certificates. *)
Definition flight_record (base calls : nat) : res CamouflageError (nat * list Z) :=
  let jitter := match random calls 1 with Some pick => (Z.to_nat (pick !!! 0%nat) mod 97)%nat | None => 0%nat end in
  let size := (base + jitter)%nat in
  let* header := record_header application_data size in
  let '(calls, body) := push_random (S calls) size in
  Ok (calls, header ++ body).
Fixpoint flight_loop (bases : list nat) (calls : nat) (out : list Z) : res CamouflageError (nat * list Z) :=
  match bases with
  | [] => Ok (calls, out)
  | base :: bases =>
      let* r := flight_record base calls in
      flight_loop bases r.1 (out ++ r.2)
  end.
Definition kFlightSizes : list nat := [32; 1400; 280; 52]%nat.
Definition build_certificate_flight (calls : nat) : res CamouflageError (nat * list Z) := flight_loop kFlightSizes calls [].

End building.

(** ** [CamouflageFramer] *)

Inductive Role := client | server.
#[export] Instance Role_eq_dec : EqDecision Role.
Proof. solve_decision. Defined.

Record Reality := mkReality {
  reality_enabled_ : bool;
  reality_authenticated_ : bool;
  reality_server_verified_ : bool;
  reality_rejected_ : bool;
  reality_server_public_ : list Z;
  reality_server_private_ : list Z;
  reality_short_id_ : list Z;
  reality_ephemeral_ : KeyPair;
  reality_window_ : Z;
  fallback_prelude_ : list Z;
}.
Record Inbox := mkInbox { inbox_ : list Z; consumed_ : nat; scratch_ : list Z }.
Record CamouflageFramer := mkFramer {
  role_ : Role;
  server_name_ : list Z;
  opened_ : bool;
  handshake_done_ : bool;
  sent_reply_ : bool;
  violated_ : bool;
  inbox : Inbox;
  pending_reply_ : list Z;
  flight_armed_ : bool;
  flight_remaining_ : nat;
  reality : Reality;
  calls_ : nat;
}.

Definition new_reality : Reality :=
  let zero := replicate kPublicKeySize 0 in
  mkReality false false false false zero zero (replicate kRealityShortIdSize 0) (mkKeyPair zero zero) 120 [].
Definition new_framer (role : Role) (server_name : list Z) (calls : nat) : CamouflageFramer :=
  mkFramer role server_name false false false false (mkInbox [] 0 []) [] false 0 new_reality calls.

Definition with_reality (r : Reality) (f : CamouflageFramer) : CamouflageFramer :=
  mkFramer (role_ f) (server_name_ f) (opened_ f) (handshake_done_ f) (sent_reply_ f) (violated_ f) (inbox f) (pending_reply_ f)
    (flight_armed_ f) (flight_remaining_ f) r (calls_ f).
Definition with_inbox (i : Inbox) (f : CamouflageFramer) : CamouflageFramer :=
  mkFramer (role_ f) (server_name_ f) (opened_ f) (handshake_done_ f) (sent_reply_ f) (violated_ f) i (pending_reply_ f)
    (flight_armed_ f) (flight_remaining_ f) (reality f) (calls_ f).
Definition with_flight (armed : bool) (remaining : nat) (f : CamouflageFramer) : CamouflageFramer :=
  mkFramer (role_ f) (server_name_ f) (opened_ f) (handshake_done_ f) (sent_reply_ f) (violated_ f) (inbox f) (pending_reply_ f)
    armed remaining (reality f) (calls_ f).
Definition with_reply (sent : bool) (pending : list Z) (calls : nat) (f : CamouflageFramer) : CamouflageFramer :=
  mkFramer (role_ f) (server_name_ f) (opened_ f) (handshake_done_ f) sent (violated_ f) (inbox f) pending
    (flight_armed_ f) (flight_remaining_ f) (reality f) calls.
Definition with_opened (calls : nat) (f : CamouflageFramer) : CamouflageFramer :=
  mkFramer (role_ f) (server_name_ f) true (handshake_done_ f) (sent_reply_ f) (violated_ f) (inbox f) (pending_reply_ f)
    (flight_armed_ f) (flight_remaining_ f) (reality f) calls.
Definition handshaken (f : CamouflageFramer) : CamouflageFramer :=
  mkFramer (role_ f) (server_name_ f) (opened_ f) true (sent_reply_ f) (violated_ f) (inbox f) (pending_reply_ f)
    (flight_armed_ f) (flight_remaining_ f) (reality f) (calls_ f).
Definition violate (f : CamouflageFramer) : CamouflageFramer :=
  mkFramer (role_ f) (server_name_ f) (opened_ f) (handshake_done_ f) (sent_reply_ f) true (inbox f) (pending_reply_ f)
    (flight_armed_ f) (flight_remaining_ f) (reality f) (calls_ f).

Definition with_ephemeral (pair : KeyPair) (r : Reality) : Reality :=
  mkReality (reality_enabled_ r) (reality_authenticated_ r) (reality_server_verified_ r) (reality_rejected_ r) (reality_server_public_ r)
    (reality_server_private_ r) (reality_short_id_ r) pair (reality_window_ r) (fallback_prelude_ r).
Definition with_server_verified (verified : bool) (r : Reality) : Reality :=
  mkReality (reality_enabled_ r) (reality_authenticated_ r) verified (reality_rejected_ r) (reality_server_public_ r)
    (reality_server_private_ r) (reality_short_id_ r) (reality_ephemeral_ r) (reality_window_ r) (fallback_prelude_ r).
Definition with_judged (authenticated rejected : bool) (r : Reality) : Reality :=
  mkReality (reality_enabled_ r) authenticated (reality_server_verified_ r) rejected (reality_server_public_ r)
    (reality_server_private_ r) (reality_short_id_ r) (reality_ephemeral_ r) (reality_window_ r) (fallback_prelude_ r).
Definition with_prelude (prelude : list Z) (r : Reality) : Reality :=
  mkReality (reality_enabled_ r) (reality_authenticated_ r) (reality_server_verified_ r) (reality_rejected_ r) (reality_server_public_ r)
    (reality_server_private_ r) (reality_short_id_ r) (reality_ephemeral_ r) (reality_window_ r) prelude.

Definition configure_reality_client (server_public short_id : list Z) (f : CamouflageFramer) : CamouflageFramer :=
  let r := reality f in
  with_reality (mkReality true (reality_authenticated_ r) (reality_server_verified_ r) (reality_rejected_ r) server_public
    (reality_server_private_ r) short_id (reality_ephemeral_ r) (reality_window_ r) (fallback_prelude_ r)) f.
Definition configure_reality_server (server_private : list Z) (window_seconds : Z) (f : CamouflageFramer) : CamouflageFramer :=
  let r := reality f in
  with_reality (mkReality true (reality_authenticated_ r) (reality_server_verified_ r) (reality_rejected_ r) (reality_server_public_ r)
    server_private (reality_short_id_ r) (reality_ephemeral_ r) window_seconds (fallback_prelude_ r)) f.
Definition take_fallback_prelude (f : CamouflageFramer) : CamouflageFramer * list Z :=
  (with_reality (with_prelude [] (reality f)) f, fallback_prelude_ (reality f)).
Definition take_handshake_reply (f : CamouflageFramer) : CamouflageFramer * list Z :=
  (with_reply (sent_reply_ f) [] (calls_ f) f, pending_reply_ f).

Definition feed (bytes : list Z) (f : CamouflageFramer) : CamouflageFramer :=
  with_inbox (mkInbox (inbox_ (inbox f) ++ bytes) (consumed_ (inbox f)) (scratch_ (inbox f))) f.
Definition compact (i : Inbox) : Inbox :=
  if (consumed_ i =? 0)%nat then i else mkInbox (drop (consumed_ i) (inbox_ i)) 0 (scratch_ i).
Definition consume (n : nat) (i : Inbox) : Inbox := mkInbox (inbox_ i) (consumed_ i + n) (scratch_ i).

Section framer.
Context `{Dh} `{Keystream} `{Rng}.

(** [generate_keypair] *)
Definition fresh_keypair (calls : nat) : res CryptoError KeyPair :=
  match random calls 32 with Some private => generate_keypair true private | None => Fail unsupported_platform end.

(** [unix_now]: the seconds of the system clock. *)
Definition open (unix_now : Z) (f : CamouflageFramer) : CamouflageFramer * list Z :=
  let plain (f : CamouflageFramer) :=
    let '(calls, hello) := build_client_hello (server_name_ f) [] [] (calls_ f) in (with_opened calls f, hello) in
  if decide (role_ f ≠ client) then (with_opened (calls_ f) f, [])
  else if reality_enabled_ (reality f) then
    match reality_client_hello (fresh_keypair (calls_ f)) (reality_server_public_ (reality f)) (reality_short_id_ (reality f)) unix_now with
    | Ok hello =>
        let f := with_reality (with_ephemeral (ephemeral hello) (reality f)) f in
        let '(calls, bytes) := build_client_hello (server_name_ f) (public_key (ephemeral hello)) (session_id hello) (S (calls_ f)) in
        (with_opened calls f, bytes)
    | _ => plain (with_opened (S (calls_ f)) f)
    end
  else plain f.

Abbreviation frm := (effect CamouflageFramer CamouflageError) (only parsing).

(** [violated_ = true; return std::unexpected(malformed);] when [bad] *)
Definition violation (bad : bool) : frm unit :=
  if bad then bind _ := modify violate in lift (Fail CamouflageError.malformed) else sret tt.

Definition kRandomOffset : nat := (kTlsRecordHeaderSize + 4 + 2)%nat.

(** A client with a reality configuration takes nothing before the server's
    proof. *)
Definition check_server (record : TlsRecordView) (view : list Z) : frm unit :=
  bind f := state in
  if bool_decide (role_ f = client) && reality_enabled_ (reality f) && negb (reality_server_verified_ (reality f)) then
    bind frame := lift (span_first view (rec_consumed record)) in
    bind _ := violation (negb (bool_decide (rec_type record = handshake)) || (length frame <=? kTlsRecordHeaderSize)%nat
                         || negb (bool_decide (frame !! kTlsRecordHeaderSize = Some 0x02))) in
    bind share := lift (extract_server_key_share frame) in
    bind verified :=
      if (kRandomOffset + kRealityAuthSize <=? length frame)%nat && (length share =? kPublicKeySize)%nat then
        bind claimed := lift (subspan frame kRandomOffset kRealityAuthSize) in
        let verified := reality_verify_server_auth (private_key (reality_ephemeral_ (reality f))) (reality_server_public_ (reality f)) share claimed in
        bind _ := modify (λ f, with_reality (with_server_verified verified (reality f)) f) in
        sret verified
      else sret (reality_server_verified_ (reality f)) in
    violation (negb verified)
  else sret tt.

Definition kSessionIdLenOffset : nat := (kTlsRecordHeaderSize + 4 + 2 + kTlsRandomSize)%nat.

(** The session id a server sees in a hello. *)
Definition hello_session_id (view : list Z) : res CamouflageError (list Z) :=
  if (kSessionIdLenOffset <? length view)%nat then
    let* sid_len := rd8 view kSessionIdLenOffset in
    if (sid_len <=? 32)%nat && (kSessionIdLenOffset + 1 + sid_len <=? length view)%nat
    then subspan view (kSessionIdLenOffset + 1) sid_len else Ok []
  else Ok [].

(** [if (reality_enabled_)]: is the hello that of a client of ours? *)
Definition judge_hello (unix_now : Z) (record : TlsRecordView) (view session_id : list Z) : frm unit :=
  bind f := state in
  if reality_enabled_ (reality f) then
    bind frame := lift (span_first view (rec_consumed record)) in
    bind key_share := lift (extract_key_share_x25519 frame) in
    bind _ :=
      (if (length key_share =? kPublicKeySize)%nat && (length session_id =? kRealitySessionIdSize)%nat then
         let verdict := reality_server_verify (reality_server_private_ (reality f)) key_share session_id unix_now (reality_window_ (reality f)) in
         modify (λ f, with_reality (with_judged (authenticated verdict) (negb (authenticated verdict)) (reality f)) f)
       else modify (λ f, with_reality (with_judged (reality_authenticated_ (reality f)) true (reality f)) f)) in
    bind f := state in
    if reality_rejected_ (reality f) then modify (λ f, with_reality (with_prelude frame (reality f)) f) else sret tt
  else sret tt.

(** The server's key share and its proof, or nothing. *)
Definition server_proof (record : TlsRecordView) (view : list Z) : frm (list Z * list Z) :=
  bind f := state in
  if reality_authenticated_ (reality f) then
    bind frame := lift (span_first view (rec_consumed record)) in
    bind key_share := lift (extract_key_share_x25519 frame) in
    bind _ := modify (λ f, with_reply (sent_reply_ f) (pending_reply_ f) (S (calls_ f)) f) in
    match fresh_keypair (calls_ f) with
    | Ok generated =>
        if (length key_share =? kPublicKeySize)%nat then
          match reality_server_auth (reality_server_private_ (reality f)) key_share (public_key generated) with
          | Ok tag => sret (public_key generated, tag)
          | _ => sret ([], [])
          end
        else sret ([], [])
    | _ => sret ([], [])
    end
  else sret ([], []).

Definition answer_hello (unix_now : Z) (record : TlsRecordView) (view : list Z) : frm unit :=
  bind f := state in
  bind hello := lift (looks_like_client_hello view) in
  if bool_decide (role_ f = server) && negb (sent_reply_ f) && hello then
    bind session_id := lift (hello_session_id view) in
    bind _ := judge_hello unix_now record view session_id in
    bind f := state in
    bind _ :=
      (if negb (reality_rejected_ (reality f)) then
         bind proof := server_proof record view in
         bind f := state in
         let '(calls, hello) := build_server_hello session_id proof.1 proof.2 (calls_ f) in
         bind flight := lift (build_certificate_flight calls) in
         modify (with_reply (sent_reply_ f) (hello ++ build_change_cipher_spec ++ flight.2) flight.1)
       else sret tt) in
    modify (λ f, with_reply true (pending_reply_ f) (calls_ f) f)
  else sret tt.

(** [flight_armed_ = true] when a client sees the server's hello *)
Definition arm_flight (view : list Z) (f : CamouflageFramer) : CamouflageFramer :=
  if bool_decide (role_ f = client) && negb (flight_armed_ f) && bool_decide (view !! kTlsRecordHeaderSize = Some 0x02)
  then with_flight true kCertificateFlightRecords f else f.

Definition consume_record (record : TlsRecordView) (f : CamouflageFramer) : CamouflageFramer :=
  with_inbox (consume (rec_consumed record) (inbox f)) f.

(** One turn of the loop of [next_payload]: the payload, or [continue]. *)
Definition record_turn (unix_now : Z) : frm (option (list Z)) :=
  bind f := state in
  let view := drop (consumed_ (inbox f)) (inbox_ (inbox f)) in
  match parse_record view with
  | Fail CamouflageError.need_more =>
      bind _ := modify (λ f, with_inbox (compact (inbox f)) f) in lift (Fail CamouflageError.need_more)
  | Fail e => bind _ := modify violate in lift (Fail e)
  | Ub => lift Ub
  | Ok record =>
      bind _ := check_server record view in
      if bool_decide (rec_type record = handshake) then
        bind _ := modify (arm_flight view) in
        bind _ := answer_hello unix_now record view in
        bind _ := modify (λ f, consume_record record (handshaken f)) in
        sret None
      else if negb (bool_decide (rec_type record = application_data)) then
        bind _ := modify (λ f, consume_record record (handshaken f)) in
        sret None
      else
        bind f := state in
        if (0 <? flight_remaining_ f)%nat then
          bind _ := modify (λ f, consume_record record (with_flight (flight_armed_ f) (flight_remaining_ f - 1) f)) in
          sret None
        else
          let i := inbox f in
          let i := mkInbox (inbox_ i) (consumed_ i + rec_consumed record) (rec_payload record) in
          let i := if (Z.to_nat 65536 <? consumed_ i)%nat || (length (inbox_ i) <? consumed_ i * 2)%nat then compact i else i in
          bind _ := modify (λ f, handshaken (with_inbox i f)) in
          sret (Some (rec_payload record))
  end.

Fixpoint next_loop (fuel : nat) (unix_now : Z) : frm (list Z) :=
  match fuel with
  | O => lift Ub
  | S fuel =>
      bind turn := record_turn unix_now in
      match turn with Some payload => sret payload | None => next_loop fuel unix_now end
  end.
Definition next_payload (unix_now : Z) : frm (list Z) :=
  bind f := state in
  bind _ := check (violated_ f) CamouflageError.malformed in
  next_loop (S (length (inbox_ (inbox f)))) unix_now.

End framer.
