(* ===== verification/CamouflageRecords.v ===== *)
(** What the records and hellos of [Camouflage] look like, and that the
    parsers find in them what the builders put in; on other bytes the parsers
    stay in bounds and come to an end. *)

From Stdlib Require Import String.
From S2P Require Import Prelude Packet Nonce Handshake Blake2s Crypto Noise Cookie Obfuscation Reality Camouflage.

(** ** Reading *)

Lemma rd_in {E} b o : (o < length b)%nat → ∃ x, rd (E:=E) b o = Ok x ∧ b !! o = Some x.
Proof. intros Ho. unfold rd. destruct (lookup_lt_is_Some_2 _ _ Ho) as [x ->]. eauto. Qed.

Lemma rd16_in b o : (o + 2 ≤ length b)%nat → ∃ n, rd16 b o = Ok n.
Proof.
  intros Ho. unfold rd16. destruct (rd_in (E:=CamouflageError) b o ltac:(lia)) as (x & -> & _).
  destruct (rd_in (E:=CamouflageError) b (o + 1) ltac:(lia)) as (y & -> & _). cbn. eauto.
Qed.

Lemma push_u16_be v : push_u16 v = be_bytes 2 v.
Proof.
  unfold push_u16. cbn [be_bytes]. change 0xFF with (Z.ones 8). rewrite Z.land_ones by lia. unfold u8. rewrite Z.mod_mod by lia.
  by rewrite Z.shiftr_0_r.
Qed.

Lemma rd16_value b o x y rest : drop o b = x :: y :: rest → is_u8 x → is_u8 y → rd16 b o = Ok (Z.to_nat (be_value [x; y])).
Proof.
  intros Hd Hx Hy. unfold rd16. assert (b !! o = Some x) as Eo by (rewrite <- (Nat.add_0_r o), <- lookup_drop, Hd; done).
  assert (b !! (o + 1)%nat = Some y) as Eo1 by (rewrite <- lookup_drop, Hd; done). rewrite (rd_ok _ _ _ Eo), (rd_ok _ _ _ Eo1). cbn [rbind].
  do 2 f_equal. rewrite be_value_2. by apply lor_shiftl_add.
Qed.

(** A number pushed is the number read. *)
Lemma rd16_pushed pre v post o : is_u16 v → o = length pre → rd16 (pre ++ push_u16 v ++ post) o = Ok (Z.to_nat v).
Proof.
  intros Hv ->. rewrite push_u16_be. cbn [be_bytes app].
  rewrite (rd16_value _ _ (u8 (Z.shiftr v (Z.of_nat 1 * 8))) (u8 (Z.shiftr v (Z.of_nat 0 * 8))) post); [|by rewrite drop_app_length|auto with norr..].
  do 2 f_equal. by be_fold 2%nat v.
Qed.

Lemma rd8_at pre v post o : o = length pre → rd8 (pre ++ v :: post) o = Ok (Z.to_nat v).
Proof. intros ->. unfold rd8. rewrite (rd_ok _ _ v); [done|]. by apply list_lookup_middle. Qed.

Lemma subspan_middle {E} pre mid post o n : o = length pre → n = length mid → subspan (E:=E) (pre ++ mid ++ post) o n = Ok mid.
Proof.
  intros -> ->. rewrite subspan_ok by (rewrite !length_app; lia). by rewrite drop_app_length, take_app_length.
Qed.

(** ** The parsers stay in bounds *)

Definition share_or_none (r : res CamouflageError (list Z)) : Prop := ∃ l, r = Ok l ∧ (l = [] ∨ length l = kPublicKeySize).

Lemma no_share : share_or_none (Ok []).
Proof. exists []. auto. Qed.
#[local] Hint Resolve no_share : core.

Lemma share_span record o : (o + kPublicKeySize ≤ length record)%nat → share_or_none (subspan record o kPublicKeySize).
Proof. intros Ho. rewrite subspan_ok by done. eexists. split; [done|]. right. rewrite length_take, length_drop. lia. Qed.

Lemma share_loop_in_bounds fuel : ∀ record q list_end, (list_end ≤ length record)%nat → (list_end - q < fuel)%nat →
  share_or_none (share_loop fuel record q list_end).
Proof.
  induction fuel as [|fuel IH]; intros record q list_end Hl Hf; [lia|]. cbn [share_loop].
  destruct (Nat.leb_spec (q + 4) list_end); [|done].
  destruct (rd16_in record q ltac:(lia)) as [group ->]. destruct (rd16_in record (q + 2) ltac:(lia)) as [klen ->]. cbn [rbind].
  destruct (Nat.ltb_spec list_end (q + 4 + klen)); [done|]. destruct (_ && _) eqn:E; [|apply IH; lia].
  apply andb_true_iff in E as [_ ->%Nat.eqb_eq]. apply share_span. lia.
Qed.

Lemma client_share_in_bounds record body len end_ : (body + len ≤ end_)%nat → (end_ ≤ length record)%nat →
  share_or_none (client_share record body len end_).
Proof.
  intros Hb He. unfold client_share. destruct (Nat.ltb_spec (body + len) (body + 2)); [done|].
  destruct (rd16_in record body ltac:(lia)) as [n ->]. cbn [rbind]. apply share_loop_in_bounds; lia.
Qed.

Lemma server_share_in_bounds record body len end_ : (body + len ≤ end_)%nat → (end_ ≤ length record)%nat →
  share_or_none (server_share record body len end_).
Proof.
  intros Hb He. unfold server_share. destruct (Nat.ltb_spec len 4); [done|].
  destruct (rd16_in record body ltac:(lia)) as [g ->]. cbn [rbind]. destruct (negb _); [done|].
  destruct (rd16_in record (body + 2) ltac:(lia)) as [k ->]. cbn [rbind]. destruct (_ && _) eqn:E; [|done].
  apply andb_true_iff in E as [_ E%Nat.leb_le]. apply share_span. lia.
Qed.

Lemma extension_loop_in_bounds found record :
  (∀ body len end_, (body + len ≤ end_)%nat → (end_ ≤ length record)%nat → share_or_none (found body len end_)) →
  ∀ fuel p ext_end, (ext_end ≤ length record)%nat → (ext_end - p < fuel)%nat → share_or_none (extension_loop found fuel record p ext_end).
Proof.
  intros Hfound. induction fuel as [|fuel IH]; intros p ext_end Hl Hf; [lia|]. cbn [extension_loop].
  destruct (Nat.leb_spec (p + 4) ext_end); [|done].
  destruct (rd16_in record p ltac:(lia)) as [t ->]. destruct (rd16_in record (p + 2) ltac:(lia)) as [n ->]. cbn [rbind].
  destruct (Nat.ltb_spec ext_end (p + 4 + n)); [done|]. destruct (_ =? _)%nat; [apply Hfound; lia|apply IH; lia].
Qed.

Lemma extensions_in_bounds found record p :
  (∀ body len end_, (body + len ≤ end_)%nat → (end_ ≤ length record)%nat → share_or_none (found body len end_)) →
  (p + 2 ≤ length record)%nat → share_or_none (extensions found record p).
Proof.
  intros Hfound Hp. unfold extensions. destruct (rd16_in record p Hp) as [n ->]. cbn [rbind].
  apply extension_loop_in_bounds; [done|lia..].
Qed.

Lemma rd8_in b o : (o < length b)%nat → ∃ n, rd8 b o = Ok n.
Proof. intros Ho. unfold rd8. destruct (rd_in (E:=CamouflageError) b o Ho) as (x & -> & _). cbn. eauto. Qed.

Lemma extract_client_in_bounds record : share_or_none (extract_key_share_x25519 record).
Proof.
  unfold extract_key_share_x25519. destruct (Nat.ltb_spec (length record) (kTlsRecordHeaderSize + 4 + 2 + kTlsRandomSize + 1)); [done|].
  destruct (rd8_in record (kTlsRecordHeaderSize + 4 + 2 + kTlsRandomSize) ltac:(lia)) as [sid ->]. cbn [rbind].
  match goal with |- context [if (?a <? ?b)%nat then _ else _] => destruct (Nat.ltb_spec a b) end; [done|].
  match goal with |- context [rd16 record ?o] => destruct (rd16_in record o ltac:(lia)) as [cl ->] end. cbn [rbind].
  match goal with |- context [if (?a <? ?b)%nat then _ else _] => destruct (Nat.ltb_spec a b) end; [done|].
  match goal with |- context [rd8 record ?o] => destruct (rd8_in record o ltac:(lia)) as [co ->] end. cbn [rbind].
  match goal with |- context [if (?a <? ?b)%nat then _ else _] => destruct (Nat.ltb_spec a b) end; [done|].
  apply extensions_in_bounds; [apply client_share_in_bounds|lia].
Qed.

Lemma extract_server_in_bounds record : share_or_none (extract_server_key_share record).
Proof.
  unfold extract_server_key_share. destruct (Nat.ltb_spec (length record) (kTlsRecordHeaderSize + 4 + 2 + kTlsRandomSize + 1)); [done|].
  destruct (rd8_in record (kTlsRecordHeaderSize + 4 + 2 + kTlsRandomSize) ltac:(lia)) as [sid ->]. cbn [rbind].
  match goal with |- context [if (?a <? ?b)%nat then _ else _] => destruct (Nat.ltb_spec a b) end; [done|].
  apply extensions_in_bounds; [apply server_share_in_bounds|lia].
Qed.

(** ** Records *)

Definition tls_record (minor : Z) (type : TlsRecordType) (body : list Z) : list Z :=
  record_code type :: 3 :: minor :: push_u16 (Z.of_nat (length body)) ++ body.

Lemma length_tls_record minor type body : length (tls_record minor type body) = (5 + length body)%nat.
Proof. done. Qed.

Lemma record_type_code type : record_type (record_code type) = type.
Proof. by destruct type. Qed.

Definition record_fits (body : list Z) : Prop := (length body ≤ kTlsMaxRecordPayload)%nat.

Lemma one_fits : record_fits [1].
Proof. unfold record_fits, kTlsMaxRecordPayload. cbn [length]. lia. Qed.

(** The first five bytes decide everything but whether more is needed. *)
Lemma parse_front minor type size tail : (size ≤ kTlsMaxRecordPayload)%nat →
  let bytes := record_code type :: 3 :: minor :: push_u16 (Z.of_nat size) ++ tail in
  parse_record bytes =
    if (length tail <? size)%nat then Fail CamouflageError.need_more
    else Ok (mkRecordView type (take size tail) (5 + size)).
Proof.
  intros Hs bytes. assert (is_u16 (Z.of_nat size)) as Hu by (unfold kTlsMaxRecordPayload in Hs; word_lia).
  unfold parse_record, guard. rewrite (proj2 (Nat.ltb_ge _ _)) by (unfold bytes, push_u16, kTlsRecordHeaderSize; cbn; lia).
  unfold bytes, push_u16. cbn [app]. unfold rd. cbn [lookup list_lookup rbind]. change (negb (3 =? 3)) with false.
  assert ((record_code type <? 20) || (23 <? record_code type) = false) as -> by (by destruct type). cbn [orb].
  assert (Z.lor (Z.shiftl (u8 (Z.shiftr (Z.of_nat size) 8)) 8) (u8 (Z.land (Z.of_nat size) 255)) = Z.of_nat size) as ->.
  { rewrite lor_shiftl_add by (lia || apply u8_range). pose proof (be_value_small 2 (Z.of_nat size) Hu) as E.
    rewrite <- push_u16_be in E. unfold push_u16 in E. rewrite be_value_2 in E. change (2 ^ 8) with 256. exact E. }
  rewrite Nat2Z.id, (proj2 (Nat.ltb_ge kTlsMaxRecordPayload size) Hs). unfold kTlsRecordHeaderSize. cbn [length].
  destruct (Nat.ltb_spec (length tail) size).
  - by rewrite (proj2 (Nat.ltb_lt _ _)) by lia.
  - rewrite (proj2 (Nat.ltb_ge _ _)) by lia. rewrite subspan_ok by (cbn [length]; lia). cbn [rbind drop].
    by rewrite record_type_code.
Qed.

Lemma parse_tls_record minor type body rest : record_fits body →
  parse_record (tls_record minor type body ++ rest) = Ok (mkRecordView type body (5 + length body)).
Proof.
  intros Hf. unfold tls_record. cbn [app]. rewrite <- app_assoc. rewrite (parse_front minor type (length body) (body ++ rest)) by done.
  destruct (Nat.ltb_spec (length (body ++ rest)) (length body)); [rewrite length_app in *; lia|]. by rewrite take_app_length.
Qed.

(** A record that is not complete yet. *)
Lemma parse_partial minor type body q : record_fits body → q `prefix_of` tls_record minor type body →
  (length q < 5 + length body)%nat → parse_record q = Fail CamouflageError.need_more.
Proof.
  intros Hf [k Hk] Hq. destruct (Nat.lt_ge_cases (length q) 5) as [Hl|Hl].
  { unfold parse_record, guard. by rewrite (proj2 (Nat.ltb_lt (length q) kTlsRecordHeaderSize) Hl). }
  unfold tls_record, push_u16 in Hk. cbn [app] in Hk.
  destruct q as [|b0 [|b1 [|b2 [|b3 [|b4 q]]]]]; cbn [length] in *; try lia. cbn [app] in Hk. injection Hk as <- <- <- <- <- Hb.
  pose proof (parse_front minor type (length body) q Hf) as Hp. cbn zeta in Hp. unfold push_u16 in Hp. cbn [app] in Hp. rewrite Hp.
  rewrite Hb, length_app in *. by rewrite (proj2 (Nat.ltb_lt (length q) (length q + length k))) by lia.
Qed.

Lemma u8_land z : u8 (Z.land z 0xFF) = u8 z.
Proof. change 0xFF with (Z.ones 8). rewrite Z.land_ones by lia. unfold u8. by rewrite Z.mod_mod by lia. Qed.

Lemma record_header_spec type size : record_header type size = Ok (record_code type :: 3 :: 3 :: push_u16 (Z.of_nat size)).
Proof.
  unfold record_header, write_record_header, wr, push_u16, kTlsRecordHeaderSize. cbn [replicate length Nat.ltb Nat.leb rbind fst].
  repeat (rewrite decide_True by (cbn; lia); cbn [rbind insert list_insert fst length]).
  assert (u8 (record_code type) = record_code type) as -> by (by destruct type). by rewrite (u8_land (Z.shiftr _ _)).
Qed.

Lemma tls_record_header type size body : length body = size →
  (record_code type :: 3 :: 3 :: push_u16 (Z.of_nat size)) ++ body = tls_record 3 type body.
Proof. by intros <-. Qed.

(** ** Payloads in records *)

Lemma wrap_loop_spec fuel : ∀ payload out offset, (offset ≤ length payload)%nat → (length payload - offset < fuel)%nat →
  ∃ bodies, Forall record_fits bodies ∧ concat bodies = drop offset payload ∧
    wrap_loop fuel payload out offset = Ok (out ++ (bodies ≫= tls_record 3 application_data)).
Proof.
  induction fuel as [|fuel IH]; intros payload out offset Ho Hf; [lia|]. cbn [wrap_loop].
  destruct (Nat.ltb_spec offset (length payload)) as [Hlt|Hge].
  - set (chunk := Nat.min kTlsMaxRecordPayload (length payload - offset)).
    assert (0 < chunk ≤ kTlsMaxRecordPayload ∧ offset + chunk ≤ length payload)%nat as Hc by (unfold chunk, kTlsMaxRecordPayload; lia).
    rewrite record_header_spec. cbn [rbind]. rewrite subspan_ok by lia. cbn [rbind].
    assert (length (take chunk (drop offset payload)) = chunk) as Hl by (rewrite length_take, length_drop; lia).
    rewrite tls_record_header by done.
    destruct (IH payload (out ++ tls_record 3 application_data (take chunk (drop offset payload))) (offset + chunk)%nat
      ltac:(lia) ltac:(lia)) as (bodies & Hb & Hcat & ->).
    exists (take chunk (drop offset payload) :: bodies). split; [constructor; [|done]; unfold record_fits; lia|]. split.
    + cbn [concat]. rewrite Hcat, <- drop_drop. apply take_drop.
    + by rewrite bind_cons, app_assoc.
  - exists []. split; [constructor|]. split; [by rewrite drop_ge|]. by rewrite app_nil_r.
Qed.

Lemma wrap_spec_ payload : ∃ bodies, Forall record_fits bodies ∧ concat bodies = payload ∧
  wrap payload = Ok (bodies ≫= tls_record 3 application_data).
Proof. apply (wrap_loop_spec (S (length payload)) payload [] 0); lia. Qed.

(** A frame that fits goes into one record. *)
Definition frame_fits (p : list Z) : Prop := (0 < length p ≤ kTlsMaxRecordPayload)%nat.

Lemma small_frame_fits p : (0 < length p ≤ 1000)%nat → frame_fits p.
Proof. unfold frame_fits, kTlsMaxRecordPayload. lia. Qed.

Lemma wrap_frame p : frame_fits p → wrap p = Ok (tls_record 3 application_data p).
Proof.
  intros [H0 Hm]. unfold wrap. destruct (length p) as [|n] eqn:El; [lia|]. cbn [wrap_loop]. rewrite El. change (0 <? S n)%nat with true. rewrite Nat.sub_0_r, Nat.min_r by done.
  rewrite record_header_spec. cbn [rbind]. rewrite subspan_ok by lia. cbn [rbind]. rewrite drop_0, <- El, firstn_all, Nat.add_0_l.
  rewrite (proj2 (Nat.ltb_ge (length p) (length p))) by done. by rewrite tls_record_header.
Qed.

Lemma wraps_spec ps ws : Forall2 (λ p w, wrap p = Ok w) ps ws →
  ∃ bodies, Forall record_fits bodies ∧ concat bodies = concat ps ∧ concat ws = bodies ≫= tls_record 3 application_data ∧
    (Forall frame_fits ps → bodies = ps).
Proof.
  induction 1 as [|p w ps ws Hw Hws (bodies & Hb & Hcat & Ew & Hps)]; [by exists []|].
  assert (∃ own, Forall record_fits own ∧ concat own = p ∧ w = own ≫= tls_record 3 application_data ∧ (frame_fits p → own = [p]))
    as (own & Ho & Ecat & -> & Hown).
  { destruct (decide (0 < length p ∧ length p ≤ kTlsMaxRecordPayload)%nat) as [Hf|Hf].
    - rewrite wrap_frame in Hw by exact Hf. apply Ok_inj in Hw as <-. exists [p].
      split; [apply Forall_singleton; exact (proj2 Hf)|]. cbn. by rewrite !app_nil_r.
    - destruct (wrap_spec_ p) as (own & Ho & Ec & E). rewrite Hw in E. apply Ok_inj in E as ->. exists own.
      split; [done|]. split; [done|]. split; [done|]. intros [H1 H2]. by destruct Hf. }
  exists (own ++ bodies). split; [by apply Forall_app|]. cbn [concat]. rewrite concat_app, bind_app, Ecat, Hcat, Ew.
  split; [done|]. split; [done|]. intros [Hp Hr]%Forall_cons. rewrite (Hown Hp), (Hps Hr). done.
Qed.

(** ** Extensions *)

Definition ext_bytes (e : Z * list Z) : list Z := push_u16 e.1 ++ push_u16 (Z.of_nat (length e.2)) ++ e.2.

Lemma length_ext_bytes e : length (ext_bytes e) = (4 + length e.2)%nat.
Proof. done. Qed.

Definition other_extension (e : Z * list Z) : Prop := is_u16 e.1 ∧ e.1 ≠ 0x33 ∧ (length e.2 < Z.to_nat 65536)%nat.

(** One turn of the loop at an extension. *)
Lemma extension_turn found fuel pre e post ext_end : is_u16 e.1 → (length e.2 < Z.to_nat 65536)%nat →
  (length pre + length (ext_bytes e) ≤ ext_end)%nat →
  extension_loop found (S fuel) (pre ++ ext_bytes e ++ post) (length pre) ext_end =
  if (Z.to_nat e.1 =? 0x33)%nat then found (length pre + 4)%nat (length e.2) ext_end
  else extension_loop found fuel (pre ++ ext_bytes e ++ post) (length pre + length (ext_bytes e)) ext_end.
Proof.
  intros Ht Hl He. rewrite length_ext_bytes in *. cbn [extension_loop]. rewrite (proj2 (Nat.leb_le _ _)) by lia.
  assert (rd16 (pre ++ ext_bytes e ++ post) (length pre) = Ok (Z.to_nat e.1)) as ->.
  { unfold ext_bytes. rewrite <- !app_assoc. by apply rd16_pushed. }
  assert (rd16 (pre ++ ext_bytes e ++ post) (length pre + 2) = Ok (length e.2)) as ->.
  { unfold ext_bytes. replace (pre ++ (push_u16 e.1 ++ push_u16 (Z.of_nat (length e.2)) ++ e.2) ++ post)
      with ((pre ++ push_u16 e.1) ++ push_u16 (Z.of_nat (length e.2)) ++ e.2 ++ post) by (by rewrite <- !app_assoc).
    rewrite rd16_pushed; [by rewrite Nat2Z.id|word_lia|]. rewrite length_app. done. }
  cbn [rbind]. rewrite (proj2 (Nat.ltb_ge ext_end _)) by lia. destruct (_ =? _)%nat; [done|]. f_equal. lia.
Qed.

Lemma extension_walk found exts : ∀ fuel pre post ext_end, Forall other_extension exts → (length exts ≤ fuel)%nat →
  (length pre + length (exts ≫= ext_bytes) ≤ ext_end)%nat →
  extension_loop found fuel (pre ++ (exts ≫= ext_bytes) ++ post) (length pre) ext_end =
  extension_loop found (fuel - length exts) (pre ++ (exts ≫= ext_bytes) ++ post) (length pre + length (exts ≫= ext_bytes)) ext_end.
Proof.
  induction exts as [|e exts IH]; intros fuel pre post ext_end Hx Hf He.
  { cbn. by rewrite Nat.sub_0_r, Nat.add_0_r. }
  apply Forall_cons in Hx as [(Ht & Hn & Hl) Hx]. rewrite bind_cons in *. rewrite length_app in *. cbn [length] in *.
  destruct fuel as [|fuel]; [lia|]. rewrite <- (app_assoc (ext_bytes e)). rewrite extension_turn by (done || lia).
  destruct (Nat.eqb_spec (Z.to_nat e.1) 0x33) as [E|_]; [unfold is_u16 in Ht; lia|].
  specialize (IH fuel (pre ++ ext_bytes e) post ext_end Hx ltac:(lia)). rewrite length_app, <- app_assoc in IH.
  rewrite IH by lia. by rewrite Nat.add_assoc.
Qed.

(** The loop reaches the key share behind other extensions. *)
Lemma extension_found found exts body pre post : Forall other_extension exts → (length body < Z.to_nat 65536)%nat →
  let ext := (exts ≫= ext_bytes) ++ ext_bytes (0x33, body) in
  let record := pre ++ push_u16 (Z.of_nat (length (ext ++ post))) ++ ext ++ post in
  (length (ext ++ post) < Z.to_nat 65536)%nat →
  extensions found record (length pre) =
  found (length pre + 2 + length (exts ≫= ext_bytes) + 4)%nat (length body) (length record).
Proof.
  intros Hx Hb ext record Hl. unfold extensions. unfold record at 1. rewrite rd16_pushed by (done || word_lia). cbn [rbind].
  rewrite Nat2Z.id. set (pre' := pre ++ push_u16 (Z.of_nat (length (ext ++ post)))).
  assert (length pre' = length pre + 2)%nat as Hp by (unfold pre'; rewrite length_app; done).
  assert (record = pre' ++ (exts ≫= ext_bytes) ++ ext_bytes (0x33, body) ++ post) as Er.
  { unfold record, pre', ext. by rewrite <- !app_assoc. }
  assert (length record = length pre + 2 + length (ext ++ post))%nat as Hlen.
  { unfold record. rewrite length_app, (length_app (push_u16 _)). cbn [push_u16 length]. lia. }
  assert (length (ext ++ post) = length (exts ≫= ext_bytes) + (4 + length body) + length post)%nat as Hext.
  { unfold ext. rewrite !length_app, length_ext_bytes. done. }
  rewrite Nat.min_l by lia. rewrite <- Hp.
  assert (length exts ≤ length (exts ≫= ext_bytes))%nat as Hle.
  { clear. induction exts as [|e exts IH]; [done|]. rewrite bind_cons, length_app, length_ext_bytes. cbn [length]. lia. }
  assert (∃ fuel, S (length record) - length exts = S fuel)%nat as [fuel Ef] by (exists (length record - length exts)%nat; lia).
  rewrite Er at 2. rewrite extension_walk by (done || lia). rewrite Ef, (app_assoc pre' (exts ≫= ext_bytes)).
  replace (length pre' + length (exts ≫= ext_bytes))%nat with (length (pre' ++ (exts ≫= ext_bytes))) by apply length_app.
  rewrite extension_turn; [|done|done|rewrite length_app, length_ext_bytes; cbn [snd]; lia]. done.
Qed.

(** ** The client's hello *)

Definition greasy (g : Z) : Prop := is_u16 g ∧ g ≠ 0x33 ∧ g ≠ 0x1d.

Lemma grease_greasy `{Rng} calls : greasy (grease_value calls).2.
Proof.
  unfold grease_value. cbn [snd]. set (nibble := match random calls 1 with Some _ => _ | None => _ end).
  assert (0 ≤ nibble < 16) as Hn.
  { unfold nibble. case_match; [|lia]. change 0x0F with (Z.ones 4). rewrite Z.land_ones by lia. apply Z.mod_pos_bound. lia. }
  assert (nibble ∈ seqZ 0 16) as Hin by (apply elem_of_seqZ; lia). clearbody nibble. clear Hn. revert nibble Hin. apply Forall_forall.
  unfold greasy, is_u16. repeat (apply Forall_cons; split; [by vm_compute|]). constructor.
Qed.

Definition client_extensions (grease : Z) (name : list Z) : list (Z * list Z) :=
  let n := Z.of_nat (length name) in
  [(grease, []); (0, push_u16 (n + 3) ++ push_u8 0 ++ push_u16 n ++ name); (0x17, []);
   (0x0d, push_u16 16 ++ (kSig ≫= push_u16)); (0x10, push_u16 12 ++ push_u8 2 ++ text "h2" ++ push_u8 8 ++ text "http/1.1");
   (0x05, push_u8 1 ++ push_u32 0); (0x0b, push_u8 1 ++ push_u8 0);
   (0x0a, push_u16 8 ++ push_u16 grease ++ push_u16 0x001d ++ push_u16 0x0017 ++ push_u16 0x0018); (0x23, []);
   (0x2d, push_u8 1 ++ push_u8 0); (0x2b, push_u8 6 ++ push_u16 grease ++ push_u16 0x0304 ++ push_u16 0x0303)].

Definition name_fits (name : list Z) : Prop := (length name ≤ 255)%nat.

Lemma hello_extensions_spec grease name : name_fits name → hello_extensions grease name = client_extensions grease name ≫= ext_bytes.
Proof.
  intros Hn. unfold name_fits in Hn. unfold hello_extensions, client_extensions, mbind, list_bind, ext_bytes. cbn [fst snd].
  rewrite (u16_id (Z.of_nat (length name))) by word_lia. rewrite !u16_id by word_lia. rewrite app_nil_r.
  replace (Z.of_nat (length name) + 5) with (Z.of_nat (length (push_u16 (Z.of_nat (length name) + 3) ++ push_u8 0 ++ push_u16 (Z.of_nat (length name)) ++ name)))
    by (rewrite !length_app; cbn [push_u16 push_u8 length]; lia).
  rewrite <- !app_assoc. reflexivity.
Qed.

Lemma client_extensions_other grease name : greasy grease → name_fits name → Forall other_extension (client_extensions grease name).
Proof.
  intros (Hg & Hg' & _) Hn. unfold name_fits in Hn. unfold client_extensions, other_extension.
  assert (length (push_u16 (Z.of_nat (length name) + 3) ++ push_u8 0 ++ push_u16 (Z.of_nat (length name)) ++ name) < Z.to_nat 65536)%nat
    by (rewrite !length_app; cbn [push_u16 push_u8 length]; lia).
  repeat (apply Forall_cons; split; [cbn [fst snd]; split; [done || word_lia|]; split; [done || lia|]; done || (cbn; lia)|]). constructor.
Qed.

Definition share_body (grease : Z) (share : list Z) : list Z :=
  push_u16 41 ++ (push_u16 grease ++ push_u16 1 ++ push_u8 0) ++ push_u16 0x001d ++ push_u16 32 ++ share.

Lemma hello_key_share_spec grease share : length share = 32%nat →
  hello_key_share grease share = ext_bytes (0x33, share_body grease share) ++ push_u16 grease ++ push_u16 1 ++ push_u8 0.
Proof.
  intros Hs. unfold hello_key_share, ext_bytes. cbn [fst snd]. unfold share_body at 1. rewrite !length_app, Hs.
  unfold share_body. rewrite <- !app_assoc. reflexivity.
Qed.

Lemma client_share_found grease share pre post end_ : greasy grease → length share = 32%nat →
  client_share (pre ++ share_body grease share ++ post) (length pre) (length (share_body grease share)) end_ = Ok share.
Proof.
  intros (Hg & _ & Hg') Hs. set (record := pre ++ share_body grease share ++ post).
  assert (length (share_body grease share) = 43)%nat as Hl by (unfold share_body; rewrite !length_app, Hs; done).
  assert (length record = length pre + 43 + length post)%nat as Hr by (unfold record; rewrite !length_app, Hl; lia).
  unfold client_share. rewrite Hl, (proj2 (Nat.ltb_ge _ _)) by lia.
  assert (rd16 record (length pre) = Ok 41%nat) as ->.
  { unfold record, share_body. rewrite <- !app_assoc. by apply (rd16_pushed pre 41). }
  cbn [rbind]. rewrite Nat.min_l by lia. destruct (length record) as [|[|fuel]] eqn:Elen; [lia..|]. cbn [share_loop].
  rewrite (proj2 (Nat.leb_le _ _)) by lia.
  assert (rd16 record (length pre + 2) = Ok (Z.to_nat grease)) as ->.
  { unfold record, share_body. rewrite <- !app_assoc, (app_assoc pre). apply rd16_pushed; [done|by rewrite length_app]. }
  assert (rd16 record (length pre + 2 + 2) = Ok 1%nat) as ->.
  { unfold record, share_body. rewrite <- !app_assoc, (app_assoc pre), (app_assoc (pre ++ _)). apply (rd16_pushed _ 1); [done|rewrite !length_app; done]. }
  cbn [rbind]. rewrite (proj2 (Nat.ltb_ge _ _)) by lia.
  assert ((Z.to_nat grease =? 29)%nat && (1 =? kPublicKeySize)%nat = false) as -> by apply andb_false_r.
  rewrite (proj2 (Nat.leb_le _ _)) by lia.
  assert (record = (pre ++ push_u16 41 ++ push_u16 grease ++ push_u16 1 ++ push_u8 0) ++ push_u16 0x001d ++ push_u16 32 ++ share ++ post) as Er.
  { unfold record, share_body. by rewrite <- !app_assoc. }
  assert (rd16 record (length pre + 2 + 4 + 1) = Ok 29%nat) as ->.
  { rewrite Er. apply (rd16_pushed _ 0x1d); [done|rewrite !length_app; cbn; lia]. }
  assert (rd16 record (length pre + 2 + 4 + 1 + 2) = Ok 32%nat) as ->.
  { rewrite Er, (app_assoc _ (push_u16 0x1d)). apply (rd16_pushed _ 32); [done|rewrite !length_app; cbn; lia]. }
  cbn [rbind]. rewrite (proj2 (Nat.ltb_ge _ _)) by lia. cbn [Nat.eqb andb kPublicKeySize].
  rewrite Er, (app_assoc _ (push_u16 0x1d)), (app_assoc _ (push_u16 32)). apply subspan_middle; [rewrite !length_app; cbn; lia|done].
Qed.

(** A handshake message in its record. *)
Definition message (kind : Z) (body : list Z) : list Z :=
  let size := Z.of_nat (length body) in
  kind :: u8 (Z.land (Z.shiftr size 16) 0xFF) :: u8 (Z.land (Z.shiftr size 8) 0xFF) :: u8 (Z.land size 0xFF) :: body.

Lemma framed_record kind body minor : is_u8 kind → 0 ≤ minor < 256 → (length body < Z.to_nat 65500)%nat →
  framed_handshake kind body (0x300 + minor) = tls_record minor handshake (message kind body).
Proof.
  intros Hk Hm Hb. unfold framed_handshake, tls_record, message, push_u8. cbn [app]. rewrite (u8_id kind) by done.
  rewrite u16_id by (cbn [length]; word_lia).
  unfold push_u16 at 1. cbn [app].
  assert (u8 (Z.shiftr (0x300 + minor) 8) = 3) as ->.
  { rewrite shiftr_div by lia. change (0x300 + minor) with (3 * 2 ^ 8 + minor). rewrite Z.div_add_l, Z.div_small by lia. done. }
  assert (u8 (Z.land (0x300 + minor) 0xFF) = minor) as ->; [|done].
  rewrite u8_land. unfold u8. change (0x300 + minor) with (3 * 2 ^ 8 + minor). rewrite Z.add_comm, Z.mod_add, Z.mod_small by lia. done.
Qed.

Section hellos.
Context `{RngLaws}.

Lemma length_push_random calls count : length (push_random calls count).2 = count.
Proof.
  unfold push_random. cbn [snd]. destruct (random calls count) as [bytes|] eqn:E; cbn [default]; [by eapply random_length|apply length_replicate].
Qed.

Lemma given_or_random_spec size given calls : let r := (given_or_random size given calls).2 in
  length r = size ∧ (length given = size → r = given).
Proof.
  cbn zeta. unfold given_or_random. destruct (Nat.eqb_spec (length given) size) as [E|E]; [done|].
  split; [apply length_push_random|done].
Qed.

(** The bytes before the session id of a hello. *)
Definition hello_front (minor kind : Z) (body random : list Z) : list Z :=
  record_code handshake :: 3 :: minor :: push_u16 (Z.of_nat (length (message kind body))) ++
  kind :: u8 (Z.land (Z.shiftr (Z.of_nat (length body)) 16) 0xFF) :: u8 (Z.land (Z.shiftr (Z.of_nat (length body)) 8) 0xFF) ::
  u8 (Z.land (Z.of_nat (length body)) 0xFF) :: push_u16 0x0303 ++ random.

Lemma hello_split minor kind body random rest : body = push_u16 0x0303 ++ random ++ rest →
  tls_record minor handshake (message kind body) = hello_front minor kind body random ++ rest.
Proof.
  intros E. unfold tls_record, hello_front. cbn [app]. rewrite <- app_assoc. do 4 f_equal. cbn [app]. unfold message at 1.
  rewrite E at 4. by rewrite <- app_assoc.
Qed.

Lemma length_hello_front minor kind body random : length random = 32%nat → length (hello_front minor kind body random) = 43%nat.
Proof. intros Hr. unfold hello_front. cbn [push_u16 app length]. by rewrite Hr. Qed.

Lemma session_id_found front sid rest : length front = 43%nat → length sid = 32%nat →
  hello_session_id (front ++ push_u8 32 ++ sid ++ rest) = Ok sid.
Proof.
  intros Hf Hi. unfold hello_session_id, kSessionIdLenOffset, kTlsRecordHeaderSize, kTlsRandomSize. cbn [Nat.add].
  rewrite (proj2 (Nat.ltb_lt _ _)) by (rewrite !length_app; cbn [push_u8 length]; lia). unfold push_u8 at 1. cbn [app].
  change (u8 32) with 32. rewrite rd8_at by done. cbn [rbind]. change (Z.to_nat 32) with 32%nat. change (32 <=? 32)%nat with true. cbn [andb Nat.add].
  rewrite (proj2 (Nat.leb_le _ _)) by (rewrite !length_app; cbn [push_u8 length]; lia).
  rewrite (app_assoc front). apply subspan_middle; [rewrite length_app, Hf; done|done].
Qed.

(** The walk over the fields of a hello to its extensions. *)
Lemma extract_client_walk front sid ciphers ext : length front = 43%nat → length sid = 32%nat → length ciphers = 32%nat →
  let pre := front ++ push_u8 32 ++ sid ++ push_u16 32 ++ ciphers ++ push_u8 1 ++ push_u8 0 in
  let record := pre ++ push_u16 (Z.of_nat (length ext)) ++ ext in
  extract_key_share_x25519 record = extensions (client_share record) record (length pre).
Proof.
  intros Hf Hi Hc pre record. assert (length pre = 112)%nat as Hp by (unfold pre; rewrite !length_app, Hf, Hi, Hc; done).
  assert (length record = 114 + length ext)%nat as Hl by (unfold record; rewrite !length_app, Hp; cbn [push_u16 length]; lia).
  unfold extract_key_share_x25519, kTlsRecordHeaderSize, kTlsRandomSize. rewrite Hp. cbn [Nat.add].
  rewrite (proj2 (Nat.ltb_ge _ _)) by lia.
  assert (rd8 record 43 = Ok 32%nat) as ->.
  { unfold record, pre. rewrite <- !app_assoc. by apply (rd8_at front 32). }
  cbn [rbind Nat.add]. rewrite (proj2 (Nat.ltb_ge _ _)) by lia.
  assert (rd16 record 76 = Ok 32%nat) as ->.
  { unfold record, pre. rewrite <- !app_assoc, (app_assoc front), (app_assoc (front ++ _)).
    apply (rd16_pushed _ 32); [done|]. rewrite !length_app, Hf, Hi. done. }
  cbn [rbind Nat.add]. rewrite (proj2 (Nat.ltb_ge _ _)) by lia.
  assert (rd8 record 110 = Ok 1%nat) as ->.
  { unfold record, pre. rewrite <- !app_assoc, (app_assoc front), (app_assoc (front ++ _)), (app_assoc ((front ++ _) ++ _)), (app_assoc (((front ++ _) ++ _) ++ _)).
    apply (rd8_at _ 1). rewrite !length_app, Hf, Hi, Hc. done. }
  cbn [rbind Nat.add]. by rewrite (proj2 (Nat.ltb_ge _ _)) by lia.
Qed.

Lemma extract_client_found front sid ciphers exts grease share tail : length front = 43%nat → length sid = 32%nat → length ciphers = 32%nat →
  Forall other_extension exts → greasy grease → length share = 32%nat →
  let ext := ((exts ≫= ext_bytes) ++ ext_bytes (0x33, share_body grease share)) ++ tail in
  (length ext < Z.to_nat 65536)%nat →
  extract_key_share_x25519 ((front ++ push_u8 32 ++ sid ++ push_u16 32 ++ ciphers ++ push_u8 1 ++ push_u8 0) ++ push_u16 (Z.of_nat (length ext)) ++ ext) = Ok share.
Proof.
  intros Hf Hi Hc Hx Hg Hs ext Hl. rewrite extract_client_walk by done.
  set (pre := front ++ _). set (record := pre ++ _). set (share_ := share_body grease share) in *.
  assert (length share_ = 43)%nat as Hsh by (unfold share_, share_body; rewrite !length_app, Hs; done).
  pose proof (extension_found (client_share record) exts share_ pre tail Hx ltac:(lia) Hl) as Hfound. cbn zeta in Hfound.
  change (pre ++ push_u16 (Z.of_nat (length (((exts ≫= ext_bytes) ++ ext_bytes (0x33, share_)) ++ tail))) ++
    ((exts ≫= ext_bytes) ++ ext_bytes (0x33, share_)) ++ tail) with (pre ++ push_u16 (Z.of_nat (length ext)) ++ ext) in Hfound.
  fold record in Hfound. rewrite Hfound.
  set (pre2 := pre ++ push_u16 (Z.of_nat (length ext)) ++ (exts ≫= ext_bytes) ++ push_u16 0x33 ++ push_u16 43).
  assert (record = pre2 ++ share_ ++ tail) as ->.
  { assert (ext_bytes (0x33, share_) = push_u16 0x33 ++ push_u16 43 ++ share_) as Ee by (unfold ext_bytes; cbn [fst snd]; by rewrite Hsh).
    unfold record, pre2, ext. rewrite Ee, <- !app_assoc. reflexivity. }
  replace (length pre + 2 + length (exts ≫= ext_bytes) + 4)%nat with (length pre2)
    by (unfold pre2; rewrite !length_app; cbn [push_u16 length]; lia).
  by apply client_share_found.
Qed.

Lemma length_client_extensions grease name : length (client_extensions grease name ≫= ext_bytes) = (107 + length name)%nat.
Proof.
  unfold client_extensions, mbind, list_bind. rewrite !length_app, !length_ext_bytes. cbn [snd]. rewrite !length_app.
  cbn [push_u16 push_u8 length]. cbn. lia.
Qed.

Lemma client_hello_spec name share sid calls : name_fits name → length share = 32%nat → length sid = 32%nat →
  let hello := (build_client_hello name share sid calls).2 in
  ∃ tail, hello = tls_record 1 handshake (1 :: tail) ∧ record_fits (1 :: tail) ∧ (39 ≤ length tail)%nat ∧
    extract_key_share_x25519 hello = Ok share ∧ ∀ rest, hello_session_id (hello ++ rest) = Ok sid.
Proof.
  intros Hn Hs Hi hello. unfold hello, build_client_hello. pose proof (grease_greasy calls) as Hg.
  destruct (grease_value calls) as [c1 g]. cbn [snd] in Hg.
  pose proof (length_push_random c1 kTlsRandomSize) as Hr. destruct (push_random c1 kTlsRandomSize) as [c2 random]. cbn [snd] in Hr.
  unfold given_or_random. rewrite Hi, Hs. cbn [Nat.eqb kTlsSessionIdSize kTlsRandomSize snd].
  rewrite hello_extensions_spec, hello_key_share_spec by done. rewrite (app_assoc (client_extensions g name ≫= ext_bytes)).
  set (ext := ((client_extensions g name ≫= ext_bytes) ++ ext_bytes (0x33, share_body g share)) ++ push_u16 g ++ push_u16 1 ++ push_u8 0).
  assert (length ext = 159 + length name)%nat as Hext
    by (unfold ext; rewrite !length_app, length_client_extensions, length_ext_bytes; cbn [snd]; unfold share_body; rewrite !length_app, Hs; cbn; lia).
  pose proof Hn as Hn'. unfold name_fits in Hn'. rewrite u16_id by (rewrite Hext; word_lia).
  set (rest := push_u8 32 ++ sid ++ push_u16 32 ++ (hello_ciphers g ≫= push_u16) ++ push_u8 1 ++ push_u8 0 ++ push_u16 (Z.of_nat (length ext)) ++ ext).
  change (push_u16 (Z.of_nat (length (hello_ciphers g) * 2))) with (push_u16 32).
  change (push_u8 (Z.of_nat kTlsSessionIdSize)) with (push_u8 32). fold rest. set (body := push_u16 771 ++ random ++ rest).
  assert (length rest = 230 + length name)%nat as Hrest.
  { unfold rest. rewrite !length_app, Hi, Hext. cbn [push_u16 push_u8 length mbind list_bind hello_ciphers app]. lia. }
  assert (length body = 264 + length name)%nat as Hbody by (unfold body; rewrite !length_app, Hr, Hrest; cbn [push_u16 length]; unfold kTlsRandomSize; lia).
  change 769 with (0x300 + 1). rewrite framed_record by (word_lia || lia).
  exists (drop 1 (message 1 body)). split; [done|]. unfold record_fits, kTlsMaxRecordPayload. cbn [message drop length].
  split; [lia|]. split; [lia|]. rewrite (hello_split 1 1 body random rest) by done. set (front := hello_front 1 1 body random).
  assert (length front = 43)%nat as Hf by (by apply length_hello_front). split.
  - pose proof (extract_client_found front sid (hello_ciphers g ≫= push_u16) (client_extensions g name) g share
      (push_u16 g ++ push_u16 1 ++ push_u8 0) Hf Hi eq_refl (client_extensions_other g name Hg Hn) Hg Hs) as Hx.
    cbn zeta in Hx. fold ext in Hx. specialize (Hx ltac:(lia)). rewrite <- Hx. f_equal. unfold rest. by rewrite <- !app_assoc.
  - intros after. unfold rest. rewrite <- !app_assoc. by apply session_id_found.
Qed.

(** ** The server's hello *)

Definition server_extensions : list (Z * list Z) := [(0x2b, push_u16 0x0304)].
Definition server_share_body (share : list Z) : list Z := push_u16 0x001d ++ push_u16 32 ++ share.

Lemma server_extensions_other : Forall other_extension server_extensions.
Proof. apply Forall_singleton. unfold other_extension. cbn [fst snd push_u16 length]. unfold is_u16. lia. Qed.

Lemma server_share_found share pre end_ : length share = 32%nat → (length pre + 36 ≤ end_)%nat →
  server_share (pre ++ server_share_body share) (length pre) (length (server_share_body share)) end_ = Ok share.
Proof.
  intros Hs He. assert (length (server_share_body share) = 36)%nat as Hl by (unfold server_share_body; rewrite !length_app, Hs; done).
  unfold server_share. rewrite Hl. change (36 <? 4)%nat with false. cbn [negb].
  assert (rd16 (pre ++ server_share_body share) (length pre) = Ok 29%nat) as -> by (by apply (rd16_pushed pre 0x1d)).
  cbn [rbind Nat.eqb negb].
  assert (rd16 (pre ++ server_share_body share) (length pre + 2) = Ok 32%nat) as ->.
  { unfold server_share_body. rewrite (app_assoc pre). apply (rd16_pushed _ 32); [done|by rewrite length_app]. }
  cbn [rbind]. change (32 =? kPublicKeySize)%nat with true. cbn [andb]. unfold kPublicKeySize. rewrite (proj2 (Nat.leb_le _ _)) by lia.
  replace (pre ++ server_share_body share) with ((pre ++ push_u16 0x1d ++ push_u16 32) ++ share ++ [])
    by (unfold server_share_body; by rewrite <- !app_assoc, app_nil_r).
  apply subspan_middle; [rewrite !length_app; cbn; lia|done].
Qed.

Lemma extract_server_found front sid share : length front = 43%nat → (length sid ≤ 32)%nat → length share = 32%nat →
  let ext := (server_extensions ≫= ext_bytes) ++ ext_bytes (0x33, server_share_body share) in
  extract_server_key_share (front ++ push_u8 (Z.of_nat (length sid)) ++ sid ++ push_u16 0x1301 ++ push_u8 0 ++ push_u16 (Z.of_nat (length ext)) ++ ext) = Ok share.
Proof.
  intros Hf Hi Hs ext. set (pre := front ++ push_u8 (Z.of_nat (length sid)) ++ sid ++ push_u16 0x1301 ++ push_u8 0).
  assert (length pre = 47 + length sid)%nat as Hp by (unfold pre; rewrite !length_app, Hf; cbn [push_u16 push_u8 length]; lia).
  assert (length (server_share_body share) = 36)%nat as Hsb by (unfold server_share_body; rewrite !length_app, Hs; done).
  assert (length ext = 46)%nat as Hext by (unfold ext; rewrite length_app, (length_ext_bytes (_, _)); cbn [snd]; rewrite Hsb; done).
  set (record := front ++ _).
  assert (record = pre ++ push_u16 (Z.of_nat (length (ext ++ []))) ++ ext ++ []) as Er
    by (rewrite !app_nil_r; unfold record, pre; by rewrite <- !app_assoc).
  assert (length record = 95 + length sid)%nat as Hl by (rewrite Er, !app_nil_r, !length_app, Hp, Hext; cbn [push_u16 length]; lia).
  unfold extract_server_key_share, kTlsRecordHeaderSize, kTlsRandomSize. cbn [Nat.add]. rewrite (proj2 (Nat.ltb_ge _ _)) by lia.
  assert (rd8 record 43 = Ok (length sid)) as ->.
  { unfold record, push_u8 at 1. cbn [app]. rewrite u8_id by word_lia. rewrite rd8_at by done. by rewrite Nat2Z.id. }
  cbn [rbind Nat.add]. rewrite (proj2 (Nat.ltb_ge _ _)) by lia.
  replace (S (S (S _))) with (length pre) by lia.
  pose proof (extension_found (server_share record) server_extensions (server_share_body share) pre [] server_extensions_other
    ltac:(lia) ltac:(rewrite app_nil_r; fold ext; lia)) as Hfound. cbn zeta in Hfound. fold ext in Hfound. rewrite <- Er in Hfound. rewrite Hfound.
  set (pre2 := pre ++ push_u16 (Z.of_nat (length ext)) ++ (server_extensions ≫= ext_bytes) ++ push_u16 0x33 ++ push_u16 36).
  assert (length pre2 = length pre + 2 + length (server_extensions ≫= ext_bytes) + 4)%nat as Hp2
    by (unfold pre2; rewrite !length_app; cbn [push_u16 length]; lia). rewrite <- Hp2.
  assert (record = pre2 ++ server_share_body share) as ->.
  { assert (ext_bytes (0x33, server_share_body share) = push_u16 0x33 ++ push_u16 36 ++ server_share_body share) as Ee
      by (unfold ext_bytes; cbn [fst snd]; by rewrite Hsb).
    rewrite Er, !app_nil_r. unfold pre2, ext. rewrite Ee, <- !app_assoc. reflexivity. }
  apply server_share_found; [done|]. rewrite length_app, Hsb. lia.
Qed.

Lemma server_hello_spec sid share auth calls : let r := build_server_hello sid share auth calls in
  ∃ tail, r.2 = tls_record 3 handshake (2 :: tail) ∧ record_fits (2 :: tail) ∧
    (length share = 32%nat → length auth = 32%nat → extract_server_key_share r.2 = Ok share ∧
      (43 ≤ length r.2)%nat ∧ subspan (E:=CamouflageError) r.2 kRandomOffset kRealityAuthSize = Ok auth).
Proof.
  cbn zeta. unfold build_server_hello. destruct (given_or_random_spec kRealityAuthSize auth calls) as [Hr Hr'].
  destruct (given_or_random kRealityAuthSize auth calls) as [c1 random]. cbn [snd] in Hr, Hr'.
  assert (∃ c2 id, (if (1 <=? length sid)%nat && (length sid <=? 32)%nat then (c1, sid) else push_random c1 kTlsSessionIdSize) = (c2, id) ∧ (length id ≤ 32)%nat)
    as (c2 & id & -> & Hid).
  { destruct (_ && _) eqn:E; [apply andb_true_iff in E as [_ E%Nat.leb_le]; by exists c1, sid|].
    do 2 eexists. split; [done|]. pose proof (length_push_random c1 kTlsSessionIdSize) as Hp. unfold push_random in Hp. cbn [snd] in Hp.
    rewrite Hp. unfold kTlsSessionIdSize. lia. }
  destruct (given_or_random_spec kTlsRandomSize share c2) as [Hs Hs']. destruct (given_or_random kTlsRandomSize share c2) as [c3 ks].
  cbn [snd] in *. set (ext := (server_extensions ≫= ext_bytes) ++ ext_bytes (0x33, server_share_body ks)).
  assert (push_u16 0x002b ++ push_u16 2 ++ push_u16 0x0304 ++ push_u16 0x0033 ++ push_u16 (Z.of_nat (kTlsRandomSize + 4)) ++ push_u16 0x001d ++
    push_u16 (Z.of_nat kTlsRandomSize) ++ ks = ext) as ->.
  { unfold ext, ext_bytes at 2. cbn [fst snd]. unfold server_share_body at 1. rewrite !length_app, Hs. reflexivity. }
  assert (length ext = 46)%nat as Hext
    by (unfold ext; rewrite length_app, (length_ext_bytes (_, _)); cbn [snd]; unfold server_share_body; rewrite !length_app, Hs; done).
  rewrite u16_id by (rewrite Hext; word_lia).
  set (rest := push_u8 (Z.of_nat (length id)) ++ id ++ push_u16 0x1301 ++ push_u8 0 ++ push_u16 (Z.of_nat (length ext)) ++ ext).
  set (body := push_u16 0x0303 ++ random ++ rest).
  assert (length rest = 52 + length id)%nat as Hrest by (unfold rest; rewrite !length_app, Hext; cbn [push_u16 push_u8 length]; lia).
  assert (length body = 86 + length id)%nat as Hbody
    by (unfold body; rewrite !length_app, Hr, Hrest; cbn [push_u16 length]; unfold kRealityAuthSize; lia).
  change 771 with (0x300 + 3). rewrite framed_record by (word_lia || lia). exists (drop 1 (message 2 body)). split; [done|].
  unfold record_fits, kTlsMaxRecordPayload. cbn [message drop length]. split; [lia|]. intros Hsh Hau.
  specialize (Hs' Hsh). specialize (Hr' Hau). subst ks random.
  rewrite (hello_split 3 2 body auth rest) by done. set (front := hello_front 3 2 body auth).
  assert (length front = 43)%nat as Hf by (by apply length_hello_front). split; [by apply extract_server_found|]. split; [rewrite length_app; lia|].
  unfold front, hello_front. cbn [push_u16 app]. by apply (subspan_middle (take 11 front)).
Qed.

(** ** The simulated certificates *)

Lemma flight_spec bases : ∀ calls out, Forall (λ b, b ≤ Z.to_nat 10000)%nat bases →
  ∃ calls' bodies, flight_loop bases calls out = Ok (calls', out ++ (bodies ≫= tls_record 3 application_data)) ∧
    length bodies = length bases ∧ Forall record_fits bodies.
Proof.
  induction bases as [|base bases IH]; intros calls out Hb; cbn [flight_loop].
  { exists calls, []. rewrite app_nil_r. done. }
  apply Forall_cons in Hb as [Hbase Hb]. unfold flight_record. rewrite record_header_spec. cbn [rbind].
  set (jitter := match random calls 1 with Some _ => _ | None => _ end).
  assert (jitter < 97)%nat as Hj by (unfold jitter; case_match; [apply Nat.mod_upper_bound; lia|lia]).
  pose proof (length_push_random (S calls) (base + jitter)) as Hl. destruct (push_random (S calls) (base + jitter)) as [c body]. cbn [fst snd] in *.
  rewrite tls_record_header by done. cbn [rbind fst snd].
  destruct (IH c (out ++ tls_record 3 application_data body) Hb) as (calls' & bodies & -> & El & Hf).
  exists calls', (body :: bodies). rewrite bind_cons, app_assoc. split; [done|]. split; [by cbn; rewrite El|].
  constructor; [|done]. unfold record_fits, kTlsMaxRecordPayload. lia.
Qed.

Lemma certificate_flight_spec calls : ∃ calls' bodies,
  build_certificate_flight calls = Ok (calls', bodies ≫= tls_record 3 application_data) ∧
  length bodies = kCertificateFlightRecords ∧ Forall record_fits bodies.
Proof. apply (flight_spec kFlightSizes calls []). repeat (apply Forall_cons; split; [lia|]). constructor. Qed.

End hellos.

Lemma change_cipher_record : build_change_cipher_spec = tls_record 3 change_cipher_spec [1].
Proof. done. Qed.

Lemma looks_like_hello_spec bytes : ∃ b, looks_like_client_hello bytes = Ok b.
Proof.
  unfold looks_like_client_hello. destruct (Nat.ltb_spec (length bytes) (kTlsRecordHeaderSize + 4)) as [|H]; [eauto|].
  unfold kTlsRecordHeaderSize in *.
  destruct (rd_in (E:=CamouflageError) bytes 0 ltac:(lia)) as (x & -> & _).
  destruct (rd_in (E:=CamouflageError) bytes 1 ltac:(lia)) as (y & -> & _).
  destruct (rd_in (E:=CamouflageError) bytes 5 ltac:(lia)) as (z & -> & _). cbn [rbind]. repeat case_match; eauto.
Qed.

Lemma looks_like_hello_found minor tail rest : (3 ≤ length tail)%nat →
  looks_like_client_hello (tls_record minor handshake (1 :: tail) ++ rest) = Ok true.
Proof.
  intros Ht. unfold looks_like_client_hello. rewrite (proj2 (Nat.ltb_ge _ _)); [done|]. rewrite length_app, length_tls_record. cbn. lia.
Qed.
