(* ===== verification/CamouflageFlow.v ===== *)
(** The framer of [Camouflage] on a stream: it never leaves its buffer and
    every call comes to an end; what a complete record does, however the bytes
    of the stream are cut; a whole session between a client and a server; and
    what a client has seen when it hands out a payload. *)

From Stdlib Require Import String.
From S2P Require Import Prelude Packet Nonce Handshake Blake2s Crypto Noise Cookie Obfuscation Reality Camouflage CamouflageRecords.

#[local] Opaque hmac_blake2s derive_key kTlsMaxRecordPayload.

Definition pending (f : CamouflageFramer) : list Z := drop (consumed_ (inbox f)) (inbox_ (inbox f)).
Definition inbox_ok (f : CamouflageFramer) : Prop := (consumed_ (inbox f) ≤ length (inbox_ (inbox f)))%nat.

(** The framer without its receive buffer. *)
Definition bare (f : CamouflageFramer) : CamouflageFramer := with_inbox (mkInbox [] 0 []) f.

Lemma parse_view bytes : match parse_record bytes with
  | Ok r => (5 ≤ rec_consumed r ≤ length bytes)%nat
  | Fail _ => True
  | Ub => False
  end.
Proof.
  unfold parse_record, guard, kTlsRecordHeaderSize. destruct (Nat.ltb_spec (length bytes) 5); [done|].
  destruct (rd_in (E:=CamouflageError) bytes 0 ltac:(lia)) as (x & -> & _).
  destruct (rd_in (E:=CamouflageError) bytes 1 ltac:(lia)) as (y & -> & _).
  destruct (rd_in (E:=CamouflageError) bytes 3 ltac:(lia)) as (z & -> & _).
  destruct (rd_in (E:=CamouflageError) bytes 4 ltac:(lia)) as (w & -> & _). cbn [rbind].
  set (size := Z.to_nat _). repeat match goal with |- context [if ?b then Fail _ else _] => destruct b eqn:?; [done|] end.
  match goal with H : (length bytes <? _)%nat = false |- _ => apply Nat.ltb_ge in H; rewrite subspan_ok by lia; cbn; lia end.
Qed.

(** ** Effects of the parts of a turn *)

Definition keeps_inbox (f f' : CamouflageFramer) : Prop := inbox f' = inbox f.
#[local] Instance keeps_inbox_preorder : PreOrder keeps_inbox.
Proof. split; [done|]. intros a b c H1 H2. unfold keeps_inbox in *. congruence. Qed.

Section turns.
Context {dh : Dh} {ks : Keystream} {rng : Rng} {rng_laws : RngLaws}.

(** The state after [m] keeps the receive buffer and [m] is defined. *)
Definition quiet {A} (m : effect CamouflageFramer CamouflageError A) (f : CamouflageFramer) : Prop :=
  keeps_inbox f (m f).1 ∧ no_ub (m f).2.

Lemma quiet_bind {A B} (m : effect CamouflageFramer CamouflageError A) (k : A → effect CamouflageFramer CamouflageError B) f :
  quiet m f → (∀ a f', m f = (f', Ok a) → quiet (k a) f') → quiet (sbind m k) f.
Proof.
  intros [H1 H2] Hk. unfold quiet, sbind in *. destruct (m f) as [f' [a|e|]] eqn:E; cbn in *; [|done..].
  destruct (Hk a f' eq_refl) as [H3 H4]. split; [by etransitivity|done].
Qed.
Lemma quiet_state {B} (k : CamouflageFramer → effect CamouflageFramer CamouflageError B) f : quiet (k f) f → quiet (sbind state k) f.
Proof. done. Qed.
Lemma quiet_ret {A} (a : A) f : quiet (sret a) f.
Proof. done. Qed.
Lemma quiet_lift {A B} (r : res CamouflageError A) (k : A → effect CamouflageFramer CamouflageError B) f :
  no_ub r → (∀ a, r = Ok a → quiet (k a) f) → quiet (sbind (lift r) k) f.
Proof. intros Hr Hk. apply quiet_bind; [done|]. intros a f' [= <- E]. by apply Hk. Qed.
Lemma quiet_modify (g : CamouflageFramer → CamouflageFramer) f : inbox (g f) = inbox f → quiet (modify g) f.
Proof. done. Qed.
Lemma quiet_violation b f : quiet (violation b) f.
Proof. by destruct b. Qed.

Lemma shares_defined r : share_or_none r → no_ub r.
Proof. by intros (l & -> & _). Qed.

Lemma check_server_quiet record view f : (rec_consumed record ≤ length view)%nat → quiet (check_server record view) f.
Proof.
  intros Hc. unfold check_server. apply quiet_state. destruct (_ && _); [|apply quiet_ret].
  apply quiet_lift; [by rewrite span_first_ok|]. intros frame Ef. apply quiet_bind; [apply quiet_violation|]. intros _ f1 _.
  apply quiet_lift; [apply shares_defined, extract_server_in_bounds|]. intros share _.
  apply quiet_bind; [|intros; apply quiet_violation].
  destruct (_ && _) eqn:E; [|apply quiet_ret]. apply andb_true_iff in E as [E%Nat.leb_le _].
  apply quiet_lift; [by rewrite subspan_ok|]. intros claimed _. apply quiet_bind; [by apply quiet_modify|]. intros; apply quiet_ret.
Qed.

Lemma hello_session_id_defined view : ∃ sid, hello_session_id view = Ok sid.
Proof.
  unfold hello_session_id. destruct (Nat.ltb_spec kSessionIdLenOffset (length view)) as [Hl|]; [|eauto].
  destruct (rd8_in view kSessionIdLenOffset Hl) as [n ->]. cbn [rbind]. destruct (_ && _) eqn:E; [|eauto].
  apply andb_true_iff in E as [_ E%Nat.leb_le]. rewrite subspan_ok by done. eauto.
Qed.

Lemma judge_hello_quiet now record view sid f : (rec_consumed record ≤ length view)%nat → quiet (judge_hello now record view sid) f.
Proof.
  intros Hc. unfold judge_hello. apply quiet_state. destruct (reality_enabled_ _); [|apply quiet_ret].
  apply quiet_lift; [by rewrite span_first_ok|]. intros frame _. apply quiet_lift; [apply shares_defined, extract_client_in_bounds|].
  intros share _. apply quiet_bind; [destruct (_ && _); by apply quiet_modify|]. intros _ f1 _. apply quiet_state.
  destruct (reality_rejected_ _); [by apply quiet_modify|apply quiet_ret].
Qed.

Lemma server_proof_quiet record view f : (rec_consumed record ≤ length view)%nat → quiet (server_proof record view) f.
Proof.
  intros Hc. unfold server_proof. apply quiet_state. destruct (reality_authenticated_ _); [|apply quiet_ret].
  apply quiet_lift; [by rewrite span_first_ok|]. intros frame _. apply quiet_lift; [apply shares_defined, extract_client_in_bounds|].
  intros share _. apply quiet_bind; [by apply quiet_modify|]. intros _ f1 _. repeat case_match; apply quiet_ret.
Qed.

Lemma answer_hello_quiet now record view f : (rec_consumed record ≤ length view)%nat → quiet (answer_hello now record view) f.
Proof.
  intros Hc. unfold answer_hello. apply quiet_state. destruct (looks_like_hello_spec view) as [b Eb].
  apply quiet_lift; [by rewrite Eb|]. intros hello _. destruct (_ && _); [|apply quiet_ret].
  apply quiet_lift; [destruct (hello_session_id_defined view) as [sid ->]; done|]. intros sid _.
  apply quiet_bind; [by apply judge_hello_quiet|]. intros _ f1 _. apply quiet_state. apply quiet_bind; [|intros; by apply quiet_modify].
  destruct (negb _); [|apply quiet_ret]. apply quiet_bind; [by apply server_proof_quiet|]. intros proof f2 _. apply quiet_state.
  destruct (build_server_hello _ _ _ _) as [calls hello']. apply quiet_lift; [|intros; by apply quiet_modify].
  destruct (certificate_flight_spec calls) as (c & bodies & -> & _). done.
Qed.

(** ** A turn *)

Lemma pending_consume f record : inbox_ok f → (rec_consumed record ≤ length (pending f))%nat →
  inbox_ok (consume_record record f) ∧ pending (consume_record record f) = drop (rec_consumed record) (pending f).
Proof.
  unfold inbox_ok, pending. cbn. intros Hi Hc. rewrite length_drop in Hc. split; [lia|]. by rewrite drop_drop.
Qed.

Lemma compact_pending i : let i' := compact i in
  (consumed_ i ≤ length (inbox_ i) → consumed_ i' ≤ length (inbox_ i'))%nat ∧ drop (consumed_ i') (inbox_ i') = drop (consumed_ i) (inbox_ i).
Proof. unfold compact. destruct (Nat.eqb_spec (consumed_ i) 0); [done|]. cbn. split; [lia|done]. Qed.

(** The receive buffer after a payload was taken. *)
Definition settle (record : TlsRecordView) (i : Inbox) : Inbox :=
  let i := mkInbox (inbox_ i) (consumed_ i + rec_consumed record) (rec_payload record) in
  if (Z.to_nat 65536 <? consumed_ i)%nat || (length (inbox_ i) <? consumed_ i * 2)%nat then compact i else i.

(** What a turn does with a record the checks let through. *)
Definition handle (now : Z) (record : TlsRecordView) (view : list Z) (f : CamouflageFramer)
    : CamouflageFramer * res CamouflageError (option (list Z)) :=
  match rec_type record with
  | handshake =>
      match answer_hello now record view (arm_flight view f) with
      | (f, Ok _) => (consume_record record (handshaken f), Ok None)
      | (f, Fail e) => (f, Fail e)
      | (f, Ub) => (f, Ub)
      end
  | application_data =>
      if (0 <? flight_remaining_ f)%nat
      then (consume_record record (with_flight (flight_armed_ f) (flight_remaining_ f - 1) f), Ok None)
      else (handshaken (with_inbox (settle record (inbox f)) f), Ok (Some (rec_payload record)))
  | _ => (consume_record record (handshaken f), Ok None)
  end.

Lemma turn_unfold now f : record_turn now f =
  match parse_record (pending f) with
  | Ok record =>
      match check_server record (pending f) f with
      | (f1, Ok _) => handle now record (pending f) f1
      | (f1, Fail e) => (f1, Fail e)
      | (f1, Ub) => (f1, Ub)
      end
  | Fail CamouflageError.need_more => (with_inbox (compact (inbox f)) f, Fail CamouflageError.need_more)
  | Fail e => (violate f, Fail e)
  | Ub => (f, Ub)
  end.
Proof.
  unfold record_turn. unfold sbind at 1. cbn [state gets]. cbv beta zeta. fold (pending f).
  pose proof (parse_view (pending f)) as Hp. destruct (parse_record (pending f)) as [record|[]|]; [|done..].
  unfold sbind at 1. destruct (check_server record (pending f) f) as [f1 [[]|e|]]; [|done..]. unfold handle. unfold sbind, modify, sret, state, gets.
  case_bool_decide as E1; [rewrite E1|case_bool_decide as E2; [rewrite E2|destruct (rec_type record); [done|done|by destruct E1|by destruct E2]]]; cbn [negb].
  - by destruct (answer_hello now record (pending f) (arm_flight (pending f) f1)) as [f3 [[]|e|]].
  - by destruct (0 <? flight_remaining_ f1)%nat.
Qed.

(** A turn is defined; it shortens what is pending unless it fails. *)
Definition turn_ok (f : CamouflageFramer) (r : CamouflageFramer * res CamouflageError (option (list Z))) : Prop :=
  inbox_ok r.1 ∧ no_ub r.2 ∧ ∀ o, r.2 = Ok o → (length (pending r.1) + 5 ≤ length (pending f))%nat.

Lemma turn_fails f g e : inbox_ok g → turn_ok f (g, Fail e).
Proof. intros Hg. split; [done|]. split; [done|]. intros o [=]. Qed.

Lemma turn_consumes f g record o : inbox_ok f → (5 ≤ rec_consumed record ≤ length (pending f))%nat → inbox g = inbox f →
  turn_ok f (consume_record record g, Ok o).
Proof.
  intros Hi Hc Hg. assert (pending g = pending f) as Ep by (unfold pending; by rewrite Hg).
  destruct (pending_consume g record) as [H1 H2]; [unfold inbox_ok; by rewrite Hg|rewrite Ep; lia|].
  split; [exact H1|]. split; [done|]. intros o' _. cbn [fst]. rewrite H2, Ep, length_drop. lia.
Qed.

Lemma settle_pending record i : let i' := settle record i in
  (consumed_ i + rec_consumed record ≤ length (inbox_ i) → consumed_ i' ≤ length (inbox_ i'))%nat ∧
  drop (consumed_ i') (inbox_ i') = drop (rec_consumed record) (drop (consumed_ i) (inbox_ i)).
Proof.
  unfold settle. cbv zeta. set (j := mkInbox _ _ _). destruct (compact_pending j) as [H1 H2]. rewrite drop_drop.
  destruct (_ || _); [split; [exact H1|exact H2]|done].
Qed.

Lemma turn_total now f : inbox_ok f → turn_ok f (record_turn now f).
Proof.
  intros Hi. rewrite turn_unfold. pose proof (parse_view (pending f)) as Hp.
  destruct (parse_record (pending f)) as [record|[]|]; [|apply turn_fails; try exact Hi..|done].
  2: { apply compact_pending, Hi. }
  destruct (check_server_quiet record (pending f) f ltac:(lia)) as [Hk Hn].
  destruct (check_server record (pending f) f) as [f1 [[]|e|]]; cbn [fst snd] in Hk, Hn; [|apply turn_fails; unfold inbox_ok; by rewrite Hk|done].
  unfold handle. destruct (rec_type record); try (by apply turn_consumes).
  - set (f2 := arm_flight (pending f) f1). assert (inbox f2 = inbox f) as E2 by (unfold f2, arm_flight; case_match; exact Hk).
    destruct (answer_hello_quiet now record (pending f) f2 ltac:(lia)) as [Hk3 Hn3].
    destruct (answer_hello now record (pending f) f2) as [f3 [[]|e|]]; cbn [fst snd] in Hk3, Hn3; [|apply turn_fails; unfold inbox_ok; by rewrite Hk3, E2|done].
    apply turn_consumes; [done|lia|]. exact (eq_trans Hk3 E2).
  - destruct (0 <? flight_remaining_ f1)%nat; [by apply turn_consumes|]. destruct (settle_pending record (inbox f1)) as [H1 H2].
    unfold pending in Hp. rewrite length_drop, <- Hk in Hp. unfold inbox_ok in Hi. rewrite <- Hk in Hi.
    split; [apply H1; lia|]. split; [done|]. intros o _. unfold pending. cbn [fst handshaken with_inbox inbox]. rewrite H2, Hk, length_drop.
    rewrite Hk in Hp. rewrite length_drop. lia.
Qed.

(** ** [next_payload] *)

Lemma next_loop_S fuel now f : next_loop (S fuel) now f =
  match record_turn now f with
  | (f', Ok (Some payload)) => (f', Ok payload)
  | (f', Ok None) => next_loop fuel now f'
  | (f', Fail e) => (f', Fail e)
  | (f', Ub) => (f', Ub)
  end.
Proof. cbn [next_loop]. unfold sbind. by destruct (record_turn now f) as [f' [[payload|]|e|]]. Qed.

(** More fuel than bytes pending changes nothing. *)
Lemma next_loop_fuel now n : ∀ m f, inbox_ok f → (length (pending f) < n)%nat → (length (pending f) < m)%nat →
  next_loop n now f = next_loop m now f.
Proof.
  induction n as [|n IH]; intros [|m] f Hi Hn Hm; [lia..|]. rewrite !next_loop_S. destruct (turn_total now f Hi) as (Hi' & _ & Hlen).
  destruct (record_turn now f) as [f' [[payload|]|e|]]; cbn [fst snd] in *; try done. specialize (Hlen None eq_refl). apply IH; [done|lia..].
Qed.

Lemma next_loop_total now n : ∀ f, inbox_ok f → (length (pending f) < n)%nat →
  let r := next_loop n now f in inbox_ok r.1 ∧ no_ub r.2 ∧ ∀ p, r.2 = Ok p → (length (pending r.1) + 5 ≤ length (pending f))%nat.
Proof.
  induction n as [|n IH]; intros f Hi Hn; [lia|]. cbn zeta. rewrite next_loop_S. destruct (turn_total now f Hi) as (Hi' & Hu & Hlen).
  destruct (record_turn now f) as [f' [[payload|]|e|]]; cbn [fst snd] in *; try done.
  - split; [done|]. split; [done|]. intros p _. by apply (Hlen (Some payload)).
  - specialize (Hlen None eq_refl). destruct (IH f' Hi' ltac:(lia)) as (H1 & H2 & H3). split; [done|]. split; [done|].
    intros p Hp. specialize (H3 p Hp). lia.
Qed.

Lemma length_pending f : (length (pending f) ≤ length (inbox_ (inbox f)))%nat.
Proof. unfold pending. rewrite length_drop. lia. Qed.

Lemma next_unfold now f : next_payload now f =
  if violated_ f then (f, Fail CamouflageError.malformed) else next_loop (S (length (inbox_ (inbox f)))) now f.
Proof. unfold next_payload, sbind, state, gets, check. by destruct (violated_ f). Qed.

(** Every call returns, and the buffer stays in order. *)
Lemma next_payload_total now f : inbox_ok f → let r := next_payload now f in
  inbox_ok r.1 ∧ no_ub r.2 ∧ ∀ p, r.2 = Ok p → (length (pending r.1) + 5 ≤ length (pending f))%nat.
Proof.
  intros Hi. cbn zeta. rewrite next_unfold. destruct (violated_ f).
  - cbn [fst snd]. split; [exact Hi|]. split; [done|]. intros p [=].
  - apply next_loop_total; [done|]. pose proof (length_pending f). lia.
Qed.

Lemma next_payload_loop now f n : violated_ f = false → inbox_ok f → (length (pending f) < n)%nat → next_payload now f = next_loop n now f.
Proof.
  intros Hv Hi Hn. rewrite next_unfold, Hv.
  apply next_loop_fuel; [done| |done]. pose proof (length_pending f). lia.
Qed.

Lemma next_payload_turn now f : violated_ f = false → inbox_ok f → next_payload now f =
  match record_turn now f with
  | (f', Ok (Some payload)) => (f', Ok payload)
  | (f', Ok None) => next_loop (S (length (pending f'))) now f'
  | (f', Fail e) => (f', Fail e)
  | (f', Ub) => (f', Ub)
  end.
Proof.
  intros Hv Hi. rewrite (next_payload_loop now f (S (S (length (pending f))))) by (done || lia). rewrite next_loop_S.
  destruct (turn_total now f Hi) as (Hi' & _ & Hlen). destruct (record_turn now f) as [f' [[payload|]|e|]]; cbn [fst snd] in *; try done.
  specialize (Hlen None eq_refl). apply next_loop_fuel; [done|lia..].
Qed.

(** ** A stream *)

(** The caller's loop: payloads until there is none. *)
Fixpoint drain (fuel : nat) (now : Z) (f : CamouflageFramer) : CamouflageFramer * list (list Z) :=
  match fuel with
  | O => (f, [])
  | S fuel =>
      match next_payload now f with
      | (f, Ok payload) => let '(f, payloads) := drain fuel now f in (f, payload :: payloads)
      | (f, _) => (f, [])
      end
  end.
(** The bytes arrive in chunks, each at its time. *)
Fixpoint pump (chunks : list (Z * list Z)) (f : CamouflageFramer) : CamouflageFramer * list (list Z) :=
  match chunks with
  | [] => (f, [])
  | (now, chunk) :: chunks =>
      let f := feed chunk f in
      let '(f, payloads) := drain (S (length (inbox_ (inbox f)))) now f in
      let '(f, more) := pump chunks f in
      (f, payloads ++ more)
  end.

(** A condition on the framer that its receive buffer does not affect. *)
Record condition (P : CamouflageFramer → Prop) : Prop := {
  co_inbox : ∀ i f, P f → P (with_inbox i f);
  co_sound : ∀ f, P f → violated_ f = false;
}.

(** With [P] a complete record leads to [Q] and yields [o]. *)
Definition absorbs (T : Z → Prop) (P : CamouflageFramer → Prop) (record : list Z) (Q : CamouflageFramer → Prop) (o : option (list Z)) : Prop :=
  ∀ now f rest, T now → P f → inbox_ok f → pending f = record ++ rest →
  ∃ f', record_turn now f = (f', Ok o) ∧ Q f' ∧ inbox_ok f' ∧ pending f' = rest.

Inductive script (T : Z → Prop) : (CamouflageFramer → Prop) → list (list Z) → list (list Z) → (CamouflageFramer → Prop) → Prop :=
| script_nil P : condition P → script T P [] [] P
| script_cons P minor type body o Q rs outs R : condition P → record_fits body → absorbs T P (tls_record minor type body) Q o →
    script T Q rs outs R → script T P (tls_record minor type body :: rs) (option_list o ++ outs) R.

Lemma script_condition T P rs outs R : script T P rs outs R → condition P.
Proof. by destruct 1. Qed.

Lemma script_app T P rs outs Q rs' outs' R : script T P rs outs Q → script T Q rs' outs' R → script T P (rs ++ rs') (outs ++ outs') R.
Proof. induction 1; intros H'; [done|]. cbn [app]. rewrite <- app_assoc. econstructor; eauto. Qed.

(** The bytes of the buffer end inside the next record. *)
Definition inside (q : list Z) (rs : list (list Z)) : Prop :=
  match rs with [] => q = [] | r :: _ => (length q < length r)%nat end.

Lemma drain_stops P now f fuel : condition P → P f → inbox_ok f → parse_record (pending f) = Fail CamouflageError.need_more → (0 < fuel)%nat →
  ∃ f', drain fuel now f = (f', []) ∧ P f' ∧ inbox_ok f' ∧ pending f' = pending f.
Proof.
  intros Hc HP Hi Hp Hf. destruct fuel as [|fuel]; [lia|]. cbn [drain]. rewrite next_payload_turn by (done || by eapply co_sound).
  rewrite turn_unfold, Hp. eexists. split; [done|]. split; [by apply co_inbox|]. destruct (compact_pending (inbox f)) as [H1 H2].
  split; [by apply H1|exact H2].
Qed.

Lemma prefix_of_front (b suffix r rest : list Z) : b ++ suffix = r ++ rest → (length b < length r)%nat → b `prefix_of` r.
Proof.
  intros E Hl. exists (drop (length b) r). rewrite <- (take_drop (length b) r) at 1. f_equal.
  apply (f_equal (take (length b))) in E. rewrite take_app_length, take_app_le in E by lia. done.
Qed.

Lemma drain_script T P rs outs R : script T P rs outs R → ∀ now f b suffix fuel, T now → P f → inbox_ok f → pending f = b →
  b ++ suffix = concat rs → (length b < fuel)%nat →
  ∃ f' P2 rs2 outs1 outs2, drain fuel now f = (f', outs1) ∧ outs = outs1 ++ outs2 ∧ script T P2 rs2 outs2 R ∧ P2 f' ∧ inbox_ok f' ∧
    pending f' ++ suffix = concat rs2 ∧ inside (pending f') rs2.
Proof.
  induction 1 as [P Hc|P minor type body o Q rs outs R Hc Hfit Hab Hs IH]; intros now f b suffix fuel HT HP Hi Eb Ecat Hfuel.
  - cbn in Ecat. destruct (app_eq_nil _ _ Ecat) as [-> ->].
    destruct (drain_stops P now f fuel Hc HP Hi) as (f' & Ed & HP' & Hi' & Ep); [by rewrite Eb|lia|].
    exists f', P, [], [], []. rewrite Ep, Eb. split; [done|]. split; [done|]. split; [by constructor|done].
  - cbn [concat] in Ecat. set (r := tls_record minor type body) in *.
    destruct (Nat.lt_ge_cases (length b) (length r)) as [Hlt|Hge].
    + pose proof (prefix_of_front _ _ _ _ Ecat Hlt) as Hpre.
      destruct (drain_stops P now f fuel Hc HP Hi) as (f' & Ed & HP' & Hi' & Ep); [rewrite Eb; by eapply parse_partial|lia|].
      exists f', P, (r :: rs), [], (option_list o ++ outs). rewrite Ep, Eb. split; [done|]. split; [done|]. split; [by econstructor|done].
    + assert (b = r ++ drop (length r) b) as Eb'.
      { rewrite <- (take_drop (length r) b) at 1. f_equal. apply (f_equal (take (length r))) in Ecat.
        rewrite take_app_le, take_app_length in Ecat by lia. done. }
      set (b' := drop (length r) b) in *. assert (b' ++ suffix = concat rs) as Ecat'.
      { rewrite Eb', <- app_assoc in Ecat. by apply app_inv_head in Ecat. }
      destruct (Hab now f b' HT HP Hi) as (f1 & Et & HQ & Hi1 & Ep1); [by rewrite Eb|].
      assert (length b = length r + length b')%nat as Hlb by (rewrite Eb' at 1; apply length_app).
      assert (length r = 5 + length body)%nat as Hr by apply length_tls_record.
      destruct fuel as [|fuel]; [lia|].
      pose proof (next_payload_turn now f (co_sound _ Hc _ HP) Hi) as Hnext. rewrite Et in Hnext.
      destruct o as [payload|].
      * destruct (IH now f1 b' suffix fuel HT HQ Hi1 Ep1 Ecat' ltac:(lia)) as (f' & P2 & rs2 & outs1 & outs2 & Ed & -> & Hrest).
        exists f', P2, rs2, (payload :: outs1), outs2. cbn [drain]. rewrite Hnext, Ed. done.
      * destruct (IH now f1 b' suffix (S fuel) HT HQ Hi1 Ep1 Ecat' ltac:(lia)) as (f' & P2 & rs2 & outs1 & outs2 & Ed & -> & Hrest).
        exists f', P2, rs2, outs1, outs2. split; [|done]. rewrite <- Ed. cbn [drain].
        assert (violated_ f1 = false) as Hv1 by (eapply co_sound; [by eapply script_condition|done]).
        rewrite Hnext, (next_payload_loop now f1 (S (length (pending f1)))) by (done || lia). done.
Qed.

(** However the stream is cut, its records are absorbed in order. *)
Lemma pump_script T chunks : ∀ P rs outs R f, script T P rs outs R → Forall (λ c, T c.1) chunks → P f → inbox_ok f →
  pending f ++ concat (snd <$> chunks) = concat rs → inside (pending f) rs →
  ∃ f', pump chunks f = (f', outs) ∧ R f' ∧ inbox_ok f' ∧ pending f' = [].
Proof.
  induction chunks as [|[now chunk] chunks IH]; intros P rs outs R f Hs HT HP Hi Ecat Hin.
  - cbn [pump fmap list_fmap concat] in *. rewrite app_nil_r in Ecat. destruct Hs as [P Hc|P minor type body o Q rs outs R Hc Hfit Hab Hs].
    + by exists f.
    + exfalso. cbn [inside concat] in *. rewrite Ecat, length_app in Hin. lia.
  - apply Forall_cons in HT as [Hnow HT]. cbn [fst] in Hnow. cbn [pump fmap list_fmap concat snd] in *.
    pose proof (script_condition _ _ _ _ _ Hs) as Hc.
    assert (pending (feed chunk f) = pending f ++ chunk) as Ep by (unfold pending, feed; cbn; by rewrite drop_app_le).
    assert (inbox_ok (feed chunk f)) as Hi1 by (unfold inbox_ok in *; cbn; rewrite length_app; lia).
    destruct (drain_script _ _ _ _ _ Hs now (feed chunk f) (pending f ++ chunk) (concat (snd <$> chunks)) (S (length (inbox_ (inbox (feed chunk f))))) Hnow)
      as (f1 & P2 & rs2 & outs1 & outs2 & -> & -> & Hs2 & HP2 & Hi2 & Ecat2 & Hin2); [exact (co_inbox _ Hc _ f HP)|done|done|by rewrite <- app_assoc| |].
    { pose proof (length_pending (feed chunk f)). rewrite Ep in *. lia. }
    destruct (IH P2 rs2 outs2 R f1 Hs2 HT HP2 Hi2 Ecat2 Hin2) as (f' & -> & HR). by exists f'.
Qed.

(** ** What the records of a session do *)

(** Everything of a framer that matters after its start. *)
Record at_ (role : Role) (r : Reality) (reply : list Z) (sent armed : bool) (remaining : nat) (f : CamouflageFramer) : Prop := {
  at_role : role_ f = role;
  at_reality : reality f = r;
  at_reply : pending_reply_ f = reply;
  at_sent : sent_reply_ f = sent;
  at_armed : flight_armed_ f = armed;
  at_remaining : flight_remaining_ f = remaining;
  at_sound : violated_ f = false;
}.

Lemma at_condition role r reply sent armed remaining : condition (at_ role r reply sent armed remaining).
Proof. split; [by intros i f []|by intros f []]. Qed.

(** [check_server] lets records through. *)
Definition passing (role : Role) (r : Reality) : Prop :=
  bool_decide (role = client) && reality_enabled_ r && negb (reality_server_verified_ r) = false.

Lemma check_passes record view f : passing (role_ f) (reality f) → check_server record view f = (f, Ok tt).
Proof. unfold passing, check_server, sbind, state, gets. by intros ->. Qed.

(** The front of a turn on a complete record. *)
Lemma turn_record now f minor type body rest : inbox_ok f → record_fits body → pending f = tls_record minor type body ++ rest →
  passing (role_ f) (reality f) →
  let record := mkRecordView type body (5 + length body) in
  record_turn now f = handle now record (tls_record minor type body ++ rest) f.
Proof.
  intros Hi Hf Ep Hp record. rewrite turn_unfold, Ep, parse_tls_record by done. fold record. by rewrite check_passes.
Qed.

Lemma consumed_record f g minor type body rest : inbox_ok f → pending f = tls_record minor type body ++ rest → inbox g = inbox f →
  let record := mkRecordView type body (5 + length body) in
  inbox_ok (consume_record record g) ∧ pending (consume_record record g) = rest.
Proof.
  intros Hi Ep Hg record. assert (pending g = pending f) as Eg by (unfold pending; by rewrite Hg).
  destruct (pending_consume g record) as [H1 H2].
  - unfold inbox_ok. by rewrite Hg.
  - rewrite Eg, Ep, length_app, length_tls_record. cbn. lia.
  - split; [done|]. rewrite H2, Eg, Ep. apply drop_app_length'. by rewrite length_tls_record.
Qed.

Lemma absorb_payload T role r reply sent armed minor body : passing role r → record_fits body →
  absorbs T (at_ role r reply sent armed 0) (tls_record minor application_data body) (at_ role r reply sent armed 0) (Some body).
Proof.
  intros Hp Hf now f rest _ [Hr Hre ? ? ? Hrem ?] Hi Ep. rewrite (turn_record now f minor application_data body rest) by (done || by rewrite Hr, Hre).
  unfold handle. cbn [rec_type rec_payload]. rewrite Hrem. change (0 <? 0)%nat with false. eexists. split; [done|].
  split; [by split|]. set (record := mkRecordView _ _ _). destruct (settle_pending record (inbox f)) as [H1 H2].
  assert (5 + length body ≤ length (pending f))%nat as Hl by (rewrite Ep, length_app, length_tls_record; lia).
  unfold pending in Hl. rewrite length_drop in Hl. unfold inbox_ok in Hi. split; [unfold inbox_ok; cbn; apply H1; cbn; lia|].
  unfold pending at 1. cbn [handshaken with_inbox inbox]. rewrite H2. fold (pending f). rewrite Ep. apply drop_app_length'.
  by rewrite length_tls_record.
Qed.

Lemma absorb_flight T role r reply sent armed n minor body : passing role r → record_fits body →
  absorbs T (at_ role r reply sent armed (S n)) (tls_record minor application_data body) (at_ role r reply sent armed n) None.
Proof.
  intros Hp Hf now f rest _ [Hr Hre ? ? ? Hrem ?] Hi Ep. rewrite (turn_record now f minor application_data body rest) by (done || by rewrite Hr, Hre).
  unfold handle. cbn [rec_type]. rewrite Hrem. change (0 <? S n)%nat with true. eexists. split; [done|].
  split; [split; try done; cbn; lia|]. by apply (consumed_record f _ minor application_data).
Qed.

Lemma absorb_cipher_spec T role r reply sent armed n minor body : passing role r → record_fits body →
  absorbs T (at_ role r reply sent armed n) (tls_record minor change_cipher_spec body) (at_ role r reply sent armed n) None.
Proof.
  intros Hp Hf now f rest _ [Hr Hre ? ? ? Hrem ?] Hi Ep. rewrite (turn_record now f minor change_cipher_spec body rest) by (done || by rewrite Hr, Hre).
  unfold handle. cbn [rec_type]. eexists. split; [done|]. split; [by split|]. by apply (consumed_record f _ minor change_cipher_spec).
Qed.

Lemma concat_records (g : list Z → list Z) (bodies : list (list Z)) : concat (g <$> bodies) = bodies ≫= g.
Proof. induction bodies as [|b bodies IH]; [done|]. rewrite bind_cons, <- IH. done. Qed.

Lemma script_payloads T role r reply sent armed bodies : passing role r → Forall record_fits bodies →
  script T (at_ role r reply sent armed 0) (tls_record 3 application_data <$> bodies) bodies (at_ role r reply sent armed 0).
Proof.
  intros Hp. induction 1 as [|body bodies Hb Hbs IH]; [constructor; apply at_condition|]. cbn [fmap list_fmap].
  apply (script_cons T _ 3 application_data body (Some body) (at_ role r reply sent armed 0)); [apply at_condition|done|by apply absorb_payload|done].
Qed.

Lemma script_flight T role r reply sent armed bodies : passing role r → Forall record_fits bodies →
  script T (at_ role r reply sent armed (length bodies)) (tls_record 3 application_data <$> bodies) [] (at_ role r reply sent armed 0).
Proof.
  intros Hp. induction 1 as [|body bodies Hb Hbs IH]; [constructor; apply at_condition|]. cbn [fmap list_fmap length].
  apply (script_cons T _ 3 application_data body None (at_ role r reply sent armed (length bodies)));
    [apply at_condition|done|by apply absorb_flight|done].
Qed.

(** ** The server's hello at the client *)

Lemma client_answers_nothing now record view f : role_ f = client → answer_hello now record view f = (f, Ok tt).
Proof.
  intros Hr. unfold answer_hello, sbind, state, gets, lift. destruct (looks_like_hello_spec view) as [b ->]. rewrite Hr.
  change (bool_decide (client = server)) with false. done.
Qed.

Lemma absorb_server_hello T r reply sent tail share auth : let hello := tls_record 3 handshake (2 :: tail) in
  reality_enabled_ r = true → reality_server_verified_ r = false → record_fits (2 :: tail) →
  extract_server_key_share hello = Ok share → length share = 32%nat → (43 ≤ length hello)%nat →
  subspan (E:=CamouflageError) hello kRandomOffset kRealityAuthSize = Ok auth →
  reality_verify_server_auth (private_key (reality_ephemeral_ r)) (reality_server_public_ r) share auth = true →
  absorbs T (at_ client r reply sent false 0) hello (at_ client (with_server_verified true r) reply sent true kCertificateFlightRecords) None.
Proof.
  intros hello He Hv Hf Ex Hs Hl Ea Hauth now f rest _ [Hr Hre ? ? Harm Hrem Hsound] Hi Ep.
  rewrite turn_unfold, Ep. unfold hello at 1. rewrite parse_tls_record by done. set (record := mkRecordView _ _ _). rewrite <- Ep.
  set (f1 := with_reality (with_server_verified true (reality f)) f).
  assert (check_server record (pending f) f = (f1, Ok tt)) as Ec.
  { unfold check_server. unfold sbind at 1. cbn [state gets]. rewrite Hr, Hre, He, Hv. change (bool_decide (client = client)) with true. cbn [andb negb].
    assert (span_first (E:=CamouflageError) (pending f) (rec_consumed record) = Ok hello) as Espan.
    { rewrite Ep, span_first_ok by (rewrite length_app; unfold hello; rewrite length_tls_record; cbn; lia). f_equal. apply take_app_length'.
      unfold hello. by rewrite length_tls_record. }
    unfold sbind at 1, lift. rewrite Espan. unfold violation. rewrite (proj2 (Nat.leb_gt _ _)) by (unfold kTlsRecordHeaderSize; lia).
    unfold sbind at 1. cbn [rec_type record]. change (negb (bool_decide (handshake = handshake))) with false.
    assert (bool_decide (hello !! kTlsRecordHeaderSize = Some 2) = true) as -> by (by apply bool_decide_eq_true_2). cbn [orb negb sret].
    unfold sbind at 1. rewrite Ex. rewrite Hs. change (32 =? kPublicKeySize)%nat with true.
    rewrite (proj2 (Nat.leb_le _ _)) by (unfold kRandomOffset, kRealityAuthSize, kTlsRecordHeaderSize; lia). cbn [andb].
    unfold sbind. rewrite Ea, Hauth. unfold f1. done. }
  rewrite Ec. unfold handle. cbn [rec_type record]. rewrite client_answers_nothing.
  2: { unfold arm_flight. by case_match. }
  eexists. split; [done|]. unfold arm_flight. cbn [role_ flight_armed_ f1 with_reality]. rewrite Hr, Harm, Ep.
  change (bool_decide (client = client)) with true. cbn [andb negb]. rewrite bool_decide_eq_true_2 by done.
  split; [split; cbn; congruence|]. by apply (consumed_record f _ 3 handshake).
Qed.

(** ** The client's hello at the server *)

Definition server_reply (sid public tag : list Z) (calls : nat) : list Z :=
  let '(calls, hello) := build_server_hello sid public tag calls in
  match build_certificate_flight calls with Ok flight => hello ++ build_change_cipher_spec ++ flight.2 | _ => [] end.

Lemma judged_hello now record view f frame share sid : reality_enabled_ (reality f) = true →
  span_first (E:=CamouflageError) view (rec_consumed record) = Ok frame → extract_key_share_x25519 frame = Ok share →
  length share = 32%nat → length sid = 32%nat →
  authenticated (reality_server_verify (reality_server_private_ (reality f)) share sid now (reality_window_ (reality f))) = true →
  judge_hello now record view sid f = (with_reality (with_judged true false (reality f)) f, Ok tt).
Proof.
  intros He Ef Ex Hs Hi Ha. unfold judge_hello, sbind, state, gets, lift, modify, sret. rewrite He, Ef, Ex, Hs, Hi.
  change ((32 =? kPublicKeySize)%nat && (32 =? kRealitySessionIdSize)%nat) with true. cbn iota. rewrite Ha. done.
Qed.

Lemma proven_server record view f frame share pair tag : reality_authenticated_ (reality f) = true →
  span_first (E:=CamouflageError) view (rec_consumed record) = Ok frame → extract_key_share_x25519 frame = Ok share →
  length share = 32%nat → fresh_keypair (calls_ f) = Ok pair →
  reality_server_auth (reality_server_private_ (reality f)) share (public_key pair) = Ok tag →
  server_proof record view f = (with_reply (sent_reply_ f) (pending_reply_ f) (S (calls_ f)) f, Ok (public_key pair, tag)).
Proof.
  intros He Ef Ex Hs Hk Ht. unfold server_proof, sbind, state, gets, lift, modify, sret. rewrite He, Ef, Ex, Hk, Hs.
  change (32 =? kPublicKeySize)%nat with true. cbn iota. by rewrite Ht.
Qed.

Lemma answered now record view f sid public tag f1 f2 :
  role_ f = server → sent_reply_ f = false → looks_like_client_hello view = Ok true → hello_session_id view = Ok sid →
  judge_hello now record view sid f = (f1, Ok tt) → reality_rejected_ (reality f1) = false →
  server_proof record view f1 = (f2, Ok (public, tag)) →
  ∃ calls, answer_hello now record view f = (with_reply true (server_reply sid public tag (calls_ f2)) calls f2, Ok tt).
Proof.
  intros Hr Hsent Hl Hsid Hj Hrej Hp. unfold answer_hello, sbind, state, gets, lift, modify. rewrite Hl, Hr, Hsent.
  change (bool_decide (server = server)) with true. cbn [andb negb]. rewrite Hsid, Hj, Hrej. cbn [negb]. rewrite Hp. cbn [fst snd].
  unfold server_reply. destruct (build_server_hello sid public tag (calls_ f2)) as [calls hello].
  destruct (certificate_flight_spec calls) as (c & bodies & -> & _). eexists. done.
Qed.

Lemma absorb_client_hello (T : Z → Prop) r reply armed remaining n tail share sid pair tag : let hello := tls_record 1 handshake (1 :: tail) in
  reality_enabled_ r = true → record_fits (1 :: tail) → (39 ≤ length tail)%nat →
  extract_key_share_x25519 hello = Ok share → length share = 32%nat →
  (∀ rest, hello_session_id (hello ++ rest) = Ok sid) → length sid = 32%nat →
  (∀ now, T now → authenticated (reality_server_verify (reality_server_private_ r) share sid now (reality_window_ r)) = true) →
  fresh_keypair n = Ok pair → reality_server_auth (reality_server_private_ r) share (public_key pair) = Ok tag →
  absorbs T (λ f, at_ server r reply false armed remaining f ∧ calls_ f = n) hello
    (at_ server (with_judged true false r) (server_reply sid (public_key pair) tag (S n)) true armed remaining) None.
Proof.
  intros hello He Hf Ht Ex Hs Hsid Hi Hauth Hk Htag now f rest HT [[Hr Hre Hrep Hsent Harm Hrem Hsound] Hcalls] Hin Ep.
  rewrite turn_unfold, Ep. unfold hello at 1. rewrite parse_tls_record by done. set (record := mkRecordView _ _ _). rewrite <- Ep.
  rewrite check_passes by (unfold passing; by rewrite Hr).
  assert (span_first (E:=CamouflageError) (pending f) (rec_consumed record) = Ok hello) as Espan.
  { rewrite Ep, span_first_ok by (rewrite length_app; unfold hello; rewrite length_tls_record; cbn; lia). f_equal. apply take_app_length'.
    unfold hello. by rewrite length_tls_record. }
  unfold handle. cbn [rec_type record].
  assert (arm_flight (pending f) f = f) as -> by (unfold arm_flight; rewrite Hr; done).
  rewrite <- Hre in He, Hauth, Htag. rewrite <- Hcalls in Hk.
  pose proof (judged_hello now record (pending f) f hello share sid He Espan Ex Hs Hi (Hauth now HT)) as Hj.
  set (f1 := with_reality (with_judged true false (reality f)) f) in *.
  pose proof (proven_server record (pending f) f1 hello share pair tag eq_refl Espan Ex Hs Hk Htag) as Hp.
  set (f2 := with_reply (sent_reply_ f1) (pending_reply_ f1) (S (calls_ f1)) f1) in *.
  destruct (answered now record (pending f) f sid (public_key pair) tag f1 f2) as [calls Ea]; [done|done| |by rewrite Ep|done|done|done|].
  { rewrite Ep. apply looks_like_hello_found. lia. }
  rewrite Ea. eexists. split; [done|]. split; [|by apply (consumed_record f _ 1 handshake)].
  split; try done; cbn; congruence.
Qed.

(** ** A session *)

Definition our_client (server_public short_id name : list Z) (calls : nat) : CamouflageFramer :=
  configure_reality_client server_public short_id (new_framer client name calls).
Definition our_server (server_private : list Z) (window : Z) (name : list Z) (calls : nat) : CamouflageFramer :=
  configure_reality_server server_private window (new_framer server name calls).

Lemma opened_client server_public short_id name n time hello :
  reality_client_hello (fresh_keypair n) server_public short_id time = Ok hello →
  let '(c, bytes) := open time (our_client server_public short_id name n) in
  bytes = (build_client_hello name (public_key (ephemeral hello)) (session_id hello) (S n)).2 ∧ inbox_ok c ∧ pending c = [] ∧
  ∃ r, at_ client r [] false false 0 c ∧ reality_enabled_ r = true ∧ reality_server_verified_ r = false ∧
    reality_ephemeral_ r = ephemeral hello ∧ reality_server_public_ r = server_public.
Proof.
  intros Eh. unfold open, our_client. rewrite decide_False by (intros E; by apply E).
  cbn [configure_reality_client with_reality new_framer reality new_reality reality_enabled_ calls_ reality_server_public_ reality_short_id_ server_name_]. rewrite Eh.
  destruct (build_client_hello name (public_key (ephemeral hello)) (session_id hello) (S n)) as [calls bytes]. cbv beta iota. split; [reflexivity|]. split; [unfold inbox_ok; cbn; lia|]. split; [done|]. eexists. by split; [split|].
Qed.

Lemma script_up T P hello Q bodies role r reply sent armed tail minor : condition P → hello = tls_record minor handshake tail → record_fits tail →
  absorbs T P hello Q None → Q = at_ role r reply sent armed 0 → passing role r → Forall record_fits bodies →
  script T P (hello :: (tls_record 3 application_data <$> bodies)) bodies Q.
Proof.
  intros Hc -> Hf Ha -> Hp Hb. apply (script_cons T P minor handshake tail None (at_ role r reply sent armed 0)); [done..|].
  by apply script_payloads.
Qed.

(** The server's answer, in records. *)
Lemma reply_records sid public tag calls : length public = 32%nat → length tag = 32%nat →
  ∃ tail bodies, let hello := tls_record 3 handshake (2 :: tail) in
    server_reply sid public tag calls = hello ++ tls_record 3 change_cipher_spec [1] ++ (bodies ≫= tls_record 3 application_data) ∧
    record_fits (2 :: tail) ∧ Forall record_fits bodies ∧ length bodies = kCertificateFlightRecords ∧
    extract_server_key_share hello = Ok public ∧ (43 ≤ length hello)%nat ∧
    subspan (E:=CamouflageError) hello kRandomOffset kRealityAuthSize = Ok tag.
Proof.
  intros Hp Ht. unfold server_reply. destruct (server_hello_spec sid public tag calls) as (tail & Eh & Hf & Hx).
  specialize (Hx Hp Ht). rewrite Eh in Hx. destruct (build_server_hello sid public tag calls) as [calls' hello]. cbn [snd] in Eh. subst hello.
  destruct (certificate_flight_spec calls') as (c & bodies & -> & Hl & Hb). exists tail, bodies. rewrite change_cipher_record. done.
Qed.

(** A client that got the answer of its server takes its payloads. *)
Lemma client_session T r k pair tag sid calls qs ws : reality_enabled_ r = true → reality_server_verified_ r = false →
  private_key (reality_ephemeral_ r) = k → length (public_key pair) = 32%nat → length tag = 32%nat →
  reality_verify_server_auth k (reality_server_public_ r) (public_key pair) tag = true →
  Forall2 (λ q w, wrap q = Ok w) qs ws →
  ∃ rs bodies, concat rs = server_reply sid (public_key pair) tag calls ++ concat ws ∧ concat bodies = concat qs ∧
    (Forall frame_fits qs → bodies = qs) ∧ inside [] rs ∧ script T (at_ client r [] false false 0) rs bodies (at_ client (with_server_verified true r) [] false true 0).
Proof.
  intros He Hv Hk Hp Ht Hauth Hw. destruct (reply_records sid (public_key pair) tag calls Hp Ht) as (tail & flight & -> & Hf & Hfl & Hn & Hx & Hl & Ha).
  destruct (wraps_spec qs ws Hw) as (bodies & Hb & Hcat & Ew & Hframes).
  set (hello := tls_record 3 handshake (2 :: tail)) in *.
  exists (hello :: tls_record 3 change_cipher_spec [1] :: ((tls_record 3 application_data <$> flight) ++ (tls_record 3 application_data <$> bodies))), bodies.
  split.
  { cbn [concat]. rewrite concat_app, !concat_records, Ew, <- !app_assoc. done. }
  split; [done|]. split; [done|]. split; [cbn [inside length]; unfold hello; rewrite length_tls_record; lia|].
  set (r' := with_server_verified true r). assert (passing client r') as Hpass by (unfold passing, r'; cbn; by rewrite andb_false_r).
  apply (script_cons T _ 3 handshake (2 :: tail) None (at_ client r' [] false true kCertificateFlightRecords)); [apply at_condition|done| |].
  { apply (absorb_server_hello T r [] false tail (public_key pair) tag); try done. by rewrite Hk. }
  apply (script_cons T _ 3 change_cipher_spec [1] None (at_ client r' [] false true kCertificateFlightRecords)); [apply at_condition|exact one_fits|apply absorb_cipher_spec; [done|exact one_fits]|].
  rewrite <- Hn. apply (script_app T _ _ [] (at_ client r' [] false true 0)); [by apply script_flight|by apply script_payloads].
Qed.

End turns.

Lemma server_absorbs_hello `{DhLaws} `{KeystreamLaws} `{RngLaws} server_private window short_id name n m k k' time hello :
  let T now := Z.abs (now - time) ≤ window in
  length short_id = kRealityShortIdSize → is_u64 time → name_fits name → random n 32 = Some k → random m 32 = Some k' →
  reality_client_hello (fresh_keypair n) (scalarmult_base server_private) short_id time = Ok hello →
  let bytes := (build_client_hello name (public_key (ephemeral hello)) (session_id hello) (S n)).2 in
  let r := reality (our_server server_private window [] m) in
  ∃ tail tag, bytes = tls_record 1 handshake (1 :: tail) ∧ record_fits (1 :: tail) ∧ length tag = 32%nat ∧
    reality_verify_server_auth k (scalarmult_base server_private) (scalarmult_base k') tag = true ∧
    absorbs T (λ f, at_ server r [] false false 0 f ∧ calls_ f = m) bytes
      (at_ server (with_judged true false r) (server_reply (session_id hello) (scalarmult_base k') tag (S m)) true false 0) None.
Proof.
  intros T Hs Ht Hn Hk Hk' Eh bytes r. unfold fresh_keypair in Eh. rewrite Hk in Eh.
  destruct (hello_verified true k server_private short_id time hello 0 0 Hs Ht Eh) as (Ee & Hi & _).
  destruct (client_hello_spec name (public_key (ephemeral hello)) (session_id hello) (S n) Hn) as (tail & Eb & Hf & Hl & Ex & Esid);
    [rewrite Ee; apply dh_length|done|]. fold bytes in Eb, Ex, Esid.
  assert (∃ tag, reality_server_auth server_private (scalarmult_base k) (scalarmult_base k') = Ok tag) as [tag Etag].
  { unfold reality_client_hello in Eh. cbn [rbind generate_keypair derive_public_key guard negb private_key] in Eh. rewrite secret_agrees in Eh.
    unfold reality_server_auth. destruct (x25519 server_private (scalarmult_base k)) as [secret| |]; [eauto|done..]. }
  assert (bytes_ok tag ∧ length tag = 32%nat) as [Hb Hlen].
  { unfold reality_server_auth in Etag. destruct (x25519 _ _) as [secret| |]; [|done..]. apply Ok_inj in Etag as <-.
    split; [apply bytes_ok_take, hmac_bytes|apply length_auth_tag]. }
  exists tail, tag. split; [done|]. split; [done|]. split; [done|]. split; [by apply server_auth_checked|].
  rewrite Eb. eapply (absorb_client_hello T r [] false 0 m tail (scalarmult_base k) (session_id hello) (mkKeyPair (scalarmult_base k') k') tag).
  - done.
  - done.
  - done.
  - rewrite <- Eb, Ex, Ee. done.
  - apply dh_length.
  - intros rest. rewrite <- Eb. apply Esid.
  - exact Hi.
  - intros now HT. destruct (hello_verified true k server_private short_id time hello now window Hs Ht Eh) as (_ & _ & Hv).
    rewrite Ee in Hv. cbn [public_key] in Hv. unfold r. cbn [our_server configure_reality_server with_reality reality reality_server_private_ reality_window_].
    rewrite Hv, (proj2 (Z.ltb_ge _ _)) by exact HT. done.
  - unfold fresh_keypair. rewrite Hk'. done.
  - exact Etag.
Qed.

(** C26. A disguised session.  Let a client with a reality configuration open
    towards its server, and let the bytes of its hello and of its wrapped
    frames reach the server in any chunks, each at a time within the server's
    window.  The server recognises the client and hands out exactly the bytes
    of the frames, and the frames themselves when each fits a record.  When
    the server's answer and its own wrapped frames reach the client in any
    chunks, the client recognises the server, skips the simulated certificates
    and hands out those frames in the same way. *)
Theorem camouflage_session `{DhLaws} `{KeystreamLaws} `{RngLaws} server_private window short_id name server_name n m k k' time ps ws up :
  length short_id = kRealityShortIdSize → is_u64 time → name_fits name → random n 32 = Some k → random m 32 = Some k' →
  scalarmult k (scalarmult_base server_private) ≠ None → Forall2 (λ p w, wrap p = Ok w) ps ws →
  let '(c, hello) := open time (our_client (scalarmult_base server_private) short_id name n) in
  concat (snd <$> up) = hello ++ concat ws → Forall (λ chunk, Z.abs (chunk.1 - time) ≤ window) up →
  ∃ s payloads, pump up (our_server server_private window server_name m) = (s, payloads) ∧
    concat payloads = concat ps ∧ (Forall frame_fits ps → payloads = ps) ∧
    reality_authenticated_ (reality s) = true ∧ reality_rejected_ (reality s) = false ∧ violated_ s = false ∧
    ∀ down qs ws', Forall2 (λ q w, wrap q = Ok w) qs ws' → concat (snd <$> down) = (take_handshake_reply s).2 ++ concat ws' →
      ∃ c' payloads', pump down c = (c', payloads') ∧ concat payloads' = concat qs ∧ (Forall frame_fits qs → payloads' = qs) ∧
        reality_server_verified_ (reality c') = true ∧ violated_ c' = false.
Proof.
  intros Hs Ht Hn Hk Hk' Hdh Hw.
  destruct (hello_made k server_private short_id time Hdh) as [hello Eh].
  assert (reality_client_hello (fresh_keypair n) (scalarmult_base server_private) short_id time = Ok hello) as Ef by (unfold fresh_keypair; by rewrite Hk).
  destruct (hello_verified true k server_private short_id time hello 0 0 Hs Ht Eh) as (Ee & _ & _).
  destruct (server_absorbs_hello server_private window short_id name n m k k' time hello Hs Ht Hn Hk Hk' Ef)
    as (tail & tag & Eb & Hf & Htag & Hauth & Hab).
  pose proof (opened_client (scalarmult_base server_private) short_id name n time hello Ef) as Hopen.
  destruct (open time _) as [c bytes]. destruct Hopen as (-> & Hci & Hcp & r & Hc & Hre & Hrv & Hrk & Hrp). intros Eup Hup.
  set (bytes := (build_client_hello _ _ _ _).2) in *. destruct (wraps_spec ps ws Hw) as (bodies & Hb & Hcat & Ew & Hframes).
  set (rs := reality (our_server server_private window [] m)) in *. set (T := λ now, Z.abs (now - time) ≤ window) in *.
  assert (condition (λ f, at_ server rs [] false false 0 f ∧ calls_ f = m)) as Hcond
    by (split; [intros i f [[] ?]; by split|by intros f [[] _]]).
  destruct (pump_script T up (λ f, at_ server rs [] false false 0 f ∧ calls_ f = m) (bytes :: (tls_record 3 application_data <$> bodies)) bodies _
    (our_server server_private window server_name m) (script_up T _ bytes _ bodies server _ _ true false _ 1 Hcond Eb Hf Hab eq_refl eq_refl Hb) Hup)
    as (s & Eps & Hs' & _).
  { done. }
  { unfold inbox_ok. cbn. lia. }
  { cbn [concat]. rewrite concat_records, <- Ew. exact Eup. }
  { cbn [inside]. rewrite Eb, length_tls_record. cbn. lia. }
  exists s, bodies. split; [done|]. split; [done|]. split; [done|]. rewrite (at_reality _ _ _ _ _ _ _ Hs'). split; [done|]. split; [done|].
  split; [apply (at_sound _ _ _ _ _ _ _ Hs')|]. intros down qs ws' Hw' Edown. cbn [take_handshake_reply snd] in Edown. rewrite (at_reply _ _ _ _ _ _ _ Hs') in Edown.
  destruct (client_session (λ _, True) r k (mkKeyPair (scalarmult_base k') k') tag (session_id hello) (S m) qs ws')
    as (recs & out & Erecs & Eout & Hout & Hin & Hscript); try done; [by rewrite Hrk, Ee|apply dh_length|by rewrite Hrp|].
  destruct (pump_script (λ _, True) down _ recs out _ c Hscript) as (c' & Epc & Hc' & _); [by apply Forall_true|done|done| |by rewrite Hcp|].
  { rewrite Hcp, Erecs. exact Edown. }
  exists c', out. rewrite (at_reality _ _ _ _ _ _ _ Hc'). split_and!; try done. apply (at_sound _ _ _ _ _ _ _ Hc').
Qed.

(** ** What a client has seen *)

Definition within (x l : list Z) : Prop := ∃ a b, l = a ++ x ++ b.

Lemma within_subspan {E} l o n x : subspan (E:=E) l o n = Ok x → within x l.
Proof.
  unfold subspan. case_decide; [|done]. intros [= <-]. exists (take o l), (drop (o + n) l). by rewrite <- drop_drop, !take_drop.
Qed.

Lemma within_trans x y z : within x y → within y z → within x z.
Proof. intros (a & b & ->) (c & d & ->). exists (c ++ a), (b ++ d). by rewrite <- !app_assoc. Qed.

Lemma extension_loop_result (Q : list Z → Prop) found record : Q [] → (∀ a b c l, found a b c = Ok l → Q l) →
  ∀ fuel p ext_end l, extension_loop found fuel record p ext_end = Ok l → Q l.
Proof.
  intros HQ Hf. induction fuel as [|fuel IH]; intros p ext_end l; cbn [extension_loop]; [done|]. destruct (_ <=? _)%nat; [|by intros [= <-]].
  destruct (rd16 record p) as [t| |]; cbn [rbind]; [|done..]. destruct (rd16 record (p + 2)) as [n| |]; cbn [rbind]; [|done..].
  destruct (_ <? _)%nat; [by intros [= <-]|]. destruct (_ =? _)%nat; [apply Hf|apply IH].
Qed.

Lemma server_share_within record share : extract_server_key_share record = Ok share → share = [] ∨ within share record.
Proof.
  unfold extract_server_key_share. destruct (_ <? _)%nat; [intros [= <-]; by left|].
  destruct (rd8 record _) as [n| |]; cbn [rbind]; [|done..]. destruct (_ <? _)%nat; [intros [= <-]; by left|].
  unfold extensions. destruct (rd16 record _) as [t| |]; cbn [rbind]; [|done..].
  apply (extension_loop_result (λ l, l = [] ∨ within l record)); [by left|]. intros a b c l. unfold server_share.
  destruct (_ <? _)%nat; [intros [= <-]; by left|]. destruct (rd16 record a) as [g| |]; cbn [rbind]; [|done..].
  destruct (negb _); [intros [= <-]; by left|]. destruct (rd16 record (a + 2)) as [w| |]; cbn [rbind]; [|done..].
  destruct (_ && _); [|intros [= <-]; by left]. intros E%within_subspan. by right.
Qed.

Section trust.
Context {dh : Dh} {ks : Keystream} {rng : Rng} {rng_laws : RngLaws}.
Context (k server_public : list Z).

(** The bytes contain a key share and the tag that proves the server. *)
Definition proven (bytes : list Z) : Prop :=
  ∃ share tag, within share bytes ∧ within tag bytes ∧ reality_verify_server_auth k server_public share tag = true.

Lemma proven_within x y : proven x → within x y → proven y.
Proof. intros (share & tag & H1 & H2 & H3) Hw. exists share, tag. split; [by eapply within_trans|]. split; [by eapply within_trans|done]. Qed.

Record dialling (f : CamouflageFramer) : Prop := {
  di_role : role_ f = client;
  di_enabled : reality_enabled_ (reality f) = true;
  di_key : private_key (reality_ephemeral_ (reality f)) = k;
  di_server : reality_server_public_ (reality f) = server_public;
}.

Lemma dialling_verified v f : dialling f → dialling (with_reality (with_server_verified v (reality f)) f).
Proof. intros []. by split. Qed.

Lemma dialling_violated f : dialling f → dialling (violate f).
Proof. intros []. by split. Qed.

Definition verified (f : CamouflageFramer) : bool := reality_server_verified_ (reality f).

(** After [check_server] the server is verified, and then by what it saw. *)
Lemma check_server_trust record view f : dialling f → (rec_consumed record ≤ length view)%nat → let r := check_server record view f in
  dialling r.1 ∧ (verified r.1 = true → verified f = true ∨ proven view) ∧ (∀ u, r.2 = Ok u → verified r.1 = true).
Proof.
  intros Hd Hc. cbn zeta. destruct (check_server record view f) as [f' r] eqn:E. cbn [fst snd]. revert E.
  pose proof Hd as [Hr He Hk Hs]. unfold check_server, lift, sbind, violation, modify, sret, state, gets. rewrite Hr, He.
  change (bool_decide (client = client)) with true. cbn [andb]. unfold verified.
  destruct (reality_server_verified_ (reality f)) eqn:Ev; cbn [negb].
  { intros [= <- <-]. split; [done|]. split; [by left|]. by rewrite Ev. }
  rewrite span_first_ok by done. set (frame := take (rec_consumed record) view).
  assert (within frame view) as Hw by (exists [], (drop (rec_consumed record) view); unfold frame; by rewrite app_nil_l, take_drop).
  assert (∀ g, dialling g → reality_server_verified_ (reality g) = false → (violate g, Fail CamouflageError.malformed) = (f', r) →
    dialling f' ∧ (reality_server_verified_ (reality f') = true → false = true ∨ proven view) ∧
    (∀ u, r = Ok u → reality_server_verified_ (reality f') = true)) as Hfail.
  { intros g Hg Hv [= <- <-]. split; [by apply dialling_violated|]. cbn. rewrite Hv. split; [done|by intros u [=]]. }
  destruct (_ || _); [by apply Hfail|]. destruct (extract_server_in_bounds frame) as (share & Ex & _). rewrite Ex.
  destruct (_ && _) eqn:Eb; [|by apply Hfail]. apply andb_true_iff in Eb as [Hl%Nat.leb_le Hlen%Nat.eqb_eq].
  destruct (subspan frame kRandomOffset kRealityAuthSize) as [claimed| |] eqn:Esp; [|rewrite subspan_ok in Esp by done; done..]. rewrite Hk, Hs.
  destruct (reality_verify_server_auth k server_public share claimed) eqn:Ea; cbn [negb].
  - intros [= <- <-]. split; [by apply dialling_verified|]. split; [|done]. intros _. right. apply (proven_within frame); [|done]. exists share, claimed.
    split; [|split; [by eapply within_subspan|done]]. destruct (server_share_within frame share Ex) as [->|]; [done|done].
  - apply Hfail; [by apply dialling_verified|done].
Qed.

(** What holds of the client after the bytes [fed]. *)
Record trusting (fed : list Z) (f : CamouflageFramer) : Prop := {
  tr_inbox : inbox_ok f;
  tr_fed : ∃ gone, fed = gone ++ pending f;
  tr_dialling : dialling f;
  tr_verified : verified f = true → proven fed;
}.

Lemma trusting_same fed f g : trusting fed f → inbox_ok g → (∃ gone, pending f = gone ++ pending g) → reality g = reality f → role_ g = role_ f →
  trusting fed g.
Proof.
  intros [Hi [gone Hf] [] Hv] Hg [more Em] Er Ero. split; [done| |split; congruence|unfold verified in *; by rewrite Er].
  exists (gone ++ more). by rewrite Hf, Em, app_assoc.
Qed.

Lemma pending_within fed f : trusting fed f → within (pending f) fed.
Proof. intros [_ [gone ->] _ _]. exists gone, []. by rewrite app_nil_r. Qed.

Lemma turn_trust now fed f : trusting fed f → let r := record_turn now f in
  trusting fed r.1 ∧ (∀ o, r.2 = Ok o → verified r.1 = true).
Proof.
  intros Ht. cbn zeta. pose proof Ht as [Hi [gone Hf] Hd Hv]. pose proof (turn_total now f Hi) as Htot. revert Htot.
  rewrite turn_unfold. pose proof (parse_view (pending f)) as Hp. destruct (parse_record (pending f)) as [record|[]|] eqn:Epar; [| | | | |done].
  all: intros (Hi' & _ & _).
  2: { split; [|by intros o [=]]. apply (trusting_same fed f); try done. destruct (compact_pending (inbox f)) as [_ E]. exists []. symmetry. exact E. }
  2, 3, 4: split; [by apply (trusting_same fed f); try done; exists []|by intros o [=]].
  destruct (check_server_trust record (pending f) f Hd ltac:(lia)) as (Hd1 & Hv1 & Hok).
  destruct (check_server_quiet record (pending f) f ltac:(lia)) as [Hk Hn].
  destruct (check_server record (pending f) f) as [f1 r]. cbn [fst snd] in *. unfold keeps_inbox in Hk.
  assert (trusting fed f1) as Ht1.
  { split; [unfold inbox_ok; by rewrite Hk|exists gone; unfold pending; by rewrite Hk|done|]. intros [H|H]%Hv1; [by apply Hv|].
    eapply proven_within; [exact H|by apply pending_within]. }
  destruct r as [u|e|]; [|split; [done|by intros o [=]]|done]. specialize (Hok u eq_refl).
  assert (∀ g, inbox g = inbox f → reality g = reality f1 → role_ g = role_ f1 → trusting fed (consume_record record g)) as Hconsume.
  { intros g Hg Hre Hro. destruct (turn_consumes f g record None Hi Hp Hg) as (Hig & _ & _).
    apply (trusting_same fed f1); try done. exists (take (rec_consumed record) (pending f1)).
    destruct (pending_consume g record) as [_ ->]; [unfold inbox_ok; by rewrite Hg|unfold pending; rewrite Hg; fold (pending f); lia|].
    unfold pending. rewrite Hg, Hk.
    by rewrite take_drop. }
  pose proof (di_role _ Hd1) as Hrole. unfold handle in *. destruct (rec_type record).
  - split; [by apply Hconsume|done].
  - split; [by apply Hconsume|done].
  - assert (reality (arm_flight (pending f) f1) = reality f1 ∧ role_ (arm_flight (pending f) f1) = role_ f1 ∧ inbox (arm_flight (pending f) f1) = inbox f1)
      as (E1 & E2 & E3) by (unfold arm_flight; by destruct (_ && _)).
    rewrite client_answers_nothing by (by rewrite E2). cbn [fst snd].
    split; [apply Hconsume; [by cbn; rewrite E3|done|done]|]. intros o _. unfold verified. cbn. by rewrite E1.
  - destruct (0 <? flight_remaining_ f1)%nat; [split; [by apply Hconsume|done]|]. split; [|done]. cbn [fst] in *.
    apply (trusting_same fed f1); try done. destruct (settle_pending record (inbox f1)) as [_ E].
    exists (take (rec_consumed record) (pending f1)). unfold pending at 3. cbn [handshaken with_inbox inbox]. rewrite E. by rewrite take_drop.
Qed.

Lemma next_loop_trust now n : ∀ fed f, trusting fed f → (length (pending f) < n)%nat → let r := next_loop n now f in
  trusting fed r.1 ∧ (∀ p, r.2 = Ok p → verified r.1 = true).
Proof.
  induction n as [|n IH]; intros fed f Ht Hn; [lia|]. cbn zeta. rewrite next_loop_S. destruct (turn_trust now fed f Ht) as [Ht' Hv].
  destruct (turn_total now f (tr_inbox _ _ Ht)) as (_ & _ & Hlen). destruct (record_turn now f) as [f' [[payload|]|e|]]; cbn [fst snd] in *.
  - split; [done|]. intros p _. by apply (Hv (Some payload)).
  - specialize (Hlen None eq_refl). apply IH; [done|lia].
  - split; [done|by intros p [=]].
  - split; [done|by intros p [=]].
Qed.

Lemma next_payload_trust now fed f : trusting fed f → let r := next_payload now f in
  trusting fed r.1 ∧ (∀ p, r.2 = Ok p → verified r.1 = true).
Proof.
  intros Ht. cbn zeta. rewrite next_unfold. destruct (violated_ f); [split; [done|by intros p [=]]|].
  apply next_loop_trust; [done|]. pose proof (length_pending f). lia.
Qed.

(** The calls of a carrier: bytes from the network, and asking for a payload. *)
Inductive ClientCall := Feed (bytes : list Z) | Next (now : Z).
Definition call_bytes (c : ClientCall) : list Z := match c with Feed bytes => bytes | Next _ => [] end.
Definition client_call (s : CamouflageFramer * list (list Z)) (c : ClientCall) : CamouflageFramer * list (list Z) :=
  match c with
  | Feed bytes => (feed bytes s.1, s.2)
  | Next now => match next_payload now s.1 with (f, Ok payload) => (f, s.2 ++ [payload]) | (f, _) => (f, s.2) end
  end.

Lemma feed_trust fed f bytes : trusting fed f → trusting (fed ++ bytes) (feed bytes f).
Proof.
  intros [Hi [gone ->] Hd Hv]. unfold inbox_ok in Hi.
  assert (pending (feed bytes f) = pending f ++ bytes) as Ep by (unfold pending, feed; cbn; by rewrite drop_app_le).
  split; [unfold inbox_ok; cbn; rewrite length_app; lia|exists gone; by rewrite Ep, app_assoc|by destruct Hd|].
  intros H. apply (proven_within (gone ++ pending f)); [by apply Hv|]. by exists [], bytes.
Qed.

Lemma calls_trust calls : ∀ fed f out, trusting fed f → (out ≠ [] → proven fed) →
  let r := foldl client_call (f, out) calls in let fed' := fed ++ (calls ≫= call_bytes) in
  trusting fed' r.1 ∧ (r.2 ≠ [] → proven fed').
Proof.
  induction calls as [|c calls IH]; intros fed f out Ht Ho.
  { cbn. by rewrite app_nil_r. }
  cbn zeta. rewrite bind_cons, app_assoc. cbn [foldl]. destruct c as [bytes|now]; cbn [client_call call_bytes fst snd].
  - apply IH; [by apply feed_trust|]. intros H. apply (proven_within fed); [by apply Ho|]. by exists [], bytes.
  - rewrite app_nil_r. destruct (next_payload_trust now fed f Ht) as [Ht' Hv]. destruct (next_payload now f) as [f' [p|e|]]; cbn [fst snd] in *; [|by apply IH..].
    apply IH; [done|]. intros _. apply (tr_verified _ _ Ht'). by apply (Hv p).
Qed.

End trust.

(** C27. A client hands out nothing before its server proved itself.  The draw
    of its ephemeral key and the key exchange with the server's public key
    succeed when the client opens.  Whatever
    bytes arrive at a client with a reality configuration, in whatever pieces,
    and however often it is asked: once it has handed out a payload, the bytes
    it received contain a key share and the tag over it that the holder of
    the server's private key computes for this client's own key share. *)
Theorem camouflage_client_trusts `{DhLaws} `{KeystreamLaws} `{RngLaws} server_private short_id name n k time calls :
  random n 32 = Some k → scalarmult k (scalarmult_base server_private) ≠ None → Forall (λ c, bytes_ok (call_bytes c)) calls →
  let c := (open time (our_client (scalarmult_base server_private) short_id name n)).1 in
  let r := foldl client_call (c, []) calls in let received := calls ≫= call_bytes in
  r.2 ≠ [] →
  ∃ share tag, within share received ∧ within tag received ∧
    reality_server_auth server_private (scalarmult_base k) share = Ok tag.
Proof.
  intros Hk Hdh Hb c r received Hr. destruct (hello_made k server_private short_id time Hdh) as [hello Eh].
  assert (reality_client_hello (fresh_keypair n) (scalarmult_base server_private) short_id time = Ok hello) as Ef by (unfold fresh_keypair; by rewrite Hk).
  pose proof (opened_client (scalarmult_base server_private) short_id name n time hello Ef) as Hopen. unfold c in r.
  destruct (open time _) as [c0 bytes]. cbn [fst] in r. destruct Hopen as (_ & Hi & Hp & rr & Hat & He & Hv & Hek & Hsp).
  pose proof (at_reality _ _ _ _ _ _ _ Hat) as Hre.
  assert (private_key (ephemeral hello) = k) as Ek by (by apply hello_private in Eh as ->).
  assert (trusting k (scalarmult_base server_private) [] c0) as Ht.
  { split; [done|by exists []; rewrite Hp|split; rewrite ?Hre; [apply (at_role _ _ _ _ _ _ _ Hat)|done|by rewrite Hek|done]|].
    unfold verified. rewrite Hre, Hv. done. }
  destruct (calls_trust k (scalarmult_base server_private) calls [] c0 [] Ht ltac:(done)) as [_ Hproven]. cbn [app] in Hproven. fold received r in Hproven.
  destruct (Hproven Hr) as (share & tag & Hs & Ht' & Ha). exists share, tag. split; [done|]. split; [done|]. apply server_auth_checked; [|done].
  assert (bytes_ok received) as Hrec.
  { unfold received. clear -Hb. induction Hb as [|c cs Hc Hcs IH]; [constructor|]. rewrite bind_cons. by apply bytes_ok_app. }
  destruct Ht' as (a & b & E). rewrite E, !bytes_ok_app in Hrec. tauto.
Qed.

Section sample.
#[local] Existing Instances toy_dh toy_dh_laws toy_keystream toy_keystream_laws toy_rng toy_rng_laws.

Lemma camouflage_session_witness :
  let private := replicate 32 5 in let ws := [tls_record 3 application_data [1; 2; 3]; tls_record 3 application_data [4]] in
  let '(c, hello) := open 1000 (our_client (scalarmult_base private) (replicate 8 1) (text "example.org") 0) in
  ∃ s, pump [(1000, take 7 hello); (1010, drop 7 hello ++ concat ws)] (our_server private 120 [] 9) = (s, [[1; 2; 3]; [4]]) ∧
    reality_authenticated_ (reality s) = true ∧
    ∃ c', pump [(0, (take_handshake_reply s).2 ++ tls_record 3 application_data [9])] c = (c', [[9]]) ∧ reality_server_verified_ (reality c') = true.
Proof.
  intros private ws. pose proof (small_frame_fits [1; 2; 3] ltac:(cbn; lia)) as H1.
  pose proof (small_frame_fits [4] ltac:(cbn; lia)) as H2. pose proof (small_frame_fits [9] ltac:(cbn; lia)) as H3.
  assert (Forall2 (λ p w, wrap p = Ok w) [[1; 2; 3]; [4]] ws) as Hw 
    by (apply Forall2_cons_2; [exact (wrap_frame _ H1)|]; apply Forall2_cons_2; [exact (wrap_frame _ H2)|]; apply Forall2_nil_2).
  pose proof (camouflage_session private 120 (replicate 8 1) (text "example.org") [] 0 9 (replicate 32 7) (replicate 32 7) 1000 [[1; 2; 3]; [4]] ws) as H.
  destruct (open 1000 _) as [c hello].
  destruct (H [(1000, take 7 hello); (1010, drop 7 hello ++ concat ws)]) as (s & out & -> & _ & Hout & Ha & _ & _ & Hdown); clear H.
  all: try done.
  - unfold name_fits. cbn. lia.
  - cbn [fmap list_fmap concat snd]. by rewrite app_nil_r, app_assoc, take_drop.
  - repeat constructor; cbn; lia.
  - rewrite Hout by exact (Forall_cons_2 _ _ _ H1 (Forall_cons_2 _ _ _ H2 (Forall_nil_2 _))). exists s. split; [done|]. split; [done|].
    destruct (Hdown [(0, (take_handshake_reply s).2 ++ tls_record 3 application_data [9])] [[9]] [tls_record 3 application_data [9]])
      as (c' & out' & -> & _ & Hout' & Hv & _).
    + apply Forall2_cons_2; [exact (wrap_frame _ H3)|apply Forall2_nil_2].
    + cbn [fmap list_fmap concat snd]. rewrite !app_nil_r. reflexivity.
    + rewrite Hout' by exact (Forall_cons_2 _ _ _ H3 (Forall_nil_2 _)). by exists c'.
Defined.

Lemma camouflage_client_trusts_witness :
  let private := replicate 32 5 in
  let c := (open 1000 (our_client (scalarmult_base private) (replicate 8 1) (text "example.org") 0)).1 in
  let tag := match reality_server_auth private (scalarmult_base (replicate 32 7)) (replicate 32 7) with Ok tag => tag | _ => [] end in
  let received := (build_server_hello (replicate 32 1) (replicate 32 7) tag 0).2 ++ ((replicate 4 [0] ++ [[9]]) ≫= tls_record 3 application_data) in
  (foldl client_call (c, []) [Feed received; Next 0]).2 = [[9]] ∧
  ∃ share tag, within share received ∧ within tag received ∧ reality_server_auth private (scalarmult_base (replicate 32 7)) share = Ok tag.
Proof.
  intros private c tag received.
  assert ((foldl client_call (c, []) [Feed received; Next 0]).2 = [[9]]) as E by (vm_compute; reflexivity). split; [exact E|].
  destruct (camouflage_client_trusts private (replicate 8 1) (text "example.org") 0 (replicate 32 7) 1000 [Feed received; Next 0]) as (share & t & H1 & H2 & H3).
  - done.
  - done.
  - apply Forall_cons_2; [|apply Forall_cons_2; [constructor|constructor]].
    assert (forallb (λ b, (0 <=? b) && (b <? 256)) received = true) as Hb by (vm_compute; reflexivity).
    apply Forall_forall. intros b Hin%list_elem_of_In. apply (proj1 (forallb_forall _ _) Hb) in Hin as [? ?]%andb_true_iff. unfold is_u8. lia.
  - fold c. rewrite E. done.
  - exists share, t. cbn [mbind list_bind call_bytes] in H1, H2. rewrite !app_nil_r in H1, H2. split_and!; done.
Defined.
End sample.
