(* ===== verification/Tcp.v ===== *)
(** Frames over a TCP connection: [src/tcp_transport.cpp] and the session
    calls of [src/tls.cpp].

    A transport cuts the byte stream of a socket into frames, by a length
    prefix, an SSH record or the records of [Camouflage], after an optional
    greeting in the clear.  [Socket] is the kernel's side of a connection: the
    answers it will give to [send], what it will hand to [read], and the bytes
    it has taken; below TLS it is the library's record layer.  An interrupted
    call is an answer like the others, and when no answer is left the call
    would block.  A loop takes as fuel the number of answers or bytes left to
    it; [TcpStream] shows that this is enough. *)

From Stdlib Require Import String.
From S2P Require Import Prelude Packet Fec Nonce Handshake Text Address Blake2s Crypto Noise Cookie Obfuscation SshFramer Reality Camouflage CamouflageRecords CamouflageFlow.

Definition kTcpLengthPrefixSize : nat := 2.
Definition kTcpOutboxLimit : Z := 4 * 1024 * 1024.
Definition kReadBufferSize : nat := Z.to_nat 65536.

Inductive TcpState := closed | connecting | connected | failed.
#[export] Instance TcpState_eq_dec : EqDecision TcpState.
Proof. solve_decision. Defined.

Module TransportError.
Inductive t :=
| unsupported_platform | socket_creation_failed | socket_option_failed | bind_failed | send_failed
| receive_failed | would_block | not_started | already_started | message_too_large.
End TransportError.
Abbreviation TransportError := TransportError.t.

Record TcpStats := mkStats {
  frames_sent : Z;
  frames_received : Z;
  bytes_sent : Z;
  bytes_received : Z;
  connects : Z;
  disconnects : Z;
  oversized_rejected : Z;
}.

(** ** [FrameReassembler] *)

Module FrameReassembler.
Record t := mk { maximum_frame_ : Z; buffer_ : list Z; consumed_ : nat; frame_ : list Z; violated_ : bool }.

Definition create (maximum_frame : Z) : t := mk maximum_frame [] 0 [] false.

Definition push (bytes : list Z) (r : t) : t * bool :=
  if violated_ r then (r, false)
  else (mk (maximum_frame_ r) (buffer_ r ++ bytes) (consumed_ r) (frame_ r) (violated_ r), true).

Definition compact (r : t) : t :=
  if (consumed_ r =? 0)%nat then r
  else mk (maximum_frame_ r) (drop (consumed_ r) (buffer_ r)) 0 (frame_ r) (violated_ r).

(** [consumed_] stays within the buffer, so that the subtraction is exact. *)
Definition next (r : t) : t * res TransportError (list Z) :=
  if violated_ r then (r, Ok []) else
  let available := (length (buffer_ r) - consumed_ r)%nat in
  if (available <? kTcpLengthPrefixSize)%nat then (compact r, Ok []) else
  let base := drop (consumed_ r) (buffer_ r) in
  match (let* high := rd base 0 in let* low := rd base 1 in Ok (Z.lor (u32 (Z.shiftl high 8)) low)) with
  | Ok length_ =>
      if maximum_frame_ r <? length_
      then (mk (maximum_frame_ r) (buffer_ r) (consumed_ r) (frame_ r) true, Ok []) else
      if (available <? kTcpLengthPrefixSize + Z.to_nat length_)%nat then (compact r, Ok []) else
      let frame := take (Z.to_nat length_) (drop kTcpLengthPrefixSize base) in
      let consumed := (consumed_ r + (kTcpLengthPrefixSize + Z.to_nat length_))%nat in
      let r' := mk (maximum_frame_ r) (buffer_ r) consumed frame (violated_ r) in
      let r' := if (kReadBufferSize <? consumed)%nat || (length (buffer_ r) <? consumed * 2)%nat
                then compact r' else r' in
      (r', Ok frame)
  | Fail e => (r, Fail e)
  | Ub => (r, Ub)
  end.

Definition buffered (r : t) : nat := length (buffer_ r) - consumed_ r.
Definition reset (r : t) : t := mk (maximum_frame_ r) [] 0 [] false.
End FrameReassembler.
Abbreviation FrameReassembler := FrameReassembler.t.

(** ** The kernel's side of a connection *)

Inductive Sending := Accepts (n : nat) | SendInterrupted | SendBlocked | SendBroken.
(** [Bytes []] is the end of the stream. *)
Inductive Arrival := Bytes (l : list Z) | Interrupted | Blocked | Broken.
Inductive Errno := EINTR | EAGAIN | EOTHER.

Record Socket := mkSocket { answers : list Sending; arrivals : list Arrival; wire : list Z }.

(** [::send]: the bytes taken go on the wire. *)
Definition sys_send (bytes : list Z) : effect Socket Errno nat := λ s,
  match answers s with
  | [] => (s, Fail EAGAIN)
  | Accepts n :: rest =>
      let n := Nat.min n (length bytes) in (mkSocket rest (arrivals s) (wire s ++ take n bytes), Ok n)
  | SendInterrupted :: rest => (mkSocket rest (arrivals s) (wire s), Fail EINTR)
  | SendBlocked :: rest => (mkSocket rest (arrivals s) (wire s), Fail EAGAIN)
  | SendBroken :: rest => (mkSocket rest (arrivals s) (wire s), Fail EOTHER)
  end.

(** [::read] and [::recv] of at most [size] bytes; what does not fit stays. *)
Definition sys_read (size : nat) : effect Socket Errno (list Z) := λ s,
  match arrivals s with
  | [] => (s, Fail EAGAIN)
  | Bytes l :: rest =>
      let left := if (length l <=? size)%nat then rest else Bytes (drop size l) :: rest in
      (mkSocket (answers s) left (wire s), Ok (take size l))
  | Interrupted :: rest => (mkSocket (answers s) rest (wire s), Fail EINTR)
  | Blocked :: rest => (mkSocket (answers s) rest (wire s), Fail EAGAIN)
  | Broken :: rest => (mkSocket (answers s) rest (wire s), Fail EOTHER)
  end.

(** ** [TlsSession] *)

Module TlsError.
Inductive t :=
| unsupported | initialisation_failed | handshake_failed | handshake_pending | closed | send_failed | receive_failed
| bad_parameters.
End TlsError.
Abbreviation TlsError := TlsError.t.

(** [initialised]: [impl_] is set and initialised. *)
Record TlsSession := mkTls { initialised : bool; established_ : bool }.

(** [gnutls_handshake]: done, to be called again, or failed. *)
Definition handshake_ (answer : res Errno unit) (s : TlsSession) : TlsSession * res TlsError bool :=
  if negb (initialised s) then (s, Fail TlsError.unsupported) else
  if established_ s then (s, Ok true) else
  match answer with
  | Ok _ => (mkTls (initialised s) true, Ok true)
  | Fail EAGAIN | Fail EINTR => (s, Ok false)
  | _ => (s, Fail TlsError.handshake_failed)
  end.

Definition tls_send (s : TlsSession) (bytes : list Z) (k : Socket) : Socket * res TlsError nat :=
  if negb (established_ s) then (k, Fail TlsError.handshake_pending) else
  match sys_send bytes k with
  | (k, Ok n) => (k, Ok n)
  | (k, Fail EAGAIN) | (k, Fail EINTR) => (k, Ok 0%nat)
  | (k, _) => (k, Fail TlsError.send_failed)
  end.

Definition tls_receive (s : TlsSession) (size : nat) (k : Socket) : Socket * res TlsError (list Z) :=
  if negb (established_ s) then (k, Fail TlsError.handshake_pending) else
  match sys_read size k with
  | (k, Ok []) => (k, Fail TlsError.closed)
  | (k, Ok bytes) => (k, Ok bytes)
  | (k, Fail EAGAIN) | (k, Fail EINTR) => (k, Ok [])
  | (k, _) => (k, Fail TlsError.receive_failed)
  end.

(** ** Greetings *)

Inductive GreetProfile := pop3_profile | smtp | xmpp.

Record GreetScript := mkScript {
  greeting : list Z;
  client_reply : list Z;
  server_ack : list Z;
  client_final : list Z;
  server_final : list Z;
}.

Definition line (s : string) : list Z := text s ++ [13; 10].

Definition greet_script (profile : GreetProfile) : GreetScript :=
  match profile with
  | smtp =>
      mkScript (line "220 mail.example.com ESMTP Postfix") (line "EHLO localhost") (line "250-mail.example.com")
        (line "MAIL FROM:<norr@localhost>") (line "250 2.1.0 Ok")
  | xmpp =>
      mkScript
        (line "<stream:stream xmlns='jabber:client' xmlns:stream='http://etherx.jabber.org/streams' version='1.0'>")
        (line "<?xml version='1.0'?><stream:stream to='example.com' xmlns='jabber:client' version='1.0'>")
        (line "<stream:features/>")
        (line "<iq type='get' id='n1'><ping xmlns='urn:xmpp:ping'/></iq>")
        (line "<iq type='result' id='n1'/>")
  | pop3_profile =>
      mkScript (line "+OK POP3 ready") (line "USER norr") (line "+OK") (line "PASS norr") (line "+OK logged in")
  end.

Definition kSshClientBanner : list Z := line "SSH-2.0-OpenSSH_9.6p1 Ubuntu-3ubuntu13".
Definition kSshServerBanner : list Z := line "SSH-2.0-OpenSSH_9.6p1 Ubuntu-3ubuntu13.5".
Definition kSshMaxBannerSize : nat := 255.

(** ** [TcpTransport] *)

(** The members of the greeting, of the SSH disguise with the state of its
    padding generator, and of the reality settings. *)
Record Pop3 := mkPop3 {
  pop3_active_ : bool;
  pop3_ready_ : bool;
  pop3_client_ : bool;
  pop3_step_ : nat;
  pop3_inbox_ : list Z;
  pop3_profile_ : GreetProfile;
}.
Record Ssh := mkSsh {
  ssh_active_ : bool;
  ssh_ready_ : bool;
  ssh_client_ : bool;
  ssh_inbox_ : list Z;
  ssh_reassembly_ : list Z;
  pad_state : Z;
}.
Module RealityMode.
Inductive t := off | client | server.
End RealityMode.
Record RealitySettings := mkRealitySettings {
  mode_ : RealityMode.t;
  server_public_ : list Z;
  server_private_ : list Z;
  short_id_ : list Z;
  window_ : Z;
}.

Record TcpTransport := mkTcp {
  socket_ : option Socket;
  mark_ : Z;
  state_ : TcpState;
  reassembler_ : FrameReassembler.t;
  outbox_ : list Z;
  record_ : list Z;
  ready_ : list (list Z);
  ready_head_ : nat;
  tls_ : option TlsSession;
  camo_ : option CamouflageFramer;
  camo_ready_ : bool;
  pop3 : Pop3;
  ssh : Ssh;
  reality_ : RealitySettings;
  stats_ : TcpStats;
}.

Definition with_socket (v : option Socket) (t : TcpTransport) : TcpTransport :=
  mkTcp v (mark_ t) (state_ t) (reassembler_ t) (outbox_ t) (record_ t) (ready_ t) (ready_head_ t) (tls_ t)
    (camo_ t) (camo_ready_ t) (pop3 t) (ssh t) (reality_ t) (stats_ t).
Definition with_state (v : TcpState) (t : TcpTransport) : TcpTransport :=
  mkTcp (socket_ t) (mark_ t) v (reassembler_ t) (outbox_ t) (record_ t) (ready_ t) (ready_head_ t) (tls_ t)
    (camo_ t) (camo_ready_ t) (pop3 t) (ssh t) (reality_ t) (stats_ t).
Definition with_reassembler (v : FrameReassembler.t) (t : TcpTransport) : TcpTransport :=
  mkTcp (socket_ t) (mark_ t) (state_ t) v (outbox_ t) (record_ t) (ready_ t) (ready_head_ t) (tls_ t)
    (camo_ t) (camo_ready_ t) (pop3 t) (ssh t) (reality_ t) (stats_ t).
Definition with_outbox (v : list Z) (t : TcpTransport) : TcpTransport :=
  mkTcp (socket_ t) (mark_ t) (state_ t) (reassembler_ t) v (record_ t) (ready_ t) (ready_head_ t) (tls_ t)
    (camo_ t) (camo_ready_ t) (pop3 t) (ssh t) (reality_ t) (stats_ t).
Definition with_record (v : list Z) (t : TcpTransport) : TcpTransport :=
  mkTcp (socket_ t) (mark_ t) (state_ t) (reassembler_ t) (outbox_ t) v (ready_ t) (ready_head_ t) (tls_ t)
    (camo_ t) (camo_ready_ t) (pop3 t) (ssh t) (reality_ t) (stats_ t).
Definition with_tls (v : option TlsSession) (t : TcpTransport) : TcpTransport :=
  mkTcp (socket_ t) (mark_ t) (state_ t) (reassembler_ t) (outbox_ t) (record_ t) (ready_ t) (ready_head_ t) v
    (camo_ t) (camo_ready_ t) (pop3 t) (ssh t) (reality_ t) (stats_ t).
Definition with_camo (v : option CamouflageFramer) (t : TcpTransport) : TcpTransport :=
  mkTcp (socket_ t) (mark_ t) (state_ t) (reassembler_ t) (outbox_ t) (record_ t) (ready_ t) (ready_head_ t)
    (tls_ t) v (camo_ready_ t) (pop3 t) (ssh t) (reality_ t) (stats_ t).
Definition with_camo_ready (v : bool) (t : TcpTransport) : TcpTransport :=
  mkTcp (socket_ t) (mark_ t) (state_ t) (reassembler_ t) (outbox_ t) (record_ t) (ready_ t) (ready_head_ t)
    (tls_ t) (camo_ t) v (pop3 t) (ssh t) (reality_ t) (stats_ t).
Definition with_pop3 (v : Pop3) (t : TcpTransport) : TcpTransport :=
  mkTcp (socket_ t) (mark_ t) (state_ t) (reassembler_ t) (outbox_ t) (record_ t) (ready_ t) (ready_head_ t)
    (tls_ t) (camo_ t) (camo_ready_ t) v (ssh t) (reality_ t) (stats_ t).
Definition with_ssh (v : Ssh) (t : TcpTransport) : TcpTransport :=
  mkTcp (socket_ t) (mark_ t) (state_ t) (reassembler_ t) (outbox_ t) (record_ t) (ready_ t) (ready_head_ t)
    (tls_ t) (camo_ t) (camo_ready_ t) (pop3 t) v (reality_ t) (stats_ t).
Definition with_stats (v : TcpStats) (t : TcpTransport) : TcpTransport :=
  mkTcp (socket_ t) (mark_ t) (state_ t) (reassembler_ t) (outbox_ t) (record_ t) (ready_ t) (ready_head_ t)
    (tls_ t) (camo_ t) (camo_ready_ t) (pop3 t) (ssh t) (reality_ t) v.
Definition with_reality_settings (v : RealitySettings) (t : TcpTransport) : TcpTransport :=
  mkTcp (socket_ t) (mark_ t) (state_ t) (reassembler_ t) (outbox_ t) (record_ t) (ready_ t) (ready_head_ t)
    (tls_ t) (camo_ t) (camo_ready_ t) (pop3 t) (ssh t) v (stats_ t).
Definition with_mark (v : Z) (t : TcpTransport) : TcpTransport :=
  mkTcp (socket_ t) v (state_ t) (reassembler_ t) (outbox_ t) (record_ t) (ready_ t) (ready_head_ t) (tls_ t)
    (camo_ t) (camo_ready_ t) (pop3 t) (ssh t) (reality_ t) (stats_ t).
Definition with_ready (v : list (list Z)) (n : nat) (t : TcpTransport) : TcpTransport :=
  mkTcp (socket_ t) (mark_ t) (state_ t) (reassembler_ t) (outbox_ t) (record_ t) v n (tls_ t) (camo_ t)
    (camo_ready_ t) (pop3 t) (ssh t) (reality_ t) (stats_ t).

Definition new_transport : TcpTransport :=
  let zero := replicate kPublicKeySize 0 in
  mkTcp None 0 closed (FrameReassembler.create kMaximumTcpFrame) [] [] [] 0 None None false
    (mkPop3 false false false 0 [] pop3_profile) (mkSsh false false false [] [] 0)
    (mkRealitySettings RealityMode.off zero zero (replicate kRealityShortIdSize 0) 120) (mkStats 0 0 0 0 0 0 0).

Definition count_connect (s : TcpStats) : TcpStats :=
  mkStats (frames_sent s) (frames_received s) (bytes_sent s) (bytes_received s) (u64 (connects s + 1)) (disconnects s)
    (oversized_rejected s).
Definition count_disconnect (s : TcpStats) : TcpStats :=
  mkStats (frames_sent s) (frames_received s) (bytes_sent s) (bytes_received s) (connects s) (u64 (disconnects s + 1))
    (oversized_rejected s).
Definition count_oversized (s : TcpStats) : TcpStats :=
  mkStats (frames_sent s) (frames_received s) (bytes_sent s) (bytes_received s) (connects s) (disconnects s)
    (u64 (oversized_rejected s + 1)).
Definition count_sent (bytes : nat) (s : TcpStats) : TcpStats :=
  mkStats (u64 (frames_sent s + 1)) (frames_received s) (u64 (bytes_sent s + Z.of_nat bytes)) (bytes_received s)
    (connects s) (disconnects s) (oversized_rejected s).
Definition count_received (bytes : nat) (s : TcpStats) : TcpStats :=
  mkStats (frames_sent s) (frames_received s) (bytes_sent s) (u64 (bytes_received s + Z.of_nat bytes)) (connects s)
    (disconnects s) (oversized_rejected s).
Definition count_frames (n : nat) (s : TcpStats) : TcpStats :=
  mkStats (frames_sent s) (u64 (frames_received s + Z.of_nat n)) (bytes_sent s) (bytes_received s) (connects s)
    (disconnects s) (oversized_rejected s).
Definition on_stats (f : TcpStats → TcpStats) (t : TcpTransport) : TcpTransport := with_stats (f (stats_ t)) t.

Definition set_mark (mark : Z) (t : TcpTransport) : TcpTransport := with_mark mark t.
Definition set_reality_client (server_public short_id : list Z) (t : TcpTransport) : TcpTransport :=
  let r := reality_ t in
  with_reality_settings (mkRealitySettings RealityMode.client server_public (server_private_ r) short_id (window_ r)) t.
Definition set_reality_server (server_private : list Z) (window_seconds : Z) (t : TcpTransport) : TcpTransport :=
  let r := reality_ t in
  with_reality_settings (mkRealitySettings RealityMode.server (server_public_ r) server_private (short_id_ r) window_seconds) t.

Definition with_pop3_off (t : TcpTransport) : TcpTransport :=
  let p := pop3 t in with_pop3 (mkPop3 false false (pop3_client_ p) (pop3_step_ p) (pop3_inbox_ p) (pop3_profile_ p)) t.

(** [release_socket]: the transport and the descriptor it gives up. *)
Definition release_socket (t : TcpTransport) : TcpTransport * option Socket :=
  let s := ssh t in
  (with_socket None
    (with_ssh (mkSsh false false (ssh_client_ s) (ssh_inbox_ s) [] (pad_state s))
      (with_pop3_off
        (with_camo_ready false (with_camo None (with_tls None (with_outbox []
          (with_reassembler (FrameReassembler.reset (reassembler_ t)) (with_state closed t)))))))), socket_ t).

Definition close (t : TcpTransport) : TcpTransport :=
  let t := if decide (state_ t = connected) then on_stats count_disconnect t else t in
  let t := with_state closed (with_socket None t) in
  let t := with_outbox [] (with_reassembler (FrameReassembler.reset (reassembler_ t)) t) in
  let t := with_camo_ready false (with_camo None (with_tls None t)) in
  let t := with_pop3 (mkPop3 false false (pop3_client_ (pop3 t)) 0 [] (pop3_profile_ (pop3 t))) t in
  with_ssh (mkSsh false false (ssh_client_ (ssh t)) [] [] (pad_state (ssh t))) t.

Abbreviation tcp := (effect TcpTransport TransportError).

(** [state_ = TcpState::failed; return std::unexpected(e);] *)
Definition fail_with {A} (e : TransportError) : tcp A :=
  bind _ := modify (with_state failed) in lift (Fail e).

(** A call on the descriptor; one that is not open is refused. *)
Definition syscall {A} (m : effect Socket Errno A) : tcp (res Errno A) := λ t,
  match socket_ t with
  | None => (t, Ok (Fail EOTHER))
  | Some s => let '(s, r) := m s in (with_socket (Some s) t, Ok r)
  end.
Definition tls_call {A} (m : Socket → Socket * res TlsError A) : tcp (res TlsError A) := λ t,
  match socket_ t with
  | None => (t, Ok (Fail TlsError.send_failed))
  | Some s => let '(s, r) := m s in (with_socket (Some s) t, Ok r)
  end.

(** ** Connecting *)

(** What the system answers while a socket is made and connected. *)
Inductive Connecting := connect_done | connect_in_progress | connect_refused.
Record Dialling := mkDialling {
  socket_made : bool;
  nodelay_set : bool;
  nonblocking_set : bool;
  connect_result : Connecting;
}.

(** [fresh] is the kernel's side of the new connection. *)
Definition connect (peer : Endpoint) (d : Dialling) (fresh : Socket) : tcp unit :=
  bind t := state in
  bind _ := check (bool_decide (state_ t = connected) || bool_decide (state_ t = connecting)) TransportError.already_started in
  bind _ := check (negb (socket_made d)) TransportError.socket_creation_failed in
  bind _ := check (negb (nodelay_set d)) TransportError.socket_option_failed in
  bind _ := check (negb (nonblocking_set d)) TransportError.socket_option_failed in
  bind _ := modify (with_outbox []) in
  match connect_result d with
  | connect_done =>
      modify (λ t, on_stats count_connect
        (with_reassembler (FrameReassembler.reset (reassembler_ t)) (with_state connected (with_socket (Some fresh) t))))
  | connect_in_progress =>
      modify (λ t, with_reassembler (FrameReassembler.reset (reassembler_ t)) (with_state connecting (with_socket (Some fresh) t)))
  | connect_refused => fail_with TransportError.send_failed
  end.

(** [SO_ERROR]: the query fails, the attempt goes on, succeeded, or failed. *)
Inductive SoError := query_failed | in_progress | no_error | other_error.

Definition poll_connect (answer : SoError) : tcp bool :=
  bind t := state in
  if bool_decide (state_ t = connected) then sret true else
  bind _ := check (negb (bool_decide (state_ t = connecting))) TransportError.not_started in
  match answer with
  | query_failed => fail_with TransportError.socket_option_failed
  | in_progress => sret false
  | other_error => bind _ := modify (λ t, with_socket None (with_state failed t)) in lift (Fail TransportError.send_failed)
  | no_error => bind _ := modify (λ t, on_stats count_connect (with_state connected t)) in sret true
  end.

(** ** Writing *)

(** Every interrupted call uses up an answer. *)
Fixpoint send_loop (fuel : nat) (bytes : list Z) : tcp nat :=
  match fuel with
  | O => lift Ub
  | S fuel =>
      bind sent := syscall (sys_send bytes) in
      match sent with
      | Ok n => sret n
      | Fail EINTR => send_loop fuel bytes
      | Fail EAGAIN => sret 0%nat
      | _ => fail_with TransportError.send_failed
      end
  end.

Definition answers_left (t : TcpTransport) : nat := match socket_ t with Some s => length (answers s) | None => 0 end.

Definition write_some (bytes : list Z) : tcp nat :=
  bind t := state in
  match tls_ t with
  | Some session =>
      if negb (established_ session) then sret 0%nat else
      bind sent := tls_call (tls_send session bytes) in
      match sent with
      | Ok n => sret n
      | Fail TlsError.handshake_pending => sret 0%nat
      | _ => fail_with TransportError.send_failed
      end
  | None => send_loop (S (answers_left t)) bytes
  end.

(** The loop over [write_some] of [flush_output] and [send_frame]: the offset
    it stops at.  Each turn but the last writes at least a byte. *)
Fixpoint write_loop (fuel : nat) (bytes : list Z) (offset : nat) : tcp nat :=
  match fuel with
  | O => lift Ub
  | S fuel =>
      if (length bytes <=? offset)%nat then sret offset else
      bind sent := write_some (drop offset bytes) in
      if (sent =? 0)%nat then sret offset else write_loop fuel bytes (offset + sent)
  end.
Definition write_bytes (bytes : list Z) : tcp nat := write_loop (S (length bytes)) bytes 0.

Definition none_left {A} (l : list A) : bool := match l with [] => true | _ => false end.

Definition flush_output : tcp bool :=
  bind t := state in
  bind _ := check (negb (bool_decide (state_ t = connected))) TransportError.not_started in
  bind offset := write_bytes (outbox_ t) in
  bind _ := modify (λ t, with_outbox (drop offset (outbox_ t)) t) in
  gets (λ t, none_left (outbox_ t)).

(** [record_[0]], [record_[1]] and the copy *)
Definition prefixed (frame : list Z) : list Z :=
  let size := Z.of_nat (length frame) in
  u8 (Z.land (Z.shiftr size 8) 0xFF) :: u8 (Z.land size 0xFF) :: frame.

Definition with_pad_state (v : Z) (t : TcpTransport) : TcpTransport :=
  let s := ssh t in
  with_ssh (mkSsh (ssh_active_ s) (ssh_ready_ s) (ssh_client_ s) (ssh_inbox_ s) (ssh_reassembly_ s) v) t.

(** The record of a frame in [record_]: an SSH record or the length prefix. *)
Definition fill_record (frame : list Z) : tcp unit :=
  bind t := state in
  if ssh_active_ (ssh t) then
    let record := resize (record_ t) (record_size (length frame)) in
    bind _ := modify (with_record record) in
    match SshFramer.wrap (pad_state (ssh t)) frame record with
    | Ok (record, pad, framed) => modify (λ t, with_record (resize record framed) (with_pad_state pad t))
    | Fail _ => lift (Fail TransportError.message_too_large)
    | Ub => lift Ub
    end
  else modify (with_record (prefixed frame)).

Definition send_frame (frame : list Z) (urgent : bool) : tcp nat :=
  bind t := state in
  bind _ := check (negb (bool_decide (state_ t = connected))) TransportError.not_started in
  bind _ := check (kMaximumTcpFrame <? blen frame) TransportError.message_too_large in
  bind _ := check (match tls_ t with Some session => negb (established_ session) | None => false end) TransportError.not_started in
  bind drained := flush_output in
  bind t := state in
  match camo_ t with
  | Some _ =>
      bind _ := check (negb drained && negb urgent && (kTcpOutboxLimit <=? blen (outbox_ t))) TransportError.would_block in
      match Camouflage.wrap frame with
      | Ok wrapped =>
          bind written := (if drained then write_bytes wrapped else sret 0%nat) in
          bind _ := modify (λ t, on_stats (count_sent (length wrapped))
            (with_outbox (outbox_ t ++ drop written wrapped) t)) in
          sret (length frame)
      | _ => lift Ub
      end
  | None =>
      bind _ := check (negb drained) TransportError.would_block in
      bind _ := fill_record frame in
      bind record := gets record_ in
      bind written := write_bytes record in
      bind _ := modify (λ t, on_stats (count_sent (length record))
        (if (written <? length record)%nat then with_outbox (drop written record) t else t)) in
      sret (length frame)
  end.

(** ** The disguises *)

Definition enable_tls (available started : bool) : tcp unit :=
  bind t := state in
  bind _ := check (negb (bool_decide (is_Some (socket_ t)))) TransportError.not_started in
  bind _ := check (bool_decide (is_Some (tls_ t))) TransportError.already_started in
  bind _ := check (negb available) TransportError.unsupported_platform in
  bind _ := check (negb started) TransportError.not_started in
  modify (with_tls (Some (mkTls true false))).

Definition poll_tls (answer : res Errno unit) : tcp bool :=
  bind t := state in
  match tls_ t with
  | None => sret true
  | Some session =>
      if established_ session then sret true else
      let '(session, done) := handshake_ answer session in
      bind _ := modify (with_tls (Some session)) in
      match done with
      | Ok b => sret b
      | Fail TlsError.handshake_pending => sret false
      | _ => fail_with TransportError.not_started
      end
  end.

Section disguised.
Context `{Dh} `{Keystream} `{Rng}.

(** [calls]: how many random strings were drawn before. *)
Definition enable_camouflage (role : Role) (server_name : list Z) (calls : nat) (unix_now : Z) : tcp unit :=
  bind t := state in
  bind _ := check (negb (bool_decide (is_Some (socket_ t)))) TransportError.not_started in
  bind _ := check (bool_decide (is_Some (camo_ t)) || bool_decide (is_Some (tls_ t))) TransportError.already_started in
  let framer := new_framer role server_name calls in
  let framer := match mode_ (reality_ t) with
    | RealityMode.client => configure_reality_client (server_public_ (reality_ t)) (short_id_ (reality_ t)) framer
    | RealityMode.server => configure_reality_server (server_private_ (reality_ t)) (window_ (reality_ t)) framer
    | RealityMode.off => framer
    end in
  let '(framer, hello) := Camouflage.open unix_now framer in
  modify (λ t, let t := with_camo_ready false (with_camo (Some framer) t) in
    if none_left hello then t else with_camo_ready true (with_outbox (outbox_ t ++ hello) t)).

Definition poll_camouflage : tcp bool :=
  bind t := state in
  match camo_ t with
  | None => sret true
  | Some _ =>
      bind _ := check (negb (bool_decide (state_ t = connected))) TransportError.not_started in
      bind _ := (if none_left (outbox_ t) then sret true else flush_output) in
      gets camo_ready_
  end.

Definition append_str (s : list Z) (t : TcpTransport) : TcpTransport := with_outbox (outbox_ t ++ s) t.

Definition enable_pop3 (client : bool) (profile : GreetProfile) : tcp unit :=
  bind t := state in
  bind _ := check (negb (bool_decide (is_Some (socket_ t)))) TransportError.not_started in
  bind _ := check (bool_decide (is_Some (tls_ t)) || bool_decide (is_Some (camo_ t)) || pop3_active_ (pop3 t))
    TransportError.already_started in
  bind _ := modify (with_pop3 (mkPop3 true false client 0 [] profile)) in
  if client then sret tt else modify (append_str (greeting (greet_script profile))).

Definition count_lines (inbox : list Z) : nat := length (filter (λ b, b = 10) inbox).
Definition with_pop3_inbox (inbox : list Z) (t : TcpTransport) : TcpTransport :=
  let p := pop3 t in
  with_pop3 (mkPop3 (pop3_active_ p) (pop3_ready_ p) (pop3_client_ p) (pop3_step_ p) inbox (pop3_profile_ p)) t.
Definition with_pop3_step (step : nat) (ready : bool) (t : TcpTransport) : TcpTransport :=
  let p := pop3 t in with_pop3 (mkPop3 (pop3_active_ p) (pop3_ready_ p || ready) (pop3_client_ p) step [] (pop3_profile_ p)) t.

(** What is still to be read of the socket, an interruption counting one. *)
Definition arrivals_left (t : TcpTransport) : nat :=
  match socket_ t with
  | Some s => sum_list_with (λ a, match a with Bytes l => S (length l) | _ => 1%nat end) (arrivals s)
  | None => 0
  end.

(** One byte at a time until [lines_needed] lines are there. *)
Fixpoint pop3_loop (fuel lines_needed : nat) : tcp unit :=
  match fuel with
  | O => lift Ub
  | S fuel =>
      bind inbox := gets (λ t, pop3_inbox_ (pop3 t)) in
      if (lines_needed <=? count_lines inbox)%nat then sret tt else
      bind got := syscall (sys_read 1) in
      match got with
      | Ok (b :: _) => bind _ := modify (λ t, with_pop3_inbox (pop3_inbox_ (pop3 t) ++ [b]) t) in pop3_loop fuel lines_needed
      | Ok [] => fail_with TransportError.receive_failed
      | Fail EINTR => pop3_loop fuel lines_needed
      | Fail EAGAIN => sret tt
      | _ => fail_with TransportError.receive_failed
      end
  end.

Definition has_line (t : TcpTransport) : bool := (1 <=? count_lines (pop3_inbox_ (pop3 t)))%nat.

(** A step of the script that a line of the other side completes. *)
Definition script_step (step next : nat) (ready : bool) (says : list Z) (t : TcpTransport) : TcpTransport :=
  if (pop3_step_ (pop3 t) =? step)%nat && has_line t then with_pop3_step next ready (append_str says t) else t.

Definition pop3_answer (t : TcpTransport) : TcpTransport :=
  let script := greet_script (pop3_profile_ (pop3 t)) in
  if pop3_client_ (pop3 t) then
    let t := script_step 0 1 false (client_reply script) t in
    let t := script_step 1 2 false (client_final script) t in
    script_step 2 2 true [] t
  else
    let t := script_step 0 1 false (server_ack script) t in
    script_step 1 2 true (server_final script) t.

(** [static_cast<void>(flush_output());] *)
Definition flush_ignoring : tcp unit := λ t, match flush_output t with (t, Ub) => (t, Ub) | (t, _) => (t, Ok tt) end.

Definition poll_pop3 : tcp bool :=
  bind t := state in
  if negb (pop3_active_ (pop3 t)) then sret true else
  bind _ := check (negb (bool_decide (state_ t = connected))) TransportError.not_started in
  if pop3_ready_ (pop3 t) then sret true else
  bind blocked := (if none_left (outbox_ t) then sret false
                   else bind drained := flush_output in sret (negb drained)) in
  if blocked then sret false else
  bind t := state in
  bind _ := pop3_loop (S (arrivals_left t)) (pop3_step_ (pop3 t) + 1) in
  bind _ := modify pop3_answer in
  bind t := state in
  bind _ := (if none_left (outbox_ t) then sret tt else flush_ignoring) in
  gets (λ t, pop3_ready_ (pop3 t)).

Definition enable_ssh (client : bool) : tcp unit :=
  bind t := state in
  bind _ := check (negb (bool_decide (is_Some (socket_ t)))) TransportError.not_started in
  bind _ := check (bool_decide (is_Some (tls_ t)) || bool_decide (is_Some (camo_ t)) || pop3_active_ (pop3 t) || ssh_active_ (ssh t))
    TransportError.already_started in
  bind _ := modify (with_ssh (mkSsh true false client [] [] (pad_state (ssh t)))) in
  modify (append_str (if client then kSshClientBanner else kSshServerBanner)).

Definition with_ssh_inbox (inbox : list Z) (t : TcpTransport) : TcpTransport :=
  let s := ssh t in
  with_ssh (mkSsh (ssh_active_ s) (ssh_ready_ s) (ssh_client_ s) inbox (ssh_reassembly_ s) (pad_state s)) t.
Definition with_ssh_ready (t : TcpTransport) : TcpTransport :=
  let s := ssh t in with_ssh (mkSsh (ssh_active_ s) true (ssh_client_ s) [] (ssh_reassembly_ s) (pad_state s)) t.
Definition with_ssh_reassembly (bytes : list Z) (t : TcpTransport) : TcpTransport :=
  let s := ssh t in
  with_ssh (mkSsh (ssh_active_ s) (ssh_ready_ s) (ssh_client_ s) (ssh_inbox_ s) bytes (pad_state s)) t.

Definition any_line (inbox : list Z) : bool := existsb (λ b, b =? 10) inbox.

Fixpoint ssh_loop (fuel : nat) : tcp unit :=
  match fuel with
  | O => lift Ub
  | S fuel =>
      bind inbox := gets (λ t, ssh_inbox_ (ssh t)) in
      if any_line inbox then sret tt else
      if (kSshMaxBannerSize <? length inbox)%nat then fail_with TransportError.receive_failed else
      bind got := syscall (sys_read 1) in
      match got with
      | Ok (b :: _) => bind _ := modify (λ t, with_ssh_inbox (ssh_inbox_ (ssh t) ++ [b]) t) in ssh_loop fuel
      | Ok [] => fail_with TransportError.receive_failed
      | Fail EINTR => ssh_loop fuel
      | Fail EAGAIN => sret tt
      | _ => fail_with TransportError.receive_failed
      end
  end.

Definition poll_ssh : tcp bool :=
  bind t := state in
  if negb (ssh_active_ (ssh t)) then sret true else
  bind _ := check (negb (bool_decide (state_ t = connected))) TransportError.not_started in
  if ssh_ready_ (ssh t) then sret true else
  bind blocked := (if none_left (outbox_ t) then sret false
                   else bind drained := flush_output in sret (negb drained)) in
  if blocked then sret false else
  bind t := state in
  bind _ := ssh_loop (S (arrivals_left t)) in
  bind _ := modify (λ t, if any_line (ssh_inbox_ (ssh t)) then with_ssh_ready t else t) in
  gets (λ t, ssh_ready_ (ssh t)).

(** ** Reading *)

(** The loop of [fill_ready] over SSH records: [offset] into the bytes held,
    [ready_] so far, and whether the records were well formed. *)
Fixpoint fill_ssh (fuel out_size : nat) (held payload : list Z) (offset : nat) (ready : list (list Z))
    : res TransportError (nat * list (list Z) * bool) :=
  match fuel with
  | O => Ub
  | S fuel =>
      if (out_size <=? length ready)%nat then Ok (offset, ready, true) else
      let* view := subspan_from held offset in
      match SshFramer.unwrap view payload with
      | Ok (payload, size, consumed) => fill_ssh fuel out_size held payload (offset + consumed) (ready ++ [take size payload])
      | Fail SshFramer.incomplete => Ok (offset, ready, true)
      | Fail _ => Ok (offset, ready, false)
      | Ub => Ub
      end
  end.

(** The loop of [fill_ready] over length prefixes. *)
Fixpoint fill_plain (fuel out_size : nat) (r : FrameReassembler) (ready : list (list Z))
    : res TransportError (FrameReassembler * list (list Z) * bool) :=
  match fuel with
  | O => Ub
  | S fuel =>
      if (out_size <=? length ready)%nat then Ok (r, ready, true) else
      let '(r, frame) := FrameReassembler.next r in
      let* frame := frame in
      if FrameReassembler.violated_ r then Ok (r, ready, false) else
      if none_left frame then Ok (r, ready, true) else
      fill_plain fuel out_size r (ready ++ [frame])
  end.

(** Each turn adds a frame to [ready_]. *)
Definition fill_ready (out_size : nat) : tcp bool :=
  bind t := state in
  if ssh_active_ (ssh t) then
    bind r := lift (fill_ssh (S out_size) out_size (ssh_reassembly_ (ssh t)) (replicate (Z.to_nat kMaximumTcpFrame) 0) 0 (ready_ t)) in
    let '(offset, ready, fine) := r in
    bind _ := modify (with_ready ready (ready_head_ t)) in
    bind _ := modify (λ t, if fine then with_ssh_reassembly (drop offset (ssh_reassembly_ (ssh t))) t else t) in
    sret fine
  else
    bind r := lift (fill_plain (S out_size) out_size (reassembler_ t) (ready_ t)) in
    let '(reassembler, ready, fine) := r in
    bind _ := modify (λ t, with_ready ready (ready_head_ t) (with_reassembler reassembler t)) in
    sret fine.

(** [if (!fill_ready()) ...] *)
Definition fill_or_fail (out_size : nat) : tcp unit :=
  bind fine := fill_ready out_size in
  if fine then sret tt else
  bind _ := modify (on_stats count_oversized) in fail_with TransportError.message_too_large.

(** What one call for bytes finds: some, none for now, the end, or an
    interruption. *)
Inductive Reading := received (bytes : list Z) | drained | ended | again.

Definition read_socket : tcp Reading :=
  bind t := state in
  match tls_ t with
  | Some session =>
      bind _ := check (negb (established_ session)) TransportError.not_started in
      bind got := tls_call (tls_receive session kReadBufferSize) in
      match got with
      | Ok [] => sret drained
      | Ok bytes => sret (received bytes)
      | Fail TlsError.closed => sret ended
      | Fail TlsError.handshake_pending => sret drained
      | _ => fail_with TransportError.receive_failed
      end
  | None =>
      bind got := syscall (sys_read kReadBufferSize) in
      match got with
      | Ok [] => sret ended
      | Ok bytes => sret (received bytes)
      | Fail EINTR => sret again
      | Fail EAGAIN => sret drained
      | _ => fail_with TransportError.receive_failed
      end
  end.

(** The bytes of a read go to the reassembly of the framing in use. *)
Definition absorb (bytes : list Z) : tcp unit :=
  bind t := state in
  if ssh_active_ (ssh t) then modify (with_ssh_reassembly (ssh_reassembly_ (ssh t) ++ bytes)) else
  let '(r, pushed) := FrameReassembler.push bytes (reassembler_ t) in
  bind _ := modify (with_reassembler r) in
  if pushed then sret tt else fail_with TransportError.receive_failed.

Fixpoint read_loop (fuel out_size : nat) : tcp unit :=
  match fuel with
  | O => lift Ub
  | S fuel =>
      bind t := state in
      if (out_size <=? length (ready_ t))%nat then sret tt else
      bind found := read_socket in
      match found with
      | again => read_loop fuel out_size
      | ended => modify (λ t, on_stats count_disconnect (with_state failed t))
      | drained => sret tt
      | received bytes =>
          bind _ := absorb bytes in
          bind _ := modify (on_stats (count_received (length bytes))) in
          bind _ := fill_or_fail out_size in
          read_loop fuel out_size
      end
  end.

(** Frames handed out from [ready_] on. *)
Definition hand_out (out_size : nat) : tcp (list (list Z)) :=
  bind t := state in
  let frames := take out_size (drop (ready_head_ t) (ready_ t)) in
  bind _ := modify (λ t, on_stats (count_frames (length frames)) (with_ready (ready_ t) (ready_head_ t + length frames) t)) in
  sret frames.

(** The camouflage framer's payloads until it has none. *)
Definition take_payloads (unix_now : Z) (bytes : list Z) (framer : CamouflageFramer) (t : TcpTransport) : TcpTransport :=
  let framer := feed bytes framer in
  let '(framer, payloads) := drain (S (length (inbox_ (inbox framer)))) unix_now framer in
  with_ready (ready_ t ++ payloads) (ready_head_ t) (on_stats (count_received (length bytes)) (with_camo (Some framer) t)).

Fixpoint camo_loop (fuel out_size : nat) (unix_now : Z) : tcp unit :=
  match fuel with
  | O => lift Ub
  | S fuel =>
      bind got := syscall (sys_read kReadBufferSize) in
      match got with
      | Ok [] => modify (λ t, on_stats count_disconnect (with_state failed t))
      | Ok bytes =>
          bind _ := modify (λ t, match camo_ t with Some framer => take_payloads unix_now bytes framer t | None => t end) in
          bind t := state in
          if (out_size <=? length (ready_ t))%nat then sret tt else camo_loop fuel out_size unix_now
      | Fail EINTR => camo_loop fuel out_size unix_now
      | Fail EAGAIN => sret tt
      | _ => fail_with TransportError.receive_failed
      end
  end.

(** The end of a camouflaged read: a violation, or the reply to a hello. *)
Definition camo_settle : tcp unit :=
  bind t := state in
  match camo_ t with
  | None => sret tt
  | Some framer =>
      if Camouflage.violated_ framer then fail_with TransportError.receive_failed else
      let '(framer, reply) := take_handshake_reply framer in
      bind _ := modify (with_camo (Some framer)) in
      bind _ := (if none_left reply then sret tt
                 else bind _ := modify (append_str reply) in flush_ignoring) in
      modify (λ t, if handshake_done_ framer then with_camo_ready true t else t)
  end.

Definition receive_frames (out_size : nat) (unix_now : Z) : tcp (list (list Z)) :=
  bind t := state in
  bind _ := check (negb (bool_decide (state_ t = connected))) TransportError.not_started in
  if (out_size =? 0)%nat then sret [] else
  let fresh := (length (ready_ t) <=? ready_head_ t)%nat in
  bind _ := (if fresh then modify (with_ready [] 0) else sret tt) in
  match camo_ t with
  | Some _ =>
      bind _ := (if fresh then bind _ := camo_loop (S (arrivals_left t)) out_size unix_now in camo_settle else sret tt) in
      hand_out out_size
  | None =>
      bind _ := (if fresh then bind _ := fill_or_fail out_size in read_loop (S (arrivals_left t)) out_size else sret tt) in
      hand_out out_size
  end.

End disguised.

(** ** [TcpListener] *)

(** [accept4]: a connection, none yet, or an error. *)
Definition accept (listening : bool) (answer : res Errno Socket) : res TransportError (option TcpTransport) :=
  throw TransportError.not_started when negb listening else
  match answer with
  | Ok s => Ok (Some (with_state connected (with_socket (Some s) new_transport)))
  | Fail EAGAIN => Ok None
  | _ => Fail TransportError.receive_failed
  end.

(** ** [TcpReconnector] *)

Definition kInitialDelay : Duration := milliseconds 250.
Definition kMaximumDelay : Duration := seconds 30.

Record TcpReconnector := mkReconnector {
  peer_ : Endpoint;
  attempts_ : Z;
  next_attempt_ : Instant;
  reconnects_ : Z;
}.
Definition new_reconnector (peer : Endpoint) : TcpReconnector := mkReconnector peer 0 0 0.

Fixpoint delay_loop (fuel : nat) (attempts step delay : Z) : Z :=
  match fuel with
  | O => delay
  | S fuel =>
      if (step <? attempts) && (delay <? kMaximumDelay) then delay_loop fuel attempts (step + 1) (delay * 2) else delay
  end.
(** Seven doublings pass the maximum. *)
Definition current_delay (r : TcpReconnector) : Duration := Z.min (delay_loop 8 (attempts_ r) 0 kInitialDelay) kMaximumDelay.

Definition note_disconnected (now : Instant) (r : TcpReconnector) : TcpReconnector :=
  let r := mkReconnector (peer_ r) (u32 (attempts_ r + 1)) (next_attempt_ r) (reconnects_ r) in
  mkReconnector (peer_ r) (attempts_ r) (now + current_delay r) (reconnects_ r).
Definition note_stable (r : TcpReconnector) : TcpReconnector := mkReconnector (peer_ r) 0 (next_attempt_ r) (reconnects_ r).

(** [d], [fresh] and [answer] are what the system says if it is asked. *)
Definition poll (d : Dialling) (fresh : Socket) (answer : SoError) (now : Instant) (rt : TcpReconnector * TcpTransport)
    : TcpReconnector * TcpTransport :=
  let '(r, t) := rt in
  match state_ t with
  | connected => (r, t)
  | connecting =>
      match poll_connect answer t with
      | (t, Ok true) => (mkReconnector (peer_ r) (attempts_ r) (next_attempt_ r) (u64 (reconnects_ r + 1)), t)
      | (t, Ok false) => (r, t)
      | (t, _) => (note_disconnected now r, close t)
      end
  | failed => (note_disconnected now r, close t)
  | closed =>
      if negb (next_attempt_ r =? 0) && (now <? next_attempt_ r) then (r, t) else
      match connect (peer_ r) d fresh t with
      | (t, Ok _) => (r, t)
      | (t, _) => (note_disconnected now r, t)
      end
  end.
