(* ===== verification/TcpStream.v ===== *)
(** The two directions of [TcpTransport]: what is written, what is read.

    [write_bytes_spec] and [tcp_flush_spec] describe a write under any answers of
    the socket.  [Framing] is what [send_frame] and [receive_frames] need of a
    framing; the length prefix and the SSH record satisfy it. *)

From S2P Require Import Prelude Packet Fec SshFramer Camouflage CamouflageRecords CamouflageFlow Tcp.

(** ** Writing *)

(** [l] went on the wire; what is to be read did not change. *)
Definition wrote (l : list Z) (s s' : Socket) : Prop :=
  arrivals s' = arrivals s ∧ wire s' = wire s ++ l.

Lemma wrote_nil s s' : arrivals s' = arrivals s → wire s' = wire s → wrote [] s s'.
Proof. intros E1 E2. split; [done|]. by rewrite app_nil_r. Qed.
Lemma wrote_app l k s s' s'' : wrote l s s' → wrote k s' s'' → wrote (l ++ k) s s''.
Proof. intros [E1 E2] [E3 E4]. split; [congruence|]. by rewrite E4, E2, app_assoc. Qed.

Lemma with_socket_same t s : socket_ t = Some s → with_socket (Some s) t = t.
Proof. intros <-. by destruct t. Qed.

(** A write of some of [bytes], or of a part of them before the socket breaks. *)
Inductive writes (bytes : list Z) (t : TcpTransport) (s : Socket) : TcpTransport * res TransportError nat → Prop :=
| writes_some s' n : (n ≤ length bytes)%nat → wrote (take n bytes) s s' →
    writes bytes t s (with_socket (Some s') t, Ok n)
| writes_breaks s' n : (n < length bytes)%nat ∨ bytes = [] ∧ n = 0%nat → wrote (take n bytes) s s' →
    writes bytes t s (with_state failed (with_socket (Some s') t), Fail TransportError.send_failed).

Lemma sys_send_spec bytes s : let r := sys_send bytes s in
  match r.2 with
  | Ok n => (n ≤ length bytes)%nat ∧ wrote (take n bytes) s r.1
  | Fail EINTR => wrote [] s r.1 ∧ (length (answers r.1) < length (answers s))%nat
  | Fail _ => wrote [] s r.1
  | Ub => False
  end.
Proof.
  destruct s as [[|[n| | |] rest] arr w]; cbn; try (by apply wrote_nil).
  - split; [lia|]. done.
  - split; [by apply wrote_nil|lia].
Qed.

Lemma breaks_at_once bytes t s s' : wrote [] s s' →
  writes bytes t s (with_state failed (with_socket (Some s') t), Fail TransportError.send_failed).
Proof. intros Hw. apply (writes_breaks _ _ _ _ 0); [|done]. destruct bytes; [by right|left; simpl; lia]. Qed.

Lemma send_loop_spec bytes fuel : ∀ t s, socket_ t = Some s → (length (answers s) < fuel)%nat →
  writes bytes t s (send_loop fuel bytes t).
Proof.
  induction fuel as [|fuel IH]; intros t s Hs Hf; [lia|]. cbn [send_loop]. unfold sbind, syscall. rewrite Hs.
  pose proof (sys_send_spec bytes s) as Hsend. destruct (sys_send bytes s) as [s' [n|[]|]]; cbn [fst snd] in Hsend.
  - destruct Hsend. by apply writes_some.
  - destruct Hsend as [Hw Ha].
    assert (∀ r, writes bytes (with_socket (Some s') t) s' r → writes bytes t s r) as Hlift.
    { intros r Hr. destruct Hr as [s2 n Hn Hw2|s2 n Hn Hw2].
      - apply (writes_some bytes t s s2 n Hn). exact (wrote_app [] _ _ _ _ Hw Hw2).
      - apply (writes_breaks bytes t s s2 n Hn). exact (wrote_app [] _ _ _ _ Hw Hw2). }
    apply Hlift, IH; [done|lia].
  - apply writes_some; [lia|done].
  - by apply breaks_at_once.
  - done.
Qed.

Lemma write_some_spec bytes t s : socket_ t = Some s → writes bytes t s (write_some bytes t).
Proof.
  intros Hs. unfold write_some, sbind, state, gets. destruct (tls_ t) as [[i e]|] eqn:Et; cbn [established_].
  2:{ apply send_loop_spec; [done|]. unfold answers_left. rewrite Hs. lia. }
  assert (writes bytes t s (t, Ok 0%nat)) as Hnone.
  { rewrite <- (with_socket_same t s Hs) at 2. apply writes_some; [lia|]. by apply wrote_nil. }
  destruct e; [|done]. cbn [negb]. unfold tls_call. rewrite Hs. unfold tls_send. cbn [established_ negb].
  pose proof (sys_send_spec bytes s) as Hsend. destruct (sys_send bytes s) as [s' [n|[]|]]; cbn [fst snd] in Hsend.
  - destruct Hsend. by apply writes_some.
  - destruct Hsend as [Hw _]. apply writes_some; [lia|done].
  - apply writes_some; [lia|done].
  - by apply breaks_at_once.
  - done.
Qed.

(** Each turn of the loop but the last writes a byte, so the loop ends. *)
Lemma write_loop_spec bytes fuel : ∀ t s offset, socket_ t = Some s → (offset ≤ length bytes)%nat → (length bytes - offset < fuel)%nat →
  ∃ s' (n : nat) (r : bool), write_loop fuel bytes offset t = (if r then with_socket (Some s') t else with_state failed (with_socket (Some s') t),
      if r then Ok (offset + n)%nat else Fail TransportError.send_failed) ∧
    (offset + n ≤ length bytes)%nat ∧ (r = false → (offset + n < length bytes)%nat) ∧ wrote (take n (drop offset bytes)) s s'.
Proof.
  induction fuel as [|fuel IH]; intros t s offset Hs Ho Hf; [lia|]. cbn [write_loop].
  assert (wrote (take 0 (drop offset bytes)) s s) as Hnil by (by apply wrote_nil).
  destruct (Nat.leb_spec (length bytes) offset).
  { exists s, 0%nat, true. rewrite (with_socket_same t s Hs), Nat.add_0_r. done. }
  unfold sbind. pose proof (write_some_spec (drop offset bytes) t s Hs) as Hw.
  destruct Hw as [s' n Hn Hw|s' n Hn Hw]; rewrite length_drop in Hn.
  - destruct (Nat.eqb_spec n 0) as [->|Hn0].
    { exists s', 0%nat, true. rewrite Nat.add_0_r. done. }
    destruct (IH (with_socket (Some s') t) s' (offset + n)%nat eq_refl ltac:(lia) ltac:(lia)) as (s2 & m & r & -> & Hm & Hr & Hw2).
    exists s2, (n + m)%nat, r. rewrite Nat.add_assoc. split; [by destruct r|]. split; [done|]. split; [done|].
    rewrite <- drop_drop in Hw2. rewrite <- take_take_drop. by eapply wrote_app.
  - destruct Hn as [Hn|[Hn ->]].
    + exists s', n, false. split; [done|]. split; [lia|]. split; [lia|done].
    + exfalso. apply (f_equal length) in Hn. rewrite length_drop in Hn. simpl in Hn. lia.
Qed.

Lemma write_bytes_spec bytes t s : socket_ t = Some s →
  ∃ s' (n : nat) (r : bool), write_bytes bytes t = (if r then with_socket (Some s') t else with_state failed (with_socket (Some s') t),
      if r then Ok n else Fail TransportError.send_failed) ∧
    (n ≤ length bytes)%nat ∧ (r = false → (n < length bytes)%nat) ∧ wrote (take n bytes) s s'.
Proof. intros Hs. apply (write_loop_spec bytes (S (length bytes)) t s 0 Hs); lia. Qed.

(** Part of the outbox leaves; if the socket breaks the transport is failed. *)
Lemma tcp_flush_spec t s : socket_ t = Some s → state_ t = connected →
  ∃ s' (n : nat) (r : bool), flush_output t =
      (if r then with_outbox (drop n (outbox_ t)) (with_socket (Some s') t) else with_state failed (with_socket (Some s') t),
       if r then Ok (none_left (drop n (outbox_ t))) else Fail TransportError.send_failed) ∧
    (n ≤ length (outbox_ t))%nat ∧ (r = false → (n < length (outbox_ t))%nat) ∧ wrote (take n (outbox_ t)) s s'.
Proof.
  intros Hs Hc. unfold flush_output, sbind, state, gets, check, modify. rewrite Hc. cbn [bool_decide negb].
  rewrite bool_decide_eq_true_2 by done. cbn [negb].
  destruct (write_bytes_spec (outbox_ t) t s Hs) as (s' & n & r & -> & Hn & Hr & Hw).
  exists s', n, r. by destruct r.
Qed.

(** ** Framings *)

Definition frame_ok (frame : list Z) : Prop := 0 < blen frame ≤ kMaximumTcpFrame.

(** What the two reassembly members hold under a framing, and which byte
    strings carry a frame. *)
Class Framing := {
  uses : FrameReassembler → Ssh → Prop;
  held : FrameReassembler → Ssh → list Z;
  encodes : list Z → list Z → Prop;
}.

(** A part of an encoding that is not all of it. *)
Definition unfinished `{Framing} (u : list Z) : Prop := ∃ f e, encodes f e ∧ u `prefix_of` e ∧ u ≠ e.

(** What [send_frame] and [receive_frames] need of a framing: a record carries
    its frame, bytes read are kept in order, and [fill_ready] takes the frames
    that are complete, as many as there is room for. *)
Class FramingLaws `{Framing} : Prop := {
  encodes_nonempty f e : encodes f e → e ≠ [];
  nil_unfinished : unfinished [];
  fill_record_law frame t : uses (reassembler_ t) (ssh t) → frame_ok frame →
    ∃ record h, fill_record frame t = (with_record record (with_ssh h t), Ok tt) ∧ encodes frame record ∧
      uses (reassembler_ t) h ∧ held (reassembler_ t) h = held (reassembler_ t) (ssh t);
  absorb_law bytes t : uses (reassembler_ t) (ssh t) →
    ∃ r h, absorb bytes t = (with_ssh h (with_reassembler r t), Ok tt) ∧ uses r h ∧
      held r h = held (reassembler_ t) (ssh t) ++ bytes;
  fill_law n t fs es u : uses (reassembler_ t) (ssh t) → Forall2 encodes fs es → unfinished u →
    held (reassembler_ t) (ssh t) = concat es ++ u →
    let j := (n - length (ready_ t))%nat in
    ∃ r h, fill_ready n t = (with_ready (ready_ t ++ take j fs) (ready_head_ t) (with_ssh h (with_reassembler r t)), Ok true) ∧
      uses r h ∧ held r h = concat (drop j es) ++ u;
}.

(** *** The length prefix *)

Definition pending_bytes (r : FrameReassembler) : list Z := drop (FrameReassembler.consumed_ r) (FrameReassembler.buffer_ r).
Definition assembling (r : FrameReassembler) : Prop :=
  (FrameReassembler.consumed_ r ≤ length (FrameReassembler.buffer_ r))%nat ∧ FrameReassembler.violated_ r = false ∧
  FrameReassembler.maximum_frame_ r = kMaximumTcpFrame.

Lemma compact_assembling r : assembling r →
  assembling (FrameReassembler.compact r) ∧ pending_bytes (FrameReassembler.compact r) = pending_bytes r.
Proof.
  intros (H1 & H2 & H3). unfold FrameReassembler.compact. destruct (Nat.eqb_spec (FrameReassembler.consumed_ r) 0); [done|].
  split; [|done]. split; [|done]. cbn. lia.
Qed.

Lemma prefixed_be frame : prefixed frame = be_bytes 2 (Z.of_nat (length frame)) ++ frame.
Proof. unfold prefixed. by rewrite !u8_land. Qed.

(** The length that the first two bytes say. *)
Lemma length_prefix_read frame rest : frame_ok frame → let base := be_bytes 2 (Z.of_nat (length frame)) ++ rest in
  (let* high := rd (E:=TransportError) base 0 in let* low := rd base 1 in Ok (Z.lor (u32 (Z.shiftl high 8)) low)) =
  Ok (Z.of_nat (length frame)).
Proof.
  intros [_ Hf] base. unfold blen, kMaximumTcpFrame in Hf. set (v := Z.of_nat (length frame)) in *.
  assert (is_u8 (u8 (Z.shiftr v 8)) ∧ is_u8 (u8 (Z.shiftr v 0))) as [Hx Hy] by auto with norr.
  change (Ok (Z.lor (u32 (Z.shiftl (u8 (Z.shiftr v 8)) 8)) (u8 (Z.shiftr v 0))) = Ok (E:=TransportError) v). f_equal.
  rewrite u32_id by (rewrite Z.shiftl_mul_pow2 by lia; word_lia). rewrite lor_shiftl_add by word_lia.
  trans (be_value (be_bytes 2 v)); [|apply be_value_small; lia]. cbn [be_bytes]. rewrite be_value_2. done.
Qed.

Lemma next_whole r frame rest : assembling r → frame_ok frame → pending_bytes r = prefixed frame ++ rest →
  ∃ r', FrameReassembler.next r = (r', Ok frame) ∧ assembling r' ∧ pending_bytes r' = rest.
Proof.
  intros (Hc & Hv & Hm) Hf Hp. rewrite prefixed_be, <- app_assoc in Hp. unfold pending_bytes in Hp.
  pose proof (f_equal length Hp) as Hl. rewrite length_drop, !length_app, length_be_bytes in Hl.
  unfold FrameReassembler.next. rewrite Hv. unfold kTcpLengthPrefixSize.
  destruct (Nat.ltb_spec (length (FrameReassembler.buffer_ r) - FrameReassembler.consumed_ r) 2); [lia|].
  rewrite Hp, length_prefix_read by done. rewrite Hm. rewrite (proj2 (Z.ltb_ge _ _)) by apply Hf. rewrite Nat2Z.id.
  destruct (Nat.ltb_spec (length (FrameReassembler.buffer_ r) - FrameReassembler.consumed_ r) (2 + length frame)); [lia|].
  rewrite (drop_app_length' (be_bytes 2 _)) by (by rewrite length_be_bytes). rewrite take_app_length.
  set (r1 := FrameReassembler.mk _ _ _ _ _).
  assert (assembling r1 ∧ pending_bytes r1 = rest) as [H1 H2].
  { split; [split; [cbn; lia|done]|]. unfold pending_bytes, r1. cbn [FrameReassembler.consumed_ FrameReassembler.buffer_].
    rewrite <- drop_drop, Hp, app_assoc. apply drop_app_length'. rewrite length_app, length_be_bytes. lia. }
  destruct (compact_assembling r1 H1) as [H3 H4].
  destruct (_ || _); eexists; (split; [done|]); split; try done. by rewrite H4.
Qed.

Lemma next_partial r frame q : assembling r → frame_ok frame → pending_bytes r = q → q `prefix_of` prefixed frame → q ≠ prefixed frame →
  ∃ r', FrameReassembler.next r = (r', Ok []) ∧ assembling r' ∧ pending_bytes r' = q.
Proof.
  intros Hr Hf Hp Hq Hne. destruct (compact_assembling r Hr) as [H3 H4]. rewrite Hp in H4. destruct Hr as (Hc & Hv & Hm).
  assert (length q < 2 + length frame)%nat as Hlt.
  { destruct Hq as [k Hk]. pose proof (f_equal length Hk) as Hl. rewrite length_app in Hl. destruct k; [by rewrite app_nil_r in Hk|].
    simpl in Hl. lia. }
  pose proof (f_equal length Hp) as Hl. unfold pending_bytes in Hl. rewrite length_drop in Hl.
  exists (FrameReassembler.compact r). split; [|done].
  unfold FrameReassembler.next. rewrite Hv. unfold kTcpLengthPrefixSize. rewrite Hl.
  destruct (Nat.ltb_spec (length q) 2); [done|].
  assert (∃ tail, q = be_bytes 2 (Z.of_nat (length frame)) ++ tail) as [tail Et].
  { destruct Hq as [k Hk]. rewrite prefixed_be in Hk. exists (drop 2 q). destruct q as [|a [|b q]]; [cbn [length] in *; lia..|].
    cbn [be_bytes app drop] in *. injection Hk as <- <- _. done. }
  unfold pending_bytes in Hp. rewrite Hp, Et, length_prefix_read by done. rewrite Hm, (proj2 (Z.ltb_ge _ _)) by apply Hf. rewrite Nat2Z.id, <- Et.
  destruct (Nat.ltb_spec (length q) (2 + length frame)); [done|lia].
Qed.

#[export] Instance plain_framing : Framing := {
  uses r h := assembling r ∧ ssh_active_ h = false;
  held r h := pending_bytes r;
  encodes f e := frame_ok f ∧ e = prefixed f;
}.

Lemma frame_ok_cons f : frame_ok f → ∃ x l, f = x :: l.
Proof. destruct f as [|x l]; [unfold frame_ok, blen; simpl; lia|eauto]. Qed.

Lemma fill_plain_spec n : ∀ fuel fs es u r ready, assembling r → Forall2 (encodes (Framing:=plain_framing)) fs es →
  unfinished (H:=plain_framing) u → pending_bytes r = concat es ++ u → (n - length ready < fuel)%nat →
  let j := (n - length ready)%nat in
  ∃ r', fill_plain fuel n r ready = Ok (r', ready ++ take j fs, true) ∧ assembling r' ∧ pending_bytes r' = concat (drop j es) ++ u.
Proof.
  induction fuel as [|fuel IH]; intros fs es u r ready Hr Hfs Hu Hp Hf; [lia|]. cbn [fill_plain].
  destruct (Nat.leb_spec n (length ready)).
  { replace (n - length ready)%nat with 0%nat by lia. exists r. rewrite take_0, app_nil_r. done. }
  destruct Hfs as [|f e fs es [Hok ->] Hfs].
  - destruct Hu as (f & e & [Hok ->] & Hq & Hne). destruct (next_partial r f u Hr Hok Hp Hq Hne) as (r' & -> & Hr' & Hp').
    cbn [rbind]. rewrite (proj1 (proj2 Hr')). exists r'. rewrite take_nil, drop_nil, app_nil_r. done.
  - cbn [concat] in Hp. rewrite <- app_assoc in Hp. destruct (next_whole r f _ Hr Hok Hp) as (r' & -> & Hr' & Hp').
    cbn [rbind]. rewrite (proj1 (proj2 Hr')). destruct (frame_ok_cons f Hok) as (x & l & Ef). rewrite Ef. cbn [none_left]. rewrite <- Ef.
    destruct (IH fs es u r' (ready ++ [f])) as (r2 & -> & Hr2 & Hp2); [done..|rewrite length_app; simpl; lia|].
    rewrite length_app in *. cbn [length] in *. replace (n - length ready)%nat with (S (n - (length ready + 1))) by lia.
    exists r2. rewrite <- app_assoc. done.
Qed.

#[export] Instance plain_laws : FramingLaws (H:=plain_framing).
Proof.
  split.
  - intros f e [_ ->]. done.
  - exists [0], (prefixed [0]). split; [split; [by unfold frame_ok|done]|]. split; [apply prefix_nil|done].
  - intros frame t [Hr Hs] Hok. exists (prefixed frame), (ssh t). unfold fill_record, sbind, state, gets, modify. rewrite Hs.
    split; [by destruct t|]. done.
  - intros bytes t [(Hc & Hv & Hm) Hs]. unfold absorb, sbind, state, gets, modify, FrameReassembler.push. rewrite Hs, Hv.
    eexists _, (ssh t). split; [reflexivity|]. split; [split; [split; [|done]|done]|].
    + cbn. rewrite length_app. lia.
    + cbn. unfold pending_bytes. cbn. rewrite drop_app_le by done. done.
  - intros n t fs es u [Hr Hs] Hfs Hu Hp j. unfold fill_ready, sbind, state, gets, modify, lift. rewrite Hs.
    destruct (fill_plain_spec n (S n) fs es u (reassembler_ t) (ready_ t)) as (r' & -> & Hr' & Hp'); [done..|lia|].
    exists r', (ssh t). split; [by destruct t|]. done.
Qed.

(** *** The SSH record *)

#[export] Instance ssh_framing : Framing := {
  uses r h := ssh_active_ h = true;
  held r h := ssh_reassembly_ h;
  encodes f e := frame_ok f ∧ ∃ state, e = ssh_record state f;
}.

Lemma subspan_drop {E} l o : (o ≤ length l)%nat → subspan_from (E:=E) l o = Ok (drop o l).
Proof. intros Ho. unfold subspan_from. by rewrite decide_True. Qed.

Lemma fill_ssh_spec n held_ : ∀ fuel fs es u payload offset ready, length payload = Z.to_nat kMaximumTcpFrame → (offset ≤ length held_)%nat →
  Forall2 (encodes (Framing:=ssh_framing)) fs es → unfinished (H:=ssh_framing) u → drop offset held_ = concat es ++ u →
  (n - length ready < fuel)%nat → let j := (n - length ready)%nat in
  ∃ offset', fill_ssh fuel n held_ payload offset ready = Ok (offset', ready ++ take j fs, true) ∧
    drop offset' held_ = concat (drop j es) ++ u.
Proof.
  induction fuel as [|fuel IH]; intros fs es u payload offset ready Hl Ho Hfs Hu Hp Hf; [lia|]. cbn [fill_ssh].
  destruct (Nat.leb_spec n (length ready)).
  { replace (n - length ready)%nat with 0%nat by lia. exists offset. rewrite take_0, app_nil_r. done. }
  rewrite subspan_drop, Hp by done. cbn [rbind]. destruct Hfs as [|f e fs es [Hok [state ->]] Hfs].
  - destruct Hu as (f & e & [Hok [state ->]] & Hq & Hne). cbn [concat app].
    assert (u = take (length u) (ssh_record state f)) as Eu by (destruct Hq as [k ->]; by rewrite take_app_length).
    rewrite Eu, unwrap_partial.
    + exists offset. rewrite take_nil, drop_nil, app_nil_r, <- Eu. done.
    + apply Hok.
    + rewrite <- (length_ssh_record state). destruct Hq as [k Ek]. rewrite Ek in *. rewrite length_app. destruct k; [by rewrite app_nil_r in Hne|].
      simpl. lia.
  - cbn [concat] in *. rewrite <- app_assoc in *. assert (length f ≤ length payload)%nat as Hfl by (rewrite Hl; destruct Hok; unfold blen in *; lia).
    rewrite unwrap_record by (done || apply Hok). rewrite take_app_length.
    pose proof (f_equal length Hp) as Hlen. rewrite length_drop, length_app, length_ssh_record in Hlen.
    destruct (IH fs es u (f ++ drop (length f) payload) (offset + record_size (length f))%nat (ready ++ [f])) as (offset' & -> & Hp2);
      [rewrite length_app, length_drop; lia|lia|done|done| |rewrite length_app; simpl; lia|].
    { rewrite <- drop_drop, Hp, <- (length_ssh_record state f). apply drop_app_length. }
    rewrite length_app in *. cbn [length] in *. replace (n - length ready)%nat with (S (n - (length ready + 1))) by lia.
    exists offset'. rewrite <- app_assoc. done.
Qed.

#[export] Instance ssh_laws : FramingLaws (H:=ssh_framing).
Proof.
  split.
  - intros f e [_ [state ->]] E. apply (f_equal length) in E. rewrite length_ssh_record in E. discriminate E.
  - exists [0], (ssh_record 0 [0]). split; [split; [by unfold frame_ok|by exists 0]|]. split; [apply prefix_nil|].
    intros E. apply (f_equal length) in E. rewrite length_ssh_record in E. discriminate E.
  - intros frame t Hs Hok. change (ssh_active_ (ssh t) = true) in Hs. unfold fill_record, sbind, Prelude.state, gets, modify. rewrite Hs.
    set (record := resize _ _).
    destruct (ssh_wrap_spec (pad_state (ssh t)) frame record) as [pad ->]; [apply Hok|unfold record; by rewrite length_resize|].
    unfold record. rewrite drop_ge, app_nil_r by (by rewrite length_resize).
    assert (resize (ssh_record (pad_state (ssh t)) frame) (record_size (length frame)) = ssh_record (pad_state (ssh t)) frame) as ->.
    { unfold resize. rewrite <- (length_ssh_record (pad_state (ssh t)) frame). by rewrite take_ge, Nat.sub_diag, app_nil_r by done. }
    eexists _, _. split; [reflexivity|]. split; [split; [done|by eexists]|]. done.
  - intros bytes t Hs. change (ssh_active_ (ssh t) = true) in Hs. unfold absorb, sbind, Prelude.state, gets, modify. rewrite Hs.
    exists (reassembler_ t), (ssh (with_ssh_reassembly (ssh_reassembly_ (ssh t) ++ bytes) t)). split; [by destruct t|]. done.
  - intros n t fs es u Hs Hfs Hu Hp j. change (ssh_active_ (ssh t) = true) in Hs. unfold fill_ready, sbind, Prelude.state, gets, modify, lift. rewrite Hs.
    destruct (fill_ssh_spec n (ssh_reassembly_ (ssh t)) (S n) fs es u (replicate (Z.to_nat kMaximumTcpFrame) 0) 0 (ready_ t)) as (o & -> & Ho);
      [apply length_replicate|lia|done..|lia|].
    exists (reassembler_ t), (ssh (with_ssh_reassembly (drop o (ssh_reassembly_ (ssh t))) t)). split; [by destruct t|]. done.
Qed.
