(* ===== verification/TcpLink.v ===== *)
(** Two [TcpTransport]s and the network between them.

    The sender's socket takes what it likes of each write, the network carries
    what it likes of the wire, in pieces and with interruptions, and the
    receiver asks for as many frames as it likes.  The theorem refines the link
    to a queue: frames come out in the order they were accepted, none twice and
    none torn, and once everything has been carried a call returns exactly the
    next frames.  It is proved for any [Framing], so for the length prefix and
    for SSH records, with and without TLS. *)

From S2P Require Import Prelude Packet Noise Obfuscation SshFramer Camouflage Tcp TcpStream.

Section link.
Context {F : Framing} {L : FramingLaws}.

(** ** Streams of encodings *)

(** A prefix of a stream is some whole encodings and an unfinished one. *)
Lemma stream_prefix fs es u x : Forall2 encodes fs es → unfinished u → x `prefix_of` concat es ++ u →
  ∃ j v, (j ≤ length fs)%nat ∧ unfinished v ∧ x = concat (take j es) ++ v.
Proof.
  intros Hfs Hu. revert x. induction Hfs as [|f e fs es He Hfs IH]; intros x Hx.
  { exists 0%nat, x. split; [done|]. split; [|done]. destruct Hu as (g & d & Hd & Hp & Hne). exists g, d. split; [done|].
    split; [by etransitivity|]. intros ->. apply Hne. cbn in Hx. by apply (anti_symm prefix). }
  cbn [concat] in Hx. rewrite <- app_assoc in Hx. destruct (decide (e `prefix_of` x)) as [[y ->]|Hn].
  - apply prefix_app_inv in Hx. destruct (IH y Hx) as (j & v & Hj & Hv & ->). exists (S j), v. split; [simpl; lia|]. split; [done|].
    cbn [take concat]. by rewrite app_assoc.
  - exists 0%nat, x. split; [lia|]. split; [|done]. exists f, e. split; [done|].
    destruct (prefix_weak_total e x (e ++ concat es ++ u)) as [|Hp]; [by eexists|done|done|]. split; [done|]. by intros ->.
Qed.

Lemma stream_split fs es j : Forall2 encodes fs es → Forall2 encodes (take j fs) (take j es) ∧ Forall2 encodes (drop j fs) (drop j es).
Proof. intros Hfs. split; [by apply Forall2_take|by apply Forall2_drop]. Qed.

Lemma concat_split (es : list (list Z)) j : concat es = concat (take j es) ++ concat (drop j es).
Proof. by rewrite <- concat_app, take_drop. Qed.

(** ** Reading *)

Fixpoint bytes_of (l : list Arrival) : list Z :=
  match l with
  | [] => []
  | Bytes b :: l => b ++ bytes_of l
  | _ :: l => bytes_of l
  end.
(** Only data is to be read. *)
Definition only_data (l : list Arrival) : Prop := Forall (λ a, match a with Bytes (_ :: _) => True | _ => False end) l.
Definition weight (l : list Arrival) : nat := sum_list_with (λ a, match a with Bytes l => S (length l) | _ => 1%nat end) l.

Lemma bytes_of_app l k : bytes_of (l ++ k) = bytes_of l ++ bytes_of k.
Proof. induction l as [|[b| | |] l IH]; cbn; [done| |done..]. by rewrite IH, app_assoc. Qed.

Lemma read_size : ∃ m, kReadBufferSize = S m.
Proof. exists (Z.to_nat 65535). unfold kReadBufferSize. lia. Qed.
#[local] Opaque kReadBufferSize.

(** One read, whatever the socket has. *)
Inductive reads (s : Socket) : Socket * res Errno (list Z) → Prop :=
| reads_data s' x l : bytes_of (arrivals s) = (x :: l) ++ bytes_of (arrivals s') → (weight (arrivals s') < weight (arrivals s))%nat →
    (only_data (arrivals s) → only_data (arrivals s')) → reads s (s', Ok (x :: l))
| reads_end s' : ¬ only_data (arrivals s) → bytes_of (arrivals s') = bytes_of (arrivals s) → reads s (s', Ok [])
| reads_again s' : ¬ only_data (arrivals s) → bytes_of (arrivals s') = bytes_of (arrivals s) → (weight (arrivals s') < weight (arrivals s))%nat →
    reads s (s', Fail EINTR)
| reads_none s' : bytes_of (arrivals s') = bytes_of (arrivals s) → (only_data (arrivals s) → arrivals s = []) → reads s (s', Fail EAGAIN)
| reads_breaks s' : ¬ only_data (arrivals s) → reads s (s', Fail EOTHER).

Lemma not_only_data a l : match a with Bytes (_ :: _) => False | _ => True end → ¬ only_data (a :: l).
Proof. intros Ha Hd. apply Forall_cons_1 in Hd as [Hd _]. by destruct a as [[|]| | |]. Qed.

Lemma sys_read_spec s : reads s (sys_read kReadBufferSize s).
Proof.
  destruct s as [ans arr w]. unfold sys_read. cbn [arrivals answers wire]. destruct arr as [|[b| | |] rest].
  - by apply reads_none.
  - destruct b as [|x b]; [apply reads_end; [by apply not_only_data|done]|].
    destruct read_size as [m Em]. rewrite Em. cbn [take].
    destruct (Nat.leb_spec (length (x :: b)) (S m)).
    + apply reads_data; cbn.
      * by rewrite take_ge by (simpl in *; lia).
      * lia.
      * intros Hd. by apply Forall_cons_1 in Hd as [_ Hd].
    + apply reads_data; cbn.
      * by rewrite app_assoc, take_drop.
      * rewrite length_drop. lia.
      * intros Hd. apply Forall_cons_1 in Hd as [_ Hd]. apply Forall_cons_2; [|done].
        destruct (drop m b) eqn:E; [|done]. apply (f_equal length) in E. rewrite length_drop in E. simpl in *. lia.
  - apply reads_again; [by apply not_only_data|done|cbn; lia].
  - apply reads_none; [done|]. intros Hd. by apply not_only_data in Hd.
  - apply reads_breaks. by apply not_only_data.
Qed.

(** A session that is set up, or none. *)
Definition tls_ready (t : TcpTransport) : Prop := match tls_ t with Some session => established_ session = true | None => True end.

Inductive finds (t : TcpTransport) (s : Socket) : TcpTransport * res TransportError Reading → Prop :=
| finds_data s' x l : bytes_of (arrivals s) = (x :: l) ++ bytes_of (arrivals s') → (weight (arrivals s') < weight (arrivals s))%nat →
    (only_data (arrivals s) → only_data (arrivals s')) → finds t s (with_socket (Some s') t, Ok (received (x :: l)))
| finds_end s' : ¬ only_data (arrivals s) → bytes_of (arrivals s') = bytes_of (arrivals s) → finds t s (with_socket (Some s') t, Ok ended)
| finds_again s' : ¬ only_data (arrivals s) → bytes_of (arrivals s') = bytes_of (arrivals s) → (weight (arrivals s') < weight (arrivals s))%nat →
    finds t s (with_socket (Some s') t, Ok again)
| finds_none s' : bytes_of (arrivals s') = bytes_of (arrivals s) → (only_data (arrivals s) → arrivals s = []) →
    finds t s (with_socket (Some s') t, Ok drained)
| finds_breaks s' : ¬ only_data (arrivals s) →
    finds t s (with_state failed (with_socket (Some s') t), Fail TransportError.receive_failed).

Lemma read_socket_spec t s : socket_ t = Some s → tls_ready t → finds t s (read_socket t).
Proof.
  intros Hs Ht. unfold read_socket, sbind, state, gets. unfold tls_ready in Ht. pose proof (sys_read_spec s) as Hr.
  destruct (tls_ t) as [[i e]|].
  - cbn [established_] in *. subst e. unfold check, tls_call. rewrite Hs. unfold tls_receive. cbn [established_ negb].
    destruct Hr as [| | | |]; cbn; [by constructor..| | |]; [apply finds_none; [done|]|by constructor..].
    intros Hd. by destruct H.
  - unfold syscall. rewrite Hs. destruct Hr; by constructor.
Qed.

(** What has come in and was not yet handed on. *)
Definition incoming (t : TcpTransport) (s : Socket) : list Z := held (reassembler_ t) (ssh t) ++ bytes_of (arrivals s).

(** The parts of a transport that reading depends on. *)
Record reading (t : TcpTransport) (s : Socket) : Prop := {
  rd_socket : socket_ t = Some s;
  rd_tls : tls_ready t;
  rd_camo : camo_ t = None;
  rd_uses : uses (reassembler_ t) (ssh t);
}.

(** No whole frame is held, or [ready_] is full. *)
Definition settled (n : nat) (t : TcpTransport) : Prop :=
  (n ≤ length (ready_ t))%nat ∨ unfinished (held (reassembler_ t) (ssh t)).

(** After [j] of the frames coming in went to [ready_]. *)
Record filled (n j : nat) (es : list (list Z)) (u : list Z) (fs : list (list Z)) (t t' : TcpTransport) (s' : Socket) : Prop := {
  fi_reading : reading t' s';
  fi_ready : ready_ t' = ready_ t ++ take j fs;
  fi_head : ready_head_ t' = ready_head_ t;
  fi_room : (j ≤ n - length (ready_ t))%nat;
  fi_count : (j ≤ length fs)%nat;
  fi_incoming : incoming t' s' = concat (drop j es) ++ u;
}.

Lemma filled_trans n j k fs es u t t1 t2 s1 s2 :
  filled n j es u fs t t1 s1 → filled n k (drop j es) u (drop j fs) t1 t2 s2 → filled n (j + k) es u fs t t2 s2.
Proof.
  intros [A1 A2 A3 A4 A5 A6] [B1 B2 B3 B4 B5 B6]. rewrite A2, length_app, length_take in B4. rewrite length_drop in B5. split.
  - done.
  - rewrite B2, A2, <- app_assoc. by rewrite take_take_drop.
  - congruence.
  - lia.
  - lia.
  - by rewrite B6, drop_drop.
Qed.

(** [fill_ready] takes what is whole of the bytes held. *)
Lemma fill_step n fs es u t s : reading t s → Forall2 encodes fs es → unfinished u → incoming t s = concat es ++ u →
  ∃ t' j, fill_or_fail n t = (t', Ok tt) ∧ state_ t' = state_ t ∧ filled n j es u fs t t' s ∧ settled n t'.
Proof.
  intros [Hs Ht Hc Hu] Hfs Hun Hin. unfold incoming in Hin.
  destruct (stream_prefix fs es u (held (reassembler_ t) (ssh t)) Hfs Hun) as (i & v & Hi & Hv & Hh); [by eexists|].
  destruct (fill_law n t (take i fs) (take i es) v Hu (proj1 (stream_split fs es i Hfs)) Hv Hh) as (r & h & Hfill & Huse & Hh').
  cbn zeta in *. set (j := (n - length (ready_ t))%nat) in *. unfold fill_or_fail, sbind. rewrite Hfill.
  rewrite take_take in *. rewrite skipn_firstn_comm in Hh'.
  pose proof (Forall2_length _ _ _ Hfs) as Hlen.
  eexists _, (Nat.min j i). split; [reflexivity|]. split; [done|]. split.
  - split; cbn [ready_ ready_head_ with_ready with_ssh with_reassembler socket_ reassembler_ ssh]; [done|done|done|lia|lia|].
    unfold incoming. cbn [ready_ ready_head_ with_ready with_ssh with_reassembler socket_ reassembler_ ssh]. rewrite Hh'.
    rewrite Hh in Hin. rewrite (concat_split es i) in Hin. rewrite <- !app_assoc in *. apply app_inv_head in Hin. rewrite Hin.
    rewrite (concat_split (drop (Nat.min j i) es) (i - Nat.min j i)), <- app_assoc, drop_drop.
    replace (Nat.min j i + (i - Nat.min j i))%nat with i by lia. f_equal.
    destruct (decide (j ≤ i)%nat); [by rewrite Nat.min_l by done|].
    rewrite Nat.min_r by lia. by replace (i - j)%nat with 0%nat by lia; rewrite Nat.sub_diag.
  - unfold settled. cbn [ready_ ready_head_ with_ready with_ssh with_reassembler socket_ reassembler_ ssh].
    rewrite length_app, length_take. destruct (decide (j ≤ i)%nat); [left; lia|right].
    rewrite Hh'. by replace (i - j)%nat with 0%nat by lia.
Qed.
Lemma absorb_step bytes t s s' fs es u : reading t s → incoming t s = concat es ++ u →
  bytes_of (arrivals s) = bytes ++ bytes_of (arrivals s') →
  ∃ t', absorb bytes (with_socket (Some s') t) = (t', Ok tt) ∧ state_ t' = state_ t ∧ filled 0 0 es u fs t t' s'.
Proof.
  intros [Hs Ht Hc Hu] Hin Hb. destruct (absorb_law bytes (with_socket (Some s') t) Hu) as (r & h & -> & Huse & Hh).
  eexists. split; [reflexivity|]. split; [done|]. split; cbn [ready_ ready_head_ with_ssh with_reassembler with_socket]; try done; try lia.
  - by rewrite take_0, app_nil_r.
  - unfold incoming. cbn [reassembler_ ssh with_ssh with_reassembler with_socket]. rewrite Hh, <- app_assoc, <- Hb. done.
Qed.

Lemma filled_none n fs es u t t' s' : filled n 0 es u fs t t' s' → ∀ m, filled m 0 es u fs t t' s'.
Proof. intros [A1 A2 A3 A4 A5 A6] m. split; try done. lia. Qed.

(** A whole frame at the front of what is held is a contradiction once
    everything whole was taken. *)
Lemma nothing_whole t s fs es u : reading t s → Forall2 encodes fs es → unfinished u → unfinished (held (reassembler_ t) (ssh t)) →
  held (reassembler_ t) (ssh t) = concat es ++ u → fs = [].
Proof.
  intros [_ _ _ Hu] Hfs Hun Hv Hh. pose (n := S (length (ready_ t))).
  destruct (fill_law n t fs es u Hu Hfs Hun Hh) as (r & h & E1 & _).
  destruct (fill_law n t [] [] _ Hu (Forall2_nil_2 _ _ _) Hv eq_refl) as (r' & h' & E2 & _). rewrite E1 in E2. cbn zeta in E2.
  apply (f_equal (λ p, ready_ p.1)) in E2. cbn [fst ready_ with_ready] in E2. apply app_inv_head in E2. unfold n in E2. replace (S (length (ready_ t)) - length (ready_ t))%nat with 1%nat in E2 by lia.
  destruct fs; [done|]. discriminate E2.
Qed.

(** How the loop over the socket ends: with frames, everything there was if it
    was data only, or with a broken socket. *)
Definition loop_result (n : nat) (fs es : list (list Z)) (u : list Z) (t : TcpTransport) (s : Socket) (r : TcpTransport * res TransportError unit) : Prop :=
  match r.2 with
  | Ok _ => ∃ s' j, filled n j es u fs t r.1 s' ∧ (state_ r.1 = connected ∨ state_ r.1 = failed) ∧
      (only_data (arrivals s) → state_ r.1 = connected ∧ j = Nat.min (n - length (ready_ t)) (length fs))
  | Fail _ => state_ r.1 = failed ∧ ¬ only_data (arrivals s)
  | Ub => False
  end.

Lemma filled_refl n fs es u t s : reading t s → incoming t s = concat es ++ u → filled n 0 es u fs t t s.
Proof. intros Hr Hin. split; try done; try lia. by rewrite take_0, app_nil_r. Qed.

Lemma filled_moved n fs es u t s s' : reading t s → incoming t s = concat es ++ u → bytes_of (arrivals s') = bytes_of (arrivals s) →
  filled n 0 es u fs t (with_socket (Some s') t) s'.
Proof. intros [Hs Ht Hc Hu] Hin Hb. split; try done; try lia; [by rewrite take_0, app_nil_r|]. unfold incoming. by rewrite Hb. Qed.

(** The rest of the loop, after a part of it. *)
Lemma loop_after n j fs es u t t1 s s1 r : filled n j es u fs t t1 s1 → (only_data (arrivals s) → only_data (arrivals s1)) →
  loop_result n (drop j fs) (drop j es) u t1 s1 r → loop_result n fs es u t s r.
Proof.
  intros Hf Hd Hr. unfold loop_result in *. destruct (r.2) as [[]|e|]; [|naive_solver|done].
  destruct Hr as (s2 & k & Hk & Hst & Hq). exists s2, (j + k)%nat. split; [by eapply filled_trans|]. split; [done|].
  intros Ho. destruct (Hq (Hd Ho)) as [H1 H2]. split; [done|]. destruct Hf as [_ A2 _ A4 A5 _].
  rewrite A2, length_app, length_take, length_drop in H2. lia.
Qed.

Lemma read_loop_spec n fuel : ∀ t s fs es u, reading t s → Forall2 encodes fs es → unfinished u → incoming t s = concat es ++ u →
  settled n t → state_ t = connected → (weight (arrivals s) < fuel)%nat → loop_result n fs es u t s (read_loop fuel n t).
Proof.
  induction fuel as [|fuel IH]; intros t s fs es u Hr Hfs Hu Hin Hset Hst Hf; [lia|]. cbn [read_loop]. unfold sbind at 1, state, gets.
  destruct (Nat.leb_spec n (length (ready_ t))).
  { exists s, 0%nat. split; [by apply filled_refl|]. split; [by left|]. intros _. split; [done|lia]. }
  destruct Hset as [|Hset]; [lia|]. unfold sbind at 1.
  pose proof (read_socket_spec t s (rd_socket _ _ Hr) (rd_tls _ _ Hr)) as Hfind. destruct Hfind as [s' x l Hb Hw Hd|s' Hn Hb|s' Hn Hb Hw|s' Hb Hd|s' Hn].
  - destruct (absorb_step (x :: l) t s s' fs es u Hr Hin Hb) as (t1 & E1 & Hst1 & Hf1). unfold sbind at 1. rewrite E1.
    unfold sbind at 1, modify. set (t2 := on_stats _ t1).
    assert (filled n 0 es u fs t t2 s') as Hf2 by (apply (filled_none 0 fs es u t); destruct Hf1 as [[] ]; by split).
    destruct (fill_step n fs es u t2 s' (fi_reading _ _ _ _ _ _ _ _ Hf2) Hfs Hu (fi_incoming _ _ _ _ _ _ _ _ Hf2)) as (t3 & j & E3 & Hst3 & Hf3 & Hset3).
    unfold sbind. rewrite E3.
    pose proof (filled_trans n 0 j fs es u t t2 t3 s' s' Hf2 Hf3) as Hf4.
    apply (loop_after n j fs es u t t3 s s' _ Hf4 Hd).
    apply IH; [apply Hf4|apply stream_split, Hfs|done|apply Hf4|done|by rewrite Hst3; cbn; congruence|lia].
  - exists s', 0%nat. split; [|split; [by right|done]]. pose proof (filled_moved n fs es u t s s' Hr Hin Hb) as [[] ]. by split.
  - apply (loop_after n 0 fs es u t (with_socket (Some s') t) s s'); [by apply (filled_moved n fs es u t s)|done|].
    pose proof (filled_moved n fs es u t s s' Hr Hin Hb) as [A1 _ _ _ _ A6].
    apply IH; [done..|by right|done|lia].
  - exists s', 0%nat. split; [by apply (filled_moved n fs es u t s)|]. split; [by left|]. intros Ho. split; [done|].
    unfold incoming in Hin. rewrite (Hd Ho), app_nil_r in Hin. by rewrite (nothing_whole t s fs es u Hr Hfs Hu Hset Hin), Nat.min_0_r.
  - done.
Qed.
Context {dh : Dh} {ks : Keystream} {rng : Rng}.

(** [ready_] has nothing left to hand out. *)
Definition handed_out (t : TcpTransport) : Prop := ready_head_ t = length (ready_ t).

Definition receive_result (n : nat) (fs es : list (list Z)) (u : list Z) (s : Socket) (r : TcpTransport * res TransportError (list (list Z))) : Prop :=
  match r.2 with
  | Ok out => ∃ s' j, reading r.1 s' ∧ handed_out r.1 ∧ out = take j fs ∧ (j ≤ length fs)%nat ∧ incoming r.1 s' = concat (drop j es) ++ u ∧
      (state_ r.1 = connected ∨ state_ r.1 = failed) ∧ (only_data (arrivals s) → state_ r.1 = connected ∧ j = Nat.min n (length fs))
  | Fail _ => state_ r.1 = failed ∧ ¬ only_data (arrivals s)
  | Ub => False
  end.

Lemma hand_out_all n t frames : ready_ t = frames → ready_head_ t = 0%nat → (length frames ≤ n)%nat →
  ∃ stats, hand_out n t = (with_stats stats (with_ready frames (length frames) t), Ok frames).
Proof.
  intros Hr Hh Hn. unfold hand_out, sbind, state, gets, modify. rewrite Hr, Hh, drop_0, take_ge by done. eexists. reflexivity.
Qed.

Lemma receive_spec n now t s fs es u : state_ t = connected → reading t s → handed_out t → Forall2 encodes fs es → unfinished u →
  incoming t s = concat es ++ u → receive_result n fs es u s (receive_frames n now t).
Proof.
  intros Hst Hr Hh Hfs Hu Hin. unfold receive_frames, sbind, state, gets, check, modify. rewrite bool_decide_eq_true_2 by done. cbn [negb].
  destruct (Nat.eqb_spec n 0) as [->|Hn].
  { exists s, 0%nat. rewrite take_0. repeat (split; [done || lia|]). split; [by left|]. intros _. split; [done|lia]. }
  rewrite (proj2 (Nat.leb_le _ _)) by (rewrite Hh; lia). rewrite (rd_camo _ _ Hr).
  set (t0 := with_ready [] 0 t). assert (reading t0 s) as Hr0 by (destruct Hr; by split).
  destruct (fill_step n fs es u t0 s Hr0 Hfs Hu Hin) as (t1 & j & E1 & Hst1 & Hf1 & Hset1). rewrite E1.
  pose proof (read_loop_spec n (S (arrivals_left t)) t1 s (drop j fs) (drop j es) u (fi_reading _ _ _ _ _ _ _ _ Hf1) (proj2 (stream_split fs es j Hfs)) Hu
    (fi_incoming _ _ _ _ _ _ _ _ Hf1) Hset1) as Hloop.
  assert (arrivals_left t = weight (arrivals s)) as Ew by (unfold arrivals_left; by rewrite (rd_socket _ _ Hr)).
  rewrite Ew in *. specialize (Hloop ltac:(rewrite Hst1; exact Hst) ltac:(lia)).
  apply (loop_after n j fs es u t0 t1 s s _ Hf1 (λ H, H)) in Hloop. unfold loop_result in Hloop.
  destruct (read_loop _ n t1) as [t2 [[]|e|]]; cbn [fst snd] in Hloop; [|done..].
  destruct Hloop as (s2 & k & [A1 A2 A3 A4 A5 A6] & Hst2 & Hq). cbn [ready_ ready_head_ with_ready t0 app length] in A2, A3, A4.
  destruct (hand_out_all n t2 (take k fs) A2 A3) as [stats ->]; [rewrite length_take; lia|].
  exists s2, k. cbn [fst snd]. split; [destruct A1; by split|]. do 4 (split; [done|]). split; [done|].
  intros Ho. destruct (Hq Ho) as [H1 H2]. split; [done|]. cbn [ready_ with_ready t0 length] in H2. lia.
Qed.

(** ** Sending *)

(** The parts of a transport that writing depends on. *)
Definition stream_of (t : TcpTransport) (s : Socket) : list Z := wire s ++ outbox_ t.

Definition send_result (frame : list Z) (t : TcpTransport) (s : Socket) (r : TcpTransport * res TransportError nat) : Prop :=
  ∃ s', reading r.1 s' ∧ wire s `prefix_of` wire s' ∧
  match r.2 with
  | Ok n => n = length frame ∧ state_ r.1 = connected ∧ ∃ e, encodes frame e ∧ stream_of r.1 s' = stream_of t s ++ e
  | Fail _ => (state_ r.1 = connected ∧ stream_of r.1 s' = stream_of t s) ∨
      (state_ r.1 = failed ∧ (wire s' `prefix_of` stream_of t s ∨ ∃ q, unfinished q ∧ wire s' = stream_of t s ++ q))
  | Ub => False
  end.

Lemma flush_step t s : reading t s → state_ t = connected →
  ∃ t' r, flush_output t = (t', r) ∧ ∃ s', reading t' s' ∧ wire s `prefix_of` wire s' ∧
  match r with
  | Ok b => b = none_left (outbox_ t') ∧ state_ t' = connected ∧ stream_of t' s' = stream_of t s
  | Fail _ => state_ t' = failed ∧ wire s' `prefix_of` stream_of t s
  | Ub => False
  end.
Proof.
  intros [Hs Ht Hc Hu] Hst. destruct (tcp_flush_spec t s Hs Hst) as (s' & n & [] & -> & Hn & Hlt & _ & Hw).
  - eexists _, _. split; [reflexivity|]. exists s'. split; [by split|]. split; [by eexists|]. split; [done|]. split; [done|].
    unfold stream_of. cbn [outbox_ with_outbox with_socket]. by rewrite Hw, <- app_assoc, take_drop.
  - eexists _, _. split; [reflexivity|]. exists s'. split; [by split|]. split; [by eexists|]. split; [done|].
    unfold stream_of. rewrite Hw. apply prefix_app. apply prefix_take.
Qed.
Lemma send_spec frame urgent t s : reading t s → state_ t = connected → frame ≠ [] → send_result frame t s (send_frame frame urgent t).
Proof.
  intros Hr Hst Hne. unfold send_frame, sbind, state, gets, check. rewrite bool_decide_eq_true_2 by done. cbn [negb].
  destruct (Z.ltb_spec kMaximumTcpFrame (blen frame)).
  { exists s. split; [done|]. split; [done|]. by left. }
  assert (frame_ok frame) as Hok by (split; [destruct frame; [done|unfold blen; simpl; lia]|done]).
  assert ((match tls_ t with Some session => negb (established_ session) | None => false end) = false) as ->.
  { pose proof (rd_tls _ _ Hr) as Ht. unfold tls_ready in Ht. destruct (tls_ t); [by rewrite Ht|done]. }
  destruct (flush_step t s Hr Hst) as (t1 & r & -> & s1 & Hr1 & Hpre & Hcase). destruct r as [b|e|]; [|exists s1; naive_solver|done].
  destruct Hcase as (-> & Hst1 & Hstream1). rewrite (rd_camo _ _ Hr1). destruct (outbox_ t1) as [|x out] eqn:Eout; cbn [none_left negb].
  2:{ exists s1. split; [done|]. split; [done|]. by left. }
  destruct (fill_record_law frame t1 (rd_uses _ _ Hr1) Hok) as (record & h & -> & He & Hu & _). cbn [record_ with_record].
  set (t2 := with_record record (with_ssh h t1)). assert (socket_ t2 = Some s1) as Hs2 by (destruct Hr1; done).
  unfold stream_of in Hstream1. rewrite Eout, app_nil_r in Hstream1.
  destruct (write_bytes_spec record t2 s1 Hs2) as (s3 & n & [] & -> & Hn & Hlt & _ & Hw); unfold modify; cbn [fst snd].
  - exists s3. split; [destruct Hr1, (_ <? _)%nat; by split|]. split; [by rewrite Hw; apply prefix_app_r|]. cbn [fst snd sret]. split; [done|]. split; [by destruct (_ <? _)%nat|].
    exists record. split; [done|]. unfold stream_of at 1. rewrite Hw, Hstream1, <- app_assoc. f_equal.
    destruct (Nat.ltb_spec n (length record)); cbn [outbox_ with_outbox with_socket on_stats with_stats with_record with_ssh t2].
    + apply take_drop.
    + rewrite Eout, take_ge, app_nil_r by lia. done.
  - exists s3. split; [destruct Hr1; by split|]. split; [by rewrite Hw; apply prefix_app_r|]. right. split; [done|]. right. exists (take n record).
    split; [|by rewrite Hw, Hstream1]. exists frame, record. split; [done|]. split; [apply prefix_take|].
    intros E. apply (f_equal length) in E. rewrite length_take in E. specialize (Hlt eq_refl). lia.
Qed.

(** ** The link *)

(** [carried]: how much of the wire has reached the receiver's socket. *)
Record Link := mkLink {
  near : TcpTransport;
  far : TcpTransport;
  carried : nat;
  accepted : list (list Z);
  delivered : list (list Z);
}.

Inductive Disturbance := interrupts | blocks | breaks | hangs_up.
Definition disturbance (d : Disturbance) : Arrival :=
  match d with interrupts => Interrupted | blocks => Blocked | breaks => Broken | hangs_up => Bytes [] end.

(** The answers are those of the sender's socket to the calls of the step. *)
Inductive LinkStep :=
| Send (frame : list Z) (urgent : bool) (ans : list Sending)
| Flush (ans : list Sending)
| Carry (n : nat)
| Disturb (d : Disturbance)
| Receive (n : nat) (now : Z).

Definition on_socket (f : Socket → Socket) (t : TcpTransport) : TcpTransport := with_socket (f <$> socket_ t) t.
Definition answering (ans : list Sending) : TcpTransport → TcpTransport := on_socket (λ s, mkSocket ans (arrivals s) (wire s)).
Definition arriving (a : Arrival) : TcpTransport → TcpTransport := on_socket (λ s, mkSocket (answers s) (arrivals s ++ [a]) (wire s)).
Definition wire_of (t : TcpTransport) : list Z := match socket_ t with Some s => wire s | None => [] end.

Definition link_step (l : Link) (step : LinkStep) : Link :=
  match step with
  | Send frame urgent ans =>
      let r := send_frame frame urgent (answering ans (near l)) in
      mkLink r.1 (far l) (carried l) (match r.2 with Ok _ => accepted l ++ [frame] | _ => accepted l end) (delivered l)
  | Flush ans => mkLink (flush_output (answering ans (near l))).1 (far l) (carried l) (accepted l) (delivered l)
  | Carry n =>
      match take n (drop (carried l) (wire_of (near l))) with
      | [] => l
      | bytes => mkLink (near l) (arriving (Bytes bytes) (far l)) (carried l + length bytes) (accepted l) (delivered l)
      end
  | Disturb d => mkLink (near l) (arriving (disturbance d) (far l)) (carried l) (accepted l) (delivered l)
  | Receive n now =>
      let r := receive_frames n now (far l) in
      mkLink (near l) r.1 (carried l) (accepted l) (match r.2 with Ok out => delivered l ++ out | _ => delivered l end)
  end.

Definition start (a b : TcpTransport) : Link := mkLink a b (length (wire_of a)) [] [].

Definition step_ok (step : LinkStep) : Prop := match step with Send frame _ _ => frame ≠ [] | _ => True end.
(** ** The invariant

    [base] was on the wire before; [es] are the encodings accepted since. *)
Definition sender_ok (base : list Z) (es : list (list Z)) (t : TcpTransport) : Prop :=
  ∃ s, reading t s ∧
    ((state_ t = connected ∧ stream_of t s = base ++ concat es) ∨
     (state_ t = failed ∧ ∃ q, unfinished q ∧ wire s `prefix_of` base ++ concat es ++ q)).

Definition receiver_ok (base : list Z) (es : list (list Z)) (arrived : list Z) (t : TcpTransport) : Prop :=
  state_ t = connected → ∃ s, reading t s ∧ handed_out t ∧ base ++ concat es ++ incoming t s = arrived.

Record link_ok (base : list Z) (l : Link) : Prop := {
  lk_carried : (carried l ≤ length (wire_of (near l)))%nat;
  lk_delivered : delivered l `prefix_of` accepted l;
  lk_streams : ∃ es, Forall2 encodes (accepted l) es ∧ sender_ok base es (near l) ∧
    receiver_ok base (take (length (delivered l)) es) (take (carried l) (wire_of (near l))) (far l);
}.

Lemma reading_answering ans t s : reading t s → reading (answering ans t) (mkSocket ans (arrivals s) (wire s)).
Proof. intros [Hs Ht Hc Hu]. split; try done. unfold answering, on_socket. cbn. by rewrite Hs. Qed.

Lemma reading_arriving a t s : reading t s → reading (arriving a t) (mkSocket (answers s) (arrivals s ++ [a]) (wire s)).
Proof. intros [Hs Ht Hc Hu]. split; try done. unfold arriving, on_socket. cbn. by rewrite Hs. Qed.

Lemma wire_of_reading t s : reading t s → wire_of t = wire s.
Proof. intros [Hs _ _ _]. unfold wire_of. by rewrite Hs. Qed.

(** Everything on the wire belongs to the stream. *)
Lemma sender_wire base es t : sender_ok base es t → ∃ q, unfinished q ∧ wire_of t `prefix_of` base ++ concat es ++ q.
Proof.
  intros (s & Hr & Hcase). rewrite (wire_of_reading t s Hr). destruct Hcase as [[_ Hs]|[_ (q & Hq & Hp)]]; [|by eauto].
  exists []. split; [apply nil_unfinished|]. rewrite app_nil_r, <- Hs. by eexists.
Qed.

Lemma take_grown (n : nat) (w w' : list Z) : (n ≤ length w)%nat → w `prefix_of` w' → take n w' = take n w.
Proof. intros Hn [k ->]. by rewrite take_app_le. Qed.

Lemma sender_send base es frame urgent ans t : sender_ok base es t → frame ≠ [] →
  let r := send_frame frame urgent (answering ans t) in
  wire_of t `prefix_of` wire_of r.1 ∧
  match r.2 with Ok _ => ∃ e, encodes frame e ∧ sender_ok base (es ++ [e]) r.1 | _ => sender_ok base es r.1 end.
Proof.
  intros (s & Hr & Hcase) Hne. pose proof (reading_answering ans t s Hr) as Hr0. destruct Hcase as [[Hst Hs]|[Hst Hq]].
  - destruct (send_spec frame urgent (answering ans t) _ Hr0 Hst Hne) as (s' & Hr' & Hp & Hres). cbn zeta.
    rewrite (wire_of_reading t s Hr), (wire_of_reading _ s' Hr'). split; [done|].
    change (stream_of (answering ans t) _) with (stream_of t s) in Hres. rewrite Hs in Hres.
    destruct ((send_frame frame urgent (answering ans t)).2) as [n|e|]; [| |done].
    + destruct Hres as (_ & Hst' & e & He & Hs'). exists e. split; [done|]. exists s'. split; [done|]. left. split; [done|].
      by rewrite Hs', concat_app, <- app_assoc; cbn; rewrite app_nil_r.
    + exists s'. split; [done|]. destruct Hres as [[Hst' Hs']|[Hst' [Hw|(q & Hq & Hw)]]]; [by left|right|right]; (split; [done|]).
      * exists []. split; [apply nil_unfinished|]. by rewrite app_nil_r.
      * exists q. split; [done|]. by rewrite Hw, <- app_assoc.
  - unfold send_frame, sbind, state, gets, check. rewrite bool_decide_eq_false_2 by (cbn; congruence). cbn [negb fst snd].
    rewrite (wire_of_reading t s Hr), (wire_of_reading _ _ Hr0). split; [done|]. eexists. split; [exact Hr0|]. by right.
Qed.

Lemma sender_flush base es ans t : sender_ok base es t → let r := flush_output (answering ans t) in
  wire_of t `prefix_of` wire_of r.1 ∧ sender_ok base es r.1.
Proof.
  intros (s & Hr & Hcase). pose proof (reading_answering ans t s Hr) as Hr0. destruct Hcase as [[Hst Hs]|[Hst Hq]].
  - destruct (flush_step (answering ans t) _ Hr0 Hst) as (t' & r & -> & s' & Hr' & Hp & Hres). cbn [fst].
    rewrite (wire_of_reading t s Hr), (wire_of_reading _ s' Hr'). split; [done|].
    change (stream_of (answering ans t) _) with (stream_of t s) in Hres. rewrite Hs in Hres.
    exists s'. split; [done|]. destruct r as [b|e|]; [|right|done].
    + destruct Hres as (_ & Hst' & Hs'). by left.
    + destruct Hres as [Hst' Hw]. split; [done|]. exists []. split; [apply nil_unfinished|]. by rewrite app_nil_r.
  - unfold flush_output, sbind, state, gets, check. rewrite bool_decide_eq_false_2 by (cbn; congruence). cbn [negb fst snd].
    rewrite (wire_of_reading t s Hr), (wire_of_reading _ _ Hr0). split; [done|]. eexists. split; [exact Hr0|]. by right.
Qed.
Lemma receiver_arrives base es arrived a t : receiver_ok base es arrived t →
  receiver_ok base es (arrived ++ bytes_of [a]) (arriving a t).
Proof.
  intros Ht Hst. destruct (Ht Hst) as (s & Hr & Hh & <-). eexists. split; [by apply reading_arriving|]. split; [done|].
  unfold incoming. cbn [arrivals]. rewrite bytes_of_app, <- !app_assoc. done.
Qed.

(** What a receiver has of the stream, in frames. *)
Lemma receiver_frames base fs es k arrived w q t s : Forall2 encodes fs es → unfinished q → arrived `prefix_of` w →
  w `prefix_of` base ++ concat es ++ q → base ++ concat (take k es) ++ incoming t s = arrived →
  ∃ j v, unfinished v ∧ incoming t s = concat (take j (drop k es)) ++ v.
Proof.
  intros Hfs Hq Ha Hw Hin. assert (incoming t s `prefix_of` concat (drop k es) ++ q) as Hp.
  { apply (prefix_app_inv (base ++ concat (take k es))). rewrite <- app_assoc, Hin. etransitivity; [exact Ha|].
    etransitivity; [exact Hw|]. by rewrite (concat_split es k), <- !app_assoc. }
  destruct (stream_prefix (drop k fs) (drop k es) q _ (proj2 (stream_split fs es k Hfs)) Hq Hp) as (j & v & _ & Hv & E). by exists j, v.
Qed.

Lemma receiver_receives n now base fs es k arrived w q t : Forall2 encodes fs es → unfinished q → arrived `prefix_of` w →
  w `prefix_of` base ++ concat es ++ q → receiver_ok base (take k es) arrived t → let r := receive_frames n now t in
  match r.2 with
  | Ok out => ∃ i, out = take i (drop k fs) ∧ (i ≤ length (drop k fs))%nat ∧ receiver_ok base (take (k + i) es) arrived r.1
  | _ => receiver_ok base (take k es) arrived r.1
  end.
Proof.
  intros Hfs Hq Ha Hw Ht. cbn zeta. destruct (decide (state_ t = connected)) as [Hst|Hst].
  2:{ unfold receive_frames, sbind, state, gets, check. by rewrite bool_decide_eq_false_2. }
  destruct (Ht Hst) as (s & Hr & Hh & Hin). destruct (receiver_frames base fs es k arrived w q t s Hfs Hq Ha Hw Hin) as (j & v & Hv & E).
  destruct (stream_split fs es k Hfs) as [_ Hd]. destruct (stream_split _ _ j Hd) as [Hj _].
  pose proof (receive_spec n now t s _ _ v Hst Hr Hh Hj Hv E) as Hres. unfold receive_result in Hres.
  destruct (receive_frames n now t) as [t' [out|e|]]; cbn [fst snd] in *; [| |done].
  - destruct Hres as (s' & i & Hr' & Hh' & -> & Hi & Hin' & _). rewrite length_take in Hi. exists i.
    rewrite take_take, Nat.min_l by lia. split; [done|]. split; [lia|]. intros _. exists s'. split; [done|]. split; [done|].
    rewrite Hin', <- Hin, E. f_equal. rewrite <- (take_take_drop es k i), concat_app, <- !app_assoc. f_equal.
    rewrite (concat_split (take j (drop k es)) i), <- app_assoc, take_take, Nat.min_l by lia. done.
  - intros Hst'. destruct Hres as [Hst2 _]. congruence.
Qed.

Lemma take_length_take {A} n (l : list A) : take (length (take n l)) l = take n l.
Proof.
  rewrite length_take. destruct (decide (n ≤ length l)%nat); [by rewrite Nat.min_l|].
  by rewrite Nat.min_r, !take_ge by lia.
Qed.

Lemma link_step_ok base l step : link_ok base l → step_ok step → link_ok base (link_step l step).
Proof.
  intros [Hc Hd (es & Hes & Hs & Hr)] Hstep. pose proof (Forall2_length _ _ _ Hes) as Hlen. pose proof (prefix_length _ _ Hd) as Hdl.
  destruct step as [frame urgent ans|ans|n|d|n now]; cbn [link_step].
  - destruct (sender_send base es frame urgent ans (near l) Hs Hstep) as [Hw Hres].
    pose proof (take_grown _ _ _ Hc Hw) as Et. pose proof (prefix_length _ _ Hw).
    destruct (send_frame frame urgent _) as [t' r]. cbn [fst snd] in *.
    assert (r = Ub ∨ True → sender_ok base es t' → link_ok base (mkLink t' (far l) (carried l) (accepted l) (delivered l))) as Hsame.
    { intros _ Hs'. split; cbn [carried near far accepted delivered]; [lia|done|]. exists es. by rewrite Et. }
    destruct r as [n|e|]; [|by apply Hsame; [right|]..].
    destruct Hres as (e & He & Hs'). split; cbn [carried near far accepted delivered]; [lia|by apply prefix_app_r|]. exists (es ++ [e]). rewrite Et.
    split; [apply Forall2_app; [done|by repeat constructor]|]. split; [done|]. by rewrite take_app_le by lia.
  - destruct (sender_flush base es ans (near l) Hs) as [Hw Hs'].
    pose proof (take_grown _ _ _ Hc Hw) as Et. pose proof (prefix_length _ _ Hw).
    split; cbn [carried near far accepted delivered]; [lia|done|]. exists es. by rewrite Et.
  - destruct (take n (drop (carried l) (wire_of (near l)))) as [|x bytes] eqn:Eb; [split; [done|done|by exists es]|].
    pose proof (f_equal length Eb) as Hlb. rewrite length_take, length_drop in Hlb. cbn [length] in Hlb.
    split; cbn [carried near far accepted delivered]; [cbn [length]; lia|done|]. exists es. split; [done|]. split; [done|].
    rewrite <- take_take_drop.
    assert (take (length (x :: bytes)) (drop (carried l) (wire_of (near l))) = bytes_of [Bytes (x :: bytes)]) as ->
      by (cbn [bytes_of]; by rewrite app_nil_r, <- Eb, take_length_take).
    by apply receiver_arrives.
  - split; cbn [carried near far accepted delivered]; [done|done|]. exists es. split; [done|]. split; [done|].
    pose proof (receiver_arrives _ _ _ (disturbance d) _ Hr) as Hr'. assert (bytes_of [disturbance d] = []) as E by (by destruct d).
    by rewrite E, app_nil_r in Hr'.
  - destruct (sender_wire base es (near l) Hs) as (q & Hq & Hw).
    pose proof (receiver_receives n now base (accepted l) es _ _ (wire_of (near l)) q (far l) Hes Hq (prefix_take _ _) Hw Hr) as Hres. cbn zeta in Hres.
    destruct (receive_frames n now (far l)) as [t' [out|e|]]; cbn [fst snd] in *; [|split; [done|done|by exists es]..].
    destruct Hres as (i & -> & Hi & Hr'). rewrite length_drop in Hi. destruct Hd as [more Hd].
    assert (delivered l ++ take i (drop (length (delivered l)) (accepted l)) = take (length (delivered l) + i) (accepted l)) as Ed.
    { rewrite <- take_take_drop. f_equal. by rewrite Hd, take_app_length. }
    rewrite Ed. split; cbn [carried near far accepted delivered]; [done|apply prefix_take|]. exists es. split; [done|]. split; [done|].
    by rewrite length_take, Nat.min_l by lia.
Qed.
Lemma start_ok a b sa sb : state_ a = connected → reading a sa → outbox_ a = [] → reading b sb → handed_out b → incoming b sb = [] →
  link_ok (wire sa) (start a b).
Proof.
  intros Hst Ha Ho Hb Hh Hin. split; cbn [carried near far accepted delivered start]; [done|done|]. exists []. split; [constructor|].
  rewrite (wire_of_reading a sa Ha). split.
  - exists sa. split; [done|]. left. split; [done|]. unfold stream_of. by rewrite Ho.
  - intros _. exists sb. split; [done|]. split; [done|]. rewrite Hin. cbn. rewrite app_nil_r. by rewrite take_ge.
Qed.

(** C9. TCP transport over any sockets, in any framing that satisfies
    [FramingLaws] (length prefix or SSH record, with or without TLS), for frames
    that are not empty (an empty frame is accepted, but what the reassembler
    returns for it reads as no frame): whatever
    part of each write the sender's socket takes, however the network cuts,
    delays, interrupts or ends what it carries, and however many frames the
    receiver asks for, the frames delivered are a prefix of the frames
    accepted, in order and unaltered; and once the outbox is empty and the wire
    has been carried, a call for [n] frames returns exactly the next [n] frames
    accepted, or all that are left. *)
Theorem tcp_frames_in_order a b sa sb steps :
  state_ a = connected → reading a sa → outbox_ a = [] →
  state_ b = connected → reading b sb → handed_out b → incoming b sb = [] → Forall step_ok steps →
  let l := foldl link_step (start a b) steps in
  delivered l `prefix_of` accepted l ∧
  ∀ n now s, state_ (near l) = connected → outbox_ (near l) = [] → carried l = length (wire_of (near l)) →
    state_ (far l) = connected → socket_ (far l) = Some s → only_data (arrivals s) →
    (receive_frames n now (far l)).2 = Ok (take n (drop (length (delivered l)) (accepted l))).
Proof.
  intros Hsta Ha Ho _ Hb Hh Hin Hsteps l.
  assert (link_ok (wire sa) l) as [Hc Hd (es & Hes & Hs & Hr)].
  { pose proof (start_ok a b sa sb Hsta Ha Ho Hb Hh Hin) as Hl. unfold l. clear -Hl Hsteps L. revert Hl. generalize (start a b) as l0.
    induction Hsteps as [|step steps Hstep _ IH]; intros l0 Hl; [done|]. cbn [foldl]. by apply IH, link_step_ok. }
  split; [done|]. intros n now s Hst Hob Hcar Hstf Hsf Hod.
  destruct (Hr Hstf) as (s' & Hrd & Hho & Hin'). assert (s' = s) as -> by (destruct Hrd; congruence).
  destruct Hs as (s0 & Hr0 & [[_ Hstream]|[Hf _]]); [|congruence].
  rewrite Hcar, firstn_all, (wire_of_reading _ _ Hr0) in Hin'. unfold stream_of in Hstream. rewrite Hob, app_nil_r in Hstream.
  rewrite Hstream, (concat_split es (length (delivered l))) in Hin'. do 2 apply app_inv_head in Hin'. rewrite <- (app_nil_r (concat _)) in Hin'.
  pose proof (receive_spec n now (far l) s _ _ [] Hstf Hrd Hho (proj2 (stream_split _ _ (length (delivered l)) Hes)) nil_unfinished Hin') as Hres.
  unfold receive_result in Hres. destruct ((receive_frames n now (far l)).2) as [out|e|]; [|by destruct Hres|done].
  destruct Hres as (s2 & j & _ & _ & -> & _ & _ & _ & Hq). destruct (Hq Hod) as [_ ->]. f_equal.
  rewrite <- length_take. apply take_length_take.
Qed.
End link.

Section sample.
#[local] Existing Instances toy_dh toy_keystream toy_rng.

Definition sample_socket : Socket := mkSocket [] [] [].
Definition sample_plain : TcpTransport := with_state connected (with_socket (Some sample_socket) new_transport).
Definition sample_ssh : TcpTransport := with_ssh (mkSsh true true true [] [] 7) sample_plain.

(** Two frames, the first written in three pieces. *)
Definition sample_steps : list LinkStep :=
  [Send [1; 2; 3] false [SendInterrupted; Accepts 2; SendBlocked]; Send [9] false [Accepts 1; SendBlocked]; Carry 3;
   Disturb interrupts; Receive 4 0; Flush [Accepts 5; Accepts 100]; Send [4; 5] false [Accepts 100]; Carry 17; Receive 1 0; Carry 100].

Abbreviation sample_link t := (foldl link_step (start t t) sample_steps).

(** The second frame was refused while the first was not yet written. *)
Lemma tcp_frames_in_order_witness :
  accepted (sample_link sample_ssh) = [[1; 2; 3]; [4; 5]] ∧ delivered (sample_link sample_ssh) = [[1; 2; 3]] ∧
  (receive_frames 4 0 (far (sample_link sample_ssh))).2 = Ok [[4; 5]] ∧
  (receive_frames 4 0 (far (sample_link sample_plain))).2 = Ok (drop (length (delivered (sample_link sample_plain))) [[1; 2; 3]; [4; 5]]).
Proof.
  assert (Forall step_ok sample_steps) as Hok by (repeat constructor; done).
  assert (reading (F:=ssh_framing) sample_ssh sample_socket ∧ reading (F:=plain_framing) sample_plain sample_socket) as [H1 H2].
  { split; split; try done. }
  assert (accepted (sample_link sample_ssh) = [[1; 2; 3]; [4; 5]]) as E1 by (vm_compute; reflexivity).
  assert (delivered (sample_link sample_ssh) = [[1; 2; 3]]) as E2 by (vm_compute; reflexivity).
  assert (accepted (sample_link sample_plain) = [[1; 2; 3]; [4; 5]]) as E3 by (vm_compute; reflexivity).
  split; [exact E1|]. split; [exact E2|]. split.
  - destruct (tcp_frames_in_order (F:=ssh_framing) sample_ssh sample_ssh _ _ sample_steps eq_refl H1 eq_refl eq_refl H1 eq_refl eq_refl Hok) as [_ H].
    rewrite E1, E2 in H.
    set (s := match socket_ (far (sample_link sample_ssh)) with Some s => s | None => sample_socket end).
    apply (H 4%nat 0 s); [vm_compute; reflexivity..|]. vm_compute. repeat constructor.
  - destruct (tcp_frames_in_order (F:=plain_framing) sample_plain sample_plain _ _ sample_steps eq_refl H2 eq_refl eq_refl H2 eq_refl eq_refl Hok) as [_ H].
    rewrite E3 in H.
    set (s := match socket_ (far (sample_link sample_plain)) with Some s => s | None => sample_socket end).
    assert (drop (length (delivered (sample_link sample_plain))) [[1; 2; 3]; [4; 5]] =
            take 4 (drop (length (delivered (sample_link sample_plain))) [[1; 2; 3]; [4; 5]])) as -> by (vm_compute; reflexivity).
    apply (H 4%nat 0 s); [vm_compute; reflexivity..|]. vm_compute. repeat constructor.
Defined.
End sample.
