(* ===== verification/TcpCalls.v ===== *)
(** Every call on a [TcpTransport] returns, whatever the socket answers.

    The invariant [tcp_ok] ties the state of a transport to its descriptor and
    its positions to its buffers.  Every public member keeps it, and none
    leaves a buffer or runs out of fuel, so its loops end. *)

From S2P Require Import Prelude Packet Fec Address Noise Obfuscation SshFramer Camouflage CamouflageRecords CamouflageFlow Tcp TcpStream.

Record tcp_ok (t : TcpTransport) : Prop := {
  ok_socket : state_ t = connected ∨ state_ t = connecting → is_Some (socket_ t);
  ok_ready : (ready_head_ t ≤ length (ready_ t))%nat;
  ok_reassembler : (FrameReassembler.consumed_ (reassembler_ t) ≤ length (FrameReassembler.buffer_ (reassembler_ t)))%nat;
}.

(** [m] returns from [t] and keeps the invariant. *)
Definition runs {A} (m : effect TcpTransport TransportError A) (t : TcpTransport) : Prop := tcp_ok (m t).1 ∧ (m t).2 ≠ Ub.

Lemma runs_bind {A B} (m : effect TcpTransport TransportError A) (f : A → effect TcpTransport TransportError B) t :
  runs m t → (∀ a t', m t = (t', Ok a) → tcp_ok t' → runs (f a) t') → runs (sbind m f) t.
Proof.
  unfold runs, sbind. intros [H1 H2] Hf. destruct (m t) as [t' [a|e|]]; cbn [fst snd] in *; [|done..]. by apply Hf.
Qed.
Lemma runs_state {B} (f : TcpTransport → effect TcpTransport TransportError B) t : runs (f t) t → runs (sbind state f) t.
Proof. done. Qed.
Lemma runs_gets {A B} (g : TcpTransport → A) (f : A → effect TcpTransport TransportError B) t : runs (f (g t)) t → runs (sbind (gets g) f) t.
Proof. done. Qed.
Lemma runs_check {B} b e (f : unit → effect TcpTransport TransportError B) t : tcp_ok t → (b = false → runs (f tt) t) → runs (sbind (check b e) f) t.
Proof. intros Ht Hf. unfold runs, sbind, check. destruct b; [done|by apply Hf]. Qed.
Lemma runs_modify {B} g (f : unit → effect TcpTransport TransportError B) t : runs (f tt) (g t) → runs (sbind (modify g) f) t.
Proof. done. Qed.
Lemma runs_ret {A} (a : A) t : tcp_ok t → runs (sret a) t.
Proof. done. Qed.

Lemma ok_failed t : tcp_ok t → tcp_ok (with_state failed t).
Proof. intros [H1 H2 H3]. split; try done. cbn. intros [?|?]; discriminate. Qed.
Lemma runs_fail {A} e t : tcp_ok t → runs (A:=A) (fail_with e) t.
Proof. intros Ht. split; [by apply ok_failed|done]. Qed.
Lemma ok_opened s t : tcp_ok t → tcp_ok (with_socket (Some s) t).
Proof. intros [H1 H2 H3]. split; try done. Qed.

(** ** Writing *)

Lemma runs_flush t : tcp_ok t → runs flush_output t.
Proof.
  intros Ht. destruct (decide (state_ t = connected)) as [Hst|Hst].
  - destruct (ok_socket t Ht (or_introl Hst)) as [s Hs]. destruct (tcp_flush_spec t s Hs Hst) as (s' & n & r & E & _). unfold runs. rewrite E.
    destruct r; (split; [|done]); [destruct Ht; by split|by apply ok_failed, ok_opened].
  - unfold flush_output. apply runs_state, runs_check; [done|]. by rewrite bool_decide_eq_false_2.
Qed.
Lemma runs_flush_ignoring t : tcp_ok t → runs flush_ignoring t.
Proof.
  intros Ht. destruct (runs_flush t Ht) as [H1 H2]. unfold runs, flush_ignoring. destruct (flush_output t) as [t' [b|e|]]; by split.
Qed.

(** A flush that returns leaves an open connection open. *)
Lemma flush_connected t t' b : tcp_ok t → flush_output t = (t', Ok b) → state_ t' = connected ∧ is_Some (socket_ t').
Proof.
  intros Ht E. destruct (decide (state_ t = connected)) as [Hst|Hst].
  - destruct (ok_socket t Ht (or_introl Hst)) as [s Hs]. destruct (tcp_flush_spec t s Hs Hst) as (s' & n & [] & E' & _); rewrite E in E'; [|done].
    by injection E' as -> _.
  - unfold flush_output, sbind, state, gets, check in E. by rewrite bool_decide_eq_false_2 in E.
Qed.

Lemma runs_write bytes t : tcp_ok t → is_Some (socket_ t) → runs (write_bytes bytes) t.
Proof.
  intros Ht [s Hs]. destruct (write_bytes_spec bytes t s Hs) as (s' & n & r & E & _). unfold runs. rewrite E.
  destruct r; (split; [|done]); [by apply ok_opened|by apply ok_failed, ok_opened].
Qed.

(** A record is made without leaving [record_]. *)
Lemma runs_fill_record frame t : tcp_ok t → blen frame ≤ kMaximumTcpFrame →
  runs (fill_record frame) t ∧ socket_ (fill_record frame t).1 = socket_ t.
Proof.
  intros Ht Hf. unfold fill_record, runs, sbind, state, gets, modify. destruct (ssh_active_ (ssh t)).
  - set (record := resize _ _). destruct (ssh_wrap_spec (pad_state (ssh t)) frame record) as [pad ->]; [done|unfold record; by rewrite length_resize|].
    split; [|done]. split; [|done]. destruct Ht. by split.
  - split; [|done]. split; [|done]. destruct Ht. by split.
Qed.

Lemma runs_send frame urgent t : tcp_ok t → runs (send_frame frame urgent) t.
Proof.
  intros Ht. unfold send_frame. apply runs_state, runs_check; [done|]. intros _. apply runs_check; [done|]. intros Hf%Z.ltb_ge.
  apply runs_check; [done|]. intros _. apply runs_bind; [by apply runs_flush|]. intros b t1 E1 Ht1.
  destruct (flush_connected t t1 b Ht E1) as [_ Hs1]. apply runs_state. destruct (camo_ t1).
  - apply runs_check; [done|]. intros _. destruct (wrap_spec_ frame) as (bodies & _ & _ & ->).
    apply runs_bind; [destruct b; [by apply runs_write|by apply runs_ret]|]. intros n t2 _ Ht2. apply runs_modify, runs_ret. destruct Ht2. by split.
  - apply runs_check; [done|]. intros _. destruct (runs_fill_record frame t1 Ht1 Hf) as [Hr Hs]. apply runs_bind; [done|].
    intros [] t2 E2 Ht2. rewrite E2 in Hs. cbn [fst] in Hs. apply runs_gets. rewrite <- Hs in Hs1.
    apply runs_bind; [by apply runs_write|]. intros n t3 _ Ht3. apply runs_modify, runs_ret. destruct Ht3. by destruct (_ <? _)%nat; split.
Qed.

(** ** Reading *)

(** A read that does not stop the loop uses up something of the socket. *)
Lemma read_lighter size s : (0 < size)%nat → let r := sys_read size s in
  match r.2 with Fail EAGAIN | Fail EOTHER => True | Ub => False | _ => ∀ t, (arrivals_left (with_socket (Some r.1) t) < arrivals_left (with_socket (Some s) t))%nat end.
Proof.
  intros Hs. destruct s as [ans [|[l| | |] rest] w]; cbn; try done; intros _.
  - destruct (Nat.leb_spec (length l) size); cbn; [lia|]. rewrite length_drop. lia.
  - lia.
Qed.

Lemma arrivals_left_of t s : socket_ t = Some s → arrivals_left (with_socket (Some s) t) = arrivals_left t.
Proof. intros Hs. unfold arrivals_left. cbn. by rewrite Hs. Qed.

(** A call that reads: what follows may use what is left. *)
Lemma runs_read {B} size (f : res Errno (list Z) → effect TcpTransport TransportError B) t : (0 < size)%nat → tcp_ok t →
  (∀ r t', tcp_ok t' → r ≠ Ub → (r = Fail EAGAIN ∨ r = Fail EOTHER ∨ (arrivals_left t' < arrivals_left t)%nat) → runs (f r) t') →
  runs (sbind (syscall (sys_read size)) f) t.
Proof.
  intros Hsz Ht Hf. unfold syscall, runs, sbind. destruct (socket_ t) as [s|] eqn:Hs; [|by apply (Hf (Fail EOTHER) t); auto].
  pose proof (read_lighter size s Hsz) as Hl. destruct (sys_read size s) as [s' r]. cbn [fst snd] in Hl.
  apply Hf; [by apply ok_opened|by intros ->|]. rewrite <- (arrivals_left_of t s Hs). destruct r as [b|[]|]; [by right; right| |by left|by right; left|done].
  right. right. apply Hl.
Qed.

Lemma runs_pop3_loop needed fuel : ∀ t, tcp_ok t → (arrivals_left t < fuel)%nat → runs (pop3_loop fuel needed) t.
Proof.
  induction fuel as [|fuel IH]; intros t Ht Hf; [lia|]. cbn [pop3_loop]. apply runs_gets. destruct (_ <=? _)%nat; [by apply runs_ret|].
  apply runs_read; [lia|done|]. intros r t' Ht' Hr Hl. destruct r as [[|b l]|[]|]; [by apply runs_fail| | |by apply runs_ret|by apply runs_fail|done].
  - apply runs_modify, IH; [destruct Ht'; by split|]. destruct Hl as [?|[?|Hl]]; [done..|]. change (arrivals_left t' < fuel)%nat. lia.
  - apply IH; [done|]. destruct Hl as [?|[?|Hl]]; [done..|]. lia.
Qed.

Lemma runs_ssh_loop fuel : ∀ t, tcp_ok t → (arrivals_left t < fuel)%nat → runs (ssh_loop fuel) t.
Proof.
  induction fuel as [|fuel IH]; intros t Ht Hf; [lia|]. cbn [ssh_loop]. apply runs_gets. destruct (any_line _); [by apply runs_ret|].
  destruct (_ <? _)%nat; [by apply runs_fail|].
  apply runs_read; [lia|done|]. intros r t' Ht' Hr Hl. destruct r as [[|b l]|[]|]; [by apply runs_fail| | |by apply runs_ret|by apply runs_fail|done].
  - apply runs_modify, IH; [destruct Ht'; by split|]. destruct Hl as [?|[?|Hl]]; [done..|]. change (arrivals_left t' < fuel)%nat. lia.
  - apply IH; [done|]. destruct Hl as [?|[?|Hl]]; [done..|]. lia.
Qed.

(** The flush before the other side's line is read. *)
Lemma runs_flush_first {B} (f : bool → effect TcpTransport TransportError B) t : tcp_ok t → (∀ b t', tcp_ok t' → runs (f b) t') →
  runs (sbind (if none_left (outbox_ t) then sret false else bind drained := flush_output in sret (negb drained)) f) t.
Proof.
  intros Ht Hf. apply runs_bind; [|by intros b t' _; apply Hf]. destruct (none_left _); [by apply runs_ret|].
  apply runs_bind; [by apply runs_flush|]. intros b t' _ Ht'. by apply runs_ret.
Qed.

Lemma pop3_answer_ok t : tcp_ok t → tcp_ok (pop3_answer t).
Proof.
  intros Ht. assert (∀ a b c says t, tcp_ok t → tcp_ok (script_step a b c says t)) as Hs.
  { intros a b c says t0 [H1 H2 H3]. unfold script_step. destruct (_ && _); by split. }
  unfold pop3_answer. destruct (pop3_client_ (pop3 t)); by repeat apply Hs.
Qed.

Lemma runs_poll_pop3 t : tcp_ok t → runs poll_pop3 t.
Proof.
  intros Ht. unfold poll_pop3. apply runs_state. destruct (negb _); [by apply runs_ret|]. apply runs_check; [done|]. intros _.
  destruct (pop3_ready_ (pop3 t)); [by apply runs_ret|]. apply runs_flush_first; [done|]. intros b t1 Ht1. destruct b; [by apply runs_ret|].
  apply runs_state, runs_bind; [apply runs_pop3_loop; [done|lia]|]. intros [] t2 _ Ht2. apply runs_modify, runs_state.
  pose proof (pop3_answer_ok t2 Ht2) as Ht3. apply runs_bind; [destruct (none_left _); [by apply runs_ret|by apply runs_flush_ignoring]|].
  intros [] t4 _ Ht4. done.
Qed.

Lemma runs_poll_ssh t : tcp_ok t → runs poll_ssh t.
Proof.
  intros Ht. unfold poll_ssh. apply runs_state. destruct (negb _); [by apply runs_ret|]. apply runs_check; [done|]. intros _.
  destruct (ssh_ready_ (ssh t)); [by apply runs_ret|]. apply runs_flush_first; [done|]. intros b t1 Ht1. destruct b; [by apply runs_ret|].
  apply runs_state, runs_bind; [apply runs_ssh_loop; [done|lia]|]. intros [] t2 _ Ht2. apply runs_modify.
  destruct Ht2. destruct (any_line _); by split.
Qed.

(** *** Frames *)

Lemma next_defined r : (FrameReassembler.consumed_ r ≤ length (FrameReassembler.buffer_ r))%nat → let n := FrameReassembler.next r in
  n.2 ≠ Ub ∧ (FrameReassembler.consumed_ n.1 ≤ length (FrameReassembler.buffer_ n.1))%nat.
Proof.
  intros Hc. assert (∀ r, (FrameReassembler.consumed_ r ≤ length (FrameReassembler.buffer_ r))%nat →
    (FrameReassembler.consumed_ (FrameReassembler.compact r) ≤ length (FrameReassembler.buffer_ (FrameReassembler.compact r)))%nat) as Hcompact.
  { intros r0 H0. unfold FrameReassembler.compact. destruct (_ =? 0)%nat; cbn; lia. }
  unfold FrameReassembler.next, kTcpLengthPrefixSize. destruct (FrameReassembler.violated_ r); [done|].
  destruct (Nat.ltb_spec (length (FrameReassembler.buffer_ r) - FrameReassembler.consumed_ r) 2); [by split; [|apply Hcompact]|].
  destruct (drop (FrameReassembler.consumed_ r) (FrameReassembler.buffer_ r)) as [|x [|y l]] eqn:E;
    [apply (f_equal length) in E; rewrite length_drop in E; cbn in E; lia..|].
  change (let* high := rd (x :: y :: l) 0 in let* low := rd (x :: y :: l) 1 in Ok (Z.lor (u32 (Z.shiftl high 8)) low))
    with (Ok (E:=TransportError) (Z.lor (u32 (Z.shiftl x 8)) y)). cbv iota beta.
  set (n := Z.lor _ _). destruct (_ <? n); [done|].
  destruct (Nat.ltb_spec (length (FrameReassembler.buffer_ r) - FrameReassembler.consumed_ r) (2 + Z.to_nat n)); [by split; [|apply Hcompact]|].
  cbn zeta. split; [done|]. cbn [fst]. destruct (_ || _); [apply Hcompact|]; cbn [FrameReassembler.consumed_ FrameReassembler.buffer_]; lia.
Qed.

Lemma unwrap_defined view out : match SshFramer.unwrap view out with
  | Ok (out', _, consumed) => (consumed ≤ length view)%nat | Fail _ => True | Ub => False end.
Proof.
  unfold SshFramer.unwrap, guard, kSshHeaderSize. destruct (Nat.ltb_spec (length view) 5); [done|].
  destruct view as [|x0 [|x1 [|x2 [|x3 [|x4 view]]]]]; [cbn [length] in *; lia..|].
  change (get_u32 (x0 :: x1 :: x2 :: x3 :: x4 :: view))
    with (Ok (E:=SshFramerError) (Z.lor (Z.lor (Z.lor (u32 (Z.shiftl x0 24)) (u32 (Z.shiftl x1 16))) (u32 (Z.shiftl x2 8))) x3)).
  set (n := Z.lor _ _). change (rd (x0 :: x1 :: x2 :: x3 :: x4 :: view) 4) with (Ok (E:=SshFramerError) x4). cbn [rbind].
  set (v := x0 :: x1 :: x2 :: x3 :: x4 :: view) in *. destruct (_ || _); [done|]. destruct (_ || _) eqn:Hp; [done|].
  apply orb_false_iff in Hp as [Hp1%Z.ltb_ge Hp2%Z.ltb_ge]. unfold kSshMinPadding in Hp1.
  destruct (Nat.ltb_spec (length v) (4 + Z.to_nat n)); [done|]. destruct (Nat.ltb_spec (length out) (Z.to_nat n - Z.to_nat x4 - 1)); [done|].
  rewrite subspan_ok by lia. cbn [rbind]. unfold blit. rewrite decide_True; [done|]. rewrite length_take, length_drop. lia.
Qed.

Lemma fill_ssh_defined n held_ fuel : ∀ payload offset ready, (offset ≤ length held_)%nat → (n - length ready < fuel)%nat →
  match fill_ssh fuel n held_ payload offset ready with Ok (_, ready', _) => (length ready ≤ length ready')%nat | Fail _ => True | Ub => False end.
Proof.
  induction fuel as [|fuel IH]; intros payload offset ready Ho Hf; [lia|]. cbn [fill_ssh].
  destruct (Nat.leb_spec n (length ready)); [done|]. rewrite subspan_drop by done. cbn [rbind].
  pose proof (unwrap_defined (drop offset held_) payload) as Hu. rewrite length_drop in Hu.
  destruct (SshFramer.unwrap _ payload) as [[[payload' size] consumed]|[]|]; [|done..].
  specialize (IH payload' (offset + consumed)%nat (ready ++ [take size payload'])). rewrite length_app in IH. cbn [length] in IH.
  specialize (IH ltac:(lia) ltac:(lia)). destruct (fill_ssh fuel _ _ _ _ _) as [[[o ready'] fine]|e|]; [lia|done..].
Qed.

Lemma fill_plain_defined n fuel : ∀ r ready, (FrameReassembler.consumed_ r ≤ length (FrameReassembler.buffer_ r))%nat → (n - length ready < fuel)%nat →
  match fill_plain fuel n r ready with
  | Ok (r', ready', _) => (FrameReassembler.consumed_ r' ≤ length (FrameReassembler.buffer_ r'))%nat ∧ (length ready ≤ length ready')%nat
  | Fail _ => True
  | Ub => False
  end.
Proof.
  induction fuel as [|fuel IH]; intros r ready Hc Hf; [lia|]. cbn [fill_plain]. destruct (Nat.leb_spec n (length ready)); [done|].
  destruct (next_defined r Hc) as [Hn Hc']. destruct (FrameReassembler.next r) as [r' [frame|e|]]; cbn [fst snd rbind] in *; [|done..].
  destruct (FrameReassembler.violated_ r'); [done|]. destruct (none_left frame); [done|].
  specialize (IH r' (ready ++ [frame]) Hc'). rewrite length_app in IH. cbn [length] in IH. specialize (IH ltac:(lia)).
  destruct (fill_plain fuel n r' _) as [[[r2 ready'] fine]|e|]; [|done..]. split; [apply IH|lia].
Qed.

Lemma runs_fill_or_fail n t : tcp_ok t → runs (fill_or_fail n) t ∧ (∀ t', fill_or_fail n t = (t', Ok tt) → socket_ t' = socket_ t).
Proof.
  intros Ht. unfold fill_or_fail, fill_ready, runs, sbind, state, gets, lift, modify. destruct (ssh_active_ (ssh t)).
  - pose proof (fill_ssh_defined n (ssh_reassembly_ (ssh t)) (S n) (replicate (Z.to_nat kMaximumTcpFrame) 0) 0 (ready_ t) ltac:(lia) ltac:(lia)) as Hf.
    destruct (fill_ssh _ n _ _ _ _) as [[[o ready] fine]|e|]; [|done..]. destruct Ht as [H1 H2 H3].
    destruct fine; cbn [fst snd]; (split; [split; [|done]|]).
    + split; [done|cbn; lia|done].
    + by intros t' [= <-].
    + split; [cbn; intros [?|?]; discriminate|cbn; lia|done].
    + done.
  - pose proof (fill_plain_defined n (S n) (reassembler_ t) (ready_ t) (ok_reassembler t Ht) ltac:(lia)) as Hf.
    destruct (fill_plain _ n _ _) as [[[r ready] fine]|e|]; [|done..]. destruct Ht as [H1 H2 H3], Hf as [H4 H5].
    destruct fine; cbn [fst snd]; (split; [split; [|done]|]).
    + split; [done|cbn; lia|done].
    + by intros t' [= <-].
    + split; [cbn; intros [?|?]; discriminate|cbn; lia|done].
    + done.
Qed.

Lemma read_buffer_size : (0 < kReadBufferSize)%nat.
Proof. unfold kReadBufferSize. lia. Qed.
#[local] Opaque kReadBufferSize.

Lemma runs_read_socket {B} (f : Reading → effect TcpTransport TransportError B) t : tcp_ok t →
  (∀ r t', tcp_ok t' → (r = drained ∨ r = ended ∨ (arrivals_left t' < arrivals_left t)%nat) → runs (f r) t') →
  runs (sbind read_socket f) t.
Proof.
  intros Ht Hf. apply runs_bind.
  - unfold read_socket. apply runs_state. destruct (tls_ t) as [session|].
    + apply runs_check; [done|]. intros _. unfold runs, sbind, tls_call. destruct (socket_ t) as [s|] eqn:Hs; [|by apply runs_fail].
      unfold tls_receive. destruct (negb _); [by apply runs_ret, ok_opened|].
      destruct (sys_read kReadBufferSize s) as [s' [[|b l]|[]|]]; first [by apply runs_ret, ok_opened|by apply runs_fail, ok_opened].
    + apply runs_read; [apply read_buffer_size|done|]. intros r t' Ht' Hr _.
      destruct r as [[|b l]|[]|]; first [by apply runs_ret|by apply runs_fail].
  - intros r t' E Ht'. apply Hf; [done|]. revert E. unfold read_socket, sbind, state, gets. destruct (tls_ t) as [session|].
    + unfold check, tls_call. destruct (negb _); [done|]. destruct (socket_ t) as [s|] eqn:Hs; [|done].
      unfold tls_receive. destruct (negb _); [intros [= _ <-]; by left|].
      pose proof (read_lighter kReadBufferSize s read_buffer_size) as Hl. rewrite <- (arrivals_left_of t s Hs).
      destruct (sys_read kReadBufferSize s) as [s' [[|b l]|[]|]]; cbn in Hl |- *; intros [= <- <-]; auto.
    + unfold syscall. destruct (socket_ t) as [s|] eqn:Hs; [|done].
      pose proof (read_lighter kReadBufferSize s read_buffer_size) as Hl. rewrite <- (arrivals_left_of t s Hs).
      destruct (sys_read kReadBufferSize s) as [s' [[|b l]|[]|]]; cbn in Hl |- *; intros [= <- <-]; auto.
Qed.

Lemma runs_absorb bytes t : tcp_ok t → runs (absorb bytes) t ∧ (∀ t', absorb bytes t = (t', Ok tt) → socket_ t' = socket_ t).
Proof.
  intros [H1 H2 H3]. unfold absorb, runs, sbind, state, gets, modify, FrameReassembler.push.
  destruct (ssh_active_ (ssh t)), (FrameReassembler.violated_ (reassembler_ t)); cbn [fst snd]; split; try (by intros t' [= <-]); split; try done.
  - split; [cbn; intros [?|?]; discriminate|done|done].
  - split; [done|done|]. cbn. rewrite length_app. lia.
Qed.

Lemma ok_ended t : tcp_ok t → tcp_ok (on_stats count_disconnect (with_state failed t)).
Proof. intros [H1 H2 H3]. split; [cbn; intros [?|?]; discriminate|done|done]. Qed.

Lemma runs_read_loop n fuel : ∀ t, tcp_ok t → (arrivals_left t < fuel)%nat → runs (read_loop fuel n) t.
Proof.
  induction fuel as [|fuel IH]; intros t Ht Hf; [lia|]. cbn [read_loop]. apply runs_state. destruct (_ <=? _)%nat; [by apply runs_ret|].
  apply runs_read_socket; [done|]. intros r t1 Ht1 Hl. destruct r as [bytes| | |]; [|by apply runs_ret|split; [by apply ok_ended|done]|].
  - destruct Hl as [?|[?|Hl]]; [done..|]. destruct (runs_absorb bytes t1 Ht1) as [Ha Hs]. apply runs_bind; [done|].
    intros [] t2 E2 Ht2. apply runs_modify. assert (tcp_ok (on_stats (count_received (length bytes)) t2)) as Ht3 by (destruct Ht2; by split).
    destruct (runs_fill_or_fail n _ Ht3) as [Hr Hs2]. apply runs_bind; [done|]. intros [] t4 E4 Ht4. apply IH; [done|].
    unfold arrivals_left in *. rewrite (Hs2 _ E4). change (socket_ (on_stats _ t2)) with (socket_ t2). rewrite (Hs _ E2). lia.
  - destruct Hl as [?|[?|Hl]]; [done..|]. apply IH; [done|lia].
Qed.

Lemma runs_hand_out n t : tcp_ok t → runs (hand_out n) t.
Proof.
  intros [H1 H2 H3]. unfold hand_out. apply runs_state, runs_modify, runs_ret. split; [done| |done]. cbn.
  rewrite length_take, length_drop. lia.
Qed.

Section disguised.
Context {dh : Dh} {ks : Keystream} {rng : Rng}.

Lemma runs_camo_loop n now fuel : ∀ t, tcp_ok t → (arrivals_left t < fuel)%nat → runs (camo_loop fuel n now) t.
Proof.
  induction fuel as [|fuel IH]; intros t Ht Hf; [lia|]. cbn [camo_loop]. apply runs_read; [apply read_buffer_size|done|].
  intros r t1 Ht1 Hr Hl.
  destruct r as [[|b l]|[]|]; [split; [by apply ok_ended|done]| | |by apply runs_ret|by apply runs_fail|done]; (destruct Hl as [?|[?|Hl]]; [done..|]).
  - apply runs_modify. set (t2 := match camo_ t1 with Some framer => _ | None => t1 end).
    assert (tcp_ok t2 ∧ socket_ t2 = socket_ t1) as [Ht2 Hs2].
    { unfold t2. destruct (camo_ t1) as [framer|]; [|done]. unfold take_payloads. destruct (drain _ _ _) as [framer' payloads].
      split; [|done]. destruct Ht1 as [H1 H2 H3]. split; [done| |done]. cbn. rewrite length_app. lia. }
    apply runs_state. destruct (_ <=? _)%nat; [by apply runs_ret|]. apply IH; [done|]. unfold arrivals_left in *. rewrite Hs2. lia.
  - apply IH; [done|lia].
Qed.

Lemma runs_camo_settle t : tcp_ok t → runs camo_settle t.
Proof.
  intros Ht. unfold camo_settle. apply runs_state. destruct (camo_ t) as [framer|]; [|by apply runs_ret].
  destruct (Camouflage.violated_ framer); [by apply runs_fail|]. destruct (take_handshake_reply framer) as [framer' reply]. apply runs_modify.
  assert (tcp_ok (with_camo (Some framer') t)) as Ht1 by (destruct Ht; by split).
  apply runs_bind.
  - destruct (none_left reply); [by apply runs_ret|]. apply runs_modify, runs_flush_ignoring. destruct Ht1; by split.
  - intros [] t2 _ Ht2. split; [|done]. cbn [fst modify]. destruct (handshake_done_ framer'); [destruct Ht2; by split|done].
Qed.

Lemma runs_receive n now t : tcp_ok t → runs (receive_frames n now) t.
Proof.
  intros Ht. unfold receive_frames. apply runs_state, runs_check; [done|]. intros _. destruct (_ =? 0)%nat; [by apply runs_ret|].
  apply runs_bind; [destruct (_ <=? _)%nat; [split; [destruct Ht; by split|done]|by apply runs_ret]|]. intros [] t1 E1 Ht1.
  assert (arrivals_left t1 = arrivals_left t) as El by (destruct (_ <=? _)%nat; injection E1 as <-; done).
  destruct (camo_ t); (apply runs_bind; [|intros [] t2 _ Ht2; by apply runs_hand_out]); (destruct (_ <=? _)%nat; [|by apply runs_ret]).
  - apply runs_bind; [apply runs_camo_loop; [done|lia]|]. intros [] t2 _ Ht2. by apply runs_camo_settle.
  - destruct (runs_fill_or_fail n t1 Ht1) as [Hr Hs]. apply runs_bind; [done|]. intros [] t2 E2 Ht2. apply runs_read_loop; [done|].
    rewrite <- El. unfold arrivals_left. rewrite (Hs t2 E2). lia.
Qed.
(** ** The calls *)

(** [KernelSays] is what the other end and the network do to the socket. *)
Inductive Call :=
| Connect (peer : Endpoint) (d : Dialling) (s : Socket)
| PollConnect (answer : SoError)
| EnableTls (available started : bool)
| PollTls (answer : res Errno unit)
| EnableCamouflage (role : Role) (server_name : list Z) (calls : nat) (now : Z)
| PollCamouflage
| EnablePop3 (dials : bool) (profile : GreetProfile)
| PollPop3
| EnableSsh (dials : bool)
| PollSsh
| FlushOutput
| SendFrame (frame : list Z) (urgent : bool)
| ReceiveFrames (n : nat) (now : Z)
| Close
| ReleaseSocket
| SetMark (mark : Z)
| SetRealityClient (server_public short_id : list Z)
| SetRealityServer (server_private : list Z) (window : Z)
| KernelSays (ans : list Sending) (arr : list Arrival).

Definition forget {A} (m : effect TcpTransport TransportError A) : effect TcpTransport TransportError unit := bind _ := m in sret tt.

Definition exec (c : Call) : effect TcpTransport TransportError unit :=
  match c with
  | Connect peer d s => connect peer d s
  | PollConnect answer => forget (poll_connect answer)
  | EnableTls available started => enable_tls available started
  | PollTls answer => forget (poll_tls answer)
  | EnableCamouflage role name calls now => enable_camouflage role name calls now
  | PollCamouflage => forget poll_camouflage
  | EnablePop3 dials profile => enable_pop3 dials profile
  | PollPop3 => forget poll_pop3
  | EnableSsh dials => enable_ssh dials
  | PollSsh => forget poll_ssh
  | FlushOutput => forget flush_output
  | SendFrame frame urgent => forget (send_frame frame urgent)
  | ReceiveFrames n now => forget (receive_frames n now)
  | Close => modify close
  | ReleaseSocket => modify (λ t, (release_socket t).1)
  | SetMark mark => modify (set_mark mark)
  | SetRealityClient public short_id => modify (set_reality_client public short_id)
  | SetRealityServer private window => modify (set_reality_server private window)
  | KernelSays ans arr => modify (λ t, with_socket ((λ s, mkSocket ans arr (wire s)) <$> socket_ t) t)
  end.

Lemma runs_forget {A} (m : effect TcpTransport TransportError A) t : runs m t → runs (forget m) t.
Proof. intros Hm. apply runs_bind; [done|]. intros a t' _ Ht'. by apply runs_ret. Qed.

Lemma runs_checked {B} b e (f : unit → effect TcpTransport TransportError B) t : tcp_ok t → runs (f tt) t → runs (sbind (check b e) f) t.
Proof. intros Ht Hf. by apply runs_check. Qed.

(** What a call changes apart from the state and the positions is free. *)
Ltac changes_rest := split; [cbn [fst modify]; repeat case_match; match goal with H : tcp_ok _ |- _ => destruct H; split; done end|done].

Lemma runs_connect peer d s t : tcp_ok t → runs (connect peer d s) t.
Proof.
  intros Ht. unfold connect. apply runs_state. do 4 (apply runs_checked; [done|]). apply runs_modify.
  destruct (connect_result d); [split; [|done]..|].
  - destruct Ht as [H1 H2 H3]. split; [done|done|cbn; lia].
  - destruct Ht as [H1 H2 H3]. split; [done|done|cbn; lia].
  - apply runs_fail. destruct Ht. by split.
Qed.

Lemma runs_poll_connect answer t : tcp_ok t → runs (poll_connect answer) t.
Proof.
  intros Ht. unfold poll_connect. apply runs_state. case_bool_decide; [by apply runs_ret|]. apply runs_check; [done|].
  intros Hc%negb_false_iff%bool_decide_eq_true_1. pose proof (ok_socket t Ht (or_intror Hc)) as Hs.
  destruct answer; [by apply runs_fail|by apply runs_ret| |]; apply runs_modify; (split; [|done]); destruct Ht as [H1 H2 H3]; split; try done.
  cbn. intros [?|?]; discriminate.
Qed.

Lemma runs_poll_tls answer t : tcp_ok t → runs (poll_tls answer) t.
Proof.
  intros Ht. unfold poll_tls. apply runs_state. destruct (tls_ t) as [session|]; [|by apply runs_ret].
  destruct (established_ session); [by apply runs_ret|]. destruct (handshake_ answer session) as [session' done_]. apply runs_modify.
  assert (tcp_ok (with_tls (Some session') t)) as Ht1 by (destruct Ht; by split).
  destruct done_ as [b|[]|]; first [by apply runs_ret|by apply runs_fail].
Qed.

Lemma runs_exec c t : tcp_ok t → runs (exec c) t.
Proof.
  intros Ht. destruct c; cbn [exec]; try apply runs_forget;
    auto using runs_connect, runs_poll_connect, runs_poll_tls, runs_poll_pop3, runs_poll_ssh, runs_flush, runs_send, runs_receive.
  - unfold enable_tls. apply runs_state. do 4 (apply runs_checked; [done|]). changes_rest.
  - unfold enable_camouflage. apply runs_state. do 2 (apply runs_checked; [done|]). destruct (Camouflage.open _ _) as [framer hello]. changes_rest.
  - unfold poll_camouflage. apply runs_state. destruct (camo_ t); [|by apply runs_ret]. apply runs_checked; [done|].
    apply runs_bind; [destruct (none_left _); [by apply runs_ret|by apply runs_flush]|]. intros b t' _ Ht'. done.
  - unfold enable_pop3. apply runs_state. do 2 (apply runs_checked; [done|]). apply runs_modify. destruct dials; changes_rest.
  - unfold enable_ssh. apply runs_state. do 2 (apply runs_checked; [done|]). apply runs_modify. changes_rest.
  - split; [|done]. destruct Ht as [H1 H2 H3]. cbn [fst modify]. unfold close. destruct (decide _); split; try done; cbn; try lia; intros [?|?]; discriminate.
  - split; [|done]. destruct Ht as [H1 H2 H3]. split; try done; cbn; try lia. intros [?|?]; discriminate.
  - changes_rest.
  - changes_rest.
  - changes_rest.
  - split; [|done]. destruct Ht as [H1 H2 H3]. split; [|done|done]. cbn. intros Hst. destruct (H1 Hst) as [s Hs]. by rewrite Hs.
Qed.

(** A transport as made by the constructor, or by [TcpListener::accept]. *)
Definition made (accepted : option Socket) : TcpTransport :=
  match accepted with
  | None => new_transport
  | Some s => match accept true (Ok s) with Ok (Some t) => t | _ => new_transport end
  end.

(** C28. TCP transport: after any sequence of public calls, interleaved with any
    behaviour of the kernel and the other end, a transport that is connecting
    or connected has an open descriptor and its read positions lie within its
    buffers; and every further call returns, with a value or an error, its
    loops ended and no buffer left. *)
Theorem tcp_calls_return accepted calls c :
  let t := foldl (λ t c, (exec c t).1) (made accepted) calls in
  tcp_ok t ∧ (exec c t).2 ≠ Ub.
Proof.
  cbn zeta. assert (tcp_ok (made accepted)) as H0.
  { destruct accepted; (split; [|done|done]); cbn; [done|]. intros [?|?]; discriminate. }
  revert H0. generalize (made accepted) as t0. induction calls as [|c0 calls IH]; intros t0 H0; cbn [foldl].
  - split; [done|]. by apply (runs_exec c t0).
  - apply IH. by apply (runs_exec c0 t0).
Qed.
End disguised.
