(* ===== verification/TcpGreeting.v ===== *)
(** What happens around a TCP connection: the greeting in the clear and the
    attempts of [TcpReconnector]. *)

From S2P Require Import Prelude Address Camouflage Tcp TcpStream TcpCalls.

(** ** The greeting *)

Definition open_transport (arr : list Arrival) : TcpTransport :=
  with_state connected (with_socket (Some (mkSocket (replicate 8 (Accepts 1000)) arr [])) new_transport).

Definition taken (t : TcpTransport) : TcpTransport * list Z :=
  match socket_ t with
  | Some s => (with_socket (Some (mkSocket (replicate 8 (Accepts 1000)) (arrivals s) [])) t, wire s)
  | None => (t, [])
  end.
Definition given (bytes : list Z) (t : TcpTransport) : TcpTransport :=
  match socket_ t with
  | Some s => with_socket (Some (mkSocket (answers s) (arrivals s ++ match bytes with [] => [] | _ => [Bytes bytes] end) (wire s))) t
  | None => t
  end.

(** Server and client poll in turn, the network carrying all they write. *)
Fixpoint greet (turns : nat) (c s : TcpTransport) : TcpTransport * TcpTransport :=
  match turns with
  | O => (c, s)
  | S turns =>
      let '(s, down) := taken (poll_pop3 s).1 in
      let c := given down c in
      let '(c, up) := taken (poll_pop3 c).1 in
      greet turns c (given up s)
  end.

Definition greeted (profile : GreetProfile) : TcpTransport * TcpTransport :=
  greet 4 (enable_pop3 true profile (open_transport [])).1 (enable_pop3 false profile (open_transport [])).1.

Definition at_rest (t : TcpTransport) : bool :=
  pop3_ready_ (pop3 t) && none_left (outbox_ t) && none_left (match socket_ t with Some s => arrivals s | None => [] end).

(** In every profile both ends reach the end of the script, with nothing left
    over on either side. *)
Lemma greeting_completes profile : at_rest (greeted profile).1 = true ∧ at_rest (greeted profile).2 = true.
Proof. destruct profile; vm_compute; done. Qed.

(** A client that waits for the server's last line reads on for three lines,
    since [lines_needed] counts the steps done while the inbox was cleared at
    each: the first frame, sent right behind that line, is read and dropped. *)
Definition awaiting_final (arr : list Arrival) : TcpTransport := with_pop3 (mkPop3 true false true 2 [] smtp) (open_transport arr).

Lemma greeting_swallows_frame :
  let t := awaiting_final [Bytes (server_final (greet_script smtp) ++ prefixed [1; 2; 3])] in
  (poll_pop3 t).2 = Ok true ∧ (arrivals <$> socket_ (poll_pop3 t).1) = Some [] ∧
  pending_bytes (reassembler_ (poll_pop3 t).1) = [].
Proof. vm_compute. done. Qed.

(** ** Reconnecting *)

(** The loop doubles while it may and while the delay is below the maximum. *)
Lemma delay_loop_spec fuel : ∀ attempts step delay, 0 ≤ step ≤ attempts → 0 < delay → kMaximumDelay ≤ delay * 2 ^ Z.of_nat fuel →
  Z.min (delay_loop fuel attempts step delay) kMaximumDelay = Z.min (delay * 2 ^ (attempts - step)) kMaximumDelay.
Proof.
  induction fuel as [|fuel IH]; intros attempts step delay Hs Hd Hf.
  { change (2 ^ Z.of_nat 0) with 1 in Hf. cbn [delay_loop]. pose proof (Z.pow_pos_nonneg 2 (attempts - step)). nia. }
  cbn [delay_loop]. destruct (Z.ltb_spec step attempts); cbn [andb].
  - destruct (Z.ltb_spec delay kMaximumDelay).
    + rewrite IH; [|lia|lia|rewrite Nat2Z.inj_succ, Z.pow_succ_r in Hf by lia; lia].
      replace (attempts - step) with (Z.succ (attempts - (step + 1))) by lia. rewrite Z.pow_succ_r by lia. f_equal. lia.
    + pose proof (Z.pow_pos_nonneg 2 (attempts - step)). nia.
  - replace (attempts - step) with 0 by lia. rewrite Z.mul_1_r. done.
Qed.

Lemma kInitialDelay_eight : kMaximumDelay ≤ kInitialDelay * 2 ^ Z.of_nat 8.
Proof. unfold kInitialDelay, kMaximumDelay, milliseconds, seconds. simpl. lia. Qed.

(** The delay is 250 ms, doubled for each attempt, and at most 30 s. *)
Lemma current_delay_spec r : 0 ≤ attempts_ r → current_delay r = Z.min (kInitialDelay * 2 ^ attempts_ r) kMaximumDelay.
Proof.
  intros Ha. pose proof (delay_loop_spec 8 (attempts_ r) 0 kInitialDelay ltac:(lia) eq_refl) as H.
  rewrite Z.sub_0_r in H. exact (H kInitialDelay_eight).
Qed.

#[local] Arguments note_disconnected : simpl never.
#[local] Arguments close : simpl never.

(** No attempt is made before it is due, an attempt that fails puts the next
    one off by the new delay, and a connection is never given up by polling. *)
Lemma poll_backs_off d fresh answer now r t : is_u32 (attempts_ r) →
  let '(r', t') := poll d fresh answer now (r, t) in
  (state_ t = closed → next_attempt_ r ≠ 0 → now < next_attempt_ r → r' = r ∧ t' = t) ∧
  (state_ t = connected → r' = r ∧ t' = t) ∧
  (attempts_ r' ≠ attempts_ r → next_attempt_ r' = now + Z.min (kInitialDelay * 2 ^ attempts_ r') kMaximumDelay ∧
     (state_ t' = closed ∨ state_ t' = failed)).
Proof.
  intros Ha.
  assert (next_attempt_ (note_disconnected now r) = now + Z.min (kInitialDelay * 2 ^ attempts_ (note_disconnected now r)) kMaximumDelay) as Hn.
  { unfold note_disconnected. cbn [next_attempt_ attempts_]. rewrite current_delay_spec; [done|]. apply u32_range. }
  assert (∀ t, state_ (close t) = closed) as Hclose by done.
  unfold poll. destruct (state_ t) eqn:Hst.
  - destruct (Z.eqb_spec (next_attempt_ r) 0), (Z.ltb_spec now (next_attempt_ r)); cbn [negb andb]; try (by split_and!).
    all: unfold connect, sbind, state, gets, check, modify; rewrite !bool_decide_eq_false_2 by congruence; cbn [orb].
    all: destruct (socket_made d), (nodelay_set d), (nonblocking_set d), (connect_result d); cbn; (split; [done || lia|]); (split; [done|]); intros ?; (done || (split; [exact Hn|tauto])).
  - unfold poll_connect, sbind, state, gets, check, modify. rewrite bool_decide_eq_false_2, bool_decide_eq_true_2 by congruence.
    destruct answer; cbn; (split; [done|]); (split; [done|]); intros ?; (done || (split; [exact Hn|tauto])).
  - by split_and!.
  - split; [done|]. split; [done|]. intros _. split; [exact Hn|by left].
Qed.
