(* ===== verification/Config.v ===== *)
(** The configuration file: [src/config.cpp].

    [parse_config] cuts the text into lines, trims them, strips comments, and
    applies each assignment to the configuration; then it checks what spans
    several keys.  The chain of comparisons with the qualified key is a table
    per section, searched in the order of the code.  The fields of the struct
    [Config] are grouped by section.  The theorem says what an accepted
    configuration satisfies. *)

From Stdlib Require Import String.
From S2P Require Import Prelude Fec Nonce Text Address Obfuscation Worker.

Module ConfigError.
Inductive t :=
| unreadable_file | syntax_error | unknown_section | unknown_key | duplicate_key | missing_required | invalid_value
| value_out_of_range | port_conflict | invalid_mtu | incompatible_options.
End ConfigError.
Abbreviation ConfigError := ConfigError.t.

Record ConfigDiagnostic := mkDiagnostic { error : ConfigError; line : nat; detail : list Z }.

Module NodeRole.
Inductive t := server | client.
End NodeRole.
Module TransportMode.
Inductive t := automatic | udp | quic | tcp_tls | icmp | ipip | gre | esp | ah | ospf | dns.
End TransportMode.
Module CamouflageMode.
Inductive t := off | fake_tls | pop3 | smtp | xmpp | ssh | raw.
End CamouflageMode.
#[export] Instance TransportMode_eq_dec : EqDecision TransportMode.t.
Proof. solve_decision. Defined.
#[export] Instance CamouflageMode_eq_dec : EqDecision CamouflageMode.t.
Proof. solve_decision. Defined.

Definition kMinimumMtu : Z := 1280.
Definition kMaximumMtu : Z := 9000.
Definition kAutomaticMtu : Z := 0.

Record NodeConfig := mkNodeConfig {
  role : NodeRole.t;
  listen_port : Z;
  user : list Z;
  tun_name : list Z;
  log_level : list Z;
  tuning_profile : list Z;
}.
Record NetworkConfig := mkNetworkConfig {
  ipv4_ : bool;
  ipv6_ : bool;
  mtu : Z;
  fwmark : Z;
  forward_ : bool;
  offload : bool;
  return_via_tunnel : bool;
  addresses : list (list Z);
}.
Record TransportConfig := mkTransportConfig {
  transport : TransportMode.t;
  tcp_connections : Z;
  profile : TrafficProfile;
  icmp_echo_request_only : bool;
  icmp_silence_kernel : bool;
  dns_domain : list Z;
  rekey_interval_seconds : Z;
  rotate_interval_seconds : Z;
  spoof_enabled : bool;
  spoof_sources : list Z;
}.
Record DisguiseConfig := mkDisguiseConfig {
  camouflage : CamouflageMode.t;
  camouflage_sni : list Z;
  camouflage_sni_pool : list (list Z);
  reality_private_key : list Z;
  reality_public_key : list Z;
  reality_short_id : list Z;
  reality_cover : list Z;
}.
Record RateConfig := mkRateConfig {
  qos_enabled : bool;
  qos_rate_bytes : Z;
  brutal_rate_bytes : Z;
  qos_burst_bytes : Z;
}.
Record MetricsConfig := mkMetricsConfig { metrics_enabled : bool; metrics_listen : list Z }.
Record PeerEntry := mkPeerEntry {
  peer_name : list Z;
  public_key : list Z;
  preshared_key : list Z;
  endpoint : list Z;
  allowed_ips : list (list Z);
  routes : bool;
}.
Record ForwardEntry := mkForwardEntry {
  forward_name : list Z;
  port : Z;
  target : list Z;
  tcp : bool;
  udp : bool;
  preserve_source : bool;
}.
Record Config := mkConfig {
  node : NodeConfig;
  identity_key_file : list Z;
  network : NetworkConfig;
  carrier : TransportConfig;
  disguise : DisguiseConfig;
  rates : RateConfig;
  fec : FecMode;
  obfuscation : ObfuscationConfig;
  metrics : MetricsConfig;
  peers : list PeerEntry;
  notes : list (list Z);
  forwards : list ForwardEntry;
}.

Definition with_node (v : NodeConfig) (c : Config) : Config :=
  mkConfig v (identity_key_file c) (network c) (carrier c) (disguise c) (rates c) (fec c) (obfuscation c)
    (metrics c) (peers c) (notes c) (forwards c).
Definition with_identity_key_file (v : list Z) (c : Config) : Config :=
  mkConfig (node c) v (network c) (carrier c) (disguise c) (rates c) (fec c) (obfuscation c) (metrics c)
    (peers c) (notes c) (forwards c).
Definition with_network (v : NetworkConfig) (c : Config) : Config :=
  mkConfig (node c) (identity_key_file c) v (carrier c) (disguise c) (rates c) (fec c) (obfuscation c)
    (metrics c) (peers c) (notes c) (forwards c).
Definition with_carrier (v : TransportConfig) (c : Config) : Config :=
  mkConfig (node c) (identity_key_file c) (network c) v (disguise c) (rates c) (fec c) (obfuscation c)
    (metrics c) (peers c) (notes c) (forwards c).
Definition with_disguise (v : DisguiseConfig) (c : Config) : Config :=
  mkConfig (node c) (identity_key_file c) (network c) (carrier c) v (rates c) (fec c) (obfuscation c)
    (metrics c) (peers c) (notes c) (forwards c).
Definition with_rates (v : RateConfig) (c : Config) : Config :=
  mkConfig (node c) (identity_key_file c) (network c) (carrier c) (disguise c) v (fec c) (obfuscation c)
    (metrics c) (peers c) (notes c) (forwards c).
Definition with_fec (v : FecMode) (c : Config) : Config :=
  mkConfig (node c) (identity_key_file c) (network c) (carrier c) (disguise c) (rates c) v (obfuscation c)
    (metrics c) (peers c) (notes c) (forwards c).
Definition with_obfuscation (v : ObfuscationConfig) (c : Config) : Config :=
  mkConfig (node c) (identity_key_file c) (network c) (carrier c) (disguise c) (rates c) (fec c) v (metrics c)
    (peers c) (notes c) (forwards c).
Definition with_metrics (v : MetricsConfig) (c : Config) : Config :=
  mkConfig (node c) (identity_key_file c) (network c) (carrier c) (disguise c) (rates c) (fec c) (obfuscation c)
    v (peers c) (notes c) (forwards c).
Definition with_peers (v : list PeerEntry) (c : Config) : Config :=
  mkConfig (node c) (identity_key_file c) (network c) (carrier c) (disguise c) (rates c) (fec c) (obfuscation c)
    (metrics c) v (notes c) (forwards c).
Definition with_notes (v : list (list Z)) (c : Config) : Config :=
  mkConfig (node c) (identity_key_file c) (network c) (carrier c) (disguise c) (rates c) (fec c) (obfuscation c)
    (metrics c) (peers c) v (forwards c).
Definition with_forwards (v : list ForwardEntry) (c : Config) : Config :=
  mkConfig (node c) (identity_key_file c) (network c) (carrier c) (disguise c) (rates c) (fec c) (obfuscation c)
    (metrics c) (peers c) (notes c) v.
Definition set_role (v : NodeRole.t) (c : Config) : Config :=
  let e := node c in
  with_node (mkNodeConfig v (listen_port e) (user e) (tun_name e) (log_level e) (tuning_profile e)) c.
Definition set_listen_port (v : Z) (c : Config) : Config :=
  let e := node c in
  with_node (mkNodeConfig (role e) v (user e) (tun_name e) (log_level e) (tuning_profile e)) c.
Definition set_user (v : list Z) (c : Config) : Config :=
  let e := node c in
  with_node (mkNodeConfig (role e) (listen_port e) v (tun_name e) (log_level e) (tuning_profile e)) c.
Definition set_tun_name (v : list Z) (c : Config) : Config :=
  let e := node c in
  with_node (mkNodeConfig (role e) (listen_port e) (user e) v (log_level e) (tuning_profile e)) c.
Definition set_log_level (v : list Z) (c : Config) : Config :=
  let e := node c in
  with_node (mkNodeConfig (role e) (listen_port e) (user e) (tun_name e) v (tuning_profile e)) c.
Definition set_tuning_profile (v : list Z) (c : Config) : Config :=
  let e := node c in
  with_node (mkNodeConfig (role e) (listen_port e) (user e) (tun_name e) (log_level e) v) c.
Definition set_ipv4 (v : bool) (c : Config) : Config :=
  let e := network c in
  with_network (mkNetworkConfig v (ipv6_ e) (mtu e) (fwmark e) (forward_ e) (offload e) (return_via_tunnel e)
    (addresses e)) c.
Definition set_ipv6 (v : bool) (c : Config) : Config :=
  let e := network c in
  with_network (mkNetworkConfig (ipv4_ e) v (mtu e) (fwmark e) (forward_ e) (offload e) (return_via_tunnel e)
    (addresses e)) c.
Definition set_mtu (v : Z) (c : Config) : Config :=
  let e := network c in
  with_network (mkNetworkConfig (ipv4_ e) (ipv6_ e) v (fwmark e) (forward_ e) (offload e) (return_via_tunnel e)
    (addresses e)) c.
Definition set_fwmark (v : Z) (c : Config) : Config :=
  let e := network c in
  with_network (mkNetworkConfig (ipv4_ e) (ipv6_ e) (mtu e) v (forward_ e) (offload e) (return_via_tunnel e)
    (addresses e)) c.
Definition set_forward (v : bool) (c : Config) : Config :=
  let e := network c in
  with_network (mkNetworkConfig (ipv4_ e) (ipv6_ e) (mtu e) (fwmark e) v (offload e) (return_via_tunnel e)
    (addresses e)) c.
Definition set_offload (v : bool) (c : Config) : Config :=
  let e := network c in
  with_network (mkNetworkConfig (ipv4_ e) (ipv6_ e) (mtu e) (fwmark e) (forward_ e) v (return_via_tunnel e)
    (addresses e)) c.
Definition set_return_via_tunnel (v : bool) (c : Config) : Config :=
  let e := network c in
  with_network (mkNetworkConfig (ipv4_ e) (ipv6_ e) (mtu e) (fwmark e) (forward_ e) (offload e) v (addresses e))
    c.
Definition set_addresses (v : list (list Z)) (c : Config) : Config :=
  let e := network c in
  with_network (mkNetworkConfig (ipv4_ e) (ipv6_ e) (mtu e) (fwmark e) (forward_ e) (offload e)
    (return_via_tunnel e) v) c.
Definition set_transport (v : TransportMode.t) (c : Config) : Config :=
  let e := carrier c in
  with_carrier (mkTransportConfig v (tcp_connections e) (profile e) (icmp_echo_request_only e)
    (icmp_silence_kernel e) (dns_domain e) (rekey_interval_seconds e) (rotate_interval_seconds e)
    (spoof_enabled e) (spoof_sources e)) c.
Definition set_tcp_connections (v : Z) (c : Config) : Config :=
  let e := carrier c in
  with_carrier (mkTransportConfig (transport e) v (profile e) (icmp_echo_request_only e) (icmp_silence_kernel e)
    (dns_domain e) (rekey_interval_seconds e) (rotate_interval_seconds e) (spoof_enabled e) (spoof_sources e)) c.
Definition set_profile (v : TrafficProfile) (c : Config) : Config :=
  let e := carrier c in
  with_carrier (mkTransportConfig (transport e) (tcp_connections e) v (icmp_echo_request_only e)
    (icmp_silence_kernel e) (dns_domain e) (rekey_interval_seconds e) (rotate_interval_seconds e)
    (spoof_enabled e) (spoof_sources e)) c.
Definition set_icmp_echo_request_only (v : bool) (c : Config) : Config :=
  let e := carrier c in
  with_carrier (mkTransportConfig (transport e) (tcp_connections e) (profile e) v (icmp_silence_kernel e)
    (dns_domain e) (rekey_interval_seconds e) (rotate_interval_seconds e) (spoof_enabled e) (spoof_sources e)) c.
Definition set_icmp_silence_kernel (v : bool) (c : Config) : Config :=
  let e := carrier c in
  with_carrier (mkTransportConfig (transport e) (tcp_connections e) (profile e) (icmp_echo_request_only e) v
    (dns_domain e) (rekey_interval_seconds e) (rotate_interval_seconds e) (spoof_enabled e) (spoof_sources e)) c.
Definition set_dns_domain (v : list Z) (c : Config) : Config :=
  let e := carrier c in
  with_carrier (mkTransportConfig (transport e) (tcp_connections e) (profile e) (icmp_echo_request_only e)
    (icmp_silence_kernel e) v (rekey_interval_seconds e) (rotate_interval_seconds e) (spoof_enabled e)
    (spoof_sources e)) c.
Definition set_rekey_interval_seconds (v : Z) (c : Config) : Config :=
  let e := carrier c in
  with_carrier (mkTransportConfig (transport e) (tcp_connections e) (profile e) (icmp_echo_request_only e)
    (icmp_silence_kernel e) (dns_domain e) v (rotate_interval_seconds e) (spoof_enabled e) (spoof_sources e)) c.
Definition set_rotate_interval_seconds (v : Z) (c : Config) : Config :=
  let e := carrier c in
  with_carrier (mkTransportConfig (transport e) (tcp_connections e) (profile e) (icmp_echo_request_only e)
    (icmp_silence_kernel e) (dns_domain e) (rekey_interval_seconds e) v (spoof_enabled e) (spoof_sources e)) c.
Definition set_spoof_enabled (v : bool) (c : Config) : Config :=
  let e := carrier c in
  with_carrier (mkTransportConfig (transport e) (tcp_connections e) (profile e) (icmp_echo_request_only e)
    (icmp_silence_kernel e) (dns_domain e) (rekey_interval_seconds e) (rotate_interval_seconds e) v
    (spoof_sources e)) c.
Definition set_spoof_sources (v : list Z) (c : Config) : Config :=
  let e := carrier c in
  with_carrier (mkTransportConfig (transport e) (tcp_connections e) (profile e) (icmp_echo_request_only e)
    (icmp_silence_kernel e) (dns_domain e) (rekey_interval_seconds e) (rotate_interval_seconds e)
    (spoof_enabled e) v) c.
Definition set_camouflage (v : CamouflageMode.t) (c : Config) : Config :=
  let e := disguise c in
  with_disguise (mkDisguiseConfig v (camouflage_sni e) (camouflage_sni_pool e) (reality_private_key e)
    (reality_public_key e) (reality_short_id e) (reality_cover e)) c.
Definition set_camouflage_sni (v : list Z) (c : Config) : Config :=
  let e := disguise c in
  with_disguise (mkDisguiseConfig (camouflage e) v (camouflage_sni_pool e) (reality_private_key e)
    (reality_public_key e) (reality_short_id e) (reality_cover e)) c.
Definition set_camouflage_sni_pool (v : list (list Z)) (c : Config) : Config :=
  let e := disguise c in
  with_disguise (mkDisguiseConfig (camouflage e) (camouflage_sni e) v (reality_private_key e)
    (reality_public_key e) (reality_short_id e) (reality_cover e)) c.
Definition set_reality_private_key (v : list Z) (c : Config) : Config :=
  let e := disguise c in
  with_disguise (mkDisguiseConfig (camouflage e) (camouflage_sni e) (camouflage_sni_pool e) v
    (reality_public_key e) (reality_short_id e) (reality_cover e)) c.
Definition set_reality_public_key (v : list Z) (c : Config) : Config :=
  let e := disguise c in
  with_disguise (mkDisguiseConfig (camouflage e) (camouflage_sni e) (camouflage_sni_pool e)
    (reality_private_key e) v (reality_short_id e) (reality_cover e)) c.
Definition set_reality_short_id (v : list Z) (c : Config) : Config :=
  let e := disguise c in
  with_disguise (mkDisguiseConfig (camouflage e) (camouflage_sni e) (camouflage_sni_pool e)
    (reality_private_key e) (reality_public_key e) v (reality_cover e)) c.
Definition set_reality_cover (v : list Z) (c : Config) : Config :=
  let e := disguise c in
  with_disguise (mkDisguiseConfig (camouflage e) (camouflage_sni e) (camouflage_sni_pool e)
    (reality_private_key e) (reality_public_key e) (reality_short_id e) v) c.
Definition set_qos_enabled (v : bool) (c : Config) : Config :=
  let e := rates c in
  with_rates (mkRateConfig v (qos_rate_bytes e) (brutal_rate_bytes e) (qos_burst_bytes e)) c.
Definition set_qos_rate_bytes (v : Z) (c : Config) : Config :=
  let e := rates c in
  with_rates (mkRateConfig (qos_enabled e) v (brutal_rate_bytes e) (qos_burst_bytes e)) c.
Definition set_brutal_rate_bytes (v : Z) (c : Config) : Config :=
  let e := rates c in
  with_rates (mkRateConfig (qos_enabled e) (qos_rate_bytes e) v (qos_burst_bytes e)) c.
Definition set_qos_burst_bytes (v : Z) (c : Config) : Config :=
  let e := rates c in
  with_rates (mkRateConfig (qos_enabled e) (qos_rate_bytes e) (brutal_rate_bytes e) v) c.
Definition set_metrics_enabled (v : bool) (c : Config) : Config :=
  let e := metrics c in
  with_metrics (mkMetricsConfig v (metrics_listen e)) c.
Definition set_metrics_listen (v : list Z) (c : Config) : Config :=
  let e := metrics c in
  with_metrics (mkMetricsConfig (metrics_enabled e) v) c.
Definition set_peer_name (v : list Z) (e : PeerEntry) : PeerEntry :=
  mkPeerEntry v (public_key e) (preshared_key e) (endpoint e) (allowed_ips e) (routes e).
Definition set_public_key (v : list Z) (e : PeerEntry) : PeerEntry :=
  mkPeerEntry (peer_name e) v (preshared_key e) (endpoint e) (allowed_ips e) (routes e).
Definition set_preshared_key (v : list Z) (e : PeerEntry) : PeerEntry :=
  mkPeerEntry (peer_name e) (public_key e) v (endpoint e) (allowed_ips e) (routes e).
Definition set_endpoint (v : list Z) (e : PeerEntry) : PeerEntry :=
  mkPeerEntry (peer_name e) (public_key e) (preshared_key e) v (allowed_ips e) (routes e).
Definition set_allowed_ips (v : list (list Z)) (e : PeerEntry) : PeerEntry :=
  mkPeerEntry (peer_name e) (public_key e) (preshared_key e) (endpoint e) v (routes e).
Definition set_routes (v : bool) (e : PeerEntry) : PeerEntry :=
  mkPeerEntry (peer_name e) (public_key e) (preshared_key e) (endpoint e) (allowed_ips e) v.
Definition set_forward_name (v : list Z) (e : ForwardEntry) : ForwardEntry :=
  mkForwardEntry v (port e) (target e) (tcp e) (udp e) (preserve_source e).
Definition set_port (v : Z) (e : ForwardEntry) : ForwardEntry :=
  mkForwardEntry (forward_name e) v (target e) (tcp e) (udp e) (preserve_source e).
Definition set_target (v : list Z) (e : ForwardEntry) : ForwardEntry :=
  mkForwardEntry (forward_name e) (port e) v (tcp e) (udp e) (preserve_source e).
Definition set_tcp (v : bool) (e : ForwardEntry) : ForwardEntry :=
  mkForwardEntry (forward_name e) (port e) (target e) v (udp e) (preserve_source e).
Definition set_udp (v : bool) (e : ForwardEntry) : ForwardEntry :=
  mkForwardEntry (forward_name e) (port e) (target e) (tcp e) v (preserve_source e).
Definition set_preserve_source (v : bool) (e : ForwardEntry) : ForwardEntry :=
  mkForwardEntry (forward_name e) (port e) (target e) (tcp e) (udp e) v.

Definition new_config : Config :=
  mkConfig
    (mkNodeConfig NodeRole.server 0 [] (text "norr0") (text "info") (text "off"))
    []
    (mkNetworkConfig true true kAutomaticMtu 0 false true false [])
    (mkTransportConfig TransportMode.automatic 1 standard true false (text "t.example.com") 120 0 false [])
    (mkDisguiseConfig CamouflageMode.off (text "www.microsoft.com") [] [] [] [] [])
    (mkRateConfig false 0 0 0) Fec.off default_config (mkMetricsConfig false []) [] [] [].
Definition new_peer : PeerEntry := mkPeerEntry [] [] [] [] [] true.
Definition new_forward : ForwardEntry := mkForwardEntry [] 0 [] true true false.

(** ** Values *)

Definition is_space (c : Z) : bool := (c =? 32) || (c =? 9) || (c =? 13) || (c =? 10).

Fixpoint strip (space : Z → bool) (l : list Z) : list Z :=
  match l with
  | c :: rest => if space c then strip space rest else l
  | [] => []
  end.
(** Both ends of a text. *)
Definition strip_both (space : Z → bool) (l : list Z) : list Z := rev (strip space (rev (strip space l))).
Definition trim (l : list Z) : list Z := strip_both is_space l.

Definition contains (c : Z) (l : list Z) : bool := bool_decide (is_Some (find c l 0)).

Definition unquote (value : list Z) : res ConfigError (list Z) :=
  if (2 <=? length value)%nat && bool_decide (head value = Some 34) && bool_decide (last value = Some 34)
  then Ok (take (length value - 2) (drop 1 value))
  else throw ConfigError.syntax_error when contains 34 value else Ok value.

Definition same (value : list Z) (s : string) : bool := bool_decide (value = text s).

Definition parse_bool (value : list Z) : res ConfigError bool :=
  if same value "true" then Ok true else if same value "false" then Ok false else Fail ConfigError.invalid_value.

Definition parse_uint (value : list Z) : res ConfigError Z :=
  match from_chars 10 UINT64_MAX value with Some (parsed, []) => Ok parsed | _ => Fail ConfigError.invalid_value end.

(** [std::from_chars] of a signed number takes a minus sign and no plus. *)
Definition parse_int32 (value : list Z) : res ConfigError Z :=
  match value with
  | 45 :: digits =>
      match from_chars 10 (2 ^ 31) digits with Some (parsed, []) => Ok (- parsed) | _ => Fail ConfigError.invalid_value end
  | _ => match from_chars 10 (2 ^ 31 - 1) value with Some (parsed, []) => Ok parsed | _ => Fail ConfigError.invalid_value end
  end.

Definition parse_port (value : list Z) : res ConfigError Z :=
  let* parsed := parse_uint value in
  throw ConfigError.value_out_of_range when (parsed =? 0) || (65535 <? parsed) else
  Ok (u16 parsed).

Definition is_hex (c : Z) : bool := ((48 <=? c) && (c <=? 57)) || ((97 <=? c) && (c <=? 102)) || ((65 <=? c) && (c <=? 70)).
Definition is_hex_key (value : list Z) : bool := (length value =? 64)%nat && forallb is_hex value.

(** The parts between commas.  Each turn but the last removes a comma, and a
    comma at the end adds no empty part. *)
Fixpoint split_loop (part : list Z → list Z) (fuel : nat) (value : list Z) : list (list Z) :=
  match fuel, value with
  | S fuel, _ :: _ =>
      match find 44 value 0 with
      | None => [part value]
      | Some comma => part (take comma value) :: split_loop part fuel (drop (comma + 1) value)
      end
  | _, _ => []
  end.
Definition split_list (value : list Z) : list (list Z) := split_loop trim (length value) value.

Definition parse_mtu (value : list Z) : res ConfigError Z :=
  if same value "auto" then Ok kAutomaticMtu else
  match parse_uint value with
  | Ok parsed =>
      throw ConfigError.invalid_mtu when (parsed <? kMinimumMtu) || (kMaximumMtu <? parsed) else Ok (u16 parsed)
  | _ => Fail ConfigError.invalid_mtu
  end.

(** The first name that [value] is. *)
Fixpoint one_of {A} (names : list (string * A)) (value : list Z) : res ConfigError A :=
  match names with
  | [] => Fail ConfigError.invalid_value
  | (name, a) :: names => if same value name then Ok a else one_of names value
  end.

(** The parts of a list of prefixes: none may be empty or lack a slash. *)
Fixpoint prefix_list (parts : list (list Z)) (held : list (list Z)) : res ConfigError (list (list Z)) :=
  match parts with
  | [] => Ok held
  | part :: parts =>
      throw ConfigError.invalid_value when bool_decide (part = []) || negb (contains 47 part) else
      prefix_list parts (held ++ [part])
  end.
Definition add_prefixes (value : list Z) (held : list (list Z)) : res ConfigError (list (list Z)) :=
  let* held := prefix_list (split_list value) held in
  throw ConfigError.invalid_value when bool_decide (held = []) else Ok held.

(** [octets[0] << 24 | ...] *)
Definition ipv4_value (octets : list Z) : Z :=
  Z.lor (Z.lor (Z.lor (u32 (Z.shiftl (octets !!! 0%nat) 24)) (u32 (Z.shiftl (octets !!! 1%nat) 16)))
    (u32 (Z.shiftl (octets !!! 2%nat) 8))) (octets !!! 3%nat).

Fixpoint spoof_list (parts : list (list Z)) (held : list Z) : res ConfigError (list Z) :=
  match parts with
  | [] => Ok held
  | part :: parts =>
      match parse_address part with
      | Ok parsed =>
          throw ConfigError.invalid_value when bool_decide (family_ parsed ≠ ipv4) else
          let be := ipv4_value (address_bytes parsed) in
          spoof_list parts (if be =? 0 then held else held ++ [be])
      | Fail _ => Fail ConfigError.invalid_value
      | Ub => Ub
      end
  end.

Definition is_blank (c : Z) : bool := (c =? 32) || (c =? 9).
Definition sni_pool (value : list Z) : list (list Z) :=
  filter (λ item, item ≠ [] ∧ (length item ≤ 253)%nat) (split_loop (strip_both is_blank) (length value) value).

(** ** Keys *)

(** What the assignment of a value to a key does. *)
Abbreviation setting := (list Z → Config → res ConfigError Config).

Definition set_flag (f : bool → Config → Config) : setting := λ value c, let* flag := parse_bool value in Ok (f flag c).
Definition set_name {A} (names : list (string * A)) (f : A → Config → Config) : setting :=
  λ value c, let* a := one_of names value in Ok (f a c).
(** A number that must not be 0 nor above [maximum]. *)
Definition set_count (maximum : Z) (f : Z → Config → Config) : setting := λ value c,
  let* n := parse_uint value in
  throw ConfigError.value_out_of_range when (n =? 0) || (maximum <? n) else Ok (f n c).
(** A text of at most [maximum] characters and not empty. *)
Definition set_text (maximum : nat) (f : list Z → Config → Config) : setting := λ value c,
  throw ConfigError.invalid_value when bool_decide (value = []) || (maximum <? length value)%nat else Ok (f value c).
Definition set_hex_key (f : list Z → Config → Config) : setting := λ value c,
  throw ConfigError.invalid_value when negb (is_hex_key value) else Ok (f value c).
Definition set_int32 (f : Z → Config → Config) : setting := λ value c, let* n := parse_int32 value in Ok (f n c).
(** The empty text is the only one refused. *)
Definition set_some (f : list Z → Config → Config) : setting := λ value c,
  throw ConfigError.invalid_value when bool_decide (value = []) else Ok (f value c).
Definition set_host_port (f : list Z → Config → Config) : setting := λ value c,
  throw ConfigError.invalid_value when bool_decide (value = []) || negb (contains 58 value) else Ok (f value c).
(** One of the names, kept as text. *)
Definition set_choice (names : list string) (f : list Z → Config → Config) : setting := λ value c,
  throw ConfigError.invalid_value when negb (existsb (same value) names) else Ok (f value c).

Definition set_sources : setting := λ value c,
  let* held := spoof_list (split_list value) [] in
  throw ConfigError.invalid_value when bool_decide (held = []) else Ok (set_spoof_sources held c).
Definition set_sni : setting := λ value c,
  throw ConfigError.invalid_value when bool_decide (value = []) || (2048 <? blen value) else
  match sni_pool value with
  | [] => Fail ConfigError.invalid_value
  | (first :: _) as pool => Ok (set_camouflage_sni first (set_camouflage_sni_pool pool c))
  end.
Definition set_short_id : setting := λ value c,
  throw ConfigError.invalid_value when negb (length value =? 16)%nat else Ok (set_reality_short_id value c).

Definition on_obfuscation (f : ObfuscationConfig → ObfuscationConfig) (c : Config) : Config := with_obfuscation (f (obfuscation c)) c.
Definition set_mode (v : ObfuscationMode) (o : ObfuscationConfig) : ObfuscationConfig :=
  Obfuscation.mkConfig v (junk_padding o) (priming o) (uniform_length o) (junk_max o) (length_bucket o).
Definition set_junk_padding (v : bool) (o : ObfuscationConfig) : ObfuscationConfig :=
  Obfuscation.mkConfig (mode o) v (priming o) (uniform_length o) (junk_max o) (length_bucket o).
Definition set_priming (v : bool) (o : ObfuscationConfig) : ObfuscationConfig :=
  Obfuscation.mkConfig (mode o) (junk_padding o) v (uniform_length o) (junk_max o) (length_bucket o).
Definition set_uniform_length (v : bool) (o : ObfuscationConfig) : ObfuscationConfig :=
  Obfuscation.mkConfig (mode o) (junk_padding o) (priming o) v (junk_max o) (length_bucket o).
Definition set_junk_max (v : Z) (o : ObfuscationConfig) : ObfuscationConfig :=
  Obfuscation.mkConfig (mode o) (junk_padding o) (priming o) (uniform_length o) (u8 v) (length_bucket o).

Definition node_settings : list (string * setting) := [
  ("node.role", set_name [("server", NodeRole.server); ("client", NodeRole.client)] set_role);
  ("node.listen_port", λ value c, let* port := parse_port value in Ok (set_listen_port port c));
  ("node.user", set_text 32 set_user);
  ("node.tun", set_text 15 set_tun_name)]%string.

Definition network_settings : list (string * setting) := [
  ("identity.key_file", set_some with_identity_key_file);
  ("network.ipv4", set_flag set_ipv4);
  ("network.ipv6", set_flag set_ipv6);
  ("network.address", λ value c, let* held := add_prefixes value (addresses (network c)) in Ok (set_addresses held c));
  ("network.fwmark", set_count 0xFFFFFFFF (λ n, set_fwmark (u32 n)));
  ("network.return_via_tunnel", set_flag set_return_via_tunnel);
  ("network.offload", set_flag set_offload);
  ("network.forward", set_flag set_forward);
  ("network.mtu", λ value c, let* n := parse_mtu value in Ok (set_mtu n c))]%string.

Definition transport_settings : list (string * setting) := [
  ("transport.mode", set_name [("auto", TransportMode.automatic); ("udp", TransportMode.udp); ("quic", TransportMode.quic);
     ("tcp-tls", TransportMode.tcp_tls); ("icmp", TransportMode.icmp); ("ipip", TransportMode.ipip); ("gre", TransportMode.gre);
     ("esp", TransportMode.esp); ("ah", TransportMode.ah); ("ospf", TransportMode.ospf); ("dns", TransportMode.dns)] set_transport);
  ("qos.enabled", set_flag set_qos_enabled);
  ("qos.rate_bytes", set_count UINT64_MAX set_qos_rate_bytes);
  ("qos.burst_bytes", set_count UINT64_MAX set_qos_burst_bytes);
  ("congestion.brutal_rate_bytes", set_count UINT64_MAX set_brutal_rate_bytes);
  ("transport.connections", set_count 8 (λ n, set_tcp_connections (u8 n)));
  ("transport.profile", set_name [("standard", standard); ("quic", quic); ("dns", dns)] set_profile);
  ("transport.obfuscation", set_name [("off", Obfuscation.off); ("header-mask", header_mask); ("full", full)] (λ v, on_obfuscation (set_mode v)));
  ("transport.junk", set_flag (λ v, on_obfuscation (set_junk_padding v)));
  ("transport.uniform_length", set_flag (λ v, on_obfuscation (set_uniform_length v)));
  ("transport.junk_max", set_count (Z.of_nat kMaximumJunkLength) (λ v, on_obfuscation (set_junk_max v)));
  ("transport.priming", set_flag (λ v, on_obfuscation (set_priming v)));
  ("node.log_level", set_choice ["debug"; "info"; "warn"; "error"; "off"] set_log_level);
  ("node.tuning", set_choice ["off"; "balanced"; "throughput"; "saver"] set_tuning_profile);
  ("transport.icmp_echo_request_only", set_flag set_icmp_echo_request_only);
  ("transport.icmp_silence_kernel", set_flag set_icmp_silence_kernel);
  ("transport.dns_domain", λ value c, Ok (set_dns_domain value c));
  ("transport.rekey_interval", set_int32 set_rekey_interval_seconds);
  ("transport.rotate_interval", set_int32 set_rotate_interval_seconds);
  ("transport.spoof", set_flag set_spoof_enabled);
  ("transport.spoof_sources", set_sources)]%string.

Definition disguise_settings : list (string * setting) := [
  ("transport.camouflage", set_name [("off", CamouflageMode.off); ("fake-tls", CamouflageMode.fake_tls); ("pop3", CamouflageMode.pop3);
     ("smtp", CamouflageMode.smtp); ("xmpp", CamouflageMode.xmpp); ("ssh", CamouflageMode.ssh); ("raw", CamouflageMode.raw)] set_camouflage);
  ("transport.sni", set_sni);
  ("transport.reality_private_key", set_hex_key set_reality_private_key);
  ("transport.reality_public_key", set_hex_key set_reality_public_key);
  ("transport.reality_short_id", set_short_id);
  ("transport.reality_cover", set_text 300 set_reality_cover);
  ("fec.mode", set_name [("off", Fec.off); ("light", light); ("moderate", moderate); ("aggressive", aggressive); ("auto", automatic)] with_fec);
  ("observability.metrics", set_flag set_metrics_enabled);
  ("observability.listen", set_host_port set_metrics_listen)]%string.

Definition settings : list (string * setting) := node_settings ++ network_settings ++ transport_settings ++ disguise_settings.

Fixpoint find_setting (table : list (string * setting)) (qualified : list Z) : option setting :=
  match table with
  | [] => None
  | (name, f) :: table => if same qualified name then Some f else find_setting table qualified
  end.

Definition set_in_forward (key value : list Z) (e : ForwardEntry) : res ConfigError ForwardEntry :=
  if same key "name" then throw ConfigError.invalid_value when bool_decide (value = []) else Ok (set_forward_name value e)
  else if same key "listen_port" then let* port := parse_port value in Ok (set_port port e)
  else if same key "target" then
    match parse_endpoint value with
    | Ok _ => Ok (set_target value e)
    | Fail _ => Fail ConfigError.invalid_value
    | Ub => Ub
    end
  else if same key "preserve_source" then let* flag := parse_bool value in Ok (set_preserve_source flag e)
  else if same key "protocol" then
    if same value "tcp" then Ok (set_udp false (set_tcp true e))
    else if same value "udp" then Ok (set_udp true (set_tcp false e))
    else if same value "both" then Ok (set_udp true (set_tcp true e))
    else Fail ConfigError.invalid_value
  else Fail ConfigError.unknown_key.

Definition set_in_peer (key value : list Z) (e : PeerEntry) : res ConfigError PeerEntry :=
  if same key "name" then throw ConfigError.invalid_value when bool_decide (value = []) else Ok (set_peer_name value e)
  else if same key "public_key" then throw ConfigError.invalid_value when negb (is_hex_key value) else Ok (set_public_key value e)
  else if same key "preshared_key" then throw ConfigError.invalid_value when negb (is_hex_key value) else Ok (set_preshared_key value e)
  else if same key "endpoint" then
    throw ConfigError.invalid_value when bool_decide (value = []) || negb (contains 58 value) else Ok (set_endpoint value e)
  else if same key "routes" then let* flag := parse_bool value in Ok (set_routes flag e)
  else if same key "allowed_ips" then let* held := add_prefixes value (allowed_ips e) in Ok (set_allowed_ips held e)
  else Fail ConfigError.unknown_key.

(** [back()] of a vector that [f] changes. *)
Definition on_last {A} (f : A → res ConfigError A) (l : list A) : res ConfigError (list A) :=
  match last l with Some e => let* e := f e in Ok (removelast l ++ [e]) | None => Ub end.

Definition assign (section key value : list Z) (c : Config) : res ConfigError Config :=
  let qualified := section ++ [46] ++ key in
  match find_setting node_settings qualified with
  | Some f => f value c
  | None =>
      if same section "forward" then let* l := on_last (set_in_forward key value) (forwards c) in Ok (with_forwards l c)
      else if same section "peer" then let* l := on_last (set_in_peer key value) (peers c) in Ok (with_peers l c)
      else match find_setting (network_settings ++ transport_settings ++ disguise_settings) qualified with
           | Some f => f value c
           | None => Fail ConfigError.unknown_key
           end
  end.

(** ** Lines *)

(** The texts between newlines, the last one included. *)
Fixpoint lines_of (l : list Z) : list (list Z) :=
  match l with
  | [] => [[]]
  | 10 :: rest => [] :: lines_of rest
  | c :: rest => match lines_of rest with first :: more => (c :: first) :: more | [] => [[c]] end
  end.

(** The locals of [parse_config]. *)
Record Parsing := mkParsing {
  config : Config;
  section : list Z;
  seen : list (list Z);
  present : list (list Z);
}.

Definition known : list string := ["node"; "identity"; "network"; "transport"; "qos"; "fec"; "observability"; "congestion"]%string.

Definition strip_comment (raw : list Z) : list Z :=
  let line := trim raw in
  match find 35 line 0 with Some comment => trim (take comment line) | None => line end.

Abbreviation parsed := (res ConfigDiagnostic).
Definition fails {A} (e : ConfigError) (line : nat) (detail : list Z) : parsed A := Fail (mkDiagnostic e line detail).
Definition report {A} (line : nat) (detail : list Z) (r : res ConfigError A) : parsed A :=
  recast (λ e, mkDiagnostic e line detail) r.

Definition starts_with (s : string) (l : list Z) : bool := bool_decide (text s `prefix_of` l).
Definition ends_with (s : string) (l : list Z) : bool := bool_decide (text s `suffix_of` l).

Definition open_section (number : nat) (line : list Z) (p : Parsing) : parsed Parsing :=
  if (4 <? length line)%nat && starts_with "[[" line && ends_with "]]" line then
    let name := trim (take (length line - 4) (drop 2 line)) in
    if same name "peer" then Ok (mkParsing (with_peers (peers (config p) ++ [new_peer]) (config p)) name (seen p) (present p))
    else if same name "forward" then
      Ok (mkParsing (with_forwards (forwards (config p) ++ [new_forward]) (config p)) name (seen p) (present p))
    else fails ConfigError.unknown_section number name
  else if negb (bool_decide (last line = Some 93)) || (length line <=? 2)%nat then fails ConfigError.syntax_error number line else
  let name := trim (take (length line - 2) (drop 1 line)) in
  if existsb (same name) known then Ok (mkParsing (config p) name (seen p) (present p))
  else fails ConfigError.unknown_section number name.

(** Keys of peers and forwards are distinguished by the entry they belong to. *)
Definition scoped_key (p : Parsing) (qualified : list Z) : list Z :=
  if same (section p) "peer" then to_chars (Z.of_nat (length (peers (config p)))) ++ [46] ++ qualified
  else if same (section p) "forward" then to_chars (Z.of_nat (length (forwards (config p)))) ++ [46] ++ qualified
  else qualified.

Definition parse_line (number : nat) (raw : list Z) (p : Parsing) : parsed Parsing :=
  let line := strip_comment raw in
  if bool_decide (line = []) then Ok p else
  if bool_decide (head line = Some 91) then open_section number line p else
  match find 61 line 0 with
  | None => fails ConfigError.syntax_error number line
  | Some equals =>
      if bool_decide (section p = []) then fails ConfigError.syntax_error number line else
      let key := trim (take equals line) in
      let* value := report number key (unquote (trim (drop (equals + 1) line))) in
      if bool_decide (key = []) then fails ConfigError.syntax_error number line else
      let qualified := section p ++ [46] ++ key in
      let scoped := scoped_key p qualified in
      if bool_decide (scoped ∈ seen p) then fails ConfigError.duplicate_key number qualified else
      let* c := report number qualified (assign (section p) key value (config p)) in
      Ok (mkParsing c (section p) (scoped :: seen p) (qualified :: present p))
  end.

Fixpoint parse_lines (number : nat) (raws : list (list Z)) (p : Parsing) : parsed Parsing :=
  match raws with
  | [] => Ok p
  | raw :: raws => let* p := parse_line number raw p in parse_lines (S number) raws p
  end.

(** ** What spans several keys *)

Definition tolower (c : Z) : Z := if (65 <=? c) && (c <=? 90) then c + 32 else c.

Definition entry_label (kind : string) (name : list Z) (index : nat) : list Z :=
  if bool_decide (name = []) then text kind ++ [91] ++ to_chars (Z.of_nat index) ++ [93] else name.

Definition missing {A} (name : list Z) : parsed A := fails ConfigError.missing_required 0 name.
Definition conflict {A} (reason : list Z) : parsed A := fails ConfigError.incompatible_options 0 reason.

Fixpoint check_peers (index : nat) (entries : list PeerEntry) (keys : list (list Z)) : parsed (list PeerEntry) :=
  match entries with
  | [] => Ok []
  | peer :: entries =>
      let label := entry_label "peer" (peer_name peer) index in
      if bool_decide (public_key peer = []) then missing (label ++ text ".public_key") else
      if bool_decide (allowed_ips peer = []) then missing (label ++ text ".allowed_ips") else
      let lowered := map tolower (public_key peer) in
      if bool_decide (lowered ∈ keys) then fails ConfigError.duplicate_key 0 (label ++ text ".public_key") else
      let* rest := check_peers (S index) entries (lowered :: keys) in
      Ok (set_public_key lowered peer :: rest)
  end.

(** ["tcp/<port>"] and ["udp/<port>"] *)
Definition forwarded_names (f : ForwardEntry) : list (list Z) :=
  (if tcp f then [text "tcp" ++ [47] ++ to_chars (port f)] else []) ++
  (if udp f then [text "udp" ++ [47] ++ to_chars (port f)] else []).

Fixpoint insert_all (names held : list (list Z)) : option (list (list Z)) :=
  match names with
  | [] => Some held
  | name :: names => if bool_decide (name ∈ held) then None else insert_all names (name :: held)
  end.

Fixpoint check_forwards (index : nat) (listen : Z) (entries : list ForwardEntry) (held : list (list Z)) : parsed unit :=
  match entries with
  | [] => Ok tt
  | f :: entries =>
      let label := entry_label "forward" (forward_name f) index in
      if port f =? 0 then missing (label ++ text ".listen_port") else
      if bool_decide (target f = []) then missing (label ++ text ".target") else
      match insert_all (forwarded_names f) held with
      | None => fails ConfigError.duplicate_key 0 (label ++ text ".listen_port")
      | Some held =>
          if (port f =? listen) && udp f then conflict (label ++ text " uses the tunnel port") else
          check_forwards (S index) listen entries held
      end
  end.

Definition check_rates (c : Config) : parsed Config :=
  let r := rates c in
  if qos_enabled r && (qos_rate_bytes r =? 0) then missing (text "qos.rate_bytes") else
  if negb (qos_enabled r) && (negb (qos_rate_bytes r =? 0) || negb (qos_burst_bytes r =? 0))
  then conflict (text "qos.rate_bytes without qos.enabled") else
  Ok (if qos_enabled r && (qos_burst_bytes r =? 0) then set_qos_burst_bytes (u64 (qos_rate_bytes r / 10 + kMaximumMtu)) c else c).

Definition check_metrics (c : Config) : parsed unit :=
  let m := metrics c in
  if metrics_enabled m && bool_decide (metrics_listen m = []) then missing (text "observability.listen") else
  if negb (metrics_enabled m) && negb (bool_decide (metrics_listen m = []))
  then conflict (text "observability.listen without observability.metrics") else Ok tt.

Definition check_spoof (c : Config) : parsed unit :=
  let t := carrier c in
  if spoof_enabled t && bool_decide (spoof_sources t = []) then missing (text "transport.spoof_sources") else
  if negb (spoof_enabled t) && negb (bool_decide (spoof_sources t = []))
  then conflict (text "transport.spoof_sources without transport.spoof") else
  if spoof_enabled t && negb (bool_decide (transport t = TransportMode.automatic)) && negb (bool_decide (transport t = TransportMode.udp))
  then conflict (text "transport.spoof applies to the udp transport") else Ok tt.

Definition carries_datagrams (m : TransportMode.t) : bool :=
  match m with TransportMode.quic | TransportMode.tcp_tls => false | _ => true end.

Definition tcp_framed_carrier (c : Config) : bool :=
  match transport (carrier c) with TransportMode.tcp_tls | TransportMode.automatic => true | _ => false end &&
  match camouflage (disguise c) with CamouflageMode.off | CamouflageMode.fake_tls => false | _ => true end.

Definition check_disguise (c : Config) : parsed unit :=
  let o := obfuscation c in
  if bool_decide (mode o = Obfuscation.off) && (junk_padding o || priming o)
  then conflict (text "transport.junk/priming require transport.obfuscation") else
  if junk_padding o && negb (bool_decide (mode o = full))
  then conflict (text "transport.junk requires transport.obfuscation = full") else
  if negb (bool_decide (mode o = Obfuscation.off)) && negb (carries_datagrams (transport (carrier c))) && negb (tcp_framed_carrier c)
  then conflict (text "transport.obfuscation applies to the datagram transports (udp, icmp, ipip, gre, esp, ah, ospf) or a framed tcp carrier (camouflage = pop3/smtp/xmpp/ssh/raw)") else
  if negb (bool_decide (camouflage (disguise c) = CamouflageMode.off)) &&
     negb (bool_decide (transport (carrier c) = TransportMode.automatic)) && negb (bool_decide (transport (carrier c) = TransportMode.tcp_tls))
  then conflict (text "transport.camouflage applies to the tcp-tls transport") else Ok tt.

Definition check_config (p : Parsing) : parsed Config :=
  let c := config p in
  if negb (bool_decide (text "node.listen_port" ∈ present p)) then missing (text "node.listen_port") else
  if negb (bool_decide (text "identity.key_file" ∈ present p)) then missing (text "identity.key_file") else
  let* entries := check_peers 0 (peers c) [] in
  let c := with_peers entries c in
  let* _ := check_forwards 0 (listen_port (node c)) (forwards c) [] in
  let* c := check_rates c in
  let* _ := check_metrics c in
  let* _ := check_spoof c in
  if negb (ipv4_ (network c)) && negb (ipv6_ (network c)) then conflict (text "network.ipv4 and network.ipv6 are both disabled") else
  let* _ := check_disguise c in
  Ok c.

Definition parse_config (l : list Z) : parsed Config :=
  let* p := parse_lines 1 (lines_of l) (mkParsing new_config [] [] []) in
  check_config p.

(** [load_config_file]: the contents of the file, or none. *)
Definition load_config_file (path : list Z) (contents : option (list Z)) : parsed Config :=
  match contents with
  | Some l => parse_config l
  | None => fails ConfigError.unreadable_file 0 path
  end.
