(* ===== verification/ConfigValid.v ===== *)
(** What [parse_config] promises of the configurations it accepts.

    Every assignment keeps the constraints on single fields ([fields_ok], by
    the shape of its entry in the tables), and the final checks establish
    those that relate several. *)

From Stdlib Require Import String.
From S2P Require Import Prelude Fec Nonce Text Address Obfuscation Worker Config.

(** ** Constraints on single fields *)

Definition port_ok (p : Z) : Prop := 1 ≤ p ≤ 65535.
Definition prefix_text (p : list Z) : Prop := p ≠ [] ∧ contains 47 p = true.
(** A hexadecimal key, or none. *)
Definition key_or_none (k : list Z) : Prop := k = [] ∨ is_hex_key k = true.
Definition int32 (n : Z) : Prop := - 2 ^ 31 ≤ n < 2 ^ 31.

Record node_ok (n : NodeConfig) : Prop := {
  no_port : listen_port n = 0 ∨ port_ok (listen_port n);
  no_tun : (1 ≤ length (tun_name n) ≤ 15)%nat;
  no_user : (length (user n) ≤ 32)%nat;
  no_level : log_level n ∈ text <$> ["debug"; "info"; "warn"; "error"; "off"]%string;
  no_tuning : tuning_profile n ∈ text <$> ["off"; "balanced"; "throughput"; "saver"]%string;
}.
Record network_ok (n : NetworkConfig) : Prop := {
  ne_mtu : mtu n = kAutomaticMtu ∨ kMinimumMtu ≤ mtu n ≤ kMaximumMtu;
  ne_fwmark : is_u32 (fwmark n);
  ne_addresses : Forall prefix_text (addresses n);
}.
Record carrier_ok (t : TransportConfig) : Prop := {
  ca_connections : 1 ≤ tcp_connections t ≤ 8;
  ca_rekey : int32 (rekey_interval_seconds t);
  ca_rotate : int32 (rotate_interval_seconds t);
  ca_sources : Forall (λ s, s ≠ 0) (spoof_sources t);
}.
Record disguise_ok (d : DisguiseConfig) : Prop := {
  di_sni : (1 ≤ length (camouflage_sni d) ≤ 253)%nat;
  di_pool : Forall (λ item, (1 ≤ length item ≤ 253)%nat) (camouflage_sni_pool d);
  di_private : key_or_none (reality_private_key d);
  di_public : key_or_none (reality_public_key d);
  di_short : reality_short_id d = [] ∨ length (reality_short_id d) = 16%nat;
  di_cover : (length (reality_cover d) ≤ 300)%nat;
}.
Record rates_ok (r : RateConfig) : Prop := {
  ra_rate : is_u64 (qos_rate_bytes r);
  ra_burst : is_u64 (qos_burst_bytes r);
  ra_brutal : is_u64 (brutal_rate_bytes r);
}.
Record peer_ok (e : PeerEntry) : Prop := {
  pe_key : key_or_none (public_key e);
  pe_preshared : key_or_none (preshared_key e);
  pe_endpoint : endpoint e = [] ∨ contains 58 (endpoint e) = true;
  pe_allowed : Forall prefix_text (allowed_ips e);
}.
Record forward_ok (e : ForwardEntry) : Prop := {
  fo_port : port e = 0 ∨ port_ok (port e);
  fo_target : target e = [] ∨ ∃ where_, parse_endpoint (target e) = Ok where_;
  fo_protocol : tcp e || udp e = true;
}.

Record fields_ok (c : Config) : Prop := {
  fi_node : node_ok (node c);
  fi_network : network_ok (network c);
  fi_carrier : carrier_ok (carrier c);
  fi_disguise : disguise_ok (disguise c);
  fi_rates : rates_ok (rates c);
  fi_junk : 1 ≤ junk_max (obfuscation c) ≤ 255;
  fi_peers : Forall peer_ok (peers c);
  fi_forwards : Forall forward_ok (forwards c);
  fi_listen : metrics_listen (metrics c) = [] ∨ contains 58 (metrics_listen (metrics c)) = true;
}.

Lemma new_config_ok : fields_ok new_config.
Proof.
  split; [split|split|split|split|split| | | |];
    first [by left|by apply (bool_decide_unpack _); vm_compute|by constructor|unfold int32, is_u32, is_u64; cbn; lia|by apply Forall_nil_2].
Qed.

(** ** Values *)

Lemma digit_value_range base c v : digit_value base c = Some v → 0 ≤ v < base.
Proof.
  unfold digit_value. cbn zeta. intros H. repeat case_match; simplify_eq; reflect_bools; lia.
Qed.

Lemma read_digits_nonneg base l : 0 ≤ base → ∀ v, 0 ≤ v → 0 ≤ (read_digits base l v).1.
Proof.
  intros Hb. induction l as [|c l IH]; intros v Hv; [done|]. cbn [read_digits].
  destruct (digit_value base c) eqn:E; [|done]. apply digit_value_range in E. apply IH. nia.
Qed.

Lemma from_chars_range base maximum l v rest : 0 ≤ base → from_chars base maximum l = Some (v, rest) → 0 ≤ v ≤ maximum.
Proof.
  intros Hb. destruct l as [|c l]; [done|]. cbn [from_chars]. destruct (digit_value base c); [|done].
  pose proof (read_digits_nonneg base (c :: l) Hb 0 ltac:(lia)) as Hn. destruct (read_digits base (c :: l) 0) as [n r].
  cbn [fst] in Hn. destruct (Z.leb_spec n maximum); [|done]. intros [= <- <-]. lia.
Qed.

Lemma parse_uint_range l n : parse_uint l = Ok n → is_u64 n.
Proof.
  unfold parse_uint. destruct (from_chars _ _ _) as [[v [|]]|] eqn:E; [|done..]. intros [= <-].
  apply from_chars_range in E; [|lia]. unfold UINT64_MAX in E. unfold is_u64. lia.
Qed.

Lemma parse_int32_range l n : parse_int32 l = Ok n → int32 n.
Proof.
  unfold parse_int32, int32. intros H.
  assert (∀ m l', match from_chars 10 m l' with Some (p, []) => Ok p | _ => Fail ConfigError.invalid_value end = Ok n → 0 ≤ n ≤ m) as Hpos.
  { intros m l' E. destruct (from_chars 10 m l') as [[v [|]]|] eqn:E'; [|done..]. injection E as <-. apply from_chars_range in E'; lia. }
  assert (∀ m l', match from_chars 10 m l' with Some (p, []) => Ok (- p) | _ => Fail ConfigError.invalid_value end = Ok n → - m ≤ n ≤ 0) as Hneg.
  { intros m l' E. destruct (from_chars 10 m l') as [[v [|]]|] eqn:E'; [|done..]. injection E as <-. apply from_chars_range in E'; lia. }
  destruct l as [|c l]; [done|]. destruct (decide (c = 45)) as [->|Hc]; [apply Hneg in H; lia|].
  enough (0 ≤ n ≤ 2 ^ 31 - 1) by lia. apply (Hpos _ (c :: l)). rewrite <- H. repeat (destruct c as [|c|c]; try done).
Qed.

Lemma config_port_range l p : Config.parse_port l = Ok p → port_ok p.
Proof.
  unfold Config.parse_port. destruct (parse_uint l) as [n|e|] eqn:E; [|done..]. cbn [rbind]. unfold guard.
  destruct (_ || _) eqn:Hc; [done|]. intros [= <-]. apply parse_uint_range in E. reflect_bools. unfold port_ok.
  rewrite u16_id; unfold is_u16, is_u64 in *; lia.
Qed.

Lemma parse_mtu_range l n : parse_mtu l = Ok n → n = kAutomaticMtu ∨ kMinimumMtu ≤ n ≤ kMaximumMtu.
Proof.
  unfold parse_mtu. destruct (same l _); [intros [= <-]; by left|]. destruct (parse_uint l) as [m|e|]; [|done..]. unfold guard.
  destruct (_ || _) eqn:Hc; [done|]. intros [= <-]. right. reflect_bools. unfold kMinimumMtu, kMaximumMtu in *.
  rewrite u16_id; unfold is_u16; lia.
Qed.

Lemma prefix_list_ok parts : ∀ held held', prefix_list parts held = Ok held' → Forall prefix_text held → Forall prefix_text held'.
Proof.
  induction parts as [|part parts IH]; intros held held' H Hh; [by injection H as <-|]. cbn [prefix_list] in H. unfold guard in H.
  destruct (_ || _) eqn:E; [done|]. apply orb_false_iff in E as [E1%bool_decide_eq_false_1 E2%negb_false_iff].
  apply (IH _ _ H). apply Forall_app_2; [done|]. by repeat constructor.
Qed.
Lemma add_prefixes_ok value held held' : add_prefixes value held = Ok held' → Forall prefix_text held → Forall prefix_text held'.
Proof.
  unfold add_prefixes. destruct (prefix_list _ held) as [l|e|] eqn:E; [|done..]. cbn [rbind]. unfold guard. destruct (bool_decide _); [done|].
  intros [= <-]. by eapply prefix_list_ok.
Qed.

Lemma spoof_list_ok parts : ∀ held held', spoof_list parts held = Ok held' → Forall (λ s, s ≠ 0) held → Forall (λ s, s ≠ 0) held'.
Proof.
  induction parts as [|part parts IH]; intros held held' H Hh; [by injection H as <-|]. cbn [spoof_list] in H.
  destruct (parse_address part) as [a|e|]; [|done..]. unfold guard in H. destruct (bool_decide _); [done|]. apply (IH _ _ H).
  destruct (Z.eqb_spec (ipv4_value (address_bytes a)) 0); [done|]. apply Forall_app_2; [done|]. by repeat constructor.
Qed.

(** ** Assignments *)

Lemma same_text value s : same value s = true → value = text s.
Proof. by intros H%bool_decide_eq_true_1. Qed.

(** The constraints hold after it, and what was set is not taken back. *)
Record kept (c c' : Config) : Prop := {
  ke_fields : fields_ok c';
  ke_port : listen_port (node c) ≠ 0 → listen_port (node c') ≠ 0;
  ke_file : identity_key_file c ≠ [] → identity_key_file c' ≠ [];
  ke_forwards : forwards c ≠ [] → forwards c' ≠ [];
  ke_peers : peers c ≠ [] → peers c' ≠ [];
}.
Definition keeps (f : list Z → Config → res ConfigError Config) : Prop := ∀ value c c', fields_ok c → f value c = Ok c' → kept c c'.

Section shapes.
Lemma keeps_flag g : (∀ b c, fields_ok c → kept c (g b c)) → keeps (set_flag g).
Proof. intros Hg value c c' Hc. unfold set_flag. destruct (parse_bool value); [|done..]. intros [= <-]. by apply Hg. Qed.
Lemma keeps_name {A} names (g : A → Config → Config) : (∀ a c, fields_ok c → kept c (g a c)) → keeps (set_name names g).
Proof. intros Hg value c c' Hc. unfold set_name. destruct (one_of names value); [|done..]. intros [= <-]. by apply Hg. Qed.
Lemma keeps_count maximum g : maximum ≤ UINT64_MAX → (∀ n c, 1 ≤ n ≤ maximum → fields_ok c → kept c (g n c)) → keeps (set_count maximum g).
Proof.
  intros Hm Hg value c c' Hc. unfold set_count. destruct (parse_uint value) as [n|e|] eqn:E; [|done..]. cbn [rbind]. unfold guard.
  apply parse_uint_range in E. destruct (_ || _) eqn:Hr; [done|]. intros [= <-]. apply Hg; [|done]. reflect_bools. unfold is_u64 in E. lia.
Qed.
Lemma keeps_text maximum g : (∀ l c, (1 ≤ length l ≤ maximum)%nat → fields_ok c → kept c (g l c)) → keeps (set_text maximum g).
Proof.
  intros Hg value c c' Hc. unfold set_text, guard. destruct (_ || _) eqn:Hr; [done|]. intros [= <-].
  apply orb_false_iff in Hr as [H1%bool_decide_eq_false_1 H2%Nat.ltb_ge]. apply Hg; [|done]. destruct value; [done|]. cbn [length] in *. lia.
Qed.
Lemma keeps_hex g : (∀ l c, is_hex_key l = true → fields_ok c → kept c (g l c)) → keeps (set_hex_key g).
Proof. intros Hg value c c' Hc. unfold set_hex_key, guard. destruct (is_hex_key value) eqn:E; [|done]. intros [= <-]. by apply Hg. Qed.
Lemma keeps_int32 g : (∀ n c, int32 n → fields_ok c → kept c (g n c)) → keeps (set_int32 g).
Proof.
  intros Hg value c c' Hc. unfold set_int32. destruct (parse_int32 value) eqn:E; [|done..]. intros [= <-]. apply Hg; [|done].
  by eapply parse_int32_range.
Qed.
Lemma keeps_some g : (∀ l c, l ≠ [] → fields_ok c → kept c (g l c)) → keeps (set_some g).
Proof. intros Hg value c c' Hc. unfold set_some, guard. case_bool_decide; [done|]. intros [= <-]. by apply Hg. Qed.
Lemma keeps_host_port g : (∀ l c, contains 58 l = true → fields_ok c → kept c (g l c)) → keeps (set_host_port g).
Proof.
  intros Hg value c c' Hc. unfold set_host_port, guard. destruct (_ || _) eqn:E; [done|]. intros [= <-].
  apply orb_false_iff in E as [_ E%negb_false_iff]. by apply Hg.
Qed.
Lemma keeps_choice names g : (∀ l c, l ∈ text <$> names → fields_ok c → kept c (g l c)) → keeps (set_choice names g).
Proof.
  intros Hg value c c' Hc. unfold set_choice, guard. destruct (existsb _ _) eqn:E; [|done]. intros [= <-]. apply Hg; [|done].
  apply existsb_exists in E as (name & Hin%list_elem_of_In & ->%same_text). by apply list_elem_of_fmap_2.
Qed.
End shapes.

Lemma keeps_sources : keeps set_sources.
Proof.
  intros value c c' Hc. unfold set_sources. destruct (spoof_list _ _) as [held|e|] eqn:E; [|done..]. cbn [rbind]. unfold guard.
  case_bool_decide; [done|]. intros [= <-]. apply spoof_list_ok in E; [|constructor]. destruct Hc as [? ? [] ? ? ? ? ? ?].
  split; [split; first [done|by split]|done..].
Qed.

Lemma keeps_sni : keeps set_sni.
Proof.
  intros value c c' Hc. unfold set_sni, guard. destruct (_ || _); [done|].
  assert (Forall (λ item, (1 ≤ length item ≤ 253)%nat) (sni_pool value)) as Hp.
  { unfold sni_pool. apply Forall_forall. intros x Hx%list_elem_of_filter. destruct Hx as [[Hne Hl] _]. destruct x; [done|]. cbn [length] in *. lia. }
  destruct (sni_pool value) as [|first pool]; [done|]. intros [= <-]. pose proof (Forall_inv Hp) as H1. cbn beta in H1.
  destruct Hc as [? ? ? [] ? ? ? ? ?]. split; [split; first [done|by split]|done..].
Qed.

Lemma keeps_short_id : keeps set_short_id.
Proof.
  intros value c c' Hc. unfold set_short_id, guard. destruct (Nat.eqb_spec (length value) 16); [|done]. intros [= <-].
  destruct Hc as [? ? ? [] ? ? ? ? ?]. split; [split; first [done|split; first [done|by right]]|done..].
Qed.

(** A setter of one field of a group that keeps the group's constraints. *)
Ltac one_field :=
  intros; match goal with H : fields_ok _ |- _ => destruct H as [[] [] [] [] [] ? ? ? ?] end;
  split; [split; first [done|by right|split; first [done|assumption|by right|unfold kMaximumJunkLength in *; cbn in *; unfold is_u32, is_u64, u32, u8, UINT64_MAX in *; lia]]|done..].

Lemma node_settings_keep : Forall (λ s, keeps s.2) node_settings.
Proof.
  repeat apply Forall_cons_2; cbn [snd]; [| | | |by apply Forall_nil_2].
  - apply keeps_name. one_field.
  - intros value c c' Hc. destruct (Config.parse_port value) as [p|e|] eqn:E; [|done..]. intros [= <-]. apply config_port_range in E.
    destruct Hc as [[] ? ? ? ? ? ? ? ?]. split; [split; try done; split; try done; by right| |done..]. cbn. unfold port_ok in E. lia.
  - apply keeps_text. one_field.
  - apply keeps_text. one_field.
Qed.

Lemma network_settings_keep : Forall (λ s, keeps s.2) network_settings.
Proof.
  repeat apply Forall_cons_2; cbn [snd]; try by apply Forall_nil_2.
  - apply keeps_some. one_field.
  - apply keeps_flag. one_field.
  - apply keeps_flag. one_field.
  - intros value c c' Hc. destruct (add_prefixes _ _) as [held|e|] eqn:E; [|done..]. intros [= <-].
    pose proof (add_prefixes_ok _ _ _ E (ne_addresses _ (fi_network _ Hc))) as Hh. destruct Hc as [? [] ? ? ? ? ? ? ?]. split; [split; first [done|by split]|done..].
  - apply keeps_count; [done|]. intros n c Hn Hc. destruct Hc as [? [] ? ? ? ? ? ? ?]. split; [split; first [done|split; first [done|apply u32_range]]|done..].
  - apply keeps_flag. one_field.
  - apply keeps_flag. one_field.
  - apply keeps_flag. one_field.
  - intros value c c' Hc. destruct (parse_mtu value) as [n|e|] eqn:E; [|done..]. intros [= <-]. apply parse_mtu_range in E.
    destruct Hc as [? [] ? ? ? ? ? ? ?]. split; [split; first [done|by split]|done..].
Qed.

Lemma transport_settings_keep : Forall (λ s, keeps s.2) transport_settings.
Proof.
  repeat apply Forall_cons_2; cbn [snd]; try by apply Forall_nil_2.
  all: try (apply keeps_flag; one_field). all: try (apply keeps_name; one_field). all: try (apply keeps_choice; one_field).
  all: try (apply keeps_int32; one_field).
  - apply keeps_count; [done|]. one_field.
  - apply keeps_count; [done|]. one_field.
  - apply keeps_count; [done|]. one_field.
  - apply keeps_count; [done|]. intros n c Hn Hc. destruct Hc as [? ? [] ? ? ? ? ? ?].
    split; [split; first [done|split; first [done|cbn; rewrite u8_id; unfold is_u8; lia]]|done..].
  - apply keeps_count; [done|]. intros n c Hn Hc. destruct Hc. split; [split; try done|done..].
    cbn. change (Z.of_nat kMaximumJunkLength) with 255 in Hn. rewrite u8_id; unfold is_u8; lia.
  - intros value c c' Hc [= <-]. revert Hc. one_field.
  - apply keeps_sources.
Qed.

Lemma disguise_settings_keep : Forall (λ s, keeps s.2) disguise_settings.
Proof.
  repeat apply Forall_cons_2; cbn [snd]; try by apply Forall_nil_2.
  all: try (apply keeps_flag; one_field). all: try (apply keeps_name; one_field). all: try (apply keeps_host_port; one_field).
  all: try (apply keeps_hex; one_field). all: try (apply keeps_text; one_field).
  - apply keeps_sni.
  - apply keeps_short_id.
Qed.

Lemma find_setting_keeps table qualified f : Forall (λ s, keeps s.2) table → find_setting table qualified = Some f → keeps f.
Proof.
  intros Ht. induction Ht as [|[name g] table Hg _ IH]; [done|]. cbn [find_setting]. destruct (same qualified name); [by intros [= <-]|done].
Qed.

Lemma set_in_forward_ok key value e e' : forward_ok e → set_in_forward key value e = Ok e' → forward_ok e'.
Proof.
  intros [H1 H2 H3]. unfold set_in_forward, guard. repeat (destruct (same _ _)).
  - case_bool_decide; [done|]. by intros [= <-].
  - destruct (Config.parse_port value) as [p|x|] eqn:E; [|done..]. intros [= <-]. apply config_port_range in E. split; [by right|done..].
  - destruct (parse_endpoint value) as [p|x|] eqn:E; [|done..]. intros [= <-]. split; [done|right; by exists p|done].
  - destruct (parse_bool value); [|done..]. by intros [= <-].
  - by intros [= <-].
  - by intros [= <-].
  - by intros [= <-].
  - done.
  - done.
Qed.

Lemma set_in_peer_ok key value e e' : peer_ok e → set_in_peer key value e = Ok e' → peer_ok e'.
Proof.
  intros [H1 H2 H3 H4]. unfold set_in_peer, guard. repeat (destruct (same _ _)).
  - case_bool_decide; [done|]. by intros [= <-].
  - destruct (is_hex_key value) eqn:E; [|done]. intros [= <-]. split; [by right|done..].
  - destruct (is_hex_key value) eqn:E; [|done]. intros [= <-]. split; [done|by right|done..].
  - destruct (_ || _) eqn:E; [done|]. intros [= <-]. apply orb_false_iff in E as [_ E%negb_false_iff]. split; [done|done|by right|done].
  - destruct (parse_bool value); [|done..]. by intros [= <-].
  - destruct (add_prefixes _ _) as [held|x|] eqn:E; [|done..]. intros [= <-]. split; [done..|]. by eapply add_prefixes_ok.
  - done.
Qed.

Lemma on_last_ok {A} (P : A → Prop) f l l' : (∀ e e', P e → f e = Ok e' → P e') → Forall P l → on_last f l = Ok l' → Forall P l'.
Proof.
  intros Hf Hl. unfold on_last. destruct (last l) as [e|] eqn:El; [|done]. destruct (f e) as [e'|x|] eqn:E; [|done..]. intros [= <-].
  apply last_Some in El as [l0 ->]. apply Forall_app in Hl as [Hl He]. rewrite removelast_last. apply Forall_app_2; [done|].
  apply Forall_cons_2; [|by constructor]. apply (Hf e); [|done]. by apply Forall_inv in He.
Qed.

Lemma on_last_nonempty {A} (f : A → res ConfigError A) l l' : on_last f l = Ok l' → l' ≠ [].
Proof.
  unfold on_last. destruct (last l) as [e|]; [|done]. destruct (f e); [|done..]. intros [= <-] H. by apply app_eq_nil in H as [_ H].
Qed.

Lemma assign_keeps section key : keeps (assign section key).
Proof.
  intros value c c' Hc. unfold assign. destruct (find_setting node_settings _) as [f|] eqn:E1.
  { apply (find_setting_keeps _ _ _ node_settings_keep E1 value c c' Hc). }
  destruct (same section "forward").
  { destruct (on_last _ _) as [l|x|] eqn:E; [|done..]. intros [= <-]. pose proof (on_last_nonempty _ _ _ E).
    apply (on_last_ok forward_ok) in E; [|apply set_in_forward_ok|apply Hc]. destruct Hc. split; [by split|done..]. }
  destruct (same section "peer").
  { destruct (on_last _ _) as [l|x|] eqn:E; [|done..]. intros [= <-]. pose proof (on_last_nonempty _ _ _ E).
    apply (on_last_ok peer_ok) in E; [|apply set_in_peer_ok|apply Hc]. destruct Hc. split; [by split|done..]. }
  clear E1. destruct (find_setting _ _) as [f|] eqn:E2; [|done].
  refine (find_setting_keeps _ _ _ _ E2 value c c' Hc).
  apply Forall_app_2; [apply network_settings_keep|]. apply Forall_app_2; [apply transport_settings_keep|apply disguise_settings_keep].
Qed.

(** The two keys that must be there set a value that counts as set. *)
Lemma assign_port section key value c c' : section ++ [46] ++ key = text "node.listen_port" → assign section key value c = Ok c' →
  listen_port (node c') ≠ 0.
Proof.
  intros E. unfold assign. rewrite E. change (find_setting node_settings (text "node.listen_port"))
    with (Some (λ value c, let* port := Config.parse_port value in Ok (set_listen_port port c))).
  cbv beta iota. destruct (Config.parse_port value) as [p|x|] eqn:Ep; [|done..]. intros [= <-]. apply config_port_range in Ep.
  cbn. unfold port_ok in Ep. lia.
Qed.

Lemma assign_file section key value c c' : section ++ [46] ++ key = text "identity.key_file" → assign section key value c = Ok c' →
  same section "forward" = false → same section "peer" = false → identity_key_file c' ≠ [].
Proof.
  intros E. unfold assign. rewrite E. change (find_setting node_settings (text "identity.key_file")) with (@None (list Z → Config → res ConfigError Config)).
  intros H H1 H2. rewrite H1, H2 in H.
  change (find_setting (network_settings ++ transport_settings ++ disguise_settings) (text "identity.key_file"))
    with (Some (set_some with_identity_key_file)) in H. revert H. unfold set_some, guard. case_bool_decide; [done|]. by intros [= <-].
Qed.

(** ** No assignment leaves a vector *)

Lemma one_of_no_ub {A} (names : list (string * A)) value : no_ub (one_of names value).
Proof. induction names as [|[name a] names IH]; [done|]. cbn [one_of]. by destruct (same value name). Qed.
Lemma parse_uint_no_ub value : no_ub (parse_uint value).
Proof. unfold parse_uint. by destruct (from_chars _ _ _) as [[? []]|]. Qed.
Lemma parse_bool_no_ub value : no_ub (parse_bool value).
Proof. unfold parse_bool. by repeat destruct (same _ _). Qed.
Lemma parse_int32_no_ub value : no_ub (parse_int32 value).
Proof. unfold parse_int32. by repeat case_match. Qed.
Lemma add_prefixes_no_ub value held : no_ub (add_prefixes value held).
Proof.
  unfold add_prefixes. assert (∀ parts held, no_ub (prefix_list parts held)) as Hp.
  { intros parts. induction parts as [|part parts IH]; intros h; [done|]. cbn [prefix_list]. unfold guard. by destruct (_ || _). }
  specialize (Hp (split_list value) held). destruct (prefix_list _ _) as [l|e|]; [|done..]. cbn [rbind]. unfold guard. by case_bool_decide.
Qed.
Lemma spoof_list_no_ub parts : ∀ held, no_ub (spoof_list parts held).
Proof.
  induction parts as [|part parts IH]; intros held; [done|]. cbn [spoof_list]. pose proof (parse_address_no_ub part) as Hp.
  destruct (parse_address part) as [a|e|]; [|done..]. unfold guard. by case_bool_decide.
Qed.
Lemma config_port_no_ub value : no_ub (Config.parse_port value).
Proof.
  unfold Config.parse_port. pose proof (parse_uint_no_ub value). destruct (parse_uint value); [|done..]. cbn [rbind]. unfold guard.
  by destruct (_ || _).
Qed.
Create HintDb config_defined.
#[local] Hint Resolve parse_uint_no_ub parse_bool_no_ub parse_int32_no_ub add_prefixes_no_ub config_port_no_ub parse_endpoint_no_ub : config_defined.

(** A value that is read and then put in place. *)
Lemma put_no_ub {A B} (r : res ConfigError A) (g : A → B) : no_ub r → no_ub (let* a := r in Ok (g a)).
Proof. by destruct r. Qed.
Lemma guard_no_ub {A} b (e : ConfigError) (r : res ConfigError A) : no_ub r → no_ub (guard b e r).
Proof. by destruct b. Qed.
#[local] Hint Resolve put_no_ub guard_no_ub : config_defined.

Definition defined (f : list Z → Config → res ConfigError Config) : Prop := ∀ value c, no_ub (f value c).

Lemma count_defined maximum g : defined (set_count maximum g).
Proof.
  intros value c. unfold set_count. pose proof (parse_uint_no_ub value). destruct (parse_uint value); [|done..]. cbn [rbind]. by apply guard_no_ub.
Qed.
Lemma name_defined {A} names (g : A → Config → Config) : defined (set_name names g).
Proof. intros value c. apply put_no_ub, one_of_no_ub. Qed.

Lemma settings_defined : Forall (λ s, defined s.2) settings.
Proof.
  unfold settings. repeat apply Forall_app_2; repeat apply Forall_cons_2; cbn [snd]; try by apply Forall_nil_2.
  all: try apply count_defined. all: try apply name_defined.
  all: intros value c; unfold set_flag, set_text, set_some, set_choice, set_int32, set_hex_key, set_host_port, set_short_id;
    try (first [apply put_no_ub|apply guard_no_ub]; by auto with config_defined).
  - unfold parse_mtu. destruct (same _ _); [done|]. destruct (parse_uint value); [|done..]. unfold guard. by destruct (_ || _).
  - done.
  - unfold set_sources. pose proof (spoof_list_no_ub (split_list value) []). destruct (spoof_list _ _); [|done..]. cbn [rbind]. by apply guard_no_ub.
  - unfold set_sni, guard. destruct (_ || _); [done|]. by destruct (sni_pool value).
Qed.

Lemma find_setting_defined table qualified f : Forall (λ s, defined s.2) table → find_setting table qualified = Some f → defined f.
Proof.
  intros Ht. induction Ht as [|[name g] table Hg _ IH]; [done|]. cbn [find_setting]. destruct (same qualified name); [by intros [= <-]|done].
Qed.

Lemma on_last_defined {A} (f : A → res ConfigError A) l : l ≠ [] → (∀ e, no_ub (f e)) → no_ub (on_last f l).
Proof.
  intros Hl Hf. unfold on_last. destruct (last l) as [e|] eqn:E; [by apply put_no_ub|]. by apply last_None in E.
Qed.

(** A section of entries has at least one. *)
Definition has_entry (section : list Z) (c : Config) : Prop :=
  (section = text "forward" → forwards c ≠ []) ∧ (section = text "peer" → peers c ≠ []).

Lemma assign_defined section key value c : has_entry section c → no_ub (assign section key value c).
Proof.
  intros [Hf Hp]. pose proof settings_defined as Hs. unfold settings in Hs. apply Forall_app in Hs as [Hn Hs].
  unfold assign. destruct (find_setting node_settings _) as [f|] eqn:E1; [by apply (find_setting_defined _ _ _ Hn E1)|]. clear E1.
  destruct (same section "forward") eqn:E2; [|destruct (same section "peer") eqn:E3].
  - apply put_no_ub, on_last_defined; [by apply Hf, same_text|]. intros e. unfold set_in_forward. repeat destruct (same _ _); auto with config_defined; try done; [by apply guard_no_ub|].
    pose proof (parse_endpoint_no_ub value). by destruct (parse_endpoint value).
  - apply put_no_ub, on_last_defined; [by apply Hp, same_text|]. intros e. unfold set_in_peer. repeat destruct (same _ _); auto with config_defined; try done.
    all: by apply guard_no_ub.
  - destruct (find_setting _ _) as [f|] eqn:E4; [|done]. by apply (find_setting_defined _ _ _ Hs E4).
Qed.

(** ** Lines *)

Record parsing_ok (p : Parsing) : Prop := {
  pa_fields : fields_ok (config p);
  pa_port : text "node.listen_port" ∈ present p → listen_port (node (config p)) ≠ 0;
  pa_file : text "identity.key_file" ∈ present p → identity_key_file (config p) ≠ [];
  pa_entry : has_entry (section p) (config p);
}.

(** [Q] of a success, and no undefined behaviour. *)
Definition succeeds {E A} (Q : A → Prop) (r : res E A) : Prop := match r with Ok a => Q a | Fail _ => True | Ub => False end.

Lemma known_not_entry name c : existsb (same name) known = true → has_entry name c.
Proof.
  intros H%existsb_exists. destruct H as (s & Hin & ->%same_text).
  assert (forallb (λ s, negb (same (text s) "forward") && negb (same (text s) "peer")) known = true) as Hk by (vm_compute; reflexivity).
  apply (proj1 (forallb_forall _ _) Hk) in Hin as [H1%negb_true_iff H2%negb_true_iff]%andb_true_iff.
  by split; intros E; [rewrite E in H1|rewrite E in H2].
Qed.

Lemma open_section_ok number line p : parsing_ok p → succeeds parsing_ok (open_section number line p).
Proof.
  intros [[H1 H2 H3 H4 H5 H6 H7 H8 H9] Hport Hfile _]. unfold open_section, fails. destruct (_ && _).
  - destruct (same _ "peer") eqn:E1; [|destruct (same _ "forward") eqn:E2; [|done]].
    + apply same_text in E1. split; cbn [config section present]; try done.
      * split; try done. cbn. apply Forall_app_2; [done|]. apply Forall_cons_2; [|by constructor]. split; first [by left|by constructor].
      * rewrite E1. split; [done|]. intros _. cbn. by destruct (peers (config p)).
    + apply same_text in E2. split; cbn [config section present]; try done.
      * split; try done. cbn. apply Forall_app_2; [done|]. apply Forall_cons_2; [|by constructor]. split; first [by left|done].
      * rewrite E2. split; [|done]. intros _. cbn. by destruct (forwards (config p)).
  - destruct (_ || _); [done|]. destruct (existsb _ _) eqn:E; [|done]. split; try done. by apply known_not_entry.
Qed.

(** A key with a section of entries is not one of the other sections. *)
Lemma entry_not_file section key : section ++ [46] ++ key = text "identity.key_file" → same section "forward" = false ∧ same section "peer" = false.
Proof. intros E. split; apply not_true_iff_false; intros ->%same_text; discriminate E. Qed.

Lemma unquote_no_ub value : no_ub (unquote value).
Proof. unfold unquote, guard. destruct (_ && _); [done|]. by destruct (contains _ _). Qed.

Lemma parse_line_ok number raw p : parsing_ok p → succeeds parsing_ok (parse_line number raw p).
Proof.
  intros Hp. unfold parse_line, fails. case_bool_decide; [done|]. case_bool_decide; [by apply open_section_ok|].
  destruct (find 61 _ 0) as [equals|]; [|done]. case_bool_decide; [done|]. set (key := trim _).
  pose proof (unquote_no_ub (trim (drop (equals + 1) (strip_comment raw)))) as Hu.
  destruct (unquote _) as [value|e|]; [|done..]. cbn [report recast rbind]. case_bool_decide; [done|]. case_bool_decide; [done|].
  pose proof (assign_defined (section p) key value (config p) (pa_entry p Hp)) as Hd.
  destruct (assign (section p) key value (config p)) as [c'|e|] eqn:E; [|done..]. cbn [report recast rbind succeeds].
  destruct (assign_keeps (section p) key value (config p) c' (pa_fields p Hp) E) as [K1 K2 K3 K4 K5]. destruct Hp as [P1 P2 P3 [P4 P5]].
  split; cbn [config section present]; [done| | |split; auto]; (intros [Hin|Hin]%elem_of_cons; [|by auto]).
  - by apply (assign_port _ _ _ _ _ (eq_sym Hin) E).
  - destruct (entry_not_file _ _ (eq_sym Hin)) as [N1 N2]. by apply (assign_file _ _ _ _ _ (eq_sym Hin) E).
Qed.

Lemma parse_lines_ok raws : ∀ number p, parsing_ok p → succeeds parsing_ok (parse_lines number raws p).
Proof.
  induction raws as [|raw raws IH]; intros number p Hp; [done|]. cbn [parse_lines]. pose proof (parse_line_ok number raw p Hp) as H.
  destruct (parse_line number raw p); [|done..]. by apply IH.
Qed.

(** ** What spans several keys *)

Lemma tolower_hex c : is_hex c = true → is_hex (tolower c) = true ∧ tolower (tolower c) = tolower c.
Proof.
  intros H. assert (48 ≤ c ≤ 57 ∨ 97 ≤ c ≤ 102 ∨ 65 ≤ c ≤ 70) as Hr.
  { unfold is_hex in H. repeat (apply orb_true_iff in H as [H|H]); apply andb_true_iff in H as [H1%Z.leb_le H2%Z.leb_le]; lia. }
  assert (∀ d, 48 ≤ d ≤ 57 ∨ 97 ≤ d ≤ 102 → tolower d = d) as Hlow.
  { intros d Hd. unfold tolower. destruct (Z.leb_spec 65 d), (Z.leb_spec d 90); cbn [andb]; lia. }
  destruct (decide (65 ≤ c ≤ 70)) as [Hu|Hu]; [|by rewrite !Hlow by lia].
  assert (tolower c = c + 32) as -> by (unfold tolower; destruct (Z.leb_spec 65 c), (Z.leb_spec c 90); cbn [andb]; lia).
  rewrite Hlow by lia. split; [|done]. unfold is_hex. rewrite (proj2 (Z.leb_le 97 (c + 32))), (proj2 (Z.leb_le (c + 32) 102)) by lia.
  cbn [andb]. by rewrite orb_true_r.
Qed.

Lemma lowered_key k : is_hex_key k = true → is_hex_key (map tolower k) = true ∧ map tolower (map tolower k) = map tolower k.
Proof.
  unfold is_hex_key. intros [Hl Hh]%andb_true_iff. rewrite length_map. rewrite Hl. cbn [andb].
  clear Hl. induction k as [|c k IH]; [done|]. cbn [forallb map] in *. apply andb_true_iff in Hh as [Hc Hk].
  destruct (tolower_hex c Hc) as [H1 H2]. destruct (IH Hk) as [H3 H4]. by rewrite H1, H3, H2, H4.
Qed.

Record full_peer (e : PeerEntry) : Prop := {
  fp_ok : peer_ok e;
  fp_key : is_hex_key (public_key e) = true;
  fp_lower : map tolower (public_key e) = public_key e;
  fp_allowed : allowed_ips e ≠ [];
}.

Lemma check_peers_ok entries : ∀ index keys, Forall peer_ok entries →
  succeeds (λ l, Forall full_peer l ∧ NoDup (public_key <$> l) ∧ Forall (λ e, public_key e ∉ keys) l) (check_peers index entries keys).
Proof.
  induction entries as [|e entries IH]; intros index keys He; [by repeat constructor|]. apply Forall_cons_1 in He as [He Hes].
  cbn [check_peers]. unfold missing, fails. case_bool_decide as H1; [done|]. case_bool_decide as H2; [done|]. case_bool_decide as H3; [done|].
  specialize (IH (S index) (map tolower (public_key e) :: keys) Hes). destruct (check_peers _ _ _) as [l|x|]; [|done..].
  destruct IH as (I1 & I2 & I3). cbn [rbind succeeds]. destruct He as [P1 P2 P3 P4]. destruct P1 as [P1|P1]; [done|].
  destruct (lowered_key _ P1) as [L1 L2]. split; [|split].
  - apply Forall_cons_2; [|done]. split; [split; [by right|done..]|done..].
  - cbn. apply NoDup_cons_2; [|done]. intros Hin. apply list_elem_of_fmap in Hin as (e' & E & Hin').
    pose proof (proj1 (Forall_forall _ _) I3 e' Hin') as Hnot. cbn beta in Hnot. apply Hnot. rewrite <- E. left.
  - apply Forall_cons_2; [done|]. eapply Forall_impl; [exact I3|]. intros e' Hnot Hin. apply Hnot. by right.
Qed.

Definition uses_of (f : ForwardEntry) : list (bool * Z) := (if tcp f then [(true, port f)] else []) ++ (if udp f then [(false, port f)] else []).
Definition use_name (u : bool * Z) : list Z := text (if u.1 then "tcp" else "udp") ++ [47] ++ to_chars u.2.

Lemma forwarded_uses f : forwarded_names f = use_name <$> uses_of f.
Proof. unfold forwarded_names, uses_of. by destruct (tcp f), (udp f). Qed.

Lemma insert_all_spec names : ∀ held held', insert_all names held = Some held' →
  NoDup names ∧ (∀ x, x ∈ held' ↔ x ∈ names ∨ x ∈ held) ∧ Forall (λ x, x ∉ held) names.
Proof.
  induction names as [|x names IH]; intros held held' H.
  { injection H as <-. split; [constructor|]. split; [|constructor]. intros x. split; [by right|by intros [?%elem_of_nil|?]]. }
  cbn [insert_all] in H. case_bool_decide as Hx; [done|]. destruct (IH _ _ H) as (I1 & I2 & I3).
  assert (x ∉ names) as Hn.
  { intros Hin. pose proof (proj1 (Forall_forall _ _) I3 x Hin) as Hf. apply Hf. left. }
  split; [by apply NoDup_cons_2|]. split.
  - intros y. rewrite I2, !elem_of_cons. tauto.
  - apply Forall_cons_2; [done|]. eapply Forall_impl; [exact I3|]. intros y Hy Hin. apply Hy. by right.
Qed.

Record full_forward (listen : Z) (f : ForwardEntry) : Prop := {
  ff_port : port_ok (port f);
  ff_target : ∃ where_, parse_endpoint (target f) = Ok where_;
  ff_protocol : tcp f || udp f = true;
  ff_tunnel : udp f = true → port f ≠ listen;
}.

Lemma forwards_uses entries : entries ≫= forwarded_names = use_name <$> (entries ≫= uses_of).
Proof.
  induction entries as [|f entries IH]; [done|]. cbn [mbind list_bind] in *. rewrite IH, fmap_app. by rewrite forwarded_uses.
Qed.

Lemma check_forwards_ok listen entries : ∀ index held, Forall forward_ok entries →
  succeeds (λ _, Forall (full_forward listen) entries ∧ NoDup (entries ≫= forwarded_names) ∧ Forall (λ x, x ∉ held) (entries ≫= forwarded_names))
    (check_forwards index listen entries held).
Proof.
  induction entries as [|f entries IH]; intros index held He; [by repeat constructor|]. apply Forall_cons_1 in He as [[F1 F2 F3] Hes].
  cbn [check_forwards]. unfold missing, conflict, fails. destruct (Z.eqb_spec (port f) 0); [done|]. case_bool_decide as H2; [done|].
  destruct (insert_all _ _) as [held'|] eqn:E; [|done]. apply insert_all_spec in E as (I1 & I2 & I3).
  destruct ((port f =? listen) && udp f) eqn:E4; [done|].
  specialize (IH (S index) held' Hes). destruct (check_forwards _ _ _ _) as [[]|x|]; [|done..]. destruct IH as (J1 & J2 & J3).
  cbn [succeeds mbind list_bind] in *. split; [|split].
  - apply Forall_cons_2; [|done]. split; [tauto|tauto|done|]. intros Hu Hp. rewrite Hu, (proj2 (Z.eqb_eq _ _) Hp) in E4. done.
  - apply NoDup_app. split; [done|]. split; [|done]. intros x Hx Hx'. pose proof (proj1 (Forall_forall _ _) J3 x Hx') as Hn. apply Hn, I2. by left.
  - apply Forall_app_2; [done|]. eapply Forall_impl; [exact J3|]. intros x Hx Hin. apply Hx, I2. by right.
Qed.

(** ** Accepted configurations *)

Record valid (c : Config) : Prop := {
  va_fields : fields_ok c;
  va_port : port_ok (listen_port (node c));
  va_file : identity_key_file c ≠ [];
  va_family : ipv4_ (network c) || ipv6_ (network c) = true;
  va_peers : Forall full_peer (peers c);
  va_keys : NoDup (public_key <$> peers c);
  va_forwards : Forall (full_forward (listen_port (node c))) (forwards c);
  va_uses : NoDup (forwards c ≫= uses_of);
  va_rates : if qos_enabled (rates c) then 0 < qos_rate_bytes (rates c) ∧ 0 < qos_burst_bytes (rates c)
             else qos_rate_bytes (rates c) = 0 ∧ qos_burst_bytes (rates c) = 0;
  va_metrics : metrics_enabled (metrics c) = true ↔ metrics_listen (metrics c) ≠ [];
  va_spoof : spoof_enabled (carrier c) = true ↔ spoof_sources (carrier c) ≠ [];
  va_spoof_carrier : spoof_enabled (carrier c) = true → transport (carrier c) = TransportMode.automatic ∨ transport (carrier c) = TransportMode.udp;
  va_junk : junk_padding (obfuscation c) = true → mode (obfuscation c) = full;
  va_priming : priming (obfuscation c) = true → mode (obfuscation c) ≠ Obfuscation.off;
  va_obfuscation : mode (obfuscation c) ≠ Obfuscation.off → carries_datagrams (transport (carrier c)) || tcp_framed_carrier c = true;
  va_camouflage : camouflage (disguise c) ≠ CamouflageMode.off →
    transport (carrier c) = TransportMode.automatic ∨ transport (carrier c) = TransportMode.tcp_tls;
}.

Lemma check_rates_ok c : rates_ok (rates c) → succeeds (λ c', ∃ burst, c' = set_qos_burst_bytes burst c ∧ is_u64 burst ∧
  if qos_enabled (rates c) then 0 < qos_rate_bytes (rates c) ∧ 0 < burst else qos_rate_bytes (rates c) = 0 ∧ burst = 0) (check_rates c).
Proof.
  intros [H1 H2]. unfold check_rates, missing, conflict, fails. unfold is_u64 in *.
  assert (set_qos_burst_bytes (qos_burst_bytes (rates c)) c = c) as Esame by (destruct c as [? ? ? ? ? [] ? ? ? ? ? ?]; done).
  destruct (qos_enabled (rates c)); cbn [andb negb].
  - destruct (Z.eqb_spec (qos_rate_bytes (rates c)) 0); [done|]. destruct (Z.eqb_spec (qos_burst_bytes (rates c)) 0); cbn [succeeds].
    + eexists. split; [reflexivity|]. unfold kMaximumMtu. split; [apply u64_range|]. split; [lia|]. pose proof (Z.div_pos (qos_rate_bytes (rates c)) 10 ltac:(lia) ltac:(lia)). pose proof (Z.div_le_upper_bound (qos_rate_bytes (rates c)) 10 (2 ^ 63) ltac:(lia) ltac:(lia)). rewrite u64_id; unfold is_u64; lia.
    + exists (qos_burst_bytes (rates c)). split; [done|]. lia.
  - destruct (Z.eqb_spec (qos_rate_bytes (rates c)) 0); [|done]. destruct (Z.eqb_spec (qos_burst_bytes (rates c)) 0); [|done]. cbn [negb orb succeeds].
    exists (qos_burst_bytes (rates c)). split; [done|]. lia.
Qed.

Lemma check_metrics_ok c : succeeds (λ _, metrics_enabled (metrics c) = true ↔ metrics_listen (metrics c) ≠ []) (check_metrics c).
Proof.
  unfold check_metrics, missing, conflict, fails. destruct (metrics_enabled (metrics c)); cbn [andb negb]; case_bool_decide; done.
Qed.

Lemma check_spoof_ok c : succeeds (λ _, (spoof_enabled (carrier c) = true ↔ spoof_sources (carrier c) ≠ []) ∧
  (spoof_enabled (carrier c) = true → transport (carrier c) = TransportMode.automatic ∨ transport (carrier c) = TransportMode.udp)) (check_spoof c).
Proof.
  unfold check_spoof, missing, conflict, fails. destruct (spoof_enabled (carrier c)); cbn [andb negb]; case_bool_decide; cbn [negb]; try done.
  repeat case_bool_decide; cbn [negb andb succeeds]; try done; tauto.
Qed.

Lemma check_disguise_ok c : succeeds (λ _, (junk_padding (obfuscation c) = true → mode (obfuscation c) = full) ∧
  (priming (obfuscation c) = true → mode (obfuscation c) ≠ Obfuscation.off) ∧
  (mode (obfuscation c) ≠ Obfuscation.off → carries_datagrams (transport (carrier c)) || tcp_framed_carrier c = true) ∧
  (camouflage (disguise c) ≠ CamouflageMode.off →
    transport (carrier c) = TransportMode.automatic ∨ transport (carrier c) = TransportMode.tcp_tls)) (check_disguise c).
Proof.
  unfold check_disguise, conflict, fails. cbn zeta. destruct (bool_decide (mode (obfuscation c) = Obfuscation.off) && _) eqn:E1; [done|].
  destruct (junk_padding _ && negb _) eqn:E2; [done|]. destruct (_ && negb (tcp_framed_carrier c)) eqn:E3; [done|].
  destruct (negb (bool_decide (camouflage _ = _)) && _ && _) eqn:E4; [done|]. cbn [succeeds]. split_and!.
  - intros Hj. rewrite Hj in E2. cbn [andb] in E2. apply negb_false_iff in E2. by apply bool_decide_eq_true_1 in E2.
  - intros Hp Hm. rewrite bool_decide_eq_true_2, Hp, orb_true_r in E1 by done. done.
  - intros Hm. rewrite bool_decide_eq_false_2 in E3 by done. by destruct (carries_datagrams _), (tcp_framed_carrier c).
  - intros Hm. rewrite bool_decide_eq_false_2 in E4 by done. repeat case_bool_decide; try done; tauto.
Qed.

(** What an accepted text satisfies, field by field. *)
Lemma parse_config_sound l :
  match parse_config l with
  | Ok c => valid c
  | Fail _ => True
  | Ub => False
  end.
Proof.
  unfold parse_config. assert (parsing_ok (mkParsing new_config [] [] [])) as H0.
  { split; [apply new_config_ok|by intros ?%elem_of_nil..|]. split; discriminate. }
  pose proof (parse_lines_ok (lines_of l) 1 _ H0) as H. destruct (parse_lines _ _ _) as [p|e|]; [|done..]. clear H0. cbn [rbind].
  destruct H as [Hf Hport Hfile _]. unfold check_config, missing, conflict, fails.
  case_bool_decide as Hp1; [|done]. case_bool_decide as Hp2; [|done]. cbn [negb].
  pose proof (check_peers_ok (peers (config p)) 0 [] (fi_peers _ Hf)) as H. destruct (check_peers _ _ _) as [entries|e|]; [|done..].
  destruct H as (Hpe & Hkeys & _). cbn [rbind].
  pose proof (check_forwards_ok (listen_port (node (config p))) (forwards (config p)) 0 [] (fi_forwards _ Hf)) as H.
  change (forwards (with_peers entries (config p))) with (forwards (config p)).
  change (node (with_peers entries (config p))) with (node (config p)).
  destruct (check_forwards _ _ _ _) as [[]|e|]; [|done..]. destruct H as (Hfo & Huses & _). cbn [rbind].
  rewrite forwards_uses in Huses. apply NoDup_fmap_1 in Huses.
  pose proof (check_rates_ok (with_peers entries (config p)) (fi_rates _ Hf)) as H. destruct (check_rates _) as [c|e|]; [|done..].
  destruct H as (burst & -> & Hb & Hrates). cbn [rbind]. set (c := set_qos_burst_bytes _ _).
  specialize (Hport Hp1). specialize (Hfile Hp2).
  assert (fields_ok c) as Hc.
  { destruct Hf as [? ? ? ? [] ? ? ? ?]. split; try done. eapply Forall_impl; [exact Hpe|]. by intros e []. }
  pose proof (check_metrics_ok c) as H. destruct (check_metrics c) as [[]|e|]; [|done..]. cbn [rbind].
  pose proof (check_spoof_ok c) as H'. destruct (check_spoof c) as [[]|e|]; [|done..]. cbn [rbind].
  destruct (negb _ && negb _) eqn:Hfam; [done|].
  pose proof (check_disguise_ok c) as H''. destruct (check_disguise c) as [[]|e|]; [|done..]. cbn [rbind succeeds] in *.
  destruct H' as [S1 S2], H'' as (D1 & D2 & D3 & D4).
  split; try done.
  - destruct (no_port _ (fi_node _ Hc)) as [E|E]; [by destruct (Hport E)|done].
  - apply andb_false_iff in Hfam as [E%negb_false_iff|E%negb_false_iff]; apply orb_true_iff; [by left|by right].
Qed.

(** C29. Configuration: for every text [parse_config] returns a configuration or
    a diagnostic, and a configuration it returns is valid: every field is in
    its range, the required keys were given, peers have distinct lower-case
    keys and allowed prefixes, no two forwards use the same protocol and port
    and none the tunnel's port over UDP, a shaper has a rate and a burst, and
    the options for metrics, spoofing, obfuscation and camouflage fit the
    transport they were given with. *)
Theorem parse_config_valid l :
  match parse_config l with
  | Ok c => valid c
  | Fail _ => True
  | Ub => False
  end.
Proof. exact (parse_config_sound l). Qed.

(** ** A configuration that is accepted, and some that are not *)

Definition file (lines : list string) : list Z := lines ≫= λ s, text s ++ [10].

Definition sample_lines : list string := [
  "[node]"; "role = server   # comment"; "listen_port = 51820"; "[identity]"; "key_file = 'k'"; "[network]"; "address = 10.0.0.1/24, fd00::1/64";
  "mtu = 1420"; "[transport]"; "mode = tcp-tls"; "camouflage = ssh"; "obfuscation = full"; "junk = true"; "[[peer]]"; "name = b";
  "public_key = 00112233445566778899AABBCCDDEEFF00112233445566778899aabbccddeeff"; "allowed_ips = 10.0.0.2/32"; "[[forward]]";
  "listen_port = 8080"; "target = 10.0.0.2:80"; "protocol = tcp"]%string.

Definition verdict (r : res ConfigDiagnostic Config) : option (ConfigError * nat) :=
  match r with Fail d => Some (error d, line d) | _ => None end.

Example sample_accepted : ∃ c, parse_config (file sample_lines) = Ok c ∧ listen_port (node c) = 51820 ∧
  (public_key <$> peers c) = [text "00112233445566778899aabbccddeeff00112233445566778899aabbccddeeff"] ∧ mtu (network c) = 1420.
Proof. eexists. split; [vm_compute; reflexivity|]. vm_compute. done. Qed.

Example repeated_key_refused :
  verdict (parse_config (file ("[node]" :: "listen_port = 1" :: sample_lines)%string)) = Some (ConfigError.duplicate_key, 5%nat) ∧
  verdict (parse_config (file (sample_lines ++ ["[[forward]]"; "listen_port = 8080"; "target = 10.0.0.3:80"]%string))) = Some (ConfigError.duplicate_key, 0%nat) ∧
  verdict (parse_config (file (sample_lines ++ ["[transport]"; "sni = "]%string))) = Some (ConfigError.invalid_value, 23%nat).
Proof. vm_compute. done. Qed.
