(* ===== verification/Udp.v ===== *)
(** Datagrams over a UDP socket: [src/udp_transport.cpp].

    [send_batch] joins datagrams of one size for one destination into a group
    that the kernel cuts again (generic segmentation offload); [receive_batch]
    cuts what the kernel joined and keeps in a backlog what the caller has no
    room for.  [Kernel] is the system's side of the socket: its answers to
    [sendmmsg], what [recvmmsg] will return, and the datagrams it has sent,
    each with its address.  The socket options of [start] are the answers in
    [Binding].  A span into the caller's [ReceiveBuffers] is the bytes it shows:
    [receive_batch] does not write to the slots while there is a backlog. *)

From S2P Require Import Prelude Address Worker Tcp.

Definition kMaximumSegments : nat := 64.
Definition kSegmentLimit : nat := Z.to_nat 65000.

Record TransportStats := mkTransportStats {
  rx_packets : Z;
  tx_packets : Z;
  rx_bytes : Z;
  tx_bytes : Z;
  rx_errors : Z;
  tx_errors : Z;
  rx_truncated : Z;
  gso_writes : Z;
  gso_segments : Z;
}.
Definition no_traffic : TransportStats := mkTransportStats 0 0 0 0 0 0 0 0 0.

(** ** Socket addresses *)

(** [sockaddr_in], [sockaddr_in6], or another family. *)
Inductive Sockaddr := sockaddr_in (octets : list Z) (port : Z) | sockaddr_in6 (octets : list Z) (port : Z) | sockaddr_other.
#[export] Instance Sockaddr_eq_dec : EqDecision Sockaddr.
Proof. solve_decision. Defined.

Definition kMappedPrefix : list Z := replicate 10 0 ++ [0xFF; 0xFF].

Definition endpoint_from_sockaddr (s : Sockaddr) : Endpoint :=
  match s with
  | sockaddr_in octets port => mkEndpoint (from_bytes ipv4 octets) port
  | sockaddr_in6 octets port =>
      if bool_decide (take 12 octets = kMappedPrefix) then mkEndpoint (from_bytes ipv4 (drop 12 octets)) port
      else mkEndpoint (from_bytes ipv6 octets) port
  | sockaddr_other => mkEndpoint (mkAddress ipv4 (replicate 16 0)) 0
  end.

(** [None] is the length 0: the socket's family cannot reach the endpoint. *)
Definition sockaddr_from_endpoint (e : Endpoint) (socket_family : AddressFamily) : option Sockaddr :=
  let octets := address_bytes (ep_address e) in
  match socket_family, family_ (ep_address e) with
  | ipv4, ipv4 => Some (sockaddr_in octets (port_ e))
  | ipv4, ipv6 => None
  | ipv6, ipv6 => Some (sockaddr_in6 octets (port_ e))
  | ipv6, ipv4 => Some (sockaddr_in6 (kMappedPrefix ++ octets) (port_ e))
  end.

(** ** The kernel's side *)

Inductive SendError := SEINTR | SEIO | SEAGAIN | SEOTHER.
(** [sendmmsg] takes the first [n] messages, or fails; [sendmsg] takes its
    message when [n] is not 0. *)
Inductive Sendmmsg := Takes (n : nat) | Refuses (e : SendError).

(** A received message: its source, its bytes, whether it was truncated, and
    the size of the datagrams joined in it. *)
Record Message := mkMessage { msg_source : Sockaddr; msg_bytes : list Z; msg_trunc : bool; msg_segment : option Z }.
(** [recvmmsg] fails, or returns as many of the messages as there is room for. *)
Inductive Recvmmsg := Messages (l : list Message) | ReadBlocked | ReadFailed.

Record Kernel := mkKernel {
  sendmmsg_answers : list Sendmmsg;
  recvmmsg_answers : list Recvmmsg;
  transmitted : list (Sockaddr * list Z);
}.

(** A message to send: its address, its vectors, and the segment size of its
    control message when there is one. *)
Record Outgoing := mkOutgoing { to_address : Sockaddr; vectors : list (list Z); segment_size : option nat }.

Fixpoint chunks (fuel size : nat) (l : list Z) : list (list Z) :=
  match fuel with
  | O => []
  | S fuel => match l with [] => [] | _ => take size l :: chunks fuel size (drop size l) end
  end.

(** Segmentation offload cuts the message into datagrams of the segment size,
    the last one what is left. *)
Definition on_the_wire (o : Outgoing) : list (Sockaddr * list Z) :=
  match segment_size o with
  | Some size => (λ b, (to_address o, b)) <$> chunks (length (concat (vectors o))) size (concat (vectors o))
  | None => [(to_address o, concat (vectors o))]
  end.

(** A call uses up an answer; when there is none it would block. *)
Definition kernel_sendmmsg (messages : list Outgoing) (k : Kernel) : Kernel * (nat + SendError) :=
  match sendmmsg_answers k with
  | [] => (k, inr SEAGAIN)
  | Takes n :: rest =>
      let n := Nat.min n (length messages) in
      (mkKernel rest (recvmmsg_answers k) (transmitted k ++ (take n messages ≫= on_the_wire)), inl n)
  | Refuses e :: rest => (mkKernel rest (recvmmsg_answers k) (transmitted k), inr e)
  end.

(** [None]: the call would block; [Some None]: it failed. *)
Definition kernel_recvmmsg (count : nat) (k : Kernel) : Kernel * option (option (list Message)) :=
  match recvmmsg_answers k with
  | [] => (k, None)
  | Messages l :: rest =>
      let left := if (length l <=? count)%nat then rest else Messages (drop count l) :: rest in
      (mkKernel (sendmmsg_answers k) left (transmitted k), Some (Some (take count l)))
  | ReadBlocked :: rest => (mkKernel (sendmmsg_answers k) rest (transmitted k), None)
  | ReadFailed :: rest => (mkKernel (sendmmsg_answers k) rest (transmitted k), Some None)
  end.

(** ** [UdpTransport] *)

Record UdpTransport := mkUdp {
  kernel_ : option Kernel;
  udp_family_ : AddressFamily;
  udp_gso : bool;
  udp_gro : bool;
  udp_stats_ : TransportStats;
  backlog_ : list InboundDatagram;
  backlog_next_ : nat;
}.
Definition new_udp : UdpTransport := mkUdp None ipv4 false false no_traffic [] 0.

Definition with_kernel (v : Kernel) (t : UdpTransport) : UdpTransport :=
  mkUdp (Some v) (udp_family_ t) (udp_gso t) (udp_gro t) (udp_stats_ t) (backlog_ t) (backlog_next_ t).
Definition without_gso (t : UdpTransport) : UdpTransport :=
  mkUdp (kernel_ t) (udp_family_ t) false (udp_gro t) (udp_stats_ t) (backlog_ t) (backlog_next_ t).
Definition with_udp_stats (v : TransportStats) (t : UdpTransport) : UdpTransport :=
  mkUdp (kernel_ t) (udp_family_ t) (udp_gso t) (udp_gro t) v (backlog_ t) (backlog_next_ t).
Definition with_backlog (l : list InboundDatagram) (n : nat) (t : UdpTransport) : UdpTransport :=
  mkUdp (kernel_ t) (udp_family_ t) (udp_gso t) (udp_gro t) (udp_stats_ t) l n.

Abbreviation udp := (effect UdpTransport TransportError).

(** What the system answers to [start]. *)
Record Binding := mkBinding {
  udp_socket_made : bool;
  reuse_set : bool;
  v6only_set : bool;
  udp_nonblocking_set : bool;
  bound : bool;
  gso_probe : bool;
  gro_enabled : bool;
}.

Definition udp_start (bind_address : Endpoint) (b : Binding) (fresh : Kernel) : udp unit :=
  bind t := state in
  let family := family_ (ep_address bind_address) in
  bind _ := check (bool_decide (is_Some (kernel_ t))) TransportError.already_started in
  bind _ := check (negb (udp_socket_made b)) TransportError.socket_creation_failed in
  bind _ := check (negb (reuse_set b)) TransportError.socket_option_failed in
  bind _ := check (bool_decide (family = ipv6) && negb (v6only_set b)) TransportError.socket_option_failed in
  bind _ := check (negb (udp_nonblocking_set b)) TransportError.socket_option_failed in
  bind _ := check (negb (bound b)) TransportError.bind_failed in
  modify (λ t, mkUdp (Some fresh) family (gso_probe b) (gro_enabled b) no_traffic [] 0).

Definition udp_stop (t : UdpTransport) : UdpTransport :=
  mkUdp None (udp_family_ t) (udp_gso t) (udp_gro t) (udp_stats_ t) (backlog_ t) (backlog_next_ t).

(** *** Sending *)

(** [firsts], [members] and [messages] of a group. *)
Record Group := mkGroup { g_first : nat; g_members : nat; g_address : Sockaddr }.
(** The locals of the loop that forms groups. *)
Record Grouping := mkGrouping { groups : list Group; segment : nat; group_bytes : nat; group_closed : bool }.

Definition destination_of (batch : list OutboundDatagram) (index : nat) : option Endpoint := out_destination <$> batch !! index.

(** [extend]: the datagram joins the last group. *)
Definition extends (gso : bool) (batch : list OutboundDatagram) (g : Grouping) (d : OutboundDatagram) : bool :=
  let size := length (out_payload d) in
  match last (groups g) with
  | Some group =>
      gso && negb (group_closed g) && bool_decide (Some (out_destination d) = destination_of batch (g_first group)) &&
      (size <=? segment g)%nat && (g_members group <? kMaximumSegments)%nat && (group_bytes g + size <=? kSegmentLimit)%nat && (0 <? size)%nat
  | None => false
  end.

Definition grow_last (l : list Group) : list Group :=
  match last l with Some g => removelast l ++ [mkGroup (g_first g) (S (g_members g)) (g_address g)] | None => l end.

Definition group_step (gso : bool) (family : AddressFamily) (batch : list OutboundDatagram) (index : nat) (d : OutboundDatagram) (g : Grouping)
    : Grouping :=
  let size := length (out_payload d) in
  if extends gso batch g d then
    mkGrouping (grow_last (groups g)) (segment g) (group_bytes g + size) (if (size <? segment g)%nat then true else group_closed g)
  else match sockaddr_from_endpoint (out_destination d) family with
       | None => mkGrouping (groups g) (segment g) (group_bytes g) true
       | Some address => mkGrouping (groups g ++ [mkGroup index 1 address]) size size false
       end.

Fixpoint group_loop (gso : bool) (family : AddressFamily) (batch rest : list OutboundDatagram) (index : nat) (g : Grouping) : Grouping :=
  match rest with
  | [] => g
  | d :: rest => group_loop gso family batch rest (S index) (group_step gso family batch index d g)
  end.

(** The groups of a batch. *)
Definition form_groups (gso : bool) (family : AddressFamily) (batch : list OutboundDatagram) : list Group :=
  groups (group_loop gso family batch batch 0 (mkGrouping [] 0 0 true)).

(** The message header of a group: the segment size is a 16-bit integer. *)
Definition header_of (batch : list OutboundDatagram) (g : Group) : Outgoing :=
  let parts := take (g_members g) (drop (g_first g) (out_payload <$> batch)) in
  mkOutgoing (g_address g) parts
    (if (1 <? g_members g)%nat then Some (Z.to_nat (u16 (Z.of_nat (length (default [] (head parts)))))) else None).

Definition count_group (o : Outgoing) (s : TransportStats) : TransportStats :=
  let n := Z.of_nat (length (vectors o)) in
  let gso := (1 <? length (vectors o))%nat in
  mkTransportStats (rx_packets s) (u64 (tx_packets s + n)) (rx_bytes s) (u64 (tx_bytes s + blen (concat (vectors o)))) (rx_errors s)
    (tx_errors s) (rx_truncated s) (if gso then u64 (gso_writes s + 1) else gso_writes s)
    (if gso then u64 (gso_segments s + n) else gso_segments s).
Definition count_tx_error (s : TransportStats) : TransportStats :=
  mkTransportStats (rx_packets s) (tx_packets s) (rx_bytes s) (tx_bytes s) (rx_errors s) (u64 (tx_errors s + 1)) (rx_truncated s)
    (gso_writes s) (gso_segments s).

(** [sendmmsg] of the messages that are left. *)
Definition sendmmsg (messages : list Outgoing) : udp (nat + SendError) := λ t,
  match kernel_ t with
  | None => (t, Ok (inr SEOTHER))
  | Some k => let '(k, r) := kernel_sendmmsg messages k in (with_kernel k t, Ok r)
  end.

(** How the sending loop ends: after so many groups, or to be tried again
    without offload. *)
Inductive Sending_ := sent_groups_ (n : nat) | start_over.

Fixpoint sendmmsg_loop (fuel : nat) (gso : bool) (messages : list Outgoing) (sent_groups : nat) : udp Sending_ :=
  match fuel with
  | O => lift Ub
  | S fuel =>
      if (length messages <=? sent_groups)%nat then sret (sent_groups_ sent_groups) else
      bind sent := sendmmsg (drop sent_groups messages) in
      match sent with
      | inl n =>
          if (n =? 0)%nat then sret (sent_groups_ sent_groups) else
          bind _ := modify (λ t, with_udp_stats (fold_left (λ s o, count_group o s) (take n (drop sent_groups messages)) (udp_stats_ t)) t) in
          sendmmsg_loop fuel gso messages (sent_groups + n)
      | inr SEINTR => sendmmsg_loop fuel gso messages sent_groups
      | inr SEIO =>
          if gso then
            bind _ := modify without_gso in
            sret (if (sent_groups =? 0)%nat then start_over else sent_groups_ sent_groups)
          else if (0 <? sent_groups)%nat then sret (sent_groups_ sent_groups) else
          bind _ := modify (λ t, with_udp_stats (count_tx_error (udp_stats_ t)) t) in
          lift (Fail TransportError.send_failed)
      | inr SEAGAIN =>
          if (0 <? sent_groups)%nat then sret (sent_groups_ sent_groups) else lift (Fail TransportError.would_block)
      | inr SEOTHER =>
          if (0 <? sent_groups)%nat then sret (sent_groups_ sent_groups) else
          bind _ := modify (λ t, with_udp_stats (count_tx_error (udp_stats_ t)) t) in
          lift (Fail TransportError.send_failed)
      end
  end.

Definition answers_of (t : UdpTransport) : nat := match kernel_ t with Some k => length (sendmmsg_answers k) | None => 0 end.

(** The messages of a non-empty batch, sent: how many datagrams are done with,
    or [None] when the call is to be repeated. *)
Definition send_groups (batch : list OutboundDatagram) (l : list Group) : udp (option nat) :=
  bind t := state in
  match l with
  | [] => sret (Some (length batch))
  | _ =>
      let messages := header_of batch <$> l in
      bind ending := sendmmsg_loop (S (length messages + answers_of t)) (udp_gso t) messages 0 in
      sret (match ending with
            | start_over => None
            | sent_groups_ n => Some (match l !! n with Some group => g_first group | None => length batch end)
            end)
  end.

(** [retries]: how often the call may be repeated without offload; it is at
    most once, since offload is then off. *)
Fixpoint send_batch_ (retries : nat) (datagrams : list OutboundDatagram) : udp nat :=
  bind t := state in
  bind _ := check (negb (bool_decide (is_Some (kernel_ t)))) TransportError.not_started in
  if (length datagrams =? 0)%nat then sret 0%nat else
  let batch := take kDefaultBatchSize datagrams in
  bind done_with := send_groups batch (form_groups (udp_gso t) (udp_family_ t) batch) in
  match done_with with
  | Some n => sret n
  | None => match retries with S retries => send_batch_ retries datagrams | O => lift Ub end
  end.
Definition send_batch (datagrams : list OutboundDatagram) : udp nat := send_batch_ 1 datagrams.

Definition udp_set_mark (answer : bool) : udp unit :=
  bind t := state in
  bind _ := check (negb (bool_decide (is_Some (kernel_ t)))) TransportError.not_started in
  check (negb answer) TransportError.socket_option_failed.

(** [send_segmented] without offload: batches of the segments; what a batch
    leaves is not sent again. *)
Fixpoint send_pieces (fuel : nat) (pieces : list OutboundDatagram) (sent_total : nat) : udp nat :=
  match fuel with
  | O => lift Ub
  | S fuel =>
      match pieces with
      | [] => sret sent_total
      | _ =>
          bind sent := send_batch (take kDefaultBatchSize pieces) in
          send_pieces fuel (drop kDefaultBatchSize pieces) (sent_total + sent)
      end
  end.

Definition count_segmented (bytes segments : nat) (s : TransportStats) : TransportStats :=
  mkTransportStats (rx_packets s) (u64 (tx_packets s + Z.of_nat segments)) (rx_bytes s) (u64 (tx_bytes s + Z.of_nat bytes)) (rx_errors s)
    (tx_errors s) (rx_truncated s) (u64 (gso_writes s + 1)) (u64 (gso_segments s + Z.of_nat segments)).

Definition send_segmented (destination : Endpoint) (payload : list Z) (segment_size : nat) : udp nat :=
  bind t := state in
  bind _ := check (negb (bool_decide (is_Some (kernel_ t)))) TransportError.not_started in
  if (length payload =? 0)%nat || (segment_size =? 0)%nat then sret 0%nat else
  let segments := ((length payload + segment_size - 1) `div` segment_size)%nat in
  if negb (udp_gso t) || (segments <=? 1)%nat then
    send_pieces (S (length payload)) ((λ b, mkOutbound destination b 0 false false) <$> chunks (length payload) segment_size payload) 0
  else
    match sockaddr_from_endpoint destination (udp_family_ t) with
    | None => lift (Fail TransportError.send_failed)
    | Some address =>
        bind sent := sendmmsg [mkOutgoing address [payload] (Some (Z.to_nat (u16 (Z.of_nat segment_size))))] in
        match sent with
        | inl (S _) =>
            bind _ := modify (λ t, with_udp_stats (count_segmented (length payload) segments (udp_stats_ t)) t) in
            sret segments
        | inr SEAGAIN => lift (Fail TransportError.would_block)
        | inl O | inr _ =>
            bind _ := modify (λ t, with_udp_stats (count_tx_error (udp_stats_ t)) t) in
            lift (Fail TransportError.send_failed)
        end
    end.

(** *** Receiving *)

Definition count_truncated (s : TransportStats) : TransportStats :=
  mkTransportStats (rx_packets s) (tx_packets s) (rx_bytes s) (tx_bytes s) (rx_errors s) (tx_errors s) (u64 (rx_truncated s + 1))
    (gso_writes s) (gso_segments s).
Definition count_rx_error (s : TransportStats) : TransportStats :=
  mkTransportStats (rx_packets s) (tx_packets s) (rx_bytes s) (tx_bytes s) (u64 (rx_errors s + 1)) (tx_errors s) (rx_truncated s)
    (gso_writes s) (gso_segments s).
Definition count_message (bytes datagrams : nat) (s : TransportStats) : TransportStats :=
  mkTransportStats (u64 (rx_packets s + Z.of_nat datagrams)) (tx_packets s) (u64 (rx_bytes s + Z.of_nat bytes)) (tx_bytes s) (rx_errors s)
    (tx_errors s) (rx_truncated s) (gso_writes s) (gso_segments s).

(** The size of the datagrams in a message: a control message, for which there
    is room only with [gro], of size 0 or less is ignored. *)
Definition message_segment (gro : bool) (m : Message) : nat :=
  match (if gro then msg_segment m else None) with Some size => if 0 <? size then Z.to_nat size else length (msg_bytes m) | None => length (msg_bytes m) end.

(** What a message becomes: nothing when it was truncated or has no port. *)
Definition unpack (gro : bool) (m : Message) (s : TransportStats) : TransportStats * list InboundDatagram :=
  if msg_trunc m then (count_truncated s, []) else
  let source := endpoint_from_sockaddr (msg_source m) in
  if port_ source =? 0 then (count_rx_error s, []) else
  let datagrams := (λ b, mkInbound source b) <$> chunks (length (msg_bytes m)) (message_segment gro m) (msg_bytes m) in
  (count_message (length (msg_bytes m)) (length datagrams) s, datagrams).

Fixpoint unpack_all (gro : bool) (l : list Message) (s : TransportStats) : TransportStats * list InboundDatagram :=
  match l with
  | [] => (s, [])
  | m :: l =>
      let '(s, first) := unpack gro m s in
      let '(s, rest) := unpack_all gro l s in
      (s, first ++ rest)
  end.

Definition recvmmsg (count : nat) : udp (option (option (list Message))) := λ t,
  match kernel_ t with
  | None => (t, Ok (Some None))
  | Some k => let '(k, r) := kernel_recvmmsg count k in (with_kernel k t, Ok r)
  end.

(** [buffers]: how many slots the caller's [ReceiveBuffers] has. *)
Definition receive_batch (buffers out_size : nat) : udp (list InboundDatagram) :=
  bind t := state in
  bind _ := check (negb (bool_decide (is_Some (kernel_ t)))) TransportError.not_started in
  if (out_size =? 0)%nat || (buffers =? 0)%nat then sret [] else
  if (backlog_next_ t <? length (backlog_ t))%nat then
    let taken := take out_size (drop (backlog_next_ t) (backlog_ t)) in
    bind _ := modify (with_backlog (backlog_ t) (backlog_next_ t + length taken)) in
    sret taken
  else
    bind _ := modify (with_backlog [] 0) in
    bind got := recvmmsg (Nat.min (Nat.min out_size buffers) kDefaultBatchSize) in
    match got with
    | None => sret []
    | Some None =>
        bind _ := modify (λ t, with_udp_stats (count_rx_error (udp_stats_ t)) t) in
        lift (Fail TransportError.receive_failed)
    | Some (Some messages) =>
        bind t := state in
        let '(stats, datagrams) := unpack_all (udp_gro t) messages (udp_stats_ t) in
        bind _ := modify (λ t, with_backlog (drop out_size datagrams) 0 (with_udp_stats stats t)) in
        sret (take out_size datagrams)
    end.
