(* ===== verification/UdpBatches.v ===== *)
(** A batch goes out datagram by datagram, whatever was joined and whatever the
    kernel took of it, and what comes in is handed out once and in order. *)

From S2P Require Import Prelude Address Worker Tcp Udp.

(** ** Cutting what was joined *)

Lemma chunks_nil fuel size : chunks fuel size [] = [].
Proof. by destruct fuel. Qed.

Lemma chunks_join size final : (0 < length final ≤ size)%nat → ∀ parts fuel, Forall (λ p, length p = size) parts →
  (length (concat (parts ++ [final])) ≤ fuel)%nat → chunks fuel size (concat (parts ++ [final])) = parts ++ [final].
Proof.
  intros Hl parts. induction parts as [|p parts IH]; intros fuel Hp Hf.
  - cbn [app concat] in *. rewrite app_nil_r in *. destruct fuel as [|fuel]; [lia|]. cbn [chunks].
    destruct final as [|x final]; [cbn in Hl; lia|]. rewrite take_ge, drop_ge by lia. by rewrite chunks_nil.
  - apply Forall_cons_1 in Hp as [Hp Hps]. cbn [app concat] in *. rewrite length_app in Hf. destruct p as [|x p]; [cbn in Hp; lia|].
    destruct fuel as [|fuel]; [cbn in Hf; lia|]. cbn [chunks app]. change (x :: p ++ concat (parts ++ [final])) with ((x :: p) ++ concat (parts ++ [final])).
    rewrite take_app_length', drop_app_length' by done. f_equal. apply IH; [done|]. cbn [length] in Hf. lia.
Qed.

(** ** Groups *)

Section batch.
Context (family : AddressFamily) (batch : list OutboundDatagram).

(** The datagrams the socket can send, with their addresses. *)
Definition due (l : list OutboundDatagram) : list (Sockaddr * list Z) :=
  omap (λ d, (λ a, (a, out_payload d)) <$> sockaddr_from_endpoint (out_destination d) family) l.

Definition payloads_of (g : Group) : list (list Z) := take (g_members g) (drop (g_first g) (out_payload <$> batch)).
Definition frames_of (g : Group) : list (Sockaddr * list Z) := (λ b, (g_address g, b)) <$> payloads_of g.

(** One datagram, or several of one size and a last one that is not larger. *)
Definition shaped (ps : list (list Z)) : Prop :=
  (∃ p, ps = [p]) ∨
  ∃ first parts final, ps = first :: parts ++ [final] ∧ Forall (λ p, length p = length first) parts ∧
    (0 < length final ≤ length first)%nat ∧ (length (concat ps) ≤ kSegmentLimit)%nat.

Lemma message_frames g : shaped (payloads_of g) → g_members g = length (payloads_of g) →
  on_the_wire (header_of batch g) = frames_of g.
Proof.
  intros Hs Hm. unfold header_of, on_the_wire, frames_of. cbn [segment_size vectors to_address]. fold (payloads_of g). rewrite Hm.
  destruct Hs as [[p ->]|(first & parts & final & E & Hp & Hl & Hlim)]; [cbn; by rewrite app_nil_r|].
  rewrite E in *. cbn [length]. rewrite length_app. cbn [length head default].
  rewrite (proj2 (Nat.ltb_lt 1 _)) by lia. f_equal.
  assert (length first ≤ kSegmentLimit)%nat as Hfl by (etrans; [|exact Hlim]; change (concat (first :: ?l)) with (first ++ concat l); rewrite length_app; lia).
  unfold id. rewrite u16_id by (unfold is_u16, kSegmentLimit in *; lia). rewrite Nat2Z.id.
  change (first :: parts ++ [final]) with ((first :: parts) ++ [final]). apply chunks_join; [done|by apply Forall_cons_2|done].
Qed.

(** Where the group after the first [k] begins. *)
Definition begins (gs : list Group) (index k : nat) : nat := match gs !! k with Some g => g_first g | None => index end.

Record grouped (index : nat) (g : Grouping) : Prop := {
  gr_index : (index ≤ length batch)%nat;
  gr_shaped : Forall (λ g, shaped (payloads_of g) ∧ g_members g = length (payloads_of g)) (groups g);
  gr_begins : ∀ k, (begins (groups g) index k ≤ index)%nat;
  gr_covers : ∀ k, (k ≤ length (groups g))%nat → due (take (begins (groups g) index k) batch) = concat (frames_of <$> take k (groups g));
  gr_open : group_closed g = false → ∃ gs group, groups g = gs ++ [group] ∧ (g_first group + g_members group)%nat = index ∧
    (1 ≤ g_members group)%nat ∧
    Forall (λ p, length p = segment g) (payloads_of group) ∧ group_bytes g = (g_members group * segment g)%nat ∧
    (∃ e, destination_of batch (g_first group) = Some e ∧ sockaddr_from_endpoint e family = Some (g_address group));
}.

Lemma due_snoc index d : batch !! index = Some d → due (take (S index) batch) =
  due (take index batch) ++ match sockaddr_from_endpoint (out_destination d) family with Some a => [(a, out_payload d)] | None => [] end.
Proof.
  intros Hd. rewrite (take_S_r batch index d Hd). unfold due. rewrite omap_app. f_equal. cbn. by destruct (sockaddr_from_endpoint _ _).
Qed.

Lemma begins_snoc gs group index k : (k ≤ length gs)%nat → begins (gs ++ [group]) index k = begins gs (g_first group) k.
Proof.
  intros Hk. unfold begins. destruct (decide (k = length gs)) as [->|Hne].
  - rewrite list_lookup_middle by done. by rewrite lookup_ge_None_2 by lia.
  - rewrite lookup_app_l by lia. destruct (lookup_lt_is_Some_2 gs k) as [x ->]; [lia|done].
Qed.

Lemma payloads_at index d : batch !! index = Some d → take 1 (drop index (out_payload <$> batch)) = [out_payload d].
Proof. intros Hd. erewrite drop_S; [|by rewrite list_lookup_fmap, Hd]. done. Qed.

(** Adding a last group that holds what is due since its first datagram. *)
Lemma covers_snoc gs group index :
  (∀ k, (k ≤ length gs)%nat → due (take (begins gs (g_first group) k) batch) = concat (frames_of <$> take k gs)) →
  due (take index batch) = due (take (g_first group) batch) ++ frames_of group →
  ∀ k, (k ≤ length (gs ++ [group]))%nat → due (take (begins (gs ++ [group]) index k) batch) = concat (frames_of <$> take k (gs ++ [group])).
Proof.
  intros Hc Hd k Hk. rewrite length_app in Hk. cbn [length] in Hk. destruct (decide (k ≤ length gs)%nat).
  - rewrite begins_snoc, take_app_le by done. by apply Hc.
  - assert (k = length (gs ++ [group])) as -> by (rewrite length_app; cbn; lia).
    specialize (Hc (length gs) ltac:(done)). unfold begins in *. rewrite lookup_ge_None_2, firstn_all in Hc by done.
    rewrite lookup_ge_None_2, firstn_all, fmap_app, concat_app by done. rewrite Hd, Hc. cbn. by rewrite app_nil_r.
Qed.

Lemma begins_le gs group index index' : (g_first group ≤ index' ≤ index)%nat → (∀ k, (begins gs index' k ≤ index')%nat) →
  ∀ k, (begins (gs ++ [group]) index k ≤ index)%nat.
Proof.
  intros Hi Hb k. unfold begins in *. destruct ((gs ++ [group]) !! k) as [x|] eqn:E; [|done].
  apply lookup_app_Some in E as [E|[_ E]].
  - specialize (Hb k). rewrite E in Hb. lia.
  - apply list_lookup_singleton_Some in E as [_ <-]. lia.
Qed.

(** A group that starts at [index]. *)
Lemma group_new index d g a : grouped index g → batch !! index = Some d → sockaddr_from_endpoint (out_destination d) family = Some a →
  grouped (S index) (mkGrouping (groups g ++ [mkGroup index 1 a]) (length (out_payload d)) (length (out_payload d)) false).
Proof.
  intros [Hi Hs Hb Hc Ho] Hd Ha. pose proof (lookup_lt_Some _ _ _ Hd) as Hlt. pose proof (payloads_at index d Hd) as Hp.
  split; cbn [groups segment group_bytes group_closed].
  - lia.
  - apply Forall_app_2; [done|]. apply Forall_cons_2; [|constructor]. unfold payloads_of. cbn [g_first g_members]. rewrite Hp. split; [left; by eexists|done].
  - apply (begins_le _ _ _ index); [cbn; lia|done].
  - apply covers_snoc; [done|]. rewrite (due_snoc index d Hd), Ha. f_equal. unfold frames_of, payloads_of. cbn [g_first g_members g_address]. by rewrite Hp.
  - intros _. exists (groups g), (mkGroup index 1 a). split; [done|]. split; [cbn; lia|]. split; [done|].
    unfold payloads_of. cbn [g_first g_members g_address]. rewrite Hp. split; [by repeat constructor|]. split; [lia|].
    exists (out_destination d). split; [|done]. unfold destination_of. by rewrite Hd.
Qed.

(** A datagram that cannot be sent closes the group. *)
Lemma group_skip index d g : grouped index g → batch !! index = Some d → sockaddr_from_endpoint (out_destination d) family = None →
  grouped (S index) (mkGrouping (groups g) (segment g) (group_bytes g) true).
Proof.
  intros [Hi Hs Hb Hc Ho] Hd Ha. pose proof (lookup_lt_Some _ _ _ Hd) as Hlt. split; cbn [groups segment group_bytes group_closed]; try done.
  - intros k. specialize (Hb k). unfold begins in *. destruct (groups g !! k); lia.
  - intros k Hk. specialize (Hc k Hk). unfold begins in *. destruct (groups g !! k); [done|]. by rewrite (due_snoc index d Hd), Ha, app_nil_r.
Qed.

Definition grown (g : Group) : Group := mkGroup (g_first g) (S (g_members g)) (g_address g).

Lemma payloads_grown group index d : (g_first group + g_members group)%nat = index → batch !! index = Some d →
  payloads_of (grown group) = payloads_of group ++ [out_payload d].
Proof.
  intros <- Hd. unfold payloads_of, grown. cbn [g_first g_members]. apply take_S_r. by rewrite lookup_drop, list_lookup_fmap, Hd.
Qed.

Lemma concat_same (size : nat) (l : list (list Z)) : Forall (λ p, length p = size) l → length (concat l) = (length l * size)%nat.
Proof. induction 1 as [|p l Hp _ IH]; [done|]. cbn [concat length]. rewrite length_app, Hp, IH. lia. Qed.

(** Datagrams of one size, and one more that is not larger. *)
Lemma shaped_snoc size l p : (1 ≤ length l)%nat → Forall (λ q, length q = size) l → (0 < length p ≤ size)%nat →
  (length l * size + length p ≤ kSegmentLimit)%nat → shaped (l ++ [p]).
Proof.
  intros Hne Hl Hp Hlim. right. destruct l as [|first parts]; [cbn in Hne; lia|]. pose proof (concat_same _ _ Hl) as Hlen.
  apply Forall_cons_1 in Hl as [Hf Hl]. exists first, parts, p. split; [done|]. rewrite Hf. split; [done|]. split; [done|].
  rewrite concat_app, length_app, Hlen. cbn [concat]. by rewrite app_nil_r.
Qed.

(** A datagram that joins the last group. *)
Lemma group_extend gso index d g : grouped index g → batch !! index = Some d → extends gso batch g d = true →
  grouped (S index) (group_step gso family batch index d g).
Proof.
  intros [Hi Hs Hb Hc Ho] Hd He. pose proof (lookup_lt_Some _ _ _ Hd) as Hlt. unfold group_step. rewrite He. unfold extends in He.
  destruct (last (groups g)) as [group'|] eqn:El; [|done]. destruct (group_closed g) eqn:Ecl; [by destruct gso|].
  destruct (Ho eq_refl) as (gs & group & Eg & Hidx & Hm & Hsame & Hbytes & e & Hdest & Haddr).
  rewrite Eg, last_snoc in El. injection El as <-. unfold grow_last. rewrite Eg in *. rewrite last_snoc, removelast_last. fold (grown group).
  rewrite !andb_true_iff, !Nat.leb_le, !Nat.ltb_lt, bool_decide_eq_true, Hdest in He. destruct He as ((((((_ & _) & Hde) & Hsz) & _) & Hlim) & Hpos).
  injection Hde as Hde. apply Forall_app in Hs as [Hs1 Hs2]. apply Forall_cons_1 in Hs2 as [[_ Hml] _].
  pose proof (payloads_grown group index d Hidx Hd) as Hgrown.
  split; cbn [groups segment group_bytes group_closed].
  - lia.
  - apply Forall_app_2; [done|]. apply Forall_cons_2; [|constructor]. rewrite Hgrown. split.
    + apply (shaped_snoc (segment g)); [by rewrite <- Hml|done|lia|]. rewrite <- Hml. lia.
    + rewrite length_app, <- Hml. cbn. lia.
  - intros k. specialize (Hb k). unfold begins in *. destruct (decide (k < length gs)%nat).
    + rewrite lookup_app_l in * by done. destruct (gs !! k); lia.
    + destruct (decide (k = length gs)) as [->|Hne]; [rewrite list_lookup_middle by done; cbn; lia|].
      rewrite lookup_ge_None_2; [done|]. rewrite length_app. cbn. lia.
  - apply covers_snoc.
    + intros k Hk. specialize (Hc k ltac:(rewrite length_app; lia)). by rewrite begins_snoc, take_app_le in Hc by done.
    + pose proof (Hc (length gs) ltac:(rewrite length_app; lia)) as H1. pose proof (Hc (length (gs ++ [group])) ltac:(done)) as H2.
      rewrite begins_snoc, take_app_le, firstn_all in H1 by done. unfold begins in H1, H2. rewrite lookup_ge_None_2 in H1, H2 by done.
      rewrite firstn_all, fmap_app, concat_app in H2. rewrite (due_snoc index d Hd), H2, Hde, Haddr. cbn [grown g_first]. rewrite H1.
      cbn [fmap list_fmap concat]. rewrite app_nil_r, <- app_assoc. f_equal. unfold frames_of. by rewrite Hgrown, fmap_app.
  - intros Hnc. destruct (Nat.ltb_spec (length (out_payload d)) (segment g)); [done|].
    exists gs, (grown group). split; [done|]. split; [cbn; lia|]. split; [cbn; lia|]. split.
    + rewrite Hgrown. apply Forall_app_2; [done|]. apply Forall_cons_2; [lia|constructor].
    + split; [cbn [grown g_members]; lia|]. by exists e.
Qed.

Lemma group_step_grouped gso index d g : grouped index g → batch !! index = Some d → grouped (S index) (group_step gso family batch index d g).
Proof.
  intros Hg Hd. destruct (extends gso batch g d) eqn:He; [by apply group_extend|]. unfold group_step. rewrite He.
  destruct (sockaddr_from_endpoint (out_destination d) family) eqn:Ha; [by apply group_new|by eapply group_skip].
Qed.

Lemma group_loop_grouped gso rest : ∀ index g, grouped index g → drop index batch = rest →
  grouped (length batch) (group_loop gso family batch rest index g).
Proof.
  induction rest as [|d rest IH]; intros index g Hg Hr; cbn [group_loop].
  - pose proof (gr_index _ _ Hg). assert (index = length batch) as <-; [|done]. apply (f_equal length) in Hr. rewrite length_drop in Hr. cbn in Hr. lia.
  - assert (batch !! index = Some d) as Hd by (rewrite <- (Nat.add_0_r index), <- lookup_drop, Hr; done).
    apply IH; [by apply group_step_grouped|]. rewrite (drop_S _ _ _ Hd) in Hr. by injection Hr.
Qed.

Lemma grouped_start : grouped 0 (mkGrouping [] 0 0 true).
Proof. split; cbn; [lia|constructor|done| |done]. intros k Hk. by replace k with 0%nat by lia. Qed.

(** The first [n] groups transmits on the wire what is due before the next one. *)
Lemma groups_sent gso n : let l := form_groups gso family batch in
  (n ≤ length l)%nat → (begins l (length batch) n ≤ length batch)%nat ∧
  take n (header_of batch <$> l) ≫= on_the_wire = due (take (begins l (length batch) n) batch).
Proof.
  intros l Hn. destruct (group_loop_grouped gso batch 0 _ grouped_start eq_refl) as [_ Hs Hb Hc _]. fold (form_groups gso family batch) l in Hs, Hb, Hc.
  split; [apply Hb|]. rewrite Hc by done. rewrite <- fmap_take. apply (Forall_take _ n) in Hs. revert Hs.
  generalize (take n l). induction 1 as [|x l' [Hx Hm] _ IH]; [done|]. cbn [fmap list_fmap mbind list_bind concat].
  by rewrite message_frames, IH.
Qed.
End batch.

(** ** The kernel *)

(** [l] was sent; what is to be received did not change. *)
Definition transmits (l : list (Sockaddr * list Z)) (k k' : Kernel) : Prop :=
  recvmmsg_answers k' = recvmmsg_answers k ∧ transmitted k' = transmitted k ++ l.

Lemma transmits_nil k k' : recvmmsg_answers k' = recvmmsg_answers k → transmitted k' = transmitted k → transmits [] k k'.
Proof. intros E1 E2. split; [done|]. by rewrite app_nil_r. Qed.
Lemma transmits_app l m k k' k'' : transmits l k k' → transmits m k' k'' → transmits (l ++ m) k k''.
Proof. intros [E1 E2] [E3 E4]. split; [congruence|]. by rewrite E4, E2, app_assoc. Qed.

(** The parts of the transport that sending leaves alone. *)
Definition same_socket (t t' : UdpTransport) : Prop :=
  udp_family_ t' = udp_family_ t ∧ udp_gro t' = udp_gro t ∧ backlog_ t' = backlog_ t ∧ backlog_next_ t' = backlog_next_ t.

Definition loop_ends (gso : bool) (messages : list Outgoing) (sent : nat) (t : UdpTransport) (k : Kernel)
    (r : UdpTransport * res TransportError Sending_) : Prop :=
  ∃ k', kernel_ r.1 = Some k' ∧ same_socket t r.1 ∧ (length (sendmmsg_answers k') ≤ length (sendmmsg_answers k))%nat ∧
  match r.2 with
  | Ok (sent_groups_ n) => (sent ≤ n ≤ length messages)%nat ∧ transmits (take (n - sent) (drop sent messages) ≫= on_the_wire) k k'
  | Ok start_over => sent = 0%nat ∧ gso = true ∧ udp_gso r.1 = false ∧ transmits [] k k'
  | Fail _ => sent = 0%nat ∧ transmits [] k k'
  | Ub => False
  end.

(** A turn of the loop that sent some messages, then the rest of the loop. *)
Lemma loop_ends_trans gso messages sent sent' t k t' k' r : same_socket t t' → (length (sendmmsg_answers k') ≤ length (sendmmsg_answers k))%nat →
  (sent ≤ sent' ≤ length messages)%nat → transmits (take (sent' - sent) (drop sent messages) ≫= on_the_wire) k k' →
  loop_ends gso messages sent' t' k' r → loop_ends gso messages sent t k r.
Proof.
  intros (S1 & S2 & S3 & S4) Ha Hs Hp (k2 & Hk & (T1 & T2 & T3 & T4) & Ha2 & Hr). exists k2. split; [done|].
  split; [unfold same_socket; split_and!; congruence|]. split; [lia|]. destruct (r.2) as [[n|]|e|]; [| | |done].
  - destruct Hr as [Hn Hr]. split; [lia|]. pose proof (transmits_app _ _ _ _ _ Hp Hr) as Hput.
    replace (n - sent)%nat with ((sent' - sent) + (n - sent'))%nat by lia. rewrite <- take_take_drop, bind_app, drop_drop.
    by replace (sent + (sent' - sent))%nat with sent' by lia.
  - destruct Hr as (-> & ? & ? & Hr). assert (sent = 0%nat) as -> by lia. do 3 (split; [done|]). exact (transmits_app [] _ _ _ _ Hp Hr).
  - destruct Hr as (-> & Hr). assert (sent = 0%nat) as -> by lia. split; [done|]. exact (transmits_app [] _ _ _ _ Hp Hr).
Qed.

(** A turn that ends the loop without sending. *)
Lemma loop_stops gso messages sent t k t' k' r : kernel_ t' = Some k' → same_socket t t' → transmits [] k k' →
  (length (sendmmsg_answers k') ≤ length (sendmmsg_answers k))%nat → (sent ≤ length messages)%nat →
  match r with
  | Ok (sent_groups_ n) => n = sent
  | Ok start_over => sent = 0%nat ∧ gso = true ∧ udp_gso t' = false
  | Fail _ => sent = 0%nat
  | Ub => False
  end → loop_ends gso messages sent t k (t', r).
Proof.
  intros Ht Hsame Hput Hl Hs Hr. exists k'. do 3 (split; [done|]). destruct r as [[n|]|e|]; cbn; [| | |done].
  - subst n. rewrite Nat.sub_diag. split; [lia|done].
  - naive_solver.
  - done.
Qed.

(** Each turn uses an answer or sends a message. *)
Lemma sendmmsg_loop_spec gso messages fuel : ∀ sent t k, kernel_ t = Some k → (sent ≤ length messages)%nat →
  (length messages - sent + length (sendmmsg_answers k) < fuel)%nat → loop_ends gso messages sent t k (sendmmsg_loop fuel gso messages sent t).
Proof.
  induction fuel as [|fuel IH]; intros sent t k Hk Hs Hf; [lia|]. cbn [sendmmsg_loop].
  assert (transmits [] k k) as Hkk by by apply transmits_nil.
  destruct (Nat.leb_spec (length messages) sent); [by apply (loop_stops _ _ _ _ _ _ k)|].
  unfold sbind, sendmmsg, kernel_sendmmsg. rewrite Hk. destruct (sendmmsg_answers k) as [|[n|e] rest] eqn:Ea.
  - destruct (Nat.ltb_spec 0 sent); apply (loop_stops _ _ _ _ _ _ k); (done || lia).
  - set (m := Nat.min n _). set (k1 := mkKernel _ _ _).
    assert (m ≤ length messages - sent)%nat as Hm by (unfold m; rewrite length_drop; lia).
    assert (transmits (take m (drop sent messages) ≫= on_the_wire) k k1) as Hput by done.
    assert (length (sendmmsg_answers k1) ≤ length (sendmmsg_answers k))%nat as Hl by (rewrite Ea; cbn; lia).
    destruct (Nat.eqb_spec m 0) as [E|Hpos]; [rewrite E in Hput; by apply (loop_stops _ _ _ _ _ _ k1)|].
    unfold modify. set (t1 := with_udp_stats _ _). apply (loop_ends_trans _ _ _ (sent + m) t k t1 k1); [done|done|lia| |].
    + by replace (sent + m - sent)%nat with m by lia.
    + apply IH; [done|lia|]. cbn in *. lia.
  - set (k1 := mkKernel _ _ _). assert (transmits [] k k1) as Hput by by apply transmits_nil.
    assert (length (sendmmsg_answers k1) ≤ length (sendmmsg_answers k))%nat as Hl by (rewrite Ea; cbn; lia).
    destruct e.
    + apply (loop_ends_trans _ _ _ sent t k (with_kernel k1 t) k1); [done|done|lia|by rewrite Nat.sub_diag|]. apply IH; [done|lia|]. cbn in *. lia.
    + destruct gso; [destruct (Nat.eqb_spec sent 0); by apply (loop_stops _ _ _ _ _ _ k1)|].
      destruct (Nat.ltb_spec 0 sent); apply (loop_stops _ _ _ _ _ _ k1); (done || lia).
    + destruct (Nat.ltb_spec 0 sent); apply (loop_stops _ _ _ _ _ _ k1); (done || lia).
    + destruct (Nat.ltb_spec 0 sent); apply (loop_stops _ _ _ _ _ _ k1); (done || lia).
Qed.

(** ** A batch *)

(** What a call of [send_batch] with [datagrams] did. *)
Definition batch_sent (datagrams : list OutboundDatagram) (t : UdpTransport) (k : Kernel) (r : UdpTransport * res TransportError nat) : Prop :=
  ∃ k', kernel_ r.1 = Some k' ∧ same_socket t r.1 ∧
  match r.2 with
  | Ok n => (n ≤ length datagrams)%nat ∧ transmits (due (udp_family_ t) (take n datagrams)) k k'
  | Fail _ => transmits [] k k'
  | Ub => False
  end.

Lemma batch_sent_trans datagrams t k t' k' r : same_socket t t' → transmits [] k k' → batch_sent datagrams t' k' r → batch_sent datagrams t k r.
Proof.
  intros (S1 & S2 & S3 & S4) Hp (k2 & Hk & (T1 & T2 & T3 & T4) & Hr). exists k2. split; [done|]. split; [unfold same_socket; split_and!; congruence|].
  destruct (r.2) as [n|e|]; [|exact (transmits_app [] _ _ _ _ Hp Hr)|done].
  destruct Hr as [Hn Hr]. split; [done|]. rewrite <- S1. exact (transmits_app [] _ _ _ _ Hp Hr).
Qed.

(** What [send_groups] did with a batch. *)
Lemma send_groups_spec batch t k : kernel_ t = Some k →
  let r := send_groups batch (form_groups (udp_gso t) (udp_family_ t) batch) t in
  ∃ k', kernel_ r.1 = Some k' ∧ same_socket t r.1 ∧
  match r.2 with
  | Ok (Some n) => (n ≤ length batch)%nat ∧ transmits (due (udp_family_ t) (take n batch)) k k'
  | Ok None => udp_gso t = true ∧ udp_gso r.1 = false ∧ transmits [] k k'
  | Fail _ => transmits [] k k'
  | Ub => False
  end.
Proof.
  intros Hk. pose proof (groups_sent (udp_family_ t) batch (udp_gso t)) as Hsent. cbn beta zeta in Hsent.
  set (l := form_groups _ _ _) in *. clearbody l. unfold send_groups, sbind, state, gets. destruct l as [|g0 gs].
  { exists k. do 2 (split; [done|]). destruct (Hsent 0%nat ltac:(done)) as [Hl Hd]. split; [done|]. change (transmits (due (udp_family_ t) (take (begins [] (length batch) 0) batch)) k k). rewrite <- Hd. by apply transmits_nil. }
  set (l := g0 :: gs) in *. clearbody l. clear g0 gs.
  pose proof (sendmmsg_loop_spec (udp_gso t) (header_of batch <$> l) (S (length (header_of batch <$> l) + answers_of t)) 0 t k Hk) as Hl.
  destruct (sendmmsg_loop _ _ _ _ t) as [t' r]. destruct Hl as (k' & Hk' & Hsame & _ & Hl); [lia|unfold answers_of; rewrite Hk; lia|].
  exists k'. cbn [fst snd] in *. destruct r as [[n|]|e|]; (split; [done|]); (split; [done|]); cbn [snd sret]; [| | |done].
  - destruct Hl as [Hn Hput]. rewrite length_fmap in Hn. destruct (Hsent n ltac:(lia)) as [Hle Hw]. rewrite drop_0, Nat.sub_0_r, Hw in Hput. by split.
  - naive_solver.
  - apply Hl.
Qed.

(** One attempt: the batch is done, or nothing was sent and offload is off. *)
Lemma send_batch_attempt retries datagrams t k : kernel_ t = Some k →
  batch_sent datagrams t k (send_batch_ retries datagrams t) ∨
  ∃ t' k', kernel_ t' = Some k' ∧ same_socket t t' ∧ udp_gso t = true ∧ udp_gso t' = false ∧ transmits [] k k' ∧
    send_batch_ retries datagrams t = match retries with S retries => send_batch_ retries datagrams t' | O => (t', Ub) end.
Proof.
  intros Hk. set (batch := take kDefaultBatchSize datagrams). pose proof (send_groups_spec batch t k Hk) as Hsend. cbn zeta in Hsend.
  assert (send_batch_ retries datagrams t = if (length datagrams =? 0)%nat then (t, Ok 0%nat) else
    match send_groups batch (form_groups (udp_gso t) (udp_family_ t) batch) t with
    | (t', Ok (Some n)) => (t', Ok n)
    | (t', Ok None) => match retries with S retries => send_batch_ retries datagrams t' | O => (t', Ub) end
    | (t', Fail e) => (t', Fail e)
    | (t', Ub) => (t', Ub)
    end) as ->.
  { destruct retries; cbn [send_batch_]; unfold sbind, state, gets, check, sret; rewrite (bool_decide_eq_true_2 (is_Some (kernel_ t))) by (by rewrite Hk); cbn [negb];
      (destruct (_ =? _)%nat; [done|]); fold batch; by destruct (send_groups batch _ t) as [? [[]|?|]]. }
  destruct (length datagrams =? 0)%nat; [left; exists k; do 2 (split; [done|]); split; [cbn; lia|by apply transmits_nil]|].
  destruct (send_groups _ _ t) as [t' r]. destruct Hsend as (k' & Hk' & Hsame & Hr). cbn [fst snd] in *. destruct r as [[n|]|e|]; [| | |done].
  - left. exists k'. do 2 (split; [done|]). destruct Hr as [Hn Hput]. unfold batch in Hn, Hput. rewrite length_take in Hn. rewrite take_take in Hput.
    cbn [snd]. split; [lia|]. by replace (n `min` kDefaultBatchSize)%nat with n in Hput by lia.
  - right. exists t', k'. naive_solver.
  - left. by exists k'.
Qed.

Lemma send_batch_spec datagrams t k : kernel_ t = Some k → batch_sent datagrams t k (send_batch datagrams t).
Proof.
  intros Hk. unfold send_batch. destruct (send_batch_attempt 1 datagrams t k Hk) as [H|(t' & k' & Hk' & Hsame & _ & Hoff & Hput & ->)]; [done|].
  apply (batch_sent_trans _ _ _ t' k'); [done|done|].
  destruct (send_batch_attempt 0 datagrams t' k' Hk') as [H|(? & ? & _ & _ & Hon & _)]; [done|congruence].
Qed.

(** ** Receiving *)

Definition datagrams_of (gro : bool) (m : Message) : list InboundDatagram := (unpack gro m no_traffic).2.
Definition messages_of (k : Kernel) : list Message := recvmmsg_answers k ≫= λ a, match a with Messages l => l | _ => [] end.

(** What a transport has yet to hand out. *)
Definition pending (t : UdpTransport) : list InboundDatagram :=
  drop (backlog_next_ t) (backlog_ t) ++ match kernel_ t with Some k => messages_of k ≫= datagrams_of (udp_gro t) | None => [] end.

Lemma unpack_datagrams gro m s : (unpack gro m s).2 = datagrams_of gro m.
Proof. unfold datagrams_of, unpack. destruct (msg_trunc m); [done|]. by destruct (port_ _ =? 0). Qed.
Lemma unpack_all_datagrams gro l : ∀ s, (unpack_all gro l s).2 = l ≫= datagrams_of gro.
Proof.
  induction l as [|m l IH]; intros s; [done|]. cbn [unpack_all mbind list_bind]. rewrite <- (unpack_datagrams gro m s).
  destruct (unpack gro m s) as [s1 first]. specialize (IH s1). destruct (unpack_all gro l s1). cbn in *. by rewrite IH.
Qed.

Lemma chunks_concat size fuel : (0 < size)%nat → ∀ l, (length l ≤ fuel)%nat → concat (chunks fuel size l) = l.
Proof.
  intros Hs. induction fuel as [|fuel IH]; intros l Hl; [by destruct l; [|cbn in Hl; lia]|]. cbn [chunks]. destruct l as [|x l]; [done|].
  cbn [concat]. rewrite IH; [by rewrite take_drop|]. rewrite length_drop. cbn in *. lia.
Qed.

(** Cutting a message loses no byte of it. *)
Lemma unpack_bytes gro m : msg_trunc m = false → port_ (endpoint_from_sockaddr (msg_source m)) ≠ 0 →
  concat (in_payload <$> datagrams_of gro m) = msg_bytes m.
Proof.
  intros Ht Hp. unfold datagrams_of, unpack. rewrite Ht, (proj2 (Z.eqb_neq _ _) Hp). cbn [snd]. rewrite <- list_fmap_compose.
  unfold compose. cbn. rewrite list_fmap_id. destruct (decide (msg_bytes m = [])) as [->|Hne]; [done|].
  apply chunks_concat; [|done]. unfold message_segment. assert (0 < length (msg_bytes m))%nat by (destruct (msg_bytes m); [done|cbn; lia]).
  destruct gro; [|done]. destruct (msg_segment m) as [z|]; [|done]. destruct (Z.ltb_spec 0 z); lia.
Qed.

(** What a call of [receive_batch] did. *)
Definition batch_received (out_size : nat) (t : UdpTransport) (k : Kernel) (r : UdpTransport * res TransportError (list InboundDatagram)) : Prop :=
  ∃ k', kernel_ r.1 = Some k' ∧ udp_family_ r.1 = udp_family_ t ∧ transmitted k' = transmitted k ∧
  match r.2 with
  | Ok out => (length out ≤ out_size)%nat ∧ out ++ pending r.1 = pending t
  | Fail _ => pending r.1 = pending t
  | Ub => False
  end.

Lemma messages_left count l rest : (take count l ++ (if (length l <=? count)%nat then rest else Messages (drop count l) :: rest) ≫=
  λ a, match a with Messages l => l | _ => [] end) = l ++ rest ≫= λ a, match a with Messages l => l | _ => [] end.
Proof.
  destruct (Nat.leb_spec (length l) count); [by rewrite take_ge|]. cbn [mbind list_bind]. by rewrite app_assoc, take_drop.
Qed.

Lemma receive_batch_spec buffers out_size t k : kernel_ t = Some k → batch_received out_size t k (receive_batch buffers out_size t).
Proof.
  intros Hk. unfold receive_batch, sbind, state, gets, check. rewrite bool_decide_eq_true_2 by (by rewrite Hk). cbn [negb].
  destruct (_ || _); [exists k; do 3 (split; [done|]); split; [cbn; lia|done]|].
  destruct (Nat.ltb_spec (backlog_next_ t) (length (backlog_ t))) as [Hb|Hb].
  { exists k. do 3 (split; [done|]). unfold modify, sret, pending. cbn [fst snd with_backlog backlog_ backlog_next_ kernel_].
    set (l := drop (backlog_next_ t) (backlog_ t)). split; [rewrite length_take; lia|]. rewrite <- drop_drop, app_assoc. fold l. f_equal.
    rewrite length_take. destruct (decide (out_size ≤ length l)%nat); [by rewrite Nat.min_l, take_drop by lia|].
    by rewrite Nat.min_r, take_ge, drop_all, app_nil_r by lia. }
  unfold modify, recvmmsg, kernel_recvmmsg. cbn [with_backlog kernel_]. rewrite Hk.
  assert (pending t = messages_of k ≫= datagrams_of (udp_gro t)) as Hpend by (unfold pending; by rewrite drop_ge, Hk by lia). unfold messages_of in Hpend.
  destruct (recvmmsg_answers k) as [|[l| |] rest] eqn:Ea; cbn [mbind list_bind app] in Hpend.
  - exists k. do 3 (split; [done|]). split; [cbn; lia|]. unfold pending at 1, messages_of. cbn. by rewrite Ea, Hpend.
  - destruct (unpack_all _ _) as [stats datagrams] eqn:Eu. eexists. do 3 (split; [done|]). split; [cbn; rewrite length_take; lia|].
    unfold pending at 1, messages_of. cbn [sret fst snd with_backlog with_udp_stats with_kernel backlog_ backlog_next_ kernel_ recvmmsg_answers udp_gro].
    apply (f_equal snd) in Eu. rewrite unpack_all_datagrams in Eu. cbn [snd] in Eu. rewrite drop_0, app_assoc, take_drop, <- Eu, <- bind_app, Hpend. f_equal.
    apply messages_left.
  - eexists. do 3 (split; [done|]). split; [cbn; lia|]. by rewrite Hpend.
  - eexists. do 3 (split; [done|]). by rewrite Hpend.
Qed.

(** ** [send_segmented] *)

Lemma chunks_length size fuel : (0 < size)%nat → ∀ l, (length l ≤ fuel)%nat → length (chunks fuel size l) = ((length l + size - 1) `div` size)%nat.
Proof.
  intros Hs. induction fuel as [|fuel IH]; intros l Hl; (destruct l as [|x l]; [cbn; by rewrite Nat.div_small by lia|]); [cbn in Hl; lia|].
  cbn [chunks length]. rewrite IH; rewrite length_drop; cbn [length] in *; [|lia].
  destruct (decide (S (length l) ≤ size)%nat).
  - replace (S (length l) - size + size - 1)%nat with (size - 1)%nat by lia. rewrite Nat.div_small by lia.
    replace (S (length l) + size - 1)%nat with (1 * size + length l)%nat by lia. by rewrite Nat.div_add_l, Nat.div_small by lia.
  - replace (S (length l) + size - 1)%nat with (1 * size + (S (length l) - size + size - 1))%nat by lia. rewrite Nat.div_add_l by lia. lia.
Qed.

(** Pieces that [send_pieces] is given are counted as far as they were sent, and
    the loop ends. *)
Lemma send_pieces_returns fuel : ∀ pieces total t k, kernel_ t = Some k → (length pieces < fuel)%nat →
  ∃ k', kernel_ (send_pieces fuel pieces total t).1 = Some k' ∧
  match (send_pieces fuel pieces total t).2 with Ok n => (n ≤ total + length pieces)%nat | Fail _ => True | Ub => False end.
Proof.
  induction fuel as [|fuel IH]; intros pieces total t k Hk Hf; [lia|]. cbn [send_pieces]. destruct pieces as [|p pieces]; [exists k; split; [done|cbn; lia]|].
  set (l := p :: pieces) in *. assert (0 < length l)%nat as Hpos by (cbn; lia). clearbody l. unfold sbind.
  destruct (send_batch_spec (take kDefaultBatchSize l) t k Hk) as (k1 & Hk1 & _ & Hr). destruct (send_batch _ t) as [t1 r]. cbn [fst snd] in *.
  destruct r as [n|e|]; [|by exists k1|done]. destruct Hr as [Hn _]. rewrite length_take in Hn.
  assert (1 ≤ kDefaultBatchSize)%nat by (unfold kDefaultBatchSize; lia).
  destruct (IH (drop kDefaultBatchSize l) (total + n)%nat t1 k1 Hk1) as (k2 & Hk2 & Hres); [rewrite length_drop; lia|].
  exists k2. split; [done|]. destruct (send_pieces _ _ _ t1).2; [|done..]. rewrite length_drop in Hres. lia.
Qed.

(** A payload written in one call is on the wire as its segments, and they are
    what the call counts. *)
Lemma send_segmented_offloaded destination payload size t k address n rest : kernel_ t = Some k → udp_gso t = true → is_u16 (Z.of_nat size) →
  (0 < size < length payload)%nat → sockaddr_from_endpoint destination (udp_family_ t) = Some address → sendmmsg_answers k = Takes (S n) :: rest →
  ∃ t' k', send_segmented destination payload size t = (t', Ok (length (chunks (length payload) size payload))) ∧ kernel_ t' = Some k' ∧
    transmits ((λ b, (address, b)) <$> chunks (length payload) size payload) k k'.
Proof.
  intros Hk Hg Hu Hs Ha Hans. unfold send_segmented, sbind, state, gets, check. rewrite bool_decide_eq_true_2 by (by rewrite Hk). cbn [negb].
  rewrite (proj2 (Nat.eqb_neq (length payload) 0)), (proj2 (Nat.eqb_neq size 0)) by lia. cbn [orb]. rewrite Hg. cbn [negb orb].
  assert (1 < (length payload + size - 1) `div` size)%nat as Hseg by (apply Nat.div_le_lower_bound; lia).
  rewrite (proj2 (Nat.leb_gt _ 1)) by done. rewrite Ha. unfold sendmmsg, kernel_sendmmsg. rewrite Hk, Hans. cbn [length Nat.min].
  rewrite chunks_length by lia. eexists _, _. split; [done|]. split; [done|]. split; [done|]. cbn [transmitted take mbind list_bind]. f_equal.
  unfold on_the_wire. cbn [segment_size vectors to_address concat]. rewrite u16_id, Nat2Z.id by done. rewrite app_nil_r, take_nil. apply app_nil_r.
Qed.

(** ** Any sequence of calls *)

Inductive UdpCall := Sends (l : list OutboundDatagram) | Receives (buffers out_size : nat).

(** What the calls say they did: the datagrams they are done with, the datagrams
    they handed out.  [None]: a call has undefined behaviour. *)
Fixpoint run_calls (calls : list UdpCall) (t : UdpTransport) : option (UdpTransport * list OutboundDatagram * list InboundDatagram) :=
  match calls with
  | [] => Some (t, [], [])
  | Sends l :: calls =>
      let '(t, r) := send_batch l t in
      match r with
      | Ub => None
      | _ => '(t, sent, got) ← run_calls calls t; Some (t, take (default 0%nat (ok_opt r)) l ++ sent, got)
      end
  | Receives buffers out_size :: calls =>
      let '(t, r) := receive_batch buffers out_size t in
      match r with
      | Ub => None
      | _ => '(t, sent, got) ← run_calls calls t; Some (t, sent, default [] (ok_opt r) ++ got)
      end
  end.

Lemma due_app family l l' : due family (l ++ l') = due family l ++ due family l'.
Proof. apply omap_app. Qed.

(** Each datagram starts at most one group. *)
Lemma group_loop_count gso family batch rest : ∀ index g,
  (length (groups (group_loop gso family batch rest index g)) ≤ length (groups g) + length rest)%nat.
Proof.
  induction rest as [|d rest IH]; intros index g; cbn [group_loop length]; [lia|]. etrans; [apply IH|].
  assert (length (groups (group_step gso family batch index d g)) ≤ S (length (groups g)))%nat; [|lia]. unfold group_step.
  destruct (extends gso batch g d); [|destruct (sockaddr_from_endpoint _ _); cbn [groups]; [rewrite length_app; cbn|]; lia].
  cbn [groups]. unfold grow_last. destruct (groups g) as [|x l _] using rev_ind; [cbn; lia|]. rewrite last_snoc, removelast_last, !length_app. cbn. lia.
Qed.

(** A kernel that takes a whole batch at once is given it whole. *)
Lemma send_batch_whole l t k n rest : kernel_ t = Some k → sendmmsg_answers k = Takes n :: rest → (kDefaultBatchSize ≤ n)%nat →
  (send_batch l t).2 = Ok (length l `min` kDefaultBatchSize)%nat.
Proof.
  intros Hk Ha Hn. unfold send_batch. cbn [send_batch_]. unfold sbind, state, gets, check. rewrite bool_decide_eq_true_2 by (by rewrite Hk). cbn [negb].
  destruct (Nat.eqb_spec (length l) 0) as [->|Hne]; [done|]. set (batch := take kDefaultBatchSize l).
  assert (length batch = length l `min` kDefaultBatchSize)%nat as <- by (unfold batch; rewrite length_take; lia).
  assert (length batch ≤ kDefaultBatchSize)%nat as Hb by (unfold batch; rewrite length_take; lia). clearbody batch.
  pose proof (group_loop_count (udp_gso t) (udp_family_ t) batch batch 0 (mkGrouping [] 0 0 true)) as Hg. fold (form_groups (udp_gso t) (udp_family_ t) batch) in Hg.
  cbn [groups length] in Hg. set (gs := form_groups _ _ _) in *. clearbody gs. unfold send_groups, sbind, state, gets. destruct gs as [|g0 gs]; [done|].
  set (m := header_of batch <$> (g0 :: gs)). assert (length m = S (length gs)) as Hm by (unfold m; by rewrite length_fmap). clearbody m.
  cbn [sendmmsg_loop]. rewrite (proj2 (Nat.leb_gt (length m) 0)) by lia. unfold sbind, sendmmsg, kernel_sendmmsg. rewrite Hk, Ha, drop_0, Nat.min_r by (cbn in Hg; lia).
  rewrite (proj2 (Nat.eqb_neq (length m) 0)) by lia. unfold modify. unfold answers_of. rewrite Hk, Ha. rewrite Hm. cbn [Nat.add sendmmsg_loop length].
  rewrite (proj2 (Nat.leb_le _ _)) by lia. cbn [sret fst snd]. by rewrite lookup_ge_None_2 by (cbn; lia).
Qed.

(** C10. On a started UDP transport, any sequence of [send_batch] and
    [receive_batch] calls, under any answers of [sendmmsg] and [recvmmsg], is
    free of undefined behaviour and accounts for every datagram: the kernel has
    sent, one by one and in order, exactly the datagrams the calls report as done
    with, less those whose address the socket's family cannot reach, however they
    were joined for segmentation offload and wherever a partial or failed write
    stopped; and what was handed out, followed by what is pending, is what was
    pending before, so that nothing received is lost, repeated or reordered when
    the caller has less room than the kernel delivers.  A kernel that takes a
    whole batch is given it: [send_batch] then returns the size of the batch. *)
Theorem udp_calls_account (calls : list UdpCall) (t : UdpTransport) (k : Kernel) : kernel_ t = Some k →
  ∃ t' k' sent got, run_calls calls t = Some (t', sent, got) ∧ kernel_ t' = Some k' ∧
    transmitted k' = transmitted k ++ due (udp_family_ t) sent ∧ got ++ pending t' = pending t ∧
    ∀ n rest l, sendmmsg_answers k' = Takes n :: rest → (kDefaultBatchSize ≤ n)%nat → (send_batch l t').2 = Ok (length l `min` kDefaultBatchSize)%nat.
Proof.
  intros Hk0. assert (∃ t' k' sent got, run_calls calls t = Some (t', sent, got) ∧ kernel_ t' = Some k' ∧
    transmitted k' = transmitted k ++ due (udp_family_ t) sent ∧ got ++ pending t' = pending t) as (t' & k' & sent & got & H1 & H2 & H3 & H4).
  2:{ exists t', k', sent, got. do 4 (split; [done|]). intros n rest l. by apply send_batch_whole. }
  revert t k Hk0. induction calls as [|[l|buffers out_size] calls IH]; intros t k Hk; cbn [run_calls].
  - exists t, k, [], []. by rewrite app_nil_r.
  - destruct (send_batch_spec l t k Hk) as (k1 & Hk1 & (Ef & Er & Eb & En) & Hr). destruct (send_batch l t) as [t1 r]. cbn [fst snd] in *.
    assert (pending t1 = pending t) as Hp.
    { unfold pending. rewrite Er, Eb, En, Hk, Hk1. do 2 f_equal. unfold messages_of. f_equal. destruct r; [apply Hr|apply Hr|done]. }
    destruct (IH t1 k1 Hk1) as (t' & k' & sent & got & -> & Hk' & Hsent & Hgot). rewrite Ef in Hsent. destruct r as [n|e|]; [| |done].
    + destruct Hr as [_ [_ Hput]]. exists t', k', (take n l ++ sent), got. cbn. by rewrite due_app, app_assoc, <- Hput, <- Hp.
    + destruct Hr as [_ Hput]. rewrite app_nil_r in Hput. exists t', k', sent, got. cbn. by rewrite <- Hput, <- Hp.
  - destruct (receive_batch_spec buffers out_size t k Hk) as (k1 & Hk1 & Ef & Et & Hr). destruct (receive_batch buffers out_size t) as [t1 r]. cbn [fst snd] in *.
    destruct (IH t1 k1 Hk1) as (t' & k' & sent & got & -> & Hk' & Hsent & Hgot). rewrite Ef, Et in Hsent. destruct r as [out|e|]; [| |done].
    + exists t', k', sent, (out ++ got). cbn. rewrite <- app_assoc, Hgot. naive_solver.
    + exists t', k', sent, got. cbn. rewrite Hgot. naive_solver.
Qed.

Abbreviation udp_peer := (mkEndpoint (mkAddress ipv4 (192 :: 0 :: 2 :: 7 :: replicate 12 0)) 4789).
Abbreviation udp_six := (mkEndpoint (mkAddress ipv6 (replicate 16 1)) 4789).
Abbreviation udp_peer_address := (sockaddr_in [192; 0; 2; 7] 4789).
Abbreviation udp_sample := [mkOutbound udp_peer [1; 2; 3] 0 false false; mkOutbound udp_peer [4; 5; 6] 0 false false; mkOutbound udp_peer [7] 0 false false; mkOutbound udp_six [8] 0 false false;
  mkOutbound udp_peer [9; 10] 0 false false].
Abbreviation udp_kernel := (mkKernel [Takes 1; Refuses SEAGAIN; Takes 256] [Messages [mkMessage udp_peer_address [1; 2; 3; 4; 5] false (Some 2)]] []).
Abbreviation udp_started := (mkUdp (Some udp_kernel) ipv4 true true no_traffic [] 0).
Abbreviation udp_calls := [Sends udp_sample; Receives 8 2; Sends (drop 4 udp_sample); Receives 8 2].

(** The calls of the sample: one group of three datagrams is sent, the second
    call sends the last one; three datagrams come out of one message. *)
Lemma udp_calls_account_witness : ∃ t' k', run_calls udp_calls udp_started =
    Some (t', udp_sample, (λ b, mkInbound udp_peer b) <$> [[1; 2]; [3; 4]; [5]]) ∧ kernel_ t' = Some k' ∧
  transmitted k' = (λ b, (udp_peer_address, b)) <$> [[1; 2; 3]; [4; 5; 6]; [7]; [9; 10]].
Proof.
  destruct (udp_calls_account udp_calls udp_started udp_kernel eq_refl) as (t' & k' & sent & got & Hr & Hk & Ht & _).
  assert (run_calls udp_calls udp_started = Some (t', udp_sample, (λ b, mkInbound udp_peer b) <$> [[1; 2]; [3; 4]; [5]])) as E.
  { revert Hr. vm_compute. intros [= <- <- <-]. done. }
  exists t', k'. split; [exact E|]. split; [exact Hk|]. rewrite Hr in E. injection E as -> _. rewrite Ht. vm_compute. done.
Defined.
