(* ===== verification/Icmp.v ===== *)
(** The tunnel over ICMP echo messages: [src/icmp_transport.cpp].

    A payload is the data of an echo request (from the client) or reply (from
    the server); the identifier tells the tunnel's messages from others.
    [RawKernel] is the system's side of the raw socket: its answers to [sendto],
    what [recvfrom] will return, and the messages it has sent with their
    addresses. *)

From S2P Require Import Prelude Packet Fec Address Worker Offload Tcp Udp.

Definition kIcmpEchoRequest : Z := 8.
Definition kIcmpEchoReply : Z := 0.
Definition kIcmp6EchoRequest : Z := 128.
Definition kIcmp6EchoReply : Z := 129.
Definition kIcmpHeaderSize : nat := 8.
Definition kNorrIcmpId : Z := 0x4E52.
Definition kDefaultDatagramSize : nat := 2048.

(** ** Echo messages *)

Fixpoint sum_words (l : list Z) (sum : Z) : Z :=
  match l with
  | a :: b :: l => sum_words l (u32 (sum + Z.lor (u32 (Z.shiftl a 8)) b))
  | [a] => u32 (sum + u32 (Z.shiftl a 8))
  | [] => sum
  end.

(** [while (sum >> 16U)]: each round takes off 16 bits, so five rounds are more
    than enough for a 32-bit sum ([fold_words_enough]). *)
Fixpoint fold_words (fuel : nat) (sum : Z) : Z :=
  match fuel with
  | O => sum
  | S fuel => if Z.shiftr sum 16 =? 0 then sum else fold_words fuel (u32 (Z.land sum 0xFFFF + Z.shiftr sum 16))
  end.

Definition icmp_checksum (data : list Z) : Z := Z.land (u32 (Z.lnot (fold_words 5 (sum_words data 0)))) 0xFFFF.

(** The bytes written and their number, 0 when they do not fit. *)
Definition build_icmp_echo {E} (type identifier sequence : Z) (payload out : list Z) : res E (list Z * nat) :=
  let total := (kIcmpHeaderSize + length payload)%nat in
  if (length out <? total)%nat then Ok (out, 0%nat) else
  let* out := wr out 0 type in
  let* out := wr out 1 0 in
  let* out := wr out 2 0 in
  let* out := wr out 3 0 in
  let* out := write_u16 out 4 identifier in
  let* out := write_u16 out 6 sequence in
  let* out := blit out kIcmpHeaderSize payload in
  let* front := span_first out total in
  let* out := write_u16 out 2 (icmp_checksum front) in
  Ok (out, total).

Record IcmpEchoView := mkEcho { echo_type : Z; echo_identifier : Z; echo_sequence : Z; echo_payload : list Z }.

Definition parse_icmp_echo (datagram : list Z) (includes_ip_header : bool) : res TransportError IcmpEchoView :=
  let* offset :=
    if includes_ip_header then
      match datagram with
      | [] => Fail TransportError.receive_failed
      | first :: _ =>
          if negb (Z.shiftr first 4 =? 4) then Fail TransportError.receive_failed else
          let ihl := (Z.to_nat (Z.land first 0x0F) * 4)%nat in
          if (length datagram <? ihl)%nat then Fail TransportError.receive_failed else Ok ihl
      end
    else Ok 0%nat in
  let* icmp := subspan_from datagram offset in
  if (length icmp <? kIcmpHeaderSize)%nat then Fail TransportError.receive_failed else
  let* type := rd icmp 0 in
  let* identifier := read_u16 icmp 4 in
  let* sequence := read_u16 icmp 6 in
  let* payload := subspan_from icmp kIcmpHeaderSize in
  Ok (mkEcho type identifier sequence payload).

(** ** The raw socket *)

Inductive Recvfrom := Arrives (from bytes : list Z) | ReadInterrupted | ReadEmpty | ReadBroken.

Record RawKernel := mkRawKernel {
  sendto_answers : list (option SendError);
  recvfrom_answers : list Recvfrom;
  echoes_sent : list (list Z * list Z);
}.

(** What one sent or received datagram adds to the counters. *)
Definition count_tx_datagram (bytes : nat) (s : TransportStats) : TransportStats :=
  mkTransportStats (rx_packets s) (u64 (tx_packets s + 1)) (rx_bytes s) (u64 (tx_bytes s + Z.of_nat bytes)) (rx_errors s) (tx_errors s)
    (rx_truncated s) (gso_writes s) (gso_segments s).
Definition count_rx_datagram (bytes : nat) (s : TransportStats) : TransportStats :=
  mkTransportStats (u64 (rx_packets s + 1)) (tx_packets s) (u64 (rx_bytes s + Z.of_nat bytes)) (tx_bytes s) (rx_errors s) (tx_errors s)
    (rx_truncated s) (gso_writes s) (gso_segments s).

Module IcmpTransport.

Inductive Role := client | server.
#[export] Instance Role_eq_dec : EqDecision Role.
Proof. solve_decision. Defined.

Record t := mk {
  kernel : option RawKernel;
  role_ : Role;
  family : AddressFamily;
  echo_request_only_ : bool;
  identifier_ : Z;
  sequence_ : Z;
  stats : TransportStats;
  scratch_ : list Z;
}.
Definition new_icmp : t := mk None client ipv4 false kNorrIcmpId 0 no_traffic [].

Definition with_kernel (k : RawKernel) (i : t) : t :=
  mk (Some k) (role_ i) (family i) (echo_request_only_ i) (identifier_ i) (sequence_ i) (stats i) (scratch_ i).
Definition with_stats (f : TransportStats → TransportStats) (i : t) : t :=
  mk (kernel i) (role_ i) (family i) (echo_request_only_ i) (identifier_ i) (sequence_ i) (f (stats i)) (scratch_ i).
Definition with_scratch (l : list Z) (i : t) : t :=
  mk (kernel i) (role_ i) (family i) (echo_request_only_ i) (identifier_ i) (sequence_ i) (stats i) l.
Definition next_sequence (i : t) : t :=
  mk (kernel i) (role_ i) (family i) (echo_request_only_ i) (identifier_ i) (u16 (sequence_ i + 1)) (stats i) (scratch_ i).

Definition set_identifier (identifier : Z) (i : t) : t :=
  mk (kernel i) (role_ i) (family i) (echo_request_only_ i) identifier (sequence_ i) (stats i) (scratch_ i).
Definition set_echo_request_only (on : bool) (i : t) : t :=
  mk (kernel i) (role_ i) (family i) on (identifier_ i) (sequence_ i) (stats i) (scratch_ i).

Abbreviation icmp := (effect t TransportError).

(** [socket] and [fcntl] answer [made] and [nonblocking]. *)
Definition start (bind_address : Endpoint) (role : Role) (made nonblocking : bool) (fresh : RawKernel) : icmp unit :=
  bind i := state in
  bind _ := check (bool_decide (is_Some (kernel i))) TransportError.already_started in
  bind _ := check (negb made) TransportError.socket_creation_failed in
  bind _ := check (negb nonblocking) TransportError.socket_option_failed in
  modify (λ i, mk (Some fresh) role (family_ (ep_address bind_address)) (echo_request_only_ i) (identifier_ i) (sequence_ i) (stats i)
    (resize (scratch_ i) (kIcmpHeaderSize + kDefaultDatagramSize))).

Definition stop (i : t) : t :=
  mk None (role_ i) (family i) (echo_request_only_ i) (identifier_ i) (sequence_ i) (stats i) (scratch_ i).

Definition set_mark (answer : bool) : icmp unit :=
  bind i := state in
  bind _ := check (negb (bool_decide (is_Some (kernel i)))) TransportError.not_started in
  check (negb answer) TransportError.socket_option_failed.

Definition sends_requests (i : t) : bool := echo_request_only_ i || bool_decide (role_ i = client).
Definition wants_requests (i : t) : bool := echo_request_only_ i || negb (bool_decide (role_ i = client)).
Definition echo_code (f : AddressFamily) (request : bool) : Z :=
  match f with
  | ipv6 => if request then kIcmp6EchoRequest else kIcmp6EchoReply
  | ipv4 => if request then kIcmpEchoRequest else kIcmpEchoReply
  end.

(** The answer of [sendto] ([None]: the message was sent); without one it would
    block. *)
Definition sendto (address frame : list Z) : icmp (option SendError) := λ i,
  match kernel i with
  | None => (i, Ok (Some SEOTHER))
  | Some k =>
      match sendto_answers k with
      | [] => (i, Ok (Some SEAGAIN))
      | None :: rest => (with_kernel (mkRawKernel rest (recvfrom_answers k) (echoes_sent k ++ [(address, frame)])) i, Ok None)
      | Some e :: rest => (with_kernel (mkRawKernel rest (recvfrom_answers k) (echoes_sent k)) i, Ok (Some e))
      end
  end.

(** [build_icmp_echo] into [scratch_], which grows as needed; the number of
    bytes framed.  The kernel computes the checksum of an ICMPv6 message. *)
Definition frame_payload (type : Z) (payload : list Z) : icmp nat :=
  bind i := state in
  let needed := (kIcmpHeaderSize + length payload)%nat in
  let scratch := if (length (scratch_ i) <? needed)%nat then resize (scratch_ i) needed else scratch_ i in
  bind built := lift (build_icmp_echo type (identifier_ i) (sequence_ i) payload scratch) in
  bind _ := modify (λ i, next_sequence (with_scratch built.1 i)) in
  if (built.2 =? 0)%nat then sret 0%nat else
  match family i with
  | ipv4 => sret built.2
  | ipv6 =>
      bind scratch := lift (let* s := wr built.1 2 0 in wr s 3 0) in
      bind _ := modify (with_scratch scratch) in
      sret built.2
  end.

Fixpoint echo_send_loop (type : Z) (datagrams : list OutboundDatagram) (sent : nat) : icmp nat :=
  match datagrams with
  | [] => sret sent
  | d :: rest =>
      bind i := state in
      if negb (bool_decide (family_ (ep_address (out_destination d)) = family i)) then
        bind _ := modify (with_stats count_tx_error) in
        echo_send_loop type rest sent
      else
      bind framed := frame_payload type (out_payload d) in
      if (framed =? 0)%nat then
        bind _ := modify (with_stats count_tx_error) in
        echo_send_loop type rest sent
      else
      bind i := state in
      bind result := sendto (address_bytes (ep_address (out_destination d))) (take framed (scratch_ i)) in
      match result with
      | None =>
          bind _ := modify (with_stats (count_tx_datagram (length (out_payload d)))) in
          echo_send_loop type rest (S sent)
      | Some SEAGAIN => sret sent
      | Some _ =>
          bind _ := modify (with_stats count_tx_error) in
          if (0 <? sent)%nat then sret sent else lift (Fail TransportError.send_failed)
      end
  end.

Definition send_batch (datagrams : list OutboundDatagram) : icmp nat :=
  bind i := state in
  bind _ := check (negb (bool_decide (is_Some (kernel i)))) TransportError.not_started in
  echo_send_loop (echo_code (family i) (sends_requests i)) datagrams 0.

(** [None]: nothing to read, or a failure that was counted. *)
Definition recvfrom (size : nat) : icmp (option (option (list Z * list Z))) := λ i,
  match kernel i with
  | None => (with_stats count_rx_error i, Ok None)
  | Some k =>
      match recvfrom_answers k with
      | [] => (i, Ok None)
      | a :: rest =>
          let i := with_kernel (mkRawKernel (sendto_answers k) rest (echoes_sent k)) i in
          match a with
          | Arrives from bytes => (i, Ok (Some (Some (from, take size bytes))))
          | ReadInterrupted => (i, Ok (Some None))
          | ReadEmpty => (i, Ok None)
          | ReadBroken => (with_stats count_rx_error i, Ok None)
          end
      end
  end.

(** [out]: what was received so far. *)
Fixpoint echo_receive_loop (fuel limit size : nat) (want : Z) (out : list InboundDatagram) : icmp (list InboundDatagram) :=
  match fuel with
  | O => lift Ub
  | S fuel =>
      if (limit <=? length out)%nat then sret out else
      bind got := recvfrom size in
      match got with
      | None => sret out
      | Some None => echo_receive_loop fuel limit size want out
      | Some (Some (from, bytes)) =>
          bind i := state in
          match parse_icmp_echo bytes (bool_decide (family i = ipv4)) with
          | Ok view =>
              if negb (echo_type view =? want) || negb (echo_identifier view =? identifier_ i) then echo_receive_loop fuel limit size want out else
              bind _ := modify (with_stats (count_rx_datagram (length (echo_payload view)))) in
              echo_receive_loop fuel limit size want (out ++ [mkInbound (mkEndpoint (from_bytes (family i) from) 0) (echo_payload view)])
          | Fail _ =>
              bind _ := modify (with_stats count_rx_error) in
              echo_receive_loop fuel limit size want out
          | Ub => lift Ub
          end
      end
  end.

Definition reads_left (i : t) : nat := match kernel i with Some k => length (recvfrom_answers k) | None => 0 end.

(** [buffers], [size]: the number and size of the caller's slots. *)
Definition receive_batch (buffers size out_size : nat) : icmp (list InboundDatagram) :=
  bind i := state in
  bind _ := check (negb (bool_decide (is_Some (kernel i)))) TransportError.not_started in
  if (out_size =? 0)%nat then sret [] else
  echo_receive_loop (S (reads_left i)) (Nat.min out_size buffers) size (echo_code (family i) (wants_requests i)) [].

End IcmpTransport.
