(* ===== verification/IcmpLink.v ===== *)
(** Echo messages carry their payload: what is built is parsed back, with a
    valid checksum, and a batch that one side sends is what the other receives,
    whatever other echo messages arrive in between. *)

From S2P Require Import Prelude Packet Fec Address Worker Offload Tcp Udp Icmp.

Lemma read_u16_at {E} l o v rest : drop o l = be_bytes 2 v ++ rest → is_u16 v → read_u16 (E:=E) l o = Ok v.
Proof.
  intros Hd Hv. cbn [be_bytes app] in Hd. rewrite (read_u16_spec _ _ _ _ _ Hd) by auto with norr. f_equal. by be_fold 2%nat v.
Qed.

(** ** The checksum *)

Lemma sum_words_spec l : ∀ sum, bytes_ok l → 0 ≤ sum → sum + word_sum l < 2 ^ 32 → sum_words l sum = sum + word_sum l.
Proof.
  induction l as [|a|a b l IH] using word_ind; intros sum Hb Hs Hlt; cbn [sum_words word_sum] in *.
  - lia.
  - apply Forall_cons_1 in Hb as [Ha _]. rewrite Z.shiftl_mul_pow2 by lia. unfold is_u8 in Ha. rewrite (u32_id (a * 2 ^ 8)), u32_id by (unfold is_u32; lia). lia.
  - apply Forall_cons_1 in Hb as [Ha [Hb Hl]%Forall_cons_1]. pose proof (word_sum_bound l Hl) as Hw. rewrite be_value_2 in *.
    unfold is_u8 in *. assert (u32 (sum + Z.lor (u32 (Z.shiftl a 8)) b) = sum + (a * 256 + b)) as ->; [|rewrite IH; [lia|done|lia|lia]].
    rewrite (u32_id (Z.shiftl a 8)) by (rewrite Z.shiftl_mul_pow2 by lia; unfold is_u32; lia).
    rewrite lor_shiftl_add by lia. rewrite u32_id; [lia|]. unfold is_u32. lia.
Qed.

Lemma fold_words_fold n : ∀ s, 0 ≤ s < 2 ^ 32 → fold_words n s = fold_loop n s.
Proof.
  induction n as [|n IH]; intros s Hs; [done|]. cbn [fold_words fold_loop]. destruct (_ =? 0); [done|].
  change 0xFFFF with (Z.ones 16). rewrite Z.land_ones, shiftr_div by lia. pose proof (Z.mod_pos_bound s (2 ^ 16)).
  pose proof (Z.div_pos s (2 ^ 16)). pose proof (Z.div_lt_upper_bound s (2 ^ 16) (2 ^ 16)).
  rewrite u32_id, u64_id by (unfold is_u32, is_u64; lia). apply IH. lia.
Qed.

Lemma fold_words_enough s : 0 ≤ s < 2 ^ 32 → fold_words 5 s = fold_checksum s.
Proof.
  intros Hs. rewrite fold_words_fold by done. unfold fold_checksum. rewrite u16_id; [done|]. unfold is_u16. apply fold_loop_enough. lia.
Qed.

Lemma folded_spec l : bytes_ok l → word_sum l < 2 ^ 32 → fold_words 5 (sum_words l 0) = fold_checksum (word_sum l).
Proof. intros Hb Hl. pose proof (word_sum_bound l Hb). by rewrite sum_words_spec, Z.add_0_l, fold_words_enough by (lia || done). Qed.

Lemma icmp_checksum_spec l : bytes_ok l → word_sum l < 2 ^ 32 → icmp_checksum l = u16 (Z.lnot (fold_checksum (word_sum l))).
Proof.
  intros Hb Hl. unfold icmp_checksum. rewrite folded_spec by done. change 0xFFFF with (Z.ones 16). rewrite Z.land_ones by lia. unfold u32, u16.
  rewrite <- Znumtheory.Zmod_div_mod; [done|lia|lia|]. by exists (2 ^ 16).
Qed.

(** A message with a checksum field at an even place: the complement of the sum
    over the blank field completes the sum to all ones. *)
Lemma checksum_completes pre post v : Nat.Even (length pre) → bytes_ok pre → bytes_ok post → blen pre + blen post < 2 ^ 16 - 2 →
  v = u16 (Z.lnot (fold_checksum (word_sum (pre ++ be_bytes 2 0 ++ post)))) →
  word_sum (pre ++ be_bytes 2 v ++ post) < 2 ^ 32 ∧ fold_checksum (word_sum (pre ++ be_bytes 2 v ++ post)) = 65535.
Proof.
  intros He Hpre Hpost Hl Hv. assert (∀ x, bytes_ok (pre ++ be_bytes 2 x ++ post)) as Hb by (intros x; rewrite !bytes_ok_app; auto with norr).
  assert (∀ x, 0 ≤ word_sum (pre ++ be_bytes 2 x ++ post) < 2 ^ 32) as Hw.
  { intros x. pose proof (word_sum_bound _ (Hb x)) as Hx. unfold blen in *. rewrite !length_app, length_be_bytes in Hx. lia. }
  destruct (complement_completes (word_sum (pre ++ be_bytes 2 0 ++ post)) v) as [Hv16 Hone]; [pose proof (Hw 0); lia|by left|].
  assert (word_sum (pre ++ be_bytes 2 v ++ post) = word_sum (pre ++ be_bytes 2 0 ++ post) + v) as ->.
  { rewrite !word_sum_app by (done || exists 1%nat; done). pose proof (be_value_u16_bytes v Hv16) as E. cbn [be_bytes word_sum] in *. rewrite E.
    change (be_value [u8 (Z.shiftr 0 (Z.of_nat 1 * 8)); u8 (Z.shiftr 0 (Z.of_nat 0 * 8))]) with 0. lia. }
  pose proof (Hw 0). unfold is_u16 in Hv16. rewrite u64_id in Hone by (unfold is_u64; lia). split; [|done].
  pose proof (Hw v) as Hwv. rewrite !word_sum_app in Hwv |- * by (done || exists 1%nat; done).
  pose proof (be_value_u16_bytes v Hv16) as E. cbn [be_bytes word_sum] in *. rewrite E in Hwv.
  change (be_value [u8 (Z.shiftr 0 (Z.of_nat 1 * 8)); u8 (Z.shiftr 0 (Z.of_nat 0 * 8))]) with 0. lia.
Qed.

(** The same for the checksum itself. *)
Lemma checksum_valid_field pre post : Nat.Even (length pre) → bytes_ok pre → bytes_ok post → blen pre + blen post < 2 ^ 16 - 2 →
  icmp_checksum (pre ++ be_bytes 2 (icmp_checksum (pre ++ be_bytes 2 0 ++ post)) ++ post) = 0.
Proof.
  intros He Hpre Hpost Hl. assert (∀ x, bytes_ok (pre ++ be_bytes 2 x ++ post)) as Hb by (intros x; rewrite !bytes_ok_app; auto with norr).
  assert (word_sum (pre ++ be_bytes 2 0 ++ post) < 2 ^ 32) as Hw.
  { pose proof (word_sum_bound _ (Hb 0)) as Hx. unfold blen in *. rewrite !length_app, length_be_bytes in Hx. lia. }
  destruct (checksum_completes pre post _ He Hpre Hpost Hl (icmp_checksum_spec _ (Hb 0) Hw)) as [Hw2 Hone]. by rewrite icmp_checksum_spec, Hone.
Qed.

(** ** Messages *)

Section echo.
Context (type identifier sequence : Z) (payload : list Z).

Definition echo_blank : list Z := [type; 0; 0; 0] ++ be_bytes 2 identifier ++ be_bytes 2 sequence ++ payload.
(** The echo message, with the checksum field [sum]. *)
Definition echo_with (sum : Z) : list Z := [type; 0] ++ be_bytes 2 sum ++ be_bytes 2 identifier ++ be_bytes 2 sequence ++ payload.

Lemma build_icmp_echo_spec {E} out : (8 + length payload ≤ length out)%nat →
  build_icmp_echo (E:=E) type identifier sequence payload out =
  Ok (echo_with (icmp_checksum echo_blank) ++ drop (8 + length payload) out, (8 + length payload)%nat).
Proof.
  intros Hl. unfold build_icmp_echo, kIcmpHeaderSize. rewrite (proj2 (Nat.ltb_ge _ _)) by done.
  assert (8 ≤ length out)%nat by lia. explode out 8%nat. cbn [length] in Hl.
  do 4 (rewrite wr_spec by (cbn; lia); cbn [rbind take drop app Nat.add]).
  do 2 (rewrite write_u16_spec by (cbn; lia); cbn [rbind take drop app Nat.add be_bytes]).
  rewrite drop_0, blit_put by (cbn [length] in *; lia). unfold put. cbn [rbind take drop app Nat.add].
  unfold span_first. rewrite decide_True by (cbn [length]; rewrite !length_app; cbn [length]; lia). cbn [rbind take app Nat.add].
  rewrite take_0. cbn [app]. rewrite take_app_length. rewrite write_u16_spec by (cbn; lia). cbn [rbind take drop app Nat.add be_bytes].
  unfold echo_with. cbn [app be_bytes]. done.
Qed.

Lemma length_echo_with sum : length (echo_with sum) = (8 + length payload)%nat.
Proof. done. Qed.

Lemma parse_echo sum (header : list Z) (v4 : bool) : is_u16 identifier → is_u16 sequence →
  (if v4 then ∃ b rest, header = b :: rest ∧ Z.shiftr b 4 = 4 ∧ (Z.to_nat (Z.land b 0x0F) * 4)%nat = length header else header = []) →
  parse_icmp_echo (header ++ echo_with sum) v4 = Ok (mkEcho type identifier sequence payload).
Proof.
  intros Hi Hs Hh. unfold parse_icmp_echo.
  set (off := if v4 then _ else _). assert (off = Ok (length header)) as ->.
  { unfold off. destruct v4; [|by subst header]. destruct Hh as (b & rest & -> & Hb & Hlen). cbn [app]. rewrite Hb. cbn [Z.eqb negb Pos.eqb].
    rewrite Hlen, (proj2 (Nat.ltb_ge _ _)); [done|]. cbn [length]. rewrite length_app. lia. }
  cbn [rbind]. unfold subspan_from at 1. rewrite decide_True by (rewrite length_app; lia). cbn [rbind]. rewrite drop_app_length.
  rewrite length_echo_with, (proj2 (Nat.ltb_ge _ _)) by (unfold kIcmpHeaderSize; lia).
  unfold echo_with. cbn [be_bytes app]. rewrite (rd_ok _ 0 type) by done. cbn [rbind].
  erewrite (read_u16_spec _ 4) by (try done; auto with norr). cbn [rbind]. erewrite (read_u16_spec _ 6) by (try done; auto with norr). cbn [rbind].
  unfold subspan_from, kIcmpHeaderSize. rewrite decide_True by (cbn; lia). cbn [rbind drop].
  be_fold 2%nat identifier. be_fold 2%nat sequence. by rewrite drop_0.
Qed.

Lemma echo_with_bytes sum : is_u8 type → bytes_ok payload → bytes_ok (echo_with sum).
Proof.
  intros Ht Hp. unfold echo_with. rewrite !bytes_ok_app. split; [|auto with norr]. apply Forall_cons_2; [done|]. apply Forall_cons_2; [|constructor].
  unfold is_u8. lia.
Qed.

(** The checksum of the message, its own field included, is valid. *)
Lemma echo_checksum_valid : is_u8 type → bytes_ok payload → blen payload < 2 ^ 15 →
  icmp_checksum (echo_with (icmp_checksum echo_blank)) = 0.
Proof.
  intros Ht Hp Hl. set (rest := be_bytes 2 identifier ++ be_bytes 2 sequence ++ payload).
  assert (bytes_ok [type; 0] ∧ bytes_ok rest) as [Hb1 Hb2].
  { split; [apply Forall_cons_2; [done|]; by apply Forall_cons_2|]. unfold rest. rewrite !bytes_ok_app. auto with norr. }
  assert (blen [type; 0] + blen rest < 2 ^ 16 - 2) as Hlen by (unfold rest, blen in *; rewrite !length_app, !length_be_bytes; cbn [length]; lia).
  exact (checksum_valid_field [type; 0] rest ltac:(by exists 1%nat) Hb1 Hb2 Hlen).
Qed.
End echo.

(** ** Sending *)

Section sending.
Import IcmpTransport.

(** The message of one payload; an ICMPv6 checksum is left to the kernel. *)
Definition echo_frame (f : AddressFamily) (type identifier sequence : Z) (payload : list Z) : list Z :=
  echo_with type identifier sequence payload
    (match f with ipv4 => icmp_checksum (echo_blank type identifier sequence payload) | ipv6 => 0 end).

(** The messages of a batch, numbered from [sequence], with their addresses. *)
Fixpoint echo_frames (f : AddressFamily) (type identifier sequence : Z) (l : list OutboundDatagram) : list (list Z * list Z) :=
  match l with
  | [] => []
  | d :: l =>
      (address_bytes (ep_address (out_destination d)), echo_frame f type identifier sequence (out_payload d)) ::
      echo_frames f type identifier (u16 (sequence + 1)) l
  end.

(** The fields that sending leaves alone. *)
Definition same_setup (i i' : t) : Prop :=
  role_ i' = role_ i ∧ family i' = family i ∧ echo_request_only_ i' = echo_request_only_ i ∧ identifier_ i' = identifier_ i.

Lemma same_setup_trans i i' i'' : same_setup i i' → same_setup i' i'' → same_setup i i''.
Proof. unfold same_setup. intros (?&?&?&?) (?&?&?&?). split_and!; congruence. Qed.

Lemma frame_payload_spec type payload i : ∃ i', frame_payload type payload i = (i', Ok (8 + length payload)%nat) ∧
  same_setup i i' ∧ kernel i' = kernel i ∧ sequence_ i' = u16 (sequence_ i + 1) ∧
  take (8 + length payload) (scratch_ i') = echo_frame (family i) type (identifier_ i) (sequence_ i) payload.
Proof.
  unfold frame_payload, sbind, state, gets, lift. set (scratch := if (_ <? _)%nat then _ else _).
  assert (8 + length payload ≤ length scratch)%nat as Hl.
  { unfold scratch, kIcmpHeaderSize. destruct (Nat.ltb_spec (length (scratch_ i)) (8 + length payload)); [|done].
    unfold resize. rewrite length_app, length_take, length_replicate. lia. }
  rewrite build_icmp_echo_spec by done. cbn [fst snd]. unfold modify. rewrite (proj2 (Nat.eqb_neq _ 0)) by lia. destruct (family i) eqn:Ef.
  - eexists. split; [done|]. split; [done|]. split; [done|]. split; [done|]. cbn [next_sequence with_scratch scratch_].
    by rewrite <- (length_echo_with type (identifier_ i) (sequence_ i) payload (icmp_checksum (echo_blank type (identifier_ i) (sequence_ i) payload))), take_app_length.
  - unfold echo_with at 1. cbn [app be_bytes]. rewrite wr_spec by (cbn; lia). cbn [rbind take drop app]. rewrite wr_spec by (cbn; lia). cbn [rbind take drop app].
    eexists. split; [done|]. split; [done|]. split; [done|]. split; [done|]. cbn [with_scratch scratch_ take Nat.add]. rewrite take_app_length. done.
Qed.

Definition reachable (f : AddressFamily) (l : list OutboundDatagram) : list OutboundDatagram :=
  filter (λ d, family_ (ep_address (out_destination d)) = f) l.

(** What sending [l], all of it reachable, does after [sent] messages: some
    first messages go out, all of them when the kernel takes them. *)
Definition echoed (type : Z) (l : list OutboundDatagram) (sent : nat) (i : t) (k : RawKernel) (r : t * res TransportError nat) : Prop :=
  ∃ k' n, kernel r.1 = Some k' ∧ same_setup i r.1 ∧ recvfrom_answers k' = recvfrom_answers k ∧ (n ≤ length l)%nat ∧
    echoes_sent k' = echoes_sent k ++ take n (echo_frames (family i) type (identifier_ i) (sequence_ i) l) ∧
    match r.2 with Ok m => m = (sent + n)%nat | Fail e => sent = 0%nat ∧ n = 0%nat | Ub => False end ∧
    ((length l ≤ length (sendto_answers k))%nat → Forall (.= None) (take (length l) (sendto_answers k)) → r.2 = Ok (sent + length l)%nat).

(** The kernel's first answer ends the call. *)
Lemma echoed_stop type l sent i k i' k' r : l ≠ [] → kernel i' = Some k' → same_setup i i' → recvfrom_answers k' = recvfrom_answers k →
  echoes_sent k' = echoes_sent k → match r with Ok m => m = sent | Fail e => sent = 0%nat | Ub => False end →
  head (sendto_answers k) ≠ Some None → echoed type l sent i k (i', r).
Proof.
  intros Hl Hk Hs Hr He Hm Hh. exists k', 0%nat. cbn [take fst snd]. rewrite app_nil_r. split_and!; try (done || lia).
  - destruct r; [lia|done|done].
  - destruct l as [|d l]; [done|]. destruct (sendto_answers k) as [|[e|] rest]; cbn [length take]; [lia|by intros _ [[=] _]%Forall_cons_1|done].
Qed.

Lemma echo_send_loop_spec type l : ∀ sent i k, kernel i = Some k → echoed type (reachable (family i) l) sent i k (echo_send_loop type l sent i).
Proof.
  induction l as [|d l IH]; intros sent i k Hk; cbn [echo_send_loop].
  { exists k, 0%nat. cbn. rewrite app_nil_r, Nat.add_0_r. by split_and!. }
  unfold sbind at 1, state, gets. unfold reachable. rewrite filter_cons. fold (reachable (family i) l).
  destruct (decide (family_ (ep_address (out_destination d)) = family i)) as [Hd|Hd].
  2:{ rewrite bool_decide_eq_false_2 by done. cbn [negb]. unfold sbind, modify. exact (IH sent (with_stats count_tx_error i) k Hk). }
  rewrite bool_decide_eq_true_2 by done. cbn [negb]. unfold sbind. destruct (frame_payload_spec type (out_payload d) i) as (i1 & -> & Hsame & Hk1 & Hseq & Hframe).
  cbn [Nat.add Nat.eqb]. rewrite Hk in Hk1. unfold sendto. cbn [Nat.add] in Hframe. rewrite Hk1, Hframe. destruct (sendto_answers k) as [|[e|] rest] eqn:Ea.
  - apply (echoed_stop _ _ _ _ _ _ k); rewrite ?Ea; done.
  - set (k1 := mkRawKernel _ _ _). destruct e; try (apply (echoed_stop _ _ _ _ _ _ k1); rewrite ?Ea; done);
      (destruct (Nat.ltb_spec 0 sent); apply (echoed_stop _ _ _ _ _ _ k1); rewrite ?Ea; try done; lia).
  - unfold modify. set (k1 := mkRawKernel _ _ _). set (i2 := with_stats _ _). destruct (IH (S sent) i2 k1 eq_refl) as (k' & n & Hk' & Hs2 & Hr & Hn & He & Hm & Hall).
    assert (family i2 = family i ∧ identifier_ i2 = identifier_ i ∧ sequence_ i2 = u16 (sequence_ i + 1)) as (Ef & Ei & Es) by (unfold same_setup in Hsame; naive_solver).
    rewrite Ef, Ei, Es in He. rewrite Ef in Hn, Hall. exists k', (S n). split_and!; [done|by apply (same_setup_trans _ i2)|done|cbn; lia| | |].
    + cbn [echo_frames take]. rewrite He. unfold k1. cbn [echoes_sent]. by rewrite <- app_assoc.
    + destruct (echo_send_loop _ _ _ _).2; [lia|lia|done].
    + rewrite Ea. cbn [length take]. intros Hlen [_ Hf]%Forall_cons_1. rewrite Hall; [f_equal; lia|cbn; lia|done].
Qed.

(** ** Receiving *)

(** What becomes of an arrival. *)
Definition accept (want : Z) (i : t) (size : nat) (a : Recvfrom) : option InboundDatagram :=
  match a with
  | Arrives from bytes =>
      match parse_icmp_echo (take size bytes) (bool_decide (family i = ipv4)) with
      | Ok view =>
          if (echo_type view =? want) && (echo_identifier view =? identifier_ i)
          then Some (mkInbound (mkEndpoint (from_bytes (family i) from) 0) (echo_payload view)) else None
      | _ => None
      end
  | _ => None
  end.

Lemma parse_icmp_echo_total bytes v4 : parse_icmp_echo bytes v4 ≠ Ub.
Proof.
  unfold parse_icmp_echo. set (off := if v4 then _ else _).
  assert (match off with Ok n => (n ≤ length bytes)%nat | Fail _ => True | Ub => False end) as Hoff.
  { unfold off. destruct v4; [|lia]. destruct bytes as [|x bytes]; [done|]. destruct (negb _); [done|]. destruct (Nat.ltb_spec (length (x :: bytes)) (Z.to_nat (Z.land x 15) * 4)); done. }
  clearbody off. destruct off as [n|e|]; [|done..]. cbn [rbind]. unfold subspan_from at 1. rewrite decide_True by done. cbn [rbind]. set (l := drop n bytes).
  unfold kIcmpHeaderSize. destruct (Nat.ltb_spec (length l) 8) as [|Hl]; [done|]. explode l 8%nat. cbn. unfold subspan_from. by rewrite decide_True by (cbn; lia).
Qed.

(** Every arrival until the socket is empty is read, in order, as far as there
    is room. *)
Lemma echo_receive_loop_spec want size limit fuel : ∀ out i k, kernel i = Some k → (length (recvfrom_answers k) < fuel)%nat →
  Forall (λ a, match a with ReadEmpty | ReadBroken => False | _ => True end) (recvfrom_answers k) → (length out ≤ limit)%nat →
  (echo_receive_loop fuel limit size want out i).2 = Ok (take limit (out ++ omap (accept want i size) (recvfrom_answers k))).
Proof.
  induction fuel as [|fuel IH]; intros out i k Hk Hf Ha Ho; [lia|]. cbn [echo_receive_loop].
  destruct (Nat.leb_spec limit (length out)); [assert (limit = length out) as -> by lia; cbn; by rewrite take_app_length|].
  unfold sbind at 1, recvfrom. rewrite Hk. destruct (recvfrom_answers k) as [|a rest]; [cbn; by rewrite app_nil_r, take_ge by lia|].
  apply Forall_cons_1 in Ha as [Ha Hrest]. cbn [length] in Hf. cbn zeta. set (k1 := mkRawKernel _ rest _). destruct a as [from bytes| | |]; [|by rewrite (IH out _ k1) by (done || cbn; lia)|done|done].
  unfold sbind at 1, state, gets. cbn [family with_kernel identifier_]. cbn [omap list_omap]. unfold accept at 1. cbn [family identifier_].
  pose proof (parse_icmp_echo_total (take size bytes) (bool_decide (family i = ipv4))) as Htot.
  destruct (parse_icmp_echo (take size bytes) _) as [view|e|]; [| |done].
  - rewrite <- negb_andb. destruct ((echo_type view =? want) && _); cbn [negb]; [|by rewrite (IH out _ k1) by (done || cbn; lia)].
    unfold sbind, modify. rewrite (IH _ _ k1); [by rewrite <- app_assoc|done|cbn; lia|done|rewrite length_app; cbn; lia].
  - unfold sbind, modify. by rewrite (IH out _ k1) by (done || cbn; lia).
Qed.

(** ** The link *)

Lemma echo_frames_lookup f type identifier l : ∀ sequence n d, is_u16 sequence → l !! n = Some d → ∃ q, is_u16 q ∧
  echo_frames f type identifier sequence l !! n = Some (address_bytes (ep_address (out_destination d)), echo_frame f type identifier q (out_payload d)).
Proof.
  induction l as [|x l IH]; intros sequence n d Hq Hn; [done|]. destruct n as [|n]; cbn in Hn |- *.
  - injection Hn as ->. by exists sequence.
  - apply IH; [|done]. apply u16_range.
Qed.

Lemma length_echo_frames f type identifier l : ∀ sequence, length (echo_frames f type identifier sequence l) = length l.
Proof. induction l as [|x l IH]; intros sequence; cbn; [done|]. by rewrite IH. Qed.

(** What is in front of an echo message that the socket of a family hands over. *)
Definition header_ok (f : AddressFamily) (header : list Z) : Prop :=
  match f with
  | ipv4 => ∃ b rest, header = b :: rest ∧ Z.shiftr b 4 = 4 ∧ (Z.to_nat (Z.land b 0x0F) * 4)%nat = length header
  | ipv6 => header = []
  end.

(** A message on its way: the [n]-th of a batch, or some other echo message. *)
Inductive Travelling :=
| Ours (n : nat) (from header : list Z)
| Noise (type identifier sequence sum : Z) (payload from header : list Z).

Definition arrival (frames : list (list Z)) (tr : Travelling) : Recvfrom :=
  match tr with
  | Ours n from header => Arrives from (header ++ default [] (frames !! n))
  | Noise type identifier sequence sum payload from header => Arrives from (header ++ echo_with type identifier sequence payload sum)
  end.

(** The message exists, and fits in a slot; the others are not the tunnel's. *)
Definition travels (r : t) (l : list OutboundDatagram) (size : nat) (tr : Travelling) : Prop :=
  match tr with
  | Ours n from header => header_ok (family r) header ∧ ∃ d, l !! n = Some d ∧ (length header + (8 + length (out_payload d)) ≤ size)%nat
  | Noise type identifier sequence sum payload from header =>
      header_ok (family r) header ∧ is_u16 identifier ∧ is_u16 sequence ∧ (length header + (8 + length payload) ≤ size)%nat ∧
      (type ≠ echo_code (family r) (wants_requests r) ∨ identifier ≠ identifier_ r)
  end.

Definition payload_of (f : AddressFamily) (l : list OutboundDatagram) (tr : Travelling) : option InboundDatagram :=
  match tr with
  | Ours n from _ => (λ d, mkInbound (mkEndpoint (from_bytes f from) 0) (out_payload d)) <$> l !! n
  | Noise _ _ _ _ _ _ _ => None
  end.

Lemma header_parses f header type identifier sequence payload sum : header_ok f header → is_u16 identifier → is_u16 sequence →
  parse_icmp_echo (header ++ echo_with type identifier sequence payload sum) (bool_decide (f = ipv4)) = Ok (mkEcho type identifier sequence payload).
Proof. intros Hh Hi Hs. apply parse_echo; [done|done|]. by destruct f. Qed.

Lemma arrival_accepted r l size sequence tr : is_u16 (identifier_ r) → is_u16 sequence → travels r l size tr →
  let want := echo_code (family r) (wants_requests r) in
  accept want r size (arrival (echo_frames (family r) want (identifier_ r) sequence l).*2 tr) = payload_of (family r) l tr.
Proof.
  intros Hi Hq Ht want. destruct tr as [n from header|type identifier sequence' sum payload from header]; cbn [arrival accept payload_of].
  - destruct Ht as (Hh & d & Hd & Hsz). destruct (echo_frames_lookup (family r) want (identifier_ r) l sequence n d Hq Hd) as (q & Hqq & E).
    rewrite list_lookup_fmap, E, Hd. cbn [fmap option_fmap option_map default snd]. unfold echo_frame.
    rewrite take_ge by (change (id ?x) with x; rewrite length_app, length_echo_with; done). change (id ?x) with x. rewrite header_parses by done. cbn [echo_type echo_identifier echo_payload]. by rewrite !Z.eqb_refl.
  - destruct Ht as (Hh & Hi' & Hs & Hsz & Hne). rewrite take_ge by (rewrite length_app, length_echo_with; done). rewrite header_parses by done.
    cbn [echo_type echo_identifier]. fold want in Hne. destruct (Z.eqb_spec type want), (Z.eqb_spec identifier (identifier_ r)); (done || naive_solver).
Qed.

(** Two transports that can talk: one sends what the other wants. *)
Definition linked (s r : t) : Prop :=
  family r = family s ∧ identifier_ r = identifier_ s ∧ is_u16 (identifier_ s) ∧ is_u16 (sequence_ s) ∧ sends_requests s = wants_requests r.

Lemma icmp_link s r ks kr l : kernel s = Some ks → kernel r = Some kr → linked s r →
  Forall (λ d, family_ (ep_address (out_destination d)) = family s ∧ bytes_ok (out_payload d) ∧ blen (out_payload d) < 2 ^ 15) l →
  (length l ≤ length (sendto_answers ks))%nat → Forall (.= None) (take (length l) (sendto_answers ks)) →
  ∃ s' ks' frames, send_batch l s = (s', Ok (length l)) ∧ kernel s' = Some ks' ∧ echoes_sent ks' = echoes_sent ks ++ frames ∧
    frames.*1 = (λ d, address_bytes (ep_address (out_destination d))) <$> l ∧
    (family s = ipv4 → Forall (λ f, icmp_checksum f.2 = 0) frames) ∧
    ∀ trs buffers size out_size, recvfrom_answers kr = arrival frames.*2 <$> trs → Forall (travels r l size) trs →
      (receive_batch buffers size out_size r).2 = Ok (take (out_size `min` buffers) (omap (payload_of (family r) l) trs)).
Proof.
  intros Hks Hkr (Ef & Ei & Hi & Hq & Er) Hl Hlen Hans.
  assert (reachable (family s) l = l) as Hre by (clear -Hl; induction Hl as [|d l [Hd _] _ IH]; [done|]; unfold reachable in *; rewrite filter_cons_True by done; by rewrite IH).
  unfold send_batch, sbind, state, gets, check. rewrite bool_decide_eq_true_2 by (by rewrite Hks). cbn [negb]. set (code := echo_code _ _).
  destruct (echo_send_loop_spec code l 0 s ks Hks) as (ks' & n & Hk' & _ & _ & Hn & He & Hm & Hall). rewrite Hre in Hn, He, Hall. specialize (Hall Hlen Hans).
  destruct (echo_send_loop code l 0 s) as [s' res]. cbn [fst snd] in *. subst res. cbn [Nat.add] in Hm. subst n.
  rewrite take_ge in He by (by rewrite length_echo_frames). exists s', ks', (echo_frames (family s) code (identifier_ s) (sequence_ s) l).
  split; [done|]. split; [done|]. split; [done|]. split.
  { clear. generalize (sequence_ s). induction l as [|d l IH]; intros q; cbn; [done|]. by rewrite IH. }
  split.
  { intros E4. rewrite E4. assert (is_u8 code) as Hc by (unfold code; rewrite E4; destruct (sends_requests s); unfold is_u8, echo_code, kIcmpEchoRequest, kIcmpEchoReply; lia). clear -Hl Hc. generalize (sequence_ s).
    induction Hl as [|d l (_ & Hb & Hbl) _ IH]; intros q; cbn; constructor; [|apply IH]. by apply echo_checksum_valid. }
  intros trs buffers size out_size Hrecv Htr. unfold receive_batch, sbind, state, gets, check. rewrite bool_decide_eq_true_2 by (by rewrite Hkr). cbn [negb].
  destruct (Nat.eqb_spec out_size 0) as [->|_]; [done|]. unfold reads_left. rewrite Hkr.
  assert (code = echo_code (family r) (wants_requests r)) as -> by (unfold code; by rewrite Er, Ef).
  rewrite (echo_receive_loop_spec _ _ _ _ [] r kr) by (done || (cbn [length]; lia) || (rewrite Hrecv; apply Forall_fmap, Forall_true; by intros [])).
  rewrite Hrecv. cbn [app]. do 2 f_equal. rewrite <- Ef, <- Ei. clear -Htr Hi Hq Ei. rewrite <- Ei in Hi.
  induction Htr as [|tr trs Ht _ IH]; [done|]. rewrite fmap_cons. cbn [omap list_omap]. by rewrite arrival_accepted, IH.
Qed.
End sending.

(** A destination of the other family is passed over but not counted in the
    result: of the batch [six; four] the second datagram is sent, one is
    reported, and [Worker]'s next call, from the second one on, sends it again. *)
Section sample.
Import IcmpTransport.
Definition icmp_four : OutboundDatagram := mkOutbound (mkEndpoint (from_bytes ipv4 [192; 0; 2; 7]) 0) [1; 2; 3] 0 false false.
Definition icmp_six : OutboundDatagram := mkOutbound (mkEndpoint (from_bytes ipv6 (replicate 16 1)) 0) [4; 5] 0 false false.
Definition icmp_started (answers : list (option SendError)) : t := mk (Some (mkRawKernel answers [] [])) client ipv4 false kNorrIcmpId 0 no_traffic [].

Lemma icmp_skip_resends : let '(i, first) := send_batch [icmp_six; icmp_four] (icmp_started [None; None]) in
  let '(i, second) := send_batch (drop 1 [icmp_six; icmp_four]) i in
  first = Ok 1%nat ∧ second = Ok 1%nat ∧ ((λ k, (λ e, drop kIcmpHeaderSize e.2) <$> echoes_sent k) <$> kernel i) = Some [[1; 2; 3]; [1; 2; 3]].
Proof. by vm_compute. Qed.
End sample.
