(* ===== verification/RawProto.v ===== *)
(** The tunnel directly over IP, disguised as another protocol:
    [src/rawproto_transport.cpp].

    A payload goes behind the header of GRE, ESP, AH, OSPF or IP in IP; a tag in
    the header (and for ESP the SPI) tells the tunnel's packets from others.
    The kernel's side of the socket is that of [Udp]. *)

From S2P Require Import Prelude Packet Fec Address Worker Offload Tcp Udp Icmp.

Inductive RawProto := ipip | gre | esp | ah | ospf.

Definition kIpipProtocol : Z := 4.
Definition kGreProtocol : Z := 47.
Definition kEspProtocol : Z := 50.
Definition kAhProtocol : Z := 51.
Definition kOspfProtocol : Z := 89.

Definition kGreHeaderSize : nat := 8.
Definition kEspHeaderSize : nat := 6.
Definition kAhHeaderSize : nat := 6.
Definition kIpipHeaderSize : nat := 20.
Definition kOspfHeaderSize : nat := 24.

Definition kGreProtocolType : Z := 0x0800.
Definition kGreKeyFlags : Z := 0x2000.
Definition kEspSpi : Z := 0xDEADBEEF.
Definition kIpipInnerProtocol : Z := 253.
Definition kIpipInnerTtl : Z := 64.
Definition kOspfVersion : Z := 2.
Definition kOspfHelloType : Z := 1.
Definition kNorrRawTag : Z := 0x4E52.

Definition internet_checksum (b : list Z) : Z := u16 (Z.lnot (fold_words 5 (sum_words b 0))).

Definition rawproto_envelope_size (proto : RawProto) : nat :=
  match proto with
  | gre => kGreHeaderSize
  | esp => kEspHeaderSize
  | ah => kAhHeaderSize
  | ipip => kIpipHeaderSize
  | ospf => kOspfHeaderSize
  end.

Definition rawproto_number (proto : RawProto) : Z :=
  match proto with gre => kGreProtocol | esp => kEspProtocol | ah => kAhProtocol | ospf => kOspfProtocol | ipip => kIpipProtocol end.

(** [write_u32] of this file: two halves. *)
Definition write_halves {E} (b : list Z) (o : nat) (v : Z) : res E (list Z) :=
  let* b := write_u16 b o (u16 (Z.shiftr v 16)) in
  write_u16 b (o + 2) (u16 (Z.land v 0xFFFF)).
Definition read_halves {E} (b : list Z) (o : nat) : res E Z :=
  let* high := read_u16 b o in
  let* low := read_u16 b (o + 2) in
  Ok (Z.lor (u32 (Z.shiftl high 16)) low).

Module RawProtoTransport.

Inductive Role := client | server.

Record t := mk {
  kernel : option Kernel;
  proto_ : RawProto;
  role_ : Role;
  family : AddressFamily;
  tag_ : Z;
  spi_ : Z;
  stats : TransportStats;
  scratch_ : list Z;
  send_frames_ : list (list Z);
}.
Definition new_raw (proto : RawProto) : t := mk None proto client ipv4 kNorrRawTag kEspSpi no_traffic [] [].

Definition with_kernel (k : Kernel) (r : t) : t :=
  mk (Some k) (proto_ r) (role_ r) (family r) (tag_ r) (spi_ r) (stats r) (scratch_ r) (send_frames_ r).
Definition with_stats (f : TransportStats → TransportStats) (r : t) : t :=
  mk (kernel r) (proto_ r) (role_ r) (family r) (tag_ r) (spi_ r) (f (stats r)) (scratch_ r) (send_frames_ r).
Definition with_frames (l : list (list Z)) (r : t) : t :=
  mk (kernel r) (proto_ r) (role_ r) (family r) (tag_ r) (spi_ r) (stats r) (scratch_ r) l.
Definition set_tag (tag : Z) (r : t) : t :=
  mk (kernel r) (proto_ r) (role_ r) (family r) tag (spi_ r) (stats r) (scratch_ r) (send_frames_ r).
Definition set_spi (spi : Z) (r : t) : t :=
  mk (kernel r) (proto_ r) (role_ r) (family r) (tag_ r) spi (stats r) (scratch_ r) (send_frames_ r).

Abbreviation raw := (effect t TransportError).

Definition frame_matches (r : t) (body : list Z) : res TransportError bool :=
  if (length body <? rawproto_envelope_size (proto_ r))%nat then Ok false else
  match proto_ r with
  | gre =>
      let* flags := read_u16 body 0 in
      if Z.land flags kGreKeyFlags =? 0 then Ok false else
      let* key := read_halves body 4 in
      Ok (key =? tag_ r)
  | esp =>
      let* spi := read_halves body 0 in
      if negb (spi =? spi_ r) then Ok false else
      let* tag := read_u16 body 4 in
      Ok (tag =? tag_ r)
  | ah =>
      let* a := rd body 0 in
      if negb (a =? 0x3B) then Ok false else
      let* b := rd body 1 in
      if negb (b =? 0x04) then Ok false else
      let* c := rd body 2 in
      let* d := rd body 3 in
      if negb (c =? 0) || negb (d =? 0) then Ok false else
      let* tag := read_u16 body 4 in
      Ok (tag =? tag_ r)
  | ospf =>
      let* version := rd body 0 in
      if negb (version =? kOspfVersion) then Ok false else
      let* tag := read_u16 body 6 in
      Ok (tag =? tag_ r)
  | ipip =>
      let* first := rd body 0 in
      if negb (Z.land first 0xF0 =? 0x40) then Ok false else
      let* protocol := rd body 9 in
      if negb (protocol =? kIpipInnerProtocol) then Ok false else
      let* tag := read_u16 body 4 in
      Ok (tag =? tag_ r)
  end.

(** The header of a frame of [total] bytes, written at the start of [out]. *)
Definition write_envelope (r : t) (total : nat) (out : list Z) : res TransportError (list Z) :=
  match proto_ r with
  | gre =>
      let* out := write_u16 out 0 kGreKeyFlags in
      let* out := write_u16 out 2 kGreProtocolType in
      write_halves out 4 (tag_ r)
  | esp =>
      let* out := write_halves out 0 (spi_ r) in
      write_u16 out 4 (tag_ r)
  | ah =>
      let* out := wr out 0 0x3B in
      let* out := wr out 1 0x04 in
      let* out := wr out 2 0 in
      let* out := wr out 3 0 in
      write_u16 out 4 (tag_ r)
  | ospf =>
      let* out := wr out 0 kOspfVersion in
      let* out := wr out 1 kOspfHelloType in
      let* out := write_u16 out 2 (u16 (Z.of_nat total)) in
      let* out := write_u16 out 4 0 in
      let* out := write_u16 out 6 (tag_ r) in
      blit out 8 (replicate (kOspfHeaderSize - 8) 0)
  | ipip =>
      let* out := wr out 0 0x45 in
      let* out := wr out 1 0 in
      let* out := write_u16 out 2 (u16 (Z.of_nat total)) in
      let* out := write_u16 out 4 (tag_ r) in
      let* out := write_u16 out 6 0x4000 in
      let* out := wr out 8 kIpipInnerTtl in
      let* out := wr out 9 kIpipInnerProtocol in
      let* out := write_u16 out 10 0 in
      let* out := blit out 12 (replicate (kIpipHeaderSize - 12) 0) in
      let* header := span_first out kIpipHeaderSize in
      write_u16 out 10 (internet_checksum header)
  end.

Definition build_frame (r : t) (payload out : list Z) : res TransportError (list Z * nat) :=
  let envelope := rawproto_envelope_size (proto_ r) in
  let total := (envelope + length payload)%nat in
  if (length out <? total)%nat then Ok (out, 0%nat) else
  let* out := write_envelope r total out in
  let* out := blit out envelope payload in
  Ok (out, total).

Definition start (bind_address : Endpoint) (role : Role) (made nonblocking : bool) (fresh : Kernel) : raw unit :=
  bind r := state in
  bind _ := check (bool_decide (is_Some (kernel r))) TransportError.already_started in
  bind _ := check (bool_decide (family_ (ep_address bind_address) = ipv6)) TransportError.unsupported_platform in
  bind _ := check (negb made) TransportError.socket_creation_failed in
  bind _ := check (negb nonblocking) TransportError.socket_option_failed in
  modify (λ r, mk (Some fresh) (proto_ r) role ipv4 (tag_ r) (spi_ r) (stats r)
    (resize (scratch_ r) (rawproto_envelope_size (proto_ r) + kDefaultDatagramSize)) (send_frames_ r)).

Definition stop (r : t) : t := mk None (proto_ r) (role_ r) (family r) (tag_ r) (spi_ r) (stats r) (scratch_ r) (send_frames_ r).

Definition set_mark (answer : bool) : raw unit :=
  bind r := state in
  bind _ := check (negb (bool_decide (is_Some (kernel r)))) TransportError.not_started in
  check (negb answer) TransportError.socket_option_failed.

(** *** Sending *)

(** The frames prepared so far: their messages, and the bytes of their payloads. *)
Record Prepared := mkPrepared { send_msgs_ : list Outgoing; prepared_bytes : nat }.

Fixpoint prepare (datagrams : list OutboundDatagram) (p : Prepared) : raw Prepared :=
  match datagrams with
  | [] => sret p
  | d :: rest =>
      if negb (bool_decide (family_ (ep_address (out_destination d)) = ipv4)) then
        bind _ := modify (with_stats count_tx_error) in
        prepare rest p
      else
      bind r := state in
      match send_frames_ r !! length (send_msgs_ p) with
      | None => lift Ub
      | Some frame =>
          let needed := (rawproto_envelope_size (proto_ r) + length (out_payload d))%nat in
          let frame := if (length frame <? needed)%nat then resize frame needed else frame in
          bind framed := lift (build_frame r (out_payload d) frame) in
          bind _ := modify (λ r, with_frames (<[length (send_msgs_ p) := framed.1]> (send_frames_ r)) r) in
          if (framed.2 =? 0)%nat then
            bind _ := modify (with_stats count_tx_error) in
            prepare rest p
          else
            let message := mkOutgoing (sockaddr_in (address_bytes (ep_address (out_destination d))) 0) [take framed.2 framed.1] None in
            prepare rest (mkPrepared (send_msgs_ p ++ [message]) (prepared_bytes p + length (out_payload d)))
      end
  end.

Definition raw_sendmmsg (messages : list Outgoing) : raw (nat + SendError) := λ r,
  match kernel r with
  | None => (r, Ok (inr SEOTHER))
  | Some k => let '(k, sent) := kernel_sendmmsg messages k in (with_kernel k r, Ok sent)
  end.

Fixpoint raw_send_loop (fuel : nat) (messages : list Outgoing) (sent : nat) : raw nat :=
  match fuel with
  | O => lift Ub
  | S fuel =>
      if (length messages <=? sent)%nat then sret sent else
      bind result := raw_sendmmsg (drop sent messages) in
      match result with
      | inl n => if (n =? 0)%nat then sret sent else raw_send_loop fuel messages (sent + n)
      | inr SEAGAIN | inr SEINTR => sret sent
      | inr _ =>
          bind _ := modify (with_stats count_tx_error) in
          if (0 <? sent)%nat then sret sent else lift (Fail TransportError.send_failed)
      end
  end.

Definition count_batch (packets bytes : nat) (s : TransportStats) : TransportStats :=
  mkTransportStats (rx_packets s) (u64 (tx_packets s + Z.of_nat packets)) (rx_bytes s) (u64 (tx_bytes s + Z.of_nat bytes)) (rx_errors s) (tx_errors s)
    (rx_truncated s) (gso_writes s) (gso_segments s).

Definition send_batch (datagrams : list OutboundDatagram) : raw nat :=
  bind r := state in
  bind _ := check (negb (bool_decide (is_Some (kernel r)))) TransportError.not_started in
  if (length datagrams =? 0)%nat then sret 0%nat else
  bind _ := modify (λ r, with_frames (send_frames_ r ++ replicate (length datagrams - length (send_frames_ r)) []) r) in
  bind p := prepare datagrams (mkPrepared [] 0) in
  if (length (send_msgs_ p) =? 0)%nat then sret 0%nat else
  bind sent := raw_send_loop (S (length (send_msgs_ p))) (send_msgs_ p) 0 in
  bind _ := modify (with_stats (count_batch sent (prepared_bytes p))) in
  sret sent.

(** *** Receiving *)

Definition raw_recvmmsg (count : nat) : raw (option (option (list Message))) := λ r,
  match kernel r with
  | None => (r, Ok (Some None))
  | Some k => let '(k, got) := kernel_recvmmsg count k in (with_kernel k r, Ok got)
  end.

Definition source_octets (s : Sockaddr) : list Z := match s with sockaddr_in octets _ | sockaddr_in6 octets _ => octets | sockaddr_other => [] end.

(** What one message does to the counters, and the datagram in it. *)
Definition raw_unpack (r : t) (m : Message) : res TransportError ((TransportStats → TransportStats) * option InboundDatagram) :=
  let envelope := rawproto_envelope_size (proto_ r) in
  match msg_bytes m with
  | [] => Ok (count_rx_error, None)
  | first :: _ =>
      if negb (Z.shiftr first 4 =? 4) then Ok (count_rx_error, None) else
      let ihl := (Z.to_nat (Z.land first 0x0F) * 4)%nat in
      if (length (msg_bytes m) <? ihl + envelope)%nat then Ok (λ s, s, None) else
      let* body := subspan_from (msg_bytes m) ihl in
      let* matches := frame_matches r body in
      if negb matches then Ok (λ s, s, None) else
      let* payload := subspan_from body envelope in
      Ok (count_rx_datagram (length payload), Some (mkInbound (mkEndpoint (from_bytes ipv4 (source_octets (msg_source m))) 0) payload))
  end.

Fixpoint raw_unpack_all (l : list Message) (out : list InboundDatagram) : raw (list InboundDatagram) :=
  match l with
  | [] => sret out
  | m :: l =>
      bind r := state in
      bind one := lift (raw_unpack r m) in
      bind _ := modify (with_stats one.1) in
      raw_unpack_all l (out ++ match one.2 with Some d => [d] | None => [] end)
  end.

Definition receive_batch (buffers out_size : nat) : raw (list InboundDatagram) :=
  bind r := state in
  bind _ := check (negb (bool_decide (is_Some (kernel r)))) TransportError.not_started in
  let limit := Nat.min out_size buffers in
  if (limit =? 0)%nat then sret [] else
  bind got := raw_recvmmsg limit in
  match got with
  | None => sret []
  | Some None =>
      bind _ := modify (with_stats count_rx_error) in
      lift (Fail TransportError.receive_failed)
  | Some (Some messages) => raw_unpack_all messages []
  end.

End RawProtoTransport.
