(* ===== verification/RawProtoLink.v ===== *)
(** Raw IP frames carry their payload: the header that is built is recognised
    by a transport with the same tag (and SPI) and by no other, and a batch that
    one side sends is what the other receives. *)

From S2P Require Import Prelude Packet Fec Address Worker Offload Tcp Udp Icmp IcmpLink RawProto.
Import RawProtoTransport.

(** ** The envelope *)

Definition halves (v : Z) : list Z := be_bytes 2 (u16 (Z.shiftr v 16)) ++ be_bytes 2 (u16 (Z.land v 0xFFFF)).

Lemma write_halves_spec {E} b o v : (o + 4 ≤ length b)%nat → write_halves (E:=E) b o v = Ok (take o b ++ halves v ++ drop (o + 4) b).
Proof.
  intros Hl. unfold write_halves. rewrite write_u16_spec by lia. cbn [rbind].
  assert (length (take o b) = o) as Ht by (rewrite length_take; lia).
  rewrite write_u16_spec by (rewrite !length_app, Ht, length_be_bytes, length_drop; lia). f_equal. unfold halves.
  rewrite (app_assoc (take o b)), take_app_length', drop_app by (rewrite length_app, Ht, length_be_bytes; lia).
  rewrite (drop_ge (take o b ++ _)) by (rewrite length_app, Ht, length_be_bytes; lia). rewrite !length_app, Ht, length_be_bytes, drop_drop, <- !app_assoc. cbn [app].
  do 4 f_equal. lia.
Qed.

Lemma read_halves_at {E} l o v rest : drop o l = halves v ++ rest → is_u32 v → read_halves (E:=E) l o = Ok v.
Proof.
  intros Hd Hv. unfold halves in Hd. rewrite <- app_assoc in Hd. unfold read_halves, is_u32 in *.
  assert (is_u16 (u16 (Z.shiftr v 16)) ∧ is_u16 (u16 (Z.land v 0xFFFF))) as [H1 H2] by (split; apply u16_range).
  rewrite (read_u16_at _ _ _ _ Hd H1). cbn [rbind]. apply (f_equal (drop 2)) in Hd. rewrite drop_drop in Hd. rewrite drop_app_length' in Hd by done.
  rewrite (read_u16_at _ _ _ _ Hd H2). cbn [rbind]. f_equal. change 0xFFFF with (Z.ones 16). rewrite Z.land_ones, shiftr_div by lia.
  pose proof (Z.div_mod v (2 ^ 16)). pose proof (Z.mod_pos_bound v (2 ^ 16)). pose proof (Z.div_pos v (2 ^ 16)). pose proof (Z.div_lt_upper_bound v (2 ^ 16) (2 ^ 16)).
  rewrite !u16_id by (unfold is_u16; lia). rewrite u32_id by (rewrite Z.shiftl_mul_pow2 by lia; unfold is_u32; lia).
  rewrite lor_shiftl_add by lia. lia.
Qed.

(** The header of a frame of [total] bytes; [sum] is its checksum, where there
    is one. *)
Definition envelope_with (r : t) (total : nat) (sum : Z) : list Z :=
  match proto_ r with
  | gre => be_bytes 2 kGreKeyFlags ++ be_bytes 2 kGreProtocolType ++ halves (tag_ r)
  | esp => halves (spi_ r) ++ be_bytes 2 (tag_ r)
  | ah => [0x3B; 0x04; 0; 0] ++ be_bytes 2 (tag_ r)
  | ospf => [kOspfVersion; kOspfHelloType] ++ be_bytes 2 (u16 (Z.of_nat total)) ++ be_bytes 2 0 ++ be_bytes 2 (tag_ r) ++ replicate 16 0
  | ipip =>
      [0x45; 0] ++ be_bytes 2 (u16 (Z.of_nat total)) ++ be_bytes 2 (tag_ r) ++ be_bytes 2 0x4000 ++ [kIpipInnerTtl; kIpipInnerProtocol] ++
      be_bytes 2 sum ++ replicate 8 0
  end.
Definition envelope (r : t) (total : nat) : list Z := envelope_with r total (internet_checksum (envelope_with r total 0)).

Lemma length_envelope r total sum : length (envelope_with r total sum) = rawproto_envelope_size (proto_ r).
Proof. unfold envelope_with. by destruct (proto_ r). Qed.

(** One write into a buffer whose first bytes are explicit. *)
Ltac write_field :=
  first [rewrite wr_spec by (cbn; lia) | rewrite write_halves_spec by (cbn; lia) | rewrite write_u16_spec by (cbn; lia) | rewrite blit_put by (cbn; lia); unfold put];
  unfold halves; cbn [rbind take drop app Nat.add Nat.sub replicate length be_bytes].

Lemma write_envelope_spec r total out : (rawproto_envelope_size (proto_ r) ≤ length out)%nat →
  write_envelope r total out = Ok (envelope r total ++ drop (rawproto_envelope_size (proto_ r)) out).
Proof.
  unfold write_envelope, envelope, envelope_with. intros Hl. destruct (proto_ r); cbn [rawproto_envelope_size] in *.
  - unfold kIpipHeaderSize in *. explode out 20%nat. do 9 write_field.
    unfold span_first. rewrite decide_True by (cbn; lia). cbn [rbind take]. rewrite !take_0. write_field. done.
  - unfold kGreHeaderSize in *. explode out 8%nat. do 3 write_field. done.
  - unfold kEspHeaderSize in *. explode out 6%nat. do 2 write_field. done.
  - unfold kAhHeaderSize in *. explode out 6%nat. do 5 write_field. done.
  - unfold kOspfHeaderSize in *. explode out 24%nat. do 6 write_field. done.
Qed.

Definition raw_frame (r : t) (payload : list Z) : list Z := envelope r (rawproto_envelope_size (proto_ r) + length payload) ++ payload.

Lemma build_frame_spec r payload out : (rawproto_envelope_size (proto_ r) + length payload ≤ length out)%nat →
  let n := (rawproto_envelope_size (proto_ r) + length payload)%nat in build_frame r payload out = Ok (raw_frame r payload ++ drop n out, n).
Proof.
  intros Hl n. unfold build_frame. rewrite (proj2 (Nat.ltb_ge _ _)) by done. rewrite write_envelope_spec by lia. cbn [rbind]. fold n.
  set (e := envelope r n). assert (length e = rawproto_envelope_size (proto_ r)) as He by apply length_envelope.
  rewrite blit_put by (rewrite length_app, length_drop, He; lia). cbn [rbind]. unfold put, raw_frame. fold n e. rewrite <- He, take_app_length.
  rewrite drop_app, (drop_ge e) by (unfold n; lia). rewrite drop_drop, <- app_assoc. cbn [app]. do 4 f_equal. f_equal. unfold n. lia.
Qed.

(** A frame is recognised exactly by the tag, and the SPI for ESP. *)
Definition same_key (r s : t) : bool := (tag_ s =? tag_ r) && match proto_ s with esp => spi_ s =? spi_ r | _ => true end.

Lemma frame_matches_spec r s total sum payload : proto_ r = proto_ s → is_u16 (tag_ s) → is_u32 (spi_ s) →
  frame_matches r (envelope_with s total sum ++ payload) = Ok (same_key r s).
Proof.
  intros Hp Ht Hs. unfold frame_matches, same_key, envelope_with. rewrite Hp, length_app.
  assert (is_u32 (tag_ s)) as Ht' by (unfold is_u16, is_u32 in *; lia).
  destruct (proto_ s); cbn [rawproto_envelope_size]; rewrite (proj2 (Nat.ltb_ge _ _)) by (unfold kIpipHeaderSize, kGreHeaderSize, kEspHeaderSize, kAhHeaderSize, kOspfHeaderSize; cbn; lia);
    cbn [app].
  - rewrite (rd_ok _ 0 0x45) by done. cbn [rbind]. change (negb (Z.land 0x45 0xF0 =? 0x40)) with false. rewrite (rd_ok _ 9 kIpipInnerProtocol) by done.
    cbn [rbind]. rewrite Z.eqb_refl. cbn [negb]. erewrite (read_u16_at _ 4 (tag_ s)) by done. cbn [rbind]. by rewrite andb_true_r.
  - erewrite (read_u16_at _ 0 kGreKeyFlags) by (done || unfold is_u16; cbn; lia). cbn [rbind]. change (Z.land kGreKeyFlags kGreKeyFlags =? 0) with false. cbn iota.
    erewrite (read_halves_at _ 4 (tag_ s)) by done. cbn [rbind]. by rewrite andb_true_r.
  - erewrite (read_halves_at _ 0 (spi_ s)) by done. cbn [rbind]. destruct (spi_ s =? spi_ r); cbn [negb]; [|by rewrite andb_false_r].
    erewrite (read_u16_at _ 4 (tag_ s)) by done. cbn [rbind]. by rewrite andb_true_r.
  - rewrite (rd_ok _ 0 0x3B), (rd_ok _ 1 0x04), (rd_ok _ 2 0), (rd_ok _ 3 0) by done. cbn [rbind Z.eqb Pos.eqb negb orb].
    erewrite (read_u16_at _ 4 (tag_ s)) by done. cbn [rbind]. by rewrite andb_true_r.
  - rewrite (rd_ok _ 0 kOspfVersion) by done. cbn [rbind]. rewrite Z.eqb_refl. cbn [negb]. erewrite (read_u16_at _ 6 (tag_ s)) by done. cbn [rbind]. by rewrite andb_true_r.
Qed.

(** The header of IP in IP has a valid checksum. *)
Lemma envelope_checksum r total : proto_ r = ipip → internet_checksum (envelope r total) = 0.
Proof.
  intros Hp. assert (∀ l, internet_checksum l = icmp_checksum l) as Hsame.
  { intros l. unfold internet_checksum, icmp_checksum. change 0xFFFF with (Z.ones 16). rewrite Z.land_ones by lia. unfold u32, u16.
    rewrite <- Znumtheory.Zmod_div_mod; [done|lia|lia|]. by exists (2 ^ 16). }
  set (pre := [0x45; 0] ++ be_bytes 2 (u16 (Z.of_nat total)) ++ be_bytes 2 (tag_ r) ++ be_bytes 2 0x4000 ++ [kIpipInnerTtl; kIpipInnerProtocol]).
  assert (∀ sum, envelope_with r total sum = pre ++ be_bytes 2 sum ++ replicate 8 0) as E by (intros sum; unfold envelope_with, pre; rewrite Hp; by rewrite <- !app_assoc).
  unfold envelope. rewrite !E, !Hsame. apply checksum_valid_field; [by exists 5%nat| |by apply Forall_replicate|done].
  unfold pre. rewrite !bytes_ok_app. split_and!; auto with norr; repeat (apply Forall_cons_2; [done|]); constructor.
Qed.

(** ** Sending *)

Definition raw_setup (r r' : t) : Prop := proto_ r' = proto_ r ∧ tag_ r' = tag_ r ∧ spi_ r' = spi_ r.

Lemma raw_setup_trans r r' r'' : raw_setup r r' → raw_setup r' r'' → raw_setup r r''.
Proof. unfold raw_setup. intros (?&?&?) (?&?&?). split_and!; congruence. Qed.

Definition raw_message (r : t) (d : OutboundDatagram) : Outgoing :=
  mkOutgoing (sockaddr_in (address_bytes (ep_address (out_destination d))) 0) [raw_frame r (out_payload d)] None.

Lemma raw_message_same r r' d : raw_setup r r' → raw_message r' d = raw_message r d.
Proof. intros (E1 & E2 & E3). unfold raw_message, raw_frame, envelope, envelope_with. by rewrite E1, E2, E3. Qed.

Definition payload_total (l : list OutboundDatagram) : nat := sum_list_with (λ d, length (out_payload d)) l.

Lemma prepare_spec l : ∀ p r, (length (send_msgs_ p) + length l ≤ length (send_frames_ r))%nat →
  ∃ r', prepare l p r = (r', Ok (mkPrepared (send_msgs_ p ++ (raw_message r <$> reachable ipv4 l)) (prepared_bytes p + payload_total (reachable ipv4 l)))) ∧
    raw_setup r r' ∧ kernel r' = kernel r.
Proof.
  induction l as [|d l IH]; intros p r Hl; cbn [prepare].
  { exists r. destruct p. cbn. by rewrite app_nil_r, Nat.add_0_r. }
  unfold reachable. rewrite filter_cons. fold (reachable ipv4 l). cbn [length] in Hl.
  destruct (decide (family_ (ep_address (out_destination d)) = ipv4)) as [Hd|Hd].
  2:{ rewrite bool_decide_eq_false_2 by done. cbn [negb]. unfold sbind, modify. destruct (IH p (with_stats count_tx_error r)) as (r' & -> & Hs & Hk); [cbn; lia|].
      exists r'. split; [done|]. by split. }
  rewrite bool_decide_eq_true_2 by done. cbn [negb]. unfold sbind at 1, state, gets.
  destruct (lookup_lt_is_Some_2 (send_frames_ r) (length (send_msgs_ p))) as [frame ->]; [lia|]. cbn zeta.
  set (frame' := if (_ <? _)%nat then _ else _). unfold sbind, lift.
  rewrite build_frame_spec by (unfold frame'; destruct (Nat.ltb_spec (length frame) (rawproto_envelope_size (proto_ r) + length (out_payload d))); [unfold resize; rewrite length_app, length_take, length_replicate; lia|done]).
  unfold modify. cbn [fst snd]. rewrite (proj2 (Nat.eqb_neq _ 0)) by (destruct (proto_ r); cbn; unfold kIpipHeaderSize, kGreHeaderSize, kEspHeaderSize, kAhHeaderSize, kOspfHeaderSize; lia).
  set (r1 := with_frames _ _). set (n := (rawproto_envelope_size (proto_ r) + length (out_payload d))%nat).
  assert (take n (raw_frame r (out_payload d) ++ drop n frame') = raw_frame r (out_payload d)) as ->.
  { apply take_app_length'. unfold raw_frame. rewrite length_app. unfold envelope. by rewrite length_envelope. }
  destruct (IH (mkPrepared (send_msgs_ p ++ [raw_message r d]) (prepared_bytes p + length (out_payload d))) r1) as (r' & E & Hs & Hk).
  { cbn [send_msgs_]. rewrite length_app. unfold r1. cbn [with_frames send_frames_ length]. rewrite length_insert. lia. }
  exists r'. split; [|by split]. fold (raw_message r d). rewrite E. cbn [send_msgs_ prepared_bytes fmap list_fmap payload_total sum_list_with]. rewrite <- app_assoc. cbn [app].
  do 3 f_equal. unfold payload_total. lia.
Qed.

(** What the sending loop does after [sent] messages. *)
Definition raw_sent (messages : list Outgoing) (sent : nat) (r : t) (k : Kernel) (x : t * res TransportError nat) : Prop :=
  ∃ k' n, kernel x.1 = Some k' ∧ raw_setup r x.1 ∧ recvmmsg_answers k' = recvmmsg_answers k ∧ (sent ≤ n ≤ length messages)%nat ∧
    transmitted k' = transmitted k ++ (take (n - sent) (drop sent messages) ≫= on_the_wire) ∧
    match x.2 with Ok m => m = n | Fail _ => n = 0%nat | Ub => False end ∧
    (∀ m rest, sendmmsg_answers k = Takes m :: rest → (length messages - sent ≤ m)%nat → x.2 = Ok (length messages)).

Lemma raw_sent_stop messages sent r k r' k' x : kernel r' = Some k' → raw_setup r r' → recvmmsg_answers k' = recvmmsg_answers k →
  transmitted k' = transmitted k → (sent ≤ length messages)%nat → match x with Ok m => m = sent | Fail _ => sent = 0%nat | Ub => False end →
  (∀ m rest, sendmmsg_answers k = Takes m :: rest → (length messages - sent ≤ m)%nat → sent = length messages ∧ x = Ok sent) → raw_sent messages sent r k (r', x).
Proof.
  intros Hk Hs Hr Ht Hle Hx Hm. exists k', sent. rewrite Nat.sub_diag. cbn [take mbind list_bind]. rewrite app_nil_r. split_and!; try (done || lia).
  intros m rest Ea Hlen. destruct (Hm m rest Ea Hlen) as [<- ->]. done.
Qed.

Lemma raw_send_loop_spec messages fuel : ∀ sent r k, kernel r = Some k → (sent ≤ length messages)%nat → (length messages - sent < fuel)%nat →
  raw_sent messages sent r k (raw_send_loop fuel messages sent r).
Proof.
  induction fuel as [|fuel IH]; intros sent r k Hk Hs Hf; [lia|]. cbn [raw_send_loop].
  destruct (Nat.leb_spec (length messages) sent) as [Hd|Hd]; [apply (raw_sent_stop _ _ _ _ _ k); try done; intros; split; [lia|done]|].
  unfold sbind, raw_sendmmsg, kernel_sendmmsg. rewrite Hk. destruct (sendmmsg_answers k) as [|[n|e] rest] eqn:Ea.
  - apply (raw_sent_stop _ _ _ _ _ k); rewrite ?Ea; done.
  - set (m := Nat.min n _). set (k1 := mkKernel _ _ _). assert (m ≤ length messages - sent)%nat as Hm by (unfold m; rewrite length_drop; lia).
    destruct (Nat.eqb_spec m 0) as [E|Hpos].
    { apply (raw_sent_stop _ _ _ _ _ k1); try done; [unfold k1; rewrite E; cbn; by rewrite app_nil_r|].
      intros m' rest' Ea' Hlen. rewrite Ea in Ea'. injection Ea' as <- <-. unfold m in E. rewrite length_drop in E. lia. }
    destruct (IH (sent + m)%nat (with_kernel k1 r) k1 eq_refl ltac:(lia) ltac:(lia)) as (k' & n' & Hk' & Hs' & Hr & Hn & Ht & Hx & _).
    exists k', n'. split; [done|]. split; [done|]. split; [done|]. split; [lia|]. split.
    { rewrite Ht. unfold k1. cbn [transmitted]. rewrite <- app_assoc, <- bind_app. do 2 f_equal. replace (n' - sent)%nat with (m + (n' - (sent + m)))%nat by lia.
      by rewrite <- take_take_drop, drop_drop. }
    split; [done|]. intros m' rest' Ea' Hlen. rewrite Ea in Ea'. injection Ea' as <- <-.
    assert (n' = length messages) as -> by (unfold m in Hn; rewrite length_drop in Hn; lia). destruct (raw_send_loop _ _ _ _).2; [by subst|lia|done].
  - set (k1 := mkKernel _ _ _). destruct e; try (apply (raw_sent_stop _ _ _ _ _ k1); rewrite ?Ea; done);
      (destruct (Nat.ltb_spec 0 sent); apply (raw_sent_stop _ _ _ _ _ k1); rewrite ?Ea; try done; lia).
Qed.

(** What [send_batch] does: some first of the messages that can be sent are on
    the wire, all of them when the kernel takes them at once. *)
Lemma raw_send_batch_spec l r k : kernel r = Some k →
  let messages := raw_message r <$> reachable ipv4 l in raw_sent messages 0 r k (send_batch l r).
Proof.
  intros Hk messages. unfold send_batch, sbind, state, gets, check. rewrite bool_decide_eq_true_2 by (by rewrite Hk). cbn [negb].
  destruct (Nat.eqb_spec (length l) 0) as [El|El].
  { destruct l; [|done]. apply (raw_sent_stop _ _ _ _ _ k); done. }
  unfold modify. set (r1 := with_frames _ r). destruct (prepare_spec l (mkPrepared [] 0) r1) as (r2 & -> & Hs & Hk2).
  { unfold r1. cbn [with_frames send_frames_ send_msgs_]. rewrite length_app, length_replicate. cbn. lia. }
  cbn [send_msgs_ prepared_bytes app]. change (raw_message r1 <$> reachable ipv4 l) with messages.
  destruct (Nat.eqb_spec (length messages) 0) as [Em|Em]; [apply (raw_sent_stop _ _ _ _ _ k); try done; [by rewrite Hk2|lia]|].
  destruct (raw_send_loop_spec messages (S (length messages)) 0 r2 k ltac:(by rewrite Hk2) ltac:(lia) ltac:(lia)) as (k' & n & Hk' & Hs' & Hrest).
  destruct (raw_send_loop _ messages 0 r2) as [r3 x]. cbn [fst snd] in *.
  destruct x as [m|e|]; exists k', n; (split; [done|]); (split; [by apply (raw_setup_trans _ r2)|]); exact Hrest.
Qed.

(** ** Receiving *)

Definition raw_accept (r : t) (m : Message) : option InboundDatagram := match raw_unpack r m with Ok (_, d) => d | _ => None end.

Lemma rd_total {E} l o : (o < length l)%nat → ∃ x, rd (E:=E) l o = Ok x.
Proof. intros Ho. destruct (lookup_lt_is_Some_2 l o Ho) as [x Hx]. exists x. by apply rd_ok. Qed.
Lemma read_u16_total {E} l o : (o + 2 ≤ length l)%nat → ∃ x, read_u16 (E:=E) l o = Ok x.
Proof.
  intros Ho. unfold read_u16. destruct (rd_total (E:=E) l o) as [x ->]; [lia|]. destruct (rd_total (E:=E) l (o + 1)) as [y ->]; [lia|]. by eexists.
Qed.
Lemma read_halves_total {E} l o : (o + 4 ≤ length l)%nat → ∃ x, read_halves (E:=E) l o = Ok x.
Proof.
  intros Ho. unfold read_halves. destruct (read_u16_total (E:=E) l o) as [x ->]; [lia|]. destruct (read_u16_total (E:=E) l (o + 2)) as [y ->]; [lia|]. by eexists.
Qed.

Lemma frame_matches_total r body : (rawproto_envelope_size (proto_ r) ≤ length body)%nat → ∃ b, frame_matches r body = Ok b.
Proof.
  intros Hl. unfold frame_matches. rewrite (proj2 (Nat.ltb_ge _ _)) by done.
  destruct (proto_ r); cbn [rawproto_envelope_size] in Hl; unfold kIpipHeaderSize, kGreHeaderSize, kEspHeaderSize, kAhHeaderSize, kOspfHeaderSize in Hl;
    repeat (first
      [ match goal with |- context [rd body ?o] => destruct (rd_total (E:=TransportError) body o) as [? ->]; [lia|] end
      | match goal with |- context [read_u16 body ?o] => destruct (read_u16_total (E:=TransportError) body o) as [? ->]; [lia|] end
      | match goal with |- context [read_halves body ?o] => destruct (read_halves_total (E:=TransportError) body o) as [? ->]; [lia|] end
      | case_match ]; cbn [rbind]); by eexists.
Qed.

Lemma raw_unpack_total r m : ∃ f, raw_unpack r m = Ok (f, raw_accept r m).
Proof.
  unfold raw_accept, raw_unpack. destruct (msg_bytes m) as [|x l]; [by eexists|]. destruct (negb (Z.shiftr x 4 =? 4)); [by eexists|]. cbn zeta.
  set (b := x :: l). set (ihl := (Z.to_nat _ * 4)%nat). destruct (Nat.ltb_spec (length b) (ihl + rawproto_envelope_size (proto_ r))) as [|Hl]; [by eexists|].
  unfold subspan_from at 1 3. rewrite decide_True by lia. cbn [rbind]. destruct (frame_matches_total r (drop ihl b)) as [y ->]; [rewrite length_drop; lia|]. cbn [rbind].
  destruct (negb y); [by eexists|]. unfold subspan_from. rewrite decide_True by (rewrite length_drop; lia). by eexists.
Qed.

Lemma raw_accept_same r r' m : raw_setup r r' → raw_accept r' m = raw_accept r m.
Proof. intros (E1 & E2 & E3). unfold raw_accept, raw_unpack, frame_matches. by rewrite E1, E2, E3. Qed.

Lemma raw_unpack_all_spec l : ∀ out r, (raw_unpack_all l out r).2 = Ok (out ++ omap (raw_accept r) l).
Proof.
  induction l as [|m l IH]; intros out r; cbn [raw_unpack_all]; [by cbn; rewrite app_nil_r|].
  unfold sbind, state, gets, lift. destruct (raw_unpack_total r m) as [f ->]. unfold modify. cbn [fst snd]. rewrite IH. f_equal. rewrite <- app_assoc. f_equal.
  cbn [omap list_omap]. rewrite (list_omap_ext (raw_accept (with_stats f r)) (raw_accept r) l l) by (apply Forall2_same_length_lookup_2; [done|]; intros i x y Hx Hy; rewrite Hx in Hy; by injection Hy as ->).
  by destruct (raw_accept r m).
Qed.

Lemma raw_receive_spec buffers out_size r k l rest : kernel r = Some k → recvmmsg_answers k = Messages l :: rest →
  (receive_batch buffers out_size r).2 = Ok (omap (raw_accept r) (take (out_size `min` buffers) l)).
Proof.
  intros Hk Ha. unfold receive_batch, sbind, state, gets, check. rewrite bool_decide_eq_true_2 by (by rewrite Hk). cbn [negb].
  destruct (Nat.eqb_spec (out_size `min` buffers) 0) as [->|_]; [done|]. unfold raw_recvmmsg, kernel_recvmmsg. rewrite Hk, Ha. cbn [fst snd].
  rewrite raw_unpack_all_spec. done.
Qed.

(** ** The link *)

(** A packet on its way: the [n]-th frame of a batch, or a frame of another
    transport of the protocol. *)
Inductive Transit :=
| Carried (n : nat) (from header : list Z)
| Stray (other : t) (payload from header : list Z).

Definition packet_of (frames : list (list Z)) (x : Transit) : Message :=
  match x with
  | Carried n from header => mkMessage (sockaddr_in from 0) (header ++ default [] (frames !! n)) false None
  | Stray other payload from header => mkMessage (sockaddr_in from 0) (header ++ raw_frame other payload) false None
  end.

Definition in_transit (r : t) (l : list OutboundDatagram) (x : Transit) : Prop :=
  match x with
  | Carried n from header => header_ok ipv4 header ∧ (n < length l)%nat
  | Stray other payload from header => header_ok ipv4 header ∧ proto_ r = proto_ other ∧ is_u16 (tag_ other) ∧ is_u32 (spi_ other) ∧ same_key r other = false
  end.

Definition datagram_in (l : list OutboundDatagram) (x : Transit) : option InboundDatagram :=
  match x with
  | Carried n from _ => (λ d, mkInbound (mkEndpoint (from_bytes ipv4 from) 0) (out_payload d)) <$> l !! n
  | Stray _ _ _ _ => None
  end.

(** A frame of [s] behind an IP header is accepted by its tag and SPI alone. *)
Lemma raw_accept_frame r s payload from header : header_ok ipv4 header → proto_ r = proto_ s → is_u16 (tag_ s) → is_u32 (spi_ s) →
  raw_accept r (mkMessage (sockaddr_in from 0) (header ++ raw_frame s payload) false None) =
  if same_key r s then Some (mkInbound (mkEndpoint (from_bytes ipv4 from) 0) payload) else None.
Proof.
  intros (b & rest & Eh & Hb & Hlen) Hp Ht Hs. unfold raw_accept, raw_unpack. cbn [msg_bytes msg_source source_octets].
  assert (length (raw_frame s payload) = rawproto_envelope_size (proto_ r) + length payload)%nat as Hf by (unfold raw_frame, envelope; rewrite length_app, length_envelope, Hp; done).
  destruct (header ++ raw_frame s payload) as [|x l] eqn:E; [by rewrite Eh in E|]. assert (x = b) as -> by (rewrite Eh in E; by injection E). rewrite <- E, Hb. cbn [Z.eqb Pos.eqb negb].
  rewrite Hlen, length_app, (proj2 (Nat.ltb_ge _ _)) by lia. unfold subspan_from at 1. rewrite decide_True by (rewrite length_app; lia). cbn [rbind]. rewrite drop_app_length.
  unfold raw_frame at 1, envelope. rewrite frame_matches_spec by done. cbn [rbind]. destruct (same_key r s); cbn [negb]; [|done].
  unfold subspan_from. rewrite decide_True by lia. cbn [rbind]. unfold raw_frame, envelope. by rewrite drop_app_length' by (by rewrite length_envelope, Hp).
Qed.

Lemma reachable_all f l : Forall (λ d, family_ (ep_address (out_destination d)) = f) l → reachable f l = l.
Proof. induction 1 as [|d l Hd _ IH]; [done|]. unfold reachable in *. rewrite filter_cons_True by done. by rewrite IH. Qed.

Lemma messages_wire r l : (raw_message r <$> l) ≫= on_the_wire =
  (λ d, (sockaddr_in (address_bytes (ep_address (out_destination d))) 0, raw_frame r (out_payload d))) <$> l.
Proof. induction l as [|d l IH]; [done|]. rewrite fmap_cons. cbn [mbind list_bind]. rewrite IH. unfold on_the_wire at 1. cbn. by rewrite app_nil_r. Qed.

(** C11. Two raw transports of the same protocol, tag and SPI carry a batch: when
    the kernel takes it, [send_batch] reports all of it, the kernel has one frame
    per datagram for its destination (for IP in IP with a valid header
    checksum), and when these frames arrive behind IPv4 headers of any length,
    in any order and number, with frames of transports of another tag or SPI in
    between, [receive_batch] hands out exactly the payloads of the former, in
    arrival order.  Whatever the kernel answers, [send_batch] has no undefined
    behaviour and what is on the wire are the frames of the first datagrams that
    can be reached over IPv4, as many as it reports. *)
Theorem rawproto_link_delivers (s r : t) (ks kr : Kernel) (l : list OutboundDatagram) : kernel s = Some ks → kernel r = Some kr →
  proto_ r = proto_ s → tag_ r = tag_ s → spi_ r = spi_ s → is_u16 (tag_ s) → is_u32 (spi_ s) →
  (∃ s' ks' n, kernel s' = Some ks' ∧ (n ≤ length (reachable ipv4 l))%nat ∧
    transmitted ks' = transmitted ks ++ ((λ d, (sockaddr_in (address_bytes (ep_address (out_destination d))) 0, raw_frame s (out_payload d))) <$> take n (reachable ipv4 l)) ∧
    (send_batch l s = (s', Ok n) ∨ n = 0%nat ∧ ∃ e, send_batch l s = (s', Fail e)) ∧
    (∀ m rest, sendmmsg_answers ks = Takes m :: rest → (length l ≤ m)%nat → Forall (λ d, family_ (ep_address (out_destination d)) = ipv4) l → n = length l)) ∧
  (proto_ s = ipip → ∀ d, internet_checksum (take kIpipHeaderSize (raw_frame s (out_payload d))) = 0) ∧
  (∀ transits buffers out_size rest, recvmmsg_answers kr = Messages (packet_of ((λ d, raw_frame s (out_payload d)) <$> l) <$> transits) :: rest →
    Forall (in_transit r l) transits →
    (receive_batch buffers out_size r).2 = Ok (omap (datagram_in l) (take (out_size `min` buffers) transits))).
Proof.
  intros Hks Hkr Ep Et Es Ht Hs. split; [|split].
  - destruct (raw_send_batch_spec l s ks Hks) as (k' & n & Hk' & _ & _ & Hn & Hw & Hx & Hall). rewrite length_fmap in Hn. rewrite drop_0, Nat.sub_0_r, <- fmap_take, messages_wire in Hw.
    exists (send_batch l s).1, k', n. split; [done|]. split; [lia|]. split; [done|]. destruct (send_batch l s) as [s' x]. cbn [fst snd] in *. split.
    + destruct x as [m|e|]; [left; by subst|right|done]. split; [done|by eexists].
    + intros m rest Ea Hm H4. rewrite (reachable_all _ _ H4) in Hall. rewrite length_fmap in Hall. rewrite (Hall m rest Ea) in Hx by lia. done.
  - intros Hp d. unfold raw_frame. rewrite take_app_length'; [by apply envelope_checksum|]. unfold envelope. rewrite length_envelope, Hp. done.
  - intros transits buffers out_size rest Ha Htr. rewrite (raw_receive_spec _ _ _ _ _ _ Hkr Ha), <- fmap_take. f_equal. apply (Forall_take _ (out_size `min` buffers)) in Htr.
    revert Htr. generalize (take (out_size `min` buffers) transits). induction 1 as [|x xs Hx _ IH]; [done|]. rewrite fmap_cons. cbn [omap list_omap]. rewrite IH.
    destruct x as [n from header|other payload from header]; cbn [packet_of datagram_in].
    + destruct Hx as [Hh Hn]. destruct (lookup_lt_is_Some_2 l n Hn) as [d Hd]. rewrite list_lookup_fmap, Hd. cbn [fmap option_fmap option_map default].
      change (id ?y) with y. rewrite raw_accept_frame by done. unfold same_key. rewrite Et, Es, !Z.eqb_refl. by destruct (proto_ s).
    + destruct Hx as (Hh & Hp & Ht' & Hs' & Hk). rewrite raw_accept_frame, Hk by done. done.
Qed.

(** A GRE link: the first datagram arrives twice, behind IPv4 headers of 20 and
    24 bytes, with a frame of another tag in between. *)
Section sample.
Import RawProtoTransport.
Definition raw_peer : Endpoint := mkEndpoint (from_bytes ipv4 [192; 0; 2; 7]) 0.
Definition raw_batch : list OutboundDatagram := [mkOutbound raw_peer [1; 2; 3] 0 false false; mkOutbound raw_peer [] 0 false false].
Definition raw_end (tag : Z) (answers : list Sendmmsg) (arrivals : list Recvmmsg) : t :=
  mk (Some (mkKernel answers arrivals [])) gre client ipv4 tag kEspSpi no_traffic [] [].
Definition raw_transits : list Transit :=
  [Carried 0 [192; 0; 2; 1] (0x45 :: replicate 19 0); Stray (raw_end 7 [] []) [9; 9] [192; 0; 2; 9] (0x45 :: replicate 19 0); Carried 0 [192; 0; 2; 1] (0x46 :: replicate 23 0)].
Abbreviation raw_sender := (raw_end kNorrRawTag [Takes 2] []).
Abbreviation raw_receiver := (raw_end kNorrRawTag [] [Messages (packet_of ((λ d, raw_frame raw_sender (out_payload d)) <$> raw_batch) <$> raw_transits)]).

Lemma rawproto_link_delivers_witness : (send_batch raw_batch raw_sender).2 = Ok 2%nat ∧
  (receive_batch 8 8 raw_receiver).2 = Ok ((λ b, mkInbound (mkEndpoint (from_bytes ipv4 [192; 0; 2; 1]) 0) b) <$> [[1; 2; 3]; [1; 2; 3]]).
Proof.
  destruct (rawproto_link_delivers raw_sender raw_receiver (mkKernel [Takes 2] [] []) (mkKernel [] [Messages (packet_of ((λ d, raw_frame raw_sender (out_payload d)) <$> raw_batch) <$> raw_transits)] []) raw_batch
    eq_refl eq_refl eq_refl eq_refl eq_refl ltac:(by split) ltac:(by split)) as (_ & _ & Hr). split; [by vm_compute|].
  rewrite (Hr raw_transits 8%nat 8%nat [] eq_refl); [by vm_compute|].
  assert (∀ b n, Z.shiftr b 4 = 4 → (Z.to_nat (Z.land b 0x0F) * 4)%nat = S n → header_ok ipv4 (b :: replicate n 0)) as Hh.
  { intros b n Hb Hn. exists b, (replicate n 0). cbn [length]. by rewrite length_replicate. }
  constructor; [|constructor; [|constructor; [|by constructor]]]; (split; [by apply Hh|]); [cbn; lia| |cbn; lia]. by split_and!.
Defined.
End sample.
