(* ===== verification/SpoofPacket.v ===== *)
(** Packets with a chosen source address: [src/spooftest.cpp], which builds them
    and the probes that test whether such packets get through, and
    [src/spoof_sender.cpp], which sends them in batches.

    The writers [put_u16] and [put_u32] of the source are [write_u16] and
    [write_u32].  The counter that IP identifiers are made from belongs to the
    process; here the sender holds it. *)

From Stdlib Require Import String.
From S2P Require Import Prelude Packet Fec Nonce Blake2s Crypto Reality Address Routing Worker Offload Tcp Udp Icmp IcmpLink.

(** ** Probes *)

Definition kSpoofDomain : list Z := text "norr-spooftest-v1".
Definition kSpoofProbeSize : nat := 32.

(** Ten bytes behind the domain: the addresses and the sequence number. *)
Definition probe_input {E} (source_be destination_be sequence : Z) : res E (list Z) :=
  let tail := replicate 10 0 in
  let* tail := write_u32 tail 0 source_be in
  let* tail := write_u32 tail 4 destination_be in
  let* tail := write_u16 tail 8 sequence in
  Ok (kSpoofDomain ++ tail).
Definition probe_mac {E} (secret : list Z) (source_be destination_be sequence : Z) : res E (list Z) :=
  let* input := probe_input source_be destination_be sequence in
  Ok (hmac_blake2s secret input).

Definition spoof_probe {E} (secret : list Z) (source_be destination_be sequence : Z) : res E (list Z) :=
  let probe := replicate kSpoofProbeSize 0 in
  let* probe := write_u16 probe 0 sequence in
  let* mac := probe_mac secret source_be destination_be sequence in
  let* front := span_first mac (kSpoofProbeSize - 2) in
  blit probe 2 front.

Definition spoof_probe_sequence {E} (probe : list Z) : res E Z :=
  if (length probe <? 2)%nat then Ok 0 else read_u16 probe 0.

Definition spoof_probe_valid {E} (secret probe : list Z) (source_be destination_be : Z) : res E bool :=
  if negb (length probe =? kSpoofProbeSize)%nat then Ok false else
  let* sequence := spoof_probe_sequence probe in
  let* expected := spoof_probe secret source_be destination_be sequence in
  Ok (constant_time_equal probe expected).

(** ** Packets *)

Definition ip_checksum (header : list Z) : Z := Z.land (u32 (Z.lnot (fold_words 5 (sum_words header 0)))) 0xFFFF.

Definition mixed_id (counter : Z) : Z :=
  let id_mix := u32 (counter * 2654435761) in
  Z.land (Z.lxor id_mix (Z.shiftr id_mix 15)) 0xFFFF.

Definition kIpHeader : nat := 20.
Definition kUdpHeader : nat := 8.

(** The bytes written and their number (0 when they do not fit), and the counter
    afterwards. *)
Definition build_spoofed_udp {E} (source_be destination_be source_port destination_port : Z) (payload out : list Z) (counter : Z)
    : res E (list Z * nat * Z) :=
  let total := (kIpHeader + kUdpHeader + length payload)%nat in
  if (length out <? total)%nat || (0xFFFF <? Z.of_nat total) then Ok (out, 0%nat, counter) else
  let* out := blit out 0 (replicate (kIpHeader + kUdpHeader) 0) in
  let* out := wr out 0 0x45 in
  let* out := wr out 1 0 in
  let* out := write_u16 out 2 (u16 (Z.of_nat total)) in
  let* out := write_u16 out 4 (mixed_id counter) in
  let* out := wr out 6 0x40 in
  let* out := wr out 8 64 in
  let* out := wr out 9 17 in
  let* out := write_u32 out 12 source_be in
  let* out := write_u32 out 16 destination_be in
  let* header := span_first out kIpHeader in
  let* out := write_u16 out 10 (ip_checksum header) in
  let* out := write_u16 out kIpHeader source_port in
  let* out := write_u16 out (kIpHeader + 2) destination_port in
  let* out := write_u16 out (kIpHeader + 4) (u16 (Z.of_nat (kUdpHeader + length payload))) in
  let* out := write_u16 out (kIpHeader + 6) 0 in
  let* out := blit out (kIpHeader + kUdpHeader) payload in
  Ok (out, total, u32 (counter + 1)).

(** ** The sender *)

Inductive SpoofSendError := spoof_unsupported_platform | spoof_socket_failed | spoof_not_open | spoof_build_failed | spoof_send_failed.

Record SpoofDatagram := mkSpoofDatagram {
  sd_source_be : Z;
  sd_destination_be : Z;
  sd_source_port : Z;
  sd_destination_port : Z;
  sd_payload : list Z;
}.

Definition kMaxBatch : nat := 64.
Definition kMaxPacket : nat := 1500.

Record SpoofSender := mkSender {
  sender_kernel : option Kernel;
  sender_scratch : list Z;
  dropped_oversized_ : Z;
  ip_id_counter : Z;
}.
Definition new_sender : SpoofSender := mkSender None [] 0 0x1234.

Abbreviation spoofing := (effect SpoofSender SpoofSendError).

Definition open_sender (made : bool) (fresh : Kernel) : spoofing unit :=
  bind _ := check (negb made) spoof_socket_failed in
  modify (λ s, mkSender (Some fresh) (replicate (kMaxBatch * kMaxPacket) 0) (dropped_oversized_ s) (ip_id_counter s)).

Definition sender_set_mark (answer : bool) : spoofing unit :=
  bind s := state in
  bind _ := check (negb (bool_decide (is_Some (sender_kernel s)))) spoof_not_open in
  check (negb answer) spoof_send_failed.

Definition octets_of (be : Z) : list Z := be_bytes 4 be.

(** The messages of up to 64 datagrams, each in its region of the scratch. *)
Fixpoint prepare_spoofed (datagrams : list SpoofDatagram) (messages : list Outgoing) : spoofing (list Outgoing) :=
  match datagrams with
  | [] => sret messages
  | d :: rest =>
      bind s := state in
      let offset := (length messages * kMaxPacket)%nat in
      bind region := lift (subspan (sender_scratch s) offset kMaxPacket) in
      bind built := lift (build_spoofed_udp (sd_source_be d) (sd_destination_be d) (sd_source_port d) (sd_destination_port d) (sd_payload d) region
        (ip_id_counter s)) in
      let '(region, length_, counter) := built in
      bind _ := modify (λ s, mkSender (sender_kernel s) (put (sender_scratch s) offset region) (dropped_oversized_ s) counter) in
      if (length_ =? 0)%nat then
        bind _ := modify (λ s, mkSender (sender_kernel s) (sender_scratch s) (u64 (dropped_oversized_ s + 1)) (ip_id_counter s)) in
        prepare_spoofed rest messages
      else
        prepare_spoofed rest (messages ++ [mkOutgoing (sockaddr_in (octets_of (sd_destination_be d)) (sd_destination_port d)) [take length_ region] None])
  end.

Definition sender_sendmmsg (messages : list Outgoing) : spoofing (nat + SendError) := λ s,
  match sender_kernel s with
  | None => (s, Ok (inr SEOTHER))
  | Some k => let '(k, r) := kernel_sendmmsg messages k in (mkSender (Some k) (sender_scratch s) (dropped_oversized_ s) (ip_id_counter s), Ok r)
  end.

Fixpoint spoof_batches (fuel : nat) (datagrams : list SpoofDatagram) (sent_total : nat) : spoofing nat :=
  match fuel with
  | O => lift Ub
  | S fuel =>
      if (length datagrams =? 0)%nat then sret sent_total else
      bind messages := prepare_spoofed (take kMaxBatch datagrams) [] in
      if (length messages =? 0)%nat then spoof_batches fuel (drop kMaxBatch datagrams) sent_total else
      bind result := sender_sendmmsg messages in
      match result with
      | inl n => spoof_batches fuel (drop kMaxBatch datagrams) (sent_total + n)
      | inr SEAGAIN => sret sent_total
      | inr _ => lift (Fail spoof_send_failed)
      end
  end.

Definition sender_send_batch (datagrams : list SpoofDatagram) : spoofing nat :=
  bind s := state in
  bind _ := check (negb (bool_decide (is_Some (sender_kernel s)))) spoof_not_open in
  spoof_batches (S (length datagrams)) datagrams 0.

(** * Properties *)

(** ** Probes *)

Definition probe_bytes (secret : list Z) (source_be destination_be sequence : Z) : list Z :=
  be_bytes 2 sequence ++ take 30 (hmac_blake2s secret (kSpoofDomain ++ be_bytes 4 source_be ++ be_bytes 4 destination_be ++ be_bytes 2 sequence)).

Lemma spoof_probe_spec {E} secret source_be destination_be sequence :
  spoof_probe (E:=E) secret source_be destination_be sequence = Ok (probe_bytes secret source_be destination_be sequence).
Proof.
  unfold spoof_probe, kSpoofProbeSize. rewrite write_u16_spec by (cbn; lia). cbn [rbind]. unfold probe_mac, probe_input.
  do 2 (rewrite write_u32_spec by (cbn; lia); cbn [rbind take drop replicate app Nat.add be_bytes]).
  rewrite write_u16_spec by (cbn; lia). cbn [rbind take drop app Nat.add].
  unfold span_first. rewrite decide_True by (rewrite length_hmac; lia). cbn [rbind]. rewrite blit_put by (rewrite length_take, length_hmac; cbn; lia).
  unfold put. cbn [take drop replicate app be_bytes Nat.add]. rewrite length_take, length_hmac. cbn [Nat.min Nat.sub Nat.add drop]. by rewrite app_nil_r.
Qed.

Lemma length_probe secret source_be destination_be sequence : length (probe_bytes secret source_be destination_be sequence) = kSpoofProbeSize.
Proof. unfold probe_bytes. by rewrite length_app, length_take, length_hmac. Qed.

(** A probe is accepted exactly when it was made for these addresses with the
    secret. *)
Lemma spoof_probe_valid_iff secret probe source_be destination_be : bytes_ok probe →
  spoof_probe_valid (E:=unit) secret probe source_be destination_be = Ok true ↔
  ∃ sequence, is_u16 sequence ∧ spoof_probe (E:=unit) secret source_be destination_be sequence = Ok probe.
Proof.
  intros Hb. unfold spoof_probe_valid. assert (∀ q, bytes_ok (probe_bytes secret source_be destination_be q)) as Hp.
  { intros q. unfold probe_bytes. rewrite bytes_ok_app. split; [auto with norr|apply bytes_ok_take, hmac_bytes]. }
  destruct (Nat.eqb_spec (length probe) kSpoofProbeSize) as [Hl|Hl]; cbn [negb].
  2:{ split; [done|]. intros (q & _ & Hq). rewrite spoof_probe_spec in Hq. injection Hq as <-. by rewrite length_probe in Hl. }
  unfold spoof_probe_sequence. rewrite (proj2 (Nat.ltb_ge _ _)) by (rewrite Hl; unfold kSpoofProbeSize; lia). unfold kSpoofProbeSize in Hl.
  destruct probe as [|x [|y rest]]; [done..|]. pose proof Hb as [Hx [Hy Hr]%Forall_cons_1]%Forall_cons_1.
  rewrite (read_u16_spec _ 0 x y rest) by done. cbn [rbind]. rewrite spoof_probe_spec. cbn [rbind]. split.
  - intros [= Heq]. apply constant_time_equal_iff in Heq; [|done|done]. exists (be_value [x; y]). split; [by apply be_value_u16|]. by rewrite spoof_probe_spec, <- Heq.
  - intros (q & Hq & E). rewrite spoof_probe_spec in E. apply (f_equal (λ r, match r with Ok v => v | _ => [] end)) in E. f_equal. apply constant_time_equal_iff; [done|done|].
    assert (be_bytes 2 q = [x; y]) as E2.
    { apply (f_equal (take 2)) in E. unfold probe_bytes in E. by rewrite take_app_length' in E. }
    rewrite <- E2, be_value_u16_bytes by done. by rewrite E.
Qed.

(** ** Packets *)

Definition ip_header (source_be destination_be counter : Z) (total : nat) (sum : Z) : list Z :=
  [0x45; 0] ++ be_bytes 2 (u16 (Z.of_nat total)) ++ be_bytes 2 (mixed_id counter) ++ [0x40; 0; 64; 17] ++ be_bytes 2 sum ++
  be_bytes 4 source_be ++ be_bytes 4 destination_be.
Definition spoofed (d : SpoofDatagram) (counter : Z) : list Z :=
  let total := (28 + length (sd_payload d))%nat in
  let header := ip_header (sd_source_be d) (sd_destination_be d) counter total in
  header (ip_checksum (header 0)) ++ be_bytes 2 (sd_source_port d) ++ be_bytes 2 (sd_destination_port d) ++
  be_bytes 2 (u16 (Z.of_nat (8 + length (sd_payload d)))) ++ be_bytes 2 0 ++ sd_payload d.

Lemma build_spoofed_udp_spec {E} d out counter : let total := (28 + length (sd_payload d))%nat in
  build_spoofed_udp (E:=E) (sd_source_be d) (sd_destination_be d) (sd_source_port d) (sd_destination_port d) (sd_payload d) out counter =
  if (total <=? length out)%nat && (Z.of_nat total <=? 0xFFFF) then Ok (spoofed d counter ++ drop total out, total, u32 (counter + 1)) else Ok (out, 0%nat, counter).
Proof.
  intros total. unfold build_spoofed_udp, kIpHeader, kUdpHeader. change (20 + 8 + length (sd_payload d))%nat with total.
  rewrite Nat.ltb_antisym, Z.ltb_antisym, <- negb_andb. destruct ((total <=? length out)%nat && _) eqn:Ec; [|done]. cbn [negb].
  apply andb_true_iff in Ec as [Hl%Nat.leb_le _]. assert (28 ≤ length out)%nat by lia. subst total. explode out 28%nat. cbn [length Nat.add] in Hl.
  cbn [Nat.add replicate]. rewrite blit_put by (cbn; lia). unfold put. cbn [rbind take drop app length Nat.add].
  repeat (first [rewrite wr_spec by (cbn; lia) | rewrite write_u32_spec by (cbn; lia) | rewrite write_u16_spec by (cbn; lia)
    | unfold span_first; rewrite decide_True by (cbn; lia)]; cbn [rbind take drop app Nat.add be_bytes]).
  rewrite ?drop_0, ?take_0. rewrite blit_put by (cbn [length]; lia). unfold put. cbn [rbind take drop app Nat.add]. rewrite ?take_0. cbn [app].
  unfold spoofed, ip_header. cbn [app be_bytes Nat.add]. done.
Qed.

(** The header has a valid checksum. *)
Lemma ip_header_split source_be destination_be counter total : ∃ pre post, length pre = 10%nat ∧ length post = 8%nat ∧ bytes_ok pre ∧ bytes_ok post ∧
  ∀ sum, ip_header source_be destination_be counter total sum = pre ++ be_bytes 2 sum ++ post.
Proof.
  exists ([0x45; 0] ++ be_bytes 2 (u16 (Z.of_nat total)) ++ be_bytes 2 (mixed_id counter) ++ [0x40; 0; 64; 17]), (be_bytes 4 source_be ++ be_bytes 4 destination_be).
  rewrite !length_app, !length_be_bytes. split_and!; [done|done| | |].
  - rewrite !bytes_ok_app. split_and!; auto with norr; repeat (apply Forall_cons_2; [done|]); constructor.
  - rewrite bytes_ok_app. auto with norr.
  - intros sum. unfold ip_header. by rewrite <- !app_assoc.
Qed.

Lemma spoofed_checksum d counter : ip_checksum (take 20 (spoofed d counter)) = 0.
Proof.
  unfold spoofed. destruct (ip_header_split (sd_source_be d) (sd_destination_be d) counter (28 + length (sd_payload d))) as (pre & post & Lp & Lq & Hp & Hq & E).
  rewrite !E. rewrite take_app_length' by (rewrite !length_app, Lp, Lq, length_be_bytes; lia).
  apply (checksum_valid_field pre post); [rewrite Lp; by exists 5%nat|done|done|unfold blen; rewrite Lp, Lq; lia].
Qed.

Lemma length_spoofed d counter : length (spoofed d counter) = (28 + length (sd_payload d))%nat.
Proof. unfold spoofed, ip_header. rewrite !length_app, !length_be_bytes. cbn [length]. lia. Qed.

(** A receiver finds the chosen addresses, the ports and the payload. *)
Lemma spoofed_flow d counter : is_u16 (sd_source_port d) → is_u16 (sd_destination_port d) → (28 + length (sd_payload d) ≤ Z.to_nat 65535)%nat →
  ∃ view, parse_ip_packet (spoofed d counter) = Ok view ∧
    flow_key_of view (spoofed d counter) = Ok (mkFlow (from_bytes ipv4 (octets_of (sd_source_be d))) (from_bytes ipv4 (octets_of (sd_destination_be d)))
      (sd_source_port d) (sd_destination_port d) 17) ∧
    drop 28 (spoofed d counter) = sd_payload d.
Proof.
  intros Hs Hd Hl. pose proof (length_spoofed d counter) as Hlen. set (p := spoofed d counter) in *.
  set (sum := ip_checksum (ip_header (sd_source_be d) (sd_destination_be d) counter (28 + length (sd_payload d)) 0)).
  assert (p = [0x45; 0] ++ be_bytes 2 (u16 (Z.of_nat (length p))) ++ be_bytes 2 (mixed_id counter) ++ [0x40; 0; 64; 17] ++ be_bytes 2 sum ++ octets_of (sd_source_be d) ++
    octets_of (sd_destination_be d) ++ be_bytes 2 (sd_source_port d) ++ be_bytes 2 (sd_destination_port d) ++
    be_bytes 2 (u16 (Z.of_nat (8 + length (sd_payload d)))) ++ be_bytes 2 0 ++ sd_payload d) as Ep.
  { rewrite Hlen. unfold p, spoofed, ip_header. fold sum. by rewrite <- !app_assoc. }
  clearbody p sum. assert (u16 (Z.of_nat (length p)) = blen p) as Et by (unfold blen; apply u16_id; unfold is_u16; lia). rewrite Et in Ep.
  assert (is_u16 (blen p)) as Hu by (unfold blen, is_u16; lia). assert (28 ≤ blen p) as Hb by (unfold blen; lia). clear Et Hlen Hl. remember (blen p) as n eqn:En.
  assert (p !! 0%nat = Some 0x45 ∧ p !! 8%nat = Some 64 ∧ p !! 9%nat = Some 17) as (L0 & L8 & L9) by (by rewrite Ep).
  assert (take 4 (drop 12 p) = octets_of (sd_source_be d) ∧ take 4 (drop 16 p) = octets_of (sd_destination_be d)) as [Hsrc Hdst] by (by rewrite Ep).
  assert (read_u16 (E:=Error) p 2 = Ok n) as R2 by (apply (read_u16_at p 2 n (drop 4 p)); [by rewrite Ep|done]).
  assert (read_u16 (E:=Error) (drop 20 p) 0 = Ok (sd_source_port d)) as R20 by (apply (read_u16_at _ 0 _ (drop 22 p)); [by rewrite Ep|done]).
  assert (read_u16 (E:=Error) (drop 20 p) 2 = Ok (sd_destination_port d)) as R22 by (apply (read_u16_at _ 2 _ (drop 24 p)); [by rewrite Ep|done]).
  assert (drop 28 p = sd_payload d) as Hpay by (by rewrite Ep). clear Ep.
  exists (mkIpView ipv4 (from_bytes ipv4 (octets_of (sd_source_be d))) (from_bytes ipv4 (octets_of (sd_destination_be d))) 17 64 20 n). split; [|split; [|done]].
  - unfold parse_ip_packet, parse_ipv4_packet, guard. rewrite <- En, (proj2 (Z.eqb_neq n 0)) by lia. rewrite (rd_ok _ _ _ L0). cbn [rbind].
    change (u8 (Z.shiftr 0x45 4) =? 4) with true. change (Z.land 0x45 15 * 4) with 20. cbn iota. unfold kIpv4HeaderSize.
    rewrite (proj2 (Z.ltb_ge n 20)) by lia. cbn [orb Z.ltb Z.compare Pos.compare Pos.compare_cont]. rewrite R2. cbn [rbind]. rewrite (proj2 (Z.ltb_ge n 20)) by lia. rewrite Z.eqb_refl. cbn [negb].
    unfold subspan. unfold blen in En. rewrite !decide_True by lia. rewrite (rd_ok _ _ _ L8), (rd_ok _ _ _ L9), Hsrc, Hdst. done.
  - unfold flow_key_of. cbn [Routing.protocol Routing.source Routing.destination Routing.ip_header_length]. change (17 =? Routing.kProtocolUdp) with true. cbn [negb andb]. rewrite andb_false_r, <- En, (proj2 (Z.ltb_ge n _)) by lia.
    unfold subspan_from. change (Z.to_nat 20) with 20%nat. unfold blen in En. rewrite decide_True by lia. cbn [rbind]. by rewrite R20, R22.
Qed.

(** ** The sender *)

Definition sender_ok (s : SpoofSender) : Prop := length (sender_scratch s) = (kMaxBatch * kMaxPacket)%nat ∧ is_Some (sender_kernel s).

Definition sends_same (s s' : SpoofSender) : Prop := sender_kernel s' = sender_kernel s ∧ length (sender_scratch s') = length (sender_scratch s).

(** Every datagram that fits in a packet becomes one message. *)
Lemma prepare_spoofed_spec l : ∀ messages s, length (sender_scratch s) = (kMaxBatch * kMaxPacket)%nat → (length messages + length l ≤ kMaxBatch)%nat →
  ∃ s' messages', prepare_spoofed l messages s = (s', Ok (messages ++ messages')) ∧ sends_same s s' ∧
    length messages' = length (filter (λ d, (28 + length (sd_payload d) ≤ kMaxPacket)%nat) l).
Proof.
  induction l as [|d l IH]; intros messages s Hs Hl; cbn [prepare_spoofed].
  { exists s, []. by rewrite app_nil_r. }
  cbn [length] in Hl. unfold sbind at 1, state, gets, lift. unfold sbind at 1, subspan. rewrite decide_True by (rewrite Hs; unfold kMaxBatch, kMaxPacket in *; lia).
  set (offset := (length messages * kMaxPacket)%nat). set (region := take kMaxPacket (drop offset (sender_scratch s))).
  assert (offset + kMaxPacket ≤ length (sender_scratch s))%nat as Hoff by (rewrite Hs; unfold offset, kMaxBatch, kMaxPacket in *; lia).
  assert (length region = kMaxPacket) as Hr by (unfold region; rewrite length_take, length_drop; lia).
  unfold sbind at 1. rewrite build_spoofed_udp_spec, Hr, filter_cons.
  destruct (decide (28 + length (sd_payload d) ≤ kMaxPacket)%nat) as [Hd|Hd].
  - rewrite (proj2 (Nat.leb_le _ _) Hd), (proj2 (Z.leb_le _ _)) by (unfold kMaxPacket in Hd; lia). cbn [andb]. unfold sbind, modify.
    set (written := spoofed d _ ++ _). assert (length written = kMaxPacket) as Hw by (unfold written; rewrite length_app, length_spoofed, length_drop, Hr; lia).
    set (s1 := mkSender _ (put _ offset written) _ _). rewrite (proj2 (Nat.eqb_neq (28 + length (sd_payload d)) 0)) by lia.
    destruct (IH (messages ++ [mkOutgoing (sockaddr_in (octets_of (sd_destination_be d)) (sd_destination_port d)) [take (28 + length (sd_payload d)) written] None]) s1) as (s' & messages' & E & [Hk Hlen] & Hm).
    { unfold s1. cbn [sender_scratch]. by rewrite length_put by (rewrite Hw; done). }
    { rewrite length_app. cbn [length]. lia. }
    eexists s', (_ :: messages'). rewrite E, <- app_assoc. split; [done|]. split; [|cbn [length]; by rewrite Hm]. split; [done|]. rewrite Hlen. unfold s1. cbn [sender_scratch]. by rewrite length_put by (rewrite Hw; done).
  - rewrite (proj2 (Nat.leb_gt _ _)) by lia. cbn [andb]. unfold sbind, modify. cbn [Nat.eqb].
    set (s1 := mkSender _ _ (u64 _) _). assert (length (sender_scratch s1) = length (sender_scratch s)) as Hs1 by (unfold s1; cbn [sender_scratch]; by rewrite length_put by (rewrite Hr; done)).
    destruct (IH messages s1) as (s' & messages' & E & [Hk Hlen] & Hm); [by rewrite Hs1|lia|]. exists s', messages'. split; [done|]. split; [|done]. split; [done|]. by rewrite Hlen, Hs1.
Qed.

(** The sender stays usable and reports at most [bound]. *)
Definition reports (bound : nat) (r : SpoofSender * res SpoofSendError nat) : Prop :=
  sender_ok r.1 ∧ match r.2 with Ok n => (n ≤ bound)%nat | Fail _ => True | Ub => False end.

Lemma reports_more bound bound' r : reports bound r → (bound ≤ bound')%nat → reports bound' r.
Proof. intros [Hs Hr] Hb. split; [done|]. destruct (r.2); [lia|done|done]. Qed.

Lemma spoof_batches_spec fuel : ∀ l total s, sender_ok s → (length l < fuel)%nat → reports (total + length l) (spoof_batches fuel l total s).
Proof.
  induction fuel as [|fuel IH]; intros l total s Hs Hf; [lia|]. cbn [spoof_batches]. destruct (Nat.eqb_spec (length l) 0); [split; [done|cbn; lia]|].
  destruct Hs as [Hs Hk]. unfold sbind at 1. destruct (prepare_spoofed_spec (take kMaxBatch l) [] s Hs ltac:(cbn [length Nat.add]; rewrite length_take; lia)) as (s1 & messages & -> & [Hk1 Hs1] & Hm).
  cbn [app]. assert (length messages ≤ length (take kMaxBatch l))%nat as Hmle by (rewrite Hm; apply length_filter).
  assert (1 ≤ kMaxBatch)%nat as H64 by (unfold kMaxBatch; lia). rewrite length_take in Hmle.
  assert (sender_ok s1) as Hok1 by (split; [by rewrite Hs1|by rewrite Hk1]).
  destruct (Nat.eqb_spec (length messages) 0).
  { apply (reports_more (total + length (drop kMaxBatch l))); [apply IH; [done|]|]; rewrite length_drop; lia. }
  unfold sbind, sender_sendmmsg. destruct Hok1 as [Hlen1 [k Ek]]. rewrite Ek.
  assert (∃ k' r, kernel_sendmmsg messages k = (k', r) ∧ match r with inl n => (n ≤ length messages)%nat | inr _ => True end) as (k' & r & -> & Hr).
  { unfold kernel_sendmmsg. destruct (sendmmsg_answers k) as [|[taken|e] rest]; eexists _, _; (split; [done|]); (done || (cbn; lia)). }
  set (s2 := mkSender (Some k') _ _ _). assert (sender_ok s2) as Hok2 by (split; [done|by eexists]). destruct r as [m|e]; [|destruct e; split; (done || (cbn; lia))].
  apply (reports_more (total + m + length (drop kMaxBatch l))); [apply IH; [done|]|]; rewrite length_drop; lia.
Qed.

(** A batch is sent without undefined behaviour, and no more is reported than
    was given. *)
Lemma sender_send_batch_spec l s : sender_ok s → reports (length l) (sender_send_batch l s).
Proof.
  intros Hok. unfold sender_send_batch, sbind, state, gets, check. rewrite bool_decide_eq_true_2 by apply Hok. cbn [negb].
  exact (spoof_batches_spec (S (length l)) l 0 s Hok ltac:(lia)).
Qed.
