(* ===== verification/Carrier.v ===== *)
(** The datagram carriers of [src/carrier.cpp]: what lies between the worker and
    a transport.

    [DatagramTransport] is what a carrier needs of a transport, and
    [DatagramTransportLaws] what the worker relies on; the UDP, ICMP and raw IP
    transports satisfy it.  [Disguised] is the state that the carriers share: a
    transport, the obfuscator, and whether priming packets are due.
    [UdpCarrier] adds the packets with a chosen source address, [DnsCarrier] the
    DNS envelope. *)

From S2P Require Import Prelude Packet Fec Address Timers Worker Tcp Udp UdpBatches Icmp IcmpLink RawProto RawProtoLink.
From S2P Require Import Obfuscation DnsFramer Spoof SpoofPacket.

Definition kPrimingMinPackets : nat := 3.
Definition kPrimingMaxPackets : nat := 7.

Record ReceiveBuffers := mkReceiveBuffers { buffer_count : nat; datagram_size : nat }.

(** ** Transports *)

Class DatagramTransport (T : Type) := {
  transport_send : list OutboundDatagram → effect T TransportError nat;
  transport_receive : ReceiveBuffers → nat → effect T TransportError (list InboundDatagram);
  transport_live : T → Prop;
}.

(** A started transport stays started, takes at most what it is offered and
    hands over at most what there is room for. *)
Class DatagramTransportLaws (T : Type) `{DatagramTransport T} : Prop := {
  transport_send_most t l : transport_live t → transport_live (transport_send l t).1 ∧
    match (transport_send l t).2 with Ok n => (n ≤ length l)%nat | Fail _ => True | Ub => False end;
  transport_receive_most t b n : transport_live t → transport_live (transport_receive b n t).1 ∧
    match (transport_receive b n t).2 with Ok out => (length out ≤ n)%nat | Fail _ => True | Ub => False end;
}.

#[export] Instance udp_transport : DatagramTransport UdpTransport := {|
  transport_send := Udp.send_batch;
  transport_receive b n := Udp.receive_batch (buffer_count b) n;
  transport_live t := is_Some (kernel_ t);
|}.
#[export] Instance icmp_transport : DatagramTransport IcmpTransport.t := {|
  transport_send := IcmpTransport.send_batch;
  transport_receive b n := IcmpTransport.receive_batch (buffer_count b) (datagram_size b) n;
  transport_live t := is_Some (IcmpTransport.kernel t);
|}.
#[export] Instance raw_transport : DatagramTransport RawProtoTransport.t := {|
  transport_send := RawProtoTransport.send_batch;
  transport_receive b n := RawProtoTransport.receive_batch (buffer_count b) n;
  transport_live t := is_Some (RawProtoTransport.kernel t);
|}.

(** ** The common part *)

Section carriers.
Context `{Keystream} `{Rng} {T : Type} `{DatagramTransport T}.

Record Disguised := mkDisguised { transport_ : T; peer_ : Endpoint; obfuscator_ : Obfuscator; priming_pending_ : bool }.

Abbreviation carrier := (effect Disguised TransportError).

Definition with_obfuscator (o : Obfuscator) (c : Disguised) : Disguised := mkDisguised (transport_ c) (peer_ c) o (priming_pending_ c).
Definition primed (c : Disguised) : Disguised := mkDisguised (transport_ c) (peer_ c) (obfuscator_ c) false.

Definition configure_obfuscation (config : ObfuscationConfig) (preshared : list Z) (c : Disguised) : Disguised :=
  with_obfuscator (Obfuscation.configure (obfuscator_ c) config preshared) c.
Definition prime (c : Disguised) : Disguised :=
  mkDisguised (transport_ c) (peer_ c) (obfuscator_ c) (priming (Obfuscation.config_ (obfuscator_ c))).

Definition on_transport {A} (m : effect T TransportError A) : carrier A := λ c,
  let '(t, r) := m (transport_ c) in (mkDisguised t (peer_ c) (obfuscator_ c) (priming_pending_ c), r).

(** A call of the obfuscator that writes to [out]: [None] when it fails. *)
Definition obfuscating {A} (m : effect (Obfuscator * list Z) ObfuscationError.t A) (out : list Z) : carrier (option A * list Z) := λ c,
  match m (obfuscator_ c, out) with
  | ((o, out), Ok a) => (with_obfuscator o c, Ok (Some a, out))
  | ((o, out), Fail _) => (with_obfuscator o c, Ok (None, out))
  | ((o, out), Ub) => (with_obfuscator o c, Ub)
  end.

(** [static_cast<void>]: an error is dropped. *)
Definition ignoring {S E A} (m : effect S E A) : effect S E unit := λ s,
  match m s with (s, Ub) => (s, Ub) | (s, _) => (s, Ok tt) end.

Definition plain (destination : Endpoint) (payload : list Z) : OutboundDatagram := mkOutbound destination payload 0 false false.

Fixpoint priming_loop (n : nat) (destination : Endpoint) (scratch : list Z) : carrier unit :=
  match n with
  | O => sret tt
  | S n =>
      bind made := obfuscating generate_priming scratch in
      match made.1 with
      | None => sret tt
      | Some size =>
          bind _ := ignoring (on_transport (transport_send [plain destination (take size made.2)])) in
          priming_loop n destination made.2
      end
  end.

(** The number of priming packets: [random_bytes] gives one byte or fails. *)
Definition priming_count (picked : option (list Z)) : nat :=
  match picked with
  | Some (pick :: _) => kPrimingMinPackets + Z.to_nat pick `mod` (kPrimingMaxPackets - kPrimingMinPackets + 1)
  | _ => kPrimingMinPackets
  end.

Definition send_priming (datagrams : list OutboundDatagram) : carrier unit :=
  bind c := state in
  match datagrams with
  | first :: _ =>
      if priming_pending_ c then
        bind _ := modify primed in
        let picked := random (calls_ (obfuscator_ c)) 1 in
        bind _ := modify (λ c, with_obfuscator (called (obfuscator_ c)) c) in
        priming_loop (priming_count picked) (out_destination first) (replicate (Z.to_nat kPrimingMaxSize) 0)
      else sret tt
  | [] => sret tt
  end.

(** [wrap_batch_]: every datagram in a slot of its own; [keep] says what of a
    datagram its wrapped form keeps. *)
Fixpoint wrap_datagrams (keep : OutboundDatagram → list Z → OutboundDatagram) (datagrams : list OutboundDatagram) : carrier (list OutboundDatagram) :=
  match datagrams with
  | [] => sret []
  | d :: rest =>
      bind c := state in
      bind wrapped := obfuscating (Obfuscation.wrap (out_payload d)) (replicate (length (out_payload d) + max_overhead (obfuscator_ c)) 0) in
      bind batch := wrap_datagrams keep rest in
      sret (match wrapped.1 with Some n => keep d (take n wrapped.2) :: batch | None => batch end)
  end.

(** What is received, unwrapped; [from] is the source that the worker sees. *)
Fixpoint unwrap_datagrams (from : Endpoint → Endpoint) (received : list InboundDatagram) : carrier (list InboundDatagram) :=
  match received with
  | [] => sret []
  | d :: rest =>
      bind unwrapped := obfuscating (Obfuscation.unwrap (in_payload d)) (replicate (length (in_payload d)) 0) in
      bind out := unwrap_datagrams from rest in
      sret (match unwrapped.1 with Some n => mkInbound (from (in_source d)) (take n unwrapped.2) :: out | None => out end)
  end.

(** The rest of [send_batch] once the obfuscator is known to be enabled. *)
Definition send_wrapped (keep : OutboundDatagram → list Z → OutboundDatagram) (datagrams : list OutboundDatagram) : carrier nat :=
  bind batch := wrap_datagrams keep datagrams in
  if (length batch =? 0)%nat then sret 0%nat else
  bind sent := on_transport (transport_send batch) in
  sret (Nat.min sent (length datagrams)).

Definition is_enabled (c : Disguised) : bool := enabled (obfuscator_ c).

(** *** [IcmpCarrier] and [RawProtoCarrier] *)

Definition keep_destination (d : OutboundDatagram) (payload : list Z) : OutboundDatagram := plain (out_destination d) payload.
Definition with_peer_port (peer source : Endpoint) : Endpoint := mkEndpoint (ep_address source) (port_ peer).

Definition icmp_send_batch (datagrams : list OutboundDatagram) : carrier nat :=
  bind c := state in
  bind _ := (if is_enabled c then send_priming datagrams else sret tt) in
  if negb (is_enabled c) then on_transport (transport_send datagrams) else send_wrapped keep_destination datagrams.

Definition icmp_receive_batch (buffers : ReceiveBuffers) (out_size : nat) : carrier (list InboundDatagram) :=
  bind received := on_transport (transport_receive buffers out_size) in
  bind c := state in
  if is_enabled c then unwrap_datagrams (with_peer_port (peer_ c)) received
  else sret ((λ d, mkInbound (with_peer_port (peer_ c) (in_source d)) (in_payload d)) <$> received).

Definition rawproto_send_batch (datagrams : list OutboundDatagram) : carrier nat :=
  bind c := state in
  bind _ := (if is_enabled c then send_priming datagrams else sret tt) in
  if negb (is_enabled c) then on_transport (transport_send datagrams) else send_wrapped keep_destination datagrams.

Definition rawproto_receive_batch (buffers : ReceiveBuffers) (out_size : nat) : carrier (list InboundDatagram) :=
  bind received := on_transport (transport_receive buffers out_size) in
  bind c := state in
  if is_enabled c then unwrap_datagrams (with_peer_port (peer_ c)) received
  else sret ((λ d, mkInbound (with_peer_port (peer_ c) (in_source d)) (in_payload d)) <$> received).

(** [max_payload] of the carriers. *)
Definition udp_max_payload (c : Disguised) : nat :=
  let overhead := max_overhead (obfuscator_ c) in
  if (overhead <? kDefaultDatagramSize)%nat then (kDefaultDatagramSize - overhead)%nat else kDefaultDatagramSize.
Definition icmp_max_payload (c : Disguised) : nat :=
  let overhead := (max_overhead (obfuscator_ c) + kIcmpHeaderSize)%nat in
  if (overhead <? kDefaultDatagramSize)%nat then (kDefaultDatagramSize - overhead)%nat else kDefaultDatagramSize.
Definition rawproto_max_payload (c : Disguised) : nat :=
  let overhead := (max_overhead (obfuscator_ c) + kEspHeaderSize + 2)%nat in
  if (overhead <? kDefaultDatagramSize)%nat then (kDefaultDatagramSize - overhead)%nat else kDefaultDatagramSize.

End carriers.
Arguments Disguised T : clear implicits.

(** ** [UdpCarrier] *)

Section udp_carrier.
Context `{Keystream} `{Rng}.

Record UdpCarrier := mkUdpCarrier {
  base_ : Disguised UdpTransport;
  feedback_ : SpoofFeedback;
  sender_ : SpoofSender;
  spoof_source_port_ : Z;
  spoofing_ : bool;
  spoof_undeliverable_ : Z;
}.

Abbreviation udpc := (effect UdpCarrier TransportError).

Definition with_base (b : Disguised UdpTransport) (c : UdpCarrier) : UdpCarrier :=
  mkUdpCarrier b (feedback_ c) (sender_ c) (spoof_source_port_ c) (spoofing_ c) (spoof_undeliverable_ c).
Definition with_feedback (f : SpoofFeedback) (c : UdpCarrier) : UdpCarrier :=
  mkUdpCarrier (base_ c) f (sender_ c) (spoof_source_port_ c) (spoofing_ c) (spoof_undeliverable_ c).
Definition with_sender (s : SpoofSender) (c : UdpCarrier) : UdpCarrier :=
  mkUdpCarrier (base_ c) (feedback_ c) s (spoof_source_port_ c) (spoofing_ c) (spoof_undeliverable_ c).
Definition count_undeliverable (c : UdpCarrier) : UdpCarrier :=
  mkUdpCarrier (base_ c) (feedback_ c) (sender_ c) (spoof_source_port_ c) (spoofing_ c) (u64 (spoof_undeliverable_ c + 1)).

(** [made]: the raw socket can be opened. *)
Definition configure_spoofing (sources_be : list Z) (source_port : Z) (made : bool) (fresh : Kernel) (c : UdpCarrier) : UdpCarrier :=
  match sources_be with
  | [] => c
  | _ =>
      match open_sender made fresh (sender_ c) with
      | (sender, Ok _) =>
          mkUdpCarrier (base_ c) (new_feedback (new_pool sources_be default_pool_config) default_feedback_config) sender source_port true (spoof_undeliverable_ c)
      | (sender, _) => with_sender sender c
      end
  end.

Definition apply_spoof_receipt (bitmap : list Z) (now : Instant) (c : UdpCarrier) : UdpCarrier :=
  if spoofing_ c then with_feedback (apply_receipt (feedback_ c) bitmap now) c else c.

Definition on_base {A} (m : effect (Disguised UdpTransport) TransportError A) : udpc A := λ c,
  let '(b, r) := m (base_ c) in (with_base b c, r).

(** The locals of [send_spoofed]. *)
Record Sorted_ := mkSorted { spoof_batch_ : list SpoofDatagram; real_batch_ : list OutboundDatagram; unspoofable : bool }.

Definition destination_be (d : OutboundDatagram) : Z := be_value (take 4 (address_bytes (ep_address (out_destination d)))).

Definition sort_datagram (now : Instant) (d : OutboundDatagram) (s : Sorted_) : udpc Sorted_ :=
  bind c := state in
  let spoofable_v4 := spoofable d && bool_decide (family_ (ep_address (out_destination d)) = ipv4) in
  if spoofable_v4 then
    let '(f, chosen) := feedback_pick (feedback_ c) (out_flow d) now in
    bind _ := modify (with_feedback f) in
    match chosen with
    | None =>
        bind _ := modify count_undeliverable in
        sret (mkSorted (spoof_batch_ s) (real_batch_ s) true)
    | Some pick =>
        sret (mkSorted (spoof_batch_ s ++ [mkSpoofDatagram (source_be pick) (destination_be d) (spoof_source_port_ c)
          (port_ (out_destination d)) (out_payload d)]) (real_batch_ s) (unspoofable s))
    end
  else sret (mkSorted (spoof_batch_ s) (real_batch_ s ++ [d]) (unspoofable s)).

Fixpoint sort_datagrams (now : Instant) (l : list OutboundDatagram) (s : Sorted_) : udpc Sorted_ :=
  match l with
  | [] => sret s
  | d :: l => bind s := sort_datagram now d s in sort_datagrams now l s
  end.

(** [value_or(0)]: an error of the transport counts as nothing sent. *)
Definition send_real (l : list OutboundDatagram) : udpc nat := λ c,
  match l with
  | [] => (c, Ok 0%nat)
  | _ =>
      match on_base (on_transport (transport_send l)) c with
      | (c, Ok n) => (c, Ok n)
      | (c, Fail _) => (c, Ok 0%nat)
      | (c, Ub) => (c, Ub)
      end
  end.

Definition on_sender (l : list SpoofDatagram) : udpc nat := λ c,
  match sender_send_batch l (sender_ c) with
  | (s, Ok n) => (with_sender s c, Ok n)
  | (s, Fail _) => (with_sender s c, Fail TransportError.send_failed)
  | (s, Ub) => (with_sender s c, Ub)
  end.

Definition send_spoofed (now : Instant) (datagrams : list OutboundDatagram) : udpc nat :=
  bind s := sort_datagrams now datagrams (mkSorted [] [] false) in
  bind real_sent := send_real (real_batch_ s) in
  if (length (spoof_batch_ s) =? 0)%nat then
    if unspoofable s && (real_sent =? 0)%nat then lift (Fail TransportError.would_block) else sret real_sent
  else
    bind sent := on_sender (spoof_batch_ s) in
    sret (sent + real_sent)%nat.

Definition keep_flow (d : OutboundDatagram) (payload : list Z) : OutboundDatagram :=
  mkOutbound (out_destination d) payload (out_flow d) (spoofable d) false.

Definition udp_send_batch (now : Instant) (datagrams : list OutboundDatagram) : udpc nat :=
  bind c := state in
  if negb (is_enabled (base_ c)) then on_base (on_transport (transport_send datagrams)) else
  bind _ := on_base (send_priming datagrams) in
  if spoofing_ c then
    bind batch := on_base (wrap_datagrams keep_flow datagrams) in
    if (length batch =? 0)%nat then sret 0%nat else
    bind sent := send_spoofed now batch in
    sret (Nat.min sent (length datagrams))
  else on_base (send_wrapped keep_flow datagrams).

Definition udp_receive_batch (buffers : ReceiveBuffers) (out_size : nat) : udpc (list InboundDatagram) :=
  bind received := on_base (on_transport (transport_receive buffers out_size)) in
  bind c := state in
  if is_enabled (base_ c) then on_base (unwrap_datagrams (λ source, source) received) else sret received.

End udp_carrier.

(** ** [DnsCarrier] *)

Section dns_carrier.
Context `{Keystream} `{Rng}.

Record DnsCarrier := mkDnsCarrier { dns_base_ : Disguised UdpTransport; framer_ : DnsFramer.DnsFramer }.

Abbreviation dnsc := (effect DnsCarrier TransportError).

Definition new_dns_carrier (transport : UdpTransport) (peer : Endpoint) (role : DnsRole) (domain : list Z) (calls : nat) : DnsCarrier :=
  mkDnsCarrier (mkDisguised transport peer (new_obfuscator calls) false) (DnsFramer.configure DnsFramer.new_framer role domain).

Definition on_dns_base {A} (m : effect (Disguised UdpTransport) TransportError A) : dnsc A := λ c,
  let '(b, r) := m (dns_base_ c) in (mkDnsCarrier b (framer_ c), r).

(** The payload that goes into the envelope: [None] when it cannot be wrapped. *)
Definition dns_inner (payload : list Z) : dnsc (option (list Z)) :=
  bind c := state in
  if negb (is_enabled (dns_base_ c)) then sret (Some payload) else
  bind wrapped := on_dns_base (obfuscating (Obfuscation.wrap payload) (replicate (length payload + max_overhead (obfuscator_ (dns_base_ c))) 0)) in
  sret ((λ n, take n wrapped.2) <$> wrapped.1).

Definition dns_frame (payload : list Z) : dnsc (option (list Z)) := λ c,
  match DnsFramer.wrap (framer_ c) payload (replicate (DnsFramer.envelope_size (framer_ c) + length payload) 0) with
  | (f, Ok (out, n)) => (mkDnsCarrier (dns_base_ c) f, Ok (Some (take n out)))
  | (f, Fail _) => (mkDnsCarrier (dns_base_ c) f, Ok None)
  | (f, Ub) => (mkDnsCarrier (dns_base_ c) f, Ub)
  end.

Definition keep_only_flow (d : OutboundDatagram) (payload : list Z) : OutboundDatagram := mkOutbound (out_destination d) payload (out_flow d) false false.

Fixpoint dns_wrap_loop (datagrams : list OutboundDatagram) : dnsc (list OutboundDatagram) :=
  match datagrams with
  | [] => sret []
  | d :: rest =>
      bind inner := dns_inner (out_payload d) in
      bind framed := match inner with Some payload => dns_frame payload | None => sret None end in
      bind batch := dns_wrap_loop rest in
      sret (match framed with Some wire => keep_only_flow d wire :: batch | None => batch end)
  end.

Definition dns_send_batch (datagrams : list OutboundDatagram) : dnsc nat :=
  bind batch := dns_wrap_loop datagrams in
  if (length batch =? 0)%nat then sret 0%nat else
  bind sent := on_dns_base (on_transport (transport_send batch)) in
  sret (Nat.min sent (length datagrams)).

Definition dns_unframe (wire : list Z) : dnsc (option (list Z)) := λ c,
  match DnsFramer.unwrap wire (replicate (length wire) 0) with
  | Ok (out, n) => (c, Ok (Some (take n out)))
  | Fail _ => (c, Ok None)
  | Ub => (c, Ub)
  end.

Definition dns_outer (payload : list Z) : dnsc (option (list Z)) :=
  bind c := state in
  if negb (is_enabled (dns_base_ c)) then sret (Some payload) else
  bind unwrapped := on_dns_base (obfuscating (Obfuscation.unwrap payload) (replicate (length payload) 0)) in
  sret ((λ n, take n unwrapped.2) <$> unwrapped.1).

Fixpoint dns_unwrap_loop (received : list InboundDatagram) : dnsc (list InboundDatagram) :=
  match received with
  | [] => sret []
  | d :: rest =>
      bind inner := dns_unframe (in_payload d) in
      bind payload := match inner with Some inner => dns_outer inner | None => sret None end in
      bind out := dns_unwrap_loop rest in
      sret (match payload with Some payload => mkInbound (in_source d) payload :: out | None => out end)
  end.

Definition dns_receive_batch (buffers : ReceiveBuffers) (out_size : nat) : dnsc (list InboundDatagram) :=
  bind received := on_dns_base (on_transport (transport_receive buffers out_size)) in
  dns_unwrap_loop received.

Definition dns_max_payload (c : DnsCarrier) : nat :=
  let overhead := (DnsFramer.envelope_size (framer_ c) + max_overhead (obfuscator_ (dns_base_ c)))%nat in
  if (overhead <? kDefaultDatagramSize)%nat then (kDefaultDatagramSize - overhead)%nat else 0%nat.

End dns_carrier.
