(* ===== verification/CarrierLink.v ===== *)
(** The carriers are transparent: the transports satisfy the interface, and what
    an obfuscating carrier sends comes out of the carrier at the other end, over
    any transport. *)

From S2P Require Import Prelude Packet Fec Address Timers Worker Tcp Udp UdpBatches Icmp IcmpLink RawProto RawProtoLink.
From S2P Require Import Obfuscation DnsFramer Spoof SpoofPacket Carrier.

(** ** The transports *)

#[export] Instance udp_transport_laws : DatagramTransportLaws UdpTransport.
Proof.
  split.
  - intros t l [k Hk]. destruct (send_batch_spec l t k Hk) as (k' & Hk' & _ & Hr). split; [by eexists|]. cbn [transport_send udp_transport]. destruct (Udp.send_batch l t).2; [apply Hr|done|done].
  - intros t b n [k Hk]. destruct (receive_batch_spec (buffer_count b) n t k Hk) as (k' & Hk' & _ & _ & Hr). split; [by eexists|]. cbn [transport_receive udp_transport].
    destruct (Udp.receive_batch (buffer_count b) n t).2; [apply Hr|done|done].
Qed.

Lemma icmp_receive_loop_most want size limit fuel : ∀ out i, is_Some (IcmpTransport.kernel i) → (IcmpTransport.reads_left i < fuel)%nat → (length out ≤ limit)%nat →
  let r := IcmpTransport.echo_receive_loop fuel limit size want out i in
  is_Some (IcmpTransport.kernel r.1) ∧ match r.2 with Ok l => (length l ≤ limit)%nat | Fail _ => True | Ub => False end.
Proof.
  induction fuel as [|fuel IH]; intros out i [k Hk] Hf Ho; [lia|]. cbn [IcmpTransport.echo_receive_loop]. unfold IcmpTransport.reads_left in Hf. rewrite Hk in Hf.
  destruct (Nat.leb_spec limit (length out)); [split; [by eexists|done]|]. cbn zeta.
  unfold sbind, IcmpTransport.recvfrom. rewrite Hk. destruct (recvfrom_answers k) as [|a rest] eqn:Ea; [split; [by eexists|done]|]. cbn [length] in Hf. cbn zeta.
  set (i1 := IcmpTransport.with_kernel _ i).
  assert (∀ out' f, (length out' ≤ limit)%nat → let r := IcmpTransport.echo_receive_loop fuel limit size want out' (IcmpTransport.with_stats f i1) in
    is_Some (IcmpTransport.kernel r.1) ∧ match r.2 with Ok l => (length l ≤ limit)%nat | Fail _ => True | Ub => False end) as Hgo.
  { intros out' f Hout. apply IH; [by eexists|cbn; lia|done]. }
  destruct a as [from bytes| | |]; [|apply IH; [by eexists|cbn; lia|done]|split; [by eexists|done]..].
  unfold state, gets. pose proof (parse_icmp_echo_total (take size bytes) (bool_decide (IcmpTransport.family i1 = ipv4))) as Htot.
  destruct (parse_icmp_echo _ _) as [view|e|]; [| |done].
  - destruct (_ || _); [apply IH; [by eexists|cbn; lia|done]|]. apply Hgo. rewrite length_app. cbn. lia.
  - by apply Hgo.
Qed.

#[export] Instance icmp_transport_laws : DatagramTransportLaws IcmpTransport.t.
Proof.
  split.
  - intros t l [k Hk]. cbn [transport_send transport_live icmp_transport]. unfold IcmpTransport.send_batch, sbind, state, gets, check. rewrite bool_decide_eq_true_2 by (by rewrite Hk). cbn [negb].
    set (code := IcmpTransport.echo_code _ _). destruct (echo_send_loop_spec code l 0 t k Hk) as (k' & n & Hk' & _ & _ & Hn & _ & Hr & _). split; [by eexists|].
    destruct (IcmpTransport.echo_send_loop code l 0 t).2; [|done|done]. pose proof (length_filter (λ d, family_ (ep_address (out_destination d)) = IcmpTransport.family t) l). unfold reachable in Hn. lia.
  - intros t b n Ht. cbn [transport_receive transport_live icmp_transport] in *. unfold IcmpTransport.receive_batch, sbind, state, gets, check. rewrite bool_decide_eq_true_2 by done. cbn [negb].
    destruct (Nat.eqb_spec n 0); [split; [done|cbn; lia]|]. set (limit := (n `min` buffer_count b)%nat).
    destruct (icmp_receive_loop_most (IcmpTransport.echo_code (IcmpTransport.family t) (IcmpTransport.wants_requests t)) (datagram_size b) limit
      (S (IcmpTransport.reads_left t)) [] t Ht ltac:(lia) ltac:(cbn; lia)) as [H1 H2]. split; [done|]. destruct (IcmpTransport.echo_receive_loop _ _ _ _ _ _).2; [unfold limit in H2; lia|done|done].
Qed.

Lemma omap_length_le {A B} (f : A → option B) l : (length (omap f l) ≤ length l)%nat.
Proof. induction l as [|x l IH]; cbn; [done|]. destruct (f x); cbn; lia. Qed.

#[export] Instance raw_transport_laws : DatagramTransportLaws RawProtoTransport.t.
Proof.
  split.
  - intros t l [k Hk]. destruct (raw_send_batch_spec l t k Hk) as (k' & n & Hk' & _ & _ & Hn & _ & Hr & _). split; [by eexists|]. cbn [transport_send raw_transport].
    rewrite length_fmap in Hn. destruct (RawProtoTransport.send_batch l t).2; [|done|done].
    pose proof (length_filter (λ d, family_ (ep_address (out_destination d)) = ipv4) l). unfold reachable in Hn. lia.
  - intros t b n [k Hk]. cbn [transport_receive transport_live raw_transport]. unfold RawProtoTransport.receive_batch, sbind, state, gets, check. rewrite bool_decide_eq_true_2 by (by rewrite Hk). cbn [negb].
    destruct (Nat.eqb_spec (n `min` buffer_count b) 0); [split; [by eexists|cbn; lia]|]. unfold RawProtoTransport.raw_recvmmsg, kernel_recvmmsg. rewrite Hk.
    destruct (recvmmsg_answers k) as [|[l| |] rest]; [split; [by eexists|cbn; lia]| |split; [by eexists|cbn; lia]|split; [by eexists|done]].
    set (t1 := RawProtoTransport.with_kernel _ t). set (m := take _ l). rewrite raw_unpack_all_spec. split.
    + assert (∀ m out t, is_Some (RawProtoTransport.kernel t) → is_Some (RawProtoTransport.kernel (RawProtoTransport.raw_unpack_all m out t).1)) as Hkeep; [|apply Hkeep; by eexists].
      clear. induction m as [|x m IH]; intros out t Ht; cbn [RawProtoTransport.raw_unpack_all]; [done|]. unfold sbind, state, gets, lift. destruct (raw_unpack_total t x) as [f ->]. by apply IH.
    + cbn [app]. etrans; [apply omap_length_le|]. unfold m. rewrite length_take. lia.
Qed.

(** ** Obfuscation *)

Section disguise.
Context `{KeystreamLaws} `{RngLaws} {T : Type} `{DatagramTransportLaws T}.

Abbreviation carrier := (Disguised T).
Abbreviation obf_good c key d := (obf_ok c key (obfuscator_ d)).

(** The parts of a carrier that the obfuscator does not touch. *)
Definition same_carrier (c c' : carrier) : Prop := transport_ c' = transport_ c ∧ peer_ c' = peer_ c ∧ priming_pending_ c' = priming_pending_ c.

Lemma same_carrier_trans c c' c'' : same_carrier c c' → same_carrier c' c'' → same_carrier c c''.
Proof. unfold same_carrier. intros (?&?&?) (?&?&?). split_and!; congruence. Qed.

Lemma wrap_datagrams_spec cs key keep l : config_ok cs → length key = kObfuscationKeySize → mode cs ≠ off → ∀ c : carrier, obf_good cs key c →
  ∃ c' wires, wrap_datagrams keep l c = (c', Ok (zip_with keep l wires)) ∧ same_carrier c c' ∧ obf_good cs key c' ∧
    Forall2 (λ d wire, wire_of cs key (out_payload d) wire) l wires.
Proof.
  intros Hcs Hkey Hoff. induction l as [|d l IH]; intros c Hc; cbn [wrap_datagrams]; [exists c, []; split_and!; (done || by constructor)|].
  unfold sbind at 1, state, gets. unfold sbind at 1, obfuscating.
  destruct (wrap_spec cs key (obfuscator_ c) (out_payload d) (replicate (length (out_payload d) + max_overhead (obfuscator_ c)) 0) Hcs Hc Hkey Hoff) as (o & wire & E & Hw);
    [by rewrite length_replicate|].
  pose proof (wrap_keeps (out_payload d) (obfuscator_ c, replicate (length (out_payload d) + max_overhead (obfuscator_ c)) 0) cs key Hcs Hc) as Ho.
  rewrite E in Ho |- *. cbn [fst] in Ho. cbn iota beta. unfold sbind. destruct (IH (with_obfuscator o c) Ho) as (c' & wires & -> & Hs & Hg & Hall).
  exists c', (wire :: wires). cbn [fst snd sret]. rewrite take_app_length. split; [done|]. split; [by apply (same_carrier_trans _ (with_obfuscator o c))|]. split; [done|]. by constructor.
Qed.

Lemma unwrap_datagrams_spec cs cr key from l : config_ok cs → config_ok cr → length key = kObfuscationKeySize → mode cs = mode cr → ∀ (ps : list (list Z)) (c : carrier), obf_good cr key c →
  Forall2 (λ d p, wire_of cs key p (in_payload d)) l ps →
  ∃ c', unwrap_datagrams from l c = (c', Ok (zip_with (λ d p, mkInbound (from (in_source d)) p) l ps)) ∧ same_carrier c c' ∧ obf_good cr key c'.
Proof.
  intros Hcs Hcr Hkey Hm. induction l as [|d l IH]; intros ps c Hc Hall; cbn [unwrap_datagrams]; [exists c; by split_and!|].
  apply Forall2_cons_inv_l in Hall as (p & ps' & Hp & Hall & ->). unfold sbind at 1, obfuscating.
  assert (length p ≤ length (in_payload d))%nat as Hlen by (destruct (wire_length _ _ _ _ Hp) as [[-> _]|(j & -> & _)]; lia).
  destruct (obf_unwrap_spec cs cr key (obfuscator_ c) p (in_payload d) (replicate (length (in_payload d)) 0) Hcs Hc Hkey Hm Hp) as (o & E); [by rewrite length_replicate|].
  pose proof (unwrap_keeps (in_payload d) (obfuscator_ c, replicate (length (in_payload d)) 0) cr key Hcr Hc) as Ho.
  rewrite E in Ho |- *. cbn [fst] in Ho. cbn iota beta. unfold sbind. destruct (IH ps' (with_obfuscator o c) Ho Hall) as (c' & -> & Hs & Hg).
  exists c'. cbn [fst snd sret]. rewrite take_app_length. split; [done|]. split; [by apply (same_carrier_trans _ (with_obfuscator o c))|done].
Qed.

(** ** Priming *)

Lemma generate_priming_total w : (generate_priming w).2 ≠ Ub.
Proof.
  destruct w as [o out]. unfold generate_priming, sbind, state, gets, with_obf, modify. cbn [fst snd]. destruct (random (calls_ o) 2) as [pick|] eqn:E2; [|done].
  apply random_length in E2. destruct pick as [|a [|b [|]]]; [done..| |done]. rewrite (rd_ok [a; b] 0 a), (rd_ok [a; b] 1 b) by done.
  unfold lift. cbn iota beta. set (size := Z.to_nat _). unfold check. destruct (Nat.ltb_spec (length out) size); [done|]. cbn [fst snd]. destruct (random (S (calls_ o)) size) as [bytes|] eqn:Es; [|done].
  apply random_length in Es. unfold on_out. cbn [fst snd]. by rewrite blit_put by lia.
Qed.

(** Priming packets change the transport, and use up random bytes. *)
Definition primes (cs : ObfuscationConfig) (key : list Z) (c : carrier) (r : carrier * res TransportError unit) : Prop :=
  obf_good cs key r.1 ∧ transport_live (transport_ r.1) ∧ peer_ r.1 = peer_ c ∧ r.2 = Ok tt.

Lemma priming_loop_spec cs key destination n : config_ok cs → ∀ scratch (c : carrier), obf_good cs key c → transport_live (transport_ c) →
  primes cs key c (priming_loop n destination scratch c).
Proof.
  intros Hcs. induction n as [|n IH]; intros scratch c Hc Ht; cbn [priming_loop]; [done|]. unfold sbind at 1, obfuscating.
  pose proof (generate_priming_total (obfuscator_ c, scratch)) as Htot. pose proof (priming_keeps (obfuscator_ c, scratch) cs key Hcs Hc) as Hkeep.
  destruct (generate_priming (obfuscator_ c, scratch)) as [[o out] r]. cbn [fst snd] in *. destruct r as [size|e|]; [|done|done]. cbn [fst snd].
  unfold sbind, ignoring, on_transport. cbn [with_obfuscator transport_ peer_ obfuscator_ priming_pending_].
  destruct (transport_send_most (transport_ c) [plain destination (take size out)] Ht) as [Hl Hr]. destruct (transport_send _ (transport_ c)) as [t' x]. cbn [fst snd] in *.
  destruct x as [m|e|]; [| |done]; (destruct (IH out (mkDisguised t' (peer_ c) o (priming_pending_ c)) Hkeep Hl) as (H5 & H6 & H7 & H8); by split_and!).
Qed.

Lemma send_priming_spec cs key l (c : carrier) : config_ok cs → obf_good cs key c → transport_live (transport_ c) →
  primes cs key c (send_priming l c) ∧ (priming_pending_ c = false → (send_priming l c).1 = c).
Proof.
  intros Hcs Hc Ht. unfold send_priming, sbind, state, gets. destruct l as [|d l]; [done|]. destruct (priming_pending_ c); [|done]. split; [|done].
  unfold modify. refine (priming_loop_spec cs key _ _ Hcs _ (with_obfuscator (called (obfuscator_ c)) (primed c)) _ Ht). exact (called_keeps (obfuscator_ c) cs key Hcs Hc).
Qed.

(** ** The link *)

(** What [send_batch] of an obfuscating carrier does: after the priming packets,
    if any, it gives the transport one wrapped datagram per datagram, and reports
    what the transport reports. *)
Lemma send_disguised cs key keep l (s : carrier) : config_ok cs → length key = kObfuscationKeySize → mode cs ≠ off → obf_good cs key s → transport_live (transport_ s) → l ≠ [] →
  ∃ t0 wires s', Forall2 (λ d wire, wire_of cs key (out_payload d) wire) l wires ∧ (priming_pending_ s = false → t0 = transport_ s) ∧ transport_live t0 ∧
    sbind (send_priming l) (λ _, send_wrapped keep l) s = (s', (transport_send (zip_with keep l wires) t0).2) ∧ transport_ s' = (transport_send (zip_with keep l wires) t0).1 ∧ obf_good cs key s'.
Proof.
  intros Hcs Hkey Hoff Hs Ht Hl. unfold sbind at 1. destruct (send_priming_spec cs key l s Hcs Hs Ht) as [(Hg & Hlive & _ & Hr) Hnone].
  destruct (send_priming l s) as [s1 x]. cbn [fst snd] in *. subst x. unfold send_wrapped, sbind.
  destruct (wrap_datagrams_spec cs key keep l Hcs Hkey Hoff s1 Hg) as (s2 & wires & -> & (Et & _ & _) & Hg2 & Hall).
  pose proof (Forall2_length _ _ _ Hall) as Hlen. assert (length (zip_with keep l wires) = length l) as Hz by (rewrite length_zip_with; lia).
  destruct (Nat.eqb_spec (length (zip_with keep l wires)) 0); [destruct l; [done|]; cbn in *; lia|].
  exists (transport_ s1). unfold on_transport. rewrite Et. destruct (transport_send_most (transport_ s1) (zip_with keep l wires) Hlive) as [Hl1 Hr1].
  destruct (transport_send (zip_with keep l wires) (transport_ s1)) as [t' x] eqn:Es. cbn [fst snd] in *. exists wires.
  exists (mkDisguised t' (peer_ s2) (obfuscator_ s2) (priming_pending_ s2)). split; [done|]. split; [intros Hp; by rewrite Hnone|]. split; [done|]. rewrite Es. cbn [fst snd].
  destruct x as [m|e|]; [|done|done]. rewrite Hz in Hr1. rewrite Nat.min_l by done. done.
Qed.

(** Datagrams that arrive: which of the payloads, and from where. *)
Definition arrived (payloads : list (list Z)) (arrivals : list (nat * Endpoint)) : list InboundDatagram :=
  (λ a, mkInbound a.2 (default [] (payloads !! a.1))) <$> arrivals.

Lemma receive_disguised cs cr key from l wires (arrivals : list (nat * Endpoint)) (c : carrier) : config_ok cs → config_ok cr → length key = kObfuscationKeySize → mode cs = mode cr →
  obf_good cr key c → Forall2 (λ d wire, wire_of cs key (out_payload d) wire) l wires → Forall (λ a, a.1 < length l)%nat arrivals →
  ∃ c', unwrap_datagrams from (arrived wires arrivals) c = (c', Ok (arrived (out_payload <$> l) ((λ a, (a.1, from a.2)) <$> arrivals))).
Proof.
  intros Hcs Hcr Hkey Hm Hc Hw Ha. set (ps := (λ a, default [] ((out_payload <$> l) !! a.1)) <$> arrivals).
  destruct (unwrap_datagrams_spec cs cr key from (arrived wires arrivals) Hcs Hcr Hkey Hm ps c Hc) as (c' & -> & _).
  { unfold ps, arrived. apply Forall2_fmap, Forall_Forall2_diag. eapply Forall_impl; [exact Ha|]. intros [i e] Hi. cbn [fst snd in_payload] in *.
    destruct (lookup_lt_is_Some_2 l i Hi) as [d Hd]. destruct (Forall2_lookup_l _ _ _ _ _ Hw Hd) as (wire & Ewire & Hwire). by rewrite list_lookup_fmap, Hd, Ewire. }
  exists c'. do 2 f_equal. unfold arrived, ps. clear. induction arrivals as [|a l' IH]; [done|]. rewrite !fmap_cons. cbn [zip_with]. by rewrite IH.
Qed.

Lemma enabled_mode cs key (c : carrier) : obf_good cs key c → mode cs ≠ off → is_enabled c = true.
Proof. intros Hc Hm. unfold is_enabled, enabled. rewrite (ob_config _ _ _ Hc). by rewrite bool_decide_eq_false_2. Qed.

Lemma zip_destinations (keep : OutboundDatagram → list Z → OutboundDatagram) l wires : (∀ d p, out_destination (keep d p) = out_destination d) → length wires = length l →
  out_destination <$> zip_with keep l wires = out_destination <$> l.
Proof.
  intros Hk. revert wires. induction l as [|d l IH]; intros [|w wires] Hl; try done. cbn [zip_with]. rewrite !fmap_cons, Hk, IH; [done|]. by injection Hl.
Qed.
Lemma zip_payloads (keep : OutboundDatagram → list Z → OutboundDatagram) l wires : (∀ d p, out_payload (keep d p) = p) → length wires = length l → out_payload <$> zip_with keep l wires = wires.
Proof.
  intros Hk. revert wires. induction l as [|d l IH]; intros [|w wires] Hl; try done. cbn [zip_with]. rewrite fmap_cons, Hk, IH; [done|]. by injection Hl.
Qed.
End disguise.

(** C12. The obfuscating carriers are transparent, over any transport that keeps
    the interface.  A batch given to [send_batch] of the ICMP or the raw IP
    carrier reaches the transport as one datagram per datagram for the same
    destinations (after priming packets, if these are due), the result and the
    transport's new state are those of the transport's own [send_batch], and
    whenever the transport of a carrier with the same mode and preshared key
    receives these datagrams, in any order and number, [receive_batch] hands the
    original payloads to the worker in arrival order, from the source address
    with the peer's port. *)
Theorem carriers_deliver `{KeystreamLaws} `{RngLaws} {T : Type} `{DatagramTransportLaws T} (over_raw : bool) cs preshared (s : Disguised T) l :
  config_ok cs → mode cs ≠ off → (length preshared ≤ 32)%nat → obf_ok cs (derive_obfuscation_key preshared) (obfuscator_ s) → transport_live (transport_ s) → l ≠ [] →
  ∃ batch t0 s', out_destination <$> batch = out_destination <$> l ∧ (priming_pending_ s = false → t0 = transport_ s) ∧
    (if over_raw then rawproto_send_batch else icmp_send_batch) l s = (s', (transport_send batch t0).2) ∧ transport_ s' = (transport_send batch t0).1 ∧
    ∀ cr (r : Disguised T) buffers n t' arrivals, config_ok cr → mode cr = mode cs → obf_ok cr (derive_obfuscation_key preshared) (obfuscator_ r) →
      transport_receive buffers n (transport_ r) = (t', Ok (arrived (out_payload <$> batch) arrivals)) → Forall (λ a, a.1 < length l)%nat arrivals →
      ∃ r', (if over_raw then rawproto_receive_batch else icmp_receive_batch) buffers n r =
        (r', Ok (arrived (out_payload <$> l) ((λ a, (a.1, with_peer_port (peer_ r) a.2)) <$> arrivals))).
Proof.
  intros Hcs Hoff Hpsk Hs Ht Hl. pose proof (length_derived_key preshared Hpsk) as Hkey. set (key := derive_obfuscation_key preshared) in *.
  destruct (send_disguised cs key keep_destination l s Hcs Hkey Hoff Hs Ht Hl) as (t0 & wires & s' & Hw & Hp & _ & E & Et & _).
  pose proof (Forall2_length _ _ _ Hw) as Hlen. exists (zip_with keep_destination l wires), t0, s'. split; [by apply zip_destinations|]. split; [done|].
  assert ((if over_raw then rawproto_send_batch else icmp_send_batch) l s = sbind (send_priming l) (λ _, send_wrapped keep_destination l) s) as ->.
  { destruct over_raw; unfold rawproto_send_batch, icmp_send_batch, sbind at 1, state, gets; by rewrite (enabled_mode cs key s Hs Hoff). }
  split; [done|]. split; [done|]. intros cr r buffers n t' arrivals Hcr Hm Hr Hrecv Ha. rewrite zip_payloads in Hrecv by done.
  set (r1 := mkDisguised t' (peer_ r) (obfuscator_ r) (priming_pending_ r)).
  assert ((if over_raw then rawproto_receive_batch else icmp_receive_batch) buffers n r = unwrap_datagrams (with_peer_port (peer_ r)) (arrived wires arrivals) r1) as ->.
  { destruct over_raw; unfold rawproto_receive_batch, icmp_receive_batch, sbind, on_transport, state, gets; rewrite Hrecv;
      (replace (is_enabled _) with true; [done|symmetry; apply (enabled_mode cr key); [done|congruence]]). }
  by apply (receive_disguised cs cr key).
Qed.

(** Over a loopback transport: what is sent is queued, and what is queued is
    received.  Of two datagrams the second arrives first. *)
Section sample.
#[local] Existing Instances toy_keystream toy_keystream_laws toy_rng toy_rng_laws.

Definition loopback : Type := list InboundDatagram.
#[local] Instance loopback_transport : DatagramTransport loopback := {|
  transport_send l q := (q ++ ((λ d, mkInbound (out_destination d) (out_payload d)) <$> l), Ok (length l));
  transport_receive b n q := (drop n q, Ok (take n q));
  transport_live _ := True;
|}.
#[local] Instance loopback_laws : DatagramTransportLaws loopback.
Proof. split; intros; cbn; [done|]. split; [done|]. rewrite length_take. lia. Qed.

Lemma loopback_pair (d1 d2 : OutboundDatagram) p : out_destination d1 = p → out_destination d2 = p →
  (transport_send [d1; d2] ([] : loopback)).1 = arrived (out_payload <$> [d1; d2]) [(0, p); (1, p)]%nat.
Proof. intros <- E2. cbn. by rewrite E2. Qed.

Definition disguised_peer : Endpoint := mkEndpoint (from_bytes ipv4 [192; 0; 2; 7]) 443.
Definition disguised_end (queue : loopback) : Disguised loopback := mkDisguised queue disguised_peer sample_obfuscator false.
Definition disguised_batch : list OutboundDatagram := (λ b, mkOutbound disguised_peer b 0 false false) <$> [[1; 2; 3]; [4]].

Lemma carriers_deliver_witness : ∃ s' wires, icmp_send_batch disguised_batch (disguised_end []) = (s', Ok 2%nat) ∧ transport_ s' = arrived wires [(0, disguised_peer); (1, disguised_peer)]%nat ∧
  (icmp_receive_batch (mkReceiveBuffers 4 2048) 4 (disguised_end (rev (transport_ s')))).2 = Ok ((λ b, mkInbound disguised_peer b) <$> [[4]; [1; 2; 3]]).
Proof.
  assert (config_ok sample_config) as Hcfg by (by split).
  destruct (carriers_deliver false sample_config (replicate 32 1) (disguised_end []) disguised_batch)
    as (batch & t0 & s' & Hd & Ht & E & Es & Hr); [exact Hcfg|done|cbn; lia|apply configured_ok|done|done|].
  rewrite (Ht eq_refl) in E, Es. exists s', (out_payload <$> batch). pose proof (f_equal length Hd) as Hlen. rewrite !length_fmap in Hlen. change (length disguised_batch) with 2%nat in Hlen.
  destruct batch as [|d1 [|d2 [|]]]; [discriminate Hlen..| |discriminate Hlen].
  injection Hd as H1 H2.
  assert (transport_ s' = arrived (out_payload <$> [d1; d2]) [(0, disguised_peer); (1, disguised_peer)]%nat) as Eq by (rewrite Es; exact (loopback_pair d1 d2 disguised_peer H1 H2)).
  split; [exact E|]. split; [exact Eq|]. destruct (Hr sample_config (disguised_end (rev (transport_ s'))) (mkReceiveBuffers 4 2048) 4%nat [] [(1, disguised_peer); (0, disguised_peer)]%nat) as [r' Hr'].
  - exact Hcfg.
  - exact eq_refl.
  - apply configured_ok.
  - rewrite Eq. exact eq_refl.
  - constructor; [cbn; lia|]. constructor; [cbn; lia|by constructor].
  - rewrite Hr'. vm_compute. exact eq_refl.
Defined.
End sample.
