(* ===== verification/TcpCarrier.v ===== *)
(** The carrier over TCP connections: [TcpCarrier] of [src/carrier.cpp].

    The carrier keeps a primary connection and up to seven more, each with a
    [ConnectionSlot] that times its setup, its retries and its silence.  [poll]
    drives every connection by one step and rotates the oldest; [send_batch]
    spreads datagrams over the ready connections by flow; [receive_batch] drains
    them in turn.  Connection 0 is the primary, [S i] is [extra_[i]].

    What the system answers while a connection is driven is a [DriveAnswers]. *)

From S2P Require Import Prelude Packet Fec Address Timers Worker Noise Obfuscation SshFramer Camouflage Tcp Udp Icmp Carrier.

Definition kCarrierSetupTimeout : Duration := seconds 15.
Definition kCarrierRetryBase : Duration := milliseconds 250.
Definition kCarrierRetryMax : Duration := seconds 30.
Definition kConnectionSilenceTimeout : Duration := seconds 60.

Record ConnectionSlot := mkSlot { started : bool; phase_since : Instant; next_attempt : Instant; failures : Z; last_rx : Instant }.
Definition fresh_slot : ConnectionSlot := mkSlot false 0 0 0 0.

(** What the setters configure. *)
Record TcpSettings := mkTcpSettings {
  dialing_ : bool;
  camouflage_ : bool;
  pop3_ : bool;
  greet_profile_ : GreetProfile;
  raw_ : bool;
  ssh_ : bool;
  sni_pool_ : list (list Z);
  carrier_mark_ : Z;
}.

Record TcpCarrier := mkTcpCarrier {
  primary_ : TcpTransport;
  tcp_peer_ : Endpoint;
  settings_ : TcpSettings;
  primary_slot_ : ConnectionSlot;
  sni_ : list Z;
  sni_index_ : nat;
  tcp_obfuscator_ : Obfuscator;
  tcp_stats_ : TransportStats;
  target_ : nat;
  rotate_interval_ : Duration;
  last_rotate_ : Instant;
  extra_ : list TcpTransport;
  extra_slots_ : list ConnectionSlot;
}.

Definition new_tcp_carrier (transport : TcpTransport) (peer : Endpoint) (dialing : bool) (calls : nat) : TcpCarrier :=
  mkTcpCarrier transport peer (mkTcpSettings dialing false false pop3_profile false false [] 0) fresh_slot [] 0 (new_obfuscator calls) no_traffic 1 0 0 [] [].

Definition with_connections (p : TcpTransport) (ps : ConnectionSlot) (l : list TcpTransport) (ls : list ConnectionSlot) (c : TcpCarrier) : TcpCarrier :=
  mkTcpCarrier p (tcp_peer_ c) (settings_ c) ps (sni_ c) (sni_index_ c) (tcp_obfuscator_ c) (tcp_stats_ c) (target_ c) (rotate_interval_ c) (last_rotate_ c) l ls.
Definition with_sni (name : list Z) (index : nat) (c : TcpCarrier) : TcpCarrier :=
  mkTcpCarrier (primary_ c) (tcp_peer_ c) (settings_ c) (primary_slot_ c) name index (tcp_obfuscator_ c) (tcp_stats_ c) (target_ c) (rotate_interval_ c) (last_rotate_ c)
    (extra_ c) (extra_slots_ c).
Definition with_tcp_obfuscator (o : Obfuscator) (c : TcpCarrier) : TcpCarrier :=
  mkTcpCarrier (primary_ c) (tcp_peer_ c) (settings_ c) (primary_slot_ c) (sni_ c) (sni_index_ c) o (tcp_stats_ c) (target_ c) (rotate_interval_ c) (last_rotate_ c)
    (extra_ c) (extra_slots_ c).
Definition with_tcp_stats (f : TransportStats → TransportStats) (c : TcpCarrier) : TcpCarrier :=
  mkTcpCarrier (primary_ c) (tcp_peer_ c) (settings_ c) (primary_slot_ c) (sni_ c) (sni_index_ c) (tcp_obfuscator_ c) (f (tcp_stats_ c)) (target_ c) (rotate_interval_ c)
    (last_rotate_ c) (extra_ c) (extra_slots_ c).
Definition with_target (n : nat) (c : TcpCarrier) : TcpCarrier :=
  mkTcpCarrier (primary_ c) (tcp_peer_ c) (settings_ c) (primary_slot_ c) (sni_ c) (sni_index_ c) (tcp_obfuscator_ c) (tcp_stats_ c) n (rotate_interval_ c) (last_rotate_ c)
    (extra_ c) (extra_slots_ c).
Definition with_rotation (interval : Duration) (last : Instant) (c : TcpCarrier) : TcpCarrier :=
  mkTcpCarrier (primary_ c) (tcp_peer_ c) (settings_ c) (primary_slot_ c) (sni_ c) (sni_index_ c) (tcp_obfuscator_ c) (tcp_stats_ c) (target_ c) interval last
    (extra_ c) (extra_slots_ c).
Definition with_settings (s : TcpSettings) (c : TcpCarrier) : TcpCarrier :=
  mkTcpCarrier (primary_ c) (tcp_peer_ c) s (primary_slot_ c) (sni_ c) (sni_index_ c) (tcp_obfuscator_ c) (tcp_stats_ c) (target_ c) (rotate_interval_ c) (last_rotate_ c)
    (extra_ c) (extra_slots_ c).

(** ** Settings *)

Definition carrier_set_camouflage (name : list Z) (c : TcpCarrier) : TcpCarrier :=
  let s := settings_ c in
  with_sni name (sni_index_ c) (with_settings (mkTcpSettings (dialing_ s) true (pop3_ s) (greet_profile_ s) (raw_ s) (ssh_ s) (sni_pool_ s) (carrier_mark_ s)) c).
Definition set_pop3 (profile : GreetProfile) (c : TcpCarrier) : TcpCarrier :=
  let s := settings_ c in
  with_settings (mkTcpSettings (dialing_ s) (camouflage_ s) true profile (raw_ s) (ssh_ s) (sni_pool_ s) (carrier_mark_ s)) c.
Definition set_raw (c : TcpCarrier) : TcpCarrier :=
  let s := settings_ c in
  with_settings (mkTcpSettings (dialing_ s) (camouflage_ s) (pop3_ s) (greet_profile_ s) true (ssh_ s) (sni_pool_ s) (carrier_mark_ s)) c.
Definition set_ssh (c : TcpCarrier) : TcpCarrier :=
  let s := settings_ c in
  with_settings (mkTcpSettings (dialing_ s) (camouflage_ s) (pop3_ s) (greet_profile_ s) (raw_ s) true (sni_pool_ s) (carrier_mark_ s)) c.
Definition set_sni_pool (pool : list (list Z)) (c : TcpCarrier) : TcpCarrier :=
  match pool with
  | [] => c
  | first :: _ =>
      let s := settings_ c in
      with_sni first (sni_index_ c) (with_settings (mkTcpSettings (dialing_ s) (camouflage_ s) (pop3_ s) (greet_profile_ s) (raw_ s) (ssh_ s) pool (carrier_mark_ s)) c)
  end.
Definition carrier_set_mark (mark : Z) (c : TcpCarrier) : TcpCarrier :=
  let s := settings_ c in
  with_settings (mkTcpSettings (dialing_ s) (camouflage_ s) (pop3_ s) (greet_profile_ s) (raw_ s) (ssh_ s) (sni_pool_ s) mark) c.
Definition set_connections (count : nat) (c : TcpCarrier) : TcpCarrier := with_target (Nat.min (Nat.max count 1) 8) c.
Definition set_rotate_interval (interval : Duration) (c : TcpCarrier) : TcpCarrier :=
  let c := with_rotation interval (last_rotate_ c) c in
  if (0 <? interval) && (target_ c <? 2)%nat then with_target 2 c else c.
Definition wants_more (c : TcpCarrier) : bool := (length (extra_ c) + 1 <? target_ c)%nat.
Definition adopt (connection : TcpTransport) (c : TcpCarrier) : TcpCarrier :=
  if (target_ c <=? length (extra_ c) + 1)%nat then c
  else with_connections (primary_ c) (primary_slot_ c) (extra_ c ++ [connection]) (extra_slots_ c ++ [fresh_slot]) c.
Definition primary_replaced (c : TcpCarrier) : TcpCarrier := with_connections (primary_ c) fresh_slot (extra_ c) (extra_slots_ c) c.
Definition primary_replaced_started (c : TcpCarrier) : TcpCarrier :=
  with_connections (primary_ c) (mkSlot true 0 0 0 0) (extra_ c) (extra_slots_ c) c.

(** ** Connections *)

Definition tls_established (t : TcpTransport) : bool := match tls_ t with Some session => established_ session | None => false end.

Definition connection_ready (s : TcpSettings) (t : TcpTransport) : bool :=
  bool_decide (state_ t = connected) &&
  (if raw_ s then true else if ssh_ s then ssh_ready_ (ssh t) else if pop3_ s then pop3_ready_ (pop3 t) else tls_established t).

Definition ready_count (c : TcpCarrier) : nat :=
  ((if connection_ready (settings_ c) (primary_ c) then 1 else 0) + length (filter (λ t, connection_ready (settings_ c) t = true) (extra_ c)))%nat.

(** [delay *= 2] while it is below the maximum: eight doublings reach it. *)
Fixpoint retry_loop (fuel : nat) (failures step delay : Z) : Z :=
  match fuel with
  | O => delay
  | S fuel => if (step <? failures) && (delay <? kCarrierRetryMax) then retry_loop fuel failures (step + 1) (delay * 2) else delay
  end.
Definition retry_delay (failures : Z) : Duration := Z.min (retry_loop 8 failures 0 kCarrierRetryBase) kCarrierRetryMax.

Definition note_failure (now : Instant) (s : ConnectionSlot) : ConnectionSlot :=
  mkSlot false 0 (now + retry_delay (failures s)) (u32 (failures s + 1)) 0.

Record DriveAnswers := mkDriveAnswers {
  da_dialling : Dialling;
  da_fresh : Socket;
  da_so_error : SoError;
  da_tls_available : bool;
  da_tls_started : bool;
  da_tls_handshake : res Errno unit;
}.

(** What [drive] works on: the connection, its slot, and the name to present. *)
Record Driven := mkDriven { dv_transport : TcpTransport; dv_slot : ConnectionSlot; dv_sni : list Z; dv_sni_index : nat }.
Abbreviation driving := (effect Driven TransportError).

(** The result of a call on the connection. *)
Definition call {A} (m : effect TcpTransport TransportError A) : driving (res TransportError A) := λ d,
  let '(t, r) := m (dv_transport d) in
  (mkDriven t (dv_slot d) (dv_sni d) (dv_sni_index d), match r with Ub => Ub | r => Ok r end).
Definition succeeded {A} (r : res TransportError A) : bool := match r with Ok _ => true | _ => false end.

Definition on_slot (f : ConnectionSlot → ConnectionSlot) (d : Driven) : Driven :=
  mkDriven (dv_transport d) (f (dv_slot d)) (dv_sni d) (dv_sni_index d).
Definition mark_started (b : bool) (s : ConnectionSlot) : ConnectionSlot := mkSlot b (phase_since s) (next_attempt s) (failures s) (last_rx s).
Definition mark_phase (now : Instant) (s : ConnectionSlot) : ConnectionSlot := mkSlot (started s) now (next_attempt s) (failures s) (last_rx s).
Definition mark_heard (now : Instant) (s : ConnectionSlot) : ConnectionSlot := mkSlot (started s) (phase_since s) (next_attempt s) (failures s) now.
Definition mark_healthy (s : ConnectionSlot) : ConnectionSlot := mkSlot (started s) (phase_since s) 0 0 (last_rx s).

(** The next name of the pool. *)
Definition next_sni (pool : list (list Z)) (d : Driven) : Driven :=
  match pool with
  | [] => d
  | _ => mkDriven (dv_transport d) (dv_slot d) (default [] (pool !! (dv_sni_index d `mod` length pool)%nat)) (S (dv_sni_index d))
  end.

Definition close_failed (now : Instant) : driving unit :=
  bind _ := call (modify close) in
  modify (on_slot (note_failure now)).

Definition flush_pending : driving unit :=
  bind d := state in
  if none_left (outbox_ (dv_transport d)) then sret tt else
  bind _ := call flush_output in
  sret tt.

(** A greeting or handshake: it is begun once, then polled until it is done;
    afterwards what is pending is flushed. *)
Definition converse {A} (enable : effect TcpTransport TransportError unit) (established : TcpTransport → bool) (poll : effect TcpTransport TransportError A)
    : driving unit :=
  bind d := state in
  bind ready :=
    (if started (dv_slot d) then sret true else
     bind r := call enable in
     if succeeded r then bind _ := modify (on_slot (mark_started true)) in sret true else sret false) in
  if negb ready then sret tt else
  bind d := state in
  if negb (established (dv_transport d)) then bind _ := call poll in sret tt else flush_pending.

Definition drive_dial (s : TcpSettings) (peer : Endpoint) (a : DriveAnswers) (now : Instant) : driving unit :=
  bind d := state in
  if negb (next_attempt (dv_slot d) =? 0) && (now <? next_attempt (dv_slot d)) then sret tt else
  bind _ := modify (on_slot (mark_started false)) in
  bind _ := modify (next_sni (sni_pool_ s)) in
  bind _ := call (modify (set_mark (carrier_mark_ s))) in
  bind r := call (connect peer (da_dialling a) (da_fresh a)) in
  if succeeded r then modify (on_slot (mark_phase now)) else modify (on_slot (note_failure now)).

(** The part of [drive] for a connection that is set up. *)
Definition drive_disguise (s : TcpSettings) (a : DriveAnswers) (dialing : bool) : driving unit :=
  if raw_ s then bind _ := modify (on_slot (mark_started true)) in flush_pending
  else if pop3_ s then converse (enable_pop3 dialing (greet_profile_ s)) (λ t, pop3_ready_ (pop3 t)) poll_pop3
  else if ssh_ s then converse (enable_ssh dialing) (λ t, ssh_ready_ (ssh t)) poll_ssh
  else converse (enable_tls (da_tls_available a) (da_tls_started a)) tls_established (poll_tls (da_tls_handshake a)).

Definition drive_open (s : TcpSettings) (a : DriveAnswers) (dialing : bool) (now : Instant) : driving unit :=
  bind _ := modify (λ d, if phase_since (dv_slot d) =? 0 then on_slot (mark_phase now) d else d) in
  bind d := state in
  if bool_decide (state_ (dv_transport d) = failed) then close_failed now else
  let ready := connection_ready s (dv_transport d) in
  if negb ready && (kCarrierSetupTimeout <? now - phase_since (dv_slot d)) then close_failed now else
  bind _ := modify (λ d, if ready && (last_rx (dv_slot d) =? 0) then on_slot (mark_heard now) d else d) in
  bind d := state in
  if ready && (kConnectionSilenceTimeout <? now - last_rx (dv_slot d)) then close_failed now else
  bind _ := modify (λ d, if ready then on_slot mark_healthy d else d) in
  bind r := (if bool_decide (state_ (dv_transport d) = connecting) then call (poll_connect (da_so_error a)) else sret (Ok true)) in
  match r with
  | Ok true =>
      bind d := state in
      if negb (bool_decide (state_ (dv_transport d) = connected)) then sret tt else drive_disguise s a dialing
  | Ok false => sret tt
  | _ => close_failed now
  end.

Definition drive (s : TcpSettings) (peer : Endpoint) (a : DriveAnswers) (now : Instant) : driving unit :=
  bind d := state in
  if dialing_ s && bool_decide (state_ (dv_transport d) = closed) then drive_dial s peer a now
  else if bool_decide (state_ (dv_transport d) = closed) then sret tt
  else drive_open s a (dialing_ s) now.

(** ** [poll] *)

Abbreviation carried := (effect TcpCarrier TransportError).

(** [drive] of the primary, or of [extra_[i]] with [extra_slots_[i]]. *)
Definition drive_primary (a : DriveAnswers) (now : Instant) : carried unit := λ c,
  let '(d, r) := drive (settings_ c) (tcp_peer_ c) a now (mkDriven (primary_ c) (primary_slot_ c) (sni_ c) (sni_index_ c)) in
  (with_sni (dv_sni d) (dv_sni_index d) (with_connections (dv_transport d) (dv_slot d) (extra_ c) (extra_slots_ c) c), r).
Definition drive_extra (a : DriveAnswers) (now : Instant) (i : nat) : carried unit := λ c,
  match extra_ c !! i, extra_slots_ c !! i with
  | Some t, Some s =>
      let '(d, r) := drive (settings_ c) (tcp_peer_ c) a now (mkDriven t s (sni_ c) (sni_index_ c)) in
      (with_sni (dv_sni d) (dv_sni_index d)
        (with_connections (primary_ c) (primary_slot_ c) (<[i := dv_transport d]> (extra_ c)) (<[i := dv_slot d]> (extra_slots_ c)) c), r)
  | _, _ => (c, Ub)
  end.
Fixpoint drive_extras (answers : nat → DriveAnswers) (now : Instant) (n i : nat) : carried unit :=
  match n with
  | O => sret tt
  | S n => bind _ := drive_extra (answers (S i)) now i in drive_extras answers now n (S i)
  end.

(** [extra_.emplace_back()] until the target is reached. *)
Definition fill_extras (c : TcpCarrier) : TcpCarrier :=
  let missing := (target_ c - 1 - length (extra_ c))%nat in
  with_connections (primary_ c) (primary_slot_ c) (extra_ c ++ replicate missing new_transport) (extra_slots_ c ++ replicate missing fresh_slot) c.

(** The slot of connection [i]. *)
Definition slot_at (c : TcpCarrier) (i : nat) : option ConnectionSlot := match i with O => Some (primary_slot_ c) | S i => extra_slots_ c !! i end.
Definition connection_at (c : TcpCarrier) (i : nat) : option TcpTransport := match i with O => Some (primary_ c) | S i => extra_ c !! i end.
Definition set_connection (i : nat) (t : TcpTransport) (c : TcpCarrier) : TcpCarrier :=
  match i with
  | O => with_connections t (primary_slot_ c) (extra_ c) (extra_slots_ c) c
  | S i => with_connections (primary_ c) (primary_slot_ c) (<[i := t]> (extra_ c)) (extra_slots_ c) c
  end.
Definition set_slot_at (i : nat) (s : ConnectionSlot) (c : TcpCarrier) : TcpCarrier :=
  match i with
  | O => with_connections (primary_ c) s (extra_ c) (extra_slots_ c) c
  | S i => with_connections (primary_ c) (primary_slot_ c) (extra_ c) (<[i := s]> (extra_slots_ c)) c
  end.

(** The ready connection whose phase began first, before [since]. *)
Fixpoint oldest_ready (c : TcpCarrier) (n i : nat) (best : option nat) (since : Instant) : res TransportError (option nat) :=
  match n with
  | O => Ok best
  | S n =>
      match connection_at c i, slot_at c i with
      | Some t, Some s =>
          if connection_ready (settings_ c) t && (phase_since s <? since) then oldest_ready c n (S i) (Some i) (phase_since s)
          else oldest_ready c n (S i) best since
      | _, _ => Ub
      end
  end.

Definition rotate_oldest (now : Instant) : carried unit :=
  bind c := state in
  if last_rotate_ c =? 0 then modify (with_rotation (rotate_interval_ c) now)
  else if now - last_rotate_ c <? rotate_interval_ c then sret tt
  else if (ready_count c <? 2)%nat then sret tt
  else
    bind oldest := lift (oldest_ready c (S (length (extra_ c))) 0 None now) in
    match oldest with
    | None => sret tt
    | Some i =>
        match connection_at c i with
        | None => lift Ub
        | Some t =>
            bind _ := modify (λ c, set_slot_at i fresh_slot (set_connection i (close t) c)) in
            modify (with_rotation (rotate_interval_ c) now)
        end
    end.

(** Closed and failed connections are erased, from the last one. *)
Definition is_dead (t : TcpTransport) : bool := bool_decide (state_ t = closed) || bool_decide (state_ t = failed).
Fixpoint reap_loop (n : nat) (c : TcpCarrier) : res TransportError TcpCarrier :=
  match n with
  | O => Ok c
  | S n =>
      match extra_ c !! n, extra_slots_ c !! n with
      | Some t, Some _ =>
          reap_loop n (if is_dead t then with_connections (primary_ c) (primary_slot_ c) (delete n (extra_ c)) (delete n (extra_slots_ c)) c else c)
      | Some t, None => if is_dead t then Ub else reap_loop n c
      | None, _ => Ub
      end
  end.
Definition reap : carried unit := λ c,
  match reap_loop (length (extra_ c)) c with Ok c' => (c', Ok tt) | Fail e => (c, Fail e) | Ub => (c, Ub) end.

Definition poll_carrier (answers : nat → DriveAnswers) (now : Instant) : carried unit :=
  bind _ := drive_primary (answers 0%nat) now in
  bind c := state in
  bind _ := (if dialing_ (settings_ c) then modify fill_extras else sret tt) in
  bind c := state in
  bind _ := drive_extras answers now (length (extra_ c)) 0 in
  bind _ := (if dialing_ (settings_ c) && (0 <? rotate_interval_ c) then rotate_oldest now else sret tt) in
  if negb (dialing_ (settings_ c)) then reap else sret tt.

Definition reset_all (c : TcpCarrier) : TcpCarrier :=
  with_connections (close (primary_ c)) fresh_slot (close <$> extra_ c) ((λ _, fresh_slot) <$> extra_slots_ c) c.

(** ** Datagrams *)

Section datagrams.
Context `{Dh} `{Keystream} `{Rng}.

Definition tcp_configure_obfuscation (config : ObfuscationConfig) (preshared : list Z) (c : TcpCarrier) : TcpCarrier :=
  with_tcp_obfuscator (Obfuscation.configure (tcp_obfuscator_ c) config preshared) c.

Definition on_connection {A} (i : nat) (m : effect TcpTransport TransportError A) : carried (res TransportError A) := λ c,
  match connection_at c i with
  | None => (c, Ub)
  | Some t => let '(t, r) := m t in (set_connection i t c, match r with Ub => Ub | r => Ok r end)
  end.

(** [ready_conns]: at most eight. *)
Definition ready_connections (c : TcpCarrier) : list nat :=
  take 8 (filter (λ i, default false (connection_ready (settings_ c) <$> connection_at c i) = true) (seq 0 (S (length (extra_ c))))).

Definition tcp_obfuscating {A} (m : effect (Obfuscator * list Z) ObfuscationError.t A) (out : list Z) : carried (option A * list Z) := λ c,
  match m (tcp_obfuscator_ c, out) with
  | ((o, out), Ok a) => (with_tcp_obfuscator o c, Ok (Some a, out))
  | ((o, out), Fail _) => (with_tcp_obfuscator o c, Ok (None, out))
  | ((o, out), Ub) => (with_tcp_obfuscator o c, Ub)
  end.

(** The attempts for one datagram: the connection of its flow, then the others. *)
Fixpoint attempt_loop (n : nat) (ready : list nat) (base attempt : nat) (payload : list Z) (urgent_ : bool) : carried bool :=
  match n with
  | O => sret false
  | S n =>
      match ready !! ((base + attempt) `mod` length ready)%nat with
      | None => lift Ub
      | Some i =>
          bind result := on_connection i (send_frame payload urgent_) in
          match result with
          | Ok _ => sret true
          | Fail TransportError.would_block => attempt_loop n ready base (S attempt) payload urgent_
          | _ =>
              bind _ := modify (with_tcp_stats count_tx_error) in
              bind _ := on_connection i (modify close) in
              attempt_loop n ready base (S attempt) payload urgent_
          end
      end
  end.

(** The payload to send: [None] when it cannot be wrapped. *)
Definition wrapped_payload (payload : list Z) : carried (option (list Z)) :=
  bind c := state in
  if negb (enabled (tcp_obfuscator_ c)) then sret (Some payload) else
  bind w := tcp_obfuscating (Obfuscation.wrap payload) (replicate (length payload + max_overhead (tcp_obfuscator_ c)) 0) in
  sret ((λ n, take n w.2) <$> w.1).

Fixpoint tcp_send_loop (ready : list nat) (datagrams : list OutboundDatagram) (sent : nat) : carried nat :=
  match datagrams with
  | [] => sret sent
  | d :: rest =>
      bind payload := wrapped_payload (out_payload d) in
      match payload with
      | None =>
          bind _ := modify (with_tcp_stats count_tx_error) in
          tcp_send_loop ready rest sent
      | Some payload =>
          bind delivered := attempt_loop (length ready) ready (Z.to_nat (out_flow d) `mod` length ready) 0 payload (urgent d) in
          if negb delivered then sret sent else
          bind _ := modify (with_tcp_stats (Icmp.count_tx_datagram (length payload))) in
          tcp_send_loop ready rest (S sent)
      end
  end.

Definition tcp_send_batch (datagrams : list OutboundDatagram) : carried nat :=
  bind c := state in
  let ready := ready_connections c in
  bind _ := check (length ready =? 0)%nat TransportError.not_started in
  tcp_send_loop ready datagrams 0.

Definition count_rx_bytes (n : nat) (s : TransportStats) : TransportStats :=
  mkTransportStats (rx_packets s) (tx_packets s) (u64 (rx_bytes s + Z.of_nat n)) (tx_bytes s) (rx_errors s) (tx_errors s) (rx_truncated s) (gso_writes s) (gso_segments s).
Definition count_rx_packet (s : TransportStats) : TransportStats :=
  mkTransportStats (u64 (rx_packets s + 1)) (tx_packets s) (rx_bytes s) (tx_bytes s) (rx_errors s) (tx_errors s) (rx_truncated s) (gso_writes s) (gso_segments s).

(** The frames of one connection, as far as there is room. *)
Fixpoint deliver_frames (out_size : nat) (frames : list (list Z)) (out : list InboundDatagram) : carried (list InboundDatagram) :=
  match frames with
  | [] => sret out
  | f :: frames =>
      if (out_size <=? length out)%nat then sret out else
      bind _ := modify (with_tcp_stats (count_rx_bytes (length f))) in
      bind c := state in
      if enabled (tcp_obfuscator_ c) then
        bind u := tcp_obfuscating (Obfuscation.unwrap f) (replicate (length f) 0) in
        match u.1 with
        | None =>
            bind _ := modify (with_tcp_stats count_rx_error) in
            deliver_frames out_size frames out
        | Some n =>
            bind _ := modify (with_tcp_stats count_rx_packet) in
            deliver_frames out_size frames (out ++ [mkInbound (tcp_peer_ c) (take n u.2)])
        end
      else
        bind _ := modify (with_tcp_stats count_rx_packet) in
        deliver_frames out_size frames (out ++ [mkInbound (tcp_peer_ c) f])
  end.

Definition drain_connection (out_size : nat) (unix_now : Z) (i : nat) (out : list InboundDatagram) : carried (list InboundDatagram) :=
  bind c := state in
  match connection_at c i with
  | None => lift Ub
  | Some t =>
      if (out_size <=? length out)%nat || negb (connection_ready (settings_ c) t) then sret out else
      bind received := on_connection i (receive_frames (out_size - length out) unix_now) in
      match received with
      | Ok frames => deliver_frames out_size frames out
      | _ => bind _ := modify (with_tcp_stats count_rx_error) in sret out
      end
  end.

Fixpoint drain_connections (n i out_size : nat) (unix_now : Z) (now : Instant) (out : list InboundDatagram) : carried (list InboundDatagram) :=
  match n with
  | O => sret out
  | S n =>
      bind more := drain_connection out_size unix_now i out in
      bind c := state in
      bind _ :=
        (if (length out <? length more)%nat then
           match slot_at c i with Some s => modify (set_slot_at i (mark_heard now s)) | None => lift Ub end
         else sret tt) in
      drain_connections n (S i) out_size unix_now now more
  end.

Definition tcp_receive_batch (out_size : nat) (unix_now : Z) (now : Instant) : carried (list InboundDatagram) :=
  bind c := state in
  if (out_size =? 0)%nat then sret [] else drain_connections (S (length (extra_ c))) 0 out_size unix_now now [].

Definition tcp_max_payload (c : TcpCarrier) : Z :=
  let overhead := Z.of_nat (max_overhead (tcp_obfuscator_ c)) in
  if overhead <? kMaximumTcpFrame then kMaximumTcpFrame - overhead else kMaximumTcpFrame.

End datagrams.
