(* ===== verification/TcpCarrierCalls.v ===== *)
(** Every call on a [TcpCarrier] returns, its connections and slots stay
    matched, and rotation leaves a ready connection.

    The calls on a connection are those of [TcpCalls]. *)

From S2P Require Import Prelude Packet Fec Address Timers Worker Noise Obfuscation SshFramer Camouflage Tcp TcpCalls Udp Icmp Carrier CarrierLink TcpCarrier.

(** ** Driving a connection *)

(** [m] returns and keeps the connection's invariant. *)
Definition drives {A} (m : effect Driven TransportError A) : Prop := ∀ d, tcp_ok (dv_transport d) → tcp_ok (dv_transport (m d).1) ∧ ∃ a, (m d).2 = Ok a.

Lemma drives_bind {A B} (m : effect Driven TransportError A) (f : A → effect Driven TransportError B) : drives m → (∀ a, drives (f a)) → drives (sbind m f).
Proof.
  intros Hm Hf d Hd. destruct (Hm d Hd) as [Ht [a E]]. unfold sbind. destruct (m d) as [d' r]. cbn [fst snd] in *. subst r. by apply Hf.
Qed.
Lemma drives_state {B} (f : Driven → effect Driven TransportError B) : (∀ d, drives (f d)) → drives (sbind state f).
Proof. intros Hf d Hd. by apply Hf. Qed.
Lemma drives_ret {A} (a : A) : drives (sret a).
Proof. intros d Hd. by split; [|eexists]. Qed.
Lemma drives_modify f : (∀ d, dv_transport (f d) = dv_transport d) → drives (modify f).
Proof. intros Hf d Hd. cbn. rewrite Hf. split; [done|by eexists]. Qed.
Lemma drives_call {A} (m : effect TcpTransport TransportError A) : (∀ t, tcp_ok t → runs m t) → drives (call m).
Proof.
  intros Hm d Hd. destruct (Hm _ Hd) as [H1 H2]. unfold call. destruct (m (dv_transport d)) as [t r]. cbn [fst snd] in *. split; [done|]. destruct r; [by eexists|by eexists|done].
Qed.
Lemma drives_if {A} (b : bool) (m k : effect Driven TransportError A) : drives m → drives k → drives (if b then m else k).
Proof. by destruct b. Qed.

Section calls.
Context {dh : Dh} {ks : Keystream} {ksl : KeystreamLaws} {rng : Rng} {rngl : RngLaws}.

Lemma runs_call c t : tcp_ok t → runs (exec c) t.
Proof. apply runs_exec. Qed.

Ltac driving_step :=
  lazymatch goal with
  | |- drives (sbind state _) => apply drives_state; intros ?
  | |- drives (sbind _ _) => apply drives_bind; [|intros ?]
  | |- drives (sret _) => apply drives_ret
  | |- drives (if _ then _ else _) => apply drives_if
  | |- drives (modify _) => apply drives_modify; intros ?; try (case_match; done); try done
  end.

Lemma close_failed_drives now : drives (close_failed now).
Proof. unfold close_failed. repeat driving_step. apply drives_call. intros t Ht. exact (runs_call Close t Ht). Qed.
Lemma flush_pending_drives : drives flush_pending.
Proof. unfold flush_pending. repeat driving_step. apply drives_call. apply runs_flush. Qed.

Lemma converse_drives {A} enable established (poll : effect TcpTransport TransportError A) : (∀ t, tcp_ok t → runs enable t) → (∀ t, tcp_ok t → runs poll t) →
  drives (converse enable established poll).
Proof. intros He Hp. unfold converse. repeat driving_step; try by apply drives_call. apply flush_pending_drives. Qed.

Lemma drive_disguise_drives s a dialing : drives (drive_disguise s a dialing).
Proof.
  unfold drive_disguise. repeat (apply drives_if); [repeat driving_step; apply flush_pending_drives|..]; apply converse_drives; auto using runs_poll_pop3, runs_poll_ssh, runs_poll_tls.
  - intros t Ht. exact (runs_call (EnablePop3 dialing (greet_profile_ s)) t Ht).
  - intros t Ht. exact (runs_call (EnableSsh dialing) t Ht).
  - intros t Ht. exact (runs_call (EnableTls (da_tls_available a) (da_tls_started a)) t Ht).
Qed.

Lemma drive_drives s peer a now : drives (drive s peer a now).
Proof.
  unfold drive. apply drives_state. intros d. repeat apply drives_if; [|apply drives_ret|].
  - unfold drive_dial. repeat driving_step; try apply drives_call.
    + unfold next_sni. by destruct (sni_pool_ s).
    + intros t Ht. exact (runs_call (SetMark (carrier_mark_ s)) t Ht).
    + intros t Ht. by apply runs_connect.
  - unfold drive_open. repeat driving_step; auto using close_failed_drives.
    + apply drives_call. intros t Ht. by apply runs_poll_connect.
    + match goal with |- drives (match ?r with _ => _ end) => destruct r as [[]|e|] end; auto using close_failed_drives, drives_ret. repeat driving_step. apply drive_disguise_drives.
Qed.

(** ** The carrier *)

Definition obf_sound (o : Obfuscator) : Prop := ∃ config key, config_ok config ∧ length key = kObfuscationKeySize ∧ obf_ok config key o.

Record carrier_ok (c : TcpCarrier) : Prop := {
  co_slots : length (extra_slots_ c) = length (extra_ c);
  co_extra : (length (extra_ c) < 8)%nat;
  co_target : (1 ≤ target_ c ≤ 8)%nat;
  co_primary : tcp_ok (primary_ c);
  co_extras : Forall tcp_ok (extra_ c);
  co_obfuscator : obf_sound (tcp_obfuscator_ c);
}.

(** [m] keeps the invariant and the number of connections; what it returns is [Q]. *)
Definition holds {A} (m : effect TcpCarrier TransportError A) (c : TcpCarrier) (Q : A → Prop) : Prop :=
  carrier_ok (m c).1 ∧ length (extra_ (m c).1) = length (extra_ c) ∧ match (m c).2 with Ok a => Q a | Fail _ => True | Ub => False end.

Lemma holds_bind {A B} (m : effect TcpCarrier TransportError A) (f : A → effect TcpCarrier TransportError B) c P Q : holds m c P →
  (∀ a c', P a → carrier_ok c' → length (extra_ c') = length (extra_ c) → holds (f a) c' Q) → holds (sbind m f) c Q.
Proof.
  intros (A1 & A2 & A3) Hf. unfold holds, sbind. destruct (m c) as [c' [a|e|]]; cbn [fst snd] in *; [|done..]. destruct (Hf a c' A3 A1 A2) as (B1 & B2 & B3). split_and!; [done|congruence|done].
Qed.
Lemma holds_state {B} (f : TcpCarrier → effect TcpCarrier TransportError B) c Q : holds (f c) c Q → holds (sbind state f) c Q.
Proof. done. Qed.
Lemma holds_ret {A} (a : A) c (Q : A → Prop) : carrier_ok c → Q a → holds (sret a) c Q.
Proof. done. Qed.
Lemma holds_weaken {A} (m : effect TcpCarrier TransportError A) c (P Q : A → Prop) : (∀ a, P a → Q a) → holds m c P → holds m c Q.
Proof. intros HPQ (B1 & B2 & B3). split_and!; [done|done|]. destruct (m c).2; auto. Qed.
Lemma holds_stats {B} g (f : unit → effect TcpCarrier TransportError B) c Q : carrier_ok c → (∀ c', carrier_ok c' → length (extra_ c') = length (extra_ c) → holds (f tt) c' Q) →
  holds (sbind (modify (with_tcp_stats g)) f) c Q.
Proof. intros Hc Hf. destruct (Hf (with_tcp_stats g c)) as (B1 & B2 & B3); [by destruct Hc; split|done|]. done. Qed.

Lemma connection_exists c i : (i ≤ length (extra_ c))%nat → ∃ t, connection_at c i = Some t.
Proof. intros Hi. destruct i as [|i]; [by eexists|]. destruct (lookup_lt_is_Some_2 (extra_ c) i) as [t Ht]; [lia|]. by exists t. Qed.
Lemma slot_exists c i : carrier_ok c → (i ≤ length (extra_ c))%nat → ∃ s, slot_at c i = Some s.
Proof. intros Hc Hi. destruct i as [|i]; [by eexists|]. destruct (lookup_lt_is_Some_2 (extra_slots_ c) i) as [t Ht]; [rewrite (co_slots c Hc); lia|]. by exists t. Qed.

Lemma ok_connection c i t : carrier_ok c → connection_at c i = Some t → tcp_ok t.
Proof. intros Hc. destruct i as [|i]; cbn; [intros [= <-]; apply Hc|]. intros Ht. exact (Forall_lookup_1 _ _ _ _ (co_extras c Hc) Ht). Qed.
Lemma set_connection_ok c i t : carrier_ok c → tcp_ok t → carrier_ok (set_connection i t c).
Proof. intros [] Ht. destruct i as [|i]; split; cbn; rewrite ?length_insert; try done. by apply Forall_insert. Qed.
Lemma set_connection_length c i t : length (extra_ (set_connection i t c)) = length (extra_ c).
Proof. destruct i; [done|]. apply length_insert. Qed.
Lemma set_slot_ok c i s : carrier_ok c → carrier_ok (set_slot_at i s c).
Proof. intros []. destruct i as [|i]; split; cbn; rewrite ?length_insert; done. Qed.
Lemma set_slot_length c i s : length (extra_ (set_slot_at i s c)) = length (extra_ c).
Proof. by destruct i. Qed.

Lemma holds_connection {A} i (m : effect TcpTransport TransportError A) c : carrier_ok c → (i ≤ length (extra_ c))%nat → (∀ t, tcp_ok t → runs m t) →
  holds (on_connection i m) c (λ _, True).
Proof.
  intros Hc Hi Hm. unfold holds, on_connection. destruct (connection_exists c i Hi) as [t Et]. rewrite Et. destruct (Hm t (ok_connection c i t Hc Et)) as [A1 A2].
  destruct (m t) as [t' r]. cbn [fst snd] in *. split_and!; [by apply set_connection_ok|apply set_connection_length|by destruct r].
Qed.

(** ** [poll] *)

Lemma drive_primary_holds a now c : carrier_ok c → holds (drive_primary a now) c (λ _, True).
Proof.
  intros Hc. unfold holds, drive_primary. destruct (drive_drives (settings_ c) (tcp_peer_ c) a now (mkDriven (primary_ c) (primary_slot_ c) (sni_ c) (sni_index_ c))) as [Ht [x E]]; [apply Hc|].
  destruct (drive _ _ _ _ _) as [d r]. cbn [fst snd] in *. subst r. destruct Hc. by split_and!; [split|..].
Qed.

Lemma drive_extra_holds a now i c : carrier_ok c → (i < length (extra_ c))%nat → holds (drive_extra a now i) c (λ _, True).
Proof.
  intros Hc Hi. unfold holds, drive_extra. destruct (lookup_lt_is_Some_2 (extra_ c) i Hi) as [t Et]. destruct (lookup_lt_is_Some_2 (extra_slots_ c) i) as [s Es]; [by rewrite (co_slots c Hc)|].
  rewrite Et, Es. destruct (drive_drives (settings_ c) (tcp_peer_ c) a now (mkDriven t s (sni_ c) (sni_index_ c))) as [Ht [x E]]; [exact (Forall_lookup_1 _ _ _ _ (co_extras c Hc) Et)|].
  destruct (drive _ _ _ _ _) as [d r]. cbn [fst snd] in *. subst r. destruct Hc. split_and!; [split|..]; cbn; rewrite ?length_insert; try done. by apply Forall_insert.
Qed.

Lemma drive_extras_holds answers now n : ∀ i c, carrier_ok c → (i + n ≤ length (extra_ c))%nat → holds (drive_extras answers now n i) c (λ _, True).
Proof.
  induction n as [|n IH]; intros i c Hc Hi; cbn [drive_extras]; [done|]. eapply holds_bind; [apply drive_extra_holds; [done|lia]|]. intros _ c' _ Hc' E. apply IH; [done|lia].
Qed.

Lemma fill_extras_ok c : carrier_ok c → carrier_ok (fill_extras c).
Proof.
  intros []. unfold fill_extras. split; cbn; rewrite ?length_app, ?length_replicate; try (done || lia). apply Forall_app_2; [done|]. apply Forall_replicate.
  split; [|done|done]. cbn. intros [?|?]; discriminate.
Qed.

Lemma reap_loop_ok n : ∀ c, carrier_ok c → (n ≤ length (extra_ c))%nat → ∃ c', reap_loop n c = Ok c' ∧ carrier_ok c'.
Proof.
  induction n as [|n IH]; intros c Hc Hn; cbn [reap_loop]; [by exists c|]. destruct (lookup_lt_is_Some_2 (extra_ c) n) as [t Et]; [lia|].
  destruct (lookup_lt_is_Some_2 (extra_slots_ c) n) as [s Es]; [rewrite (co_slots c Hc); lia|]. rewrite Et, Es. apply IH; [|destruct (is_dead t); cbn; [rewrite length_delete by (by eexists)|]; lia].
  destruct (is_dead t); [|done]. destruct Hc. split; cbn; rewrite ?length_delete by (by eexists); try (done || lia). by apply Forall_delete.
Qed.

Lemma close_ok t : tcp_ok t → tcp_ok (close t).
Proof. intros Ht. apply (runs_call Close t Ht). Qed.

(** *** Rotation *)

(** The chosen connection exists and is ready. *)
Definition choice_ok (c : TcpCarrier) (best : option nat) : Prop :=
  match best with None => True | Some i => ∃ t, connection_at c i = Some t ∧ connection_ready (settings_ c) t = true end.

Lemma oldest_ready_spec c n : ∀ i best since, carrier_ok c → (i + n ≤ S (length (extra_ c)))%nat → choice_ok c best →
  ∃ best', oldest_ready c n i best since = Ok best' ∧ choice_ok c best'.
Proof.
  induction n as [|n IH]; intros i best since Hc Hi Hb; cbn [oldest_ready]; [by eexists|]. destruct (connection_exists c i) as [t Et]; [lia|].
  destruct (slot_exists c i Hc) as [s Es]; [lia|]. rewrite Et, Es. destruct (connection_ready (settings_ c) t) eqn:Er; cbn [andb]; [|apply IH; [done|lia|done]].
  destruct (_ <? _); apply IH; try done; try lia. by exists t.
Qed.

(** Changing one connection makes at most one fewer ready. *)
Lemma ready_insert (P : TcpTransport → Prop) `{∀ t, Decision (P t)} l i t : (length (filter P l) ≤ S (length (filter P (<[i:=t]> l))))%nat.
Proof.
  revert i. induction l as [|x l IH]; intros i; [cbn; lia|]. destruct i as [|i].
  - change (<[0%nat:=t]> (x :: l)) with (t :: l). rewrite !filter_cons. repeat case_decide; cbn [length]; lia.
  - specialize (IH i). change (<[S i:=t]> (x :: l)) with (x :: <[i:=t]> l). rewrite !filter_cons. case_decide; cbn [length]; lia.
Qed.
Lemma ready_after_change c i t : (ready_count c ≤ S (ready_count (set_connection i t c)))%nat.
Proof.
  unfold ready_count. destruct i as [|i]; cbn [set_connection with_connections primary_ settings_ extra_]; [destruct (connection_ready _ (primary_ c)), (connection_ready _ t); lia|]. pose proof (ready_insert (λ t, connection_ready (settings_ c) t = true) (extra_ c) i t). lia.
Qed.

(** Rotation closes a connection only when another is ready. *)
Definition rotated (c : TcpCarrier) (r : TcpCarrier * res TransportError unit) : Prop :=
  carrier_ok r.1 ∧ r.2 ≠ Ub ∧ (1 ≤ ready_count c → 1 ≤ ready_count r.1)%nat.

Lemma rotate_oldest_spec now c : carrier_ok c → rotated c (rotate_oldest now c).
Proof.
  intros Hc. unfold rotate_oldest, sbind at 1, state, gets. cbn iota beta. destruct (_ =? 0); [destruct Hc; by split_and!; [split|..]|].
  destruct (_ <? _); [done|]. destruct (Nat.ltb_spec (ready_count c) 2); [done|].
  destruct (oldest_ready_spec c (S (length (extra_ c))) 0 None now Hc) as (best & E & Hb); [lia|done|]. unfold sbind, lift. rewrite E. destruct best as [i|]; [|done].
  destruct Hb as (t & Et & _). rewrite Et. cbn [modify fst snd]. pose proof (close_ok t (ok_connection c i t Hc Et)) as Ht.
  pose proof (set_slot_ok _ i fresh_slot (set_connection_ok c i (close t) Hc Ht)) as Hok. pose proof (ready_after_change c i (close t)).
  split; [destruct Hok; by split|]. split; [done|]. intros _. assert (∀ a b c, ready_count (with_rotation a b (set_slot_at i fresh_slot c)) = ready_count c) as Hs by (intros; by destruct i).
  unfold modify. cbn [fst].
  rewrite Hs. lia.
Qed.

(** A call returns and keeps the invariant. *)
Definition returns {A} (m : effect TcpCarrier TransportError A) (c : TcpCarrier) : Prop := carrier_ok (m c).1 ∧ (m c).2 ≠ Ub.

Lemma returns_bind {A B} (m : effect TcpCarrier TransportError A) (f : A → effect TcpCarrier TransportError B) c : returns m c → (∀ a c', carrier_ok c' → returns (f a) c') → returns (sbind m f) c.
Proof. intros [A1 A2] Hf. unfold returns, sbind. destruct (m c) as [c' [a|e|]]; cbn [fst snd] in *; [by apply Hf|done..]. Qed.
Lemma returns_state {B} (f : TcpCarrier → effect TcpCarrier TransportError B) c : returns (f c) c → returns (sbind state f) c.
Proof. done. Qed.
Lemma returns_ret {A} (a : A) c : carrier_ok c → returns (sret a) c.
Proof. by split. Qed.
Lemma returns_modify f c : carrier_ok (f c) → returns (modify f) c.
Proof. by split. Qed.
Lemma returns_if {A} (b : bool) (m k : effect TcpCarrier TransportError A) c : returns m c → returns k c → returns (if b then m else k) c.
Proof. by destruct b. Qed.
Lemma returns_holds {A} (m : effect TcpCarrier TransportError A) c Q : holds m c Q → returns m c.
Proof. intros (A1 & _ & A3). split; [done|]. by destruct (m c).2. Qed.

Lemma reap_returns c : carrier_ok c → returns reap c.
Proof. intros Hc. unfold returns, reap. destruct (reap_loop_ok (length (extra_ c)) c Hc) as (c' & -> & Hc'); [lia|]. by split. Qed.

Lemma poll_carrier_returns answers now c : carrier_ok c → returns (poll_carrier answers now) c.
Proof.
  intros Hc. unfold poll_carrier. apply returns_bind; [by eapply returns_holds, drive_primary_holds|]. intros _ c1 H1. apply returns_state.
  apply returns_bind; [apply returns_if; [by apply returns_modify, fill_extras_ok|by apply returns_ret]|]. intros _ c2 H2. apply returns_state.
  apply returns_bind; [by eapply returns_holds, drive_extras_holds|]. intros _ c3 H3.
  apply returns_bind; [apply returns_if; [by split; eapply rotate_oldest_spec|by apply returns_ret]|]. intros _ c4 H4.
  apply returns_if; [by apply reap_returns|by apply returns_ret].
Qed.

(** ** Sending and receiving *)

Lemma unwrap_total config key o wire out : obf_ok config key o → length key = kObfuscationKeySize → (Obfuscation.unwrap wire (o, out)).2 ≠ Ub.
Proof.
  intros Ho Hk. unfold Obfuscation.unwrap, sbind at 1, state, gets. cbn [fst snd]. unfold sbind at 1, check. destruct (bool_decide _); [done|].
  unfold sbind at 1. destruct (Nat.ltb_spec (length wire) kObfuscationNonceSize) as [|Hw]; [done|]. unfold sbind, lift. rewrite span_first_ok, subspan_from_ok by done.
  assert (length (take kObfuscationNonceSize wire) = kObfuscationNonceSize) as Hn by (rewrite length_take; lia).
  set (nonce := take _ wire) in *. set (region := drop _ wire). clearbody nonce region. destruct (bool_decide _).
  - unfold unwrap_header, sbind at 1, state, gets. cbn [fst snd]. unfold sbind at 1, check. destruct (Nat.ltb_spec (length out) (length region)) as [|Hl]; [done|].
    assert (on_out (λ out, blit out 0 region) (o, out) = ((o, region ++ drop (length region) out), Ok tt)) as E by (unfold on_out; cbn [fst snd]; by rewrite blit_ok by lia).
    rewrite (sbind_ok _ _ _ _ _ E). rewrite <- (take_drop (Z.to_nat kPacketHeaderSize `min` length region) region) at 2. rewrite <- app_assoc.
    by erewrite sbind_ok; [|apply (mask_out_spec config key Hk o nonce []); [done|done|done|rewrite length_take; lia]].
  - unfold unwrap_full, sbind at 1, check. destruct (Nat.eqb_spec (length region) 0) as [|Hr]; [done|]. unfold sbind, modify, state, gets. cbn [fst snd].
    assert (obf_ok config key (with_scratch o region)) as Ho1 by (destruct Ho; by split). rewrite (mask_spec config key Hk _ nonce region Ho1 Hn). cbn [fst snd sret].
    pose proof (length_masked key nonce region) as Lm. set (plain := masked key nonce region) in *. clearbody plain. destruct plain as [|first plain]; [cbn in Lm; lia|].
    rewrite (rd_ok _ 0 first) by done. unfold lift. destruct (Nat.ltb_spec (length (first :: plain)) (kJunkLengthFieldSize + Z.to_nat first)) as [|Hj]; [done|].
    destruct (Nat.ltb_spec (length out) (length (first :: plain) - kJunkLengthFieldSize - Z.to_nat first)) as [|Ho2]; [done|].
    unfold on_out. cbn [fst snd]. by rewrite blit_ok by (rewrite length_drop; lia).
Qed.

Lemma with_obfuscator_ok o c : carrier_ok c → obf_sound o → carrier_ok (with_tcp_obfuscator o c).
Proof. intros [] Ho. by split. Qed.

Lemma wrapped_payload_holds payload c : carrier_ok c → holds (wrapped_payload payload) c (λ _, True).
Proof.
  intros Hc. unfold wrapped_payload. apply holds_state. destruct (enabled (tcp_obfuscator_ c)) eqn:He; cbn [negb]; [|by apply holds_ret]. apply holds_bind with (λ _, True).
  2: { intros w c' _ Hc' _. by apply holds_ret. }
  destruct (co_obfuscator c Hc) as (config & key & Hcfg & Hk & Ho). unfold enabled in He. rewrite (ob_config _ _ _ Ho) in He. apply negb_true_iff, bool_decide_eq_false_1 in He.
  set (out := replicate _ 0). assert (length payload + max_overhead (tcp_obfuscator_ c) ≤ length out)%nat as Hl by (unfold out; by rewrite length_replicate).
  destruct (wrap_spec config key (tcp_obfuscator_ c) payload out Hcfg Ho Hk He Hl) as (o & wire & E & _).
  pose proof (wrap_keeps payload (tcp_obfuscator_ c, out) config key Hcfg Ho) as Hkeep. unfold holds, tcp_obfuscating. rewrite E in Hkeep |- *. cbn [fst snd] in *.
  split; [|done]. apply with_obfuscator_ok; [done|]. by exists config, key.
Qed.

Lemma attempt_loop_holds n ready base payload urgent_ : ready ≠ [] → ∀ attempt c, carrier_ok c → Forall (λ i, i ≤ length (extra_ c))%nat ready →
  holds (attempt_loop n ready base attempt payload urgent_) c (λ _, True).
Proof.
  intros Hne. induction n as [|n IH]; intros attempt c Hc Hr; cbn [attempt_loop]; [by apply holds_ret|].
  destruct (lookup_lt_is_Some_2 ready ((base + attempt) `mod` length ready)) as [i Ei]; [apply Nat.mod_upper_bound; by destruct ready|]. rewrite Ei.
  pose proof (Forall_lookup_1 _ _ _ _ Hr Ei) as Hi. cbn beta in Hi. eapply holds_bind; [apply holds_connection; [done|done|intros; by apply runs_send]|]. intros r c1 _ H1 L1.
  assert (Forall (λ i, i ≤ length (extra_ c1))%nat ready) as Hr1 by (by rewrite L1).
  assert (holds (bind _ := modify (with_tcp_stats count_tx_error) in bind _ := on_connection i (modify close) in attempt_loop n ready base (S attempt) payload urgent_) c1 (λ _, True)) as Hbad.
  { apply holds_stats; [done|]. intros c2 H2 L2. eapply holds_bind; [apply holds_connection; [done|lia|intros t Ht; by apply (runs_call Close)]|]. intros _ c3 _ H3 L3.
    apply IH; [done|]. by rewrite L3, L2. }
  destruct r as [x|e|]; [by apply holds_ret| |done]. destruct e; try done. by apply IH.
Qed.

Lemma tcp_send_loop_holds ready : ready ≠ [] → ∀ datagrams sent c, carrier_ok c → Forall (λ i, i ≤ length (extra_ c))%nat ready →
  holds (tcp_send_loop ready datagrams sent) c (λ n, sent ≤ n ≤ sent + length datagrams)%nat.
Proof.
  intros Hne. induction datagrams as [|d rest IH]; intros sent c Hc Hr; cbn [tcp_send_loop]; [apply holds_ret; [done|cbn; lia]|].
  eapply holds_bind; [by apply wrapped_payload_holds|]. intros payload c1 _ H1 L1. destruct payload as [payload|].
  - eapply holds_bind; [apply attempt_loop_holds; [done|done|by rewrite L1]|]. intros delivered c2 _ H2 L2. destruct delivered; cbn [negb]; [|apply holds_ret; [done|cbn; lia]].
    apply holds_stats; [done|]. intros c3 H3 L3. eapply holds_weaken; [|apply IH; [done|by rewrite L3, L2, L1]]. intros n Hn. cbn [length]. cbn beta in Hn. lia.
  - apply holds_stats; [done|]. intros c2 H2 L2. eapply holds_weaken; [|apply IH; [done|by rewrite L2, L1]]. intros n Hn. cbn [length]. cbn beta in Hn. lia.
Qed.

Lemma ready_connections_exist c : Forall (λ i, i ≤ length (extra_ c))%nat (ready_connections c).
Proof. apply Forall_take, Forall_forall. intros i [_ Hi]%list_elem_of_filter. apply elem_of_seq in Hi. lia. Qed.

Lemma tcp_send_batch_holds datagrams c : carrier_ok c → holds (tcp_send_batch datagrams) c (λ n, n ≤ length datagrams)%nat.
Proof.
  intros Hc. unfold tcp_send_batch. apply holds_state. destruct (length (ready_connections c) =? 0)%nat eqn:E; [by split_and!|]. apply Nat.eqb_neq in E.
  destruct (tcp_send_loop_holds (ready_connections c)) with (datagrams := datagrams) (sent := 0%nat) (c := c) as (B1 & B2 & B3); [by destruct (ready_connections c)|done|apply ready_connections_exist|].
  split_and!; [done|done|]. change ((sbind (check false TransportError.not_started) (λ _, tcp_send_loop (ready_connections c) datagrams 0) c)) with (tcp_send_loop (ready_connections c) datagrams 0 c).
  destruct (tcp_send_loop _ _ _ c) as [c' [n|e|]]; cbn [snd] in *; [lia|done|done].
Qed.

Lemma deliver_frames_holds out_size frames : ∀ out c, carrier_ok c → (length out ≤ out_size)%nat → holds (deliver_frames out_size frames out) c (λ l, length l ≤ out_size)%nat.
Proof.
  induction frames as [|f frames IH]; intros out c Hc Hl; cbn [deliver_frames]; [by apply holds_ret|]. destruct (Nat.leb_spec out_size (length out)) as [|Hroom]; [by apply holds_ret|].
  assert (∀ d, length (out ++ [d]) ≤ out_size)%nat as Hmore by (intros d; rewrite length_app; cbn [length]; lia).
  apply holds_stats; [done|]. intros c1 H1 _. apply holds_state. destruct (enabled (tcp_obfuscator_ c1)).
  2: { apply holds_stats; [done|]. intros c2 H2 _. by apply IH. }
  apply holds_bind with (λ _, True).
  - destruct (co_obfuscator c1 H1) as (config & key & Hcfg & Hk & Ho). pose proof (unwrap_total config key _ f (replicate (length f) 0) Ho Hk) as Htot.
    pose proof (unwrap_keeps f (tcp_obfuscator_ c1, replicate (length f) 0) config key Hcfg Ho) as Hkeep. unfold holds, tcp_obfuscating.
    destruct (Obfuscation.unwrap f _) as [[o out'] r]. cbn [fst snd] in *. assert (carrier_ok (with_tcp_obfuscator o c1)) as H2 by (apply with_obfuscator_ok; [done|by exists config, key]).
    by destruct r.
  - intros [[n|] bytes] c2 _ H2 _; cbn [fst snd]; (apply holds_stats; [done|]); intros c3 H3 _; by apply IH.
Qed.

Lemma drain_connection_holds out_size unix_now i out c : carrier_ok c → (i ≤ length (extra_ c))%nat → (length out ≤ out_size)%nat → holds (drain_connection out_size unix_now i out) c (λ l, length l ≤ out_size)%nat.
Proof.
  intros Hc Hi Hl. unfold drain_connection. apply holds_state. destruct (connection_exists c i Hi) as [t Et]. rewrite Et. destruct (_ || _); [by apply holds_ret|].
  eapply holds_bind; [apply holds_connection; [done|done|intros; by apply runs_receive]|]. intros r c1 _ H1 _. destruct r as [frames|e|]; [by apply deliver_frames_holds|..];
    (apply holds_stats; [done|]); intros c2 H2 _; by apply holds_ret.
Qed.

Lemma drain_connections_holds out_size unix_now now n : ∀ i out c, carrier_ok c → (i + n ≤ S (length (extra_ c)))%nat → (length out ≤ out_size)%nat →
  holds (drain_connections n i out_size unix_now now out) c (λ l, length l ≤ out_size)%nat.
Proof.
  induction n as [|n IH]; intros i out c Hc Hi Hl; cbn [drain_connections]; [by apply holds_ret|]. eapply holds_bind; [apply drain_connection_holds; [done|lia|done]|]. intros more c1 Hm H1 L1.
  apply holds_state. apply holds_bind with (λ _, True).
  - destruct (_ <? _)%nat; [|by apply holds_ret]. destruct (slot_exists c1 i H1) as [s Es]; [lia|]. rewrite Es. unfold holds. split_and!; [by apply set_slot_ok|apply set_slot_length|done].
  - intros _ c2 _ H2 L2. apply IH; [done|lia|done].
Qed.

Lemma tcp_receive_batch_holds out_size unix_now now c : carrier_ok c → holds (tcp_receive_batch out_size unix_now now) c (λ l, length l ≤ out_size)%nat.
Proof. intros Hc. unfold tcp_receive_batch. apply holds_state. destruct (_ =? 0)%nat; [apply holds_ret; [done|cbn; lia]|]. apply drain_connections_holds; [done|lia|cbn; lia]. Qed.

(** ** The calls on a carrier *)

(** [ReplacePrimary] is an accepted connection put in the primary's place, [SystemSays] what the system answers next on connection [i]. *)
Inductive CarrierCall :=
| Poll (answers : nat → DriveAnswers) (now : Instant)
| SendBatch (datagrams : list OutboundDatagram)
| ReceiveBatch (out_size : nat) (unix_now : Z) (now : Instant)
| ResetAll
| Adopt (accepted : Socket)
| ReplacePrimary (accepted : Socket) (already_started : bool)
| SetCamouflage (name : list Z)
| SetPop3 (profile : GreetProfile)
| SetRaw
| SetSsh
| SetSniPool (pool : list (list Z))
| SetCarrierMark (mark : Z)
| SetConnections (count : nat)
| SetRotateInterval (interval : Duration)
| ConfigureObfuscation (config : ObfuscationConfig) (preshared : list Z)
| SystemSays (i : nat) (ans : list Sending) (arr : list Arrival).

Definition replace_primary (t : TcpTransport) (c : TcpCarrier) : TcpCarrier := with_connections t (primary_slot_ c) (extra_ c) (extra_slots_ c) c.

Definition run_call (k : CarrierCall) : effect TcpCarrier TransportError unit :=
  match k with
  | Poll answers now => poll_carrier answers now
  | SendBatch datagrams => bind _ := tcp_send_batch datagrams in sret tt
  | ReceiveBatch out_size unix_now now => bind _ := tcp_receive_batch out_size unix_now now in sret tt
  | ResetAll => modify reset_all
  | Adopt s => modify (adopt (made (Some s)))
  | ReplacePrimary s already_started => modify (λ c, (if already_started then primary_replaced_started else primary_replaced) (replace_primary (made (Some s)) c))
  | SetCamouflage name => modify (carrier_set_camouflage name)
  | SetPop3 profile => modify (set_pop3 profile)
  | SetRaw => modify set_raw
  | SetSsh => modify set_ssh
  | SetSniPool pool => modify (set_sni_pool pool)
  | SetCarrierMark mark => modify (carrier_set_mark mark)
  | SetConnections count => modify (set_connections count)
  | SetRotateInterval interval => modify (set_rotate_interval interval)
  | ConfigureObfuscation config preshared => modify (tcp_configure_obfuscation config preshared)
  | SystemSays i ans arr => bind _ := on_connection i (exec (KernelSays ans arr)) in sret tt
  end.

(** A configuration within its integer types, a key of at most 32 bytes, a connection that exists. *)
Definition call_ok (k : CarrierCall) (c : TcpCarrier) : Prop :=
  match k with
  | ConfigureObfuscation config preshared => config_ok config ∧ (length preshared ≤ 32)%nat
  | SystemSays i _ _ => (i ≤ length (extra_ c))%nat
  | _ => True
  end.

Lemma made_ok s : tcp_ok (made (Some s)).
Proof. by split. Qed.

Lemma configure_keeps o config preshared : obf_sound o → config_ok config → (length preshared ≤ 32)%nat → obf_sound (Obfuscation.configure o config preshared).
Proof.
  intros (config0 & key0 & _ & _ & []) Hc Hp. exists config, (derive_obfuscation_key preshared). split; [done|]. split; [by apply length_derived_key|]. by constructor.
Qed.

Lemma returns_value {A} (m : effect TcpCarrier TransportError A) c Q : holds m c Q → returns (bind _ := m in sret tt) c.
Proof. intros Hm. apply returns_bind; [by eapply returns_holds|]. intros a c' Hc'. by apply returns_ret. Qed.

Lemma run_call_returns k c : carrier_ok c → call_ok k c → returns (run_call k) c.
Proof.
  intros Hc Hk. destruct k; cbn [run_call call_ok] in *; try (apply returns_modify; destruct Hc; split; done).
  - by apply poll_carrier_returns.
  - by eapply returns_value, tcp_send_batch_holds.
  - by eapply returns_value, tcp_receive_batch_holds.
  - apply returns_modify. destruct Hc. split; cbn; rewrite ?length_fmap; try done; [by apply close_ok|]. apply Forall_fmap. eapply Forall_impl; [done|]. intros t. apply close_ok.
  - apply returns_modify. unfold adopt. destruct (Nat.leb_spec (target_ c) (length (extra_ c) + 1)) as [|Hroom]; [done|]. destruct Hc. split; cbn; rewrite ?length_app; cbn [length]; try done; try lia.
    apply Forall_app_2; [done|]. apply Forall_singleton, made_ok.
  - apply returns_modify. destruct Hc. destruct already_started; split; try done; apply made_ok.
  - apply returns_modify. unfold set_sni_pool. destruct pool; [done|]. destruct Hc. by split.
  - apply returns_modify. destruct Hc. split; try done. cbn. lia.
  - apply returns_modify. unfold set_rotate_interval. destruct Hc. destruct (_ && _); split; try done. cbn. lia.
  - apply returns_modify, with_obfuscator_ok; [done|]. destruct Hk. apply configure_keeps; [apply Hc|done|done].
  - eapply returns_value, holds_connection; [done|done|]. intros t Ht. by apply runs_call.
Qed.

(** A carrier made over a fresh or an accepted primary connection, and used. *)
Inductive carrier_reach : TcpCarrier → Prop :=
| reach_new accepted peer dialing calls : carrier_reach (new_tcp_carrier (made accepted) peer dialing calls)
| reach_call c k : carrier_reach c → call_ok k c → carrier_reach (run_call k c).1.

Lemma carrier_reach_ok c : carrier_reach c → carrier_ok c.
Proof.
  induction 1 as [accepted peer dialing calls|c k _ IH Hk]; [|by apply run_call_returns].
  split; cbn [new_tcp_carrier extra_slots_ extra_ target_ primary_ tcp_obfuscator_ length]; try done; try lia.
  - destruct accepted; [apply made_ok|]. split; [|done|done]. intros [?|?]; discriminate.
  - exists default_config, (replicate kObfuscationKeySize 0). split; [done|]. split; [apply length_replicate|]. constructor; cbn; try done. by apply Forall_replicate.
Qed.
End calls.

(** ** The retry delay *)

(** The delay before the next attempt doubles with each failure, from 250
    milliseconds up to 30 seconds. *)
Lemma retry_delay_doubles failures : 0 ≤ failures → retry_delay failures = Z.min (kCarrierRetryBase * 2 ^ failures) kCarrierRetryMax.
Proof.
  intros Hf. destruct (decide (failures < 8)) as [Hs|Hl].
  - assert (failures = 0 ∨ failures = 1 ∨ failures = 2 ∨ failures = 3 ∨ failures = 4 ∨ failures = 5 ∨ failures = 6 ∨ failures = 7) as Hc by lia.
    by repeat (destruct Hc as [->|Hc]; [done|]); subst.
  - assert (retry_loop 8 failures 0 kCarrierRetryBase = retry_loop 8 8 0 kCarrierRetryBase) as E.
    { unfold retry_loop. repeat match goal with |- context [(?k <? failures)] => rewrite (proj2 (Z.ltb_lt k failures)) by lia end. done. }
    unfold retry_delay. rewrite E. assert (kCarrierRetryMax ≤ kCarrierRetryBase * 2 ^ failures); [|rewrite (Z.min_r (_ * _)) by done; by vm_compute].
    transitivity (kCarrierRetryBase * 2 ^ 8); [by vm_compute|]. apply Z.mul_le_mono_nonneg_l; [by vm_compute|]. apply Z.pow_le_mono_r; lia.
Qed.

(** ** Properties *)

(** C13. TCP carrier: after any sequence of calls on a carrier (polling,
    sending, receiving, adopting and replacing connections, resetting,
    configuring), interleaved with any behaviour of the system and the other
    end, each of the at most seven extra connections has its slot, and no call
    reads a connection or a slot that is not there or writes past a buffer:
    every call returns, with a value or an error.  A send accepts at most the
    datagrams it was given, a receive returns at most as many as fit, and
    rotation never closes the last connection that is ready. *)
Theorem tcp_carrier_calls_return `{Dh} `{KeystreamLaws} `{RngLaws} c : carrier_reach c →
  length (extra_slots_ c) = length (extra_ c) ∧ (length (extra_ c) < 8)%nat ∧
  (∀ k, call_ok k c → (run_call k c).2 ≠ Ub) ∧
  (∀ l n, (tcp_send_batch l c).2 = Ok n → n ≤ length l)%nat ∧
  (∀ size unix_now now out, (tcp_receive_batch size unix_now now c).2 = Ok out → length out ≤ size)%nat ∧
  (∀ now, 1 ≤ ready_count c → 1 ≤ ready_count (rotate_oldest now c).1)%nat.
Proof.
  intros Hr. pose proof (carrier_reach_ok c Hr) as Hc. split_and!; try apply Hc.
  - intros k Hk. by apply run_call_returns.
  - intros l n E. destruct (tcp_send_batch_holds l c Hc) as (_ & _ & Hn). by rewrite E in Hn.
  - intros size unix_now now out E. destruct (tcp_receive_batch_holds size unix_now now c Hc) as (_ & _ & Hn). by rewrite E in Hn.
  - intros now. apply (rotate_oldest_spec now c Hc).
Qed.

(** An accepted primary and an adopted connection, both ready in raw mode. *)
Section sample.
#[local] Existing Instances toy_dh toy_keystream toy_keystream_laws toy_rng toy_rng_laws.

Definition carrier_peer : Endpoint := mkEndpoint (from_bytes ipv4 [192; 0; 2; 7]) 443.
Definition carrier_socket : Socket := mkSocket [Accepts 100; Accepts 100] [Bytes [0; 2; 8; 9]; Blocked] [].
Definition carrier_calls : list CarrierCall :=
  [SetRaw; SetConnections 2; ConfigureObfuscation (mkConfig off false false false 64 256) (replicate 32 3);
   ReplacePrimary carrier_socket true; Adopt carrier_socket; SetRotateInterval 5].
Definition carrier_sample : TcpCarrier := foldl (λ c k, (run_call k c).1) (new_tcp_carrier (made None) carrier_peer false 0) carrier_calls.

Lemma carrier_sample_reached : carrier_reach carrier_sample.
Proof. unfold carrier_sample, carrier_calls. cbn [foldl]. do 6 (apply reach_call; [|first [exact I|split; [by split|cbn; lia]]]). apply (reach_new None). Qed.

Lemma tcp_carrier_calls_return_witness : ready_count carrier_sample = 2%nat ∧ (tcp_send_batch [mkOutbound carrier_peer [5; 6] 1 false false] carrier_sample).2 = Ok 1%nat ∧
  length (extra_slots_ carrier_sample) = 1%nat ∧ (run_call ResetAll carrier_sample).2 ≠ Ub.
Proof.
  destruct (tcp_carrier_calls_return carrier_sample carrier_sample_reached) as (Hl & _ & Hk & _). split; [by vm_compute|]. split; [by vm_compute|].
  split; [rewrite Hl; by vm_compute|exact (Hk ResetAll I)].
Defined.
End sample.
