(* ===== verification/Fallback.v ===== *)
(** The relay for rejected visitors: [src/fallback_proxy.cpp].

    A visitor who cannot prove to know the tunnel is connected to a cover site:
    the bytes read from it so far (the prelude) and everything after them go to
    the cover, and what the cover answers goes back.  The two sockets are those
    of [Tcp]; they are kept beside the proxy, which holds their descriptors. *)

From S2P Require Import Prelude Timers Tcp.

Definition kFallbackIdleTimeout : Duration := seconds 60.
Definition kBufferLimit : nat := Z.to_nat 65536.
Definition kPullSize : nat := Z.to_nat 16384.

Record FallbackProxy := mkProxy {
  client_ : bool;
  cover_ : bool;
  to_cover_ : list Z;
  to_client_ : list Z;
  connecting_ : bool;
  client_eof_ : bool;
  cover_eof_ : bool;
  cover_shut_ : bool;
  client_shut_ : bool;
  last_activity_ : Instant;
  active_ : bool;
}.
Definition new_proxy : FallbackProxy := mkProxy false false [] [] false false false false false 0 false.

(** The proxy and the two connections. *)
Record Relay := mkRelay { proxy : FallbackProxy; client_side : Socket; cover_side : Socket }.

(** [connect]: done, under way, or refused. *)
Inductive Connecting := ConnectDone | ConnectInProgress | ConnectRefused.
(** [poll] and [getsockopt] for the connection to the cover. *)
Inductive Probe := ProbePending | ProbeFailed | ProbeConnected.

Definition proxy_start (made : bool) (result : Connecting) (prelude : list Z) (now : Instant) (p : FallbackProxy) : FallbackProxy * res TransportError unit :=
  if negb made then (p, Fail TransportError.socket_creation_failed) else
  match result with
  | ConnectRefused => (p, Fail TransportError.send_failed)
  | _ =>
      (mkProxy true true prelude (to_client_ p) (match result with ConnectInProgress => true | _ => false end) (client_eof_ p) (cover_eof_ p)
        (cover_shut_ p) (client_shut_ p) now true, Ok tt)
  end.

Definition proxy_close (p : FallbackProxy) : FallbackProxy :=
  mkProxy false false [] [] (connecting_ p) (client_eof_ p) (cover_eof_ p) (cover_shut_ p) (client_shut_ p) (last_activity_ p) false.

(** What [epoll] is told to wait for. *)
Definition wants_cover_write (p : FallbackProxy) : bool := connecting_ p || negb (none_left (to_cover_ p)).
Definition wants_client_write (p : FallbackProxy) : bool := negb (none_left (to_client_ p)).
Definition wants_client_read (p : FallbackProxy) : bool := negb (client_eof_ p) && (length (to_cover_ p) <? kBufferLimit)%nat.
Definition wants_cover_read (p : FallbackProxy) : bool := negb (connecting_ p) && negb (cover_eof_ p) && (length (to_client_ p) <? kBufferLimit)%nat.

(** ** The two lambdas of [pump]: a socket and the buffer beside it *)

(** [drain]: [Ok moved] is [true], [Fail] is [false].  Each turn uses up an
    answer of the kernel; without one, [send] would block. *)
Fixpoint relay_drain_loop (fuel off : nat) : effect (Socket * list Z) Errno nat := λ w,
  match fuel with
  | O => (w, Ub)
  | S fuel =>
      if (length w.2 <=? off)%nat then (w, Ok off) else
      match sys_send (drop off w.2) w.1 with
      | (s, Ok n) => if (0 <? n)%nat then relay_drain_loop fuel (off + n) (s, w.2) else ((s, w.2), Fail EOTHER)
      | (s, Fail EAGAIN) => ((s, w.2), Ok off)
      | (s, Fail EINTR) => relay_drain_loop fuel off (s, w.2)
      | (s, _) => ((s, w.2), Fail EOTHER)
      end
  end.
Definition drain_buffer : effect (Socket * list Z) Errno nat := λ w,
  match relay_drain_loop (S (length (answers w.1))) 0 w with
  | ((s, buf), Ok off) => ((s, drop off buf), Ok off)
  | r => r
  end.

(** What is left to read, an upper bound for the number of reads. *)
Definition arrival_weight (a : Arrival) : nat := match a with Bytes l => S (length l) | _ => 1 end.
Definition reads_left (s : Socket) : nat := sum_list (arrival_weight <$> arrivals s).

(** [pull]: the number of bytes read, and whether the stream has ended. *)
Fixpoint pull_loop (fuel got : nat) : effect (Socket * list Z) Errno (nat * bool) := λ w,
  match fuel with
  | O => (w, Ub)
  | S fuel =>
      if negb (length w.2 <? kBufferLimit)%nat then (w, Ok (got, false)) else
      match sys_read kPullSize w.1 with
      | (s, Ok []) => ((s, w.2), Ok (got, true))
      | (s, Ok bytes) => pull_loop fuel (got + length bytes) (s, w.2 ++ bytes)
      | (s, Fail EAGAIN) => ((s, w.2), Ok (got, false))
      | (s, Fail EINTR) => pull_loop fuel got (s, w.2)
      | (s, _) => ((s, w.2), Fail EOTHER)
      end
  end.
Definition pull_bytes : effect (Socket * list Z) Errno (nat * bool) := λ w, pull_loop (S (reads_left w.1)) 0 w.

(** ** [pump] *)

Abbreviation relaying := (effect Relay Errno).

Definition on_proxy (f : FallbackProxy → FallbackProxy) (w : Relay) : Relay := mkRelay (f (proxy w)) (client_side w) (cover_side w).
Definition with_to_cover (l : list Z) (p : FallbackProxy) : FallbackProxy :=
  mkProxy (client_ p) (cover_ p) l (to_client_ p) (connecting_ p) (client_eof_ p) (cover_eof_ p) (cover_shut_ p) (client_shut_ p) (last_activity_ p) (active_ p).
Definition with_to_client (l : list Z) (p : FallbackProxy) : FallbackProxy :=
  mkProxy (client_ p) (cover_ p) (to_cover_ p) l (connecting_ p) (client_eof_ p) (cover_eof_ p) (cover_shut_ p) (client_shut_ p) (last_activity_ p) (active_ p).
Definition note_client_eof (p : FallbackProxy) : FallbackProxy :=
  mkProxy (client_ p) (cover_ p) (to_cover_ p) (to_client_ p) (connecting_ p) true (cover_eof_ p) (cover_shut_ p) (client_shut_ p) (last_activity_ p) (active_ p).
Definition note_cover_eof (p : FallbackProxy) : FallbackProxy :=
  mkProxy (client_ p) (cover_ p) (to_cover_ p) (to_client_ p) (connecting_ p) (client_eof_ p) true (cover_shut_ p) (client_shut_ p) (last_activity_ p) (active_ p).
Definition note_connected (p : FallbackProxy) : FallbackProxy :=
  mkProxy (client_ p) (cover_ p) (to_cover_ p) (to_client_ p) false (client_eof_ p) (cover_eof_ p) (cover_shut_ p) (client_shut_ p) (last_activity_ p) (active_ p).
Definition note_shut (cover client : bool) (p : FallbackProxy) : FallbackProxy :=
  mkProxy (client_ p) (cover_ p) (to_cover_ p) (to_client_ p) (connecting_ p) (client_eof_ p) (cover_eof_ p) (cover || cover_shut_ p) (client || client_shut_ p)
    (last_activity_ p) (active_ p).
Definition note_activity (now : Instant) (p : FallbackProxy) : FallbackProxy :=
  mkProxy (client_ p) (cover_ p) (to_cover_ p) (to_client_ p) (connecting_ p) (client_eof_ p) (cover_eof_ p) (cover_shut_ p) (client_shut_ p) now (active_ p).

(** [drain(cover_, to_cover_)], [pull(client_, to_cover_)] and so on. *)
Definition cover_with {A} (m : effect (Socket * list Z) Errno A) : relaying A := λ w,
  let '((s, l), r) := m (cover_side w, to_cover_ (proxy w)) in (mkRelay (with_to_cover l (proxy w)) (client_side w) s, r).
Definition client_with {A} (m : effect (Socket * list Z) Errno A) : relaying A := λ w,
  let '((s, l), r) := m (client_side w, to_client_ (proxy w)) in (mkRelay (with_to_client l (proxy w)) s (cover_side w), r).
Definition from_client {A} (m : effect (Socket * list Z) Errno A) : relaying A := λ w,
  let '((s, l), r) := m (client_side w, to_cover_ (proxy w)) in (mkRelay (with_to_cover l (proxy w)) s (cover_side w), r).
Definition from_cover {A} (m : effect (Socket * list Z) Errno A) : relaying A := λ w,
  let '((s, l), r) := m (cover_side w, to_client_ (proxy w)) in (mkRelay (with_to_client l (proxy w)) (client_side w) s, r).

Definition pull_client : relaying nat :=
  bind w := state in
  if client_eof_ (proxy w) then sret 0%nat else
  bind r := from_client pull_bytes in
  bind _ := (if r.2 : bool then modify (on_proxy note_client_eof) else sret tt) in
  sret r.1.
Definition pull_cover : relaying nat :=
  bind w := state in
  if cover_eof_ (proxy w) then sret 0%nat else
  bind r := from_cover pull_bytes in
  bind _ := (if r.2 : bool then modify (on_proxy note_cover_eof) else sret tt) in
  sret r.1.

(** The six transfers; the number of bytes moved. *)
Definition transfer : relaying nat :=
  bind a := cover_with drain_buffer in
  bind b := client_with drain_buffer in
  bind c := pull_client in
  bind d := pull_cover in
  bind e := cover_with drain_buffer in
  bind f := client_with drain_buffer in
  sret (a + b + c + d + e + f)%nat.

(** A direction is finished when its source has ended and nothing is left. *)
Definition cover_done (p : FallbackProxy) : bool := client_eof_ p && none_left (to_cover_ p).
Definition client_done (p : FallbackProxy) : bool := cover_eof_ p && none_left (to_client_ p).

Definition settle (now : Instant) (moved : nat) : relaying unit :=
  bind _ := modify (on_proxy (λ p, note_shut (cover_done p) (client_done p) p)) in
  bind w := state in
  if cover_done (proxy w) && client_done (proxy w) then modify (on_proxy proxy_close)
  else if (0 <? moved)%nat then modify (on_proxy (note_activity now))
  else sret tt.

Definition pump (now : Instant) (probe : Probe) : relaying unit :=
  bind w := state in
  if negb (active_ (proxy w)) then sret tt
  else if kFallbackIdleTimeout <? now - last_activity_ (proxy w) then modify (on_proxy proxy_close)
  else
    let go :=
      otherwise (bind moved := transfer in settle now moved) (modify (on_proxy proxy_close)) in
    if connecting_ (proxy w) then
      match probe with
      | ProbePending => sret tt
      | ProbeFailed => modify (on_proxy proxy_close)
      | ProbeConnected => bind _ := modify (on_proxy note_connected) in go
      end
    else go.
