(* ===== verification/FallbackRelay.v ===== *)
(** The relay loses nothing and adds nothing, keeps its buffers bounded, and
    half-closes a side only when that side has everything. *)

From S2P Require Import Prelude Timers Tcp Fallback.

(** ** Streams *)

(** The bytes of a stream, and its end. *)
Definition events (l : list Arrival) : list (option Z) :=
  l ≫= λ a, match a with Bytes [] => [None] | Bytes l => Some <$> l | _ => [] end.
Definition ended (eof : bool) : list (option Z) := if eof then [None] else [].

(** What was offered by the source is: heard, the end if it was seen, and what
    is left; what was to be passed on is: delivered, and pending. *)
Definition flows (prelude : list Z) (offered : list Arrival) (eof : bool) (left : list Arrival) (delivered pending : list Z) : Prop :=
  ∃ heard, events offered = (Some <$> heard) ++ ended eof ++ events left ∧ prelude ++ heard = delivered ++ pending.

Lemma flows_offer prelude offered eof left delivered pending more : flows prelude offered eof left delivered pending →
  flows prelude (offered ++ more) eof (left ++ more) delivered pending.
Proof. intros (heard & E & Ed). exists heard. split; [|done]. unfold events in *. rewrite !bind_app, E. by rewrite <- !app_assoc. Qed.

Lemma flows_deliver prelude offered eof left delivered pending n : flows prelude offered eof left delivered pending →
  flows prelude offered eof left (delivered ++ take n pending) (drop n pending).
Proof. intros (heard & E & Ed). exists heard. split; [done|]. by rewrite <- app_assoc, take_drop. Qed.

Lemma flows_hear prelude offered left delivered pending bytes eof left' : flows prelude offered false left delivered pending →
  events left = (Some <$> bytes) ++ ended eof ++ events left' → flows prelude offered eof left' delivered (pending ++ bytes).
Proof.
  intros (heard & E & Ed) El. exists (heard ++ bytes). split; [rewrite E, El, fmap_app; cbn [ended app]; by rewrite <- app_assoc|].
  by rewrite !app_assoc, Ed.
Qed.

(** ** A socket without faults *)

Definition sound_send (a : Sending) : Prop := match a with Accepts n => (0 < n)%nat | SendBroken => False | _ => True end.
Definition sound_arrival (a : Arrival) : Prop := a ≠ Broken.
Definition fault_free (s : Socket) : Prop := Forall sound_send (answers s) ∧ Forall sound_arrival (arrivals s).

(** ** [drain] *)

(** From [off] on, [w] was drained to [r]. *)
Definition drained (off : nat) (w : Socket * list Z) (r : (Socket * list Z) * res Errno nat) : Prop :=
  r.1.2 = w.2 ∧ arrivals r.1.1 = arrivals w.1 ∧ (fault_free w.1 → fault_free r.1.1) ∧
  ∃ n, (off ≤ n ≤ length w.2)%nat ∧ wire r.1.1 = wire w.1 ++ take (n - off) (drop off w.2) ∧
    match r.2 with Ok m => m = n | Fail _ => ¬ fault_free w.1 | Ub => False end.

Lemma fault_free_next s a rest wire' : answers s = a :: rest → fault_free s → sound_send a ∧ fault_free (mkSocket rest (arrivals s) wire').
Proof. intros E [Ha Hr]. rewrite E in Ha. inversion Ha; subst. by split. Qed.

Lemma drained_stop off w s r : (off ≤ length w.2)%nat → wire s = wire w.1 → arrivals s = arrivals w.1 → (fault_free w.1 → fault_free s) →
  match r with Ok m => m = off | Fail _ => ¬ fault_free w.1 | Ub => False end → drained off w ((s, w.2), r).
Proof.
  intros Hl Hw Ha Hf Hr. unfold drained. cbn [fst snd]. split_and!; [done|done|done|]. exists off. split; [lia|]. split; [|done]. by rewrite Nat.sub_diag, app_nil_r.
Qed.

Lemma relay_drain_loop_spec fuel : ∀ off w, (off ≤ length w.2)%nat → (length (answers w.1) < fuel)%nat → drained off w (relay_drain_loop fuel off w).
Proof.
  induction fuel as [|fuel IH]; intros off w Hl Hf; [lia|]. cbn [relay_drain_loop]. destruct w as [s buf]. cbn [fst snd] in *.
  destruct (Nat.leb_spec (length buf) off); [by apply (drained_stop off (s, buf))|]. unfold sys_send.
  destruct (answers s) as [|a rest] eqn:Ea; [by apply (drained_stop off (s, buf))|]. cbn [length] in Hf. pose proof (λ wire', fault_free_next s a rest wire' Ea) as Hff. destruct a as [n| | |]; cbn iota beta.
  - rewrite length_drop. destruct (Nat.ltb_spec 0 (n `min` (length buf - off))) as [Hn|Hn].
    + destruct (IH (off + n `min` (length buf - off))%nat (mkSocket rest (arrivals s) (wire s ++ take (n `min` (length buf - off)) (drop off buf)), buf)) as (E1 & E2 & E3 & m & Hm & E4 & E5);
        cbn [fst snd answers arrivals wire] in *; [lia|lia|]. split_and!; [done|done|intros Hs; by apply E3, Hff|]. exists m. split; [cbn [snd]; lia|]. split.
      * rewrite E4. cbn [fst snd]. rewrite <- app_assoc, <- drop_drop, take_take_drop. do 2 f_equal. lia.
      * destruct (relay_drain_loop _ _ _).2; [done| |done]. intros Hs. by apply E5, Hff.
    + replace (n `min` (length buf - off))%nat with 0%nat by lia. rewrite take_0, app_nil_r. apply (drained_stop off (s, buf)); [done|done|done|intros Hs; by apply Hff|].
      intros Hs. destruct (Hff [] Hs) as [Hn' _]. cbn in Hn'. lia.
  - destruct (IH off (mkSocket rest (arrivals s) (wire s), buf)) as (E1 & E2 & E3 & m & Hm & E4 & E5); cbn [fst snd answers arrivals wire] in *; [lia|lia|].
    split_and!; [done|done|intros Hs; by apply E3, Hff|]. exists m. split; [cbn [snd]; lia|]. split; [done|]. destruct (relay_drain_loop _ _ _).2; [done| |done]. intros Hs. by apply E5, Hff.
  - apply (drained_stop off (s, buf)); [done|done|done|intros Hs; by apply Hff|done].
  - apply (drained_stop off (s, buf)); [done|done|done|intros Hs; by apply Hff|]. intros Hs. by destruct (Hff [] Hs) as [[] _].
Qed.

Lemma drain_buffer_spec w : let r := drain_buffer w in
  arrivals r.1.1 = arrivals w.1 ∧ (fault_free w.1 → fault_free r.1.1) ∧
  ∃ n, (n ≤ length w.2)%nat ∧ wire r.1.1 = wire w.1 ++ take n w.2 ∧ match r.2 with Ok _ => r.1.2 = drop n w.2 | Fail _ => ¬ fault_free w.1 | Ub => False end.
Proof.
  cbn zeta. unfold drain_buffer. destruct (relay_drain_loop_spec (S (length (answers w.1))) 0 w) as (E1 & E2 & E3 & n & Hn & E4 & E5); [lia|lia|]. rewrite Nat.sub_0_r, drop_0 in E4.
  destruct (relay_drain_loop _ _ _) as [[s buf] [m|e|]]; cbn [fst snd] in *; [|split_and!; [done|done|exists n; split; [lia|done]]|done]. subst m buf. split_and!; [done|done|]. exists n. split; [lia|done].
Qed.

(** ** [pull] *)

(** The reads from [w] to [r]. *)
Definition pulled (w : Socket * list Z) (r : (Socket * list Z) * res Errno (nat * bool)) : Prop :=
  wire r.1.1 = wire w.1 ∧ (fault_free w.1 → fault_free r.1.1) ∧ (length r.1.2 ≤ length w.2 `max` (kBufferLimit + kPullSize))%nat ∧
  ∃ bytes, r.1.2 = w.2 ++ bytes ∧
    match r.2 with
    | Ok (_, eof) => events (arrivals w.1) = (Some <$> bytes) ++ ended eof ++ events (arrivals r.1.1)
    | Fail _ => ¬ fault_free w.1 ∧ events (arrivals w.1) = (Some <$> bytes) ++ events (arrivals r.1.1)
    | Ub => False
    end.

Lemma fault_free_read s a rest left : arrivals s = a :: rest → (a ≠ Broken → Forall sound_arrival rest → Forall sound_arrival left) → fault_free s →
  sound_arrival a ∧ fault_free (mkSocket (answers s) left (wire s)).
Proof. intros E Hl [Ha Hr]. rewrite E in Hr. inversion Hr; subst. split; [done|]. split; [done|]. by apply Hl. Qed.

Lemma kPullSize_pos : (0 < kPullSize)%nat.
Proof. unfold kPullSize. lia. Qed.

Lemma pulled_more s buf s' bytes r : wire s' = wire s → (fault_free s → fault_free s') → (length buf < kBufferLimit)%nat → (length bytes ≤ kPullSize)%nat →
  events (arrivals s) = (Some <$> bytes) ++ events (arrivals s') → pulled (s', buf ++ bytes) r → pulled (s, buf) r.
Proof.
  intros Hw Hf Hb Hs He (P1 & P2 & P3 & more & P4 & P5). cbn [fst snd] in *. rewrite length_app in P3. split_and!; cbn [fst snd]; [congruence|auto|lia|].
  exists (bytes ++ more). rewrite P4, <- app_assoc. split; [done|]. rewrite He, fmap_app. destruct r.2 as [[n eof]|e|]; [by rewrite P5, <- !app_assoc| |done].
  destruct P5 as [P5 ->]. rewrite <- app_assoc. split; [|done]. intros Hff. by apply P5, Hf.
Qed.

Lemma pulled_stop s buf s' r : wire s' = wire s → (fault_free s → fault_free s') →
  match r with Ok (_, eof) => events (arrivals s) = ended eof ++ events (arrivals s') | Fail _ => ¬ fault_free s ∧ events (arrivals s) = events (arrivals s') | Ub => False end →
  pulled (s, buf) ((s', buf), r).
Proof.
  intros Hw Hf Hr. split_and!; cbn [fst snd]; [done|done|lia|]. exists []. rewrite app_nil_r. split; [done|]. by destruct r as [[n eof]|e|].
Qed.

Lemma reads_left_cons a rest ans w : reads_left (mkSocket ans (a :: rest) w) = (arrival_weight a + reads_left (mkSocket ans rest w))%nat.
Proof. done. Qed.

Lemma pull_loop_spec fuel : ∀ got s buf, (reads_left s < fuel)%nat → pulled (s, buf) (pull_loop fuel got (s, buf)).
Proof.
  induction fuel as [|fuel IH]; intros got s buf Hf; [lia|]. cbn [pull_loop fst snd]. destruct (Nat.ltb_spec (length buf) kBufferLimit) as [Hb|Hb]; cbn [negb]; [|by apply pulled_stop].
  unfold sys_read. destruct s as [ans arr w]. cbn [answers arrivals wire]. destruct arr as [|a rest]; [by apply pulled_stop|].
  pose proof (λ left, fault_free_read (mkSocket ans (a :: rest) w) a rest left eq_refl) as Hff. cbn [answers wire] in Hff. rewrite reads_left_cons in Hf.
  destruct a as [l| | |]; cbn [arrival_weight] in Hf.
  - destruct l as [|b l]; [cbn; apply pulled_stop; [done|intros Hs; by apply Hff|done]|].
    assert (∃ x y, take kPullSize (b :: l) = x :: y) as (x & y & Et) by (pose proof kPullSize_pos; destruct kPullSize; [lia|by eexists _, _]). rewrite Et.
    set (left := if (length (b :: l) <=? kPullSize)%nat then rest else _).
    assert (events (Bytes (b :: l) :: rest) = (Some <$> take kPullSize (b :: l)) ++ events left) as He.
    { unfold left. destruct (Nat.leb_spec (length (b :: l)) kPullSize) as [Hle|Hle]; [by rewrite take_ge by done|]. unfold events. rewrite !bind_cons.
      destruct (drop kPullSize (b :: l)) as [|c k] eqn:Ed; [apply (f_equal length) in Ed; rewrite length_drop in Ed; cbn [length] in *; lia|]. rewrite app_assoc, <- fmap_app, <- Ed, take_drop. done. }
    eapply pulled_more; [..|apply IH]; [done|intros Hs; eapply Hff; [|exact Hs]|done|rewrite <- Et, length_take; lia|by rewrite <- Et|].
    + intros _ Hr. unfold left. destruct (_ <=? _)%nat; [done|]. by constructor.
    + unfold left. destruct (Nat.leb_spec (length (b :: l)) kPullSize); [unfold reads_left in *; cbn [arrivals] in *; lia|]. rewrite reads_left_cons. cbn [arrival_weight]. rewrite length_drop. pose proof kPullSize_pos. lia.
  - rewrite <- (app_nil_r buf) at 2. eapply (pulled_more _ _ _ []); [..|apply IH]; [done|intros Hs; by eapply Hff|done|cbn; lia|done|lia].
  - apply pulled_stop; [done|intros Hs; by eapply Hff|done].
  - apply pulled_stop; [done|intros Hs; by eapply Hff|]. split; [|done]. intros Hs. by destruct (Hff [] ltac:(done) Hs).
Qed.

(** ** The relay *)

Section relay.
(** What went before, and all the client and the cover ever send. *)
Context (prelude : list Z) (from_visitor from_site : list Arrival).

Definition buffer_bound : nat := length prelude `max` (kBufferLimit + kPullSize).

(** Both directions, with what is pending in each. *)
Record carries (w : Relay) (to_site to_visitor : list Z) : Prop := {
  ca_cover : flows prelude from_visitor (client_eof_ (proxy w)) (arrivals (client_side w)) (wire (cover_side w)) to_site;
  ca_client : flows [] from_site (cover_eof_ (proxy w)) (arrivals (cover_side w)) (wire (client_side w)) to_visitor;
  ca_cover_shut : cover_shut_ (proxy w) = true → client_eof_ (proxy w) = true ∧ to_site = [];
  ca_client_shut : client_shut_ (proxy w) = true → cover_eof_ (proxy w) = true ∧ to_visitor = [];
}.

Record live (w : Relay) : Prop := {
  lv_carries : carries w (to_cover_ (proxy w)) (to_client_ (proxy w));
  lv_cover : (length (to_cover_ (proxy w)) ≤ buffer_bound)%nat;
  lv_client : (length (to_client_ (proxy w)) ≤ kBufferLimit + kPullSize)%nat;
}.
Definition faultless (w : Relay) : Prop := fault_free (client_side w) ∧ fault_free (cover_side w).
Definition same_activity (w w' : Relay) : Prop := active_ (proxy w') = active_ (proxy w).

(** A step keeps the relay; it fails only after a fault. *)
Definition relays {A} (m : effect Relay Errno A) (w : Relay) : Prop :=
  same_activity w (m w).1 ∧
  match m w with
  | (w', Ok _) => live w' ∧ (faultless w → faultless w')
  | (w', Fail _) => ¬ faultless w ∧ ∃ s v, carries w' s v
  | (_, Ub) => False
  end.

Lemma relays_bind {A B} (m : effect Relay Errno A) (f : A → effect Relay Errno B) w : relays m w → (∀ a w', live w' → relays (f a) w') → relays (sbind m f) w.
Proof.
  intros [Ha Hm] Hf. unfold relays, sbind. destruct (m w) as [w' [a|e|]]; [|by split|done]. destruct Hm as [Hl Hff]. destruct (Hf a w' Hl) as [Ha' Hm']. unfold same_activity in *. cbn [fst] in *.
  split; [congruence|]. destruct (f a w') as [w'' [b|e|]]; [|..|done]; destruct Hm' as [H1 H2]; split; auto.
Qed.
Lemma relays_ret {A} (a : A) w : live w → relays (sret a) w.
Proof. intros Hl. split; [done|]. by split. Qed.

Lemma cover_drain_relays w : live w → relays (cover_with drain_buffer) w.
Proof.
  intros [[C1 C2 C3 C4] L1 L2]. unfold relays, cover_with. pose proof (drain_buffer_spec (cover_side w, to_cover_ (proxy w))) as (E1 & E2 & n & Hn & E3 & E4). cbn [fst snd] in *.
  destruct (drain_buffer _) as [[s l] r]. cbn [fst snd] in *. split; [done|]. pose proof (flows_deliver _ _ _ _ _ _ n C1) as C1'. rewrite <- E3 in C1'. rewrite <- E1 in C2.
  destruct r as [m|e|]; [| |done].
  - subst l. split; [|intros [F1 F2]; by split; [|apply E2]]. split; [split|..]; cbn; try done.
    + intros Hs. destruct (C3 Hs) as [? ->]. by rewrite drop_nil.
    + rewrite length_drop. lia.
  - split; [intros [F1 F2]; by apply E4|]. exists (drop n (to_cover_ (proxy w))), (to_client_ (proxy w)). split; cbn; try done. intros Hs. destruct (C3 Hs) as [? ->]. by rewrite drop_nil.
Qed.

Lemma client_drain_relays w : live w → relays (client_with drain_buffer) w.
Proof.
  intros [[C1 C2 C3 C4] L1 L2]. unfold relays, client_with. pose proof (drain_buffer_spec (client_side w, to_client_ (proxy w))) as (E1 & E2 & n & Hn & E3 & E4). cbn [fst snd] in *.
  destruct (drain_buffer _) as [[s l] r]. cbn [fst snd] in *. split; [done|]. pose proof (flows_deliver _ _ _ _ _ _ n C2) as C2'. rewrite <- E3 in C2'. rewrite <- E1 in C1.
  destruct r as [m|e|]; [| |done].
  - subst l. split; [|intros [F1 F2]; by split; [apply E2|]]. split; [split|..]; cbn; try done.
    + intros Hs. destruct (C4 Hs) as [? ->]. by rewrite drop_nil.
    + rewrite length_drop. lia.
  - split; [intros [F1 F2]; by apply E4|]. exists (to_cover_ (proxy w)), (drop n (to_client_ (proxy w))). split; cbn; try done. intros Hs. destruct (C4 Hs) as [? ->]. by rewrite drop_nil.
Qed.

Lemma pull_client_relays w : live w → relays pull_client w.
Proof.
  intros Hl. unfold pull_client. destruct (client_eof_ (proxy w)) eqn:Ee; [unfold relays, sbind, state, gets; rewrite Ee; split; [done|]; by split|].
  destruct Hl as [[C1 C2 C3 C4] L1 L2]. rewrite Ee in C1. pose proof (pull_loop_spec (S (reads_left (client_side w))) 0 (client_side w) (to_cover_ (proxy w)) ltac:(lia)) as (E1 & E2 & E3 & bytes & E4 & E5).
  cbn [fst snd] in *. unfold relays, sbind, state, gets, from_client, pull_bytes. rewrite Ee. cbn [fst].
  destruct (pull_loop _ _ _) as [[s l] r]. cbn [fst snd] in *. subst l. rewrite <- E1 in C2.
  assert (cover_shut_ (proxy w) = false) as Hns by (destruct (cover_shut_ _); [destruct C3; [done|congruence]|done]).
  destruct r as [[n eof]|e|]; [| |done].
  - pose proof (flows_hear _ _ _ _ _ _ _ _ C1 E5) as C1'. destruct eof; cbn [modify sret fst snd]; (split; [done|]); (split; [split; [split|..]|]); cbn; try done; try (rewrite Hns; done); try (by intros [F1 F2]; split; [apply E2|]);
      try (by rewrite Ee); unfold buffer_bound in *; rewrite length_app in *; lia.
  - destruct E5 as [E5 E6]. split; [done|]. split; [intros [F1 F2]; by apply E5|]. exists (to_cover_ (proxy w) ++ bytes), (to_client_ (proxy w)). split; cbn; try done; [|by rewrite Hns].
    rewrite Ee. by apply (flows_hear _ _ _ _ _ _ false _ C1).
Qed.

Lemma pull_cover_relays w : live w → relays pull_cover w.
Proof.
  intros Hl. unfold pull_cover. destruct (cover_eof_ (proxy w)) eqn:Ee; [unfold relays, sbind, state, gets; rewrite Ee; split; [done|]; by split|].
  destruct Hl as [[C1 C2 C3 C4] L1 L2]. rewrite Ee in C2. pose proof (pull_loop_spec (S (reads_left (cover_side w))) 0 (cover_side w) (to_client_ (proxy w)) ltac:(lia)) as (E1 & E2 & E3 & bytes & E4 & E5).
  cbn [fst snd] in *. unfold relays, sbind, state, gets, from_cover, pull_bytes. rewrite Ee. cbn [fst].
  destruct (pull_loop _ _ _) as [[s l] r]. cbn [fst snd] in *. subst l. rewrite <- E1 in C1.
  assert (client_shut_ (proxy w) = false) as Hns by (destruct (client_shut_ _); [destruct C4; [done|congruence]|done]).
  destruct r as [[n eof]|e|]; [| |done].
  - pose proof (flows_hear _ _ _ _ _ _ _ _ C2 E5) as C2'. destruct eof; cbn [modify sret fst snd]; (split; [done|]); (split; [split; [split|..]|]); cbn; try done; try (rewrite Hns; done); try (by intros [F1 F2]; split; [|apply E2]);
      try (by rewrite Ee); unfold buffer_bound in *; rewrite length_app in *; lia.
  - destruct E5 as [E5 E6]. split; [done|]. split; [intros [F1 F2]; by apply E5|]. exists (to_cover_ (proxy w)), (to_client_ (proxy w) ++ bytes). split; cbn; try done; [|by rewrite Hns].
    rewrite Ee. by apply (flows_hear _ _ _ _ _ _ false _ C2).
Qed.

Lemma transfer_relays w : live w → relays transfer w.
Proof.
  intros Hl. unfold transfer. apply relays_bind; [by apply cover_drain_relays|]. intros a w1 H1. apply relays_bind; [by apply client_drain_relays|]. intros b w2 H2.
  apply relays_bind; [by apply pull_client_relays|]. intros c w3 H3. apply relays_bind; [by apply pull_cover_relays|]. intros d w4 H4.
  apply relays_bind; [by apply cover_drain_relays|]. intros e w5 H5. apply relays_bind; [by apply client_drain_relays|]. intros f w6 H6. by apply relays_ret.
Qed.

(** Everything of both sides was passed on. *)
Definition finished (w : Relay) : Prop := client_eof_ (proxy w) = true ∧ cover_eof_ (proxy w) = true ∧ carries w [] [].

(** What [pump] leaves; [orderly]: nothing went wrong. *)
Definition pumped (orderly : Prop) (r : Relay * res Errno unit) : Prop :=
  r.2 = Ok tt ∧ (active_ (proxy r.1) = true → live r.1) ∧ (∃ s v, carries r.1 s v) ∧ (orderly → active_ (proxy r.1) = false → finished r.1).

Lemma none_left_nil {A} (l : list A) : none_left l = true → l = [].
Proof. by destruct l. Qed.

Lemma settle_pumps now moved orderly w : live w → active_ (proxy w) = true → pumped orderly (settle now moved w).
Proof.
  intros [[C1 C2 C3 C4] L1 L2] Ha. unfold settle, sbind, modify, state, gets.
  set (w1 := on_proxy (λ p, note_shut (cover_done p) (client_done p) p) w). assert (cover_done (proxy w) = true → client_eof_ (proxy w) = true ∧ to_cover_ (proxy w) = []) as D1 by (intros [? ?%none_left_nil]%andb_true_iff; done).
  assert (client_done (proxy w) = true → cover_eof_ (proxy w) = true ∧ to_client_ (proxy w) = []) as D2 by (intros [? ?%none_left_nil]%andb_true_iff; done).
  assert (live w1) as Hl.
  { split; [split|..]; cbn; try done; intros [Hs|Hs]%orb_true_iff; auto. }
  change (cover_done (proxy w1)) with (cover_done (proxy w)). change (client_done (proxy w1)) with (client_done (proxy w)).
  destruct (cover_done (proxy w) && client_done (proxy w)) eqn:Ed.
  - apply andb_true_iff in Ed as [[E1 E2]%D1 [E3 E4]%D2]. destruct Hl as [Hc _ _]. destruct Hc as [K1 K2 K3 K4]. cbn in K1, K2, K3, K4. rewrite E2, E4 in *. assert (carries (on_proxy proxy_close w1) [] []) as Hf by (by split).
    split_and!; [done|done|by eexists _, _|]. intros _ _. by split_and!.
  - assert (∀ w2, live w2 → active_ (proxy w2) = true → pumped orderly (w2, Ok tt)) as Hp.
    { intros w2 H2 Ha2. split_and!; [done|done|eexists _, _; apply H2|]. cbn [fst]. by rewrite Ha2. }
    destruct (0 <? moved)%nat; apply Hp; try done. by destruct Hl as [[] ? ?].
Qed.

Lemma closed_pumps w s v (orderly : Prop) : ¬ orderly → carries w s v → pumped orderly (on_proxy proxy_close w, Ok tt).
Proof. intros Ho []. split_and!; [done|done| |done]. exists s, v. by split. Qed.

Lemma go_pumps now (orderly : Prop) w : live w → active_ (proxy w) = true → (orderly → faultless w) →
  pumped orderly (otherwise (bind moved := transfer in settle now moved) (modify (on_proxy proxy_close)) w).
Proof.
  intros Hl Ha Ho. destruct (transfer_relays w Hl) as [Hs Ht]. unfold otherwise, sbind. unfold same_activity in Hs. destruct (transfer w) as [w' [moved|e|]]; [| |done]; cbn [fst] in Hs.
  - destruct Ht as [Hl' _]. pose proof (settle_pumps now moved orderly w' Hl') as Hp. destruct (settle now moved w') as [w2 r]. destruct Hp as (E & Hp); [congruence|]. cbn [snd] in E. subst r. by split.
  - destruct Ht as [Hn (s & v & Hc)]. apply (closed_pumps w' s v); [naive_solver|done].
Qed.

(** The connection to the cover is there, and the proxy is not idle. *)
Definition goes_well (now : Instant) (probe : Probe) (w : Relay) : Prop :=
  active_ (proxy w) = true ∧ faultless w ∧ now - last_activity_ (proxy w) ≤ kFallbackIdleTimeout ∧ (connecting_ (proxy w) = true → probe ≠ ProbeFailed).

Lemma pump_pumps now probe w s v : (active_ (proxy w) = true → live w) → carries w s v → pumped (goes_well now probe w) (pump now probe w).
Proof.
  intros Hl Hc. unfold pump, sbind at 1, state at 1, gets. destruct (active_ (proxy w)) eqn:Ha; cbn [negb].
  2: { split_and!; [done|cbn; congruence|by exists s, v|]. intros [? _]. congruence. }
  specialize (Hl eq_refl). destruct (Z.ltb_spec kFallbackIdleTimeout (now - last_activity_ (proxy w))) as [Hi|Hi].
  { apply (closed_pumps w s v); [|done]. intros (_ & _ & ? & _). lia. }
  assert (∀ w, live w → active_ (proxy w) = true → pumped (goes_well now probe w) (w, Ok tt)) as Hstay.
  { intros w' Hl' Ha'. split_and!; [done|done|eexists _, _; apply Hl'|cbn; congruence]. }
  destruct (connecting_ (proxy w)) eqn:Ec; [|apply go_pumps; [done|done|by intros (_ & ? & _)]]. destruct probe.
  - by apply Hstay.
  - apply (closed_pumps w s v); [|done]. intros (_ & _ & _ & Hp). by apply Hp.
  - unfold sbind at 1, modify at 1. apply go_pumps; [|done|by intros (_ & ? & _)]. destruct Hl as [[] ? ?]. by split.
Qed.
End relay.

(** ** Histories *)

(** The visitor or the site sends, the kernel takes bytes for one of them, or
    the proxy is pumped. *)
Inductive RelayStep :=
| VisitorSends (l : list Arrival)
| SiteSends (l : list Arrival)
| VisitorTakes (l : list Sending)
| SiteTakes (l : list Sending)
| Pumped (now : Instant) (probe : Probe).

Record History := mkHistory { relay : Relay; visitor_sent : list Arrival; site_sent : list Arrival }.

Definition offer (l : list Arrival) (s : Socket) : Socket := mkSocket (answers s) (arrivals s ++ l) (wire s).
Definition answer (l : list Sending) (s : Socket) : Socket := mkSocket (answers s ++ l) (arrivals s) (wire s).

Definition relay_step (h : History) (step : RelayStep) : History :=
  let w := relay h in
  match step with
  | VisitorSends l => mkHistory (mkRelay (proxy w) (offer l (client_side w)) (cover_side w)) (visitor_sent h ++ l) (site_sent h)
  | SiteSends l => mkHistory (mkRelay (proxy w) (client_side w) (offer l (cover_side w))) (visitor_sent h) (site_sent h ++ l)
  | VisitorTakes l => mkHistory (mkRelay (proxy w) (answer l (client_side w)) (cover_side w)) (visitor_sent h) (site_sent h)
  | SiteTakes l => mkHistory (mkRelay (proxy w) (client_side w) (answer l (cover_side w))) (visitor_sent h) (site_sent h)
  | Pumped now probe => mkHistory (pump now probe w).1 (visitor_sent h) (site_sent h)
  end.

(** A proxy that was started on two fresh connections. *)
Definition relay_started (in_progress : bool) (prelude : list Z) (now : Instant) : History :=
  mkHistory (mkRelay (proxy_start true (if in_progress then ConnectInProgress else ConnectDone) prelude now new_proxy).1 (mkSocket [] [] []) (mkSocket [] [] [])) [] [].

Definition history_ok (prelude : list Z) (h : History) : Prop :=
  (∃ s v, carries prelude (visitor_sent h) (site_sent h) (relay h) s v) ∧
  (active_ (proxy (relay h)) = true → live prelude (visitor_sent h) (site_sent h) (relay h)).

Lemma relay_started_ok in_progress prelude now : history_ok prelude (relay_started in_progress prelude now).
Proof.
  assert (live prelude [] [] (relay (relay_started in_progress prelude now))) as Hl.
  { unfold relay_started. destruct in_progress; (split; [split; cbn; try done; exists []; by rewrite ?app_nil_r|..]); cbn; unfold buffer_bound; lia. }
  split; [|done]. eexists _, _. apply Hl.
Qed.

Lemma relay_step_ok prelude h step : history_ok prelude h → history_ok prelude (relay_step h step).
Proof.
  intros [(s & v & Hc) Hl]. destruct step as [l|l|l|l|now probe].
  5: { destruct (pump_pumps prelude (visitor_sent h) (site_sent h) now probe (relay h) s v Hl Hc) as (_ & ? & ? & _). by split. }
  all: split; [exists s, v; destruct Hc; split; try done; by apply flows_offer|intros Ha; destruct (Hl Ha) as [[] ? ?]; split; try done; split; try done; by apply flows_offer].
Qed.

(** C14. Fallback proxy: whatever the visitor and the cover site send, in
    whatever pieces, however the kernel takes what the proxy writes, and
    whenever it is pumped: what the site has received is the prelude and then
    the visitor's bytes, in order, without gaps or additions, up to what is
    still buffered or unread, and likewise for the visitor; the buffers stay
    bounded; a side is shut only when its source has ended and it has received
    everything.  [pump] always returns, and when neither a connection fails nor
    the proxy idles too long, it closes only after everything was passed on. *)
Theorem fallback_relays in_progress prelude start steps :
  let h := foldl relay_step (relay_started in_progress prelude start) steps in
  (∃ s v, carries prelude (visitor_sent h) (site_sent h) (relay h) s v) ∧
  (active_ (proxy (relay h)) = true → live prelude (visitor_sent h) (site_sent h) (relay h)) ∧
  ∀ now probe, let r := pump now probe (relay h) in
    r.2 = Ok tt ∧ (goes_well now probe (relay h) → active_ (proxy r.1) = false → finished prelude (visitor_sent h) (site_sent h) r.1).
Proof.
  cbn zeta. assert (∀ h, history_ok prelude h → history_ok prelude (foldl relay_step h steps)) as Hsteps.
  { induction steps as [|step steps IH]; intros h Hh; cbn [foldl]; [done|]. by apply IH, relay_step_ok. }
  specialize (Hsteps _ (relay_started_ok in_progress prelude start)). destruct Hsteps as [(s & v & Hc) Hl]. split; [by exists s, v|]. split; [done|].
  intros now probe. by destruct (pump_pumps prelude _ _ now probe _ s v Hl Hc) as (? & _ & _ & ?).
Qed.
