(* ===== verification/Runtime.v ===== *)
(** The runtime's configuration of peers: [Runtime::reload] and the parts of
    [src/runtime.cpp] it uses.

    A reload reads the configuration file again and makes the routing table and
    the control plane agree with it while the tunnel goes on.  The detail texts
    of the diagnostics are left out.  The hash map that marks the peers still
    present is iterated in the order given by the environment. *)

From S2P Require Import Prelude Fec Text Address Routing Timers Crypto Noise Session SessionTable Cookie ControlPlane Worker Config.

Inductive RuntimeError :=
| unsupported_platform | crypto_unavailable_ | key_file_unreadable | key_file_permissions | key_file_malformed | peer_key_malformed
| peer_endpoint_malformed | peer_prefix_malformed | routing_conflict | tun_failed | bind_failed | control_failed | option_not_implemented.

(** ** Keys in hexadecimal *)

Definition hex_value (c : Z) : Z :=
  if (48 <=? c) && (c <=? 57) then c - 48
  else if (97 <=? c) && (c <=? 102) then c - 97 + 10
  else if (65 <=? c) && (c <=? 70) then c - 65 + 10
  else -1.

Fixpoint decode_pairs (text : list Z) : option (list Z) :=
  match text with
  | high :: low :: rest =>
      let high := hex_value high in let low := hex_value low in
      if (high <? 0) || (low <? 0) then None else
      (λ bytes, u8 (Z.lor (Z.shiftl high 4) low) :: bytes) <$> decode_pairs rest
  | _ => Some []
  end.
(** [size]: that of the key to fill. *)
Definition decode_hex (text : list Z) (size : nat) : option (list Z) :=
  if negb (length text =? size * 2)%nat then None else decode_pairs text.

Definition looks_like_handshake (datagram : list Z) : bool :=
  match datagram with [] => false | first :: _ => first <? 0x10 end.

(** ** The peers of a configuration *)

Record Incoming := mkIncoming { in_peer : PeerConfig; prefixes : list Prefix }.

Definition key_size : nat := 32.

Fixpoint parse_prefixes (l : list (list Z)) : res RuntimeError (list Prefix) :=
  match l with
  | [] => Ok []
  | text :: l =>
      match parse_prefix text with
      | Ok p => let* rest := parse_prefixes l in Ok (p :: rest)
      | Fail _ => Fail peer_prefix_malformed
      | Ub => Ub
      end
  end.

Definition parse_entry (entry : PeerEntry) : res RuntimeError Incoming :=
  match decode_hex (public_key entry) key_size with
  | None => Fail peer_key_malformed
  | Some key =>
      let* psk := (if (length (preshared_key entry) =? 0)%nat then Ok (replicate key_size 0)
                   else match decode_hex (preshared_key entry) key_size with Some psk => Ok psk | None => Fail peer_key_malformed end) in
      let* at_ := (if (length (endpoint entry) =? 0)%nat then Ok None
                   else match parse_endpoint (endpoint entry) with Ok e => Ok (Some e) | Fail _ => Fail peer_endpoint_malformed | Ub => Ub end) in
      let* l := parse_prefixes (allowed_ips entry) in
      Ok (mkIncoming (mkPeer kNoPeer key psk at_) l)
  end.

Fixpoint parse_entries (l : list PeerEntry) : res RuntimeError (list Incoming) :=
  match l with
  | [] => Ok []
  | entry :: l => let* next := parse_entry entry in let* rest := parse_entries l in Ok (next :: rest)
  end.

(** ** [reload] *)

Record Runtime := mkRuntime {
  rt_routes : RoutingTable;
  rt_world : World;
  peer_count_ : Z;
  listen_port_ : Z;
  tun_name_ : list Z;
  fec_mode_ : FecMode;
}.
Definition with_routes (t : RoutingTable) (rt : Runtime) : Runtime := mkRuntime t (rt_world rt) (peer_count_ rt) (listen_port_ rt) (tun_name_ rt) (fec_mode_ rt).
Definition with_world (w : World) (rt : Runtime) : Runtime := mkRuntime (rt_routes rt) w (peer_count_ rt) (listen_port_ rt) (tun_name_ rt) (fec_mode_ rt).
Definition with_peer_count (n : Z) (rt : Runtime) : Runtime := mkRuntime (rt_routes rt) (rt_world rt) n (listen_port_ rt) (tun_name_ rt) (fec_mode_ rt).

Abbreviation runtime := (effect Runtime RuntimeError).

(** The peers [peer], [peer + 1], ..., [n] of them: the first with the key. *)
Fixpoint find_same_key (n : nat) (peer : Z) (c : ControlPlane) (key : list Z) : Z :=
  match n with
  | O => kNoPeer
  | S n =>
      match find_peer c peer with
      | Some existing => if constant_time_equal (static_public existing) key then peer else find_same_key n (peer + 1) c key
      | None => find_same_key n (peer + 1) c key
      end
  end.

Definition peer_id (key : list Z) : runtime Z :=
  bind rt := state in
  let id := find_same_key (Z.to_nat (peer_count_ rt)) 1 (plane (rt_world rt)) key in
  if id =? kNoPeer then
    bind _ := modify (with_peer_count (peer_count_ rt + 1)) in
    sret (u32 (peer_count_ rt + 1))
  else sret id.

Fixpoint install_prefixes (id : Z) (l : list Prefix) : runtime unit :=
  match l with
  | [] => sret tt
  | prefix :: l =>
      bind rt := state in
      let '(t, added) := add_route (rt_routes rt) id prefix in
      bind _ := modify (with_routes t) in
      match added with
      | Ok _ => install_prefixes id l
      | Fail _ => lift (Fail routing_conflict)
      | Ub => lift Ub
      end
  end.

(** A call of the control plane that reports an error as [control_failed]. *)
Definition on_control {A} (m : ctl A) : runtime A := λ rt,
  let '(w, r) := m (rt_world rt) in (with_world w rt, recast (λ _, control_failed) r).

Definition with_id (id : Z) (p : PeerConfig) : PeerConfig := mkPeer id (static_public p) (preshared p) (pc_endpoint p).

(** The ids of the peers that are present. *)
Fixpoint install_peers (l : list Incoming) (present : list Z) : runtime (list Z) :=
  match l with
  | [] => sret present
  | next :: l =>
      bind id := peer_id (static_public (in_peer next)) in
      bind _ := install_prefixes id (prefixes next) in
      bind _ := on_control (add_peer (with_id id (in_peer next))) in
      install_peers l (id :: present)
  end.

Section reload.
Context {heap_functions : HeapFunctions}.

Fixpoint forget_absent (env : Env) (order present : list Z) : runtime unit :=
  match order with
  | [] => sret tt
  | peer :: order =>
      bind _ := (if bool_decide (peer ∈ present) then sret tt else on_control (forget_peer env peer)) in
      forget_absent env order present
  end.

Definition apply_peers (env : Env) (order : list Z) (incoming : list Incoming) : runtime nat :=
  bind _ := modify (λ rt, with_routes (clear_peer_routes (rt_routes rt)) rt) in
  bind present := install_peers incoming [] in
  bind _ := forget_absent env order present in
  sret (length incoming).

Definition reload (env : Env) (order path : list Z) (contents : option (list Z)) : runtime nat :=
  match load_config_file path contents with
  | Fail _ => lift (Fail control_failed)
  | Ub => lift Ub
  | Ok config =>
      bind rt := state in
      bind _ := check (negb (bool_decide (tun_name (node config) = tun_name_ rt))) option_not_implemented in
      bind _ := check (negb (listen_port (node config) =? listen_port_ rt)) option_not_implemented in
      bind _ := check (negb (bool_decide (transport (carrier config) = TransportMode.automatic)) && negb (bool_decide (transport (carrier config) = TransportMode.udp)))
        option_not_implemented in
      bind _ := check (negb (bool_decide (fec config = fec_mode_ rt))) option_not_implemented in
      bind incoming := lift (parse_entries (peers config)) in
      apply_peers env order incoming
  end.
End reload.
