(* ===== verification/RuntimeReload.v ===== *)
(** A reload makes routes and peers agree with the configuration, keeps the
    identity of the peers that stay, and leaves the sessions alone. *)

From Stdlib Require Import String.
From S2P Require Import Prelude Fec Nonce Text Address Timers Crypto Noise Session SessionTable Cookie ControlPlane ControlIds Config ConfigValid Routing Runtime.

(** ** Keys *)

Lemma decode_pairs_bytes text bytes : decode_pairs text = Some bytes → bytes_ok bytes.
Proof.
  revert bytes. induction text as [text IH] using (induction_ltof1 _ (@length Z)). intros bytes. destruct text as [|high [|low rest]]; cbn [decode_pairs]; [by intros [= <-]; constructor..|].
  destruct (_ || _); [done|]. destruct (decode_pairs rest) as [l|] eqn:E; [|done]. intros [= <-]. constructor; [apply u8_range|]. apply (IH rest); [|done]. unfold ltof. cbn [length]. lia.
Qed.
Lemma decode_hex_bytes text size bytes : decode_hex text size = Some bytes → bytes_ok bytes.
Proof. unfold decode_hex. destruct (negb _); [done|]. apply decode_pairs_bytes. Qed.

Lemma parse_entry_key entry inc : parse_entry entry = Ok inc → bytes_ok (static_public (in_peer inc)).
Proof.
  unfold parse_entry. destruct (decode_hex (public_key entry) key_size) as [key|] eqn:E; [|done]. repeat (match goal with |- context [rbind ?m _] => destruct m; cbn [rbind]; [|done..] end).
  intros [= <-]. by apply decode_hex_bytes in E.
Qed.

Lemma parse_entries_no_ub l : no_ub (parse_entries l).
Proof.
  assert (∀ l, no_ub (parse_prefixes l)) as Hp.
  { induction l0 as [|text l0 IH]; cbn [parse_prefixes]; [done|]. destruct (parse_prefix_spec text) as [Hn _]. destruct (parse_prefix text); [|done..]. destruct (parse_prefixes l0); done. }
  induction l as [|entry l IH]; cbn [parse_entries]; [done|]. assert (no_ub (parse_entry entry)) as He.
  { unfold parse_entry. destruct (decode_hex _ _); [|done]. assert (∀ (A B : Type) (m : res RuntimeError A) (f : A → res RuntimeError B), no_ub m → (∀ a, no_ub (f a)) → no_ub (rbind m f)) as Hb by (intros A B [] f Hm Hf; [apply Hf|done|done]).
    apply Hb; [by repeat case_match|]. intros psk. apply Hb; [case_match; [done|]; pose proof (parse_endpoint_no_ub (endpoint entry)); by destruct (parse_endpoint _)|]. intros at_. apply Hb; [apply Hp|done]. }
  destruct (parse_entry entry); [|done..]. cbn [rbind]. by destruct (parse_entries l).
Qed.

Lemma parse_entries_spec l incoming : parse_entries l = Ok incoming → Forall2 (λ entry inc, parse_entry entry = Ok inc) l incoming.
Proof.
  revert incoming. induction l as [|entry l IH]; intros incoming; cbn [parse_entries]; [intros [= <-]; constructor|].
  destruct (parse_entry entry) as [inc|e|] eqn:E; [|done..]. cbn [rbind]. destruct (parse_entries l) as [rest|e|]; [|done..]. intros [= <-]. constructor; auto.
Qed.

(** ** Routes *)

Lemma find_prefix_Some p entries e : find_prefix p entries = Some e → e ∈ entries ∧ entry_prefix e = p.
Proof.
  induction entries as [|f entries IH]; cbn [find_prefix]; [done|]. case_decide as Hd; [intros [= <-]; split; [by left|done]|]. intros H. destruct (IH H). split; [by right|done].
Qed.

(** What installing prefixes changes: only routes, and only those. *)
Definition routed (id : Z) (l : list Prefix) (rt rt' : Runtime) : Prop :=
  with_routes (rt_routes rt) rt' = rt ∧ local_ (rt_routes rt') = local_ (rt_routes rt) ∧
  (∀ e, e ∈ entries_ (rt_routes rt) → e ∈ entries_ (rt_routes rt')) ∧
  (∀ e, e ∈ entries_ (rt_routes rt') → e ∈ entries_ (rt_routes rt) ∨ entry_peer e = id ∧ entry_prefix e ∈ l).

Definition installs (id : Z) (l : list Prefix) (rt : Runtime) (r : Runtime * res RuntimeError unit) : Prop :=
  routed id l rt r.1 ∧ match r.2 with Ok _ => ∀ p, p ∈ l → mkEntry p id ∈ entries_ (rt_routes r.1) | Fail e => e = routing_conflict | Ub => False end.

Lemma install_prefixes_spec id l : ∀ rt, installs id l rt (install_prefixes id l rt).
Proof.
  induction l as [|prefix l IH]; intros rt; cbn [install_prefixes].
  { split; [split_and!; [by destruct rt|done|done|by left]|]. intros p []%elem_of_nil. }
  unfold sbind at 1, state, gets. cbn iota beta. destruct (add_route (rt_routes rt) id prefix) as [t added] eqn:Ea. unfold sbind, modify.
  assert (routed id (prefix :: l) rt (with_routes t rt) ∧ match added with Ok _ => mkEntry prefix id ∈ entries_ t | Fail _ => True | Ub => False end) as [H1 Ha].
  { unfold add_route in Ea. assert (routed id (prefix :: l) rt rt) as Hsame by (split_and!; [by destruct rt|done|done|by left]).
    assert (with_routes (rt_routes rt) rt = rt) as Hrt by (by destruct rt).
    destruct (_ =? kNoPeer); [injection Ea as <- <-; by rewrite Hrt|]. destruct (_ <=? _); [injection Ea as <- <-; by rewrite Hrt|].
    destruct (find_prefix prefix (entries_ (rt_routes rt))) as [e|] eqn:Ef.
    - destruct (find_prefix_Some _ _ _ Ef) as [Hin Hp]. destruct (Z.eqb_spec (entry_peer e) id) as [He|He]; injection Ea as <- <-; rewrite Hrt; (split; [done|]); [|done]. destruct e; cbn in *; by subst.
    - injection Ea as <- <-. assert (∀ e, e ∈ insert_at (lower_bound (length_ prefix) (entries_ (rt_routes rt))) (mkEntry prefix id) (entries_ (rt_routes rt)) ↔ e = mkEntry prefix id ∨ e ∈ entries_ (rt_routes rt)) as Hins.
      { intros e. rewrite insert_at_perm. apply elem_of_cons. }
      split; [|apply Hins; by left]. split_and!; [by destruct rt|done|intros e He; apply Hins; by right|]. cbn [rt_routes with_routes entries_]. intros e [->|He]%Hins; [right|by left]. cbn. split; [done|by left]. }
  destruct added as [u|e|]; [| |done].
  - destruct (IH (with_routes t rt)) as [H2 Hr]. destruct (install_prefixes id l (with_routes t rt)) as [rt2 r]. cbn [fst snd] in *. split.
    + destruct H1 as (A1 & A2 & A3 & A4), H2 as (B1 & B2 & B3 & B4). split_and!; [|by etransitivity|by auto|].
      * rewrite <- A1. rewrite <- B1. by destruct rt2.
      * intros e He. destruct (B4 e He) as [[?|[? ?]]%A4|[? ?]]; [by left|by right|right; split; [done|by right]].
    + destruct r as [[]|e|]; [|done|done]. intros p [->|Hp]%elem_of_cons; [by apply H2|by apply Hr].
  - split; [done|done].
Qed.

(** ** Peers *)

Definition peers_of (rt : Runtime) : gmap Z PeerConfig := peers_ (plane (rt_world rt)).
Definition has_key (rt : Runtime) (id : Z) (key : list Z) : Prop := ∃ p, peers_of rt !! id = Some p ∧ static_public p = key.

Record runtime_ok (rt : Runtime) : Prop := {
  ro_count : 0 ≤ peer_count_ rt;
  ro_peers : ∀ id p, peers_of rt !! id = Some p → 1 ≤ id ≤ peer_count_ rt ∧ pc_id p = id ∧ bytes_ok (static_public p);
}.

(** The first peer with a key. *)
Definition first_with (rt : Runtime) (key : list Z) (id : Z) : Prop := has_key rt id key ∧ ∀ other, has_key rt other key → id ≤ other.

Lemma find_same_key_spec rt key n : ∀ peer, runtime_ok rt → bytes_ok key →
  let id := find_same_key n peer (plane (rt_world rt)) key in
  (id = kNoPeer ∧ ∀ other, peer ≤ other < peer + Z.of_nat n → ¬ has_key rt other key) ∨
  (peer ≤ id < peer + Z.of_nat n ∧ has_key rt id key ∧ ∀ other, peer ≤ other < id → ¬ has_key rt other key).
Proof.
  induction n as [|n IH]; intros peer Hrt Hk; cbn [find_same_key]; [left; split; [done|lia]|]. unfold find_peer. change (peers_ (plane (rt_world rt))) with (peers_of rt).
  assert (¬ has_key rt peer key → let id := find_same_key n (peer + 1) (plane (rt_world rt)) key in
    (id = kNoPeer ∧ ∀ other, peer ≤ other < peer + Z.of_nat (S n) → ¬ has_key rt other key) ∨
    (peer ≤ id < peer + Z.of_nat (S n) ∧ has_key rt id key ∧ ∀ other, peer ≤ other < id → ¬ has_key rt other key)) as Hskip.
  { intros Hno. cbn zeta. destruct (IH (peer + 1) Hrt Hk) as [[-> Hn]|(Hr & Hh & Hn)]; [left; split; [done|]|right; split; [lia|]; split; [done|]];
      intros other Ho; (destruct (decide (other = peer)) as [->|Hne]; [done|apply Hn; lia]). }
  destruct (peers_of rt !! peer) as [p|] eqn:Ep; [|apply Hskip; intros (p & Hp & _); congruence]. destruct (ro_peers rt Hrt peer p Ep) as (_ & _ & Hb).
  destruct (constant_time_equal (static_public p) key) eqn:Ec.
  - apply constant_time_equal_iff in Ec; [|done|done]. right. split; [lia|]. split; [by exists p|lia].
  - apply Hskip. intros (p' & Hp' & Hk'). rewrite Ep in Hp'. injection Hp' as <-. apply (constant_time_equal_iff _ _ Hb Hk) in Hk'. congruence.
Qed.

(** The id of a key: the first peer that has it, or a new one. *)
Lemma peer_id_spec key rt : runtime_ok rt → bytes_ok key → peer_count_ rt + 1 < 2 ^ 32 →
  (∃ id, peer_id key rt = (rt, Ok id) ∧ first_with rt key id) ∨
  (peer_id key rt = (with_peer_count (peer_count_ rt + 1) rt, Ok (peer_count_ rt + 1)) ∧ ∀ other, ¬ has_key rt other key).
Proof.
  intros Hrt Hk Hc. unfold peer_id, sbind, state, gets, modify. pose proof (ro_count rt Hrt) as H0.
  assert (∀ other, has_key rt other key → 1 ≤ other ≤ peer_count_ rt) as Hrange by (intros other (p & Hp & _); by apply (ro_peers rt Hrt) in Hp as (? & _)).
  destruct (find_same_key_spec rt key (Z.to_nat (peer_count_ rt)) 1 Hrt Hk) as [[-> Hn]|(Hr & Hh & Hn)].
  - right. cbn. rewrite u32_id by (unfold is_u32; lia). split; [done|]. intros other Ho. apply (Hn other); [|done]. specialize (Hrange other Ho). lia.
  - left. set (id := find_same_key _ _ _ _) in *. exists id. destruct (Z.eqb_spec id kNoPeer); [unfold kNoPeer in *; lia|]. split; [done|]. split; [done|].
    intros other Ho. destruct (decide (other < id)); [|lia]. destruct (Hn other); [|done]. specialize (Hrange other Ho). lia.
Qed.

(** ** One peer *)

Abbreviation key_of inc := (static_public (in_peer inc)).

(** Sessions, local routes and settings are not touched. *)
Definition settled (rt rt' : Runtime) : Prop :=
  heap (rt_world rt') = heap (rt_world rt) ∧ table (rt_world rt') = table (rt_world rt) ∧ local_ (rt_routes rt') = local_ (rt_routes rt) ∧
  listen_port_ rt' = listen_port_ rt ∧ tun_name_ rt' = tun_name_ rt ∧ fec_mode_ rt' = fec_mode_ rt.

#[local] Instance settled_preorder : PreOrder settled.
Proof. split; [by intros rt|]. intros a b c (?&?&?&?&?&?) (?&?&?&?&?&?). split_and!; congruence. Qed.

Definition install_one (next : Incoming) : effect Runtime RuntimeError Z :=
  bind id := peer_id (key_of next) in
  bind _ := install_prefixes id (prefixes next) in
  bind _ := on_control (add_peer (with_id id (in_peer next))) in
  sret id.

Lemma install_peers_cons next l present rt : install_peers (next :: l) present rt = sbind (install_one next) (λ id, install_peers l (id :: present)) rt.
Proof.
  unfold install_one. cbn [install_peers]. unfold sbind, sret. destruct (peer_id _ rt) as [rt1 [id|e|]]; [|done..]. destruct (install_prefixes _ _ rt1) as [rt2 [[]|e|]]; [|done..].
  by destruct (on_control _ rt2) as [rt3 [[]|e|]].
Qed.

(** The peer [next] has got the id [id]. *)
Record installed (next : Incoming) (id : Z) (rt rt' : Runtime) : Prop := {
  is_peers : peers_of rt' = <[id := with_id id (in_peer next)]> (peers_of rt);
  is_id : first_with rt (key_of next) id ∨ id = peer_count_ rt + 1 ∧ ∀ other, ¬ has_key rt other (key_of next);
  is_count : peer_count_ rt ≤ peer_count_ rt' ≤ peer_count_ rt + 1;
  is_old : ∀ e, e ∈ entries_ (rt_routes rt) → e ∈ entries_ (rt_routes rt');
  is_new : ∀ e, e ∈ entries_ (rt_routes rt') → e ∈ entries_ (rt_routes rt) ∨ entry_peer e = id ∧ entry_prefix e ∈ prefixes next;
  is_routes : ∀ p, p ∈ prefixes next → mkEntry p id ∈ entries_ (rt_routes rt');
}.

Definition installs_one (next : Incoming) (rt : Runtime) (r : Runtime * res RuntimeError Z) : Prop :=
  runtime_ok r.1 ∧ settled rt r.1 ∧ match r.2 with Ok id => installed next id rt r.1 | Fail e => e = routing_conflict | Ub => False end.

Lemma runtime_ok_count rt : runtime_ok rt → runtime_ok (with_peer_count (peer_count_ rt + 1) rt).
Proof. intros [H1 H2]. split; cbn; [lia|]. intros id p Hp. destruct (H2 id p Hp) as (?&?&?). split_and!; [lia|lia|done|done]. Qed.

Lemma install_one_spec next rt : runtime_ok rt → bytes_ok (key_of next) → peer_count_ rt + 1 < 2 ^ 32 → installs_one next rt (install_one next rt).
Proof.
  intros Hrt Hk Hc. unfold install_one.
  assert (∃ rt1 id, peer_id (key_of next) rt = (rt1, Ok id) ∧ runtime_ok rt1 ∧ 1 ≤ id ≤ peer_count_ rt1 ∧ peers_of rt1 = peers_of rt ∧ settled rt rt1 ∧ rt_routes rt1 = rt_routes rt ∧
    peer_count_ rt ≤ peer_count_ rt1 ≤ peer_count_ rt + 1 ∧ (first_with rt (key_of next) id ∨ id = peer_count_ rt + 1 ∧ ∀ other, ¬ has_key rt other (key_of next))) as (rt1 & id & E & Hok1 & Hid & Hp1 & Hs1 & Hr1 & Hc1 & Hf).
  { destruct (peer_id_spec (key_of next) rt Hrt Hk Hc) as [(id & E & Hf)|[E Hn]]; rewrite E.
    - exists rt, id. destruct Hf as [(p & Hp & Hpk) Hmin]. destruct (ro_peers rt Hrt id p Hp) as (? & _ & _). split_and!; try done; try lia. left. split; [by exists p|done].
    - eexists _, _. split; [done|]. pose proof (ro_count rt Hrt). split_and!; cbn; try done; try lia; [by apply runtime_ok_count|]. by right. }
  rewrite (sbind_ok _ _ _ _ _ E). pose proof (install_prefixes_spec id (prefixes next) rt1) as Hi. unfold sbind at 1. destruct (install_prefixes id (prefixes next) rt1) as [rt2 r].
  destruct Hi as [(A1 & A2 & A3 & A4) Hr]. cbn [fst snd] in *. assert (rt2 = with_routes (rt_routes rt2) rt1) as E2 by (rewrite <- A1; by destruct rt2). rewrite E2 in A2, A3, A4, Hr |- *.
  set (t2 := rt_routes rt2) in *. cbn [rt_routes with_routes] in A2, A3, A4, Hr. clearbody t2. clear A1 E2 rt2.
  assert (settled rt1 (with_routes t2 rt1)) as Hs2 by done. assert (runtime_ok (with_routes t2 rt1)) as Hok2 by (destruct Hok1; by split).
  destruct r as [[]|e|]; [|split_and!; [done|by transitivity rt1|done]|done].
  unfold sbind, on_control, add_peer, check. cbn [pc_id with_id]. destruct (Z.eqb_spec id kNoPeer) as [->|_]; [unfold kNoPeer in Hid; lia|]. unfold sbind, modify. cbn [recast sret].
  split_and!; cbn [fst snd].
  - destruct Hok1 as [H1 H2]. split; cbn; [done|]. intros id' p. unfold peers_of. cbn. intros [[<- <-]|[Hne Hp]]%lookup_insert_Some; [cbn; split_and!; [lia|lia|done|done]|]. by apply H2.
  - transitivity rt1; [done|]. done.
  - rewrite Hr1 in A3, A4. split; cbn; try done. by rewrite <- Hp1.
Qed.

(** ** All peers *)

Record progress (old : Runtime) (done : list Incoming) (present : list Z) (rt : Runtime) : Prop := {
  pg_ok : runtime_ok rt;
  pg_settled : settled old rt;
  pg_count : peer_count_ old ≤ peer_count_ rt ≤ peer_count_ old + Z.of_nat (length done);
  pg_keys : ∀ id key, id ≤ peer_count_ old → has_key rt id key ↔ has_key old id key;
  pg_done : ∀ inc, inc ∈ done → ∃ id, id ∈ present ∧ has_key rt id (key_of inc) ∧ ∀ p, p ∈ prefixes inc → mkEntry p id ∈ entries_ (rt_routes rt);
  pg_first : ∀ inc id, inc ∈ done → first_with old (key_of inc) id → id ∈ present;
  pg_entries : ∀ e, e ∈ entries_ (rt_routes rt) → ∃ inc, inc ∈ done ∧ entry_prefix e ∈ prefixes inc ∧ has_key rt (entry_peer e) (key_of inc) ∧ entry_peer e ∈ present;
  pg_present : ∀ id, id ∈ present → ∃ inc, inc ∈ done ∧ peers_of rt !! id = Some (with_id id (in_peer inc));
  pg_absent : ∀ id, id ∉ present → peers_of rt !! id = peers_of old !! id;
}.

Lemma elem_of_snoc {A} (x y : A) l : x ∈ l ++ [y] ↔ x ∈ l ∨ x = y.
Proof. by rewrite elem_of_app, list_elem_of_singleton. Qed.

Lemma has_key_unique rt id k1 k2 : has_key rt id k1 → has_key rt id k2 → k1 = k2.
Proof. intros (p & Hp & <-) (q & Hq & <-). by rewrite Hp in Hq; injection Hq as ->. Qed.

Lemma installed_keys next id rt rt' : runtime_ok rt → installed next id rt rt' → ∀ other key, has_key rt' other key ↔ has_key rt other key ∨ other = id ∧ key = key_of next.
Proof.
  intros Hrt Hi other key. unfold has_key at 1. rewrite (is_peers _ _ _ _ Hi). split.
  - intros (p & [[<- <-]|[Hne Hp]]%lookup_insert_Some & <-); [by right|]. left. by exists p.
  - intros [Hk|[-> ->]]; [|eexists; split; [apply lookup_insert_eq|done]]. destruct (decide (other = id)) as [->|Hne].
    + eexists. split; [apply lookup_insert_eq|]. cbn. destruct (is_id _ _ _ _ Hi) as [[Hf _]|[-> _]]; [by apply (has_key_unique rt id)|].
      destruct Hk as (p & Hp & _). destruct (ro_peers rt Hrt _ p Hp) as (? & _). lia.
    + destruct Hk as (p & Hp & <-). exists p. split; [|done]. by rewrite lookup_insert_ne.
Qed.

Lemma progress_step old done present rt next id rt' : runtime_ok old → progress old done present rt → runtime_ok rt' → settled rt rt' → installed next id rt rt' →
  progress old (done ++ [next]) (id :: present) rt'.
Proof.
  intros Hold Hp Hok Hs Hi. pose proof (installed_keys next id rt rt' (pg_ok _ _ _ _ Hp) Hi) as Hk. assert (has_key rt' id (key_of next)) as Hid by (apply Hk; by right).
  assert (id ≤ peer_count_ old → has_key rt id (key_of next)) as Hlow.
  { intros Hle. destruct (is_id _ _ _ _ Hi) as [[Hf _]|[-> _]]; [done|]. pose proof (pg_count _ _ _ _ Hp). lia. }
  split; [done|by transitivity rt; [apply Hp|]|..].
  - pose proof (pg_count _ _ _ _ Hp). pose proof (is_count _ _ _ _ Hi). rewrite length_app. cbn [length]. lia.
  - intros other key Ho. rewrite Hk, <- (pg_keys _ _ _ _ Hp other key Ho). split; [|by left]. intros [?|[-> ->]]; [done|by apply Hlow].
  - intros inc [Hin| ->]%elem_of_snoc.
    + destruct (pg_done _ _ _ _ Hp inc Hin) as (id' & H1 & H2 & H3). exists id'. split; [by right|]. split; [apply Hk; by left|]. intros p Hpr. by apply (is_old _ _ _ _ Hi), H3.
    + exists id. split; [by left|]. split; [done|]. apply (is_routes _ _ _ _ Hi).
  - intros inc id' [Hin| ->]%elem_of_snoc Hf; [right; by apply (pg_first _ _ _ _ Hp inc)|]. destruct Hf as [Hf Hmin].
    assert (id' ≤ peer_count_ old) as Hle by (destruct Hf as (p & Hpp & _); by destruct (ro_peers old Hold _ p Hpp) as (? & _); lia).
    assert (has_key rt id' (key_of next)) as Hrt' by (by apply (pg_keys _ _ _ _ Hp)). destruct (is_id _ _ _ _ Hi) as [[Hf' Hmin']|[_ Hno]]; [|by destruct (Hno id')].
    assert (id = id') as ->; [|by left]. apply Z.le_antisymm; [by apply Hmin'|]. apply Hmin. apply (pg_keys _ _ _ _ Hp); [|done]. specialize (Hmin' id' Hrt'). lia.
  - intros e [Hin|[He Hpr]]%(is_new _ _ _ _ Hi).
    + destruct (pg_entries _ _ _ _ Hp e Hin) as (inc & H1 & H2 & H3 & H4). exists inc. split_and!; [apply elem_of_app; by left|done|apply Hk; by left|by right].
    + exists next. split_and!; [apply elem_of_app; right; by left|done|by rewrite He|rewrite He; by left].
  - intros id' Hin. rewrite (is_peers _ _ _ _ Hi). destruct (decide (id' = id)) as [->|Hne]; [exists next; split; [apply elem_of_app; right; by left|apply lookup_insert_eq]|].
    apply elem_of_cons in Hin as [?|Hin]; [done|]. destruct (pg_present _ _ _ _ Hp id' Hin) as (inc & H1 & H2). exists inc. split; [apply elem_of_app; by left|]. by rewrite lookup_insert_ne.
  - intros id' [Hne Hni]%not_elem_of_cons. rewrite (is_peers _ _ _ _ Hi), lookup_insert_ne by done. by apply (pg_absent _ _ _ _ Hp).
Qed.

Definition gathered (old : Runtime) (l : list Incoming) (r : Runtime * res RuntimeError (list Z)) : Prop :=
  runtime_ok r.1 ∧ settled old r.1 ∧ match r.2 with Ok present => progress old l present r.1 | Fail e => e = routing_conflict | Ub => False end.

Lemma install_peers_spec old l : runtime_ok old → Forall (λ inc, bytes_ok (key_of inc)) l → ∀ done present rt, progress old done present rt → peer_count_ rt + Z.of_nat (length l) < 2 ^ 32 →
  gathered old (done ++ l) (install_peers l present rt).
Proof.
  intros Hold. induction 1 as [|next l Hk _ IH]; intros done present rt Hp Hc; [rewrite app_nil_r; split_and!; apply Hp|]. rewrite install_peers_cons. cbn [length] in Hc.
  pose proof (install_one_spec next rt (pg_ok _ _ _ _ Hp) Hk ltac:(lia)) as H1. unfold sbind. destruct (install_one next rt) as [rt1 [id|e|]]; destruct H1 as (Hok & Hs & Hi); cbn [fst snd] in *; [| |done].
  - rewrite cons_middle, (app_assoc done [next] l). apply IH; [by apply (progress_step old done present rt)|]. pose proof (is_count _ _ _ _ Hi). lia.
  - split_and!; [done|transitivity rt; [apply Hp|done]|done].
Qed.

(** ** Forgetting *)

Definition forgets (P : Z → Prop) (rt : Runtime) (r : Runtime * res RuntimeError unit) : Prop :=
  r.2 = Ok tt ∧ settled rt r.1 ∧ rt_routes r.1 = rt_routes rt ∧ peer_count_ r.1 = peer_count_ rt ∧
  ∀ id, (P id → peers_of r.1 !! id = None) ∧ (¬ P id → peers_of r.1 !! id = peers_of rt !! id).

Section forgetting.
Context {heap_functions : HeapFunctions}.

Definition keeps_peers (w : World) (r : World * res ControlError unit) : Prop := r.2 = Ok tt ∧ peers_ (plane r.1) = peers_ (plane w) ∧ heap r.1 = heap w ∧ table r.1 = table w.

Lemma forget_provisional_spec order peer : ∀ w, keeps_peers w (forget_provisional order peer w).
Proof.
  induction order as [|id order IH]; intros w; cbn [forget_provisional]; [done|]. unfold sbind at 1, state, gets. cbn iota beta.
  destruct (provisional_ (plane w) !! id) as [entry|]; [|apply IH]. destruct (negb _); [apply IH|]. unfold sbind, cancel_timer, modify. 
  match goal with |- keeps_peers _ (forget_provisional _ _ ?w1) => destruct (IH w1) as (E1 & E2 & E3 & E4) end. by split_and!.
Qed.

Lemma forget_peer_spec env peer rt : forgets (.= peer) rt (on_control (forget_peer env peer) rt).
Proof.
  unfold on_control, forget_peer, cancel_timer, modify. unfold sbind.
  match goal with |- context [forget_provisional ?o peer ?w] => pose proof (forget_provisional_spec o peer w) as (E1 & E2 & E3 & E4); destruct (forget_provisional o peer w) as [w' r] end.
  cbn [fst snd] in *. subst r. cbn [recast]. split_and!; cbn; try done.
  intros id. unfold peers_of. cbn. rewrite E2. cbn. split; [intros ->; apply lookup_delete_eq|intros Hne; by rewrite lookup_delete_ne by done].
Qed.

Lemma forget_absent_spec env present order : ∀ rt, forgets (λ id, id ∈ order ∧ id ∉ present) rt (forget_absent env order present rt).
Proof.
  induction order as [|peer order IH]; intros rt; cbn [forget_absent].
  { split_and!; try done. intros id. split; [|done]. by intros [[]%elem_of_nil _]. }
  unfold sbind. case_bool_decide as Hin.
  - cbn [sret]. destruct (IH rt) as (H1 & H2 & H3 & H4 & H5). split_and!; try done. intros id. destruct (H5 id) as [Hn Hs].
    split; [intros [[->|Ho]%elem_of_cons Hp]; [done|by apply Hn]|]. intros Hno. apply Hs. intros [Ho Hp]. apply Hno. split; [by right|done].
  - destruct (forget_peer_spec env peer rt) as (F1 & F2 & F3 & F4 & F5). destruct (on_control _ rt) as [rt1 r]. cbn [fst snd] in *. subst r.
    destruct (IH rt1) as (H1 & H2 & H3 & H4 & H5). split_and!; [done|by transitivity rt1|congruence|congruence|]. intros id. destruct (H5 id) as [Hn Hs], (F5 id) as [Fn Fs].
    destruct (decide (id ∈ order ∧ id ∉ present)) as [Hd|Hd]; [split; [intros _; by apply Hn|intros Hno; exfalso; apply Hno; destruct Hd; split; [by right|done]]|]. rewrite (Hs Hd).
    split; [intros [[->|Ho]%elem_of_cons Hp]; [by apply Fn|by destruct Hd]|]. intros Hno. apply Fs. intros ->. apply Hno. split; [by left|done].
Qed.
End forgetting.

(** ** A reload *)

(** Routes and peers are those of the configuration; a peer that was there
    before has kept its id. *)
Record reloaded (l : list PeerEntry) (rt rt' : Runtime) : Prop := {
  rl_peers : ∀ id p, peers_of rt' !! id = Some p → ∃ entry inc, entry ∈ l ∧ parse_entry entry = Ok inc ∧ p = with_id id (in_peer inc);
  rl_all : ∀ entry, entry ∈ l → ∃ inc id, parse_entry entry = Ok inc ∧ has_key rt' id (key_of inc) ∧ ∀ p, p ∈ prefixes inc → mkEntry p id ∈ entries_ (rt_routes rt');
  rl_routes : ∀ e, e ∈ entries_ (rt_routes rt') → ∃ entry inc, entry ∈ l ∧ parse_entry entry = Ok inc ∧ entry_prefix e ∈ prefixes inc ∧ has_key rt' (entry_peer e) (key_of inc);
  rl_stable : ∀ entry inc id, entry ∈ l → parse_entry entry = Ok inc → first_with rt (key_of inc) id → has_key rt' id (key_of inc);
}.

Definition applied (l : list PeerEntry) (rt : Runtime) (r : Runtime * res RuntimeError nat) : Prop :=
  runtime_ok r.1 ∧ settled rt r.1 ∧ match r.2 with Ok n => n = length l ∧ reloaded l rt r.1 | Fail e => e = routing_conflict | Ub => False end.

Section applying.
Context {heap_functions : HeapFunctions}.

Lemma progress_reloaded l incoming rt present rt1 rt2 (order : list Z) : Forall2 (λ entry inc, parse_entry entry = Ok inc) l incoming → runtime_ok rt → (∀ id, 1 ≤ id ≤ peer_count_ rt → id ∈ order) →
  progress rt incoming present rt1 → forgets (λ id, id ∈ order ∧ id ∉ present) rt1 (rt2, Ok tt) → runtime_ok rt2 ∧ reloaded l rt rt2.
Proof.
  intros Hl Hrt Ho Hp (_ & _ & Hr & Hc & Hf). cbn [fst] in *.
  assert (∀ id p, peers_of rt2 !! id = Some p → peers_of rt1 !! id = Some p ∧ id ∈ present) as Hsub.
  { intros id p Hid. destruct (Hf id) as [Hn Hs]. destruct (decide (id ∈ present)) as [Hin|Hni]; [by rewrite Hs in Hid by (by intros [_ ?])|]. exfalso.
    destruct (decide (id ∈ order)) as [Hio|Hio]; [rewrite Hn in Hid by done; done|]. rewrite Hs, (pg_absent _ _ _ _ Hp id Hni) in Hid by (by intros [? _]).
    destruct (ro_peers rt Hrt id p Hid) as (Hrange & _). by apply Hio, Ho. }
  assert (∀ id key, id ∈ present → has_key rt1 id key → has_key rt2 id key) as Hkey.
  { intros id key Hin (p & Hid & Hk). exists p. split; [|done]. destruct (Hf id) as [_ Hs]. rewrite Hs; [done|]. by intros [_ ?]. }
  assert (∀ inc, inc ∈ incoming → ∃ entry, entry ∈ l ∧ parse_entry entry = Ok inc) as Hback.
  { intros inc [i Hi]%list_elem_of_lookup. destruct (Forall2_lookup_r _ _ _ _ _ Hl Hi) as (entry & He & Hpe). exists entry. split; [by apply list_elem_of_lookup; exists i|done]. }
  assert (∀ entry inc, entry ∈ l → parse_entry entry = Ok inc → inc ∈ incoming) as Hforth.
  { intros entry inc [i Hi]%list_elem_of_lookup Hpe. destruct (Forall2_lookup_l _ _ _ _ _ Hl Hi) as (inc' & He & Hpe'). rewrite Hpe in Hpe'. injection Hpe' as <-. by apply list_elem_of_lookup; exists i. }
  split; [|split].
  - split; [rewrite Hc; apply Hp|]. intros id p Hid. destruct (Hsub id p Hid) as [Hid1 _]. rewrite Hc. by apply (ro_peers rt1 (pg_ok _ _ _ _ Hp)).
  - intros id p Hid. destruct (Hsub id p Hid) as [Hid1 Hin]. destruct (pg_present _ _ _ _ Hp id Hin) as (inc & Hinc & E). rewrite Hid1 in E. injection E as ->.
    destruct (Hback inc Hinc) as (entry & ? & ?). by exists entry, inc.
  - intros entry Hin. assert (∃ inc, parse_entry entry = Ok inc) as [inc Hpe]. { apply list_elem_of_lookup in Hin as [i Hi]. destruct (Forall2_lookup_l _ _ _ _ _ Hl Hi) as (inc & _ & ?). by exists inc. }
    destruct (pg_done _ _ _ _ Hp inc (Hforth entry inc Hin Hpe)) as (id & Hid & Hk & Hroutes). exists inc, id. split; [done|]. split; [by apply Hkey|]. by rewrite Hr.
  - intros e He. rewrite Hr in He. destruct (pg_entries _ _ _ _ Hp e He) as (inc & Hinc & Hpr & Hk & Hin). destruct (Hback inc Hinc) as (entry & ? & ?). exists entry, inc. split_and!; [done|done|done|by apply Hkey].
  - intros entry inc id Hin Hpe Hfirst. pose proof (Hforth entry inc Hin Hpe) as Hinc. apply Hkey; [by apply (pg_first _ _ _ _ Hp inc)|].
    destruct Hfirst as [Hk _]. apply (pg_keys _ _ _ _ Hp); [|done]. destruct Hk as (p & Hid & _). by destruct (ro_peers rt Hrt id p Hid) as (? & _); lia.
Qed.

Lemma apply_peers_spec env (order : list Z) l incoming rt : Forall2 (λ entry inc, parse_entry entry = Ok inc) l incoming → runtime_ok rt → (∀ id, 1 ≤ id ≤ peer_count_ rt → id ∈ order) →
  peer_count_ rt + Z.of_nat (length l) < 2 ^ 32 → applied l rt (apply_peers env order incoming rt).
Proof.
  intros Hl Hrt Ho Hc. pose proof (Forall2_length _ _ _ Hl) as Hlen. unfold apply_peers, sbind at 1, modify. set (rt0 := with_routes _ rt).
  assert (progress rt [] [] rt0) as H0.
  { split; cbn; try done; try lia; [by destruct Hrt; split|..]; intros ? []%elem_of_nil || (intros ? ? []%elem_of_nil). }
  assert (Forall (λ inc, bytes_ok (key_of inc)) incoming) as Hk by (clear -Hl; induction Hl; constructor; eauto using parse_entry_key).
  pose proof (install_peers_spec rt incoming Hrt Hk [] [] rt0 H0 ltac:(cbn; lia)) as Hg. unfold sbind. destruct (install_peers incoming [] rt0) as [rt1 [present|e|]]; destruct Hg as (G1 & G2 & G3); cbn [fst snd app] in *; [| |done].
  - pose proof (forget_absent_spec env present order rt1) as Hf. destruct (forget_absent env order present rt1) as [rt2 r] eqn:Ef. pose proof Hf as (F1 & F2 & _). cbn [fst snd] in *. subst r.
    destruct (progress_reloaded l incoming rt present rt1 rt2 order Hl Hrt Ho G3 Hf) as [Hok Hre]. cbn [sret]. split_and!; [done|by transitivity rt1|split; [by symmetry|done]].
  - by split_and!.
Qed.
End applying.

(** What a reload of [config] leaves. *)
Definition reload_result (config : Config) (rt : Runtime) (r : Runtime * res RuntimeError nat) : Prop :=
  runtime_ok r.1 ∧ settled rt r.1 ∧
  match r.2 with
  | Ok n => n = length (peers config) ∧ reloaded (peers config) rt r.1
  | Fail e => e ≠ routing_conflict → r.1 = rt
  | Ub => False
  end.

Lemma reload_loaded `{HeapFunctions} env (order : list Z) path contents config rt : runtime_ok rt → (∀ id, 1 ≤ id ≤ peer_count_ rt → id ∈ order) →
  load_config_file path contents = Ok config → peer_count_ rt + Z.of_nat (length (peers config)) < 2 ^ 32 → reload_result config rt (reload env order path contents rt).
Proof.
  intros Hrt Ho Hload Hc. unfold reload. rewrite Hload. assert (∀ e, reload_result config rt (rt, Fail e)) as Hfail by (intros e; by split_and!).
  unfold sbind, state, gets, check, lift. do 4 (destruct (_ : bool); [apply Hfail|]; cbn iota beta). pose proof (parse_entries_no_ub (peers config)) as Hn.
  destruct (parse_entries (peers config)) as [incoming|e|] eqn:E; [|apply Hfail|done]. apply parse_entries_spec in E.
  destruct (apply_peers_spec env order (peers config) incoming rt E Hrt Ho Hc) as (H1 & H2 & H3). split_and!; [done|done|]. by destruct (apply_peers _ _ _ _).2.
Qed.

(** C15. A reload of the configuration makes the node agree with it without
    disturbing it: every route is a prefix that the file gives to a peer and
    leads to the peer with that key, every configured peer is known with its
    routes, every other peer is forgotten, and a peer that was known before
    keeps its id, so that its session goes on; sessions, local routes and
    settings stay as they are.  A reload that is refused changes nothing,
    unless it is refused for a route.  It has no undefined behaviour, and what
    it needs of the peers before, it leaves behind. *)
Theorem reload_agrees `{HeapFunctions} env (order : list Z) path contents rt : runtime_ok rt → (∀ id, 1 ≤ id ≤ peer_count_ rt → id ∈ order) →
  (∀ config, load_config_file path contents = Ok config → peer_count_ rt + Z.of_nat (length (peers config)) < 2 ^ 32) →
  let r := reload env order path contents rt in
  runtime_ok r.1 ∧ settled rt r.1 ∧
  match r.2 with
  | Ok n => ∃ config, load_config_file path contents = Ok config ∧ n = length (peers config) ∧ reloaded (peers config) rt r.1
  | Fail e => e ≠ routing_conflict → r.1 = rt
  | Ub => False
  end.
Proof.
  intros Hrt Ho Hc. cbn zeta. destruct (load_config_file path contents) as [config|e|] eqn:Hload.
  - destruct (reload_loaded env order path contents config rt Hrt Ho Hload (Hc config eq_refl)) as (H1 & H2 & H3). split_and!; [done|done|]. destruct (reload _ _ _ _ _).2; [by exists config|done|done].
  - unfold reload. rewrite Hload. by split_and!.
  - exfalso. destruct contents as [l|]; [|done]. pose proof (parse_config_sound l). cbn [load_config_file] in Hload. by rewrite Hload in *.
Qed.

(** A node that knows one peer is given a second one, listed before the first;
    then a file in which both claim the same prefix. *)
Section sample.
#[local] Existing Instances sorting_heap.

Definition peer_lines (c ip : string) : list string :=
  ["[[peer]]"; String.append "public_key = " (String.concat "" (replicate 64 c)); String.append "allowed_ips = " ip]%string.
Definition reload_file (l : list string) : option (list Z) :=
  Some (file (["[node]"; "listen_port = 51820"; "[identity]"; "key_file = 'k'"]%string ++ l)).

Definition runtime_fresh : Runtime := mkRuntime empty_table (new_world (toy_pair 3) (new_contexts true)) 0 51820 (text "norr0") off.
Definition runtime_one : Runtime := (reload sample_env [] [] (reload_file (peer_lines "a" "10.0.0.2/32")) runtime_fresh).1.
Abbreviation two_peers := (reload_file (peer_lines "b" "10.0.0.3/32" ++ peer_lines "a" "10.0.0.2/32")).

Lemma reload_agrees_witness : ∃ rt n, reload sample_env [1] [] two_peers runtime_one = (rt, Ok n) ∧ n = 2%nat ∧ runtime_ok rt ∧ has_key rt 1 (replicate 32 170) ∧
  lookup_route (rt_routes rt) (from_bytes ipv4 [10; 0; 0; 3]) = 2.
Proof.
  assert (runtime_ok runtime_fresh) as H0 by (split; [done|]; intros id p; by vm_compute).
  destruct (reload_agrees sample_env [] [] (reload_file (peer_lines "a" "10.0.0.2/32")) runtime_fresh H0) as [H1 _].
  { cbn. lia. } { intros config E. vm_compute in E. injection E as <-. by vm_compute. }
  fold runtime_one in H1.
  assert (peer_count_ runtime_one = 1) as Hc by (by vm_compute).
  destruct (reload_agrees sample_env [1] [] two_peers runtime_one H1) as (H2 & _ & H3).
  { rewrite Hc. intros id Hid. apply list_elem_of_singleton. lia. } { intros config E. vm_compute in E. injection E as <-. rewrite Hc. by vm_compute. }
  assert ((reload sample_env [1] [] two_peers runtime_one).2 = Ok 2%nat) as E2 by (by vm_compute).
  assert (lookup_route (rt_routes (reload sample_env [1] [] two_peers runtime_one).1) (from_bytes ipv4 [10; 0; 0; 3]) = 2) as E3 by (by vm_compute).
  rewrite E2 in H3. destruct H3 as (config & Ec & _ & Hre).
  assert (∃ entry inc, entry ∈ peers config ∧ parse_entry entry = Ok inc ∧ key_of inc = replicate 32 170) as (entry & inc & Hin & Hpe & Hk).
  { vm_compute in Ec. injection Ec as <-. cbn [peers]. eexists _, _. split; [right; left|]. split; [vm_compute; reflexivity|]. by vm_compute. }
  assert (first_with runtime_one (replicate 32 170) 1) as Hf.
  { split; [eexists; split; [vm_compute; reflexivity|by vm_compute]|]. intros other (p & Hp & _). by destruct (ro_peers _ H1 other p Hp) as [[? _] _]. }
  rewrite <- Hk in Hf. pose proof (rl_stable _ _ _ Hre entry inc 1 Hin Hpe Hf) as Hst. rewrite Hk in Hst. clear Hf Hre Hin Hpe Hk Ec.
  destruct (reload sample_env [1] [] two_peers runtime_one) as [rt r]. cbn [fst snd] in *. subst r. exists rt, 2%nat. split_and!; [exact eq_refl|exact eq_refl|exact H2|exact Hst|exact E3].
Defined.

(** A refused reload takes the routes away: when two peers of the new file
    claim the same prefix, the node is left without the route it had. *)
Lemma refused_reload_loses_routes :
  let conflicting := reload_file (peer_lines "b" "10.0.0.3/32" ++ peer_lines "a" "10.0.0.3/32") in
  let r := reload sample_env [1] [] conflicting runtime_one in
  lookup_route (rt_routes runtime_one) (from_bytes ipv4 [10; 0; 0; 2]) = 1 ∧
  r.2 = Fail routing_conflict ∧ lookup_route (rt_routes r.1) (from_bytes ipv4 [10; 0; 0; 2]) = kNoPeer ∧ has_key r.1 1 (replicate 32 170).
Proof. split; [by vm_compute|]. split; [by vm_compute|]. split; [by vm_compute|]. eexists. split; [vm_compute; reflexivity|]. by vm_compute. Qed.
End sample.
