(* ===== verification/RuntimeDial.v ===== *)
(** Dialling: [Runtime::dial_configured_peers], [request_session] and
    [redial_dead_peers] of [src/runtime.cpp].

    Every few seconds the runtime looks at its peers, removes the sessions that
    have fallen silent or are too old, and starts handshakes with the peers it
    can dial and has no session with.  What is handed to the carrier is
    collected in [outbox]; the code does not look at the carrier's answer.  The
    random bytes of a handshake and the answers of the cipher library are given
    peer by peer. *)

From S2P Require Import Prelude Packet Nonce Handshake Address Routing Timers RateLimit Blake2s Crypto Noise.
From S2P Require Import Session SessionTable Cookie ControlPlane ControlIds ControlExchange Runtime.

Definition kDeadPeerTimeout : Duration := seconds 90.

Record Dialer := mkDialer { dl_runtime : Runtime; last_liveness_sweep_ : Instant; outbox : list OutgoingHandshake }.
Abbreviation dialing := (effect Dialer RuntimeError).

Definition dl_world (d : Dialer) : World := rt_world (dl_runtime d).
Definition put_world (w : World) (d : Dialer) : Dialer := mkDialer (with_world w (dl_runtime d)) (last_liveness_sweep_ d) (outbox d).
Definition note_sweep (now : Instant) (d : Dialer) : Dialer := mkDialer (dl_runtime d) now (outbox d).

Definition send_outgoing (outgoing : OutgoingHandshake) : dialing unit :=
  modify (λ d, mkDialer (dl_runtime d) (last_liveness_sweep_ d) (outbox d ++ [outgoing])).

(** A call of the control plane whose failure is looked at by the caller. *)
Definition try_control {A} (m : ctl A) : dialing (option A) := λ d,
  let '(w, r) := m (dl_world d) in (put_world w d, match r with Ok a => Ok (Some a) | Fail _ => Ok None | Ub => Ub end).

Definition silent (s : Session) (now : Instant) : bool := (0 <? received (stats_ s)) && (kDeadPeerTimeout <=? now - last_received_ s).

Section dial.
Context {heap_functions : HeapFunctions} {aead : Aead} {dh : Dh}.

(** [start_handshake] and, if it succeeds, [send_outgoing]. *)
Definition start_and_send (env : Env) (now : Instant) (peer : Z) : dialing bool :=
  bind outgoing := try_control (start_handshake env peer now) in
  match outgoing with
  | Some outgoing => bind _ := send_outgoing outgoing in sret true
  | None => sret false
  end.

(** The peers [peer], [peer + 1], ..., [n] of them. *)
Fixpoint dial_loop (env : Z → Env) (now : Instant) (n : nat) (peer : Z) (started : nat) : dialing nat :=
  match n with
  | O => sret started
  | S n =>
      bind d := state in
      match find_peer (plane (dl_world d)) peer ≫= pc_endpoint with
      | None => dial_loop env now n (peer + 1) started
      | Some _ =>
          bind sent := start_and_send (env peer) now peer in
          dial_loop env now n (peer + 1) (if sent : bool then S started else started)
      end
  end.
Definition dial_configured_peers (env : Z → Env) (now : Instant) : dialing nat :=
  bind d := state in
  dial_loop env now (Z.to_nat (peer_count_ (dl_runtime d))) 1 0.

Definition has_pending (c : ControlPlane) (peer : Z) : bool := contains (pending_ c) peer.

Definition request_session (env : Env) (now : Instant) (peer : Z) : dialing unit :=
  bind d := state in
  if has_pending (plane (dl_world d)) peer then sret tt else
  match dial_endpoint (plane (dl_world d)) peer with
  | None => sret tt
  | Some _ => bind _ := start_and_send env now peer in sret tt
  end.

(** [sessions_.find_by_peer(peer)], the session behind the pointer. *)
Definition session_of (peer : Z) : dialing (option Session) := λ d,
  let w := dl_world d in
  let '(t, pointer) := find_by_peer (table w) peer in
  (put_world (with_table w (heap w) t) d, Ok (pointer ≫= λ pointer, heap w !! pointer)).

Definition drop_session (peer : Z) (s : Session) : dialing unit :=
  bind _ := try_control (modify (λ w, with_table w (heap w) (remove (heap w) (table w) (local_key_id_ s)))) in
  bind _ := try_control (cancel_timer rekey peer) in
  bind _ := try_control (cancel_timer keepalive peer) in
  sret tt.

Definition redial_peer (env : Env) (now : Instant) (peer : Z) : dialing unit :=
  bind d := state in
  match find_peer (plane (dl_world d)) peer with
  | None => sret tt
  | Some configured =>
      let dials := match pc_endpoint configured with Some _ => true | None => false end in
      bind session := session_of peer in
      bind kept := match session with
                   | Some s => if negb (silent s now) && negb (expired s now) then sret true else bind _ := drop_session peer s in sret false
                   | None => sret false
                   end in
      if kept : bool then sret tt else
      bind d := state in
      if negb dials || has_pending (plane (dl_world d)) peer then sret tt
      else bind _ := start_and_send env now peer in sret tt
  end.

Fixpoint redial_loop (env : Z → Env) (now : Instant) (n : nat) (peer : Z) : dialing unit :=
  match n with
  | O => sret tt
  | S n => bind _ := redial_peer (env peer) now peer in redial_loop env now n (peer + 1)
  end.

Definition redial_dead_peers (env : Z → Env) (now : Instant) : dialing unit :=
  bind d := state in
  if now - last_liveness_sweep_ d <? kHandshakeTimeout then sret tt else
  bind _ := modify (note_sweep now) in
  redial_loop env now (Z.to_nat (peer_count_ (dl_runtime d))) 1.
End dial.
