(* ===== verification/RuntimeLiveness.v ===== *)
(** Dead sessions are removed and their peers are dialled again. *)

From S2P Require Import Prelude Packet Nonce Handshake Address Routing Timers RateLimit Blake2s Crypto Noise.
From S2P Require Import Session SessionTable Cookie ControlPlane ControlIds ControlExchange Runtime RuntimeDial.

(** The session that packets to a peer are sealed in. *)
Definition current (w : World) (p : Z) : option Session := (find_by_peer (table w) p).2 ≫= λ pointer, heap w !! pointer.

Definition dead (s : Session) (now : Instant) : bool := silent s now || expired s now.
Definition alive (now : Instant) (s : option Session) : bool := match s with Some s => negb (dead s now) | None => false end.

Lemma current_spec w p : current w p = by_peer_ (table w) !! p ≫= λ id, sessions_ (table w) !! id ≫= λ pointer, heap w !! pointer.
Proof. unfold current, find_by_peer. destruct (by_peer_ (table w) !! p); [|done]. by rewrite find_key_lookup. Qed.

Lemma current_same w w' p : by_peer_ (table w') = by_peer_ (table w) → sessions_ (table w') = sessions_ (table w) → heap w' = heap w → current w' p = current w p.
Proof. rewrite !current_spec. by intros -> -> ->. Qed.

Section liveness.
Context {heap_functions : HeapFunctions} `{AeadLaws} `{DhLaws}.

(** A handshake with the peer can be computed. *)
Definition callable (env : Env) (local : KeyPair) (cfg : PeerConfig) : Prop :=
  ∃ eph es ss, drawn env eph ∧ forallb (λ b, b =? 0) (static_public cfg) = false ∧
    scalarmult (private_key eph) (static_public cfg) = Some es ∧ scalarmult (private_key local) (static_public cfg) = Some ss.

(** Only the peers in [touched] are affected. *)
Record framed (touched : Z → Prop) (w w' : World) : Prop := {
  fr_peers : peers_ (plane w') = peers_ (plane w);
  fr_static : local_static_ (plane w') = local_static_ (plane w);
  fr_pending : ∀ q, ¬ touched q → pending_ (plane w') !! q = pending_ (plane w) !! q;
  fr_current : ∀ q, ¬ touched q → current w' q = current w q;
  fr_timers : ∀ e, e ∈ timers_ w' → ¬ touched (subject e) → e ∈ timers_ w;
}.

Lemma framed_refl touched w : framed touched w w.
Proof. by split. Qed.

Lemma framed_trans (t1 t2 t3 : Z → Prop) w1 w2 w3 : framed t1 w1 w2 → framed t2 w2 w3 → (∀ q, t1 q → t3 q) → (∀ q, t2 q → t3 q) → framed t3 w1 w3.
Proof.
  intros [A1 A2 A3 A4 A5] [B1 B2 B3 B4 B5] S1 S2. split; [congruence|congruence|..].
  - intros q Hq. rewrite B3, A3; auto.
  - intros q Hq. rewrite B4, A4; auto.
  - intros e He Hq. apply A5; [apply B5|]; auto.
Qed.

(** The timers of a session of [p] are gone. *)
Definition quiet_timers (p : Z) (w : World) : Prop := ∀ e, e ∈ timers_ w → subject e = p → kind e ≠ rekey ∧ kind e ≠ keepalive.

Lemma room_core k w w' : room k w → same_core w w' → contexts w' = contexts w → local_static_ (plane w') = local_static_ (plane w) →
  (length (timers_ w') ≤ length (timers_ w))%nat → room k w'.
Proof.
  intros [] Hc E1 E2 Hl. split; rewrite ?E1, ?E2, ?(sc_pending _ _ Hc), ?(sc_table _ _ Hc); try done; [by eapply same_core_ok|lia].
Qed.

Lemma room_table k w t : room k w → table_ok (heap w) t → (∀ id, sessions_ (table w) !! id = None → sessions_ t !! id = None) →
  table_size t ≤ table_size (table w) → room k (with_table w (heap w) t).
Proof. intros [] Ht Hs Hz. split; cbn; try done; [by apply fewer_sessions_ok|lia]. Qed.

(** *** [session_of] *)

Lemma session_of_spec k p d : room k (dl_world d) → ∃ t, session_of p d = (put_world (with_table (dl_world d) (heap (dl_world d)) t) d, Ok (current (dl_world d) p)) ∧
  sessions_ t = sessions_ (table (dl_world d)) ∧ by_peer_ t = by_peer_ (table (dl_world d)) ∧ room k (with_table (dl_world d) (heap (dl_world d)) t).
Proof.
  intros Hr. set (w := dl_world d) in *. unfold session_of, current. fold w. exists (find_by_peer (table w) p).1.
  assert (sessions_ (find_by_peer (table w) p).1 = sessions_ (table w) ∧ by_peer_ (find_by_peer (table w) p).1 = by_peer_ (table w)) as [Es Eb].
  { unfold find_by_peer, find_by_key_id. by repeat case_match. }
  destruct (find_by_peer (table w) p) as [t pointer] eqn:E. cbn [fst snd] in *. split_and!; [done..|]. apply room_table; [done| |by rewrite Es|unfold table_size; by rewrite Es].
  unfold find_by_peer in E. destruct (by_peer_ (table w) !! p) as [id|]; [|injection E as <- <-; apply Hr].
  pose proof (find_by_key_id_ok (heap w) (table w) id (po_table _ (rm_ok _ _ Hr))) as Hk. by rewrite E in Hk.
Qed.

(** *** [drop_session] *)

Lemma remove_current w p s : plane_ok w → current w p = Some s → let t := remove (heap w) (table w) (local_key_id_ s) in
  current (with_table w (heap w) t) p = None ∧ (∀ q, q ≠ p → current (with_table w (heap w) t) q = current w q) ∧
  (∀ id, sessions_ (table w) !! id = None → sessions_ t !! id = None) ∧ table_size t ≤ table_size (table w).
Proof.
  intros Hw Hc. rewrite current_spec in Hc. destruct (by_peer_ (table w) !! p) as [id|] eqn:Eb; [|done]. cbn in Hc. destruct (sessions_ (table w) !! id) as [pointer|] eqn:Es; [|done]. cbn in Hc.
  destruct (tok_entry _ _ (po_table _ Hw) _ _ Es) as (_ & s0 & Hs0 & Hid). rewrite Hc in Hs0. injection Hs0 as <-. cbn zeta. subst id.
  destruct (tok_peer _ _ (po_table _ Hw) _ _ Eb) as (_ & (ptr' & x & Hp1 & Hp2 & Hp3) & _). rewrite Es in Hp1. injection Hp1 as <-. rewrite Hc in Hp2. injection Hp2 as <-.
  assert (remove (heap w) (table w) (local_key_id_ s) = mkSessionTable (delete (local_key_id_ s) (sessions_ (table w))) (delete p (by_peer_ (table w)))
    (forget_retired (local_key_id_ s) (retired_ (table w))) (retired_receives_ (table w)) (next_key_id_ (table w))) as ->.
  { unfold remove. by rewrite Es, Hc, Hp3, Eb, Z.eqb_refl. }
  split_and!.
  - rewrite current_spec. cbn. by rewrite lookup_delete_eq.
  - intros q Hq. rewrite !current_spec. cbn. rewrite lookup_delete_ne by done. destruct (by_peer_ (table w) !! q) as [id'|] eqn:Eq; [|done]. cbn.
    destruct (tok_peer _ _ (po_table _ Hw) _ _ Eq) as (_ & (ptr' & x & Hq1 & Hq2 & Hq3) & _). rewrite lookup_delete_ne; [done|]. intros Hi. congruence.
  - intros id Hn. cbn. apply lookup_delete_None. by right.
  - unfold table_size. cbn. apply Nat2Z.inj_le, map_subseteq_size, delete_subseteq.
Qed.

Lemma cancel_members l k s e : wheel_reach l → e ∈ (cancel l k s).1 ↔ e ∈ l ∧ ¬ (kind e = k ∧ subject e = s).
Proof.
  intros Hl. destruct (erase_heap (λ e, bool_decide (kind e = k) && (subject e =? s)) l (proj1 (wheel_ok _ Hl))) as (_ & Hp & _). unfold cancel. rewrite Hp, list_elem_of_filter, andb_false_iff, bool_decide_eq_false, Z.eqb_neq.
  destruct (decide (kind e = k)), (decide (subject e = s)); tauto.
Qed.
Lemma cancel_length l k s : wheel_reach l → (length (cancel l k s).1 ≤ length l)%nat.
Proof.
  intros Hl. destruct (erase_heap (λ e, bool_decide (kind e = k) && (subject e =? s)) l (proj1 (wheel_ok _ Hl))) as (_ & Hp & _). unfold cancel. rewrite Hp. apply length_filter.
Qed.

Lemma drop_session_spec k p s d : room k (dl_world d) → current (dl_world d) p = Some s → ∃ w', drop_session p s d = (put_world w' d, Ok tt) ∧
  room k w' ∧ framed (λ q, q = p) (dl_world d) w' ∧ current w' p = None ∧ quiet_timers p w' ∧ pending_ (plane w') = pending_ (plane (dl_world d)).
Proof.
  intros Hr Hc. set (w := dl_world d) in *. destruct (remove_current w p s (rm_ok _ _ Hr) Hc) as (C1 & C2 & C3 & C4). set (t := remove _ _ _) in *.
  pose proof (po_wheel _ (rm_ok _ _ Hr)) as Hw. set (l1 := (cancel (timers_ w) rekey p).1). set (l2 := (cancel l1 keepalive p).1).
  assert (wheel_reach l1) as Hw1 by (by apply wheel_cancel). pose proof (cancel_length _ rekey p Hw) as L1. pose proof (cancel_length l1 keepalive p Hw1) as L2. fold l1 l2 in L1, L2.
  exists (with_timers (with_table w (heap w) t) l2). split; [done|]. split_and!.
  - apply (room_core k (with_table w (heap w) t)); [|split; try done; intros _; by apply wheel_cancel|done|done|cbn [with_timers with_table timers_]; lia]. apply room_table; [done|apply remove_ok, Hr|done|done].
  - split; try done. intros e He Hn. cbn in He. apply (cancel_members _ _ _ _ Hw1) in He as [He _]. by apply (cancel_members _ _ _ _ Hw) in He as [He _].
  - done.
  - intros e He Hs. cbn in He. apply (cancel_members _ _ _ _ Hw1) in He as [He Hk]. apply (cancel_members _ _ _ _ Hw) in He as [He Hr']. split; intros E; tauto.
  - done.
Qed.

(** *** [start_and_send] *)

Lemma start_and_send_spec k env now p cfg e d : room (S k) (dl_world d) → peers_ (plane (dl_world d)) !! p = Some cfg → pc_endpoint cfg = Some e →
  callable env (local_static_ (plane (dl_world d))) cfg →
  ∃ w' o, start_and_send env now p d = (mkDialer (with_world w' (dl_runtime d)) (last_liveness_sweep_ d) (outbox d ++ [o]), Ok true) ∧ destination o = e ∧
    room k w' ∧ framed (λ q, q = p) (dl_world d) w' ∧ current w' p = current (dl_world d) p ∧ is_Some (pending_ (plane w') !! p) ∧
    (quiet_timers p (dl_world d) → quiet_timers p w').
Proof.
  intros Hr Hcfg He (eph & es & ss & Hd & Hnz & Hes & Hss). set (w := dl_world d) in *. assert (room 1 w) as H1r by (destruct Hr; split; try done; lia).
  assert (dial_endpoint (plane w) p = Some e) as Hdial by (unfold dial_endpoint, find_peer; by rewrite Hcfg, He).
  destruct (start_handshake_spec env now w p cfg e eph es ss H1r Hcfg Hdial Hd Hnz Hes Hss) as (w' & id & entry & Hid & E & Hp & _ & _ & _ & Hc & Hst & (d1 & d2 & Ht) & (N1 & N2 & N3 & N4 & N5)).
  pose proof (start_handshake_keeps env p now w (rm_ok _ _ Hr)) as Hk. rewrite E in Hk. cbn [fst snd] in Hk.
  set (o := mkOutgoing e _) in E. assert (try_control (start_handshake env p now) d = (put_world w' d, Ok (Some o))) as Et by (unfold try_control; fold w; by rewrite E).
  exists w', o. unfold start_and_send. rewrite (sbind_ok _ _ _ _ _ Et). split; [reflexivity|]. split; [done|].
  assert (∀ q, current w' q = current w q) as Hcur by (intros q; by apply current_same). split_and!.
  - destruct Hr. split; try done; rewrite ?Hst; try done.
    + unfold table_size in *. by rewrite N4.
    + rewrite Hp. unfold size_of in *. rewrite map_size_insert. destruct (pending_ (plane w) !! p); unfold Datatypes.id; lia.
    + apply Permutation_length in Ht. cbn [length] in Ht. lia.
  - split; [done|done|intros q Hq; by rewrite Hp, lookup_insert_ne|done|]. intros x Hx Hq. rewrite Ht in Hx. apply elem_of_cons in Hx as [->|[->|Hx]%elem_of_cons]; done.
  - done.
  - rewrite Hp, lookup_insert_eq. by eexists.
  - intros Hq x Hx Hs. rewrite Ht in Hx. apply elem_of_cons in Hx as [->|[->|Hx]%elem_of_cons]; [done|done|]. by apply Hq.
Qed.

(** ** One peer *)

(** What the sweep does for a peer. *)
Definition swept (now : Instant) (p : Z) (cfg : PeerConfig) (w w' : World) (sent : list OutgoingHandshake) : Prop :=
  current w' p = (if alive now (current w p) then current w p else None) ∧
  (is_Some (current w p) → alive now (current w p) = false → quiet_timers p w') ∧
  (alive now (current w p) = false → ∀ e, pc_endpoint cfg = Some e → is_Some (pending_ (plane w') !! p) ∧
    (pending_ (plane w) !! p = None → ∃ o, o ∈ sent ∧ destination o = e)).

Definition redialled (k : nat) (now : Instant) (p : Z) (d : Dialer) (r : Dialer * res RuntimeError unit) : Prop :=
  r.2 = Ok tt ∧ peer_count_ (dl_runtime r.1) = peer_count_ (dl_runtime d) ∧ last_liveness_sweep_ r.1 = last_liveness_sweep_ d ∧
  room k (dl_world r.1) ∧ framed (λ q, q = p) (dl_world d) (dl_world r.1) ∧ (∃ sent, outbox r.1 = outbox d ++ sent) ∧
  match peers_ (plane (dl_world d)) !! p with
  | Some cfg => swept now p cfg (dl_world d) (dl_world r.1) (outbox r.1)
  | None => current (dl_world r.1) p = current (dl_world d) p
  end.

Lemma room_less k w : room (S k) w → room k w.
Proof. intros []. split; try done; lia. Qed.

(** Nothing has happened. *)
Ltac unchanged := split_and!; try done; first [by apply room_less | by apply framed_refl | by exists []; rewrite app_nil_r | idtac].

(** The last part of [redial_peer], once no session is left. *)
Lemma redial_rest k env now p cfg d : room (S k) (dl_world d) → peers_ (plane (dl_world d)) !! p = Some cfg → current (dl_world d) p = None →
  (∀ e, pc_endpoint cfg = Some e → callable env (local_static_ (plane (dl_world d))) cfg) →
  let r := (bind d := state in
            if negb (match pc_endpoint cfg with Some _ => true | None => false end) || has_pending (plane (dl_world d)) p then sret tt
            else bind _ := start_and_send env now p in sret tt) d in
  redialled k now p d r ∧ (quiet_timers p (dl_world d) → quiet_timers p (dl_world r.1)).
Proof.
  intros Hr Hcfg Hcur Hcall. erewrite sbind_ok by reflexivity. unfold redialled, swept. rewrite Hcfg, Hcur. cbn [alive].
  destruct (pc_endpoint cfg) as [e|] eqn:Ee; cbn [negb orb].
  - unfold has_pending, contains. destruct (pending_ (plane (dl_world d)) !! p) as [x|] eqn:Ep; cbn zeta.
    + cbn [fst snd sret]. split; [|done]. unchanged.
    + destruct (start_and_send_spec k env now p cfg e d Hr Hcfg Ee (Hcall e eq_refl)) as (w' & o & E & Ho & Hr' & Hf & Hc' & Hp' & Hq).
      erewrite sbind_ok by exact E. cbn [fst snd sret dl_runtime last_liveness_sweep_ outbox]. change (dl_world (mkDialer (with_world w' (dl_runtime d)) _ _)) with w'. split; [|done].
      split_and!; try done; [by exists [o]|congruence|]. intros _ e' [= <-]. split; [done|]. intros _. exists o. split; [|done]. apply elem_of_app. right. by apply list_elem_of_singleton.
  - cbn zeta. cbn [fst snd sret]. split; [|done]. unchanged.
Qed.

Lemma redial_peer_spec k env now p d : room (S k) (dl_world d) →
  (∀ cfg e, peers_ (plane (dl_world d)) !! p = Some cfg → pc_endpoint cfg = Some e → callable env (local_static_ (plane (dl_world d))) cfg) →
  redialled k now p d (redial_peer env now p d).
Proof.
  intros Hr Hcall. unfold redial_peer. erewrite sbind_ok by reflexivity. unfold find_peer. destruct (peers_ (plane (dl_world d)) !! p) as [cfg|] eqn:Hcfg.
  2: { unfold redialled. rewrite Hcfg. cbn [fst snd sret]. unchanged. }
  destruct (session_of_spec (S k) p d Hr) as (t & E & Es & Eb & Hr1). rewrite (sbind_ok _ _ _ _ _ E). set (w1 := with_table _ _ t) in *. set (d1 := put_world w1 d).
  assert (framed (λ q, q = p) (dl_world d) w1) as Hf1 by (split; try done; intros q _; by apply current_same).
  assert (current w1 p = current (dl_world d) p) as Hc1 by (by apply current_same). change w1 with (dl_world d1) in Hr1, Hf1, Hc1.
  destruct (current (dl_world d) p) as [s|] eqn:Hcur.
  - destruct (negb (silent s now) && negb (expired s now)) eqn:Ea.
    + erewrite sbind_ok by reflexivity. unfold redialled, swept. rewrite Hcfg, Hcur. assert (alive now (Some s) = true) as -> by (cbn; unfold dead; by rewrite negb_orb).
      cbn [fst snd sret]. unchanged.
    + destruct (drop_session_spec (S k) p s d1 Hr1 Hc1) as (w2 & E2 & Hr2 & Hf2 & Hc2 & Hq2 & Hp2).
      erewrite sbind_ok by (erewrite sbind_ok by exact E2; reflexivity).
      destruct (redial_rest k env now p cfg (put_world w2 d1) Hr2) as [Hre Hqt]; [change (peers_ (plane w2) !! p = Some cfg); by rewrite (fr_peers _ _ _ Hf2)|done|intros e He; change (dl_world (put_world w2 d1)) with w2; rewrite (fr_static _ _ _ Hf2); by apply (Hcall cfg e)|].
      match type of Hre with redialled _ _ _ _ ?r => set (r0 := r) in *; change (redialled k now p d r0) end. clearbody r0. specialize (Hqt Hq2).
      destruct Hre as (A1 & A2 & A3 & A4 & A5 & A6 & A7). unfold redialled, swept. rewrite Hcfg, Hcur. assert (alive now (Some s) = false) as -> by (cbn; unfold dead; by rewrite negb_orb).
      change (dl_world (put_world w2 d1)) with w2 in *. rewrite (fr_peers _ _ _ Hf2) in A7. change (peers_ (plane (dl_world d1))) with (peers_ (plane (dl_world d))) in A7. rewrite Hcfg in A7. destruct A7 as (B1 & _ & B3). rewrite Hc2 in B1, B3.
      split_and!; try done; [eapply framed_trans; [exact Hf1|eapply framed_trans; [exact Hf2|exact A5|done|done]|done|done]|]. rewrite Hp2 in B3. by apply B3.
  - erewrite sbind_ok by reflexivity. destruct (redial_rest k env now p cfg d1 Hr1) as [Hre _]; [done|done|intros e He; by apply (Hcall cfg e)|].
    destruct Hre as (A1 & A2 & A3 & A4 & A5 & A6 & A7). unfold redialled, swept in *. rewrite Hcfg, Hcur in *. change (peers_ (plane (dl_world d1))) with (peers_ (plane (dl_world d))) in A7. rewrite Hcfg, Hc1 in A7.
    split_and!; try done; [eapply framed_trans; [exact Hf1|exact A5|done|done]|apply A7..].
Qed.

(** ** All peers *)

Lemma swept_before (touched : Z → Prop) now p cfg w w1 w2 sent : framed touched w w1 → ¬ touched p → swept now p cfg w1 w2 sent → swept now p cfg w w2 sent.
Proof. intros [_ _ F1 F2 _] Hn. unfold swept. by rewrite (F1 p Hn), (F2 p Hn). Qed.

Lemma swept_after (touched : Z → Prop) now p cfg w w1 w2 sent more : framed touched w1 w2 → ¬ touched p → swept now p cfg w w1 sent → swept now p cfg w w2 (sent ++ more).
Proof.
  intros [_ _ F1 F2 F3] Hn (S1 & S2 & S3). unfold swept. rewrite (F1 p Hn), (F2 p Hn). split_and!; [done|..].
  - intros Hs Ha e He Hp. apply (S2 Hs Ha e); [|done]. apply F3; [done|]. by rewrite Hp.
  - intros Ha e He. destruct (S3 Ha e He) as [Hp Ho]. split; [done|]. intros Hnone. destruct (Ho Hnone) as (o & Hin & Hd). exists o. split; [|done]. apply elem_of_app. by left.
Qed.

(** What a sweep of the peers in [range] leaves. *)
Definition sweeps (range : Z → Prop) (now : Instant) (d : Dialer) (r : Dialer * res RuntimeError unit) : Prop :=
  r.2 = Ok tt ∧ last_liveness_sweep_ r.1 = last_liveness_sweep_ d ∧ room 0 (dl_world r.1) ∧ framed range (dl_world d) (dl_world r.1) ∧
  (∃ sent, outbox r.1 = outbox d ++ sent) ∧
  ∀ p, range p → match peers_ (plane (dl_world d)) !! p with
                 | Some cfg => swept now p cfg (dl_world d) (dl_world r.1) (outbox r.1)
                 | None => current (dl_world r.1) p = current (dl_world d) p
                 end.

Lemma redial_loop_spec env now n : ∀ a d, room n (dl_world d) →
  (∀ p cfg e, a ≤ p < a + Z.of_nat n → peers_ (plane (dl_world d)) !! p = Some cfg → pc_endpoint cfg = Some e → callable (env p) (local_static_ (plane (dl_world d))) cfg) →
  sweeps (λ p, a ≤ p < a + Z.of_nat n) now d (redial_loop env now n a d).
Proof.
  induction n as [|n IH]; intros a d Hr Hcall.
  { split_and!; try done; [exists []; by rewrite app_nil_r|]. intros p Hp. lia. }
  cbn [redial_loop]. destruct (redial_peer_spec n (env a) now a d Hr) as (A1 & _ & A3 & A4 & A5 & [sent A6] & A7); [intros cfg e; apply Hcall; lia|].
  destruct (redial_peer (env a) now a d) as [d1 r1] eqn:E1. cbn [fst snd] in *. subst r1. rewrite (sbind_ok _ _ _ _ _ E1).
  destruct (IH (a + 1) d1 A4) as (B1 & B2 & B3 & B4 & [more B5] & B6).
  { intros p cfg e Hp. rewrite (fr_peers _ _ _ A5), (fr_static _ _ _ A5). apply Hcall. lia. }
  split_and!; [done|congruence|done|eapply framed_trans; [exact A5|exact B4|cbn; lia..]|exists (sent ++ more); by rewrite B5, A6, app_assoc|].
  intros p Hp. rewrite (fr_peers _ _ _ A5) in B6. destruct (decide (p = a)) as [->|Hne].
  - destruct (peers_ (plane (dl_world d)) !! a); [|rewrite (fr_current _ _ _ B4 a); [done|lia]]. rewrite B5. eapply swept_after; [exact B4|cbn; lia|done].
  - specialize (B6 p ltac:(lia)). destruct (peers_ (plane (dl_world d)) !! p); [by eapply swept_before|]. by rewrite B6, (fr_current _ _ _ A5 p).
Qed.

(** C16. Dead peers are dialled again: at every sweep, a configured peer's
    session that has been silent for ninety seconds or is too old is removed
    with its timers, one that works stays as it is; every peer with a
    configured endpoint that is then without a session has a handshake under
    way, and if there was none before, its first message has been handed to the
    carrier for that endpoint.  Sessions of peers that are not configured are
    left alone.  The node must have room for the handshakes and its random
    numbers and the keys must be usable. *)
Theorem dead_peers_redialled env now d :
  let w := dl_world d in
  let peers := peer_count_ (dl_runtime d) in
  room (Z.to_nat peers) w → kHandshakeTimeout ≤ now - last_liveness_sweep_ d →
  (∀ p cfg e, 1 ≤ p ≤ peers → peers_ (plane w) !! p = Some cfg → pc_endpoint cfg = Some e → callable (env p) (local_static_ (plane w)) cfg) →
  let r := redial_dead_peers env now d in
  let w' := dl_world r.1 in
  r.2 = Ok tt ∧ last_liveness_sweep_ r.1 = now ∧ plane_ok w' ∧
  ∀ p, 1 ≤ p ≤ peers →
    match peers_ (plane w) !! p with
    | Some cfg =>
        current w' p = (if alive now (current w p) then current w p else None) ∧
        (is_Some (current w p) → alive now (current w p) = false → quiet_timers p w') ∧
        (alive now (current w p) = false → ∀ e, pc_endpoint cfg = Some e → is_Some (pending_ (plane w') !! p) ∧
          (pending_ (plane w) !! p = None → ∃ o, o ∈ outbox r.1 ∧ destination o = e))
    | None => current w' p = current w p
    end.
Proof.
  cbn zeta. intros Hr Hn Hcall. unfold redial_dead_peers. erewrite sbind_ok by reflexivity. rewrite (proj2 (Z.ltb_ge _ _) Hn). erewrite sbind_ok by reflexivity.
  destruct (redial_loop_spec env now (Z.to_nat (peer_count_ (dl_runtime d))) 1 (note_sweep now d) Hr) as (H1' & H2' & H3' & _ & _ & H4').
  { intros p cfg e Hp. apply Hcall. lia. }
  split_and!; [done|done|apply H3'|]. intros p Hp. apply H4'. lia.
Qed.
End liveness.

Lemma idle_table_ok {heap_functions : HeapFunctions} w h t : plane_ok w → pending_ (plane w) = ∅ → provisional_ (plane w) = ∅ → table_ok h t → plane_ok (with_table w h t).
Proof. intros [] E1 E2 Ht. split; cbn; try done; rewrite ?E1, ?E2; intros *; by rewrite lookup_empty. Qed.

(** A node whose session with a peer has become too old. *)
Section sample.
#[local] Existing Instances sorting_heap toy_aead toy_laws toy_dh toy_dh_laws.

Definition stale : World := (put_session sample_env 5 9 (new_session 100 5 9 4 (mkKeys [] 0) (mkKeys [] 0)) dialling).1.
Definition stale_node : Dialer := mkDialer (mkRuntime empty_table stale 5 51820 [] Fec.off) 0 [].

Lemma stale_room : room 5 stale.
Proof.
  destruct (sample_ready (toy_pair 3) (new_contexts true) sample_peer (new_world_ok _ _) eq_refl (new_contexts_for _ true) ltac:(done)) as [Hok Hcl Hst _ _ _ _].
  split; [|exact Hcl|exact Hst|by vm_compute..]. destruct (put_session_spec sample_env 5 9 (new_session 100 5 9 4 (mkKeys [] 0) (mkKeys [] 0)) dialling) as [(h & t & E & Ht & _)|E];
    [exact (po_table _ Hok)|discriminate|lia|exact eq_refl|exact eq_refl|exact eq_refl|..]; unfold stale; rewrite E; [|exact Hok].
  exact (idle_table_ok dialling h t Hok eq_refl eq_refl Ht).
Qed.

Lemma stale_callable p cfg : peers_ (plane stale) !! p = Some cfg → callable sample_env (local_static_ (plane stale)) cfg.
Proof.
  intros Hcfg. exists (toy_pair 9), (toy_secret 9 5), (toy_secret 3 5).
  apply (lookup_insert_Some (M := gmap Z) (∅ : gmap Z PeerConfig) 5) in Hcfg as [[_ <-]|[_ Hcfg]]; [|discriminate Hcfg].
  split_and!; [split; [reflexivity|by split|reflexivity]|reflexivity..].
Qed.

Lemma dead_peers_redialled_witness : is_Some (current stale 5) ∧ let r := redial_dead_peers (λ _, sample_env) (seconds 86400) stale_node in
  current (dl_world r.1) 5 = None ∧ is_Some (pending_ (plane (dl_world r.1)) !! 5) ∧ ∃ o, o ∈ outbox r.1 ∧ destination o = sample_source.
Proof.
  assert (peers_ (plane stale) !! 5 = Some sample_peer) as Hp by (by vm_compute). assert (is_Some (current stale 5)) as Hc by (by vm_compute; eexists). split; [exact Hc|].
  destruct (dead_peers_redialled (λ _, sample_env) (seconds 86400) stale_node stale_room) as (_ & _ & _ & H).
  - done.
  - intros p cfg e Hin Hcfg _. exact (stale_callable p cfg Hcfg).
  - specialize (H 5 ltac:(cbn; lia)). change (dl_world stale_node) with stale in H. rewrite Hp in H. assert (alive (seconds 86400) (current stale 5) = false) as Ha by (by vm_compute). rewrite Ha in H.
    destruct H as (H1 & _ & H3). split; [exact H1|]. destruct (H3 eq_refl sample_source eq_refl) as [H4 H5]. split; [exact H4|]. apply H5. by vm_compute.
Defined.
End sample.
