(* ===== verification/RuntimeEcho.v ===== *)
(** Round trip times: [send_keepalive], [answer_echo], [note_echo_reply] and
    [rtt_inflated] of [src/runtime.cpp].

    A keepalive carries the time it was sent; the peer returns it, and the
    difference to the clock is the round trip time.  Instants are nanoseconds,
    the token microseconds; both are 64 bits, the difference is signed. *)

From S2P Require Import Prelude Timers ControlExchange Worker.

Definition kEchoTokenSize : nat := 8.
Definition kMaximumPlausibleRtt : Duration := seconds 30.
Definition kMinimumRttWindow : Duration := seconds 10.
Definition kInflationMargin : Duration := milliseconds 2.

Record RttState := mkRtt { last_rtt_ : Duration; min_rtt_ : Duration; min_rtt_at_ : Instant }.
Definition new_rtt : RttState := mkRtt 0 0 0.

(** [duration_cast<microseconds>(now.time_since_epoch()).count()] *)
Definition microseconds_of (now : Instant) : Z := Z.quot now 1000.

Definition token_bytes (stamp : Z) : list Z := map (λ index, Z.land (Z.shiftr stamp (8 * (7 - Z.of_nat index))) 0xFF) (seq 0 kEchoTokenSize).

(** The payload of the control frame. *)
Definition keepalive_payload (now : Instant) : list Z := kEchoRequest :: token_bytes (u64 (microseconds_of now)).
Definition answer_echo (token : list Z) : option (list Z) := if negb (length token =? kEchoTokenSize)%nat then None else Some (kEchoReply :: token).

Definition token_stamp (token : list Z) : Z := fold_left (λ stamp b, Z.lor (u64 (Z.shiftl stamp 8)) b) token 0.
(** The conversion of a [uint64_t] to the [int64_t] of [microseconds]. *)
Definition to_i64 (x : Z) : Z := if x <? 2 ^ 63 then x else x - 2 ^ 64.
(** The subtraction of two [int64_t]. *)
Definition sub_i64 (x y : Z) : res Empty_set Z := if (- 2 ^ 63 <=? x - y) && (x - y <? 2 ^ 63) then Ok (x - y) else Ub.

Definition note_rtt (elapsed : Duration) (now : Instant) (s : RttState) : RttState :=
  if (min_rtt_ s <=? 0) || (elapsed <=? min_rtt_ s) || (kMinimumRttWindow <? now - min_rtt_at_ s) then mkRtt elapsed elapsed now
  else mkRtt elapsed (min_rtt_ s) (min_rtt_at_ s).

(** The clock is read again for the window of the minimum: [later]. *)
Definition note_echo_reply (now later : Instant) (token : list Z) : effect RttState Empty_set unit :=
  if negb (length token =? kEchoTokenSize)%nat then sret tt else
  bind elapsed := lift (sub_i64 (microseconds_of now) (to_i64 (token_stamp token))) in
  if (elapsed <=? 0) || (kMaximumPlausibleRtt <? elapsed * 1000) then sret tt
  else modify (note_rtt (elapsed * 1000) later).

Definition rtt_inflated (s : RttState) : bool :=
  if (min_rtt_ s <=? 0) || (last_rtt_ s <=? 0) then false else min_rtt_ s * 2 + kInflationMargin <? last_rtt_ s.

(** ** Tokens *)

Lemma token_bytes_spec stamp : token_bytes stamp = be_bytes 8 stamp.
Proof. unfold token_bytes, kEchoTokenSize. cbn [map seq be_bytes]. rewrite !land_byte. by rewrite Z.shiftr_0_r. Qed.

Lemma token_round_trip stamp : is_u64 stamp → token_stamp (token_bytes stamp) = stamp.
Proof.
  intros Hs. rewrite token_bytes_spec. unfold token_stamp. rewrite fold_bytes_value; [|apply be_bytes_ok|rewrite length_be_bytes; lia|rewrite length_be_bytes; simpl; lia]. apply (be_value_small 8). word_lia.
Qed.

(** ** Measurements *)

(** A keepalive that comes back is measured to the microsecond, and counts if
    the time is plausible. *)
Lemma echo_measures sent now later s : 0 ≤ sent < 2 ^ 63 → 0 ≤ now < 2 ^ 63 → ∃ token rtt,
  keepalive_payload sent = kEchoRequest :: token ∧ answer_echo token = Some (kEchoReply :: token) ∧ Z.abs (rtt - (now - sent)) < 1000 ∧
  note_echo_reply now later token s = (if (rtt <=? 0) || (kMaximumPlausibleRtt <? rtt) then s else note_rtt rtt later s, Ok tt).
Proof.
  intros Hs Hn. unfold keepalive_payload, answer_echo, note_echo_reply, microseconds_of.
  assert (∀ x, 0 ≤ x < 2 ^ 63 → 0 ≤ Z.quot x 1000 < 2 ^ 63 ∧ Z.quot x 1000 * 1000 ≤ x < Z.quot x 1000 * 1000 + 1000) as Hq by (intros x Hx; rewrite Z.quot_div_nonneg by lia; Z.to_euclidean_division_equations; lia).
  destruct (Hq sent Hs) as [S1 S2], (Hq now Hn) as [N1 N2]. set (t := Z.quot sent 1000) in *. set (n := Z.quot now 1000) in *. rewrite u64_id by word_lia.
  exists (token_bytes t), ((n - t) * 1000). rewrite token_round_trip by word_lia. rewrite token_bytes_spec, length_be_bytes. split_and!; [done|done|lia|].
  unfold to_i64, sub_i64. rewrite (proj2 (Z.ltb_lt t _)) by lia. rewrite (proj2 (Z.leb_le _ _)), (proj2 (Z.ltb_lt _ _)) by lia. cbn [negb kEchoTokenSize Nat.eqb andb]. erewrite sbind_ok by reflexivity.
  replace ((n - t) * 1000 <=? 0) with (n - t <=? 0) by (destruct (Z.leb_spec (n - t) 0), (Z.leb_spec ((n - t) * 1000) 0); done || lia). by destruct (_ || _).
Qed.

(** Whatever arrives, the minimum is positive and below the last time once
    there is one, and both are plausible. *)
Definition rtt_ok (s : RttState) : Prop := s = new_rtt ∨ 0 < min_rtt_ s ≤ last_rtt_ s ∧ last_rtt_ s ≤ kMaximumPlausibleRtt.

Lemma note_echo_reply_ok now later token s : rtt_ok s → rtt_ok (note_echo_reply now later token s).1.
Proof.
  intros Hs. unfold note_echo_reply. destruct (negb _); [done|]. unfold sbind, lift. destruct (sub_i64 _ _) as [elapsed|e|]; [|done..].
  destruct (Z.leb_spec elapsed 0), (Z.ltb_spec kMaximumPlausibleRtt (elapsed * 1000)); try done. right. cbn [orb]. unfold modify, note_rtt. cbn [fst].
  destruct (Z.leb_spec (min_rtt_ s) 0), (Z.leb_spec (elapsed * 1000) (min_rtt_ s)), (Z.ltb_spec kMinimumRttWindow (later - min_rtt_at_ s)); cbn [orb min_rtt_ last_rtt_ fst]; destruct Hs as [->|Hs]; cbn [min_rtt_ new_rtt fst] in *; lia.
Qed.

(** A peer can return a token that it was not sent: one of [2^63] makes the
    subtraction overflow. *)
Lemma forged_token_overflows later s : (note_echo_reply (seconds 1000) later (128 :: replicate 7 0) s).2 = Ub.
Proof. reflexivity. Qed.
