(* ===== verification/Failover.v ===== *)
(** Change of the transport: [Runtime::evaluate_transport_paths] of
    [src/runtime.cpp].

    Every few seconds the runtime judges the transport in use by its errors, by
    the retries of handshakes while nothing is heard, and by whether its
    connection is up; it feeds the verdict to the path selector, and when that
    moves on, it changes the carrier, drops the sessions and dials again.  The
    state of the carriers is an argument ([CarrierView]). *)

From S2P Require Import Prelude Double Address Timers Crypto Noise Session SessionTable Cookie ControlPlane Udp PathSelector Runtime RuntimeDial.

Definition kTransportCheckInterval : Duration := seconds 5.
Definition kTransportSettleTime : Duration := seconds 15.
Definition kTransportNotReadyLimit : Duration := seconds 30.
Definition kTransportSilenceTimeout : Duration := seconds 15.
Definition kStallsBeforeFallback : Z := 3.

(** The carriers of the runtime. *)
Inductive Slot := udp_slot | tcp_slot | quic_slot | icmp_slot | rawproto_slot | dns_slot.
#[export] Instance Slot_eq : EqDecision Slot. Proof. solve_decision. Defined.

(** The switch over the chosen transport. *)
Definition slot_of (k : TransportKind) : Slot :=
  match k with
  | udp => udp_slot | tcp_tls => tcp_slot | quic => quic_slot | icmp => icmp_slot
  | ipip | gre | esp | ah | ospf => rawproto_slot
  | dns => dns_slot
  end.

(** Which carriers are there, which are ready, the counters of the one in use,
    and the last round trip time. *)
Record CarrierView := mkView { built : Slot → bool; carrier_up : Slot → bool; carrier_stats : TransportStats; view_rtt : Duration }.

Record Failover := mkFailover {
  fo_dialer : Dialer;
  fo_paths : PathSelector;
  automatic_fallback_ : bool;
  active_kind_ : TransportKind;
  carrier_ : Slot;
  last_path_check_ : Instant;
  last_tx_errors_ : Z;
  last_retries_ : Z;
  consecutive_stalls_ : Z;
  switched_at_ : Instant;
  not_ready_since_ : Instant;
}.
Abbreviation failing_over := (effect Failover RuntimeError).

Definition fo_world (f : Failover) : World := dl_world (fo_dialer f).
Definition fo_peers (f : Failover) : nat := Z.to_nat (peer_count_ (dl_runtime (fo_dialer f))).

Definition with_dialer (d : Dialer) (f : Failover) : Failover :=
  mkFailover d (fo_paths f) (automatic_fallback_ f) (active_kind_ f) (carrier_ f) (last_path_check_ f) (last_tx_errors_ f) (last_retries_ f)
    (consecutive_stalls_ f) (switched_at_ f) (not_ready_since_ f).
Definition with_selector (s : PathSelector) (f : Failover) : Failover :=
  mkFailover (fo_dialer f) s (automatic_fallback_ f) (active_kind_ f) (carrier_ f) (last_path_check_ f) (last_tx_errors_ f) (last_retries_ f)
    (consecutive_stalls_ f) (switched_at_ f) (not_ready_since_ f).
Definition with_check (now : Instant) (f : Failover) : Failover :=
  mkFailover (fo_dialer f) (fo_paths f) (automatic_fallback_ f) (active_kind_ f) (carrier_ f) now (last_tx_errors_ f) (last_retries_ f)
    (consecutive_stalls_ f) (switched_at_ f) (not_ready_since_ f).
Definition with_not_ready (since : Instant) (f : Failover) : Failover :=
  mkFailover (fo_dialer f) (fo_paths f) (automatic_fallback_ f) (active_kind_ f) (carrier_ f) (last_path_check_ f) (last_tx_errors_ f) (last_retries_ f)
    (consecutive_stalls_ f) (switched_at_ f) since.
Definition with_counts (errors retries stalls : Z) (f : Failover) : Failover :=
  mkFailover (fo_dialer f) (fo_paths f) (automatic_fallback_ f) (active_kind_ f) (carrier_ f) (last_path_check_ f) errors retries stalls (switched_at_ f)
    (not_ready_since_ f).

(** Work on the sessions and the control plane. *)
Definition on_dialer {A} (m : effect Dialer RuntimeError A) : failing_over A := λ f,
  let '(d, r) := m (fo_dialer f) in (with_dialer d f, r).

(** The connection of the transport in use is not up. *)
Definition not_ready (v : CarrierView) (f : Failover) : bool :=
  bool_decide (active_kind_ f = tcp_tls) && built v tcp_slot && negb (carrier_up v tcp_slot) ||
  bool_decide (active_kind_ f = quic) && built v quic_slot && negb (carrier_up v quic_slot).

(** A peer, of [n] from [peer] on, has been heard lately. *)
Fixpoint hears (now : Instant) (n : nat) (peer : Z) : effect Dialer RuntimeError bool :=
  match n with
  | O => sret false
  | S n =>
      bind session := session_of peer in
      match session with
      | Some s =>
          if negb (0 <? received (Session.stats_ s)) then hears now n (peer + 1)
          else if now - last_received_ s <? kTransportSilenceTimeout then sret true else hears now n (peer + 1)
      | None => hears now n (peer + 1)
      end
  end.

Definition since_last (total last : Z) : Z := if last <? total then total - last else 0.

(** [sessions_.remove(session->local_key_id())] for each peer. *)
Fixpoint remove_sessions (n : nat) (peer : Z) : effect Dialer RuntimeError unit :=
  match n with
  | O => sret tt
  | S n =>
      bind session := session_of peer in
      bind _ := match session with
                | Some s => try_control (modify (λ w, with_table w (heap w) (remove (heap w) (table w) (local_key_id_ s))))
                | None => sret None
                end in
      remove_sessions n (peer + 1)
  end.

Section evaluate.
Context {heap_functions : HeapFunctions} {aead : Aead} {dh : Dh}.

(** The carrier is changed. *)
Definition change_carrier (env : Z → Env) (now : Instant) (chosen : TransportKind) : failing_over unit :=
  bind _ := modify (λ f, mkFailover (fo_dialer f) (fo_paths f) (automatic_fallback_ f) chosen (slot_of chosen) (last_path_check_ f) 0
                            (control_stats_ (plane (fo_world f)) retries) (consecutive_stalls_ f) now 0) in
  bind f := state in
  bind _ := on_dialer (remove_sessions (fo_peers f) 1) in
  bind _ := on_dialer (dial_configured_peers env now) in
  sret tt.

(** From the verdict on. *)
Definition decide_transport (v : CarrierView) (env : Z → Env) (now : Instant) (unready stalled hearing : bool) (attempted new_errors new_retries : Z) : failing_over unit :=
  let failing := unready || stalled || (0 <? new_errors) in
  let working := negb failing in
  if negb failing && negb hearing then sret tt else
  let sample := mkSample (of_int (Z.quot (view_rtt v) 1000)) (if working then of_int 0 else of_int 1) new_errors working in
  bind _ := modify (λ f, with_selector (observe (fo_paths f) (active_kind_ f) sample) f) in
  if negb unready && (attempted =? 0) && (new_errors =? 0) && (new_retries =? 0) then sret tt else
  if working && (new_errors =? 0) then sret tt else
  bind f := state in
  let '(s, moved) := evaluate (fo_paths f) now in
  bind _ := modify (with_selector s) in
  if negb moved then sret tt else
  let chosen := active_ s in
  if bool_decide (chosen = active_kind_ f) then sret tt else
  if negb (built v (slot_of chosen)) then sret tt else
  change_carrier env now chosen.

(** The counters are read and compared with those of the last check. *)
Definition judge (v : CarrierView) (env : Z → Env) (now : Instant) (unready : bool) : failing_over unit :=
  bind f := state in
  let errors := u64 (tx_errors (carrier_stats v) + rx_errors (carrier_stats v)) in
  let new_errors := since_last errors (last_tx_errors_ f) in
  bind _ := modify (with_counts errors (last_retries_ f) (consecutive_stalls_ f)) in
  bind hearing := on_dialer (hears now (fo_peers f) 1) in
  bind f := state in
  let counters := control_stats_ (plane (fo_world f)) in
  let new_retries := since_last (counters retries) (last_retries_ f) in
  let stalls := if (0 <? new_retries) && negb hearing then u32 (consecutive_stalls_ f + 1) else 0 in
  bind _ := modify (with_counts errors (counters retries) stalls) in
  decide_transport v env now unready (kStallsBeforeFallback <=? stalls) hearing (counters handshakes_started) new_errors new_retries.

Definition evaluate_transport_paths (v : CarrierView) (env : Z → Env) (now : Instant) : failing_over unit :=
  bind f := state in
  if negb (automatic_fallback_ f) then sret tt else
  if negb (switched_at_ f =? 0) && (now - switched_at_ f <? kTransportSettleTime) then sret tt else
  if now - last_path_check_ f <? kTransportCheckInterval then sret tt else
  bind _ := modify (with_check now) in
  let unready := not_ready v f in
  if unready then
    bind _ := (if not_ready_since_ f =? 0 then modify (with_not_ready now) else sret tt) in
    bind f := state in
    if now - not_ready_since_ f <? kTransportNotReadyLimit then sret tt else judge v env now unready
  else
    bind _ := modify (with_not_ready 0) in
    judge v env now unready.
End evaluate.
