(* ===== verification/FailoverMoves.v ===== *)
(** The transport is changed exactly when the one in use has failed and there
    is another to try, and then every session is renewed. *)

From S2P Require Import Prelude Double Packet Nonce Handshake Address Routing Timers RateLimit Blake2s Crypto Noise.
From S2P Require Import Session SessionTable Cookie ControlPlane ControlIds ControlExchange Udp PathSelector Runtime RuntimeDial RuntimeLiveness Failover.

(** ** The path selector *)

Lemma observe_others t s k sample p : selector_ok t s → kind_ p ≠ k → p ∈ registered (observe s k sample) ↔ p ∈ registered s.
Proof.
  intros Hok Hk. unfold observe. pose proof (find_spec t s k Hok) as Hf. destruct (find s k) as [i|]; [|done]. destruct Hf as (q & Hi & Hq & Eq).
  unfold registered. cbn [count_ with_paths PathSelector.paths_]. rewrite (list_lookup_total_correct _ _ _ Hq). rewrite !list_elem_of_lookup.
  assert (∀ j, take (count_ s) (<[i := observe_path q sample (thresholds_ s)]> (PathSelector.paths_ s)) !! j = Some p ↔ take (count_ s) (PathSelector.paths_ s) !! j = Some p) as Hj; [|by setoid_rewrite Hj].
  intros j. destruct (decide (j < count_ s)%nat) as [Hlt|Hge]; [rewrite !lookup_take_lt by done|rewrite !lookup_take_ge by lia; done].
  destruct (decide (j = i)) as [->|Hne]; [|by rewrite list_lookup_insert_ne]. rewrite list_lookup_insert_eq by (by eapply lookup_lt_Some). rewrite Hq.
  split; intros [= <-]; exfalso; apply Hk; [by rewrite observe_path_kind|done].
Qed.

Lemma observe_active t s k sample p : selector_ok t s → path s k = Some p → path (observe s k sample) k = Some (observe_path p sample (thresholds_ s)).
Proof.
  intros Hok Hp. unfold observe. pose proof (find_spec t s k Hok) as Hf. unfold path in *. destruct (find s k) as [i|] eqn:Ei; [|done]. destruct Hf as (q & Hi & Hq & Eq).
  injection Hp as Hp. rewrite (list_lookup_total_correct _ _ _ Hq) in Hp |- *. subst q. unfold find in *. cbn [count_ with_paths PathSelector.paths_].
  rewrite (find_path_kinds (PathSelector.paths_ s)) by (intros j; eapply insert_kinds; [exact Hq|apply observe_path_kind]). rewrite Ei. cbn. by rewrite list_lookup_total_insert_eq by (by eapply lookup_lt_Some).
Qed.

Lemma observe_frame s k sample : active_ (observe s k sample) = active_ s ∧ last_switch_ (observe s k sample) = last_switch_ s ∧ thresholds_ (observe s k sample) = thresholds_ s.
Proof. unfold observe. by destruct (find s k). Qed.

(** The transports registered with the selector. *)
Definition kinds (s : PathSelector) : list TransportKind := kind_ <$> registered s.

Lemma observe_kinds t s k sample : selector_ok t s → kinds (observe s k sample) = kinds s.
Proof.
  intros Hok. unfold observe, kinds. pose proof (find_spec t s k Hok) as Hf. destruct (find s k) as [i|]; [|done]. destruct Hf as (p & Hi & Hp & _). rewrite (list_lookup_total_correct _ _ _ Hp).
  apply (registered_insert s i _ p); [done|rewrite (se_paths _ _ Hok); apply Hok|done|apply observe_path_kind].
Qed.

Lemma evaluate_kinds t s now : selector_ok t s → kinds (evaluate s now).1 = kinds s.
Proof.
  intros Hok. unfold evaluate. case_match; [done|]. case_match; [|done]. case_match; [|done]. repeat (case_match; [done|]). unfold switch, kinds, registered. cbn [fst PathSelector.paths_ count_].
  match goal with |- context [if ?b then _ else _] => destruct b end; [|done]. pose proof (find_spec t s (active_ s) Hok) as Hf. destruct (find s (active_ s)) as [i|]; [|done]. destruct Hf as (q & Hi & Hp & _). rewrite (list_lookup_total_correct _ _ _ Hp).
  apply (registered_insert s i _ q); [done|rewrite (se_paths _ _ Hok); apply Hok|done|done].
Qed.

(** Another path to try, and long enough since the last change. *)
Definition may_move (s : PathSelector) (now : Instant) : Prop :=
  (last_switch_ s = 0 ∨ cooldown (thresholds_ s) ≤ now - last_switch_ s) ∧
  ∃ p, p ∈ registered s ∧ kind_ p ≠ active_ s ∧ (usable p = true ∨ state_ p = probing ∨ retry_due p now = true).

(** What becomes of the selector when its active path is unreachable. *)
Lemma unreachable_moves t s sample now : selector_ok t s → registered s ≠ [] → reachable sample = false →
  let r := evaluate (observe s (active_ s) sample) now in
  selector_ok t r.1 ∧ if r.2 then may_move s now ∧ active_ r.1 ≠ active_ s ∧ ∃ p, p ∈ registered s ∧ kind_ p = active_ r.1
                      else ¬ may_move s now ∧ active_ r.1 = active_ s.
Proof.
  intros Hok Hne Hs. cbn zeta. destruct (active_path t s Hok Hne) as [cur Hcur]. pose proof (observe_active t s (active_ s) sample cur Hok Hcur) as Hact.
  destruct (observe_frame s (active_ s) sample) as (F1 & F2 & F3). pose proof (λ p, observe_others t s (active_ s) sample p Hok) as Hoth.
  pose proof (selector_observe_ok t s (active_ s) sample Hok) as Hok1. set (s1 := observe s (active_ s) sample) in *.
  assert (usable (observe_path cur sample (thresholds_ s)) = false ∧ state_ (observe_path cur sample (thresholds_ s)) ≠ healthy) as [Hu Hh] by (unfold observe_path; by rewrite Hs).
  rewrite <- F1 in Hact. destruct (evaluate_spec t s1 now Hok1) as [Hok2 He]. split; [exact Hok2|].
  assert (∀ p, candidate s1 (observe_path cur sample (thresholds_ s)) now p ↔ p ∈ registered s ∧ kind_ p ≠ active_ s ∧ (usable p = true ∨ state_ p = probing ∨ retry_due p now = true)) as Hcand.
  { intros p. unfold candidate. rewrite F1, Hu. split; intros (H1 & H2 & H3); specialize (Hoth p H2); split_and!; try tauto. }
  destruct (evaluate s1 now) as [s2 [|]]; cbn [fst snd] in *.
  - destruct He as (c & best & Hc & [H1 H2 H3 H4 H5 _ _ _]). rewrite Hact in Hc. injection Hc as <-. rewrite F2, F3 in H3. apply Hcand in H1. split_and!; [split; [done|by exists best]|rewrite H5; apply H1|exists best; rewrite H5; split; [apply H1|done]].
  - destruct He as [[S1 _] Hk]. rewrite S1, F1. split; [|done]. intros [Hcool (p & Hp)]. apply Hcand in Hp. destruct Hk as [Hn|(c & Hc & Hk)].
    { destruct Hp as [Hp _]. rewrite Hn in Hp. by apply elem_of_nil in Hp. }
    rewrite Hact in Hc. injection Hc as <-. rewrite <- F2, <- F3 in Hcool. destruct Hk as [Hk|[Hk|[Hk|[Hk _]]]]; [by apply (Hk p)|lia|done|congruence].
Qed.

(** ** Sessions *)

Definition heard (now : Instant) (s : option Session) : bool :=
  match s with Some s => (0 <? received (Session.stats_ s)) && (now - last_received_ s <? kTransportSilenceTimeout) | None => false end.

Section moves.
Context {heap_functions : HeapFunctions} `{AeadLaws} `{DhLaws}.

(** Sessions were looked up, nothing more. *)
Definition looked (w w' : World) : Prop := plane w' = plane w ∧ ∀ p, current w' p = current w p.

Lemma looked_trans w1 w2 w3 : looked w1 w2 → looked w2 w3 → looked w1 w3.
Proof. intros [A1 A2] [B1 B2]. split; [congruence|]. intros p. by rewrite B2. Qed.

Lemma hears_spec now k n : ∀ a d, room k (dl_world d) → ∃ w', hears now n a d = (put_world w' d, Ok (existsb (λ p, heard now (current (dl_world d) p)) (seqZ a (Z.of_nat n)))) ∧
  room k w' ∧ looked (dl_world d) w'.
Proof.
  induction n as [|n IH]; intros a d Hr; [exists (dl_world d); split_and!; [by destruct d as [[] ? ?]|done|by split]|].
  cbn [hears]. destruct (session_of_spec k a d Hr) as (t & E & Es & Eb & Hr1). rewrite (sbind_ok _ _ _ _ _ E). set (w1 := with_table _ _ t) in *.
  assert (looked (dl_world d) w1) as Hl by (split; [done|intros p; by apply current_same]).
  rewrite seqZ_cons by lia. replace (Z.pred (Z.of_nat (S n))) with (Z.of_nat n) by lia. cbn [existsb]. destruct (IH (Z.succ a) (put_world w1 d) Hr1) as (w2 & E2 & Hr2 & Hl2).
  change (dl_world (put_world w1 d)) with w1 in *. change (a + 1) with (Z.succ a). assert (existsb (λ p, heard now (current w1 p)) (seqZ (Z.succ a) (Z.of_nat n)) = existsb (λ p, heard now (current (dl_world d) p)) (seqZ (Z.succ a) (Z.of_nat n))) as Ex.
  { clear -Hl. induction (seqZ _ _) as [|x l IHl]; cbn [existsb]; [done|]. by rewrite IHl, (proj2 Hl). }
  rewrite Ex in E2. assert (∃ w', (put_world w2 (put_world w1 d), Ok (existsb (λ p, heard now (current (dl_world d) p)) (seqZ (Z.succ a) (Z.of_nat n)))) =
    (put_world w' d, Ok (E:=RuntimeError) (existsb (λ p, heard now (current (dl_world d) p)) (seqZ (Z.succ a) (Z.of_nat n)))) ∧ room k w' ∧ looked (dl_world d) w') as Hrest.
  { exists w2. split_and!; [done|done|by eapply looked_trans]. }
  rewrite <- E2 in Hrest. destruct (current (dl_world d) a) as [s|]; cbn [heard orb]; [|done].
  destruct (0 <? received (Session.stats_ s)); cbn [negb andb orb]; [|done]. destruct (now - last_received_ s <? kTransportSilenceTimeout); cbn [orb]; [|done]. by exists w1.
Qed.

(** What removing the sessions of some peers leaves. *)
Definition cleared (range : Z → Prop) (k : nat) (d : Dialer) (r : Dialer * res RuntimeError unit) : Prop :=
  ∃ w', r = (put_world w' d, Ok tt) ∧ room k w' ∧ plane w' = plane (dl_world d) ∧ (∀ p, range p → current w' p = None) ∧ (∀ p, ¬ range p → current w' p = current (dl_world d) p).

Lemma remove_sessions_spec k n : ∀ a d, room k (dl_world d) → cleared (λ p, a ≤ p < a + Z.of_nat n) k d (remove_sessions n a d).
Proof.
  induction n as [|n IH]; intros a d Hr; [exists (dl_world d); split_and!; [by destruct d as [[] ? ?]|done|done|lia|done]|].
  cbn [remove_sessions]. destruct (session_of_spec k a d Hr) as (t & E & Es & Eb & Hr1). rewrite (sbind_ok _ _ _ _ _ E). set (w1 := with_table _ _ t) in *.
  assert (∀ p, current w1 p = current (dl_world d) p) as Hl by (intros p; by apply current_same).
  assert (∃ w2 o, (match current (dl_world d) a with
    | Some s => try_control (modify (λ w, with_table w (heap w) (remove (heap w) (table w) (local_key_id_ s))))
    | None => sret None
    end) (put_world w1 d) = (put_world w2 d, Ok o) ∧ room k w2 ∧ plane w2 = plane (dl_world d) ∧ current w2 a = None ∧ ∀ p, p ≠ a → current w2 p = current (dl_world d) p) as (w2 & o & E2 & Hr2 & Hp2 & Hn2 & Ho2).
  { pose proof (Hl a) as Hla. destruct (current (dl_world d) a) as [s|]; [|by exists w1, None].
    destruct (remove_current w1 a s (rm_ok _ _ Hr1) Hla) as (C1 & C2 & C3 & C4). eexists _, _. split; [reflexivity|]. split_and!; [|done|done|intros p Hp; by rewrite C2].
    apply (room_table k w1); [done|apply remove_ok, Hr1|done|done]. }
  rewrite (sbind_ok _ _ _ _ _ E2). destruct (IH (a + 1) (put_world w2 d) Hr2) as (w3 & E3 & Hr3 & Hp3 & Hn3 & Ho3). change (dl_world (put_world w2 d)) with w2 in *.
  exists w3. rewrite E3. split_and!; [done|done|congruence|..]; intros p Hp; destruct (decide (p = a)) as [->|Hne].
  - rewrite Ho3 by lia. done.
  - apply Hn3. lia.
  - lia.
  - rewrite Ho3, Ho2 by lia. done.
Qed.

(** What dialling some peers leaves. *)
Definition dials (range : Z → Prop) (d : Dialer) (r : Dialer * res RuntimeError nat) : Prop :=
  (∃ n, r.2 = Ok n) ∧ plane_ok (dl_world r.1) ∧ (∀ p, current (dl_world r.1) p = current (dl_world d) p) ∧
  (∀ p, is_Some (pending_ (plane (dl_world d)) !! p) → is_Some (pending_ (plane (dl_world r.1)) !! p)) ∧ (∃ sent, outbox r.1 = outbox d ++ sent) ∧
  ∀ p cfg e, range p → peers_ (plane (dl_world d)) !! p = Some cfg → pc_endpoint cfg = Some e →
    is_Some (pending_ (plane (dl_world r.1)) !! p) ∧ ∃ o, o ∈ outbox r.1 ∧ destination o = e.

Lemma dial_loop_spec env now n : ∀ a started d, room n (dl_world d) →
  (∀ p cfg e, a ≤ p < a + Z.of_nat n → peers_ (plane (dl_world d)) !! p = Some cfg → pc_endpoint cfg = Some e → callable (env p) (local_static_ (plane (dl_world d))) cfg) →
  dials (λ p, a ≤ p < a + Z.of_nat n) d (dial_loop env now n a started d).
Proof.
  induction n as [|n IH]; intros a started d Hr Hcall.
  { split_and!; [by exists started|apply Hr|done|done|exists []; by rewrite app_nil_r|lia]. }
  cbn [dial_loop]. erewrite sbind_ok by reflexivity. unfold find_peer. destruct (peers_ (plane (dl_world d)) !! a ≫= pc_endpoint) as [e|] eqn:Ee.
  - apply bind_Some in Ee as (cfg & Hcfg & Ee). destruct (start_and_send_spec n (env a) now a cfg e d Hr Hcfg Ee (Hcall a cfg e ltac:(lia) Hcfg Ee)) as (w1 & o & E & Ho & Hr1 & Hf & Hc & Hp & _).
    rewrite (sbind_ok _ _ _ _ _ E). set (d1 := mkDialer _ _ _). destruct (IH (a + 1) (S started) d1 Hr1) as (B1 & B2 & B3 & B4 & [more B5] & B6).
    { intros p cfg' e' Hp'. change (dl_world d1) with w1. rewrite (fr_peers _ _ _ Hf), (fr_static _ _ _ Hf). apply Hcall. lia. }
    change (dl_world d1) with w1 in *. change (outbox d1) with (outbox d ++ [o]) in B5. assert (∀ p, current w1 p = current (dl_world d) p) as Hcur by (intros p; destruct (decide (p = a)) as [->|]; [done|by apply (fr_current _ _ _ Hf)]).
    assert (o ∈ outbox (dial_loop env now n (a + 1) (S started) d1).1) as Hin by (rewrite B5; apply elem_of_app; left; apply elem_of_app; right; by left).
    split_and!; [done|done|intros p; by rewrite B3| |exists (o :: more); by rewrite B5, <- app_assoc|].
    + intros p Hs. apply B4. destruct (decide (p = a)) as [->|]; [done|]. by rewrite (fr_pending _ _ _ Hf).
    + intros p cfg' e' Hr' Hcfg' He'. destruct (decide (p = a)) as [->|Hne]; [|apply (B6 p cfg'); [lia|by rewrite (fr_peers _ _ _ Hf)|done]].
      rewrite Hcfg in Hcfg'. injection Hcfg' as <-. rewrite Ee in He'. injection He' as <-. split; [by apply B4|by exists o].
  - destruct (IH (a + 1) started d (room_less _ _ Hr)) as (B1 & B2 & B3 & B4 & B5 & B6); [intros p cfg e Hp; apply Hcall; lia|]. split_and!; try done.
    intros p cfg e Hp Hcfg He. destruct (decide (p = a)) as [->|Hne]; [by rewrite Hcfg in Ee; cbn in Ee; congruence|]. apply (B6 p cfg); [lia|done|done].
Qed.

(** ** The change of the carrier *)

(** The selector and the carrier in use agree, and every registered transport
    has a carrier. *)
Record failover_ok (t : PathThresholds) (v : CarrierView) (f : Failover) : Prop := {
  fk_selector : selector_ok t (fo_paths f);
  fk_active : active_ (fo_paths f) = active_kind_ f;
  fk_carrier : carrier_ f = slot_of (active_kind_ f);
  fk_some : kinds (fo_paths f) ≠ [];
  fk_built : ∀ k, k ∈ kinds (fo_paths f) → built v (slot_of k) = true;
}.

Definition unmoved (f f' : Failover) : Prop :=
  active_kind_ f' = active_kind_ f ∧ carrier_ f' = carrier_ f ∧ switched_at_ f' = switched_at_ f ∧ looked (fo_world f) (fo_world f') ∧
  outbox (fo_dialer f') = outbox (fo_dialer f).

Definition moved (now : Instant) (f f' : Failover) : Prop :=
  active_kind_ f' ≠ active_kind_ f ∧ active_kind_ f' ∈ kinds (fo_paths f) ∧ switched_at_ f' = now ∧
  ∀ p, 1 ≤ p ≤ peer_count_ (dl_runtime (fo_dialer f)) → current (fo_world f') p = None ∧
    ∀ cfg e, peers_ (plane (fo_world f)) !! p = Some cfg → pc_endpoint cfg = Some e →
      is_Some (pending_ (plane (fo_world f')) !! p) ∧ ∃ o, o ∈ outbox (fo_dialer f') ∧ destination o = e.

(** The handshakes that a change needs can be made. *)
Definition equipped (env : Z → Env) (f : Failover) : Prop :=
  room (fo_peers f) (fo_world f) ∧
  ∀ p cfg e, 1 ≤ p ≤ peer_count_ (dl_runtime (fo_dialer f)) → peers_ (plane (fo_world f)) !! p = Some cfg → pc_endpoint cfg = Some e →
    callable (env p) (local_static_ (plane (fo_world f))) cfg.

Lemma change_carrier_spec env now chosen f : equipped env f → let r := change_carrier env now chosen f in
  r.2 = Ok tt ∧ plane_ok (fo_world r.1) ∧ fo_paths r.1 = fo_paths f ∧ active_kind_ r.1 = chosen ∧ carrier_ r.1 = slot_of chosen ∧ switched_at_ r.1 = now ∧
  ∀ p, 1 ≤ p ≤ peer_count_ (dl_runtime (fo_dialer f)) → current (fo_world r.1) p = None ∧
    ∀ cfg e, peers_ (plane (fo_world f)) !! p = Some cfg → pc_endpoint cfg = Some e →
      is_Some (pending_ (plane (fo_world r.1)) !! p) ∧ ∃ o, o ∈ outbox (fo_dialer r.1) ∧ destination o = e.
Proof.
  intros [Hr Hcall]. cbn zeta. unfold change_carrier. erewrite sbind_ok by reflexivity. erewrite sbind_ok by reflexivity. set (f1 := mkFailover _ _ _ _ _ _ _ _ _ _ _).
  change (fo_peers f1) with (fo_peers f). destruct (remove_sessions_spec (fo_peers f) (fo_peers f) 1 (fo_dialer f) Hr) as (w1 & E1 & Hr1 & Hp1 & Hn1 & _). fold (fo_world f) in Hp1.
  assert (on_dialer (remove_sessions (fo_peers f) 1) f1 = (with_dialer (put_world w1 (fo_dialer f)) f1, Ok tt)) as E2 by (unfold on_dialer; change (fo_dialer f1) with (fo_dialer f); by rewrite E1).
  rewrite (sbind_ok _ _ _ _ _ E2). set (f2 := with_dialer _ f1). destruct (dial_loop_spec env now (fo_peers f) 1 0 (fo_dialer f2) Hr1) as ((n & B1) & B2 & B3 & B4 & _ & B6).
  { intros p cfg e Hp. change (dl_world (fo_dialer f2)) with w1. rewrite Hp1. apply Hcall. unfold fo_peers in Hp. lia. }
  assert (on_dialer (dial_configured_peers env now) f2 = (with_dialer (dial_loop env now (fo_peers f) 1 0 (fo_dialer f2)).1 f2, Ok n)) as E3.
  { unfold on_dialer, dial_configured_peers. erewrite sbind_ok by reflexivity. change (Z.to_nat (peer_count_ (dl_runtime (fo_dialer f2)))) with (fo_peers f). by rewrite <- B1; destruct (dial_loop _ _ _ _ _ _). }
  rewrite (sbind_ok _ _ _ _ _ E3). cbn [fst snd sret]. split_and!; try done. intros p Hp.
  assert (1 ≤ p < 1 + Z.of_nat (fo_peers f)) as Hp' by (unfold fo_peers; lia). change (dl_world (fo_dialer f2)) with w1 in *.
  split; [change (current (dl_world (dial_loop env now (fo_peers f) 1 0 (fo_dialer f2)).1) p = None); rewrite B3; by apply Hn1|].
  intros cfg e Hcfg He. apply (B6 p cfg e Hp'); [by rewrite Hp1|done].
Qed.

(** What a check of the transport leaves; [go]: it had to be changed. *)
Definition outcome (t : PathThresholds) (v : CarrierView) (go : Prop) (now : Instant) (f : Failover) (r : Failover * res RuntimeError unit) : Prop :=
  r.2 = Ok tt ∧ failover_ok t v r.1 ∧ plane_ok (fo_world r.1) ∧ (go ∧ moved now f r.1 ∨ ¬ go ∧ unmoved f r.1).

Lemma unmoved_refl f : unmoved f f.
Proof. by split_and!. Qed.

Lemma outcome_stays t v (go : Prop) now f f' : failover_ok t v f' → plane_ok (fo_world f') → ¬ go → unmoved f f' → outcome t v go now f (f', Ok tt).
Proof. intros H1' H2' H3' H4'. split_and!; [done|done|done|]. by right. Qed.

(** Preparations that change nothing that matters. *)
Lemma outcome_from t v (go go' : Prop) now f f1 r : outcome t v go' now f1 r → (go ↔ go') → unmoved f f1 → fo_paths f1 = fo_paths f →
  peer_count_ (dl_runtime (fo_dialer f1)) = peer_count_ (dl_runtime (fo_dialer f)) → outcome t v go now f r.
Proof.
  intros (A1 & A2 & A3 & A4) Hgo (U1 & U2 & U3 & [U4 U5] & U6) Ep Ec. split_and!; [done|done|done|]. destruct A4 as [[Hg (M1 & M2 & M3 & M4)]|[Hg (M1 & M2 & M3 & M4 & M5)]].
  - left. split; [tauto|]. rewrite Ep in M2. rewrite Ec, U4 in M4. split_and!; [congruence|done|done|done].
  - right. split; [tauto|]. split_and!; [congruence|congruence|congruence|by eapply looked_trans|congruence].
Qed.

Lemma with_selector_ok t v s f : failover_ok t v f → selector_ok t s → active_ s = active_ (fo_paths f) → kinds s = kinds (fo_paths f) → failover_ok t v (with_selector s f).
Proof. intros [] Hs Ea Ek. split; cbn; try done; [congruence|by rewrite Ek|by rewrite Ek]. Qed.

Lemma decide_transport_spec t v env now unready stalled hearing attempted new_errors new_retries f : failover_ok t v f → equipped env f →
  (stalled = true → 0 < new_retries) → 0 ≤ new_errors →
  outcome t v (unready || stalled || (0 <? new_errors) = true ∧ may_move (fo_paths f) now) now f
    (decide_transport v env now unready stalled hearing attempted new_errors new_retries f).
Proof.
  intros Hf He Hst Hne. pose proof (rm_ok _ _ (proj1 He)) as Hw. unfold decide_transport. destruct (unready || stalled || (0 <? new_errors)) eqn:Ef; cbn [negb andb].
  - erewrite sbind_ok by reflexivity. set (sample := mkSample _ _ _ _).
    replace (negb unready && (attempted =? 0) && (new_errors =? 0) && (new_retries =? 0)) with false.
    2: { symmetry. apply not_true_iff_false. intros [[[Hu%negb_true_iff _]%andb_true_iff E1%Z.eqb_eq]%andb_true_iff E2%Z.eqb_eq]%andb_true_iff. subst unready new_errors new_retries. destruct stalled; [specialize (Hst eq_refl); lia|done]. }
    erewrite sbind_ok by reflexivity. cbn [fo_paths with_selector active_kind_]. rewrite <- (fk_active _ _ _ Hf).
    assert (registered (fo_paths f) ≠ []) as Hreg by (intros E; apply (fk_some _ _ _ Hf); unfold kinds; by rewrite E).
    destruct (unreachable_moves t (fo_paths f) sample now (fk_selector _ _ _ Hf) Hreg eq_refl) as [Hok2 Hm].
    pose proof (evaluate_kinds t (observe (fo_paths f) (active_ (fo_paths f)) sample) now (selector_observe_ok _ _ _ _ (fk_selector _ _ _ Hf))) as Ek. rewrite (observe_kinds t) in Ek by apply Hf.
    destruct (evaluate (observe (fo_paths f) (active_ (fo_paths f)) sample) now) as [s [|]]; cbn [fst snd negb] in *; erewrite sbind_ok by reflexivity.
    + destruct Hm as (Hmay & Hnew & p & Hp & Hkp). rewrite bool_decide_eq_false_2 by done.
      assert (active_ s ∈ kinds (fo_paths f)) as Hin by (rewrite <- Hkp; by apply list_elem_of_fmap_2). rewrite (fk_built _ _ _ Hf _ Hin). cbn [negb].
      destruct (change_carrier_spec env now (active_ s) (with_selector s (with_selector (observe (fo_paths f) (active_ (fo_paths f)) sample) f)) He) as (C1 & C2 & C3 & C4 & C5 & C6 & C7).
      destruct (change_carrier env now (active_ s) _) as [f' r]. cbn [fst snd] in *. split_and!; [done| |done|].
      * cbn [fst]. split; rewrite ?C3, ?C4, ?C5; cbn [fo_paths with_selector]; [done|done|done|by rewrite Ek; apply Hf|rewrite Ek; apply Hf].
      * left. split; [done|]. unfold moved. cbn [fst]. rewrite C4, (eq_sym (fk_active _ _ _ Hf)). by split_and!.
    + destruct Hm as [Hno Ha]. apply outcome_stays; [|done|tauto|by split_and!]. by apply (with_selector_ok t v s f).
  - destruct hearing; [|apply outcome_stays; [done|done|by intros []|apply unmoved_refl]]. cbn [negb]. erewrite sbind_ok by reflexivity. apply orb_false_iff in Ef as [_ Ef%Z.ltb_ge]. replace (new_errors =? 0) with true by (symmetry; apply Z.eqb_eq; lia).
    cbn [andb]. destruct (observe_frame (fo_paths f) (active_kind_ f) (mkSample (of_int (Z.quot (view_rtt v) 1000)) (of_int 0) new_errors true)) as (F1 & _ & _).
    destruct (_ && _ && _ && _); (apply outcome_stays; [|done|by intros []|by split_and!]); (apply with_selector_ok; [done|apply selector_observe_ok, Hf|done|apply (observe_kinds t), Hf]).
Qed.

(** ** The verdict *)

Definition new_errors (v : CarrierView) (f : Failover) : Z := since_last (u64 (tx_errors (carrier_stats v) + rx_errors (carrier_stats v))) (last_tx_errors_ f).
Definition new_retries (f : Failover) : Z := since_last (control_stats_ (plane (fo_world f)) retries) (last_retries_ f).
Definition hearing (now : Instant) (f : Failover) : bool := existsb (λ p, heard now (current (fo_world f) p)) (seqZ 1 (Z.of_nat (fo_peers f))).
Definition stalls (now : Instant) (f : Failover) : Z := if (0 <? new_retries f) && negb (hearing now f) then u32 (consecutive_stalls_ f + 1) else 0.

(** The transport in use has failed: its connection is not up, or handshakes
    have been repeated into silence at three checks in a row, or there are new
    errors. *)
Definition broken (v : CarrierView) (now : Instant) (f : Failover) : bool :=
  not_ready v f || (kStallsBeforeFallback <=? stalls now f) || (0 <? new_errors v f).

(** The check is due, and a connection has had its time to come up. *)
Record due (v : CarrierView) (now : Instant) (f : Failover) : Prop := {
  du_automatic : automatic_fallback_ f = true;
  du_settled : switched_at_ f = 0 ∨ kTransportSettleTime ≤ now - switched_at_ f;
  du_interval : kTransportCheckInterval ≤ now - last_path_check_ f;
  du_patience : not_ready v f = true → not_ready_since_ f ≠ 0 ∧ kTransportNotReadyLimit ≤ now - not_ready_since_ f;
}.

Lemma since_last_nonneg total last : 0 ≤ since_last total last.
Proof. unfold since_last. destruct (Z.ltb_spec last total); lia. Qed.

Lemma judge_spec t v env now f : failover_ok t v f → equipped env f →
  outcome t v (broken v now f = true ∧ may_move (fo_paths f) now) now f (judge v env now (not_ready v f) f).
Proof.
  intros Hf [Hr Hcall]. unfold judge. erewrite sbind_ok by reflexivity. erewrite sbind_ok by reflexivity. set (f1 := with_counts _ _ _ f).
  destruct (hears_spec now (fo_peers f) (fo_peers f) 1 (fo_dialer f) Hr) as (w1 & E1 & Hr1 & Hp1 & Hc1). fold (fo_world f) in E1, Hp1, Hc1. fold (hearing now f) in E1.
  assert (on_dialer (hears now (fo_peers f) 1) f1 = (with_dialer (put_world w1 (fo_dialer f)) f1, Ok (hearing now f))) as E2 by (unfold on_dialer; change (fo_dialer f1) with (fo_dialer f); by rewrite E1).
  rewrite (sbind_ok _ _ _ _ _ E2). erewrite sbind_ok by reflexivity. set (f2 := with_dialer _ f1). change (fo_world f2) with w1. rewrite Hp1. change (last_retries_ f2) with (last_retries_ f). change (consecutive_stalls_ f2) with (consecutive_stalls_ f).
  fold (new_errors v f) (new_retries f) (stalls now f). erewrite sbind_ok by reflexivity. set (f3 := with_counts _ _ _ f2).
  eapply (outcome_from _ _ _ _ _ f f3); [apply decide_transport_spec| |by split_and!|done|done].
  - by destruct Hf.
  - split; [exact Hr1|]. intros p cfg e. change (fo_world f3) with w1. rewrite Hp1. apply Hcall.
  - intros Hs%Z.leb_le. unfold stalls in Hs. destruct (Z.ltb_spec 0 (new_retries f)); [done|]. unfold kStallsBeforeFallback in Hs. cbn [andb] in Hs. lia.
  - apply since_last_nonneg.
  - reflexivity.
Qed.

(** C17. Change of the transport, where the plane has room and usable keys to
    dial ([equipped]) and every registered transport has the carrier built for
    it ([failover_ok]): with automatic fallback, a check changes the
    transport exactly when it is due, the one in use has failed (its connection
    has been down for thirty seconds, or handshakes go unanswered at three
    checks in a row, or the carrier has new errors) and there is another one
    that works, is untried or may be tried again.  Then the carrier is one that
    exists and was registered, no peer keeps a session, and every peer with a
    configured endpoint is being dialled over the new carrier.  Otherwise
    carrier, sessions and handshakes stay as they are. *)
Theorem transport_failover t v env now f : failover_ok t v f → equipped env f →
  let r := evaluate_transport_paths v env now f in
  let go := due v now f ∧ broken v now f = true ∧ may_move (fo_paths f) now in
  r.2 = Ok tt ∧ failover_ok t v r.1 ∧ plane_ok (fo_world r.1) ∧ (go ∧ moved now f r.1 ∨ ¬ go ∧ unmoved f r.1).
Proof.
  intros Hf He. cbn zeta. change (outcome t v (due v now f ∧ broken v now f = true ∧ may_move (fo_paths f) now) now f (evaluate_transport_paths v env now f)). unfold evaluate_transport_paths. erewrite sbind_ok by reflexivity.
  pose proof (rm_ok _ _ (proj1 He)) as Hw. assert (∀ f', failover_ok t v f' → plane_ok (fo_world f') → ¬ due v now f → unmoved f f' → outcome t v (due v now f ∧ broken v now f = true ∧ may_move (fo_paths f) now) now f (f', Ok tt)) as Hstay.
  { intros f' H1' H2' H3' H4'. apply outcome_stays; [done|done|by intros [? _]|done]. }
  destruct (automatic_fallback_ f) eqn:Ea; cbn [negb]; [|apply Hstay; [done|done|by intros []; congruence|apply unmoved_refl]].
  destruct (negb (switched_at_ f =? 0) && (now - switched_at_ f <? kTransportSettleTime)) eqn:Es.
  { apply andb_true_iff in Es as [Es1%negb_true_iff%Z.eqb_neq Es2%Z.ltb_lt]. apply Hstay; [done|done|intros [_ [?|?] _ _]; lia|apply unmoved_refl]. }
  destruct (Z.ltb_spec (now - last_path_check_ f) kTransportCheckInterval) as [Hi|Hi]; [apply Hstay; [done|done|intros [_ _ ? _]; lia|apply unmoved_refl]|].
  assert (switched_at_ f = 0 ∨ kTransportSettleTime ≤ now - switched_at_ f) as Hset by (apply andb_false_iff in Es as [Es%negb_false_iff%Z.eqb_eq|Es%Z.ltb_ge]; [by left|by right]).
  erewrite sbind_ok by reflexivity.
  assert (∀ since, failover_ok t v (with_not_ready since (with_check now f)) ∧ (due v now f → outcome t v (due v now f ∧ broken v now f = true ∧ may_move (fo_paths f) now) now f (judge v env now (not_ready v f) (with_not_ready since (with_check now f))))) as Hgo.
  { intros since. assert (failover_ok t v (with_not_ready since (with_check now f))) as Hok by (by destruct Hf). split; [done|]. intros Hd.
    eapply outcome_from; [apply (judge_spec t v env now (with_not_ready since (with_check now f)) Hok He)|change (broken v now (with_not_ready since (with_check now f))) with (broken v now f); tauto|by split_and!|done|done]. }
  destruct (not_ready v f) eqn:En.
  - assert (∃ since, (if not_ready_since_ f =? 0 then modify (with_not_ready now) else sret tt) (with_check now f) = (with_not_ready since (with_check now f), Ok (E:=RuntimeError) tt) ∧ since = if not_ready_since_ f =? 0 then now else not_ready_since_ f) as (since & E & Hsince).
    { destruct (not_ready_since_ f =? 0); [by exists now|]. exists (not_ready_since_ f). split; [by destruct f|done]. }
    rewrite (sbind_ok _ _ _ _ _ E). erewrite sbind_ok by reflexivity. cbn [not_ready_since_ with_not_ready]. destruct (Hgo since) as [Hok Hd].
    destruct (Z.ltb_spec (now - since) kTransportNotReadyLimit) as [Hl|Hl].
    + apply Hstay; [done|done| |by split_and!]. intros [_ _ _ Hp]. destruct (Hp En) as [Hz Hlim]. rewrite (proj2 (Z.eqb_neq _ _) Hz) in Hsince. lia.
    + apply Hd. split; [done|done|lia|]. intros _. destruct (Z.eqb_spec (not_ready_since_ f) 0) as [Hz|Hz]; [exfalso; unfold kTransportNotReadyLimit, seconds in Hl; lia|]. split; [done|lia].
  - erewrite sbind_ok by reflexivity. apply (Hgo 0). split; [done|done|lia|congruence].
Qed.
End moves.

(** The error counter of the new carrier is compared with zero, not with its
    value at the change: errors that the carrier had before, when it was in use
    earlier, count as new at the first check and make it leave again. *)
Lemma old_errors_count `{HeapFunctions, Aead, Dh} env now chosen f v later : let f' := (change_carrier env now chosen f).1 in
  0 < u64 (tx_errors (carrier_stats v) + rx_errors (carrier_stats v)) → broken v later f' = true.
Proof.
  cbn zeta. intros He. assert (last_tx_errors_ (change_carrier env now chosen f).1 = 0) as E.
  { unfold change_carrier, sbind, modify, state, gets, on_dialer. destruct (remove_sessions _ _ _) as [d [u|e|]]; [|done..]. by destruct (dial_configured_peers _ _ _) as [d' [n|e|]]. }
  unfold broken, new_errors, since_last. rewrite E, (proj2 (Z.ltb_lt _ _) He). apply orb_true_iff. right. apply Z.ltb_lt. lia.
Qed.

(** A node that uses UDP, whose socket reports an error, and could use TCP. *)
Section sample.
#[local] Existing Instances sorting_heap toy_aead toy_laws toy_dh toy_dh_laws.

Definition two_paths : PathSelector := add_path (add_path (new_selector default_path_thresholds) udp) tcp_tls.
Definition erring : CarrierView := mkView (λ _, true) (λ _, true) (mkTransportStats 0 0 0 0 0 1 0 0 0) 0.
Definition erring_node : Failover := mkFailover stale_node two_paths true udp udp_slot 0 0 0 0 0 0.

Lemma transport_failover_witness : let r := evaluate_transport_paths erring (λ _, sample_env) (seconds 86400) erring_node in
  active_kind_ r.1 = tcp_tls ∧ carrier_ r.1 = tcp_slot ∧ is_Some (current (fo_world erring_node) 5) ∧ current (fo_world r.1) 5 = None ∧ is_Some (pending_ (plane (fo_world r.1)) !! 5).
Proof.
  cbn zeta. assert (kinds two_paths = [udp; tcp_tls]) as Ek by (by vm_compute). assert (is_Some (current (fo_world erring_node) 5)) as Hs by (by vm_compute; eexists).
  destruct (transport_failover default_path_thresholds erring (λ _, sample_env) (seconds 86400) erring_node) as (_ & Hok & _ & Hm).
  - split; [apply add_path_ok, add_path_ok, new_selector_ok|by vm_compute|done|change (kinds two_paths ≠ []); by rewrite Ek|done].
  - split; [exact stale_room|]. intros p cfg e _ Hcfg _. exact (stale_callable p cfg Hcfg).
  - destruct Hm as [[_ (M1 & M2 & _ & M4)]|[Hn _]].
    + change (kinds (fo_paths erring_node)) with (kinds two_paths) in M2. rewrite Ek in M2. apply elem_of_cons in M2 as [M2|M2%list_elem_of_singleton]; [by destruct M1|]. pose proof (fk_carrier _ _ _ Hok) as Hc. rewrite M2 in Hc.
      destruct (M4 5) as [M5 M6]; [cbn; lia|]. split; [exact M2|]. split; [exact Hc|]. split; [exact Hs|]. split; [exact M5|]. destruct (M6 sample_peer sample_source) as [M7 _]; [exact eq_refl|exact eq_refl|exact M7].
    + exfalso. apply Hn. split; [split; [done|by left|done|done]|]. split; [by vm_compute|]. split; [by left|]. exists (new_path tcp_tls). split; [|split; [done|right; by left]].
      change (registered (fo_paths erring_node)) with [new_path udp; new_path tcp_tls]. right. by left.
Defined.
End sample.
