(* ===== verification/WorkerPromotion.v ===== *)
(** The promotion of provisional sessions, between the worker and the control
    plane: the function the runtime registers with
    [Worker::set_provisional_opener] (src/src/runtime.cpp) calls
    [ControlPlane::try_promote_provisional] on the sessions and ciphers the two
    share.  It keeps the promise of [HandlerLaws], on which the theorems on the
    worker's ingress rest. *)

From S2P Require Import Prelude Packet Nonce Handshake Address Routing Timers RateLimit Blake2s Crypto Noise.
From S2P Require Import ReplayWindow Session SessionTable Cookie ControlPlane Worker WorkerIngress.

(** What the control plane sees of the worker. *)
Definition world_of (c : ControlPlane) (timers : list TimerEvent) (w : Worker) : World :=
  mkWorld c (heap w) (table_ (links w)) timers (contexts_ (links w)).

(** The worker after the control plane has worked on what they share. *)
Definition worker_of (world : World) (out : list Z) (w : Worker) : Worker :=
  set_decrypt out (on_links (λ l, mkLinks (ControlPlane.heap world) (table world) (contexts world) (trace_ l)) w).

Section promotion.
Context `{Aead} `{!AeadLaws}.

(** The lambda of [set_provisional_opener]; the packet it opens is recorded. *)
Definition provisional_opener (env : Env) (c : ControlPlane) (timers : list TimerEvent)
    (view : PacketView) (datagram : list Z) (source : Endpoint) (w : Worker) : Worker * option Z :=
  let '(world, out, opened) :=
    try_promote_provisional env view datagram (decrypt_buffer_ (buffers w)) source (world_of c timers w) in
  let w := worker_of world out w in
  match opened with
  | Ok n =>
      (match sessions_ (table world) !! key_id (header view) with
       | Some p => emits (Opened p (Packet.counter (header view)) (take (Z.to_nat n) out)) w
       | None => w
       end, Some n)
  | _ => (w, None)
  end.

(** The provisional entries are filed under their key ids and have keys. *)
Definition provisional_filed (c : ControlPlane) : Prop :=
  map_Forall (λ key entry, pv_local_key_id entry = key ∧ pv_peer entry ≠ kNoPeer ∧ res_receive (pv_result entry) ≠ zero_key)
    (provisional_ c).

Lemma install_cases now h t peer id s :
  (∃ e, install now h t peer id s = (h, t, Fail e)) ∨
  ∃ t', install now h t peer id s = (h ++ [s], t', Ok (length h)) ∧ sessions_ t' !! id = Some (length h).
Proof.
  unfold install. case_match; [left; by eexists|]. case_match; [left; by eexists|]. case_match; [left; by eexists|].
  right. destruct (match by_peer_ t !! peer with Some _ => _ | None => _ end) as [[sessions by_peer] retired].
  rewrite lookup_delete_eq. eexists. split; [done|]. cbn. by rewrite lookup_insert_eq.
Qed.

Lemma promote_spec env key entry s source world :
  (∃ world' e, promote env key entry s source world = (world', Fail e) ∧
     ControlPlane.heap world' = ControlPlane.heap world ∧ contexts world' = contexts world) ∨
  ∃ world', promote env key entry s source world = (world', Ok tt) ∧
    ControlPlane.heap world' = ControlPlane.heap world ++ [note_authenticated_endpoint s source] ∧ contexts world' = contexts world ∧
    sessions_ (table world') !! pv_local_key_id entry = Some (length (ControlPlane.heap world)).
Proof.
  unfold promote, put_session, note_endpoint, learn_endpoint, cancel_timer, schedule_timer, count, sbind, modify.
  destruct (install_cases (steady_now env) (ControlPlane.heap world) (table world) (pv_peer entry) (pv_local_key_id entry) s)
    as [[e E]|(t & E & Ht)]; rewrite E; cbn -[schedule cancel alter].
  - left. by eexists _, _.
  - right. destruct (schedule _ _ _ _) as [l b]. cbn. eexists. split; [reflexivity|]. cbn. split; [|done].
    rewrite <- (Nat.add_0_r (length _)). etransitivity; [apply (alter_app_r (λ s, note_authenticated_endpoint s source) (ControlPlane.heap world) [s] 0)|done].
Qed.

(** Opening on a session that is filed afterwards is a run of that session in
    its place. *)
Lemma filed_session h (s : Session) ops p : p = length h →
  h ++ [(run s ops).1] = <[p := (run s ops).1]> (h ++ [s]).
Proof. intros ->. by rewrite insert_app_r_alt, Nat.sub_diag by lia. Qed.

Lemma handled_filed w (s : Session) t c out es : session_live s → session_inv s es →
  (contexts_ok (contexts_ (links w)) → contexts_ok c) →
  handled w (set_decrypt out (on_links (λ l, mkLinks (heap w ++ [s]) t c (trace_ l)) w)).
Proof.
  intros Hl Hi Hc. split; try done; [|exists []; by rewrite app_nil_r]. unfold heap at 2. cbn. split.
  - intros p s' E. exists []. split; [done|]. by apply lookup_app_l_Some.
  - intros p s' Hn [E|[_ E]]%lookup_app_Some; [unfold heap in *; congruence|].
    apply list_lookup_singleton_Some in E as [_ <-]. by split; [|exists es].
Qed.

Lemma handled_shared w t c out : (contexts_ok (contexts_ (links w)) → contexts_ok c) →
  handled w (set_decrypt out (on_links (λ l, mkLinks (heap w) t c (trace_ l)) w)).
Proof. intros Hc. split; try done; [apply advance_refl|exists []; by rewrite app_nil_r]. Qed.

(** The function opens the packet with the session it files, or opens nothing. *)
Lemma opener_promoted env c timers view datagram source w : provisional_filed c →
  is_u64 (Packet.counter (header view)) → contexts_ok (contexts_ (links w)) →
  match provisional_opener env c timers view datagram source w with
  | (w', None) => handled w w'
  | (w', Some n) => promoted w w' view n
  end.
Proof.
  intros Hf Hu Hc. unfold provisional_opener, try_promote_provisional. cbn [plane world_of].
  destruct (provisional_ c !! key_id (header view)) as [entry|] eqn:Ee; [|by apply handled_shared].
  destruct (map_Forall_lookup_1 _ _ _ _ Hf Ee) as (Ekey & Hpeer & Hkey).
  set (s0 := new_session _ _ _ _ _ _). assert (session_live s0) as Hl by done.
  pose proof (open_steps (status env 0) (steady_now env) (contexts (world_of c timers w)) s0 view datagram
    (decrypt_buffer_ (buffers w)) Hc Hl Hu) as [Hc' Ho].
  destruct (Session.open _ _ _ _ _ _ _) as [[[c1 s1] out] r]. cbn [fst snd] in Hc', Ho.
  destruct r as [n|e|]; [|by apply handled_shared..].
  destruct Ho as ((text & Hdec & -> & Hlen & ->) & -> & Hd). set (cnt := Packet.counter (header view)) in *.
  set (s1 := (run s0 _).1). set (out := text ++ _).
  destruct (promote_spec env (key_id (header view)) entry s1 source (ControlPlane.with_contexts (world_of c timers w) c1))
    as [(world & e & -> & Eh & Ec)|(world & -> & Eh & Ec & Et)]; cbn [rbind].
  { unfold worker_of. rewrite Eh, Ec. by apply handled_shared. }
  rewrite Ekey in Et. rewrite Et. cbn [ControlPlane.with_contexts ControlPlane.heap contexts world_of] in Eh, Ec, Et |- *.
  set (ops := [do_check cnt; do_commit (steady_now env) cnt] ++ [do_endpoint source]).
  assert (note_authenticated_endpoint s1 source = (run s0 ops).1) as Es by (unfold ops; by rewrite run_app_state, run_one).
  assert (take (Z.to_nat (blen text)) out = text) as Eo by (unfold blen, out; by rewrite Nat2Z.id, take_app_length).
  exists (set_decrypt out (on_links (λ l, mkLinks (heap w ++ [s0]) (table world) c1 (trace_ l)) w)), (length (heap w)), s0, ops, text.
  split; [by apply (handled_filed w s0 _ _ _ []); [|apply new_session_inv|]|].
  split; [unfold heap; cbn; apply list_lookup_middle; reflexivity|]. split; [unfold ops; cbn [app]; repeat first [apply Forall_nil_2|apply Forall_cons_2]; done|].
  split; [unfold ops; rewrite run_app, run_one; unfold delivered_of in *; by rewrite omap_app, Hd|]. split; [done|].
  split; [|split; [done|]].
  - rewrite Eo. unfold worker_of, emits, with_session, on_links, set_decrypt. cbn. rewrite Eh, Ec, Es, (filed_session _ s0 ops (length (heap w))) by done. done.
  - cbn. unfold span_first. rewrite Eo. rewrite decide_True; [done|]. unfold out, blen. rewrite length_app. lia.
Qed.

(** The handlers of a runtime whose control plane is in any state with filed
    entries; the other functions are not registered. *)
Definition promoting (control : Worker → Env * ControlPlane * list TimerEvent) : Handlers := {|
  session_request_ := None; echo_responder_ := None; echo_reply_handler_ := None;
  loss_report_handler_ := None; ingress_filter_ := None;
  provisional_opener_ := Some (λ view datagram source w,
    let '(env, c, timers) := control w in provisional_opener env c timers view datagram source w);
|}.

Lemma promoting_laws control : (∀ w, provisional_filed (control w).1.2) → HandlerLaws (H3:=promoting control).
Proof.
  intros Hf. split; try done. intros f view d source w [= <-] Hu Hc. specialize (Hf w).
  destruct (control w) as [[env c] timers]. by apply opener_promoted.
Qed.
End promotion.

(** ** The first packet of a new session *)

Definition answered_env : Env :=
  mkEnv true 100 12345 true [9; 1] (λ _, all_well) (λ _, None) None true [] [] [].
(** A control plane that has answered peer 5 and waits for its first packet. *)
Definition answered_plane : ControlPlane :=
  with_provisional (new_plane (mkKeyPair [] []))
    {[1 := mkProvisional 5 1 77 (mkResult (key_ sample_keys) (key_ sample_keys) [] []) sample_endpoint 90]}.
Definition sample_control (_ : Worker) : Env * ControlPlane * list TimerEvent := (answered_env, answered_plane, []).

Lemma sample_control_filed w : provisional_filed (sample_control w).1.2.
Proof. apply map_Forall_singleton. by split_and!. Qed.

(** The worker has no session; the packet of the peer confirms the provisional
    one and is delivered. *)
Example first_packet_promotes :
  let _ := toy_aead in let _ := promoting sample_control in
  let w := new_worker (mkLinks [] new_session_table (new_contexts true) []) sample_routes in
  trace (worker_step (H1:=sample_surroundings) (Transport sample_endpoint sample_datagram 200) w) =
    [Opened 0 0 sample_frame; Wrote sample_frame true].
Proof. vm_compute. reflexivity. Qed.
